(* ===== verification/_CoqProject ===== *)
-Q . S2P
Prelude.v
Index1D.v
Trigger.v
HOOMDMath.v
VectorMath.v
BoxDim.v
AABBTree.v
AABBTreeProps.v
AABBTreeBuild.v
Autotuner.v
Variant.v
GPUArray.v
GPUArrayCoherence.v
GPUVector.v
ParticleData.v
ParticleDataProps.v
ParticleDataSpec.v
ParticleFilter.v
ParticleGroup.v
ParticleGroupSpec.v
BondedGroupData.v
BondedGroupDataProps.v
BondedGroupDataSpec.v
BondedGroupTable.v
CellList.v
CellListAdj.v
CellListProps.v
CellListSpec.v
SystemDefinition.v
SystemDefinitionSpec.v
SFCPackTuner.v
HilbertCurve.v
SFCPackTunerSpec.v
PairEvaluators.v
PairEvaluatorsProps.v
PairEvaluatorsSpec.v
PotentialPair.v
PotentialPairTables.v
PotentialPairCutoff.v
PotentialPairSpec.v
System.v
SystemSpec.v
NeighborList.v
NeighborListBinned.v
NeighborListProps.v
NeighborListCutoffs.v
NeighborListExclusions.v
NeighborListVerlet.v
NeighborListBuild.v
NeighborListNear.v
NeighborListSpec.v
NeighborListCompute.v
PairForces.v
RandomNumbers.v
XenoCollide.v
HPMC.v
HPMCMono.v
HPMCMonoProps.v
HPMCMonoSweep.v
HPMCMonoSpec.v
HPMCMonoExamples.v
HPMCMonoCount.v
UpdaterBoxMC.v
UpdaterBoxMCSpec.v
UpdaterBoxMCTrial.v
