(* ===== verification/Prelude.v ===== *)
(** * HOOMD-blue: a verified model of its core

    HOOMD-blue simulates particles: molecular dynamics ([hoomd/md]), hard-particle
    Monte Carlo ([hoomd/hpmc]) and collision dynamics ([hoomd/mpcd]) on a shared
    core ([hoomd/*.h], [hoomd/*.cc]). This development models the data structures
    and the bookkeeping of that core, the run loop, and on top of it the pair
    forces of the molecular dynamics and the hard-particle Monte Carlo of one rank,
    and proves them correct.

    ** The parts and how they interact

    - Arrays. [GPUArray] keeps a host and a device copy of a buffer and moves data
      between them when a handle is acquired; [GPUVector] is a growable vector on
      top of it. Every particle property is such an array.
    - Geometry. [BoxDim] is the periodic simulation box, [VectorMath] the vectors,
      quaternions and rotation matrices, [Index1D] the maps from grid coordinates
      to array indices, [AABB] and [AABBTree] the bounding volume hierarchy that
      answers overlap queries.
    - Particles. [ParticleData] holds the local particles of a rank in arbitrary
      order, names them by global tags and keeps the reverse lookup from tags to
      indices while particles are added, removed, migrated and loaded from
      snapshots. It announces changes by signals.
    - Selection. A [ParticleFilter] selects tags; a [ParticleGroup] holds the
      members of a selection with lookup tables that it rebuilds lazily when the
      particle data has signalled a change.
    - Bonds. [BondedGroupData] keeps tuples of particle tags (bonds, angles,
      dihedrals, constraints, special pairs) under tags of their own, with a table
      by particle index that it rebuilds lazily after the particles were reordered.
    - The system. [SystemDefinition] owns the particles and the groups; snapshots
      of all of them are taken, loaded, replicated and wrapped. [SFCPackTuner]
      sorts the particles along a Hilbert curve, which every other part must
      survive. [Autotuner] searches launch parameters by timing.
    - Time. A [Trigger] says at which steps an operation runs, a [Variant] gives
      the value of a parameter (or of the box) at a step. [System] runs tuners,
      updaters, the integrator and analyzers step by step and asks the triggers
      which of them are due and which quantities the next step must compute.
    - Interactions. [CellList] bins the particles; [NeighborListBinned] finds the
      neighbours of every particle in the cells around it; [NeighborList] decides
      when its list is stale, translates the exclusions and removes the excluded
      pairs; [PotentialPair] walks the list and sums the forces, energies and
      virials that a pair evaluator ([PairEvaluators]) gives.
    - Monte Carlo. The integrator ([HPMCMono]) moves every particle in a shuffled
      order: it draws a trial ([RandomNumbers]), looks up the particles around it
      in the tree over the list of periodic images, tests the shapes for overlap
      (spheres, or [XenoCollide] for convex bodies), adds the energies of the
      potentials ([HPMC]) and accepts or rejects. The box updater ([UpdaterBoxMC])
      scales the particles to a trial box, asks the integrator for overlaps,
      restores the backup on rejection, and reduces a sheared box to an equivalent
      one. The box changes reach the integrator as signals that invalidate its
      images and its tree.

    ** Files

    - [Prelude] (this file): errors, machine integers, arrays, the monad of checked
      memory accesses ([run]), tactics.
    - [HOOMDMath] models [hoomd/HOOMDMath.h]: scalars and small vectors.
    - [Index1D] models [hoomd/Index1D.h], one module per class, in 32-bit
      arithmetic. The index maps are bijections onto the index range.
    - [Trigger] models [hoomd/Trigger.h]: a store of trigger objects that share
      children and cache their last answer. A call answers what an uncached
      evaluation answers, and the caches stay correct.
    - [VectorMath] models [hoomd/VectorMath.h] over any scalar type (the source's
      template parameter): the algebraic laws hold in every commutative ring, the
      round trip through rotation matrices is proved over the reals. Unit
      quaternions act as rotations, rotations are isometries, and the conversion
      to a matrix and back gives the quaternion up to sign.
    - [BoxDim] models [hoomd/BoxDim.h] on exact rationals. [wrap], [minImage] and
      [getImage] change a point by a lattice vector and land in the cell;
      fractional coordinates round-trip.
    - [AABBTree], [AABBTreeProps], [AABBTreeBuild] model [hoomd/AABB.h] and
      [hoomd/AABBTree.h]. The node array is the pre-order layout of a tree; the
      refinement goes through that tree ([rep], [skips], [encl]). Every query
      after a build and any updates finds every overlapping particle.
    - [Variant] models [hoomd/Variant.h] and the box variants of
      [hoomd/VectorVariant.h] on exact rationals and 64-bit steps.
    - [GPUArray] models [hoomd/GPUArray.h] with the device and the allocators as
      parameters; [GPUArrayCoherence] proves that a client of the handles sees
      one array, whichever side it acquires, through copies, moves and resizes.
    - [GPUVector] models [hoomd/GPUVector.h] against an interface ([Class]) of
      arrays that [GPUArray] implements, and refines it to a list.
    - [ParticleData] models the host code of [hoomd/ParticleData.h] and
      [hoomd/ParticleData.cc]; [ParticleDataProps] has the invariant ([wf]), the
      step relation and the lemmas per operation, [ParticleDataSpec] the
      properties: the bookkeeping in every reachable state, what adding,
      removing, migrating and loading do to every particle, the order of
      snapshots, accessors, memory growth.
    - [ParticleFilter] models [hoomd/filter/ParticleFilter*.h] and proves the set
      semantics of filter expressions.
    - [ParticleGroup] models [hoomd/ParticleGroup.h] and [hoomd/ParticleGroup.cc]
      with checked array accesses; [ParticleGroupSpec] states the interface
      between particle data and observers ([Observable]), shows that the
      operations of the particle data and the migration implement it, and proves
      the groups against it: lazy rebuilding is transparent, when a query can
      fail, combinations and sums.
    - [Autotuner] models [hoomd/Autotuner.h]: the state machine of the scans. Every
      scan ends and picks a parameter with the best median.
    - [BondedGroupData] models [hoomd/BondedGroupData.h] and
      [hoomd/BondedGroupData.cc], the template parameter as a type class;
      [BondedGroupDataProps] has its invariant, [BondedGroupDataSpec] refines its
      operations to a map from tags to groups and proves the snapshot round trip,
      [BondedGroupTable] proves that the two-pass table by particle index is what
      its reference says and that the lazy rebuild hides every change of the
      particles, for all instances of [Observable].
    - [CellList] models [hoomd/CellList.h], [hoomd/CellList.cc] and the base class of
      [hoomd/Compute.cc]; [CellListAdj] has the adjacency list, [CellListProps] the
      binning and the overflow loop, [CellListSpec] the properties: a computation
      ends and bins every particle or reports one that left the box, and particles
      that are close are in cells the adjacency list connects.
    - [SystemDefinition] models [hoomd/SystemDefinition.cc],
      [hoomd/SnapshotSystemData.cc] and the snapshots of [hoomd/ParticleData.cc];
      [SystemDefinitionSpec] proves that replication tiles the larger box with
      translated copies, that wrapping keeps unwrapped positions, and the round
      trip of a whole system.
    - [SFCPackTuner] models [hoomd/SFCPackTuner.h] and [hoomd/SFCPackTuner.cc];
      [HilbertCurve] proves that its recursion builds a Hilbert curve,
      [SFCPackTunerSpec] that the sort is a reordering along it that every particle
      survives, and that it implements [Observable].
    - [PairEvaluators] models [hoomd/md/EvaluatorPair*.h] over any scalar type with
      the functions they call ([RealFun]); [PairEvaluatorsProps] proves the calculus
      of each potential over the real numbers ([Conservative]),
      [PairEvaluatorsSpec] that every force is the negative derivative of its
      energy, the long range corrections of Lennard-Jones and the alchemical
      derivatives.
    - [PotentialPair] models [hoomd/md/PotentialPair.h] over any evaluator;
      [PotentialPairTables] has the tables by pair of types, [PotentialPairCutoff]
      the shifted and smoothed potentials, [PotentialPairSpec] the loops: they are
      a sum over the entries of the list and the half list conserves momentum.
    - [System] models [hoomd/System.h] and [hoomd/System.cc] over any world that
      the operations act on; [SystemSpec] proves that a run is the schedule the
      triggers give, with the flags each step needs.
    - [NeighborList] models [hoomd/md/NeighborList.h] and
      [hoomd/md/NeighborList.cc], [NeighborListBinned] models
      [hoomd/md/NeighborListBinned.cc]. [NeighborListProps] has the memory, the
      interface between a list and its build ([Builder]) and the filter of excluded
      pairs, [NeighborListCutoffs] the cutoffs by pair of types,
      [NeighborListExclusions] the exclusions by tag and their translation to
      indices, [NeighborListVerlet] the distance check, [NeighborListBuild] that
      the binned build implements [Builder], [NeighborListNear] the geometry of
      the cells, [NeighborListSpec] that the exclusions refine a set of pairs and
      that a list the check keeps misses no pair in range, [NeighborListCompute]
      that a computation ends with the list of exactly the pairs in range that are
      not excluded.
    - [PairForces] composes the two: the forces computed over the neighbour list
      are the sum over all pairs of particles of the system.
    - [RandomNumbers] models [hoomd/RandomNumbers.h] and [hoomd/RNGIdentifiers.h]
      with the block function of the Philox generator as a parameter: streams do
      not collide, draws stay in their bounds.
    - [XenoCollide] models [hoomd/hpmc/XenoCollide3D.h], the composite of
      [hoomd/hpmc/MinkowskiMath.h] and the support functions and overlap tests of
      [hoomd/hpmc/ShapeConvexPolyhedron.h] and [hoomd/hpmc/ShapeSpheropolyhedron.h]
      over any scalar type: a negative answer has a separating direction.
    - [HPMC] models the parts of [hoomd/hpmc] that the integrator uses: counters,
      moves, the shape interface ([Shape]) with spheres as an instance, pair and
      external potentials. [HPMCMono] models [hoomd/hpmc/IntegratorHPMCMono.h] and
      [hoomd/hpmc/IntegratorHPMC.cc] for any [Shape]. [HPMCMonoProps] states what
      the proofs need of a shape ([ShapeLaws], spheres are an instance) and proves
      the rules for the searches over images and tree; [HPMCMonoSweep] that trial
      moves keep a configuration free of overlaps; [HPMCMonoSpec] a whole step;
      [HPMCMonoExamples] has a step of two spheres and a box whose list of images
      is too short; [HPMCMonoCount] the count of overlaps and the attempt at a new
      box.
    - [UpdaterBoxMC] models [hoomd/hpmc/UpdaterBoxMC.h] and
      [hoomd/hpmc/UpdaterBoxMC.cc]; [UpdaterBoxMCSpec] proves that the lattice
      reduction ends and keeps the lattice and the configuration,
      [UpdaterBoxMCTrial] that a trial follows the Metropolis rule and that a
      rejection restores the state.

    ** Conventions

    Records, fields and functions carry the names of the source; a [w]-bit
    integer is a [Z] that is wrapped where the source computes it ([u32], [u64]).
    [Scalar] is an exact rational: rounding, infinities and NaN are not modelled,
    except where an integer is converted to [float] to grow an array, which is
    rounded exactly ([round24]). The pair evaluators are polymorphic in the scalar
    type, because they use exponentials and powers: their theorems are about the
    instance over the real numbers, the examples about rationals. The reciprocal
    square root of the box geometry is an argument with its documented property
    ([RSqrt]). Exceptions are values ([result]); undefined
    behaviour is a distinct outcome ([None] or [OutOfBounds]) where an operation
    can reach it, and elsewhere the theorems show the accesses in range. Loops
    that are not structural take fuel: the number of nodes for the traversals of
    the bounding volume hierarchy and the number of boxes for its build, the
    requested size for the growth loops, one more than the address of the trigger
    for its evaluation, because children are allocated before parents, 33 for the
    halvings of a 32-bit grid width, and 3 for the passes of the cell list, the
    second of which has the final grid and the third the final size; the build of
    a neighbour list takes two passes, because the first counts what the second
    stores. The rejection loops of the random numbers take fuel, and the theorems
    about steps assume that it suffices for the words the generator gives; the
    list of images is a hypothesis of the theorems that need it (the code raises
    an error when the box is too small), and the fuel of the lattice reduction is
    shown to exist. The theorems about Monte Carlo are for three dimensions. Other
    theorems state the result outright, so
    they also show that the fuel suffices. State that C++ reaches through shared pointers
    (trigger children, the two arguments of a group operation) is modelled with
    its aliasing.

    ** Not modelled

    The MPI communication and the domain decomposition (reductions over ranks are
    parameters of the operations that use them, migration is modelled inside one
    rank), the CUDA/HIP kernels (the host paths of the same operations are
    modelled), the Philox generator (a git submodule), file formats,
    Python bindings and user code in Python, vendored code, the anisotropic,
    bonded and many-body forces and the integration methods of the molecular
    dynamics. Of the hard-particle Monte Carlo: the depletants (their test is an
    argument of the step), the faceted, spherical-cap, ellipsoidal and union
    shapes, free volumes, and the updaters for clusters, shapes and the
    grand-canonical ensemble.

    ** Plan

    The neighbour lists over stencils and over the bounding volume hierarchy as
    further instances of [Builder], the bonded forces, the integration methods,
    the domain grid and the load balancer, the managed arrays of
    [hoomd/GlobalArray.h], mesh groups, more shapes as instances of [ShapeLaws],
    depletants and the cluster moves. *)

From Stdlib Require Import ZArith Lia Bool String.
From stdpp Require Import base numbers list list_numbers sorting gmap.

(** * Errors *)

(** The C++ exceptions the modelled code throws. *)
Inductive exn : Type :=
| runtime_error (what : string)
| invalid_argument (what : string)
| domain_error (what : string)
| bad_alloc.

#[global] Instance exn_eq_dec : EqDecision exn.
Proof. solve_decision. Defined.

(** Result of fallible code: a value, or the exception that leaves it. *)
Inductive result (A : Type) : Type :=
| Ok (a : A)
| Throw (e : exn).
Arguments Ok {A} _.
Arguments Throw {A} _.

Definition result_bind {A B} (r : result A) (f : A -> result B) : result B :=
  match r with
  | Ok a => f a
  | Throw e => Throw e
  end.

Declare Scope hoomd_scope.
Delimit Scope hoomd_scope with hoomd.

Notation "'let?' x ':=' r 'in' k" := (result_bind r (fun x => k))
  (at level 10, x pattern, r at level 100, k at level 200) : hoomd_scope.

Definition is_ok {A} (r : result A) : bool :=
  match r with Ok _ => true | Throw _ => false end.

(** * Machine integers

    A [w]-bit unsigned integer is a [Z] in [[0, 2^w)]; every operation that can
    leave that range is wrapped where the source computes it. *)

Definition u32 (z : Z) : Z := (z mod 2 ^ 32)%Z.
Definition u64 (z : Z) : Z := (z mod 2 ^ 64)%Z.
Definition UINT_MAX : Z := (2 ^ 32 - 1)%Z.
Definition UINT64_MAX : Z := (2 ^ 64 - 1)%Z.

Definition is_u32 (z : Z) : Prop := (0 <= z < 2 ^ 32)%Z.
Definition is_u64 (z : Z) : Prop := (0 <= z < 2 ^ 64)%Z.

Section machine_integers.
Local Open Scope Z_scope.

Lemma u32_small z : is_u32 z -> u32 z = z.
Proof. unfold u32, is_u32. intros. apply Z.mod_small. lia. Qed.

Lemma u64_small z : is_u64 z -> u64 z = z.
Proof. unfold u64, is_u64. intros. apply Z.mod_small. lia. Qed.

Lemma u32_range z : is_u32 (u32 z).
Proof. unfold u32, is_u32. apply Z.mod_pos_bound. lia. Qed.

Lemma u64_range z : is_u64 (u64 z).
Proof. unfold u64, is_u64. apply Z.mod_pos_bound. lia. Qed.

Lemma div_between a b q : 0 < b -> q * b <= a < (q + 1) * b -> a / b = q.
Proof. intros Hb H. symmetry. apply (Z.div_unique a b q (a - q * b)); lia. Qed.

End machine_integers.

(** * Lists *)

Lemma forallb_ext {A} (f g : A -> bool) l :
  (forall x, x ∈ l -> f x = g x) -> forallb f l = forallb g l.
Proof.
  induction l as [|y l IH]; intros H; [reflexivity|]. simpl.
  rewrite H by (apply elem_of_cons; auto). f_equal. apply IH. intros x Hx. apply H, elem_of_cons. auto.
Qed.

Lemma existsb_ext {A} (f g : A -> bool) l :
  (forall x, x ∈ l -> f x = g x) -> existsb f l = existsb g l.
Proof.
  induction l as [|y l IH]; intros H; [reflexivity|]. simpl.
  rewrite H by (apply elem_of_cons; auto). f_equal. apply IH. intros x Hx. apply H, elem_of_cons. auto.
Qed.

(** * Arrays *)

(** [data[i]] and [data[i] = x] of an array. *)
Definition zget {A} (d : A) (l : list A) (i : Z) : A := nth (Z.to_nat i) l d.
Definition zset {A} (l : list A) (i : Z) (x : A) : list A := <[Z.to_nat i := x]> l.

(** [resize(n)] of an array: the common prefix is kept, new memory is zero. *)
Definition array_resize {A} (zero : A) (n : Z) (l : list A) : list A :=
  take (Z.to_nat n) l ++ replicate (Z.to_nat n - length l) zero.

Section arrays.
Context {A : Type}.
Implicit Types (l : list A) (x d : A).

Lemma zget_lookup d l i x : l !! Z.to_nat i = Some x -> zget d l i = x.
Proof. unfold zget. intros H. now apply nth_lookup_Some. Qed.

Lemma lookup_zget d l i : (Z.to_nat i < length l)%nat -> l !! Z.to_nat i = Some (zget d l i).
Proof. intros H. destruct (lookup_lt_is_Some_2 l _ H) as [x E]. rewrite E. f_equal. symmetry. now apply zget_lookup. Qed.

Lemma length_zset l i x : length (zset l i x) = length l.
Proof. apply length_insert. Qed.

Lemma lookup_zset_eq l i x : (Z.to_nat i < length l)%nat -> zset l i x !! Z.to_nat i = Some x.
Proof. intros H. unfold zset. now apply list_lookup_insert_eq. Qed.

Lemma lookup_zset_ne l i j x : Z.to_nat i <> j -> zset l i x !! j = l !! j.
Proof. intros H. unfold zset. now apply list_lookup_insert_ne. Qed.

Lemma length_array_resize d n l : length (array_resize d n l) = Z.to_nat n.
Proof. unfold array_resize. rewrite length_app, length_take, length_replicate. lia. Qed.

Lemma array_resize_grow d n l : (length l <= Z.to_nat n)%nat -> array_resize d n l = l ++ replicate (Z.to_nat n - length l) d.
Proof. intros H. unfold array_resize. now rewrite take_ge by lia. Qed.

End arrays.

(** * Checked memory

    Code that can also read or write outside an array: a value, an exception, or
    the undefined access. *)

Inductive run (A : Type) : Type :=
| Ret (a : A)
| Raise (e : exn)
| OutOfBounds.
Arguments Ret {A} _.
Arguments Raise {A} _.
Arguments OutOfBounds {A}.

Definition run_bind {A B} (r : run A) (f : A -> run B) : run B :=
  match r with
  | Ret a => f a
  | Raise e => Raise e
  | OutOfBounds => OutOfBounds
  end.

Notation "'bind!' x ':=' r 'in' k" := (run_bind r (fun x => k))
  (at level 10, x pattern, r at level 100, k at level 200) : hoomd_scope.

Definition lift {A} (r : result A) : run A :=
  match r with Ok a => Ret a | Throw e => Raise e end.

(** [data[i]] and [data[i] = x] with the bounds of the allocation. *)
Definition read {A} (l : list A) (i : Z) : run A :=
  match l !! Z.to_nat i with Some x => Ret x | None => OutOfBounds end.

Definition write {A} (l : list A) (i : Z) (x : A) : run (list A) :=
  if (0 <=? i)%Z && (i <? Z.of_nat (length l))%Z then Ret (zset l i x) else OutOfBounds.

Lemma read_Some {A} (l : list A) i x : l !! Z.to_nat i = Some x -> read l i = Ret x.
Proof. unfold read. now intros ->. Qed.

Lemma write_in {A} (l : list A) i x : (0 <= i < Z.of_nat (length l))%Z -> write l i x = Ret (zset l i x).
Proof. unfold write. intros [H1 H2]. now rewrite (proj2 (Z.leb_le _ _) H1), (proj2 (Z.ltb_lt _ _) H2). Qed.

Lemma bind_ret {A B} (r : run A) (f : A -> run B) (b : B) : run_bind r f = Ret b -> exists a, r = Ret a /\ f a = Ret b.
Proof. destruct r; simpl; try discriminate. eauto. Qed.

Lemma read_ret {A} (l : list A) i x : read l i = Ret x -> l !! Z.to_nat i = Some x.
Proof. unfold read. destruct (l !! _); [now intros [= ->]|discriminate]. Qed.

Lemma write_ret {A} (l l' : list A) i x : write l i x = Ret l' -> (0 <= i < Z.of_nat (length l))%Z /\ l' = zset l i x.
Proof. unfold write. destruct (_ && _) eqn:E; [|discriminate]. intros [= <-]. apply andb_true_iff in E as [E1%Z.leb_le E2%Z.ltb_lt]. auto. Qed.

(** [for (i = start; i < start + count; i++) body(i);] *)
Fixpoint for_run {S : Type} (count : nat) (i : Z) (body : Z -> S -> run S) (s : S) : run S :=
  match count with
  | O => Ret s
  | Datatypes.S count => run_bind (body i s) (for_run count (i + 1)%Z body)
  end.

(** The rule of a loop: an invariant that the body keeps. *)
Lemma for_run_inv {S} (P : Z -> S -> Prop) count : forall i body s, P i s ->
  (forall j s, (i <= j < i + Z.of_nat count)%Z -> P j s -> exists s', body j s = Ret s' /\ P (j + 1)%Z s') ->
  exists s', for_run count i body s = Ret s' /\ P (i + Z.of_nat count)%Z s'.
Proof.
  induction count as [|count IH]; intros i body s H Step; simpl; [rewrite Z.add_0_r; eauto|].
  destruct (Step i s) as (s1 & -> & H1); [lia|exact H|]. simpl. destruct (IH (i + 1)%Z body s1 H1) as (s2 & -> & H2); [intros; apply Step; [lia|assumption]|].
  exists s2. split; [reflexivity|]. replace (i + Z.of_nat (Datatypes.S count))%Z with (i + 1 + Z.of_nat count)%Z by lia. exact H2.
Qed.

(** * Automation *)

Create HintDb hoomd discriminated.
#[export] Hint Resolve u32_range u64_range : hoomd.

(** Case analysis on every [match]/[if] scrutinee of the goal and of [H]. *)
Ltac case_all :=
  repeat match goal with
  | |- context [match ?x with _ => _ end] => destruct x eqn:?
  end.

Ltac case_in H :=
  repeat match type of H with
  | context [match ?x with _ => _ end] => destruct x eqn:?
  end.

(** Turn boolean comparisons on [Z] into propositions. *)
Ltac zbool :=
  repeat match goal with
  | H : (_ =? _)%Z = true |- _ => apply Z.eqb_eq in H
  | H : (_ =? _)%Z = false |- _ => apply Z.eqb_neq in H
  | H : (_ <? _)%Z = true |- _ => apply Z.ltb_lt in H
  | H : (_ <? _)%Z = false |- _ => apply Z.ltb_ge in H
  | H : (_ <=? _)%Z = true |- _ => apply Z.leb_le in H
  | H : (_ <=? _)%Z = false |- _ => apply Z.leb_gt in H
  | H : (_ >? _)%Z = _ |- _ => rewrite Z.gtb_ltb in H
  | H : (_ >=? _)%Z = _ |- _ => rewrite Z.geb_leb in H
  | H : (_ && _)%bool = true |- _ => apply andb_true_iff in H; destruct H
  | H : (_ || _)%bool = false |- _ => apply orb_false_iff in H; destruct H
  | H : negb _ = true |- _ => apply negb_true_iff in H
  | H : negb _ = false |- _ => apply negb_false_iff in H
  end.

(** Remove the innermost [u32]/[u64] wrappers whose argument is in range. *)
Ltac wrap32 :=
  repeat match goal with
  | |- context [u32 ?e] =>
      lazymatch e with
      | context [u32 _] => fail
      | _ => rewrite (u32_small e) by (unfold is_u32; nia)
      end
  end.

Ltac wrap64 :=
  repeat match goal with
  | |- context [u64 ?e] =>
      lazymatch e with
      | context [u64 _] => fail
      | _ => rewrite (u64_small e) by (unfold is_u64; nia)
      end
  end.
