(* ===== verification/Index1D.v ===== *)
(** 1D indexing of multi-dimensional arrays: [hoomd/Index1D.h].

    [Index2D], [Index3D] and [Index2DUpperTriangular] are records of their
    members; every operator computes in [unsigned int], so each expression is
    reduced modulo [2^32] where the source evaluates it. *)

From S2P Require Import Prelude.
From Stdlib Require Import ZArith Lia.
Local Open Scope Z_scope.

Module Index2D.

Record t := mk { m_w : Z; m_h : Z }.

(** [Index2D(w, h)]; [Index2D(w)] is the square array. *)
Definition make (w h : Z) : t := {| m_w := w; m_h := h |}.
Definition make_square (w : Z) : t := {| m_w := w; m_h := w |}.

(** [operator()(i, j)] *)
Definition index (x : t) (i j : Z) : Z := u32 (u32 (j * m_w x) + i).

Definition getNumElements (x : t) : Z := u32 (m_w x * m_h x).

(** [getPair(idx)], as [(t.x, t.y)]. *)
Definition getPair (x : t) (idx : Z) : Z * Z :=
  let ty := idx / m_w x in
  let tx := u32 (idx - u32 (ty * m_w x)) in
  (tx, ty).

(** The array has at least one column and its element count fits an
    [unsigned int]. *)
Definition fits (x : t) : Prop :=
  0 < m_w x /\ 0 <= m_h x /\ m_w x * m_h x < 2 ^ 32.

Definition in_bounds (x : t) (i j : Z) : Prop := 0 <= i < m_w x /\ 0 <= j < m_h x.

End Index2D.

Module Index3D.

Record t := mk { m_w : Z; m_h : Z; m_d : Z }.

Definition make (w h d : Z) : t := {| m_w := w; m_h := h; m_d := d |}.
Definition make_cube (w : Z) : t := {| m_w := w; m_h := w; m_d := w |}.

Definition index (x : t) (i j k : Z) : Z :=
  u32 (u32 (u32 (u32 (k * m_h x) + j) * m_w x) + i).

Definition getNumElements (x : t) : Z := u32 (u32 (m_w x * m_h x) * m_d x).

(** [getTriple(idx)], as [(t.x, t.y, t.z)]. *)
Definition getTriple (x : t) (idx : Z) : Z * Z * Z :=
  let tz := idx / u32 (m_h x * m_w x) in
  let ty := u32 (idx - u32 (u32 (tz * m_h x) * m_w x)) / m_w x in
  let tx := u32 (u32 (idx - u32 (u32 (tz * m_h x) * m_w x)) - u32 (ty * m_w x)) in
  (tx, ty, tz).

Definition fits (x : t) : Prop :=
  0 < m_w x /\ 0 < m_h x /\ 0 <= m_d x /\
  m_w x * m_h x < 2 ^ 32 /\ m_w x * m_h x * m_d x < 2 ^ 32.

Definition in_bounds (x : t) (i j k : Z) : Prop :=
  0 <= i < m_w x /\ 0 <= j < m_h x /\ 0 <= k < m_d x.

End Index3D.

Module Index2DUpperTriangular.

Record t := mk { m_w : Z; m_term : Z }.

(** The constructor precomputes [m_term = 2 * m_w - 1]. *)
Definition make (w : Z) : t := {| m_w := w; m_term := u32 (u32 (2 * w) - 1) |}.

Definition index (x : t) (i j : Z) : Z :=
  let '(i, j) := if j >? i then (j, i) else (i, j) in
  u32 (u32 (j * u32 (m_term x - j)) / 2 + i).

Definition getNumElements (x : t) : Z := u32 (m_w x * u32 (m_w x + 1)) / 2.

(** Width at which [m_w * (m_w + 1)] still fits an [unsigned int]. *)
Definition fits (w : Z) : Prop := 0 < w /\ w * (w + 1) < 2 ^ 32.

End Index2DUpperTriangular.

(** ** Index2D is a bijection onto [[0, getNumElements)] *)


Section index2d.
Import Index2D.

Lemma index2d_flat x i j : fits x -> in_bounds x i j -> index x i j = j * m_w x + i.
Proof. unfold fits, in_bounds, index. intros. wrap32. reflexivity. Qed.

Lemma index2d_num x : fits x -> getNumElements x = m_w x * m_h x.
Proof. unfold fits, getNumElements. intros. wrap32. reflexivity. Qed.

Lemma index2d_pair x idx :
  fits x -> 0 <= idx < m_w x * m_h x ->
  getPair x idx = (idx mod m_w x, idx / m_w x).
Proof.
  unfold fits, getPair. intros F H.
  pose proof (Z.div_mod idx (m_w x) ltac:(lia)).
  pose proof (Z.mod_pos_bound idx (m_w x) ltac:(lia)).
  pose proof (Z.div_pos idx (m_w x) ltac:(lia) ltac:(lia)).
  wrap32. f_equal. lia.
Qed.

(** Row-major indexing of an in-range element stays below the element count and
    [getPair] recovers the pair it came from. *)
Lemma index2d_getPair x i j :
  fits x -> in_bounds x i j ->
  0 <= index x i j < getNumElements x /\ getPair x (index x i j) = (i, j).
Proof.
  intros F B. rewrite index2d_flat, index2d_num by assumption.
  unfold fits, in_bounds in *. split; [nia|].
  rewrite index2d_pair by (unfold fits; nia).
  f_equal.
  - rewrite Z.add_comm, Z.mod_add by lia. apply Z.mod_small. lia.
  - apply div_between; nia.
Qed.

Lemma index2d_of_pair x idx :
  fits x -> 0 <= idx < getNumElements x ->
  in_bounds x (fst (getPair x idx)) (snd (getPair x idx)) /\
  index x (fst (getPair x idx)) (snd (getPair x idx)) = idx.
Proof.
  intros F. rewrite index2d_num by assumption. intros H.
  rewrite index2d_pair by assumption. simpl.
  pose proof (Z.div_mod idx (m_w x) ltac:(unfold fits in F; lia)).
  pose proof (Z.mod_pos_bound idx (m_w x) ltac:(unfold fits in F; lia)).
  assert (B : in_bounds x (idx mod m_w x) (idx / m_w x)).
  { unfold in_bounds, fits in *. split; [lia|]. split; [apply Z.div_pos; lia|].
    apply Z.div_lt_upper_bound; lia. }
  split; [assumption|]. rewrite index2d_flat by assumption. lia.
Qed.

End index2d.

Section index3d.
Import Index3D.

Lemma index3d_flat x i j k :
  fits x -> in_bounds x i j k ->
  index x i j k = (k * m_h x + j) * m_w x + i /\
  0 <= (k * m_h x + j) * m_w x + i < m_w x * m_h x * m_d x.
Proof.
  unfold fits, in_bounds, index. intros (? & ? & ? & ? & ?) (? & ? & ?).
  assert (0 <= k * m_h x + j < m_h x * m_d x) by nia.
  assert (0 <= (k * m_h x + j) * m_w x + i < m_w x * m_h x * m_d x) by nia.
  assert (m_h x * m_d x <= m_w x * m_h x * m_d x) by nia.
  split; [|assumption]. wrap32. reflexivity.
Qed.

Lemma index3d_num x : fits x -> getNumElements x = m_w x * m_h x * m_d x.
Proof. unfold fits, getNumElements. intros. wrap32. reflexivity. Qed.

Lemma index3d_triple x idx :
  fits x -> 0 <= idx < m_w x * m_h x * m_d x ->
  getTriple x idx
  = (idx mod (m_h x * m_w x) mod m_w x,
     idx mod (m_h x * m_w x) / m_w x,
     idx / (m_h x * m_w x)).
Proof.
  unfold fits, getTriple. intros (? & ? & ? & ? & ?) Hidx.
  assert (0 < m_h x * m_w x) by nia.
  pose proof (Z.div_mod idx (m_h x * m_w x) ltac:(lia)).
  pose proof (Z.mod_pos_bound idx (m_h x * m_w x) ltac:(lia)).
  pose proof (Z.div_pos idx (m_h x * m_w x) ltac:(lia) ltac:(lia)).
  rewrite (u32_small (m_h x * m_w x)) by (unfold is_u32; lia).
  set (q := idx / (m_h x * m_w x)) in *. set (r := idx mod (m_h x * m_w x)) in *.
  assert (q * m_h x <= q * m_h x * m_w x) by nia.
  rewrite (u32_small (q * m_h x)) by (unfold is_u32; nia).
  rewrite (u32_small (q * m_h x * m_w x)) by (unfold is_u32; nia).
  replace (idx - q * m_h x * m_w x) with r by lia.
  rewrite (u32_small r) by (unfold is_u32; lia).
  pose proof (Z.div_mod r (m_w x) ltac:(lia)).
  pose proof (Z.mod_pos_bound r (m_w x) ltac:(lia)).
  pose proof (Z.div_pos r (m_w x) ltac:(lia) ltac:(lia)).
  rewrite (u32_small (r / m_w x * m_w x)) by (unfold is_u32; lia).
  replace (r - r / m_w x * m_w x) with (r mod m_w x) by lia.
  rewrite u32_small by (unfold is_u32; lia). reflexivity.
Qed.

Lemma index3d_getTriple x i j k :
  fits x -> in_bounds x i j k ->
  0 <= index x i j k < getNumElements x /\ getTriple x (index x i j k) = (i, j, k).
Proof.
  intros F B. destruct (index3d_flat x i j k F B) as [-> R].
  rewrite index3d_num by assumption. split; [assumption|].
  rewrite index3d_triple by assumption.
  unfold fits, in_bounds in *.
  assert (0 <= j * m_w x + i < m_h x * m_w x) by nia.
  replace ((k * m_h x + j) * m_w x + i) with (j * m_w x + i + k * (m_h x * m_w x)) by ring.
  rewrite Z.mod_add, Z.div_add, (Z.mod_small _ (m_h x * m_w x)), (Z.div_small _ (m_h x * m_w x)) by nia.
  replace (j * m_w x + i) with (i + j * m_w x) by ring.
  rewrite Z.mod_add, Z.div_add, Z.mod_small, Z.div_small by lia. reflexivity.
Qed.

Lemma index3d_of_triple x idx :
  fits x -> 0 <= idx < getNumElements x ->
  let '(i, j, k) := getTriple x idx in in_bounds x i j k /\ index x i j k = idx.
Proof.
  intros F. rewrite index3d_num by assumption. intros H.
  rewrite index3d_triple by assumption.
  pose proof F as F'. unfold fits in F'.
  set (p := m_h x * m_w x). assert (0 < p) by (subst p; nia).
  pose proof (Z.div_mod idx p ltac:(lia)). pose proof (Z.mod_pos_bound idx p ltac:(lia)).
  pose proof (Z.div_mod (idx mod p) (m_w x) ltac:(lia)).
  pose proof (Z.mod_pos_bound (idx mod p) (m_w x) ltac:(lia)).
  assert (B : in_bounds x (idx mod p mod m_w x) (idx mod p / m_w x) (idx / p)).
  { unfold in_bounds. repeat split; try lia.
    - apply Z.div_pos; lia.
    - apply Z.div_lt_upper_bound; subst p; lia.
    - apply Z.div_pos; lia.
    - apply Z.div_lt_upper_bound; subst p; lia. }
  split; [assumption|]. destruct (index3d_flat _ _ _ _ F B) as [-> _]. subst p. nia.
Qed.

End index3d.

(** ** Upper triangular indexing *)

Section upper.
Import Index2DUpperTriangular.

(** First index of row [j] of the packed triangle. *)
Definition row_start (w j : Z) : Z := j * (2 * w - 1 - j) / 2.

Lemma half_product a : exists k, a * (a + 1) = 2 * k.
Proof.
  destruct (Z.Even_or_Odd a) as [[b ->] | [b ->]].
  - exists (b * (2 * b + 1)). ring.
  - exists ((2 * b + 1) * (b + 1)). ring.
Qed.

Lemma row_start_exact w j : 2 * row_start w j = j * (2 * w - 1 - j).
Proof.
  unfold row_start. destruct (half_product j) as [k Hk].
  assert (E : j * (2 * w - 1 - j) = 2 * (j * w - k)) by lia.
  rewrite E, (Z.mul_comm 2 (j * w - k)), Z.div_mul by lia. lia.
Qed.

Lemma upper_flat w i j :
  fits w -> 0 <= j <= i -> i < w ->
  index (make w) i j = row_start w j + i /\ row_start w j + i < w * (w + 1) / 2.
Proof.
  intros [F0 F] Hj Hi. unfold index. simpl.
  destruct (j >? i) eqn:E; [zbool; lia|].
  assert (0 <= row_start w j) by (pose proof (row_start_exact w j); nia).
  assert (B : row_start w j + i < w * (w + 1) / 2).
  { pose proof (row_start_exact w j). destruct (half_product w) as [k Hk].
    rewrite Hk, (Z.mul_comm 2), Z.div_mul by lia.
    assert (2 * row_start w j + 2 * i < 2 * k) by nia. lia. }
  split; [|assumption].
  assert (w * (w + 1) / 2 < 2 ^ 32) by (apply Z.div_lt_upper_bound; lia).
  rewrite (u32_small (2 * w)) by (unfold is_u32; nia).
  rewrite (u32_small (2 * w - 1)) by (unfold is_u32; nia).
  rewrite (u32_small (2 * w - 1 - j)) by (unfold is_u32; nia).
  rewrite (u32_small (j * (2 * w - 1 - j))) by (unfold is_u32; nia).
  fold (row_start w j). apply u32_small. unfold is_u32. lia.
Qed.

Lemma upper_num w : fits w -> getNumElements (make w) = w * (w + 1) / 2.
Proof. intros [F0 F]. unfold getNumElements. simpl. wrap32. reflexivity. Qed.

Lemma upper_sym w i j : index (make w) i j = index (make w) j i.
Proof.
  unfold index. destruct (j >? i) eqn:E1, (i >? j) eqn:E2; try reflexivity.
  - zbool. lia.
  - zbool. replace j with i by lia. reflexivity.
Qed.

Lemma upper_rows_increase w j j' : 0 <= j < j' -> j' < w -> row_start w j + w <= row_start w j' + j'.
Proof.
  intros. pose proof (row_start_exact w j). pose proof (row_start_exact w j').
  assert (2 * (row_start w j + w) <= 2 * (row_start w j' + j')) by nia. lia.
Qed.

Lemma upper_inj w i j i' j' :
  fits w -> 0 <= j <= i -> i < w -> 0 <= j' <= i' -> i' < w ->
  index (make w) i j = index (make w) i' j' -> i = i' /\ j = j'.
Proof.
  intros F Hj Hi Hj' Hi'.
  rewrite (proj1 (upper_flat w i j F Hj Hi)), (proj1 (upper_flat w i' j' F Hj' Hi')).
  intros E. destruct (Z.lt_trichotomy j j') as [L | [-> | L]].
  - pose proof (upper_rows_increase w j j'). lia.
  - lia.
  - pose proof (upper_rows_increase w j' j). lia.
Qed.

Lemma upper_row_next w j : row_start w (j + 1) + (j + 1) = row_start w j + w.
Proof.
  pose proof (row_start_exact w j). pose proof (row_start_exact w (j + 1)).
  assert (2 * (row_start w (j + 1) + (j + 1)) = 2 * (row_start w j + w)) by nia. lia.
Qed.

Lemma upper_surj w (k : nat) :
  0 < w -> Z.of_nat k < w * (w + 1) / 2 ->
  exists i j, 0 <= j <= i /\ i < w /\ row_start w j + i = Z.of_nat k.
Proof.
  intros Hw. induction k as [|k IH]; intros Hk.
  - exists 0, 0. change (row_start w 0) with 0. lia.
  - destruct IH as (i & j & Hj & Hi & E); [lia|].
    destruct (Z.eq_dec (i + 1) w) as [Ew | Nw]; [|exists (i + 1), j; lia].
    exists (j + 1), (j + 1). pose proof (upper_row_next w j).
    destruct (Z.eq_dec (j + 1) w) as [Ej | Nj]; [exfalso|lia].
    destruct (half_product w) as [h Hh]. rewrite Hh, (Z.mul_comm 2), Z.div_mul in Hk by lia.
    pose proof (row_start_exact w j). assert (j = w - 1) by lia. assert (i = w - 1) by lia.
    subst i j. rewrite Nat2Z.inj_succ in Hk. nia.
Qed.

End upper.

(** ** The properties of the three index classes *)

(** [Index2D] and its [getPair] are mutually inverse bijections between the
    in-range pairs and [[0, getNumElements())], as long as the element count
    fits an [unsigned int]; so two distinct pairs never share an element. *)
Theorem Index2D_bijection (x : Index2D.t) (F : Index2D.fits x) :
  (forall i j, Index2D.in_bounds x i j ->
     0 <= Index2D.index x i j < Index2D.getNumElements x /\
     Index2D.getPair x (Index2D.index x i j) = (i, j)) /\
  (forall idx, 0 <= idx < Index2D.getNumElements x ->
     Index2D.in_bounds x (fst (Index2D.getPair x idx)) (snd (Index2D.getPair x idx)) /\
     Index2D.index x (fst (Index2D.getPair x idx)) (snd (Index2D.getPair x idx)) = idx).
Proof. split; intros; [apply index2d_getPair | apply index2d_of_pair]; assumption. Qed.

Lemma Index2D_bijection_witness :
  Index2D.fits (Index2D.make 7 5) /\
  Index2D.getPair (Index2D.make 7 5) (Index2D.index (Index2D.make 7 5) 3 4) = (3, 4).
Proof.
  assert (F : Index2D.fits (Index2D.make 7 5)) by (unfold Index2D.fits; simpl; lia).
  split; [exact F|].
  apply (proj1 (Index2D_bijection _ F) 3 4). unfold Index2D.in_bounds; simpl; lia.
Defined.

(** [Index3D] and its [getTriple] (computed without a modulo) are mutually
    inverse bijections between the in-range triples and [[0, getNumElements())]. *)
Theorem Index3D_bijection (x : Index3D.t) (F : Index3D.fits x) :
  (forall i j k, Index3D.in_bounds x i j k ->
     0 <= Index3D.index x i j k < Index3D.getNumElements x /\
     Index3D.getTriple x (Index3D.index x i j k) = (i, j, k)) /\
  (forall idx, 0 <= idx < Index3D.getNumElements x ->
     let '(i, j, k) := Index3D.getTriple x idx in
     Index3D.in_bounds x i j k /\ Index3D.index x i j k = idx).
Proof. split; intros; [apply index3d_getTriple | apply index3d_of_triple]; assumption. Qed.

Lemma Index3D_bijection_witness :
  Index3D.fits (Index3D.make 4 3 2) /\
  Index3D.getTriple (Index3D.make 4 3 2) (Index3D.index (Index3D.make 4 3 2) 3 1 1) = (3, 1, 1).
Proof.
  assert (F : Index3D.fits (Index3D.make 4 3 2)) by (unfold Index3D.fits; simpl; lia).
  split; [exact F|].
  apply (proj1 (Index3D_bijection _ F) 3 1 1). unfold Index3D.in_bounds; simpl; lia.
Defined.

(** [Index2DUpperTriangular] packs the unordered pairs of [[0, w)]
    exactly: it is symmetric, injective on [j <= i], stays below
    [getNumElements()] and hits every element of the packed array. *)
Theorem Index2DUpperTriangular_packing (w : Z) (F : Index2DUpperTriangular.fits w) :
  let x := Index2DUpperTriangular.make w in
  (forall i j, Index2DUpperTriangular.index x i j = Index2DUpperTriangular.index x j i) /\
  (forall i j, 0 <= j <= i -> i < w ->
     0 <= Index2DUpperTriangular.index x i j < Index2DUpperTriangular.getNumElements x) /\
  (forall i j i' j', 0 <= j <= i -> i < w -> 0 <= j' <= i' -> i' < w ->
     Index2DUpperTriangular.index x i j = Index2DUpperTriangular.index x i' j' ->
     i = i' /\ j = j') /\
  (forall idx, 0 <= idx < Index2DUpperTriangular.getNumElements x ->
     exists i j, 0 <= j <= i /\ i < w /\ Index2DUpperTriangular.index x i j = idx).
Proof.
  simpl. rewrite upper_num by assumption. split; [|split; [|split]].
  - intros. apply upper_sym.
  - intros i j Hj Hi. destruct (upper_flat w i j F Hj Hi) as [-> ?].
    pose proof (row_start_exact w j). split; [nia | assumption].
  - intros i j i' j'. apply upper_inj. assumption.
  - intros idx H. destruct (upper_surj w (Z.to_nat idx)) as (i & j & Hj & Hi & E).
    + apply F.
    + lia.
    + exists i, j. rewrite (proj1 (upper_flat w i j F Hj Hi)). lia.
Qed.

Lemma Index2DUpperTriangular_packing_witness :
  Index2DUpperTriangular.fits 5 /\
  0 <= Index2DUpperTriangular.index (Index2DUpperTriangular.make 5) 4 2
    < Index2DUpperTriangular.getNumElements (Index2DUpperTriangular.make 5).
Proof.
  assert (F : Index2DUpperTriangular.fits 5) by (unfold Index2DUpperTriangular.fits; lia).
  split; [exact F|].
  apply (proj1 (proj2 (Index2DUpperTriangular_packing 5 F)) 4 2); lia.
Defined.
