(* ===== verification/Trigger.v ===== *)
(** Triggers: [hoomd/Trigger.h].

    A [Trigger] is a heap object (a [std::shared_ptr]) with a one-entry cache of
    its last query. [NotTrigger], [AndTrigger] and [OrTrigger] hold pointers to
    other triggers, and one trigger may be shared by several of them, so the
    model keeps a store of objects addressed by number and threads it through
    every call. [std::all_of] and [std::any_of] stop early, and with them the
    cache updates of the triggers they do not reach.

    Triggers subclassed in Python ([TriggerPy]) are not modelled: their
    [compute] is user code. *)

From S2P Require Import Prelude.
From Stdlib Require Import ZArith Lia String.
From stdpp Require Import base list gmap.
Local Open Scope Z_scope.

Abbreviation addr := nat.

(** The members each subclass adds to [Trigger]. *)
Inductive trigger_kind : Type :=
| PeriodicTrigger (m_period m_phase : Z)
| BeforeTrigger (m_timestep : Z)
| OnTrigger (m_timestep : Z)
| AfterTrigger (m_timestep : Z)
| NotTrigger (m_trigger : addr)
| AndTrigger (m_triggers : list addr)
| OrTrigger (m_triggers : list addr).

Record trigger := mkTrigger {
  m_last_timestep : Z;
  m_last_trigger : bool;
  t_kind : trigger_kind
}.

Abbreviation tstore := (gmap addr trigger).

(** [Trigger()]: [m_last_timestep(-1)] converts to [UINT64_MAX]. *)
Definition new_trigger (k : trigger_kind) : trigger :=
  {| m_last_timestep := u64 (-1); m_last_trigger := false; t_kind := k |}.

(** [PeriodicTrigger(period, phase)] *)
Definition new_PeriodicTrigger (period phase : Z) : result trigger :=
  if period =? 0 then Throw (runtime_error "Period cannot be set to 0")
  else Ok (new_trigger (PeriodicTrigger period phase)).

(** [PeriodicTrigger::compute]; [x % 0] is undefined. *)
Definition periodic_compute (m_period m_phase timestep : Z) : option bool :=
  if m_period =? 0 then None
  else Some (u64 (timestep - m_phase) mod m_period =? 0).

Definition before_compute (m_timestep timestep : Z) : bool := timestep <? m_timestep.
Definition on_compute (m_timestep timestep : Z) : bool := timestep =? m_timestep.
Definition after_compute (m_timestep timestep : Z) : bool := timestep >? m_timestep.

(** [std::all_of] and [std::any_of] over a container of pointers, the call
    threading the store. *)
Fixpoint all_of (f : addr -> tstore -> option (bool * tstore)) (ps : list addr) (s : tstore)
  : option (bool * tstore) :=
  match ps with
  | [] => Some (true, s)
  | p :: ps =>
      match f p s with
      | Some (true, s') => all_of f ps s'
      | r => r
      end
  end.

Fixpoint any_of (f : addr -> tstore -> option (bool * tstore)) (ps : list addr) (s : tstore)
  : option (bool * tstore) :=
  match ps with
  | [] => Some (false, s)
  | p :: ps =>
      match f p s with
      | Some (false, s') => any_of f ps s'
      | r => r
      end
  end.

(** [compute(timestep)] of each subclass, given [operator()] of its children. *)
Definition compute (call : addr -> tstore -> option (bool * tstore))
    (k : trigger_kind) (timestep : Z) (s : tstore) : option (bool * tstore) :=
  match k with
  | PeriodicTrigger m_period m_phase =>
      match periodic_compute m_period m_phase timestep with
      | Some b => Some (b, s)
      | None => None
      end
  | BeforeTrigger ts => Some (before_compute ts timestep, s)
  | OnTrigger ts => Some (on_compute ts timestep, s)
  | AfterTrigger ts => Some (after_compute ts timestep, s)
  | NotTrigger p =>
      match call p s with
      | Some (b, s') => Some (negb b, s')
      | None => None
      end
  | AndTrigger ps => all_of call ps s
  | OrTrigger ps => any_of call ps s
  end.

Definition set_last_timestep (ts : Z) (x : trigger) : trigger :=
  {| m_last_timestep := ts; m_last_trigger := m_last_trigger x; t_kind := t_kind x |}.
Definition set_last_trigger (b : bool) (x : trigger) : trigger :=
  {| m_last_timestep := m_last_timestep x; m_last_trigger := b; t_kind := t_kind x |}.

(** [Trigger::operator()(timestep)] on the object at [p]. The recursion follows
    the pointers; [fuel] bounds its depth. [None] is a dangling pointer,
    undefined behaviour, or exhausted fuel. *)
Fixpoint call (fuel : nat) (timestep : Z) (p : addr) (s : tstore) : option (bool * tstore) :=
  match fuel with
  | O => None
  | S fuel =>
      match s !! p with
      | None => None
      | Some x =>
          if m_last_timestep x =? timestep then Some (m_last_trigger x, s)
          else
            let s1 := <[p := set_last_timestep timestep x]> s in
            match compute (call fuel timestep) (t_kind x) timestep s1 with
            | None => None
            | Some (b, s2) => Some (b, alter (set_last_trigger b) p s2)
            end
      end
  end.

(** ** Reference semantics: no cache, no state *)

Definition kinds (s : tstore) : gmap addr trigger_kind := t_kind <$> s.

Fixpoint eval (fuel : nat) (ks : gmap addr trigger_kind) (timestep : Z) (p : addr) : bool :=
  match fuel with
  | O => false
  | S fuel =>
      match ks !! p with
      | None => false
      | Some (PeriodicTrigger m_period m_phase) => u64 (timestep - m_phase) mod m_period =? 0
      | Some (BeforeTrigger ts) => timestep <? ts
      | Some (OnTrigger ts) => timestep =? ts
      | Some (AfterTrigger ts) => timestep >? ts
      | Some (NotTrigger q) => negb (eval fuel ks timestep q)
      | Some (AndTrigger qs) => forallb (eval fuel ks timestep) qs
      | Some (OrTrigger qs) => existsb (eval fuel ks timestep) qs
      end
  end.

(** Meaning of the trigger at [p]; a pointer chain from [p] visits at most
    [S p] objects of a well-formed store. *)
Definition meaning (ks : gmap addr trigger_kind) (timestep : Z) (p : addr) : bool :=
  eval (S p) ks timestep p.

Definition children (k : trigger_kind) : list addr :=
  match k with
  | NotTrigger q => [q]
  | AndTrigger qs | OrTrigger qs => qs
  | _ => []
  end.

(** Well-formed kinds: a trigger is built from triggers that exist already, and
    a constructed [PeriodicTrigger] has a non-zero period. *)
Definition wf_kinds (ks : gmap addr trigger_kind) : Prop :=
  forall p k, ks !! p = Some k ->
    (forall q, q ∈ children k -> (q < p)%nat /\ is_Some (ks !! q)) /\
    (forall m_period m_phase, k = PeriodicTrigger m_period m_phase -> m_period <> 0).

(** Every cache entry is the initial sentinel or the trigger's true value. *)
Definition cache_ok (s : tstore) : Prop :=
  forall p x, s !! p = Some x ->
    m_last_timestep x = UINT64_MAX \/
    m_last_trigger x = meaning (kinds s) (m_last_timestep x) p.

Lemma eval_fuel ks timestep fuel p :
  wf_kinds ks -> (p < fuel)%nat -> eval fuel ks timestep p = meaning ks timestep p.
Proof.
  intros W. unfold meaning. revert fuel.
  induction (lt_wf p) as [p _ IH]; intros fuel Hf.
  destruct fuel as [|fuel]; [lia|]. simpl.
  destruct (ks !! p) as [k|] eqn:Ek; [|reflexivity].
  pose proof (proj1 (W p k Ek)) as C.
  assert (Q : forall q, q ∈ children k -> eval fuel ks timestep q = eval p ks timestep q).
  { intros q Hq. destruct (C q Hq) as [Hlt _]. rewrite (IH q Hlt fuel), (IH q Hlt p) by lia. reflexivity. }
  destruct k; simpl in Q; try reflexivity.
  - f_equal. apply Q. apply elem_of_cons. auto.
  - apply forallb_ext. exact Q.
  - apply existsb_ext. exact Q.
Qed.

(** ** The cache is transparent *)

(** [cache_ok] restricted to the addresses below [n]: during a call on [p] the
    entry of [p] itself already carries the new time step with the old value. *)
Definition cache_ok_below (n : nat) (s : tstore) : Prop :=
  forall p x, (p < n)%nat -> s !! p = Some x ->
    m_last_timestep x = UINT64_MAX \/
    m_last_trigger x = meaning (kinds s) (m_last_timestep x) p.

(** What a call below [n] guarantees of the store it returns. *)
Definition call_frame (n : nat) (s s' : tstore) : Prop :=
  kinds s' = kinds s /\ cache_ok_below n s' /\ (forall r, (n <= r)%nat -> s' !! r = s !! r).

Lemma call_frame_refl n s : cache_ok_below n s -> call_frame n s s.
Proof. repeat split; auto. Qed.

Lemma call_frame_trans n s1 s2 s3 : call_frame n s1 s2 -> call_frame n s2 s3 -> call_frame n s1 s3.
Proof.
  intros (K1 & _ & F1) (K2 & O2 & F2). repeat split.
  - congruence.
  - assumption.
  - intros r Hr. rewrite F2, F1 by assumption. reflexivity.
Qed.

(** A call below [m] is a call below any larger [n]. *)
Lemma call_frame_weaken m n s s' :
  (m <= n)%nat -> cache_ok_below n s -> call_frame m s s' -> call_frame n s s'.
Proof.
  intros Hmn O (K & O' & F). repeat split; [assumption| |].
  - intros p x Hp Hx. destruct (decide (p < m)%nat) as [Hlt|Hge]; [eauto|].
    rewrite F in Hx by lia. rewrite K. apply (O p x Hp Hx).
  - intros r Hr. apply F. lia.
Qed.

Lemma call_frame_ok n s s' : call_frame n s s' -> cache_ok_below n s'.
Proof. intros (_ & O & _). exact O. Qed.

Lemma call_frame_kinds n s s' : call_frame n s s' -> kinds s' = kinds s.
Proof. intros (K & _). exact K. Qed.

#[local] Hint Resolve call_frame_refl call_frame_ok call_frame_kinds : core.

Section loops.
Context (ks : gmap addr trigger_kind) (timestep : Z) (n : nat).
Context (f : addr -> tstore -> option (bool * tstore)).

(** What the loop needs of [operator()] on the pointers it visits. *)
Context (qs : list addr).
Hypothesis f_ok : forall q s, q ∈ qs -> kinds s = ks -> cache_ok_below n s ->
  exists s', f q s = Some (meaning ks timestep q, s') /\ call_frame n s s'.

Lemma all_of_ok rest s :
  rest ⊆ qs -> kinds s = ks -> cache_ok_below n s ->
  exists s', all_of f rest s = Some (forallb (meaning ks timestep) rest, s') /\ call_frame n s s'.
Proof.
  revert s. induction rest as [|q rest IH]; intros s Hs K O; simpl; [eauto|].
  destruct (f_ok q s) as (s1 & -> & F); [set_solver|assumption|assumption|].
  destruct (meaning ks timestep q); simpl; [|eauto].
  destruct (IH s1) as (s2 & -> & F2); [set_solver| |eauto|].
  - rewrite (call_frame_kinds _ _ _ F). assumption.
  - eauto using call_frame_trans.
Qed.

Lemma any_of_ok rest s :
  rest ⊆ qs -> kinds s = ks -> cache_ok_below n s ->
  exists s', any_of f rest s = Some (existsb (meaning ks timestep) rest, s') /\ call_frame n s s'.
Proof.
  revert s. induction rest as [|q rest IH]; intros s Hs K O; simpl; [eauto|].
  destruct (f_ok q s) as (s1 & -> & F); [set_solver|assumption|assumption|].
  destruct (meaning ks timestep q); simpl; [eauto|].
  destruct (IH s1) as (s2 & -> & F2); [set_solver| |eauto|].
  - rewrite (call_frame_kinds _ _ _ F). assumption.
  - eauto using call_frame_trans.
Qed.

End loops.

(** The meaning of a trigger in terms of its children's. *)
Lemma meaning_unfold ks timestep p k :
  wf_kinds ks -> ks !! p = Some k ->
  meaning ks timestep p =
  match k with
  | PeriodicTrigger m_period m_phase => u64 (timestep - m_phase) mod m_period =? 0
  | BeforeTrigger ts => timestep <? ts
  | OnTrigger ts => timestep =? ts
  | AfterTrigger ts => timestep >? ts
  | NotTrigger q => negb (meaning ks timestep q)
  | AndTrigger qs => forallb (meaning ks timestep) qs
  | OrTrigger qs => existsb (meaning ks timestep) qs
  end.
Proof.
  intros W E. unfold meaning at 1. simpl. rewrite E.
  assert (Q : forall q, q ∈ children k -> eval p ks timestep q = meaning ks timestep q).
  { intros q Hq. apply eval_fuel; [assumption|]. apply (proj1 (W p k E) q Hq). }
  destruct k; simpl in Q; try reflexivity.
  - f_equal. apply Q. apply elem_of_cons. auto.
  - apply forallb_ext. exact Q.
  - apply existsb_ext. exact Q.
Qed.

Lemma compute_ok ks timestep p k f s :
  wf_kinds ks -> ks !! p = Some k -> kinds s = ks -> cache_ok_below p s ->
  (forall q s, q ∈ children k -> kinds s = ks -> cache_ok_below p s ->
     exists s', f q s = Some (meaning ks timestep q, s') /\ call_frame p s s') ->
  exists s', compute f k timestep s = Some (meaning ks timestep p, s') /\ call_frame p s s'.
Proof.
  intros W E K O Hf. rewrite (meaning_unfold ks timestep p k W E).
  destruct k; simpl in *; eauto.
  - unfold periodic_compute. pose proof (proj2 (W _ _ E) _ _ eq_refl).
    destruct (m_period =? 0) eqn:Z0; [zbool; contradiction|]. eauto.
  - destruct (Hf m_trigger s) as (s' & -> & F); [set_solver|auto|auto|]. eauto.
  - apply (all_of_ok ks timestep p f m_triggers); auto.
  - apply (any_of_ok ks timestep p f m_triggers); auto.
Qed.

Lemma kinds_lookup s p x : s !! p = Some x -> kinds s !! p = Some (t_kind x).
Proof. intros E. unfold kinds. rewrite lookup_fmap, E. reflexivity. Qed.

(** Updating a cache entry changes no kind. *)
Lemma kinds_insert s p x y : s !! p = Some x -> t_kind y = t_kind x -> kinds (<[p := y]> s) = kinds s.
Proof.
  intros E K. unfold kinds. rewrite fmap_insert, K. apply insert_id.
  rewrite lookup_fmap, E. reflexivity.
Qed.

Lemma kinds_alter_cache s p b : kinds (alter (set_last_trigger b) p s) = kinds s.
Proof.
  apply map_eq. intros i. unfold kinds. rewrite !lookup_fmap, lookup_alter.
  case_decide; [subst|reflexivity]. destruct (s !! i); reflexivity.
Qed.

Lemma call_ok ks timestep :
  wf_kinds ks -> timestep <> UINT64_MAX ->
  forall p fuel s, (p < fuel)%nat -> is_Some (ks !! p) -> kinds s = ks -> cache_ok_below (S p) s ->
  exists s', call fuel timestep p s = Some (meaning ks timestep p, s') /\ call_frame (S p) s s'.
Proof.
  intros W T p. induction (lt_wf p) as [p _ IH]; intros fuel s Hfuel [k Hk] K O.
  destruct fuel as [|fuel]; [lia|]. simpl.
  pose proof Hk as Hk'. rewrite <- K in Hk'. unfold kinds in Hk'. rewrite lookup_fmap in Hk'.
  destruct (s !! p) as [x|] eqn:Ex; [|discriminate]. simpl in Hk'. injection Hk' as Hkx.
  destruct (m_last_timestep x =? timestep) eqn:Et.
  - zbool. destruct (O p x) as [U|V]; [lia|assumption|congruence|].
    rewrite V, Et, K. eauto.
  - set (s1 := <[p := set_last_timestep timestep x]> s).
    assert (K1 : kinds s1 = ks) by (unfold s1; rewrite (kinds_insert s p x); auto).
    assert (O1 : cache_ok_below p s1).
    { intros q y Hq Hy. unfold s1 in Hy. rewrite lookup_insert_ne in Hy by lia.
      rewrite K1, <- K. apply (O q y); [lia|assumption]. }
    rewrite Hkx. destruct (compute_ok ks timestep p k (call fuel timestep) s1) as (s2 & -> & F);
      [assumption..| |].
    { intros q s' Hq Ks' Os'. destruct (proj1 (W p k Hk) q Hq) as [Hlt Hsome].
      destruct (IH q Hlt fuel s') as (s'' & E & Fq); [lia|assumption|assumption| |].
      - intros r y Hr. apply Os'. lia.
      - exists s''. split; [assumption|]. eapply call_frame_weaken; [|eassumption|eassumption]. lia. }
    eexists. split; [reflexivity|]. destruct F as (Kf & Of & Ff).
    assert (E2 : s2 !! p = Some (set_last_timestep timestep x)).
    { rewrite Ff by lia. unfold s1. apply lookup_insert_eq. }
    repeat split.
    + rewrite kinds_alter_cache. congruence.
    + intros q y Hq Hy. rewrite kinds_alter_cache, Kf, K1.
      rewrite lookup_alter in Hy. case_decide as Hpq.
      * subst q. rewrite E2 in Hy. injection Hy as <-. right. reflexivity.
      * rewrite <- K1, <- Kf. apply (Of q y); [lia|assumption].
    + intros r Hr. rewrite lookup_alter_ne by lia. rewrite Ff by lia.
      unfold s1. apply lookup_insert_ne. lia.
Qed.

(** ** Properties *)

(** The one-entry cache of [Trigger::operator()] is transparent, sharing and
    short-circuiting included: on a store whose pointers are acyclic, at any time
    step but the sentinel [UINT64_MAX], a call returns the cache-free boolean
    meaning of the trigger expression, changes no trigger's parameters and leaves
    every cache entry of the store valid. *)
Theorem Trigger_call_correct (s : tstore) (timestep : Z) (p : addr)
    (W : wf_kinds (kinds s)) (O : cache_ok s) (T : timestep <> UINT64_MAX)
    (P : is_Some (s !! p)) :
  exists s', call (S p) timestep p s = Some (meaning (kinds s) timestep p, s') /\
    kinds s' = kinds s /\ cache_ok s'.
Proof.
  destruct (call_ok (kinds s) timestep W T p (S p) s) as (s' & E & K & O' & F); [lia| |reflexivity| |].
  - destruct P as [x Hx]. rewrite (kinds_lookup _ _ _ Hx). eauto.
  - intros q x _. apply O.
  - exists s'. split; [assumption|]. split; [assumption|]. intros q x Hx.
    destruct (decide (q < S p)%nat); [eauto|]. rewrite F in Hx by lia. rewrite K. apply O. assumption.
Qed.

(** The store of the witnesses: [And([Periodic(10, 3), Not(Before(20))])]. *)
Definition example_store : tstore :=
  list_to_map [(0%nat, new_trigger (PeriodicTrigger 10 3)); (1%nat, new_trigger (BeforeTrigger 20));
               (2%nat, new_trigger (NotTrigger 1)); (3%nat, new_trigger (AndTrigger [0%nat; 2%nat]))].

Lemma example_store_wf : wf_kinds (kinds example_store) /\ cache_ok example_store.
Proof.
  split.
  - intros p k E. unfold kinds in E. rewrite lookup_fmap in E. apply fmap_Some in E as (x & E & ->).
    apply elem_of_list_to_map_2 in E.
    repeat (apply elem_of_cons in E as [[= -> ->]|E];
      [split; [|simpl; intros ? ? Heq; inversion Heq; lia];
       simpl; intros q Hq;
       repeat (apply elem_of_cons in Hq as [->|Hq]; [split; [lia|vm_compute; eauto]|]);
       apply elem_of_nil in Hq; destruct Hq|]).
    apply elem_of_nil in E. destruct E.
  - intros p x E. left. apply elem_of_list_to_map_2 in E.
    repeat (apply elem_of_cons in E as [[= -> ->]|E]; [reflexivity|]).
    apply elem_of_nil in E. destruct E.
Qed.

Lemma Trigger_call_correct_witness :
  exists s', call 4 23 3%nat example_store = Some (true, s') /\ kinds s' = kinds example_store /\ cache_ok s'.
Proof.
  exact (Trigger_call_correct example_store 23 3%nat (proj1 example_store_wf) (proj2 example_store_wf)
           ltac:(discriminate) ltac:(vm_compute; eauto)).
Defined.

(** A constructed [PeriodicTrigger] fires at every time step from its phase
    on that is a multiple of the period away from it, and at no other; before
    its phase it fires on the multiples of the period counted down from
    [2^64], not from the phase. *)
Theorem PeriodicTrigger_fires (period phase timestep : Z) (x : trigger)
    (New : new_PeriodicTrigger period phase = Ok x)
    (Hp : is_u64 period) (Hphase : is_u64 phase) (Ht : is_u64 timestep) :
  (phase <= timestep ->
     periodic_compute period phase timestep = Some ((timestep - phase) mod period =? 0)) /\
  (timestep < phase ->
     periodic_compute period phase timestep
     = Some ((2 ^ 64 - (phase - timestep)) mod period =? 0)).
Proof.
  unfold new_PeriodicTrigger in New. unfold periodic_compute.
  destruct (period =? 0); [discriminate|]. unfold is_u64 in *. split; intros; do 3 f_equal.
  - apply u64_small. unfold is_u64. lia.
  - unfold u64. replace (timestep - phase) with (2 ^ 64 - (phase - timestep) + (-1) * 2 ^ 64) by lia.
    rewrite Z.mod_add by lia. apply Z.mod_small. lia.
Qed.

Lemma PeriodicTrigger_fires_witness :
  periodic_compute 3 7 10 = Some true /\ periodic_compute 3 7 1 = Some false /\ (1 - 7) mod 3 = 0.
Proof.
  destruct (PeriodicTrigger_fires 3 7 10 _ eq_refl) as [A _]; [unfold is_u64; lia..|].
  destruct (PeriodicTrigger_fires 3 7 1 _ eq_refl) as [_ B]; [unfold is_u64; lia..|].
  split; [apply A; lia|]. split; [apply B; lia|reflexivity].
Defined.

(** The cache sentinel is a real time step: a freshly constructed trigger
    queried at [UINT64_MAX] answers [false] from its empty cache, whatever its
    kind and parameters, and never reaches [compute]. *)
Theorem Trigger_sentinel (s : tstore) (p : addr) (k : trigger_kind) (fuel : nat)
    (P : s !! p = Some (new_trigger k)) :
  call (S fuel) UINT64_MAX p s = Some (false, s).
Proof. simpl. rewrite P. reflexivity. Qed.

Lemma Trigger_sentinel_witness :
  call 1 UINT64_MAX 0%nat {[ 0%nat := new_trigger (OnTrigger UINT64_MAX) ]} = Some (false, {[ 0%nat := new_trigger (OnTrigger UINT64_MAX) ]})
  /\ on_compute UINT64_MAX UINT64_MAX = true.
Proof. split; [apply (Trigger_sentinel _ _ (OnTrigger UINT64_MAX)); reflexivity | reflexivity]. Defined.
