(* ===== verification/HOOMDMath.v ===== *)
(** Scalars and small vectors ([hoomd/HOOMDMath.h]).

    [Scalar] is the floating-point type the build selects; the model computes
    with exact rationals, so rounding, infinities and NaN are not modelled.
    [int3] components are unbounded integers (signed overflow is undefined
    behaviour in the source). Equality of vectors is component-wise equality of
    rationals, [=3=], with [Proper] instances for the operations. *)

From S2P Require Import Prelude.
From Stdlib Require Import ZArith Lia QArith Qround Setoid Morphisms.
Local Open Scope Q_scope.

Abbreviation Scalar := Q.

Record Scalar3 := make_scalar3 { s3x : Scalar; s3y : Scalar; s3z : Scalar }.
Record Scalar4 := make_scalar4 { s4x : Scalar; s4y : Scalar; s4z : Scalar; s4w : Scalar }.
Record int3 := make_int3 { i3x : Z; i3y : Z; i3z : Z }.

(** ** Vector arithmetic *)

Definition s3_eqb (a b : Scalar3) : bool :=
  Qeq_bool (s3x a) (s3x b) && Qeq_bool (s3y a) (s3y b) && Qeq_bool (s3z a) (s3z b).

Definition s3_add (a b : Scalar3) : Scalar3 :=
  make_scalar3 (s3x a + s3x b) (s3y a + s3y b) (s3z a + s3z b).

Definition s3_sub (a b : Scalar3) : Scalar3 :=
  make_scalar3 (s3x a - s3x b) (s3y a - s3y b) (s3z a - s3z b).

Definition s3_mul (a b : Scalar3) : Scalar3 :=
  make_scalar3 (s3x a * s3x b) (s3y a * s3y b) (s3z a * s3z b).

Definition s3_div (a b : Scalar3) : Scalar3 :=
  make_scalar3 (s3x a / s3x b) (s3y a / s3y b) (s3z a / s3z b).

Definition s3_scale (a : Scalar) (b : Scalar3) : Scalar3 :=
  make_scalar3 (a * s3x b) (a * s3y b) (a * s3z b).

Definition s3_div_scalar (a : Scalar3) (b : Scalar) : Scalar3 :=
  make_scalar3 (s3x a / b) (s3y a / b) (s3z a / b).

Definition s3_inv (a : Scalar) (b : Scalar3) : Scalar3 :=
  make_scalar3 (a / s3x b) (a / s3y b) (a / s3z b).

Definition s3_opp (a : Scalar3) : Scalar3 := make_scalar3 (- s3x a) (- s3y a) (- s3z a).

Definition i3_add (a b : int3) : int3 :=
  make_int3 (i3x a + i3x b) (i3y a + i3y b) (i3z a + i3z b).

Definition i3_sub (a b : int3) : int3 :=
  make_int3 (i3x a - i3x b) (i3y a - i3y b) (i3z a - i3z b).

Definition i3_opp (a : int3) : int3 := make_int3 (- i3x a) (- i3y a) (- i3z a).

(** ** Conversions *)

(** [int(q)]: truncation towards zero; a value outside the range of [int] is
    undefined behaviour. *)
Definition Qtrunc (q : Scalar) : Z := if Qle_bool 0 q then Qfloor q else (- Qfloor (- q))%Z.

Definition to_int (q : Scalar) : option Z :=
  let i := Qtrunc q in
  if ((- 2 ^ 31 <=? i) && (i <? 2 ^ 31))%Z then Some i else None.

(** A conversion to [unsigned int]. *)
Definition to_uint (q : Scalar) : run Z :=
  let z := Qtrunc q in if ((0 <=? z) && (z <? 2 ^ 32))%Z then Ret z else OutOfBounds.

(** [a < b] and [a >= b] on scalars. *)
Definition lt_b (a b : Scalar) : bool := negb (Qle_bool b a).
Definition ge_b (a b : Scalar) : bool := Qle_bool b a.

(** ** Equality of vectors *)

Definition s3_eq (a b : Scalar3) : Prop :=
  s3x a == s3x b /\ s3y a == s3y b /\ s3z a == s3z b.

Infix "=3=" := s3_eq (at level 70) : hoomd_scope.

#[global] Instance s3_eq_equiv : Equivalence s3_eq.
Proof.
  split.
  - intros a. repeat split; reflexivity.
  - intros a b (?&?&?). repeat split; symmetry; assumption.
  - intros a b c (?&?&?) (?&?&?). split; [|split]; etransitivity; eassumption.
Qed.

#[global] Instance s3_add_proper : Proper (s3_eq ==> s3_eq ==> s3_eq) s3_add.
Proof. intros a a' (?&?&?) b b' (?&?&?). repeat split; cbn; (apply Qplus_comp; assumption). Qed.

#[global] Instance s3_scale_proper : Proper (Qeq ==> s3_eq ==> s3_eq) s3_scale.
Proof. intros a a' ? b b' (?&?&?). repeat split; cbn; (apply Qmult_comp; assumption). Qed.

Lemma s3_eqb_spec a b : s3_eqb a b = true <-> s3_eq a b.
Proof. unfold s3_eqb, s3_eq. rewrite !Bool.andb_true_iff, !Qeq_bool_iff. tauto. Qed.

(** ** Comparisons *)

Lemma lt_b_spec a b : lt_b a b = true <-> a < b.
Proof.
  unfold lt_b. rewrite Bool.negb_true_iff, <- Bool.not_true_iff_false, Qle_bool_iff.
  split; [apply Qnot_le_lt | apply Qlt_not_le].
Qed.

Lemma lt_b_false a b : lt_b a b = false <-> b <= a.
Proof. unfold lt_b. rewrite Bool.negb_false_iff. apply Qle_bool_iff. Qed.

Lemma ge_b_spec a b : ge_b a b = true <-> b <= a.
Proof. apply Qle_bool_iff. Qed.

Lemma ge_b_false a b : ge_b a b = false <-> a < b.
Proof. unfold ge_b. rewrite <- lt_b_spec. unfold lt_b. now rewrite Bool.negb_true_iff. Qed.

(** Turn boolean comparisons on scalars into propositions. *)
Ltac qbool :=
  repeat match goal with
  | H : lt_b _ _ = true |- _ => apply lt_b_spec in H
  | H : lt_b _ _ = false |- _ => apply lt_b_false in H
  | H : ge_b _ _ = true |- _ => apply ge_b_spec in H
  | H : ge_b _ _ = false |- _ => apply ge_b_false in H
  end.

(** ** Truncation *)

Lemma Qtrunc_nonneg q : 0 <= q -> inject_Z (Qtrunc q) <= q < inject_Z (Qtrunc q) + 1.
Proof.
  intros H. unfold Qtrunc. apply Qle_bool_iff in H. rewrite H. split; [apply Qfloor_le|].
  pose proof (Qlt_floor q) as L. now rewrite inject_Z_plus in L.
Qed.

Lemma to_int_some q : 0 <= q -> q < inject_Z (2 ^ 31) -> to_int q = Some (Qtrunc q).
Proof.
  intros H L. unfold to_int. pose proof (Qtrunc_nonneg q H) as [L1 L2].
  assert (A : (Qtrunc q < 2 ^ 31)%Z).
  { rewrite Zlt_Qlt. eapply Qle_lt_trans; eassumption. }
  assert (B : (0 < Qtrunc q + 1)%Z).
  { rewrite Zlt_Qlt, inject_Z_plus. eapply Qle_lt_trans; eassumption. }
  destruct (Z.leb_spec (- 2 ^ 31) (Qtrunc q)); [|lia].
  destruct (Z.ltb_spec (Qtrunc q) (2 ^ 31)); [reflexivity|lia].
Qed.
