(* ===== verification/VectorMath.v ===== *)
(** Vectors, quaternions and rotation matrices ([hoomd/VectorMath.h]).

    The source's [template<class Real>] is a type class of operations; the
    algebraic theorems hold over any commutative ring, those that divide, compare
    or take roots over the real numbers, which are an instance. Floating-point
    rounding is not modelled. The compound assignments ([a += b]) return the new
    value of [a]. *)

From S2P Require Import Prelude HOOMDMath.
From Stdlib Require Import ZArith Lia Ring Field String Reals Lra.

(** * The scalar type *)

Class RealOps (R : Type) := {
  r0 : R; r1 : R;
  radd : R -> R -> R; rsub : R -> R -> R; rmul : R -> R -> R; ropp : R -> R;
  rdiv : R -> R -> R;
  reqb : R -> R -> bool; rltb : R -> R -> bool;
  rsqrt : R -> R;       (* slow::sqrt *)
  rinv_sqrt : R -> R;   (* fast::rsqrt *)
  rcos : R -> R; rsin : R -> R
}.

Declare Scope real_scope.
Delimit Scope real_scope with real.
Infix "+" := radd : real_scope.
Infix "-" := rsub : real_scope.
Infix "*" := rmul : real_scope.
Infix "/" := rdiv : real_scope.
Notation "- x" := (ropp x) : real_scope.
Notation "0" := r0 : real_scope.
Notation "1" := r1 : real_scope.
Notation "2" := (radd r1 r1) : real_scope.

Class RealRing (R : Type) `{RealOps R} := real_ring : ring_theory r0 r1 radd rmul rsub ropp eq.

(** * The model *)

Module VectorMath.
Section template.
Context {R : Type} `{RealOps R}.
Local Open Scope real_scope.

(** ** vec3 *)

Record vec3 := mk3 { x : R; y : R; z : R }.

Definition vec3_zero : vec3 := mk3 0 0 0.

(** [operator[]]: an index above 2 throws on the host. *)
Definition vec3_get (a : vec3) (i : Z) : result R :=
  match i with
  | 0%Z => Ok (x a)
  | 1%Z => Ok (y a)
  | 2%Z => Ok (z a)
  | _ => Throw (invalid_argument "Attempting to access non-existent vec3 entry (i.e. i > 2)"%string)
  end.

(** [a.swap(b)]: the new values of [a] and [b]. *)
Definition vec3_swap (a b : vec3) : vec3 * vec3 := (mk3 (x b) (y b) (z b), mk3 (x a) (y a) (z a)).

Definition add3 (a b : vec3) : vec3 := mk3 (x a + x b) (y a + y b) (z a + z b).
Definition sub3 (a b : vec3) : vec3 := mk3 (x a - x b) (y a - y b) (z a - z b).
Definition mul3 (a b : vec3) : vec3 := mk3 (x a * x b) (y a * y b) (z a * z b).
Definition div3 (a b : vec3) : vec3 := mk3 (x a / x b) (y a / y b) (z a / z b).
Definition opp3 (a : vec3) : vec3 := mk3 (- x a) (- y a) (- z a).
Definition add_assign3 (a b : vec3) : vec3 := mk3 (x a + x b) (y a + y b) (z a + z b).
Definition sub_assign3 (a b : vec3) : vec3 := mk3 (x a - x b) (y a - y b) (z a - z b).
Definition mul_assign3 (a b : vec3) : vec3 := mk3 (x a * x b) (y a * y b) (z a * z b).
Definition div_assign3 (a b : vec3) : vec3 := mk3 (x a / x b) (y a / y b) (z a / z b).
Definition scale3 (b : R) (a : vec3) : vec3 := mk3 (x a * b) (y a * b) (z a * b).
Definition div_scalar3 (a : vec3) (b : R) : vec3 := let q := 1 / b in scale3 q a.
Definition scale_assign3 (a : vec3) (b : R) : vec3 := mk3 (x a * b) (y a * b) (z a * b).
Definition div_scalar_assign3 (a : vec3) (b : R) : vec3 := mk3 (x a / b) (y a / b) (z a / b).
Definition eqb3 (a b : vec3) : bool := reqb (x a) (x b) && reqb (y a) (y b) && reqb (z a) (z b).
Definition neqb3 (a b : vec3) : bool := negb (reqb (x a) (x b)) || negb (reqb (y a) (y b)) || negb (reqb (z a) (z b)).
Definition dot3 (a b : vec3) : R := x a * x b + y a * y b + z a * z b.
Definition cross (a b : vec3) : vec3 :=
  mk3 (y a * z b - z a * y b) (z a * x b - x a * z b) (x a * y b - y a * x b).
Definition normalize3 (a : vec3) : vec3 := let inverse_norm := rinv_sqrt (dot3 a a) in scale3 inverse_norm a.

(** ** vec2 *)

Record vec2 := mk2 { x2 : R; y2 : R }.

Definition vec2_swap (a b : vec2) : vec2 * vec2 := (mk2 (x2 b) (y2 b), mk2 (x2 a) (y2 a)).
Definition add2 (a b : vec2) : vec2 := mk2 (x2 a + x2 b) (y2 a + y2 b).
Definition sub2 (a b : vec2) : vec2 := mk2 (x2 a - x2 b) (y2 a - y2 b).
Definition mul2 (a b : vec2) : vec2 := mk2 (x2 a * x2 b) (y2 a * y2 b).
Definition div2 (a b : vec2) : vec2 := mk2 (x2 a / x2 b) (y2 a / y2 b).
Definition opp2 (a : vec2) : vec2 := mk2 (- x2 a) (- y2 a).
Definition scale2 (b : R) (a : vec2) : vec2 := mk2 (x2 a * b) (y2 a * b).
Definition div_scalar2 (a : vec2) (b : R) : vec2 := let q := 1 / b in scale2 q a.
Definition eqb2 (a b : vec2) : bool := reqb (x2 a) (x2 b) && reqb (y2 a) (y2 b).
Definition dot2 (a b : vec2) : R := x2 a * x2 b + y2 a * y2 b.
Definition perp (a : vec2) : vec2 := mk2 (- y2 a) (x2 a).
Definition perpdot (a b : vec2) : R := dot2 (perp a) b.
Definition normalize2 (a : vec2) : vec2 := let inverse_norm := rinv_sqrt (dot2 a a) in scale2 inverse_norm a.

(** ** quat *)

Record quat := mkq { s : R; v : vec3 }.

Definition quat_one : quat := mkq 1 (mk3 0 0 0).
Definition fromAxisAngle (axis : vec3) (theta : R) : quat :=
  mkq (rcos (theta / 2)) (scale3 (rsin (theta / 2)) axis).
Definition scaleq (b : R) (a : quat) : quat := mkq (b * s a) (scale3 b (v a)).
Definition addq (a b : quat) : quat := mkq (s a + s b) (add3 (v a) (v b)).
Definition add_assignq (a b : quat) : quat := mkq (s a + s b) (add_assign3 (v a) (v b)).
Definition subq (a b : quat) : quat := mkq (s a - s b) (sub3 (v a) (v b)).
Definition sub_assignq (a b : quat) : quat := mkq (s a - s b) (sub_assign3 (v a) (v b)).
Definition mulq (a b : quat) : quat :=
  mkq (s a * s b - dot3 (v a) (v b)) (add3 (add3 (scale3 (s a) (v b)) (scale3 (s b) (v a))) (cross (v a) (v b))).
Definition mul_vq (a : vec3) (b : quat) : quat := mulq (mkq 0 a) b.
Definition mul_qv (a : quat) (b : vec3) : quat := mulq a (mkq 0 b).
Definition norm2 (a : quat) : R := s a * s a + dot3 (v a) (v a).
Definition conj (a : quat) : quat := mkq (s a) (opp3 (v a)).
Definition dotq (a b : quat) : R := s a * s b + dot3 (v a) (v b).

Definition rotate (a : quat) (b : vec3) : vec3 :=
  add3 (add3 (scale3 (s a * s a - dot3 (v a) (v a)) b) (scale3 (2 * s a) (cross (v a) b)))
       (scale3 (2 * dot3 (v a) b) (v a)).

Definition rotate2 (a : quat) (b : vec2) : vec2 :=
  let b3 := mk3 (x2 b) (y2 b) 0 in
  let b3 := add3 (add3 (scale3 (s a * s a - dot3 (v a) (v a)) b3) (scale3 (2 * s a) (cross (v a) b3)))
                 (scale3 (2 * dot3 (v a) b3) (v a)) in
  mk2 (x b3) (y b3).

(** ** rotmat2 *)

Record rotmat2 := mkm2 { m2row0 : vec2; m2row1 : vec2 }.

Definition rotmat2_of_quat (q : quat) : rotmat2 :=
  let a := s q in let b := x (v q) in let c := y (v q) in let d := z (v q) in
  mkm2 (mk2 (a * a + b * b - c * c - d * d) (2 * b * c - 2 * a * d))
       (mk2 (2 * b * c + 2 * a * d) (a * a - b * b + c * c - d * d)).

Definition fromAngle (theta : R) : rotmat2 := mkm2 (mk2 (rcos theta) (- rsin theta)) (mk2 (rsin theta) (rcos theta)).
Definition mulm2 (A : rotmat2) (b : vec2) : vec2 := mk2 (dot2 (m2row0 A) b) (dot2 (m2row1 A) b).
Definition transpose2 (A : rotmat2) : rotmat2 :=
  mkm2 (mk2 (x2 (m2row0 A)) (x2 (m2row1 A))) (mk2 (y2 (m2row0 A)) (y2 (m2row1 A))).

(** ** rotmat3 *)

Record rotmat3 := mkm3 { row0 : vec3; row1 : vec3; row2 : vec3 }.

Definition rotmat3_of_quat (q : quat) : rotmat3 :=
  let a := s q in let b := x (v q) in let c := y (v q) in let d := z (v q) in
  mkm3
    (mk3 (a * a + b * b - c * c - d * d) (2 * b * c - 2 * a * d) (2 * b * d + 2 * a * c))
    (mk3 (2 * b * c + 2 * a * d) (a * a - b * b + c * c - d * d) (2 * c * d - 2 * a * b))
    (mk3 (2 * b * d - 2 * a * c) (2 * c * d + 2 * a * b) (a * a - b * b - c * c + d * d)).

Definition rotmat3_id : rotmat3 := mkm3 (mk3 1 0 0) (mk3 0 1 0) (mk3 0 0 1).

Definition det (m : rotmat3) : R :=
  x (row0 m) * (y (row1 m) * z (row2 m) - z (row1 m) * y (row2 m))
  - y (row0 m) * (x (row1 m) * z (row2 m) - z (row1 m) * x (row2 m))
  + z (row0 m) * (x (row1 m) * y (row2 m) - y (row1 m) * x (row2 m)).

Definition mulm3 (A : rotmat3) (b : vec3) : vec3 := mk3 (dot3 (row0 A) b) (dot3 (row1 A) b) (dot3 (row2 A) b).

Definition transpose3 (A : rotmat3) : rotmat3 :=
  mkm3 (mk3 (x (row0 A)) (x (row1 A)) (x (row2 A)))
       (mk3 (y (row0 A)) (y (row1 A)) (y (row2 A)))
       (mk3 (z (row0 A)) (z (row1 A)) (z (row2 A))).

Definition mulmm3 (A B : rotmat3) : rotmat3 :=
  let B_t := transpose3 B in
  mkm3 (mk3 (dot3 (row0 A) (row0 B_t)) (dot3 (row0 A) (row1 B_t)) (dot3 (row0 A) (row2 B_t)))
       (mk3 (dot3 (row1 A) (row0 B_t)) (dot3 (row1 A) (row1 B_t)) (dot3 (row1 A) (row2 B_t)))
       (mk3 (dot3 (row2 A) (row0 B_t)) (dot3 (row2 A) (row1 B_t)) (dot3 (row2 A) (row2 B_t))).

(** [quat(const rotmat3&)] *)
Definition quarter : R := 1 / (2 * 2).

Definition quat_of_rotmat3 (r : rotmat3) : quat :=
  let tr := x (row0 r) + y (row1 r) + z (row2 r) in
  if rltb 0 tr then
    let S := rsqrt (tr + 1) * 2 in
    mkq (quarter * S)
        (mk3 ((y (row2 r) - z (row1 r)) / S) ((z (row0 r) - x (row2 r)) / S) ((x (row1 r) - y (row0 r)) / S))
  else if (rltb (y (row1 r)) (x (row0 r)) && rltb (z (row2 r)) (x (row0 r)))%bool then
    let S := rsqrt (1 + x (row0 r) - y (row1 r) - z (row2 r)) * 2 in
    mkq ((y (row2 r) - z (row1 r)) / S)
        (mk3 (quarter * S) ((y (row0 r) + x (row1 r)) / S) ((z (row0 r) + x (row2 r)) / S))
  else if rltb (z (row2 r)) (y (row1 r)) then
    let S := rsqrt (1 + y (row1 r) - x (row0 r) - z (row2 r)) * 2 in
    mkq ((z (row0 r) - x (row2 r)) / S)
        (mk3 ((y (row0 r) + x (row1 r)) / S) (quarter * S) ((z (row1 r) + y (row2 r)) / S))
  else
    let S := rsqrt (1 + z (row2 r) - x (row0 r) - y (row1 r)) * 2 in
    mkq ((x (row1 r) - y (row0 r)) / S)
        (mk3 ((z (row0 r) + x (row2 r)) / S) ((z (row1 r) + y (row2 r)) / S) (quarter * S)).

(** [project] of three-dimensional vectors. *)
Definition project3 (a b : vec3) : vec3 := scale3 (dot3 a b / dot3 b b) b.

End template.
Arguments vec3 R : clear implicits.
Arguments vec2 R : clear implicits.
Arguments quat R : clear implicits.
Arguments rotmat2 R : clear implicits.
Arguments rotmat3 R : clear implicits.
End VectorMath.
Import VectorMath.

(** * Algebra over a commutative ring *)

Section ring_identities.
Context {R : Type} `{RealRing R}.
Local Open Scope real_scope.

Add Ring scalar_ring : real_ring.

(** Equality of vectors, quaternions and matrices is component-wise; each
    component is an identity of the ring. *)
Ltac components :=
  intros;
  repeat match goal with
  | u : vec3 _ |- _ => destruct u
  | u : vec2 _ |- _ => destruct u
  | u : quat _ |- _ => destruct u
  end;
  cbv beta zeta iota delta [rotate rotate2 mulq mul_qv mul_vq conj norm2 cross dot3 dot2 dotq add3 sub3 opp3 scale3 scaleq mulm3 mulmm3
    mulm2 transpose3 transpose2 rotmat3_of_quat rotmat2_of_quat det perp perpdot rotmat3_id quat_one
    x y z x2 y2 s v row0 row1 row2 m2row0 m2row1].

Ltac split_components :=
  repeat match goal with
  | |- mk3 _ _ _ = mk3 _ _ _ => f_equal
  | |- mk2 _ _ = mk2 _ _ => f_equal
  | |- mkq _ _ = mkq _ _ => f_equal
  | |- mkm3 _ _ _ = mkm3 _ _ _ => f_equal
  | |- mkm2 _ _ = mkm2 _ _ => f_equal
  end.

Ltac ring_components := components; split_components; ring.

Lemma mulq_assoc (a b c : quat R) : mulq a (mulq b c) = mulq (mulq a b) c.
Proof. ring_components. Qed.

Lemma norm2_mulq (a b : quat R) : norm2 (mulq a b) = norm2 a * norm2 b.
Proof. ring_components. Qed.

Lemma mulq_conj (a : quat R) : mulq a (conj a) = mkq (norm2 a) (mk3 0 0 0).
Proof. ring_components. Qed.

Lemma conj_mulq (a b : quat R) : conj (mulq a b) = mulq (conj b) (conj a).
Proof. ring_components. Qed.

(** The optimised formula is the quaternion sandwich product. *)
Lemma rotate_sandwich (a : quat R) (b : vec3 R) : mulq (mul_qv a b) (conj a) = mkq 0 (rotate a b).
Proof. ring_components. Qed.

Lemma rotate_mulq (a b : quat R) (u : vec3 R) : rotate (mulq a b) u = rotate a (rotate b u).
Proof. ring_components. Qed.

Lemma rotate_dot (a : quat R) (u w : vec3 R) : dot3 (rotate a u) (rotate a w) = norm2 a * norm2 a * dot3 u w.
Proof. ring_components. Qed.

Lemma rotate_cross (a : quat R) (u w : vec3 R) : cross (rotate a u) (rotate a w) = scale3 (norm2 a) (rotate a (cross u w)).
Proof. ring_components. Qed.

Lemma rotmat3_rotate (q : quat R) (u : vec3 R) : mulm3 (rotmat3_of_quat q) u = rotate q u.
Proof. ring_components. Qed.

Lemma rotmat3_mulq (p q : quat R) : rotmat3_of_quat (mulq p q) = mulmm3 (rotmat3_of_quat p) (rotmat3_of_quat q).
Proof. ring_components. Qed.

Lemma rotmat3_transpose (q : quat R) : transpose3 (rotmat3_of_quat q) = rotmat3_of_quat (conj q).
Proof. ring_components. Qed.

Lemma rotmat3_det (q : quat R) : det (rotmat3_of_quat q) = norm2 q * norm2 q * norm2 q.
Proof. ring_components. Qed.

Lemma rotmat2_rotate (q : quat R) (u : vec2 R) : mulm2 (rotmat2_of_quat q) u = rotate2 q u.
Proof. ring_components. Qed.

Lemma rotate_one (u : vec3 R) : rotate quat_one u = u.
Proof. ring_components. Qed.

Lemma conj_mulq_self (q : quat R) : mulq (conj q) q = mkq (norm2 q) (mk3 0 0 0).
Proof. ring_components. Qed.

Lemma scale3_one (u : vec3 R) : scale3 1 u = u.
Proof. ring_components. Qed.

Lemma mul_one_l (a : R) : 1 * a = a.
Proof. ring. Qed.

End ring_identities.

(** * Instances *)

(** Integers: an executable commutative ring. *)
#[export] Instance Z_ops : RealOps Z := {|
  r0 := 0%Z; r1 := 1%Z; radd := Z.add; rsub := Z.sub; rmul := Z.mul; ropp := Z.opp; rdiv := Z.div;
  reqb := Z.eqb; rltb := Z.ltb; rsqrt := Z.sqrt; rinv_sqrt := fun q => (1 / Z.sqrt q)%Z;
  rcos := fun _ => 1%Z; rsin := fun _ => 0%Z |}.

#[export] Instance Z_ring : RealRing Z := Zth.

(** The real numbers. *)
#[export] Instance R_ops : RealOps R := {|
  r0 := 0%R; r1 := 1%R; radd := Rplus; rsub := Rminus; rmul := Rmult; ropp := Ropp; rdiv := Rdiv;
  reqb := fun a b => if Req_dec_T a b then true else false;
  rltb := fun a b => if Rlt_dec a b then true else false;
  rsqrt := sqrt; rinv_sqrt := fun q => (/ sqrt q)%R; rcos := cos; rsin := sin |}.

#[export] Instance R_ring : RealRing R := RTheory.

Section real_numbers.
Local Open Scope R_scope.

Lemma rltb_true (a b : R) : rltb a b = true -> a < b.
Proof. cbn. destruct (Rlt_dec a b); [auto|discriminate]. Qed.

Lemma rltb_false (a b : R) : rltb a b = false -> b <= a.
Proof. cbn. destruct (Rlt_dec a b); [discriminate|lra]. Qed.

(** The root the conversion takes of the largest component. *)
Lemma root_of_square (t e : R) : e = 2 * t * (2 * t) -> sqrt e = 2 * Rabs t.
Proof. intros ->. fold (Rsqr (2 * t)). rewrite sqrt_Rsqr_abs, Rabs_mult, (Rabs_pos_eq 2) by lra. reflexivity. Qed.

(** Each branch recovers the quaternion, or its negation, from one non-zero
    component [t] and the products of [t] with the others. *)
Lemma recover (t e : R) : t <> 0 -> e = 2 * t * (2 * t) ->
  (sqrt e * (1 + 1) = 4 * t \/ sqrt e * (1 + 1) = 4 * - t) /\ sqrt e * (1 + 1) <> 0.
Proof.
  intros N E. rewrite (root_of_square t e E). unfold Rabs. destruct (Rcase_abs t); split; lra.
Qed.

Definition negq (q : quat R) : quat R := scaleq (-1) q.

End real_numbers.

(** One branch of the conversion: [t] is the component it divides by. *)
Ltac branch t :=
  match goal with
  | |- context [sqrt ?e] =>
      let S := fresh "S" in let N := fresh "N" in
      destruct (recover t e) as [[S|S] N];
      [intros ->; nra | lra
      | left; rewrite S in *; f_equal; [|f_equal]; field; intros ->; lra
      | right; rewrite S in *; f_equal; [|f_equal]; field; intros ->; lra]
  end.

(** * Properties *)

(** Over any commutative ring the optimised [rotate] is the quaternion
    sandwich product it documents, rotating by a product is rotating twice, and
    the matrices built from a quaternion act as the quaternion does, in three and
    two dimensions, and multiply as the quaternions do. *)
Theorem quaternion_rotation {R : Type} `{RealRing R} :
  (forall (a : quat R) b, mulq (mul_qv a b) (conj a) = mkq r0 (rotate a b)) /\
  (forall (a b : quat R) u, rotate (mulq a b) u = rotate a (rotate b u)) /\
  (forall (q : quat R) u, mulm3 (rotmat3_of_quat q) u = rotate q u) /\
  (forall p q : quat R, rotmat3_of_quat (mulq p q) = mulmm3 (rotmat3_of_quat p) (rotmat3_of_quat q)) /\
  (forall (q : quat R) u, mulm2 (rotmat2_of_quat q) u = rotate2 q u).
Proof.
  repeat apply Logic.conj; intros.
  - apply rotate_sandwich.
  - apply rotate_mulq.
  - apply rotmat3_rotate.
  - apply rotmat3_mulq.
  - apply rotmat2_rotate.
Qed.

Lemma quaternion_rotation_witness :
  rotate (mulq (mkq 1 (mk3 2 0 1)) (mkq 0 (mk3 1 1 0)))%Z (mk3 3 4 5)%Z =
  rotate (mkq 1 (mk3 2 0 1))%Z (rotate (mkq 0 (mk3 1 1 0))%Z (mk3 3 4 5)%Z).
Proof. exact (proj1 (proj2 (@quaternion_rotation Z Z_ops Z_ring)) _ _ _). Defined.

(** A unit quaternion rotates: it preserves dot and cross products (hence
    lengths and orientation), its matrix has determinant one, its conjugate, and
    the transpose of its matrix, undo it. *)
Theorem rotation_isometry {R : Type} `{RealRing R} (q : quat R) (Unit : norm2 q = r1) :
  (forall u w, dot3 (rotate q u) (rotate q w) = dot3 u w) /\
  (forall u w, cross (rotate q u) (rotate q w) = rotate q (cross u w)) /\
  (forall u, rotate (conj q) (rotate q u) = u) /\
  det (rotmat3_of_quat q) = r1 /\
  mulmm3 (transpose3 (rotmat3_of_quat q)) (rotmat3_of_quat q) = rotmat3_of_quat quat_one.
Proof.
  assert (C : mulq (conj q) q = quat_one) by (rewrite conj_mulq_self, Unit; reflexivity).
  repeat apply Logic.conj; intros.
  - rewrite rotate_dot, Unit, !mul_one_l. reflexivity.
  - rewrite rotate_cross, Unit. apply scale3_one.
  - rewrite <- rotate_mulq, C. apply rotate_one.
  - rewrite rotmat3_det, Unit, !mul_one_l. reflexivity.
  - rewrite rotmat3_transpose, <- rotmat3_mulq, C. reflexivity.
Qed.

Lemma rotation_isometry_witness :
  (dot3 (rotate (mkq 0 (mk3 0 1 0)) (mk3 3 4 5)) (rotate (mkq 0 (mk3 0 1 0)) (mk3 1 2 3)) = 26)%Z.
Proof.
  destruct (@rotation_isometry Z Z_ops Z_ring (mkq 0 (mk3 0 1 0))%Z) as [D _]; [reflexivity|].
  rewrite D. reflexivity.
Defined.

(** Converting a unit quaternion to a rotation matrix and back gives the
    quaternion or its negation, which is the same rotation, whichever of the four
    branches the conversion takes. *)
Theorem quat_rotmat3_roundtrip (q : quat R) (Unit : norm2 q = 1%R) :
  quat_of_rotmat3 (rotmat3_of_quat q) = q \/ quat_of_rotmat3 (rotmat3_of_quat q) = negq q.
Proof.
  destruct q as [a [b c d]]. unfold norm2, dot3 in Unit. cbn in Unit.
  unfold quat_of_rotmat3, rotmat3_of_quat, negq, scaleq, scale3, quarter. cbn [s v x y z row0 row1 row2 radd rsub rmul rdiv r0 r1 rsqrt R_ops].
  destruct (rltb _ _) eqn:B1; [apply rltb_true in B1; cbn in B1|apply rltb_false in B1; cbn in B1].
  - branch a.
  - destruct (rltb _ _ && rltb _ _)%bool eqn:B2.
    + apply andb_prop in B2 as [B2 B3]. apply rltb_true in B2, B3. cbn in B2, B3. branch b.
    + match goal with |- context [if ?t then _ else _] => destruct t eqn:B3 end; [apply rltb_true in B3|apply rltb_false in B3]; cbn in B3.
      * branch c.
      * apply Bool.andb_false_iff in B2 as [B2|B2]; apply rltb_false in B2; cbn in B2; branch d.
Qed.

Lemma quat_rotmat3_roundtrip_witness :
  let q : quat R := mkq 0%R (mk3 0%R 1%R 0%R) in
  quat_of_rotmat3 (rotmat3_of_quat q) = q \/ quat_of_rotmat3 (rotmat3_of_quat q) = negq q.
Proof. apply quat_rotmat3_roundtrip. unfold norm2, dot3. cbn. lra. Defined.
