(* ===== verification/BoxDim.v ===== *)
(** The simulation box ([hoomd/BoxDim.h]): a triclinic, possibly partly periodic
    box with precomputed lengths and inverse lengths.

    The periodic flags ([uchar3] holding 0 or 1) are booleans. [minImage] and
    [getImage] convert to [int] and return [None] where that conversion is
    undefined. [fast::rsqrt] of the C library is a parameter of
    [getNearestPlaneDistance] and of [makeFraction] with a ghost layer. *)

From stdpp Require Import base tactics.
From S2P Require Import Prelude HOOMDMath.
From Stdlib Require Import ZArith Lia QArith Qround Qabs Lqa Bool Setoid.
Local Open Scope Q_scope.
Local Open Scope hoomd_scope.

(** * The model *)

Module BoxDim.

Record uchar3 := make_uchar3 { u3x : bool; u3y : bool; u3z : bool }.
Record char3 := make_char3 { c3x : Z; c3y : Z; c3z : Z }.

Record t := mk {
  m_lo : Scalar3; m_hi : Scalar3; m_L : Scalar3; m_Linv : Scalar3;
  m_xy : Scalar; m_xz : Scalar; m_yz : Scalar;
  m_periodic : uchar3
}.

Definition zero3 : Scalar3 := make_scalar3 0 0 0.

(** The default constructor. *)
Definition empty : t := mk zero3 zero3 zero3 zero3 0 0 0 (make_uchar3 true true true).

Definition setPeriodic (periodic : uchar3) (b : t) : t :=
  mk (m_lo b) (m_hi b) (m_L b) (m_Linv b) (m_xy b) (m_xz b) (m_yz b) periodic.

Definition setL (L : Scalar3) (b : t) : t :=
  let hi := s3_div_scalar L 2 in
  let Linv := s3_inv 1 L in
  let Linv := if Qeq_bool (s3z L) 0 then make_scalar3 (s3x Linv) (s3y Linv) 0 else Linv in
  mk (s3_opp hi) hi L Linv (m_xy b) (m_xz b) (m_yz b) (m_periodic b).

Definition setLoHi (lo hi : Scalar3) (b : t) : t :=
  let Linv := s3_inv 1 (s3_sub hi lo) in
  let Linv := if Qeq_bool (s3z hi) 0 && Qeq_bool (s3z lo) 0 then make_scalar3 (s3x Linv) (s3y Linv) 0 else Linv in
  mk lo hi (s3_sub hi lo) Linv (m_xy b) (m_xz b) (m_yz b) (m_periodic b).

Definition setTiltFactors (xy xz yz : Scalar) (b : t) : t :=
  mk (m_lo b) (m_hi b) (m_L b) (m_Linv b) xy xz yz (m_periodic b).

(** The constructors; members not yet assigned are indeterminate, the setters
    overwrite all of them. *)
Definition make_L (L : Scalar3) : t :=
  setTiltFactors 0 0 0 (setPeriodic (make_uchar3 true true true) (setL L empty)).

Definition make_tilted (Len xy xz yz : Scalar) : t :=
  setPeriodic (make_uchar3 true true true) (setTiltFactors xy xz yz (setL (make_scalar3 Len Len Len) empty)).

Definition make_lohi (lo hi : Scalar3) (periodic : uchar3) : t :=
  setTiltFactors 0 0 0 (setPeriodic periodic (setLoHi lo hi empty)).

Definition make_array (Lx Ly Lz xy xz yz : Scalar) : t :=
  setPeriodic (make_uchar3 true true true) (setTiltFactors xy xz yz (setL (make_scalar3 Lx Ly Lz) empty)).

Section fractions.
Variable rsqrt : Scalar -> Scalar.

Definition getNearestPlaneDistance (b : t) : Scalar3 :=
  make_scalar3
    (s3x (m_L b) * rsqrt (1 + m_xy b * m_xy b
                          + (m_xy b * m_yz b - m_xz b) * (m_xy b * m_yz b - m_xz b)))
    (s3y (m_L b) * rsqrt (1 + m_yz b * m_yz b))
    (if Qeq_bool (s3z (m_L b)) 0 then 1 else s3z (m_L b)).

Definition makeFraction (b : t) (v ghost_width : Scalar3) : Scalar3 :=
  let delta := s3_sub v (m_lo b) in
  let delta := make_scalar3
    (s3x delta - ((m_xz b - m_yz b * m_xy b) * s3z v + m_xy b * s3y v))
    (s3y delta - m_yz b * s3z v)
    (s3z delta) in
  let ghost_frac := s3_div ghost_width (getNearestPlaneDistance b) in
  s3_div (s3_add (s3_mul delta (m_Linv b)) ghost_frac)
         (s3_add (make_scalar3 1 1 1) (s3_scale 2 ghost_frac)).

(** [getImage]: the component of the image vector, rounding half away from zero. *)
Definition getImage_axis (periodic : bool) (f : Scalar) : option Z :=
  if periodic then to_int (if ge_b f 0 then f + (1 # 2) else f - (1 # 2)) else Some 0%Z.

Definition getImage (b : t) (v : Scalar3) : option int3 :=
  let f := s3_sub (makeFraction b v zero3) (make_scalar3 (1 # 2) (1 # 2) (1 # 2)) in
  match getImage_axis (u3x (m_periodic b)) (s3x f),
        getImage_axis (u3y (m_periodic b)) (s3y f),
        getImage_axis (u3z (m_periodic b)) (s3z f) with
  | Some ix, Some iy, Some iz => Some (make_int3 ix iy iz)
  | _, _, _ => None
  end.

End fractions.

Definition makeCoordinates (b : t) (f : Scalar3) : Scalar3 :=
  let v := s3_add (m_lo b) (s3_mul f (m_L b)) in
  let vx := s3x v + (m_xy b * s3y v + m_xz b * s3z v) in
  let vy := s3y v + m_yz b * s3z v in
  make_scalar3 vx vy (s3z v).

(** [minImage] on the host: one image along z, any number along y and x. *)
Definition minImage_z (b : t) (w : Scalar3) : Scalar3 :=
  let L := m_L b in
  if u3z (m_periodic b) then
    if ge_b (s3z w) (s3z (m_hi b)) then
      make_scalar3 (s3x w - s3z L * m_xz b) (s3y w - s3z L * m_yz b) (s3z w - s3z L)
    else if lt_b (s3z w) (s3z (m_lo b)) then
      make_scalar3 (s3x w + s3z L * m_xz b) (s3y w + s3z L * m_yz b) (s3z w + s3z L)
    else w
  else w.

Definition minImage_y (b : t) (w : Scalar3) : option Scalar3 :=
  let L := m_L b in
  if u3y (m_periodic b) then
    if ge_b (s3y w) (s3y (m_hi b)) then
      match to_int (s3y w * s3y (m_Linv b) + (1 # 2)) with
      | None => None
      | Some i => Some (make_scalar3 (s3x w - inject_Z i * s3y L * m_xy b) (s3y w - inject_Z i * s3y L) (s3z w))
      end
    else if lt_b (s3y w) (s3y (m_lo b)) then
      match to_int (- s3y w * s3y (m_Linv b) + (1 # 2)) with
      | None => None
      | Some i => Some (make_scalar3 (s3x w + inject_Z i * s3y L * m_xy b) (s3y w + inject_Z i * s3y L) (s3z w))
      end
    else Some w
  else Some w.

Definition minImage_x (b : t) (w : Scalar3) : option Scalar3 :=
  let L := m_L b in
  if u3x (m_periodic b) then
    if ge_b (s3x w) (s3x (m_hi b)) then
      match to_int (s3x w * s3x (m_Linv b) + (1 # 2)) with
      | None => None
      | Some i => Some (make_scalar3 (s3x w - inject_Z i * s3x L) (s3y w) (s3z w))
      end
    else if lt_b (s3x w) (s3x (m_lo b)) then
      match to_int (- s3x w * s3x (m_Linv b) + (1 # 2)) with
      | None => None
      | Some i => Some (make_scalar3 (s3x w + inject_Z i * s3x L) (s3y w) (s3z w))
      end
    else Some w
  else Some w.

Definition minImage (b : t) (v : Scalar3) : option Scalar3 :=
  match minImage_y b (minImage_z b v) with
  | None => None
  | Some w => minImage_x b w
  end.

(** [slow::rint]: to nearest, halves to even (the default rounding mode). *)
Definition rint (q : Scalar) : Z :=
  let f := Qfloor q in
  match Qcompare (q - inject_Z f) (1 # 2) with
  | Lt => f
  | Gt => (f + 1)%Z
  | Eq => if Z.even f then f else (f + 1)%Z
  end.

(** [minImage] on the device: any number of images along each axis. *)
Definition minImage_device_z (b : t) (w : Scalar3) : Scalar3 :=
  let L := m_L b in
  if u3z (m_periodic b) then
    let img := inject_Z (rint (s3z w * s3z (m_Linv b))) in
    make_scalar3 (s3x w - s3z L * m_xz b * img) (s3y w - s3z L * m_yz b * img) (s3z w - s3z L * img)
  else w.

Definition minImage_device_y (b : t) (w : Scalar3) : Scalar3 :=
  let L := m_L b in
  if u3y (m_periodic b) then
    let img := inject_Z (rint (s3y w * s3y (m_Linv b))) in
    make_scalar3 (s3x w - s3y L * m_xy b * img) (s3y w - s3y L * img) (s3z w)
  else w.

Definition minImage_device_x (b : t) (w : Scalar3) : Scalar3 :=
  let L := m_L b in
  if u3x (m_periodic b) then
    make_scalar3 (s3x w - s3x L * inject_Z (rint (s3x w * s3x (m_Linv b)))) (s3y w) (s3z w)
  else w.

Definition minImage_device (b : t) (v : Scalar3) : Scalar3 :=
  minImage_device_x b (minImage_device_y b (minImage_device_z b v)).

(** [wrap]: the box centre the tilt is measured from. *)
Definition wrap_origin (b : t) : Scalar3 :=
  let origin := s3_div_scalar (s3_add (m_hi b) (m_lo b)) 2 in
  let origin := if negb (u3y (m_periodic b)) then make_scalar3 (s3x origin) 0 (s3z origin) else origin in
  if negb (u3z (m_periodic b)) then make_scalar3 (s3x origin) (s3y origin) 0 else origin.

Definition tilt_x (b : t) (w : Scalar3) : Scalar :=
  let origin := wrap_origin b in
  (m_xz b - m_xy b * m_yz b) * (s3z w - s3z origin) + m_xy b * (s3y w - s3y origin).

Definition tilt_y (b : t) (w : Scalar3) : Scalar := m_yz b * (s3z w - s3z (wrap_origin b)).

(** The three-way decision of [wrap] along one axis: which way the vector moves. *)
Definition wrap_up (above : bool) (flag : Z) : bool := (above && (flag =? 0)%Z) || (flag =? 1)%Z.
Definition wrap_down (below : bool) (flag : Z) : bool := (below && (flag =? 0)%Z) || (flag =? -1)%Z.

Definition wrap_x (b : t) (flags : char3) (s : Scalar3 * int3) : Scalar3 * int3 :=
  let '(w, img) := s in
  let L := m_L b in
  if u3x (m_periodic b) then
    if wrap_up (ge_b (s3x w) (s3x (m_hi b) + tilt_x b w)) (c3x flags) then
      (make_scalar3 (s3x w - s3x L) (s3y w) (s3z w), make_int3 (i3x img + 1) (i3y img) (i3z img))
    else if wrap_down (lt_b (s3x w) (s3x (m_lo b) + tilt_x b w)) (c3x flags) then
      (make_scalar3 (s3x w + s3x L) (s3y w) (s3z w), make_int3 (i3x img - 1) (i3y img) (i3z img))
    else s
  else s.

Definition wrap_y (b : t) (flags : char3) (s : Scalar3 * int3) : Scalar3 * int3 :=
  let '(w, img) := s in
  let L := m_L b in
  if u3y (m_periodic b) then
    if wrap_up (ge_b (s3y w) (s3y (m_hi b) + tilt_y b w)) (c3y flags) then
      (make_scalar3 (s3x w - s3y L * m_xy b) (s3y w - s3y L) (s3z w), make_int3 (i3x img) (i3y img + 1) (i3z img))
    else if wrap_down (lt_b (s3y w) (s3y (m_lo b) + tilt_y b w)) (c3y flags) then
      (make_scalar3 (s3x w + s3y L * m_xy b) (s3y w + s3y L) (s3z w), make_int3 (i3x img) (i3y img - 1) (i3z img))
    else s
  else s.

Definition wrap_z (b : t) (flags : char3) (s : Scalar3 * int3) : Scalar3 * int3 :=
  let '(w, img) := s in
  let L := m_L b in
  if u3z (m_periodic b) then
    if wrap_up (ge_b (s3z w) (s3z (m_hi b))) (c3z flags) then
      (make_scalar3 (s3x w - s3z L * m_xz b) (s3y w - s3z L * m_yz b) (s3z w - s3z L),
       make_int3 (i3x img) (i3y img) (i3z img + 1))
    else if wrap_down (lt_b (s3z w) (s3z (m_lo b))) (c3z flags) then
      (make_scalar3 (s3x w + s3z L * m_xz b) (s3y w + s3z L * m_yz b) (s3z w + s3z L),
       make_int3 (i3x img) (i3y img) (i3z img - 1))
    else s
  else s.

Definition wrap (b : t) (w : Scalar3) (img : int3) (flags : char3) : Scalar3 * int3 :=
  wrap_z b flags (wrap_y b flags (wrap_x b flags (w, img))).

Definition no_flags : char3 := make_char3 0 0 0.

(** [wrap] of a [Scalar4]: the fourth element is left alone. *)
Definition wrap4 (b : t) (w : Scalar4) (img : int3) (flags : char3) : Scalar4 * int3 :=
  let '(v, img') := wrap b (make_scalar3 (s4x w) (s4y w) (s4z w)) img flags in
  (make_scalar4 (s3x v) (s3y v) (s3z v) (s4w w), img').

Definition getVolume (b : t) (twod : bool) : Scalar :=
  if twod then s3x (m_L b) * s3y (m_L b) else s3x (m_L b) * s3y (m_L b) * s3z (m_L b).

Definition getLatticeVector (b : t) (i : Z) : Scalar3 :=
  if (i =? 0)%Z then make_scalar3 (s3x (m_L b)) 0 0
  else if (i =? 1)%Z then make_scalar3 (s3y (m_L b) * m_xy b) (s3y (m_L b)) 0
  else if (i =? 2)%Z then make_scalar3 (s3z (m_L b) * m_xz b) (s3z (m_L b) * m_yz b) (s3z (m_L b))
  else zero3.

Definition shift (b : t) (v : Scalar3) (s : int3) : Scalar3 :=
  let r := v in
  let r := s3_add r (s3_scale (inject_Z (i3x s)) (getLatticeVector b 0)) in
  let r := s3_add r (s3_scale (inject_Z (i3y s)) (getLatticeVector b 1)) in
  s3_add r (s3_scale (inject_Z (i3z s)) (getLatticeVector b 2)).

Definition eqb (b1 b2 : t) : bool :=
  s3_eqb (m_L b1) (m_L b2) && Qeq_bool (m_xy b1) (m_xy b2) && Qeq_bool (m_xz b1) (m_xz b2)
  && Qeq_bool (m_yz b1) (m_yz b2).

(** * Well-formed boxes *)

(** The derived members agree with [m_lo] and [m_hi], and the lengths are
    positive (a three-dimensional box). *)
Definition wf (b : t) : Prop :=
  m_L b =3= s3_sub (m_hi b) (m_lo b) /\
  (0 < s3x (m_L b) /\ 0 < s3y (m_L b) /\ 0 < s3z (m_L b)) /\
  (s3x (m_Linv b) * s3x (m_L b) == 1 /\ s3y (m_Linv b) * s3y (m_L b) == 1 /\ s3z (m_Linv b) * s3z (m_L b) == 1).

(** The box is centred on the origin. *)
Definition centred (b : t) : Prop := m_lo b =3= s3_opp (m_hi b).

(** The region [wrap] maps to, along the periodic axes, and the region one
    image around it. *)
Definition inside (b : t) (w : Scalar3) : Prop :=
  (u3x (m_periodic b) = true -> s3x (m_lo b) <= s3x w - tilt_x b w < s3x (m_hi b)) /\
  (u3y (m_periodic b) = true -> s3y (m_lo b) <= s3y w - tilt_y b w < s3y (m_hi b)) /\
  (u3z (m_periodic b) = true -> s3z (m_lo b) <= s3z w < s3z (m_hi b)).

Definition within_one_image (b : t) (w : Scalar3) : Prop :=
  (u3x (m_periodic b) = true -> s3x (m_lo b) - s3x (m_L b) <= s3x w - tilt_x b w < s3x (m_hi b) + s3x (m_L b)) /\
  (u3y (m_periodic b) = true -> s3y (m_lo b) - s3y (m_L b) <= s3y w - tilt_y b w < s3y (m_hi b) + s3y (m_L b)) /\
  (u3z (m_periodic b) = true -> s3z (m_lo b) - s3z (m_L b) <= s3z w < s3z (m_hi b) + s3z (m_L b)).

(** The closed and open half-length boxes of the minimum image convention, along
    the periodic axes, and the lattice displacements that respect periodicity. *)
Definition minimal (b : t) (w : Scalar3) : Prop :=
  (u3x (m_periodic b) = true -> Qabs (s3x w) <= (1 # 2) * s3x (m_L b)) /\
  (u3y (m_periodic b) = true -> Qabs (s3y w) <= (1 # 2) * s3y (m_L b)) /\
  (u3z (m_periodic b) = true -> Qabs (s3z w) <= (1 # 2) * s3z (m_L b)).

Definition strictly_minimal (b : t) (w : Scalar3) : Prop :=
  (u3x (m_periodic b) = true -> Qabs (s3x w) < (1 # 2) * s3x (m_L b)) /\
  (u3y (m_periodic b) = true -> Qabs (s3y w) < (1 # 2) * s3y (m_L b)) /\
  (u3z (m_periodic b) = true -> Qabs (s3z w) < (1 # 2) * s3z (m_L b)).

Definition periodic_image (b : t) (n : int3) : Prop :=
  (u3x (m_periodic b) = false -> i3x n = 0%Z) /\
  (u3y (m_periodic b) = false -> i3y n = 0%Z) /\
  (u3z (m_periodic b) = false -> i3z n = 0%Z).

(** The vectors [minImage] is meant for: within one image along z, and few
    enough images away along y and x for the conversions to [int]. *)
Definition foldable (b : t) (v : Scalar3) : Prop :=
  let Y := Qabs (s3y v) + Qabs (m_yz b) * s3z (m_L b) in
  Qabs (s3z v) <= (3 # 2) * s3z (m_L b) /\
  Y < inject_Z (2 ^ 30) * s3y (m_L b) /\
  Qabs (s3x v) + Qabs (m_xz b) * s3z (m_L b) + Qabs (m_xy b) * (Y + s3y (m_L b)) < inject_Z (2 ^ 30) * s3x (m_L b).

End BoxDim.

(** * Wrapping *)

Section wrapping.
Import BoxDim.
Variable b : t.

(** Move through a stage of [wrap] by cases on its decisions. *)
Ltac wrap_cases :=
  repeat match goal with
  | |- context [if ?c then _ else _] => destruct c eqn:?
  end.

Ltac shift_ring :=
  unfold shift, getLatticeVector, s3_eq, zero3, s3_add, s3_scale; cbn [s3x s3y s3z i3x i3y i3z fst snd Z.eqb Pos.eqb];
  unfold Z.sub; rewrite ?inject_Z_plus; change (inject_Z (-(1))) with (-(1)); change (inject_Z 1) with 1;
  repeat split; ring.

Lemma wrap_x_shift flags s : shift b (wrap_x b flags s).1 (wrap_x b flags s).2 =3= shift b s.1 s.2.
Proof. destruct s as [w img]. unfold wrap_x. wrap_cases; try reflexivity; shift_ring. Qed.

Lemma wrap_y_shift flags s : shift b (wrap_y b flags s).1 (wrap_y b flags s).2 =3= shift b s.1 s.2.
Proof. destruct s as [w img]. unfold wrap_y. wrap_cases; try reflexivity; shift_ring. Qed.

Lemma wrap_z_shift flags s : shift b (wrap_z b flags s).1 (wrap_z b flags s).2 =3= shift b s.1 s.2.
Proof. destruct s as [w img]. unfold wrap_z. wrap_cases; try reflexivity; shift_ring. Qed.

Lemma wrap_shift w img flags :
  shift b (wrap b w img flags).1 (wrap b w img flags).2 =3= shift b w img.
Proof. unfold wrap. now rewrite wrap_z_shift, wrap_y_shift, wrap_x_shift. Qed.

(** The offsets of a vector from the tilted axes: what the stages compare with
    the bounds of the box. *)
Definition off_x (w : Scalar3) : Scalar := s3x w - tilt_x b w.
Definition off_y (w : Scalar3) : Scalar := s3y w - tilt_y b w.

Lemma wrap_x_off_y flags s : off_y (wrap_x b flags s).1 == off_y s.1.
Proof. destruct s as [w img]. unfold wrap_x. wrap_cases; reflexivity. Qed.

Lemma wrap_y_off_x flags s : off_x (wrap_y b flags s).1 == off_x s.1.
Proof. destruct s as [w img]. unfold wrap_y. wrap_cases; try reflexivity; unfold off_x, tilt_x; cbn; ring. Qed.

Lemma wrap_z_off_x flags s : off_x (wrap_z b flags s).1 == off_x s.1.
Proof. destruct s as [w img]. unfold wrap_z. wrap_cases; try reflexivity; unfold off_x, tilt_x; cbn; ring. Qed.

Lemma wrap_z_off_y flags s : off_y (wrap_z b flags s).1 == off_y s.1.
Proof. destruct s as [w img]. unfold wrap_z. wrap_cases; try reflexivity; unfold off_y, tilt_y; cbn; ring. Qed.

Lemma wrap_x_z flags s : s3z (wrap_x b flags s).1 = s3z s.1.
Proof. destruct s as [w img]. unfold wrap_x. wrap_cases; reflexivity. Qed.

Lemma wrap_y_z flags s : s3z (wrap_y b flags s).1 = s3z s.1.
Proof. destruct s as [w img]. unfold wrap_y. wrap_cases; reflexivity. Qed.

Hypothesis W : wf b.

Lemma wrap_up_free c : wrap_up c 0 = c.
Proof. unfold wrap_up. destruct c; reflexivity. Qed.

Lemma wrap_down_free c : wrap_down c 0 = c.
Proof. unfold wrap_down. destruct c; reflexivity. Qed.

Lemma wrap_x_inside s :
  u3x (m_periodic b) = true ->
  s3x (m_lo b) - s3x (m_L b) <= off_x s.1 < s3x (m_hi b) + s3x (m_L b) ->
  s3x (m_lo b) <= off_x (wrap_x b no_flags s).1 < s3x (m_hi b).
Proof.
  destruct W as ((Lx & _) & _). cbn in Lx. intros P. destruct s as [w img]. unfold wrap_x. rewrite P.
  cbn [c3x no_flags]. rewrite wrap_up_free, wrap_down_free. wrap_cases; qbool; unfold off_x, tilt_x in *; cbn in *; lra.
Qed.

Lemma wrap_y_inside s :
  u3y (m_periodic b) = true ->
  s3y (m_lo b) - s3y (m_L b) <= off_y s.1 < s3y (m_hi b) + s3y (m_L b) ->
  s3y (m_lo b) <= off_y (wrap_y b no_flags s).1 < s3y (m_hi b).
Proof.
  destruct W as ((_ & Ly & _) & _). cbn in Ly. intros P. destruct s as [w img]. unfold wrap_y. rewrite P.
  cbn [c3y no_flags]. rewrite wrap_up_free, wrap_down_free. wrap_cases; qbool; unfold off_y, tilt_y in *; cbn in *; lra.
Qed.

Lemma wrap_z_inside s :
  u3z (m_periodic b) = true ->
  s3z (m_lo b) - s3z (m_L b) <= s3z s.1 < s3z (m_hi b) + s3z (m_L b) ->
  s3z (m_lo b) <= s3z (wrap_z b no_flags s).1 < s3z (m_hi b).
Proof.
  destruct W as ((_ & _ & Lz) & _). cbn in Lz. intros P. destruct s as [w img]. unfold wrap_z. rewrite P.
  cbn [c3z no_flags]. rewrite wrap_up_free, wrap_down_free. wrap_cases; qbool; cbn in *; lra.
Qed.

Lemma wrap_inside w img : within_one_image b w -> inside b (wrap b w img no_flags).1.
Proof.
  intros (Hx & Hy & Hz). unfold wrap. fold (off_x w) (off_y w) in Hx, Hy.
  split; [|split]; intros P.
  - change (s3x (m_lo b) <= off_x (wrap_z b no_flags (wrap_y b no_flags (wrap_x b no_flags (w, img)))).1 < s3x (m_hi b)).
    rewrite wrap_z_off_x, wrap_y_off_x. apply wrap_x_inside; auto.
  - change (s3y (m_lo b) <= off_y (wrap_z b no_flags (wrap_y b no_flags (wrap_x b no_flags (w, img)))).1 < s3y (m_hi b)).
    rewrite wrap_z_off_y. apply wrap_y_inside; auto. rewrite wrap_x_off_y. auto.
  - apply wrap_z_inside; auto. rewrite wrap_y_z, wrap_x_z. auto.
Qed.

(** A vector already inside is left alone. *)
Lemma wrap_id w img : inside b w -> wrap b w img no_flags = (w, img).
Proof.
  intros (Hx & Hy & Hz).
  assert (X : wrap_x b no_flags (w, img) = (w, img)).
  { unfold wrap_x. cbn [c3x no_flags]. rewrite wrap_up_free, wrap_down_free. wrap_cases; qbool; try reflexivity; specialize (Hx eq_refl); lra. }
  assert (Y : wrap_y b no_flags (w, img) = (w, img)).
  { unfold wrap_y. cbn [c3y no_flags]. rewrite wrap_up_free, wrap_down_free. wrap_cases; qbool; try reflexivity; specialize (Hy eq_refl); lra. }
  assert (Z : wrap_z b no_flags (w, img) = (w, img)).
  { unfold wrap_z. cbn [c3z no_flags]. rewrite wrap_up_free, wrap_down_free. wrap_cases; qbool; try reflexivity; specialize (Hz eq_refl); lra. }
  unfold wrap. now rewrite X, Y, Z.
Qed.

End wrapping.

(** * Minimum image *)

Section minimum_image.
Import BoxDim.
Variable b : t.
Hypothesis W : wf b.
Hypothesis C : centred b.

(** The number of images an axis is folded by. *)
Lemma fold_axis (w L Linv : Scalar) :
  0 < L -> Linv * L == 1 -> (1 # 2) * L <= w ->
  w < inject_Z (2 ^ 30) * L ->
  exists i, to_int (w * Linv + (1 # 2)) = Some i /\ - ((1 # 2) * L) <= w - inject_Z i * L < (1 # 2) * L.
Proof.
  intros HL HI Hw HB. set (u := w * Linv).
  assert (U : w == u * L) by (unfold u; rewrite <- Qmult_assoc, HI; ring).
  assert (U0 : 0 <= u) by (apply Qnot_lt_le; intros N; assert (u * L < 0) by nra; lra).
  assert (U1 : u < inject_Z (2 ^ 30)).
  { apply Qnot_le_lt. intros N. assert (inject_Z (2 ^ 30) * L <= u * L) by nra. lra. }
  exists (Qtrunc (u + (1 # 2))).
  pose proof (Qtrunc_nonneg (u + (1 # 2)) ltac:(lra)) as [T1 T2].
  split; [apply to_int_some; [lra|]|].
  - change (inject_Z (2 ^ 31)) with (2147483648 # 1). change (inject_Z (2 ^ 30)) with (1073741824 # 1) in U1. lra.
  - rewrite U. set (i := inject_Z (Qtrunc (u + (1 # 2)))) in *.
    split; nra.
Qed.

Lemma hi_half : s3x (m_hi b) == (1 # 2) * s3x (m_L b) /\ s3y (m_hi b) == (1 # 2) * s3y (m_L b) /\ s3z (m_hi b) == (1 # 2) * s3z (m_L b).
Proof. destruct W as ((Lx & Ly & Lz) & _). destruct C as (Cx & Cy & Cz). cbn in *. repeat split; lra. Qed.

(** Displacement along one lattice vector. *)
Definition along_z (n : Z) : int3 := make_int3 0 0 n.
Definition along_y (n : Z) : int3 := make_int3 0 n 0.
Definition along_x (n : Z) : int3 := make_int3 n 0 0.

Lemma shift_components v n :
  shift b v n =3=
  make_scalar3
    (s3x v + inject_Z (i3x n) * s3x (m_L b) + inject_Z (i3y n) * (s3y (m_L b) * m_xy b) + inject_Z (i3z n) * (s3z (m_L b) * m_xz b))
    (s3y v + inject_Z (i3y n) * s3y (m_L b) + inject_Z (i3z n) * (s3z (m_L b) * m_yz b))
    (s3z v + inject_Z (i3z n) * s3z (m_L b)).
Proof.
  unfold shift, getLatticeVector, s3_eq, zero3, s3_add, s3_scale.
  cbn [s3x s3y s3z i3x i3y i3z fst snd Z.eqb Pos.eqb]. repeat split; ring.
Qed.

(** A vector is a lattice displacement of another, component by component. *)
Ltac lattice_ring :=
  rewrite shift_components; repeat split; cbn [along_x along_y along_z i3x i3y i3z s3x s3y s3z];
  rewrite ?inject_Z_opp; change (inject_Z 0) with 0; change (inject_Z 1) with 1; change (inject_Z (-1)) with (-(1)); ring.

Ltac minimal_lra := cbn [s3x s3y s3z]; apply Qabs_Qle_condition; lra.

Lemma minImage_z_spec w :
  Qabs (s3z w) <= (3 # 2) * s3z (m_L b) ->
  exists n, minImage_z b w =3= shift b w (along_z n) /\ (Z.abs n <= 1)%Z /\
    (u3z (m_periodic b) = true -> Qabs (s3z (minImage_z b w)) <= (1 # 2) * s3z (m_L b)) /\
    (u3z (m_periodic b) = false -> n = 0%Z).
Proof.
  destruct hi_half as (_ & _ & Hz). destruct W as (_ & (_ & _ & Pz) & _). destruct C as (_ & _ & Cz). cbn in Cz.
  intros B. apply Qabs_Qle_condition in B. unfold minImage_z.
  destruct (u3z (m_periodic b)) eqn:P; [|exists 0%Z; split_and!; [lattice_ring|lia|discriminate|reflexivity]].
  destruct (ge_b _ _) eqn:G; [|destruct (lt_b _ _) eqn:T]; qbool.
  - exists (-1)%Z. split_and!; [lattice_ring|lia|intros _; minimal_lra|discriminate].
  - exists 1%Z. split_and!; [lattice_ring|lia|intros _; minimal_lra|discriminate].
  - exists 0%Z. split_and!; [lattice_ring|lia|intros _; minimal_lra|discriminate].
Qed.

Lemma minImage_y_spec w :
  Qabs (s3y w) < inject_Z (2 ^ 30) * s3y (m_L b) ->
  exists w' n, minImage_y b w = Some w' /\ w' =3= shift b w (along_y n) /\
    (u3y (m_periodic b) = true -> Qabs (s3y w') <= (1 # 2) * s3y (m_L b)) /\
    (u3y (m_periodic b) = false -> n = 0%Z) /\ s3z w' = s3z w.
Proof.
  destruct hi_half as (_ & Hy & _). destruct W as (_ & (_ & Py & _) & _ & Iy & _). destruct C as (_ & Cy & _). cbn in Cy.
  intros B. apply Qabs_Qlt_condition in B. unfold minImage_y.
  destruct (u3y (m_periodic b)) eqn:P;
    [|exists w, 0%Z; split_and!; [reflexivity|lattice_ring|discriminate|reflexivity|reflexivity]].
  destruct (ge_b _ _) eqn:G; [|destruct (lt_b _ _) eqn:T]; qbool.
  - destruct (fold_axis (s3y w) (s3y (m_L b)) (s3y (m_Linv b))) as (i & -> & F1 & F2); [assumption..|lra|lra|].
    eexists _, (- i)%Z. split_and!; [reflexivity|lattice_ring|intros _; minimal_lra|discriminate|reflexivity].
  - destruct (fold_axis (- s3y w) (s3y (m_L b)) (s3y (m_Linv b))) as (i & -> & F1 & F2); [assumption..|lra|lra|].
    eexists _, i. split_and!; [reflexivity|lattice_ring|intros _; minimal_lra|discriminate|reflexivity].
  - eexists _, 0%Z. split_and!; [reflexivity|lattice_ring|intros _; minimal_lra|discriminate|reflexivity].
Qed.

Lemma minImage_x_spec w :
  Qabs (s3x w) < inject_Z (2 ^ 30) * s3x (m_L b) ->
  exists w' n, minImage_x b w = Some w' /\ w' =3= shift b w (along_x n) /\
    (u3x (m_periodic b) = true -> Qabs (s3x w') <= (1 # 2) * s3x (m_L b)) /\
    (u3x (m_periodic b) = false -> n = 0%Z) /\ s3z w' = s3z w /\ s3y w' = s3y w.
Proof.
  destruct hi_half as (Hx & _ & _). destruct W as (_ & (Px & _ & _) & Ix & _ & _). destruct C as (Cx & _ & _). cbn in Cx.
  intros B. apply Qabs_Qlt_condition in B. unfold minImage_x.
  destruct (u3x (m_periodic b)) eqn:P;
    [|exists w, 0%Z; split_and!; [reflexivity|lattice_ring|discriminate|reflexivity..]].
  destruct (ge_b _ _) eqn:G; [|destruct (lt_b _ _) eqn:T]; qbool.
  - destruct (fold_axis (s3x w) (s3x (m_L b)) (s3x (m_Linv b))) as (i & -> & F1 & F2); [assumption..|lra|lra|].
    eexists _, (- i)%Z. split_and!; [reflexivity|lattice_ring|intros _; minimal_lra|discriminate|reflexivity..].
  - destruct (fold_axis (- s3x w) (s3x (m_L b)) (s3x (m_Linv b))) as (i & -> & F1 & F2); [assumption..|lra|lra|].
    eexists _, i. split_and!; [reflexivity|lattice_ring|intros _; minimal_lra|discriminate|reflexivity..].
  - eexists _, 0%Z. split_and!; [reflexivity|lattice_ring|intros _; minimal_lra|discriminate|reflexivity..].
Qed.

Lemma Qabs_unit_mult (n : Z) (x : Scalar) : (Z.abs n <= 1)%Z -> Qabs (inject_Z n * x) <= Qabs x.
Proof.
  intros H. rewrite Qabs_Qmult. pose proof (Qabs_nonneg x).
  assert (Qabs (inject_Z n) <= 1) by (unfold Qabs, inject_Z, Qle; cbn; lia).
  nra.
Qed.

Lemma shift_along_z_bounds v n :
  (Z.abs n <= 1)%Z ->
  Qabs (s3y (shift b v (along_z n))) <= Qabs (s3y v) + Qabs (m_yz b) * s3z (m_L b) /\
  Qabs (s3x (shift b v (along_z n))) <= Qabs (s3x v) + Qabs (m_xz b) * s3z (m_L b).
Proof.
  intros N. destruct W as (_ & (_ & _ & Pz) & _). destruct (shift_components v (along_z n)) as (Ex & Ey & _).
  cbn [along_z i3x i3y i3z s3x s3y s3z] in Ex, Ey. change (inject_Z 0) with 0 in *.
  assert (A : Qabs (s3z (m_L b)) == s3z (m_L b)) by (apply Qabs_pos; lra).
  split.
  - setoid_replace (s3y (shift b v (along_z n))) with (s3y v + inject_Z n * (s3z (m_L b) * m_yz b)) using relation Qeq by (rewrite Ey; ring).
    eapply Qle_trans; [apply Qabs_triangle|]. pose proof (Qabs_unit_mult n (s3z (m_L b) * m_yz b) N) as U. rewrite (Qabs_Qmult (s3z (m_L b))), A in U. lra.
  - setoid_replace (s3x (shift b v (along_z n))) with (s3x v + inject_Z n * (s3z (m_L b) * m_xz b)) using relation Qeq by (rewrite Ex; ring).
    eapply Qle_trans; [apply Qabs_triangle|]. pose proof (Qabs_unit_mult n (s3z (m_L b) * m_xz b) N) as U. rewrite (Qabs_Qmult (s3z (m_L b))), A in U. lra.
Qed.

Lemma shift_along_y_bound v n Y :
  0 <= Y -> Qabs (inject_Z n * s3y (m_L b)) <= Y ->
  Qabs (s3x (shift b v (along_y n))) <= Qabs (s3x v) + Qabs (m_xy b) * Y.
Proof.
  intros P B. destruct (shift_components v (along_y n)) as (Ex & _).
  cbn [along_y i3x i3y i3z s3x s3y s3z] in Ex. change (inject_Z 0) with 0 in *.
  setoid_replace (s3x (shift b v (along_y n))) with (s3x v + (inject_Z n * s3y (m_L b)) * m_xy b) using relation Qeq by (rewrite Ex; ring).
  eapply Qle_trans; [apply Qabs_triangle|]. rewrite Qabs_Qmult. pose proof (Qabs_nonneg (m_xy b)). nra.
Qed.

Lemma shift_shift v n m : shift b (shift b v n) m =3= shift b v (i3_add n m).
Proof.
  rewrite (shift_components v (i3_add n m)), (shift_components (shift b v n)).
  destruct (shift_components v n) as (Ex & Ey & Ez). cbn [s3x s3y s3z] in *.
  repeat split; cbn [i3_add i3x i3y i3z s3x s3y s3z]; rewrite ?Ex, ?Ey, ?Ez, ?inject_Z_plus; ring.
Qed.

Instance shift_proper : Proper (s3_eq ==> eq ==> s3_eq) (shift b).
Proof.
  intros v v' (?&?&?) n ? <-. rewrite (shift_components v), (shift_components v').
  repeat split; cbn [s3x s3y s3z]; [rewrite H|rewrite H0|rewrite H1]; reflexivity.
Qed.

Lemma minImage_spec v :
  foldable b v ->
  exists w n, minImage b v = Some w /\ w =3= shift b v n /\ minimal b w /\ periodic_image b n.
Proof.
  intros (Bz & By & Bx). pose proof W as (_ & (Px & Py & Pz) & _).
  destruct (minImage_z_spec v Bz) as (nz & Sz & Nz & Mz & Kz). set (w1 := minImage_z b v) in *.
  destruct (shift_along_z_bounds v nz Nz) as [Y1 X1].
  assert (E1 : s3y w1 == s3y (shift b v (along_z nz)) /\ s3x w1 == s3x (shift b v (along_z nz))) by (destruct Sz as (?&?&?); auto).
  destruct E1 as [E1y E1x]. rewrite <- E1y in Y1. rewrite <- E1x in X1.
  destruct (minImage_y_spec w1) as (w2 & ny & R2 & Sy & My & Ky & Z2); [eapply Qle_lt_trans; eassumption|].
  set (Y := Qabs (s3y v) + Qabs (m_yz b) * s3z (m_L b)) in *.
  assert (NY : Qabs (inject_Z ny * s3y (m_L b)) <= Y + s3y (m_L b)).
  { destruct (u3y (m_periodic b)) eqn:P.
    - destruct Sy as (_ & Ey & _). destruct (shift_components w1 (along_y ny)) as (_ & Fy & _).
      cbn [along_y i3x i3y i3z s3y] in Fy. change (inject_Z 0) with 0 in Fy.
      specialize (My eq_refl). apply Qabs_Qle_condition in My, Y1. apply Qabs_Qle_condition. lra.
    - rewrite (Ky eq_refl). pose proof (Qabs_nonneg (s3y w1)). change (inject_Z 0) with 0. apply Qabs_Qle_condition. lra. }
  pose proof (Qabs_nonneg (s3y w1)) as NN.
  destruct (minImage_x_spec w2) as (w3 & nx & R3 & Sx & Mx & Kx & Z3 & Y3).
  { destruct Sy as (Ex & _). rewrite Ex. eapply Qle_lt_trans; [apply (shift_along_y_bound w1 ny (Y + s3y (m_L b))); [lra|exact NY]|]. lra. }
  exists w3, (i3_add (along_z nz) (i3_add (along_y ny) (along_x nx))). split_and!.
  - unfold minImage. fold w1. rewrite R2. exact R3.
  - rewrite Sx, Sy, Sz, !shift_shift. reflexivity.
  - split_and!; [exact Mx|intros P; rewrite Y3; exact (My P)|intros P; rewrite Z3, Z2; exact (Mz P)].
  - unfold periodic_image. cbn. split_and!; intros P; [rewrite (Kx P)|rewrite (Ky P)|rewrite (Kz P)]; reflexivity.
Qed.

(** ** The device version *)

Lemma rint_spec q : Qabs (q - inject_Z (rint q)) <= (1 # 2).
Proof.
  unfold rint. pose proof (Qfloor_le q) as F1. pose proof (Qlt_floor q) as F2.
  rewrite inject_Z_plus in F2. change (inject_Z 1) with 1 in F2. apply Qabs_Qle_condition.
  destruct (Qcompare_spec (q - inject_Z (Qfloor q)) (1 # 2)) as [E|L|G];
    [destruct (Z.even _)| |]; rewrite ?inject_Z_plus; change (inject_Z 1) with 1; lra.
Qed.

Lemma rint_fold (w L Linv : Scalar) :
  0 < L -> Linv * L == 1 -> Qabs (w - L * inject_Z (rint (w * Linv))) <= (1 # 2) * L.
Proof.
  intros HL HI. pose proof (rint_spec (w * Linv)) as R. apply Qabs_Qle_condition in R. apply Qabs_Qle_condition.
  set (u := w * Linv) in *. assert (U : w == u * L) by (unfold u; rewrite <- Qmult_assoc, HI; ring).
  set (r := inject_Z (rint u)) in *. split; nra.
Qed.

Lemma minImage_device_z_spec w :
  exists n, minImage_device_z b w =3= shift b w (along_z n) /\
    (u3z (m_periodic b) = true -> Qabs (s3z (minImage_device_z b w)) <= (1 # 2) * s3z (m_L b)) /\
    (u3z (m_periodic b) = false -> n = 0%Z).
Proof.
  destruct W as (_ & (_ & _ & Pz) & _ & _ & Iz). unfold minImage_device_z.
  destruct (u3z (m_periodic b)); [eexists (- rint (s3z w * s3z (m_Linv b)))%Z|exists 0%Z];
    (split_and!; [lattice_ring|intros; try discriminate|intros; try discriminate]); [|reflexivity].
  cbn [s3z]. now apply rint_fold.
Qed.

Lemma minImage_device_y_spec w :
  exists n, minImage_device_y b w =3= shift b w (along_y n) /\
    (u3y (m_periodic b) = true -> Qabs (s3y (minImage_device_y b w)) <= (1 # 2) * s3y (m_L b)) /\
    (u3y (m_periodic b) = false -> n = 0%Z) /\ s3z (minImage_device_y b w) = s3z w.
Proof.
  destruct W as (_ & (_ & Py & _) & _ & Iy & _). unfold minImage_device_y.
  destruct (u3y (m_periodic b)); [eexists (- rint (s3y w * s3y (m_Linv b)))%Z|exists 0%Z];
    (split_and!; [lattice_ring|intros; try discriminate|intros; try discriminate|reflexivity]); [|reflexivity].
  cbn [s3y]. now apply rint_fold.
Qed.

Lemma minImage_device_x_spec w :
  exists n, minImage_device_x b w =3= shift b w (along_x n) /\
    (u3x (m_periodic b) = true -> Qabs (s3x (minImage_device_x b w)) <= (1 # 2) * s3x (m_L b)) /\
    (u3x (m_periodic b) = false -> n = 0%Z) /\
    s3z (minImage_device_x b w) = s3z w /\ s3y (minImage_device_x b w) = s3y w.
Proof.
  destruct W as (_ & (Px & _ & _) & Ix & _ & _). unfold minImage_device_x.
  destruct (u3x (m_periodic b)); [eexists (- rint (s3x w * s3x (m_Linv b)))%Z|exists 0%Z];
    (split_and!; [lattice_ring|intros; try discriminate|intros; try discriminate|reflexivity..]); [|reflexivity].
  cbn [s3x]. now apply rint_fold.
Qed.

Lemma minImage_device_spec v :
  exists n, minImage_device b v =3= shift b v n /\ minimal b (minImage_device b v) /\ periodic_image b n.
Proof.
  unfold minImage_device. set (w1 := minImage_device_z b v). set (w2 := minImage_device_y b w1).
  destruct (minImage_device_z_spec v) as (nz & Sz & Mz & Kz). fold w1 in Sz, Mz.
  destruct (minImage_device_y_spec w1) as (ny & Sy & My & Ky & Zy). fold w2 in Sy, My, Zy.
  destruct (minImage_device_x_spec w2) as (nx & Sx & Mx & Kx & Zx & Yx).
  exists (i3_add (along_z nz) (i3_add (along_y ny) (along_x nx))). split_and!.
  - rewrite Sx, Sy, Sz, !shift_shift. reflexivity.
  - split_and!; [exact Mx|intros P; rewrite Yx; exact (My P)|intros P; rewrite Zx, Zy; exact (Mz P)].
  - unfold periodic_image. cbn. split_and!; intros P; [rewrite (Kx P)|rewrite (Ky P)|rewrite (Kz P)]; reflexivity.
Qed.

(** ** Uniqueness *)

Lemma axis_unique (x y L : Scalar) (n : Z) :
  0 < L -> Qabs x < (1 # 2) * L -> Qabs y <= (1 # 2) * L -> x - y == inject_Z n * L -> n = 0%Z.
Proof.
  intros P X Y E. apply Qabs_Qlt_condition in X. apply Qabs_Qle_condition in Y.
  assert (A : inject_Z n * L < 1 * L) by lra. assert (B : - (1) * L < inject_Z n * L) by lra.
  apply Qmult_lt_r in A; [|exact P]. apply Qmult_lt_r in B; [|exact P].
  change 1 with (inject_Z 1) in A. change (- (1)) with (inject_Z (-1)) in B. rewrite <- Zlt_Qlt in A, B. lia.
Qed.

Lemma minimal_unique v w w' n n' :
  w =3= shift b v n -> w' =3= shift b v n' -> strictly_minimal b w -> minimal b w' ->
  periodic_image b n -> periodic_image b n' -> w =3= w'.
Proof.
  intros E E' (Mx & My & Mz) (Mx' & My' & Mz') (Kx & Ky & Kz) (Kx' & Ky' & Kz').
  pose proof W as (_ & (Px & Py & Pz) & _). rewrite shift_components in E, E'.
  destruct E as (Ex & Ey & Ez), E' as (Ex' & Ey' & Ez'). cbn [s3x s3y s3z] in *.
  assert (Z : i3z n = i3z n').
  { destruct (u3z (m_periodic b)); [|rewrite Kz, Kz' by reflexivity; reflexivity].
    enough (i3z n - i3z n' = 0)%Z by lia. apply (axis_unique (s3z w) (s3z w') (s3z (m_L b))); auto.
    unfold Z.sub. rewrite Ez, Ez', inject_Z_plus, inject_Z_opp. ring. }
  assert (Y : i3y n = i3y n').
  { destruct (u3y (m_periodic b)); [|rewrite Ky, Ky' by reflexivity; reflexivity].
    enough (i3y n - i3y n' = 0)%Z by lia. apply (axis_unique (s3y w) (s3y w') (s3y (m_L b))); auto.
    unfold Z.sub. rewrite Ey, Ey', Z, inject_Z_plus, inject_Z_opp. ring. }
  assert (X : i3x n = i3x n').
  { destruct (u3x (m_periodic b)); [|rewrite Kx, Kx' by reflexivity; reflexivity].
    enough (i3x n - i3x n' = 0)%Z by lia. apply (axis_unique (s3x w) (s3x w') (s3x (m_L b))); auto.
    unfold Z.sub. rewrite Ex, Ex', Z, Y, inject_Z_plus, inject_Z_opp. ring. }
  repeat split; [rewrite Ex, Ex', X, Y, Z|rewrite Ey, Ey', Y, Z|rewrite Ez, Ez', Z]; reflexivity.
Qed.

End minimum_image.

(** * Fractional coordinates *)

Section fractional.
Import BoxDim.
Variable rsqrt : Scalar -> Scalar.
Variable b : t.
Hypothesis W : wf b.

(** The untilted offset from the lower corner, in units of the box lengths. *)
Lemma makeFraction_components v :
  makeFraction rsqrt b v zero3 =3=
  make_scalar3
    ((s3x v - s3x (m_lo b) - ((m_xz b - m_yz b * m_xy b) * s3z v + m_xy b * s3y v)) * s3x (m_Linv b))
    ((s3y v - s3y (m_lo b) - m_yz b * s3z v) * s3y (m_Linv b))
    ((s3z v - s3z (m_lo b)) * s3z (m_Linv b)).
Proof.
  unfold makeFraction, zero3, s3_eq, s3_div, s3_add, s3_mul, s3_sub, s3_scale. cbn [s3x s3y s3z].
  set (d := getNearestPlaneDistance rsqrt b).
  assert (Z0 : forall a, 0 / a == 0) by (intros a; unfold Qdiv; ring).
  repeat split; rewrite !Z0; field.
Qed.

Lemma makeCoordinates_components f :
  makeCoordinates b f =3=
  make_scalar3
    (s3x (m_lo b) + s3x f * s3x (m_L b) + m_xy b * (s3y (m_lo b) + s3y f * s3y (m_L b)) + m_xz b * (s3z (m_lo b) + s3z f * s3z (m_L b)))
    (s3y (m_lo b) + s3y f * s3y (m_L b) + m_yz b * (s3z (m_lo b) + s3z f * s3z (m_L b)))
    (s3z (m_lo b) + s3z f * s3z (m_L b)).
Proof. unfold makeCoordinates, s3_eq, s3_add, s3_mul. cbn [s3x s3y s3z]. repeat split; ring. Qed.

(** [x * Linv * L = x] and back. *)
Lemma scale_unscale (x L Linv : Scalar) : Linv * L == 1 -> x * Linv * L == x.
Proof. intros H. rewrite <- Qmult_assoc, H. ring. Qed.

Lemma unscale_scale (x L Linv : Scalar) : Linv * L == 1 -> x * L * Linv == x.
Proof. intros H. rewrite <- Qmult_assoc, (Qmult_comm L), H. ring. Qed.

Lemma makeFraction_makeCoordinates f : makeFraction rsqrt b (makeCoordinates b f) zero3 =3= f.
Proof.
  destruct W as (_ & _ & Ix & Iy & Iz). rewrite makeFraction_components.
  destruct (makeCoordinates_components f) as (Ex & Ey & Ez). cbn [s3x s3y s3z] in *.
  repeat split; cbn [s3x s3y s3z]; rewrite ?Ex, ?Ey, ?Ez.
  - rewrite <- (unscale_scale (s3x f) _ _ Ix) at 2. ring.
  - rewrite <- (unscale_scale (s3y f) _ _ Iy) at 2. ring.
  - rewrite <- (unscale_scale (s3z f) _ _ Iz) at 2. ring.
Qed.

Lemma makeCoordinates_makeFraction v : makeCoordinates b (makeFraction rsqrt b v zero3) =3= v.
Proof.
  destruct W as (_ & _ & Ix & Iy & Iz). rewrite makeCoordinates_components.
  destruct (makeFraction_components v) as (Ex & Ey & Ez). cbn [s3x s3y s3z] in *.
  repeat split; cbn [s3x s3y s3z]; rewrite ?Ex, ?Ey, ?Ez, ?(scale_unscale _ _ _ Ix), ?(scale_unscale _ _ _ Iy), ?(scale_unscale _ _ _ Iz); ring.
Qed.

(** A lattice displacement moves the fractional coordinates by integers. *)
Lemma makeFraction_shift v n :
  makeFraction rsqrt b (shift b v n) zero3 =3=
  s3_add (makeFraction rsqrt b v zero3) (make_scalar3 (inject_Z (i3x n)) (inject_Z (i3y n)) (inject_Z (i3z n))).
Proof.
  destruct W as (_ & _ & Ix & Iy & Iz). rewrite (makeFraction_components (shift b v n)), (makeFraction_components v).
  destruct (shift_components b v n) as (Ex & Ey & Ez). cbn [s3x s3y s3z] in *.
  repeat split; cbn [s3_add s3x s3y s3z]; rewrite ?Ex, ?Ey, ?Ez.
  - rewrite <- (unscale_scale (inject_Z (i3x n)) _ _ Ix) at 2. ring.
  - rewrite <- (unscale_scale (inject_Z (i3y n)) _ _ Iy) at 2. ring.
  - rewrite <- (unscale_scale (inject_Z (i3z n)) _ _ Iz) at 2. ring.
Qed.

Lemma getImage_axis_spec p f :
  Qabs (f - (1 # 2)) < inject_Z (2 ^ 30) ->
  exists n, getImage_axis p (f - (1 # 2)) = Some n /\ (p = false -> n = 0%Z) /\
    (p = true -> 0 <= f - inject_Z n <= 1).
Proof.
  intros B. apply Qabs_Qlt_condition in B. change (inject_Z (2 ^ 30)) with (1073741824 # 1) in B.
  unfold getImage_axis. destruct p; [|exists 0%Z; split_and!; [reflexivity..|discriminate]].
  destruct (ge_b _ _) eqn:G; qbool.
  - exists (Qtrunc (f - (1 # 2) + (1 # 2))). pose proof (Qtrunc_nonneg (f - (1 # 2) + (1 # 2)) ltac:(lra)).
    rewrite to_int_some; [|lra|change (inject_Z (2 ^ 31)) with (2147483648 # 1); lra].
    split_and!; [reflexivity|discriminate|intros _; lra..].
  - set (q := f - (1 # 2) - (1 # 2)).
    assert (T : Qtrunc q = (- Qtrunc (- q))%Z).
    { unfold Qtrunc. assert (Qle_bool 0 q = false) as ->.
      { apply not_true_iff_false. rewrite Qle_bool_iff. unfold q. lra. }
      assert (Qle_bool 0 (- q) = true) as -> by (apply Qle_bool_iff; unfold q; lra). reflexivity. }
    pose proof (Qtrunc_nonneg (- q) ltac:(unfold q; lra)) as [T1 T2].
    exists (- Qtrunc (- q))%Z. rewrite inject_Z_opp. split_and!; [|discriminate|intros _; unfold q in *; lra..].
    assert (A : to_int (- q) = Some (Qtrunc (- q))).
    { apply to_int_some; [|change (inject_Z (2 ^ 31)) with (2147483648 # 1)]; unfold q; lra. }
    unfold to_int in *. rewrite T. destruct ((- 2 ^ 31 <=? Qtrunc (- q)) && (Qtrunc (- q) <? 2 ^ 31))%Z eqn:R; [|discriminate].
    zbool. destruct (Z.leb_spec (- 2 ^ 31) (- Qtrunc (- q))); [|lia].
    destruct (Z.ltb_spec (- Qtrunc (- q)) (2 ^ 31)); [reflexivity|].
    assert (0 <= Qtrunc (- q))%Z; [|lia]. apply Zlt_succ_le. rewrite Zlt_Qlt. unfold Z.succ. rewrite inject_Z_plus.
    change (inject_Z 0) with 0. change (inject_Z 1) with 1. unfold q in *. lra.
Qed.

(** The image a vector lies in, and where the displacement by it leaves it. *)
Lemma getImage_spec v :
  Qabs (s3x (makeFraction rsqrt b v zero3) - (1 # 2)) < inject_Z (2 ^ 30) ->
  Qabs (s3y (makeFraction rsqrt b v zero3) - (1 # 2)) < inject_Z (2 ^ 30) ->
  Qabs (s3z (makeFraction rsqrt b v zero3) - (1 # 2)) < inject_Z (2 ^ 30) ->
  exists n, getImage rsqrt b v = Some n /\ periodic_image b n /\
    let f := makeFraction rsqrt b (shift b v (i3_opp n)) zero3 in
    (u3x (m_periodic b) = true -> 0 <= s3x f <= 1) /\
    (u3y (m_periodic b) = true -> 0 <= s3y f <= 1) /\
    (u3z (m_periodic b) = true -> 0 <= s3z f <= 1).
Proof.
  intros Bx By Bz.
  destruct (getImage_axis_spec (u3x (m_periodic b)) _ Bx) as (nx & Rx & Kx & Fx).
  destruct (getImage_axis_spec (u3y (m_periodic b)) _ By) as (ny & Ry & Ky & Fy).
  destruct (getImage_axis_spec (u3z (m_periodic b)) _ Bz) as (nz & Rz & Kz & Fz).
  exists (make_int3 nx ny nz). split; [|split; [exact (conj Kx (conj Ky Kz))|]].
  - unfold getImage. cbn [s3_sub s3x s3y s3z]. now rewrite Rx, Ry, Rz.
  - destruct (makeFraction_shift v (i3_opp (make_int3 nx ny nz))) as (Ex & Ey & Ez).
    cbn [i3_opp i3x i3y i3z s3_add s3x s3y s3z] in Ex, Ey, Ez. rewrite inject_Z_opp in Ex, Ey, Ez.
    cbn zeta. split_and!; intros P; [rewrite Ex|rewrite Ey|rewrite Ez]; [apply Fx|apply Fy|apply Fz]; assumption.
Qed.

(** In a centred box the fractional coordinates measure the untilted offsets that
    [wrap] compares with the faces. *)
Lemma fraction_offsets v : centred b -> let f := makeFraction rsqrt b v zero3 in
  s3x v - tilt_x b v == s3x (m_lo b) + s3x f * s3x (m_L b) /\
  s3y v - tilt_y b v == s3y (m_lo b) + s3y f * s3y (m_L b) /\
  s3z v == s3z (m_lo b) + s3z f * s3z (m_L b).
Proof.
  intros (Cx & Cy & Cz). cbn in Cx, Cy, Cz. destruct W as (_ & _ & Ix & Iy & Iz).
  assert (Oy : s3y (wrap_origin b) == 0).
  { unfold wrap_origin. destruct (u3y _), (u3z _); cbn; rewrite ?Cy; field. }
  assert (Oz : s3z (wrap_origin b) == 0).
  { unfold wrap_origin. destruct (u3y _), (u3z _); cbn; rewrite ?Cz; field. }
  destruct (makeFraction_components v) as (Ex & Ey & Ez). cbn [s3x s3y s3z] in *. cbn zeta.
  unfold tilt_x, tilt_y. rewrite Ex, Ey, Ez, Oy, Oz, (scale_unscale _ _ _ Ix), (scale_unscale _ _ _ Iy), (scale_unscale _ _ _ Iz).
  split_and!; ring.
Qed.

Lemma fraction_inside v : centred b -> let f := makeFraction rsqrt b v zero3 in
  (u3x (m_periodic b) = true -> 0 <= s3x f < 1) -> (u3y (m_periodic b) = true -> 0 <= s3y f < 1) ->
  (u3z (m_periodic b) = true -> 0 <= s3z f < 1) -> inside b v.
Proof.
  intros C. cbn zeta. intros Fx Fy Fz. destruct (fraction_offsets v C) as (Ex & Ey & Ez). cbn zeta in Ex, Ey, Ez.
  destruct W as ((Lx & Ly & Lz) & (Px & Py & Pz) & _). cbn in Lx, Ly, Lz.
  split_and!; intros P; [specialize (Fx P); rewrite Ex|specialize (Fy P); rewrite Ey|specialize (Fz P); rewrite Ez]; split; nra.
Qed.

Lemma fraction_within v : centred b -> let f := makeFraction rsqrt b v zero3 in
  (u3x (m_periodic b) = true -> 0 <= s3x f <= 1) -> (u3y (m_periodic b) = true -> 0 <= s3y f <= 1) ->
  (u3z (m_periodic b) = true -> 0 <= s3z f <= 1) -> within_one_image b v.
Proof.
  intros C. cbn zeta. intros Fx Fy Fz. destruct (fraction_offsets v C) as (Ex & Ey & Ez). cbn zeta in Ex, Ey, Ez.
  destruct W as ((Lx & Ly & Lz) & (Px & Py & Pz) & _). cbn in Lx, Ly, Lz.
  split_and!; intros P; [specialize (Fx P); rewrite Ex|specialize (Fy P); rewrite Ey|specialize (Fz P); rewrite Ez]; split; nra.
Qed.

End fractional.

(** * Constructed boxes are well formed *)

Lemma inv_mult (L : Scalar) : 0 < L -> 1 / L * L == 1.
Proof. intros H. field. intros E. rewrite E in H. discriminate H. Qed.

Lemma make_array_wf Lx Ly Lz xy xz yz :
  0 < Lx -> 0 < Ly -> 0 < Lz ->
  let b := BoxDim.make_array Lx Ly Lz xy xz yz in BoxDim.wf b /\ BoxDim.centred b.
Proof.
  intros Hx Hy Hz b. subst b. unfold BoxDim.make_array, BoxDim.setPeriodic, BoxDim.setTiltFactors, BoxDim.setL.
  cbn [s3z]. destruct (Qeq_bool Lz 0) eqn:E; [apply Qeq_bool_iff in E; rewrite E in Hz; discriminate|].
  split; [|unfold BoxDim.centred; cbn; reflexivity].
  unfold BoxDim.wf, s3_eq, s3_sub, s3_opp, s3_div_scalar, s3_inv. cbn [BoxDim.m_lo BoxDim.m_hi BoxDim.m_L BoxDim.m_Linv s3x s3y s3z].
  split_and!; try assumption; try (now apply inv_mult); field.
Qed.

Lemma make_lohi_wf lo hi p :
  s3x lo < s3x hi -> s3y lo < s3y hi -> s3z lo < s3z hi -> BoxDim.wf (BoxDim.make_lohi lo hi p).
Proof.
  intros Hx Hy Hz. unfold BoxDim.make_lohi, BoxDim.setPeriodic, BoxDim.setTiltFactors, BoxDim.setLoHi.
  destruct (Qeq_bool (s3z hi) 0 && Qeq_bool (s3z lo) 0) eqn:E.
  { apply andb_true_iff in E as [E1%Qeq_bool_iff E2%Qeq_bool_iff]. lra. }
  unfold BoxDim.wf, s3_eq, s3_sub, s3_inv. cbn [BoxDim.m_lo BoxDim.m_hi BoxDim.m_L BoxDim.m_Linv s3x s3y s3z].
  split_and!; try reflexivity; try lra; apply inv_mult; lra.
Qed.

(** * Properties *)

(** C31. [BoxDim::wrap] keeps the unwrapped position: whatever the flags, the
    wrapped vector displaced by the new image is the old vector displaced by the
    old image. Without flags, a vector at most one image outside a well-formed
    triclinic box, periodic along any set of axes, ends inside the box, and
    wrapping it again changes nothing. *)
Theorem BoxDim_wrap (b : BoxDim.t) (w : Scalar3) (img : int3)
  (W : BoxDim.wf b) (N : BoxDim.within_one_image b w) :
  let r := BoxDim.wrap b w img BoxDim.no_flags in
  BoxDim.inside b r.1 /\
  BoxDim.wrap b r.1 r.2 BoxDim.no_flags = r /\
  (forall flags, let r' := BoxDim.wrap b w img flags in
     BoxDim.shift b r'.1 r'.2 =3= BoxDim.shift b w img).
Proof.
  intros r. pose proof (wrap_inside b W w img N) as I. fold r in I.
  split; [exact I|]. split; [|intros flags; apply wrap_shift].
  rewrite wrap_id by exact I. now destruct r.
Qed.

Definition example_box : BoxDim.t := BoxDim.make_array 10 8 6 (1 # 2) (1 # 4) (- (1 # 3)).
Definition example_vector : Scalar3 := make_scalar3 9 (-5) 4.

Lemma BoxDim_wrap_witness :
  BoxDim.inside example_box (BoxDim.wrap example_box example_vector (make_int3 0 0 0) BoxDim.no_flags).1.
Proof.
  apply (BoxDim_wrap example_box example_vector (make_int3 0 0 0)).
  - apply make_array_wf; reflexivity.
  - repeat split; vm_compute; intros; discriminate.
Defined.

(** C32. [BoxDim::minImage] on the host is defined on every vector within one
    image along z (and few enough images along y and x for the [int] conversion)
    and returns a lattice translate of it, along periodic axes only, no component
    of which exceeds half the box length; where no component lies exactly on the
    half length it is the only such vector, and the device version, which rounds
    with [rint], returns the same. *)
Theorem BoxDim_minImage (b : BoxDim.t) (v : Scalar3)
  (W : BoxDim.wf b) (C : BoxDim.centred b) (F : BoxDim.foldable b v) :
  exists w n, BoxDim.minImage b v = Some w /\
    w =3= BoxDim.shift b v n /\ BoxDim.periodic_image b n /\ BoxDim.minimal b w /\
    (BoxDim.strictly_minimal b w ->
     BoxDim.minImage_device b v =3= w /\
     (forall w' n', w' =3= BoxDim.shift b v n' -> BoxDim.periodic_image b n' -> BoxDim.minimal b w' -> w =3= w')).
Proof.
  destruct (minImage_spec b W C v F) as (w & n & R & S & M & K). exists w, n. split_and!; auto. intros T.
  assert (U : forall w' n', w' =3= BoxDim.shift b v n' -> BoxDim.periodic_image b n' -> BoxDim.minimal b w' -> w =3= w').
  { intros w' n' S' K' M'. eapply (minimal_unique b W v w w' n n'); eassumption. }
  split; [|exact U].
  destruct (minImage_device_spec b W v) as (nd & Sd & Md & Kd). symmetry. now apply (U _ nd).
Qed.

Lemma BoxDim_minImage_witness :
  exists w n, BoxDim.minImage example_box example_vector = Some w /\ w =3= BoxDim.shift example_box example_vector n.
Proof.
  destruct (BoxDim_minImage example_box example_vector) as (w & n & R & S & _).
  - apply make_array_wf; reflexivity.
  - apply make_array_wf; reflexivity.
  - repeat split; vm_compute; intros; discriminate.
  - exists w, n. split; assumption.
Defined.

(** In a well-formed box [makeFraction] and [makeCoordinates] are mutually
    inverse, and a displacement by lattice vectors changes the fractional
    coordinates by exactly those integers. *)
Theorem BoxDim_fraction_roundtrip (rsqrt : Scalar -> Scalar) (b : BoxDim.t) (W : BoxDim.wf b) :
  (forall f, BoxDim.makeFraction rsqrt b (BoxDim.makeCoordinates b f) BoxDim.zero3 =3= f) /\
  (forall v, BoxDim.makeCoordinates b (BoxDim.makeFraction rsqrt b v BoxDim.zero3) =3= v) /\
  (forall v n, BoxDim.makeFraction rsqrt b (BoxDim.shift b v n) BoxDim.zero3 =3=
     s3_add (BoxDim.makeFraction rsqrt b v BoxDim.zero3)
       (make_scalar3 (inject_Z (i3x n)) (inject_Z (i3y n)) (inject_Z (i3z n)))).
Proof.
  split_and!; intros.
  - now apply makeFraction_makeCoordinates.
  - now apply makeCoordinates_makeFraction.
  - now apply makeFraction_shift.
Qed.

Lemma BoxDim_fraction_roundtrip_witness :
  BoxDim.makeFraction (fun x => x) example_box (BoxDim.makeCoordinates example_box example_vector) BoxDim.zero3 =3= example_vector.
Proof.
  destruct (BoxDim_fraction_roundtrip (fun x => x) example_box) as (A & _).
  - apply make_array_wf; reflexivity.
  - exact (A example_vector).
Defined.

(** [getImage] is defined on every vector fewer than [2^30] images away and
    names the periodic image it lies in: displaced back by that image the vector
    has fractional coordinates in the closed unit interval along the periodic
    axes. *)
Theorem BoxDim_getImage (rsqrt : Scalar -> Scalar) (b : BoxDim.t) (v : Scalar3) (W : BoxDim.wf b)
  (Bx : Qabs (s3x (BoxDim.makeFraction rsqrt b v BoxDim.zero3) - (1 # 2)) < inject_Z (2 ^ 30))
  (By : Qabs (s3y (BoxDim.makeFraction rsqrt b v BoxDim.zero3) - (1 # 2)) < inject_Z (2 ^ 30))
  (Bz : Qabs (s3z (BoxDim.makeFraction rsqrt b v BoxDim.zero3) - (1 # 2)) < inject_Z (2 ^ 30)) :
  exists n, BoxDim.getImage rsqrt b v = Some n /\ BoxDim.periodic_image b n /\
    let f := BoxDim.makeFraction rsqrt b (BoxDim.shift b v (i3_opp n)) BoxDim.zero3 in
    (BoxDim.u3x (BoxDim.m_periodic b) = true -> 0 <= s3x f <= 1) /\
    (BoxDim.u3y (BoxDim.m_periodic b) = true -> 0 <= s3y f <= 1) /\
    (BoxDim.u3z (BoxDim.m_periodic b) = true -> 0 <= s3z f <= 1).
Proof. now apply getImage_spec. Qed.

Lemma BoxDim_getImage_witness :
  exists n, BoxDim.getImage (fun x => x) example_box example_vector = Some n.
Proof.
  destruct (BoxDim_getImage (fun x => x) example_box example_vector) as (n & R & _).
  - apply make_array_wf; reflexivity.
  - reflexivity.
  - reflexivity.
  - reflexivity.
  - exists n. exact R.
Defined.
