(* ===== verification/AABBTree.v ===== *)
(** Bounding boxes and the bounding volume hierarchy ([hoomd/AABB.h],
    [hoomd/AABBTree.h]).

    The boxes are the scalar variant (the SSE and AVX variants compute the same
    comparisons); corners are exact rationals, and only comparisons of corners
    matter for what a query finds. [m_nodes] is the allocated prefix of the node
    array, its length is [m_num_nodes]; [m_node_capacity] is the size of the
    allocation. A leaf's [particles] and [particle_tags] are the first
    [num_particles] entries of its arrays. The arrays [aabbs] and [idx] of the
    build, which the source always permutes together, are one array of pairs.
    Allocation succeeds. [None] is a write outside the allocation or a loop that
    outlives its fuel; the theorems show that neither happens. *)

From Stdlib Require Import ZArith Lia QArith.
From stdpp Require Import base list list_numbers option.
From S2P Require Import Prelude HOOMDMath.
Local Open Scope Z_scope.

(** * Boxes *)

Record AABB := mkAABB { lower : Scalar3; upper : Scalar3; aabb_tag : Z }.

Definition s3_zero : Scalar3 := make_scalar3 0 0 0.
Definition aabb_default : AABB := mkAABB s3_zero s3_zero 0.
Definition aabb_corners (l u : Scalar3) : AABB := mkAABB l u 0.

Definition aabb_sphere (position : Scalar3) (radius : Scalar) : AABB :=
  mkAABB (make_scalar3 (s3x position - radius) (s3y position - radius) (s3z position - radius))
         (make_scalar3 (s3x position + radius) (s3y position + radius) (s3z position + radius)) 0.

Definition aabb_point (position : Scalar3) (t : Z) : AABB := mkAABB position position t.

Definition overlaps (a other : AABB) : bool :=
  negb (lt_b (s3x (upper other)) (s3x (lower a)) || lt_b (s3x (upper a)) (s3x (lower other))
        || lt_b (s3y (upper other)) (s3y (lower a)) || lt_b (s3y (upper a)) (s3y (lower other))
        || lt_b (s3z (upper other)) (s3z (lower a)) || lt_b (s3z (upper a)) (s3z (lower other))).

Definition getPosition (a : AABB) : Scalar3 := s3_div_scalar (s3_add (lower a) (upper a)) 2.

Definition translate (v : Scalar3) (a : AABB) : AABB := mkAABB (s3_add (lower a) v) (s3_add (upper a) v) (aabb_tag a).

Definition contains (a b : AABB) : bool :=
  ge_b (s3x (lower b)) (s3x (lower a)) && ge_b (s3x (upper a)) (s3x (upper b))
  && ge_b (s3y (lower b)) (s3y (lower a)) && ge_b (s3y (upper a)) (s3y (upper b))
  && ge_b (s3z (lower b)) (s3z (lower a)) && ge_b (s3z (upper a)) (s3z (upper b)).

(** [std::min] and [std::max]. *)
Definition std_min (a b : Scalar) : Scalar := if lt_b b a then b else a.
Definition std_max (a b : Scalar) : Scalar := if lt_b a b then b else a.

Definition merge (a b : AABB) : AABB :=
  mkAABB (make_scalar3 (std_min (s3x (lower a)) (s3x (lower b))) (std_min (s3y (lower a)) (s3y (lower b))) (std_min (s3z (lower a)) (s3z (lower b))))
         (make_scalar3 (std_max (s3x (upper a)) (s3x (upper b))) (std_max (s3y (upper a)) (s3y (upper b))) (std_max (s3z (upper a)) (s3z (upper b)))) 0.

(** * The tree *)

Definition NODE_CAPACITY : Z := 16.
Definition INVALID_NODE : Z := 4294967295.

Record AABBNode := mkNode {
  aabb : AABB;
  left : Z;
  right : Z;
  parent : Z;
  skip : Z;
  particles : list Z;
  particle_tags : list Z;
  num_particles : Z
}.

Definition new_node : AABBNode := mkNode aabb_default INVALID_NODE INVALID_NODE INVALID_NODE 0 [] [] 0.

Definition set_aabb (b : AABB) (n : AABBNode) : AABBNode :=
  mkNode b (left n) (right n) (parent n) (skip n) (particles n) (particle_tags n) (num_particles n).
Definition set_skip (s : Z) (n : AABBNode) : AABBNode :=
  mkNode (aabb n) (left n) (right n) (parent n) s (particles n) (particle_tags n) (num_particles n).
Definition set_internal (b : AABB) (p l r : Z) (n : AABBNode) : AABBNode :=
  mkNode b l r p (skip n) (particles n) (particle_tags n) (num_particles n).
Definition set_leaf (b : AABB) (p : Z) (ps tags : list Z) (num : Z) (n : AABBNode) : AABBNode :=
  mkNode b (left n) (right n) p (skip n) ps tags num.

Record AABBTree := mkTree {
  m_nodes : list AABBNode;
  m_node_capacity : Z;
  m_root : Z;
  m_mapping : list Z
}.

Definition set_nodes (l : list AABBNode) (t : AABBTree) : AABBTree := mkTree l (m_node_capacity t) (m_root t) (m_mapping t).
Definition set_mapping (m : list Z) (t : AABBTree) : AABBTree := mkTree (m_nodes t) (m_node_capacity t) (m_root t) m.

Definition empty_tree : AABBTree := mkTree [] 0 0 [].
Definition m_num_nodes (t : AABBTree) : Z := Z.of_nat (length (m_nodes t)).
Definition node (t : AABBTree) (k : Z) : AABBNode := zget new_node (m_nodes t) k.
Definition modify (k : Z) (f : AABBNode -> AABBNode) (t : AABBTree) : AABBTree := set_nodes (zset (m_nodes t) k (f (node t k))) t.

Definition isNodeLeaf (t : AABBTree) (k : Z) : bool := left (node t k) =? INVALID_NODE.

(** ** Building *)

Definition init (N : Z) (t : AABBTree) : AABBTree :=
  mkTree [] (m_node_capacity t) INVALID_NODE (replicate (Z.to_nat N) INVALID_NODE).

Definition allocateNode (t : AABBTree) : option (Z * AABBTree) :=
  let capacity := if m_num_nodes t >=? m_node_capacity t
                  then let c := u32 (m_node_capacity t * 2) in if c =? 0 then 16 else c
                  else m_node_capacity t in
  if m_num_nodes t <? capacity
  then Some (m_num_nodes t, mkTree (m_nodes t ++ [new_node]) capacity (m_root t) (m_mapping t))
  else None.

(** An entry of the arrays [aabbs] and [idx]. *)
Abbreviation item := (AABB * Z)%type.
Definition no_item : item := (aabb_default, 0).
Definition item_at (items : list item) (i : Z) : item := zget no_item items i.

(** The merge of [aabbs[start]], ..., [aabbs[start + count]]. *)
Fixpoint merge_range (items : list item) (start : Z) (count : nat) : AABB :=
  match count with
  | O => (item_at items start).1
  | S count => merge (merge_range items start count) (item_at items (start + Z.of_nat (S count))).1
  end.

Definition on_left (my_aabb b : AABB) : bool :=
  let my_radius := s3_sub (upper my_aabb) (lower my_aabb) in
  if lt_b (s3y my_radius) (s3x my_radius) && lt_b (s3z my_radius) (s3x my_radius) then
    lt_b (s3x (getPosition b)) (s3x (getPosition my_aabb))
  else if lt_b (s3z my_radius) (s3y my_radius) then
    lt_b (s3y (getPosition b)) (s3y (getPosition my_aabb))
  else
    lt_b (s3z (getPosition b)) (s3z (getPosition my_aabb)).

(** The partition loop at [i], with [count] iterations left. *)
Fixpoint partition_loop (f : AABB -> bool) (start i : Z) (count : nat) (items : list item) (left_insert_point : Z) (rights : list item)
  : list item * Z * list item :=
  match count with
  | O => (items, left_insert_point, rights)
  | S count =>
      let x := item_at items (start + i) in
      if f x.1 then
        partition_loop f start (i + 1) count
          (if negb (left_insert_point =? i) then zset items (start + left_insert_point) x else items)
          (left_insert_point + 1) rights
      else partition_loop f start (i + 1) count items left_insert_point (rights ++ [x])
  end.

(** [std::copy(l.begin(), l.end(), items + at)] *)
Fixpoint copy_to (items : list item) (at_ : Z) (l : list item) : list item :=
  match l with
  | [] => items
  | x :: l => copy_to (zset items at_ x) (at_ + 1) l
  end.

Definition partition (my_aabb : AABB) (start len : Z) (items : list item) : list item * Z :=
  if len =? 2 then (items, 0)
  else
    let '(items, left_insert_point, rights) := partition_loop (on_left my_aabb) start 0 (Z.to_nat len) items 0 [] in
    (copy_to items (start + left_insert_point) rights, left_insert_point).

(** The loop that fills a leaf. *)
Definition leaf_items (items : list item) (start len : Z) : list item :=
  (fun i => item_at items (start + i)) <$> seqZ 0 len.

Fixpoint map_particles (ps : list Z) (k : Z) (m : list Z) : list Z :=
  match ps with
  | [] => m
  | p :: ps => map_particles ps k (zset m p k)
  end.

Definition make_leaf (k : Z) (b : AABB) (p : Z) (l : list item) (t : AABBTree) : AABBTree :=
  let t := modify k (set_leaf b p (snd <$> l) ((fun x => aabb_tag x.1) <$> l) (Z.of_nat (length l))) t in
  set_mapping (map_particles (snd <$> l) k (m_mapping t)) t.

Fixpoint buildNode (fuel : nat) (items : list item) (start len p : Z) (t : AABBTree) : option (Z * AABBTree * list item) :=
  match fuel with
  | O => None
  | S fuel =>
      let my_aabb := merge_range items start (Z.to_nat (len - 1)) in
      if len <=? NODE_CAPACITY then
        match allocateNode t with
        | None => None
        | Some (k, t) => Some (k, make_leaf k my_aabb p (leaf_items items start len) t, items)
        end
      else
        match allocateNode t with
        | None => None
        | Some (my_idx, t) =>
            let '(items, left_insert_point) := partition my_aabb start len items in
            let start_right := if left_insert_point =? len then len - 1 else left_insert_point in
            let start_right := if start_right =? 0 then 1 else start_right in
            match buildNode fuel items start start_right my_idx t with
            | None => None
            | Some (new_left, t, items) =>
                match buildNode fuel items (start + start_right) (len - start_right) my_idx t with
                | None => None
                | Some (new_right, t, items) => Some (my_idx, modify my_idx (set_internal my_aabb p new_left new_right) t, items)
                end
            end
        end
  end.

Fixpoint updateSkip (fuel : nat) (k : Z) (t : AABBTree) : option (Z * AABBTree) :=
  match fuel with
  | O => None
  | S fuel =>
      if isNodeLeaf t k then Some (1, t)
      else
        let left_idx := left (node t k) in
        let right_idx := right (node t k) in
        match updateSkip fuel left_idx t with
        | None => None
        | Some (a, t) =>
            match updateSkip fuel right_idx t with
            | None => None
            | Some (b, t) => let s := u32 (a + b) in Some (u32 (s + 1), modify k (set_skip s) t)
            end
        end
  end.

Definition set_root (r : Z) (t : AABBTree) : AABBTree := mkTree (m_nodes t) (m_node_capacity t) r (m_mapping t).

(** Returns the tree and the permuted [aabbs]. *)
Definition buildTree (aabbs : list AABB) (t : AABBTree) : option (AABBTree * list AABB) :=
  let N := Z.of_nat (length aabbs) in
  match buildNode (length aabbs) (zip aabbs (seqZ 0 N)) 0 N INVALID_NODE (init N t) with
  | None => None
  | Some (root, t, items) =>
      match updateSkip (length (m_nodes t)) root (set_root root t) with
      | None => None
      | Some (_, t) => Some (t, fst <$> items)
      end
  end.

(** ** Queries and updates *)

Fixpoint query_loop (fuel : nat) (q : AABB) (t : AABBTree) (current : Z) (hits : list Z) (box_overlap_counts : Z) : option (list Z * Z) :=
  match fuel with
  | O => None
  | S fuel =>
      if current <? m_num_nodes t then
        let n := node t current in
        if overlaps q (aabb n) then
          query_loop fuel q t (u32 (current + 1))
            (if left n =? INVALID_NODE then hits ++ take (Z.to_nat (num_particles n)) (particles n) else hits) (u32 (box_overlap_counts + 1))
        else query_loop fuel q t (u32 (u32 (current + skip n) + 1)) hits (u32 (box_overlap_counts + 1))
      else Some (hits, box_overlap_counts)
  end.

Definition query (hits : list Z) (q : AABB) (t : AABBTree) : option (list Z * Z) :=
  query_loop (S (length (m_nodes t))) q t 0 hits 0.

Fixpoint update_parents (fuel : nat) (current : Z) (t : AABBTree) : option AABBTree :=
  match fuel with
  | O => None
  | S fuel =>
      if negb (current =? INVALID_NODE) then
        let n := node t current in
        update_parents fuel (parent n)
          (modify current (set_aabb (merge (aabb (node t (left n))) (aabb (node t (right n))))) t)
      else Some t
  end.

Definition update (i : Z) (b : AABB) (t : AABBTree) : option AABBTree :=
  let k := zget INVALID_NODE (m_mapping t) i in
  if negb (contains (aabb (node t k)) b) then
    let t := modify k (set_aabb (merge (aabb (node t k)) b)) t in
    update_parents (S (length (m_nodes t))) (parent (node t k)) t
  else Some t.

Fixpoint height_loop (fuel : nat) (current h : Z) (t : AABBTree) : option Z :=
  match fuel with
  | O => None
  | S fuel => if negb (current =? INVALID_NODE) then height_loop fuel (parent (node t current)) (h + 1) t else Some h
  end.

Definition height (i : Z) (t : AABBTree) : option Z :=
  let k := zget INVALID_NODE (m_mapping t) i in
  if k =? INVALID_NODE then Some 0 else height_loop (S (length (m_nodes t))) (parent (node t k)) 1 t.
