(* ===== verification/AABBTreeProps.v ===== *)
(** The bounding volume hierarchy is correct: the node array is the pre-order
    layout of a binary tree over all particles, every node encloses what is below
    it, and the stackless query finds every particle whose box overlaps. *)

From Stdlib Require Import ZArith Lia QArith.
From stdpp Require Import base list list_numbers option sorting.
From S2P Require Import Prelude HOOMDMath AABBTree.
Local Open Scope Z_scope.

(** * Boxes *)

Lemma std_min_spec a b : (std_min a b <= a /\ std_min a b <= b)%Q.
Proof. unfold std_min. destruct (lt_b b a) eqn:E; qbool; split; try apply Qle_refl; auto. now apply Qlt_le_weak. Qed.

Lemma std_max_spec a b : (a <= std_max a b /\ b <= std_max a b)%Q.
Proof. unfold std_max. destruct (lt_b a b) eqn:E; qbool; split; try apply Qle_refl; auto. now apply Qlt_le_weak. Qed.

Lemma contains_spec a b : contains a b = true <->
  ((s3x (lower a) <= s3x (lower b) /\ s3x (upper b) <= s3x (upper a)) /\
   (s3y (lower a) <= s3y (lower b) /\ s3y (upper b) <= s3y (upper a)) /\
   (s3z (lower a) <= s3z (lower b) /\ s3z (upper b) <= s3z (upper a)))%Q.
Proof. unfold contains. rewrite !andb_true_iff, !ge_b_spec. tauto. Qed.

Lemma overlaps_spec a b : overlaps a b = true <->
  ((s3x (lower a) <= s3x (upper b) /\ s3x (lower b) <= s3x (upper a)) /\
   (s3y (lower a) <= s3y (upper b) /\ s3y (lower b) <= s3y (upper a)) /\
   (s3z (lower a) <= s3z (upper b) /\ s3z (lower b) <= s3z (upper a)))%Q.
Proof. unfold overlaps. rewrite negb_true_iff, !orb_false_iff, !lt_b_false. tauto. Qed.

Lemma contains_refl a : contains a a = true.
Proof. apply contains_spec. repeat split; apply Qle_refl. Qed.

Lemma contains_trans a b c : contains a b = true -> contains b c = true -> contains a c = true.
Proof. rewrite !contains_spec. intros H K. repeat split; eapply Qle_trans; solve [apply H | apply K]. Qed.

Lemma merge_contains a b : contains (merge a b) a = true /\ contains (merge a b) b = true.
Proof. split; apply contains_spec; simpl; repeat split; solve [apply std_min_spec | apply std_max_spec]. Qed.

Lemma overlaps_mono q a b : contains a b = true -> overlaps q b = true -> overlaps q a = true.
Proof. rewrite contains_spec, !overlaps_spec. intros H K. repeat split; eapply Qle_trans; solve [apply H | apply K]. Qed.

(** [overlaps] is the existence of a common point, for boxes that are not
    inverted. *)
Definition inside (p : Scalar3) (a : AABB) : Prop :=
  (s3x (lower a) <= s3x p <= s3x (upper a) /\ s3y (lower a) <= s3y p <= s3y (upper a) /\ s3z (lower a) <= s3z p <= s3z (upper a))%Q.

Definition valid (a : AABB) : Prop := inside (lower a) a.

Lemma interval_meet (la ua lb ub : Q) : (la <= ua -> lb <= ub -> la <= ub -> lb <= ua -> exists c, la <= c <= ua /\ lb <= c <= ub)%Q.
Proof.
  intros. exists (std_max la lb). unfold std_max. destruct (lt_b la lb) eqn:E; qbool.
  - apply Qlt_le_weak in E. repeat split; auto using Qle_refl.
  - repeat split; auto using Qle_refl.
Qed.

Lemma overlaps_common_point a b : valid a -> valid b -> overlaps a b = true <-> exists p, inside p a /\ inside p b.
Proof.
  unfold valid, inside. intros (V1 & V2 & V3) (W1 & W2 & W3). rewrite overlaps_spec. split.
  - intros ((A1 & A2) & (B1 & B2) & (C1 & C2)).
    destruct (interval_meet _ _ _ _ (proj2 V1) (proj2 W1) A1 A2) as (x & X1 & X2).
    destruct (interval_meet _ _ _ _ (proj2 V2) (proj2 W2) B1 B2) as (y & Y1 & Y2).
    destruct (interval_meet _ _ _ _ (proj2 V3) (proj2 W3) C1 C2) as (z & Z1 & Z2).
    exists (make_scalar3 x y z). simpl. tauto.
  - intros (p & (X1 & Y1 & Z1) & (X2 & Y2 & Z2)). repeat split; eapply Qle_trans; solve [apply X1 | apply X2 | apply Y1 | apply Y2 | apply Z1 | apply Z2].
Qed.

(** * The layout *)

(** The tree a node array encodes. *)
Inductive shape : Type :=
| SLeaf (ps : list Z)
| SNode (l r : shape).

Fixpoint tree_size (T : shape) : Z :=
  match T with
  | SLeaf _ => 1
  | SNode l r => 1 + tree_size l + tree_size r
  end.

Fixpoint flat (T : shape) : list Z :=
  match T with
  | SLeaf ps => ps
  | SNode l r => flat l ++ flat r
  end.

(** Leaf [j] of the tree at [k] holds particle [p]. *)
Fixpoint leaf_at (k : Z) (T : shape) (p j : Z) : Prop :=
  match T with
  | SLeaf ps => p ∈ ps /\ j = k
  | SNode l r => leaf_at (k + 1) l p j \/ leaf_at (k + 1 + tree_size l) r p j
  end.

(** What the update of a box leaves alone. *)
Definition links (n : AABBNode) : Z * Z * Z * list Z * Z := (left n, right n, parent n, particles n, num_particles n).

(** The nodes from [k] on are the tree [T] below the node [par]. *)
Fixpoint rep (nodes : list AABBNode) (k par : Z) (T : shape) : Prop :=
  match T with
  | SLeaf ps => links <$> nodes !! Z.to_nat k = Some (INVALID_NODE, INVALID_NODE, par, ps, Z.of_nat (length ps))
  | SNode l r =>
      (exists ps num, links <$> nodes !! Z.to_nat k = Some (k + 1, k + 1 + tree_size l, par, ps, num)) /\
      rep nodes (k + 1) k l /\ rep nodes (k + 1 + tree_size l) k r
  end.

Fixpoint skips (nodes : list AABBNode) (k : Z) (T : shape) : Prop :=
  match T with
  | SLeaf _ => skip <$> nodes !! Z.to_nat k = Some 0
  | SNode l r =>
      skip <$> nodes !! Z.to_nat k = Some (tree_size l + tree_size r) /\ skips nodes (k + 1) l /\ skips nodes (k + 1 + tree_size l) r
  end.

Definition box_at (nodes : list AABBNode) (k : Z) : AABB := aabb (zget new_node nodes k).

(** Every node encloses its children, every leaf the boxes of its particles. *)
Fixpoint encl (nodes : list AABBNode) (box : Z -> AABB) (k : Z) (T : shape) : Prop :=
  match T with
  | SLeaf ps => forall p, p ∈ ps -> contains (box_at nodes k) (box p) = true
  | SNode l r =>
      contains (box_at nodes k) (box_at nodes (k + 1)) = true /\
      contains (box_at nodes k) (box_at nodes (k + 1 + tree_size l)) = true /\
      encl nodes box (k + 1) l /\ encl nodes box (k + 1 + tree_size l) r
  end.

Lemma tree_size_pos T : 0 < tree_size T.
Proof. induction T; simpl; lia. Qed.

Lemma leaf_at_flat T : forall k p, p ∈ flat T <-> exists j, leaf_at k T p j.
Proof.
  induction T as [ps|l IHl r IHr]; intros k p; simpl.
  - split; [eauto|now intros (j & ? & _)].
  - rewrite elem_of_app, (IHl (k + 1)), (IHr (k + 1 + tree_size l)). split; [intros [[j H]|[j H]]; eauto|intros [j [H|H]]; eauto].
Qed.

Lemma leaf_at_range T : forall k p j, leaf_at k T p j -> k <= j < k + tree_size T.
Proof.
  induction T as [ps|l IHl r IHr]; intros k p j; simpl; [intros [_ ->]; lia|].
  pose proof (tree_size_pos l). pose proof (tree_size_pos r). intros [L%IHl|R%IHr]; lia.
Qed.

(** What is said of a tree depends on its own nodes only. *)
Lemma rep_ext nodes nodes' T : forall k par, 0 <= k ->
  (forall j, k <= j < k + tree_size T -> links <$> nodes' !! Z.to_nat j = links <$> nodes !! Z.to_nat j) -> rep nodes k par T -> rep nodes' k par T.
Proof.
  induction T as [ps|l IHl r IHr]; intros k par Hk E; simpl in *; [rewrite E by lia; auto|].
  pose proof (tree_size_pos l). pose proof (tree_size_pos r). rewrite E by lia. intros (A & B & C). split_and!; auto.
  - apply IHl; auto; [lia|]. intros j Hj. apply E. lia.
  - apply IHr; auto; [lia|]. intros j Hj. apply E. lia.
Qed.

Lemma skips_ext nodes nodes' T : forall k, 0 <= k ->
  (forall j, k <= j < k + tree_size T -> skip <$> nodes' !! Z.to_nat j = skip <$> nodes !! Z.to_nat j) -> skips nodes k T -> skips nodes' k T.
Proof.
  induction T as [ps|l IHl r IHr]; intros k Hk E; simpl in *; [rewrite E by lia; auto|].
  pose proof (tree_size_pos l). pose proof (tree_size_pos r). rewrite E by lia. intros (A & B & C). split_and!; auto.
  - apply IHl; auto; [lia|]. intros j Hj. apply E. lia.
  - apply IHr; auto; [lia|]. intros j Hj. apply E. lia.
Qed.

Lemma encl_ext nodes nodes' box box' T : forall k,
  (forall j, k <= j < k + tree_size T -> box_at nodes' j = box_at nodes j) -> (forall p, p ∈ flat T -> box' p = box p) ->
  encl nodes box k T -> encl nodes' box' k T.
Proof.
  induction T as [ps|l IHl r IHr]; intros k E B; simpl in *.
  - intros H p Hp. rewrite E, B by (auto; lia). auto.
  - pose proof (tree_size_pos l). pose proof (tree_size_pos r). rewrite !E by lia. intros (A1 & A2 & A3 & A4). split_and!; auto.
    + apply IHl; auto; [intros j Hj; apply E; lia|intros p Hp; apply B, elem_of_app; auto].
    + apply IHr; auto; [intros j Hj; apply E; lia|intros p Hp; apply B, elem_of_app; auto].
Qed.

(** The root of a tree encloses all its particles. *)
Lemma encl_root nodes box T : forall k, encl nodes box k T -> forall p, p ∈ flat T -> contains (box_at nodes k) (box p) = true.
Proof.
  induction T as [ps|l IHl r IHr]; intros k; simpl; [auto|]. intros (A1 & A2 & A3 & A4) p [H|H]%elem_of_app.
  - eapply contains_trans; [exact A1|]. now apply IHl.
  - eapply contains_trans; [exact A2|]. now apply IHr.
Qed.

Lemma rep_bounds nodes T : forall k par, 0 <= k -> rep nodes k par T -> k + tree_size T <= Z.of_nat (length nodes).
Proof.
  induction T as [ps|l IHl r IHr]; intros k par Hk; simpl.
  - intros H. destruct (nodes !! Z.to_nat k) eqn:E; [|discriminate]. apply lookup_lt_Some in E. lia.
  - intros (_ & _ & H). apply IHr in H; pose proof (tree_size_pos l); lia.
Qed.

(** * Queries *)

(** The recursive search: the particles it reports and the overlap tests it
    makes. *)
Fixpoint visit (q : AABB) (nodes : list AABBNode) (k : Z) (T : shape) : list Z * Z :=
  if overlaps q (box_at nodes k) then
    match T with
    | SLeaf ps => (ps, 1)
    | SNode l r =>
        let '(h, c) := visit q nodes (k + 1) l in
        let '(h', c') := visit q nodes (k + 1 + tree_size l) r in
        (h ++ h', 1 + c + c')
    end
  else ([], 1).

Lemma visit_count q nodes T : forall k, 0 < (visit q nodes k T).2 <= tree_size T.
Proof.
  induction T as [ps|l IHl r IHr]; intros k; simpl.
  - destruct (overlaps _ _); simpl; lia.
  - pose proof (tree_size_pos l). pose proof (tree_size_pos r). specialize (IHl (k + 1)). specialize (IHr (k + 1 + tree_size l)).
    destruct (overlaps _ _); [|simpl; lia]. destruct (visit _ _ _ l), (visit _ _ _ r). simpl in *. lia.
Qed.

Section queries.
Variables (q : AABB) (t : AABBTree).
Hypothesis Small : m_num_nodes t <= 2 ^ 30.

Lemma query_step fuel k hits cnt n : 0 <= k -> m_nodes t !! Z.to_nat k = Some n -> 0 <= cnt < 2 ^ 31 -> 0 <= skip n <= 2 ^ 30 ->
  query_loop (S fuel) q t k hits cnt =
  if overlaps q (aabb n) then
    query_loop fuel q t (k + 1) (if left n =? INVALID_NODE then hits ++ take (Z.to_nat (num_particles n)) (particles n) else hits) (cnt + 1)
  else query_loop fuel q t (k + skip n + 1) hits (cnt + 1).
Proof.
  intros Hk E Hc Hs. pose proof (lookup_lt_Some _ _ _ E) as L. unfold m_num_nodes in Small. cbn [query_loop].
  unfold m_num_nodes. rewrite (proj2 (Z.ltb_lt _ _)) by lia. unfold node. rewrite (zget_lookup _ _ _ _ E).
  rewrite !u32_small; [reflexivity|unfold is_u32; rewrite ?u32_small by (unfold is_u32; lia); lia..].
Qed.

Lemma query_visit T : forall k par fuel hits cnt, 0 <= k -> rep (m_nodes t) k par T -> skips (m_nodes t) k T ->
  0 <= cnt -> cnt + tree_size T <= 2 ^ 31 ->
  query_loop (Z.to_nat (visit q (m_nodes t) k T).2 + fuel) q t k hits cnt =
  query_loop fuel q t (k + tree_size T) (hits ++ (visit q (m_nodes t) k T).1) (cnt + (visit q (m_nodes t) k T).2).
Proof.
  induction T as [ps|l IHl r IHr]; intros k par fuel hits cnt Hk R S Hc Hb; pose proof (rep_bounds _ _ _ _ Hk R) as Bd; unfold m_num_nodes in Small.
  - simpl in *. destruct (m_nodes t !! Z.to_nat k) as [n|] eqn:E; [|discriminate]. simpl in *. injection R as R1 R2 R3 R4 R5. injection S as S.
    unfold box_at. rewrite (zget_lookup _ _ _ _ E). destruct (overlaps q (aabb n)) eqn:O; simpl fst; simpl snd.
    + change (Z.to_nat 1 + fuel)%nat with (Datatypes.S fuel). rewrite (query_step fuel k hits cnt n) by (auto; lia).
      rewrite O, R1, Z.eqb_refl, R4, R5, Nat2Z.id, firstn_all. reflexivity.
    + change (Z.to_nat 1 + fuel)%nat with (Datatypes.S fuel). rewrite (query_step fuel k hits cnt n) by (auto; lia).
      rewrite O, S, app_nil_r. f_equal; lia.
  - pose proof (tree_size_pos l). pose proof (tree_size_pos r). simpl in R, S, Hb, Bd |- *. destruct R as ((ps & num & R) & Rl & Rr), S as (S & Sl & Sr).
    destruct (m_nodes t !! Z.to_nat k) as [n|] eqn:E; [|discriminate]. simpl in *. injection R as R1 R2 R3 R4 R5. injection S as S.
    assert (Ek : box_at (m_nodes t) k = aabb n) by (unfold box_at; now rewrite (zget_lookup _ _ _ _ E)).
    rewrite Ek. destruct (overlaps q (aabb n)) eqn:O.
    + pose proof (visit_count q (m_nodes t) l (k + 1)) as Cl. pose proof (visit_count q (m_nodes t) r (k + 1 + tree_size l)) as Cr.
      specialize (IHl (k + 1) k). specialize (IHr (k + 1 + tree_size l) k).
      destruct (visit _ _ _ l) as [h c], (visit _ _ _ r) as [h' c']. simpl fst in *. simpl snd in *.
      replace (Z.to_nat (1 + c + c') + fuel)%nat with (Datatypes.S (Z.to_nat c + (Z.to_nat c' + fuel)))%nat by lia.
      rewrite (query_step _ k hits cnt n) by (auto; lia). rewrite O, R1. destruct (Z.eqb_spec (k + 1) INVALID_NODE); [unfold INVALID_NODE in *; lia|].
      rewrite IHl, IHr by (auto; lia). rewrite <- app_assoc. f_equal; lia.
    + simpl fst. simpl snd. change (Z.to_nat 1 + fuel)%nat with (Datatypes.S fuel). rewrite (query_step fuel k hits cnt n) by (auto; lia).
      rewrite O, S, app_nil_r. f_equal; lia.
Qed.

End queries.

Lemma visit_complete q nodes box T : forall k, encl nodes box k T -> forall p, p ∈ flat T -> overlaps q (box p) = true -> p ∈ (visit q nodes k T).1.
Proof.
  induction T as [ps|l IHl r IHr]; intros k E p Hp O; pose proof (encl_root nodes box _ k E p Hp) as C.
  - simpl. rewrite (overlaps_mono q _ _ C O). exact Hp.
  - simpl in *. destruct E as (_ & _ & El & Er). rewrite (overlaps_mono q _ _ C O).
    specialize (IHl (k + 1) El p). specialize (IHr (k + 1 + tree_size l) Er p).
    destruct (visit _ _ _ l), (visit _ _ _ r). simpl in *. apply elem_of_app in Hp as [Hp|Hp]; apply elem_of_app; auto.
Qed.

Lemma visit_sublist q nodes T : forall k, sublist (visit q nodes k T).1 (flat T).
Proof.
  induction T as [ps|l IHl r IHr]; intros k; simpl; destruct (overlaps _ _); try apply sublist_nil_l; [reflexivity|].
  specialize (IHl (k + 1)). specialize (IHr (k + 1 + tree_size l)). destruct (visit _ _ _ l), (visit _ _ _ r). simpl in *. now apply sublist_app.
Qed.

(** A reported particle lies in a leaf that overlaps. *)
Lemma visit_sound q nodes T : forall k p, p ∈ (visit q nodes k T).1 -> exists j, leaf_at k T p j /\ overlaps q (box_at nodes j) = true.
Proof.
  induction T as [ps|l IHl r IHr]; intros k p; simpl; destruct (overlaps _ _) eqn:O; try (intros H; now apply elem_of_nil in H).
  - simpl. eauto.
  - specialize (IHl (k + 1) p). specialize (IHr (k + 1 + tree_size l) p). destruct (visit _ _ _ l), (visit _ _ _ r). simpl in *.
    intros [H|H]%elem_of_app; [destruct (IHl H) as (j & ? & ?)|destruct (IHr H) as (j & ? & ?)]; eauto.
Qed.

(** * The invariant *)

(** [t] holds the particles [0 .. N - 1] with boxes inside [box]. *)
Record tree_ok (N : Z) (box : Z -> AABB) (t : AABBTree) : Prop := {
  ok_small : m_num_nodes t <= 2 ^ 30;
  ok_shape : exists T, rep (m_nodes t) 0 INVALID_NODE T /\ skips (m_nodes t) 0 T /\ encl (m_nodes t) box 0 T /\
    tree_size T = m_num_nodes t /\ flat T ≡ₚ seqZ 0 N /\ (forall p j, leaf_at 0 T p j -> m_mapping t !! Z.to_nat p = Some j)
}.

Lemma query_ok N box q t hits : tree_ok N box t -> exists h c, query hits q t = Some (hits ++ h, c) /\ 0 < c <= m_num_nodes t /\ NoDup h /\
  (forall p, p ∈ h -> 0 <= p < N /\ overlaps q (aabb (node t (zget INVALID_NODE (m_mapping t) p))) = true) /\
  (forall p, 0 <= p < N -> overlaps q (box p) = true -> p ∈ h).
Proof.
  intros [Sm (T & R & S & E & Sz & P & M)]. unfold m_num_nodes in *.
  pose proof (visit_count q (m_nodes t) T 0) as C. pose proof (tree_size_pos T).
  exists (visit q (m_nodes t) 0 T).1, (visit q (m_nodes t) 0 T).2. split_and!; try lia.
  - unfold query. replace (Datatypes.S (length (m_nodes t))) with (Z.to_nat (visit q (m_nodes t) 0 T).2 + (Datatypes.S (length (m_nodes t)) - Z.to_nat (visit q (m_nodes t) 0 T).2))%nat by lia.
    rewrite (query_visit q t Sm T 0 INVALID_NODE) by (auto; lia).
    destruct (Datatypes.S (length (m_nodes t)) - _)%nat eqn:F; [lia|]. cbn [query_loop]. unfold m_num_nodes.
    rewrite (proj2 (Z.ltb_ge _ _)) by lia. reflexivity.
  - apply (sublist_NoDup _ (flat T)); [rewrite P; apply NoDup_seqZ|apply visit_sublist].
  - intros p Hp. split.
    + assert (p ∈ seqZ 0 N) as Hz%elem_of_seqZ by (rewrite <- P; eapply elem_of_sublist; [exact Hp|apply visit_sublist]). lia.
    + apply visit_sound in Hp as (j & L & O). rewrite (zget_lookup _ _ _ _ (M p j L)). exact O.
  - intros p Hp O. apply (visit_complete q _ box T 0 E); auto. rewrite P. apply elem_of_seqZ. lia.
Qed.

(** * Updates *)

Lemma modify_lookup k f t i : m_nodes (modify k f t) !! i = if decide (i = Z.to_nat k) then f <$> m_nodes t !! i else m_nodes t !! i.
Proof.
  unfold modify. simpl. destruct (decide (i = Z.to_nat k)) as [->|D]; [|now apply lookup_zset_ne].
  destruct (m_nodes t !! Z.to_nat k) as [n|] eqn:E; simpl.
  - rewrite lookup_zset_eq by (eapply lookup_lt_Some; exact E). unfold node. now rewrite (zget_lookup _ _ _ _ E).
  - unfold zset. apply lookup_ge_None. rewrite length_insert. now apply lookup_ge_None in E.
Qed.

Lemma modify_length k f t : length (m_nodes (modify k f t)) = length (m_nodes t).
Proof. apply length_zset. Qed.

Lemma node_modify_ne k f t j : 0 <= k -> 0 <= j -> j <> k -> node (modify k f t) j = node t j.
Proof.
  intros Hk Hj D. unfold node, zget. rewrite !nth_lookup, modify_lookup. rewrite decide_False by lia. reflexivity.
Qed.

Lemma node_modify_eq k f t n : m_nodes t !! Z.to_nat k = Some n -> node (modify k f t) k = f n.
Proof. intros E. unfold node. apply zget_lookup. rewrite modify_lookup, decide_True, E by reflexivity. reflexivity. Qed.

(** The two trees differ in boxes only. *)
Record alike (t t' : AABBTree) : Prop := {
  al_len : length (m_nodes t') = length (m_nodes t);
  al_links : forall i, links <$> m_nodes t' !! i = links <$> m_nodes t !! i;
  al_skip : forall i, skip <$> m_nodes t' !! i = skip <$> m_nodes t !! i;
  al_map : m_mapping t' = m_mapping t
}.

#[global] Instance alike_preorder : PreOrder alike.
Proof.
  split; [intros t; now split|]. intros t t' t'' [A1 A2 A3 A4] [B1 B2 B3 B4]. split; [congruence|..|congruence]; intros i; congruence.
Qed.

Lemma alike_aabb k b t : alike t (modify k (set_aabb b) t).
Proof.
  split; [apply modify_length|..|reflexivity]; intros i; rewrite modify_lookup; destruct (decide _); auto;
    destruct (m_nodes t !! i); reflexivity.
Qed.

Definition upd (box : Z -> AABB) (p : Z) (b : AABB) : Z -> AABB := fun x => if x =? p then b else box x.

Lemma upd_eq box p b : upd box p b p = b.
Proof. unfold upd. now rewrite Z.eqb_refl. Qed.

Lemma upd_ne box p b x : x <> p -> upd box p b x = box x.
Proof. unfold upd. intros H. now apply Z.eqb_neq in H as ->. Qed.

(** Setting the box of an internal node to the merge of its children's. *)
Lemma encl_join t box l r k (t' := modify k (set_aabb (merge (aabb (node t (k + 1))) (aabb (node t (k + 1 + tree_size l))))) t) :
  0 <= k < m_num_nodes t -> encl (m_nodes t) box (k + 1) l -> encl (m_nodes t) box (k + 1 + tree_size l) r ->
  encl (m_nodes t') box k (SNode l r).
Proof.
  intros Hk El Er. pose proof (tree_size_pos l). pose proof (tree_size_pos r). unfold m_num_nodes in Hk.
  destruct (lookup_lt_is_Some_2 (m_nodes t) (Z.to_nat k) ltac:(lia)) as [n E].
  assert (Bk : box_at (m_nodes t') k = merge (aabb (node t (k + 1))) (aabb (node t (k + 1 + tree_size l)))).
  { change (box_at (m_nodes t') k) with (aabb (node t' k)). unfold t'. now rewrite (node_modify_eq _ _ _ n E). }
  assert (Bj : forall j, k < j -> box_at (m_nodes t') j = box_at (m_nodes t) j).
  { intros j Hj. change (aabb (node t' j) = aabb (node t j)). unfold t'. now rewrite node_modify_ne by lia. }
  cbn [encl]. rewrite Bk, !Bj by lia. split_and!; try apply merge_contains.
  - apply (encl_ext (m_nodes t) _ box); auto. intros j Hj. apply Bj. lia.
  - apply (encl_ext (m_nodes t) _ box); auto. intros j Hj. apply Bj. lia.
Qed.

(** One turn of the loop over the parents. *)
Lemma update_parents_step fuel k t lk rk par ps num : 0 <= k <= 2 ^ 30 ->
  links <$> m_nodes t !! Z.to_nat k = Some (lk, rk, par, ps, num) ->
  update_parents (S fuel) k t = update_parents fuel par (modify k (set_aabb (merge (aabb (node t lk)) (aabb (node t rk)))) t).
Proof.
  intros Hk L. destruct (m_nodes t !! Z.to_nat k) as [n|] eqn:E; [|discriminate]. injection L as <- <- <- <- <-.
  cbn [update_parents]. destruct (Z.eqb_spec k INVALID_NODE); [unfold INVALID_NODE in *; lia|]. simpl negb. cbv iota.
  assert (node t k = n) as -> by (unfold node; now apply zget_lookup). reflexivity.
Qed.

Lemma update_path p b T : forall k par t box j, 0 <= k -> m_num_nodes t <= 2 ^ 30 -> rep (m_nodes t) k par T -> NoDup (flat T) ->
  leaf_at k T p j -> encl (m_nodes t) box k T ->
  let t1 := modify j (set_aabb (merge (aabb (node t j)) b)) t in
  exists t' d, (forall fuel, update_parents (d + fuel) (parent (node t1 j)) t1 = update_parents fuel par t') /\ Z.of_nat d < tree_size T /\
    encl (m_nodes t') (upd box p b) k T /\ alike t t' /\
    (forall i, 0 <= i -> ~ k <= i < k + tree_size T -> box_at (m_nodes t') i = box_at (m_nodes t) i).
Proof.
  induction T as [ps|l IHl r IHr]; intros k par t box j Hk Sm R ND L E t1.
  - destruct L as [Hp ->]. simpl in R. destruct (m_nodes t !! Z.to_nat k) as [n|] eqn:En; [|discriminate]. injection R as R1 R2 R3 R4 R5.
    exists t1, 0%nat. unfold t1. rewrite (node_modify_eq _ _ _ n En). split_and!; [intros fuel; simpl; rewrite R3; reflexivity|simpl; lia| |apply alike_aabb|].
    + assert (node t k = n) as -> by (unfold node; now apply zget_lookup).
      intros x Hx. change (box_at (m_nodes (modify k ?f t)) k) with (aabb (node (modify k f t) k)). rewrite (node_modify_eq _ _ _ n En). simpl.
      destruct (Z.eq_dec x p) as [->|D]; [rewrite upd_eq; apply merge_contains|]. rewrite upd_ne by assumption.
      eapply contains_trans; [apply (proj1 (merge_contains _ _))|]. specialize (E x Hx). unfold box_at in E. now rewrite (zget_lookup _ _ _ _ En) in E.
    + intros i Hi Ni. change (aabb (node (modify k (set_aabb (merge (aabb (node t k)) b)) t) i) = aabb (node t i)).
      simpl in Ni. rewrite node_modify_ne by lia. reflexivity.
  - pose proof (tree_size_pos l). pose proof (tree_size_pos r). pose proof (rep_bounds _ _ _ _ Hk R) as Bd. simpl in Bd.
    destruct R as ((ps & num & Rk) & Rl & Rr), E as (_ & _ & El & Er). simpl in ND. apply NoDup_app in ND as (NDl & Dis & NDr).
    unfold m_num_nodes in Sm.
    assert (Sub : exists t2 d, (forall fuel, update_parents (d + fuel) (parent (node t1 j)) t1 = update_parents fuel k t2) /\
      Z.of_nat d < tree_size l + tree_size r /\ encl (m_nodes t2) (upd box p b) (k + 1) l /\ encl (m_nodes t2) (upd box p b) (k + 1 + tree_size l) r /\
      alike t t2 /\ (forall i, 0 <= i -> ~ k + 1 <= i < k + 1 + tree_size l + tree_size r -> box_at (m_nodes t2) i = box_at (m_nodes t) i)).
    { destruct L as [L|L].
      - destruct (IHl (k + 1) k t box j) as (t2 & d & U & Dd & E2 & Al & Fr); auto; [lia|].
        exists t2, d. split_and!; auto; [lia| |intros i Hi Ni; apply Fr; lia].
        apply (encl_ext (m_nodes t) _ box); auto; [intros i Hi; apply Fr; lia|]. intros x Hx. apply upd_ne. intros ->.
        apply (Dis p); [apply (leaf_at_flat l (k + 1)); eauto|assumption].
      - destruct (IHr (k + 1 + tree_size l) k t box j) as (t2 & d & U & Dd & E2 & Al & Fr); auto; [lia|].
        exists t2, d. split_and!; auto; [lia| |intros i Hi Ni; apply Fr; lia].
        apply (encl_ext (m_nodes t) _ box); auto; [intros i Hi; apply Fr; lia|]. intros x Hx. apply upd_ne. intros ->.
        apply (Dis p); [assumption|apply (leaf_at_flat r (k + 1 + tree_size l)); eauto]. }
    destruct Sub as (t2 & d & U & Dd & El2 & Er2 & Al & Fr).
    eexists _, (Datatypes.S d). split_and!; [intros fuel|simpl; lia|apply encl_join; eauto| |].
    + replace (Datatypes.S d + fuel)%nat with (d + Datatypes.S fuel)%nat by lia. rewrite U.
      eapply update_parents_step; [lia|]. rewrite (al_links _ _ Al). exact Rk.
    + unfold m_num_nodes. rewrite (al_len _ _ Al). lia.
    + etransitivity; [exact Al|apply alike_aabb].
    + intros i Hi Ni. simpl in Ni.
      change (aabb (node (modify k ?f t2) i)) with (aabb (node (modify k f t2) i)).
      transitivity (box_at (m_nodes t2) i); [|apply Fr; lia]. unfold box_at. f_equal. apply node_modify_ne; lia.
Qed.

(** A box that already fits needs no change. *)
Lemma encl_fits nodes box p b T : forall k j, NoDup (flat T) -> leaf_at k T p j -> encl nodes box k T -> contains (box_at nodes j) b = true ->
  encl nodes (upd box p b) k T.
Proof.
  induction T as [ps|l IHl r IHr]; intros k j ND L E C; simpl in *.
  - destruct L as [_ ->]. intros x Hx. destruct (Z.eq_dec x p) as [->|D]; [now rewrite upd_eq|rewrite upd_ne by assumption; auto].
  - apply NoDup_app in ND as (NDl & Dis & NDr). destruct E as (E1 & E2 & El & Er). split_and!; auto; destruct L as [L|L]; eauto;
      (apply (encl_ext nodes _ box); auto; intros x Hx; apply upd_ne; intros ->).
    + apply (Dis p); [assumption|]. apply (leaf_at_flat r (k + 1 + tree_size l)). eauto.
    + apply (Dis p); [|assumption]. apply (leaf_at_flat l (k + 1)). eauto.
Qed.

Lemma update_ok N box t i b : tree_ok N box t -> 0 <= i < N -> exists t', update i b t = Some t' /\ tree_ok N (upd box i b) t' /\ m_num_nodes t' = m_num_nodes t.
Proof.
  intros [Sm (T & R & S & E & Sz & P & M)] Hi.
  assert (In : i ∈ flat T) by (rewrite P; apply elem_of_seqZ; lia). apply (leaf_at_flat T 0) in In as [j L].
  assert (ND : NoDup (flat T)) by (rewrite P; apply NoDup_seqZ).
  unfold update. rewrite (zget_lookup _ _ _ _ (M i j L)).
  destruct (contains (aabb (node t j)) b) eqn:C; simpl negb; cbv iota.
  - exists t. split_and!; auto. split; [assumption|]. exists T. split_and!; auto. now apply (encl_fits _ _ _ _ _ 0 j).
  - destruct (update_path i b T 0 INVALID_NODE t box j ltac:(lia) Sm R ND L E) as (t' & d & U & Dd & E' & Al & _).
    exists t'. split_and!; [| |unfold m_num_nodes; now rewrite (al_len _ _ Al)].
    + rewrite modify_length. unfold m_num_nodes in *.
      replace (Datatypes.S (length (m_nodes t))) with (d + Datatypes.S (length (m_nodes t) - d))%nat by lia. rewrite U. reflexivity.
    + split; [unfold m_num_nodes; now rewrite (al_len _ _ Al)|]. exists T. split_and!; auto.
      * apply (rep_ext (m_nodes t)); auto; [lia|]. intros x _. apply (al_links _ _ Al).
      * apply (skips_ext (m_nodes t)); auto; [lia|]. intros x _. apply (al_skip _ _ Al).
      * unfold m_num_nodes. now rewrite (al_len _ _ Al).
      * intros p x Lx. rewrite (al_map _ _ Al). now apply M.
Qed.
