(* ===== verification/AABBTreeBuild.v ===== *)
(** Building the bounding volume hierarchy: [buildNode] lays the tree out in
    pre-order and encloses every particle, [updateSkip] records the subtree
    sizes; and the properties of the tree. *)

From Stdlib Require Import ZArith Lia QArith.
From stdpp Require Import base list list_numbers option sorting.
From S2P Require Import Prelude HOOMDMath AABBTree AABBTreeProps.
Local Open Scope Z_scope.

(** * The arrays of the build *)

Lemma zset_middle {A} (a : list A) y b x : zset (a ++ y :: b) (Z.of_nat (length a)) x = a ++ x :: b.
Proof. unfold zset. rewrite Nat2Z.id. induction a as [|z a IH]; [reflexivity|]. simpl. now rewrite IH. Qed.

Lemma item_at_middle pre x post i : i = Z.of_nat (length pre) -> item_at (pre ++ x :: post) i = x.
Proof. intros ->. unfold item_at. apply zget_lookup. rewrite Nat2Z.id. now apply list_lookup_middle. Qed.

Lemma copy_to_spec l : forall a mid b, length mid = length l -> copy_to (a ++ mid ++ b) (Z.of_nat (length a)) l = a ++ l ++ b.
Proof.
  induction l as [|x l IH]; intros a mid b E; [now apply nil_length_inv in E as ->|].
  destruct mid as [|y mid]; [discriminate|]. simpl. rewrite zset_middle.
  replace (Z.of_nat (length a) + 1) with (Z.of_nat (length (a ++ [x]))) by (rewrite length_app; simpl; lia).
  replace (a ++ x :: mid ++ b) with ((a ++ [x]) ++ mid ++ b) by (now rewrite <- app_assoc).
  rewrite IH by (simpl in E; lia). now rewrite <- app_assoc.
Qed.

Section partition.
Variables (f : AABB -> bool) (pre post : list item).
Abbreviation lefts := (List.filter (fun x : item => f x.1)).
Abbreviation rights_of := (List.filter (fun x : item => negb (f x.1))).

Lemma partition_loop_spec rest : forall done mid rights,
  exists mid', length mid' = (length mid + length (rights_of rest))%nat /\
  partition_loop f (Z.of_nat (length pre)) (Z.of_nat (length done + length mid)) (length rest) (pre ++ done ++ mid ++ rest ++ post)
    (Z.of_nat (length done)) rights =
  (pre ++ (done ++ lefts rest) ++ mid' ++ post, Z.of_nat (length done + length (lefts rest)), rights ++ rights_of rest).
Proof.
  induction rest as [|x rest IH]; intros done mid rights.
  { exists mid. simpl. rewrite !app_nil_r, !Nat.add_0_r. split; reflexivity. }
  cbn [partition_loop length List.filter]. rewrite <- app_comm_cons.
  assert (Ex : item_at (pre ++ done ++ mid ++ x :: rest ++ post) (Z.of_nat (length pre) + Z.of_nat (length done + length mid)) = x).
  { rewrite !app_assoc. apply item_at_middle. rewrite !length_app. lia. }
  rewrite Ex. destruct (f x.1) eqn:F; simpl negb; cbv iota.
  - destruct mid as [|m mid].
    + destruct (IH (done ++ [x]) [] rights) as (mid' & L & E). exists mid'. split; [exact L|]. simpl length in *.
      rewrite Nat.add_0_r, Z.eqb_refl. simpl negb. cbv iota.
      replace (Z.of_nat (length done) + 1) with (Z.of_nat (length (done ++ [x]))) by (rewrite length_app; simpl; lia).
      rewrite Nat.add_0_r in E. change ([] ++ x :: rest ++ post) with ([x] ++ [] ++ rest ++ post). rewrite (app_assoc done [x]), E.
      rewrite length_app. simpl. rewrite <- !app_assoc. simpl. do 3 f_equal. lia.
    + destruct (IH (done ++ [x]) (mid ++ [x]) rights) as (mid' & L & E). exists mid'. split; [rewrite L, length_app; simpl; lia|].
      destruct (Z.eqb_spec (Z.of_nat (length done)) (Z.of_nat (length done + length (m :: mid)))); [simpl in *; lia|]. simpl negb. cbv iota.
      replace (Z.of_nat (length pre) + Z.of_nat (length done)) with (Z.of_nat (length (pre ++ done))) by (rewrite length_app; lia).
      replace (pre ++ done ++ (m :: mid) ++ x :: rest ++ post) with ((pre ++ done) ++ m :: (mid ++ x :: rest ++ post))
        by (rewrite <- !app_assoc; reflexivity).
      rewrite zset_middle.
      replace (Z.of_nat (length done + length (m :: mid)) + 1) with (Z.of_nat (length (done ++ [x]) + length (mid ++ [x]))) by (rewrite !length_app; simpl; lia).
      replace (Z.of_nat (length done) + 1) with (Z.of_nat (length (done ++ [x]))) by (rewrite length_app; simpl; lia).
      replace ((pre ++ done) ++ x :: mid ++ x :: rest ++ post) with (pre ++ (done ++ [x]) ++ (mid ++ [x]) ++ rest ++ post)
        by (rewrite <- !app_assoc; reflexivity).
      rewrite E. rewrite length_app. simpl. rewrite <- !app_assoc. simpl. do 3 f_equal. lia.
  - destruct (IH done (mid ++ [x]) (rights ++ [x])) as (mid' & L & E). exists mid'. split; [rewrite L, length_app; simpl; lia|].
    replace (Z.of_nat (length done + length mid) + 1) with (Z.of_nat (length done + length (mid ++ [x]))) by (rewrite length_app; simpl; lia).
    replace (mid ++ x :: rest ++ post) with ((mid ++ [x]) ++ rest ++ post) by (now rewrite <- app_assoc).
    rewrite E. now rewrite <- (app_assoc rights).
Qed.

Lemma lefts_rights_perm l : lefts l ++ rights_of l ≡ₚ l.
Proof.
  induction l as [|x l IH]; [reflexivity|]. simpl. destruct (f x.1); simpl; [now rewrite IH|]. rewrite <- Permutation_middle. now rewrite IH.
Qed.

End partition.

Lemma partition_spec b pre seg post :
  exists seg1 n, partition b (Z.of_nat (length pre)) (Z.of_nat (length seg)) (pre ++ seg ++ post) = (pre ++ seg1 ++ post, Z.of_nat n) /\
    seg1 ≡ₚ seg /\ (n <= length seg)%nat.
Proof.
  unfold partition. destruct (Z.of_nat (length seg) =? 2); [exists seg, 0%nat; split_and!; auto; lia|].
  destruct (partition_loop_spec (on_left b) pre post seg [] [] []) as (mid & L & E). simpl in L, E. change (Z.of_nat 0) with 0 in E. rewrite Nat2Z.id, E.
  pose proof (lefts_rights_perm (on_left b) seg) as P.
  eexists (_ ++ _), (length (List.filter (fun x : item => on_left b x.1) seg)). split_and!; [|exact P|rewrite <- (Permutation_length P), length_app; lia].
  f_equal. rewrite <- Nat2Z.inj_add, <- length_app.
  rewrite (app_assoc pre), copy_to_spec by assumption. now rewrite <- !app_assoc.
Qed.

(** * Boxes of ranges *)

Lemma std_min_least a b c : (c <= a -> c <= b -> c <= std_min a b)%Q.
Proof. unfold std_min. destruct (lt_b b a); auto. Qed.

Lemma std_max_least a b c : (a <= c -> b <= c -> std_max a b <= c)%Q.
Proof. unfold std_max. destruct (lt_b a b); auto. Qed.

Lemma merge_least a b c : contains c a = true -> contains c b = true -> contains c (merge a b) = true.
Proof.
  rewrite !contains_spec. simpl. intros ((A1&A2)&(A3&A4)&(A5&A6)) ((B1&B2)&(B3&B4)&(B5&B6)).
  repeat split; solve [apply std_min_least; assumption | apply std_max_least; assumption].
Qed.

Lemma merge_range_contains items start count : forall i, 0 <= i <= Z.of_nat count ->
  contains (merge_range items start count) (item_at items (start + i)).1 = true.
Proof.
  induction count as [|count IH]; intros i Hi; cbn [merge_range].
  - replace i with 0 by lia. rewrite Z.add_0_r. apply contains_refl.
  - destruct (Z.eq_dec i (Z.of_nat (S count))) as [->|D]; [apply merge_contains|].
    eapply contains_trans; [apply (proj1 (merge_contains _ _))|]. apply IH. lia.
Qed.

Lemma merge_range_least items start count c : (forall i, 0 <= i <= Z.of_nat count -> contains c (item_at items (start + i)).1 = true) ->
  contains c (merge_range items start count) = true.
Proof.
  induction count as [|count IH]; intros H; cbn [merge_range].
  - specialize (H 0 ltac:(lia)). now rewrite Z.add_0_r in H.
  - apply merge_least; [apply IH; intros i Hi; apply H; lia|apply H; lia].
Qed.

(** The merge of a non-empty segment is its least enclosing box. *)
Lemma merge_segment pre seg post (b := merge_range (pre ++ seg ++ post) (Z.of_nat (length pre)) (Z.to_nat (Z.of_nat (length seg) - 1))) :
  seg <> [] -> (forall x, x ∈ seg -> contains b x.1 = true) /\
  (forall c, (forall x, x ∈ seg -> contains c x.1 = true) -> contains c b = true).
Proof.
  intros NE. assert (Ln : (0 < length seg)%nat) by (destruct seg; [contradiction|simpl; lia]).
  assert (At : forall i x, seg !! i = Some x -> item_at (pre ++ seg ++ post) (Z.of_nat (length pre) + Z.of_nat i) = x).
  { intros i x E. unfold item_at. apply zget_lookup. rewrite lookup_app_r by lia.
    replace (Z.to_nat _ - length pre)%nat with i by lia. now apply lookup_app_l_Some. }
  split.
  - intros x [i E]%list_elem_of_lookup_1. pose proof (lookup_lt_Some _ _ _ E). rewrite <- (At i x E). apply merge_range_contains. lia.
  - intros c H. apply merge_range_least. intros i Hi. destruct (lookup_lt_is_Some_2 seg (Z.to_nat i) ltac:(lia)) as [x E].
    replace i with (Z.of_nat (Z.to_nat i)) by lia. rewrite (At _ x E). apply H. eapply list_elem_of_lookup_2. exact E.
Qed.

Lemma leaf_items_spec pre seg post : leaf_items (pre ++ seg ++ post) (Z.of_nat (length pre)) (Z.of_nat (length seg)) = seg.
Proof.
  apply list_eq. intros i. unfold leaf_items. rewrite list_lookup_fmap. destruct (decide (i < length seg)%nat) as [H|H].
  - rewrite lookup_seqZ_lt by lia. simpl. destruct (lookup_lt_is_Some_2 seg i H) as [x E]. rewrite E. f_equal. unfold item_at. apply zget_lookup.
    rewrite lookup_app_r by lia. replace (Z.to_nat _ - length pre)%nat with i by lia. now apply lookup_app_l_Some.
  - rewrite lookup_seqZ_ge by lia. symmetry. apply lookup_ge_None. lia.
Qed.

(** * Memory *)

Definition cap_ok (t : AABBTree) : Prop := m_num_nodes t <= m_node_capacity t <= 2 ^ 31.

Lemma allocateNode_spec t : cap_ok t -> m_num_nodes t < 2 ^ 30 ->
  exists c, allocateNode t = Some (m_num_nodes t, mkTree (m_nodes t ++ [new_node]) c (m_root t) (m_mapping t)) /\
    m_num_nodes t + 1 <= c <= 2 ^ 31.
Proof.
  unfold cap_ok, allocateNode. intros C N. assert (0 <= m_num_nodes t) by (unfold m_num_nodes; lia).
  destruct (Z.geb_spec (m_num_nodes t) (m_node_capacity t)).
  - rewrite u32_small by (unfold is_u32; lia). destruct (Z.eqb_spec (m_node_capacity t * 2) 0); eexists;
      (rewrite (proj2 (Z.ltb_lt _ _)) by lia; split; [reflexivity|lia]).
  - eexists. rewrite (proj2 (Z.ltb_lt _ _)) by lia. split; [reflexivity|lia].
Qed.

Lemma map_particles_spec ps k : forall m, (forall p, p ∈ ps -> 0 <= p < Z.of_nat (length m)) ->
  length (map_particles ps k m) = length m /\
  forall q, 0 <= q -> map_particles ps k m !! Z.to_nat q = if decide (q ∈ ps) then Some k else m !! Z.to_nat q.
Proof.
  induction ps as [|p ps IH]; intros m B; [split; auto|]. simpl. pose proof (B p ltac:(left)) as Bp.
  destruct (IH (zset m p k)) as [L H]; [intros q Hq; rewrite length_zset; apply B; now right|].
  rewrite length_zset in L. split; [assumption|]. intros q Hq. rewrite H by assumption.
  destruct (decide (q ∈ ps)) as [I|I]; [rewrite decide_True by (now right); reflexivity|].
  destruct (Z.eq_dec q p) as [->|D].
  - rewrite decide_True by left. apply lookup_zset_eq. lia.
  - rewrite decide_False by (rewrite elem_of_cons; tauto). apply lookup_zset_ne. lia.
Qed.

(** * Building a node *)

(** The effect of building a node below [p] for the entries [seg], which end up
    as [seg']. *)
Record built (box : Z -> AABB) (p : Z) (t : AABBTree) (seg : list item) (t' : AABBTree) (seg' : list item) (T : shape) : Prop := {
  bu_perm : seg' ≡ₚ seg;
  bu_flat : flat T = snd <$> seg';
  bu_cap : cap_ok t';
  bu_num : m_num_nodes t' = m_num_nodes t + tree_size T;
  bu_size : tree_size T + 1 <= 2 * Z.of_nat (length seg);
  bu_rep : rep (m_nodes t') (m_num_nodes t) p T;
  bu_encl : encl (m_nodes t') box (m_num_nodes t) T;
  bu_least : forall c, (forall x, x ∈ seg -> contains c x.1 = true) -> contains c (box_at (m_nodes t') (m_num_nodes t)) = true;
  bu_skip : forall i n, (length (m_nodes t) <= i)%nat -> m_nodes t' !! i = Some n -> skip n = 0;
  bu_prefix : forall i, (i < length (m_nodes t))%nat -> m_nodes t' !! i = m_nodes t !! i;
  bu_map_len : length (m_mapping t') = length (m_mapping t);
  bu_map : forall q j, leaf_at (m_num_nodes t) T q j -> m_mapping t' !! Z.to_nat q = Some j;
  bu_map_other : forall q, 0 <= q -> q ∉ flat T -> m_mapping t' !! Z.to_nat q = m_mapping t !! Z.to_nat q
}.

Arguments bu_perm {_ _ _ _ _ _ _} _.
Arguments bu_flat {_ _ _ _ _ _ _} _.
Arguments bu_cap {_ _ _ _ _ _ _} _.
Arguments bu_num {_ _ _ _ _ _ _} _.
Arguments bu_size {_ _ _ _ _ _ _} _.
Arguments bu_rep {_ _ _ _ _ _ _} _.
Arguments bu_encl {_ _ _ _ _ _ _} _.
Arguments bu_least {_ _ _ _ _ _ _} _.
Arguments bu_skip {_ _ _ _ _ _ _} _.
Arguments bu_prefix {_ _ _ _ _ _ _} _.
Arguments bu_map_len {_ _ _ _ _ _ _} _.
Arguments bu_map {_ _ _ _ _ _ _} _.
Arguments bu_map_other {_ _ _ _ _ _ _} _.

(** The entries carry the boxes of their particles, which are all in the
    mapping. *)
Definition entries (box : Z -> AABB) (n : nat) (seg : list item) : Prop :=
  NoDup (snd <$> seg) /\ forall x, x ∈ seg -> x.1 = box x.2 /\ 0 <= x.2 < Z.of_nat n.

Lemma entries_perm box n seg seg' : seg' ≡ₚ seg -> entries box n seg -> entries box n seg'.
Proof. intros P [N H]. split; [now rewrite P|]. intros x Hx. apply H. now rewrite <- P. Qed.

Lemma built_leaf box p t pre seg post c b : seg <> [] -> entries box (length (m_mapping t)) seg -> m_num_nodes t + 1 <= c <= 2 ^ 31 ->
  b = merge_range (pre ++ seg ++ post) (Z.of_nat (length pre)) (Z.to_nat (Z.of_nat (length seg) - 1)) ->
  built box p t seg (make_leaf (m_num_nodes t) b p seg (mkTree (m_nodes t ++ [new_node]) c (m_root t) (m_mapping t))) seg (SLeaf (snd <$> seg)).
Proof.
  intros NE [ND En] C ->. destruct (merge_segment pre seg post NE) as [Cn Le]. set (b := merge_range _ _ _) in *.
  set (t0 := mkTree _ c _ _). set (k := m_num_nodes t).
  assert (Ln : (0 < length seg)%nat) by (destruct seg; [contradiction|simpl; lia]).
  assert (E0 : m_nodes t0 !! Z.to_nat k = Some new_node) by (unfold t0, k, m_num_nodes; simpl; rewrite Nat2Z.id; now apply list_lookup_middle).
  set (f := set_leaf b p (snd <$> seg) ((fun x => aabb_tag x.1) <$> seg) (Z.of_nat (length seg))).
  assert (Nd : m_nodes (make_leaf k b p seg t0) = m_nodes (modify k f t0)) by reflexivity.
  assert (Bk : box_at (m_nodes (modify k f t0)) k = b) by (change (aabb (node (modify k f t0) k) = b); now rewrite (node_modify_eq _ _ _ _ E0)).
  destruct (map_particles_spec (snd <$> seg) k (m_mapping t)) as [ML MH].
  { intros q (x & -> & Hx)%list_elem_of_fmap. now apply En. }
  split; rewrite ?Nd; auto.
  - unfold cap_ok, m_num_nodes. rewrite Nd, modify_length. simpl. rewrite length_app. simpl. unfold m_num_nodes in C. lia.
  - unfold m_num_nodes. rewrite Nd, modify_length. simpl. rewrite length_app. simpl. lia.
  - simpl tree_size. lia.
  - cbn [rep]. fold k. rewrite modify_lookup, decide_True, E0 by reflexivity. simpl. now rewrite length_fmap.
  - intros q (x & -> & Hx)%list_elem_of_fmap. fold k. rewrite Bk, <- (proj1 (En x Hx)). auto.
  - intros c' H. fold k. rewrite Bk. auto.
  - intros i n Hi. rewrite modify_lookup. simpl. destruct (decide _) as [->|D].
    + rewrite <- (Nat2Z.id (length (m_nodes t))) in Hi. fold (m_num_nodes t) in Hi. fold k. change (m_nodes t ++ [new_node]) with (m_nodes t0).
      rewrite E0. now intros [= <-].
    + intros E. apply lookup_lt_Some in E. rewrite length_app in E. simpl in E. unfold k, m_num_nodes in D. lia.
  - intros i Hi. rewrite modify_lookup, decide_False by (unfold k, m_num_nodes; lia). simpl. now rewrite lookup_app_l.
  - intros q j [Hq ->]. change (m_mapping (make_leaf k b p seg t0)) with (map_particles (snd <$> seg) k (m_mapping t)).
    rewrite MH, decide_True; auto. apply list_elem_of_fmap in Hq as (x & -> & Hx). now apply En.
  - intros q Hq Nq. change (m_mapping (make_leaf k b p seg t0)) with (map_particles (snd <$> seg) k (m_mapping t)).
    now rewrite MH, decide_False.
Qed.

(** Joining the two halves built below a freshly allocated node. *)
Section join.
Variables (box : Z -> AABB) (p : Z) (t : AABBTree) (seg1 seg2 : list item) (b : AABB) (c : Z).
Variables (t1 t2 : AABBTree) (s1 s2 : list item) (l r : shape).
Let k := m_num_nodes t.
Let t0 := mkTree (m_nodes t ++ [new_node]) c (m_root t) (m_mapping t).
Hypothesis En : entries box (length (m_mapping t)) (seg1 ++ seg2).
Hypothesis B1 : built box k t0 seg1 t1 s1 l.
Hypothesis B2 : built box k t1 seg2 t2 s2 r.
Hypothesis Cn : forall x, x ∈ seg1 ++ seg2 -> contains b x.1 = true.
Hypothesis Le : forall c, (forall x, x ∈ seg1 ++ seg2 -> contains c x.1 = true) -> contains c b = true.
Let f := set_internal b p (m_num_nodes t0) (m_num_nodes t1).
Let t3 := modify k f t2.

Lemma join_counts : 0 <= k /\ m_num_nodes t0 = k + 1 /\ m_num_nodes t1 = k + 1 + tree_size l /\
  m_num_nodes t3 = k + 1 + tree_size l + tree_size r /\ length (m_nodes t0) = Z.to_nat (k + 1) /\
  length (m_nodes t1) = Z.to_nat (k + 1 + tree_size l) /\ length (m_nodes t) = Z.to_nat k.
Proof.
  pose proof (tree_size_pos l). pose proof (tree_size_pos r). pose proof (bu_num B1) as N1. pose proof (bu_num B2) as N2.
  assert (L0 : length (m_nodes t0) = S (length (m_nodes t))) by (simpl; rewrite length_app; simpl; lia).
  assert (L3 : length (m_nodes t3) = length (m_nodes t2)) by apply modify_length.
  unfold k, m_num_nodes in *. lia.
Qed.

Lemma join_root : m_nodes t2 !! Z.to_nat k = Some new_node.
Proof.
  destruct join_counts as (K & _ & _ & _ & L0 & L1 & L). pose proof (tree_size_pos l).
  rewrite (bu_prefix B2), (bu_prefix B1) by lia. simpl. rewrite <- L. now apply list_lookup_middle.
Qed.

Lemma join_other i : i <> Z.to_nat k -> m_nodes t3 !! i = m_nodes t2 !! i.
Proof. intros D. unfold t3. now rewrite modify_lookup, decide_False. Qed.

Lemma join_left i : (Z.to_nat k < i < Z.to_nat (k + 1 + tree_size l))%nat -> m_nodes t3 !! i = m_nodes t1 !! i.
Proof. intros H. destruct join_counts as (_ & _ & _ & _ & _ & L1 & _). rewrite join_other by lia. apply (bu_prefix B2). lia. Qed.

Lemma box_at_lookup nodes nodes' j : nodes' !! Z.to_nat j = nodes !! Z.to_nat j -> box_at nodes' j = box_at nodes j.
Proof. intros E. unfold box_at, zget. now rewrite !nth_lookup, E. Qed.

Lemma join_disjoint q : q ∈ flat l -> ~ q ∈ flat r.
Proof.
  destruct En as [ND _]. rewrite (bu_flat B1), (bu_flat B2), (bu_perm B1), (bu_perm B2).
  rewrite fmap_app in ND. apply NoDup_app in ND. apply ND.
Qed.

Lemma join_box : box_at (m_nodes t3) k = b.
Proof. change (aabb (node t3 k) = b). unfold t3. now rewrite (node_modify_eq _ _ _ _ join_root). Qed.

Lemma join_rep : rep (m_nodes t3) k p (SNode l r).
Proof.
  destruct join_counts as (K & N0 & N1 & _ & _ & _ & _). pose proof (tree_size_pos l). pose proof (tree_size_pos r).
  pose proof (bu_rep B1) as Rl. pose proof (bu_rep B2) as Rr. rewrite N0 in Rl. rewrite N1 in Rr. cbn [rep]. split_and!.
  - unfold t3. rewrite modify_lookup, decide_True, join_root by reflexivity. unfold f. rewrite N0, N1. eexists _, _. reflexivity.
  - apply (rep_ext (m_nodes t1)); auto; [lia|]. intros j Hj. now rewrite join_left by lia.
  - apply (rep_ext (m_nodes t2)); auto; [lia|]. intros j Hj. now rewrite join_other by lia.
Qed.

Lemma join_encl : encl (m_nodes t3) box k (SNode l r).
Proof.
  destruct join_counts as (K & N0 & N1 & _ & _ & _ & _). pose proof (tree_size_pos l). pose proof (tree_size_pos r).
  assert (Bl : forall j, k < j < k + 1 + tree_size l -> box_at (m_nodes t3) j = box_at (m_nodes t1) j)
    by (intros j Hj; apply box_at_lookup, join_left; lia).
  assert (Br : forall j, k < j -> box_at (m_nodes t3) j = box_at (m_nodes t2) j)
    by (intros j Hj; apply box_at_lookup, join_other; lia).
  pose proof (bu_encl B1) as El. pose proof (bu_encl B2) as Er. rewrite N0 in El. rewrite N1 in Er.
  cbn [encl]. rewrite join_box, Bl, (Br (k + 1 + tree_size l)) by lia. split_and!.
  - rewrite <- N0. apply (bu_least B1). intros x Hx. apply Cn, elem_of_app. auto.
  - rewrite <- N1. apply (bu_least B2). intros x Hx. apply Cn, elem_of_app. auto.
  - apply (encl_ext (m_nodes t1) _ box); auto. intros j Hj. apply Bl. lia.
  - apply (encl_ext (m_nodes t2) _ box); auto. intros j Hj. apply Br. lia.
Qed.

Lemma join_skip i n : (length (m_nodes t) <= i)%nat -> m_nodes t3 !! i = Some n -> skip n = 0.
Proof.
  destruct join_counts as (K & _ & _ & _ & L0 & L1 & L). intros Hi E. destruct (decide (i = Z.to_nat k)) as [->|D].
  - unfold t3 in E. rewrite modify_lookup, decide_True, join_root in E by reflexivity. injection E as <-. reflexivity.
  - rewrite join_other in E by assumption. destruct (decide (i < length (m_nodes t1))%nat).
    + rewrite (bu_prefix B2) in E by assumption. apply (bu_skip B1 i n); [lia|assumption].
    + apply (bu_skip B2 i n); [lia|assumption].
Qed.

Lemma join_map q j : leaf_at k (SNode l r) q j -> m_mapping t3 !! Z.to_nat q = Some j.
Proof.
  destruct join_counts as (_ & N0 & N1 & _ & _ & _ & _). destruct En as [_ Eb].
  change (m_mapping t3) with (m_mapping t2). cbn [leaf_at]. rewrite <- N1, <- N0. intros [H|H]; [|now apply (bu_map B2)].
  assert (Hl : q ∈ flat l) by (apply (leaf_at_flat l (m_num_nodes t0)); eauto).
  rewrite (bu_map_other B2); [now apply (bu_map B1)| |now apply join_disjoint].
  rewrite (bu_flat B1), (bu_perm B1) in Hl. apply list_elem_of_fmap in Hl as (x & -> & Hx). apply Eb, elem_of_app. auto.
Qed.

Lemma built_node : built box p t (seg1 ++ seg2) t3 (s1 ++ s2) (SNode l r).
Proof.
  destruct join_counts as (K & N0 & N1 & N3 & L0 & L1 & L). pose proof (tree_size_pos l).
  split; fold k.
  - now rewrite (bu_perm B1), (bu_perm B2).
  - simpl. now rewrite (bu_flat B1), (bu_flat B2), fmap_app.
  - pose proof (bu_cap B2) as C. unfold cap_ok in *. replace (m_num_nodes t3) with (m_num_nodes t2); [exact C|].
    unfold m_num_nodes, t3. now rewrite modify_length.
  - simpl. lia.
  - pose proof (bu_size B1). pose proof (bu_size B2). simpl. rewrite length_app. lia.
  - exact join_rep.
  - exact join_encl.
  - intros c' H'. rewrite join_box. auto.
  - exact join_skip.
  - intros i Hi. rewrite join_other, (bu_prefix B2), (bu_prefix B1) by lia. simpl. now rewrite lookup_app_l.
  - change (m_mapping t3) with (m_mapping t2). now rewrite (bu_map_len B2), (bu_map_len B1).
  - exact join_map.
  - intros q Hq Nq. change (m_mapping t3) with (m_mapping t2). simpl in Nq. rewrite elem_of_app in Nq.
    rewrite (bu_map_other B2), (bu_map_other B1) by tauto. reflexivity.
Qed.

End join.

(** The split leaves both sides non-empty. *)
Definition split_point (len lip : Z) : Z :=
  let s := if lip =? len then len - 1 else lip in if s =? 0 then 1 else s.

Lemma split_point_range len lip : 2 <= len -> 0 <= lip <= len -> 0 < split_point len lip < len.
Proof.
  intros Hl Hp. unfold split_point. cbn zeta. destruct (Z.eqb_spec lip len).
  - destruct (Z.eqb_spec (len - 1) 0); lia.
  - destruct (Z.eqb_spec lip 0); lia.
Qed.

Lemma buildNode_spec box fuel : forall pre seg post p t, (0 < length seg <= fuel)%nat -> m_num_nodes t + 2 * Z.of_nat (length seg) <= 2 ^ 30 ->
  cap_ok t -> entries box (length (m_mapping t)) seg ->
  exists t' seg' T, buildNode fuel (pre ++ seg ++ post) (Z.of_nat (length pre)) (Z.of_nat (length seg)) p t =
      Some (m_num_nodes t, t', pre ++ seg' ++ post) /\ built box p t seg t' seg' T.
Proof.
  induction fuel as [|fuel IH]; intros pre seg post p t Hl Sm C En; [lia|]. cbn [buildNode].
  assert (NE : seg <> []) by (destruct seg; simpl in *; [lia|discriminate]).
  destruct (allocateNode_spec t C ltac:(lia)) as (c & -> & Hc).
  destruct (Z.leb_spec (Z.of_nat (length seg)) NODE_CAPACITY) as [Le|Gt].
  - rewrite leaf_items_spec. eexists _, seg, _. split; [reflexivity|]. now apply built_leaf with (pre := pre) (post := post).
  - unfold NODE_CAPACITY in Gt. destruct (merge_segment pre seg post NE) as [Cn Lst]. set (b := merge_range _ _ _) in *.
    destruct (partition_spec b pre seg post) as (seg1 & n & -> & P & Hn). fold (split_point (Z.of_nat (length seg)) (Z.of_nat n)).
    pose proof (split_point_range (Z.of_nat (length seg)) (Z.of_nat n) ltac:(lia) ltac:(lia)) as Hs.
    set (s := split_point _ _) in *. set (t0 := mkTree _ c _ _).
    set (a1 := take (Z.to_nat s) seg1). set (a2 := drop (Z.to_nat s) seg1). pose proof (Permutation_length P) as Lp.
    assert (Es : seg1 = a1 ++ a2) by (symmetry; apply take_drop).
    assert (La1 : Z.of_nat (length a1) = s) by (unfold a1; rewrite length_take; lia).
    assert (La2 : Z.of_nat (length a2) = Z.of_nat (length seg) - s) by (unfold a2; rewrite length_drop; lia).
    pose proof (entries_perm _ _ _ _ P En) as En1. rewrite Es in En1. pose proof En1 as [ND Eb]. rewrite fmap_app in ND.
    apply NoDup_app in ND as (ND1 & _ & ND2).
    assert (N0 : m_num_nodes t0 = m_num_nodes t + 1) by (unfold m_num_nodes, t0; simpl; rewrite length_app; simpl; lia).
    destruct (IH pre a1 (a2 ++ post) (m_num_nodes t) t0) as (t1 & s1 & Tl & E1 & B1); try lia.
    { unfold cap_ok. rewrite N0. simpl. lia. }
    { split; [assumption|]. intros x Hx. apply Eb, elem_of_app. auto. }
    rewrite Es, <- app_assoc, <- La1, E1.
    pose proof (bu_num B1) as N1. pose proof (bu_size B1) as S1. pose proof (Permutation_length (bu_perm B1)) as Ls1.
    destruct (IH (pre ++ s1) a2 post (m_num_nodes t) t1) as (t2 & s2 & Tr & E2 & B2); try lia.
    { apply (bu_cap B1). }
    { split; [assumption|]. intros x Hx. rewrite (bu_map_len B1). apply Eb, elem_of_app. auto. }
    rewrite La1, <- La2, <- La1. rewrite <- Ls1, <- Nat2Z.inj_add, <- length_app, app_assoc, E2.
    eexists _, (s1 ++ s2), (SNode Tl Tr). split; [rewrite <- !app_assoc; reflexivity|].
    assert (B : built box p t (a1 ++ a2) (modify (m_num_nodes t) (set_internal b p (m_num_nodes t0) (m_num_nodes t1)) t2) (s1 ++ s2) (SNode Tl Tr)).
    { apply (built_node box p t a1 a2 b c t1 t2 s1 s2 Tl Tr); auto; rewrite <- Es.
      - intros x Hx. apply Cn. now rewrite <- P.
      - intros c' H'. apply Lst. intros x Hx. apply H'. now rewrite P. }
    destruct B. split; auto.
    + now rewrite bu_perm0, <- Es.
    + rewrite <- Lp, Es. assumption.
    + intros c' H'. apply bu_least0. intros x Hx. apply H'. now rewrite <- P, Es.
Qed.

(** * Skips *)

Lemma updateSkip_spec T : forall k par t fuel, 0 <= k -> m_num_nodes t <= 2 ^ 30 -> rep (m_nodes t) k par T -> (Z.to_nat (tree_size T) <= fuel)%nat ->
  (forall i n, m_nodes t !! i = Some n -> k <= Z.of_nat i < k + tree_size T -> skip n = 0) ->
  exists t', updateSkip fuel k t = Some (tree_size T, t') /\ skips (m_nodes t') k T /\ length (m_nodes t') = length (m_nodes t) /\
    (forall i, links <$> m_nodes t' !! i = links <$> m_nodes t !! i) /\ (forall i, aabb <$> m_nodes t' !! i = aabb <$> m_nodes t !! i) /\
    (forall i, ~ k <= Z.of_nat i < k + tree_size T -> m_nodes t' !! i = m_nodes t !! i) /\ m_mapping t' = m_mapping t.
Proof.
  induction T as [ps|l IHl r IHr]; intros k par t fuel Hk Sm R F Z0; (destruct fuel as [|fuel]; [pose proof (tree_size_pos (SLeaf [])); simpl in *; try lia|]).
  - simpl in R. destruct (m_nodes t !! Z.to_nat k) as [n|] eqn:E; [|discriminate]. injection R as R1 R2 R3 R4 R5.
    exists t. cbn [updateSkip]. unfold isNodeLeaf, node. rewrite (zget_lookup _ _ _ _ E), R1, Z.eqb_refl. split_and!; auto.
    simpl. rewrite E. simpl. f_equal. apply (Z0 _ n E). simpl. lia.
  - pose proof (tree_size_pos l). pose proof (tree_size_pos r). lia.
  - pose proof (tree_size_pos l) as Pl. pose proof (tree_size_pos r) as Pr. pose proof (rep_bounds _ _ _ _ Hk R) as Bd. simpl in Bd, F, Z0.
    destruct R as ((ps & num & Rk) & Rl & Rr). destruct (m_nodes t !! Z.to_nat k) as [n|] eqn:E; [|discriminate]. injection Rk as R1 R2 R3 R4 R5.
    unfold m_num_nodes in Sm. cbn [updateSkip]. unfold isNodeLeaf. unfold node at 1 2 3. rewrite (zget_lookup _ _ _ _ E), R1, R2.
    destruct (Z.eqb_spec (k + 1) INVALID_NODE); [unfold INVALID_NODE in *; lia|].
    destruct (IHl (k + 1) k t fuel) as (t1 & -> & S1 & L1 & K1 & A1 & F1 & M1); auto; try lia; [intros i m Hm Hi; apply (Z0 i m Hm); lia|].
    destruct (IHr (k + 1 + tree_size l) k t1 fuel) as (t2 & -> & S2 & L2 & K2 & A2 & F2 & M2); auto; try lia.
    { unfold m_num_nodes. lia. }
    { apply (rep_ext (m_nodes t)); auto; lia. }
    { intros i m Hm Hi. rewrite F1 in Hm by lia. apply (Z0 i m Hm). lia. }
    assert (E2 : m_nodes t2 !! Z.to_nat k = Some n) by (rewrite F2, F1 by lia; exact E).
    rewrite !u32_small by (unfold is_u32; rewrite ?u32_small by (unfold is_u32; lia); lia).
    eexists. split; [f_equal; f_equal; simpl; lia|]. simpl tree_size. set (t3 := modify k _ t2).
    assert (Ne : forall i, i <> Z.to_nat k -> m_nodes t3 !! i = m_nodes t2 !! i) by (intros i D; unfold t3; now rewrite modify_lookup, decide_False).
    split_and!.
    + cbn [skips]. split_and!.
      * unfold t3. rewrite modify_lookup, decide_True, E2 by reflexivity. reflexivity.
      * apply (skips_ext (m_nodes t1)); auto; [lia|]. intros j Hj. rewrite Ne, F2 by lia. reflexivity.
      * apply (skips_ext (m_nodes t2)); auto; [lia|]. intros j Hj. rewrite Ne by lia. reflexivity.
    + unfold t3. rewrite modify_length. congruence.
    + intros i. rewrite <- K1, <- K2. unfold t3. rewrite modify_lookup. destruct (decide _); [|reflexivity]. destruct (m_nodes t2 !! i); reflexivity.
    + intros i. rewrite <- A1, <- A2. unfold t3. rewrite modify_lookup. destruct (decide _); [|reflexivity]. destruct (m_nodes t2 !! i); reflexivity.
    + intros i Hi. rewrite Ne, F2, F1 by lia. reflexivity.
    + change (m_mapping t3) with (m_mapping t2). congruence.
Qed.

(** * The tree *)

Definition box_of (aabbs : list AABB) (i : Z) : AABB := zget aabb_default aabbs i.

Lemma snd_zip_seqZ (aabbs : list AABB) : snd <$> zip aabbs (seqZ 0 (Z.of_nat (length aabbs))) = seqZ 0 (Z.of_nat (length aabbs)).
Proof. apply snd_zip. rewrite length_seqZ. lia. Qed.

Lemma buildTree_ok aabbs t0 : (0 < length aabbs)%nat -> Z.of_nat (length aabbs) <= 2 ^ 29 -> 0 <= m_node_capacity t0 <= 2 ^ 31 ->
  exists t l, buildTree aabbs t0 = Some (t, l) /\ l ≡ₚ aabbs /\ tree_ok (Z.of_nat (length aabbs)) (box_of aabbs) t /\
    m_num_nodes t < 2 * Z.of_nat (length aabbs).
Proof.
  intros Ln Sm Cap. unfold buildTree. set (N := Z.of_nat (length aabbs)) in *. set (items := zip aabbs (seqZ 0 N)).
  assert (Li : length items = length aabbs) by (unfold items; rewrite length_zip, length_seqZ; lia).
  destruct (buildNode_spec (box_of aabbs) (length aabbs) [] items [] INVALID_NODE (init N t0)) as (t1 & seg & T & E & B).
  { lia. }
  { unfold m_num_nodes, init. simpl. lia. }
  { unfold cap_ok, m_num_nodes, init. simpl. lia. }
  { split; [unfold items, N; rewrite snd_zip_seqZ; apply NoDup_seqZ|]. intros [b i] Hx. apply list_elem_of_lookup_1 in Hx as [j Hj].
    unfold items in Hj. apply lookup_zip_with_Some in Hj as (b' & i' & [= -> ->] & Hb & Hi). apply lookup_seqZ in Hi as [-> Hi].
    simpl. rewrite length_replicate. split; [|lia]. unfold box_of. symmetry. apply zget_lookup. now rewrite Z.add_0_l, Nat2Z.id. }
  rewrite app_nil_r, Li in E. simpl app in E. change (Z.of_nat (length [])) with 0 in E. fold N in E. rewrite E.
  change (m_num_nodes (init N t0)) with 0 in *. pose proof (bu_num B) as Nn. change (m_num_nodes (init N t0)) with 0 in Nn.
  pose proof (bu_size B) as Sz. rewrite Li in Sz. pose proof (bu_rep B) as R. change (m_num_nodes (init N t0)) with 0 in R. pose proof (tree_size_pos T).
  destruct (updateSkip_spec T 0 INVALID_NODE (set_root 0 t1) (length (m_nodes t1))) as (t & -> & S & L & K & A & _ & M); auto.
  { lia. }
  { change (m_num_nodes t1 <= 2 ^ 30). lia. }
  { unfold m_num_nodes in Nn. lia. }
  { intros i n Hn _. apply (bu_skip B i n); [simpl; lia|exact Hn]. }
  change (m_nodes (set_root 0 t1)) with (m_nodes t1) in *.
  assert (Nt : m_num_nodes t = tree_size T) by (unfold m_num_nodes in *; lia).
  eexists t, _. split; [reflexivity|]. split_and!; [| |lia].
  - rewrite app_nil_r, (bu_perm B). unfold items. rewrite fst_zip by (rewrite length_seqZ; lia). reflexivity.
  - split; [lia|]. exists T. split_and!; auto.
    + apply (rep_ext (m_nodes t1)); auto. lia.
    + apply (encl_ext (m_nodes t1) _ (box_of aabbs)); auto; [|exact (bu_encl B)]. intros j _. unfold box_at, zget. rewrite !nth_lookup.
      specialize (A (Z.to_nat j)). destruct (m_nodes t !! Z.to_nat j), (m_nodes t1 !! Z.to_nat j); simpl in *; congruence.
    + rewrite (bu_flat B), (bu_perm B). unfold items, N. now rewrite snd_zip_seqZ.
    + intros p j Lp. rewrite M. exact (bu_map B p j Lp).
Qed.

(** ** Heights *)

Lemma height_path T : forall k par t p j, 0 <= k -> m_num_nodes t <= 2 ^ 30 -> rep (m_nodes t) k par T -> leaf_at k T p j ->
  exists d, Z.of_nat d < tree_size T /\ forall fuel h, height_loop (d + fuel) (parent (node t j)) h t = height_loop fuel par (h + Z.of_nat d) t.
Proof.
  induction T as [ps|l IHl r IHr]; intros k par t p j Hk Sm R L; pose proof (rep_bounds _ _ _ _ Hk R) as Bd; unfold m_num_nodes in Sm.
  - destruct L as [_ ->]. exists 0%nat. simpl in *. split; [lia|]. intros fuel h.
    destruct (m_nodes t !! Z.to_nat k) as [n|] eqn:E; [|discriminate]. injection R as R1 R2 R3 R4 R5.
    unfold node. rewrite (zget_lookup _ _ _ _ E), R3. f_equal. lia.
  - pose proof (tree_size_pos l). pose proof (tree_size_pos r). simpl in Bd. destruct R as ((ps & num & Rk) & Rl & Rr).
    assert (Sub : exists d, Z.of_nat d < tree_size l + tree_size r /\ forall fuel h, height_loop (d + fuel) (parent (node t j)) h t = height_loop fuel k (h + Z.of_nat d) t).
    { destruct L as [L|L]; [destruct (IHl (k + 1) k t p j) as (d & D & U)|destruct (IHr (k + 1 + tree_size l) k t p j) as (d & D & U)]; auto; try lia;
        exists d; (split; [lia|assumption]). }
    destruct Sub as (d & D & U). exists (S d). split; [simpl; lia|]. intros fuel h.
    replace (S d + fuel)%nat with (d + S fuel)%nat by lia. rewrite U. cbn [height_loop].
    destruct (Z.eqb_spec k INVALID_NODE); [unfold INVALID_NODE in *; lia|]. simpl negb. cbv iota.
    destruct (m_nodes t !! Z.to_nat k) as [n'|] eqn:E; [|discriminate]. injection Rk as R1 R2 R3 R4 R5.
    unfold node. rewrite (zget_lookup _ _ _ _ E), R3. f_equal. lia.
Qed.

Lemma height_ok N box t i : tree_ok N box t -> 0 <= i < N -> exists h, height i t = Some h /\ 1 <= h <= m_num_nodes t.
Proof.
  intros [Sm (T & R & S & E & Sz & P & M)] Hi.
  assert (In : i ∈ flat T) by (rewrite P; apply elem_of_seqZ; lia). apply (leaf_at_flat T 0) in In as [j L].
  pose proof (leaf_at_range _ _ _ _ L) as Bj. unfold m_num_nodes in *.
  destruct (height_path T 0 INVALID_NODE t i j ltac:(lia) Sm R L) as (d & D & U). exists (1 + Z.of_nat d). split; [|lia].
  unfold height. rewrite (zget_lookup _ _ _ _ (M i j L)). destruct (Z.eqb_spec j INVALID_NODE); [unfold INVALID_NODE in *; lia|].
  replace (Datatypes.S (length (m_nodes t))) with (d + Datatypes.S (length (m_nodes t) - d))%nat by lia. now rewrite U.
Qed.

(** * Properties *)

Fixpoint updates (us : list (Z * AABB)) (t : AABBTree) : option AABBTree :=
  match us with
  | [] => Some t
  | (i, b) :: us => match update i b t with None => None | Some t => updates us t end
  end.

(** The boxes after the updates. *)
Fixpoint moved (us : list (Z * AABB)) (box : Z -> AABB) : Z -> AABB :=
  match us with
  | [] => box
  | (i, b) :: us => moved us (upd box i b)
  end.

Lemma updates_ok N us : (forall i b, (i, b) ∈ us -> 0 <= i < N) -> forall box t, tree_ok N box t ->
  exists t', updates us t = Some t' /\ tree_ok N (moved us box) t' /\ m_num_nodes t' = m_num_nodes t.
Proof.
  induction us as [|[i b] us IH]; intros H box t O; [eexists; split_and!; [reflexivity|exact O|reflexivity]|]. simpl.
  destruct (update_ok N box t i b O) as (t1 & -> & O1 & N1); [apply (H i b); left|].
  destruct (IH ltac:(intros j c Hj; apply (H j c); now right) _ _ O1) as (t2 & E & O2 & N2). exists t2. split_and!; auto. congruence.
Qed.

(** C6. The tree finds every overlap. After building the tree of at least one
    and at most 2^29 boxes, into any tree object, and after any sequence of
    updates of single boxes, a query appends to the hits exactly once every
    particle whose current box overlaps the query box. What it appends are
    particles of the tree whose leaf overlaps. It tests at most as many boxes as
    there are nodes, fewer than twice the number of particles. Build, updates,
    query and height terminate without leaving the arrays. *)
Theorem AABBTree_query (aabbs : list AABB) (t0 : AABBTree) (us : list (Z * AABB)) (q : AABB) (hits : list Z)
  (NE : (0 < length aabbs)%nat) (Size : Z.of_nat (length aabbs) <= 2 ^ 29) (Cap : 0 <= m_node_capacity t0 <= 2 ^ 31)
  (Us : forall i b, (i, b) ∈ us -> 0 <= i < Z.of_nat (length aabbs)) :
  exists t l t' h c, buildTree aabbs t0 = Some (t, l) /\ l ≡ₚ aabbs /\ updates us t = Some t' /\ query hits q t' = Some (hits ++ h, c) /\
    0 < c <= m_num_nodes t' /\ m_num_nodes t' < 2 * Z.of_nat (length aabbs) /\ NoDup h /\
    (forall p, p ∈ h -> 0 <= p < Z.of_nat (length aabbs) /\ overlaps q (aabb (node t' (zget INVALID_NODE (m_mapping t') p))) = true) /\
    (forall p, 0 <= p < Z.of_nat (length aabbs) -> overlaps q (moved us (box_of aabbs) p) = true -> p ∈ h) /\
    (forall p, 0 <= p < Z.of_nat (length aabbs) -> exists d, height p t' = Some d /\ 1 <= d <= m_num_nodes t').
Proof.
  destruct (buildTree_ok aabbs t0 NE Size Cap) as (t & l & E & P & O & Nn).
  destruct (updates_ok _ us Us _ _ O) as (t' & E' & O' & N').
  destruct (query_ok _ _ q t' hits O') as (h & c & Q & C & ND & So & Co).
  exists t, l, t', h, c. split_and!; auto; try lia. intros p Hp. now apply (height_ok _ _ t' p O').
Qed.

Definition example_boxes : list AABB :=
  (fun i => aabb_sphere (make_scalar3 (inject_Z ((i * 7) mod 20)) 0 0) (1 # 2)) <$> seqZ 0 20.

Lemma AABBTree_query_witness :
  exists t l t' h c, buildTree example_boxes empty_tree = Some (t, l) /\
    updates [(3, aabb_point (make_scalar3 5 5 5) 0)] t = Some t' /\
    query [] (aabb_point (make_scalar3 5 5 5) 0) t' = Some (h, c) /\ 3 ∈ h.
Proof.
  destruct (AABBTree_query example_boxes empty_tree [(3, aabb_point (make_scalar3 5 5 5) 0)] (aabb_point (make_scalar3 5 5 5) 0) [])
    as (t & l & t' & h & c & E & _ & U & Q & _ & _ & _ & _ & Co & _).
  - vm_compute. lia.
  - vm_compute. discriminate.
  - vm_compute. split; discriminate.
  - intros i b H%list_elem_of_singleton. injection H as -> ->. vm_compute. split; [discriminate|reflexivity].
  - exists t, l, t', h, c. split_and!; auto. apply Co; [vm_compute; split; [discriminate|reflexivity]|vm_compute; reflexivity].
Defined.

(** Boxes: two boxes that are not inverted overlap exactly when they have a
    common point, a box contains another exactly when it contains all its points,
    and [merge] is the least box that contains both. *)
Theorem AABB_geometry (a b c : AABB) (Va : valid a) (Vb : valid b) :
  (overlaps a b = true <-> exists p, inside p a /\ inside p b) /\
  (contains a b = true <-> forall p, inside p b -> inside p a) /\
  contains (merge a b) a = true /\ contains (merge a b) b = true /\
  (contains c a = true -> contains c b = true -> contains c (merge a b) = true).
Proof.
  split_and!; [now apply overlaps_common_point| |apply merge_contains|apply merge_contains|apply merge_least].
  rewrite contains_spec. unfold valid, inside in *. destruct Vb as ((B1 & B2) & (B3 & B4) & (B5 & B6)). split.
  - intros ((A1 & A2) & (A3 & A4) & (A5 & A6)) p ((P1 & P2) & (P3 & P4) & (P5 & P6)). repeat split; eapply Qle_trans; eassumption.
  - intros H. destruct (H (lower b)) as ((L1 & _) & (L2 & _) & (L3 & _)); [repeat split; assumption|].
    destruct (H (upper b)) as ((_ & U1) & (_ & U2) & (_ & U3)); [repeat split; assumption || apply Qle_refl|]. tauto.
Qed.

Lemma AABB_geometry_witness :
  let a := aabb_sphere (make_scalar3 0 0 0) 1 in let b := aabb_sphere (make_scalar3 1 1 1) 1 in exists p, inside p a /\ inside p b.
Proof.
  intros a b. apply (proj1 (proj1 (AABB_geometry a b a ltac:(repeat split; vm_compute; discriminate) ltac:(repeat split; vm_compute; discriminate)))).
  vm_compute. reflexivity.
Defined.
