(* ===== verification/Autotuner.v ===== *)
(** The autotuner of GPU launch parameters ([hoomd/Autotuner.h]) and the
    interface of the classes that own autotuners ([hoomd/Autotuned.h]).

    The model is the build with device timers, without MPI synchronisation (or
    the root rank of a synchronised tuner, whose samples are already gathered).
    The elapsed time of a launch is an argument of [end_], the measured times are
    exact rationals. [n_dimensions] is an argument; it is positive in every
    instance of the template. [std::nth_element] puts at the requested position
    the element that a sort would put there. Messages are not modelled. *)

From Stdlib Require Import ZArith Lia QArith String Sorted.
From stdpp Require Import base list list_numbers sorting.
From S2P Require Import Prelude HOOMDMath.
Local Open Scope Z_scope.

(** * The model *)

Inductive tuner_state : Type := INACTIVE | IDLE | SCANNING.
Inductive mode_Enum : Type := mode_median | mode_avg | mode_max.

#[global] Instance tuner_state_eq_dec : EqDecision tuner_state.
Proof. solve_decision. Defined.

Record autotuner := mkTuner {
  m_n_samples : Z;
  m_parameters : list (list Z);
  m_state : tuner_state;
  m_current_sample : Z;
  m_current_element : Z;
  m_current_param : list Z;
  m_samples : list (list Scalar);
  m_sample_center : list Scalar;
  m_mode : mode_Enum;
  m_optional : bool
}.

(** The assignments of the state machine. *)
Definition set_scan (st : tuner_state) (sample elem : Z) (param : list Z) (a : autotuner) : autotuner :=
  mkTuner (m_n_samples a) (m_parameters a) st sample elem param (m_samples a) (m_sample_center a) (m_mode a) (m_optional a).
Definition set_samples (s : list (list Scalar)) (a : autotuner) : autotuner :=
  mkTuner (m_n_samples a) (m_parameters a) (m_state a) (m_current_sample a) (m_current_element a) (m_current_param a) s
    (m_sample_center a) (m_mode a) (m_optional a).
Definition set_center (c : list Scalar) (a : autotuner) : autotuner :=
  mkTuner (m_n_samples a) (m_parameters a) (m_state a) (m_current_sample a) (m_current_element a) (m_current_param a) (m_samples a)
    c (m_mode a) (m_optional a).
Definition setMode (m : mode_Enum) (a : autotuner) : autotuner :=
  mkTuner (m_n_samples a) (m_parameters a) (m_state a) (m_current_sample a) (m_current_element a) (m_current_param a) (m_samples a)
    (m_sample_center a) m (m_optional a).

(** ** Construction *)

(** The nested loops over the values of the dimensions from [d] on. *)
Fixpoint initializeParameters (is_parameter_valid : list Z -> bool) (ranges : list (list Z)) (d : nat) (parameter : list Z) : list (list Z) :=
  match ranges with
  | [] => []
  | [range] => flat_map (fun value => let parameter := <[d := value]> parameter in
                                      if is_parameter_valid parameter then [parameter] else []) range
  | range :: ranges => flat_map (fun value => initializeParameters is_parameter_valid ranges (S d) (<[d := value]> parameter)) range
  end.

Definition startScan (a : autotuner) : autotuner :=
  set_scan (if m_optional a then INACTIVE else SCANNING) 0 0 (zget [] (m_parameters a) 0) a.

Definition make_tuner (n_dimensions : nat) (dimension_ranges : list (list Z)) (n_samples : Z) (optional : bool)
  (is_parameter_valid : list Z -> bool) : result autotuner :=
  if negb (length dimension_ranges =? n_dimensions)%nat then
    Throw (invalid_argument "Autotuner given invalid number of dimensions.")
  else if existsb (fun dimension : list Z => (length dimension =? 0)%nat) dimension_ranges then
    Throw (invalid_argument "Autotuner given a dimension with no values.")
  else
    let parameters := initializeParameters is_parameter_valid dimension_ranges 0 (replicate n_dimensions 0) in
    if (length parameters =? 0)%nat then Throw (invalid_argument "Autotuner has no valid parameters.")
    else
      let n_samples := if Z.land n_samples 1 =? 0 then u32 (n_samples + 1) else n_samples in
      Ok (startScan (mkTuner n_samples parameters INACTIVE 0 0 []
            (replicate (length parameters) (replicate (Z.to_nat n_samples) 0%Q)) (replicate (length parameters) 0%Q) mode_median optional)).

(** ** The optimal parameter *)

Definition FLT_MIN : Scalar := 1 # (2 ^ 126).

(** [nth_element(v.begin(), v.begin() + n, v.end()); v[n]] *)
Definition le_prop (a b : Q) : Prop := Qle_bool a b = true.
#[global] Instance le_prop_dec : RelDecision le_prop.
Proof. intros a b. unfold le_prop. solve_decision. Defined.
Definition nth_smallest (n : nat) (v : list Scalar) : Scalar := nth n (merge_sort le_prop v) 0%Q.

Definition center (mode : mode_Enum) (v : list Scalar) : Scalar :=
  match mode with
  | mode_avg => (fold_left Qplus v 0 / inject_Z (Z.of_nat (length v)))%Q
  | mode_max => fold_left (fun c x => if lt_b c x then x else c) v (- FLT_MIN)%Q
  | mode_median => nth_smallest (length v / 2) v
  end.

(** The loop for the smallest summary, from [i] on. *)
Fixpoint min_loop (l : list Scalar) (i : Z) (min_value : Scalar) (min_idx : Z) : Z :=
  match l with
  | [] => min_idx
  | x :: l => if lt_b x min_value then min_loop l (i + 1) x i else min_loop l (i + 1) min_value min_idx
  end.

Definition computeOptimalParameterIndex (a : autotuner) : Z * autotuner :=
  let c := (fun i => center (m_mode a) (zget [] (m_samples a) i)) <$> seqZ 0 (Z.of_nat (length (m_parameters a))) in
  (min_loop (drop 1 c) 1 (zget 0%Q c 0) 0, set_center c a).

(** ** The state machine *)

Definition begin_ (a : autotuner) : autotuner :=
  if bool_decide (m_state a = INACTIVE)
  then set_scan SCANNING (m_current_sample a) (m_current_element a) (m_current_param a) a else a.

(** [time] is what [hipEventElapsedTime] reports. *)
Definition end_ (time : Scalar) (a : autotuner) : autotuner :=
  if bool_decide (m_state a = SCANNING) then
    let a := set_samples (zset (m_samples a) (m_current_element a)
               (zset (zget [] (m_samples a) (m_current_element a)) (m_current_sample a) time)) a in
    let elem := u32 (m_current_element a + 1) in
    if elem >=? Z.of_nat (length (m_parameters a)) then
      let sample := u32 (m_current_sample a + 1) in
      if sample >=? m_n_samples a then
        let '(idx, a) := computeOptimalParameterIndex a in
        set_scan IDLE 0 0 (zget [] (m_parameters a) idx) a
      else set_scan SCANNING sample 0 (zget [] (m_parameters a) 0) a
    else set_scan SCANNING (m_current_sample a) elem (zget [] (m_parameters a) elem) a
  else a.

Definition getParam (a : autotuner) : list Z := m_current_param a.
Definition isComplete (a : autotuner) : bool := negb (bool_decide (m_state a = SCANNING)).

(** [n_dimensions] is the arity of the template. *)
Definition setParameterPython (n_dimensions : nat) (parameter : list Z) (a : autotuner) : result autotuner :=
  if negb (length parameter =? n_dimensions)%nat then Throw (runtime_error "Error setting autotuner parameter: number of parameters.")
  else if negb (bool_decide (parameter ∈ m_parameters a)) then Throw (runtime_error "Error setting autotuner parameter: not a valid parameter.")
  else Ok (set_scan IDLE 0 (m_current_element a) parameter a).

(** ** Classes with autotuners *)

(** [m_autotuners]: names, arities and tuners. *)
Abbreviation tuners := (list (string * nat * autotuner)).

Definition isAutotuningComplete (l : tuners) : bool := fold_left (fun result t => result && isComplete t.2) l true.
Definition startAutotuning (l : tuners) : tuners := (fun t => (t.1, startScan t.2)) <$> l.

(** [find_if] on the name, then [setParameterPython] on the tuner found. *)
Fixpoint set_by_name (name : string) (parameter : list Z) (l : tuners) : result tuners :=
  match l with
  | [] => Throw (runtime_error "Error setting autotuner parameters. Unexpected key")
  | (s, n, a) :: l =>
      if String.eqb s name then
        match setParameterPython n parameter a with Ok a => Ok ((s, n, a) :: l) | Throw e => Throw e end
      else match set_by_name name parameter l with Ok l => Ok ((s, n, a) :: l) | Throw e => Throw e end
  end.

(** An exception leaves the earlier assignments in place. *)
Fixpoint setAutotunerParameters (params : list (string * list Z)) (l : tuners) : tuners * result unit :=
  match params with
  | [] => (l, Ok tt)
  | (name, parameter) :: params =>
      match set_by_name name parameter l with
      | Ok l => setAutotunerParameters params l
      | Throw e => (l, Throw e)
      end
  end.

(** One kernel launch between [begin] and [end]. *)
Definition launch (a : autotuner) (time : Scalar) : autotuner := end_ time (begin_ a).
Definition launches (times : list Scalar) (a : autotuner) : autotuner := fold_left launch times a.

(** * The parameters *)

(** All choices of one value per dimension, in lexicographic order. *)
Fixpoint choices (ranges : list (list Z)) : list (list Z) :=
  match ranges with
  | [] => [[]]
  | range :: ranges => flat_map (fun value => (fun c => value :: c) <$> choices ranges) range
  end.

Lemma initializeParameters_spec valid ranges : ranges <> [] -> forall pre post,
  length post = length ranges ->
  initializeParameters valid ranges (length pre) (pre ++ post) = List.filter valid ((fun c => pre ++ c) <$> choices ranges).
Proof.
  induction ranges as [|range ranges IH]; [contradiction|]. intros _ pre post L.
  destruct post as [|x post]; [discriminate|]. injection L as L.
  assert (Ins : forall value, <[length pre := value]> (pre ++ x :: post) = pre ++ value :: post).
  { intros value. replace (length pre) with (length pre + 0)%nat by lia. rewrite insert_app_r. reflexivity. }
  destruct ranges as [|range' ranges].
  - destruct post; [|discriminate]. cbn [initializeParameters choices]. induction range as [|value range IHr]; [reflexivity|].
    cbn [flat_map]. rewrite IHr, Ins, fmap_app, List.filter_app. reflexivity.
  - remember (range' :: ranges) as rs eqn:Ers. cbn [initializeParameters choices]. rewrite Ers. rewrite <- Ers.
    induction range as [|value range IHr]; [reflexivity|]. cbn [flat_map]. rewrite IHr, fmap_app, List.filter_app. f_equal.
    rewrite Ins. replace (S (length pre)) with (length (pre ++ [value])) by (rewrite length_app; simpl; lia).
    replace (pre ++ value :: post) with ((pre ++ [value]) ++ post) by (now rewrite <- app_assoc).
    rewrite IH by (subst; discriminate || assumption). rewrite <- list_fmap_compose. f_equal. apply list_fmap_ext. intros i c _. simpl. now rewrite <- app_assoc.
Qed.

Lemma make_tuner_parameters n ranges valid : (0 < n)%nat -> length ranges = n ->
  initializeParameters valid ranges 0 (replicate n 0) = List.filter valid (choices ranges).
Proof.
  intros Hn L. pose proof (initializeParameters_spec valid ranges ltac:(intros ->; simpl in L; lia) [] (replicate n 0)) as H.
  simpl in H. rewrite H by (rewrite length_replicate; auto). f_equal. apply list_fmap_id.
Qed.

(** * The optimal parameter *)

(** [j] is the first index with the smallest value of [c]. *)
Definition first_min (c : list Scalar) (j : Z) : Prop :=
  0 <= j < Z.of_nat (length c) /\
  (forall i, 0 <= i < Z.of_nat (length c) -> (zget 0 c j <= zget 0 c i)%Q) /\ (forall i, 0 <= i < j -> (zget 0 c j < zget 0 c i)%Q).

Lemma min_loop_spec c : forall l i m idx, 0 <= idx < i -> l = drop (Z.to_nat i) c -> i <= Z.of_nat (length c) -> m = zget 0%Q c idx ->
  (forall k, 0 <= k < i -> (m <= zget 0 c k)%Q) -> (forall k, 0 <= k < idx -> (m < zget 0 c k)%Q) -> first_min c (min_loop l i m idx).
Proof.
  induction l as [|x l IH]; intros i m idx Hi El Li -> Hle Hlt.
  - assert (length c - Z.to_nat i = 0)%nat by (rewrite <- length_drop, <- El; reflexivity). cbn [min_loop]. split_and!; auto; try lia.
    intros k Hk. apply Hle. lia.
  - assert (Lt : (Z.to_nat i < length c)%nat) by (assert (length (x :: l) = (length c - Z.to_nat i)%nat) by (rewrite El; apply length_drop); simpl in *; lia).
    pose proof (lookup_lt_is_Some_2 c _ Lt) as [y Ey]. rewrite (drop_S _ _ _ Ey) in El. injection El as -> El.
    pose proof (zget_lookup 0%Q c i y Ey) as Gy. replace (S (Z.to_nat i)) with (Z.to_nat (i + 1)) in El by lia. cbn [min_loop].
    destruct (lt_b y (zget 0%Q c idx)) eqn:B; qbool; (apply IH; auto; try lia).
    + intros k Hk. destruct (Z.eq_dec k i) as [->|D]; [rewrite Gy; apply Qle_refl|].
      apply Qlt_le_weak. eapply Qlt_le_trans; [exact B|]. apply Hle. lia.
    + intros k Hk. eapply Qlt_le_trans; [exact B|]. apply Hle. lia.
    + intros k Hk. destruct (Z.eq_dec k i) as [->|D]; [now rewrite Gy|]. apply Hle. lia.
Qed.

Definition centers (a : autotuner) : list Scalar :=
  (fun i => center (m_mode a) (zget [] (m_samples a) i)) <$> seqZ 0 (Z.of_nat (length (m_parameters a))).

Lemma optimal_spec a : m_parameters a <> [] -> first_min (centers a) (computeOptimalParameterIndex a).1.
Proof.
  intros NE. assert (L : length (centers a) = length (m_parameters a)) by (unfold centers; rewrite length_fmap, length_seqZ; lia).
  destruct (m_parameters a) as [|x l] eqn:E; [contradiction|]. unfold computeOptimalParameterIndex. rewrite E. cbn [fst].
  assert (Ec : centers a = (fun i => center (m_mode a) (zget [] (m_samples a) i)) <$> seqZ 0 (Z.of_nat (length (x :: l)))) by (unfold centers; now rewrite E).
  rewrite <- Ec. apply min_loop_spec; try lia; auto.
  - rewrite L. simpl. lia.
  - intros k Hk. replace k with 0 by lia. apply Qle_refl.
Qed.

(** * Scanning *)

(** The tables fit the parameters. *)
Record shaped (a : autotuner) : Prop := {
  sh_params : 0 < Z.of_nat (length (m_parameters a)) < 2 ^ 32;
  sh_odd : 0 < m_n_samples a < 2 ^ 32;
  sh_samples : length (m_samples a) = length (m_parameters a);
  sh_rows : forall i row, m_samples a !! i = Some row -> length row = Z.to_nat (m_n_samples a)
}.

(** What does not change during a scan. *)
Definition same_setup (a b : autotuner) : Prop :=
  m_n_samples b = m_n_samples a /\ m_parameters b = m_parameters a /\ m_mode b = m_mode a /\ m_optional b = m_optional a.

Definition sample (a : autotuner) (i s : Z) : option Scalar := m_samples a !! Z.to_nat i ≫= fun row => row !! Z.to_nat s.

(** [times] have been measured since the scan of [a0] started. *)
Record scanned (a0 : autotuner) (times : list Scalar) (a : autotuner) : Prop := {
  sc_setup : same_setup a0 a;
  sc_shape : shaped a;
  sc_record : forall k, 0 <= k < Z.of_nat (length times) ->
    sample a (k mod Z.of_nat (length (m_parameters a0))) (k / Z.of_nat (length (m_parameters a0))) = times !! Z.to_nat k
}.

(** The scan is at the launch after [times]. *)
Record scanning (a0 : autotuner) (times : list Scalar) (a : autotuner) : Prop := {
  sn_scanned : scanned a0 times a;
  sn_state : m_state a = SCANNING \/ (m_state a = INACTIVE /\ times = []);
  sn_sample : m_current_sample a = Z.of_nat (length times) / Z.of_nat (length (m_parameters a0));
  sn_element : m_current_element a = Z.of_nat (length times) mod Z.of_nat (length (m_parameters a0));
  sn_param : m_current_param a = zget [] (m_parameters a0) (Z.of_nat (length times) mod Z.of_nat (length (m_parameters a0)))
}.

Lemma startScan_scanning a : shaped a -> scanning a [] (startScan a).
Proof.
  intros [H1 H2 H3 H4]. split; simpl; rewrite ?Z.mod_0_l, ?Z.div_0_l by lia; auto.
  - split; [now split|now constructor|]. intros k Hk. simpl in Hk. lia.
  - destruct (m_optional a); auto.
Qed.

(** Position [k] is sample [k / P] of element [k mod P]. *)
Lemma next_position P k : 0 < P -> 0 <= k ->
  (k mod P + 1 = P /\ (k + 1) mod P = 0 /\ (k + 1) / P = k / P + 1) \/
  (k mod P + 1 < P /\ (k + 1) mod P = k mod P + 1 /\ (k + 1) / P = k / P).
Proof.
  intros HP Hk. pose proof (Z.mod_pos_bound k P HP) as B. pose proof (Z.div_mod k P ltac:(lia)) as D.
  destruct (Z.eq_dec (k mod P + 1) P) as [E|E]; [left|right]; (split; [lia|]).
  - assert (Q : (k + 1) / P = k / P + 1) by (symmetry; apply (Z.div_unique _ _ _ 0); lia). split; [|exact Q].
    rewrite Z.mod_eq, Q by lia. lia.
  - assert (Q : (k + 1) / P = k / P) by (symmetry; apply (Z.div_unique _ _ _ (k mod P + 1)); lia). split; [|exact Q].
    rewrite Z.mod_eq, Q by lia. lia.
Qed.

Section one_launch.
Variables (a0 a : autotuner) (times : list Scalar) (time : Scalar).
Hypothesis Sn : scanning a0 times a.
Let P := Z.of_nat (length (m_parameters a0)).
Let k := Z.of_nat (length times).
Let S := m_n_samples a0.
Hypothesis More : k < P * S.

Let a1 := set_samples (zset (m_samples a) (k mod P) (zset (zget [] (m_samples a) (k mod P)) (k / P) time))
            (set_scan SCANNING (k / P) (k mod P) (zget [] (m_parameters a0) (k mod P)) a).

Lemma scan_bounds : 0 < P < 2 ^ 32 /\ 0 < S < 2 ^ 32 /\ 0 <= k /\ 0 <= k mod P < P /\ 0 <= k / P < S /\
  m_parameters a = m_parameters a0 /\ m_n_samples a = S.
Proof.
  destruct Sn as [[(E1 & E2 & E3 & E4) [H1 H2 _ _] _] _ _ _ _]. unfold P, S, k in *. rewrite E1, E2 in *.
  split_and!; try lia; auto; try (apply Z.mod_pos_bound; lia); [apply Z.div_pos; lia|apply Z.div_lt_upper_bound; lia].
Qed.

Lemma begin_spec : begin_ a = set_scan SCANNING (k / P) (k mod P) (zget [] (m_parameters a0) (k mod P)) a.
Proof.
  destruct Sn as [_ St E1 E2 E3]. fold P k in E1, E2, E3. unfold begin_.
  destruct St as [St|[St _]]; rewrite St; [|now rewrite E1, E2, E3]. rewrite bool_decide_false by discriminate. rewrite <- E3, <- E2, <- E1, <- St. now destruct a.
Qed.

Lemma record_scanned : scanned a0 (times ++ [time]) a1.
Proof.
  destruct scan_bounds as (BP & BS & Bk & Bm & Bd & Ep & En). destruct Sn as [[Se [H1 H2 H3 H4] R] _ _ _ _].
  assert (Lm : (Z.to_nat (k mod P) < length (m_samples a))%nat) by (rewrite H3, Ep; unfold P in *; lia).
  pose proof (lookup_zget [] (m_samples a) (k mod P) Lm) as Er. pose proof (H4 _ _ Er) as Lr. set (row := zget _ _ _) in *.
  split; [exact Se|split; simpl; auto; [now rewrite length_zset|]|].
  - intros i r. destruct (decide (i = Z.to_nat (k mod P))) as [->|D].
    + rewrite lookup_zset_eq by assumption. intros [= <-]. now rewrite length_zset.
    + rewrite lookup_zset_ne by congruence. apply H4.
  - intros j Hj. fold P. rewrite length_app in Hj. simpl in Hj. unfold sample. simpl m_samples.
    pose proof (Z.div_mod j P ltac:(lia)) as Dj. pose proof (Z.mod_pos_bound j P ltac:(lia)) as Bj.
    pose proof (Z.div_mod k P ltac:(lia)) as Dk. pose proof (Z.div_pos j P ltac:(lia) ltac:(lia)) as Pj.
    destruct (decide (j = k)) as [Ej|D]; [rewrite Ej|].
    + rewrite lookup_zset_eq by assumption. simpl. rewrite lookup_zset_eq by (rewrite Lr, En; lia).
      unfold k. rewrite Nat2Z.id. symmetry. now apply list_lookup_middle.
    + rewrite lookup_app_l by (unfold k in D; lia). rewrite <- R by (unfold k in D; lia). fold P. unfold sample.
      destruct (decide (j mod P = k mod P)) as [E|E]; [|now rewrite lookup_zset_ne by lia].
      rewrite E, lookup_zset_eq, Er by assumption. simpl. apply lookup_zset_ne. intros F. apply D.
      assert (j / P = k / P) by lia. congruence.
Qed.

Lemma launch_unfold : launch a time =
  if (k + 1) mod P =? 0 then
    if (k + 1) / P =? S then
      let '(idx, b) := computeOptimalParameterIndex a1 in set_scan IDLE 0 0 (zget [] (m_parameters b) idx) b
    else set_scan SCANNING ((k + 1) / P) 0 (zget [] (m_parameters a0) 0) a1
  else set_scan SCANNING (k / P) ((k + 1) mod P) (zget [] (m_parameters a0) ((k + 1) mod P)) a1.
Proof.
  destruct scan_bounds as (BP & BS & Bk & Bm & Bd & Ep & En). unfold launch, end_. rewrite begin_spec.
  cbn [m_state set_scan m_current_element m_current_sample m_samples m_parameters m_n_samples set_samples bool_decide decide_rel tuner_state_eq_dec].
  rewrite bool_decide_true by reflexivity. cbn zeta. fold a1. rewrite Ep, En. fold P.
  rewrite !u32_small by (unfold is_u32; lia).
  destruct (next_position P k ltac:(lia) Bk) as [(E1 & E2 & E3)|(E1 & E2 & E3)]; rewrite E2, ?E3.
  - rewrite (proj2 (Z.geb_le _ _)) by lia. simpl. destruct (Z.eqb_spec (k / P + 1) S), (Z.geb_spec (k / P + 1) S); auto; lia.
  - destruct (Z.geb_spec (k mod P + 1) P); [lia|]. destruct (Z.eqb_spec (k mod P + 1) 0); [lia|]. reflexivity.
Qed.

End one_launch.

(** The scan is over, with the parameter of the smallest summary. *)
Record finished (a0 : autotuner) (times : list Scalar) (a : autotuner) : Prop := {
  fi_scanned : scanned a0 times a;
  fi_state : m_state a = IDLE;
  fi_param : exists j, first_min (centers a) j /\ m_parameters a0 !! Z.to_nat j = Some (m_current_param a)
}.

(** The number of launches of a scan. *)
Definition scan_length (a : autotuner) : Z := Z.of_nat (length (m_parameters a)) * m_n_samples a.

Lemma scanned_reset a0 times a st s e p : scanned a0 times a -> scanned a0 times (set_scan st s e p a).
Proof. intros [A [B1 B2 B3 B4] C]. split; [exact A|now constructor|exact C]. Qed.

Lemma launch_scanning a0 times a time : scanning a0 times a -> Z.of_nat (length times) + 1 < scan_length a0 ->
  scanning a0 (times ++ [time]) (launch a time).
Proof.
  unfold scan_length. intros Sn More. pose proof (record_scanned a0 a times time Sn ltac:(lia)) as R.
  destruct (scan_bounds a0 a times Sn ltac:(lia)) as (BP & BS & Bk & Bm & Bd & _ & _).
  rewrite (launch_unfold a0 a times time Sn ltac:(lia)).
  set (P := Z.of_nat (length (m_parameters a0))) in *. set (k := Z.of_nat (length times)) in *.
  assert (Lk : Z.of_nat (length (times ++ [time])) = k + 1) by (rewrite length_app; simpl; lia).
  destruct (Z.eqb_spec ((k + 1) mod P) 0) as [E|E].
  - assert ((k + 1) / P < m_n_samples a0) by (apply Z.div_lt_upper_bound; lia).
    destruct (Z.eqb_spec ((k + 1) / P) (m_n_samples a0)); [lia|].
    split; fold P; rewrite ?Lk, ?E; auto. now apply scanned_reset.
  - destruct (next_position P k ltac:(lia) Bk) as [(_ & E2 & _)|(_ & E2 & E3)]; [contradiction|].
    split; fold P; rewrite ?Lk, ?E3; auto. now apply scanned_reset.
Qed.

Lemma launch_last a0 times a time : scanning a0 times a -> Z.of_nat (length times) + 1 = scan_length a0 ->
  finished a0 (times ++ [time]) (launch a time).
Proof.
  unfold scan_length. intros Sn Last. pose proof (record_scanned a0 a times time Sn ltac:(lia)) as R.
  destruct (scan_bounds a0 a times Sn ltac:(lia)) as (BP & BS & Bk & _ & _ & Ep & _).
  rewrite (launch_unfold a0 a times time Sn ltac:(lia)), Last.
  rewrite (Z.mul_comm _ (m_n_samples a0)), Z.mod_mul, Z.div_mul, !Z.eqb_refl by lia.
  match type of R with scanned _ _ ?b => set (a1 := b) in * end.
  assert (NE : m_parameters a1 <> []) by (simpl; rewrite Ep; intros C; rewrite C in BP; simpl in BP; lia).
  pose proof (optimal_spec a1 NE) as Opt. unfold computeOptimalParameterIndex in *. cbn [fst] in Opt.
  split; [destruct R as [A [B1 B2 B3 B4] C]; split; [exact A|now constructor|exact C]|reflexivity|].
  eexists. split; [exact Opt|]. destruct Opt as (B & _). unfold centers in B. rewrite length_fmap, length_seqZ in B.
  cbn [m_parameters m_current_param set_scan set_center] in *. rewrite <- Ep. apply lookup_zget.
  change (m_parameters a1) with (m_parameters a) in *. lia.
Qed.

Lemma launch_idle a time : m_state a = IDLE -> launch a time = a.
Proof. intros E. unfold launch, begin_. replace (bool_decide (m_state a = INACTIVE)) with false by (now rewrite E).
  unfold end_. now rewrite E.
Qed.

Lemma launches_idle times a : m_state a = IDLE -> launches times a = a.
Proof. induction times as [|t times IH]; intros E; [reflexivity|]. unfold launches in *. simpl. rewrite launch_idle by assumption. auto. Qed.

Lemma launches_app t1 t2 a : launches (t1 ++ t2) a = launches t2 (launches t1 a).
Proof. apply fold_left_app. Qed.

Lemma launches_scanning a0 times : shaped a0 -> Z.of_nat (length times) < scan_length a0 ->
  scanning a0 times (launches times (startScan a0)).
Proof.
  intros Sh. induction times as [|t times IH] using rev_ind; intros L; [now apply startScan_scanning|].
  rewrite length_app in L. simpl in L. rewrite launches_app. apply launch_scanning; [apply IH; lia|lia].
Qed.

Lemma launches_finished a0 times : shaped a0 -> Z.of_nat (length times) = scan_length a0 ->
  finished a0 times (launches times (startScan a0)).
Proof.
  intros Sh. destruct times as [|t times _] using rev_ind; intros L.
  - unfold scan_length in L. destruct Sh as [H1 H2 _ _]. simpl in L. nia.
  - rewrite length_app in L. simpl in L. rewrite launches_app. apply launch_last; [apply launches_scanning; auto; lia|lia].
Qed.

(** The row of a parameter after a complete scan: its time in every sweep. *)
Definition sweep_times (a0 : autotuner) (times : list Scalar) (i : Z) : list Scalar :=
  (fun s => zget 0%Q times (s * Z.of_nat (length (m_parameters a0)) + i)) <$> seqZ 0 (m_n_samples a0).

Lemma finished_row a0 times a i : scanned a0 times a -> Z.of_nat (length times) = scan_length a0 ->
  0 <= i < Z.of_nat (length (m_parameters a0)) -> zget [] (m_samples a) i = sweep_times a0 times i.
Proof.
  intros [(E1 & E2 & _) [H1 H2 H3 H4] R] L Hi. rewrite E1, E2 in *. unfold scan_length in L.
  set (P := Z.of_nat (length (m_parameters a0))) in *.
  assert (Li : (Z.to_nat i < length (m_samples a))%nat) by (rewrite H3; unfold P in *; lia).
  pose proof (lookup_zget [] (m_samples a) i Li) as Er. set (row := zget _ _ _) in *. pose proof (H4 _ _ Er) as Lr.
  apply list_eq. intros s. unfold sweep_times. rewrite list_lookup_fmap. fold P.
  destruct (decide (s < Z.to_nat (m_n_samples a0))%nat) as [Ls|Ls].
  - rewrite lookup_seqZ_lt by lia. simpl.
    assert (Q : (Z.of_nat s * P + i) / P = Z.of_nat s) by (symmetry; apply (Z.div_unique _ _ _ i); lia).
    assert (M : (Z.of_nat s * P + i) mod P = i) by (symmetry; apply (Z.mod_unique _ _ (Z.of_nat s)); lia).
    specialize (R (Z.of_nat s * P + i)). rewrite Q, M in R. unfold sample in R. rewrite Er in R. simpl in R. rewrite Nat2Z.id in R.
    assert (B : 0 <= Z.of_nat s * P + i < Z.of_nat (length times)) by nia.
    rewrite (R B). rewrite (lookup_zget 0%Q) by lia. reflexivity.
  - rewrite lookup_seqZ_ge by lia. simpl. apply lookup_ge_None. lia.
Qed.

(** A tuner as the constructor makes it has tables of the right shape. *)
Lemma make_tuner_shaped n ranges n_samples optional valid a : is_u32 n_samples ->
  make_tuner n ranges n_samples optional valid = Ok a -> Z.of_nat (length (m_parameters a)) < 2 ^ 32 -> shaped a.
Proof.
  unfold make_tuner, is_u32. intros Hs. destruct (negb _); [discriminate|]. destruct (existsb _ _); [discriminate|].
  set (ps := initializeParameters _ _ _ _). destruct (Nat.eqb_spec (length ps) 0) as [|NZ]; [discriminate|].
  set (ns := if _ : bool then _ else _). intros [= <-]. simpl. intros L.
  assert (Bn : 0 < ns < 2 ^ 32).
  { unfold ns. assert (Z.land n_samples 1 = n_samples mod 2) as -> by (apply (Z.land_ones n_samples 1); lia).
    pose proof (Z.mod_pos_bound n_samples 2 ltac:(lia)). destruct (Z.eqb_spec (n_samples mod 2) 0) as [E|E].
    - assert (n_samples <> 2 ^ 32 - 1) by (intros ->; discriminate E). rewrite u32_small by (unfold is_u32; lia). lia.
    - assert (n_samples <> 0) by (intros ->; contradiction). lia. }
  split; simpl; try lia; [apply length_replicate|]. intros i row H%lookup_replicate. destruct H as [-> _]. apply length_replicate.
Qed.

(** * Properties *)

(** Construction: the tuner is made exactly when the number of ranges is the
    arity, no range is empty and some choice is valid; it throws
    [invalid_argument] otherwise. Its parameters are the valid choices of one
    value per range in lexicographic order, its number of samples is odd, and it
    starts scanning (waiting, if optional) at the first parameter. *)
Theorem Autotuner_construction (n : nat) (ranges : list (list Z)) (n_samples : Z) (optional : bool) (valid : list Z -> bool)
  (Hn : (0 < n)%nat) (Hs : is_u32 n_samples) :
  (is_ok (make_tuner n ranges n_samples optional valid) = true <->
     length ranges = n /\ (forall range, range ∈ ranges -> range <> []) /\ exists c, c ∈ choices ranges /\ valid c = true) /\
  (forall a, make_tuner n ranges n_samples optional valid = Ok a ->
     m_parameters a = List.filter valid (choices ranges) /\ (m_n_samples a = n_samples \/ m_n_samples a = n_samples + 1) /\
     Z.odd (m_n_samples a) = true /\ m_n_samples a < 2 ^ 32 /\ m_state a = (if optional then INACTIVE else SCANNING) /\
     m_parameters a !! 0%nat = Some (getParam a)).
Proof.
  unfold make_tuner. destruct (Nat.eqb_spec (length ranges) n) as [L|L]; simpl.
  2: { split; [split; [discriminate|tauto]|discriminate]. }
  destruct (existsb _ ranges) eqn:E.
  { split; [|discriminate]. split; [discriminate|]. intros (_ & H & _). apply existsb_exists in E as (r & Hr & E).
    apply list_elem_of_In, H in Hr. destruct r; [contradiction|discriminate]. }
  rewrite make_tuner_parameters by assumption. set (ps := List.filter valid (choices ranges)).
  assert (Ex : ps <> [] <-> exists c, c ∈ choices ranges /\ valid c = true).
  { split.
    - destruct ps as [|c l] eqn:Ep; [contradiction|]. intros _. exists c. rewrite list_elem_of_In. apply filter_In. fold ps. rewrite Ep. now left.
    - intros (c & Hc & V) C. assert (In c ps) as I by (apply filter_In; rewrite <- list_elem_of_In; auto). rewrite C in I. destruct I. }
  destruct (Nat.eqb_spec (length ps) 0) as [Z0|NZ].
  { split; [|discriminate]. split; [discriminate|]. intros (_ & _ & H). apply Ex in H. destruct ps; [contradiction|discriminate]. }
  assert (NE : ps <> []) by (intros ->; contradiction). split.
  { split; [|reflexivity]. intros _. split_and!; auto; [|now apply Ex]. intros r Hr ->.
    assert (true = false) as C; [|discriminate C]. rewrite <- E. symmetry. apply existsb_exists. exists []. split; [now apply list_elem_of_In|reflexivity]. }
  intros a [= <-]. simpl. assert (Odd : Z.land n_samples 1 = n_samples mod 2) by (apply (Z.land_ones n_samples 1); lia).
  rewrite Odd. pose proof (Zmod_odd n_samples) as Mo. unfold is_u32 in Hs.
  pose proof (Zmod_odd n_samples) as Mo2. destruct (Z.odd n_samples) eqn:O; rewrite Mo2; cbn [Z.eqb].
  - split_and!; auto; [lia|]. destruct ps; [contradiction|reflexivity].
  - assert (n_samples <> 2 ^ 32 - 1) by (intros ->; discriminate O). rewrite u32_small by (unfold is_u32; lia).
    split_and!; auto; [|lia|]; [rewrite Z.odd_add, O; reflexivity|]. destruct ps; [contradiction|reflexivity].
Qed.

Definition two_by_two : list (list Z) := [[32; 64]; [1; 2]].

Lemma Autotuner_construction_witness :
  exists a, make_tuner 2 two_by_two 4 false (fun c => negb (zget 0 c 0 =? 64)) = Ok a /\ m_parameters a = [[32; 1]; [32; 2]] /\ m_n_samples a = 5.
Proof.
  destruct (make_tuner 2 two_by_two 4 false (fun c => negb (zget 0 c 0 =? 64))) as [a|e] eqn:E; [|discriminate E].
  destruct (proj2 (Autotuner_construction 2 two_by_two 4 false (fun c => negb (zget 0 c 0 =? 64)) ltac:(lia) ltac:(split; [discriminate|reflexivity])) a E)
    as (P & N & O & _). exists a. split_and!; [reflexivity|exact P|]. destruct N as [N|N]; [rewrite N in O; discriminate O|exact N].
Defined.

(** C37. Tuning converges. From the start of a scan, whatever the launches take:
    the [k]-th launch runs with the parameter [k mod P], where [P] is the number
    of parameters, and the tuner is not complete before [P] times the number of
    samples launches (an optional tuner reports completion until its first
    launch). After exactly that many launches it is complete; its parameter is
    then the first one with the smallest summary (median, average or maximum) of
    its own times, one per sweep, and stays so for all later launches. *)
Theorem Autotuner_converges (a0 : autotuner) (times : list Scalar) (Sh : shaped a0) :
  (Z.of_nat (length times) < scan_length a0 ->
     let a := launches times (startScan a0) in
     getParam a = zget [] (m_parameters a0) (Z.of_nat (length times) mod Z.of_nat (length (m_parameters a0))) /\
     (isComplete a = true -> m_optional a0 = true /\ times = [])) /\
  (Z.of_nat (length times) = scan_length a0 -> exists a j,
     launches times (startScan a0) = a /\ isComplete a = true /\ m_parameters a0 !! Z.to_nat j = Some (getParam a) /\
     first_min ((fun i => center (m_mode a0) (sweep_times a0 times i)) <$> seqZ 0 (Z.of_nat (length (m_parameters a0)))) j /\
     forall later, launches (times ++ later) (startScan a0) = a).
Proof.
  split.
  - intros L a. destruct (launches_scanning a0 times Sh L) as [Sc St _ _ Pa]. fold a in Sc, St, Pa. split; [exact Pa|].
    unfold isComplete. destruct St as [->|[E ->]]; [discriminate|]. intros _. split; [|reflexivity].
    unfold a, launches in E. simpl in E. destruct (m_optional a0); [reflexivity|discriminate].
  - intros L. destruct (launches_finished a0 times Sh L) as [Sc St (j & Fm & Pa)]. set (a := launches times (startScan a0)) in *.
    exists a, j. split_and!; auto; [unfold isComplete; now rewrite St| |intros later; rewrite launches_app; now apply launches_idle].
    destruct Sc as [(E1 & E2 & E3 & E4) Sh' R]. unfold centers in Fm. rewrite E2, E3 in Fm.
    erewrite list_fmap_ext; [exact Fm|]. intros i x Hx. apply lookup_seqZ in Hx as [-> Hx]. simpl.
    f_equal. symmetry. apply finished_row; [split; auto; now split|assumption|lia].
Qed.

Definition tuner_b : autotuner :=
  mkTuner 3 [[32]; [64]] IDLE 0 0 [32] [[0%Q; 0%Q; 0%Q]; [0%Q; 0%Q; 0%Q]] [0%Q; 0%Q] mode_median false.

Lemma Autotuner_converges_witness :
  exists a j, launches [5; 4; 5; 4; 1; 4]%Q (startScan tuner_b) = a /\ isComplete a = true /\ m_parameters tuner_b !! Z.to_nat j = Some (getParam a).
Proof.
  destruct (proj2 (Autotuner_converges tuner_b [5; 4; 5; 4; 1; 4]%Q
    ltac:(constructor; [split; reflexivity|split; reflexivity|reflexivity|intros [|[|i]] row [= <-]; reflexivity])) eq_refl)
    as (a & j & A & B & C & _). exists a, j. auto.
Defined.

(** Setting a parameter by hand succeeds exactly for the valid parameters of
    the right arity; it ends the scan with that parameter, and a later scan is a
    full scan. *)
Theorem Autotuner_set_parameter (n : nat) (parameter : list Z) (a : autotuner) (Ar : forall p, p ∈ m_parameters a -> length p = n) :
  (is_ok (setParameterPython n parameter a) = true <-> parameter ∈ m_parameters a) /\
  (forall b, setParameterPython n parameter a = Ok b ->
     getParam b = parameter /\ isComplete b = true /\ (forall times, launches times b = b) /\ startScan b = startScan a).
Proof.
  unfold setParameterPython. destruct (Nat.eqb_spec (length parameter) n) as [L|L]; simpl.
  - destruct (bool_decide_reflect (parameter ∈ m_parameters a)) as [H|H]; simpl.
    + split; [tauto|]. intros b [= <-]. split_and!; auto. intros times. now apply launches_idle.
    + split; [split; [discriminate|contradiction]|discriminate].
  - split; [|discriminate]. split; [discriminate|]. intros H%Ar. contradiction.
Qed.

Lemma Autotuner_set_parameter_witness : is_ok (setParameterPython 1 [64] tuner_b) = true.
Proof.
  apply (proj1 (Autotuner_set_parameter 1 [64] tuner_b ltac:(intros p; simpl; rewrite !elem_of_cons, elem_of_nil; intros [->|[->|[]]]; reflexivity))).
  right. left.
Defined.
