(* ===== verification/Variant.v ===== *)
(** Variants: quantities that vary with the time step ([hoomd/Variant.h],
    [hoomd/VectorVariant.h]).

    Time steps are [uint64_t] and wrap where the source adds or subtracts them;
    [Scalar] and [double] values are exact rationals, so floating-point rounding
    is not modelled (the setters keep ramp lengths below [2^53], where
    [double(t)] is exact). Division by a zero period is undefined behaviour and
    yields [None]. [pow] of the C library is a parameter. *)

From S2P Require Import Prelude HOOMDMath.
From Stdlib Require Import ZArith Lia QArith Qminmax Lqa String List.
Local Open Scope Z_scope.

(** [a > b] on scalars. *)
Definition gt_b (a b : Scalar) : bool := negb (Qle_bool a b).

(** [double(n)] of an unsigned integer. *)
Definition to_double (n : Z) : Scalar := inject_Z n.

(** The [2^53] bound of the setters. *)
Definition MAX_EXACT : Z := 9007199254740992.

(** ** The interface a variant offers its clients *)

Class Variant (V : Type) := {
  v_call : V -> Z -> option Scalar;   (* operator()(timestep) *)
  v_min : V -> Scalar;
  v_max : V -> Scalar
}.

(** [Variant::range()] *)
Definition v_range {V} `{Variant V} (v : V) : Scalar * Scalar := (v_min v, v_max v).

(** What [min()] and [max()] promise: every value lies between them. *)
Class VariantBounds (V : Type) `{Variant V} := {
  v_ok : V -> Prop;
  v_bounds : forall v t x, v_ok v -> is_u64 t -> v_call v t = Some x -> (v_min v <= x <= v_max v)%Q
}.

(** ** VariantConstant *)

Module VariantConstant.
Record t := mk { m_value : Scalar }.
Definition call (v : t) (timestep : Z) : Scalar := m_value v.
Definition setValue (value : Scalar) (v : t) : t := {| m_value := value |}.
Definition min (v : t) : Scalar := m_value v.
Definition max (v : t) : Scalar := m_value v.
End VariantConstant.

(** ** VariantRamp *)

Module VariantRamp.

Record t := mk { m_A : Scalar; m_B : Scalar; m_t_start : Z; m_t_ramp : Z }.

Definition setA (A : Scalar) (v : t) : t := mk A (m_B v) (m_t_start v) (m_t_ramp v).
Definition setB (B : Scalar) (v : t) : t := mk (m_A v) B (m_t_start v) (m_t_ramp v).
Definition setTStart (t_start : Z) (v : t) : t := mk (m_A v) (m_B v) t_start (m_t_ramp v).

Definition setTRamp (t_ramp : Z) (v : t) : result t :=
  if t_ramp >=? MAX_EXACT then Throw (invalid_argument "t_ramp must be less than 2**53")
  else Ok (mk (m_A v) (m_B v) (m_t_start v) t_ramp).

(** The members before the constructor body runs are indeterminate; the setters
    overwrite all of them. *)
Definition make (A B : Scalar) (t_start t_ramp : Z) : result t :=
  setTRamp t_ramp (setTStart t_start (setB B (setA A (mk 0 0 0 0)))).

Definition call (v : t) (timestep : Z) : Scalar :=
  if timestep <? m_t_start v then m_A v
  else if timestep <? u64 (m_t_start v + m_t_ramp v) then
    let s := (to_double (u64 (timestep - m_t_start v)) / to_double (m_t_ramp v))%Q in
    (m_B v * s + m_A v * (1 - s))%Q
  else m_B v.

Definition min (v : t) : Scalar := if gt_b (m_A v) (m_B v) then m_B v else m_A v.
Definition max (v : t) : Scalar := if gt_b (m_A v) (m_B v) then m_A v else m_B v.

(** Machine-width members, and a ramp that ends before [2^64]. *)
Definition wf (v : t) : Prop :=
  0 <= m_t_start v /\ 0 <= m_t_ramp v < MAX_EXACT /\ m_t_start v + m_t_ramp v < 2 ^ 64.

End VariantRamp.

(** ** VariantCycle *)

Module VariantCycle.

Record t := mk {
  m_A : Scalar; m_B : Scalar; m_t_start : Z;
  m_t_A : Z; m_t_AB : Z; m_t_B : Z; m_t_BA : Z
}.

Definition setA (A : Scalar) (v : t) : t :=
  mk A (m_B v) (m_t_start v) (m_t_A v) (m_t_AB v) (m_t_B v) (m_t_BA v).
Definition setB (B : Scalar) (v : t) : t :=
  mk (m_A v) B (m_t_start v) (m_t_A v) (m_t_AB v) (m_t_B v) (m_t_BA v).
Definition setTStart (t_start : Z) (v : t) : t :=
  mk (m_A v) (m_B v) t_start (m_t_A v) (m_t_AB v) (m_t_B v) (m_t_BA v).
Definition setTA (t_A : Z) (v : t) : t :=
  mk (m_A v) (m_B v) (m_t_start v) t_A (m_t_AB v) (m_t_B v) (m_t_BA v).
Definition setTAB (t_AB : Z) (v : t) : result t :=
  if t_AB >=? MAX_EXACT then Throw (invalid_argument "t_AB must be less than 2**53")
  else Ok (mk (m_A v) (m_B v) (m_t_start v) (m_t_A v) t_AB (m_t_B v) (m_t_BA v)).
Definition setTB (t_B : Z) (v : t) : t :=
  mk (m_A v) (m_B v) (m_t_start v) (m_t_A v) (m_t_AB v) t_B (m_t_BA v).
Definition setTBA (t_BA : Z) (v : t) : result t :=
  if t_BA >=? MAX_EXACT then Throw (invalid_argument "t_BA must be less than 2**53")
  else Ok (mk (m_A v) (m_B v) (m_t_start v) (m_t_A v) (m_t_AB v) (m_t_B v) t_BA).

Definition make (A B : Scalar) (t_start t_A t_AB t_B t_BA : Z) : result t :=
  (let? v := setTAB t_AB (setTA t_A (setTStart t_start (setB B (setA A (mk 0 0 0 0 0 0 0))))) in
   setTBA t_BA (setTB t_B v))%hoomd.

Definition period (v : t) : Z := u64 (u64 (u64 (m_t_A v + m_t_AB v) + m_t_B v) + m_t_BA v).

Definition call (v : t) (timestep : Z) : option Scalar :=
  if timestep <? m_t_start v then Some (m_A v)
  else
    let delta := u64 (timestep - m_t_start v) in
    let period := period v in
    if period =? 0 then None
    else
      let delta := u64 (delta - u64 (delta / period * period)) in
      if delta <? m_t_A v then Some (m_A v)
      else if delta <? u64 (m_t_A v + m_t_AB v) then
        let w := u64 (delta - m_t_A v) in
        let s := (to_double w / to_double (m_t_AB v))%Q in
        Some (m_B v * s + m_A v * (1 - s))%Q
      else if delta <? u64 (u64 (m_t_A v + m_t_AB v) + m_t_B v) then Some (m_B v)
      else
        let w := u64 (delta - u64 (u64 (m_t_A v + m_t_AB v) + m_t_B v)) in
        let s := (to_double w / to_double (m_t_BA v))%Q in
        Some (m_A v * s + m_B v * (1 - s))%Q.

Definition min (v : t) : Scalar := if gt_b (m_A v) (m_B v) then m_B v else m_A v.
Definition max (v : t) : Scalar := if gt_b (m_A v) (m_B v) then m_A v else m_B v.

Definition wf (v : t) : Prop :=
  0 <= m_t_start v < 2 ^ 64 /\ 0 <= m_t_A v /\ 0 <= m_t_AB v < MAX_EXACT /\ 0 <= m_t_B v /\
  0 <= m_t_BA v < MAX_EXACT /\ 0 < m_t_A v + m_t_AB v + m_t_B v + m_t_BA v < 2 ^ 64.

End VariantCycle.

(** ** VariantPower *)

Module VariantPower.
Section power.
Context (pow : Scalar -> Scalar -> Scalar).

Record t := mk {
  m_A : Scalar; m_B : Scalar; m_power : Scalar; m_t_start : Z; m_t_ramp : Z;
  m_offset : Scalar; m_inv_start : Scalar; m_inv_end : Scalar
}.

Definition computeOffset (a b : Scalar) : Scalar :=
  if gt_b a 0 && gt_b b 0 then 0%Q else if gt_b a b then (- b)%Q else (- a)%Q.

Definition setStartEnd (v : t) : t :=
  mk (m_A v) (m_B v) (m_power v) (m_t_start v) (m_t_ramp v) (m_offset v)
     (pow (m_A v + m_offset v) (1 / m_power v))
     (pow (m_B v + m_offset v) (1 / m_power v)).

Definition setInternals (v : t) : t :=
  let new_offset := computeOffset (m_A v) (m_B v) in
  if negb (Qeq_bool new_offset (m_offset v)) then
    setStartEnd (mk (m_A v) (m_B v) (m_power v) (m_t_start v) (m_t_ramp v) new_offset
                    (m_inv_start v) (m_inv_end v))
  else v.

(** The constructor does not check [t_ramp] against [2^53]. *)
Definition make (A B power : Scalar) (t_start t_ramp : Z) : t :=
  setStartEnd (mk A B power t_start t_ramp (computeOffset A B) 0 0).

Definition setA (A : Scalar) (v : t) : t :=
  setInternals (mk A (m_B v) (m_power v) (m_t_start v) (m_t_ramp v) (m_offset v) (m_inv_start v) (m_inv_end v)).
Definition setB (B : Scalar) (v : t) : t :=
  setInternals (mk (m_A v) B (m_power v) (m_t_start v) (m_t_ramp v) (m_offset v) (m_inv_start v) (m_inv_end v)).
Definition setPower (power : Scalar) (v : t) : t :=
  setStartEnd (mk (m_A v) (m_B v) power (m_t_start v) (m_t_ramp v) (m_offset v) (m_inv_start v) (m_inv_end v)).
Definition setTStart (t_start : Z) (v : t) : t :=
  mk (m_A v) (m_B v) (m_power v) t_start (m_t_ramp v) (m_offset v) (m_inv_start v) (m_inv_end v).
Definition setTRamp (t_ramp : Z) (v : t) : result t :=
  if t_ramp >=? MAX_EXACT then Throw (invalid_argument "t_ramp must be less than 2**53")
  else Ok (mk (m_A v) (m_B v) (m_power v) (m_t_start v) t_ramp (m_offset v) (m_inv_start v) (m_inv_end v)).

Definition call (v : t) (timestep : Z) : Scalar :=
  if timestep <=? m_t_start v then m_A v
  else if timestep <? u64 (m_t_start v + m_t_ramp v) then
    let s := (to_double (u64 (timestep - m_t_start v)) / to_double (m_t_ramp v))%Q in
    let inv_result := (m_inv_end v * s + m_inv_start v * (1 - s))%Q in
    (pow inv_result (m_power v) - m_offset v)%Q
  else m_B v.

Definition min (v : t) : Scalar := if gt_b (m_A v) (m_B v) then m_B v else m_A v.
Definition max (v : t) : Scalar := if gt_b (m_A v) (m_B v) then m_A v else m_B v.

(** The cached roots belong to the current parameters. *)
Definition roots_current (v : t) : Prop :=
  m_offset v = computeOffset (m_A v) (m_B v) /\
  m_inv_start v = pow (m_A v + m_offset v) (1 / m_power v) /\
  m_inv_end v = pow (m_B v + m_offset v) (1 / m_power v).

Definition wf (v : t) : Prop :=
  0 <= m_t_start v /\ 0 <= m_t_ramp v < MAX_EXACT /\ m_t_start v + m_t_ramp v < 2 ^ 64.

End power.
End VariantPower.

(** ** Vector variants over a box *)

(** The array [box_to_array] returns: [Lx, Ly, Lz, xy, xz, yz]. *)
Record box_array := mk_box { Lx : Scalar; Ly : Scalar; Lz : Scalar; xy : Scalar; xz : Scalar; yz : Scalar }.

(** [VectorVariantBoxInterpolate::operator()], for any variant. *)
Definition box_interpolate {V} `{Variant V} (m_initial_box m_final_box : box_array) (m_variant : V)
    (timestep : Z) : option box_array :=
  let min := v_min m_variant in
  let max := v_max m_variant in
  match v_call m_variant timestep with
  | None => None
  | Some cur_value =>
      let scale :=
        if Qeq_bool cur_value max then 1%Q
        else if gt_b cur_value min then ((cur_value - min) / (max - min))%Q
        else 0%Q in
      let mix f := (f m_final_box * scale + f m_initial_box * (1 - scale))%Q in
      let mix' f := (f m_final_box * scale + (1 - scale) * f m_initial_box)%Q in
      Some (mk_box (mix Lx) (mix Ly) (mix Lz) (mix' xy) (mix' xz) (mix' yz))
  end.

(** ** Arithmetic of interpolation *)

Lemma gt_b_true a b : gt_b a b = true <-> (b < a)%Q.
Proof.
  unfold gt_b. rewrite negb_true_iff. destruct (Qle_bool a b) eqn:E; split; intros H; try discriminate.
  - apply Qle_bool_iff in E. lra.
  - apply Qnot_le_lt. intros C. apply Qle_bool_iff in C. congruence.
  - reflexivity.
Qed.

Lemma gt_b_false a b : gt_b a b = false <-> (a <= b)%Q.
Proof. unfold gt_b. rewrite negb_false_iff. apply Qle_bool_iff. Qed.

Ltac qbool :=
  repeat match goal with
  | H : gt_b _ _ = true |- _ => apply gt_b_true in H
  | H : gt_b _ _ = false |- _ => apply gt_b_false in H
  end.

(** [b * s + a * (1 - s)] lies between [a] and [b] for [s] in the unit interval. *)
Lemma lerp_between a b s : (0 <= s <= 1)%Q -> (a <= b)%Q ->
  (a <= b * s + a * (1 - s) <= b)%Q /\ (a <= a * s + b * (1 - s) <= b)%Q.
Proof.
  intros Hs Hab.
  assert (0 <= (b - a) * s)%Q by (apply Qmult_le_0_compat; lra).
  assert (0 <= (b - a) * (1 - s))%Q by (apply Qmult_le_0_compat; lra).
  lra.
Qed.

Lemma lerp_mono a b s s' : (a <= b)%Q -> (s <= s')%Q ->
  (b * s + a * (1 - s) <= b * s' + a * (1 - s'))%Q.
Proof.
  intros Hab Hs. assert (0 <= (b - a) * (s' - s))%Q by (apply Qmult_le_0_compat; lra). lra.
Qed.

Lemma to_double_le v w : v <= w -> (to_double v <= to_double w)%Q.
Proof. unfold to_double. rewrite <- Zle_Qle. trivial. Qed.

Lemma to_double_pos w : 0 < w -> (0 < to_double w)%Q.
Proof. intros H. change 0%Q with (to_double 0). unfold to_double. rewrite <- Zlt_Qlt. exact H. Qed.

Lemma to_double_nonneg w : 0 <= w -> (0 <= to_double w)%Q.
Proof. exact (to_double_le 0 w). Qed.

Lemma ratio_unit v w : 0 <= v <= w -> 0 < w -> (0 <= to_double v / to_double w <= 1)%Q.
Proof.
  intros Hv Hw. pose proof (to_double_pos w Hw). pose proof (to_double_nonneg v ltac:(lia)).
  pose proof (to_double_le v w ltac:(lia)).
  split; [apply Qle_shift_div_l | apply Qle_shift_div_r]; lra.
Qed.

Lemma ratio_mono v v' w : v <= v' -> 0 < w -> (to_double v / to_double w <= to_double v' / to_double w)%Q.
Proof.
  intros Hv Hw. unfold Qdiv. apply Qmult_le_compat_r.
  - apply to_double_le. assumption.
  - apply Qinv_le_0_compat, to_double_nonneg. lia.
Qed.

(** [minmax a b x]: [x] lies between the smaller and the larger of [a] and [b],
    computed the way every [min()]/[max()] of the source does. *)
Definition minmax (a b x : Scalar) : Prop :=
  ((if gt_b a b then b else a) <= x <= (if gt_b a b then a else b))%Q.

Lemma minmax_l a b : minmax a b a.
Proof. unfold minmax. destruct (gt_b a b) eqn:E; qbool; lra. Qed.

Lemma minmax_r a b : minmax a b b.
Proof. unfold minmax. destruct (gt_b a b) eqn:E; qbool; lra. Qed.

Lemma minmax_lerp a b s : (0 <= s <= 1)%Q ->
  minmax a b (b * s + a * (1 - s)) /\ minmax a b (a * s + b * (1 - s)).
Proof.
  intros Hs. unfold minmax. destruct (gt_b a b) eqn:E; qbool.
  - destruct (lerp_between b a s Hs); [lra|]. lra.
  - apply lerp_between; assumption.
Qed.

#[export] Hint Resolve minmax_l minmax_r : hoomd.

(** ** Ramp *)

Lemma ramp_bounds v t : VariantRamp.wf v -> is_u64 t ->
  minmax (VariantRamp.m_A v) (VariantRamp.m_B v) (VariantRamp.call v t).
Proof.
  intros (H0 & H1 & H2) Ht. unfold VariantRamp.call, is_u64, MAX_EXACT in *.
  rewrite (u64_small (_ + _)) by (unfold is_u64; lia).
  destruct (t <? _) eqn:E1; [auto with hoomd|].
  destruct (t <? _ + _) eqn:E2; [|auto with hoomd].
  zbool. rewrite u64_small by (unfold is_u64; lia).
  apply minmax_lerp, ratio_unit; lia.
Qed.

#[export] Instance VariantRamp_variant : Variant VariantRamp.t :=
  {| v_call v t := Some (VariantRamp.call v t); v_min := VariantRamp.min; v_max := VariantRamp.max |}.

#[export] Instance VariantRamp_bounds : VariantBounds VariantRamp.t.
Proof.
  refine {| v_ok := VariantRamp.wf |}. intros v t x W Ht [= <-].
  apply (ramp_bounds v t W Ht).
Defined.

#[export] Instance VariantConstant_variant : Variant VariantConstant.t :=
  {| v_call v t := Some (VariantConstant.call v t); v_min := VariantConstant.min; v_max := VariantConstant.max |}.

#[export] Instance VariantConstant_bounds : VariantBounds VariantConstant.t.
Proof.
  refine {| v_ok _ := True |}. intros v t x _ _ [= <-]. simpl.
  unfold VariantConstant.min, VariantConstant.max, VariantConstant.call. lra.
Defined.

(** ** Cycle *)

(** In range, [call] is a function of the offset modulo the period. *)
Definition cycle_at (v : VariantCycle.t) (delta : Z) : Scalar :=
  let '(VariantCycle.mk A B _ t_A t_AB t_B t_BA) := v in
  if delta <? t_A then A
  else if delta <? t_A + t_AB then
    (B * (to_double (delta - t_A) / to_double t_AB)
     + A * (1 - to_double (delta - t_A) / to_double t_AB))%Q
  else if delta <? t_A + t_AB + t_B then B
  else (A * (to_double (delta - (t_A + t_AB + t_B)) / to_double t_BA)
        + B * (1 - to_double (delta - (t_A + t_AB + t_B)) / to_double t_BA))%Q.

Lemma cycle_period v : VariantCycle.wf v ->
  VariantCycle.period v
  = VariantCycle.m_t_A v + VariantCycle.m_t_AB v + VariantCycle.m_t_B v + VariantCycle.m_t_BA v.
Proof. intros W. unfold VariantCycle.wf, VariantCycle.period in *. wrap64. reflexivity. Qed.

Lemma cycle_call v t : VariantCycle.wf v -> is_u64 t ->
  VariantCycle.call v t =
  Some (if t <? VariantCycle.m_t_start v then VariantCycle.m_A v
        else cycle_at v ((t - VariantCycle.m_t_start v) mod VariantCycle.period v)).
Proof.
  intros W Ht. pose proof (cycle_period v W) as P. unfold VariantCycle.call. rewrite P.
  unfold is_u64 in Ht.
  destruct v as [A B t0 tA tAB tB tBA]; unfold VariantCycle.wf in W; simpl in *.
  destruct (t <? t0) eqn:E0; [reflexivity|]. zbool.
  rewrite (u64_small (t - t0)) by (unfold is_u64; lia).
  set (p := tA + tAB + tB + tBA) in *.
  destruct (p =? 0) eqn:Ep; [zbool; lia|]. zbool.
  pose proof (Z.div_mod (t - t0) p ltac:(lia)). pose proof (Z.mod_pos_bound (t - t0) p ltac:(lia)).
  pose proof (Z.div_pos (t - t0) p ltac:(lia) ltac:(lia)).
  rewrite (u64_small (_ / p * p)) by (unfold is_u64; lia).
  replace (t - t0 - (t - t0) / p * p) with ((t - t0) mod p) by lia.
  set (d := (t - t0) mod p) in *.
  rewrite (u64_small d), (u64_small (tA + tAB)), (u64_small (tA + tAB + tB)) by (unfold is_u64; lia).
  destruct (d <? tA) eqn:E1; [reflexivity|]. zbool.
  destruct (d <? tA + tAB) eqn:E2; [rewrite u64_small by (unfold is_u64; lia); reflexivity|]. zbool.
  destruct (d <? tA + tAB + tB) eqn:E3; [reflexivity|]. zbool.
  rewrite u64_small by (unfold is_u64; lia). reflexivity.
Qed.

Lemma cycle_at_bounds v d : VariantCycle.wf v -> 0 <= d < VariantCycle.period v ->
  minmax (VariantCycle.m_A v) (VariantCycle.m_B v) (cycle_at v d).
Proof.
  intros W. rewrite (cycle_period v W).
  destruct v as [A B t0 tA tAB tB tBA]; unfold VariantCycle.wf in W; simpl in *. intros Hd.
  destruct (d <? tA) eqn:E1; [auto with hoomd|].
  destruct (d <? tA + tAB) eqn:E2; [zbool; apply minmax_lerp, ratio_unit; lia|].
  destruct (d <? tA + tAB + tB) eqn:E3; [auto with hoomd|].
  zbool. apply minmax_lerp, ratio_unit; lia.
Qed.

Lemma cycle_bounds v t x : VariantCycle.wf v -> is_u64 t -> VariantCycle.call v t = Some x ->
  minmax (VariantCycle.m_A v) (VariantCycle.m_B v) x.
Proof.
  intros W Ht. rewrite (cycle_call v t W Ht). intros [= <-].
  destruct (t <? VariantCycle.m_t_start v); [auto with hoomd|].
  apply cycle_at_bounds; [assumption|]. apply Z.mod_pos_bound.
  rewrite (cycle_period v W). unfold VariantCycle.wf in W. lia.
Qed.

#[export] Instance VariantCycle_variant : Variant VariantCycle.t :=
  {| v_call := VariantCycle.call; v_min := VariantCycle.min; v_max := VariantCycle.max |}.

#[export] Instance VariantCycle_bounds : VariantBounds VariantCycle.t.
Proof.
  refine {| v_ok := VariantCycle.wf |}. intros v t x W Ht E. apply (cycle_bounds v t x W Ht E).
Defined.

(** ** Power *)

Section power_bounds.
Context (pow : Scalar -> Scalar -> Scalar) (p : Scalar).

(** The behaviour of [pow] the class relies on, for a positive power [p]: it is
    monotone on non-negative bases and undoes its own root. *)
Hypothesis pow_mono : forall x y, (0 <= x <= y)%Q -> (pow x p <= pow y p)%Q.
Hypothesis root_nonneg : forall x, (0 <= x)%Q -> (0 <= pow x (1 / p))%Q.
Hypothesis pow_root : forall x, (0 <= x)%Q -> (pow (pow x (1 / p)) p == x)%Q.

Lemma computeOffset_nonneg a b :
  (0 <= a + VariantPower.computeOffset a b)%Q /\ (0 <= b + VariantPower.computeOffset a b)%Q.
Proof.
  unfold VariantPower.computeOffset.
  destruct (gt_b a 0 && gt_b b 0)%bool eqn:E.
  - zbool. qbool. lra.
  - destruct (gt_b a b) eqn:E'; qbool; lra.
Qed.

(** The ramp between two roots raised to the power stays between the values the
    roots come from. *)
Lemma pow_lerp a b s : (0 <= a)%Q -> (0 <= b)%Q -> (0 <= s <= 1)%Q ->
  minmax a b (pow (pow b (1 / p) * s + pow a (1 / p) * (1 - s)) p).
Proof.
  intros Ha Hb Hs. pose proof (root_nonneg a Ha). pose proof (root_nonneg b Hb).
  set (ra := pow a (1 / p)) in *. set (rb := pow b (1 / p)) in *.
  assert (Ra : (pow ra p == a)%Q) by (apply pow_root; assumption).
  assert (Rb : (pow rb p == b)%Q) by (apply pow_root; assumption).
  destruct (Qlt_le_dec rb ra) as [L | L].
  - destruct (lerp_between rb ra s Hs) as [_ [L1 L2]]; [lra|].
    pose proof (pow_mono rb (rb * s + ra * (1 - s)) ltac:(lra)).
    pose proof (pow_mono (rb * s + ra * (1 - s)) ra ltac:(lra)).
    unfold minmax. destruct (gt_b a b) eqn:E; qbool; lra.
  - destruct (lerp_between ra rb s Hs L) as [[L1 L2] _].
    pose proof (pow_mono ra (rb * s + ra * (1 - s)) ltac:(lra)).
    pose proof (pow_mono (rb * s + ra * (1 - s)) rb ltac:(lra)).
    unfold minmax. destruct (gt_b a b) eqn:E; qbool; lra.
Qed.

Lemma power_bounds v t :
  VariantPower.wf v -> VariantPower.roots_current pow v -> VariantPower.m_power v = p -> is_u64 t ->
  minmax (VariantPower.m_A v) (VariantPower.m_B v) (VariantPower.call pow v t).
Proof.
  intros W (Ho & Hs & He) Hp Ht. unfold VariantPower.call, VariantPower.wf, MAX_EXACT, is_u64 in *.
  rewrite (u64_small (_ + _)) by (unfold is_u64; lia).
  destruct (t <=? _) eqn:E1; [auto with hoomd|].
  destruct (t <? _ + _) eqn:E2; [|auto with hoomd].
  zbool. rewrite u64_small by (unfold is_u64; lia). rewrite Hs, He, Hp.
  set (s := (to_double _ / to_double _)%Q).
  assert (0 <= s <= 1)%Q by (apply ratio_unit; lia).
  pose proof (computeOffset_nonneg (VariantPower.m_A v) (VariantPower.m_B v)) as [Na Nb].
  rewrite Ho. set (o := VariantPower.computeOffset _ _) in *.
  set (a := VariantPower.m_A v) in *. set (b := VariantPower.m_B v) in *.
  pose proof (pow_lerp (a + o) (b + o) s Na Nb H) as M.
  set (y := pow _ p) in *. clearbody y. unfold minmax in *.
  destruct (gt_b a b) eqn:E, (gt_b (a + o) (b + o)) eqn:E'; qbool; lra.
Qed.

End power_bounds.

Lemma power_make_current pow A B power t_start t_ramp :
  VariantPower.roots_current pow (VariantPower.make pow A B power t_start t_ramp).
Proof. repeat split. Qed.

(** ** Properties *)

(** Fraction of the ramp completed at a time step. *)
Definition ramp_fraction (v : VariantRamp.t) (t : Z) : Scalar :=
  let '(VariantRamp.mk _ _ t0 tr) := v in
  if t <? t0 then 0%Q else if t <? t0 + tr then (to_double (t - t0) / to_double tr)%Q else 1%Q.

Lemma ramp_call_fraction v t : VariantRamp.wf v -> is_u64 t ->
  (VariantRamp.call v t == VariantRamp.m_A v + (VariantRamp.m_B v - VariantRamp.m_A v) * ramp_fraction v t)%Q.
Proof.
  destruct v as [A B t0 tr]. unfold VariantRamp.wf, VariantRamp.call, ramp_fraction, is_u64. simpl.
  intros W Ht. rewrite (u64_small (_ + _)) by (unfold is_u64; lia).
  destruct (t <? t0) eqn:E1; [ring|]. destruct (t <? t0 + tr) eqn:E2; [|ring].
  zbool. rewrite u64_small by (unfold is_u64; lia). ring.
Qed.

Lemma ramp_fraction_unit v t : VariantRamp.wf v -> (0 <= ramp_fraction v t <= 1)%Q.
Proof.
  destruct v as [A B t0 tr]. unfold VariantRamp.wf, ramp_fraction. simpl. intros W.
  destruct (t <? t0) eqn:E1; [lra|]. destruct (t <? t0 + tr) eqn:E2; [|lra].
  zbool. apply ratio_unit; lia.
Qed.

Lemma ramp_fraction_mono v t t' : VariantRamp.wf v -> t <= t' ->
  (ramp_fraction v t <= ramp_fraction v t')%Q.
Proof.
  intros W Ht. pose proof (ramp_fraction_unit v t W). pose proof (ramp_fraction_unit v t' W).
  destruct v as [A B t0 tr]. unfold VariantRamp.wf, ramp_fraction in *. simpl in *.
  destruct (t <? t0) eqn:E1; [lra|]. destruct (t' <? t0) eqn:E1'; [zbool; lia|].
  destruct (t' <? t0 + tr) eqn:E2'; [|lra]. destruct (t <? t0 + tr) eqn:E2; [|zbool; lia].
  zbool. apply ratio_mono; lia.
Qed.

Lemma ramp_make_inv A B t_start t_ramp v :
  VariantRamp.make A B t_start t_ramp = Ok v ->
  v = VariantRamp.mk A B t_start t_ramp /\ t_ramp < MAX_EXACT.
Proof.
  unfold VariantRamp.make, VariantRamp.setTRamp. destruct (t_ramp >=? MAX_EXACT) eqn:E; [discriminate|].
  intros [= <-]. zbool. split; [reflexivity|assumption].
Qed.

(** A constructed [VariantRamp] whose end fits 64 bits is the linear
    interpolation from [A] to [B]: its value is [A + (B - A) * f] for a fraction
    [f] that is 0 before [t_start], 1 from [t_start + t_ramp] on and
    non-decreasing in between. *)
Theorem VariantRamp_linear (A B : Scalar) (t_start t_ramp : Z) (v : VariantRamp.t)
    (New : VariantRamp.make A B t_start t_ramp = Ok v)
    (Hs : is_u64 t_start) (Hr : is_u64 t_ramp) (Fit : t_start + t_ramp < 2 ^ 64) :
  exists f : Z -> Scalar,
    (forall t, is_u64 t -> (VariantRamp.call v t == A + (B - A) * f t)%Q /\ (0 <= f t <= 1)%Q) /\
    (forall t t', t <= t' -> (f t <= f t')%Q) /\
    (forall t, t < t_start -> (f t == 0)%Q) /\
    (forall t, t_start + t_ramp <= t -> (f t == 1)%Q).
Proof.
  destruct (ramp_make_inv _ _ _ _ _ New) as [-> Hlt]. unfold is_u64, MAX_EXACT in *.
  set (v := VariantRamp.mk A B t_start t_ramp).
  assert (W : VariantRamp.wf v) by (unfold VariantRamp.wf, MAX_EXACT; simpl; lia).
  exists (ramp_fraction v). split; [|split; [|split]].
  - intros t Ht. split; [apply (ramp_call_fraction v t W Ht) | apply ramp_fraction_unit; assumption].
  - intros t t'. apply ramp_fraction_mono. assumption.
  - intros t Ht. simpl. destruct (t <? t_start) eqn:E; [reflexivity|zbool; lia].
  - intros t Ht. simpl. destruct (t <? t_start) eqn:E; [zbool; lia|].
    destruct (t <? t_start + t_ramp) eqn:E'; [zbool; lia|reflexivity].
Qed.

Lemma VariantRamp_linear_witness :
  VariantRamp.make 1 3 10 20 = Ok (VariantRamp.mk 1 3 10 20) /\
  exists f : Z -> Scalar, (VariantRamp.call (VariantRamp.mk 1 3 10 20) 15 == 1 + (3 - 1) * f 15%Z)%Q.
Proof.
  split; [reflexivity|].
  destruct (VariantRamp_linear 1 3 10 20 (VariantRamp.mk 1 3 10 20) eq_refl) as (f & H & _);
    [unfold is_u64; lia | unfold is_u64; lia | lia |].
  exists f. apply H. unfold is_u64. lia.
Defined.

(** When [t_start + t_ramp] does not fit 64 bits the ramp never
    interpolates: the sum wraps below [t_start] and the value jumps from [A] to
    [B] at [t_start]. *)
Theorem VariantRamp_overflow (A B : Scalar) (t_start t_ramp : Z) (v : VariantRamp.t) (t : Z)
    (New : VariantRamp.make A B t_start t_ramp = Ok v)
    (Hs : is_u64 t_start) (Hr : is_u64 t_ramp) (Over : 2 ^ 64 <= t_start + t_ramp) (Ht : is_u64 t) :
  VariantRamp.call v t = if t <? t_start then A else B.
Proof.
  destruct (ramp_make_inv _ _ _ _ _ New) as [-> Hlt]. unfold is_u64, MAX_EXACT in *.
  unfold VariantRamp.call. simpl. destruct (t <? t_start) eqn:E; [reflexivity|].
  replace (u64 (t_start + t_ramp)) with (t_start + t_ramp - 2 ^ 64).
  - destruct (t <? t_start + t_ramp - 2 ^ 64) eqn:E'; [zbool; lia|reflexivity].
  - unfold u64. apply (Z.mod_unique _ _ 1); lia.
Qed.

Lemma VariantRamp_overflow_witness :
  VariantRamp.call (VariantRamp.mk 1 3 (2 ^ 64 - 10) 20) (2 ^ 64 - 5) = 3%Q.
Proof.
  exact (VariantRamp_overflow 1 3 (2 ^ 64 - 10) 20 _ (2 ^ 64 - 5) eq_refl
    ltac:(unfold is_u64; lia) ltac:(unfold is_u64; lia) ltac:(lia) ltac:(unfold is_u64; lia)).
Defined.

(** A [VariantCycle] with a non-zero period that fits 64 bits is defined at
    every time step, stays within [[min(), max()]], is [A] before [t_start] and
    repeats with its period afterwards. *)
Theorem VariantCycle_periodic (v : VariantCycle.t) (t : Z) (W : VariantCycle.wf v) (Ht : is_u64 t) :
  exists x, VariantCycle.call v t = Some x /\
    (VariantCycle.min v <= x <= VariantCycle.max v)%Q /\
    (t < VariantCycle.m_t_start v -> x = VariantCycle.m_A v) /\
    (VariantCycle.m_t_start v <= t -> t + VariantCycle.period v < 2 ^ 64 ->
       VariantCycle.call v (t + VariantCycle.period v) = Some x).
Proof.
  pose proof (cycle_call v t W Ht) as E. eexists. split; [exact E|]. split; [|split].
  - exact (cycle_bounds v t _ W Ht E).
  - intros Hlt. destruct (t <? _) eqn:E'; [reflexivity|zbool; lia].
  - intros Hge Hfit. pose proof (cycle_period v W) as P. pose proof W as W'. unfold VariantCycle.wf in W'.
    unfold is_u64 in Ht. rewrite cycle_call by (auto; unfold is_u64; lia).
    destruct (t + _ <? _) eqn:E1; [zbool; lia|]. destruct (t <? _) eqn:E2; [zbool; lia|].
    do 2 f_equal. replace (t + VariantCycle.period v - VariantCycle.m_t_start v)
      with (t - VariantCycle.m_t_start v + 1 * VariantCycle.period v) by lia.
    apply Z.mod_add. lia.
Qed.

Lemma VariantCycle_periodic_witness :
  exists x, VariantCycle.call (VariantCycle.mk 0 1 5 2 4 2 4) 9 = Some x /\
    VariantCycle.call (VariantCycle.mk 0 1 5 2 4 2 4) 21 = Some x.
Proof.
  destruct (VariantCycle_periodic (VariantCycle.mk 0 1 5 2 4 2 4) 9) as (x & E & _ & _ & P).
  - unfold VariantCycle.wf, MAX_EXACT. simpl. lia.
  - unfold is_u64. lia.
  - exists x. split; [exact E|]. apply P; vm_compute; [discriminate|reflexivity].
Defined.

(** For any [pow] that is monotone and inverts its root at a positive
    power, a freshly constructed [VariantPower] stays within [[min(), max()]] at
    every time step, negative end points included. *)
Theorem VariantPower_range (pow : Scalar -> Scalar -> Scalar) (A B power : Scalar) (t_start t_ramp t : Z)
    (Hmono : forall x y, (0 <= x <= y)%Q -> (pow x power <= pow y power)%Q)
    (Hroot0 : forall x, (0 <= x)%Q -> (0 <= pow x (1 / power))%Q)
    (Hroot : forall x, (0 <= x)%Q -> (pow (pow x (1 / power)) power == x)%Q)
    (Hs : is_u64 t_start) (Hr : 0 <= t_ramp < MAX_EXACT) (Fit : t_start + t_ramp < 2 ^ 64) (Ht : is_u64 t) :
  let v := VariantPower.make pow A B power t_start t_ramp in
  (VariantPower.min v <= VariantPower.call pow v t <= VariantPower.max v)%Q.
Proof.
  intros v. apply (power_bounds pow power Hmono Hroot0 Hroot v t).
  - unfold VariantPower.wf. simpl. unfold is_u64 in Hs. lia.
  - apply power_make_current.
  - reflexivity.
  - assumption.
Qed.

Lemma VariantPower_range_witness :
  let v := VariantPower.make (fun x _ => x) (-2) 4 1 0 6 in
  (VariantPower.min v <= VariantPower.call (fun x _ => x) v 3 <= VariantPower.max v)%Q.
Proof.
  apply (VariantPower_range (fun x _ => x) (-2) 4 1 0 6 3); intros; unfold is_u64, MAX_EXACT; try lia; try lra.
Defined.

(** [setA] on a [VariantPower] whose end points stay positive does not
    refresh the cached root of the old [A]: the ramp goes on interpolating from
    the old value, so after it [min()] no longer bounds the variant. *)
Theorem VariantPower_setA_stale (pow : Scalar -> Scalar -> Scalar) (A A' B power : Scalar) (t_start t_ramp : Z)
    (HA : (0 < A)%Q) (HA' : (0 < A')%Q) (HB : (0 < B)%Q) :
  let v := VariantPower.setA pow A' (VariantPower.make pow A B power t_start t_ramp) in
  VariantPower.m_A v = A' /\ VariantPower.m_inv_start v = pow (A + 0)%Q (1 / power)%Q.
Proof.
  assert (P : forall x, (0 < x)%Q -> gt_b x 0 = true) by (intros; apply gt_b_true; assumption).
  unfold VariantPower.setA, VariantPower.setInternals, VariantPower.make, VariantPower.setStartEnd,
    VariantPower.computeOffset; simpl.
  rewrite (P A HA), (P B HB), (P A' HA'). simpl. split; reflexivity.
Qed.

Lemma VariantPower_setA_stale_witness :
  let v := VariantPower.setA (fun x _ => x) 10 (VariantPower.make (fun x _ => x) 1 20 1 0 10) in
  VariantPower.m_inv_start v = (1 + 0)%Q /\ (VariantPower.call (fun x _ => x) v 1 < VariantPower.min v)%Q.
Proof.
  split.
  - apply (VariantPower_setA_stale (fun x _ => x) 1 10 20 1 0 10); reflexivity.
  - vm_compute. reflexivity.
Defined.

(** [VectorVariantBoxInterpolate], against the interface every variant
    offers: whenever the variant respects its [min()] and [max()], each of the
    six box parameters lies between those of the initial and the final box. *)
Theorem box_interpolate_between {V} `{VariantBounds V} (b0 b1 b : box_array) (v : V) (t : Z)
    (Hok : v_ok v) (Ht : is_u64 t) (E : box_interpolate b0 b1 v t = Some b) :
  Forall (fun f => minmax (f b0) (f b1) (f b)) (Lx :: Ly :: Lz :: xy :: xz :: yz :: nil).
Proof.
  unfold box_interpolate in E. destruct (v_call v t) as [x|] eqn:C; [|discriminate]. injection E as <-.
  pose proof (v_bounds v t x Hok Ht C) as [L1 L2].
  set (scale := if Qeq_bool x (v_max v) then 1%Q else _).
  assert (S : (0 <= scale <= 1)%Q).
  { subst scale. destruct (Qeq_bool x (v_max v)) eqn:E1; [lra|]. destruct (gt_b x (v_min v)) eqn:E2; [|lra].
    qbool. apply Qeq_bool_neq in E1. assert (v_min v < v_max v)%Q by lra.
    split; [apply Qle_shift_div_l | apply Qle_shift_div_r]; lra. }
  assert (M : forall a c, minmax a c (c * scale + a * (1 - scale)) /\ minmax a c (c * scale + (1 - scale) * a)).
  { intros a c. destruct (minmax_lerp a c scale S) as [M _]. split; [exact M|].
    unfold minmax in *. destruct (gt_b a c); lra. }
  repeat constructor; apply M.
Qed.

Lemma box_interpolate_between_witness :
  exists b, box_interpolate (mk_box 1 1 1 0 0 0) (mk_box 2 2 2 1 1 1) (VariantRamp.mk 0 1 0 10) 5 = Some b /\
    Forall (fun f => minmax (f (mk_box 1 1 1 0 0 0)) (f (mk_box 2 2 2 1 1 1)) (f b))
      (Lx :: Ly :: Lz :: xy :: xz :: yz :: nil).
Proof.
  eexists. split; [reflexivity|].
  apply (box_interpolate_between (mk_box 1 1 1 0 0 0) (mk_box 2 2 2 1 1 1) _ (VariantRamp.mk 0 1 0 10) 5).
  - simpl. unfold VariantRamp.wf, MAX_EXACT. simpl. lia.
  - unfold is_u64. lia.
  - reflexivity.
Defined.
