(* ===== verification/GPUArray.v ===== *)
(** Arrays mirrored on host and device: [hoomd/GPUArray.h], built with
    [ENABLE_HIP].

    The state of a [GPUArray<T>] is the record [gpuarray]. A memory block is a
    list of cells, [None] for memory that was allocated and never written. The
    device pointer owns a block of its own, or, for mapped pinned memory,
    addresses the host block. The allocators ([posix_memalign], [hipMalloc],
    [hipHostGetDevicePointer]) are parameters that decide whether an allocation
    succeeds; copies and memsets are modelled as completed when the call
    returns, so for [async] handles the model is the state after the
    synchronisation the header asks for. Logging and [assert] have no effect.

    A method that throws returns the state it leaves behind together with the
    exception. *)

From S2P Require Import Prelude.
From Stdlib Require Import ZArith Lia String.
From stdpp Require Import base list numbers.
Local Open Scope Z_scope.

(** [access_location::Enum], [data_location::Enum], [access_mode::Enum] *)
Inductive access_location := acc_host | acc_device.
Inductive data_location := loc_host | loc_device | loc_hostdevice.
Inductive access_mode := mode_read | mode_readwrite | mode_overwrite.

#[global] Instance access_location_eq_dec : EqDecision access_location.
Proof. solve_decision. Defined.
#[global] Instance data_location_eq_dec : EqDecision data_location.
Proof. solve_decision. Defined.
#[global] Instance access_mode_eq_dec : EqDecision access_mode.
Proof. solve_decision. Defined.

(** The fields of [ExecutionConfiguration] the class reads. *)
Record exec_config := mkExec { isCUDAEnabled : bool; canMapHostMemory : bool }.

Inductive hipError := hipSuccess | hipErrorMemoryAllocation | hipErrorOther.

(** The allocators: whether a request for that many bytes succeeds. *)
Record allocators := mkAlloc {
  posix_memalign : Z -> bool;
  hipMalloc : Z -> hipError;
  hipHostGetDevicePointer : hipError
}.

Section gpuarray.
Context {T : Type} (zero : T) (sizeof_T : Z) (A : allocators).

Abbreviation block := (list (option T)).

(** What [d_data] points to. *)
Inductive device_ptr := dev_owned (b : block) | dev_mapped.

Record gpuarray := mkGPUArray {
  m_num_elements : Z;
  m_pitch : Z;
  m_height : Z;
  m_acquired : bool;
  m_data_location : data_location;
  m_mapped : bool;
  d_data : option device_ptr;
  h_data : option block;
  m_exec_conf : option exec_config
}.

Definition set_sizes (n p h : Z) (a : gpuarray) : gpuarray :=
  mkGPUArray n p h (m_acquired a) (m_data_location a) (m_mapped a) (d_data a) (h_data a) (m_exec_conf a).
Definition set_num (n : Z) (a : gpuarray) : gpuarray := set_sizes n (m_pitch a) (m_height a) a.
Definition set_acquired (b : bool) (a : gpuarray) : gpuarray :=
  mkGPUArray (m_num_elements a) (m_pitch a) (m_height a) b (m_data_location a) (m_mapped a) (d_data a) (h_data a) (m_exec_conf a).
Definition set_location (l : data_location) (a : gpuarray) : gpuarray :=
  mkGPUArray (m_num_elements a) (m_pitch a) (m_height a) (m_acquired a) l (m_mapped a) (d_data a) (h_data a) (m_exec_conf a).
Definition set_h (h : option block) (a : gpuarray) : gpuarray :=
  mkGPUArray (m_num_elements a) (m_pitch a) (m_height a) (m_acquired a) (m_data_location a) (m_mapped a) (d_data a) h (m_exec_conf a).
Definition set_d (d : option device_ptr) (a : gpuarray) : gpuarray :=
  mkGPUArray (m_num_elements a) (m_pitch a) (m_height a) (m_acquired a) (m_data_location a) (m_mapped a) d (h_data a) (m_exec_conf a).

(** [m_exec_conf && m_exec_conf->isCUDAEnabled()] *)
Definition cuda (a : gpuarray) : bool :=
  match m_exec_conf a with Some e => isCUDAEnabled e | None => false end.

Definition isNull (a : gpuarray) : bool :=
  match h_data a with Some _ => false | None => true end.

(** The memory the device pointer addresses. *)
Definition device_block (a : gpuarray) : option block :=
  match d_data a with
  | Some (dev_owned b) => Some b
  | Some dev_mapped => h_data a
  | None => None
  end.

Definition uninit (n : Z) : block := replicate (Z.to_nat n) None.
Definition zeros (n : Z) : block := replicate (Z.to_nat n) (Some zero).

(** [memset] to zero from element [first] on. *)
Definition clear_from (first : Z) (b : block) : block :=
  take (Z.to_nat first) b ++ replicate (length b - Z.to_nat first) (Some zero).

(** ** Construction and copying *)

Definition ctor_null (e : option exec_config) : gpuarray :=
  mkGPUArray 0 0 0 false loc_host false None None e.

(** [hipSuccess], or the exception [allocate()] throws for the error. *)
Definition hip_check (e : hipError) : result unit :=
  match e with
  | hipSuccess => Ok tt
  | hipErrorMemoryAllocation => Throw bad_alloc
  | hipErrorOther => Throw (runtime_error "hipGetErrorString(error)")
  end.

(** [GPUArray::allocate] *)
Definition allocate (a : gpuarray) : gpuarray * result unit :=
  if m_num_elements a =? 0 then (a, Ok tt)
  else if m_mapped a && match m_exec_conf a with Some e => negb (canMapHostMemory e) | None => false end then
    (a, Throw (runtime_error "Error allocating GPUArray."))
  else if negb (posix_memalign A (m_num_elements a * sizeof_T)) then (a, Throw bad_alloc)
  else
    let a1 := set_h (Some (uninit (m_num_elements a))) a in
    if cuda a1 then
      if m_mapped a1 then
        match hip_check (hipHostGetDevicePointer A) with
        | Ok _ => (set_d (Some dev_mapped) a1, Ok tt)
        | Throw e => (a1, Throw e)
        end
      else
        match hip_check (hipMalloc A (m_num_elements a * sizeof_T)) with
        | Ok _ => (set_d (Some (dev_owned (uninit (m_num_elements a)))) a1, Ok tt)
        | Throw e => (a1, Throw e)
        end
    else (a1, Ok tt).

(** [GPUArray::memclear(first)] *)
Definition memclear (first : Z) (a : gpuarray) : gpuarray :=
  match h_data a with
  | None => a
  | Some h =>
      let a1 := set_h (Some (clear_from first h)) a in
      if cuda a1 && negb (m_mapped a1) then
        match d_data a1 with
        | Some (dev_owned d) => set_d (Some (dev_owned (clear_from first d))) a1
        | _ => a1
        end
      else a1
  end.

(** [memcpyDeviceToHost] and [memcpyHostToDevice] *)
Definition memcpyDeviceToHost (a : gpuarray) : gpuarray :=
  match h_data a with
  | None => a
  | Some _ =>
      if m_mapped a then a
      else match d_data a with
           | Some (dev_owned d) => set_h (Some d) a
           | _ => a
           end
  end.

Definition memcpyHostToDevice (a : gpuarray) : gpuarray :=
  match h_data a with
  | None => a
  | Some h =>
      if m_mapped a then a
      else match d_data a with
           | Some (dev_owned _) => set_d (Some (dev_owned h)) a
           | _ => a
           end
  end.

(** Allocate, then clear, as every constructor body does. *)
Definition allocate_clear (a : gpuarray) : gpuarray * result unit :=
  match allocate a with
  | (a1, Ok _) => (memclear 0 a1, Ok tt)
  | (a1, Throw e) => (a1, Throw e)
  end.

(** The 1-D constructors. *)
Definition ctor_1d (num_elements : Z) (e : option exec_config) (mapped : bool) : gpuarray * result unit :=
  allocate_clear (mkGPUArray num_elements num_elements 1 false loc_host mapped None None e).

(** Row width of a 2-D array: [width + (16 - (width & 15))]. *)
Definition pitch_of (width : Z) : Z := u64 (width + (16 - Z.land width 15)).

(** The 2-D constructors. *)
Definition ctor_2d (width height : Z) (e : option exec_config) (mapped : bool) : gpuarray * result unit :=
  let pitch := pitch_of width in
  allocate_clear (mkGPUArray (u64 (pitch * height)) pitch height false loc_host mapped None None e).

(** ** Access *)

(** Which memory an acquired pointer addresses. *)
Inductive pointer := null_ptr | host_ptr | dev_ptr.

(** The transitions of [m_data_location] and the copies [acquire] performs. *)
Definition acquire (location : access_location) (mode : access_mode) (a : gpuarray)
  : gpuarray * result pointer :=
  if m_acquired a then (a, Throw (runtime_error "Cannot acquire access to array in use."))
  else
    let a := set_acquired true a in
    if isNull a then (a, Ok null_ptr)
    else
      match location with
      | acc_host =>
          match m_data_location a with
          | loc_host => (a, Ok host_ptr)
          | loc_hostdevice =>
              match mode with
              | mode_read => (set_location loc_hostdevice a, Ok host_ptr)
              | mode_readwrite => (set_location loc_host a, Ok host_ptr)
              | mode_overwrite => (set_location loc_host a, Ok host_ptr)
              end
          | loc_device =>
              match mode with
              | mode_read => (set_location loc_hostdevice (memcpyDeviceToHost a), Ok host_ptr)
              | mode_readwrite => (set_location loc_host (memcpyDeviceToHost a), Ok host_ptr)
              | mode_overwrite => (set_location loc_host a, Ok host_ptr)
              end
          end
      | acc_device =>
          match m_exec_conf a with
          | None => (a, Throw (runtime_error "Requesting device acquire, but we have no execution configuration"))
          | Some e =>
              if negb (isCUDAEnabled e) then (a, Throw (runtime_error "Error acquiring data"))
              else
                match m_data_location a with
                | loc_host =>
                    match mode with
                    | mode_read => (set_location loc_hostdevice (memcpyHostToDevice a), Ok dev_ptr)
                    | mode_readwrite => (set_location loc_device (memcpyHostToDevice a), Ok dev_ptr)
                    | mode_overwrite => (set_location loc_device a, Ok dev_ptr)
                    end
                | loc_hostdevice =>
                    match mode with
                    | mode_read => (set_location loc_hostdevice a, Ok dev_ptr)
                    | mode_readwrite => (set_location loc_device a, Ok dev_ptr)
                    | mode_overwrite => (set_location loc_device a, Ok dev_ptr)
                    end
                | loc_device => (a, Ok dev_ptr)
                end
          end
      end.

(** [GPUArray::release] *)
Definition release (a : gpuarray) : gpuarray := set_acquired false a.

(** [ArrayHandle(array, location, mode)]. [acquire] returns its
    [GPUArrayDispatch] by value as an [ArrayHandleDispatch]: the object is
    sliced into the handle's [dispatch] member and the temporary is destroyed at
    the end of the return statement, which runs [~GPUArrayDispatch] and with it
    [release()]. When [acquire] throws, no dispatch object exists. *)
Definition ArrayHandle (location : access_location) (mode : access_mode) (a : gpuarray)
  : gpuarray * result pointer :=
  match acquire location mode a with
  | (a1, Ok p) => (release a1, Ok p)
  | r => r
  end.

(** Reading and writing through the handle's [data] pointer. *)
Definition deref (p : pointer) (a : gpuarray) : option block :=
  match p with
  | null_ptr => None
  | host_ptr => h_data a
  | dev_ptr => device_block a
  end.

Definition store (p : pointer) (b : block) (a : gpuarray) : gpuarray :=
  match p with
  | null_ptr => a
  | host_ptr => set_h (Some b) a
  | dev_ptr =>
      match d_data a with
      | Some (dev_owned _) => set_d (Some (dev_owned b)) a
      | Some dev_mapped => set_h (Some b) a
      | None => a
      end
  end.

(** ** Copy, move and swap *)

(** Copy constructor: the new array, and [from] with its location updated by the
    read handle. [memcpy] copies [m_num_elements] cells. *)
Definition copy_ctor (from : gpuarray) : gpuarray * gpuarray * result unit :=
  match allocate_clear (mkGPUArray (m_num_elements from) (m_pitch from) (m_height from) false loc_host
                          (m_mapped from) None None (m_exec_conf from)) with
  | (a, Throw e) => (from, a, Throw e)
  | (a, Ok _) =>
      match h_data from with
      | None => (from, a, Ok tt)
      | Some _ =>
          match ArrayHandle acc_host mode_read from with
          | (from1, Throw e) => (from1, a, Throw e)
          | (from1, Ok p) => (from1, set_h (deref p from1) a, Ok tt)
          end
      end
  end.

(** Copy assignment of a different array. *)
Definition copy_assign (a rhs : gpuarray) : gpuarray * gpuarray * result unit :=
  let a1 := mkGPUArray (m_num_elements rhs) (m_pitch rhs) (m_height rhs) (m_acquired a) loc_host
              (m_mapped rhs) (d_data a) (h_data a) (m_exec_conf rhs) in
  match h_data rhs with
  | None => (rhs, set_h None (set_d None a1), Ok tt)
  | Some _ =>
      match allocate_clear a1 with
      | (a2, Throw e) => (rhs, a2, Throw e)
      | (a2, Ok _) =>
          match ArrayHandle acc_host mode_read rhs with
          | (rhs1, Throw e) => (rhs1, a2, Throw e)
          | (rhs1, Ok p) => (rhs1, set_h (deref p rhs1) a2, Ok tt)
          end
      end
  end.

(** Moving leaves the scalar members of [from] and takes its pointers. *)
Definition move_ctor (from : gpuarray) : gpuarray * gpuarray :=
  (mkGPUArray (m_num_elements from) (m_pitch from) (m_height from) (m_acquired from) (m_data_location from)
     (m_mapped from) None None None, from).

Definition move_assign (a rhs : gpuarray) : gpuarray * gpuarray := move_ctor rhs.

(** [a.swap(from)] *)
Definition swap (a from : gpuarray) : gpuarray * gpuarray := (from, a).

(** ** Resizing *)

(** Contents of a resized 1-D block: zeros with the common prefix copied over. *)
Definition resized (n : Z) (b : block) : block :=
  take (Z.to_nat n) b ++ replicate (Z.to_nat n - length b) (Some zero).

(** Write block [src] into [dst] at [off] ([memcpy]). *)
Definition blit (off : nat) (src dst : block) : block :=
  take off dst ++ src ++ drop (off + length src) dst.

(** The row loop of the 2-D resize: rows [i, i+1, ...] of [b] copied to the new
    pitch. *)
Fixpoint copy_rows (rows : nat) (i : nat) (pitch new_pitch ncols : nat) (b dst : block) : block :=
  match rows with
  | O => dst
  | S rows =>
      copy_rows rows (S i) pitch new_pitch ncols b
        (blit (i * new_pitch) (take ncols (drop (i * pitch) b)) dst)
  end.

Definition resized_2d (pitch new_pitch height new_height : Z) (b : block) : block :=
  let num_copy_rows := if height >? new_height then new_height else height in
  let num_copy_columns := if pitch >? new_pitch then new_pitch else pitch in
  copy_rows (Z.to_nat num_copy_rows) 0 (Z.to_nat pitch) (Z.to_nat new_pitch) (Z.to_nat num_copy_columns)
    b (zeros (new_pitch * new_height)).

(** After replacing the host block of a mapped array the device pointer is
    looked up again; it is null when there is no device. *)
Definition remap (a : gpuarray) : gpuarray :=
  if m_mapped a then
    set_d (match hipHostGetDevicePointer A with hipSuccess => Some dev_mapped | _ => None end) a
  else a.

Definition resizeHostArray (num_elements : Z) (a : gpuarray) : gpuarray * result unit :=
  match h_data a with
  | None => (a, Ok tt)
  | Some h =>
      if negb (posix_memalign A (num_elements * sizeof_T)) then (a, Throw bad_alloc)
      else (remap (set_h (Some (resized num_elements h)) a), Ok tt)
  end.

Definition resize2DHostArray (pitch new_pitch height new_height : Z) (a : gpuarray) : gpuarray * result unit :=
  if negb (posix_memalign A (new_pitch * new_height * sizeof_T)) then (a, Throw bad_alloc)
  else
    match h_data a with
    | None => (a, Ok tt)
    | Some h => (remap (set_h (Some (resized_2d pitch new_pitch height new_height h)) a), Ok tt)
    end.

(** Allocation of the device block and the copy into it, by [f]. *)
Definition resize_device (size : Z) (f : block -> block) (a : gpuarray) : gpuarray * result unit :=
  if m_mapped a then (a, Ok tt)
  else
    match hip_check (hipMalloc A (size * sizeof_T)) with
    | Throw e => (a, Throw e)
    | Ok _ =>
        match d_data a with
        | Some (dev_owned d) => (set_d (Some (dev_owned (f d))) a, Ok tt)
        | _ => (a, Ok tt)
        end
    end.

Definition resizeDeviceArray (num_elements : Z) (a : gpuarray) : gpuarray * result unit :=
  resize_device num_elements (resized num_elements) a.

Definition resize2DDeviceArray (pitch new_pitch height new_height : Z) (a : gpuarray) : gpuarray * result unit :=
  resize_device (new_pitch * new_height) (resized_2d pitch new_pitch height new_height) a.

(** [GPUArray::resize(num_elements)] *)
Definition resize (num_elements : Z) (a : gpuarray) : gpuarray * result unit :=
  if isNull a then allocate (set_num num_elements a)
  else
    match resizeHostArray num_elements a with
    | (a1, Throw e) => (a1, Throw e)
    | (a1, Ok _) =>
        match (if cuda a1 then resizeDeviceArray num_elements a1 else (a1, Ok tt)) with
        | (a2, Throw e) => (a2, Throw e)
        | (a2, Ok _) => (set_sizes num_elements num_elements (m_height a2) a2, Ok tt)
        end
    end.

(** [GPUArray::resize(width, height)] *)
Definition resize_2d (width height : Z) (a : gpuarray) : gpuarray * result unit :=
  let new_pitch := pitch_of width in
  let num_elements := u64 (new_pitch * height) in
  if isNull a then
    match allocate (set_num num_elements a) with
    | (a1, Ok _) => (set_sizes (m_num_elements a1) new_pitch height a1, Ok tt)
    | r => r
    end
  else
    match resize2DHostArray (m_pitch a) new_pitch (m_height a) height a with
    | (a1, Throw e) => (a1, Throw e)
    | (a1, Ok _) =>
        match (if cuda a1 then resize2DDeviceArray (m_pitch a1) new_pitch (m_height a1) height a1 else (a1, Ok tt)) with
        | (a2, Throw e) => (a2, Throw e)
        | (a2, Ok _) => (set_sizes (u64 (new_pitch * height)) new_pitch height a2, Ok tt)
        end
    end.

End gpuarray.
Arguments gpuarray : clear implicits.
Arguments device_ptr : clear implicits.
