(* ===== verification/GPUArrayCoherence.v ===== *)
(** Coherence of [GPUArray]: the host/device pair behaves as one array.

    [inv] is the invariant of the class, [view] the abstract value (the copy that
    is up to date), and [plain_op] the behaviour of an ordinary array. The
    refinement theorem runs any sequence of handle accesses and resizes on both
    sides. *)

From Stdlib Require Import ZArith Lia String.
From stdpp Require Import base list numbers.
From S2P Require Import Prelude GPUArray.
Local Open Scope Z_scope.

Section coherence.
Context {T : Type} (zero : T) (sizeof_T : Z) (A : allocators).

Abbreviation block := (list (option T)).
Abbreviation array := (gpuarray T).

(** ** Invariant *)

Record inv (a : array) : Prop := {
  inv_num : 0 <= m_num_elements a;
  inv_null : isNull a = true -> m_data_location a = loc_host;
  inv_host : forall h, h_data a = Some h -> length h = Z.to_nat (m_num_elements a) /\ 0 < m_num_elements a;
  inv_nocuda : cuda a = false -> m_data_location a = loc_host;
  inv_device : cuda a = true -> isNull a = false ->
    if m_mapped a then d_data a = Some dev_mapped
    else exists d, d_data a = Some (dev_owned d) /\ length d = Z.to_nat (m_num_elements a);
  inv_shared : m_data_location a = loc_hostdevice -> device_block a = h_data a
}.

(** The abstract value: the most recently written copy; empty for a null array. *)
Definition view (a : array) : block :=
  match m_data_location a with
  | loc_host | loc_hostdevice => default [] (h_data a)
  | loc_device => default [] (device_block a)
  end.

(** One use of a handle: acquire, read the data, write back [f] of it unless the
    access is read-only. *)
Definition access (location : access_location) (mode : access_mode) (f : block -> block) (a : array)
  : array * result block :=
  match ArrayHandle location mode a with
  | (a1, Throw e) => (a1, Throw e)
  | (a1, Ok p) =>
      match deref p a1 with
      | None => (a1, Ok [])
      | Some b => ((match mode with mode_read => a1 | _ => store p (f b) a1 end), Ok b)
      end
  end.

(** A write function keeps the size of the block; for [overwrite] it must not
    depend on the old contents. *)
Definition writer_ok (mode : access_mode) (f : block -> block) : Prop :=
  (forall b, length (f b) = length b) /\
  (mode = mode_overwrite -> forall b b', length b = length b' -> f b = f b').

Lemma view_length a : inv a -> isNull a = false -> length (view a) = Z.to_nat (m_num_elements a).
Proof.
  intros I N. unfold view, isNull in *. destruct (h_data a) as [h|] eqn:Eh; [|discriminate].
  pose proof (inv_host a I h Eh) as [L _].
  destruct (m_data_location a) eqn:El; try exact L.
  destruct (cuda a) eqn:Ec; [|rewrite (inv_nocuda a I Ec) in El; discriminate].
  pose proof (inv_device a I Ec) as D. unfold isNull in D. rewrite Eh in D. specialize (D eq_refl).
  unfold device_block. destruct (m_mapped a).
  - rewrite D, Eh. exact L.
  - destruct D as (d & -> & Ld). exact Ld.
Qed.

(** The host block of a device-side state has the device block's length. *)
Lemma device_block_length a d :
  inv a -> cuda a = true -> isNull a = false -> device_block a = Some d -> length d = Z.to_nat (m_num_elements a).
Proof.
  intros I Ec N Ed. pose proof (inv_device a I Ec N) as D. unfold device_block in Ed.
  destruct (m_mapped a).
  - rewrite D in Ed. apply (inv_host a I). exact Ed.
  - destruct D as (d' & E & L). rewrite E in Ed. congruence.
Qed.

(** The shapes a non-null array can have. *)
Inductive shape (a : array) : Prop :=
| shape_cpu h : h_data a = Some h -> length h = Z.to_nat (m_num_elements a) ->
    cuda a = false -> m_data_location a = loc_host -> shape a
| shape_mapped h : h_data a = Some h -> length h = Z.to_nat (m_num_elements a) ->
    cuda a = true -> m_mapped a = true -> d_data a = Some dev_mapped -> shape a
| shape_gpu h d : h_data a = Some h -> length h = Z.to_nat (m_num_elements a) ->
    cuda a = true -> m_mapped a = false -> d_data a = Some (dev_owned d) ->
    length d = Z.to_nat (m_num_elements a) ->
    (m_data_location a = loc_hostdevice -> d = h) -> shape a.

Lemma inv_shape a : inv a -> isNull a = false -> shape a.
Proof.
  intros I N. destruct (h_data a) as [h|] eqn:Eh; [|unfold isNull in N; rewrite Eh in N; discriminate].
  destruct (inv_host a I h Eh) as [L P]. destruct (cuda a) eqn:Ec.
  - pose proof (inv_device a I Ec N) as D. destruct (m_mapped a) eqn:Em.
    + eapply shape_mapped; eassumption.
    + destruct D as (d & Ed & Ld). eapply shape_gpu; try eassumption.
      intros El. pose proof (inv_shared a I El) as S. unfold device_block in S. rewrite Ed, Eh in S. congruence.
  - eapply shape_cpu; try eassumption. apply (inv_nocuda a I Ec).
Qed.

Lemma shape_inv a : 0 < m_num_elements a -> shape a -> inv a /\ isNull a = false.
Proof.
  intros P S. assert (N : isNull a = false) by (destruct S; unfold isNull; rewrite H; reflexivity).
  split; [|exact N]. destruct S as [h Eh L Ec El | h Eh L Ec Em Ed | h d Eh L Ec Em Ed Ld Es];
    constructor; try lia; try congruence; intros;
    try (rewrite Em in *); eauto; try congruence.
  - split; [congruence|lia].
  - split; [congruence|lia].
  - unfold device_block. rewrite Ed. reflexivity.
  - split; [congruence|lia].
  - unfold device_block. rewrite Ed, Eh. f_equal. auto.
Qed.

Ltac array_cases a :=
  destruct a as [nel pi he ac lo ma dd hd ex]; cbn in *.

(** *** Handles *)

(** What one access guarantees. *)
Definition access_spec (mode : access_mode) (f : block -> block) (a a' : array) (seen : block) : Prop :=
  inv a' /\ m_acquired a' = false /\ (mode <> mode_overwrite -> seen = view a) /\
  view a' = match mode with mode_read => view a | _ => f (view a) end /\
  m_num_elements a' = m_num_elements a /\ isNull a' = isNull a /\ cuda a' = cuda a.

Lemma access_null location mode f a :
  inv a -> m_acquired a = false -> isNull a = true -> writer_ok mode f ->
  exists a' seen, access location mode f a = (a', Ok seen) /\ access_spec mode f a a' seen.
Proof.
  intros I Q N [Wl _]. exists a, [].
  assert (V : view a = []).
  { unfold view. rewrite (inv_null a I N). unfold isNull in N. destruct (h_data a); [discriminate|reflexivity]. }
  split.
  - unfold access, ArrayHandle, acquire. rewrite Q.
    replace (isNull (set_acquired true a)) with true by exact (eq_sym N). simpl.
    do 2 f_equal. unfold release, set_acquired. destruct a; simpl in *. congruence.
  - assert (F : f [] = []) by (apply nil_length_inv, (Wl [])).
    unfold access_spec. rewrite V, F. split_and!; auto. destruct mode; reflexivity.
Qed.

(** Closing the cases of the location automaton: the length goals, then the
    value seen, the new view and the unchanged members. *)
Ltac close_len Lf := first [assumption | apply Lf; assumption].
Ltac close_spec Ov :=
  split_and!; try reflexivity; try (intros []; reflexivity);
  try (intros _; symmetry; auto; fail); try (symmetry; auto; fail);
  try (eapply Ov; [reflexivity|eassumption|eassumption]);
  try (f_equal; auto; fail); try (intros; congruence).

Lemma access_nonnull location mode f a :
  inv a -> m_acquired a = false -> isNull a = false -> writer_ok mode f ->
  (location = acc_device -> cuda a = true) ->
  exists a' seen, access location mode f a = (a', Ok seen) /\ access_spec mode f a a' seen.
Proof.
  intros I Q N [Wl Wo] Hloc. pose proof (inv_num a I).
  assert (P : 0 < m_num_elements a).
  { unfold isNull in N. destruct (h_data a) eqn:E; [|discriminate]. exact (proj2 (inv_host a I _ E)). }
  pose proof (inv_shape a I N) as S. clear I.
  enough (exists a' seen, access location mode f a = (a', Ok seen) /\
            shape a' /\ m_acquired a' = false /\ (mode <> mode_overwrite -> seen = view a) /\
            view a' = match mode with mode_read => view a | _ => f (view a) end /\
            m_num_elements a' = m_num_elements a /\ cuda a' = cuda a) as (a' & seen & E & S' & E1 & E2 & E3 & E4 & E5).
  { exists a', seen. split; [exact E|]. destruct (shape_inv a') as [I' N']; [lia|exact S'|].
    unfold access_spec. rewrite N, N'. split_and!; auto. }
  assert (Lf : forall b k, length b = k -> length (f b) = k) by (intros b k <-; apply Wl).
  assert (Ov : mode = mode_overwrite -> forall b b' k, length b = k -> length b' = k -> f b = f b')
    by (intros Em b b' k Hb Hb'; apply (Wo Em); congruence).
  unfold access, ArrayHandle, acquire. array_cases a. subst ac.
  destruct S as [h Eh L Ec El | h Eh L Ec Em Ed | h d Eh L Ec Em Ed Ld Es]; cbn in *; subst.
  - destruct location; [|rewrite Hloc in Ec by reflexivity; discriminate].
    destruct mode; cbn; do 2 eexists; (split; [reflexivity|]); cbn;
      (split; [eapply shape_cpu; cbn; [reflexivity|close_len Lf|assumption|reflexivity]|close_spec Ov]).
  - unfold cuda in Ec; cbn in Ec. destruct ex as [e|]; [|discriminate].
    destruct location, lo, mode; cbn; rewrite ?Ec; cbn; do 2 eexists; (split; [reflexivity|]); cbn;
      (split; [eapply shape_mapped; cbn; [reflexivity|close_len Lf|assumption|reflexivity|reflexivity]|close_spec Ov]).
  - unfold cuda in Ec; cbn in Ec. destruct ex as [e|]; [|discriminate].
    destruct location, lo, mode; cbn; rewrite ?Ec; cbn; do 2 eexists; (split; [reflexivity|]); cbn;
      (split; [eapply shape_gpu; cbn;
        [reflexivity|close_len Lf|assumption|reflexivity|reflexivity|close_len Lf|try discriminate; auto]|close_spec Ov]).
Qed.

Lemma access_ok location mode f a :
  inv a -> m_acquired a = false -> writer_ok mode f -> (location = acc_device -> cuda a = true) ->
  exists a' seen, access location mode f a = (a', Ok seen) /\ access_spec mode f a a' seen.
Proof.
  intros I Q W L. destruct (isNull a) eqn:N; [apply access_null | apply access_nonnull]; assumption.
Qed.

(** *** Allocation and resizing *)

(** The allocators grant every request. *)
Definition allocs_ok : Prop :=
  (forall n, posix_memalign A n = true) /\ (forall n, hipMalloc A n = hipSuccess) /\
  hipHostGetDevicePointer A = hipSuccess.

(** A mapped array lives on a device that can map host memory. *)
Definition can_map (a : array) : Prop :=
  m_mapped a = true -> match m_exec_conf a with Some e => canMapHostMemory e = true | None => True end.

Lemma resized_length n (b : block) : length (resized zero n b) = Z.to_nat n.
Proof. unfold resized. rewrite length_app, length_take, length_replicate. lia. Qed.

Lemma uninit_length n : length (@uninit T n) = Z.to_nat n.
Proof. unfold uninit. apply length_replicate. Qed.

Lemma allocate_ok a :
  allocs_ok -> can_map a -> 0 < m_num_elements a -> m_data_location a = loc_host ->
  exists a', allocate sizeof_T A a = (a', Ok tt) /\ shape a' /\ h_data a' = Some (uninit (m_num_elements a)) /\
    m_data_location a' = loc_host /\ m_acquired a' = m_acquired a /\
    m_num_elements a' = m_num_elements a /\ m_pitch a' = m_pitch a /\ m_height a' = m_height a /\
    m_exec_conf a' = m_exec_conf a /\ m_mapped a' = m_mapped a /\
    (cuda a = true -> m_mapped a = false -> d_data a' = Some (dev_owned (uninit (m_num_elements a)))).
Proof.
  intros (Ap & Am & Ad) M P L. unfold allocate.
  destruct (m_num_elements a =? 0) eqn:E0; [zbool; lia|]. rewrite Ap, Am, Ad. unfold can_map in M.
  array_cases a. subst lo.
  destruct (ma && _) eqn:Em.
  { destruct ma, ex as [e|]; try discriminate. rewrite M in Em by reflexivity. discriminate. }
  unfold cuda; cbn. destruct ex as [e|]; [destruct (isCUDAEnabled e) eqn:Ee|]; cbn.
  - destruct ma; cbn; eexists; (split; [reflexivity|]); cbn; split_and!; auto; try discriminate.
    + eapply shape_mapped; cbn; auto using uninit_length.
    + eapply shape_gpu; cbn; auto using uninit_length; discriminate.
  - eexists; (split; [reflexivity|]); cbn; split_and!; auto; try discriminate.
    eapply shape_cpu; cbn; auto using uninit_length.
  - eexists; (split; [reflexivity|]); cbn; split_and!; auto; try discriminate.
    eapply shape_cpu; cbn; auto using uninit_length.
Qed.

(** What [resize] guarantees of the state it leaves. *)
Definition resize_spec (n : Z) (v' : block) (a a' : array) : Prop :=
  inv a' /\ isNull a' = false /\ m_acquired a' = m_acquired a /\ view a' = v' /\
  m_num_elements a' = n /\ cuda a' = cuda a /\ can_map a'.

Lemma resize_spec_intro n v' a a' :
  0 < n -> m_num_elements a' = n -> shape a' -> m_acquired a' = m_acquired a -> view a' = v' ->
  cuda a' = cuda a -> can_map a' -> resize_spec n v' a a'.
Proof.
  intros P En S Q V C M. destruct (shape_inv a') as [I' N']; [lia|exact S|].
  unfold resize_spec. split_and!; auto.
Qed.

Lemma resize_null n a :
  allocs_ok -> can_map a -> 0 < n -> inv a -> isNull a = true ->
  exists a', resize zero sizeof_T A n a = (a', Ok tt) /\ resize_spec n (uninit n) a a' /\
    m_pitch a' = m_pitch a /\ m_height a' = m_height a.
Proof.
  intros Ao M P I N. unfold resize. rewrite N.
  destruct (allocate_ok (set_num n a)) as (a' & E & S & Eh & El & Ea & En & Ep & Ehh & Ee & Em & _); auto.
  { exact (inv_null a I N). }
  exists a'. split; [exact E|]. destruct (shape_inv a') as [I' N']; [cbn in *; lia|exact S|].
  unfold resize_spec, view, cuda, can_map in *. rewrite El, Eh, Ee, Em. cbn in *. split_and!; auto.
Qed.

Lemma resize_nonnull n a :
  allocs_ok -> can_map a -> 0 < n -> inv a -> isNull a = false ->
  exists a', resize zero sizeof_T A n a = (a', Ok tt) /\ resize_spec n (resized zero n (view a)) a a'.
Proof.
  intros (Ap & Am & Ad) M P I N. unfold resize, resizeHostArray, resizeDeviceArray, resize_device, remap.
  rewrite N. pose proof (inv_shape a I N) as S. clear I. unfold view, can_map in *. rewrite Ad.
  array_cases a. destruct S as [h Eh L Ec El | h Eh L Ec Em Ed | h d Eh L Ec Em Ed Ld Es]; cbn in *; subst;
    rewrite Ap; cbn.
  - unfold cuda in Ec |- *; cbn in Ec; destruct ma; cbn; rewrite Ec; cbn; eexists; (split; [reflexivity|]);
      (apply resize_spec_intro; cbn; auto;
       eapply shape_cpu; cbn; [reflexivity|apply resized_length|exact Ec|reflexivity]).
  - unfold cuda in Ec |- *; cbn in Ec |- *. rewrite Ec. eexists. split; [reflexivity|].
    apply resize_spec_intro; cbn; auto; [|destruct lo; reflexivity].
    eapply shape_mapped; cbn; [reflexivity|apply resized_length|exact Ec|reflexivity|reflexivity].
  - unfold cuda in Ec |- *; cbn in Ec |- *. rewrite Ec, Am. eexists. split; [reflexivity|].
    apply resize_spec_intro; cbn; auto; [|destruct lo; reflexivity].
    eapply shape_gpu; cbn; [reflexivity|apply resized_length|exact Ec|reflexivity|reflexivity|apply resized_length|].
    intros E. f_equal. auto.
Qed.

(** *** Sequences of operations *)

Inductive op : Type :=
| Access (location : access_location) (mode : access_mode) (f : block -> block)
| Resize (num_elements : Z).

Definition op_ok (with_device : bool) (o : op) : Prop :=
  match o with
  | Access location mode f => writer_ok mode f /\ (location = acc_device -> with_device = true)
  | Resize n => 0 < n
  end.

(** What the caller observes: the data it reads, nothing of an [overwrite]. *)
Definition observed (mode : access_mode) (b : block) : option block :=
  match mode with mode_overwrite => None | _ => Some b end.

Definition run_op (o : op) (a : array) : array * result (option block) :=
  match o with
  | Access location mode f =>
      match access location mode f a with
      | (a1, Ok b) => (a1, Ok (observed mode b))
      | (a1, Throw e) => (a1, Throw e)
      end
  | Resize n =>
      match resize zero sizeof_T A n a with
      | (a1, Ok _) => (a1, Ok None)
      | (a1, Throw e) => (a1, Throw e)
      end
  end.

Fixpoint run_ops (os : list op) (a : array) : array * result (list (option block)) :=
  match os with
  | [] => (a, Ok [])
  | o :: os =>
      match run_op o a with
      | (a1, Throw e) => (a1, Throw e)
      | (a1, Ok x) =>
          match run_ops os a1 with
          | (a2, Ok xs) => (a2, Ok (x :: xs))
          | r => r
          end
      end
  end.

(** The specification: one plain block, absent until the first [Resize]. *)
Definition plain_op (o : op) (s : option block) : option block * option block :=
  match o with
  | Access _ mode f =>
      match s with
      | None => (None, observed mode [])
      | Some b => (Some (match mode with mode_read => b | _ => f b end), observed mode b)
      end
  | Resize n =>
      match s with
      | None => (Some (uninit n), None)
      | Some b => (Some (resized zero n b), None)
      end
  end.

Fixpoint plain_ops (os : list op) (s : option block) : option block * list (option block) :=
  match os with
  | [] => (s, [])
  | o :: os =>
      let '(s1, x) := plain_op o s in
      let '(s2, xs) := plain_ops os s1 in
      (s2, x :: xs)
  end.

Definition plain_of (a : array) : option block := if isNull a then None else Some (view a).

Lemma run_op_refines o a :
  allocs_ok -> can_map a -> inv a -> m_acquired a = false -> op_ok (cuda a) o ->
  exists a' x, run_op o a = (a', Ok x) /\ inv a' /\ m_acquired a' = false /\ can_map a' /\
    cuda a' = cuda a /\ plain_op o (plain_of a) = (plain_of a', x).
Proof.
  intros Ao M I Q Hok. destruct o as [location mode f|n]; simpl in Hok |- *.
  - destruct Hok as [W L]. destruct (access_ok location mode f a I Q W L) as (a' & seen & E & S).
    rewrite E. destruct S as (I' & Q' & Se & V & En & Nu & Cu).
    exists a', (observed mode seen). split_and!; auto.
    + unfold access, ArrayHandle in E. unfold can_map in *.
      assert (K : m_mapped a' = m_mapped a /\ m_exec_conf a' = m_exec_conf a).
      { clear -E Q. unfold acquire, memcpyDeviceToHost, memcpyHostToDevice, release, store in E.
        rewrite Q in E. destruct a as [nel pi he ac lo ma dd hd ex]; cbn in *.
        destruct hd; cbn in E; [|injection E as <- <-; auto].
        destruct location, lo, mode, ma, ex as [[[] ?]|], dd as [[]|]; cbn in E; inversion E; auto. }
      destruct K as [-> ->]. exact M.
    + unfold plain_of. rewrite Nu. destruct (isNull a) eqn:N.
      * f_equal. unfold observed. destruct mode; auto; f_equal; rewrite Se by discriminate;
          unfold view; rewrite (inv_null a I N); unfold isNull in N; destruct (h_data a); try discriminate; reflexivity.
      * rewrite V. f_equal. unfold observed. destruct mode; auto; f_equal; symmetry; apply Se; discriminate.
  - unfold plain_of. destruct (isNull a) eqn:N.
    + destruct (resize_null n a Ao M Hok I N) as (a' & E & (I' & N' & Q' & V & En & Cu & M') & _).
      rewrite E. exists a', None. rewrite N', V. split_and!; auto; congruence.
    + destruct (resize_nonnull n a Ao M Hok I N) as (a' & E & I' & N' & Q' & V & En & Cu & M').
      rewrite E. exists a', None. rewrite N', V. split_and!; auto; congruence.
Qed.

Lemma run_ops_refines os a :
  allocs_ok -> can_map a -> inv a -> m_acquired a = false -> Forall (op_ok (cuda a)) os ->
  exists a' xs, run_ops os a = (a', Ok xs) /\ inv a' /\ m_acquired a' = false /\
    plain_ops os (plain_of a) = (plain_of a', xs).
Proof.
  intros Ao. revert a. induction os as [|o os IH]; intros a M I Q H; simpl; [eauto 10|].
  apply Forall_cons_1 in H as [Ho Hos].
  destruct (run_op_refines o a Ao M I Q Ho) as (a1 & x & -> & I1 & Q1 & M1 & C1 & ->).
  destruct (IH a1 M1 I1 Q1) as (a2 & xs & -> & I2 & Q2 & ->); [rewrite C1; exact Hos|].
  eauto 10.
Qed.

(** *** Constructors *)

Lemma clear_all (b : block) : clear_from zero 0 b = replicate (length b) (Some zero).
Proof. unfold clear_from. simpl. rewrite Nat.sub_0_r. reflexivity. Qed.

Lemma memclear_ok a :
  shape a -> m_data_location a = loc_host ->
  let a' := memclear zero 0 a in
  shape a' /\ h_data a' = Some (zeros zero (m_num_elements a)) /\ m_data_location a' = loc_host /\
  m_acquired a' = m_acquired a /\ m_num_elements a' = m_num_elements a /\ m_pitch a' = m_pitch a /\
  m_height a' = m_height a /\ m_exec_conf a' = m_exec_conf a /\ m_mapped a' = m_mapped a.
Proof.
  intros S L. unfold memclear, zeros.
  destruct S as [h Eh Lh Ec El | h Eh Lh Ec Em Ed | h d Eh Lh Ec Em Ed Ld Es]; rewrite Eh; cbn;
    unfold cuda in *; cbn; rewrite Ec; rewrite ?Em, ?Ed; cbn; rewrite ?clear_all, ?Lh, ?Ld.
  - split_and!; auto. eapply shape_cpu; cbn; eauto using length_replicate.
  - split_and!; auto. eapply shape_mapped; cbn; eauto using length_replicate.
  - split_and!; auto. eapply shape_gpu; cbn; eauto using length_replicate.
Qed.

Lemma allocate_clear_ok a :
  allocs_ok -> can_map a -> 0 < m_num_elements a -> m_data_location a = loc_host ->
  exists a', allocate_clear zero sizeof_T A a = (a', Ok tt) /\
    resize_spec (m_num_elements a) (zeros zero (m_num_elements a)) a a' /\
    m_pitch a' = m_pitch a /\ m_height a' = m_height a.
Proof.
  intros Ao M P L. unfold allocate_clear.
  destruct (allocate_ok a Ao M P L) as (a1 & -> & S & Eh & El & Ea & En & Ep & Ehe & Ee & Em & _).
  destruct (memclear_ok a1 S El) as (S2 & Eh2 & El2 & Ea2 & En2 & Ep2 & Ehe2 & Ee2 & Em2).
  eexists. split; [reflexivity|]. split; [|split; congruence].
  apply resize_spec_intro; auto; try congruence.
  - unfold view. rewrite El2, Eh2, En. reflexivity.
  - unfold cuda. rewrite Ee2, Ee. reflexivity.
  - unfold can_map in *. rewrite Em2, Ee2, Em, Ee. exact M.
Qed.

End coherence.

(** *** Two-dimensional resize *)

Section resize2d.
Context {T : Type} (zero : T).
Abbreviation block := (list (option T)).
Local Open Scope nat_scope.

Lemma blit_length off (src dst : block) :
  off + length src <= length dst -> length (blit off src dst) = length dst.
Proof. intros H. unfold blit. rewrite !length_app, length_take, length_drop. lia. Qed.

Lemma blit_lookup off (src dst : block) k :
  off + length src <= length dst ->
  blit off src dst !! k =
  if decide (off <= k < off + length src) then src !! (k - off) else dst !! k.
Proof.
  intros H. unfold blit. case_decide as D.
  - rewrite lookup_app_r; rewrite length_take, Nat.min_l by lia; [|lia].
    rewrite lookup_app_l by lia. reflexivity.
  - destruct (decide (k < off)).
    + rewrite lookup_app_l by (rewrite length_take; lia). apply lookup_take_lt. lia.
    + rewrite lookup_app_r; rewrite length_take, Nat.min_l by lia; [|lia].
      rewrite lookup_app_r by lia. rewrite lookup_drop. f_equal. lia.
Qed.

(** Every copied row [r] of the destination holds the first [ncols] elements of
    row [r] of the source, everything else is untouched. *)
Lemma copy_rows_lookup rows i pitch new_pitch ncols (b dst : block) r c :
  ncols <= pitch -> ncols <= new_pitch -> c < new_pitch ->
  (i + rows) * pitch <= length b -> (i + rows) * new_pitch <= length dst ->
  copy_rows rows i pitch new_pitch ncols b dst !! (r * new_pitch + c) =
  if decide (i <= r < i + rows /\ c < ncols) then b !! (r * pitch + c) else dst !! (r * new_pitch + c).
Proof.
  intros Hp Hn Hc. revert i dst. induction rows as [|rows IH]; intros i dst Hb Hd; simpl.
  { rewrite decide_False by lia. reflexivity. }
  assert (Ls : length (take ncols (drop (i * pitch) b)) = ncols).
  { rewrite length_take, length_drop. nia. }
  assert (Fit : i * new_pitch + length (take ncols (drop (i * pitch) b)) <= length dst) by (rewrite Ls; nia).
  rewrite IH; [|lia|rewrite blit_length by exact Fit; lia].
  rewrite blit_lookup, Ls by exact Fit.
  destruct (decide (r = i)) as [->|Hri].
  - rewrite decide_False by lia. destruct (decide (c < ncols)).
    + rewrite decide_True by lia. rewrite decide_True by lia.
      rewrite lookup_take_lt by lia. rewrite lookup_drop. f_equal. lia.
    + rewrite decide_False by lia. rewrite decide_False by lia. reflexivity.
  - destruct (decide (S i <= r < S i + rows /\ c < ncols)).
    + rewrite decide_True by lia. reflexivity.
    + rewrite decide_False by nia. rewrite decide_False by lia. reflexivity.
Qed.

End resize2d.

Section resize2d_array.
Context {T : Type} (zero : T) (sizeof_T : Z) (A : allocators).

Lemma copy_rows_length rows i pitch new_pitch ncols (b dst : list (option T)) :
  (ncols <= pitch -> ncols <= new_pitch ->
   (i + rows) * pitch <= length b -> (i + rows) * new_pitch <= length dst ->
   length (copy_rows rows i pitch new_pitch ncols b dst) = length dst)%nat.
Proof.
  intros Hp Hn. revert i dst. induction rows as [|rows IH]; intros i dst Hb Hd; simpl; [reflexivity|].
  assert (Fit : (i * new_pitch + length (take ncols (drop (i * pitch) b)) <= length dst)%nat).
  { rewrite length_take, length_drop. nia. }
  rewrite IH by (rewrite ?blit_length by exact Fit; lia). apply blit_length. exact Fit.
Qed.

(** The sizes the row loop works with. *)
Lemma resized_2d_sizes p np h nh (b : list (option T)) :
  0 <= p -> 0 <= np -> 0 <= h -> 0 <= nh -> length b = Z.to_nat (p * h) ->
  let rows := Z.to_nat (if h >? nh then nh else h) in
  let cols := Z.to_nat (if p >? np then np else p) in
  (cols <= Z.to_nat p /\ cols <= Z.to_nat np /\
   (0 + rows) * Z.to_nat p <= length b /\
   (0 + rows) * Z.to_nat np <= length (zeros zero (np * nh)))%nat.
Proof.
  intros. unfold zeros. rewrite length_replicate, H3, !Z2Nat.inj_mul by assumption.
  subst rows cols. destruct (h >? nh) eqn:E1, (p >? np) eqn:E2; zbool; nia.
Qed.

Lemma resized_2d_length p np h nh (b : list (option T)) :
  0 <= p -> 0 <= np -> 0 <= h -> 0 <= nh -> length b = Z.to_nat (p * h) ->
  length (resized_2d zero p np h nh b) = Z.to_nat (np * nh).
Proof.
  intros. destruct (resized_2d_sizes p np h nh b) as (? & ? & ? & ?); auto.
  unfold resized_2d. rewrite copy_rows_length by auto. unfold zeros. apply length_replicate.
Qed.

Lemma resized_2d_lookup p np h nh (b : list (option T)) r c :
  0 <= p -> 0 <= np -> 0 <= h -> 0 <= nh -> length b = Z.to_nat (p * h) ->
  0 <= r < nh -> 0 <= c < np ->
  resized_2d zero p np h nh b !! Z.to_nat (r * np + c) =
  if decide (r < h /\ c < p) then b !! Z.to_nat (r * p + c) else Some (Some zero).
Proof.
  intros Hp Hnp Hh Hnh Hb Hr Hc. destruct (resized_2d_sizes p np h nh b) as (S1 & S2 & S3 & S4); auto.
  unfold resized_2d.
  replace (Z.to_nat (r * np + c)) with (Z.to_nat r * Z.to_nat np + Z.to_nat c)%nat by nia.
  rewrite copy_rows_lookup by (auto; lia).
  assert (Hz : zeros zero (np * nh) !! (Z.to_nat r * Z.to_nat np + Z.to_nat c)%nat = Some (Some zero)).
  { unfold zeros. apply lookup_replicate. split; [reflexivity|]. nia. }
  rewrite Hz. destruct (decide (r < h /\ c < p)) as [[Dr Dc]|Dn].
  - rewrite decide_True by (destruct (h >? nh) eqn:E1, (p >? np) eqn:E2; zbool; lia).
    f_equal. nia.
  - rewrite decide_False by (destruct (h >? nh) eqn:E1, (p >? np) eqn:E2; zbool; lia). reflexivity.
Qed.

Lemma resize_2d_nonnull width height (a : gpuarray T) :
  allocs_ok A -> can_map a -> inv a -> isNull a = false ->
  0 <= m_pitch a -> 0 <= m_height a -> m_num_elements a = m_pitch a * m_height a ->
  0 < pitch_of width -> 0 < height -> pitch_of width * height < 2 ^ 64 ->
  exists a', resize_2d zero sizeof_T A width height a = (a', Ok tt) /\
    resize_spec (pitch_of width * height)
      (resized_2d zero (m_pitch a) (pitch_of width) (m_height a) height (view a)) a a' /\
    m_pitch a' = pitch_of width /\ m_height a' = height.
Proof.
  intros (Ap & Am & Ad) M I N Hp Hh Hn Hw Hhe Fit. unfold resize_2d, resize2DHostArray, resize2DDeviceArray, resize_device, remap.
  rewrite N. pose proof (inv_shape a I N) as S. clear I. unfold view, can_map in *. rewrite Ad, Ap.
  rewrite u64_small by (unfold is_u64; nia).
  assert (Len : forall b : list (option T), length b = Z.to_nat (m_num_elements a) ->
    length (resized_2d zero (m_pitch a) (pitch_of width) (m_height a) height b)
    = Z.to_nat (pitch_of width * height)) by (intros; apply resized_2d_length; try lia; congruence).
  destruct a as [nel pi he ac lo ma dd hd ex]; cbn in *.
  destruct S as [h Eh L Ec El | h Eh L Ec Em Ed | h d Eh L Ec Em Ed Ld Es]; cbn in *; subst.
  - unfold cuda in Ec |- *; cbn in Ec; destruct ma; cbn; rewrite Ec; cbn; eexists; (split; [reflexivity|]); (split; [|split; reflexivity]);
      (apply resize_spec_intro; cbn; auto; [nia|];
       eapply shape_cpu; cbn; [reflexivity|apply Len; exact L|exact Ec|reflexivity]).
  - unfold cuda in Ec |- *; cbn in Ec |- *. rewrite Ec. eexists. split; [reflexivity|]. split; [|split; reflexivity].
    apply resize_spec_intro; cbn; auto; [nia| |destruct lo; reflexivity].
    eapply shape_mapped; cbn; [reflexivity|apply Len; exact L|exact Ec|reflexivity|reflexivity].
  - unfold cuda in Ec |- *; cbn in Ec |- *. rewrite Ec, Am. eexists. split; [reflexivity|]. split; [|split; reflexivity].
    apply resize_spec_intro; cbn; auto; [nia| |destruct lo; reflexivity].
    eapply shape_gpu; cbn; [reflexivity|apply Len; exact L|exact Ec|reflexivity|reflexivity|apply Len; exact Ld|].
    intros E. f_equal. auto.
Qed.

End resize2d_array.

(** ** Properties *)

(** Allocators that grant every request, for the witnesses. *)
Definition granting : allocators := mkAlloc (fun _ => true) (fun _ => hipSuccess) hipSuccess.

Lemma granting_ok : allocs_ok granting.
Proof. repeat split. Qed.


Definition example_ops : list (op (T := Z)) :=
  [ Access acc_device mode_readwrite (fun b => <[1%nat := Some 7]> b);
    Access acc_host mode_read (fun b => b);
    Resize 4;
    Access acc_device mode_overwrite (fun b => replicate (length b) (Some 5));
    Access acc_host mode_readwrite (fun b => <[0%nat := Some 1]> b) ].


(** Resizing a 2-D array keeps every element whose row and column exist in
    both shapes at its (row, column) position under the new pitch and zeroes the
    rest, whichever side holds the data. *)
Theorem GPUArray_resize_2d {T} (zero : T) (sizeof_T : Z) (A : allocators) (width height : Z) (a : gpuarray T)
    (Alloc : allocs_ok A) (Map : can_map a) (I : inv a) (N : isNull a = false)
    (Hp : 0 <= m_pitch a) (Hh : 0 <= m_height a) (Hn : m_num_elements a = m_pitch a * m_height a)
    (Hw : 0 < pitch_of width) (Hhe : 0 < height) (Fit : pitch_of width * height < 2 ^ 64) :
  exists a', resize_2d zero sizeof_T A width height a = (a', Ok tt) /\ inv a' /\
    m_pitch a' = pitch_of width /\ m_height a' = height /\ m_num_elements a' = pitch_of width * height /\
    forall r c, 0 <= r < height -> 0 <= c < m_pitch a' ->
      view a' !! Z.to_nat (r * m_pitch a' + c) =
      if decide (r < m_height a /\ c < m_pitch a) then view a !! Z.to_nat (r * m_pitch a + c)
      else Some (Some zero).
Proof.
  destruct (resize_2d_nonnull zero sizeof_T A width height a) as (a' & E & (I' & _ & _ & V & En & _) & P & H); auto.
  exists a'. split_and!; auto. intros r c Hr Hc. rewrite V, P in *.
  apply resized_2d_lookup; try lia. rewrite (view_length a I N). congruence.
Qed.

Lemma GPUArray_resize_2d_witness :
  let a := fst (ctor_2d 0 8 granting 3 2 None false) in
  exists a', resize_2d 0 8 granting 20 3 a = (a', Ok tt) /\ inv a' /\
    m_pitch a' = 32 /\ m_height a' = 3 /\ m_num_elements a' = 96 /\
    forall r c, 0 <= r < 3 -> 0 <= c < m_pitch a' ->
      view a' !! Z.to_nat (r * m_pitch a' + c) =
      if decide (r < m_height a /\ c < m_pitch a) then view a !! Z.to_nat (r * m_pitch a + c)
      else Some (Some 0).
Proof.
  intros a. refine (GPUArray_resize_2d 0 8 granting 20 3 a granting_ok _ _ _ _ _ _ _ _ _);
    try reflexivity; try (vm_compute; discriminate).
  - apply (shape_inv a ltac:(reflexivity)). eapply shape_cpu; reflexivity.
Defined.

(** Overlapping handles are not refused: the dispatch object that marks an
    array as acquired is destroyed when [acquire] returns, so while a handle is
    live a second one on the same array is never rejected with the error that
    guards against it. *)
Theorem ArrayHandle_overlap_accepted {T} (a a1 : gpuarray T) (l1 l2 : access_location) (m1 m2 : access_mode)
    (p1 : pointer) (First : ArrayHandle l1 m1 a = (a1, Ok p1)) :
  snd (ArrayHandle l2 m2 a1) <> Throw (runtime_error "Cannot acquire access to array in use.").
Proof.
  assert (Q : m_acquired a1 = false).
  { unfold ArrayHandle in First. destruct (acquire l1 m1 a) as [a0 [p|e]]; [|discriminate].
    injection First as <- _. reflexivity. }
  unfold ArrayHandle, acquire. rewrite Q. destruct (isNull _); [discriminate|].
  destruct a1 as [nel pi he ac lo ma dd hd ex]; cbn.
  destruct l2, lo, m2; cbn; try discriminate; destruct ex as [[[] ?]|]; discriminate.
Qed.

(** Two live handles on one array: the host handle writes after the device
    handle has copied, and the device keeps the stale value. *)
Lemma ArrayHandle_overlap_accepted_witness :
  let a := fst (ctor_1d 0 8 granting 1 (Some (mkExec true true)) false) in
  let '(a1, r1) := ArrayHandle acc_host mode_readwrite a in
  let '(a2, r2) := ArrayHandle acc_device mode_read a1 in
  r1 = Ok host_ptr /\
  snd (ArrayHandle acc_device mode_read a1) <> Throw (runtime_error "Cannot acquire access to array in use.") /\
  r2 = Ok dev_ptr /\
  deref dev_ptr (store host_ptr [Some 9] a2) = Some [Some 0].
Proof.
  split; [reflexivity|]. split; [|split; reflexivity].
  apply (ArrayHandle_overlap_accepted (fst (ctor_1d 0 8 granting 1 (Some (mkExec true true)) false)) _
           acc_host acc_device mode_readwrite mode_read host_ptr).
  reflexivity.
Defined.

(** A refused device access leaves the array locked: without a device the
    request throws after the array was marked as acquired, and from then on
    every access, host accesses included, is refused. *)
Theorem acquire_failure_locks {T} (a : gpuarray T) (mode : access_mode)
    (Q : m_acquired a = false) (N : isNull a = false) (C : cuda a = false) :
  exists a1 e, ArrayHandle acc_device mode a = (a1, Throw e) /\
    forall l m, ArrayHandle l m a1 = (a1, Throw (runtime_error "Cannot acquire access to array in use.")).
Proof.
  unfold ArrayHandle at 1. unfold acquire. rewrite Q.
  change (isNull (set_acquired true a)) with (isNull a). rewrite N.
  unfold cuda in C. cbn. destruct (m_exec_conf a) as [ec|]; [rewrite C|]; cbn; do 2 eexists; split; reflexivity.
Qed.

Lemma acquire_failure_locks_witness :
  let a := fst (ctor_1d 0 8 granting 1 None false) in
  exists a1 e, ArrayHandle acc_device mode_read a = (a1, Throw e) /\
    forall l m, ArrayHandle l m a1 = (a1, Throw (runtime_error "Cannot acquire access to array in use.")).
Proof. apply acquire_failure_locks; reflexivity. Defined.

(** The row pitch is a multiple of 16 strictly larger than the width and at
    most 16 larger; a width that is a multiple of 16 already is still widened by
    a full 16. *)
Theorem pitch_of_spec (width : Z) (Hw : 0 <= width) (Fit : width + 16 < 2 ^ 64) :
  pitch_of width mod 16 = 0 /\ width < pitch_of width <= width + 16 /\
  (width mod 16 = 0 -> pitch_of width = width + 16).
Proof.
  assert (E : pitch_of width = width + (16 - width mod 16)).
  { unfold pitch_of. replace (Z.land width 15) with (width mod 16)
      by (change 15 with (Z.ones 4); rewrite Z.land_ones by lia; reflexivity).
    pose proof (Z.mod_pos_bound width 16). apply u64_small. unfold is_u64. lia. }
  rewrite E. pose proof (Z.mod_pos_bound width 16). pose proof (Z.div_mod width 16).
  split; [|lia]. replace (width + (16 - width mod 16)) with ((width / 16 + 1) * 16) by lia.
  apply Z.mod_mul. lia.
Qed.

Lemma pitch_of_spec_witness : pitch_of 20 mod 16 = 0 /\ pitch_of 32 = 32 + 16.
Proof.
  split.
  - apply (pitch_of_spec 20); lia.
  - apply (pitch_of_spec 32); [lia|lia|reflexivity].
Defined.

(** Resizing a null array allocates it without setting its shape: the row
    pitch and height stay what they were (0 for a default-constructed array) and
    the new memory is not cleared. *)
Theorem resize_null_shape {T} (zero : T) (sizeof_T : Z) (A : allocators) (n : Z) (e : option exec_config)
    (Alloc : allocs_ok A) (Pos : 0 < n) :
  exists a, resize zero sizeof_T A n (ctor_null e) = (a, Ok tt) /\
    m_num_elements a = n /\ m_pitch a = 0 /\ m_height a = 0 /\ view a = uninit n.
Proof.
  destruct (resize_null zero sizeof_T A n (ctor_null e)) as (a & E & (_ & _ & _ & V & En & _) & P & H); auto.
  - unfold can_map. discriminate.
  - constructor; simpl; try congruence; try lia; discriminate.
  - exists a. auto.
Qed.

Lemma resize_null_shape_witness :
  exists a, resize 0 8 granting 5 (ctor_null None) = (a, Ok tt) /\
    m_num_elements a = 5 /\ m_pitch a = 0 /\ m_height a = 0 /\ view a = uninit 5.
Proof. apply (resize_null_shape 0 8 granting 5 None granting_ok). lia. Defined.
