(* ===== verification/GPUVector.v ===== *)
(** Growable vectors over a mirrored array: [hoomd/GPUVector.h].

    [GPUVectorBase<T, Array>] is generic in its array class, so the model is
    generic in the class [HostArray], which states what the vector needs of
    [GPUArray] or [GlobalArray]; the [GPUArray] model provides an instance. The
    abstract value of a vector is the list of its first [m_size] elements. *)

From Stdlib Require Import ZArith Lia String.
From stdpp Require Import base list numbers.
From S2P Require Import Prelude GPUArray GPUArrayCoherence.
Local Open Scope Z_scope.

(** ** The array interface *)

(** Operations of the [Array] base class the vector calls: [getNumElements],
    [resize] and access to the host data through a read-write dispatch. *)
Class HostArray (T Arr : Type) := {
  getNumElements : Arr -> Z;
  arr_resize : Z -> Arr -> Arr * result unit;
  arr_access : (list (option T) -> list (option T)) -> Arr -> Arr * result (list (option T))
}.

(** What the vector relies on: [arr_view] is the current contents. *)
Class HostArrayLaws (T Arr : Type) `{HostArray T Arr} := {
  arr_ok : Arr -> Prop;
  arr_view : Arr -> list (option T);
  arr_len : forall a, arr_ok a -> 0 <= getNumElements a /\ length (arr_view a) = Z.to_nat (getNumElements a);
  arr_resize_ok : forall n a, arr_ok a -> 0 < n ->
    exists a', arr_resize n a = (a', Ok tt) /\ arr_ok a' /\ getNumElements a' = n /\
      forall k, (k < length (arr_view a))%nat -> (k < Z.to_nat n)%nat -> arr_view a' !! k = arr_view a !! k;
  arr_access_ok : forall f a, arr_ok a -> (forall b, length (f b) = length b) ->
    exists a', arr_access f a = (a', Ok (arr_view a)) /\ arr_ok a' /\
      getNumElements a' = getNumElements a /\ arr_view a' = f (arr_view a)
}.

Section gpuvector.
Context {T Arr : Type} `{HostArray T Arr}.

Record gpuvector := mkVec { vec_arr : Arr; m_size : Z }.

Definition size (v : gpuvector) : Z := m_size v.

(** [(size_t)(((double)n) * RESIZE_FACTOR) + 1], with [RESIZE_FACTOR] 9/8. *)
Definition grow_once (n : Z) : Z := n * 9 / 8 + 1.

(** [while (size > new_allocated_size) ...]; each turn adds at least one. *)
Fixpoint grow (fuel : nat) (size n : Z) : Z :=
  match fuel with
  | O => n
  | S fuel => if size >? n then grow fuel size (grow_once n) else n
  end.

Definition new_capacity (size n : Z) : Z := grow (Z.to_nat size) size (if n =? 0 then 1 else n).

(** [GPUVectorBase::reallocate(size)] *)
Definition reallocate (size : Z) (v : gpuvector) : gpuvector * result unit :=
  if size >? getNumElements (vec_arr v) then
    match arr_resize (new_capacity size (getNumElements (vec_arr v))) (vec_arr v) with
    | (a, r) => (mkVec a (m_size v), r)
    end
  else (v, Ok tt).

(** [acquireHost(mode)]: the dispatch is read-write whatever the mode. *)
Definition acquireHost (f : list (option T) -> list (option T)) (v : gpuvector)
  : gpuvector * result (list (option T)) :=
  match arr_access f (vec_arr v) with
  | (a, r) => (mkVec a (m_size v), r)
  end.

Definition set_size (n : Z) (v : gpuvector) : gpuvector := mkVec (vec_arr v) n.

(** [resize(new_size)] *)
Definition vec_resize (new_size : Z) (v : gpuvector) : gpuvector * result unit :=
  match (if new_size >? 0 then reallocate new_size v else reallocate 1 v) with
  | (v1, Ok _) => (set_size new_size v1, Ok tt)
  | (v1, Throw e) => (v1, Throw e)
  end.

(** [for (i = from; i < from + n; ++i) data[i] = value] *)
Fixpoint fill (n : nat) (from : nat) (value : T) (data : list (option T)) : list (option T) :=
  match n with
  | O => data
  | S n => fill n (S from) value (<[from := Some value]> data)
  end.

(** [resize(new_size, value)] *)
Definition vec_resize_value (new_size : Z) (value : T) (v : gpuvector) : gpuvector * result unit :=
  let old_size := m_size v in
  match vec_resize new_size v with
  | (v1, Throw e) => (v1, Throw e)
  | (v1, Ok _) =>
      match acquireHost (fill (Z.to_nat (new_size - old_size)) (Z.to_nat old_size) value) v1 with
      | (v2, Ok _) => (v2, Ok tt)
      | (v2, Throw e) => (v2, Throw e)
      end
  end.

(** [push_back(val)] *)
Definition push_back (val : T) (v : gpuvector) : gpuvector * result unit :=
  match reallocate (u64 (m_size v + 1)) v with
  | (v1, Throw e) => (v1, Throw e)
  | (v1, Ok _) =>
      match acquireHost (fun data => <[Z.to_nat (m_size v1) := Some val]> data) v1 with
      | (v2, Throw e) => (v2, Throw e)
      | (v2, Ok _) => (set_size (u64 (m_size v2 + 1)) v2, Ok tt)
      end
  end.

(** [pop_back()] *)
Definition pop_back (v : gpuvector) : gpuvector := set_size (u64 (m_size v - 1)) v.

(** The loop of [erase(i)]: [n] counts the elements, [res] is the write index. *)
Fixpoint erase_loop (steps n res i : nat) (data : list (option T)) : list (option T) :=
  match steps with
  | O => data
  | S steps =>
      if Nat.eqb n i then erase_loop steps (S n) res i data
      else
        match data !! n with
        | Some x => erase_loop steps (S n) (S res) i (<[res := x]> data)
        | None => data
        end
  end.

Definition erase (i : Z) (v : gpuvector) : gpuvector * result unit :=
  match acquireHost (erase_loop (Z.to_nat (m_size v)) 0 0 (Z.to_nat i)) v with
  | (v1, Throw e) => (v1, Throw e)
  | (v1, Ok _) => (set_size (u64 (m_size v1 - 1)) v1, Ok tt)
  end.

Definition clear (v : gpuvector) : gpuvector := set_size 0 v.

(** [data_proxy]: [operator T()] and [operator=(T)]. An index past the
    allocation is undefined ([None]). *)
Definition proxy_get (n : Z) (v : gpuvector) : gpuvector * result (option (option T)) :=
  match acquireHost (fun data => data) v with
  | (v1, Ok data) => (v1, Ok (data !! Z.to_nat n))
  | (v1, Throw e) => (v1, Throw e)
  end.

Definition proxy_set (n : Z) (rhs : T) (v : gpuvector) : gpuvector * result unit :=
  match acquireHost (fun data => <[Z.to_nat n := Some rhs]> data) v with
  | (v1, Ok _) => (v1, Ok tt)
  | (v1, Throw e) => (v1, Throw e)
  end.

(** ** Abstract value and invariant *)

Context `{!HostArrayLaws T Arr}.

Definition vec_list (v : gpuvector) : list (option T) := take (Z.to_nat (m_size v)) (arr_view (vec_arr v)).

Record vec_inv (v : gpuvector) : Prop := {
  vec_ok : arr_ok (vec_arr v);
  vec_size : 0 <= m_size v <= getNumElements (vec_arr v)
}.

Lemma vec_list_length v : vec_inv v -> length (vec_list v) = Z.to_nat (m_size v).
Proof.
  intros [O S]. destruct (arr_len _ O). unfold vec_list. rewrite length_take. lia.
Qed.

(** *** Growth *)

Lemma grow_once_gt n : 0 <= n -> n < grow_once n.
Proof.
  intros Hn. unfold grow_once. pose proof (Z.div_le_lower_bound (n * 9) 8 n ltac:(lia) ltac:(lia)). lia.
Qed.

Lemma grow_ge fuel size n : 0 <= n -> size <= n + Z.of_nat fuel -> size <= grow fuel size n.
Proof.
  revert n. induction fuel as [|fuel IH]; intros n Hn Hs; simpl; [lia|].
  destruct (size >? n) eqn:E; [|zbool; lia].
  pose proof (grow_once_gt n Hn). apply IH; lia.
Qed.

Lemma grow_ge_self fuel size n : 0 <= n -> n <= grow fuel size n.
Proof.
  revert n. induction fuel as [|fuel IH]; intros n Hn; simpl; [lia|].
  destruct (size >? n); [|lia]. pose proof (grow_once_gt n Hn). specialize (IH (grow_once n)). lia.
Qed.

Lemma grow_le fuel size n : 0 <= n -> grow fuel size n <= Z.max n (grow_once (size - 1)).
Proof.
  revert n. induction fuel as [|fuel IH]; intros n Hn; simpl; [lia|].
  destruct (size >? n) eqn:E; [|lia]. zbool.
  pose proof (grow_once_gt n Hn). specialize (IH (grow_once n) ltac:(lia)).
  assert (grow_once n <= grow_once (size - 1)); [|lia].
  unfold grow_once. pose proof (Z.div_le_mono (n * 9) ((size - 1) * 9) 8 ltac:(lia) ltac:(lia)). lia.
Qed.

Lemma reallocate_ok n v : vec_inv v -> 0 < n ->
  exists v', reallocate n v = (v', Ok tt) /\ vec_inv v' /\ m_size v' = m_size v /\
    n <= getNumElements (vec_arr v') /\ vec_list v' = vec_list v.
Proof.
  intros [O S] Hn. unfold reallocate.
  destruct (n >? getNumElements (vec_arr v)) eqn:E; zbool.
  - set (c := new_capacity n (getNumElements (vec_arr v))).
    assert (Hc : n <= c).
    { unfold c, new_capacity. destruct (_ =? 0) eqn:E0; zbool; apply grow_ge; lia. }
    destruct (arr_resize_ok c (vec_arr v) O) as (a' & -> & O' & Ec & P); [lia|].
    eexists. split; [reflexivity|]. split_and!; simpl; try lia; [constructor; simpl; [exact O'|lia]|].
    unfold vec_list. simpl. destruct (arr_len _ O). destruct (arr_len _ O').
    apply list_eq. intros k. destruct (decide (k < Z.to_nat (m_size v))%nat).
    + rewrite !lookup_take_lt by lia. apply P; lia.
    + rewrite !lookup_take_ge by lia. reflexivity.
  - eexists. split; [reflexivity|]. split_and!; auto; try lia. constructor; auto.
Qed.

Lemma acquireHost_ok f v : vec_inv v -> (forall b, length (f b) = length b) ->
  exists v', acquireHost f v = (v', Ok (arr_view (vec_arr v))) /\ vec_inv v' /\ m_size v' = m_size v /\
    getNumElements (vec_arr v') = getNumElements (vec_arr v) /\
    arr_view (vec_arr v') = f (arr_view (vec_arr v)).
Proof.
  intros [O S] Hf. unfold acquireHost. destruct (arr_access_ok f (vec_arr v) O Hf) as (a' & -> & O' & En & V).
  eexists. split; [reflexivity|]. split_and!; auto. constructor; simpl; [exact O'|lia].
Qed.

(** *** The loops *)

Lemma fill_length n from value (data : list (option T)) : length (fill n from value data) = length data.
Proof. revert from data. induction n; intros; simpl; [reflexivity|]. rewrite IHn, length_insert. reflexivity. Qed.

Lemma fill_lookup n from value (data : list (option T)) k :
  (n <> 0 -> from + n <= length data)%nat ->
  fill n from value data !! k =
  if decide (from <= k < from + n)%nat then Some (Some value) else data !! k.
Proof.
  revert from data. induction n as [|n IH]; intros from data L; simpl.
  { rewrite decide_False by lia. reflexivity. }
  rewrite IH by (rewrite length_insert; lia). destruct (decide (k = from)) as [->|Hk].
  - repeat case_decide; try lia. apply list_lookup_insert_eq. lia.
  - rewrite list_lookup_insert_ne by lia. repeat case_decide; auto; lia.
Qed.

Lemma erase_loop_length steps n res i (data : list (option T)) :
  length (erase_loop steps n res i data) = length data.
Proof.
  revert n res data. induction steps as [|steps IH]; intros; simpl; [reflexivity|].
  destruct (Nat.eqb n i); [apply IH|]. destruct (data !! n); [|reflexivity].
  rewrite IH, length_insert. reflexivity.
Qed.

(** Past the erased index, the loop shifts the rest down by one. *)
Lemma erase_loop_shift steps n i (data : list (option T)) k :
  (i <= n)%nat -> (S n + steps <= length data)%nat ->
  erase_loop steps (S n) n i data !! k =
  if decide (n <= k < n + steps)%nat then data !! S k else data !! k.
Proof.
  revert n data. induction steps as [|steps IH]; intros n data Hi L; cbn [erase_loop].
  { rewrite decide_False by lia. reflexivity. }
  destruct (Nat.eqb (S n) i) eqn:E; [apply Nat.eqb_eq in E; lia|].
  destruct (data !! S n) as [x|] eqn:Ex; [|apply lookup_ge_None in Ex; lia].
  rewrite IH by (rewrite ?length_insert; lia). destruct (decide (k = n)) as [->|Hk].
  - repeat case_decide; try lia. rewrite list_lookup_insert_eq by lia. symmetry. exact Ex.
  - repeat case_decide; try lia; rewrite list_lookup_insert_ne by lia; reflexivity.
Qed.

(** Up to the erased index, the loop rewrites each element with itself. *)
Lemma erase_loop_skip steps n i (data : list (option T)) :
  (n <= i < n + steps)%nat -> (n + steps <= length data)%nat ->
  erase_loop steps n n i data = erase_loop (n + steps - i - 1) (S i) i i data.
Proof.
  revert n. induction steps as [|steps IH]; intros n Hi L; [lia|]. cbn [erase_loop].
  destruct (Nat.eqb n i) eqn:E.
  - apply Nat.eqb_eq in E. subst. f_equal. lia.
  - apply Nat.eqb_neq in E. destruct (data !! n) as [x|] eqn:Ex; [|apply lookup_ge_None in Ex; lia].
    rewrite list_insert_id by exact Ex. rewrite IH by lia. f_equal. lia.
Qed.

Lemma erase_loop_delete m i (data : list (option T)) :
  (i < m <= length data)%nat ->
  take (m - 1) (erase_loop m 0 0 i data) = delete i (take m data).
Proof.
  intros H1. rewrite erase_loop_skip by lia. apply list_eq. intros k.
  destruct (decide (k < m - 1)%nat).
  - rewrite lookup_take_lt by lia. rewrite erase_loop_shift by lia. rewrite list_lookup_delete.
    repeat case_decide; rewrite lookup_take_lt by lia; auto; lia.
  - rewrite lookup_take_ge by lia. rewrite list_lookup_delete_ge by lia. rewrite lookup_take_ge by lia. reflexivity.
Qed.

(** *** Operations against the list *)

(** [v'] implements the list [l]. *)
Definition implements (v' : gpuvector) (l : list (option T)) : Prop :=
  vec_inv v' /\ vec_list v' = l /\ m_size v' = Z.of_nat (length l).

Lemma implements_intro v' l : vec_inv v' -> vec_list v' = l -> implements v' l.
Proof.
  intros I E. split; [exact I|]. split; [exact E|]. rewrite <- E, vec_list_length by exact I.
  destruct I. lia.
Qed.

Lemma push_back_ok v val : vec_inv v -> m_size v + 1 < 2 ^ 64 ->
  exists v', push_back val v = (v', Ok tt) /\ implements v' (vec_list v ++ [Some val]).
Proof.
  intros I F. pose proof (vec_size v I). unfold push_back.
  rewrite (u64_small (m_size v + 1)) by (unfold is_u64; lia).
  destruct (reallocate_ok (m_size v + 1) v I) as (v1 & -> & I1 & S1 & C1 & L1); [lia|].
  edestruct (acquireHost_ok (fun data => <[Z.to_nat (m_size v1) := Some val]> data) v1 I1) as (v2 & -> & I2 & S2 & C2 & V2).
  { intros. apply length_insert. }
  eexists. split; [reflexivity|]. rewrite S2, S1, u64_small by (unfold is_u64; lia).
  apply implements_intro.
  - constructor; simpl; [apply I2|lia].
  - rewrite <- L1. unfold vec_list. simpl. rewrite V2, S1.
    destruct (arr_len _ (vec_ok _ I1)).
    replace (Z.to_nat (m_size v + 1)) with (S (Z.to_nat (m_size v))) by lia.
    rewrite (take_S_r _ _ (Some val)) by (apply list_lookup_insert_eq; lia).
    f_equal. apply take_insert_ge. lia.
Qed.

(** Shrinking to [n] elements. *)
Lemma set_size_ok v n : vec_inv v -> 0 <= n <= m_size v ->
  implements (set_size n v) (take (Z.to_nat n) (vec_list v)).
Proof.
  intros I Hn. pose proof (vec_size v I). apply implements_intro.
  - constructor; simpl; [apply I|lia].
  - unfold vec_list. simpl. rewrite take_take. f_equal. lia.
Qed.

Lemma pop_back_ok v l x : vec_inv v -> m_size v < 2 ^ 64 -> vec_list v = l ++ [x] -> implements (pop_back v) l.
Proof.
  intros I F E. pose proof (vec_size v I). pose proof (vec_list_length v I) as L.
  rewrite E, length_app in L. simpl in L.
  unfold pop_back. rewrite u64_small by (unfold is_u64; lia).
  replace l with (take (Z.to_nat (m_size v - 1)) (vec_list v)); [apply set_size_ok; [exact I|lia]|].
  rewrite E. replace (Z.to_nat (m_size v - 1)) with (length l) by lia. apply take_app_length.
Qed.

Lemma clear_ok v : vec_inv v -> implements (clear v) [].
Proof. intros I. pose proof (vec_size v I). apply (set_size_ok v 0 I). lia. Qed.

Lemma erase_ok v i : vec_inv v -> 0 <= i < m_size v -> m_size v < 2 ^ 64 ->
  exists v', erase i v = (v', Ok tt) /\ implements v' (delete (Z.to_nat i) (vec_list v)).
Proof.
  intros I Hi F. pose proof (vec_size v I). unfold erase. destruct (arr_len _ (vec_ok _ I)).
  destruct (acquireHost_ok (erase_loop (Z.to_nat (m_size v)) 0 0 (Z.to_nat i)) v I) as (v1 & -> & I1 & S1 & C1 & V1).
  { intros. apply erase_loop_length. }
  eexists. split; [reflexivity|]. rewrite S1, u64_small by (unfold is_u64; lia).
  apply implements_intro.
  - constructor; simpl; [apply I1|lia].
  - unfold vec_list. simpl. rewrite V1, <- erase_loop_delete by lia. f_equal. lia.
Qed.

Lemma vec_resize_ok v n : vec_inv v -> 0 <= n ->
  exists v', vec_resize n v = (v', Ok tt) /\ vec_inv v' /\ m_size v' = n /\
    take (Z.to_nat (m_size v)) (vec_list v') = take (Z.to_nat n) (vec_list v).
Proof.
  intros I Hn. pose proof (vec_size v I). unfold vec_resize.
  assert (R : exists v1, (if n >? 0 then reallocate n v else reallocate 1 v) = (v1, Ok tt) /\ vec_inv v1 /\
    m_size v1 = m_size v /\ n <= getNumElements (vec_arr v1) /\ vec_list v1 = vec_list v).
  { destruct (n >? 0) eqn:E; zbool.
    - destruct (reallocate_ok n v I) as (v1 & ? & ? & ? & ? & ?); [lia|]. eauto 10.
    - destruct (reallocate_ok 1 v I) as (v1 & ? & ? & ? & ? & ?); [lia|]. exists v1. split_and!; auto; lia. }
  destruct R as (v1 & -> & I1 & S1 & C1 & L1). eexists. split; [reflexivity|].
  split; [constructor; simpl; [apply I1|lia]|]. split; [reflexivity|].
  rewrite <- L1. unfold vec_list. simpl. rewrite !take_take, S1. f_equal. lia.
Qed.

Lemma vec_resize_value_ok v n value : vec_inv v -> 0 <= n ->
  exists v', vec_resize_value n value v = (v', Ok tt) /\
    implements v' (take (Z.to_nat n) (vec_list v) ++ replicate (Z.to_nat (n - m_size v)) (Some value)).
Proof.
  intros I Hn. pose proof (vec_size v I). unfold vec_resize_value.
  destruct (vec_resize_ok v n I Hn) as (v1 & -> & I1 & S1 & L1).
  destruct (acquireHost_ok (fill (Z.to_nat (n - m_size v)) (Z.to_nat (m_size v)) value) v1 I1)
    as (v2 & -> & I2 & S2 & C2 & V2).
  { intros. apply fill_length. }
  eexists. split; [reflexivity|]. apply implements_intro; [exact I2|].
  destruct (arr_len _ (vec_ok _ I1)) as [? Len]. pose proof (vec_size v1 I1).
  unfold vec_list at 1. rewrite V2, S2, S1.
  assert (L : forall k, (k < Z.to_nat (m_size v))%nat -> (k < Z.to_nat n)%nat ->
    arr_view (vec_arr v1) !! k = vec_list v !! k).
  { intros k K1 K2. transitivity (take (Z.to_nat (m_size v)) (vec_list v1) !! k).
    - unfold vec_list. rewrite S1, !lookup_take_lt by lia. reflexivity.
    - rewrite L1. apply lookup_take_lt. lia. }
  pose proof (vec_list_length v I) as Lv.
  apply list_eq. intros k. destruct (decide (k < Z.to_nat n)%nat).
  - rewrite lookup_take_lt, fill_lookup by lia. destruct (decide (k < Z.to_nat (m_size v))%nat).
    + rewrite decide_False by lia. rewrite lookup_app_l by (rewrite length_take; lia).
      rewrite lookup_take_lt by lia. apply L; lia.
    + rewrite decide_True by lia. rewrite lookup_app_r by (rewrite length_take; lia).
      symmetry. apply lookup_replicate. rewrite length_take. split; [reflexivity|lia].
  - rewrite lookup_take_ge by lia. symmetry. apply lookup_ge_None.
    rewrite length_app, length_take, length_replicate. lia.
Qed.

Lemma proxy_get_ok v n : vec_inv v -> 0 <= n < m_size v ->
  exists v' x, proxy_get n v = (v', Ok (Some x)) /\ vec_list v !! Z.to_nat n = Some x /\ implements v' (vec_list v).
Proof.
  intros I Hn. pose proof (vec_list_length v I). unfold proxy_get.
  destruct (acquireHost_ok (fun data => data) v I) as (v1 & -> & I1 & S1 & C1 & V1); [auto|].
  destruct (lookup_lt_is_Some_2 (vec_list v) (Z.to_nat n)) as [x Hx]; [lia|].
  exists v1, x. pose proof Hx as Hx'. unfold vec_list in Hx'. rewrite lookup_take_lt in Hx' by lia.
  rewrite Hx'. split; [reflexivity|]. split; [exact Hx|]. apply implements_intro; [exact I1|].
  unfold vec_list. rewrite S1, V1. reflexivity.
Qed.

Lemma proxy_set_ok v n rhs : vec_inv v -> 0 <= n < m_size v ->
  exists v', proxy_set n rhs v = (v', Ok tt) /\ implements v' (<[Z.to_nat n := Some rhs]> (vec_list v)).
Proof.
  intros I Hn. unfold proxy_set.
  destruct (acquireHost_ok (fun data => <[Z.to_nat n := Some rhs]> data) v I) as (v1 & -> & I1 & S1 & C1 & V1).
  { intros. apply length_insert. }
  eexists. split; [reflexivity|]. apply implements_intro; [exact I1|].
  unfold vec_list. rewrite S1, V1. apply take_insert_lt. lia.
Qed.

End gpuvector.
Arguments gpuvector : clear implicits.

(** ** [GPUArray] implements the interface *)

Section gpuarray_instance.
Context {T : Type} (zero : T) (sizeof_T : Z) (A : allocators) (Alloc : allocs_ok A).

#[local] Instance gpuarray_host_array : HostArray T (gpuarray T) := {|
  getNumElements := m_num_elements;
  arr_resize := resize zero sizeof_T A;
  arr_access f a := access acc_host mode_readwrite f a
|}.

#[local] Instance gpuarray_host_array_laws : HostArrayLaws T (gpuarray T).
Proof using Alloc.
  refine {| arr_ok (a : gpuarray T) := inv a /\ m_acquired a = false /\ can_map a /\ (isNull a = true -> m_num_elements a = 0);
            arr_view := view |}.
  - intros a (I & Q & M & Z0). split; [apply I|]. destruct (isNull a) eqn:N.
    + simpl. rewrite Z0 by reflexivity. unfold view. rewrite (inv_null a I N).
      unfold isNull in N. destruct (h_data a); [discriminate|reflexivity].
    + apply view_length; assumption.
  - intros n a (I & Q & M & Z0) Hn. simpl. destruct (isNull a) eqn:N.
    + destruct (resize_null zero sizeof_T A n a Alloc M Hn I N) as (a' & E & (I' & N' & Q' & V & En & Cu & M') & _).
      exists a'. split; [exact E|]. split_and!; auto; try congruence.
      intros k Hk. exfalso. unfold view in Hk. rewrite (inv_null a I N) in Hk.
      unfold isNull in N. destruct (h_data a); [discriminate|]. simpl in Hk. lia.
    + destruct (resize_nonnull zero sizeof_T A n a Alloc M Hn I N) as (a' & E & I' & N' & Q' & V & En & Cu & M').
      exists a'. split; [exact E|]. split_and!; auto; try congruence.
      intros k Hk Hk'. rewrite V. unfold resized. rewrite lookup_app_l by (rewrite length_take; lia).
      apply lookup_take_lt. lia.
  - intros f a (I & Q & M & Z0) Hf. simpl.
    destruct (access_ok acc_host mode_readwrite f a I Q) as (a' & seen & E & (I' & Q' & Se & V & En & Nu & Cu)).
    { split; [exact Hf|discriminate]. }
    { discriminate. }
    exists a'. rewrite E, Se by discriminate. split_and!; auto; try congruence.
    + destruct (run_op_refines zero sizeof_T A (Access acc_host mode_readwrite f) a Alloc M I Q)
        as (a'' & x & R & _ & _ & M'' & _).
      * split; [split; [exact Hf|discriminate]|discriminate].
      * simpl in R. rewrite E in R. injection R as <- _. exact M''.
    + rewrite Nu, En. exact Z0.
Defined.

End gpuarray_instance.

(** ** Sequences of vector operations *)

Section vector_ops.
Context {T Arr : Type} `{HostArrayLaws T Arr}.

Inductive vop : Type :=
| VPush (x : T) | VPop | VErase (i : Z) | VClear | VResize (n : Z) (x : T) | VSet (i : Z) (x : T) | VGet (i : Z).

Definition run_vop (o : vop) (v : gpuvector Arr) : gpuvector Arr * result (option (option T)) :=
  let void r := match r with
                | (v', Ok _) => (v', Ok None)
                | (v', Throw e) => (v', Throw e)
                end in
  match o with
  | VPush x => void (push_back x v)
  | VPop => (pop_back v, Ok None)
  | VErase i => void (erase i v)
  | VClear => (clear v, Ok None)
  | VResize n x => void (vec_resize_value n x v)
  | VSet i x => void (proxy_set i x v)
  | VGet i => proxy_get i v
  end.

Fixpoint run_vops (os : list vop) (v : gpuvector Arr) : gpuvector Arr * result (list (option (option T))) :=
  match os with
  | [] => (v, Ok [])
  | o :: os =>
      match run_vop o v with
      | (v1, Throw e) => (v1, Throw e)
      | (v1, Ok x) =>
          match run_vops os v1 with
          | (v2, Ok xs) => (v2, Ok (x :: xs))
          | r => r
          end
      end
  end.

(** The same operations on a list, [None] when a precondition fails (the
    asserts of the source, and a length that fits [size_t]). *)
Definition list_vop (o : vop) (l : list (option T)) : option (list (option T) * option (option T)) :=
  let len := Z.of_nat (length l) in
  if negb (len + 1 <? 2 ^ 64) then None
  else
    match o with
    | VPush x => Some (l ++ [Some x], None)
    | VPop => match l with [] => None | _ => Some (take (length l - 1) l, None) end
    | VErase i => if (0 <=? i) && (i <? len) then Some (delete (Z.to_nat i) l, None) else None
    | VClear => Some ([], None)
    | VResize n x => if 0 <=? n then Some (take (Z.to_nat n) l ++ replicate (Z.to_nat n - length l) (Some x), None) else None
    | VSet i x => if (0 <=? i) && (i <? len) then Some (<[Z.to_nat i := Some x]> l, None) else None
    | VGet i => if (0 <=? i) && (i <? len) then Some (l, l !! Z.to_nat i) else None
    end.

Fixpoint list_vops (os : list vop) (l : list (option T)) : option (list (option T) * list (option (option T))) :=
  match os with
  | [] => Some (l, [])
  | o :: os =>
      match list_vop o l with
      | None => None
      | Some (l1, x) =>
          match list_vops os l1 with
          | None => None
          | Some (l2, xs) => Some (l2, x :: xs)
          end
      end
  end.

Lemma run_vop_refines o v l1 x :
  vec_inv v -> list_vop o (vec_list v) = Some (l1, x) ->
  exists v', run_vop o v = (v', Ok x) /\ implements v' l1.
Proof.
  intros I E. unfold list_vop in E. pose proof (vec_list_length v I) as L. pose proof (vec_size v I).
  destruct (_ <? 2 ^ 64) eqn:Elen; [|discriminate]. simpl in E. zbool.
  destruct o; simpl.
  - injection E as <- <-. destruct (push_back_ok v x0 I) as (v' & -> & P); [lia|]. eauto.
  - destruct (vec_list v) as [|y l] eqn:El; [discriminate|]. injection E as <- <-.
    eexists. split; [reflexivity|]. unfold pop_back. rewrite u64_small by (unfold is_u64; simpl in *; lia).
    rewrite <- El. replace (length l - 0)%nat with (Z.to_nat (m_size v - 1)) by (simpl in *; lia).
    apply set_size_ok; [exact I|simpl in *; lia].
  - destruct ((0 <=? i) && _) eqn:Ei; [|discriminate]. injection E as <- <-. zbool.
    destruct (erase_ok v i I) as (v' & -> & P); [lia|lia|]. eauto.
  - injection E as <- <-. eexists. split; [reflexivity|]. apply clear_ok. exact I.
  - destruct (0 <=? n) eqn:En; [|discriminate]. injection E as <- <-. zbool.
    destruct (vec_resize_value_ok v n x0 I) as (v' & -> & P); [lia|]. eexists. split; [reflexivity|].
    replace (Z.to_nat n - length (vec_list v))%nat with (Z.to_nat (n - m_size v)) by lia. exact P.
  - destruct ((0 <=? i) && _) eqn:Ei; [|discriminate]. injection E as <- <-. zbool.
    destruct (proxy_set_ok v i x0 I) as (v' & -> & P); [lia|]. eauto.
  - destruct ((0 <=? i) && _) eqn:Ei; [|discriminate]. injection E as <- <-. zbool.
    destruct (proxy_get_ok v i I) as (v' & y & -> & -> & P); [lia|]. eauto.
Qed.


(** Growth is geometric and no larger than needed: when a request exceeds
    the capacity [c], the new capacity covers it, is at least [floor(9 c / 8) + 1]
    (so [n] insertions reallocate logarithmically often) and at most
    [floor(9 (size - 1) / 8) + 1], or 1 for the first element. *)
Theorem new_capacity_bounds (size c : Z) (Hc : 0 <= c) (Need : c < size) :
  size <= new_capacity size c <= Z.max 1 (grow_once (size - 1)) /\
  (0 < c -> c * 9 / 8 + 1 <= new_capacity size c).
Proof.
  unfold new_capacity. destruct (c =? 0) eqn:E0; zbool.
  - pose proof (grow_ge (Z.to_nat size) size 1 ltac:(lia) ltac:(lia)).
    pose proof (grow_le (Z.to_nat size) size 1 ltac:(lia)). lia.
  - pose proof (grow_ge (Z.to_nat size) size c ltac:(lia) ltac:(lia)).
    pose proof (grow_le (Z.to_nat size) size c ltac:(lia)).
    pose proof (grow_once_gt (size - 1) ltac:(lia)). split; [lia|]. intros _.
    destruct (Z.to_nat size) as [|fuel] eqn:Ef; [lia|]. simpl.
    destruct (size >? c) eqn:E; [|zbool; lia].
    pose proof (grow_once_gt c Hc). apply (grow_ge_self fuel size (grow_once c)). lia.
Qed.

End vector_ops.

(** A vector over a null host-only [GPUArray], for the witness. *)
Definition empty_vector : gpuvector (gpuarray Z) := mkVec (fst (ctor_1d 0 8 granting 0 None false)) 0.

Lemma empty_vector_inv :
  @vec_inv Z _ (gpuarray_host_array 0 8 granting) (gpuarray_host_array_laws 0 8 granting granting_ok) empty_vector.
Proof.
  constructor; [|simpl; lia]. cbn. split_and!; try reflexivity.
  - constructor; simpl; try congruence; try lia; discriminate.
  - unfold can_map. discriminate.
Qed.


Lemma new_capacity_bounds_witness :
  100 <= new_capacity 100 64 <= Z.max 1 (grow_once 99) /\ (0 < 64 -> 64 * 9 / 8 + 1 <= new_capacity 100 64).
Proof. apply (new_capacity_bounds 100 64); lia. Defined.
