(* ===== verification/ParticleData.v ===== *)
(** Particle data ([hoomd/ParticleData.h], [hoomd/ParticleData.cc]): the local
    particle arrays of a rank, the global tags and their reverse lookup.

    The source keeps one array per quantity, all of the same capacity
    ([m_max_nparticles]) and indexed alike; the model keeps one list of records,
    [m_ptl], of that capacity, whose first [m_nparticles] entries are the local
    particles and whose rest is the stale memory the arrays hold there. The
    alternate arrays are [m_ptl_alt]. [pos.w] (the type) and [vel.w] (the mass)
    are separate fields. [m_rtag] is a vector: [m_rtag] is its allocated storage
    and [m_rtag_size] its size. [std::set] is a strictly increasing list,
    [std::stack] a list with its top at the head. The signals are recorded in
    the order they are emitted.

    The model is the host code of one rank. Where the source communicates
    ([removeParticle] under a domain decomposition) the reduction is an
    argument. [h_x.data[i]] outside the storage is undefined behaviour;
    [takeSnapshot], whose loop is not bounded by the size of the array it reads,
    returns [None] there, the other operations are proved to stay inside. *)

From Stdlib Require Import ZArith Lia QArith String.
From stdpp Require Import base list list_numbers sorting gmap.
From S2P Require Import Prelude HOOMDMath BoxDim.
Local Open Scope Z_scope.

(** * Containers *)

(** [std::set<unsigned int>] *)
Fixpoint set_insert (x : Z) (s : list Z) : list Z :=
  match s with
  | [] => [x]
  | y :: s' => if x <? y then x :: s else if x =? y then s else y :: set_insert x s'
  end.

Definition set_erase (x : Z) (s : list Z) : list Z := filter (fun y => y <> x) s.

(** * Data *)

Definition NO_BODY : Z := 4294967295.
Definition MIN_FLOPPY : Z := 2147483648.
Definition NOT_LOCAL : Z := 4294967295.

Inductive signal : Type :=
| sort_signal
| max_particle_num_signal
| ghost_particles_removed_signal
| global_particle_num_signal
| boxchange_signal.

Record pdata_element := mkElement {
  pos : Scalar3;
  typ : Z;
  vel : Scalar3;
  mass : Scalar;
  accel : Scalar3;
  charge : Scalar;
  diameter : Scalar;
  image : int3;
  body : Z;
  orientation : Scalar4;
  angmom : Scalar4;
  inertia : Scalar3;
  tag : Z;
  net_force : Scalar4;
  net_torque : Scalar4;
  net_virial : list Scalar
}.

Definition e_pos (v : Scalar3) (i : int3) (e : pdata_element) : pdata_element :=
  mkElement v (typ e) (vel e) (mass e) (accel e) (charge e) (diameter e) i (body e) (orientation e) (angmom e) (inertia e) (tag e) (net_force e) (net_torque e) (net_virial e).

Definition e_vel (v : Scalar3) (e : pdata_element) : pdata_element :=
  mkElement (pos e) (typ e) v (mass e) (accel e) (charge e) (diameter e) (image e) (body e) (orientation e) (angmom e) (inertia e) (tag e) (net_force e) (net_torque e) (net_virial e).

Definition e_image (v : int3) (e : pdata_element) : pdata_element :=
  mkElement (pos e) (typ e) (vel e) (mass e) (accel e) (charge e) (diameter e) v (body e) (orientation e) (angmom e) (inertia e) (tag e) (net_force e) (net_torque e) (net_virial e).

Definition e_charge (v : Scalar) (e : pdata_element) : pdata_element :=
  mkElement (pos e) (typ e) (vel e) (mass e) (accel e) v (diameter e) (image e) (body e) (orientation e) (angmom e) (inertia e) (tag e) (net_force e) (net_torque e) (net_virial e).

Definition e_mass (v : Scalar) (e : pdata_element) : pdata_element :=
  mkElement (pos e) (typ e) (vel e) v (accel e) (charge e) (diameter e) (image e) (body e) (orientation e) (angmom e) (inertia e) (tag e) (net_force e) (net_torque e) (net_virial e).

Definition e_diameter (v : Scalar) (e : pdata_element) : pdata_element :=
  mkElement (pos e) (typ e) (vel e) (mass e) (accel e) (charge e) v (image e) (body e) (orientation e) (angmom e) (inertia e) (tag e) (net_force e) (net_torque e) (net_virial e).

Definition e_body (v : Z) (e : pdata_element) : pdata_element :=
  mkElement (pos e) (typ e) (vel e) (mass e) (accel e) (charge e) (diameter e) (image e) v (orientation e) (angmom e) (inertia e) (tag e) (net_force e) (net_torque e) (net_virial e).

Definition e_type (v : Z) (e : pdata_element) : pdata_element :=
  mkElement (pos e) v (vel e) (mass e) (accel e) (charge e) (diameter e) (image e) (body e) (orientation e) (angmom e) (inertia e) (tag e) (net_force e) (net_torque e) (net_virial e).

Definition e_orientation (v : Scalar4) (e : pdata_element) : pdata_element :=
  mkElement (pos e) (typ e) (vel e) (mass e) (accel e) (charge e) (diameter e) (image e) (body e) v (angmom e) (inertia e) (tag e) (net_force e) (net_torque e) (net_virial e).

Definition e_angmom (v : Scalar4) (e : pdata_element) : pdata_element :=
  mkElement (pos e) (typ e) (vel e) (mass e) (accel e) (charge e) (diameter e) (image e) (body e) (orientation e) v (inertia e) (tag e) (net_force e) (net_torque e) (net_virial e).

Definition e_inertia (v : Scalar3) (e : pdata_element) : pdata_element :=
  mkElement (pos e) (typ e) (vel e) (mass e) (accel e) (charge e) (diameter e) (image e) (body e) (orientation e) (angmom e) v (tag e) (net_force e) (net_torque e) (net_virial e).

Definition e_net (f : Scalar4) (t : Scalar4) (v : list Scalar) (e : pdata_element) : pdata_element :=
  mkElement (pos e) (typ e) (vel e) (mass e) (accel e) (charge e) (diameter e) (image e) (body e) (orientation e) (angmom e) (inertia e) (tag e) f t v.
Definition zero4 : Scalar4 := make_scalar4 0 0 0 0.
Definition zero_i3 : int3 := make_int3 0 0 0.

(** Zeroed memory. *)
Definition zero_element : pdata_element :=
  mkElement BoxDim.zero3 0 BoxDim.zero3 0 BoxDim.zero3 0 0 zero_i3 0 zero4 zero4 BoxDim.zero3 0 zero4 zero4 [0%Q; 0%Q; 0%Q; 0%Q; 0%Q; 0%Q].

Definition clear_net (e : pdata_element) : pdata_element :=
  e_net zero4 zero4 [0%Q; 0%Q; 0%Q; 0%Q; 0%Q; 0%Q] e.

Record pdata := mkPD {
  m_nparticles : Z;
  m_nghosts : Z;
  m_max_nparticles : Z;
  m_nglobal : Z;
  m_ptl : list pdata_element;
  m_ptl_alt : list pdata_element;
  m_comm_flags : list Z;
  m_rtag : list Z;
  m_rtag_size : Z;
  m_tag_set : list Z;
  m_recycled_tags : list Z;
  m_cached_tag_set : list Z;
  m_invalid_cached_tags : bool;
  m_type_mapping : list string;
  m_accel_set : bool;
  m_origin : Scalar3;
  m_o_image : int3;
  m_global_box : BoxDim.t;
  m_arrays_allocated : bool;
  m_rank : Z;
  m_signals : list signal
}.

Definition set_nparticles (n : Z) (p : pdata) : pdata :=
  mkPD n (m_nghosts p) (m_max_nparticles p) (m_nglobal p) (m_ptl p) (m_ptl_alt p) (m_comm_flags p) (m_rtag p) (m_rtag_size p) (m_tag_set p) (m_recycled_tags p) (m_cached_tag_set p) (m_invalid_cached_tags p) (m_type_mapping p) (m_accel_set p) (m_origin p) (m_o_image p) (m_global_box p) (m_arrays_allocated p) (m_rank p) (m_signals p).

Definition set_nghosts (g : Z) (p : pdata) : pdata :=
  mkPD (m_nparticles p) g (m_max_nparticles p) (m_nglobal p) (m_ptl p) (m_ptl_alt p) (m_comm_flags p) (m_rtag p) (m_rtag_size p) (m_tag_set p) (m_recycled_tags p) (m_cached_tag_set p) (m_invalid_cached_tags p) (m_type_mapping p) (m_accel_set p) (m_origin p) (m_o_image p) (m_global_box p) (m_arrays_allocated p) (m_rank p) (m_signals p).

Definition set_max (n : Z) (p : pdata) : pdata :=
  mkPD (m_nparticles p) (m_nghosts p) n (m_nglobal p) (m_ptl p) (m_ptl_alt p) (m_comm_flags p) (m_rtag p) (m_rtag_size p) (m_tag_set p) (m_recycled_tags p) (m_cached_tag_set p) (m_invalid_cached_tags p) (m_type_mapping p) (m_accel_set p) (m_origin p) (m_o_image p) (m_global_box p) (m_arrays_allocated p) (m_rank p) (m_signals p).

Definition set_nglobal (n : Z) (p : pdata) : pdata :=
  mkPD (m_nparticles p) (m_nghosts p) (m_max_nparticles p) n (m_ptl p) (m_ptl_alt p) (m_comm_flags p) (m_rtag p) (m_rtag_size p) (m_tag_set p) (m_recycled_tags p) (m_cached_tag_set p) (m_invalid_cached_tags p) (m_type_mapping p) (m_accel_set p) (m_origin p) (m_o_image p) (m_global_box p) (m_arrays_allocated p) (m_rank p) (m_signals p).

Definition set_ptl (l : list pdata_element) (p : pdata) : pdata :=
  mkPD (m_nparticles p) (m_nghosts p) (m_max_nparticles p) (m_nglobal p) l (m_ptl_alt p) (m_comm_flags p) (m_rtag p) (m_rtag_size p) (m_tag_set p) (m_recycled_tags p) (m_cached_tag_set p) (m_invalid_cached_tags p) (m_type_mapping p) (m_accel_set p) (m_origin p) (m_o_image p) (m_global_box p) (m_arrays_allocated p) (m_rank p) (m_signals p).

Definition set_arrays (l : list pdata_element) (a : list pdata_element) (c : list Z) (p : pdata) : pdata :=
  mkPD (m_nparticles p) (m_nghosts p) (m_max_nparticles p) (m_nglobal p) l a c (m_rtag p) (m_rtag_size p) (m_tag_set p) (m_recycled_tags p) (m_cached_tag_set p) (m_invalid_cached_tags p) (m_type_mapping p) (m_accel_set p) (m_origin p) (m_o_image p) (m_global_box p) (m_arrays_allocated p) (m_rank p) (m_signals p).

Definition set_comm_flags (c : list Z) (p : pdata) : pdata :=
  mkPD (m_nparticles p) (m_nghosts p) (m_max_nparticles p) (m_nglobal p) (m_ptl p) (m_ptl_alt p) c (m_rtag p) (m_rtag_size p) (m_tag_set p) (m_recycled_tags p) (m_cached_tag_set p) (m_invalid_cached_tags p) (m_type_mapping p) (m_accel_set p) (m_origin p) (m_o_image p) (m_global_box p) (m_arrays_allocated p) (m_rank p) (m_signals p).

Definition set_rtag (r : list Z) (n : Z) (p : pdata) : pdata :=
  mkPD (m_nparticles p) (m_nghosts p) (m_max_nparticles p) (m_nglobal p) (m_ptl p) (m_ptl_alt p) (m_comm_flags p) r n (m_tag_set p) (m_recycled_tags p) (m_cached_tag_set p) (m_invalid_cached_tags p) (m_type_mapping p) (m_accel_set p) (m_origin p) (m_o_image p) (m_global_box p) (m_arrays_allocated p) (m_rank p) (m_signals p).

Definition set_tag_set (s : list Z) (p : pdata) : pdata :=
  mkPD (m_nparticles p) (m_nghosts p) (m_max_nparticles p) (m_nglobal p) (m_ptl p) (m_ptl_alt p) (m_comm_flags p) (m_rtag p) (m_rtag_size p) s (m_recycled_tags p) (m_cached_tag_set p) (m_invalid_cached_tags p) (m_type_mapping p) (m_accel_set p) (m_origin p) (m_o_image p) (m_global_box p) (m_arrays_allocated p) (m_rank p) (m_signals p).

Definition set_recycled (s : list Z) (p : pdata) : pdata :=
  mkPD (m_nparticles p) (m_nghosts p) (m_max_nparticles p) (m_nglobal p) (m_ptl p) (m_ptl_alt p) (m_comm_flags p) (m_rtag p) (m_rtag_size p) (m_tag_set p) s (m_cached_tag_set p) (m_invalid_cached_tags p) (m_type_mapping p) (m_accel_set p) (m_origin p) (m_o_image p) (m_global_box p) (m_arrays_allocated p) (m_rank p) (m_signals p).

Definition set_cache (c : list Z) (b : bool) (p : pdata) : pdata :=
  mkPD (m_nparticles p) (m_nghosts p) (m_max_nparticles p) (m_nglobal p) (m_ptl p) (m_ptl_alt p) (m_comm_flags p) (m_rtag p) (m_rtag_size p) (m_tag_set p) (m_recycled_tags p) c b (m_type_mapping p) (m_accel_set p) (m_origin p) (m_o_image p) (m_global_box p) (m_arrays_allocated p) (m_rank p) (m_signals p).

Definition set_type_mapping (m : list string) (p : pdata) : pdata :=
  mkPD (m_nparticles p) (m_nghosts p) (m_max_nparticles p) (m_nglobal p) (m_ptl p) (m_ptl_alt p) (m_comm_flags p) (m_rtag p) (m_rtag_size p) (m_tag_set p) (m_recycled_tags p) (m_cached_tag_set p) (m_invalid_cached_tags p) m (m_accel_set p) (m_origin p) (m_o_image p) (m_global_box p) (m_arrays_allocated p) (m_rank p) (m_signals p).

Definition set_accel_set (b : bool) (p : pdata) : pdata :=
  mkPD (m_nparticles p) (m_nghosts p) (m_max_nparticles p) (m_nglobal p) (m_ptl p) (m_ptl_alt p) (m_comm_flags p) (m_rtag p) (m_rtag_size p) (m_tag_set p) (m_recycled_tags p) (m_cached_tag_set p) (m_invalid_cached_tags p) (m_type_mapping p) b (m_origin p) (m_o_image p) (m_global_box p) (m_arrays_allocated p) (m_rank p) (m_signals p).

Definition set_origin (o : Scalar3) (i : int3) (p : pdata) : pdata :=
  mkPD (m_nparticles p) (m_nghosts p) (m_max_nparticles p) (m_nglobal p) (m_ptl p) (m_ptl_alt p) (m_comm_flags p) (m_rtag p) (m_rtag_size p) (m_tag_set p) (m_recycled_tags p) (m_cached_tag_set p) (m_invalid_cached_tags p) (m_type_mapping p) (m_accel_set p) o i (m_global_box p) (m_arrays_allocated p) (m_rank p) (m_signals p).

Definition set_allocated (b : bool) (p : pdata) : pdata :=
  mkPD (m_nparticles p) (m_nghosts p) (m_max_nparticles p) (m_nglobal p) (m_ptl p) (m_ptl_alt p) (m_comm_flags p) (m_rtag p) (m_rtag_size p) (m_tag_set p) (m_recycled_tags p) (m_cached_tag_set p) (m_invalid_cached_tags p) (m_type_mapping p) (m_accel_set p) (m_origin p) (m_o_image p) (m_global_box p) b (m_rank p) (m_signals p).

Definition set_signals (s : list signal) (p : pdata) : pdata :=
  mkPD (m_nparticles p) (m_nghosts p) (m_max_nparticles p) (m_nglobal p) (m_ptl p) (m_ptl_alt p) (m_comm_flags p) (m_rtag p) (m_rtag_size p) (m_tag_set p) (m_recycled_tags p) (m_cached_tag_set p) (m_invalid_cached_tags p) (m_type_mapping p) (m_accel_set p) (m_origin p) (m_o_image p) (m_global_box p) (m_arrays_allocated p) (m_rank p) s.

Definition set_global_box (b : BoxDim.t) (p : pdata) : pdata :=
  mkPD (m_nparticles p) (m_nghosts p) (m_max_nparticles p) (m_nglobal p) (m_ptl p) (m_ptl_alt p) (m_comm_flags p) (m_rtag p) (m_rtag_size p) (m_tag_set p) (m_recycled_tags p) (m_cached_tag_set p) (m_invalid_cached_tags p) (m_type_mapping p) (m_accel_set p) (m_origin p) (m_o_image p) b (m_arrays_allocated p) (m_rank p) (m_signals p).

Definition emit (s : signal) (p : pdata) : pdata := set_signals (m_signals p ++ [s]) p.

Definition notifyParticleSort : pdata -> pdata := emit sort_signal.
Definition notifyGhostParticlesRemoved : pdata -> pdata := emit ghost_particles_removed_signal.

(** [setGlobalBox(box)] without a domain decomposition: the local box is the
    global one. *)
Definition setGlobalBox (b : BoxDim.t) (p : pdata) : pdata := emit boxchange_signal (set_global_box b p).

Definition getN (p : pdata) : Z := m_nparticles p.
Definition getNGlobal (p : pdata) : Z := m_nglobal p.
Definition getNTypes (p : pdata) : Z := Z.of_nat (length (m_type_mapping p)).
Definition getRTag (tag : Z) (p : pdata) : Z := zget 0 (m_rtag p) tag.
Definition getMaximumTag (p : pdata) : Z := List.last (m_tag_set p) UINT_MAX.
Definition isTagActive (tag : Z) (p : pdata) : bool := bool_decide (tag ∈ m_tag_set p).
Definition element (i : Z) (p : pdata) : pdata_element := zget zero_element (m_ptl p) i.

(** * Types *)

Fixpoint find_type (name : string) (i : Z) (names : list string) : option Z :=
  match names with
  | [] => None
  | s :: names => if String.eqb s name then Some i else find_type name (i + 1) names
  end.

Definition getTypeByName (name : string) (p : pdata) : result Z :=
  match find_type name 0 (m_type_mapping p) with
  | Some i => Ok i
  | None => Throw (runtime_error ("Type " ++ name ++ " not found!"))
  end.

Definition getNameByType (type : Z) (p : pdata) : result string :=
  if type >=? getNTypes p then Throw (runtime_error "Requesting type name for non-existent type.")
  else Ok (zget EmptyString (m_type_mapping p) type).

Definition setTypeName (type : Z) (name : string) (p : pdata) : result pdata :=
  if type >=? getNTypes p then Throw (runtime_error "Setting name for non-existent type.")
  else Ok (set_type_mapping (zset (m_type_mapping p) type name) p).

(** * Memory *)

(** Conversion of a non-negative integer to [float]: 24 significant bits, to
    nearest, ties to even. *)
Definition round24 (n : Z) : Z :=
  if n <? 2 ^ 24 then n
  else
    let e := Z.log2 n - 23 in
    let q := n / 2 ^ e in
    let r := n mod 2 ^ e in
    let up := (2 ^ (e - 1) <? r) || ((r =? 2 ^ (e - 1)) && Z.odd q) in
    (if up then q + 1 else q) * 2 ^ e.

(** [(unsigned int)(((float)max_nparticles) * m_resize_factor) + 1], with the
    factor 9/8: scaling by the power of two commutes with rounding. *)
Definition grow_nparticles (n : Z) : Z := round24 (9 * round24 n) / 8 + 1.

Fixpoint grow_loop (fuel : nat) (need max_nparticles : Z) : Z :=
  match fuel with
  | O => max_nparticles
  | S fuel => if need >? max_nparticles then grow_loop fuel need (grow_nparticles max_nparticles) else max_nparticles
  end.

Definition grown (need max_nparticles : Z) : Z := grow_loop (Z.to_nat need) need max_nparticles.

Definition pd_allocate (n : Z) (p : pdata) : pdata :=
  let a := replicate (Z.to_nat n) zero_element in
  set_allocated true (emit max_particle_num_signal (set_arrays a a (replicate (Z.to_nat n) 0) (set_max n p))).

Definition pd_reallocate (max_n : Z) (p : pdata) : pdata :=
  if negb (m_arrays_allocated p) then pd_allocate max_n p
  else
    emit max_particle_num_signal
      (set_arrays (clear_net <$> array_resize zero_element max_n (m_ptl p))
                  (clear_net <$> array_resize zero_element max_n (m_ptl_alt p))
                  (array_resize 0 max_n (m_comm_flags p))
                  (set_max max_n p)).

Definition pd_resize (new_nparticles : Z) (p : pdata) : pdata :=
  if new_nparticles =? 0 then
    let p := if negb (m_arrays_allocated p) then pd_allocate 1 p else p in
    set_nparticles new_nparticles p
  else
    let p := if negb (m_arrays_allocated p) then pd_allocate new_nparticles p else p in
    let max_nparticles := m_max_nparticles p in
    let p := if new_nparticles >? max_nparticles
             then pd_reallocate (grown new_nparticles max_nparticles) p else p in
    set_nparticles new_nparticles p.

Definition rtag_resize (n : Z) (p : pdata) : pdata :=
  set_rtag (m_rtag p ++ replicate (Z.to_nat n - length (m_rtag p)) 0) n p.

Definition setNGlobal (nglobal : Z) (p : pdata) : pdata :=
  emit global_particle_num_signal (set_nglobal nglobal p).

Definition removeAllGhostParticles (p : pdata) : pdata := notifyGhostParticlesRemoved (set_nghosts 0 p).

Definition addGhostParticles (nghosts : Z) (p : pdata) : pdata :=
  let max_nparticles := m_max_nparticles p in
  let p := set_nghosts (u32 (m_nghosts p + nghosts)) p in
  let need := u32 (m_nparticles p + m_nghosts p) in
  if need >? max_nparticles then pd_reallocate (grown need max_nparticles) p else p.

(** * Adding and removing single particles *)

(** The defaults of a new particle; the net force, torque and virial are
    whatever the arrays hold. *)
Definition new_element (type tag : Z) (stale : pdata_element) : pdata_element :=
  mkElement BoxDim.zero3 type BoxDim.zero3 1 BoxDim.zero3 0 1 zero_i3 NO_BODY (make_scalar4 1 0 0 0) zero4
    BoxDim.zero3 tag (net_force stale) (net_torque stale) (net_virial stale).

Definition take_tag (p : pdata) : Z * pdata :=
  match m_recycled_tags p with
  | t :: rest => (t, set_recycled rest p)
  | [] => (getNGlobal p, p)
  end.

Definition write_new (idx type tag : Z) (p : pdata) : pdata :=
  set_comm_flags (zset (m_comm_flags p) idx 0)
    (set_ptl (zset (m_ptl p) idx (new_element type tag (element idx p))) p).

Definition addParticle (type : Z) (p : pdata) : Z * pdata :=
  let p := removeAllGhostParticles p in
  let '(tag, p) := take_tag p in
  let p := set_tag_set (set_insert tag (m_tag_set p)) p in
  let p := set_cache (m_cached_tag_set p) true p in
  let p := rtag_resize (u32 (getMaximumTag p + 1)) p in
  let p := set_rtag (zset (m_rtag p) tag (if m_rank p =? 0 then getN p else NOT_LOCAL)) (m_rtag_size p) p in
  let p := if m_rank p =? 0
           then let old_nparticles := getN p in
                write_new old_nparticles type tag (pd_resize (u32 (old_nparticles + 1)) p)
           else p in
  let p := setNGlobal (u32 (getNGlobal p + 1)) p in
  (tag, notifyParticleSort p).

(** The fields [removeParticle] copies when it moves the last particle [e] into
    the slot [old] of the removed one. *)
Definition moved_element (e old : pdata_element) : pdata_element :=
  mkElement (pos e) (typ e) (vel e) (mass e) (accel e) (charge e) (diameter e) (image e) (body e) (orientation e)
    (angmom old) (inertia old) (tag e) (net_force old) (net_torque old) (net_virial old).

Definition move_last (idx size : Z) (p : pdata) : pdata :=
  let last_tag := tag (element (size - 1) p) in
  let p := set_ptl (zset (m_ptl p) idx (moved_element (element (size - 1) p) (element idx p))) p in
  let p := set_comm_flags (zset (m_comm_flags p) idx (zget 0 (m_comm_flags p) (size - 1))) p in
  set_rtag (zset (m_rtag p) last_tag idx) (m_rtag_size p) p.

(** [allreduce] is the sum over the ranks of a domain decomposition, as a
    function of this rank's contribution; [None] without a decomposition. *)
Definition removeParticle (allreduce : option (Z -> Z)) (t : Z) (p : pdata) : pdata * result unit :=
  if getNGlobal p =? 0 then
    (p, Throw (runtime_error "Trying to remove particle when there are zero particles!"))
  else
    let p := removeAllGhostParticles p in
    if t >=? m_rtag_size p then
      (p, Throw (runtime_error "Trying to remove particle which does not exist."))
    else
      let idx := getRTag t p in
      let is_local := idx <? getN p in
      let is_available := match allreduce with
                          | Some sum => negb (sum (if is_local then 1 else 0) =? 0)
                          | None => is_local
                          end in
      if negb is_available then
        (p, Throw (runtime_error "Trying to remove particle which has been previously removed!"))
      else
        let p := set_rtag (zset (m_rtag p) t NOT_LOCAL) (m_rtag_size p) p in
        let p := if is_local then
                   let size := getN p in
                   let p := if idx <? size - 1 then move_last idx size p else p in
                   pd_resize (u32 (getN p - 1)) p
                 else p in
        let p := set_tag_set (set_erase t (m_tag_set p)) p in
        let p := set_recycled (t :: m_recycled_tags p) p in
        let p := set_cache (m_cached_tag_set p) true p in
        let p := setNGlobal (u32 (getNGlobal p - 1)) p in
        (notifyParticleSort p, Ok tt).

(** * Active tags *)

Definition maybe_rebuild_tag_cache (p : pdata) : pdata :=
  if negb (m_invalid_cached_tags p) then p else set_cache (m_tag_set p) false p.

Definition getNthTag (n : Z) (p : pdata) : pdata * result Z :=
  if n >=? getNGlobal p then (p, Throw (runtime_error "Particle id does not exist!"))
  else
    let p := maybe_rebuild_tag_cache p in
    (p, Ok (zget 0 (m_cached_tag_set p) n)).

(** * Migration *)

(** First pass of [removeParticles]: mark and count the particles to remove. *)
Fixpoint mark_removed (i : nat) (p : pdata) (rtag : list Z) (count : Z) : list Z * Z :=
  match i with
  | O => (rtag, count)
  | S i' =>
      let '(rtag, count) := mark_removed i' p rtag count in
      if zget 0 (m_comm_flags p) (Z.of_nat i') =? 0 then (rtag, count)
      else (zset rtag (tag (element (Z.of_nat i') p)) NOT_LOCAL, count + 1)
  end.

(** Second pass: kept particles go to the alternate arrays, the others to the
    output buffer. *)
Fixpoint split_particles (i : nat) (p : pdata) (alt : list pdata_element) : list pdata_element * Z * list pdata_element :=
  match i with
  | O => (alt, 0, [])
  | S i' =>
      let '(alt, n, out) := split_particles i' p alt in
      let e := element (Z.of_nat i') p in
      if negb (getRTag (tag e) p =? NOT_LOCAL) then (zset alt n e, n + 1, out)
      else (alt, n, out ++ [e])
  end.

Definition comm_flag_select (comm_flag : Z) : bool := negb (comm_flag =? 0).

(** [h_rtag.data[h_tag.data[idx]] = idx] for every local particle. *)
Fixpoint recompute_rtags (i : nat) (p : pdata) (rtag : list Z) : list Z :=
  match i with
  | O => rtag
  | S i' => zset (recompute_rtags i' p rtag) (tag (element (Z.of_nat i') p)) (Z.of_nat i')
  end.

(** [std::fill(data + a, data + b, 0)] *)
Definition fill_zero (a b : Z) (l : list Z) : list Z :=
  take (Z.to_nat a) l ++ replicate (Z.to_nat b - Z.to_nat a) 0 ++ drop (Z.to_nat b) l.

Definition removeParticles (p : pdata) : pdata * list pdata_element * list Z :=
  let '(rtag, num_remove_ptls) := mark_removed (Z.to_nat (getN p)) p (m_rtag p) 0 in
  let p := set_rtag rtag (m_rtag_size p) p in
  let old_nparticles := getN p in
  let new_nparticles := u32 (m_nparticles p - num_remove_ptls) in
  let p := pd_resize new_nparticles p in
  let '(alt, _, out) := split_particles (Z.to_nat old_nparticles) p (m_ptl_alt p) in
  let comm_flags := List.filter comm_flag_select (take (Z.to_nat old_nparticles) (m_comm_flags p)) in
  let p := set_arrays alt (m_ptl p) (fill_zero 0 new_nparticles (m_comm_flags p)) p in
  let p := set_rtag (recompute_rtags (Z.to_nat (m_nparticles p)) p (m_rtag p)) (m_rtag_size p) p in
  (notifyParticleSort p, out, comm_flags).

Fixpoint append_elements (n : Z) (l : list pdata_element) (input : list pdata_element) : list pdata_element :=
  match input with
  | [] => l
  | e :: input => append_elements (n + 1) (zset l n e) input
  end.

Definition addParticles (input : list pdata_element) (p : pdata) : pdata :=
  let num_add_ptls := Z.of_nat (length input) in
  let old_nparticles := getN p in
  let new_nparticles := u32 (m_nparticles p + num_add_ptls) in
  let p := pd_resize new_nparticles p in
  let p := set_ptl (append_elements old_nparticles (m_ptl p) input) p in
  let p := set_comm_flags (fill_zero old_nparticles new_nparticles (m_comm_flags p)) p in
  let p := set_rtag (recompute_rtags (Z.to_nat (m_nparticles p)) p (m_rtag p)) (m_rtag_size p) p in
  notifyParticleSort p.

(** * Snapshots (without a domain decomposition) *)

Record snap_ptl := mkSnap {
  s_pos : Scalar3; s_vel : Scalar3; s_accel : Scalar3; s_type : Z; s_mass : Scalar; s_charge : Scalar;
  s_diameter : Scalar; s_image : int3; s_body : Z; s_orientation : Scalar4; s_angmom : Scalar4; s_inertia : Scalar3
}.

(** [SnapshotParticleData]: its arrays all have the length [size] that
    [validate] checks. *)
Record snapshot := mkSnapshot { sn_ptl : list snap_ptl; sn_type_mapping : list string; sn_is_accel_set : bool }.

Definition snap_of (p : pdata) (e : pdata_element) : snap_ptl :=
  let '(tmp, img) := BoxDim.wrap (m_global_box p) (s3_sub (pos e) (m_origin p)) (i3_sub (image e) (m_o_image p)) BoxDim.no_flags in
  mkSnap tmp (vel e) (accel e) (typ e) (mass e) (charge e) (diameter e) img (body e) (orientation e) (angmom e) (inertia e).

(** [while (idx >= m_nparticles) { tag++; idx = h_rtag.data[tag]; }] from [tag];
    the loop leaves the array unless it finds a local particle. *)
Fixpoint skip_removed (rtag : list Z) (n tag : Z) : option (Z * Z) :=
  match rtag with
  | [] => None
  | idx :: rtag => if idx >=? n then skip_removed rtag n (tag + 1) else Some (tag, idx)
  end.

Fixpoint take_loop (count : nat) (tag : Z) (p : pdata) : option (list snap_ptl) :=
  match count with
  | O => Some []
  | S count =>
      match skip_removed (drop (Z.to_nat tag) (m_rtag p)) (m_nparticles p) tag with
      | None => None
      | Some (tag, idx) =>
          match take_loop count (tag + 1) p with
          | None => None
          | Some l => Some (snap_of p (element idx p) :: l)
          end
      end
  end.

(** The snapshot is resized to [getNGlobal()] first; without a decomposition
    that is [m_nparticles], the number of entries the loop fills. *)
Definition takeSnapshot (p : pdata) : option snapshot :=
  match take_loop (Z.to_nat (m_nparticles p)) 0 p with
  | None => None
  | Some l => Some (mkSnapshot l (m_type_mapping p) (m_accel_set p))
  end.

Definition load_element (s : snap_ptl) (nglobal : Z) (stale : pdata_element) : pdata_element :=
  mkElement (s_pos s) (s_type s) (s_vel s) (s_mass s) (s_accel s) (s_charge s) (s_diameter s) (s_image s) (s_body s)
    (s_orientation s) (s_angmom s) (s_inertia s) nglobal (net_force stale) (net_torque stale) (net_virial stale).

(** The loop over the snapshot: [nglobal] particles loaded so far, and the
    largest type id seen. *)
Fixpoint load_loop (ignore_bodies : bool) (l : list snap_ptl) (ptl : list pdata_element) (rtag : list Z)
  (nglobal max_typeid : Z) : list pdata_element * list Z * Z * Z :=
  match l with
  | [] => (ptl, rtag, nglobal, max_typeid)
  | s :: l =>
      if ignore_bodies && negb (s_body s =? NO_BODY) then load_loop ignore_bodies l ptl rtag nglobal max_typeid
      else
        load_loop ignore_bodies l
          (zset ptl nglobal (load_element s nglobal (zget zero_element ptl nglobal)))
          (zset rtag nglobal nglobal)
          (nglobal + 1) (Z.max max_typeid (s_type s))
  end.

Fixpoint insert_tags (tag : Z) (count : nat) (s : list Z) : list Z :=
  match count with
  | O => s
  | S count => insert_tags (tag + 1) count (set_insert tag s)
  end.

Definition resetOrigin (p : pdata) : pdata := set_origin BoxDim.zero3 zero_i3 p.

Definition translateOrigin (a : Scalar3) (p : pdata) : pdata :=
  let '(o, i) := BoxDim.wrap (m_global_box p) (s3_add (m_origin p) a) (m_o_image p) BoxDim.no_flags in
  set_origin o i p.

Definition initializeFromSnapshot (sn : snapshot) (ignore_bodies : bool) (p : pdata) : pdata * result unit :=
  let size := Z.of_nat (length (sn_ptl sn)) in
  let p := removeAllGhostParticles p in
  let p := set_tag_set [] p in
  let p := set_recycled [] p in
  let p := rtag_resize size p in
  let p := set_cache (m_cached_tag_set p) true p in
  let p := pd_resize size p in
  let '(ptl, rtag, nglobal, max_typeid) := load_loop ignore_bodies (sn_ptl sn) (m_ptl p) (m_rtag p) 0 0 in
  let p := set_rtag rtag (m_rtag_size p) (set_ptl ptl p) in
  let p := set_nparticles nglobal p in
  let p := set_tag_set (insert_tags 0 (Z.to_nat nglobal) (m_tag_set p)) p in
  let p := rtag_resize nglobal p in
  let p := set_type_mapping (sn_type_mapping sn) p in
  let p := set_accel_set (sn_is_accel_set sn) p in
  let p := setNGlobal nglobal p in
  let p := notifyParticleSort p in
  let p := resetOrigin p in
  if negb (size =? 0) && (max_typeid >=? getNTypes p)
  then (p, Throw (runtime_error "Particle typeid is invalid."))
  else (p, Ok tt).

(** * Access by tag (without a domain decomposition) *)

(** [if (idx < getN()) h_x.data[idx] = ...] *)
Definition update_local (t : Z) (f : pdata_element -> pdata_element) (p : pdata) : pdata :=
  let idx := getRTag t p in
  if idx <? getN p then set_ptl (zset (m_ptl p) idx (f (element idx p))) p else p.

Definition read_local {A} (t : Z) (default : A) (f : pdata_element -> A) (p : pdata) : A :=
  let idx := getRTag t p in
  if idx <? getN p then f (element idx p) else default.

Definition getPosition (t : Z) (p : pdata) : Scalar3 :=
  let '(result, img) := read_local t (BoxDim.zero3, zero_i3)
    (fun e => (s3_sub (pos e) (m_origin p), i3_sub (image e) (m_o_image p))) p in
  (BoxDim.wrap (m_global_box p) result img BoxDim.no_flags).1.

Definition getVelocity (t : Z) : pdata -> Scalar3 := read_local t BoxDim.zero3 vel.
Definition getAcceleration (t : Z) : pdata -> Scalar3 := read_local t BoxDim.zero3 accel.

Definition getImage (t : Z) (p : pdata) : int3 :=
  let '(result, v) := read_local t (zero_i3, BoxDim.zero3) (fun e => (image e, s3_sub (pos e) (m_origin p))) p in
  (BoxDim.wrap (m_global_box p) v (i3_sub result (m_o_image p)) BoxDim.no_flags).2.

Definition getCharge (t : Z) : pdata -> Scalar := read_local t 0%Q charge.
Definition getMass (t : Z) : pdata -> Scalar := read_local t 0%Q mass.
Definition getDiameter (t : Z) : pdata -> Scalar := read_local t 0%Q diameter.
Definition getBody (t : Z) : pdata -> Z := read_local t 0 body.
Definition getType (t : Z) : pdata -> Z := read_local t 0 typ.
Definition getOrientation (t : Z) : pdata -> Scalar4 := read_local t zero4 orientation.
Definition getAngularMomentum (t : Z) : pdata -> Scalar4 := read_local t zero4 angmom.
Definition getMomentsOfInertia (t : Z) : pdata -> Scalar3 := read_local t BoxDim.zero3 inertia.
Definition getPNetForce (t : Z) : pdata -> Scalar4 := read_local t zero4 net_force.
Definition getNetTorque (t : Z) : pdata -> Scalar4 := read_local t zero4 net_torque.
Definition getPNetVirial (t component : Z) : pdata -> Scalar := read_local t 0%Q (fun e => zget 0%Q (net_virial e) component).

(** [setPosition] without a decomposition ([move] has no effect). *)
Definition setPosition (t : Z) (v : Scalar3) (p : pdata) : pdata :=
  let tmp_pos := s3_add v (m_origin p) in
  let img := read_local t zero_i3 image p in
  let '(tmp_pos, img) := BoxDim.wrap (m_global_box p) tmp_pos img BoxDim.no_flags in
  update_local t (e_pos tmp_pos img) p.

Definition setVelocity (t : Z) (v : Scalar3) : pdata -> pdata := update_local t (e_vel v).
Definition setImage (t : Z) (v : int3) (p : pdata) : pdata := update_local t (e_image (i3_add v (m_o_image p))) p.
Definition setCharge (t : Z) (v : Scalar) : pdata -> pdata := update_local t (e_charge v).
Definition setMass (t : Z) (v : Scalar) : pdata -> pdata := update_local t (e_mass v).
Definition setDiameter (t : Z) (v : Scalar) : pdata -> pdata := update_local t (e_diameter v).

(** The signed argument is converted to [unsigned int]. *)
Definition setBody (t : Z) (v : Z) : pdata -> pdata := update_local t (e_body (u32 v)).

Definition setType (t : Z) (v : Z) (p : pdata) : pdata :=
  if getRTag t p <? getN p then notifyParticleSort (update_local t (e_type v) p) else p.

Definition setOrientation (t : Z) (v : Scalar4) : pdata -> pdata := update_local t (e_orientation v).
Definition setAngularMomentum (t : Z) (v : Scalar4) : pdata -> pdata := update_local t (e_angmom v).
Definition setMomentsOfInertia (t : Z) (v : Scalar3) : pdata -> pdata := update_local t (e_inertia v).
