(* ===== verification/ParticleDataProps.v ===== *)
(** Theorems on the particle data: the tag/index bookkeeping invariant and its
    preservation by every operation that adds, removes, migrates or loads
    particles, and what those operations do to the particles. *)

From Stdlib Require Import ZArith Lia QArith String Sorted.
From stdpp Require Import base list list_numbers sorting gmap.
From S2P Require Import Prelude HOOMDMath BoxDim ParticleData.
Local Open Scope Z_scope.

(** * Ordered sets *)

Lemma elem_of_set_insert x y s : y ∈ set_insert x s <-> y = x \/ y ∈ s.
Proof.
  induction s as [|z s IH]; simpl; [now rewrite list_elem_of_singleton, elem_of_nil; intuition|].
  destruct (x <? z) eqn:E1; [rewrite elem_of_cons; tauto|].
  destruct (x =? z) eqn:E2; zbool; [subst; rewrite !elem_of_cons; tauto|].
  rewrite !elem_of_cons, IH. tauto.
Qed.

Lemma set_insert_sorted x s : StronglySorted Z.lt s -> StronglySorted Z.lt (set_insert x s).
Proof.
  induction 1 as [|z s S IH F]; simpl; [repeat constructor|].
  destruct (x <? z) eqn:E1; zbool.
  - constructor; [now constructor|]. constructor; [assumption|]. eapply Forall_impl; [exact F|]. intros; lia.
  - destruct (x =? z) eqn:E2; zbool; [now constructor|]. constructor; [assumption|].
    apply Forall_forall. intros y [->|Hy]%elem_of_set_insert; [lia|]. rewrite Forall_forall in F. auto.
Qed.

Lemma length_set_insert x s : x ∉ s -> length (set_insert x s) = S (length s).
Proof.
  induction s as [|z s IH]; intros H; simpl; [reflexivity|].
  destruct (x <? z) eqn:E1; [reflexivity|].
  destruct (x =? z) eqn:E2; zbool; [subst; exfalso; apply H; left|].
  simpl. rewrite IH; [reflexivity|]. intros ?. apply H. now right.
Qed.

Lemma elem_of_set_erase x y s : y ∈ set_erase x s <-> y <> x /\ y ∈ s.
Proof. unfold set_erase. rewrite list_elem_of_filter. tauto. Qed.

Lemma set_erase_sorted x s : StronglySorted Z.lt s -> StronglySorted Z.lt (set_erase x s).
Proof.
  unfold set_erase. induction 1 as [|z s S IH F]; [constructor|]. rewrite filter_cons.
  destruct (decide (z <> x)); [|assumption]. constructor; [assumption|]. apply Forall_forall. intros y [_ Hy]%list_elem_of_filter.
  rewrite Forall_forall in F. auto.
Qed.

Lemma sorted_nodup s : StronglySorted Z.lt s -> NoDup s.
Proof.
  induction 1 as [|z s S IH F]; constructor; [|assumption]. intros H. rewrite Forall_forall in F. specialize (F _ H). lia.
Qed.

Lemma length_set_erase x s : NoDup s -> x ∈ s -> S (length (set_erase x s)) = length s.
Proof.
  unfold set_erase. induction 1 as [|z s H N IH]; intros E; [now apply elem_of_nil in E|]. rewrite filter_cons.
  apply elem_of_cons in E as [->|E].
  - destruct (decide (z <> z)); [congruence|]. simpl. f_equal. clear -H. induction s as [|y s IH]; [reflexivity|].
    apply not_elem_of_cons in H as [? H]. rewrite filter_cons. destruct (decide (y <> z)); [simpl; f_equal; auto|].
    exfalso. auto.
  - destruct (decide (z <> x)); simpl; [f_equal; now apply IH|].
    assert (z = x) as -> by (destruct (decide (z = x)); [assumption|contradiction]). contradiction.
Qed.

Lemma last_max s d x : StronglySorted Z.lt s -> x ∈ s -> x <= List.last s d.
Proof.
  intros S. revert x. induction S as [|z s S IH F]; intros x E; [now apply elem_of_nil in E|].
  destruct s as [|y s]; [apply list_elem_of_singleton in E; simpl; lia|].
  change (List.last (z :: y :: s) d) with (List.last (y :: s) d).
  apply elem_of_cons in E as [->|E]; [|auto].
  apply Forall_cons_1 in F as [F _]. assert (y <= List.last (y :: s) d) by (apply IH; left). lia.
Qed.

Lemma last_in (s : list Z) d : s <> [] -> List.last s d ∈ s.
Proof.
  induction s as [|z s IH]; [congruence|]. intros _. destruct s as [|y s]; [left|]. right. now apply IH.
Qed.

(** Two sorted lists with the same elements are equal. *)
Lemma sorted_ext s s' : StronglySorted Z.lt s -> StronglySorted Z.lt s' -> (forall x, x ∈ s <-> x ∈ s') -> s = s'.
Proof.
  intros S S' E.
  assert (W : forall l, StronglySorted Z.lt l -> StronglySorted Z.le l).
  { induction 1; constructor; [assumption|]. eapply Forall_impl; [eassumption|]. simpl. intros; lia. }
  apply (StronglySorted_unique Z.le); [now apply W..|].
  apply NoDup_Permutation; [now apply sorted_nodup..|assumption].
Qed.

(** * Growth of the arrays *)

Section growth.

Lemma round24_exact n : n < 2 ^ 24 -> round24 n = n.
Proof. intros H. unfold round24. destruct (Z.ltb_spec n (2 ^ 24)); lia. Qed.

(** The relative error of the conversion is at most [2^-24]. *)
Lemma round24_error n : 0 <= n -> (2 ^ 24 - 1) * n <= 2 ^ 24 * round24 n <= (2 ^ 24 + 1) * n.
Proof.
  intros Hn. unfold round24. destruct (Z.ltb_spec n (2 ^ 24)) as [L|G]; [lia|].
  set (e := Z.log2 n - 23).
  assert (He : 1 <= e).
  { assert (24 <= Z.log2 n) by (apply Z.log2_le_pow2; lia). lia. }
  pose proof (Z.log2_spec n ltac:(lia)) as [P1 _].
  assert (E : 2 ^ Z.log2 n = 2 ^ 24 * 2 ^ (e - 1)) by (rewrite <- Z.pow_add_r by lia; f_equal; unfold e; lia).
  assert (E2 : 2 ^ e = 2 * 2 ^ (e - 1)) by (rewrite <- Z.pow_succ_r by lia; f_equal; lia).
  assert (Pe : 0 < 2 ^ (e - 1)) by (apply Z.pow_pos_nonneg; lia).
  pose proof (Z.div_mod n (2 ^ e) ltac:(lia)) as D. pose proof (Z.mod_pos_bound n (2 ^ e) ltac:(lia)) as M.
  set (q := n / 2 ^ e) in *. set (r := n mod 2 ^ e) in *. set (h := 2 ^ (e - 1)) in *.
  destruct ((h <? r) || ((r =? h) && Z.odd q)) eqn:U.
  - assert (h <= r) by (apply orb_true_iff in U as [U|U]; zbool; lia). nia.
  - zbool. assert (r <= h) by lia. nia.
Qed.

Lemma grow_nparticles_gt n : 0 <= n -> n < grow_nparticles n.
Proof.
  intros Hn. unfold grow_nparticles. pose proof (round24_error n Hn) as [L1 _].
  assert (0 <= round24 n) by lia.
  pose proof (round24_error (9 * round24 n) ltac:(lia)) as [L2 _].
  assert (n <= round24 (9 * round24 n) / 8); [|lia]. apply Z.div_le_lower_bound; lia.
Qed.

Lemma grow_nparticles_le n m : 0 <= n < m -> m <= 2 ^ 31 -> grow_nparticles n < 2 ^ 32.
Proof.
  intros Hn Hm. unfold grow_nparticles. pose proof (round24_error n ltac:(lia)) as [L1 U1].
  assert (0 <= round24 n) by lia.
  pose proof (round24_error (9 * round24 n) ltac:(lia)) as [L2 U2].
  assert (round24 (9 * round24 n) / 8 < 2 ^ 32 - 1); [|lia]. apply Z.div_lt_upper_bound; lia.
Qed.

Lemma grow_loop_ge fuel need n : 0 <= n -> need <= n + Z.of_nat fuel -> need <= grow_loop fuel need n /\ n <= grow_loop fuel need n.
Proof.
  revert n. induction fuel as [|fuel IH]; intros n Hn Hs; simpl; [lia|].
  destruct (need >? n) eqn:E; zbool; [|lia]. pose proof (grow_nparticles_gt n Hn).
  destruct (IH (grow_nparticles n)); lia.
Qed.

Lemma grow_loop_le fuel need n : 0 <= n -> n < 2 ^ 32 -> need <= 2 ^ 31 -> grow_loop fuel need n < 2 ^ 32.
Proof.
  revert n. induction fuel as [|fuel IH]; intros n Hn Hl Hs; simpl; [lia|].
  destruct (need >? n) eqn:E; zbool; [|lia]. pose proof (grow_nparticles_gt n Hn).
  pose proof (grow_nparticles_le n need ltac:(lia) Hs). apply IH; lia.
Qed.

Lemma grown_ge need n : 0 <= n -> need <= grown need n /\ n <= grown need n.
Proof. intros H. apply grow_loop_ge; lia. Qed.

End growth.

(** * The invariant *)

(** The arrays are allocated and have the capacity the particle data records. *)
Record wf_mem (p : pdata) : Prop := {
  wf_alloc : m_arrays_allocated p = true;
  wf_N : 0 <= m_nparticles p <= m_max_nparticles p;
  wf_ptl : length (m_ptl p) = Z.to_nat (m_max_nparticles p);
  wf_alt : length (m_ptl_alt p) = Z.to_nat (m_max_nparticles p);
  wf_comm : length (m_comm_flags p) = Z.to_nat (m_max_nparticles p)
}.

(** The tags of the local particles, in index order. *)
Definition local_tags (p : pdata) : list Z := tag <$> take (Z.to_nat (m_nparticles p)) (m_ptl p).

(** The number of tags ever handed out: the active and the recycled ones. *)
Definition high_water (p : pdata) : Z := m_nglobal p + Z.of_nat (length (m_recycled_tags p)).

(** The reverse lookup agrees with the tags of the local particles: it finds
    every local particle, and every tag it resolves names the particle there. *)
Definition rtag_ok (high : Z) (tags rtag : list Z) : Prop :=
  (forall i t, tags !! i = Some t -> rtag !! Z.to_nat t = Some (Z.of_nat i)) /\
  (forall t, 0 <= t < high -> exists v, rtag !! Z.to_nat t = Some v /\
     (v = NOT_LOCAL \/ (0 <= v /\ tags !! Z.to_nat v = Some t))).

Record wf (p : pdata) : Prop := {
  wf_memory : wf_mem p;
  wf_sorted : StronglySorted Z.lt (m_tag_set p);
  wf_nglobal : m_nglobal p = Z.of_nat (length (m_tag_set p));
  wf_recycled : NoDup (m_recycled_tags p);
  wf_disjoint : forall t, t ∈ m_tag_set p -> t ∉ m_recycled_tags p;
  wf_tags : forall t, (t ∈ m_tag_set p \/ t ∈ m_recycled_tags p) <-> 0 <= t < high_water p;
  wf_high : high_water p <= 2 ^ 31;
  wf_size : forall t, t ∈ m_tag_set p -> t < m_rtag_size p;
  wf_size_high : 0 <= m_rtag_size p <= high_water p;
  wf_active : forall t, t ∈ local_tags p -> t ∈ m_tag_set p;
  wf_rtag : rtag_ok (high_water p) (local_tags p) (m_rtag p);
  wf_cache : m_invalid_cached_tags p = false -> m_cached_tag_set p = m_tag_set p
}.

(** Without a domain decomposition every active particle is local. *)
Definition serial (p : pdata) : Prop := m_rank p = 0 /\ forall t, t ∈ m_tag_set p -> t ∈ local_tags p.

(** ** Memory *)

(** The fields the memory operations leave alone. *)
Definition same_tags (p q : pdata) : Prop :=
  m_nglobal q = m_nglobal p /\ m_rtag q = m_rtag p /\ m_rtag_size q = m_rtag_size p /\
  m_tag_set q = m_tag_set p /\ m_recycled_tags q = m_recycled_tags p /\
  m_cached_tag_set q = m_cached_tag_set p /\ m_invalid_cached_tags q = m_invalid_cached_tags p /\
  m_rank q = m_rank p.

(** The particle without the net force, torque and virial. *)
Abbreviation kinematic := clear_net.

Lemma clear_net_idemp e : clear_net (clear_net e) = clear_net e.
Proof. reflexivity. Qed.

Lemma fmap_kinematic_tag (l : list pdata_element) : tag <$> (kinematic <$> l) = tag <$> l.
Proof. rewrite <- list_fmap_compose. reflexivity. Qed.

Lemma pd_resize_fits n p : wf_mem p -> 0 <= n <= m_max_nparticles p -> pd_resize n p = set_nparticles n p.
Proof.
  intros W H. unfold pd_resize. rewrite (wf_alloc p W). simpl.
  destruct (n =? 0); [reflexivity|]. destruct (n >? m_max_nparticles p) eqn:E; zbool; [lia|reflexivity].
Qed.

Lemma pd_resize_spec n p : wf_mem p -> 0 <= n ->
  wf_mem (pd_resize n p) /\ m_nparticles (pd_resize n p) = n /\ same_tags p (pd_resize n p) /\
  m_max_nparticles p <= m_max_nparticles (pd_resize n p) /\
  kinematic <$> take (Z.to_nat (m_max_nparticles p)) (m_ptl (pd_resize n p)) = kinematic <$> m_ptl p /\
  (n <= m_max_nparticles p -> pd_resize n p = set_nparticles n p) /\
  (exists r, m_comm_flags (pd_resize n p) = m_comm_flags p ++ r).
Proof.
  intros W H. pose proof (wf_N p W) as HN. destruct (decide (n <= m_max_nparticles p)) as [Fit|Grow].
  - rewrite pd_resize_fits by (auto; lia). destruct W. split_and!; auto; try (constructor; simpl; auto; lia).
    + repeat split.
    + simpl. lia.
    + simpl. now rewrite take_ge by lia.
    + exists []. now rewrite app_nil_r.
  - assert (R : pd_resize n p = set_nparticles n (pd_reallocate (grown n (m_max_nparticles p)) p)).
    { unfold pd_resize. rewrite (wf_alloc p W). simpl. destruct (n =? 0) eqn:E0; zbool; [lia|].
      destruct (n >? m_max_nparticles p) eqn:E; zbool; [reflexivity|lia]. }
    rewrite R. clear R. destruct (grown_ge n (m_max_nparticles p) ltac:(lia)) as [G1 G2].
    set (m := grown n (m_max_nparticles p)) in *. unfold pd_reallocate. rewrite (wf_alloc p W). simpl.
    destruct W. split_and!; auto; try lia.
    + constructor; simpl; rewrite ?length_fmap, ?length_array_resize; auto; lia.
    + repeat split.
    + rewrite array_resize_grow by lia. rewrite fmap_app, fmap_take, fmap_app.
      rewrite take_app_length' by (rewrite !length_fmap; lia). rewrite <- list_fmap_compose. reflexivity.
    + rewrite array_resize_grow by lia. eauto.
Qed.

Lemma local_tags_kinematic p : local_tags p = tag <$> (kinematic <$> take (Z.to_nat (m_nparticles p)) (m_ptl p)).
Proof. unfold local_tags. now rewrite fmap_kinematic_tag. Qed.

Lemma length_local_tags p : wf_mem p -> length (local_tags p) = Z.to_nat (m_nparticles p).
Proof. intros []. unfold local_tags. rewrite length_fmap, length_take. lia. Qed.

(** Resizing keeps the tags of the particles that stay. *)
Lemma pd_resize_tags n p : wf_mem p -> 0 <= n ->
  take (Z.to_nat (Z.min n (m_nparticles p))) (local_tags (pd_resize n p)) =
  take (Z.to_nat (Z.min n (m_nparticles p))) (local_tags p).
Proof.
  intros W H. destruct (pd_resize_spec n p W H) as (W' & En & _ & Em & K & _). pose proof (wf_N p W).
  rewrite !local_tags_kinematic, En, !fmap_take, !take_take.
  replace (Z.to_nat (Z.min n (m_nparticles p)) `min` Z.to_nat n)%nat with (Z.to_nat (Z.min n (m_nparticles p))) by lia.
  replace (Z.to_nat (Z.min n (m_nparticles p)) `min` Z.to_nat (m_nparticles p))%nat
    with (Z.to_nat (Z.min n (m_nparticles p))) by lia.
  set (k := Z.to_nat _). assert (Hk : (k <= Z.to_nat (m_max_nparticles p))%nat) by lia.
  apply (f_equal (fun l => take k l)) in K. rewrite !fmap_take, take_take in K.
  replace (k `min` Z.to_nat (m_max_nparticles p))%nat with k in K by lia. now rewrite <- !(fmap_take tag), K.
Qed.

(** ** Reverse lookup *)

Section reverse_lookup.
Implicit Types (tags rtag : list Z) (high t : Z).

Lemma rtag_ok_nodup high tags rtag : (forall t, t ∈ tags -> 0 <= t) -> rtag_ok high tags rtag -> NoDup tags.
Proof.
  intros P [R _]. apply NoDup_alt. intros i j t Hi Hj. apply R in Hi, Hj. rewrite Hi in Hj. injection Hj. lia.
Qed.

Lemma rtag_ok_absent high tags rtag t : rtag_ok high tags rtag -> 0 <= t < high -> t ∉ tags -> rtag !! Z.to_nat t = Some NOT_LOCAL.
Proof.
  intros [_ R] H N. destruct (R t H) as (v & E & [->|[_ F]]); [assumption|].
  exfalso. apply N. eapply list_elem_of_lookup_2. exact F.
Qed.

(** Writing the entry of a tag that is not local. *)
Lemma rtag_ok_set_absent high high' tags rtag t :
  rtag_ok high tags rtag -> (forall s, s ∈ tags -> 0 <= s) -> 0 <= t -> t ∉ tags -> (Z.to_nat t < length rtag)%nat ->
  (forall s, 0 <= s < high' -> s = t \/ 0 <= s < high) ->
  rtag_ok high' tags (zset rtag t NOT_LOCAL).
Proof.
  intros [R1 R2] P Ht N L Hh. split.
  - intros i s Hi. rewrite lookup_zset_ne; [auto|]. intros E. apply N.
    assert (s ∈ tags) as Hs by (eapply list_elem_of_lookup_2; eassumption). specialize (P s Hs).
    replace t with s by lia. assumption.
  - intros s Hs. destruct (decide (s = t)) as [->|D].
    + exists NOT_LOCAL. rewrite lookup_zset_eq by assumption. auto.
    + rewrite lookup_zset_ne by lia. destruct (Hh s Hs) as [?|?]; [contradiction|auto].
Qed.

(** A new particle at the end. *)
Lemma rtag_ok_snoc high high' tags rtag t :
  rtag_ok high tags rtag -> (forall s, s ∈ tags -> 0 <= s) -> 0 <= t -> t ∉ tags -> (Z.to_nat t < length rtag)%nat ->
  (forall s, 0 <= s < high' -> s = t \/ 0 <= s < high) ->
  rtag_ok high' (tags ++ [t]) (zset rtag t (Z.of_nat (length tags))).
Proof.
  intros [R1 R2] P Ht N L Hh. split.
  - intros i s [Hi|[Hi Es]]%lookup_app_Some.
    + rewrite lookup_zset_ne; [auto|]. intros E. apply N.
      assert (s ∈ tags) as Hs by (eapply list_elem_of_lookup_2; eassumption). specialize (P s Hs).
      replace t with s by lia. assumption.
    + apply list_lookup_singleton_Some in Es as [Ei <-]. rewrite lookup_zset_eq by assumption. f_equal. lia.
  - intros s Hs. destruct (decide (s = t)) as [->|D].
    + exists (Z.of_nat (length tags)). rewrite lookup_zset_eq by assumption. split; [reflexivity|right].
      split; [lia|]. rewrite lookup_app_r by lia. now rewrite Nat2Z.id, Nat.sub_diag.
    + rewrite lookup_zset_ne by lia. destruct (Hh s Hs) as [?|Hs']; [contradiction|].
      destruct (R2 s Hs') as (v & E & [->|[V F]]); [eauto|]. exists v. split; [assumption|right].
      split; [assumption|]. now apply lookup_app_l_Some.
Qed.

(** The last particle moved into the slot of a removed one. *)
Lemma rtag_ok_move_last high tags rtag idx t last :
  rtag_ok high (tags ++ [last]) rtag -> (forall s, s ∈ tags ++ [last] -> 0 <= s < high) ->
  tags !! idx = Some t ->
  rtag_ok high (<[idx := last]> tags) (zset (zset rtag t NOT_LOCAL) last (Z.of_nat idx)).
Proof.
  intros R P Hi. pose proof (rtag_ok_nodup _ _ _ (fun s H => proj1 (P s H)) R) as ND. destruct R as [R1 R2].
  apply NoDup_app in ND as (ND & Dj & _).
  assert (Pt : 0 <= t < high) by (apply P, elem_of_app; left; eapply list_elem_of_lookup_2; eassumption).
  assert (Pl : 0 <= last < high) by (apply P, elem_of_app; right; left).
  assert (Ln : last ∉ tags) by (intros H; apply (Dj _ H); left).
  assert (Dt : last <> t) by (intros ->; apply Ln; eapply list_elem_of_lookup_2; eassumption).
  assert (Len : forall s, 0 <= s < high -> (Z.to_nat s < length rtag)%nat).
  { intros s Hs. destruct (R2 s Hs) as (v & E & _). eapply lookup_lt_Some; eassumption. }
  assert (Li : (idx < length tags)%nat) by (eapply lookup_lt_Some; eassumption).
  split.
  - intros i s. destruct (decide (idx = i)) as [<-|D].
    + rewrite list_lookup_insert_eq by assumption. intros [= <-]. rewrite lookup_zset_eq; [reflexivity|].
      rewrite length_zset. auto.
    + rewrite list_lookup_insert_ne by assumption. intros Hs.
      assert (Ps : 0 <= s < high) by (apply P, elem_of_app; left; eapply list_elem_of_lookup_2; eassumption).
      assert (s <> last) by (intros ->; apply Ln; eapply list_elem_of_lookup_2; eassumption).
      assert (s <> t) by (intros ->; apply D; eapply NoDup_lookup; eassumption).
      rewrite !lookup_zset_ne by lia. apply R1. now apply lookup_app_l_Some.
  - intros s Hs. destruct (decide (s = last)) as [->|D1].
    { exists (Z.of_nat idx). rewrite lookup_zset_eq by (rewrite length_zset; auto). split; [reflexivity|right].
      split; [lia|]. rewrite Nat2Z.id. now apply list_lookup_insert_eq. }
    rewrite lookup_zset_ne by lia. destruct (decide (s = t)) as [->|D2].
    { exists NOT_LOCAL. rewrite lookup_zset_eq by auto. auto. }
    rewrite lookup_zset_ne by lia. destruct (R2 s Hs) as (v & E & [->|[V F]]); [eauto|].
    exists v. split; [assumption|right]. split; [assumption|].
    apply lookup_app_Some in F as [F|[_ F]].
    + rewrite list_lookup_insert_ne; [assumption|]. intros ->. rewrite Hi in F. congruence.
    + apply list_lookup_singleton_Some in F as [_ F]. congruence.
Qed.

(** Removing the last particle itself. *)
Lemma rtag_ok_drop_last high tags rtag t :
  rtag_ok high (tags ++ [t]) rtag -> (forall s, s ∈ tags ++ [t] -> 0 <= s < high) ->
  rtag_ok high tags (zset rtag t NOT_LOCAL).
Proof.
  intros R P. pose proof (rtag_ok_nodup _ _ _ (fun s H => proj1 (P s H)) R) as ND. destruct R as [R1 R2].
  apply NoDup_app in ND as (ND & Dj & _). assert (Pt : 0 <= t < high) by (apply P, elem_of_app; right; left).
  assert (Ln : t ∉ tags) by (intros H; apply (Dj _ H); left).
  split.
  - intros i s Hs. assert (s ∈ tags) by (eapply list_elem_of_lookup_2; eassumption).
    assert (0 <= s < high) by (apply P, elem_of_app; auto). assert (s <> t) by congruence.
    rewrite lookup_zset_ne by lia. apply R1. now apply lookup_app_l_Some.
  - intros s Hs. destruct (R2 s Hs) as (v & E & F). destruct (decide (s = t)) as [->|D].
    { exists NOT_LOCAL. rewrite lookup_zset_eq by (eapply lookup_lt_Some; eassumption). auto. }
    rewrite lookup_zset_ne by lia. exists v. split; [assumption|]. destruct F as [?|[V F]]; [auto|right].
    split; [assumption|]. apply lookup_app_Some in F as [F|[_ F]]; [assumption|].
    apply list_lookup_singleton_Some in F as [_ F]. congruence.
Qed.

(** A table rebuilt from the tags, over one that had no other local entry. *)
Lemma rtag_ok_rebuild high tags rtag rtag' :
  (forall t, t ∈ tags -> 0 <= t) ->
  (forall t, 0 <= t < high -> t ∉ tags -> rtag !! Z.to_nat t = Some NOT_LOCAL) ->
  (forall k t, tags !! k = Some t -> rtag' !! Z.to_nat t = Some (Z.of_nat k)) ->
  (forall t, 0 <= t -> t ∉ tags -> rtag' !! Z.to_nat t = rtag !! Z.to_nat t) ->
  rtag_ok high tags rtag'.
Proof.
  intros P R K U. split; [assumption|]. intros t Ht. destruct (decide (t ∈ tags)) as [E|E].
  - apply list_elem_of_lookup_1 in E as [k E]. exists (Z.of_nat k). split; [auto|right]. split; [lia|].
    now rewrite Nat2Z.id.
  - exists NOT_LOCAL. rewrite U by (auto; lia). auto.
Qed.

End reverse_lookup.

(** ** Consequences of the invariant *)

Section consequences.
Variable p : pdata.
Hypothesis W : wf p.

Lemma wf_tag_bounds t : t ∈ m_tag_set p -> 0 <= t < high_water p.
Proof. intros H. apply (wf_tags p W). auto. Qed.

Lemma wf_local_bounds t : t ∈ local_tags p -> 0 <= t < high_water p.
Proof. intros H. apply wf_tag_bounds, (wf_active p W), H. Qed.

Lemma wf_local_nodup : NoDup (local_tags p).
Proof. eapply rtag_ok_nodup; [|apply (wf_rtag p W)]. intros t H. now apply wf_local_bounds. Qed.

Lemma wf_N_nglobal : m_nparticles p <= m_nglobal p.
Proof.
  pose proof (wf_N p (wf_memory p W)). rewrite (wf_nglobal p W).
  pose proof (length_local_tags p (wf_memory p W)) as L.
  assert (length (local_tags p) <= length (m_tag_set p))%nat; [|lia].
  apply submseteq_length, NoDup_submseteq; [apply wf_local_nodup|apply (wf_active p W)].
Qed.

Lemma wf_nglobal_high : 0 <= m_nglobal p <= high_water p.
Proof. pose proof (wf_nglobal p W). unfold high_water. lia. Qed.

Lemma wf_rtag_length t : 0 <= t < high_water p -> (Z.to_nat t < length (m_rtag p))%nat.
Proof. intros H. destruct (proj2 (wf_rtag p W) t H) as (v & E & _). eapply lookup_lt_Some; eassumption. Qed.

Lemma wf_high_length : high_water p <= Z.of_nat (length (m_rtag p)).
Proof.
  pose proof wf_nglobal_high. destruct (decide (high_water p = 0)) as [->|]; [lia|].
  pose proof (wf_rtag_length (high_water p - 1) ltac:(lia)). lia.
Qed.

(** The reverse lookup finds a local particle. *)
Lemma wf_getRTag t : t ∈ local_tags p ->
  0 <= getRTag t p < m_nparticles p /\ local_tags p !! Z.to_nat (getRTag t p) = Some t /\ tag (element (getRTag t p) p) = t.
Proof.
  intros H. apply list_elem_of_lookup_1 in H as [i Hi]. pose proof (proj1 (wf_rtag p W) i t Hi) as R.
  unfold getRTag. rewrite (zget_lookup _ _ _ _ R). pose proof (lookup_lt_Some _ _ _ Hi) as L.
  rewrite (length_local_tags p (wf_memory p W)) in L. pose proof (wf_N p (wf_memory p W)).
  split; [lia|]. rewrite Nat2Z.id. split; [assumption|].
  unfold local_tags in Hi. rewrite list_lookup_fmap, lookup_take_lt in Hi by lia.
  destruct (m_ptl p !! i) as [e|] eqn:E; [|discriminate]. simpl in Hi. injection Hi as Hi.
  unfold element. rewrite (zget_lookup _ _ _ e); [assumption|]. now rewrite Nat2Z.id.
Qed.

Lemma wf_getRTag_absent t : 0 <= t < high_water p -> t ∉ local_tags p -> getRTag t p = NOT_LOCAL.
Proof. intros H N. apply zget_lookup. eapply rtag_ok_absent; [apply (wf_rtag p W)|assumption..]. Qed.

End consequences.

(** * Adding a particle *)

Lemma take_tag_spec p : wf p -> high_water p < 2 ^ 31 ->
  let t := (take_tag p).1 in let q := (take_tag p).2 in
  0 <= t <= high_water p /\ (t ∉ m_tag_set p) /\ (t ∉ m_recycled_tags q) /\ NoDup (m_recycled_tags q) /\
  (forall s, s ∈ m_recycled_tags p <-> (s ∈ m_recycled_tags q \/ (s = t /\ t < high_water p))) /\
  (t = high_water p -> m_recycled_tags p = []) /\
  m_nglobal p + 1 + Z.of_nat (length (m_recycled_tags q)) = Z.max (high_water p) (t + 1) /\
  q = set_recycled (m_recycled_tags q) p.
Proof.
  intros W Hh t q. subst t q. unfold take_tag, high_water in *. pose proof (wf_nglobal_high p W) as G. unfold high_water in G.
  destruct (m_recycled_tags p) as [|t rest] eqn:E; simpl in *.
  - unfold getNGlobal. rewrite E in *. split_and!; try lia; try now constructor.
    + intros H%(wf_tag_bounds p W). unfold high_water in H. rewrite E in H. simpl in H. lia.
    + apply not_elem_of_nil.
    + intros s. split; [auto|]. intros [?|[-> ?]]; [assumption|lia].
    + simpl. lia.
    + destruct p; simpl in *. now rewrite E.
  - pose proof (wf_recycled p W) as N. rewrite E in N. apply NoDup_cons in N as [N1 N2].
    assert (B : 0 <= t < high_water p) by (apply (wf_tags p W); right; rewrite E; left).
    unfold high_water in B. rewrite E in B. simpl in B.
    split_and!; auto; try lia.
    + intros H. apply (wf_disjoint p W t H). rewrite E. left.
    + intros s. rewrite elem_of_cons. intuition lia.
Qed.

(** The bookkeeping of a new tag, before the particle is written. *)
Definition tag_added (type : Z) (p : pdata) : pdata :=
  let p := removeAllGhostParticles p in
  let '(tag, p) := take_tag p in
  let p := set_tag_set (set_insert tag (m_tag_set p)) p in
  let p := set_cache (m_cached_tag_set p) true p in
  let p := rtag_resize (u32 (getMaximumTag p + 1)) p in
  set_rtag (zset (m_rtag p) tag (if m_rank p =? 0 then getN p else NOT_LOCAL)) (m_rtag_size p) p.

Definition added_tag (p : pdata) : Z := (take_tag p).1.

Lemma take_tag_ghosts p : (take_tag (removeAllGhostParticles p)).1 = added_tag p /\
  (take_tag (removeAllGhostParticles p)).2 = set_recycled (m_recycled_tags (take_tag p).2) (removeAllGhostParticles p).
Proof.
  unfold added_tag, take_tag. simpl. destruct (m_recycled_tags p) eqn:E; simpl; [|auto].
  split; [reflexivity|]. rewrite E. destruct p; simpl in *. now rewrite <- E.
Qed.

Lemma addParticle_unfold type p :
  addParticle type p =
  (added_tag p,
   let q := tag_added type p in
   let q := if m_rank p =? 0
            then write_new (getN p) type (added_tag p) (pd_resize (u32 (getN p + 1)) q)
            else q in
   notifyParticleSort (setNGlobal (u32 (getNGlobal q + 1)) q)).
Proof.
  unfold addParticle, tag_added. destruct (take_tag_ghosts p) as [E1 E2].
  destruct (take_tag (removeAllGhostParticles p)) as [t q]. simpl in E1, E2. subst. reflexivity.
Qed.

Lemma tag_added_fields type p : wf p -> high_water p < 2 ^ 31 ->
  let q := tag_added type p in let t := added_tag p in
  m_nglobal q = m_nglobal p /\ m_tag_set q = set_insert t (m_tag_set p) /\
  m_recycled_tags q = m_recycled_tags (take_tag p).2 /\ m_invalid_cached_tags q = true /\ m_rank q = m_rank p /\
  m_nparticles q = m_nparticles p /\ m_ptl q = m_ptl p /\ m_comm_flags q = m_comm_flags p /\
  m_max_nparticles q = m_max_nparticles p /\ (wf_mem q) /\
  (forall s, s ∈ m_tag_set q -> s < m_rtag_size q) /\ (exists s, s ∈ m_tag_set q /\ 0 <= s /\ m_rtag_size q = s + 1) /\
  (exists k, m_rtag q = zset (m_rtag p ++ replicate k 0) t (if m_rank p =? 0 then getN p else NOT_LOCAL)) /\
  (Z.to_nat t < length (m_rtag q))%nat.
Proof.
  intros W Hh q t. destruct (take_tag_spec p W Hh) as (Bt & _). fold (added_tag p) in Bt.
  subst q t. unfold tag_added. destruct (take_tag_ghosts p) as [E1 E2].
  destruct (take_tag (removeAllGhostParticles p)) as [t q]. simpl in E1, E2. subst t q. simpl.
  set (t := added_tag p) in *. set (ts := set_insert t (m_tag_set p)).
  assert (Ht : t ∈ ts) by (apply elem_of_set_insert; auto).
  assert (Hs : StronglySorted Z.lt ts) by (apply set_insert_sorted, (wf_sorted p W)).
  assert (Hl : List.last ts UINT_MAX ∈ ts) by (apply last_in; intros E; rewrite E in Ht; now apply elem_of_nil in Ht).
  assert (B : forall s, s ∈ ts -> 0 <= s < 2 ^ 31).
  { intros s [->|H]%elem_of_set_insert; [lia|]. pose proof (wf_tag_bounds p W s H). pose proof (wf_high p W). lia. }
  unfold getMaximumTag. simpl. fold ts. pose proof (B _ Hl) as Bl.
  rewrite u32_small by (unfold is_u32; lia).
  pose proof (last_max ts UINT_MAX t Hs Ht) as Lt.
  split_and!; try reflexivity; try lia.
  - destruct (wf_memory p W). constructor; simpl; auto.
  - intros s H. pose proof (last_max ts UINT_MAX s Hs H). lia.
  - exists (List.last ts UINT_MAX). split_and!; auto; lia.
  - eexists. reflexivity.
  - rewrite length_zset, length_app, length_replicate. lia.
Qed.

Lemma rtag_ok_app high tags rtag r : rtag_ok high tags rtag -> rtag_ok high tags (rtag ++ r).
Proof.
  intros [R1 R2]. split.
  - intros i t H. apply lookup_app_l_Some. auto.
  - intros t H. destruct (R2 t H) as (v & E & F). exists v. split; [now apply lookup_app_l_Some|assumption].
Qed.

(** The tag sets after a tag is added. *)
Lemma tags_added p q t :
  wf p -> high_water p < 2 ^ 31 -> t = added_tag p ->
  m_tag_set q = set_insert t (m_tag_set p) -> m_recycled_tags q = m_recycled_tags (take_tag p).2 ->
  m_nglobal q = m_nglobal p + 1 ->
  high_water q = Z.max (high_water p) (t + 1) /\ StronglySorted Z.lt (m_tag_set q) /\
  m_nglobal q = Z.of_nat (length (m_tag_set q)) /\ NoDup (m_recycled_tags q) /\
  (forall s, s ∈ m_tag_set q -> s ∉ m_recycled_tags q) /\
  (forall s, (s ∈ m_tag_set q \/ s ∈ m_recycled_tags q) <-> 0 <= s < high_water q).
Proof.
  intros W Hh -> Es Er En. destruct (take_tag_spec p W Hh) as (Bt & Nt & Nr & ND & Rs & Rn & Hm & _).
  fold (added_tag p) in *. set (t := added_tag p) in *. rewrite <- Er in *.
  assert (H : high_water q = Z.max (high_water p) (t + 1)) by (unfold high_water at 1; lia).
  rewrite Es. split_and!; auto.
  - apply set_insert_sorted, (wf_sorted p W).
  - rewrite length_set_insert by assumption. rewrite En, (wf_nglobal p W). lia.
  - intros s [->|Hs]%elem_of_set_insert; [assumption|]. intros C. apply (wf_disjoint p W s Hs), Rs. auto.
  - intros s. rewrite elem_of_set_insert. pose proof (wf_tags p W s) as T. rewrite Rs in T. rewrite H.
    split; [intros [[->|Hs]|Hs]; [lia| |]|].
    + assert (0 <= s < high_water p) by (apply T; auto). lia.
    + assert (0 <= s < high_water p) by (apply T; auto). lia.
    + intros B. destruct (decide (s = t)) as [->|D]; [auto|].
      assert (s < high_water p) by (destruct (decide (t = high_water p)); lia).
      destruct (proj2 T ltac:(lia)) as [?|[?|[? _]]]; auto.
Qed.

(** Resizing keeps the particles, apart from the net quantities. *)
Lemma pd_resize_element n p i : wf_mem p -> 0 <= n -> 0 <= i < m_max_nparticles p ->
  kinematic (element i (pd_resize n p)) = kinematic (element i p).
Proof.
  intros W Hn Hi. destruct (pd_resize_spec n p W Hn) as (_ & _ & _ & _ & Rk & _).
  assert (Li : (Z.to_nat i < length (m_ptl p))%nat) by (rewrite (wf_ptl p W); lia).
  pose proof (lookup_zget zero_element _ _ Li) as Ei. unfold element. set (e := zget zero_element (m_ptl p) i) in *.
  assert (Ek : (kinematic <$> m_ptl p) !! Z.to_nat i = Some (kinematic e)) by (rewrite list_lookup_fmap, Ei; reflexivity).
  rewrite <- Rk, list_lookup_fmap, lookup_take_lt in Ek by lia.
  destruct (m_ptl (pd_resize n p) !! Z.to_nat i) as [e'|] eqn:E'; [|discriminate]. apply (inj Some) in Ek.
  rewrite (zget_lookup _ _ _ e') by assumption. exact Ek.
Qed.

(** Appending a particle to the arrays. *)
Lemma append_spec type t q : wf_mem q ->
  let w := write_new (m_nparticles q) type t (pd_resize (m_nparticles q + 1) q) in
  wf_mem w /\ same_tags q w /\ local_tags w = local_tags q ++ [t] /\
  (forall i, 0 <= i < m_nparticles q -> kinematic (element i w) = kinematic (element i q)) /\
  kinematic (element (m_nparticles q) w) = kinematic (new_element type t zero_element).
Proof.
  intros Wq w. pose proof (wf_N q Wq) as HN.
  destruct (pd_resize_spec (m_nparticles q + 1) q Wq ltac:(lia)) as (Wr & Rn & Sr & Rm & _).
  pose proof (pd_resize_tags (m_nparticles q + 1) q Wq ltac:(lia)) as Rt.
  pose proof (fun i => pd_resize_element (m_nparticles q + 1) q i Wq ltac:(lia)) as Re.
  set (r := pd_resize (m_nparticles q + 1) q) in *.
  replace (Z.min (m_nparticles q + 1) (m_nparticles q)) with (m_nparticles q) in Rt by lia.
  assert (Lr : (Z.to_nat (m_nparticles q) < length (m_ptl r))%nat) by (pose proof (wf_ptl r Wr); pose proof (wf_N r Wr); lia).
  split_and!; [| exact Sr | | |].
  - destruct Wr. constructor; unfold w; simpl; rewrite ?length_zset; auto.
  - unfold local_tags at 1, w, write_new. simpl. rewrite Rn.
    replace (Z.to_nat (m_nparticles q + 1)) with (S (Z.to_nat (m_nparticles q))) by lia.
    rewrite (take_S_r _ _ (new_element type t (element (m_nparticles q) r))) by (now apply lookup_zset_eq).
    rewrite fmap_app. simpl. f_equal. unfold zset. rewrite take_insert_ge by lia.
    rewrite <- (take_ge (local_tags q) (Z.to_nat (m_nparticles q))) by (rewrite (length_local_tags q Wq); lia).
    rewrite <- Rt. unfold local_tags. rewrite Rn, <- fmap_take, take_take. f_equal. f_equal. lia.
  - intros i Hi. rewrite <- Re by lia. unfold element, w, write_new. simpl.
    assert (Li : (Z.to_nat i < length (m_ptl r))%nat) by lia.
    rewrite (zget_lookup _ _ _ (zget zero_element (m_ptl r) i)); [reflexivity|].
    rewrite lookup_zset_ne by lia. now apply lookup_zget.
  - unfold element at 1, w, write_new. simpl.
    rewrite (zget_lookup _ _ _ (new_element type t (element (m_nparticles q) r))); [reflexivity|]. now apply lookup_zset_eq.
Qed.

(** The invariant after the bookkeeping of [addParticle], from the arrays and
    the reverse lookup. *)
Lemma addParticle_finish type p w : wf p -> high_water p < 2 ^ 31 -> wf_mem w -> same_tags (tag_added type p) w ->
  (forall s, s ∈ local_tags w -> s = added_tag p \/ s ∈ local_tags p) ->
  rtag_ok (Z.max (high_water p) (added_tag p + 1)) (local_tags w) (m_rtag (tag_added type p)) ->
  let f := notifyParticleSort (setNGlobal (u32 (getNGlobal w + 1)) w) in
  wf f /\ m_tag_set f = set_insert (added_tag p) (m_tag_set p) /\ m_nglobal f = m_nglobal p + 1 /\ m_rank f = m_rank p.
Proof.
  intros W Hh Wm (S1&S2&S3&S4&S5&S6&S7&S8) La RT f. set (t := added_tag p) in *.
  destruct (tag_added_fields type p W Hh) as (F1 & F2 & F3 & F4 & F5 & _ & _ & _ & _ & _ & F11 & (m & F12 & F12' & F12'') & _).
  fold t in F2. set (q := tag_added type p) in *.
  pose proof (wf_nglobal_high p W). pose proof (wf_high p W).
  assert (Ef : m_nglobal f = m_nglobal p + 1) by (unfold f; simpl; unfold getNGlobal; rewrite S1, F1; apply u32_small; unfold is_u32; lia).
  destruct (take_tag_spec p W Hh) as (Bt & _). fold (added_tag p) in Bt. fold t in Bt.
  destruct (tags_added p f t W Hh eq_refl) as (T1 & T2 & T3 & T4 & T5 & T6); [unfold f; simpl; congruence..|assumption|].
  split_and!; auto; try (unfold f; simpl; congruence).
  constructor; auto; unfold f; simpl.
  - destruct Wm. constructor; simpl; auto.
  - fold f. rewrite T1. lia.
  - rewrite S4, S3. exact F11.
  - fold f. rewrite S3, F12''. assert (0 <= m < high_water f) by (apply T6; left; unfold f; simpl; congruence). lia.
  - intros s Hs. rewrite S4, F2. apply elem_of_set_insert. destruct (La s Hs) as [->|?]; [auto|right; now apply (wf_active p W)].
  - fold f. rewrite T1, S2. exact RT.
  - rewrite S7, F4. discriminate.
Qed.

Lemma addParticle_wf type p : wf p -> high_water p < 2 ^ 31 ->
  let t := (addParticle type p).1 in let q := (addParticle type p).2 in
  wf q /\ t = added_tag p /\ (t ∉ m_tag_set p) /\ m_tag_set q = set_insert t (m_tag_set p) /\
  m_nglobal q = m_nglobal p + 1 /\ m_rank q = m_rank p /\
  (m_rank p <> 0 -> local_tags q = local_tags p) /\
  (m_rank p = 0 -> local_tags q = local_tags p ++ [t] /\
     (forall i, 0 <= i < m_nparticles p -> kinematic (element i q) = kinematic (element i p)) /\
     kinematic (element (m_nparticles p) q) = kinematic (new_element type t zero_element)).
Proof.
  intros W Hh. rewrite addParticle_unfold. cbv zeta. cbn [fst snd]. set (t := added_tag p).
  destruct (take_tag_spec p W Hh) as (Bt & Nt & _). fold (added_tag p) in Bt, Nt. fold t in Bt, Nt.
  destruct (tag_added_fields type p W Hh) as (_ & _ & _ & _ & _ & F6 & F7 & _ & _ & Wm & _ & _ & [k F13] & F14).
  fold t in F13, F14. set (q := tag_added type p) in *.
  pose proof (wf_N p (wf_memory p W)). pose proof (wf_N_nglobal p W). pose proof (wf_nglobal_high p W). pose proof (wf_high p W).
  assert (Ntl : t ∉ local_tags p) by (intros H'; apply Nt, (wf_active p W), H').
  assert (Pl : forall s, s ∈ local_tags p -> 0 <= s) by (intros s Hs; now apply (wf_local_bounds p W)).
  assert (Hmax : forall s, 0 <= s < Z.max (high_water p) (t + 1) -> s = t \/ 0 <= s < high_water p).
  { intros s Hs. destruct (decide (s = t)); [auto|]. right. destruct (decide (t = high_water p)); lia. }
  pose proof (rtag_ok_app _ _ _ (replicate k 0) (wf_rtag p W)) as Ra. rewrite F13, length_zset in F14.
  assert (Lq : local_tags q = local_tags p) by (unfold local_tags; now rewrite F6, F7).
  destruct (m_rank p =? 0) eqn:Er; zbool.
  - rewrite (u32_small (getN p + 1)) by (unfold is_u32, getN; lia). destruct (append_spec type t q Wm) as (Ww & Sw & Lw & Ew & Nw).
    unfold getN in *. rewrite F6 in *. rewrite Lq in Lw. set (w := write_new _ _ _ _) in *.
    destruct (addParticle_finish type p w W Hh Ww Sw) as (Wf & A1 & A2 & A3).
    + rewrite Lw. intros s [Hs|Hs%list_elem_of_singleton]%elem_of_app; auto.
    + fold t q. rewrite Lw, F13. replace (m_nparticles p) with (Z.of_nat (length (local_tags p))) by (rewrite (length_local_tags p (wf_memory p W)); lia).
      apply rtag_ok_snoc with (high := high_water p); auto; lia.
    + split_and!; auto; [congruence|]. intros _. split_and!; auto.
      intros i Hi. transitivity (kinematic (element i q)); [exact (Ew i Hi)|]. unfold element. now rewrite F7.
  - destruct (addParticle_finish type p q W Hh Wm) as (Wf & A1 & A2 & A3).
    + repeat split.
    + rewrite Lq. auto.
    + fold t q. rewrite Lq, F13. apply rtag_ok_set_absent with (high := high_water p); auto; lia.
    + split_and!; auto. congruence.
Qed.

(** * Removing a particle *)

Section removal.
Variables (p : pdata) (t : Z).
Hypothesis W : wf p.

(** Whether [removeParticle] finds the particle on some rank. *)
Definition available (allreduce : option (Z -> Z)) : bool :=
  match allreduce with
  | Some sum => negb (sum (if getRTag t p <? getN p then 1 else 0) =? 0)
  | None => getRTag t p <? getN p
  end.

Lemma local_iff : 0 <= t < m_rtag_size p -> (getRTag t p <? getN p) = true <-> t ∈ local_tags p.
Proof.
  intros Ht. pose proof (wf_size_high p W). pose proof (wf_N_nglobal p W). pose proof (wf_nglobal_high p W). pose proof (wf_high p W).
  destruct (decide (t ∈ local_tags p)) as [H'|H'].
  - destruct (wf_getRTag p W t H') as [B _]. split; [auto|]. intros _. apply Z.ltb_lt. unfold getN. lia.
  - rewrite (wf_getRTag_absent p W t) by (auto; lia). split; [|contradiction]. intros E. zbool. unfold getN, NOT_LOCAL in E. lia.
Qed.

(** The final steps of [removeParticle]. *)
Definition retire (w : pdata) : pdata :=
  let w := set_tag_set (set_erase t (m_tag_set w)) w in
  let w := set_recycled (t :: m_recycled_tags w) w in
  let w := set_cache (m_cached_tag_set w) true w in
  notifyParticleSort (setNGlobal (u32 (getNGlobal w - 1)) w).

(** Taking the particle out of the arrays of its rank. *)
Definition take_out : pdata :=
  let q := removeAllGhostParticles p in
  let q := set_rtag (zset (m_rtag q) t NOT_LOCAL) (m_rtag_size q) q in
  if getRTag t p <? getN p then
    let q := if getRTag t p <? getN q - 1 then move_last (getRTag t p) (getN q) q else q in
    pd_resize (u32 (getN q - 1)) q
  else q.

Lemma removeParticle_unfold allreduce :
  removeParticle allreduce t p =
  if getNGlobal p =? 0 then (p, Throw (runtime_error "Trying to remove particle when there are zero particles!"))
  else if t >=? m_rtag_size p then
    (removeAllGhostParticles p, Throw (runtime_error "Trying to remove particle which does not exist."))
  else if negb (available allreduce) then
    (removeAllGhostParticles p, Throw (runtime_error "Trying to remove particle which has been previously removed!"))
  else (retire take_out, Ok tt).
Proof.
  unfold removeParticle, take_out, available, retire. destruct (getNGlobal p =? 0); [reflexivity|].
  cbn zeta. change (m_rtag_size (removeAllGhostParticles p)) with (m_rtag_size p).
  change (getRTag t (removeAllGhostParticles p)) with (getRTag t p). change (getN (removeAllGhostParticles p)) with (getN p).
  destruct (t >=? m_rtag_size p); [reflexivity|]. destruct (negb _); reflexivity.
Qed.

Hypothesis Act : t ∈ m_tag_set p.

Lemma retire_wf w : wf_mem w ->
  m_nglobal w = m_nglobal p -> m_tag_set w = m_tag_set p -> m_recycled_tags w = m_recycled_tags p ->
  m_rtag_size w = m_rtag_size p -> (t ∉ local_tags w) -> (forall s, s ∈ local_tags w -> s ∈ local_tags p) ->
  rtag_ok (high_water p) (local_tags w) (m_rtag w) ->
  wf (retire w) /\ m_tag_set (retire w) = set_erase t (m_tag_set p) /\
  m_recycled_tags (retire w) = t :: m_recycled_tags p /\ m_nglobal (retire w) = m_nglobal p - 1.
Proof.
  intros Wm E1 E2 E3 E4 Nt Lt RT. pose proof (wf_nglobal_high p W). pose proof (wf_high p W).
  pose proof (length_set_erase t _ (sorted_nodup _ (wf_sorted p W)) Act) as Len. pose proof (wf_nglobal p W) as Eg.
  assert (En : m_nglobal (retire w) = m_nglobal p - 1).
  { unfold retire. simpl. unfold getNGlobal. simpl. rewrite E1. apply u32_small. unfold is_u32. lia. }
  assert (Eh : high_water (retire w) = high_water p).
  { unfold high_water. rewrite En. unfold retire. simpl. rewrite E3. simpl. lia. }
  split_and!; auto; try (unfold retire; simpl; congruence).
  constructor; rewrite ?Eh; auto; unfold retire; simpl; rewrite ?E1, ?E2, ?E3, ?E4.
  - destruct Wm. constructor; simpl; auto.
  - apply set_erase_sorted, (wf_sorted p W).
  - unfold getNGlobal. simpl. rewrite ?E1, u32_small by (unfold is_u32; lia). lia.
  - apply NoDup_cons. split; [now apply (wf_disjoint p W)|apply (wf_recycled p W)].
  - intros s [Ds Hs]%elem_of_set_erase. rewrite not_elem_of_cons. split; [assumption|now apply (wf_disjoint p W)].
  - intros s. rewrite elem_of_set_erase, elem_of_cons, <- (wf_tags p W s). destruct (decide (s = t)) as [->|]; intuition.
  - intros s [_ Hs]%elem_of_set_erase. now apply (wf_size p W).
  - apply (wf_size_high p W).
  - intros s Hs. apply elem_of_set_erase. split; [|apply (wf_active p W); auto]. intros ->. contradiction.
  - discriminate.
Qed.

End removal.

Section take_out_facts.
Variables (p : pdata) (t : Z).
Hypothesis W : wf p.
Hypothesis Loc : t ∈ local_tags p.

Let idx := getRTag t p.
Let N := m_nparticles p.

Lemma local_tags_last : exists init last, local_tags p = init ++ [last] /\ length init = Z.to_nat (N - 1) /\
  last = tag (element (N - 1) p).
Proof.
  destruct (wf_getRTag p W t Loc) as [B _]. pose proof (length_local_tags p (wf_memory p W)) as L.
  destruct (local_tags p) as [|x l] eqn:E using rev_ind; [simpl in L; lia|]. exists l, x.
  rewrite length_app in L. simpl in L. split; [reflexivity|]. split; [unfold N; lia|].
  assert (Hx : local_tags p !! Z.to_nat (N - 1) = Some x) by (rewrite E; apply list_lookup_middle; unfold N; lia).
  unfold local_tags in Hx. rewrite list_lookup_fmap, lookup_take_lt in Hx by (unfold N; lia).
  destruct (m_ptl p !! Z.to_nat (N - 1)) as [e|] eqn:Ee; [|discriminate]. unfold element. rewrite (zget_lookup _ _ _ e) by assumption.
  simpl in Hx. congruence.
Qed.

Lemma take_out_unfold :
  take_out p t =
  set_nparticles (N - 1)
    (let q := set_rtag (zset (m_rtag p) t NOT_LOCAL) (m_rtag_size p) (removeAllGhostParticles p) in
     if idx <? N - 1 then move_last idx N q else q).
Proof.
  destruct (wf_getRTag p W t Loc) as [B _]. fold idx N in B. unfold take_out. fold idx.
  pose proof (wf_N p (wf_memory p W)) as HN. fold N in HN.
  pose proof (wf_N_nglobal p W). pose proof (wf_nglobal_high p W). pose proof (wf_high p W). fold N in H.
  assert ((idx <? getN p) = true) as -> by (apply Z.ltb_lt; unfold getN; fold N; lia).
  cbn zeta. set (q := set_rtag _ _ _).
  assert (Q : forall w, (w = q \/ w = move_last idx N q) -> pd_resize (u32 (getN w - 1)) w = set_nparticles (N - 1) w).
  { intros w Hw. assert (getN w = N /\ m_max_nparticles w = m_max_nparticles p) as [-> Em] by (destruct Hw; subst; auto).
    rewrite u32_small by (unfold is_u32; lia). apply pd_resize_fits; [|lia].
    destruct (wf_memory p W), Hw as [-> | ->]; constructor; unfold q, move_last; simpl; rewrite ?length_zset; auto. }
  change (getN q) with N. destruct (idx <? N - 1); rewrite Q by auto; reflexivity.
Qed.

(** The tags that stay, with the tag of the last particle in the freed slot. *)
Lemma take_out_tags : exists init last, local_tags p = init ++ [last] /\
  ((idx = N - 1 /\ t = last /\ local_tags (take_out p t) = init /\
    m_rtag (take_out p t) = zset (m_rtag p) t NOT_LOCAL) \/
   (idx < N - 1 /\ init !! Z.to_nat idx = Some t /\ local_tags (take_out p t) = <[Z.to_nat idx := last]> init /\
    m_rtag (take_out p t) = zset (zset (m_rtag p) t NOT_LOCAL) last (Z.of_nat (Z.to_nat idx)))).
Proof.
  destruct (wf_getRTag p W t Loc) as (B & Li & _). fold idx N in B, Li.
  destruct local_tags_last as (init & last & E & Len & El). exists init, last. split; [assumption|].
  assert (Ti : tag <$> take (Z.to_nat (N - 1)) (m_ptl p) = init).
  { transitivity (take (Z.to_nat (N - 1)) (local_tags p)); [|rewrite E; now apply take_app_length'].
    unfold local_tags. fold N. rewrite <- fmap_take, take_take. f_equal. f_equal. lia. }
  rewrite take_out_unfold. cbn zeta. rewrite E in Li. destruct (idx <? N - 1) eqn:Ei; zbool; [right|left].
  - rewrite lookup_app_l in Li by lia. split_and!; auto.
    + unfold local_tags, move_last. simpl. unfold zset. rewrite take_insert_lt by lia.
      rewrite list_fmap_insert, Ti. simpl. f_equal. symmetry. exact El.
    + unfold move_last. simpl. change (element (N - 1) (set_rtag _ _ _)) with (element (N - 1) p). rewrite <- El.
      f_equal. lia.
  - assert (idx = N - 1) as Ex by lia. rewrite lookup_app_r in Li by lia. rewrite Ex, Len, Nat.sub_diag in Li. simpl in Li.
    injection Li as ->. split_and!; auto.
Qed.

Lemma take_out_spec :
  wf_mem (take_out p t) /\ m_nglobal (take_out p t) = m_nglobal p /\ m_tag_set (take_out p t) = m_tag_set p /\
  m_recycled_tags (take_out p t) = m_recycled_tags p /\ m_rtag_size (take_out p t) = m_rtag_size p /\
  m_rank (take_out p t) = m_rank p /\ (t ∉ local_tags (take_out p t)) /\
  (forall s, s ∈ local_tags (take_out p t) <-> s <> t /\ s ∈ local_tags p) /\
  rtag_ok (high_water p) (local_tags (take_out p t)) (m_rtag (take_out p t)).
Proof.
  destruct take_out_tags as (init & last & E & C).
  pose proof (wf_local_nodup p W) as ND. pose proof (wf_rtag p W) as R. pose proof (wf_local_bounds p W) as B.
  rewrite E in ND, R, B. apply NoDup_app in ND as (ND & Dj & _).
  assert (Ln : last ∉ init) by (intros H; apply (Dj _ H); left).
  assert (M : forall s, s ∈ local_tags (take_out p t) <-> s <> t /\ s ∈ local_tags p).
  { intros s. rewrite E, elem_of_app, list_elem_of_singleton. destruct C as [(_ & -> & -> & _)|(_ & Hi & -> & _)].
    - split; [intros H; split; [intros ->; contradiction|auto]|intros [? [?|?]]; [assumption|contradiction]].
    - assert (Hl : (Z.to_nat idx < length init)%nat) by (eapply lookup_lt_Some; eassumption). split.
      + intros [k Hk]%list_elem_of_lookup_1. destruct (decide (Z.to_nat idx = k)) as [<-|D].
        * rewrite list_lookup_insert_eq in Hk by assumption. injection Hk as <-. split; [|auto].
          intros ->. apply Ln. eapply list_elem_of_lookup_2; eassumption.
        * rewrite list_lookup_insert_ne in Hk by assumption. split; [|left; eapply list_elem_of_lookup_2; eassumption].
          intros ->. apply D. eapply NoDup_lookup; eassumption.
      + intros [D [[k Hk]%list_elem_of_lookup_1| ->]].
        * apply (list_elem_of_lookup_2 _ k). rewrite list_lookup_insert_ne; [assumption|]. intros <-. rewrite Hi in Hk. congruence.
        * apply (list_elem_of_lookup_2 _ (Z.to_nat idx)). now apply list_lookup_insert_eq. }
  split_and!; try (rewrite take_out_unfold; cbn zeta; destruct (idx <? N - 1); reflexivity).
  - destruct (wf_getRTag p W t Loc) as (Bi & _). destruct (wf_memory p W). rewrite take_out_unfold. cbn zeta.
    destruct (idx <? N - 1); constructor; unfold move_last, N; simpl; rewrite ?length_zset; auto; lia.
  - intros H%M. tauto.
  - exact M.
  - destruct C as [(_ & -> & -> & ->)|(_ & Hi & -> & ->)].
    + now apply rtag_ok_drop_last.
    + now apply rtag_ok_move_last.
Qed.

(** The particles that stay: all but the moved one are untouched. *)
Lemma take_out_elements i : 0 <= i < N - 1 ->
  element i (take_out p t) =
  if i =? idx then moved_element (element (N - 1) p) (element idx p) else element i p.
Proof.
  intros Hi. destruct (wf_getRTag p W t Loc) as (B & _). fold idx N in B.
  pose proof (wf_ptl p (wf_memory p W)) as L. pose proof (wf_N p (wf_memory p W)) as HN. fold N in HN.
  rewrite take_out_unfold. cbn zeta. destruct (Z.eqb_spec i idx) as [->|D].
  - assert ((idx <? N - 1) = true) as -> by (apply Z.ltb_lt; lia). unfold element at 1, move_last. simpl.
    apply zget_lookup. rewrite lookup_zset_eq by lia. reflexivity.
  - destruct (idx <? N - 1); [|reflexivity]. unfold element at 1, move_last. simpl. apply zget_lookup.
    rewrite lookup_zset_ne by lia. apply lookup_zget. lia.
Qed.

End take_out_facts.

Lemma removeParticle_wf allreduce t p :
  wf p -> 0 <= t ->
  (available p t allreduce = true -> t < m_rtag_size p -> t ∈ m_tag_set p) ->
  let q := (removeParticle allreduce t p).1 in
  wf q /\
  ((removeParticle allreduce t p).2 = Ok tt <-> 0 < m_nglobal p /\ t < m_rtag_size p /\ available p t allreduce = true) /\
  ((removeParticle allreduce t p).2 = Ok tt ->
     m_tag_set q = set_erase t (m_tag_set p) /\ m_recycled_tags q = t :: m_recycled_tags p /\
     m_nglobal q = m_nglobal p - 1 /\ (forall s, s ∈ local_tags q <-> s <> t /\ s ∈ local_tags p)) /\
  ((removeParticle allreduce t p).2 <> Ok tt -> q = p \/ q = removeAllGhostParticles p).
Proof.
  intros W Ht A. rewrite removeParticle_unfold. cbn zeta.
  assert (G : wf (removeAllGhostParticles p)) by (destruct W as [[] ?]; constructor; [constructor|..]; auto).
  pose proof (wf_nglobal_high p W).
  unfold getNGlobal. destruct (m_nglobal p =? 0) eqn:E1; zbool.
  { split_and!; auto; [split; [discriminate|lia]|discriminate]. }
  destruct (t >=? m_rtag_size p) eqn:E2; zbool.
  { split_and!; auto; [split; [discriminate|lia]|discriminate]. }
  destruct (available p t allreduce) eqn:E3; simpl.
  2: { split_and!; auto; [split; [discriminate|intros (_&_&?); discriminate]|discriminate]. }
  specialize (A eq_refl E2).
  enough (X : wf_mem (take_out p t) /\ m_nglobal (take_out p t) = m_nglobal p /\ m_tag_set (take_out p t) = m_tag_set p /\
    m_recycled_tags (take_out p t) = m_recycled_tags p /\ m_rtag_size (take_out p t) = m_rtag_size p /\
    (t ∉ local_tags (take_out p t)) /\
    (forall s, s ∈ local_tags (take_out p t) <-> s <> t /\ s ∈ local_tags p) /\
    rtag_ok (high_water p) (local_tags (take_out p t)) (m_rtag (take_out p t))).
  { destruct X as (X1 & X2 & X3 & X4 & X5 & X6 & X7 & X8).
    destruct (retire_wf p t W A (take_out p t)) as (Y1 & Y2 & Y3 & Y4); auto; [intros s Hs; now apply X7|].
    split_and!; auto; [split; auto; intros _; split_and!; auto; lia|congruence]. }
  pose proof (local_iff p t W ltac:(lia)) as LI. destruct (decide (t ∈ local_tags p)) as [L|L].
  - destruct (take_out_spec p t W L) as (X1 & X2 & X3 & X4 & X5 & _ & X6 & X7 & X8). split_and!; auto.
  - assert (Eq : take_out p t = set_rtag (zset (m_rtag p) t NOT_LOCAL) (m_rtag_size p) (removeAllGhostParticles p)).
    { unfold take_out. destruct (getRTag t p <? getN p); [exfalso; apply L, LI; reflexivity|reflexivity]. }
    rewrite Eq. pose proof (wf_tag_bounds p W t A) as Bt.
    assert (El : local_tags (set_rtag (zset (m_rtag p) t NOT_LOCAL) (m_rtag_size p) (removeAllGhostParticles p)) = local_tags p) by reflexivity.
    rewrite El. split_and!; auto; try (destruct W as [[] ?]; constructor; assumption).
    + intros s. split; [intros Hs; split; [intros ->; contradiction|assumption]|tauto].
    + apply rtag_ok_set_absent with (high := high_water p); auto.
      * apply (wf_rtag p W).
      * intros s Hs. now apply (wf_local_bounds p W).
      * now apply (wf_rtag_length p W).
Qed.

(** * Snapshots *)

Lemma skip_removed_spec rtag n tag k idx :
  (forall j v, (j < k)%nat -> rtag !! j = Some v -> n <= v) -> rtag !! k = Some idx -> idx < n ->
  skip_removed rtag n tag = Some (tag + Z.of_nat k, idx).
Proof.
  revert tag k. induction rtag as [|v rtag IH]; intros tag k S E L; [discriminate|]. simpl.
  destruct k as [|k]; simpl in E.
  - injection E as ->. destruct (idx >=? n) eqn:G; zbool; [lia|]. f_equal. f_equal. lia.
  - assert (n <= v) by (apply (S 0%nat); [lia|reflexivity]). destruct (v >=? n) eqn:G; zbool; [|lia].
    rewrite (IH (tag + 1) k); auto; [f_equal; f_equal; lia|]. intros j v' Hj. apply (S (Datatypes.S j)). lia.
Qed.

Section snapshots.
Variable p : pdata.
Hypothesis W : wf p.
Hypothesis Ser : serial p.

Lemma serial_N : m_nparticles p = m_nglobal p.
Proof.
  pose proof (wf_N_nglobal p W). pose proof (wf_N p (wf_memory p W)). rewrite (wf_nglobal p W) in *.
  pose proof (length_local_tags p (wf_memory p W)).
  assert (length (m_tag_set p) <= length (local_tags p))%nat; [|lia].
  apply submseteq_length, NoDup_submseteq; [apply sorted_nodup, (wf_sorted p W)|apply Ser].
Qed.

(** The walk over the tags skips exactly the recycled ones. *)
Lemma take_loop_spec suf pre start :
  m_tag_set p = pre ++ suf -> 0 <= start -> (forall s, s ∈ pre -> s < start) -> (forall s, s ∈ suf -> start <= s) ->
  take_loop (length suf) start p = Some ((fun t => snap_of p (element (getRTag t p) p)) <$> suf).
Proof.
  revert pre start. induction suf as [|t suf IH]; intros pre start E H0 Hpre Hsuf; [reflexivity|]. simpl.
  pose proof (wf_sorted p W) as S. rewrite E in S. apply StronglySorted_app_1_r in S.
  apply StronglySorted_inv in S as [S F]. rewrite Forall_forall in F.
  assert (Ht : t ∈ m_tag_set p) by (rewrite E; apply elem_of_app; right; left).
  pose proof (wf_tag_bounds p W t Ht) as Bt. assert (start <= t) by (apply Hsuf; left).
  destruct (wf_getRTag p W t (proj2 Ser t Ht)) as (Bi & _).
  rewrite (skip_removed_spec _ _ _ (Z.to_nat (t - start)) (getRTag t p)).
  - replace (start + Z.of_nat (Z.to_nat (t - start))) with t by lia.
    rewrite (IH (pre ++ [t])); [reflexivity| | lia | |].
    + now rewrite <- app_assoc.
    + intros s [Hs|Hs%list_elem_of_singleton]%elem_of_app; [specialize (Hpre s Hs); lia|lia].
    + intros s Hs. specialize (F s Hs). lia.
  - intros j v Hj. rewrite lookup_drop. intros Hv. set (s := start + Z.of_nat j) in *.
    replace (Z.to_nat start + j)%nat with (Z.to_nat s) in Hv by lia.
    assert (N : s ∉ local_tags p).
    { intros Hs%(wf_active p W). rewrite E in Hs. apply elem_of_app in Hs as [Hs|[Hs|Hs]%elem_of_cons]; [specialize (Hpre s Hs); lia|lia|].
      specialize (F s Hs). lia. }
    rewrite (rtag_ok_absent _ _ _ s (wf_rtag p W) ltac:(lia) N) in Hv. injection Hv as <-.
    pose proof (wf_N_nglobal p W). pose proof (wf_nglobal_high p W). pose proof (wf_high p W). unfold NOT_LOCAL. lia.
  - rewrite lookup_drop. replace (Z.to_nat start + Z.to_nat (t - start))%nat with (Z.to_nat t) by lia.
    apply lookup_zget. now apply (wf_rtag_length p W).
  - lia.
Qed.

Lemma takeSnapshot_spec :
  takeSnapshot p = Some (mkSnapshot ((fun t => snap_of p (element (getRTag t p) p)) <$> m_tag_set p) (m_type_mapping p) (m_accel_set p)).
Proof.
  unfold takeSnapshot. replace (Z.to_nat (m_nparticles p)) with (length (m_tag_set p)).
  2: { rewrite serial_N, (wf_nglobal p W). lia. }
  rewrite (take_loop_spec (m_tag_set p) [] 0); try reflexivity; try lia.
  - intros s Hs. now apply elem_of_nil in Hs.
  - intros s Hs. now apply (wf_tag_bounds p W).
Qed.

End snapshots.

(** * Migration *)

Section migration.
Variable p : pdata.

Definition flag (k : nat) : Z := zget 0 (m_comm_flags p) (Z.of_nat k).
Definition ptl (k : nat) : pdata_element := element (Z.of_nat k) p.

(** The indices below [n] of the particles that stay and of those that leave. *)
Definition staying (n : nat) : list nat := filter (fun k => flag k = 0) (seq 0 n).
Definition leaving (n : nat) : list nat := filter (fun k => flag k <> 0) (seq 0 n).

Lemma staying_S n : staying (S n) = staying n ++ (if decide (flag n = 0) then [n] else []).
Proof. unfold staying. rewrite seq_S, filter_app, filter_cons. simpl. case_decide; reflexivity. Qed.

Lemma leaving_S n : leaving (S n) = leaving n ++ (if decide (flag n = 0) then [] else [n]).
Proof.
  unfold leaving. rewrite seq_S, filter_app, filter_cons. simpl.
  destruct (decide (flag n <> 0)), (decide (flag n = 0)); try reflexivity; contradiction.
Qed.

Lemma staying_leaving_perm n : staying n ++ leaving n ≡ₚ seq 0 n.
Proof.
  induction n as [|n IH]; [reflexivity|]. rewrite staying_S, leaving_S, seq_S, <- IH. case_decide; simpl; rewrite ?app_nil_r.
  - rewrite <- !app_assoc. apply Permutation_app_head. apply Permutation_app_comm.
  - now rewrite app_assoc.
Qed.

Lemma length_staying n : (length (staying n) + length (leaving n) = n)%nat.
Proof. rewrite <- length_app, staying_leaving_perm. apply length_seq. Qed.

Lemma elem_of_staying n k : k ∈ staying n <-> flag k = 0 /\ (k < n)%nat.
Proof. unfold staying. rewrite list_elem_of_filter, elem_of_seq. intuition lia. Qed.

Lemma elem_of_leaving n k : k ∈ leaving n <-> flag k <> 0 /\ (k < n)%nat.
Proof. unfold leaving. rewrite list_elem_of_filter, elem_of_seq. intuition lia. Qed.

Lemma mark_removed_spec n rtag :
  (mark_removed n p rtag 0).2 = Z.of_nat (length (leaving n)) /\
  length (mark_removed n p rtag 0).1 = length rtag /\
  (forall k, k ∈ leaving n -> (Z.to_nat (tag (ptl k)) < length rtag)%nat ->
     (mark_removed n p rtag 0).1 !! Z.to_nat (tag (ptl k)) = Some NOT_LOCAL) /\
  (forall j, (forall k, k ∈ leaving n -> Z.to_nat (tag (ptl k)) <> j) -> (mark_removed n p rtag 0).1 !! j = rtag !! j).
Proof.
  induction n as [|n (I1 & I2 & I3 & I4)].
  { simpl. split_and!; auto. intros k H%elem_of_nil. contradiction. }
  simpl. destruct (mark_removed n p rtag 0) as [r c]. simpl in *. fold (flag n) (ptl n).
  rewrite leaving_S. destruct (decide (flag n = 0)) as [E|E].
  - rewrite E. simpl. rewrite app_nil_r. auto.
  - destruct (Z.eqb_spec (flag n) 0); [contradiction|]. simpl. rewrite length_zset, length_app. simpl. split_and!; auto; [lia| |].
    + intros k Hk Hl. destruct (decide (Z.to_nat (tag (ptl k)) = Z.to_nat (tag (ptl n)))) as [Eq|D].
      * rewrite Eq in *. apply lookup_zset_eq. lia.
      * rewrite lookup_zset_ne by congruence. apply elem_of_app in Hk as [Hk|Hk%list_elem_of_singleton]; [auto|subst; contradiction].
    + intros j Hj. rewrite lookup_zset_ne; [apply I4; intros k Hk; apply Hj, elem_of_app; auto|].
      apply Hj, elem_of_app. right. left.
Qed.

End migration.

(** The particles an operation sees are the ones in the arrays. *)
Lemma fmap_element_seq p n : wf_mem p -> (n <= Z.to_nat (m_max_nparticles p))%nat -> ptl p <$> seq 0 n = take n (m_ptl p).
Proof.
  intros W Hn. apply list_eq. intros i. rewrite list_lookup_fmap. destruct (decide (i < n)%nat) as [L|G].
  - rewrite lookup_seq_lt by lia. rewrite lookup_take_lt by lia. simpl. unfold ptl, element.
    symmetry. rewrite <- (Nat2Z.id i) at 1. apply lookup_zget. rewrite (wf_ptl p W). lia.
  - rewrite lookup_seq_ge by lia. rewrite lookup_take_ge by lia. reflexivity.
Qed.

(** The second pass. *)
Lemma split_particles_spec p q n alt : (n <= length alt)%nat -> m_ptl q = m_ptl p ->
  (forall k, (k < n)%nat -> getRTag (tag (ptl p k)) q = NOT_LOCAL <-> flag p k <> 0) ->
  split_particles n q alt =
  ((ptl p <$> staying p n) ++ drop (length (staying p n)) alt, Z.of_nat (length (staying p n)), ptl p <$> leaving p n).
Proof.
  intros La Ep. induction n as [|n IH]; intros R; [reflexivity|].
  simpl. rewrite IH by (lia || (intros k Hk; apply R; lia)). rewrite staying_S, leaving_S.
  assert (Ee : element (Z.of_nat n) q = ptl p n) by (unfold ptl, element; now rewrite Ep). rewrite Ee.
  pose proof (R n ltac:(lia)) as Rn. pose proof (length_staying p n).
  destruct (decide (flag p n = 0)) as [E|E].
  - destruct (Z.eqb_spec (getRTag (tag (ptl p n)) q) NOT_LOCAL) as [C|_]; [tauto|]. simpl. rewrite app_nil_r, length_app. simpl.
    f_equal. f_equal; [|lia].
    unfold zset. rewrite fmap_app. simpl. rewrite insert_app_r_alt by (rewrite length_fmap; lia).
    rewrite length_fmap, Nat2Z.id, Nat.sub_diag, <- app_assoc. f_equal. simpl.
    destruct (drop (length (staying p n)) alt) as [|x d] eqn:D.
    + apply (f_equal length) in D. rewrite length_drop in D. simpl in D. lia.
    + simpl. f_equal. replace (length (staying p n) + 1)%nat with (1 + length (staying p n))%nat by lia.
      rewrite Nat.add_comm, <- drop_drop, D. reflexivity.
  - destruct (Z.eqb_spec (getRTag (tag (ptl p n)) q) NOT_LOCAL) as [_|C]; [|tauto]. simpl. now rewrite app_nil_r, fmap_app.
Qed.

Lemma recompute_rtags_spec p n rtag :
  (forall k k', (k < n)%nat -> (k' < n)%nat -> Z.to_nat (tag (ptl p k)) = Z.to_nat (tag (ptl p k')) -> k = k') ->
  length (recompute_rtags n p rtag) = length rtag /\
  (forall k, (k < n)%nat -> (Z.to_nat (tag (ptl p k)) < length rtag)%nat ->
     recompute_rtags n p rtag !! Z.to_nat (tag (ptl p k)) = Some (Z.of_nat k)) /\
  (forall j, (forall k, (k < n)%nat -> Z.to_nat (tag (ptl p k)) <> j) -> recompute_rtags n p rtag !! j = rtag !! j).
Proof.
  induction n as [|n IH]; intros Inj; [simpl; split_and!; auto; lia|].
  destruct IH as (I1 & I2 & I3); [intros k k' ? ?; apply Inj; lia|]. simpl. fold (ptl p n).
  rewrite length_zset. split_and!; auto.
  - intros k Hk Hl. destruct (decide (k = n)) as [->|D].
    + apply lookup_zset_eq. lia.
    + rewrite lookup_zset_ne by (intros E; apply D; symmetry; apply Inj; auto; lia). apply I2; lia.
  - intros j Hj. rewrite lookup_zset_ne by (apply Hj; lia). apply I3. intros k Hk. apply Hj. lia.
Qed.

(** The reverse lookup rebuilt from the arrays of [q], from a table that holds
    no other local entry. *)
Lemma recompute_rtags_ok high q rtag : wf_mem q ->
  NoDup (local_tags q) -> (forall t, t ∈ local_tags q -> 0 <= t < high) -> high <= Z.of_nat (length rtag) ->
  (forall t, 0 <= t < high -> t ∉ local_tags q -> rtag !! Z.to_nat t = Some NOT_LOCAL) ->
  rtag_ok high (local_tags q) (recompute_rtags (Z.to_nat (m_nparticles q)) q rtag).
Proof.
  intros W ND B L R. pose proof (wf_N q W) as HN. set (n := Z.to_nat (m_nparticles q)).
  assert (Lt : forall k, (k < n)%nat -> local_tags q !! k = Some (tag (ptl q k))).
  { intros k Hk. unfold local_tags. fold n. rewrite <- fmap_element_seq by (auto; lia).
    rewrite !list_lookup_fmap, lookup_seq_lt by lia. reflexivity. }
  assert (Bk : forall k, (k < n)%nat -> 0 <= tag (ptl q k) < high).
  { intros k Hk. apply B. eapply list_elem_of_lookup_2, Lt, Hk. }
  destruct (recompute_rtags_spec q n rtag) as (_ & R2 & R3).
  { intros k k' Hk Hk' E. eapply (NoDup_lookup _ k k'); [exact ND|now apply Lt|].
    rewrite Lt by assumption. f_equal. pose proof (Bk k Hk). pose proof (Bk k' Hk'). lia. }
  apply rtag_ok_rebuild with (rtag := rtag); auto.
  - intros t Ht. now apply B.
  - intros k t Hk. pose proof (lookup_lt_Some _ _ _ Hk) as Lk. rewrite (length_local_tags q W) in Lk. fold n in Lk.
    rewrite Lt in Hk by assumption. injection Hk as <-. apply R2; [assumption|]. pose proof (Bk k Lk). lia.
  - intros t Ht N. apply R3. intros k Hk E. apply N. pose proof (Bk k Hk).
    replace t with (tag (ptl q k)) by lia. eapply list_elem_of_lookup_2, Lt, Hk.
Qed.

(** Operations that only rearrange the arrays and rebuild the reverse lookup. *)
Lemma rebuild_wf p q : wf p -> wf_mem q ->
  m_nglobal q = m_nglobal p -> m_tag_set q = m_tag_set p -> m_recycled_tags q = m_recycled_tags p ->
  m_rtag_size q = m_rtag_size p -> m_cached_tag_set q = m_cached_tag_set p -> m_invalid_cached_tags q = m_invalid_cached_tags p ->
  (forall t, t ∈ local_tags q -> t ∈ m_tag_set p) ->
  rtag_ok (high_water p) (local_tags q) (m_rtag q) -> wf q.
Proof.
  intros W Wm E1 E2 E3 E4 E5 E6 L R. assert (Eh : high_water q = high_water p) by (unfold high_water; congruence).
  destruct W. constructor; rewrite ?Eh, ?E1, ?E2, ?E3, ?E4, ?E5, ?E6; auto.
Qed.

Lemma leaving_flags n p : (n <= length (m_comm_flags p))%nat ->
  List.filter comm_flag_select (take n (m_comm_flags p)) = flag p <$> leaving p n.
Proof.
  induction n as [|n IH]; intros L; [reflexivity|].
  assert (E : m_comm_flags p !! n = Some (flag p n)).
  { unfold flag. rewrite <- (Nat2Z.id n) at 1. apply lookup_zget. lia. }
  rewrite (take_S_r _ _ _ E), List.filter_app, IH by lia. rewrite leaving_S, fmap_app. f_equal.
  unfold comm_flag_select. simpl. destruct (decide (flag p n = 0)) as [->|D]; [reflexivity|].
  destruct (Z.eqb_spec (flag p n) 0); [contradiction|reflexivity].
Qed.

Lemma length_fill_zero a b l : (Z.to_nat a <= Z.to_nat b <= length l)%nat -> length (fill_zero a b l) = length l.
Proof. intros H. unfold fill_zero. rewrite !length_app, length_take, length_replicate, length_drop. lia. Qed.

Section remove_particles.
Variable p : pdata.
Hypothesis W : wf p.
Let n := Z.to_nat (m_nparticles p).

Lemma ptl_local_tags k : (k < n)%nat -> local_tags p !! k = Some (tag (ptl p k)).
Proof.
  intros Hk. pose proof (wf_N p (wf_memory p W)). unfold local_tags. fold n.
  rewrite <- fmap_element_seq by (apply (wf_memory p W) || (unfold n; lia)).
  rewrite !list_lookup_fmap, lookup_seq_lt by lia. reflexivity.
Qed.

Lemma ptl_tag_bounds k : (k < n)%nat -> 0 <= tag (ptl p k) < high_water p.
Proof. intros Hk. apply (wf_local_bounds p W). eapply list_elem_of_lookup_2, ptl_local_tags, Hk. Qed.

Lemma ptl_tag_inj k k' : (k < n)%nat -> (k' < n)%nat -> tag (ptl p k) = tag (ptl p k') -> k = k'.
Proof.
  intros Hk Hk' E. eapply (NoDup_lookup _ k k'); [apply (wf_local_nodup p W)|now apply ptl_local_tags|].
  rewrite ptl_local_tags by assumption. congruence.
Qed.

Let rtag1 := (mark_removed n p (m_rtag p) 0).1.
Let p1 := set_rtag rtag1 (m_rtag_size p) p.

(** After the first pass the reverse lookup marks exactly the leaving particles. *)
Lemma marked_iff k : (k < n)%nat -> getRTag (tag (ptl p k)) p1 = NOT_LOCAL <-> flag p k <> 0.
Proof.
  intros Hk. destruct (mark_removed_spec p n (m_rtag p)) as (_ & _ & M1 & M2). fold rtag1 in M1, M2.
  pose proof (ptl_tag_bounds k Hk) as Bk. pose proof (wf_rtag_length p W _ Bk) as Lk. unfold getRTag. simpl.
  destruct (decide (flag p k = 0)) as [E|E].
  - split; [|contradiction]. rewrite (zget_lookup _ _ _ (Z.of_nat k)).
    + pose proof (wf_N_nglobal p W). pose proof (wf_nglobal_high p W). pose proof (wf_high p W). unfold n, NOT_LOCAL in *. lia.
    + rewrite M2; [apply (wf_rtag p W), ptl_local_tags, Hk|].
      intros k' [F Hk']%elem_of_leaving E'. assert (k' = k); [|subst; contradiction].
      apply ptl_tag_inj; auto. pose proof (ptl_tag_bounds k' Hk'). lia.
  - split; [auto|]. intros _. apply zget_lookup, M1; [apply elem_of_leaving; auto|assumption].
Qed.

Definition staying_particles : list pdata_element := ptl p <$> staying p n.
Definition leaving_particles : list pdata_element := ptl p <$> leaving p n.

Lemma leaving_count : (mark_removed n p (m_rtag p) 0).2 = Z.of_nat (length (leaving p n)).
Proof. apply mark_removed_spec. Qed.

Lemma removeParticles_unfold :
  let m := Z.of_nat (length (staying p n)) in
  let q := set_arrays (staying_particles ++ drop (length (staying p n)) (m_ptl_alt p)) (m_ptl p)
             (fill_zero 0 m (m_comm_flags p)) (set_nparticles m p1) in
  removeParticles p =
  (notifyParticleSort (set_rtag (recompute_rtags (Z.to_nat m) q rtag1) (m_rtag_size p) q),
   leaving_particles, flag p <$> leaving p n).
Proof.
  cbn zeta. unfold removeParticles, getN. fold n.
  rewrite (surjective_pairing (mark_removed n p (m_rtag p) 0)), leaving_count. cbv beta iota. fold rtag1 p1.
  change (m_nparticles p1) with (m_nparticles p).
  pose proof (length_staying p n) as Ls. pose proof (wf_N p (wf_memory p W)) as HN.
  pose proof (wf_N_nglobal p W). pose proof (wf_nglobal_high p W). pose proof (wf_high p W).
  assert (Em : u32 (m_nparticles p - Z.of_nat (length (leaving p n))) = Z.of_nat (length (staying p n))).
  { rewrite u32_small; unfold is_u32, n in *; lia. }
  rewrite Em. rewrite pd_resize_fits; [| |unfold n in *; change (m_max_nparticles p1) with (m_max_nparticles p); lia].
  2: { destruct (wf_memory p W). constructor; auto. }
  cbn [m_ptl_alt set_nparticles]. fold n.
  rewrite (split_particles_spec p).
  - rewrite <- leaving_flags; [reflexivity|]. rewrite (wf_comm p (wf_memory p W)). unfold n. lia.
  - simpl. rewrite (wf_alt p (wf_memory p W)). unfold n. lia.
  - reflexivity.
  - exact marked_iff.
Qed.

Lemma staying_tags t : t ∈ tag <$> staying_particles <-> exists k, (k < n)%nat /\ flag p k = 0 /\ t = tag (ptl p k).
Proof.
  unfold staying_particles. rewrite !list_elem_of_fmap. split.
  - intros (e & -> & (k & -> & [F Hk]%elem_of_staying)%list_elem_of_fmap). eauto.
  - intros (k & Hk & F & ->). exists (ptl p k). split; [reflexivity|]. apply list_elem_of_fmap. exists k.
    split; [reflexivity|]. now apply elem_of_staying.
Qed.

Lemma removeParticles_spec :
  exists q, removeParticles p = (q, leaving_particles, flag p <$> leaving p n) /\ wf q /\
    m_nparticles q = Z.of_nat (length (staying p n)) /\ m_max_nparticles q = m_max_nparticles p /\
    take (length (staying p n)) (m_ptl q) = staying_particles /\
    m_tag_set q = m_tag_set p /\ m_recycled_tags q = m_recycled_tags p /\ m_nglobal q = m_nglobal p /\
    (forall k, (k < length (staying p n))%nat -> m_comm_flags q !! k = Some 0).
Proof.
  pose proof removeParticles_unfold as U. cbn zeta in U. set (q0 := set_arrays _ _ _ _) in U.
  eexists. split; [exact U|]. pose proof (length_staying p n) as Ls.
  pose proof (wf_N p (wf_memory p W)) as HN. pose proof (wf_high_length p W) as HL.
  assert (Tk : take (length (staying p n)) (m_ptl q0) = staying_particles).
  { unfold q0. simpl. apply take_app_length'. unfold staying_particles. now rewrite length_fmap. }
  assert (Wq : wf_mem q0).
  { destruct (wf_memory p W). constructor; unfold q0; simpl; auto; [unfold n in *; lia| |].
    - rewrite length_app, length_drop. unfold staying_particles. rewrite length_fmap. unfold n in *. lia.
    - rewrite length_fill_zero; [assumption|]. unfold n in *. lia. }
  assert (Lq : local_tags q0 = tag <$> staying_particles).
  { unfold local_tags. change (m_nparticles q0) with (Z.of_nat (length (staying p n))). now rewrite Nat2Z.id, Tk. }
  split_and!; auto.
  - apply (rebuild_wf p); auto.
    + destruct Wq. constructor; auto.
    + change (local_tags _) with (local_tags q0). rewrite Lq. intros t (k & Hk & _ & ->)%staying_tags.
      apply (wf_active p W). eapply list_elem_of_lookup_2, ptl_local_tags, Hk.
    + change (local_tags _) with (local_tags q0). simpl.
      apply (recompute_rtags_ok (high_water p) q0 rtag1 Wq).
      * rewrite Lq. unfold staying_particles. rewrite <- list_fmap_compose. apply NoDup_fmap_2_strong.
        -- intros k k' [_ Hk]%elem_of_staying [_ Hk']%elem_of_staying. now apply ptl_tag_inj.
        -- unfold staying. apply NoDup_filter, NoDup_seq.
      * rewrite Lq. intros t (k & Hk & _ & ->)%staying_tags. now apply ptl_tag_bounds.
      * unfold rtag1. destruct (mark_removed_spec p n (m_rtag p)) as (_ & -> & _). assumption.
      * intros t Ht N. rewrite Lq in N. destruct (mark_removed_spec p n (m_rtag p)) as (_ & _ & M1 & M2). fold rtag1 in M1, M2.
        destruct (decide (t ∈ local_tags p)) as [[k Hk]%list_elem_of_lookup_1|A].
        -- pose proof (lookup_lt_Some _ _ _ Hk) as Lk. rewrite (length_local_tags p (wf_memory p W)) in Lk. fold n in Lk.
           rewrite ptl_local_tags in Hk by assumption. injection Hk as <-. apply M1; [|now apply (wf_rtag_length p W)].
           apply elem_of_leaving. split; [|assumption]. intros F. apply N, staying_tags. eauto.
        -- rewrite M2; [now apply (rtag_ok_absent _ _ _ t (wf_rtag p W))|].
           intros k [_ Hk]%elem_of_leaving E. apply A. pose proof (ptl_tag_bounds k Hk).
           replace t with (tag (ptl p k)) by lia. eapply list_elem_of_lookup_2, ptl_local_tags, Hk.
  - intros k Hk. unfold q0. simpl. unfold fill_zero. simpl. rewrite lookup_app_l by (rewrite length_replicate; lia).
    rewrite lookup_replicate. split; [reflexivity|lia].
Qed.

End remove_particles.

Lemma append_elements_spec input n l : 0 <= n -> (Z.to_nat n + length input <= length l)%nat ->
  append_elements n l input = take (Z.to_nat n) l ++ input ++ drop (Z.to_nat n + length input) l.
Proof.
  revert n l. induction input as [|e input IH]; intros n l Hn L; simpl.
  - now rewrite Nat.add_0_r, take_drop.
  - simpl in L. rewrite IH by (rewrite ?length_zset; lia). unfold zset.
    replace (Z.to_nat (n + 1)) with (S (Z.to_nat n)) by lia.
    rewrite (take_S_r _ _ e) by (apply list_lookup_insert_eq; lia).
    rewrite take_insert_ge by lia. rewrite drop_insert_lt by lia. rewrite <- app_assoc. simpl. do 4 f_equal. lia.
Qed.

(** The particles of [p], as the arrays hold them. *)
Definition particles (p : pdata) : list pdata_element := take (Z.to_nat (m_nparticles p)) (m_ptl p).

Section add_particles.
Variables (p : pdata) (input : list pdata_element).
Hypothesis W : wf p.
Hypothesis ND : NoDup (local_tags p ++ (tag <$> input)).
Hypothesis Act : forall t, t ∈ tag <$> input -> t ∈ m_tag_set p.

Lemma add_room : m_nparticles p + Z.of_nat (length input) <= 2 ^ 31.
Proof.
  pose proof (wf_N p (wf_memory p W)). pose proof (wf_nglobal_high p W). pose proof (wf_high p W).
  pose proof (length_local_tags p (wf_memory p W)) as L.
  assert (length (local_tags p ++ (tag <$> input)) <= length (m_tag_set p))%nat as LL.
  { apply submseteq_length, NoDup_submseteq; [assumption|]. intros t [H'|H']%elem_of_app; auto. now apply (wf_active p W). }
  rewrite length_app, length_fmap in LL. rewrite (wf_nglobal p W) in *. lia.
Qed.

Lemma addParticles_spec :
  wf (addParticles input p) /\
  m_nparticles (addParticles input p) = m_nparticles p + Z.of_nat (length input) /\
  m_tag_set (addParticles input p) = m_tag_set p /\
  (exists old, particles (addParticles input p) = old ++ input /\ kinematic <$> old = kinematic <$> particles p) /\
  (m_nparticles p + Z.of_nat (length input) <= m_max_nparticles p ->
   particles (addParticles input p) = particles p ++ input).
Proof.
  pose proof add_room as Room. pose proof (wf_memory p W) as Wm. pose proof (wf_N p Wm) as HN.
  unfold addParticles, getN. rewrite u32_small by (unfold is_u32; lia). set (m := m_nparticles p + Z.of_nat (length input)) in *.
  destruct (pd_resize_spec m p Wm ltac:(lia)) as (Wr & Rn & (S1&S2&S3&S4&S5&S6&S7&S8) & Rm & Rk & Rf & [cf Rc]).
  set (r := pd_resize m p) in *. pose proof (wf_N r Wr) as HNr. pose proof (wf_ptl r Wr) as Lr. rewrite Rn in HNr.
  rewrite append_elements_spec by lia. set (n := Z.to_nat (m_nparticles p)) in *.
  set (l := take n (m_ptl r) ++ input ++ drop (n + length input) (m_ptl r)).
  set (q0 := set_comm_flags _ (set_ptl l r)).
  assert (Wq : wf_mem q0).
  { destruct Wr. constructor; unfold q0; simpl; auto.
    - unfold l. rewrite !length_app, length_take, length_drop. lia.
    - rewrite length_fill_zero; [assumption|]. rewrite wf_comm0. lia. }
  assert (Ko : kinematic <$> take n (m_ptl r) = kinematic <$> particles p).
  { unfold particles. fold n. rewrite !fmap_take, <- Rk, fmap_take, take_take. f_equal. lia. }
  assert (Lo : length (take n (m_ptl r)) = n) by (rewrite length_take; lia).
  assert (Pq : particles q0 = take n (m_ptl r) ++ input).
  { unfold particles, q0. simpl. rewrite Rn. replace (Z.to_nat m) with (n + length input)%nat by lia. unfold l.
    rewrite app_assoc. apply take_app_length'. rewrite length_app. lia. }
  assert (Lq : local_tags q0 = local_tags p ++ (tag <$> input)).
  { change (local_tags q0) with (tag <$> particles q0). rewrite Pq, fmap_app. f_equal.
    rewrite <- fmap_kinematic_tag, Ko, fmap_kinematic_tag. reflexivity. }
  assert (Bq : forall t, t ∈ local_tags q0 -> t ∈ m_tag_set p).
  { rewrite Lq. intros t [H|H]%elem_of_app; [now apply (wf_active p W)|auto]. }
  split_and!.
  - apply (rebuild_wf p); auto; try (unfold q0; simpl; congruence).
    + destruct Wq. constructor; auto.
    + change (local_tags (notifyParticleSort _)) with (local_tags q0).
      apply (recompute_rtags_ok (high_water p) q0 (m_rtag q0) Wq).
      * now rewrite Lq.
      * intros t Ht. now apply (wf_tag_bounds p W), Bq.
      * change (m_rtag q0) with (m_rtag r). rewrite S2. apply (wf_high_length p W).
      * intros t Ht N. change (m_rtag q0) with (m_rtag r). rewrite S2.
        apply (rtag_ok_absent _ _ _ t (wf_rtag p W) Ht). intros H. apply N. rewrite Lq. apply elem_of_app. auto.
  - simpl. assumption.
  - simpl. assumption.
  - exists (take n (m_ptl r)). auto.
  - intros Fit. change (particles (notifyParticleSort _)) with (particles q0). rewrite Pq. f_equal.
    rewrite (Rf Fit). reflexivity.
Qed.

End add_particles.

(** * Loading a snapshot *)

Lemma insert_tags_spec count start s : StronglySorted Z.lt s -> (forall x, x ∈ s -> x < start) ->
  insert_tags start count s = s ++ seqZ start (Z.of_nat count).
Proof.
  revert start s. induction count as [|count IH]; intros start s S H; simpl.
  { unfold seqZ. simpl. now rewrite app_nil_r. }
  assert (E : set_insert start s = s ++ [start]).
  { clear IH S. induction s as [|y s IHs]; [reflexivity|]. simpl. assert (y < start) by (apply H; left).
    destruct (Z.ltb_spec start y); [lia|]. destruct (Z.eqb_spec start y); [lia|]. f_equal. apply IHs. intros x Hx. apply H. now right. }
  rewrite E, IH.
  - rewrite <- app_assoc. f_equal. rewrite (seqZ_cons start) by lia. simpl. f_equal. f_equal; lia.
  - apply StronglySorted_app. split_and!; auto; [|repeat constructor].
    intros a b Ha Hb%list_elem_of_singleton. subst. auto.
  - intros x [Hx|Hx%list_elem_of_singleton]%elem_of_app; [specialize (H x Hx); lia|lia].
Qed.

(** The particles a load keeps. *)
Definition loaded (ignore_bodies : bool) (l : list snap_ptl) : list snap_ptl :=
  filter (fun s => ignore_bodies = false \/ s_body s = NO_BODY) l.

Lemma loaded_cons ib s l :
  loaded ib (s :: l) = if ib && negb (s_body s =? NO_BODY) then loaded ib l else s :: loaded ib l.
Proof.
  unfold loaded. rewrite filter_cons. destruct (decide (ib = false \/ s_body s = NO_BODY)) as [D|D];
    destruct (Z.eqb_spec (s_body s) NO_BODY), ib; simpl; try reflexivity; exfalso; intuition congruence.
Qed.

Lemma loaded_all l : loaded false l = l.
Proof. unfold loaded. induction l as [|s l IH]; [reflexivity|]. rewrite filter_cons_True by auto. now rewrite IH. Qed.

Lemma load_loop_spec ib l : forall ptl rtag n mt, 0 <= n ->
  (Z.to_nat n + length (loaded ib l) <= length ptl)%nat -> (Z.to_nat n + length (loaded ib l) <= length rtag)%nat ->
  let r := load_loop ib l ptl rtag n mt in
  length r.1.1.1 = length ptl /\ length r.1.1.2 = length rtag /\
  r.1.2 = n + Z.of_nat (length (loaded ib l)) /\
  r.2 = foldl (fun m s => Z.max m (s_type s)) mt (loaded ib l) /\
  (forall j, (j < Z.to_nat n)%nat -> r.1.1.1 !! j = ptl !! j /\ r.1.1.2 !! j = rtag !! j) /\
  (forall j s, loaded ib l !! j = Some s ->
     (exists stale, r.1.1.1 !! (Z.to_nat n + j)%nat = Some (load_element s (n + Z.of_nat j) stale)) /\
     r.1.1.2 !! (Z.to_nat n + j)%nat = Some (n + Z.of_nat j)).
Proof.
  induction l as [|s l IH]; intros ptl rtag n mt Hn Lp Lr.
  { simpl in *. split_and!; auto; [lia|]. intros j s H. discriminate H. }
  cbn zeta. simpl load_loop. rewrite loaded_cons in *. destruct (ib && negb (s_body s =? NO_BODY)); [now apply IH|].
  simpl length in *. set (e := load_element s n _). set (ptl' := zset ptl n e). set (rtag' := zset rtag n n).
  assert (L1 : length ptl' = length ptl) by apply length_zset. assert (L2 : length rtag' = length rtag) by apply length_zset.
  destruct (IH ptl' rtag' (n + 1) (Z.max mt (s_type s))) as (I1 & I2 & I3 & I4 & I5 & I6); [lia..|].
  set (r := load_loop ib l ptl' rtag' (n + 1) (Z.max mt (s_type s))) in *.
  split_and!; try congruence; [lia|exact I4| |].
  - intros j Hj. destruct (I5 j ltac:(lia)) as [-> ->]. unfold ptl', rtag'. now rewrite !lookup_zset_ne by lia.
  - intros [|j] s' Hs; simpl in Hs.
    + injection Hs as <-. rewrite Nat.add_0_r, Z.add_0_r. destruct (I5 (Z.to_nat n) ltac:(lia)) as [-> ->].
      unfold ptl', rtag', e. rewrite !lookup_zset_eq by lia. eauto.
    + destruct (I6 j s' Hs) as [[st E1] E2]. replace (Z.to_nat n + S j)%nat with (Z.to_nat (n + 1) + j)%nat by lia.
      replace (n + Z.of_nat (S j)) with (n + 1 + Z.of_nat j) by lia. eauto.
Qed.

Lemma length_loaded ib l : (length (loaded ib l) <= length l)%nat.
Proof. apply length_filter. Qed.

(** The particle data a load leaves, whatever it then reports. *)
Section load.
Variables (sn : snapshot) (ib : bool) (p : pdata).
Hypothesis Wm : wf_mem p.
Hypothesis Rank : m_rank p = 0.
Hypothesis Size : Z.of_nat (length (sn_ptl sn)) <= 2 ^ 31.

Let l := loaded ib (sn_ptl sn).
Let q := (initializeFromSnapshot sn ib p).1.

Let p0 := set_cache (m_cached_tag_set p) true
            (rtag_resize (Z.of_nat (length (sn_ptl sn))) (set_recycled [] (set_tag_set [] (removeAllGhostParticles p)))).
Let p1 := pd_resize (Z.of_nat (length (sn_ptl sn))) p0.
Let r := load_loop ib (sn_ptl sn) (m_ptl p1) (m_rtag p1) 0 0.

Lemma load_unfold :
  (initializeFromSnapshot sn ib p).1 =
    resetOrigin (notifyParticleSort (setNGlobal r.1.2 (set_accel_set (sn_is_accel_set sn) (set_type_mapping (sn_type_mapping sn)
      (rtag_resize r.1.2 (set_tag_set (insert_tags 0 (Z.to_nat r.1.2) (m_tag_set p1))
        (set_nparticles r.1.2 (set_rtag r.1.1.2 (m_rtag_size p1) (set_ptl r.1.1.1 p1))))))))) /\
  ((initializeFromSnapshot sn ib p).2 = Ok tt <->
     length (sn_ptl sn) = 0%nat \/ r.2 < Z.of_nat (length (sn_type_mapping sn))).
Proof.
  unfold initializeFromSnapshot. fold p0 p1.
  change (m_cached_tag_set (rtag_resize _ _)) with (m_cached_tag_set p). fold p0. fold p1. fold r.
  destruct r as [[[a b] c] d]. cbn [fst snd]. cbv zeta. simpl. unfold getNTypes. simpl.
  destruct (Z.of_nat (length (sn_ptl sn)) =? 0) eqn:E1; zbool; simpl; [split; [reflexivity|]; split; [left; lia|reflexivity]|].
  destruct (d >=? Z.of_nat (length (sn_type_mapping sn))) eqn:E2; zbool; split; try reflexivity; split; intros H; try discriminate H || lia || reflexivity || (right; lia).
Qed.

Lemma load_room : wf_mem p1 /\ same_tags p0 p1 /\ (length l <= Z.to_nat (m_max_nparticles p1))%nat /\
  (length l <= length (m_rtag p1))%nat /\ Z.of_nat (length l) <= 2 ^ 31.
Proof.
  assert (W0 : wf_mem p0) by (destruct Wm; constructor; auto).
  destruct (pd_resize_spec (Z.of_nat (length (sn_ptl sn))) p0 W0 ltac:(lia)) as (W1 & N1 & S & _). fold p1 in W1, N1, S.
  pose proof (wf_N p1 W1). pose proof (length_loaded ib (sn_ptl sn)) as L. fold l in L.
  split_and!; auto; try lia. destruct S as (_ & -> & _). unfold p0. simpl. rewrite length_app, length_replicate. lia.
Qed.

(** What the loop leaves in the arrays and in the reverse lookup. *)
Lemma load_result :
  length r.1.1.1 = Z.to_nat (m_max_nparticles p1) /\ length r.1.1.2 = length (m_rtag p1) /\ r.1.2 = Z.of_nat (length l) /\
  r.2 = foldl (fun m s => Z.max m (s_type s)) 0 l /\
  (forall j s, l !! j = Some s ->
     (exists stale, r.1.1.1 !! j = Some (load_element s (Z.of_nat j) stale)) /\ r.1.1.2 !! j = Some (Z.of_nat j)).
Proof.
  destruct load_room as (W1 & _ & L1 & L2 & _). pose proof (wf_ptl p1 W1) as Lp.
  destruct (load_loop_spec ib (sn_ptl sn) (m_ptl p1) (m_rtag p1) 0 0) as (A1 & A2 & A3 & A4 & _ & A6); fold l; [lia|simpl; lia..|].
  fold r in A1, A2, A3, A4, A6. split_and!; auto; congruence.
Qed.

Lemma load_fields :
  m_nparticles q = Z.of_nat (length l) /\ m_max_nparticles q = m_max_nparticles p1 /\ m_ptl q = r.1.1.1 /\
  m_rtag q = r.1.1.2 /\ m_rtag_size q = Z.of_nat (length l) /\ m_tag_set q = seqZ 0 (Z.of_nat (length l)) /\
  m_recycled_tags q = [] /\ m_nglobal q = Z.of_nat (length l) /\ m_invalid_cached_tags q = true /\ m_rank q = 0 /\
  m_ptl_alt q = m_ptl_alt p1 /\ m_comm_flags q = m_comm_flags p1 /\ m_arrays_allocated q = true /\
  m_origin q = BoxDim.zero3 /\ m_o_image q = zero_i3 /\ m_type_mapping q = sn_type_mapping sn /\ m_accel_set q = sn_is_accel_set sn.
Proof.
  destruct load_unfold as [U _]. fold q in U. rewrite U. destruct load_room as (W1 & (S1&S2&S3&S4&S5&S6&S7&S8) & L1 & L2 & _).
  destruct load_result as (A1 & A2 & A3 & _). rewrite A3. simpl. rewrite S4, Nat2Z.id.
  split_and!; auto.
  - replace (length l - length r.1.1.2)%nat with 0%nat by lia. simpl. apply app_nil_r.
  - rewrite insert_tags_spec; [reflexivity|constructor|]. intros x H. now apply elem_of_nil in H.
  - rewrite S8. exact Rank.
  - apply (wf_alloc p1 W1).
Qed.

Lemma load_lookup j s : l !! j = Some s -> exists stale, m_ptl q !! j = Some (load_element s (Z.of_nat j) stale).
Proof. intros H. destruct load_fields as (_ & _ & -> & _). now apply load_result. Qed.

Lemma load_local_tags : local_tags q = seqZ 0 (Z.of_nat (length l)).
Proof.
  unfold local_tags. destruct load_fields as (-> & _). rewrite Nat2Z.id. apply list_eq. intros j.
  rewrite list_lookup_fmap. destruct (decide (j < length l)%nat) as [L|G].
  - destruct (lookup_lt_is_Some_2 l j L) as [s Hs]. destruct (load_lookup j s Hs) as [st E].
    rewrite lookup_take_lt, E by lia. simpl. symmetry. apply lookup_seqZ. lia.
  - rewrite lookup_take_ge by lia. simpl. symmetry. apply lookup_seqZ_ge. lia.
Qed.

Lemma load_wf : wf q /\ serial q.
Proof.
  destruct load_fields as (F1 & F2 & F3 & F4 & F5 & F6 & F7 & F8 & F9 & F10 & F11 & F12 & F13 & _).
  destruct load_room as (W1 & _ & L1 & L2 & L3). destruct load_result as (A1 & A2 & _ & _ & A5).
  pose proof load_local_tags as Lt.
  assert (Hw : high_water q = Z.of_nat (length l)) by (unfold high_water; rewrite F7, F8; simpl; lia).
  assert (Es : forall t, t ∈ seqZ 0 (Z.of_nat (length l)) <-> 0 <= t < Z.of_nat (length l)) by (intros t; rewrite elem_of_seqZ; lia).
  split; [|split; [assumption|rewrite F6, Lt; auto]]. constructor; rewrite ?Hw, ?F5, ?F6, ?F7, ?F8, ?F9, ?Lt; auto.
  - destruct W1. constructor; rewrite ?F1, ?F2, ?F3, ?F11, ?F12; auto; lia.
  - clear. generalize 0 at 1. induction (length l) as [|n IH]; intros a; [constructor|].
    rewrite seqZ_cons by lia. replace (Z.pred (Z.of_nat (S n))) with (Z.of_nat n) by lia. constructor; [apply IH|].
    apply Forall_forall. intros x. rewrite elem_of_seqZ. lia.
  - rewrite length_seqZ. lia.
  - constructor.
  - intros t _. apply not_elem_of_nil.
  - intros t. rewrite Es. split; [intros [?|H]; [assumption|now apply elem_of_nil in H]|auto].
  - intros t. rewrite Es. lia.
  - lia.
  - split.
    + intros i t Hi. apply lookup_seqZ in Hi as [-> Hi]. destruct (lookup_lt_is_Some_2 l i ltac:(lia)) as [s Hs].
      rewrite F4. replace (Z.to_nat (0 + Z.of_nat i)) with i by lia. now apply (A5 i s).
    + intros t Ht. destruct (lookup_lt_is_Some_2 l (Z.to_nat t) ltac:(lia)) as [s Hs]. exists t. rewrite F4.
      destruct (A5 _ s Hs) as [_ ->]. split; [f_equal; lia|right]. split; [lia|]. apply lookup_seqZ. lia.
  - discriminate.
Qed.

End load.

(** * Access by tag *)

Section access.
Variables (p : pdata) (t : Z).
Hypothesis W : wf p.
Hypothesis Loc : t ∈ local_tags p.

Lemma read_local_found {A} (d : A) f : read_local t d f p = f (element (getRTag t p) p).
Proof.
  unfold read_local. destruct (wf_getRTag p W t Loc) as [B _].
  assert ((getRTag t p <? getN p) = true) as -> by (apply Z.ltb_lt; unfold getN; lia). reflexivity.
Qed.

Lemma update_local_found f :
  update_local t f p = set_ptl (zset (m_ptl p) (getRTag t p) (f (element (getRTag t p) p))) p.
Proof.
  unfold update_local. destruct (wf_getRTag p W t Loc) as [B _].
  assert ((getRTag t p <? getN p) = true) as -> by (apply Z.ltb_lt; unfold getN; lia). reflexivity.
Qed.

Lemma update_local_element f i : 0 <= i < m_nparticles p ->
  element i (update_local t f p) = if i =? getRTag t p then f (element i p) else element i p.
Proof.
  intros Hi. rewrite update_local_found. destruct (wf_getRTag p W t Loc) as [B _].
  pose proof (wf_ptl p (wf_memory p W)). pose proof (wf_N p (wf_memory p W)). unfold element. simpl.
  destruct (Z.eqb_spec i (getRTag t p)) as [->|D]; apply zget_lookup.
  - rewrite lookup_zset_eq by lia. reflexivity.
  - rewrite lookup_zset_ne by lia. apply lookup_zget. lia.
Qed.

End access.

Lemma update_local_wf t f p : (forall e, tag (f e) = tag e) -> wf p ->
  wf (update_local t f p) /\ local_tags (update_local t f p) = local_tags p.
Proof.
  intros Ft W. unfold update_local. destruct (getRTag t p <? getN p) eqn:E; [|auto]. set (q := set_ptl _ p).
  assert (Lt : local_tags q = local_tags p).
  { unfold local_tags, q. simpl. apply list_eq. intros i. rewrite !list_lookup_fmap.
    destruct (decide (i < Z.to_nat (m_nparticles p))%nat) as [L|G]; [|now rewrite !lookup_take_ge by lia].
    pose proof (wf_ptl p (wf_memory p W)) as Lp. pose proof (wf_N p (wf_memory p W)).
    rewrite !lookup_take_lt by lia. destruct (decide (Z.to_nat (getRTag t p) = i)) as [<-|D].
    - rewrite lookup_zset_eq by lia. unfold element. rewrite (lookup_zget zero_element) by lia. simpl. f_equal. apply Ft.
    - now rewrite lookup_zset_ne. }
  split; [|assumption]. apply (rebuild_wf p); auto.
  - destruct (wf_memory p W). constructor; unfold q; simpl; rewrite ?length_zset; auto.
  - rewrite Lt. apply (wf_active p W).
  - rewrite Lt. apply (wf_rtag p W).
Qed.

(** * Reachable states *)

(** A run of the particle data of a simulation without a domain decomposition:
    any sequence of its state-changing operations. *)
Inductive step : pdata -> pdata -> Prop :=
| step_add type p : high_water p < 2 ^ 31 -> step p (addParticle type p).2
| step_remove t p : 0 <= t -> step p (removeParticle None t p).1
| step_nth n p : step p (getNthTag n p).1
| step_load sn ib p : Z.of_nat (length (sn_ptl sn)) <= 2 ^ 31 -> step p (initializeFromSnapshot sn ib p).1
| step_position t v p : step p (setPosition t v p)
| step_velocity t v p : step p (setVelocity t v p)
| step_image t v p : step p (setImage t v p)
| step_charge t v p : step p (setCharge t v p)
| step_mass t v p : step p (setMass t v p)
| step_diameter t v p : step p (setDiameter t v p)
| step_body t v p : step p (setBody t v p)
| step_type t v p : step p (setType t v p)
| step_orientation t v p : step p (setOrientation t v p)
| step_angmom t v p : step p (setAngularMomentum t v p)
| step_inertia t v p : step p (setMomentsOfInertia t v p)
| step_origin a p : step p (translateOrigin a p)
| step_reset p : step p (resetOrigin p)
| step_box b p : step p (setGlobalBox b p)
| step_type_name type name p q : setTypeName type name p = Ok q -> step p q.

Definition ok (p : pdata) : Prop := wf p /\ serial p.

(** Changes outside the bookkeeping. *)
Lemma ok_same p q : m_arrays_allocated q = m_arrays_allocated p -> m_nparticles q = m_nparticles p ->
  m_max_nparticles q = m_max_nparticles p -> m_ptl q = m_ptl p -> m_ptl_alt q = m_ptl_alt p -> m_comm_flags q = m_comm_flags p ->
  same_tags p q -> ok p -> ok q.
Proof.
  intros A1 A2 A3 A4 A5 A6 (S1&S2&S3&S4&S5&S6&S7&S8) [W [R L]].
  assert (Lt : local_tags q = local_tags p) by (unfold local_tags; congruence).
  split; [|split; [congruence|rewrite Lt, S4; assumption]]. apply (rebuild_wf p); auto.
  - destruct (wf_memory p W). constructor; congruence || (rewrite A2, A3; assumption).
  - rewrite Lt. apply (wf_active p W).
  - rewrite Lt, S2. apply (wf_rtag p W).
Qed.

Lemma ok_update t f p : (forall e, tag (f e) = tag e) -> ok p -> ok (update_local t f p).
Proof.
  intros Ft [W [R L]]. destruct (update_local_wf t f p Ft W) as [W' Lt]. split; [assumption|]. unfold serial. rewrite Lt.
  unfold update_local. destruct (_ <? _); auto.
Qed.

Lemma ok_add type p : high_water p < 2 ^ 31 -> ok p -> ok (addParticle type p).2.
Proof.
  intros H [W [R L]]. destruct (addParticle_wf type p W H) as (W' & _ & _ & Es & _ & Er & _ & A). cbn zeta in *.
  destruct (A R) as (Lt & _). split; [assumption|]. split; [congruence|]. rewrite Es, Lt.
  intros s [->|Hs]%elem_of_set_insert; apply elem_of_app; [right; left|auto].
Qed.

Lemma serial_available p t : ok p -> 0 <= t -> t < m_rtag_size p -> available p t None = true <-> t ∈ m_tag_set p.
Proof.
  intros [W [_ L]] H0 H1. unfold available. rewrite (local_iff p t W) by lia. split; [apply (wf_active p W)|apply L].
Qed.

Lemma ok_remove t p : 0 <= t -> ok p -> ok (removeParticle None t p).1.
Proof.
  intros H O. pose proof O as [W [R L]].
  destruct (removeParticle_wf None t p W H) as (W' & _ & B & C); [intros; now apply serial_available|]. cbn zeta in *.
  split; [assumption|]. split.
  - rewrite removeParticle_unfold. repeat (destruct (_ : bool); [assumption|]).
    unfold retire. simpl. unfold take_out. destruct (_ <? getN p); [|assumption].
    match goal with |- m_rank (pd_resize ?n ?q) = 0 => assert (Q : m_rank q = 0) by (destruct (_ <? _); assumption) end.
    unfold pd_resize. cbn zeta. case_all; unfold pd_reallocate; case_all; assumption.
  - destruct (removeParticle None t p) as [q [[]|e]]; simpl in *.
    + destruct (B eq_refl) as (E & _ & _ & M). rewrite E. intros s [D Hs]%elem_of_set_erase. apply M. auto.
    + destruct (C ltac:(discriminate)) as [->| ->]; exact L.
Qed.

Lemma ok_nth n p : ok p -> ok (getNthTag n p).1.
Proof.
  intros [W S]. unfold getNthTag, maybe_rebuild_tag_cache. destruct (_ >=? _); [now split|].
  destruct (m_invalid_cached_tags p); simpl; [|now split]. split; [|exact S].
  destruct W as [[] ?]. constructor; [constructor|..]; auto.
Qed.

Lemma ok_load sn ib p : Z.of_nat (length (sn_ptl sn)) <= 2 ^ 31 -> ok p -> ok (initializeFromSnapshot sn ib p).1.
Proof. intros H [W [R _]]. apply load_wf; auto. apply (wf_memory p W). Qed.

Lemma step_ok p q : step p q -> ok p -> ok q.
Proof.
  destruct 1; intros O; unfold setVelocity, setImage, setCharge, setMass, setDiameter, setBody, setOrientation,
    setAngularMomentum, setMomentsOfInertia; try (apply ok_update; [reflexivity|assumption]).
  - now apply ok_add.
  - now apply ok_remove.
  - now apply ok_nth.
  - now apply ok_load.
  - unfold setPosition. destruct (BoxDim.wrap _ _ _ _). now apply ok_update.
  - unfold setType. destruct (_ <? _); [|assumption]. apply (ok_same (update_local t (e_type v) p)); try reflexivity; [repeat split|].
    now apply ok_update.
  - unfold translateOrigin. destruct (BoxDim.wrap _ _ _ _). apply (ok_same p); try reflexivity; [repeat split|assumption].
  - apply (ok_same p); try reflexivity; [repeat split|assumption].
  - apply (ok_same p); try reflexivity; [repeat split|assumption].
  - unfold setTypeName in H. destruct (_ >=? _); [discriminate|]. injection H as <-.
    apply (ok_same p); try reflexivity; [repeat split|assumption].
Qed.

Lemma steps_ok p q : rtc step p q -> ok p -> ok q.
Proof. induction 1 as [|p q r S _ IH]; [auto|]. intros O. apply IH. eapply step_ok; eassumption. Qed.

(** The [n]-th active tag. *)
Lemma getNthTag_spec n p : wf p -> 0 <= n < m_nglobal p ->
  exists t, (getNthTag n p).2 = Ok t /\ m_tag_set p !! Z.to_nat n = Some t.
Proof.
  intros W H. unfold getNthTag, maybe_rebuild_tag_cache. unfold getNGlobal.
  destruct (n >=? m_nglobal p) eqn:E; zbool; [lia|]. pose proof (wf_nglobal p W).
  destruct (lookup_lt_is_Some_2 (m_tag_set p) (Z.to_nat n) ltac:(lia)) as [t Ht]. exists t. split; [|assumption].
  destruct (m_invalid_cached_tags p) eqn:C; simpl; f_equal; apply zget_lookup; [assumption|]. now rewrite (wf_cache p W C).
Qed.
