(* ===== verification/ParticleDataSpec.v ===== *)
(** The properties of the particle data: the bookkeeping invariant in every
    reachable state, what adding, removing, migrating and loading particles does
    to the particles, and the accessors. *)

From Stdlib Require Import ZArith Lia QArith String Sorted.
From stdpp Require Import base list list_numbers sorting gmap.
From S2P Require Import Prelude HOOMDMath BoxDim ParticleData ParticleDataProps.
Local Open Scope Z_scope.
Local Open Scope hoomd_scope.

(** The particle a tag names. *)
Definition particle (t : Z) (p : pdata) : pdata_element := element (getRTag t p) p.

Lemma getRTag_at p i t : wf p -> local_tags p !! i = Some t -> getRTag t p = Z.of_nat i.
Proof. intros W H. apply zget_lookup. now apply (wf_rtag p W). Qed.

Lemma element_lookup p i : wf_mem p -> 0 <= i < m_nparticles p -> local_tags p !! Z.to_nat i = Some (tag (element i p)).
Proof.
  intros W H. pose proof (wf_N p W). unfold local_tags. rewrite list_lookup_fmap, lookup_take_lt by lia.
  rewrite (lookup_zget zero_element) by (rewrite (wf_ptl p W); lia). reflexivity.
Qed.

(** * Example data *)

Definition fresh : pdata :=
  mkPD 0 0 0 0 [] [] [] [] 0 [] [] [] true [] false BoxDim.zero3 zero_i3 example_box true 0 [].

Definition snap_at (x : Z) (type body : Z) : snap_ptl :=
  mkSnap (make_scalar3 (inject_Z x) 0 0) BoxDim.zero3 BoxDim.zero3 type 1 0 1 zero_i3 body
    (make_scalar4 1 0 0 0) (make_scalar4 0 (inject_Z x) 0 0) (make_scalar3 1 1 (inject_Z x)).

Definition three : snapshot :=
  mkSnapshot [snap_at 1 0 NO_BODY; snap_at 2 1 NO_BODY; snap_at 3 0 NO_BODY] ["A"; "B"]%string false.

Definition loaded3 : pdata := (initializeFromSnapshot three false fresh).1.

Lemma fresh_mem : wf_mem fresh.
Proof. constructor; simpl; auto; lia. Qed.

Lemma loaded3_ok : ok loaded3.
Proof. apply (load_wf three false fresh); [apply fresh_mem|reflexivity|vm_compute; discriminate]. Qed.

(** * Properties *)

(** C1. In every state reachable from a loaded snapshot by adding and removing
    particles, querying tags, loading further snapshots, setting properties and
    moving the origin, the tags of the local particles are distinct, the active
    tags are exactly those tags, the reverse lookup and the tag array are mutually
    inverse, and the local, global and active counts agree. *)
Theorem ParticleData_reachable (sn : snapshot) (ib : bool) (p0 q : pdata)
  (M : wf_mem p0) (Rank : m_rank p0 = 0) (Size : Z.of_nat (length (sn_ptl sn)) <= 2 ^ 31)
  (Run : rtc step (initializeFromSnapshot sn ib p0).1 q) :
  NoDup (local_tags q) /\
  (forall t, t ∈ m_tag_set q <-> t ∈ local_tags q) /\
  (forall t, t ∈ m_tag_set q -> 0 <= getRTag t q < getN q /\ tag (particle t q) = t) /\
  (forall i, 0 <= i < getN q -> getRTag (tag (element i q)) q = i) /\
  getN q = getNGlobal q /\ getNGlobal q = Z.of_nat (length (m_tag_set q)) /\ getN q <= m_max_nparticles q.
Proof.
  assert (O : ok q) by (eapply steps_ok; [exact Run|now apply load_wf]). destruct O as [W S].
  split_and!.
  - apply (wf_local_nodup q W).
  - intros t. split; [apply S|apply (wf_active q W)].
  - intros t Ht. destruct (wf_getRTag q W t (proj2 S t Ht)) as (B & _ & E). auto.
  - intros i Hi. rewrite (getRTag_at q (Z.to_nat i)); [lia|assumption|]. apply element_lookup; [apply (wf_memory q W)|assumption].
  - now apply serial_N.
  - apply (wf_nglobal q W).
  - apply (wf_N q (wf_memory q W)).
Qed.

Lemma remove_add_run p : high_water (removeParticle None 0 p).1 < 2 ^ 31 ->
  rtc step p (addParticle 1 (removeParticle None 0 p).1).2.
Proof.
  intros H. apply (rtc_l step p (removeParticle None 0 p).1); [apply step_remove; lia|]. apply rtc_once. now apply step_add.
Qed.

Lemma ParticleData_reachable_witness :
  NoDup (local_tags (addParticle 1 (removeParticle None 0 (initializeFromSnapshot three false fresh).1).1).2).
Proof.
  refine (proj1 (ParticleData_reachable three false fresh
    (addParticle 1 (removeParticle None 0 (initializeFromSnapshot three false fresh).1).1).2 fresh_mem _ _ _)).
  - reflexivity.
  - vm_compute. discriminate.
  - apply remove_add_run. vm_compute. reflexivity.
Defined.



(** The fields [removeParticle] moves with a particle. *)
Definition same_moved (e e' : pdata_element) : Prop :=
  pos e' = pos e /\ typ e' = typ e /\ vel e' = vel e /\ mass e' = mass e /\ accel e' = accel e /\ charge e' = charge e /\
  diameter e' = diameter e /\ image e' = image e /\ body e' = body e /\ orientation e' = orientation e /\ tag e' = tag e.

Lemma removeParticle_ok_iff (t : Z) (p : pdata) : ok p -> 0 <= t ->
  (removeParticle None t p).2 = Ok tt <-> t ∈ m_tag_set p.
Proof.
  intros O H. pose proof O as [W _].
  destruct (removeParticle_wf None t p W H) as (_ & E & _); [intros; now apply serial_available|]. cbn zeta in E. rewrite E. split.
  - intros (_ & B & C). now apply serial_available.
  - intros Ht. pose proof (wf_size p W t Ht). split_and!; auto; [|now apply serial_available].
    rewrite (wf_nglobal p W). destruct (m_tag_set p); [now apply elem_of_nil in Ht|simpl; lia].
Qed.

Lemma removeParticle_state (t : Z) (p : pdata) : ok p -> 0 <= t -> t ∈ m_tag_set p ->
  (removeParticle None t p).1 = retire t (take_out p t).
Proof.
  intros O H Ht. pose proof (proj2 (removeParticle_ok_iff t p O H) Ht) as E. rewrite removeParticle_unfold in *.
  destruct (getNGlobal p =? 0); [discriminate|]. destruct (t >=? m_rtag_size p); [discriminate|].
  destruct (negb (available p t None)); [discriminate|reflexivity].
Qed.

(** Where the particles that stay are after a removal. *)
Lemma removeParticle_particle (t s : Z) (p : pdata) : ok p -> 0 <= t -> t ∈ m_tag_set p -> s ∈ m_tag_set p -> s <> t ->
  particle s (removeParticle None t p).1 =
  if s =? tag (element (getN p - 1) p) then moved_element (particle s p) (particle t p) else particle s p.
Proof.
  intros O H Ht Hs D. pose proof O as [W [R L]]. pose proof (ok_remove t p H O) as [Wq _].
  rewrite removeParticle_state in * by assumption. unfold particle, getN.
  destruct (take_out_tags p t W (L t Ht)) as (init & last & E & C).
  destruct (local_tags_last p t W (L t Ht)) as (i' & l' & E' & Len & El). rewrite E in E'. apply app_inj_tail in E' as [<- <-].
  destruct (wf_getRTag p W s (L s Hs)) as (Bs & Ls & _). destruct (wf_getRTag p W t (L t Ht)) as (Bt & Lt & _). rewrite E in Ls, Lt.
  rewrite <- El. change (element ?i (retire t ?w)) with (element i w).
  assert (Lq : local_tags (retire t (take_out p t)) = local_tags (take_out p t)) by reflexivity.
  assert (Rs : getRTag s p = m_nparticles p - 1 <-> s = last).
  { split; intros X.
    - rewrite X in Ls. rewrite lookup_app_r in Ls by lia. rewrite Len, Nat.sub_diag in Ls. simpl in Ls. congruence.
    - subst s. rewrite (getRTag_at p (length init)); [lia|assumption|]. rewrite E. now apply list_lookup_middle. }
  destruct (Z.eqb_spec s last) as [Es|Ns].
  - destruct C as [(_ & X & _)|(Hi & Hit & Tq & _)]; [congruence|]. subst s.
    assert (Rq : getRTag last (retire t (take_out p t)) = getRTag t p).
    { rewrite (getRTag_at _ (Z.to_nat (getRTag t p))); [lia|assumption|]. rewrite Lq, Tq. apply list_lookup_insert_eq. lia. }
    rewrite Rq, take_out_elements by (auto; lia). rewrite Z.eqb_refl. rewrite (proj2 Rs eq_refl). reflexivity.
  - assert (Bs' : getRTag s p < m_nparticles p - 1) by (destruct (decide (getRTag s p = m_nparticles p - 1)); [tauto|lia]).
    assert (Ds : getRTag s p <> getRTag t p) by (intros X; rewrite X in Ls; congruence).
    rewrite lookup_app_l in Ls by lia.
    assert (Rq : getRTag s (retire t (take_out p t)) = getRTag s p).
    { rewrite (getRTag_at _ (Z.to_nat (getRTag s p))); [lia|assumption|]. rewrite Lq.
      destruct C as [(_ & _ & -> & _)|(_ & _ & -> & _)]; [assumption|]. rewrite list_lookup_insert_ne by lia. assumption. }
    rewrite Rq, take_out_elements by (auto; lia). destruct (Z.eqb_spec (getRTag s p) (getRTag t p)); [contradiction|reflexivity].
Qed.

(** C4. [removeParticle] succeeds exactly on active tags. It then retires the tag
    and puts it on top of the stack of tags to reuse, and every other particle
    keeps its tag, position, type, velocity, mass, acceleration, charge, diameter,
    image, body and orientation. On any other tag it throws and leaves the
    particles as they were. *)
Theorem removeParticle_spec (t : Z) (p : pdata) (O : ok p) (Ht : 0 <= t) :
  let q := (removeParticle None t p).1 in let r := (removeParticle None t p).2 in
  (r = Ok tt <-> t ∈ m_tag_set p) /\
  (t ∈ m_tag_set p ->
     (forall s, s ∈ m_tag_set q <-> s <> t /\ s ∈ m_tag_set p) /\ m_recycled_tags q = t :: m_recycled_tags p /\
     getNGlobal q = getNGlobal p - 1 /\
     (forall s, s ∈ m_tag_set q -> same_moved (particle s p) (particle s q))) /\
  (~ t ∈ m_tag_set p -> q = p \/ q = removeAllGhostParticles p).
Proof.
  pose proof (removeParticle_ok_iff t p O Ht) as I. pose proof O as [W _].
  destruct (removeParticle_wf None t p W Ht) as (_ & _ & A & B); [intros; now apply serial_available|]. cbn zeta in *.
  split; [assumption|]. split; [|intros N; apply B; rewrite I; exact N].
  intros Act. destruct (A (proj2 I Act)) as (E1 & E2 & E3 & _).
  assert (M : forall s, s ∈ m_tag_set (removeParticle None t p).1 <-> s <> t /\ s ∈ m_tag_set p) by (intros s; rewrite E1; apply elem_of_set_erase).
  split_and!; auto. intros s [D Hs]%M. rewrite removeParticle_particle by assumption.
  destruct (s =? tag (element (getN p - 1) p)); repeat split.
Qed.

Lemma removeParticle_spec_witness : (removeParticle None 0 loaded3).2 = Ok tt.
Proof. apply (removeParticle_spec 0 loaded3 loaded3_ok); [lia|]. left. Defined.

(** [removeParticle] does not move the angular momentum and the moments of
    inertia: the particle that was last in memory takes over those of the removed
    particle. *)
Theorem removeParticle_keeps_angmom (t s : Z) (p : pdata) (O : ok p) (Ht : 0 <= t)
  (At : t ∈ m_tag_set p) (As : s ∈ m_tag_set p) (D : s <> t) (Last : tag (element (getN p - 1) p) = s) :
  let q := (removeParticle None t p).1 in
  getAngularMomentum s q = getAngularMomentum t p /\ getMomentsOfInertia s q = getMomentsOfInertia t p.
Proof.
  cbn zeta. pose proof (ok_remove t p Ht O) as [Wq [_ Lq]]. pose proof O as [W [_ L]].
  assert (Hs : s ∈ m_tag_set (removeParticle None t p).1).
  { destruct (removeParticle_wf None t p W Ht) as (_ & _ & A & _); [intros; now apply serial_available|].
    destruct (A (proj2 (removeParticle_ok_iff t p O Ht) At)) as (E1 & _). rewrite E1. apply elem_of_set_erase. auto. }
  pose proof (removeParticle_particle t s p O Ht At As D) as E. unfold particle in E. rewrite Last, Z.eqb_refl in E.
  unfold getAngularMomentum, getMomentsOfInertia. rewrite !read_local_found by auto. rewrite E. split; reflexivity.
Qed.

Lemma removeParticle_keeps_angmom_witness :
  getAngularMomentum 2 (removeParticle None 0 loaded3).1 = make_scalar4 0 1 0 0 /\
  getAngularMomentum 2 loaded3 = make_scalar4 0 3 0 0.
Proof.
  destruct (removeParticle_keeps_angmom 0 2 loaded3 loaded3_ok) as [A _].
  - lia.
  - left.
  - right. right. left.
  - discriminate.
  - reflexivity.
  - split; [rewrite A|]; reflexivity.
Defined.

(** * Migration *)

Lemma particles_seq p : wf_mem p -> particles p = ptl p <$> seq 0 (Z.to_nat (m_nparticles p)).
Proof. intros W. pose proof (wf_N p W). unfold particles. symmetry. apply fmap_element_seq; [assumption|lia]. Qed.

(** C29. [removeParticles] packs exactly the particles with a non-zero
    communication flag, in memory order, with their flags, and keeps the others in
    memory order with cleared flags; adding the packed particles back yields the
    particles of before, in a possibly different order and with nothing lost, and
    the bookkeeping invariant holds throughout. *)
Theorem migration_roundtrip (p : pdata) (W : wf p) :
  let n := Z.to_nat (getN p) in
  exists q, removeParticles p = (q, ptl p <$> leaving p n, flag p <$> leaving p n) /\ wf q /\
    particles q = ptl p <$> staying p n /\
    (forall k, (k < Z.to_nat (getN q))%nat -> flag q k = 0) /\
    wf (addParticles (ptl p <$> leaving p n) q) /\
    particles (addParticles (ptl p <$> leaving p n) q) ≡ₚ particles p.
Proof.
  cbn zeta. destruct (removeParticles_spec p W) as (q & E & Wq & Nq & Mq & Tk & Ts & _ & _ & Fl). unfold getN.
  set (n := Z.to_nat (m_nparticles p)) in *. pose proof (length_staying p n) as Ls. pose proof (wf_N p (wf_memory p W)) as HN.
  assert (Pq : particles q = ptl p <$> staying p n) by (unfold particles; rewrite Nq, Nat2Z.id; exact Tk).
  assert (Pm : particles q ++ (ptl p <$> leaving p n) ≡ₚ particles p).
  { rewrite Pq, <- fmap_app, staying_leaving_perm. rewrite (particles_seq p (wf_memory p W)). reflexivity. }
  destruct (addParticles_spec q (ptl p <$> leaving p n) Wq) as (Wa & Na & _ & _ & Ex).
  - change (local_tags q) with (tag <$> particles q). rewrite <- fmap_app, Pm. apply (wf_local_nodup p W).
  - rewrite Ts. intros t Ht. apply (wf_active p W). change (local_tags p) with (tag <$> particles p). rewrite <- Pm, fmap_app.
    apply elem_of_app. auto.
  - exists q. split_and!; auto.
    + intros k Hk. unfold flag. apply zget_lookup. rewrite Nat2Z.id. apply Fl. unfold getN in Hk. lia.
    + rewrite Ex; [assumption|]. rewrite Nq, Mq, length_fmap. unfold n in *. lia.
Qed.

Definition flagged3 : pdata := set_comm_flags [0; 1; 0] loaded3.

Lemma set_comm_flags_wf c p : length c = length (m_comm_flags p) -> wf p -> wf (set_comm_flags c p).
Proof. intros E [[] ?]. constructor; [constructor|..]; auto. simpl. congruence. Qed.

Lemma flagged3_wf : wf flagged3.
Proof. apply set_comm_flags_wf; [vm_compute; reflexivity|apply loaded3_ok]. Qed.

Lemma migration_roundtrip_witness : exists q, (removeParticles flagged3).1.1 = q /\ wf q.
Proof.
  destruct (migration_roundtrip flagged3 flagged3_wf) as (q & E & Wq & _). exists q. rewrite E. split; [reflexivity|exact Wq].
Defined.

(** * Snapshots *)

(** Equality of snapshot entries, positions as rational vectors. *)
Definition snap_eq (s s' : snap_ptl) : Prop :=
  s_pos s =3= s_pos s' /\ s_vel s = s_vel s' /\ s_accel s = s_accel s' /\ s_type s = s_type s' /\ s_mass s = s_mass s' /\
  s_charge s = s_charge s' /\ s_diameter s = s_diameter s' /\ s_image s = s_image s' /\ s_body s = s_body s' /\
  s_orientation s = s_orientation s' /\ s_angmom s = s_angmom s' /\ s_inertia s = s_inertia s'.

Lemma inside_sub_zero b v : BoxDim.inside b v -> BoxDim.inside b (s3_sub v BoxDim.zero3).
Proof.
  intros (Hx & Hy & Hz). unfold BoxDim.inside, BoxDim.tilt_x, BoxDim.tilt_y, s3_sub, BoxDim.zero3 in *.
  cbn [s3x s3y s3z] in *. split_and!; intros P; [specialize (Hx P)|specialize (Hy P)|specialize (Hz P)]; Lqa.lra.
Qed.

Lemma sub_zero v : s3_sub v BoxDim.zero3 =3= v.
Proof. unfold s3_eq, s3_sub, BoxDim.zero3. cbn [s3x s3y s3z]. split_and!; ring. Qed.

Lemma i3_sub_zero i : i3_sub i zero_i3 = i.
Proof. destruct i. unfold i3_sub, zero_i3. cbn. now rewrite !Z.sub_0_r. Qed.

Lemma snap_of_loaded q s i stale : m_origin q = BoxDim.zero3 -> m_o_image q = zero_i3 ->
  BoxDim.inside (m_global_box q) (s_pos s) -> snap_eq (snap_of q (load_element s i stale)) s.
Proof.
  intros E1 E2 I. unfold snap_of. cbn [pos image load_element]. rewrite E1, E2.
  rewrite wrap_id by now apply inside_sub_zero. rewrite i3_sub_zero. unfold snap_eq. cbn. split_and!; try reflexivity. apply sub_zero.
Qed.

Lemma load_box sn ib p : m_global_box (initializeFromSnapshot sn ib p).1 = m_global_box p.
Proof.
  destruct (load_unfold sn ib p) as [-> _]. simpl. unfold pd_resize, pd_reallocate, pd_allocate. cbn zeta. case_all; reflexivity.
Qed.

(** A snapshot after a load, and the tags that the load gave. *)
Lemma load_take (sn : snapshot) (ib : bool) (p : pdata) : wf_mem p -> m_rank p = 0 -> Z.of_nat (length (sn_ptl sn)) <= 2 ^ 31 ->
  (forall s, s ∈ sn_ptl sn -> BoxDim.inside (m_global_box p) (s_pos s)) ->
  let q := (initializeFromSnapshot sn ib p).1 in
  (exists out, takeSnapshot q = Some (mkSnapshot out (sn_type_mapping sn) (sn_is_accel_set sn)) /\ Forall2 snap_eq out (loaded ib (sn_ptl sn))) /\
  (forall j s, loaded ib (sn_ptl sn) !! j = Some s -> local_tags q !! j = Some (Z.of_nat j)).
Proof.
  intros M Rank Size Box. cbn zeta. set (q := (initializeFromSnapshot sn ib p).1).
  destruct (load_wf sn ib p M Rank Size) as [W S]. fold q in W, S.
  destruct (load_fields sn ib p M Rank Size) as (_ & _ & _ & _ & _ & F6 & _ & _ & _ & _ & _ & _ & _ & Fo & Fi & Ft & Fa). fold q in F6, Fo, Fi, Ft, Fa.
  pose proof (load_local_tags sn ib p M Rank Size) as Lt. fold q in Lt.
  assert (Lk : forall j s, loaded ib (sn_ptl sn) !! j = Some s -> local_tags q !! j = Some (Z.of_nat j)).
  { intros j s Hs. rewrite Lt. apply lookup_seqZ. apply lookup_lt_Some in Hs. lia. }
  split; [|exact Lk]. rewrite (takeSnapshot_spec q W S), Ft, Fa, F6. eexists. split; [reflexivity|].
  apply Forall2_fmap_l, Forall2_same_length_lookup. split; [rewrite length_seqZ; lia|].
  intros j t s Hj Hs. apply lookup_seqZ in Hj as [-> _]. pose proof (Lk j s Hs) as Lj. unfold compose. rewrite Z.add_0_l.
  rewrite (getRTag_at q j) by assumption. destruct (load_lookup sn ib p M Rank Size j s Hs) as [st E]. fold q in E.
  unfold element. rewrite (zget_lookup _ _ _ (load_element s (Z.of_nat j) st)) by (now rewrite Nat2Z.id).
  apply snap_of_loaded; auto. unfold q. rewrite load_box. apply Box.
  apply list_elem_of_lookup_2 in Hs. unfold loaded in Hs. now apply list_elem_of_filter in Hs.
Qed.



(** A snapshot of any reachable state lists every active particle once, in
    increasing tag order: its [n]-th entry is the particle whose tag [getNthTag(n)]
    returns, and the walk over the reverse lookup never leaves the array. *)
Theorem takeSnapshot_order (p : pdata) (O : ok p) :
  exists out, takeSnapshot p = Some (mkSnapshot out (m_type_mapping p) (m_accel_set p)) /\
    Z.of_nat (length out) = getNGlobal p /\
    (forall n, 0 <= n < getNGlobal p -> exists t, (getNthTag n p).2 = Ok t /\ out !! Z.to_nat n = Some (snap_of p (particle t p))) /\
    (forall n n' t t', (getNthTag n p).2 = Ok t -> (getNthTag n' p).2 = Ok t' -> 0 <= n < n' -> t < t').
Proof.
  pose proof O as [W S]. eexists. split; [exact (takeSnapshot_spec p W S)|]. split_and!.
  - rewrite length_fmap. symmetry. apply (wf_nglobal p W).
  - intros n Hn. destruct (getNthTag_spec n p W Hn) as (t & E & Hl). exists t. split; [assumption|].
    rewrite list_lookup_fmap, Hl. reflexivity.
  - intros n n' t t' E E' H.
    assert (B : n' < getNGlobal p).
    { unfold getNthTag in E'. destruct (n' >=? getNGlobal p) eqn:G; [discriminate|zbool; lia]. }
    destruct (getNthTag_spec n p W ltac:(unfold getNGlobal in *; lia)) as (u & Eu & Hu).
    destruct (getNthTag_spec n' p W ltac:(unfold getNGlobal in *; lia)) as (u' & Eu' & Hu').
    assert (u = t /\ u' = t') as [<- <-] by (split; congruence).
    pose proof (wf_sorted p W) as So. rewrite <- (take_drop (Z.to_nat n') (m_tag_set p)) in So.
    apply (StronglySorted_app_1_elem_of _ _ _ u u' So).
    + apply (list_elem_of_lookup_2 _ (Z.to_nat n)). now rewrite lookup_take_lt by lia.
    + apply (list_elem_of_lookup_2 _ 0). rewrite lookup_drop, Nat.add_0_r. assumption.
Qed.

Lemma takeSnapshot_order_witness : exists out, takeSnapshot loaded3 = Some (mkSnapshot out (m_type_mapping loaded3) (m_accel_set loaded3)).
Proof. destruct (takeSnapshot_order loaded3 loaded3_ok) as (out & E & _). exists out. exact E. Defined.

(** * Memory *)

(** The amortized growth of the particle arrays, computed in single precision,
    ends with a capacity that holds the requested number of particles, never
    shrinks, and for requests up to [2^31] stays within [unsigned int]. *)
Theorem growth_bounds (need capacity : Z) (Hc : 0 <= capacity < 2 ^ 32) (Hn : need <= 2 ^ 31) :
  need <= grown need capacity /\ capacity <= grown need capacity < 2 ^ 32.
Proof.
  destruct (grown_ge need capacity ltac:(lia)). split; [assumption|]. split; [assumption|].
  unfold grown. apply grow_loop_le; lia.
Qed.

Lemma growth_bounds_witness : 100 <= grown 100 7.
Proof. apply (growth_bounds 100 7); lia. Defined.

(** * Accessors *)

Lemma read_update {A} p t s (d : A) f g : ok p -> (forall e, tag (f e) = tag e) -> t ∈ m_tag_set p -> s ∈ m_tag_set p ->
  read_local s d g (update_local t f p) = if s =? t then g (f (particle s p)) else read_local s d g p.
Proof.
  intros O Ft Ht Hs. pose proof O as [W [_ L]]. destruct (ok_update t f p Ft O) as [W' [_ L']].
  pose proof (update_local_found p t W (L t Ht) f) as U.
  assert (Hs' : s ∈ local_tags (update_local t f p)) by (apply L'; rewrite U; assumption).
  rewrite !read_local_found by auto. destruct (wf_getRTag p W s (L s Hs)) as (Bs & Ls & Es). destruct (wf_getRTag p W t (L t Ht)) as (Bt & Lt & Et).
  assert (R : getRTag s (update_local t f p) = getRTag s p) by (rewrite U; reflexivity). rewrite R.
  rewrite update_local_element by auto. unfold particle. destruct (Z.eqb_spec s t) as [->|D]; [now rewrite Z.eqb_refl|].
  destruct (Z.eqb_spec (getRTag s p) (getRTag t p)) as [E|]; [|reflexivity]. rewrite E in Es. congruence.
Qed.

(** The accessors by tag read what was set, for the particle with that tag
    only: after a setter the matching getter returns the new value for the tag
    and the old one for every other tag. [setBody] converts its signed argument to
    [unsigned int]. *)
Theorem set_get (p : pdata) (t s : Z) (O : ok p) (Ht : t ∈ m_tag_set p) (Hs : s ∈ m_tag_set p) :
  (forall v, getVelocity s (setVelocity t v p) = if s =? t then v else getVelocity s p) /\
  (forall v, getCharge s (setCharge t v p) = if s =? t then v else getCharge s p) /\
  (forall v, getMass s (setMass t v p) = if s =? t then v else getMass s p) /\
  (forall v, getDiameter s (setDiameter t v p) = if s =? t then v else getDiameter s p) /\
  (forall v, getBody s (setBody t v p) = if s =? t then u32 v else getBody s p) /\
  (forall v, getType s (setType t v p) = if s =? t then v else getType s p) /\
  (forall v, getOrientation s (setOrientation t v p) = if s =? t then v else getOrientation s p) /\
  (forall v, getAngularMomentum s (setAngularMomentum t v p) = if s =? t then v else getAngularMomentum s p) /\
  (forall v, getMomentsOfInertia s (setMomentsOfInertia t v p) = if s =? t then v else getMomentsOfInertia s p).
Proof.
  split_and!; intros v; try (apply (read_update p t s); auto).
  unfold getType, setType. pose proof O as [W [_ L]]. destruct (wf_getRTag p W t (L t Ht)) as (B & _).
  assert ((getRTag t p <? getN p) = true) as -> by (apply Z.ltb_lt; unfold getN; lia).
  now apply (read_update p t s).
Qed.

Lemma set_get_witness : getMass 1 (setMass 1 5%Q loaded3) = 5%Q.
Proof.
  destruct (set_get loaded3 1 1 loaded3_ok) as (_ & _ & M & _).
  - right. left.
  - right. left.
  - exact (M 5%Q).
Defined.
