(* ===== verification/ParticleFilter.v ===== *)
(** Particle filters ([hoomd/filter/*.h]): the objects that select the members of
    a group from the local particles.

    [std::sort] is a sorting function, [std::set_union] and its siblings are the
    merges the standard specifies, which on repeated elements work with
    multiplicities. Filters written in Python are user code. *)

From Stdlib Require Import ZArith Lia String Sorted.
From stdpp Require Import base list list_numbers sorting gmap strings.
From S2P Require Import Prelude HOOMDMath BoxDim ParticleData ParticleDataProps ParticleDataSpec.
Local Open Scope Z_scope.
Local Open Scope hoomd_scope.

(** * The model *)

(** ** Standard algorithms *)

Definition std_sort (l : list Z) : list Z := merge_sort Z.le l.

Fixpoint set_union (X Y : list Z) {struct X} : list Z :=
  let fix aux (Y : list Z) : list Z :=
    match X, Y with
    | [], _ => Y
    | _, [] => X
    | a :: X', b :: Y' => if a <? b then a :: set_union X' Y else if b <? a then b :: aux Y' else a :: set_union X' Y'
    end in
  aux Y.

Fixpoint set_intersection (X Y : list Z) {struct X} : list Z :=
  let fix aux (Y : list Z) : list Z :=
    match X, Y with
    | [], _ => []
    | _, [] => []
    | a :: X', b :: Y' => if a <? b then set_intersection X' Y else if b <? a then aux Y' else a :: set_intersection X' Y'
    end in
  aux Y.

Fixpoint set_difference (X Y : list Z) {struct X} : list Z :=
  let fix aux (Y : list Z) : list Z :=
    match X, Y with
    | [], _ => []
    | _, [] => X
    | a :: X', b :: Y' => if a <? b then a :: set_difference X' Y else if b <? a then aux Y' else set_difference X' Y'
    end in
  aux Y.

(** ** Filters *)

(** [RigidBodySelection]: a set of flags. *)
Definition CENTERS : Z := 1.
Definition CONSTITUENT : Z := 2.
Definition FREE : Z := 4.

Definition toBool (flag : Z) : bool := flag >? 0.

Inductive pfilter : Type :=
| FilterNull
| FilterAll
| FilterTags (m_tags : list Z)
| FilterType (m_types : list string)
| FilterRigid (m_current_selection : Z)
| FilterUnion (m_f m_g : pfilter)
| FilterIntersection (m_f m_g : pfilter)
| FilterSetDifference (m_f m_g : pfilter).

(** The constructor of [ParticleFilterRigid] from the names of the flags. *)
Fixpoint rigid_flags (sel : Z) (flags : list string) : Z :=
  match flags with
  | [] => sel
  | flag :: flags =>
      rigid_flags
        (if String.eqb flag "center" then Z.lor sel CENTERS
         else if String.eqb flag "constituent" then Z.lor sel CONSTITUENT
         else if String.eqb flag "free" then Z.lor sel FREE
         else sel) flags
  end.

Definition make_rigid (flags : list string) : pfilter := FilterRigid (rigid_flags 0 flags).

(** [ParticleFilterType]: the type ids of the names. *)
Fixpoint type_ids (names : list string) (p : pdata) : result (list Z) :=
  match names with
  | [] => Ok []
  | name :: names =>
      let? i := getTypeByName name p in
      let? l := type_ids names p in
      Ok (i :: l)
  end.

Definition type_tags (types : list Z) (l : list pdata_element) : list Z :=
  tag <$> List.filter (fun e => existsb (Z.eqb (typ e)) types) l.

(** The test of [ParticleFilterRigid]. *)
Definition include_particle (sel : Z) (e : pdata_element) : bool :=
  let include := false in
  let include := if toBool (Z.land sel CENTERS) then include || (tag e =? body e) else include in
  let include := if toBool (Z.land sel CONSTITUENT) then include || ((body e <? MIN_FLOPPY) && negb (body e =? tag e)) else include in
  if toBool (Z.land sel FREE) then include || (body e =? NO_BODY) else include.

Fixpoint getSelectedTags (f : pfilter) (p : pdata) : result (list Z) :=
  match f with
  | FilterNull => Ok []
  | FilterAll => Ok (tag <$> particles p)
  | FilterTags m_tags => Ok m_tags
  | FilterType m_types => let? types := type_ids m_types p in Ok (type_tags types (particles p))
  | FilterRigid sel => Ok (tag <$> List.filter (include_particle sel) (particles p))
  | FilterUnion m_f m_g =>
      let? X := getSelectedTags m_f p in
      let? Y := getSelectedTags m_g p in
      Ok (set_union (std_sort X) (std_sort Y))
  | FilterIntersection m_f m_g =>
      let? X := getSelectedTags m_f p in
      let? Y := getSelectedTags m_g p in
      Ok (set_intersection (std_sort X) (std_sort Y))
  | FilterSetDifference m_f m_g =>
      let? X := getSelectedTags m_f p in
      let? Y := getSelectedTags m_g p in
      Ok (set_difference (std_sort X) (std_sort Y))
  end.

(** * Multiplicities *)

(** How often [t] occurs in [l]. *)
Definition occ (t : Z) (l : list Z) : nat := length (List.filter (Z.eqb t) l).

Lemma occ_cons t a l : occ t (a :: l) = ((if (t =? a)%Z then 1 else 0) + occ t l)%nat.
Proof. unfold occ. simpl. destruct (t =? a); reflexivity. Qed.

Lemma occ_pos t l : (0 < occ t l)%nat <-> t ∈ l.
Proof.
  induction l as [|a l IH]; [split; [cbn; lia|intros H; now apply elem_of_nil in H]|].
  rewrite occ_cons, elem_of_cons, <- IH. destruct (Z.eqb_spec t a); split; auto; try lia.
Qed.

Lemma occ_nodup l : NoDup l <-> forall t, (occ t l <= 1)%nat.
Proof.
  induction l as [|a l IH]; [split; [intros _ t; cbn; lia|constructor]|]. rewrite NoDup_cons, IH. split.
  - intros [N H] t. rewrite occ_cons. destruct (Z.eqb_spec t a) as [->|]; [|apply H].
    assert (~ (0 < occ a l)%nat) by (rewrite occ_pos; assumption). lia.
  - intros H. split.
    + intros C%occ_pos. specialize (H a). rewrite occ_cons, Z.eqb_refl in H. lia.
    + intros t. specialize (H t). rewrite occ_cons in H. lia.
Qed.

Lemma occ_perm t l l' : l ≡ₚ l' -> occ t l = occ t l'.
Proof.
  induction 1 as [|a l l' _ IH|a b l|l1 l2 l3 _ IH1 _ IH2]; [reflexivity|rewrite !occ_cons, IH; reflexivity|rewrite !occ_cons; lia|congruence].
Qed.

Lemma occ_sort t l : occ t (std_sort l) = occ t l.
Proof. apply occ_perm, merge_sort_Permutation. Qed.

Lemma sort_sorted l : StronglySorted Z.le (std_sort l).
Proof. apply StronglySorted_merge_sort; typeclasses eauto. Qed.

(** An element below every element of a sorted list does not occur in it. *)
Lemma occ_below t a l : StronglySorted Z.le (a :: l) -> t < a -> occ t (a :: l) = 0%nat.
Proof.
  intros S H. destruct (decide (t ∈ a :: l)) as [E|E].
  - apply StronglySorted_inv in S as [_ F]. rewrite Forall_forall in F. apply elem_of_cons in E as [->|E]; [lia|].
    specialize (F t E). simpl in F. lia.
  - destruct (occ t (a :: l)) eqn:O; [reflexivity|]. exfalso. apply E, occ_pos. lia.
Qed.

Lemma occ_union t X Y : StronglySorted Z.le X -> StronglySorted Z.le Y ->
  occ t (set_union X Y) = Nat.max (occ t X) (occ t Y).
Proof.
  revert Y. induction X as [|a X IHX]; intros Y; [destruct Y; reflexivity|].
  induction Y as [|b Y IHY]; intros SX SY; [simpl; symmetry; apply Nat.max_0_r|].
  pose proof (StronglySorted_inv SX) as [SX' _]. pose proof (StronglySorted_inv SY) as [SY' _].
  cbn [set_union]. destruct (Z.ltb_spec a b) as [L|G]; [|destruct (Z.ltb_spec b a) as [L|G']].
  - rewrite occ_cons, (IHX (b :: Y) SX' SY), (occ_cons t a). destruct (Z.eqb_spec t a) as [->|]; [|lia].
    rewrite (occ_below a b Y SY L). lia.
  - rewrite occ_cons. change (occ t ((fix aux (Y : list Z) : list Z := _) Y)) with (occ t (set_union (a :: X) Y)).
    rewrite (IHY SX SY'), (occ_cons t b). destruct (Z.eqb_spec t b) as [->|]; [|lia].
    rewrite (occ_below b a X SX L). lia.
  - assert (a = b) as -> by lia. rewrite !occ_cons, (IHX Y SX' SY'). lia.
Qed.

Lemma occ_intersection t X Y : StronglySorted Z.le X -> StronglySorted Z.le Y ->
  occ t (set_intersection X Y) = Nat.min (occ t X) (occ t Y).
Proof.
  revert Y. induction X as [|a X IHX]; intros Y; [destruct Y; reflexivity|].
  induction Y as [|b Y IHY]; intros SX SY; [simpl; symmetry; apply Nat.min_0_r|].
  pose proof (StronglySorted_inv SX) as [SX' _]. pose proof (StronglySorted_inv SY) as [SY' _].
  cbn [set_intersection]. destruct (Z.ltb_spec a b) as [L|G]; [|destruct (Z.ltb_spec b a) as [L|G']].
  - rewrite (IHX (b :: Y) SX' SY), (occ_cons t a). destruct (Z.eqb_spec t a) as [->|]; [|lia].
    rewrite (occ_below a b Y SY L). lia.
  - change (occ t ((fix aux (Y : list Z) : list Z := _) Y)) with (occ t (set_intersection (a :: X) Y)).
    rewrite (IHY SX SY'), (occ_cons t b). destruct (Z.eqb_spec t b) as [->|]; [|lia].
    rewrite (occ_below b a X SX L). lia.
  - assert (a = b) as -> by lia. rewrite !occ_cons, (IHX Y SX' SY'). lia.
Qed.

Lemma occ_difference t X Y : StronglySorted Z.le X -> StronglySorted Z.le Y ->
  occ t (set_difference X Y) = (occ t X - occ t Y)%nat.
Proof.
  revert Y. induction X as [|a X IHX]; intros Y; [destruct Y; reflexivity|].
  induction Y as [|b Y IHY]; intros SX SY; [simpl; symmetry; apply Nat.sub_0_r|].
  pose proof (StronglySorted_inv SX) as [SX' _]. pose proof (StronglySorted_inv SY) as [SY' _].
  cbn [set_difference]. destruct (Z.ltb_spec a b) as [L|G]; [|destruct (Z.ltb_spec b a) as [L|G']].
  - rewrite occ_cons, (IHX (b :: Y) SX' SY), (occ_cons t a). destruct (Z.eqb_spec t a) as [->|]; [|lia].
    rewrite (occ_below a b Y SY L). lia.
  - change (occ t ((fix aux (Y : list Z) : list Z := _) Y)) with (occ t (set_difference (a :: X) Y)).
    rewrite (IHY SX SY'), (occ_cons t b). destruct (Z.eqb_spec t b) as [->|]; [|lia].
    rewrite (occ_below b a X SX L). lia.
  - assert (a = b) as -> by lia. rewrite !occ_cons, (IHX Y SX' SY'). lia.
Qed.

(** * The meaning of a filter *)

(** The particles a filter is meant to select, as a predicate on tags. *)
Fixpoint selects (f : pfilter) (p : pdata) (t : Z) : Prop :=
  match f with
  | FilterNull => False
  | FilterAll => exists e, e ∈ particles p /\ tag e = t
  | FilterTags m_tags => t ∈ m_tags
  | FilterType m_types => exists e name, e ∈ particles p /\ tag e = t /\ name ∈ m_types /\ getTypeByName name p = Ok (typ e)
  | FilterRigid sel => exists e, e ∈ particles p /\ tag e = t /\
      ((Z.testbit sel 0 = true /\ tag e = body e) \/
       (Z.testbit sel 1 = true /\ body e < MIN_FLOPPY /\ body e <> tag e) \/
       (Z.testbit sel 2 = true /\ body e = NO_BODY))
  | FilterUnion m_f m_g => selects m_f p t \/ selects m_g p t
  | FilterIntersection m_f m_g => selects m_f p t /\ selects m_g p t
  | FilterSetDifference m_f m_g => selects m_f p t /\ ~ selects m_g p t
  end.

(** The tag lists of a filter have no repetitions, and its flags are those of
    [RigidBodySelection]. *)
Fixpoint well_built (f : pfilter) : Prop :=
  match f with
  | FilterTags m_tags => NoDup m_tags
  | FilterRigid sel => 0 <= sel < 8
  | FilterUnion m_f m_g | FilterIntersection m_f m_g | FilterSetDifference m_f m_g => well_built m_f /\ well_built m_g
  | _ => True
  end.

(** The type names a filter mentions. *)
Fixpoint type_names (f : pfilter) : list string :=
  match f with
  | FilterType m_types => m_types
  | FilterUnion m_f m_g | FilterIntersection m_f m_g | FilterSetDifference m_f m_g => type_names m_f ++ type_names m_g
  | _ => []
  end.

Lemma toBool_bit sel i : 0 <= i -> toBool (Z.land sel (2 ^ i)) = Z.testbit sel i.
Proof.
  intros Hi. unfold toBool. assert (E : Z.land sel (2 ^ i) = if Z.testbit sel i then 2 ^ i else 0).
  { apply Z.bits_inj'. intros n Hn. rewrite Z.land_spec, Z.pow2_bits_eqb by assumption.
    destruct (Z.eqb_spec i n) as [<-|D].
    - destruct (Z.testbit sel i) eqn:B; [now rewrite Z.pow2_bits_true|now rewrite Z.bits_0].
    - rewrite andb_false_r. destruct (Z.testbit sel i); [now rewrite Z.pow2_bits_false by congruence|now rewrite Z.bits_0]. }
  rewrite E. pose proof (Z.pow_pos_nonneg 2 i ltac:(lia) Hi). destruct (Z.testbit sel i); rewrite Z.gtb_ltb; [|reflexivity].
  now apply Z.ltb_lt.
Qed.

Lemma include_particle_spec sel e :
  include_particle sel e = true <->
  (Z.testbit sel 0 = true /\ tag e = body e) \/
  (Z.testbit sel 1 = true /\ body e < MIN_FLOPPY /\ body e <> tag e) \/
  (Z.testbit sel 2 = true /\ body e = NO_BODY).
Proof.
  unfold include_particle. change CENTERS with (2 ^ 0). change CONSTITUENT with (2 ^ 1). change FREE with (2 ^ 2).
  rewrite !toBool_bit by lia. cbn zeta.
  rewrite <- (Z.eqb_eq (tag e) (body e)), <- (Z.ltb_lt (body e) MIN_FLOPPY), <- (Z.eqb_eq (body e) NO_BODY).
  assert (body e <> tag e <-> negb (body e =? tag e) = true) as -> by (rewrite negb_true_iff, Z.eqb_neq; reflexivity).
  destruct (Z.testbit sel 0), (Z.testbit sel 1), (Z.testbit sel 2), (tag e =? body e), (body e <? MIN_FLOPPY), (negb (body e =? tag e)),
    (body e =? NO_BODY); simpl; intuition congruence.
Qed.

Lemma type_ids_spec names p : (forall name, name ∈ names -> is_ok (getTypeByName name p) = true) ->
  exists l, type_ids names p = Ok l /\ forall i, i ∈ l <-> exists name, name ∈ names /\ getTypeByName name p = Ok i.
Proof.
  induction names as [|name names IH]; intros H.
  { exists []. split; [reflexivity|]. intros i. split; [intros E; now apply elem_of_nil in E|intros (n & E & _); now apply elem_of_nil in E]. }
  simpl. pose proof (H name ltac:(left)) as O. destruct (getTypeByName name p) as [i|] eqn:E; [|discriminate].
  destruct IH as (l & -> & L); [intros n Hn; apply H; now right|]. exists (i :: l). split; [reflexivity|].
  intros j. rewrite elem_of_cons, L. split.
  - intros [->|(n & Hn & En)]; [exists name; split; [left|assumption]|exists n; split; [now right|assumption]].
  - intros (n & [->|Hn]%elem_of_cons & En); [left; congruence|right; eauto].
Qed.

Lemma type_ids_throw names p : is_ok (type_ids names p) = false <-> exists name, name ∈ names /\ is_ok (getTypeByName name p) = false.
Proof.
  induction names as [|name names IH]; [split; [cbn; discriminate|intros (n & E & _); now apply elem_of_nil in E]|].
  simpl. destruct (getTypeByName name p) as [i|e] eqn:E; simpl.
  - destruct (type_ids names p); simpl in *.
    + split; [cbn; discriminate|]. intros (n & [->|Hn]%elem_of_cons & En); [rewrite E in En; discriminate|]. apply IH. eauto.
    + split; [|reflexivity]. intros _. destruct (proj1 IH eq_refl) as (n & Hn & En). exists n. split; [now right|assumption].
  - split; [|reflexivity]. intros _. exists name. split; [left|]. now rewrite E.
Qed.

Lemma elem_of_List_filter {A} (P : A -> bool) l x : x ∈ List.filter P l <-> x ∈ l /\ P x = true.
Proof. rewrite !list_elem_of_In, filter_In. reflexivity. Qed.

Lemma nodup_fmap_filter {A B} (f : A -> B) (P : A -> bool) l : NoDup (f <$> l) -> NoDup (f <$> List.filter P l).
Proof.
  induction l as [|x l IH]; [auto|]. intros [N H]%NoDup_cons. simpl. destruct (P x); [|auto].
  apply NoDup_cons. split; [|auto]. intros (y & E & [Hy _]%elem_of_List_filter)%list_elem_of_fmap. apply N.
  apply list_elem_of_fmap. eauto.
Qed.

(** The set operations on duplicate-free selections. *)
Section set_operations.
Variables X Y : list Z.
Hypothesis NX : NoDup X.
Hypothesis NY : NoDup Y.

Let ox t : (occ t X <= 1)%nat := proj1 (occ_nodup X) NX t.
Let oy t : (occ t Y <= 1)%nat := proj1 (occ_nodup Y) NY t.

Lemma union_spec : NoDup (set_union (std_sort X) (std_sort Y)) /\
  forall t, t ∈ set_union (std_sort X) (std_sort Y) <-> t ∈ X \/ t ∈ Y.
Proof.
  split; [apply occ_nodup|]; intros t; [|rewrite <- !occ_pos]; rewrite occ_union, !occ_sort by apply sort_sorted;
    pose proof (ox t); pose proof (oy t); lia.
Qed.

Lemma intersection_spec : NoDup (set_intersection (std_sort X) (std_sort Y)) /\
  forall t, t ∈ set_intersection (std_sort X) (std_sort Y) <-> t ∈ X /\ t ∈ Y.
Proof.
  split; [apply occ_nodup|]; intros t; [|rewrite <- !occ_pos]; rewrite occ_intersection, !occ_sort by apply sort_sorted;
    pose proof (ox t); pose proof (oy t); lia.
Qed.

Lemma difference_spec : NoDup (set_difference (std_sort X) (std_sort Y)) /\
  forall t, t ∈ set_difference (std_sort X) (std_sort Y) <-> t ∈ X /\ ~ t ∈ Y.
Proof.
  split; [apply occ_nodup|]; intros t; [|rewrite <- !occ_pos]; rewrite occ_difference, !occ_sort by apply sort_sorted;
    pose proof (ox t); pose proof (oy t); lia.
Qed.

End set_operations.

Lemma getSelectedTags_spec f p : NoDup (tag <$> particles p) -> well_built f ->
  (forall name, name ∈ type_names f -> is_ok (getTypeByName name p) = true) ->
  exists l, getSelectedTags f p = Ok l /\ NoDup l /\ forall t, t ∈ l <-> selects f p t.
Proof.
  intros ND. induction f as [| |l|names|sel|f IHf g IHg|f IHf g IHg|f IHf g IHg]; simpl; intros B T.
  - exists []. split_and!; [reflexivity|constructor|]. intros t. apply elem_of_nil.
  - eexists. split_and!; [reflexivity|assumption|]. intros t. rewrite list_elem_of_fmap. split; intros (e & ? & ?); eauto.
  - eauto.
  - destruct (type_ids_spec names p T) as (l & -> & L). eexists. split_and!; [reflexivity|now apply nodup_fmap_filter|].
    intros t. unfold type_tags. rewrite list_elem_of_fmap. split.
    + intros (e & -> & [He Hb]%elem_of_List_filter). apply existsb_exists in Hb as (i & Hi & Ei%Z.eqb_eq). subst i.
      apply list_elem_of_In, L in Hi as (name & Hn & En). exists e, name. auto.
    + intros (e & name & He & <- & Hn & En). exists e. split; [reflexivity|]. apply elem_of_List_filter. split; [assumption|].
      apply existsb_exists. exists (typ e). split; [|apply Z.eqb_refl]. apply list_elem_of_In, L. eauto.
  - eexists. split_and!; [reflexivity|now apply nodup_fmap_filter|]. intros t. rewrite list_elem_of_fmap. split.
    + intros (e & -> & [He Hb]%elem_of_List_filter). apply include_particle_spec in Hb. eauto.
    + intros (e & He & <- & Hb). exists e. split; [reflexivity|]. apply elem_of_List_filter. split; [assumption|].
      now apply include_particle_spec.
  - destruct IHf as (X & -> & NX & SX); [apply B|intros n Hn; apply T, elem_of_app; auto|].
    destruct IHg as (Y & -> & NY & SY); [apply B|intros n Hn; apply T, elem_of_app; auto|].
    destruct (union_spec X Y NX NY) as [U1 U2]. eexists. split_and!; [reflexivity|exact U1|]. intros t. now rewrite U2, SX, SY.
  - destruct IHf as (X & -> & NX & SX); [apply B|intros n Hn; apply T, elem_of_app; auto|].
    destruct IHg as (Y & -> & NY & SY); [apply B|intros n Hn; apply T, elem_of_app; auto|].
    destruct (intersection_spec X Y NX NY) as [U1 U2]. eexists. split_and!; [reflexivity|exact U1|]. intros t. now rewrite U2, SX, SY.
  - destruct IHf as (X & -> & NX & SX); [apply B|intros n Hn; apply T, elem_of_app; auto|].
    destruct IHg as (Y & -> & NY & SY); [apply B|intros n Hn; apply T, elem_of_app; auto|].
    destruct (difference_spec X Y NX NY) as [U1 U2]. eexists. split_and!; [reflexivity|exact U1|]. intros t. now rewrite U2, SX, SY.
Qed.

Lemma getSelectedTags_throw f p : is_ok (getSelectedTags f p) = false <->
  exists name, name ∈ type_names f /\ is_ok (getTypeByName name p) = false.
Proof.
  assert (NIL : (exists name : string, name ∈ [] /\ is_ok (getTypeByName name p) = false) <-> False)
    by (split; [intros (n & E & _); now apply elem_of_nil in E|contradiction]).
  assert (APP : forall l l' : list string, (exists name, name ∈ l ++ l' /\ is_ok (getTypeByName name p) = false) <->
    (exists name, name ∈ l /\ is_ok (getTypeByName name p) = false) \/ (exists name, name ∈ l' /\ is_ok (getTypeByName name p) = false)).
  { intros l l'. split; [intros (n & [?|?]%elem_of_app & ?); eauto|].
    intros [(n & ? & ?)|(n & ? & ?)]; exists n; (split; [apply elem_of_app; auto|assumption]). }
  induction f as [| |l|names|sel|f IHf g IHg|f IHf g IHg|f IHf g IHg]; simpl; rewrite ?NIL, ?APP; try (split; [discriminate|contradiction]);
    [|rewrite <- IHf, <- IHg; destruct (getSelectedTags f p), (getSelectedTags g p); simpl; intuition discriminate..].
  rewrite <- type_ids_throw. destruct (type_ids names p); reflexivity.
Qed.

(** * Properties *)

(** On consistent particle data a filter returns each selected tag once, and
    selects exactly the particles its expression means: all, listed, of a named
    type, centres, constituents or free particles by the body flag, and the union,
    intersection and difference of two filters as sets. It throws exactly when the
    expression names a type that does not exist. *)
Theorem filter_semantics (f : pfilter) (p : pdata) (W : wf p) (B : well_built f) :
  (is_ok (getSelectedTags f p) = false <-> exists name, name ∈ type_names f /\ is_ok (getTypeByName name p) = false) /\
  (forall l, getSelectedTags f p = Ok l -> NoDup l /\ forall t, t ∈ l <-> selects f p t).
Proof.
  split; [apply getSelectedTags_throw|]. intros l E.
  destruct (getSelectedTags_spec f p) as (l' & E' & N & S); [exact (wf_local_nodup p W)|assumption| |].
  - intros name Hn. destruct (is_ok (getTypeByName name p)) eqn:O; [reflexivity|]. exfalso.
    assert (C : is_ok (getSelectedTags f p) = false) by (apply getSelectedTags_throw; eauto). rewrite E in C. discriminate.
  - rewrite E in E'. injection E' as <-. auto.
Qed.

Definition example_filter : pfilter := FilterUnion (FilterSetDifference FilterAll (FilterType ["B"%string])) (FilterTags [1]).

Lemma filter_semantics_witness : getSelectedTags example_filter loaded3 = Ok [0; 1; 2] /\ NoDup [0; 1; 2].
Proof.
  assert (E : getSelectedTags example_filter loaded3 = Ok [0; 1; 2]) by (vm_compute; reflexivity).
  split; [exact E|].
  apply (proj2 (filter_semantics example_filter loaded3 (proj1 loaded3_ok) (conj (conj I I) (NoDup_singleton 1))) _ E).
Defined.

(** The set operations of filters count: on arbitrary selections an element
    occurs in the union as often as in the operand where it occurs most, in the
    intersection as often as where it occurs least, and in the difference as often
    as the surplus, so a tag listed twice survives the subtraction of a filter
    that selects it once. *)
Theorem filter_multiplicity (f g : pfilter) (p : pdata) (X Y : list Z) (t : Z)
  (EX : getSelectedTags f p = Ok X) (EY : getSelectedTags g p = Ok Y) :
  (exists l, getSelectedTags (FilterUnion f g) p = Ok l /\ occ t l = Nat.max (occ t X) (occ t Y)) /\
  (exists l, getSelectedTags (FilterIntersection f g) p = Ok l /\ occ t l = Nat.min (occ t X) (occ t Y)) /\
  (exists l, getSelectedTags (FilterSetDifference f g) p = Ok l /\ occ t l = (occ t X - occ t Y)%nat).
Proof.
  split_and!; simpl; rewrite EX, EY; simpl; (eexists; split; [reflexivity|]).
  - rewrite occ_union, !occ_sort by apply sort_sorted. reflexivity.
  - rewrite occ_intersection, !occ_sort by apply sort_sorted. reflexivity.
  - rewrite occ_difference, !occ_sort by apply sort_sorted. reflexivity.
Qed.

Lemma filter_multiplicity_witness :
  exists l, getSelectedTags (FilterSetDifference (FilterTags [1; 1]) (FilterTags [1])) fresh = Ok l /\ occ 1 l = 1%nat.
Proof. exact (proj2 (proj2 (filter_multiplicity (FilterTags [1; 1]) (FilterTags [1]) fresh [1; 1] [1] 1 eq_refl eq_refl))). Defined.
