(* ===== verification/ParticleGroup.v ===== *)
(** Particle groups ([hoomd/ParticleGroup.h], [hoomd/ParticleGroup.cc]): the
    members of a filter or of a tag list, with the lookup tables by tag and by
    index that the group rebuilds lazily after the particle data signals a change.

    The model is the host code without a domain decomposition. The group reads
    the particle data [p]; its slots are driven by the signals the particle data
    emits. Array accesses are checked: an access outside an array, undefined in
    the source, is the outcome [OutOfBounds]. An exception leaves the group as it
    was, because the only call that throws comes before the first update. *)

From Stdlib Require Import ZArith Lia QArith String Sorted.
From stdpp Require Import base list list_numbers sorting gmap strings.
From S2P Require Import Prelude HOOMDMath BoxDim ParticleData ParticleDataProps ParticleDataSpec ParticleFilter.
Local Open Scope Z_scope.

Local Open Scope hoomd_scope.

(** * The model *)

Record group := mkGroup {
  m_is_member : list Z;
  m_member_idx : list Z;
  m_member_tags : list Z;
  m_num_local_members : Z;
  m_particles_sorted : bool;
  m_reallocated : bool;
  m_global_ptl_num_change : bool;
  m_is_member_tag : list Z;
  m_selector : option pfilter;
  m_update_tags : bool;
  m_warning_printed : bool;
  m_n_central_and_free_global : Z
}.

(** Assignments to groups of members. *)
Definition set_flags (sorted realloc change : bool) (g : group) : group :=
  mkGroup (m_is_member g) (m_member_idx g) (m_member_tags g) (m_num_local_members g) sorted realloc change
    (m_is_member_tag g) (m_selector g) (m_update_tags g) (m_warning_printed g) (m_n_central_and_free_global g).

Definition set_members (tags idx : list Z) (g : group) : group :=
  mkGroup (m_is_member g) idx tags (m_num_local_members g) (m_particles_sorted g) (m_reallocated g)
    (m_global_ptl_num_change g) (m_is_member_tag g) (m_selector g) (m_update_tags g) (m_warning_printed g) (m_n_central_and_free_global g).

Definition set_tables (is_member is_member_tag : list Z) (g : group) : group :=
  mkGroup is_member (m_member_idx g) (m_member_tags g) (m_num_local_members g) (m_particles_sorted g) (m_reallocated g)
    (m_global_ptl_num_change g) is_member_tag (m_selector g) (m_update_tags g) (m_warning_printed g) (m_n_central_and_free_global g).

Definition set_index (is_member idx : list Z) (num : Z) (g : group) : group :=
  mkGroup is_member idx (m_member_tags g) num false (m_reallocated g)
    (m_global_ptl_num_change g) (m_is_member_tag g) (m_selector g) (m_update_tags g) (m_warning_printed g) (m_n_central_and_free_global g).

Definition set_warned (g : group) : group :=
  mkGroup (m_is_member g) (m_member_idx g) (m_member_tags g) (m_num_local_members g) (m_particles_sorted g) (m_reallocated g)
    (m_global_ptl_num_change g) (m_is_member_tag g) (m_selector g) (m_update_tags g) true (m_n_central_and_free_global g).

Definition set_central (n : Z) (g : group) : group :=
  mkGroup (m_is_member g) (m_member_idx g) (m_member_tags g) (m_num_local_members g) (m_particles_sorted g) (m_reallocated g)
    (m_global_ptl_num_change g) (m_is_member_tag g) (m_selector g) (m_update_tags g) (m_warning_printed g) n.

(** Newly allocated arrays are zero. *)
Definition new_array (n : Z) : list Z := replicate (Z.to_nat n) 0.

(** ** The tables *)

Fixpoint hash_loop (member_tags hash : list Z) : run (list Z) :=
  match member_tags with
  | [] => Ret hash
  | t :: member_tags => bind! hash := write hash t 1 in hash_loop member_tags hash
  end.

Definition buildTagHash (p : pdata) (g : group) : run group :=
  let n := Z.to_nat (m_rtag_size p) in
  if Z.of_nat (length (m_is_member_tag g)) <? m_rtag_size p then OutOfBounds
  else
    bind! hash := hash_loop (m_member_tags g) (replicate n 0 ++ drop n (m_is_member_tag g)) in
    Ret (set_tables (m_is_member g) hash g).

(** The loop over the local particles, whose tags are [tags] from [idx] on. *)
Fixpoint rebuild_loop (tags : list Z) (idx : Z) (hash is_member member_idx : list Z) (cur_member : Z) : run (list Z * list Z * Z) :=
  match tags with
  | [] => Ret (is_member, member_idx, cur_member)
  | t :: tags =>
      bind! m := read hash t in
      bind! is_member := write is_member idx m in
      if negb (m =? 0) then
        bind! member_idx := write member_idx cur_member idx in
        rebuild_loop tags (idx + 1) hash is_member member_idx (cur_member + 1)
      else rebuild_loop tags (idx + 1) hash is_member member_idx cur_member
  end.

Definition rebuildIndexList (p : pdata) (g : group) : run group :=
  bind! (is_member, member_idx, cur_member) :=
    rebuild_loop (local_tags p) 0 (m_is_member_tag g) (m_is_member g) (m_member_idx g) 0 in
  Ret (set_index is_member member_idx cur_member g).

Definition is_central_or_free (e : pdata_element) : bool := (body e =? tag e) || (body e >? MIN_FLOPPY).

Fixpoint central_loop (l : list pdata_element) (hash : list Z) (count : Z) : run Z :=
  match l with
  | [] => Ret count
  | e :: l =>
      bind! m := read hash (tag e) in
      central_loop l hash (if negb (m =? 0) && is_central_or_free e then count + 1 else count)
  end.

Definition updateMemberTags (force_update : bool) (p : pdata) (g : group) : run group :=
  bind! g :=
    match m_selector g with
    | None => Ret g
    | Some f =>
        if m_update_tags g || force_update then
          bind! member_tags := lift (getSelectedTags f p) in
          Ret (set_members (std_sort member_tags) (new_array (Z.of_nat (length member_tags))) g)
        else Ret (if negb (m_warning_printed g) then set_warned g else g)
    end in
  let g := set_tables (new_array (m_max_nparticles p)) (new_array (m_rtag_size p)) g in
  bind! g := buildTagHash p g in
  bind! g := rebuildIndexList p g in
  bind! n := central_loop (particles p) (m_is_member_tag g) 0 in
  Ret (set_central n g).

Definition reallocate (p : pdata) (g : group) : run group :=
  let g := set_tables (array_resize 0 (m_max_nparticles p) (m_is_member g)) (m_is_member_tag g) g in
  if negb (Z.of_nat (length (m_is_member_tag g)) =? m_rtag_size p) then
    buildTagHash p (set_tables (m_is_member g) (new_array (m_rtag_size p)) g)
  else Ret g.

Definition checkRebuild (p : pdata) (g : group) : run group :=
  bind! g := if m_global_ptl_num_change g then
              bind! g := updateMemberTags false p g in
              Ret (set_flags (m_particles_sorted g) (m_reallocated g) false g)
            else Ret g in
  bind! g := if m_reallocated g then
              bind! g := reallocate p g in
              Ret (set_flags (m_particles_sorted g) false (m_global_ptl_num_change g) g)
            else Ret g in
  if m_particles_sorted g then
    bind! g := rebuildIndexList p g in
    Ret (set_flags false (m_reallocated g) (m_global_ptl_num_change g) g)
  else Ret g.

(** ** Construction *)

Definition group_from_filter (f : pfilter) (update_tags : bool) (p : pdata) : run group :=
  updateMemberTags true p (mkGroup [] [] [] 0 true false false [] (Some f) update_tags false 0).

Definition group_from_tags (member_tags : list Z) (p : pdata) : run group :=
  if existsb (fun t => t >? getMaximumTag p) member_tags then Raise (runtime_error "Error creating ParticleGroup")
  else
    let n := Z.of_nat (length member_tags) in
    let g := mkGroup (new_array (m_max_nparticles p)) [] (std_sort member_tags) 0 true false false
               (new_array (m_rtag_size p)) None false false 0 in
    bind! g := buildTagHash p g in
    rebuildIndexList p (set_members (m_member_tags g) (new_array n) g).

(** ** Signals *)

Definition slotReallocate (g : group) : group := set_flags (m_particles_sorted g) true (m_global_ptl_num_change g) g.
Definition slotParticleSort (g : group) : group := set_flags true (m_reallocated g) (m_global_ptl_num_change g) g.
Definition slotGlobalParticleNumChange (g : group) : group := set_flags (m_particles_sorted g) (m_reallocated g) true g.

Definition slot (g : group) (s : signal) : group :=
  match s with
  | sort_signal => slotParticleSort g
  | max_particle_num_signal => slotReallocate g
  | global_particle_num_signal => slotGlobalParticleNumChange g
  | ghost_particles_removed_signal | boxchange_signal => g
  end.

Definition deliver (l : list signal) (g : group) : group := fold_left slot l g.

(** ** Queries *)

Definition getNumMembersGlobal (p : pdata) (g : group) : run (Z * group) :=
  bind! g := checkRebuild p g in
  Ret (Z.of_nat (length (m_member_tags g)), g).

Definition getNumMembers (p : pdata) (g : group) : run (Z * group) :=
  bind! g := checkRebuild p g in
  Ret (m_num_local_members g, g).

Definition getMemberTag (i : Z) (p : pdata) (g : group) : run (Z * group) :=
  bind! g := checkRebuild p g in
  bind! t := read (m_member_tags g) i in
  Ret (t, g).

Definition getMemberIndex (j : Z) (p : pdata) (g : group) : run (Z * group) :=
  bind! g := checkRebuild p g in
  bind! idx := read (m_member_idx g) j in
  Ret (idx, g).

(** An empty array has a null pointer. *)
Definition isMember (idx : Z) (p : pdata) (g : group) : run (bool * group) :=
  bind! g := checkRebuild p g in
  if (length (m_is_member g) =? 0)%nat then Ret (false, g)
  else
    bind! m := read (m_is_member g) idx in
    Ret (m =? 1, g).

(** [for (i = 0; i < getNumMembers(); i++) f(getMemberIndex(i))]; the count does
    not change in the loop, because the first query leaves nothing to rebuild. *)
Fixpoint member_loop {A} (f : Z -> A -> run A) (count : nat) (i : Z) (acc : A) (p : pdata) (g : group) : run (A * group) :=
  match count with
  | O => Ret (acc, g)
  | S count =>
      bind! (idx, g) := getMemberIndex i p g in
      bind! acc := f idx acc in
      member_loop f count (i + 1) acc p g
  end.

Definition for_members {A} (f : Z -> A -> run A) (acc : A) (p : pdata) (g : group) : run (A * group) :=
  bind! (n, g) := getNumMembers p g in
  member_loop f (Z.to_nat n) 0 acc p g.

Definition getTotalMass (p : pdata) (g : group) : run (Scalar * group) :=
  for_members (fun idx total_mass => Ret (total_mass + mass (element idx p))%Q) 0%Q p g.

Definition add_weighted (p : pdata) (idx : Z) (acc : Scalar * Scalar3) : run (Scalar * Scalar3) :=
  let '(total_mass, c) := acc in
  let m := mass (element idx p) in
  let u := BoxDim.shift (m_global_box p) (pos (element idx p)) (image (element idx p)) in
  Ret ((total_mass + m)%Q, make_scalar3 (s3x c + m * s3x u) (s3y c + m * s3y u) (s3z c + m * s3z u)).

Definition getCenterOfMass (p : pdata) (g : group) : run (Scalar3 * group) :=
  bind! ((total_mass, c), g) := for_members (add_weighted p) (0%Q, BoxDim.zero3) p g in
  Ret (make_scalar3 (s3x c / total_mass) (s3y c / total_mass) (s3z c / total_mass), g).

Definition intersectionSize (p : pdata) (g other : group) : run (Z * group * group) :=
  bind! ((n, other), g) :=
    for_members (fun idx acc =>
      let '(n, other) := acc in
      bind! (b, other) := isMember idx p other in
      Ret (if b : bool then n + 1 else n, other)) (0, other) p g in
  Ret (n, g, other).

(** ** Combination *)

(** [b] is [None] when the two arguments are the same object. *)
Definition combine (op : list Z -> list Z -> list Z) (same : list Z -> list Z) (p : pdata) (a : group) (b : option group) : run group :=
  match b with
  | Some b =>
      bind! (_, a) := getNumMembersGlobal p a in
      bind! (_, b) := getNumMembersGlobal p b in
      group_from_tags (op (m_member_tags a) (m_member_tags b)) p
  | None =>
      bind! (_, a) := getNumMembersGlobal p a in
      group_from_tags (same (m_member_tags a)) p
  end.

Definition groupUnion : pdata -> group -> option group -> run group := combine set_union (fun l => l).
Definition groupIntersection : pdata -> group -> option group -> run group := combine set_intersection (fun l => l).

(** The difference of a group with itself asks the group nothing. *)
Definition groupDifference (p : pdata) (a : group) (b : option group) : run group :=
  match b with
  | Some b => combine set_difference (fun l => l) p a (Some b)
  | None => group_from_tags [] p
  end.

(** * The tables *)

Definition in_range (n : Z) (l : list Z) : Prop := forall t, t ∈ l -> 0 <= t < n.

(** The table by tag holds 1 at the members and 0 elsewhere. *)
Definition member_bit (M : list Z) (t : Z) : Z := if decide (t ∈ M) then 1 else 0.
Definition hash_ok (n : Z) (M h : list Z) : Prop :=
  length h = Z.to_nat n /\ forall t, 0 <= t < n -> h !! Z.to_nat t = Some (member_bit M t).

Lemma hash_loop_spec M : forall h, in_range (Z.of_nat (length h)) M ->
  exists h', hash_loop M h = Ret h' /\ length h' = length h /\
    forall t, 0 <= t < Z.of_nat (length h) -> h' !! Z.to_nat t = if decide (t ∈ M) then Some 1 else h !! Z.to_nat t.
Proof.
  induction M as [|a M IH]; intros h R; [exists h; split_and!; auto|]. simpl.
  pose proof (R a ltac:(left)) as Ra. rewrite write_in by lia. simpl.
  destruct (IH (zset h a 1)) as (h' & -> & L & H); [intros t Ht; rewrite length_zset; apply R; now right|].
  exists h'. rewrite length_zset in *. split_and!; auto. intros t Ht. rewrite H by assumption.
  destruct (decide (t = a)) as [->|D].
  - rewrite (decide_True (P := a ∈ a :: M)) by left. rewrite lookup_zset_eq by lia. now destruct (decide _).
  - rewrite lookup_zset_ne by lia. destruct (decide (t ∈ M)); [rewrite decide_True by now right|rewrite decide_False]; auto.
    rewrite elem_of_cons. tauto.
Qed.

Lemma hash_loop_out M : forall h t, t ∈ M -> ~ 0 <= t < Z.of_nat (length h) -> hash_loop M h = OutOfBounds.
Proof.
  induction M as [|a M IH]; intros h t Ht L; [now apply elem_of_nil in Ht|]. simpl. unfold write.
  destruct ((0 <=? a) && (a <? Z.of_nat (length h))) eqn:B; [|reflexivity]. zbool. simpl. apply elem_of_cons in Ht as [->|Ht]; [lia|].
  apply (IH _ t); [assumption|]. now rewrite length_zset.
Qed.

Lemma buildTagHash_spec p g : length (m_is_member_tag g) = Z.to_nat (m_rtag_size p) -> in_range (m_rtag_size p) (m_member_tags g) ->
  0 <= m_rtag_size p ->
  exists h, buildTagHash p g = Ret (set_tables (m_is_member g) h g) /\ hash_ok (m_rtag_size p) (m_member_tags g) h.
Proof.
  intros L R N. unfold buildTagHash. rewrite (proj2 (Z.ltb_ge _ _)) by lia. rewrite drop_ge by lia. rewrite app_nil_r.
  destruct (hash_loop_spec (m_member_tags g) (replicate (Z.to_nat (m_rtag_size p)) 0)) as (h & -> & Lh & H).
  { rewrite length_replicate, Z2Nat.id by assumption. exact R. }
  exists h. split; [reflexivity|]. rewrite length_replicate in *. split; [assumption|]. intros t Ht.
  rewrite H by lia. unfold member_bit. destruct (decide _); [reflexivity|]. now apply lookup_replicate_2; lia.
Qed.

Lemma buildTagHash_out p g t : length (m_is_member_tag g) = Z.to_nat (m_rtag_size p) -> 0 <= m_rtag_size p -> t ∈ m_member_tags g ->
  ~ 0 <= t < m_rtag_size p -> buildTagHash p g = OutOfBounds.
Proof.
  intros L N Ht R. unfold buildTagHash. destruct (_ <? _); [reflexivity|]. rewrite drop_ge, app_nil_r by lia.
  rewrite (hash_loop_out _ _ t); auto. rewrite length_replicate. lia.
Qed.

(** The indices, from [idx] on, of the members among the particles with [tags]. *)
Fixpoint local_members (M : list Z) (idx : Z) (tags : list Z) : list Z :=
  match tags with
  | [] => []
  | t :: tags => if decide (t ∈ M) then idx :: local_members M (idx + 1) tags else local_members M (idx + 1) tags
  end.

Lemma rebuild_loop_spec n M hash : hash_ok n M hash -> forall tags idx is_member member_idx cur,
  in_range n tags -> 0 <= idx -> idx + Z.of_nat (length tags) <= Z.of_nat (length is_member) ->
  0 <= cur -> cur + Z.of_nat (length (local_members M idx tags)) <= Z.of_nat (length member_idx) ->
  exists im mi, rebuild_loop tags idx hash is_member member_idx cur = Ret (im, mi, cur + Z.of_nat (length (local_members M idx tags))) /\
    length im = length is_member /\ length mi = length member_idx /\
    (forall k t, tags !! k = Some t -> im !! (Z.to_nat idx + k)%nat = Some (member_bit M t)) /\
    (forall k, (k < Z.to_nat idx)%nat -> im !! k = is_member !! k) /\
    take (Z.to_nat cur + length (local_members M idx tags)) mi = take (Z.to_nat cur) member_idx ++ local_members M idx tags.
Proof.
  intros [_ H]. induction tags as [|t tags IH]; intros idx im mi cur R Hi Li Hc Lc.
  { exists im, mi. simpl. rewrite Z.add_0_r, Nat.add_0_r, app_nil_r. split_and!; auto. intros k t E. now rewrite lookup_nil in E. }
  simpl in *. rewrite (read_Some hash t _ (H t (R t ltac:(left)))). simpl. rewrite write_in by lia. simpl.
  assert (Step : forall mi' cur', 0 <= cur' -> length mi' = length mi ->
    cur' + Z.of_nat (length (local_members M (idx + 1) tags)) <= Z.of_nat (length mi) ->
    exists im2 mi2, rebuild_loop tags (idx + 1) hash (zset im idx (member_bit M t)) mi' cur' =
        Ret (im2, mi2, cur' + Z.of_nat (length (local_members M (idx + 1) tags))) /\
      length im2 = length im /\ length mi2 = length mi /\
      (forall k s, (t :: tags) !! k = Some s -> im2 !! (Z.to_nat idx + k)%nat = Some (member_bit M s)) /\
      (forall k, (k < Z.to_nat idx)%nat -> im2 !! k = im !! k) /\
      take (Z.to_nat cur' + length (local_members M (idx + 1) tags)) mi2 = take (Z.to_nat cur') mi' ++ local_members M (idx + 1) tags).
  { intros mi' cur' Hc' Lm Lc'.
    destruct (IH (idx + 1) (zset im idx (member_bit M t)) mi' cur') as (im2 & mi2 & E & L1 & L2 & A & B & C);
      try (rewrite ?length_zset; lia); [intros s Hs; apply R; now right|].
    exists im2, mi2. rewrite length_zset in L1. split_and!; auto; try lia.
    - intros [|k] s Es; simpl in Es.
      + injection Es as <-. rewrite Nat.add_0_r, B by lia. apply lookup_zset_eq. lia.
      + rewrite <- (A k s Es). f_equal. lia.
    - intros k Hk. rewrite B by lia. apply lookup_zset_ne. lia. }
  unfold member_bit at 1. destruct (decide (t ∈ M)) as [Ht|Ht]; simpl in *.
  - rewrite write_in by lia. simpl. destruct (Step (zset mi cur idx) (cur + 1)) as (im2 & mi2 & E & L1 & L2 & A & B & C);
      try (rewrite ?length_zset; lia). exists im2, mi2. rewrite E. split_and!; auto; [f_equal; f_equal; lia|].
    replace (Z.to_nat cur + S _)%nat with (Z.to_nat (cur + 1) + length (local_members M (idx + 1) tags))%nat by lia.
    rewrite C. replace (Z.to_nat (cur + 1)) with (S (Z.to_nat cur)) by lia.
    rewrite (take_S_r _ (Z.to_nat cur) idx) by (apply lookup_zset_eq; lia). unfold zset. rewrite take_insert_ge by lia.
    now rewrite <- app_assoc.
  - apply Step; auto.
Qed.


(** [l] in index order, read off the index range. *)
Lemma local_members_filter p M : wf_mem p ->
  local_members M 0 (local_tags p) = filter (fun i => tag (element i p) ∈ M) (seqZ 0 (getN p)).
Proof.
  intros W. pose proof (wf_N p W). unfold getN.
  assert (G : forall tags idx, 0 <= idx -> (forall k t, tags !! k = Some t -> tag (element (idx + Z.of_nat k) p) = t) ->
    local_members M idx tags = filter (fun i => tag (element i p) ∈ M) (seqZ idx (Z.of_nat (length tags)))).
  { induction tags as [|t tags IH]; intros idx Hi H'; [reflexivity|].
    rewrite seqZ_cons by (simpl; lia). cbn [local_members]. rewrite filter_cons.
    assert (E : tag (element idx p) = t) by (rewrite <- (H' 0%nat t eq_refl); do 2 f_equal; lia).
    replace (Z.pred (Z.of_nat (length (t :: tags)))) with (Z.of_nat (length tags)) by (simpl; lia).
    rewrite <- (IH (Z.succ idx)); [|lia|intros k s Es; rewrite <- (H' (S k) s Es); do 2 f_equal; lia].
    change (Z.succ idx) with (idx + 1). rewrite E. destruct (decide (t ∈ M)); reflexivity. }
  rewrite (G (local_tags p) 0); [|lia|].
  - rewrite length_local_tags by assumption. now rewrite Z2Nat.id by lia.
  - intros k t E. pose proof (lookup_lt_Some _ _ _ E) as Lk. rewrite length_local_tags in Lk by assumption.
    pose proof (element_lookup p (Z.of_nat k) W ltac:(lia)) as E'. rewrite Nat2Z.id in E'. rewrite E in E'. injection E' as ->. f_equal.
Qed.

(** There are no more local members than member tags. *)
Lemma local_members_length p M : wf p -> (length (local_members M 0 (local_tags p)) <= length M)%nat.
Proof.
  intros W. assert (G : forall tags idx, length (local_members M idx tags) = length (filter (fun t => t ∈ M) tags)).
  { induction tags as [|t tags IH]; intros idx; [reflexivity|]. simpl. rewrite filter_cons. destruct (decide (t ∈ M)); simpl; now rewrite IH. }
  rewrite G. apply submseteq_length, NoDup_submseteq; [apply NoDup_filter, (wf_local_nodup p W)|].
  intros t Ht. now apply list_elem_of_filter in Ht as [? _].
Qed.

(** * The invariant *)

(** The index tables describe the local particles of [p]. *)
Record index_ok (p : pdata) (g : group) : Prop := {
  ix_is_member : forall k t, local_tags p !! k = Some t -> m_is_member g !! k = Some (member_bit (m_member_tags g) t);
  ix_num : m_num_local_members g = Z.of_nat (length (local_members (m_member_tags g) 0 (local_tags p)));
  ix_idx : take (length (local_members (m_member_tags g) 0 (local_tags p))) (m_member_idx g) =
           local_members (m_member_tags g) 0 (local_tags p)
}.

(** Whatever is not marked for a rebuild is up to date. *)
Record inv (p : pdata) (g : group) : Prop := {
  iv_sorted : StronglySorted Z.le (m_member_tags g);
  iv_len : length (m_member_idx g) = length (m_member_tags g);
  iv_range : m_global_ptl_num_change g = false -> in_range (m_rtag_size p) (m_member_tags g);
  iv_hash : m_global_ptl_num_change g = false -> hash_ok (m_rtag_size p) (m_member_tags g) (m_is_member_tag g);
  iv_room : m_global_ptl_num_change g = false -> m_reallocated g = false -> length (m_is_member g) = Z.to_nat (m_max_nparticles p);
  iv_index : m_global_ptl_num_change g = false -> m_particles_sorted g = false -> index_ok p g
}.

Definition clean (g : group) : Prop :=
  m_global_ptl_num_change g = false /\ m_reallocated g = false /\ m_particles_sorted g = false.

(** Between queries the group is idle with its identity unchanged. *)
Definition same_identity (g g' : group) : Prop := m_selector g' = m_selector g /\ m_update_tags g' = m_update_tags g.

Lemma wf_rtag_size p : wf p -> 0 <= m_rtag_size p.
Proof. intros W. apply (wf_size_high p W). Qed.

Lemma wf_local_range p : wf p -> in_range (m_rtag_size p) (local_tags p).
Proof. intros W t Ht. split; [apply (wf_local_bounds p W t Ht)|apply (wf_size p W), (wf_active p W), Ht]. Qed.

Lemma rebuildIndexList_spec p g : wf p -> hash_ok (m_rtag_size p) (m_member_tags g) (m_is_member_tag g) ->
  (Z.to_nat (m_nparticles p) <= length (m_is_member g))%nat -> length (m_member_idx g) = length (m_member_tags g) ->
  exists im mi n, rebuildIndexList p g = Ret (set_index im mi n g) /\ length im = length (m_is_member g) /\
    length mi = length (m_member_idx g) /\ index_ok p (set_index im mi n g).
Proof.
  intros W H L E. pose proof (local_members_length p (m_member_tags g) W) as Lm.
  pose proof (length_local_tags p (wf_memory p W)) as Ll.
  destruct (rebuild_loop_spec _ _ _ H (local_tags p) 0 (m_is_member g) (m_member_idx g) 0) as (im & mi & R & L1 & L2 & A & _ & C);
    try lia; [now apply wf_local_range|].
  unfold rebuildIndexList. rewrite R. exists im, mi, (Z.of_nat (length (local_members (m_member_tags g) 0 (local_tags p)))).
  split_and!; auto. constructor; simpl; auto.
Qed.

(** The central and free members. *)
Definition central_and_free (M : list Z) (l : list pdata_element) : list pdata_element :=
  filter (fun e => tag e ∈ M /\ (body e = tag e \/ MIN_FLOPPY < body e)) l.

Lemma central_loop_spec n M hash l : hash_ok n M hash -> in_range n (tag <$> l) -> forall count,
  central_loop l hash count = Ret (count + Z.of_nat (length (central_and_free M l))).
Proof.
  intros [_ H]. induction l as [|e l IH]; intros R count; [simpl; now rewrite Z.add_0_r|]. cbn [central_loop].
  rewrite (read_Some hash (tag e) _ (H (tag e) (R (tag e) ltac:(left)))). cbn [run_bind].
  rewrite IH by (intros t Ht; apply R; now right). f_equal. unfold central_and_free. rewrite filter_cons.
  unfold is_central_or_free, member_bit. rewrite Z.gtb_ltb.
  destruct (decide (tag e ∈ M)), (Z.eqb_spec (body e) (tag e)), (Z.ltb_spec MIN_FLOPPY (body e)), (decide _); simpl; try lia; exfalso;
    intuition lia.
Qed.

(** The tags the group would hold after a rebuild. *)
Definition selected (force : bool) (p : pdata) (g : group) : result (list Z) :=
  match m_selector g with
  | Some f => if m_update_tags g || force then getSelectedTags f p else Ok (m_member_tags g)
  | None => Ok (m_member_tags g)
  end.

Lemma sort_id l : StronglySorted Z.le l -> std_sort l = l.
Proof.
  intros S. apply (StronglySorted_unique Z.le); [apply sort_sorted|assumption|apply merge_sort_Permutation].
Qed.

Lemma elem_of_sort t l : t ∈ std_sort l <-> t ∈ l.
Proof. unfold std_sort. now rewrite (merge_sort_Permutation Z.le l). Qed.

(** [updateMemberTags] up to the hash table. *)
Definition retagged (l : list Z) (p : pdata) (g g1 : group) : Prop :=
  m_member_tags g1 = std_sort l /\ length (m_member_idx g1) = length l /\
  m_is_member g1 = new_array (m_max_nparticles p) /\ m_is_member_tag g1 = new_array (m_rtag_size p) /\
  m_reallocated g1 = m_reallocated g /\ same_identity g g1.

Lemma updateMemberTags_unfold force p g l : StronglySorted Z.le (m_member_tags g) -> length (m_member_idx g) = length (m_member_tags g) ->
  selected force p g = Ok l ->
  exists g1, retagged l p g g1 /\ updateMemberTags force p g =
    (bind! g := buildTagHash p g1 in
     bind! g := rebuildIndexList p g in
     bind! n := central_loop (particles p) (m_is_member_tag g) 0 in
     Ret (set_central n g)).
Proof.
  intros S L E. unfold updateMemberTags, selected in *.
  set (fin := set_tables (new_array (m_max_nparticles p)) (new_array (m_rtag_size p))).
  destruct (m_selector g) as [f|] eqn:F; [destruct (m_update_tags g || force)|].
  - rewrite E. simpl. eexists (fin (set_members _ _ g)). split; [|reflexivity].
    repeat split; auto. simpl. unfold new_array. rewrite length_replicate. lia.
  - injection E as <-. simpl. eexists (fin (if negb (m_warning_printed g) then set_warned g else g)). split; [|reflexivity].
    destruct (negb _); repeat split; simpl; auto; now rewrite sort_id.
  - injection E as <-. simpl. exists (fin g). split; [|reflexivity]. repeat split; simpl; auto; now rewrite sort_id.
Qed.

Lemma updateMemberTags_spec force p g l : wf p -> StronglySorted Z.le (m_member_tags g) ->
  length (m_member_idx g) = length (m_member_tags g) -> selected force p g = Ok l -> in_range (m_rtag_size p) l ->
  exists g', updateMemberTags force p g = Ret g' /\ m_member_tags g' = std_sort l /\ length (m_member_idx g') = length l /\
    hash_ok (m_rtag_size p) (m_member_tags g') (m_is_member_tag g') /\ length (m_is_member g') = Z.to_nat (m_max_nparticles p) /\
    index_ok p g' /\ m_particles_sorted g' = false /\ m_reallocated g' = m_reallocated g /\ same_identity g g' /\
    m_n_central_and_free_global g' = Z.of_nat (length (central_and_free l (particles p))).
Proof.
  intros W S L E R. destruct (updateMemberTags_unfold force p g l S L E) as (g1 & (T1 & T2 & T3 & T4 & T5 & T6) & ->).
  pose proof (wf_rtag_size p W). pose proof (wf_N p (wf_memory p W)).
  assert (Ls : length (std_sort l) = length l) by (apply Permutation_length, merge_sort_Permutation).
  destruct (buildTagHash_spec p g1) as (h & -> & H1); auto.
  { rewrite T4. apply length_replicate. }
  { rewrite T1. intros t Ht. now apply R, elem_of_sort. }
  cbn [run_bind]. destruct (rebuildIndexList_spec p (set_tables (m_is_member g1) h g1)) as (im & mi & n & -> & Li & Lm & I); auto.
  { simpl. rewrite T3. unfold new_array. rewrite length_replicate. lia. }
  { simpl. rewrite T1, T2. now rewrite Ls. }
  cbn [run_bind]. simpl m_is_member_tag. rewrite (central_loop_spec _ _ _ (particles p) H1); [|exact (wf_local_range p W)]. cbn [run_bind].
  eexists. split; [reflexivity|]. simpl in *. split_and!; auto; [lia| |destruct I; constructor; auto|].
  - rewrite Li, T3. apply length_replicate.
  - rewrite Z.add_0_l, T1. unfold central_and_free. do 2 f_equal. apply list_filter_iff. intros e. now rewrite elem_of_sort.
Qed.

Lemma updateMemberTags_out force p g l t : wf p -> StronglySorted Z.le (m_member_tags g) ->
  length (m_member_idx g) = length (m_member_tags g) -> selected force p g = Ok l -> t ∈ l -> ~ 0 <= t < m_rtag_size p ->
  updateMemberTags force p g = OutOfBounds.
Proof.
  intros W S L E Ht R. destruct (updateMemberTags_unfold force p g l S L E) as (g1 & (T1 & T2 & T3 & T4 & T5 & T6) & ->).
  rewrite (buildTagHash_out p g1 t); auto; [|now apply wf_rtag_size|rewrite T1; now apply elem_of_sort].
  rewrite T4. apply length_replicate.
Qed.

Lemma updateMemberTags_throw force p g e : selected force p g = Throw e -> updateMemberTags force p g = Raise e.
Proof.
  unfold selected, updateMemberTags. destruct (m_selector g) as [f|]; [|discriminate].
  destruct (m_update_tags g || force); [|discriminate]. now intros ->.
Qed.

(** What the next query selects. *)
Definition next_tags (p : pdata) (g : group) : result (list Z) :=
  if m_global_ptl_num_change g then selected false p g else Ok (m_member_tags g).

Lemma array_resize_lookup {A} (d : A) n l k x : l !! k = Some x -> (k < Z.to_nat n)%nat -> array_resize d n l !! k = Some x.
Proof. intros E H. unfold array_resize. apply lookup_app_l_Some. now rewrite lookup_take_lt. Qed.

Lemma reallocate_spec p g : wf p -> inv p g -> m_global_ptl_num_change g = false ->
  exists g', reallocate p g = Ret g' /\ inv p (set_flags (m_particles_sorted g) false false g') /\
    m_member_tags g' = m_member_tags g /\ m_particles_sorted g' = m_particles_sorted g /\ m_global_ptl_num_change g' = false /\
    same_identity g g' /\ m_n_central_and_free_global g' = m_n_central_and_free_global g.
Proof.
  intros W I C. destruct (iv_hash p g I C) as [Lh Hh]. pose proof (wf_rtag_size p W). unfold reallocate. simpl.
  rewrite Lh, Z2Nat.id, Z.eqb_refl by assumption. simpl. eexists. split; [reflexivity|]. split; [|repeat split; auto].
  destruct I as [I1 I2 I3 I4 I5 I6]. constructor; simpl; auto.
  - intros _ _. apply length_array_resize.
  - intros _ Sf. destruct (I6 C Sf) as [J1 J2 J3]. constructor; simpl; auto. intros k t Hk.
    apply array_resize_lookup; [now apply J1|]. apply lookup_lt_Some in Hk. rewrite length_local_tags in Hk by apply (wf_memory p W).
    pose proof (wf_N p (wf_memory p W)). lia.
Qed.

(** The rebuild after the tags: memory, then indices. *)
Lemma rebuild_tail p g : wf p -> inv p g -> m_global_ptl_num_change g = false ->
  exists g', (bind! g := if m_reallocated g then
                bind! g := reallocate p g in Ret (set_flags (m_particles_sorted g) false (m_global_ptl_num_change g) g)
              else Ret g in
              if m_particles_sorted g then
                bind! g := rebuildIndexList p g in Ret (set_flags false (m_reallocated g) (m_global_ptl_num_change g) g)
              else Ret g) = Ret g' /\ inv p g' /\ clean g' /\ m_member_tags g' = m_member_tags g /\ same_identity g g' /\
    m_n_central_and_free_global g' = m_n_central_and_free_global g.
Proof.
  intros W I C.
  assert (M : exists g1, (if m_reallocated g then bind! g := reallocate p g in
      Ret (set_flags (m_particles_sorted g) false (m_global_ptl_num_change g) g) else Ret g) = Ret g1 /\
    inv p g1 /\ m_global_ptl_num_change g1 = false /\ m_reallocated g1 = false /\ m_member_tags g1 = m_member_tags g /\
    same_identity g g1 /\ m_n_central_and_free_global g1 = m_n_central_and_free_global g).
  { destruct (m_reallocated g) eqn:Rf; [|exists g; split_and!; auto; now split].
    destruct (reallocate_spec p g W I C) as (g' & -> & I' & T & Sf & Cf & [D1 D2] & N). simpl. eexists. split; [reflexivity|].
    rewrite Sf, Cf. split_and!; auto; now split. }
  destruct M as (g1 & -> & I1 & C1 & R1 & T1 & [D1 D2] & N1). cbn [run_bind].
  destruct (m_particles_sorted g1) eqn:Sf; [|exists g1; split_and!; auto; now split].
  pose proof (wf_N p (wf_memory p W)).
  destruct (rebuildIndexList_spec p g1 W (iv_hash p g1 I1 C1)) as (im & mi & n & -> & Li & Lm & X);
    [rewrite (iv_room p g1 I1 C1 R1); lia|apply (iv_len p g1 I1)|].
  cbn [run_bind]. eexists. split; [reflexivity|]. destruct I1 as [J1 J2 J3 J4 J5 J6]. simpl. rewrite C1, R1.
  split_and!; auto; try now split. constructor; simpl; auto; [lia|intros _ _; rewrite Li; auto|]. intros _ _. destruct X. now constructor.
Qed.

Lemma checkRebuild_ok p g l : wf p -> inv p g -> next_tags p g = Ok l -> in_range (m_rtag_size p) l ->
  exists g', checkRebuild p g = Ret g' /\ inv p g' /\ clean g' /\ m_member_tags g' = std_sort l /\ same_identity g g'.
Proof.
  intros W I E R. unfold checkRebuild, next_tags in *. destruct (m_global_ptl_num_change g) eqn:C.
  - destruct (updateMemberTags_spec false p g l W (iv_sorted p g I) (iv_len p g I) E R)
      as (g1 & -> & T1 & T2 & H1 & L1 & X1 & S1 & R1 & [D1 D2] & _). cbn [run_bind].
    assert (Ls : length (std_sort l) = length l) by (apply Permutation_length, merge_sort_Permutation).
    destruct (rebuild_tail p (set_flags (m_particles_sorted g1) (m_reallocated g1) false g1) W) as (g' & -> & I' & Cl & T' & [D3 D4] & _); auto.
    { constructor; simpl; intros; auto; [rewrite T1; apply sort_sorted|congruence| |destruct X1; now constructor].
      intros t Ht. rewrite T1, elem_of_sort in Ht. now apply R. }
    exists g'. split_and!; auto; [simpl in *; congruence|split; simpl in *; congruence].
  - injection E as <-. cbn [run_bind]. destruct (rebuild_tail p g W I C) as (g' & -> & I' & Cl & T' & D & _).
    exists g'. split_and!; auto. rewrite T'. symmetry. apply sort_id, (iv_sorted p g I).
Qed.

Lemma checkRebuild_out p g l t : wf p -> inv p g -> next_tags p g = Ok l -> t ∈ l -> ~ 0 <= t < m_rtag_size p -> checkRebuild p g = OutOfBounds.
Proof.
  intros W I E Ht R. unfold checkRebuild, next_tags in *. destruct (m_global_ptl_num_change g) eqn:C.
  - now rewrite (updateMemberTags_out false p g l t W (iv_sorted p g I) (iv_len p g I) E Ht R).
  - injection E as <-. now pose proof (iv_range p g I C t Ht).
Qed.

Lemma checkRebuild_throw p g e : next_tags p g = Throw e -> checkRebuild p g = Raise e.
Proof.
  unfold checkRebuild, next_tags. destruct (m_global_ptl_num_change g); [|discriminate]. intros H.
  now rewrite (updateMemberTags_throw false p g e H).
Qed.

(** A query leaves nothing to rebuild. *)
Lemma checkRebuild_clean p g : clean g -> checkRebuild p g = Ret g.
Proof. intros (A & B & C). unfold checkRebuild. rewrite A. simpl. rewrite B. simpl. now rewrite C. Qed.

Lemma group_from_filter_ok f upd p l : wf p -> getSelectedTags f p = Ok l -> in_range (m_rtag_size p) l ->
  exists g, group_from_filter f upd p = Ret g /\ inv p g /\ m_member_tags g = std_sort l /\ m_selector g = Some f /\ m_update_tags g = upd /\
    m_n_central_and_free_global g = Z.of_nat (length (central_and_free l (particles p))).
Proof.
  intros W E R. unfold group_from_filter. set (g0 := mkGroup _ _ _ _ _ _ _ _ _ _ _ _).
  assert (S0 : StronglySorted Z.le (m_member_tags g0)) by constructor.
  assert (Sel : selected true p g0 = Ok l) by (unfold selected; simpl; now rewrite orb_true_r).
  destruct (updateMemberTags_spec true p g0 l W S0 eq_refl Sel R) as (g & -> & T1 & T2 & H1 & L1 & X1 & S1 & R1 & [D1 D2] & N).
  assert (Ls : length (std_sort l) = length l) by (apply Permutation_length, merge_sort_Permutation).
  exists g. split_and!; auto. constructor; intros; auto; [rewrite T1; apply sort_sorted|congruence|].
  intros t Ht. rewrite T1, elem_of_sort in Ht. now apply R.
Qed.

Lemma group_from_tags_ok l p : wf p -> in_range (m_rtag_size p) l -> (forall t, t ∈ l -> t <= getMaximumTag p) ->
  exists g, group_from_tags l p = Ret g /\ inv p g /\ m_member_tags g = std_sort l.
Proof.
  intros W R M. unfold group_from_tags.
  destruct (existsb _ l) eqn:X.
  { apply existsb_exists in X as (t & Ht & Gt). apply list_elem_of_In, M in Ht. zbool. lia. }
  set (g0 := mkGroup _ _ _ _ _ _ _ _ _ _ _ _). pose proof (wf_N p (wf_memory p W)).
  assert (Ls : length (std_sort l) = length l) by (apply Permutation_length, merge_sort_Permutation).
  destruct (buildTagHash_spec p g0) as (h & -> & H1); [apply length_replicate|intros t Ht; now apply R, elem_of_sort|now apply wf_rtag_size|].
  cbn [run_bind]. set (g1 := set_members _ _ _).
  destruct (rebuildIndexList_spec p g1) as (im & mi & n & -> & Li & Lm & I); auto.
  { simpl. unfold new_array. rewrite length_replicate. lia. }
  { simpl. unfold new_array. rewrite length_replicate, Ls. lia. }
  eexists. split_and!; [reflexivity| |reflexivity]. simpl in *. unfold new_array in *. rewrite length_replicate in *.
  constructor; simpl; auto; [apply sort_sorted|lia|intros _ t Ht; now apply R, elem_of_sort].
Qed.
