(* ===== verification/ParticleGroupSpec.v ===== *)
(** What the particle data promises to its observers, and the properties of the
    particle groups that rely on it.

    [Observable] is the interface: a family of changes of the particle data that
    announces what it changes. The group theorems are proved against it; the
    operations of the particle data and the migration of particles are its
    instances. *)

From Stdlib Require Import ZArith Lia QArith String Sorted.
From stdpp Require Import base list list_numbers sorting gmap strings.
From S2P Require Import Prelude HOOMDMath BoxDim ParticleData ParticleDataProps ParticleDataSpec ParticleFilter ParticleGroup.
Local Open Scope Z_scope.
Local Open Scope hoomd_scope.

#[global] Instance signal_eq_dec : EqDecision signal.
Proof. solve_decision. Defined.

(** * The interface *)

(** The change from [p] to [q] emits [s], and what it does not announce it does
    not change: the size of the reverse lookup, the capacity, the local tags. *)
Record announced (p q : pdata) (s : list signal) : Prop := {
  an_signals : m_signals q = m_signals p ++ s;
  an_rtag : global_particle_num_signal ∉ s -> m_rtag_size q = m_rtag_size p;
  an_max : max_particle_num_signal ∉ s -> m_max_nparticles q = m_max_nparticles p;
  an_tags : sort_signal ∉ s -> local_tags q = local_tags p
}.

Class Observable (R : pdata -> pdata -> Prop) (I : pdata -> Prop) : Prop := {
  obs_wf : forall p, I p -> wf p;
  obs_step : forall p q, I p -> R p q -> I q;
  obs_announced : forall p q, I p -> R p q -> exists s, announced p q s
}.

(** ** The particle data implements it *)

(** Emits signals, and announces a change of the capacity. *)
Definition extends (p q : pdata) : Prop :=
  exists s, m_signals q = m_signals p ++ s /\ (max_particle_num_signal ∉ s -> m_max_nparticles q = m_max_nparticles p).

#[global] Instance extends_preorder : PreOrder extends.
Proof.
  split.
  - intros p. exists []. split; [now rewrite app_nil_r|auto].
  - intros p q r (s & E & M) (s' & E' & M'). exists (s ++ s'). split; [now rewrite E', E, app_assoc|].
    rewrite elem_of_app. intros H. rewrite M', M; auto.
Qed.

Lemma extends_same p q : m_signals q = m_signals p -> m_max_nparticles q = m_max_nparticles p -> extends p q.
Proof. intros E M. exists []. split; [now rewrite app_nil_r|auto]. Qed.

Lemma extends_emit sg p : extends p (emit sg p).
Proof. exists [sg]. split; [reflexivity|auto]. Qed.

(** Whatever sets the capacity emits the signal. *)
Lemma extends_max p q : m_signals q = m_signals p ++ [max_particle_num_signal] -> extends p q.
Proof. intros E. exists [max_particle_num_signal]. split; [assumption|]. intros H. exfalso. apply H. left. Qed.

Lemma extends_resize n p : extends p (pd_resize n p).
Proof.
  unfold pd_resize. destruct (n =? 0).
  - destruct (m_arrays_allocated p); [now apply extends_same|now apply extends_max].
  - cbn zeta. set (p1 := if negb (m_arrays_allocated p) then _ else _).
    transitivity p1; [unfold p1; destruct (m_arrays_allocated p); [now apply extends_same|now apply extends_max]|].
    destruct (_ >? _); [|now apply extends_same]. unfold pd_reallocate. destruct (m_arrays_allocated p1); now apply extends_max.
Qed.

(** An operation that ends by announcing a new number and a new order of
    particles. *)
Lemma announced_all p w q : extends p w -> m_max_nparticles q = m_max_nparticles w ->
  m_signals q = m_signals w ++ [global_particle_num_signal; sort_signal] -> exists s, announced p q s.
Proof.
  intros (s & E & M) Mq Eq. exists (s ++ [global_particle_num_signal; sort_signal]). split.
  - now rewrite Eq, E, app_assoc.
  - intros H. exfalso. apply H, elem_of_app. right. left.
  - rewrite elem_of_app. intros H. rewrite Mq. auto.
  - intros H. exfalso. apply H, elem_of_app. right. right. left.
Qed.

(** An operation that ends by announcing a new order. *)
Lemma announced_sort p w q : extends p w -> m_max_nparticles q = m_max_nparticles w -> m_rtag_size q = m_rtag_size p ->
  m_signals q = m_signals w ++ [sort_signal] -> exists s, announced p q s.
Proof.
  intros (s & E & M) Mq Rq Eq. exists (s ++ [sort_signal]). split; auto.
  - now rewrite Eq, E, app_assoc.
  - rewrite elem_of_app. intros H. rewrite Mq. auto.
  - intros H. exfalso. apply H, elem_of_app. right. left.
Qed.

Lemma announced_quiet p q s : m_signals q = m_signals p ++ s -> m_rtag_size q = m_rtag_size p -> m_max_nparticles q = m_max_nparticles p ->
  local_tags q = local_tags p -> exists s, announced p q s.
Proof. intros A B C D. exists s. split; auto. Qed.

Lemma announced_update t f p : (forall e, tag (f e) = tag e) -> wf p -> exists s, announced p (update_local t f p) s.
Proof.
  intros Ft W. apply (announced_quiet _ _ []); [..|now apply update_local_wf];
    unfold update_local; destruct (_ <? _); simpl; rewrite ?app_nil_r; reflexivity.
Qed.

Lemma announced_add type p : exists s, announced p (addParticle type p).2 s.
Proof.
  rewrite addParticle_unfold. cbn zeta. cbn [snd]. set (q := if m_rank p =? 0 then _ else _).
  apply (announced_all p q); [|reflexivity|unfold notifyParticleSort, setNGlobal; simpl; now rewrite <- app_assoc].
  transitivity (tag_added type p).
  - transitivity (removeAllGhostParticles p); [apply (extends_emit ghost_particles_removed_signal (set_nghosts 0 p))|].
    unfold tag_added, take_tag. now destruct (m_recycled_tags _); apply extends_same.
  - unfold q. destruct (m_rank p =? 0); [|reflexivity].
    transitivity (pd_resize (u32 (getN p + 1)) (tag_added type p)); [apply extends_resize|now apply extends_same].
Qed.

Lemma announced_remove t p : exists s, announced p (removeParticle None t p).1 s.
Proof.
  assert (Gh : exists s, announced p (removeAllGhostParticles p) s) by (apply (announced_quiet _ _ [ghost_particles_removed_signal]); reflexivity).
  rewrite removeParticle_unfold. destruct (_ =? 0); [apply (announced_quiet _ _ []); [simpl; now rewrite app_nil_r|reflexivity..]|].
  destruct (_ >=? _); [exact Gh|]. destruct (negb _); [exact Gh|]. cbn [fst].
  apply (announced_all p (take_out p t)); [|reflexivity|unfold retire, notifyParticleSort, setNGlobal; simpl; now rewrite <- app_assoc].
  transitivity (removeAllGhostParticles p); [apply (extends_emit ghost_particles_removed_signal (set_nghosts 0 p))|].
  unfold take_out. cbn zeta. destruct (_ <? getN p); [|now apply extends_same].
  etransitivity; [|apply extends_resize]. destruct (_ <? _); now apply extends_same.
Qed.

Lemma announced_load sn ib p : exists s, announced p (initializeFromSnapshot sn ib p).1 s.
Proof.
  rewrite (proj1 (load_unfold sn ib p)). set (n := (load_loop _ _ _ _ _ _).1.2). set (p1 := pd_resize _ _).
  apply (announced_all p p1); [|reflexivity|unfold resetOrigin, notifyParticleSort, setNGlobal; simpl; now rewrite <- app_assoc].
  unfold p1. etransitivity; [|apply extends_resize].
  transitivity (removeAllGhostParticles p); [apply (extends_emit ghost_particles_removed_signal (set_nghosts 0 p))|now apply extends_same].
Qed.

#[global] Instance step_observable : Observable step ok.
Proof.
  assert (Q : forall p q, m_signals q = m_signals p -> m_rtag_size q = m_rtag_size p -> m_max_nparticles q = m_max_nparticles p ->
    local_tags q = local_tags p -> exists s, announced p q s)
    by (intros p q E **; apply (announced_quiet _ _ []); [now rewrite app_nil_r|assumption..]).
  split; [now intros p [W _]|intros p q O S; now apply (step_ok p)|]. intros p q [W _] S. revert W.
  destruct S; intros W; unfold setVelocity, setImage, setCharge, setMass, setDiameter, setBody, setOrientation,
    setAngularMomentum, setMomentsOfInertia; try (apply announced_update; [reflexivity|assumption]).
  - apply announced_add.
  - apply announced_remove.
  - unfold getNthTag, maybe_rebuild_tag_cache. destruct (_ >=? _); [now apply Q|]. destruct (negb _); now apply Q.
  - apply announced_load.
  - unfold setPosition. destruct (BoxDim.wrap _ _ _ _). now apply announced_update.
  - unfold setType. destruct (getRTag t p <? getN p); [|now apply Q].
    apply (announced_sort p p); [reflexivity|..]; unfold update_local; destruct (_ <? _); reflexivity.
  - unfold translateOrigin. destruct (BoxDim.wrap _ _ _ _). now apply Q.
  - now apply Q.
  - now apply (announced_quiet _ _ [boxchange_signal]).
  - unfold setTypeName in H. destruct (_ >=? _); [discriminate|]. injection H as <-. now apply Q.
Qed.

(** The migration of particles between ranks. *)
Inductive migration : pdata -> pdata -> Prop :=
| migrate_out p : migration p (removeParticles p).1.1
| migrate_in p input : NoDup (local_tags p ++ (tag <$> input)) -> (forall t, t ∈ tag <$> input -> t ∈ m_tag_set p) ->
    migration p (addParticles input p).

#[global] Instance migration_observable : Observable migration wf.
Proof.
  split; [auto|..]; intros p q W M; revert W; destruct M; intros W.
  - destruct (removeParticles_spec p W) as (q & -> & Wq & _). exact Wq.
  - now apply addParticles_spec.
  - rewrite (removeParticles_unfold p W). now apply (announced_sort p p).
  - unfold addParticles. cbn zeta. set (q := pd_resize _ _).
    apply (announced_sort p q); [apply extends_resize|reflexivity| |reflexivity]. simpl.
    unfold q, pd_resize. cbn zeta. case_all; unfold pd_reallocate; case_all; reflexivity.
Qed.

(** * Groups and their particle data *)

Lemma bool_decide_cons (x a : signal) s : bool_decide (x ∈ a :: s) = bool_decide (x = a) || bool_decide (x ∈ s).
Proof. rewrite <- bool_decide_or. apply bool_decide_ext, elem_of_cons. Qed.

(** The delivered signals raise the flags. *)
Lemma deliver_flags s : forall g, deliver s g =
  set_flags (m_particles_sorted g || bool_decide (sort_signal ∈ s)) (m_reallocated g || bool_decide (max_particle_num_signal ∈ s))
    (m_global_ptl_num_change g || bool_decide (global_particle_num_signal ∈ s)) g.
Proof.
  induction s as [|a s IH]; intros g; unfold deliver in *.
  - destruct g. unfold set_flags. simpl. now rewrite !orb_false_r.
  - simpl. rewrite IH, !bool_decide_cons. destruct g. unfold set_flags. f_equal; destruct a; simpl; rewrite ?orb_true_r; reflexivity.
Qed.

Lemma inv_announced p q s g : inv p g -> announced p q s -> inv q (deliver s g).
Proof.
  intros [I1 I2 I3 I4 I5 I6] [_ Ar Am At]. rewrite deliver_flags. constructor; simpl; auto;
    intros [C1 C2%bool_decide_eq_false]%orb_false_iff; rewrite ?Ar by assumption; auto.
  - intros [R1 R2%bool_decide_eq_false]%orb_false_iff. rewrite Am by assumption. auto.
  - intros [S1 S2%bool_decide_eq_false]%orb_false_iff. destruct (I6 C1 S1) as [J1 J2 J3].
    constructor; simpl; rewrite (At S2); auto.
Qed.

(** A group beside its particle data: the data changes and signals the group, or
    the group is queried. *)
Inductive world (R : pdata -> pdata -> Prop) : pdata * group -> pdata * group -> Prop :=
| world_change p q s g : R p q -> m_signals q = m_signals p ++ s -> world R (p, g) (q, deliver s g)
| world_query p g g' : checkRebuild p g = Ret g' -> world R (p, g) (p, g').

(** The three outcomes of a query. *)
Lemma checkRebuild_cases p g : wf p -> inv p g ->
  match next_tags p g with
  | Throw e => checkRebuild p g = Raise e
  | Ok l => (in_range (m_rtag_size p) l /\ exists g', checkRebuild p g = Ret g' /\ inv p g' /\ clean g' /\
               m_member_tags g' = std_sort l /\ same_identity g g') \/
            (~ in_range (m_rtag_size p) l /\ checkRebuild p g = OutOfBounds)
  end.
Proof.
  intros W Iv. destruct (next_tags p g) as [l|e] eqn:N; [|now apply checkRebuild_throw].
  destruct (decide (Forall (fun t => 0 <= t < m_rtag_size p) l)) as [F|F].
  - left. rewrite Forall_forall in F. split; [exact F|]. now apply checkRebuild_ok.
  - right. split; [now rewrite Forall_forall in F|]. apply not_Forall_Exists, Exists_exists in F as (t & Ht & B); [|typeclasses eauto].
    now apply (checkRebuild_out p g l t).
Qed.

Lemma query_inv p g g' : wf p -> inv p g -> checkRebuild p g = Ret g' -> inv p g' /\ same_identity g g'.
Proof.
  intros W Iv E. pose proof (checkRebuild_cases p g W Iv) as C. destruct (next_tags p g) as [l|e]; [|congruence].
  destruct C as [(_ & g1 & E1 & I1 & _ & _ & D)|[_ C]]; [|congruence]. rewrite E in E1. injection E1 as <-. auto.
Qed.

Section observer.
Context {R : pdata -> pdata -> Prop} {I : pdata -> Prop} {O : Observable R I}.

Lemma world_inv x y : world R x y -> I x.1 -> inv x.1 x.2 -> I y.1 /\ inv y.1 y.2 /\ same_identity x.2 y.2.
Proof.
  destruct 1 as [p q s g S E|p g g' E]; simpl; intros Hp Iv.
  - destruct (obs_announced p q Hp S) as [s' A].
    assert (s' = s) as -> by (apply (app_inv_head (m_signals p)); rewrite <- E; symmetry; apply A).
    split_and!; [now apply (obs_step p)|now apply (inv_announced p)|]. rewrite deliver_flags. now split.
  - split; [assumption|]. apply query_inv; auto. now apply (obs_wf (R := R) (I := I)).
Qed.

Lemma worlds_inv x y : rtc (world R) x y -> I x.1 -> inv x.1 x.2 -> I y.1 /\ inv y.1 y.2 /\ same_identity x.2 y.2.
Proof.
  induction 1 as [x|x y z W _ IH]; intros Hx Iv; [split_and!; auto; now split|].
  destruct (world_inv x y W Hx Iv) as (Hy & Iy & [D1 D2]). destruct (IH Hy Iy) as (Hz & Iz & [D3 D4]).
  split_and!; auto. split; congruence.
Qed.

End observer.

(** * The members *)

(** The indices of the particles of [p] with a tag in [l], in index order. *)
Definition member_indices (l : list Z) (p : pdata) : list Z := filter (fun i => tag (element i p) ∈ l) (seqZ 0 (getN p)).

Lemma members_ok p g l : wf p -> inv p g -> clean g -> m_member_tags g = std_sort l ->
  m_num_local_members g = Z.of_nat (length (member_indices l p)) /\
  (forall j idx, member_indices l p !! j = Some idx -> m_member_idx g !! j = Some idx) /\
  (forall idx, 0 <= idx < getN p -> m_is_member g !! Z.to_nat idx = Some (if decide (tag (element idx p) ∈ l) then 1 else 0)).
Proof.
  intros W Iv (C1 & C2 & C3) T. pose proof (wf_memory p W) as Wm. destruct (iv_index p g Iv C1 C3) as [J1 J2 J3].
  rewrite local_members_filter in * by assumption.
  assert (F : filter (fun i => tag (element i p) ∈ m_member_tags g) (seqZ 0 (getN p)) = member_indices l p)
    by (apply list_filter_iff; intros i; now rewrite T, elem_of_sort).
  rewrite F in *. split_and!; auto.
  - intros j idx E. rewrite <- J3 in E. now apply lookup_take_Some in E as [? _].
  - intros idx Hi. rewrite (J1 _ _ (element_lookup p idx Wm Hi)). unfold member_bit. rewrite T.
    destruct (decide _) as [A|A], (decide _) as [B|B]; auto; exfalso; rewrite elem_of_sort in A; auto.
Qed.

Lemma isMember_ok p g l idx : wf p -> inv p g -> clean g -> m_member_tags g = std_sort l -> 0 <= idx < getN p ->
  isMember idx p g = Ret (bool_decide (tag (element idx p) ∈ l), g).
Proof.
  intros W Iv C T Hi. destruct (members_ok p g l W Iv C T) as (_ & _ & M). unfold isMember. rewrite checkRebuild_clean by assumption.
  cbn [run_bind]. pose proof (lookup_lt_Some _ _ _ (M idx Hi)).
  destruct (Nat.eqb_spec (length (m_is_member g)) 0); [lia|]. rewrite (read_Some _ _ _ (M idx Hi)). cbn [run_bind].
  do 2 f_equal. rewrite bool_decide_decide. now destruct (decide _).
Qed.

(** ** Loops over the members *)

Fixpoint fold_run {A} (f : Z -> A -> run A) (l : list Z) (acc : A) : run A :=
  match l with
  | [] => Ret acc
  | i :: l => bind! acc := f i acc in fold_run f l acc
  end.

Lemma member_loop_ok {A} (f : Z -> A -> run A) p g L : clean g ->
  (forall j idx, L !! j = Some idx -> m_member_idx g !! j = Some idx) ->
  forall suf pre acc, L = pre ++ suf ->
  member_loop f (length suf) (Z.of_nat (length pre)) acc p g = (bind! a := fold_run f suf acc in Ret (a, g)).
Proof.
  intros C H. induction suf as [|i suf IH]; intros pre acc E; [reflexivity|]. cbn [length member_loop fold_run].
  unfold getMemberIndex. rewrite checkRebuild_clean by assumption. cbn [run_bind].
  rewrite (read_Some _ _ i) by (rewrite Nat2Z.id; apply H; rewrite E; now apply list_lookup_middle). cbn [run_bind].
  destruct (f i acc) as [a|e|]; [|reflexivity..]. cbn [run_bind].
  replace (Z.of_nat (length pre) + 1) with (Z.of_nat (length (pre ++ [i]))) by (rewrite length_app; simpl; lia).
  apply IH. now rewrite <- app_assoc.
Qed.

(** A query of a group is a query of the rebuilt group. *)
Lemma after_rebuild {A} (q : group -> run A) p g g' : checkRebuild p g = Ret g' -> clean g' ->
  (bind! g := checkRebuild p g in q g) = (bind! g := checkRebuild p g' in q g).
Proof. intros E C. now rewrite E, checkRebuild_clean. Qed.

Lemma for_members_ok {A} (f : Z -> A -> run A) acc p g g' l : wf p -> checkRebuild p g = Ret g' -> inv p g' -> clean g' ->
  m_member_tags g' = std_sort l -> for_members f acc p g = (bind! a := fold_run f (member_indices l p) acc in Ret (a, g')).
Proof.
  intros W E Iv C T. destruct (members_ok p g' l W Iv C T) as (N & M & _). unfold for_members, getNumMembers. rewrite E. cbn [run_bind].
  rewrite N, Nat2Z.id. exact (member_loop_ok f p g' _ C M (member_indices l p) [] acc eq_refl).
Qed.

(** Sums over particles. *)
Definition sumQ (f : Z -> Q) (l : list Z) : Q := foldr (fun i s => (f i + s)%Q) 0%Q l.

Lemma fold_run_sum (f : Z -> Q) l : forall acc, exists s, fold_run (fun i a => Ret (a + f i)%Q) l acc = Ret s /\ (s == acc + sumQ f l)%Q.
Proof.
  induction l as [|i l IH]; intros acc; simpl; [eexists; split; [reflexivity|ring]|].
  destruct (IH (acc + f i)%Q) as (s & -> & E). exists s. split; [reflexivity|]. rewrite E. ring.
Qed.

Lemma fold_run_weighted p l : forall m c, exists m' c', fold_run (add_weighted p) l (m, c) = Ret (m', c') /\
  (m' == m + sumQ (fun i => mass (element i p)) l)%Q /\
  forall proj, proj = s3x \/ proj = s3y \/ proj = s3z ->
    (proj c' == proj c + sumQ (fun i => mass (element i p) * proj (BoxDim.shift (m_global_box p) (pos (element i p)) (image (element i p)))) l)%Q.
Proof.
  induction l as [|i l IH]; intros m c; unfold sumQ; cbn [fold_run add_weighted run_bind foldr].
  { exists m, c. split_and!; [reflexivity|ring|]. intros proj _. ring. }
  match goal with |- context [fold_run _ l (?m1, ?c1)] => destruct (IH m1 c1) as (m' & c' & -> & Em & Ec) end.
  exists m', c'. split_and!; [reflexivity|rewrite Em; unfold sumQ; ring|]. intros proj H. rewrite (Ec proj H). unfold sumQ.
  destruct H as [->|[->| ->]]; cbn [s3x s3y s3z]; ring.
Qed.

Lemma fold_run_count p other l' : wf p -> inv p other -> clean other -> m_member_tags other = std_sort l' ->
  forall l n, (forall i, i ∈ l -> 0 <= i < getN p) ->
  fold_run (fun idx (acc : Z * group) => let '(n, other) := acc in
    bind! (b, other) := isMember idx p other in Ret (if b : bool then n + 1 else n, other)) l (n, other) =
  Ret (n + Z.of_nat (length (filter (fun i => tag (element i p) ∈ l') l)), other).
Proof.
  intros W Iv C T. induction l as [|i l IH]; intros n B; [simpl; now rewrite Z.add_0_r|]. cbn [fold_run].
  rewrite (isMember_ok p other l' i) by (auto; apply B; left). cbn [run_bind]. rewrite IH by (intros j Hj; apply B; now right).
  do 2 f_equal. rewrite filter_cons, bool_decide_decide. destruct (decide _); simpl; lia.
Qed.

(** The other group may have to be rebuilt first. *)
Lemma fold_run_count_any p other o l' : wf p -> checkRebuild p other = Ret o -> inv p o -> clean o -> m_member_tags o = std_sort l' ->
  forall l, (forall i, i ∈ l -> 0 <= i < getN p) ->
  exists o', fold_run (fun idx (acc : Z * group) => let '(n, other) := acc in
    bind! (b, other) := isMember idx p other in Ret (if b : bool then n + 1 else n, other)) l (0, other) =
  Ret (Z.of_nat (length (filter (fun i => tag (element i p) ∈ l') l)), o').
Proof.
  intros W E Iv C T [|i l] B; [exists other; reflexivity|]. exists o.
  pose proof (fold_run_count p o l' W Iv C T (i :: l) 0 B) as F. rewrite Z.add_0_l in F. rewrite <- F. cbn [fold_run].
  replace (isMember i p other) with (isMember i p o); [reflexivity|]. symmetry. unfold isMember. now apply after_rebuild.
Qed.

Lemma elem_of_member_indices l p i : i ∈ member_indices l p -> 0 <= i < getN p.
Proof. unfold member_indices. intros [_ H]%list_elem_of_filter. apply elem_of_seqZ in H. lia. Qed.

(** ** Combination *)

Section combination.
Variables (p : pdata) (X Y : list Z).
Hypothesis W : wf p.
Hypothesis RX : in_range (m_rtag_size p) X.
Hypothesis RY : in_range (m_rtag_size p) Y.
Hypothesis MX : forall t, t ∈ X -> t <= getMaximumTag p.
Hypothesis MY : forall t, t ∈ Y -> t <= getMaximumTag p.

Lemma from_tags_sub Z' : (forall t, t ∈ Z' -> t ∈ X \/ t ∈ Y) ->
  exists g, group_from_tags Z' p = Ret g /\ inv p g /\ m_member_tags g = std_sort Z'.
Proof. intros S. apply group_from_tags_ok; auto; intros t [?|?]%S; auto. Qed.

Lemma op_members t :
  (t ∈ set_union (std_sort X) (std_sort Y) <-> t ∈ X \/ t ∈ Y) /\
  (t ∈ set_intersection (std_sort X) (std_sort Y) <-> t ∈ X /\ t ∈ Y) /\
  (t ∈ set_difference (std_sort X) (std_sort Y) -> t ∈ X) /\
  (NoDup X -> t ∈ set_difference (std_sort X) (std_sort Y) <-> t ∈ X /\ ~ t ∈ Y).
Proof.
  rewrite <- !occ_pos, occ_union, occ_intersection, occ_difference, !occ_sort by apply sort_sorted.
  split_and!; try lia. intros N. pose proof (proj1 (occ_nodup X) N t). lia.
Qed.

End combination.

(** * Properties *)

Lemma group_from_filter_inv f upd p g : wf p -> group_from_filter f upd p = Ret g ->
  inv p g /\ m_selector g = Some f /\ m_update_tags g = upd.
Proof.
  intros W E. destruct (getSelectedTags f p) as [l|e] eqn:S.
  - destruct (decide (Forall (fun t => 0 <= t < m_rtag_size p) l)) as [F|F].
    + rewrite Forall_forall in F. destruct (group_from_filter_ok f upd p l W S F) as (g' & E' & Iv & _ & A & B & _).
      rewrite E in E'. injection E' as <-. auto.
    + exfalso. apply not_Forall_Exists, Exists_exists in F as (t & Ht & B); [|typeclasses eauto].
      unfold group_from_filter in E. rewrite (updateMemberTags_out true p _ l t W) in E; auto; try discriminate; [constructor|].
      unfold selected. simpl. now rewrite orb_true_r.
  - exfalso. unfold group_from_filter in E. rewrite (updateMemberTags_throw true p _ e) in E; [discriminate|].
    unfold selected. simpl. now rewrite orb_true_r.
Qed.


Definition group3 : group :=
  mkGroup [1; 1; 1] [0; 1; 2] [0; 1; 2] 3 false false false [1; 1; 1] (Some FilterAll) true false 3.

Definition removed3 : pdata := (removeParticle None 0 loaded3).1.
Definition removal_signals : list signal := [ghost_particles_removed_signal; global_particle_num_signal; sort_signal].

Lemma removal_world : rtc (world step) (loaded3, group3) (removed3, deliver removal_signals group3).
Proof. apply rtc_once, world_change; [apply step_remove; lia|vm_compute; reflexivity]. Qed.


(** Filters without an explicit list of tags. *)
Fixpoint tag_free (f : pfilter) : Prop :=
  match f with
  | FilterTags _ => False
  | FilterUnion m_f m_g | FilterIntersection m_f m_g | FilterSetDifference m_f m_g => tag_free m_f /\ tag_free m_g
  | _ => True
  end.

Lemma tag_free_local f p : tag_free f -> forall l t, getSelectedTags f p = Ok l -> t ∈ l -> t ∈ local_tags p.
Proof.
  assert (F : forall (P : pdata_element -> bool) t, t ∈ tag <$> List.filter P (particles p) -> t ∈ local_tags p).
  { intros P t (e & -> & [He _]%elem_of_List_filter)%list_elem_of_fmap. apply list_elem_of_fmap. eauto. }
  induction f as [| |m|names|sel|f IHf g IHg|f IHf g IHg|f IHf g IHg]; simpl; intros B l t E Ht; try contradiction.
  - injection E as <-. now apply elem_of_nil in Ht.
  - injection E as <-. exact Ht.
  - destruct (type_ids names p); [|discriminate]. injection E as <-. now apply F in Ht.
  - injection E as <-. now apply F in Ht.
  - destruct (getSelectedTags f p) as [X|], (getSelectedTags g p) as [Y|]; try discriminate. injection E as <-.
    apply (proj1 (op_members X Y t)) in Ht as [H|H]; [now apply (IHf (proj1 B) X)|now apply (IHg (proj2 B) Y)].
  - destruct (getSelectedTags f p) as [X|], (getSelectedTags g p) as [Y|]; try discriminate. injection E as <-.
    apply (proj1 (proj2 (op_members X Y t))) in Ht as [H _]. now apply (IHf (proj1 B) X).
  - destruct (getSelectedTags f p) as [X|], (getSelectedTags g p) as [Y|]; try discriminate. injection E as <-.
    apply (proj1 (proj2 (proj2 (op_members X Y t)))) in Ht. now apply (IHf (proj1 B) X).
Qed.

(** The outcomes of a query after any run: it throws exactly when the
    selection does (the filter names a type that no longer exists), it writes
    outside the table by tag exactly when a tag to be entered is not below the
    size of the reverse lookup, and this never happens to an updating group whose
    filter lists no tags. *)
Theorem group_query_outcomes {R : pdata -> pdata -> Prop} {I : pdata -> Prop} {O : Observable R I}
  (f : pfilter) (upd : bool) (p0 q : pdata) (g0 g : group) (I0 : I p0) (Make : group_from_filter f upd p0 = Ret g0)
  (Run : rtc (world R) (p0, g0) (q, g)) :
  (forall e, checkRebuild q g = Raise e <-> next_tags q g = Throw e) /\
  (checkRebuild q g = OutOfBounds <-> exists l t, next_tags q g = Ok l /\ t ∈ l /\ ~ 0 <= t < m_rtag_size q) /\
  (tag_free f -> upd = true -> checkRebuild q g <> OutOfBounds).
Proof.
  destruct (group_from_filter_inv f upd p0 g0 (obs_wf (R := R) p0 I0) Make) as (V0 & F0 & U0).
  destruct (worlds_inv _ _ Run I0 V0) as (Iq & Vq & [Fq Uq]). pose proof (obs_wf (R := R) q Iq) as W. simpl in *.
  pose proof (checkRebuild_cases q g W Vq) as C.
  assert (Out : checkRebuild q g = OutOfBounds <-> exists l t, next_tags q g = Ok l /\ t ∈ l /\ ~ 0 <= t < m_rtag_size q).
  { split; [|intros (l & t & N & Ht & B); now apply (checkRebuild_out q g l t)]. intros E.
    destruct (next_tags q g) as [l|e]; [|congruence]. destruct C as [(_ & g' & C & _)|[N _]]; [congruence|].
    destruct (decide (Exists (fun t => ~ 0 <= t < m_rtag_size q) l)) as [(t & Ht & B)%Exists_exists|X]; [eauto|].
    exfalso. apply N. intros t Ht. destruct (decide (0 <= t < m_rtag_size q)) as [|B]; [assumption|].
    exfalso. apply X, Exists_exists. eauto. }
  split_and!; [|exact Out|].
  - intros e. destruct (next_tags q g) as [l|e']; [|rewrite C; split; congruence].
    destruct C as [(_ & g' & -> & _)|[_ ->]]; split; discriminate.
  - intros TF -> (l & t & N & Ht & B)%Out. unfold next_tags, selected in N. rewrite Fq, F0, Uq, U0 in N. simpl in N.
    destruct (m_global_ptl_num_change g) eqn:G.
    + apply B, (wf_local_range q W). now apply (tag_free_local f q TF l).
    + injection N as <-. apply B, (iv_range q g Vq G t Ht).
Qed.

Lemma group_query_outcomes_witness : checkRebuild removed3 (deliver removal_signals group3) <> OutOfBounds.
Proof.
  refine (proj2 (proj2 (group_query_outcomes (R := step) (I := ok) FilterAll true loaded3 removed3 group3
    (deliver removal_signals group3) loaded3_ok _ removal_world)) Logic.I eq_refl).
  vm_compute. reflexivity.
Defined.

(** A static group of the three particles; particles 2 and 1 are removed, one is
    added. The new particle has tag 1, the reverse lookup shrinks to two entries,
    and the group enters tag 2 in a table of two. *)
Definition shrunk3 : pdata := (addParticle 0 (removeParticle None 1 (removeParticle None 2 loaded3).1).1).2.

Definition static3 : group :=
  mkGroup [1; 1; 1] [0; 1; 2] [0; 1; 2] 3 false false false [1; 1; 1] (Some FilterAll) false false 3.

Example static_group_out_of_bounds :
  group_from_filter FilterAll false loaded3 = Ret static3 /\ m_rtag_size shrunk3 = 2 /\
  checkRebuild shrunk3 (deliver (drop (length (m_signals loaded3)) (m_signals shrunk3)) static3) = OutOfBounds.
Proof. split_and!; vm_compute; reflexivity. Qed.

(** A filter that lists a tag that does not exist. *)
Example missing_tag_out_of_bounds : group_from_filter (FilterTags [3]) true loaded3 = OutOfBounds.
Proof. vm_compute. reflexivity. Qed.

(** A particle whose body is [MIN_FLOPPY] counts neither as central nor as free,
    and no filter takes it for a constituent. *)
Example min_floppy_not_free (e : pdata_element) (B : body e = MIN_FLOPPY) (T : tag e < MIN_FLOPPY) :
  is_central_or_free e = false /\ include_particle CONSTITUENT e = false.
Proof.
  unfold is_central_or_free, include_particle, toBool, CENTERS, CONSTITUENT, FREE. rewrite B.
  rewrite (proj2 (Z.eqb_neq MIN_FLOPPY (tag e))) by lia. split; reflexivity.
Qed.

(** Combining groups: as long as the members have not been removed from the
    top of the tag range, the union, intersection and difference of two groups
    have as members, in increasing order, the tags in either, in both, and in the
    first only. A group united or intersected with itself is copied, its
    difference with itself is empty. *)
Theorem group_combination (p : pdata) (a b : group) (X Y : list Z) (W : wf p) (Va : inv p a) (Vb : inv p b)
  (Na : next_tags p a = Ok X) (Nb : next_tags p b = Ok Y) (NX : NoDup X)
  (RX : in_range (m_rtag_size p) X) (RY : in_range (m_rtag_size p) Y)
  (MX : forall t, t ∈ X -> t <= getMaximumTag p) (MY : forall t, t ∈ Y -> t <= getMaximumTag p) :
  (exists g, groupUnion p a (Some b) = Ret g /\ inv p g /\ forall t, t ∈ m_member_tags g <-> t ∈ X \/ t ∈ Y) /\
  (exists g, groupIntersection p a (Some b) = Ret g /\ inv p g /\ forall t, t ∈ m_member_tags g <-> t ∈ X /\ t ∈ Y) /\
  (exists g, groupDifference p a (Some b) = Ret g /\ inv p g /\ forall t, t ∈ m_member_tags g <-> t ∈ X /\ ~ t ∈ Y) /\
  (exists g, groupUnion p a None = Ret g /\ groupIntersection p a None = Ret g /\ m_member_tags g = std_sort X) /\
  (exists g, groupDifference p a None = Ret g /\ m_member_tags g = []).
Proof.
  destruct (checkRebuild_ok p a X W Va Na RX) as (a' & Ea & _ & _ & Ta & _).
  destruct (checkRebuild_ok p b Y W Vb Nb RY) as (b' & Eb & _ & _ & Tb & _).
  pose proof (from_tags_sub p X Y W RX RY MX MY) as Mk. pose proof (op_members X Y) as Op.
  unfold groupUnion, groupIntersection, groupDifference, combine, getNumMembersGlobal. rewrite Ea, Eb. cbn [run_bind]. rewrite Ta, Tb.
  split_and!.
  - destruct (Mk (set_union (std_sort X) (std_sort Y))) as (g & -> & V & T); [intros t; apply Op|].
    exists g. split_and!; auto. intros t. rewrite T, elem_of_sort. apply Op.
  - destruct (Mk (set_intersection (std_sort X) (std_sort Y))) as (g & -> & V & T).
    { intros t Ht. left. now apply (proj1 (proj1 (proj2 (Op t)))). }
    exists g. split_and!; auto. intros t. rewrite T, elem_of_sort. apply Op.
  - destruct (Mk (set_difference (std_sort X) (std_sort Y))) as (g & -> & V & T).
    { intros t Ht. left. now apply (proj1 (proj2 (proj2 (Op t)))). }
    exists g. split_and!; auto. intros t. rewrite T, elem_of_sort. now apply Op.
  - destruct (Mk (std_sort X)) as (g & -> & _ & T); [intros t Ht; left; now apply elem_of_sort|].
    exists g. split_and!; auto. rewrite T. apply sort_id, sort_sorted.
  - destruct (Mk []) as (g & -> & _ & T); [intros t Ht; now apply elem_of_nil in Ht|]. exists g. auto.
Qed.

Definition group_b : group := mkGroup [0; 1; 0] [1] [1] 1 false false false [0; 1; 0] (Some (FilterType ["B"%string])) true false 1.

Lemma group3_inv : inv loaded3 group3.
Proof. apply (group_from_filter_inv FilterAll true); [apply loaded3_ok|vm_compute; reflexivity]. Qed.

Lemma group_b_inv : inv loaded3 group_b.
Proof. apply (group_from_filter_inv (FilterType ["B"%string]) true); [apply loaded3_ok|vm_compute; reflexivity]. Qed.

Lemma group3_range t : t ∈ [0; 1; 2] -> 0 <= t < m_rtag_size loaded3 /\ t <= getMaximumTag loaded3.
Proof.
  assert (m_rtag_size loaded3 = 3) as -> by (vm_compute; reflexivity). assert (getMaximumTag loaded3 = 2) as -> by (vm_compute; reflexivity).
  rewrite !elem_of_cons, elem_of_nil. lia.
Qed.

Lemma group_combination_witness :
  exists g, groupDifference loaded3 group3 (Some group_b) = Ret g /\ (2 ∈ m_member_tags g <-> 2 ∈ [0; 1; 2] /\ ~ 2 ∈ [1]).
Proof.
  assert (Sub : forall t, t ∈ [1] -> t ∈ [0; 1; 2]) by (intros t ->%list_elem_of_singleton; right; left).
  destruct (group_combination loaded3 group3 group_b [0; 1; 2] [1] (proj1 loaded3_ok) group3_inv group_b_inv eq_refl eq_refl)
    as (_ & _ & (g & E & _ & M) & _).
  - apply (bool_decide_unpack _). vm_compute. exact Logic.I.
  - intros t Ht. now apply group3_range.
  - intros t Ht. now apply group3_range, Sub.
  - intros t Ht. now apply group3_range.
  - intros t Ht. now apply group3_range, Sub.
  - exists g. split; [exact E|apply M].
Defined.

(** Sums over the members: the total mass is the sum of the masses of the
    local members, the centre of mass times the total mass is the sum of the
    mass-weighted unwrapped positions, and the size of the intersection with
    another group counts the particles that are local members of both. *)
Theorem group_sums (p : pdata) (g other : group) (X Y : list Z) (W : wf p) (Vg : inv p g) (Vo : inv p other)
  (Ng : next_tags p g = Ok X) (No : next_tags p other = Ok Y) (RX : in_range (m_rtag_size p) X) (RY : in_range (m_rtag_size p) Y) :
  exists g' other' M c, checkRebuild p g = Ret g' /\
    getTotalMass p g = Ret (M, g') /\ (M == sumQ (fun i => mass (element i p)) (member_indices X p))%Q /\
    getCenterOfMass p g = Ret (c, g') /\
    (~ M == 0 -> forall proj, proj = s3x \/ proj = s3y \/ proj = s3z ->
       proj c * M == sumQ (fun i => mass (element i p) * proj (BoxDim.shift (m_global_box p) (pos (element i p)) (image (element i p))))
                      (member_indices X p))%Q /\
    intersectionSize p g other =
      Ret (Z.of_nat (length (filter (fun i => tag (element i p) ∈ Y) (member_indices X p))), g', other').
Proof.
  destruct (checkRebuild_ok p g X W Vg Ng RX) as (g' & Eg & Ig & Cg & Tg & _).
  destruct (checkRebuild_ok p other Y W Vo No RY) as (o' & Eo & Io & Co & To & _).
  destruct (fold_run_sum (fun i => mass (element i p)) (member_indices X p) 0%Q) as (M & FM & EM).
  destruct (fold_run_weighted p (member_indices X p) 0%Q BoxDim.zero3) as (m & c & Fc & Em & Ec).
  destruct (fold_run_count_any p other o' Y W Eo Io Co To (member_indices X p) (elem_of_member_indices X p)) as [o FC].
  exists g', o, M, (make_scalar3 (s3x c / m) (s3y c / m) (s3z c / m)). split_and!; auto.
  - unfold getTotalMass. rewrite (for_members_ok _ _ p g g' X) by assumption. now rewrite FM.
  - rewrite EM. ring.
  - unfold getCenterOfMass. rewrite (for_members_ok _ _ p g g' X) by assumption. now rewrite Fc.
  - intros NZ proj H. assert (Mm : (M == m)%Q) by (rewrite EM, Em; reflexivity).
    rewrite Mm in *. specialize (Ec proj H). destruct H as [->|[->| ->]]; cbn [s3x s3y s3z] in *; rewrite Ec; simpl; field; assumption.
  - unfold intersectionSize. rewrite (for_members_ok _ _ p g g' X) by assumption.
    now rewrite FC.
Qed.

Lemma group_sums_witness :
  exists g' other', intersectionSize loaded3 group3 group_b =
    Ret (Z.of_nat (length (filter (fun i => tag (element i loaded3) ∈ [1]) (member_indices [0; 1; 2] loaded3))), g', other').
Proof.
  assert (Sub : forall t, t ∈ [1] -> t ∈ [0; 1; 2]) by (intros t ->%list_elem_of_singleton; right; left).
  destruct (group_sums loaded3 group3 group_b [0; 1; 2] [1] (proj1 loaded3_ok) group3_inv group_b_inv eq_refl eq_refl)
    as (g' & o & M & c & _ & _ & _ & _ & _ & E).
  - intros t Ht. now apply group3_range.
  - intros t Ht. now apply group3_range, Sub.
  - exists g', o. exact E.
Defined.
