(* ===== verification/BondedGroupData.v ===== *)
(** Bonded groups ([hoomd/BondedGroupData.h], [hoomd/BondedGroupData.cc]): bonds,
    angles, dihedrals, impropers, constraints and special pairs, stored as tuples
    of particle tags under group tags of their own, with the lookup table from
    particle indices to groups.

    The template parameter [Group] is a type class; its instances are the group
    structures of the source. The model is the host code without a domain
    decomposition. A [GPUVector] is the list of its elements; the two lookup
    tables keep their whole storage, because a resize leaves old values in it.
    Where the code reads through an unchecked index the operation is in the
    monad [run]; an operation that can throw after it has changed the object
    returns the object beside its outcome. *)

From Stdlib Require Import ZArith Lia QArith String Sorted.
From stdpp Require Import base list list_numbers sorting gmap strings.
From S2P Require Import Prelude HOOMDMath Index1D BoxDim ParticleData.
Local Open Scope Z_scope.
Local Open Scope hoomd_scope.

(** * Groups *)

Definition GROUP_NOT_LOCAL : Z := 4294967295.

(** [typeval_union]: the member that was written last. *)
Inductive typeval_t : Type :=
| tv_type (type : Z)
| tv_val (val : Scalar).

(** Reads of the members; a group reads the member that it writes. *)
Definition tv_get_type (t : typeval_t) : Z := match t with tv_type z => z | tv_val _ => 0 end.
Definition tv_get_val (t : typeval_t) : Scalar := match t with tv_val v => v | tv_type _ => 0%Q end.

Definition is_type (t : typeval_t) : bool := match t with tv_type _ => true | tv_val _ => false end.

(** The template parameters [Group], [group_size] and [has_type_mapping]. *)
Class GroupType (Group : Type) : Type := {
  group_size : nat;
  has_type_mapping : bool;
  get_typeval : Group -> typeval_t;
  get_members : Group -> list Z;
  make_group : typeval_t -> list Z -> Group;
  group_size_pos : (0 < group_size)%nat;
  length_get_members : forall g, length (get_members g) = group_size;
  is_type_get_typeval : forall g, is_type (get_typeval g) = has_type_mapping;
  get_make_typeval : forall t m, is_type t = has_type_mapping -> get_typeval (make_group t m) = t;
  get_make_members : forall t m, length m = group_size -> get_members (make_group t m) = m;
  make_get : forall g, make_group (get_typeval g) (get_members g) = g
}.

Record Bond := mkBond { bond_type : Z; bond_a : Z; bond_b : Z }.
Record MeshBond := mkMeshBond { mb_type : Z; mb_a : Z; mb_b : Z; mb_ta : Z; mb_tb : Z }.
Record Angle := mkAngle { angle_type : Z; angle_a : Z; angle_b : Z; angle_c : Z }.
Record Dihedral := mkDihedral { dih_type : Z; dih_a : Z; dih_b : Z; dih_c : Z; dih_d : Z }.
Record Constraint := mkConstraint { con_d : Scalar; con_a : Z; con_b : Z }.

(** The laws of a group structure: case analysis on the members and on the
    union. *)
Ltac group_laws :=
  intros; repeat match goal with
  | m : list Z, H : length ?m = _ |- _ => destruct m; simpl in H; try discriminate H; [idtac]; injection H as H
  | m : list Z, H : length ?m = 0%nat |- _ => apply nil_length_inv in H; subst m
  | t : typeval_t |- _ => destruct t; try discriminate
  | g : Bond |- _ => destruct g
  | g : MeshBond |- _ => destruct g
  | g : Angle |- _ => destruct g
  | g : Dihedral |- _ => destruct g
  | g : Constraint |- _ => destruct g
  end; simpl in *; try congruence; try lia; auto.

#[global, program] Instance Bond_group : GroupType Bond := {
  group_size := 2;
  has_type_mapping := true;
  get_typeval g := tv_type (bond_type g);
  get_members g := [bond_a g; bond_b g];
  make_group t m := mkBond (tv_get_type t) (zget 0 m 0) (zget 0 m 1)
}.
Solve Obligations with group_laws.

#[global, program] Instance MeshBond_group : GroupType MeshBond := {
  group_size := 4;
  has_type_mapping := true;
  get_typeval g := tv_type (mb_type g);
  get_members g := [mb_a g; mb_b g; mb_ta g; mb_tb g];
  make_group t m := mkMeshBond (tv_get_type t) (zget 0 m 0) (zget 0 m 1) (zget 0 m 2) (zget 0 m 3)
}.
Solve Obligations with group_laws.

#[global, program] Instance Angle_group : GroupType Angle := {
  group_size := 3;
  has_type_mapping := true;
  get_typeval g := tv_type (angle_type g);
  get_members g := [angle_a g; angle_b g; angle_c g];
  make_group t m := mkAngle (tv_get_type t) (zget 0 m 0) (zget 0 m 1) (zget 0 m 2)
}.
Solve Obligations with group_laws.

#[global, program] Instance Dihedral_group : GroupType Dihedral := {
  group_size := 4;
  has_type_mapping := true;
  get_typeval g := tv_type (dih_type g);
  get_members g := [dih_a g; dih_b g; dih_c g; dih_d g];
  make_group t m := mkDihedral (tv_get_type t) (zget 0 m 0) (zget 0 m 1) (zget 0 m 2) (zget 0 m 3)
}.
Solve Obligations with group_laws.

#[global, program] Instance Constraint_group : GroupType Constraint := {
  group_size := 2;
  has_type_mapping := false;
  get_typeval g := tv_val (con_d g);
  get_members g := [con_a g; con_b g];
  make_group t m := mkConstraint (tv_get_val t) (zget 0 m 0) (zget 0 m 1)
}.
Solve Obligations with group_laws.

(** * The data *)

Inductive group_signal : Type :=
| group_num_change_signal
| group_reorder_signal.

(** [m_gpu_table] and [m_gpu_pos_table] are the storage of the vectors, whose
    size is the number of elements of [m_gpu_table_indexer]. *)
Record gdata := mkGD {
  m_n_groups : Z;
  m_n_ghost : Z;
  m_nglobal : Z;
  m_groups : list (list Z);
  m_group_typeval : list typeval_t;
  m_group_tag : list Z;
  m_group_rtag : list Z;
  m_tag_set : list Z;
  m_recycled_tags : list Z;
  m_cached_tag_set : list Z;
  m_invalid_cached_tags : bool;
  m_type_mapping : list string;
  m_gpu_table : list (list Z);
  m_gpu_pos_table : list Z;
  m_gpu_table_indexer : Index2D.t;
  m_gpu_n_groups : list Z;
  m_groups_dirty : bool;
  m_group_signals : list group_signal
}.

(** Assignments to groups of members. *)
Definition set_local (n ghost : Z) (groups : list (list Z)) (typeval : list typeval_t) (tags : list Z) (d : gdata) : gdata :=
  mkGD n ghost (m_nglobal d) groups typeval tags (m_group_rtag d) (m_tag_set d) (m_recycled_tags d) (m_cached_tag_set d)
    (m_invalid_cached_tags d) (m_type_mapping d) (m_gpu_table d) (m_gpu_pos_table d) (m_gpu_table_indexer d) (m_gpu_n_groups d)
    (m_groups_dirty d) (m_group_signals d).

Definition set_rtag (rtag : list Z) (d : gdata) : gdata :=
  mkGD (m_n_groups d) (m_n_ghost d) (m_nglobal d) (m_groups d) (m_group_typeval d) (m_group_tag d) rtag (m_tag_set d)
    (m_recycled_tags d) (m_cached_tag_set d) (m_invalid_cached_tags d) (m_type_mapping d) (m_gpu_table d) (m_gpu_pos_table d)
    (m_gpu_table_indexer d) (m_gpu_n_groups d) (m_groups_dirty d) (m_group_signals d).

Definition set_pool (nglobal : Z) (tag_set recycled : list Z) (d : gdata) : gdata :=
  mkGD (m_n_groups d) (m_n_ghost d) nglobal (m_groups d) (m_group_typeval d) (m_group_tag d) (m_group_rtag d) tag_set
    recycled (m_cached_tag_set d) (m_invalid_cached_tags d) (m_type_mapping d) (m_gpu_table d) (m_gpu_pos_table d)
    (m_gpu_table_indexer d) (m_gpu_n_groups d) (m_groups_dirty d) (m_group_signals d).

Definition set_cache (cached : list Z) (invalid : bool) (d : gdata) : gdata :=
  mkGD (m_n_groups d) (m_n_ghost d) (m_nglobal d) (m_groups d) (m_group_typeval d) (m_group_tag d) (m_group_rtag d) (m_tag_set d)
    (m_recycled_tags d) cached invalid (m_type_mapping d) (m_gpu_table d) (m_gpu_pos_table d)
    (m_gpu_table_indexer d) (m_gpu_n_groups d) (m_groups_dirty d) (m_group_signals d).

Definition set_types (types : list string) (d : gdata) : gdata :=
  mkGD (m_n_groups d) (m_n_ghost d) (m_nglobal d) (m_groups d) (m_group_typeval d) (m_group_tag d) (m_group_rtag d) (m_tag_set d)
    (m_recycled_tags d) (m_cached_tag_set d) (m_invalid_cached_tags d) types (m_gpu_table d) (m_gpu_pos_table d)
    (m_gpu_table_indexer d) (m_gpu_n_groups d) (m_groups_dirty d) (m_group_signals d).

Definition set_table (table : list (list Z)) (pos : list Z) (indexer : Index2D.t) (n : list Z) (d : gdata) : gdata :=
  mkGD (m_n_groups d) (m_n_ghost d) (m_nglobal d) (m_groups d) (m_group_typeval d) (m_group_tag d) (m_group_rtag d) (m_tag_set d)
    (m_recycled_tags d) (m_cached_tag_set d) (m_invalid_cached_tags d) (m_type_mapping d) table pos indexer n
    (m_groups_dirty d) (m_group_signals d).

Definition set_dirty (dirty : bool) (signals : list group_signal) (d : gdata) : gdata :=
  mkGD (m_n_groups d) (m_n_ghost d) (m_nglobal d) (m_groups d) (m_group_typeval d) (m_group_tag d) (m_group_rtag d) (m_tag_set d)
    (m_recycled_tags d) (m_cached_tag_set d) (m_invalid_cached_tags d) (m_type_mapping d) (m_gpu_table d) (m_gpu_pos_table d)
    (m_gpu_table_indexer d) (m_gpu_n_groups d) dirty signals.

Definition getN (d : gdata) : Z := m_n_groups d.
Definition getNGhosts (d : gdata) : Z := m_n_ghost d.
Definition getNGlobal (d : gdata) : Z := m_nglobal d.
Definition getNTypes (d : gdata) : Z := Z.of_nat (length (m_type_mapping d)).

(** [notifyGroupReorder()] and the slot [setDirty()] of the particle sort
    signal. *)
Definition notifyGroupReorder (d : gdata) : gdata := set_dirty true (m_group_signals d ++ [group_reorder_signal]) d.
Definition notifyGroupNumChange (d : gdata) : gdata := set_dirty (m_groups_dirty d) (m_group_signals d ++ [group_num_change_signal]) d.
Definition setDirty (d : gdata) : gdata := set_dirty true (m_group_signals d) d.

(** [reallocate(new_size)] *)
Definition gd_reallocate (new_size n ghost : Z) (d : gdata) : gdata :=
  set_local n ghost (array_resize [] new_size (m_groups d)) (array_resize (tv_type 0) new_size (m_group_typeval d))
    (array_resize 0 new_size (m_group_tag d)) d.

Definition removeAllGhostGroups (d : gdata) : gdata :=
  gd_reallocate (u32 (Z.of_nat (length (m_groups d)) - m_n_ghost d)) (m_n_groups d) 0 d.

(** [initialize()]: neither the type names, nor the tag cache, nor the indexer
    of the table, nor the dirty flag are reset. *)
Definition gd_initialize (d : gdata) : gdata :=
  set_cache (m_cached_tag_set d) true
    (set_table [] [] (m_gpu_table_indexer d) []
      (set_pool 0 [] [] (set_rtag [] (set_local 0 0 [] [] [] d)))).

(** * Types *)

(** [getDefaultTypeName(id)] *)
Definition default_name : string := "ABCDEFGHIJKLMNOPQRSTUVWXYZ".

Definition name_char (k : Z) : Ascii.ascii := default Ascii.zero (String.get (Z.to_nat k) default_name).

Fixpoint name_loop (fuel : nat) (id : Z) (res : string) : string :=
  match fuel with
  | O => res
  | S fuel =>
      if id >=? 26 then let id := id / 26 - 1 in name_loop fuel id (String (name_char (id mod 26)) res)
      else res
  end.

Definition getDefaultTypeName (id : Z) : string := name_loop (Z.to_nat id) id (String (name_char (id mod 26)) EmptyString).

Definition getTypeByName (name : string) (d : gdata) : result Z :=
  match find_type name 0 (m_type_mapping d) with
  | Some i => Ok i
  | None => Throw (runtime_error ("type " ++ name ++ " not found!"))
  end.

Definition getNameByType (type : Z) (d : gdata) : result string :=
  if type >=? getNTypes d then Throw (runtime_error "Requesting type name for non-existent type")
  else Ok (zget EmptyString (m_type_mapping d) type).

Definition setTypeName (type : Z) (new_name : string) (d : gdata) : result gdata :=
  if type >=? getNTypes d then Throw (runtime_error "Setting type name for non-existent type")
  else Ok (set_types (zset (m_type_mapping d) type new_name) d).

(** * Adding, finding and removing groups *)

(** Some member is listed twice: the double loop over positions. *)
Definition repeated_member (m : list Z) : bool :=
  existsb (fun i => existsb (fun j => negb (i =? j)%nat && (nth i m 0 =? nth j m 0)) (seq 0 (length m))) (seq 0 (length m)).

Section operations.
Context {Group : Type} `{GT : GroupType Group}.

(** [BondedGroupData(pdata, n_group_types)] *)
Definition new_gdata (n_group_types : Z) : gdata :=
  gd_initialize
    (mkGD 0 0 0 [] [] [] [] [] [] [] true (if has_type_mapping then getDefaultTypeName <$> seqZ 0 n_group_types else [])
       [] [] (Index2D.make 0 0) [] true []).

Definition addBondedGroup (g : Group) (p : pdata) (d : gdata) : gdata * result Z :=
  let d := removeAllGhostGroups d in
  let typeval := get_typeval g in
  let member_tags := get_members g in
  let max_tag := getMaximumTag p in
  if existsb (fun t => t >? max_tag) member_tags then (d, Throw (runtime_error "Particle tag out of bounds when attempting to add"))
  else if repeated_member member_tags then (d, Throw (runtime_error "The same particle can only occur once in a group"))
  else if has_type_mapping && (tv_get_type typeval >=? getNTypes d) then (d, Throw (runtime_error "Invalid typeid"))
  else
    let '(tag, rtag, recycled) :=
      match m_recycled_tags d with
      | tag :: recycled => (tag, zset (m_group_rtag d) tag (getN d), recycled)
      | [] => (getNGlobal d, m_group_rtag d ++ [getN d], [])
      end in
    let d := set_rtag rtag d in
    let d := set_local (u32 (m_n_groups d + 1)) (m_n_ghost d) (m_groups d ++ [member_tags]) (m_group_typeval d ++ [typeval])
               (m_group_tag d ++ [tag]) d in
    let d := set_pool (u32 (m_nglobal d + 1)) (set_insert tag (m_tag_set d)) recycled d in
    let d := set_cache (m_cached_tag_set d) true d in
    (notifyGroupReorder (notifyGroupNumChange d), Ok tag).

Definition maybe_rebuild_tag_cache (d : gdata) : gdata :=
  if negb (m_invalid_cached_tags d) then d else set_cache (m_tag_set d) false d.

Definition getNthTag (n : Z) (d : gdata) : gdata * result Z :=
  if n >=? getNGlobal d then (d, Throw (runtime_error "index out of bounds!"))
  else
    let d := maybe_rebuild_tag_cache d in
    (d, Ok (zget 0 (m_cached_tag_set d) n)).

Definition getGroupByTag (tag : Z) (p : pdata) (d : gdata) : run Group :=
  bind! group_idx := read (m_group_rtag d) tag in
  if group_idx =? GROUP_NOT_LOCAL then Raise (runtime_error "Trying to get type or constraint value of a group which does not exist!")
  else
    bind! typeval := read (m_group_typeval d) group_idx in
    bind! members := read (m_groups d) group_idx in
    if forallb (fun ptag => isTagActive ptag p) members then Ret (make_group typeval members)
    else Raise (runtime_error "Member tag does not exist!").

Definition getMembersByIndex (group_idx : Z) (d : gdata) : list Z := zget [] (m_groups d) group_idx.
Definition getTypeByIndex (group_idx : Z) (d : gdata) : Z := tv_get_type (zget (tv_type 0) (m_group_typeval d) group_idx).
Definition getValueByIndex (group_idx : Z) (d : gdata) : Scalar := tv_get_val (zget (tv_type 0) (m_group_typeval d) group_idx).

(** The lookup table is not marked for rebuilding. *)
Definition setMemberByIndex (group_idx : Z) (member : list Z) (d : gdata) : gdata :=
  set_local (m_n_groups d) (m_n_ghost d) (zset (m_groups d) group_idx member) (m_group_typeval d) (m_group_tag d) d.

(** The last group moves into the slot [id]. *)
Definition gd_move_last (id size : Z) (d : gdata) : gdata :=
  let last_tag := zget 0 (m_group_tag d) (size - 1) in
  set_rtag (zset (m_group_rtag d) last_tag id)
    (set_local (m_n_groups d) (m_n_ghost d) (zset (m_groups d) id (zget [] (m_groups d) (size - 1)))
      (zset (m_group_typeval d) id (zget (tv_type 0) (m_group_typeval d) (size - 1)))
      (zset (m_group_tag d) id last_tag) d).

(** [pop_back()] *)
Definition pop_back {A} (l : list A) : list A := take (length l - 1) l.

Definition removeBondedGroup (tag : Z) (d : gdata) : gdata * result unit :=
  let d := removeAllGhostGroups d in
  if tag >=? Z.of_nat (length (m_group_rtag d)) then (d, Throw (runtime_error "Trying to remove a group which does not exist!"))
  else
    let id := zget 0 (m_group_rtag d) tag in
    let is_local := id <? getN d in
    if negb is_local then (d, Throw (runtime_error "Trying to remove a group which has been previously removed!"))
    else
      let d := set_rtag (zset (m_group_rtag d) tag GROUP_NOT_LOCAL) d in
      let size := m_n_groups d in
      let d := if id <? size - 1 then gd_move_last id size d else d in
      let d := set_local (u32 (m_n_groups d - 1)) (m_n_ghost d) (pop_back (m_groups d)) (pop_back (m_group_typeval d))
                 (pop_back (m_group_tag d)) d in
      let d := set_pool (u32 (m_nglobal d - 1)) (set_erase tag (m_tag_set d)) (tag :: m_recycled_tags d) d in
      let d := set_cache (m_cached_tag_set d) true d in
      (notifyGroupReorder (notifyGroupNumChange d), Ok tt).

(** * The table of groups by particle index *)

(** First pass over the members [tags] of a group: count the groups of each
    particle. *)
Fixpoint count_members (rtag tags n_groups : list Z) : list Z * run unit :=
  match tags with
  | [] => (n_groups, Ret tt)
  | tag :: tags =>
      match rtag !! Z.to_nat tag with
      | None => (n_groups, OutOfBounds)
      | Some idx =>
          if idx =? NOT_LOCAL then (n_groups, Raise (runtime_error "group incomplete!"))
          else match n_groups !! Z.to_nat idx with
               | None => (n_groups, OutOfBounds)
               | Some n => count_members rtag tags (zset n_groups idx (u32 (n + 1)))
               end
      end
  end.

Fixpoint count_groups (rtag : list Z) (groups : list (list Z)) (n_groups : list Z) : list Z * run unit :=
  match groups with
  | [] => (n_groups, Ret tt)
  | g :: groups =>
      match count_members rtag g n_groups with
      | (n_groups, Ret _) => count_groups rtag groups n_groups
      | failed => failed
      end
  end.

(** [*std::max_element(first, last)], which reads the element at the end of an
    empty range. *)
Definition max_element (l : list Z) : run Z :=
  match l with
  | [] => OutOfBounds
  | x :: l => Ret (fold_left (fun m y => if m <? y then y else m) l x)
  end.

Fixpoint read_all (l : list Z) (ixs : list Z) : run (list Z) :=
  match ixs with
  | [] => Ret []
  | i :: ixs => bind! x := read l i in bind! xs := read_all l ixs in Ret (x :: xs)
  end.

(** Second pass over the members [tags] of the group [g] from position [i] on:
    the entry of a member lists the indices of the other members, then [last]. *)
Fixpoint fill_members (rtag g : list Z) (last : Z) (indexer : Index2D.t) (tags : list Z) (i : nat)
  (n_groups : list Z) (table : list (list Z)) (pos : list Z) : run (list Z * list (list Z) * list Z) :=
  match tags with
  | [] => Ret (n_groups, table, pos)
  | tag1 :: tags =>
      bind! idx1 := read rtag tag1 in
      bind! num := read n_groups idx1 in
      bind! n_groups := write n_groups idx1 (u32 (num + 1)) in
      bind! others := read_all rtag (delete i g) in
      bind! table := write table (Index2D.index indexer idx1 num) (others ++ [last]) in
      bind! pos := write pos (Index2D.index indexer idx1 num) (Z.of_nat i) in
      fill_members rtag g last indexer tags (S i) n_groups table pos
  end.

(** The last element of an entry: the type, or the index of the group. *)
Definition last_element (typeval : list typeval_t) (cur_group : Z) : run Z :=
  if has_type_mapping then bind! t := read typeval cur_group in Ret (tv_get_type t) else Ret cur_group.

Fixpoint fill_groups (rtag : list Z) (typeval : list typeval_t) (indexer : Index2D.t) (groups : list (list Z)) (cur_group : Z)
  (n_groups : list Z) (table : list (list Z)) (pos : list Z) : run (list Z * list (list Z) * list Z) :=
  match groups with
  | [] => Ret (n_groups, table, pos)
  | g :: groups =>
      bind! last := last_element typeval cur_group in
      bind! (n_groups, table, pos) := fill_members rtag g last indexer g 0 n_groups table pos in
      fill_groups rtag typeval indexer groups (cur_group + 1) n_groups table pos
  end.

(** [resize(n)] on the storage of a vector. *)
Definition storage_resize {A} (zero : A) (n : Z) (l : list A) : list A := l ++ replicate (Z.to_nat n - length l) zero.

Definition rebuildGPUTable (p : pdata) (d : gdata) : gdata * run unit :=
  let N := u32 (ParticleData.getN p + m_nghosts p) in
  let groups := take (Z.to_nat (u32 (m_n_groups d + m_n_ghost d))) (m_groups d) in
  let '(n_groups, counted) := count_groups (m_rtag p) groups (replicate (Z.to_nat N) 0) in
  let d := set_table (m_gpu_table d) (m_gpu_pos_table d) (m_gpu_table_indexer d) n_groups d in
  match run_bind counted (fun _ => max_element n_groups) with
  | Raise e => (d, Raise e)
  | OutOfBounds => (d, OutOfBounds)
  | Ret num_groups_max =>
      let indexer := Index2D.make N num_groups_max in
      let table := storage_resize [] (Index2D.getNumElements indexer) (m_gpu_table d) in
      let pos := storage_resize 0 (Index2D.getNumElements indexer) (m_gpu_pos_table d) in
      match fill_groups (m_rtag p) (m_group_typeval d) indexer groups 0 (replicate (Z.to_nat N) 0) table pos with
      | Ret (n_groups, table, pos) => (set_table table pos indexer n_groups d, Ret tt)
      | Raise e => (d, Raise e)
      | OutOfBounds => (d, OutOfBounds)
      end
  end.

(** The lazy rebuild at the start of [getGPUTable], [getGPUPosTable] and
    [getGPUTableIndexer]. *)
Definition updateGPUTable (p : pdata) (d : gdata) : gdata * run unit :=
  if m_groups_dirty d then
    match rebuildGPUTable p d with
    | (d, Ret _) => (set_dirty false (m_group_signals d) d, Ret tt)
    | failed => failed
    end
  else (d, Ret tt).

Definition getGPUTable (p : pdata) (d : gdata) : gdata * run (list (list Z)) :=
  let '(d, r) := updateGPUTable p d in (d, bind! _ := r in Ret (m_gpu_table d)).
Definition getGPUPosTable (p : pdata) (d : gdata) : gdata * run (list Z) :=
  let '(d, r) := updateGPUTable p d in (d, bind! _ := r in Ret (m_gpu_pos_table d)).
Definition getGPUTableIndexer (p : pdata) (d : gdata) : gdata * run Index2D.t :=
  let '(d, r) := updateGPUTable p d in (d, bind! _ := r in Ret (m_gpu_table_indexer d)).

(** [getNGroupsArray()] does not rebuild. *)
Definition getNGroupsArray (d : gdata) : list Z := m_gpu_n_groups d.

(** * Snapshots *)

Record group_snapshot := mkGroupSnapshot {
  gs_type_id : list Z;
  gs_val : list Scalar;
  gs_groups : list (list Z);
  gs_type_mapping : list string;
  gs_size : Z
}.

Definition snap_resize (n_groups : Z) (s : group_snapshot) : group_snapshot :=
  mkGroupSnapshot
    (if has_type_mapping then array_resize 0 n_groups (gs_type_id s) else gs_type_id s)
    (if has_type_mapping then gs_val s else array_resize 0%Q n_groups (gs_val s))
    (array_resize (replicate group_size 0) n_groups (gs_groups s)) (gs_type_mapping s) n_groups.

(** [validate()]; [std::sort] and [std::unique] leave one of each name. *)
Definition snap_validate (s : group_snapshot) : result unit :=
  if has_type_mapping && negb (length (gs_groups s) =? length (gs_type_id s))%nat then Throw (runtime_error "All array sizes must match.")
  else if negb has_type_mapping && negb (length (gs_groups s) =? length (gs_val s))%nat then Throw (runtime_error "All array sizes must match.")
  else if has_type_mapping && negb (length (remove_dups (gs_type_mapping s)) =? length (gs_type_mapping s))%nat
       then Throw (runtime_error "Type names must be unique.")
  else Ok tt.

Definition snap_typeval (s : group_snapshot) (i : nat) : typeval_t :=
  if has_type_mapping then tv_type (nth i (gs_type_id s) 0) else tv_val (nth i (gs_val s) 0%Q).

(** The loop that adds the groups [i], [i + 1], ... of the snapshot. *)
Fixpoint add_groups (s : group_snapshot) (groups : list (list Z)) (i : nat) (p : pdata) (d : gdata) : gdata * result unit :=
  match groups with
  | [] => (d, Ok tt)
  | m :: groups =>
      match addBondedGroup (make_group (snap_typeval s i) m) p d with
      | (d, Ok _) => add_groups s groups (S i) p d
      | (d, Throw e) => (d, Throw e)
      end
  end.

Definition initializeFromSnapshot (s : group_snapshot) (p : pdata) (d : gdata) : gdata * result unit :=
  match snap_validate s with
  | Throw e => (d, Throw e)
  | Ok _ =>
      let d := set_types (gs_type_mapping s) (gd_initialize d) in
      add_groups s (gs_groups s) 0 p d
  end.

(** [std::map::insert] keeps an entry that is there. *)
Definition map_insert (k v : Z) (m : gmap Z Z) : gmap Z Z :=
  match m !! k with Some _ => m | None => <[k := v]> m end.

Fixpoint rtag_map_loop (tags : list Z) (group_idx : Z) (m : gmap Z Z) : gmap Z Z :=
  match tags with
  | [] => m
  | tag :: tags => rtag_map_loop tags (group_idx + 1) (map_insert tag group_idx m)
  end.

Definition write_snap (snap_id : Z) (members : list Z) (t : typeval_t) (s : group_snapshot) : group_snapshot :=
  mkGroupSnapshot
    (if has_type_mapping then zset (gs_type_id s) snap_id (tv_get_type t) else gs_type_id s)
    (if has_type_mapping then gs_val s else zset (gs_val s) snap_id (tv_get_val t))
    (zset (gs_groups s) snap_id members) (gs_type_mapping s) (gs_size s).

(** The loop over the active tags. *)
Fixpoint snap_loop (tags : list Z) (rtag_map : gmap Z Z) (d : gdata) (snap_id : Z) (s : group_snapshot) (index : gmap Z Z)
  : result (group_snapshot * gmap Z Z) :=
  match tags with
  | [] => Ok (s, index)
  | tag :: tags =>
      match rtag_map !! tag with
      | None => Throw (runtime_error "Could not find group")
      | Some group_idx =>
          snap_loop tags rtag_map d (snap_id + 1)
            (write_snap snap_id (zget [] (m_groups d) group_idx) (zget (tv_type 0) (m_group_typeval d) group_idx) s)
            (map_insert tag snap_id index)
      end
  end.

(** The snapshot that is filled is an argument of the method. *)
Definition takeSnapshot (s : group_snapshot) (d : gdata) : result (group_snapshot * gmap Z Z) :=
  let rtag_map := rtag_map_loop (take (Z.to_nat (getN d)) (m_group_tag d)) 0 ∅ in
  match snap_loop (m_tag_set d) rtag_map d 0 (snap_resize (getNGlobal d) s) ∅ with
  | Throw e => Throw e
  | Ok (s, index) => Ok (mkGroupSnapshot (gs_type_id s) (gs_val s) (gs_groups s) (m_type_mapping d) (gs_size s), index)
  end.

(** The copy [j] of the group [i], whose members are [g]. *)
Definition replicate_write (old_n_particles old_size i : Z) (g : list Z) (s : group_snapshot) (j : Z) : group_snapshot :=
  write_snap (u32 (u32 (old_size * j) + i)) ((fun t => u32 (t + u32 (old_n_particles * j))) <$> g)
    (if has_type_mapping then tv_type (zget 0 (gs_type_id s) i) else tv_val (zget 0%Q (gs_val s) i)) s.

Definition replicate_group (n old_n_particles old_size : Z) (s : group_snapshot) (i : Z) : group_snapshot :=
  fold_left (replicate_write old_n_particles old_size i (zget [] (gs_groups s) i)) (seqZ 0 n) s.

(** [replicate(n, old_n_particles)] *)
Definition snap_replicate (n old_n_particles : Z) (s : group_snapshot) : group_snapshot :=
  let old_size := gs_size s in
  fold_left (replicate_group n old_n_particles old_size) (seqZ 0 old_size) (snap_resize (u32 (n * old_size)) s).

End operations.
