(* ===== verification/BondedGroupDataProps.v ===== *)
(** The invariant of the bonded groups and the lemmas on their operations.

    [pool_ok] is the discipline of the group tags, [gwf] the invariant of the
    arrays, [contents] the abstract value: the map from the tags of the groups to
    their type or value and their members. *)

From Stdlib Require Import ZArith Lia QArith String Sorted.
From stdpp Require Import base list list_numbers sorting gmap strings.
From S2P Require Import Prelude HOOMDMath Index1D BoxDim ParticleData ParticleDataProps BondedGroupData.
Local Open Scope Z_scope.
Local Open Scope hoomd_scope.

(** * Lists *)

Section lists.
Context {A : Type}.
Implicit Types (l init : list A).

Lemma nth_lookup_lt l d k : (k < length l)%nat -> l !! k = Some (nth k l d).
Proof. intros H. destruct (lookup_lt_is_Some_2 l k H) as [x E]. now rewrite E, (nth_lookup_Some _ _ _ _ E). Qed.

Lemma pop_back_snoc init (x : A) : pop_back (init ++ [x]) = init.
Proof. unfold pop_back. rewrite length_app. simpl. rewrite Nat.add_sub. apply take_app_length. Qed.

Lemma zget_snoc (d : A) init x : zget d (init ++ [x]) (Z.of_nat (length init)) = x.
Proof. apply zget_lookup. rewrite Nat2Z.id. now apply list_lookup_middle. Qed.

Lemma zset_snoc init (x y : A) i : 0 <= i < Z.of_nat (length init) -> zset (init ++ [x]) i y = zset init i y ++ [x].
Proof. intros H. unfold zset. apply insert_app_l. lia. Qed.

(** The element in the slot [i] is gone, the others are there. *)
Lemma swap_remove_perm init (last x : A) i : init !! i = Some x -> x :: <[i := last]> init ≡ₚ init ++ [last].
Proof.
  intros H. rewrite insert_take_drop by (eapply lookup_lt_Some; eassumption).
  rewrite <- (take_drop_middle init i x H) at 3. rewrite <- app_assoc. simpl.
  rewrite Permutation_middle. apply Permutation_app_head. simpl. constructor. apply Permutation_cons_append.
Qed.

Lemma array_resize_id (d : A) n l : Z.to_nat n = length l -> array_resize d n l = l.
Proof. intros E. unfold array_resize. rewrite E, Nat.sub_diag. simpl. now rewrite app_nil_r, take_ge by lia. Qed.

(** The last element moved into the slot [i]. *)
Definition swap_out (i : nat) (l : list A) : list A :=
  match l !! (length l - 1)%nat with Some y => pop_back (<[i := y]> l) | None => l end.

Lemma swap_out_snoc i init (y : A) : swap_out i (init ++ [y]) = <[i := y]> init.
Proof.
  unfold swap_out. rewrite length_app. simpl. rewrite Nat.add_sub, list_lookup_middle by reflexivity.
  destruct (decide (i < length init)%nat) as [L|G].
  - rewrite insert_app_l by assumption. apply pop_back_snoc.
  - rewrite insert_app_r_alt by lia. rewrite (list_insert_ge init) by lia.
    destruct (i - length init)%nat; simpl; apply pop_back_snoc.
Qed.

Lemma swap_out_model (d : A) i l : (i < length l)%nat ->
  (if Z.of_nat i <? Z.of_nat (length l) - 1 then pop_back (zset l (Z.of_nat i) (zget d l (Z.of_nat (length l) - 1))) else pop_back l)
  = swap_out i l.
Proof.
  intros H. unfold swap_out. destruct (lookup_lt_is_Some_2 l (length l - 1)) as [y E]; [lia|]. rewrite E.
  destruct (Z.ltb_spec (Z.of_nat i) (Z.of_nat (length l) - 1)).
  - unfold zset. rewrite Nat2Z.id. do 2 f_equal. apply zget_lookup. now replace (Z.to_nat _) with (length l - 1)%nat by lia.
  - rewrite list_insert_id; [reflexivity|]. now replace i with (length l - 1)%nat by lia.
Qed.

Lemma length_swap_out i l : length (swap_out i l) = (length l - 1)%nat.
Proof.
  unfold swap_out. destruct (l !! _) eqn:E; [|apply lookup_ge_None in E; lia].
  unfold pop_back. rewrite length_take, length_insert. lia.
Qed.

Lemma swap_out_perm i l x : l !! i = Some x -> x :: swap_out i l ≡ₚ l.
Proof.
  intros H. destruct (exists_last (l := l)) as (init & y & ->); [now intros ->|]. rewrite swap_out_snoc.
  destruct (decide (i < length init)%nat).
  - apply swap_remove_perm. now rewrite lookup_app_l in H by assumption.
  - pose proof (lookup_lt_Some _ _ _ H) as L. rewrite length_app in L. simpl in L.
    rewrite list_insert_ge by lia. rewrite lookup_app_r in H by lia.
    replace (i - length init)%nat with 0%nat in H by lia. injection H as ->. apply Permutation_cons_append.
Qed.

Lemma Forall_swap_out (P : A -> Prop) i l : (i < length l)%nat -> Forall P l -> Forall P (swap_out i l).
Proof.
  intros [x H]%lookup_lt_is_Some_2 F. rewrite <- (swap_out_perm i l x H) in F. now inversion F.
Qed.

End lists.

Lemma swap_out_zip {A B} i (l : list A) (k : list B) : length l = length k ->
  swap_out i (zip l k) = zip (swap_out i l) (swap_out i k).
Proof.
  intros L. unfold swap_out. rewrite length_zip, <- L, Nat.min_id. destruct (l !! (length l - 1)%nat) eqn:E1.
  - destruct (lookup_lt_is_Some_2 k (length l - 1)) as [y E2]; [rewrite <- L; eapply lookup_lt_Some; eassumption|].
    assert (E3 : zip l k !! (length l - 1)%nat = Some (a, y)) by (apply lookup_zip_with_Some; eauto 7). rewrite E2, E3.
    unfold pop_back. rewrite !length_insert, length_zip, <- L, Nat.min_id, insert_zip_with. apply zip_with_take.
  - rewrite (proj2 (lookup_ge_None k _)) by (apply lookup_ge_None in E1; lia).
    rewrite (proj2 (lookup_ge_None (zip l k) _)); [reflexivity|]. rewrite length_zip. apply lookup_ge_None in E1. lia.
Qed.

(** Consecutive writes. *)
Fixpoint write_from {A} (k : Z) (vals l : list A) : list A :=
  match vals with [] => l | v :: vals => write_from (k + 1) vals (zset l k v) end.

Lemma write_from_spec {A} (vals : list A) : forall k l, 0 <= k -> (Z.to_nat k + length vals = length l)%nat ->
  write_from k vals l = take (Z.to_nat k) l ++ vals.
Proof.
  induction vals as [|v vals IH]; intros k l Hk L; simpl in *; [now rewrite app_nil_r, take_ge by lia|].
  rewrite IH; [|lia|rewrite length_zset; lia]. replace (Z.to_nat (k + 1)) with (S (Z.to_nat k)) by lia.
  unfold zset. rewrite (take_S_r _ _ v) by (apply list_lookup_insert_eq; lia). rewrite take_insert_ge by lia. now rewrite <- app_assoc.
Qed.

(** ** Reverse maps *)

Lemma rtag_map_loop_spec tags : forall k m, NoDup tags -> (forall t, t ∈ tags -> m !! t = None) ->
  (forall i t, tags !! i = Some t -> rtag_map_loop tags k m !! t = Some (k + Z.of_nat i)) /\
  (forall t, t ∉ tags -> rtag_map_loop tags k m !! t = m !! t).
Proof.
  induction tags as [|s tags IH]; intros k m ND Nm; simpl; [split; [discriminate|auto]|].
  apply NoDup_cons in ND as [N ND]. unfold map_insert. rewrite (Nm s) by left.
  destruct (IH (k + 1) (<[s := k]> m) ND) as [I1 I2].
  { intros t Ht. rewrite lookup_insert_ne by congruence. apply Nm. now right. }
  split.
  - intros [|i] t H; simpl in H; [injection H as <-; rewrite I2 by assumption; rewrite lookup_insert_eq; f_equal; lia|].
    rewrite (I1 i t H). f_equal. lia.
  - intros t [D H]%not_elem_of_cons. rewrite I2 by assumption. now rewrite lookup_insert_ne by congruence.
Qed.

(** * Tag pools *)

(** [n] tags [S] are active and [R] is the stack of recycled tags; together they
    are the tags handed out so far. *)
Record pool_ok (n : Z) (S R : list Z) : Prop := {
  pool_sorted : StronglySorted Z.lt S;
  pool_count : n = Z.of_nat (length S);
  pool_nodup : NoDup R;
  pool_disjoint : forall t, t ∈ S -> t ∉ R;
  pool_tags : forall t, (t ∈ S \/ t ∈ R) <-> 0 <= t < n + Z.of_nat (length R)
}.

Lemma pool_empty : pool_ok 0 [] [].
Proof.
  split; simpl; auto using NoDup_nil_2; [constructor| |].
  - intros t. intros H. now apply elem_of_nil in H.
  - intros t. split; [intros [H|H]; now apply elem_of_nil in H|lia].
Qed.

(** With no tag to recycle the next one is fresh. *)
Lemma pool_fresh n S : pool_ok n S [] -> (n ∉ S) /\ pool_ok (n + 1) (set_insert n S) [].
Proof.
  intros [So C N D T]. assert (Nn : n ∉ S). { intros H. assert (0 <= n < n + 0) by (apply T; auto). lia. }
  split; [assumption|]. split; auto.
  - now apply set_insert_sorted.
  - rewrite length_set_insert by assumption. lia.
  - intros t _. apply not_elem_of_nil.
  - intros t. rewrite elem_of_set_insert. specialize (T t). simpl in *. rewrite elem_of_nil in *. split.
    + intros [[->|H]|[]]; [lia|]. assert (0 <= t < n + 0) by (apply T; auto). lia.
    + intros H. destruct (decide (t = n)) as [->|]; [auto|]. destruct (proj2 T); [lia|auto|contradiction].
Qed.

(** A recycled tag becomes active. *)
Lemma pool_reuse n S t R : pool_ok n S (t :: R) -> (t ∉ S) /\ pool_ok (n + 1) (set_insert t S) R.
Proof.
  intros [So C N D T]. assert (Nt : t ∉ S) by (intros H; apply (D t H); left). split; [assumption|].
  apply NoDup_cons in N as [N1 N2]. split; auto.
  - now apply set_insert_sorted.
  - rewrite length_set_insert by assumption. lia.
  - intros s [->|H]%elem_of_set_insert; [assumption|]. intros H'. apply (D s H). now right.
  - intros s. rewrite elem_of_set_insert. specialize (T s). rewrite elem_of_cons in T. simpl in T.
    replace (n + 1 + Z.of_nat (length R)) with (n + Z.of_nat (Datatypes.S (length R))) by lia. rewrite <- T. tauto.
Qed.

(** An active tag goes to the stack. *)
Lemma pool_return n S R t : pool_ok n S R -> t ∈ S -> pool_ok (n - 1) (set_erase t S) (t :: R).
Proof.
  intros [So C N D T] H. pose proof (length_set_erase t S (sorted_nodup _ So) H) as L. split.
  - now apply set_erase_sorted.
  - lia.
  - apply NoDup_cons. auto.
  - intros s [E Hs]%elem_of_set_erase. rewrite not_elem_of_cons. auto.
  - intros s. rewrite elem_of_set_erase, elem_of_cons. simpl.
    replace (n - 1 + Z.of_nat (Datatypes.S (length R))) with (n + Z.of_nat (length R)) by lia. rewrite <- T.
    destruct (decide (s = t)) as [->|]; tauto.
Qed.

(** * Members *)

Lemma repeated_member_spec m : repeated_member m = false <-> NoDup m.
Proof.
  unfold repeated_member. split.
  - intros H. apply NoDup_alt. intros i j x Hi Hj. destruct (decide (i = j)) as [|D]; [assumption|].
    exfalso. apply not_true_iff_false in H. apply H. apply existsb_exists. exists i. split.
    + apply in_seq. apply lookup_lt_Some in Hi. lia.
    + apply existsb_exists. exists j. split; [apply in_seq; apply lookup_lt_Some in Hj; lia|].
      rewrite (nth_lookup_Some _ _ _ _ Hi), (nth_lookup_Some _ _ _ _ Hj), Z.eqb_refl, andb_true_r.
      destruct (Nat.eqb_spec i j); [contradiction|reflexivity].
  - intros N. apply not_true_iff_false. intros [i [Hi H]]%existsb_exists. apply existsb_exists in H as [j [Hj H]].
    apply in_seq in Hi, Hj. zbool. destruct (Nat.eqb_spec i j) as [|D]; [discriminate|]. apply D.
    apply (NoDup_lookup m i j (nth j m 0) N); [rewrite <- H0|]; apply nth_lookup_lt; lia.
Qed.

(** * The invariant *)

Section invariant.
Context {Group : Type} {GT : GroupType Group}.
Implicit Types (d : gdata) (g : Group).

(** A type in range, or a value. *)
Definition typeval_ok (ntypes : Z) (t : typeval_t) : Prop :=
  is_type t = has_type_mapping /\ (has_type_mapping = true -> tv_get_type t < ntypes).

Definition members_ok (m : list Z) : Prop := length m = group_size /\ NoDup m.

Definition group_high (d : gdata) : Z := Z.of_nat (length (m_group_rtag d)).

Record gwf (d : gdata) : Prop := {
  gw_ghost : m_n_ghost d = 0;
  gw_n : m_n_groups d = Z.of_nat (length (m_groups d));
  gw_typevals : length (m_group_typeval d) = length (m_groups d);
  gw_tags : length (m_group_tag d) = length (m_groups d);
  gw_pool : pool_ok (m_nglobal d) (m_tag_set d) (m_recycled_tags d);
  gw_high : m_nglobal d + Z.of_nat (length (m_recycled_tags d)) = group_high d;
  gw_bound : group_high d <= 2 ^ 31;
  gw_local : forall t, t ∈ m_tag_set d <-> t ∈ m_group_tag d;
  gw_rtag : rtag_ok (group_high d) (m_group_tag d) (m_group_rtag d);
  gw_members : Forall members_ok (m_groups d);
  gw_types : Forall (typeval_ok (getNTypes d)) (m_group_typeval d);
  gw_cache : m_invalid_cached_tags d = false -> m_cached_tag_set d = m_tag_set d
}.

(** The groups in memory order, and the abstract value. *)
Definition rows (d : gdata) : list (Z * (typeval_t * list Z)) := zip (m_group_tag d) (zip (m_group_typeval d) (m_groups d)).
Definition contents (d : gdata) : gmap Z (typeval_t * list Z) := list_to_map (rows d).

Section facts.
Variable d : gdata.
Hypothesis W : gwf d.

Lemma group_tag_bounds t : t ∈ m_group_tag d -> 0 <= t < group_high d.
Proof. intros H. rewrite <- (gw_high d W). apply (pool_tags _ _ _ (gw_pool d W)). left. now apply (gw_local d W). Qed.

Lemma group_tag_nodup : NoDup (m_group_tag d).
Proof. eapply rtag_ok_nodup; [|apply (gw_rtag d W)]. intros t H. now apply group_tag_bounds. Qed.

Lemma group_counts : m_n_groups d = m_nglobal d.
Proof.
  rewrite (gw_n d W), <- (gw_tags d W), (pool_count _ _ _ (gw_pool d W)). f_equal. apply Permutation_length.
  apply NoDup_Permutation; [apply group_tag_nodup|apply sorted_nodup, (pool_sorted _ _ _ (gw_pool d W))|].
  intros t. symmetry. apply (gw_local d W).
Qed.

Lemma group_count_bound : 0 <= m_nglobal d <= group_high d.
Proof. pose proof (gw_high d W). pose proof (pool_count _ _ _ (gw_pool d W)). lia. Qed.

Lemma rows_tags : (rows d).*1 = m_group_tag d.
Proof. unfold rows. apply fst_zip. rewrite length_zip. rewrite (gw_tags d W), (gw_typevals d W). lia. Qed.

Lemma rows_lookup i t x : rows d !! i = Some (t, x) <->
  m_group_tag d !! i = Some t /\ m_group_typeval d !! i = Some x.1 /\ m_groups d !! i = Some x.2.
Proof.
  unfold rows. rewrite lookup_zip_with_Some. split.
  - intros (t' & y & E & H1 & H2). apply lookup_zip_with_Some in H2 as (a & b & E' & H3 & H4). simplify_eq. auto.
  - intros (H1 & H2 & H3). exists t, x. split_and!; auto. apply lookup_zip_with_Some. exists x.1, x.2. destruct x. auto.
Qed.

Lemma contents_lookup t x : contents d !! t = Some x <-> exists i, rows d !! i = Some (t, x).
Proof.
  unfold contents. rewrite <- elem_of_list_to_map by (rewrite rows_tags; apply group_tag_nodup).
  split; [apply list_elem_of_lookup_1|]. intros [i H]. eapply list_elem_of_lookup_2. exact H.
Qed.

(** The tags of the groups are the active tags. *)
Lemma contents_dom t : is_Some (contents d !! t) <-> t ∈ m_tag_set d.
Proof.
  rewrite (gw_local d W), <- rows_tags. unfold contents. split.
  - intros [x H]. apply contents_lookup in H as [i H]. apply list_elem_of_fmap. exists (t, x).
    split; [reflexivity|]. eapply list_elem_of_lookup_2. exact H.
  - intros ([s x] & -> & H)%list_elem_of_fmap. exists x. apply elem_of_list_to_map; [|assumption].
    rewrite rows_tags. apply group_tag_nodup.
Qed.

(** The reverse lookup finds the group with an active tag. *)
Lemma group_rtag_active t : t ∈ m_tag_set d -> exists i x, m_group_rtag d !! Z.to_nat t = Some (Z.of_nat i) /\
  rows d !! i = Some (t, x) /\ contents d !! t = Some x /\ Z.of_nat i < m_n_groups d.
Proof.
  intros H. apply contents_dom in H as [x H]. pose proof H as [i R]%contents_lookup. exists i, x.
  split_and!; auto.
  - apply rows_lookup in R as [R _]. exact (proj1 (gw_rtag d W) _ _ R).
  - apply rows_lookup in R as (_ & _ & R). rewrite (gw_n d W). apply lookup_lt_Some in R. lia.
Qed.

Lemma group_rtag_inactive t : 0 <= t < group_high d -> t ∉ m_tag_set d -> m_group_rtag d !! Z.to_nat t = Some GROUP_NOT_LOCAL.
Proof. intros H N. apply (rtag_ok_absent _ _ _ t (gw_rtag d W) H). now rewrite <- (gw_local d W). Qed.

Lemma no_ghosts : removeAllGhostGroups d = d.
Proof.
  unfold removeAllGhostGroups, gd_reallocate. rewrite (gw_ghost d W), Z.sub_0_r, <- (gw_n d W), u32_small.
  - rewrite !array_resize_id; [pose proof (gw_ghost d W) as G; destruct d; simpl in G; now subst|..];
      rewrite (gw_n d W), ?(gw_tags d W), ?(gw_typevals d W), Nat2Z.id; reflexivity.
  - pose proof group_counts. pose proof group_count_bound. pose proof (gw_bound d W). unfold is_u32. lia.
Qed.

End facts.

(** ** A new object *)

Lemma initialize_gwf types d : gwf (set_types types (gd_initialize d)) /\ contents (set_types types (gd_initialize d)) = ∅.
Proof.
  split; [|reflexivity]. split; simpl; auto using pool_empty; try (unfold group_high; simpl; lia); try discriminate.
  split; [discriminate|]. unfold group_high. simpl. lia.
Qed.

(** ** Adding a group *)

(** The conditions under which [addBondedGroup] does not throw. *)
Definition group_valid (p : pdata) (ntypes : Z) (t : typeval_t) (m : list Z) : Prop :=
  (forall s, s ∈ m -> s <= getMaximumTag p) /\ NoDup m /\ (has_type_mapping = true -> tv_get_type t < ntypes).

Definition next_group_tag (d : gdata) : Z :=
  match m_recycled_tags d with t :: _ => t | [] => m_nglobal d end.

(** The object after a group is added. *)
Definition group_added (t : typeval_t) (m : list Z) (d : gdata) : gdata :=
  let '(tag, rtag, recycled) :=
    match m_recycled_tags d with
    | tag :: recycled => (tag, zset (m_group_rtag d) tag (getN d), recycled)
    | [] => (getNGlobal d, m_group_rtag d ++ [getN d], [])
    end in
  notifyGroupReorder (notifyGroupNumChange (set_cache (m_cached_tag_set d) true
    (set_pool (u32 (m_nglobal d + 1)) (set_insert tag (m_tag_set d)) recycled
      (set_local (u32 (m_n_groups d + 1)) (m_n_ghost d) (m_groups d ++ [m]) (m_group_typeval d ++ [t]) (m_group_tag d ++ [tag])
        (set_rtag rtag d))))).

Lemma addBondedGroup_cases g p d : gwf d ->
  (group_valid p (getNTypes d) (get_typeval g) (get_members g) /\
     addBondedGroup g p d = (group_added (get_typeval g) (get_members g) d, Ok (next_group_tag d))) \/
  (~ group_valid p (getNTypes d) (get_typeval g) (get_members g) /\ exists e, addBondedGroup g p d = (d, Throw e)).
Proof.
  intros W. unfold addBondedGroup. rewrite (no_ghosts d W). cbn zeta. unfold group_valid.
  destruct (existsb _ (get_members g)) eqn:E1.
  { right. split; [|eauto]. intros (H & _). apply existsb_exists in E1 as (t & Ht & G). zbool.
    apply list_elem_of_In in Ht. specialize (H t Ht). lia. }
  destruct (repeated_member (get_members g)) eqn:E2.
  { right. split; [|eauto]. intros (_ & H & _). apply repeated_member_spec in H. congruence. }
  destruct (has_type_mapping && _) eqn:E3.
  { right. split; [|eauto]. zbool. intros (_ & _ & H'). specialize (H' H). lia. }
  left. split; [split_and!|].
  - intros s Hs. apply Z.ltb_ge. rewrite <- Z.gtb_ltb. destruct (s >? getMaximumTag p) eqn:G; [|reflexivity].
    rewrite <- E1. symmetry. apply existsb_exists. exists s. split; [now apply list_elem_of_In|assumption].
  - now apply repeated_member_spec.
  - intros H. rewrite H in E3. simpl in E3. zbool. lia.
  - unfold group_added, next_group_tag. destruct (m_recycled_tags d); reflexivity.
Qed.

Lemma rows_snoc d t x : length (m_group_typeval d) = length (m_groups d) -> length (m_group_tag d) = length (m_groups d) ->
  zip (m_group_tag d ++ [t]) (zip (m_group_typeval d ++ [x.1]) (m_groups d ++ [x.2])) = rows d ++ [(t, x)].
Proof.
  intros L1 L2. unfold rows. rewrite zip_with_app by assumption. rewrite zip_with_app by (rewrite length_zip; lia). now destruct x.
Qed.

(** The reverse lookup and the tags of the new object. *)
Lemma group_added_tags t m d : gwf d -> group_high d < 2 ^ 31 ->
  let q := group_added t m d in let s := next_group_tag d in
  (s ∉ m_tag_set d) /\ m_group_tag q = m_group_tag d ++ [s] /\ m_tag_set q = set_insert s (m_tag_set d) /\
  pool_ok (m_nglobal d + 1) (m_tag_set q) (m_recycled_tags q) /\
  m_nglobal d + 1 + Z.of_nat (length (m_recycled_tags q)) = group_high q /\ group_high q <= group_high d + 1 /\
  rtag_ok (group_high q) (m_group_tag q) (m_group_rtag q).
Proof.
  intros W Hh q s. subst q s. unfold group_added, next_group_tag. pose proof (gw_pool d W) as P. pose proof (gw_high d W) as Hi.
  pose proof (fun t H => proj1 (group_tag_bounds d W t H)) as B. pose proof (gw_local d W) as Lo.
  assert (En : m_n_groups d = Z.of_nat (length (m_group_tag d))) by (now rewrite (gw_tags d W), (gw_n d W)).
  unfold getN, getNGlobal. rewrite En. destruct (m_recycled_tags d) as [|s R] eqn:E; simpl in *; unfold group_high in *; simpl in *.
  - destruct (pool_fresh _ _ P) as [F P']. pose proof (group_count_bound d W). rewrite length_app. simpl. split_and!; auto; try lia.
    pose proof (rtag_ok_app _ _ _ [0] (gw_rtag d W)) as R'. rewrite Lo in F.
    replace (m_group_rtag d ++ [Z.of_nat (length (m_group_tag d))]) with (zset (m_group_rtag d ++ [0]) (m_nglobal d) (Z.of_nat (length (m_group_tag d)))).
    + eapply rtag_ok_snoc; [exact R'|assumption|lia|assumption|rewrite length_app; simpl; lia|unfold group_high; lia].
    + unfold zset. rewrite insert_app_r_alt by lia. now replace (Z.to_nat (m_nglobal d) - length (m_group_rtag d))%nat with 0%nat by lia.
  - destruct (pool_reuse _ _ _ _ P) as [F P']. rewrite length_zset. rewrite Nat2Z.inj_succ in Hi. split_and!; auto; try lia.
    assert (Bs : 0 <= s < group_high d) by (unfold group_high; rewrite <- Hi, <- Nat2Z.inj_succ; apply (pool_tags _ _ _ P); right; left).
    rewrite Lo in F. unfold group_high in Bs. eapply rtag_ok_snoc; [apply (gw_rtag d W)|assumption|lia|assumption|lia|unfold group_high; lia].
Qed.

Lemma group_added_gwf t m d : gwf d -> group_high d < 2 ^ 31 -> typeval_ok (getNTypes d) t -> members_ok m ->
  gwf (group_added t m d) /\ contents (group_added t m d) = <[next_group_tag d := (t, m)]> (contents d) /\
  contents d !! next_group_tag d = None /\ group_high (group_added t m d) <= group_high d + 1.
Proof.
  intros W Hh T M. destruct (group_added_tags t m d W Hh) as (F & Et & Es & P & Hi & Hle & R). cbn zeta in *.
  pose proof (group_count_bound d W) as Gc. pose proof (group_counts d W) as Gn.
  assert (Loc : m_nglobal (group_added t m d) = u32 (m_nglobal d + 1) /\ m_n_groups (group_added t m d) = u32 (m_n_groups d + 1) /\
    m_groups (group_added t m d) = m_groups d ++ [m] /\ m_group_typeval (group_added t m d) = m_group_typeval d ++ [t] /\
    m_n_ghost (group_added t m d) = m_n_ghost d /\ getNTypes (group_added t m d) = getNTypes d /\
    m_invalid_cached_tags (group_added t m d) = true)
    by (unfold group_added; destruct (m_recycled_tags d); repeat split).
  destruct Loc as (L1 & L2 & L3 & L4 & L5 & L6 & L7).
  rewrite !u32_small in * by (unfold is_u32; lia).
  assert (Nd : contents d !! next_group_tag d = None).
  { destruct (contents d !! next_group_tag d) as [x|] eqn:E; [|reflexivity]. exfalso. apply F, (contents_dom d W). eauto. }
  split_and!; auto.
  - split; rewrite ?L1, ?L2, ?L3, ?L4, ?L5, ?L6, ?L7, ?Et, ?length_app, ?(gw_typevals d W), ?(gw_tags d W); simpl; auto; try lia; try discriminate.
    + apply (gw_ghost d W).
    + rewrite (gw_n d W). lia.
    + intros s. rewrite Es, elem_of_set_insert, elem_of_app, list_elem_of_singleton, (gw_local d W). tauto.
    + now rewrite <- Et.
    + apply Forall_app. split; [apply (gw_members d W)|]. now constructor.
    + apply Forall_app. split; [apply (gw_types d W)|]. now constructor.
  - unfold contents at 1, rows. rewrite L3, L4, Et.
    rewrite (rows_snoc d _ (t, m) (gw_typevals d W) (gw_tags d W)). apply list_to_map_snoc.
    rewrite (rows_tags d W), <- (gw_local d W). exact F.
Qed.

(** ** Removing a group *)

(** The slot of an active tag. *)
Definition group_slot (t : Z) (d : gdata) : nat := Z.to_nat (zget 0 (m_group_rtag d) t).

(** The object after the group [t] is removed. *)
Definition group_removed (t : Z) (d : gdata) : gdata :=
  let i := group_slot t d in
  let rtag := zset (m_group_rtag d) t GROUP_NOT_LOCAL in
  let rtag := if Z.of_nat i <? m_n_groups d - 1 then zset rtag (zget 0 (m_group_tag d) (m_n_groups d - 1)) (Z.of_nat i) else rtag in
  notifyGroupReorder (notifyGroupNumChange (set_cache (m_cached_tag_set d) true
    (set_pool (m_nglobal d - 1) (set_erase t (m_tag_set d)) (t :: m_recycled_tags d)
      (set_local (m_n_groups d - 1) (m_n_ghost d) (swap_out i (m_groups d)) (swap_out i (m_group_typeval d)) (swap_out i (m_group_tag d))
        (set_rtag rtag d))))).

Lemma active_slot t d : gwf d -> t ∈ m_tag_set d ->
  zget 0 (m_group_rtag d) t = Z.of_nat (group_slot t d) /\ Z.of_nat (group_slot t d) < m_n_groups d /\
  exists x, rows d !! group_slot t d = Some (t, x) /\ contents d !! t = Some x.
Proof.
  intros W H. destruct (group_rtag_active d W t H) as (i & x & E & R & C & L).
  assert (Ez : zget 0 (m_group_rtag d) t = Z.of_nat i) by now apply zget_lookup.
  unfold group_slot. rewrite Ez, Nat2Z.id. eauto.
Qed.

Lemma removeBondedGroup_cases t d : gwf d -> 0 <= t ->
  (t ∈ m_tag_set d /\ removeBondedGroup t d = (group_removed t d, Ok tt)) \/
  ((t ∉ m_tag_set d) /\ exists e, removeBondedGroup t d = (d, Throw e)).
Proof.
  intros W Ht. unfold removeBondedGroup. rewrite (no_ghosts d W). cbn zeta.
  pose proof (group_counts d W) as Gn. pose proof (group_count_bound d W) as Gc. pose proof (gw_bound d W) as Gb.
  destruct (decide (t ∈ m_tag_set d)) as [Act|N].
  - left. split; [assumption|]. destruct (active_slot t d W Act) as (Ez & L & _). pose proof Act as B.
    apply (gw_local d W), (group_tag_bounds d W) in B. unfold group_high in B. unfold getN. rewrite Ez.
    destruct (Z.geb_spec t (Z.of_nat (length (m_group_rtag d)))); [lia|]. destruct (Z.ltb_spec (Z.of_nat (group_slot t d)) (m_n_groups d)); [|lia].
    cbn [negb]. unfold group_removed.
    rewrite <- (swap_out_model [] _ (m_groups d)), <- (swap_out_model (tv_type 0) _ (m_group_typeval d)),
      <- (swap_out_model 0 _ (m_group_tag d)) by (rewrite ?(gw_typevals d W), ?(gw_tags d W); rewrite (gw_n d W) in L; lia).
    rewrite (gw_typevals d W), (gw_tags d W), <- (gw_n d W).
    change (m_n_groups (set_rtag (zset (m_group_rtag d) t GROUP_NOT_LOCAL) d)) with (m_n_groups d).
    destruct (Z.of_nat (group_slot t d) <? m_n_groups d - 1); simpl; rewrite !u32_small by (unfold is_u32; lia); reflexivity.
  - right. split; [assumption|]. destruct (Z.geb_spec t (Z.of_nat (length (m_group_rtag d)))); [eauto|].
    rewrite (zget_lookup _ _ _ GROUP_NOT_LOCAL) by (apply (group_rtag_inactive d W); [unfold group_high; lia|assumption]).
    unfold getN, GROUP_NOT_LOCAL. destruct (Z.ltb_spec 4294967295 (m_n_groups d)); [lia|]. simpl. eauto.
Qed.

(** The reverse lookup after the last group moved. *)
Lemma group_removed_rtag t d : gwf d -> t ∈ m_tag_set d ->
  rtag_ok (group_high d) (m_group_tag (group_removed t d)) (m_group_rtag (group_removed t d)) /\
  group_high (group_removed t d) = group_high d.
Proof.
  intros W Act. destruct (active_slot t d W Act) as (_ & L & x & R & _). apply rows_lookup in R as (R & _).
  assert (Len : length (m_group_tag d) = Z.to_nat (m_n_groups d)) by (rewrite (gw_tags d W), (gw_n d W); lia).
  split.
  2: { unfold group_removed, group_high. simpl. destruct (_ <? _); now rewrite !length_zset. }
  pose proof (gw_rtag d W) as Rt. pose proof (group_tag_bounds d W) as B.
  unfold group_removed. simpl. remember (group_slot t d) as i eqn:Ei. clear Ei.
  destruct (exists_last (l := m_group_tag d)) as (init & y & E); [intros E; rewrite E in R; discriminate|].
  rewrite E in *. rewrite length_app in Len. simpl in Len. rewrite swap_out_snoc.
  replace (m_n_groups d - 1) with (Z.of_nat (length init)) by lia. rewrite zget_snoc.
  destruct (Z.ltb_spec (Z.of_nat i) (Z.of_nat (length init))).
  - apply rtag_ok_move_last; auto. now rewrite lookup_app_l in R by lia.
  - rewrite list_insert_ge by lia. rewrite lookup_app_r in R by lia. replace (i - length init)%nat with 0%nat in R by lia.
    injection R as ->. now apply rtag_ok_drop_last.
Qed.

Lemma group_removed_gwf t d : gwf d -> t ∈ m_tag_set d ->
  gwf (group_removed t d) /\ contents (group_removed t d) = delete t (contents d) /\ group_high (group_removed t d) = group_high d.
Proof.
  intros W Act. destruct (group_removed_rtag t d W Act) as [R Eh]. destruct (active_slot t d W Act) as (_ & L & x & Rx & Cx).
  assert (Li : (group_slot t d < length (m_groups d))%nat) by (rewrite (gw_n d W) in L; lia).
  pose proof (pool_return _ _ _ _ (gw_pool d W) Act) as P. pose proof (gw_high d W) as Hh.
  assert (Pt : t :: m_group_tag (group_removed t d) ≡ₚ m_group_tag d)
    by (unfold group_removed; simpl; apply swap_out_perm; apply rows_lookup in Rx; tauto).
  pose proof (group_tag_nodup d W) as ND. assert (ND' : NoDup (t :: m_group_tag (group_removed t d))) by now rewrite Pt.
  apply NoDup_cons in ND' as [N1 N2].
  split_and!; auto.
  - split; rewrite ?Eh; auto; simpl; rewrite ?length_swap_out, ?(gw_typevals d W), ?(gw_tags d W); auto; try discriminate.
    + apply (gw_ghost d W).
    + rewrite (gw_n d W). lia.
    + lia.
    + apply (gw_bound d W).
    + intros s. change (s ∈ set_erase t (m_tag_set d) <-> s ∈ m_group_tag (group_removed t d)).
      assert (E : s ∈ m_tag_set d <-> s ∈ t :: m_group_tag (group_removed t d)) by (rewrite Pt; apply (gw_local d W)).
      rewrite elem_of_set_erase, E, elem_of_cons. split; [intros [? [?|?]]; [contradiction|assumption]|].
      intros H. split; [intros ->; contradiction|auto].
    + now apply Forall_swap_out, (gw_members d W).
    + apply Forall_swap_out; [now rewrite (gw_typevals d W)|apply (gw_types d W)].
  - assert (Er : rows (group_removed t d) = swap_out (group_slot t d) (rows d)).
    { unfold rows, group_removed. simpl. rewrite swap_out_zip, swap_out_zip; [reflexivity|..];
        rewrite ?length_zip, ?(gw_typevals d W), ?(gw_tags d W); lia. }
    pose proof (swap_out_perm _ _ _ Rx) as Pr. rewrite <- Er in Pr. unfold contents.
    assert (Nk : NoDup ((t, x) :: rows (group_removed t d)).*1) by (rewrite Pr, (rows_tags d W); exact ND).
    rewrite <- (list_to_map_proper _ _ Nk Pr). simpl in *. apply NoDup_cons in Nk as [Nk _].
    symmetry. now apply delete_insert_id, not_elem_of_list_to_map_1.
Qed.

(** ** Lookup *)

Lemma getGroupByTag_cases t p d : gwf d -> 0 <= t ->
  getGroupByTag t p d =
  match contents d !! t with
  | Some (tv, m) => if forallb (fun ptag => isTagActive ptag p) m then Ret (make_group tv m)
                    else Raise (runtime_error "Member tag does not exist!")
  | None => if t <? group_high d then Raise (runtime_error "Trying to get type or constraint value of a group which does not exist!")
            else OutOfBounds
  end.
Proof.
  intros W Ht. unfold getGroupByTag. pose proof (contents_dom d W t) as Dm.
  destruct (contents d !! t) as [[tv m]|] eqn:E.
  - destruct (group_rtag_active d W t) as (i & x & R & Rx & C & L); [apply Dm; eauto|]. rewrite E in C. injection C as <-.
    rewrite (read_Some _ _ _ R). simpl. apply rows_lookup in Rx as (_ & R1 & R2). simpl in *.
    pose proof (group_counts d W). pose proof (group_count_bound d W). pose proof (gw_bound d W).
    destruct (Z.eqb_spec (Z.of_nat i) GROUP_NOT_LOCAL) as [Eq|]; [unfold GROUP_NOT_LOCAL in Eq; lia|].
    rewrite (read_Some _ _ tv), (read_Some _ _ m) by (now rewrite Nat2Z.id). reflexivity.
  - assert (N : t ∉ m_tag_set d) by (intros H%Dm; now destruct H). unfold group_high. destruct (Z.ltb_spec t (Z.of_nat (length (m_group_rtag d)))).
    + rewrite (read_Some _ _ GROUP_NOT_LOCAL); [reflexivity|]. apply (group_rtag_inactive d W); [unfold group_high; lia|assumption].
    + unfold read. rewrite lookup_ge_None_2 by lia. reflexivity.
Qed.

(** ** Loading a snapshot *)

(** The members have the length that their type fixes. *)
Definition snap_shaped (s : group_snapshot) : Prop := Forall (fun m => length m = group_size) (gs_groups s).

(** The first [n] groups, from number [k] on, are valid, and the next one is not. *)
Definition first_invalid (s : group_snapshot) (p : pdata) (ntypes : Z) (k : nat) (groups : list (list Z)) (n : nat) : Prop :=
  (n <= length groups)%nat /\
  (forall j m, (j < n)%nat -> groups !! j = Some m -> group_valid p ntypes (snap_typeval s (k + j)) m) /\
  (forall m, groups !! n = Some m -> ~ group_valid p ntypes (snap_typeval s (k + n)) m).

(** The object holds the groups 0 to [k - 1] of the snapshot, in order. *)
Definition loaded_upto (s : group_snapshot) (k : nat) (groups : list (list Z)) (d : gdata) : Prop :=
  m_recycled_tags d = [] /\ m_group_tag d = seqZ 0 (Z.of_nat k) /\ m_group_typeval d = snap_typeval s <$> seq 0 k /\
  m_groups d = groups /\ length groups = k.

Lemma loaded_add s k groups m d : gwf d -> loaded_upto s k groups d -> 
  loaded_upto s (S k) (groups ++ [m]) (group_added (snap_typeval s k) m d) /\
  m_type_mapping (group_added (snap_typeval s k) m d) = m_type_mapping d.
Proof.
  intros W (Rc & Et & Ev & Eg & Lg).
  assert (Nt : m_nglobal d = Z.of_nat k) by (rewrite <- (group_counts d W), (gw_n d W), Eg, Lg; reflexivity).
  unfold loaded_upto. rewrite seq_S, fmap_app, seqZ_S, <- Et, <- Ev, length_app, <- Eg. unfold group_added, getNGlobal. rewrite Rc, Nt.
  split_and!; try reflexivity. rewrite Eg. simpl. lia.
Qed.

Lemma add_groups_spec (s : group_snapshot) p : forall groups k pre d,
  Z.of_nat (k + length groups) <= 2 ^ 31 -> gwf d -> loaded_upto s k pre d -> Forall (fun m => length m = group_size) groups ->
  exists n d' r, add_groups s groups k p d = (d', r) /\ gwf d' /\ m_type_mapping d' = m_type_mapping d /\
    first_invalid s p (getNTypes d) k groups n /\ (r = Ok tt <-> n = length groups) /\
    loaded_upto s (k + n) (pre ++ take n groups) d'.
Proof.
  induction groups as [|m groups IH]; intros k pre d B W L F; cbn [add_groups].
  { exists 0%nat, d, (Ok tt). simpl. rewrite Nat.add_0_r, app_nil_r. split_and!; auto; [|tauto]. split; [simpl; lia|]. split; [lia|discriminate]. }
  apply Forall_cons in F as [Fm F]. simpl in B.
  assert (T : is_type (snap_typeval s k) = has_type_mapping) by (unfold snap_typeval; now destruct has_type_mapping eqn:?).
  destruct (addBondedGroup_cases (make_group (snap_typeval s k) m) p d W) as [[V E]|[V [e E]]]; rewrite E;
    rewrite get_make_typeval, get_make_members in V by assumption.
  2: { exists 0%nat, d, (Throw e). simpl. rewrite app_nil_r, !Nat.add_0_r. split_and!; auto; [|split; discriminate].
       split; [lia|]. split; [lia|]. intros m' [= <-]. now rewrite Nat.add_0_r. }
  rewrite get_make_typeval, get_make_members by assumption. pose proof V as (V1 & V2 & V3).
  assert (Hh : group_high d = Z.of_nat k).
  { destruct L as (Rc & _ & _ & Eg & Lg). rewrite <- (gw_high d W), Rc, <- (group_counts d W), (gw_n d W), Eg, Lg. simpl. lia. }
  destruct (group_added_gwf (snap_typeval s k) m d W) as (W' & _); [lia|now split|now split|].
  destruct (loaded_add s k pre m d W L) as [L' Tm].
  destruct (IH (S k) (pre ++ [m]) (group_added (snap_typeval s k) m d)) as (n & d' & r & E' & Wd & Td & Fi & Rn & Ld); auto; [lia|].
  assert (Tn : getNTypes (group_added (snap_typeval s k) m d) = getNTypes d) by (unfold getNTypes; now rewrite Tm). rewrite Tn in Fi.
  exists (S n), d', r. replace (k + S n)%nat with (S k + n)%nat by lia. simpl. rewrite <- app_assoc in Ld. split_and!; auto; [congruence| |].
  - destruct Fi as (F1 & F2 & F3). split; [simpl; lia|]. replace (k + S n)%nat with (S k + n)%nat by lia. split; [|exact F3].
    intros [|j] m' Hj Hm; simpl in Hm; [injection Hm as <-; now rewrite Nat.add_0_r|].
    replace (k + S j)%nat with (S k + j)%nat by lia. apply F2; [lia|assumption].
  - rewrite Rn. lia.
Qed.

Lemma load_groups (s : group_snapshot) p d : snap_shaped s -> Z.of_nat (length (gs_groups s)) <= 2 ^ 31 -> snap_validate s = Ok tt ->
  exists n d' r, initializeFromSnapshot s p d = (d', r) /\ gwf d' /\ m_type_mapping d' = gs_type_mapping s /\
    first_invalid s p (Z.of_nat (length (gs_type_mapping s))) 0 (gs_groups s) n /\ (r = Ok tt <-> n = length (gs_groups s)) /\
    loaded_upto s n (take n (gs_groups s)) d'.
Proof.
  intros Sh B V. unfold initializeFromSnapshot. rewrite V.
  destruct (initialize_gwf (gs_type_mapping s) d) as [W _].
  apply (add_groups_spec s p (gs_groups s) 0 [] _ B W); [|exact Sh]. repeat split.
Qed.

(** ** Taking a snapshot *)

Definition content (t : Z) (d : gdata) : typeval_t * list Z := default (tv_type 0, []) (contents d !! t).

Lemma snap_loop_spec rm d tags : (forall t, t ∈ tags -> is_Some (rm !! t)) -> forall k s ix,
  let gi t := default 0 (rm !! t) in
  let ms := (fun t => zget [] (m_groups d) (gi t)) <$> tags in
  let tvs := (fun t => zget (tv_type 0) (m_group_typeval d) (gi t)) <$> tags in
  snap_loop tags rm d k s ix =
  Ok (mkGroupSnapshot
        (if has_type_mapping then write_from k (tv_get_type <$> tvs) (gs_type_id s) else gs_type_id s)
        (if has_type_mapping then gs_val s else write_from k (tv_get_val <$> tvs) (gs_val s))
        (write_from k ms (gs_groups s)) (gs_type_mapping s) (gs_size s), rtag_map_loop tags k ix).
Proof.
  induction tags as [|t tags IH]; intros F k s ix; cbn zeta; simpl.
  { destruct s; simpl. now destruct has_type_mapping. }
  destruct (F t) as [i E]; [left|]. rewrite E. simpl. rewrite IH by (intros; apply F; now right). cbn zeta.
  unfold write_snap. simpl. now destruct has_type_mapping.
Qed.

Lemma takeSnapshot_groups s d : gwf d -> exists s' index, takeSnapshot s d = Ok (s', index) /\
  gs_groups s' = (fun t => (content t d).2) <$> m_tag_set d /\
  (has_type_mapping = true -> gs_type_id s' = (fun t => tv_get_type (content t d).1) <$> m_tag_set d /\ gs_val s' = gs_val s) /\
  (has_type_mapping = false -> gs_val s' = (fun t => tv_get_val (content t d).1) <$> m_tag_set d /\ gs_type_id s' = gs_type_id s) /\
  gs_type_mapping s' = m_type_mapping d /\ gs_size s' = getNGlobal d /\
  (forall k t, m_tag_set d !! k = Some t -> index !! t = Some (Z.of_nat k)) /\
  (forall t, t ∉ m_tag_set d -> index !! t = None).
Proof.
  intros W. unfold takeSnapshot. rewrite take_ge by (unfold getN; rewrite (gw_n d W), (gw_tags d W); lia).
  destruct (rtag_map_loop_spec (m_group_tag d) 0 ∅ (group_tag_nodup d W)) as [R1 _]; [intros; apply lookup_empty|].
  set (rm := rtag_map_loop (m_group_tag d) 0 ∅) in *. pose proof (sorted_nodup _ (pool_sorted _ _ _ (gw_pool d W))) as NS.
  assert (G : forall t, t ∈ m_tag_set d -> is_Some (rm !! t) /\ zget [] (m_groups d) (default 0 (rm !! t)) = (content t d).2 /\
    zget (tv_type 0) (m_group_typeval d) (default 0 (rm !! t)) = (content t d).1).
  { intros t H. destruct (group_rtag_active d W t H) as (i & x & _ & Rx & C & _). unfold content. rewrite C. simpl.
    apply rows_lookup in Rx as (T1 & T2 & T3). rewrite (R1 i t T1). rewrite Z.add_0_l. simpl. split; [eauto|].
    split; apply zget_lookup; now rewrite Nat2Z.id. }
  assert (Gm : (fun t => zget [] (m_groups d) (default 0 (rm !! t))) <$> m_tag_set d = (fun t => (content t d).2) <$> m_tag_set d)
    by (apply list_fmap_ext; intros i t H; apply G; eapply list_elem_of_lookup_2; exact H).
  assert (Gt : (fun t => zget (tv_type 0) (m_group_typeval d) (default 0 (rm !! t))) <$> m_tag_set d = (fun t => (content t d).1) <$> m_tag_set d)
    by (apply list_fmap_ext; intros i t H; apply G; eapply list_elem_of_lookup_2; exact H).
  rewrite snap_loop_spec by (intros t H; now apply G). cbn zeta. rewrite Gm, Gt, <- !list_fmap_compose.
  destruct (rtag_map_loop_spec (m_tag_set d) 0 ∅ NS) as [I1 I2]; [intros; apply lookup_empty|].
  pose proof (pool_count _ _ _ (gw_pool d W)) as Cn. unfold getNGlobal.
  assert (WF : forall (A : Type) (z : A) f l, write_from 0 (f <$> m_tag_set d) (array_resize z (m_nglobal d) l) = f <$> m_tag_set d).
  { intros A z f l. rewrite write_from_spec; [reflexivity|lia|]. rewrite length_fmap, length_array_resize. lia. }
  do 2 eexists. split; [reflexivity|]. unfold snap_resize. simpl.
  split_and!; auto; intros ->; now rewrite WF.
Qed.

End invariant.
