(* ===== verification/BondedGroupDataSpec.v ===== *)
(** What the bonded groups promise: the object refines a map from tags to groups
    under every sequence of calls, snapshots round-trip, default type names are
    distinct. *)

From Stdlib Require Import ZArith Lia QArith String Ascii Sorted.
From stdpp Require Import base list list_numbers sorting gmap strings.
From S2P Require Import Prelude HOOMDMath Index1D BoxDim ParticleData ParticleDataProps ParticleDataSpec BondedGroupData BondedGroupDataProps.
Local Open Scope Z_scope.
Local Open Scope hoomd_scope.

(** * Default type names *)

(** A name read as a numeral with the digits A = 1 to Z = 26. *)
Definition digit (c : ascii) : Z := Z.of_nat (nat_of_ascii c) - 64.
Fixpoint name_value (s : string) : Z :=
  match s with
  | EmptyString => 0
  | String c s => digit c * 26 ^ Z.of_nat (String.length s) + name_value s
  end.

Lemma digit_name_char k : 0 <= k < 26 -> digit (name_char k) = k + 1.
Proof.
  intros H. assert (E : forallb (fun k => digit (name_char k) =? k + 1) (seqZ 0 26) = true) by reflexivity.
  rewrite forallb_forall in E. apply Z.eqb_eq, E, list_elem_of_In, elem_of_seqZ. lia.
Qed.

Lemma name_loop_value fuel : forall id res, 0 <= id -> (Z.to_nat id <= fuel)%nat ->
  name_value (name_loop fuel id res) = name_value res + 26 ^ Z.of_nat (String.length res) * (id / 26).
Proof.
  induction fuel as [|fuel IH]; intros id res Hid Hf; simpl.
  { replace id with 0 by lia. rewrite Z.div_0_l by lia. lia. }
  rewrite Z.geb_leb. destruct (Z.leb_spec 26 id) as [G|L]; [|rewrite (Z.div_small id 26) by lia; lia].
  assert (1 <= id / 26) by (apply Z.div_le_lower_bound; lia). assert (id / 26 < id) by (apply Z.div_lt; lia).
  rewrite IH by lia. simpl. rewrite digit_name_char by (apply Z.mod_pos_bound; lia).
  pose proof (Z.div_mod (id / 26 - 1) 26 ltac:(lia)) as D. rewrite Nat2Z.inj_succ, Z.pow_succ_r by lia. nia.
Qed.

(** The default type names are distinct: [getDefaultTypeName] writes its
    argument in the letters A to Z, so the argument can be read back from the
    name. *)
Theorem default_names_distinct (id id' : Z) (H : 0 <= id) (H' : 0 <= id') :
  name_value (getDefaultTypeName id) = id + 1 /\
  (getDefaultTypeName id = getDefaultTypeName id' -> id = id').
Proof.
  assert (V : forall i, 0 <= i -> name_value (getDefaultTypeName i) = i + 1).
  { intros i Hi. unfold getDefaultTypeName. rewrite name_loop_value by lia. simpl.
    rewrite digit_name_char by (apply Z.mod_pos_bound; lia). pose proof (Z.div_mod i 26). lia. }
  split; [auto|]. intros E. apply (f_equal name_value) in E. rewrite !V in E by assumption. lia.
Qed.

Lemma default_names_distinct_witness :
  getDefaultTypeName 27 = "AB"%string /\ getDefaultTypeName 702 = "AAA"%string /\ name_value (getDefaultTypeName 702) = 703.
Proof. split; [reflexivity|]. split; [reflexivity|]. apply (default_names_distinct 702 0); lia. Defined.

(** * Refinement *)

Section refinement.
Context {Group : Type} {GT : GroupType Group}.

(** The calls a client makes, each with the particle data at that time, and
    what they answer. *)
Inductive group_call : Type :=
| CallAdd (g : Group) (p : pdata)
| CallRemove (tag : Z)
| CallNth (n : Z)
| CallRename (type : Z) (name : string)
| CallGet (tag : Z) (p : pdata)
| CallLoad (s : group_snapshot) (p : pdata)
| CallSnapshot (s : group_snapshot)
| CallTable (p : pdata)
| CallSort.

Inductive group_reply : Type :=
| ReplyTag (r : result Z)
| ReplyUnit (r : result unit)
| ReplyGroup (r : run Group)
| ReplySnapshot (r : result (group_snapshot * gmap Z Z))
| ReplyNone.

(** The implementation. *)
Definition group_exec (c : group_call) (d : gdata) : gdata * group_reply :=
  match c with
  | CallAdd g p => let '(d, r) := addBondedGroup g p d in (d, ReplyTag r)
  | CallRemove tag => let '(d, r) := removeBondedGroup tag d in (d, ReplyUnit r)
  | CallNth n => let '(d, r) := getNthTag n d in (d, ReplyTag r)
  | CallRename type name => match setTypeName type name d with Ok d => (d, ReplyUnit (Ok tt)) | Throw e => (d, ReplyUnit (Throw e)) end
  | CallGet tag p => (d, ReplyGroup (getGroupByTag tag p d))
  | CallLoad s p => let '(d, r) := initializeFromSnapshot s p d in (d, ReplyUnit r)
  | CallSnapshot s => (d, ReplySnapshot (takeSnapshot s d))
  | CallTable p => ((updateGPUTable p d).1, ReplyNone)
  | CallSort => (setDirty d, ReplyNone)
  end.

(** The specification: the groups by tag and the names of the types. *)
Record group_spec := mkSpec { sp_groups : gmap Z (typeval_t * list Z); sp_types : list string }.

Definition throws {A} (r : result A) : Prop := exists e, r = Throw e.

(** The tags in increasing order. *)
Definition sorted_tags (s : group_spec) (l : list Z) : Prop :=
  StronglySorted Z.lt l /\ forall t, t ∈ l <-> is_Some (sp_groups s !! t).

(** The groups 0 to [n - 1] of a snapshot, numbered in order. *)
Definition snapshot_map (s : group_snapshot) (n : nat) : gmap Z (typeval_t * list Z) :=
  list_to_map (zip (seqZ 0 (Z.of_nat n)) (zip (snap_typeval s <$> seq 0 n) (take n (gs_groups s)))).

(** The snapshot [sn] lists the groups with the tags [l], and [index] finds them. *)
Definition snapshot_of (s : group_spec) (l : list Z) (sn : group_snapshot) (index : gmap Z Z) : Prop :=
  length (gs_groups sn) = length l /\ gs_size sn = Z.of_nat (length l) /\ gs_type_mapping sn = sp_types s /\
  (forall k t, l !! k = Some t -> index !! t = Some (Z.of_nat k) /\
     exists m, gs_groups sn !! k = Some m /\ sp_groups s !! t = Some (snap_typeval sn k, m)).

Inductive spec_step (s : group_spec) : group_call -> group_reply -> group_spec -> Prop :=
| spec_add g p t : group_valid p (Z.of_nat (length (sp_types s))) (get_typeval g) (get_members g) -> sp_groups s !! t = None ->
    spec_step s (CallAdd g p) (ReplyTag (Ok t)) (mkSpec (<[t := (get_typeval g, get_members g)]> (sp_groups s)) (sp_types s))
| spec_add_throw g p r : ~ group_valid p (Z.of_nat (length (sp_types s))) (get_typeval g) (get_members g) -> throws r ->
    spec_step s (CallAdd g p) (ReplyTag r) s
| spec_remove t : is_Some (sp_groups s !! t) ->
    spec_step s (CallRemove t) (ReplyUnit (Ok tt)) (mkSpec (delete t (sp_groups s)) (sp_types s))
| spec_remove_throw t r : sp_groups s !! t = None -> throws r -> spec_step s (CallRemove t) (ReplyUnit r) s
| spec_nth n t l : sorted_tags s l -> l !! Z.to_nat n = Some t -> spec_step s (CallNth n) (ReplyTag (Ok t)) s
| spec_nth_throw n r : Z.of_nat (size (sp_groups s)) <= n -> throws r -> spec_step s (CallNth n) (ReplyTag r) s
| spec_rename type name : type < Z.of_nat (length (sp_types s)) ->
    spec_step s (CallRename type name) (ReplyUnit (Ok tt)) (mkSpec (sp_groups s) (zset (sp_types s) type name))
| spec_rename_throw type name r : Z.of_nat (length (sp_types s)) <= type -> throws r ->
    spec_step s (CallRename type name) (ReplyUnit r) s
| spec_get t p g : sp_groups s !! t = Some (get_typeval g, get_members g) -> (forall x, x ∈ get_members g -> isTagActive x p = true) ->
    spec_step s (CallGet t p) (ReplyGroup (Ret g)) s
| spec_get_fail t p r : (forall g, r <> Ret g) ->
    (forall x, sp_groups s !! t = Some x -> exists y, y ∈ x.2 /\ isTagActive y p = false) ->
    spec_step s (CallGet t p) (ReplyGroup r) s
| spec_load sn p n r : snap_validate sn = Ok tt -> first_invalid sn p (Z.of_nat (length (gs_type_mapping sn))) 0 (gs_groups sn) n ->
    (r = Ok tt <-> n = length (gs_groups sn)) ->
    spec_step s (CallLoad sn p) (ReplyUnit r) (mkSpec (snapshot_map sn n) (gs_type_mapping sn))
| spec_load_reject sn p e : snap_validate sn = Throw e -> spec_step s (CallLoad sn p) (ReplyUnit (Throw e)) s
| spec_snapshot s0 l sn index : sorted_tags s l -> snapshot_of s l sn index ->
    spec_step s (CallSnapshot s0) (ReplySnapshot (Ok (sn, index))) s
| spec_table p : spec_step s (CallTable p) ReplyNone s
| spec_sort : spec_step s CallSort ReplyNone s.

(** Tags are unsigned, and fewer than [2^31] are in use. *)
Definition call_ok (c : group_call) (d : gdata) : Prop :=
  match c with
  | CallAdd _ _ => group_high d < 2 ^ 31
  | CallRemove t | CallGet t _ => 0 <= t
  | CallNth n => 0 <= n
  | CallRename type _ => 0 <= type
  | CallLoad s _ => snap_shaped s /\ Z.of_nat (length (gs_groups s)) <= 2 ^ 31
  | _ => True
  end.

(** Traces of calls with their replies. *)
Inductive group_trace : gdata -> list (group_call * group_reply) -> gdata -> Prop :=
| trace_nil d : group_trace d [] d
| trace_cons c d tr d' : call_ok c d -> group_trace (group_exec c d).1 tr d' ->
    group_trace d ((c, (group_exec c d).2) :: tr) d'.

Inductive spec_trace : group_spec -> list (group_call * group_reply) -> group_spec -> Prop :=
| spec_trace_nil s : spec_trace s [] s
| spec_trace_cons s c r s' tr s'' : spec_step s c r s' -> spec_trace s' tr s'' -> spec_trace s ((c, r) :: tr) s''.

(** The abstraction. *)
Definition abstract (d : gdata) : group_spec := mkSpec (contents d) (m_type_mapping d).

(** Operations that only touch the tables, the cache and the flags. *)
Definition same_groups (d q : gdata) : Prop :=
  m_n_groups q = m_n_groups d /\ m_n_ghost q = m_n_ghost d /\ m_nglobal q = m_nglobal d /\ m_groups q = m_groups d /\
  m_group_typeval q = m_group_typeval d /\ m_group_tag q = m_group_tag d /\ m_group_rtag q = m_group_rtag d /\
  m_tag_set q = m_tag_set d /\ m_recycled_tags q = m_recycled_tags d /\ m_type_mapping q = m_type_mapping d /\
  m_cached_tag_set q = m_cached_tag_set d /\ m_invalid_cached_tags q = m_invalid_cached_tags d.

Lemma same_groups_gwf d q : same_groups d q -> gwf d -> gwf q /\ contents q = contents d.
Proof.
  intros (E1 & E2 & E3 & E4 & E5 & E6 & E7 & E8 & E9 & E10 & E11 & E12) [].
  split; [|unfold contents, rows; congruence]. unfold group_high, getNTypes in *.
  split; unfold group_high, getNTypes; rewrite ?E1, ?E2, ?E3, ?E4, ?E5, ?E6, ?E7, ?E8, ?E9, ?E10, ?E11, ?E12; assumption.
Qed.

Lemma rebuild_same p d : same_groups d (rebuildGPUTable p d).1.
Proof.
  unfold rebuildGPUTable. destruct (count_groups _ _ _) as [n c].
  destruct (run_bind c _) as [m| |]; [|repeat split..]. destruct (fill_groups _ _ _ _ _ _ _ _) as [[[a b] e]| |]; repeat split.
Qed.

Lemma update_same p d : same_groups d (updateGPUTable p d).1.
Proof.
  unfold updateGPUTable. destruct (m_groups_dirty d); [|repeat split]. pose proof (rebuild_same p d) as R.
  destruct (rebuildGPUTable p d) as [q [[]| |]]; exact R.
Qed.

Lemma contents_size d : gwf d -> Z.of_nat (size (contents d)) = m_nglobal d.
Proof.
  intros W. unfold contents. rewrite map_size_list_to_map by (rewrite (rows_tags d W); apply (group_tag_nodup d W)).
  rewrite <- (group_counts d W), (gw_n d W), <- (gw_tags d W), <- (rows_tags d W). now rewrite length_fmap.
Qed.

Lemma contents_none d t : gwf d -> t ∉ m_tag_set d -> contents d !! t = None.
Proof. intros W N. apply eq_None_not_Some. now rewrite (contents_dom d W). Qed.

Lemma sorted_tags_set d : gwf d -> sorted_tags (abstract d) (m_tag_set d).
Proof. intros W. split; [apply (pool_sorted _ _ _ (gw_pool d W))|]. intros t. symmetry. apply (contents_dom d W). Qed.

Lemma sim_nth n d : gwf d -> 0 <= n ->
  gwf (getNthTag n d).1 /\ abstract (getNthTag n d).1 = abstract d /\ spec_step (abstract d) (CallNth n) (ReplyTag (getNthTag n d).2) (abstract d).
Proof.
  intros W Hn. unfold getNthTag, getNGlobal. destruct (Z.geb_spec n (m_nglobal d)) as [G|L].
  { split; [assumption|]. split; [reflexivity|]. apply spec_nth_throw; [simpl; rewrite (contents_size d W); lia|now eexists]. }
  assert (C : m_cached_tag_set (maybe_rebuild_tag_cache d) = m_tag_set d).
  { unfold maybe_rebuild_tag_cache. destruct (m_invalid_cached_tags d) eqn:E; [reflexivity|]. now apply (gw_cache d W). }
  split_and!.
  - unfold maybe_rebuild_tag_cache. destruct (negb _); [assumption|]. destruct W. split; auto.
  - unfold maybe_rebuild_tag_cache. destruct (negb _); reflexivity.
  - apply (spec_nth _ n _ (m_tag_set d)); [now apply sorted_tags_set|]. simpl. rewrite C. apply lookup_zget.
    pose proof (pool_count _ _ _ (gw_pool d W)). lia.
Qed.

Lemma sim_rename type name d : gwf d -> 0 <= type -> let c := CallRename type name in
  gwf (group_exec c d).1 /\ spec_step (abstract d) c (group_exec c d).2 (abstract (group_exec c d).1).
Proof.
  intros W Ht. simpl. unfold setTypeName, getNTypes. destruct (Z.geb_spec type (Z.of_nat (length (m_type_mapping d)))) as [G|L]; simpl.
  - split; [assumption|]. apply spec_rename_throw; [simpl; lia|now eexists].
  - split; [|now apply (spec_rename (abstract d))]. destruct W as [w1 w2 w3 w4 w5 w6 w7 w8 w9 w10 w11 w12]. split; auto.
    unfold getNTypes in *. simpl. now rewrite length_zset.
Qed.

Lemma sim_get t p d : gwf d -> 0 <= t -> spec_step (abstract d) (CallGet t p) (ReplyGroup (getGroupByTag t p d)) (abstract d).
Proof.
  intros W Ht. rewrite (getGroupByTag_cases t p d W Ht). destruct (contents d !! t) as [[tv m]|] eqn:E.
  - assert (T : is_type tv = has_type_mapping /\ length m = group_size).
    { apply (contents_lookup d W) in E as [i E]. apply rows_lookup in E as (_ & E1 & E2). simpl in *.
      pose proof (Forall_lookup_1 _ _ _ _ (gw_types d W) E1) as [? _]. pose proof (Forall_lookup_1 _ _ _ _ (gw_members d W) E2) as [? _]. auto. }
    destruct T as [T L]. destruct (forallb _ m) eqn:F.
    + apply spec_get; rewrite ?get_make_typeval, ?get_make_members by assumption; [exact E|].
      rewrite forallb_forall in F. intros x Hx. now apply F, list_elem_of_In.
    + apply spec_get_fail; [discriminate|]. intros x Ex. simpl in Ex. rewrite E in Ex. injection Ex as <-.
      apply not_true_iff_false in F. rewrite forallb_forall in F. simpl.
      destruct (decide (Exists (fun y => isTagActive y p = false) m)) as [X|X].
      * apply Exists_exists in X as (y & ? & ?). eauto.
      * exfalso. apply F. intros y Hy%list_elem_of_In. destruct (isTagActive y p) eqn:Ey; [reflexivity|].
        exfalso. apply X, Exists_exists. eauto.
  - apply spec_get_fail; [destruct (t <? _); discriminate|]. intros x Ex. simpl in Ex. congruence.
Qed.

Lemma loaded_contents s n d : loaded_upto s n (take n (gs_groups s)) d -> contents d = snapshot_map s n.
Proof. intros (_ & E1 & E2 & E3 & _). unfold contents, rows, snapshot_map. now rewrite E1, E2, E3. Qed.

Lemma sim_load s p d : gwf d -> snap_shaped s -> Z.of_nat (length (gs_groups s)) <= 2 ^ 31 -> let c := CallLoad s p in
  gwf (group_exec c d).1 /\ spec_step (abstract d) c (group_exec c d).2 (abstract (group_exec c d).1).
Proof.
  intros W Sh B. simpl. destruct (snap_validate s) as [[]|e] eqn:V.
  - destruct (load_groups s p d Sh B V) as (n & d' & r & E & W' & T & F & R & L). rewrite E. simpl. split; [assumption|].
    unfold abstract at 2. rewrite T, (loaded_contents s n d' L). now apply spec_load.
  - unfold initializeFromSnapshot. rewrite V. simpl. split; [assumption|]. now apply spec_load_reject.
Qed.

Lemma content_kind t d : gwf d -> t ∈ m_tag_set d ->
  contents d !! t = Some (content t d) /\ is_type (content t d).1 = has_type_mapping.
Proof.
  intros W H. destruct (group_rtag_active d W t H) as (i & x & _ & R & C & _). unfold content. rewrite C. simpl. split; [reflexivity|].
  apply rows_lookup in R as (_ & R & _). now apply (Forall_lookup_1 _ _ _ _ (gw_types d W) R).
Qed.

Lemma sim_snapshot s d : gwf d ->
  spec_step (abstract d) (CallSnapshot s) (ReplySnapshot (takeSnapshot s d)) (abstract d).
Proof.
  intros W. destruct (takeSnapshot_groups s d W) as (s' & index & E & G & Ty & Va & Tm & Sz & Ix & _). rewrite E.
  apply (spec_snapshot _ s (m_tag_set d)); [now apply sorted_tags_set|]. split_and!; auto.
  - now rewrite G, length_fmap.
  - rewrite Sz. apply (pool_count _ _ _ (gw_pool d W)).
  - intros k t Hk. split; [auto|]. exists (content t d).2. split; [rewrite G, list_lookup_fmap, Hk; reflexivity|]. simpl.
    destruct (content_kind t d W) as [C K]; [eapply list_elem_of_lookup_2; exact Hk|]. rewrite C. f_equal.
    unfold snap_typeval. destruct has_type_mapping.
    + destruct (Ty eq_refl) as [-> _]. rewrite (nth_lookup_Some _ _ _ (tv_get_type (content t d).1)) by (now rewrite list_lookup_fmap, Hk).
      now destruct (content t d) as [[] ?].
    + destruct (Va eq_refl) as [-> _]. rewrite (nth_lookup_Some _ _ _ (tv_get_val (content t d).1)) by (now rewrite list_lookup_fmap, Hk).
      now destruct (content t d) as [[] ?].
Qed.

Lemma exec_simulates c d : gwf d -> call_ok c d ->
  gwf (group_exec c d).1 /\ spec_step (abstract d) c (group_exec c d).2 (abstract (group_exec c d).1).
Proof.
  intros W Ok. destruct c as [g p|t|n|type name|t p|sn p|sn|p|]; cbn [call_ok] in Ok.
  - simpl. destruct (addBondedGroup_cases g p d W) as [[V E]|[V [e E]]]; rewrite E; simpl.
    + destruct V as (V1 & V2 & V3).
      destruct (group_added_gwf (get_typeval g) (get_members g) d W Ok) as (W' & C & N & _);
        [split; [apply is_type_get_typeval|assumption]|split; [apply length_get_members|assumption]|].
      split; [assumption|]. unfold abstract at 2. rewrite C.
      replace (m_type_mapping (group_added _ _ d)) with (m_type_mapping d) by (unfold group_added; now destruct (m_recycled_tags d)).
      now apply (spec_add (abstract d)).
    + split; [assumption|]. apply (spec_add_throw (abstract d)); [exact V|now eexists].
  - simpl. destruct (removeBondedGroup_cases t d W Ok) as [[V E]|[V [e E]]]; rewrite E; simpl.
    + destruct (group_removed_gwf t d W V) as (W' & C & _). split; [assumption|]. unfold abstract at 2. rewrite C.
      apply (spec_remove (abstract d)). now apply (contents_dom d W).
    + split; [assumption|]. apply (spec_remove_throw (abstract d)); [now apply contents_none|now eexists].
  - destruct (sim_nth n d W Ok) as (A & B & C). simpl. destruct (getNthTag n d) as [q r]. simpl in *. now rewrite B.
  - now apply sim_rename.
  - split; [assumption|]. now apply sim_get.
  - destruct Ok. now apply sim_load.
  - split; [assumption|]. now apply sim_snapshot.
  - destruct (same_groups_gwf _ _ (update_same p d) W) as [W' C]. split; [assumption|]. simpl.
    unfold abstract at 2. rewrite C. destruct (update_same p d) as (_ & _ & _ & _ & _ & _ & _ & _ & _ & -> & _). apply spec_table.
  - split; [|apply spec_sort]. destruct W. now split.
Qed.

Lemma trace_simulates d tr d' : group_trace d tr d' -> gwf d -> gwf d' /\ spec_trace (abstract d) tr (abstract d').
Proof.
  induction 1 as [d|c d tr d' Ok Tr IH]; intros W; [split; [assumption|constructor]|].
  destruct (exec_simulates c d W Ok) as [W' S]. destruct (IH W') as [Wd R]. split; [assumption|]. econstructor; eassumption.
Qed.
Lemma new_gdata_gwf n : gwf (new_gdata n) /\ abstract (new_gdata n) = mkSpec ∅ (m_type_mapping (new_gdata n)).
Proof.
  set (d := mkGD 0 0 0 [] [] [] [] [] [] [] true (if has_type_mapping then getDefaultTypeName <$> seqZ 0 n else [])
       [] [] (Index2D.make 0 0) [] true []).
  destruct (initialize_gwf (m_type_mapping d) d) as [W C]. split; [exact W|reflexivity].
Qed.

(** C3. The bonded groups refine a map from tags to groups. Every call on an
    object made by the constructor, in any order and with any particle data,
    answers what the specification allows: a valid group gets an unused tag and
    is found under it until it is removed, an invalid one throws and changes
    nothing, the [n]-th tag is the [n]-th smallest, a snapshot is loaded up to
    its first invalid group, and a snapshot taken lists the groups in the order
    of their tags. In every state reached the arrays agree: the number of groups
    is the number of tags, and the group in each slot is the one its tag names. *)
Theorem groups_refine_map (n : Z) (tr : list (group_call * group_reply)) (d : gdata) (Tr : group_trace (new_gdata n) tr d) :
  spec_trace (mkSpec ∅ (m_type_mapping (new_gdata n))) tr (abstract d) /\
  getN d = getNGlobal d /\ getNGlobal d = Z.of_nat (size (contents d)) /\
  (forall i, 0 <= i < getN d -> exists t tv, m_group_tag d !! Z.to_nat i = Some t /\ m_group_rtag d !! Z.to_nat t = Some i /\
     contents d !! t = Some (tv, getMembersByIndex i d) /\ length (getMembersByIndex i d) = group_size /\ NoDup (getMembersByIndex i d)).
Proof.
  destruct (new_gdata_gwf n) as [W0 A0]. rewrite <- A0. destruct (trace_simulates _ _ _ Tr W0) as [W S]. split_and!; auto.
  - apply (group_counts d W).
  - symmetry. apply (contents_size d W).
  - intros i [Hi Hn]. unfold getN in Hn. rewrite (gw_n d W) in Hn.
    destruct (lookup_lt_is_Some_2 (m_groups d) (Z.to_nat i)) as [m Em]; [lia|].
    destruct (lookup_lt_is_Some_2 (m_group_typeval d) (Z.to_nat i)) as [tv Ev]; [rewrite (gw_typevals d W); lia|].
    destruct (lookup_lt_is_Some_2 (m_group_tag d) (Z.to_nat i)) as [t Et]; [rewrite (gw_tags d W); lia|].
    pose proof (proj1 (gw_rtag d W) _ _ Et) as R. rewrite Z2Nat.id in R by assumption.
    unfold getMembersByIndex. rewrite (zget_lookup _ _ _ m Em). exists t, tv. split; [assumption|]. split; [assumption|].
    split; [|exact (Forall_lookup_1 _ _ _ _ (gw_members d W) Em)].
    apply (contents_lookup d W). exists (Z.to_nat i). now apply rows_lookup.
Qed.

End refinement.

(** Two bonds, one removed, its tag used again. *)
Definition bond_calls : list (@group_call Bond) :=
  [CallAdd (mkBond 0 0 1) loaded3; CallAdd (mkBond 0 1 2) loaded3; CallRemove 0; CallAdd (mkBond 0 2 0) loaded3; CallNth 1].

Fixpoint run_calls {Group} `{GroupType Group} (cs : list group_call) (d : gdata) : gdata * list (group_call * group_reply) :=
  match cs with
  | [] => (d, [])
  | c :: cs => let '(d', tr) := run_calls cs (group_exec c d).1 in (d', (c, (group_exec c d).2) :: tr)
  end.

Fixpoint calls_ok {Group} `{GroupType Group} (cs : list group_call) (d : gdata) : Prop :=
  match cs with
  | [] => True
  | c :: cs => call_ok c d /\ calls_ok cs (group_exec c d).1
  end.

Lemma run_calls_trace {Group} `{GroupType Group} cs : forall d, calls_ok cs d ->
  group_trace d (run_calls cs d).2 (run_calls cs d).1.
Proof.
  induction cs as [|c cs IH]; intros d O; simpl in *; [constructor|]. destruct O as [O1 O2]. specialize (IH _ O2).
  destruct (run_calls cs (group_exec c d).1) as [d' tr]. now constructor.
Qed.

Definition bonds : gdata := (run_calls bond_calls (new_gdata (Group := Bond) 1)).1.

Lemma bond_calls_ok : calls_ok bond_calls (new_gdata (Group := Bond) 1).
Proof. repeat split; vm_compute; (reflexivity || discriminate). Qed.

Lemma groups_refine_map_witness :
  getN bonds = 2 /\ m_group_tag bonds = [1; 0] /\ getN bonds = getNGlobal bonds.
Proof.
  split; [reflexivity|]. split; [reflexivity|].
  destruct (groups_refine_map (Group := Bond) 1 _ _ (run_calls_trace _ _ bond_calls_ok)) as (_ & E & _). exact E.
Defined.

(** * Snapshots *)

Lemma seqZ_sorted m n : StronglySorted Z.lt (seqZ m (Z.of_nat n)).
Proof.
  induction n as [|n IH]; [constructor|]. rewrite seqZ_S. apply StronglySorted_app. split_and!; auto; [|repeat constructor].
  intros x y Hx%elem_of_seqZ Hy%list_elem_of_singleton. lia.
Qed.

Section loaded_snapshot.
Context {Group : Type} {GT : GroupType Group}.
Variables (s : group_snapshot) (q : gdata).
Hypothesis W : gwf q.
Hypothesis V : snap_validate s = Ok tt.
Let n := length (gs_groups s).
Hypothesis L : loaded_upto s n (gs_groups s) q.

Lemma validate_lengths :
  (has_type_mapping = true -> length (gs_type_id s) = n) /\ (has_type_mapping = false -> length (gs_val s) = n).
Proof.
  unfold snap_validate in V. fold n in V. destruct has_type_mapping; simpl in V.
  - destruct (Nat.eqb_spec n (length (gs_type_id s))); [split; [auto|discriminate]|discriminate].
  - destruct (Nat.eqb_spec n (length (gs_val s))); [split; [discriminate|auto]|discriminate].
Qed.

Lemma loaded_tag_set : m_tag_set q = seqZ 0 (Z.of_nat n).
Proof.
  apply sorted_ext; [apply (pool_sorted _ _ _ (gw_pool q W))|apply seqZ_sorted|]. intros t.
  rewrite <- (proj1 (proj2 L)). apply (gw_local q W).
Qed.

Lemma loaded_content k m : gs_groups s !! k = Some m -> content (Z.of_nat k) q = (snap_typeval s k, m).
Proof.
  intros Hk. pose proof (lookup_lt_Some _ _ _ Hk) as Lk. destruct L as (_ & L2 & L3 & L4 & _). unfold content.
  rewrite (proj2 (contents_lookup q W _ (snap_typeval s k, m))); [reflexivity|]. exists k. apply rows_lookup.
  rewrite L2, L3, L4, list_lookup_fmap, lookup_seq_lt, lookup_seqZ_lt by (unfold n; lia). auto.
Qed.

(** What the snapshot holds for each tag in order. *)
Lemma loaded_map {A} (f : typeval_t * list Z -> A) l : length l = n ->
  (forall k m, gs_groups s !! k = Some m -> l !! k = Some (f (snap_typeval s k, m))) ->
  (fun t => f (content t q)) <$> m_tag_set q = l.
Proof.
  intros Ll Hl. rewrite loaded_tag_set. apply list_eq. intros k. rewrite list_lookup_fmap.
  destruct (decide (k < n)%nat) as [Hk|Hk].
  - destruct (lookup_lt_is_Some_2 _ _ Hk) as [m Hm]. rewrite lookup_seqZ_lt by lia. simpl. rewrite Z.add_0_l, (loaded_content k m Hm).
    symmetry. now apply Hl.
  - rewrite lookup_seqZ_ge by lia. now rewrite lookup_ge_None_2 by lia.
Qed.

Lemma loaded_roundtrip s0 : exists s' index, takeSnapshot s0 q = Ok (s', index) /\
  gs_groups s' = gs_groups s /\ gs_type_mapping s' = m_type_mapping q /\ gs_size s' = Z.of_nat n /\
  (has_type_mapping = true -> gs_type_id s' = gs_type_id s) /\ (has_type_mapping = false -> gs_val s' = gs_val s) /\
  (forall t, 0 <= t < gs_size s' -> index !! t = Some t).
Proof.
  destruct (takeSnapshot_groups s0 q W) as (s' & index & Et & G & Ty & Va & Tm & Sz & Ix & _). destruct validate_lengths as [Lt Lv].
  assert (Es : gs_size s' = Z.of_nat n).
  { rewrite Sz. unfold getNGlobal. rewrite (pool_count _ _ _ (gw_pool q W)), loaded_tag_set, length_seqZ. lia. }
  exists s', index. split_and!; auto.
  - rewrite G. now apply (loaded_map snd).
  - intros H. destruct (Ty H) as [-> _]. apply (loaded_map (fun x => tv_get_type x.1)); [auto|]. intros k m Hk.
    unfold snap_typeval. rewrite H. simpl. apply nth_lookup_lt. rewrite (Lt H). eapply lookup_lt_Some; exact Hk.
  - intros H. destruct (Va H) as [-> _]. apply (loaded_map (fun x => tv_get_val x.1)); [auto|]. intros k m Hk.
    unfold snap_typeval. rewrite H. simpl. apply nth_lookup_lt. rewrite (Lv H). eapply lookup_lt_Some; exact Hk.
  - rewrite Es. intros t Ht. rewrite (Ix (Z.to_nat t) t); [now rewrite Z2Nat.id by lia|].
    rewrite loaded_tag_set, lookup_seqZ_lt by lia. f_equal. lia.
Qed.

End loaded_snapshot.

(** A snapshot after a load that did not throw. *)
Lemma load_take_groups {Group} {GT : GroupType Group} (s s0 : group_snapshot) (p : pdata) (d : gdata) :
  snap_shaped s -> Z.of_nat (length (gs_groups s)) <= 2 ^ 31 -> (initializeFromSnapshot s p d).2 = Ok tt ->
  exists s' index, takeSnapshot s0 (initializeFromSnapshot s p d).1 = Ok (s', index) /\
     gs_groups s' = gs_groups s /\ gs_type_mapping s' = gs_type_mapping s /\ gs_size s' = Z.of_nat (length (gs_groups s)) /\
     (has_type_mapping = true -> gs_type_id s' = gs_type_id s) /\ (has_type_mapping = false -> gs_val s' = gs_val s) /\
     (forall t, 0 <= t < gs_size s' -> index !! t = Some t).
Proof.
  intros Sh B. destruct (snap_validate s) as [[]|e] eqn:V; [|unfold initializeFromSnapshot; rewrite V; discriminate].
  destruct (load_groups s p d Sh B V) as (n & q & r & E & W & T & _ & R & L). rewrite E. simpl.
  intros En%R. subst n. rewrite take_ge in L by lia. rewrite <- T. now apply loaded_roundtrip.
Qed.

(** C36. Round trip of group snapshots: when a snapshot is loaded without an
    exception, a snapshot taken afterwards lists the same groups with the same
    types or values and the same type names, and maps each tag to its position.
    Loading succeeds exactly when the snapshot validates and every group is
    valid. *)
Theorem group_snapshot_roundtrip {Group} {GT : GroupType Group} (s s0 : group_snapshot) (p : pdata) (d : gdata)
  (Sh : snap_shaped s) (B : Z.of_nat (length (gs_groups s)) <= 2 ^ 31) :
  let q := (initializeFromSnapshot s p d).1 in let r := (initializeFromSnapshot s p d).2 in
  (r = Ok tt <-> snap_validate s = Ok tt /\
     forall j m, gs_groups s !! j = Some m -> group_valid p (Z.of_nat (length (gs_type_mapping s))) (snap_typeval s j) m) /\
  (r = Ok tt -> exists s' index, takeSnapshot s0 q = Ok (s', index) /\
     gs_groups s' = gs_groups s /\ gs_type_mapping s' = gs_type_mapping s /\ gs_size s' = Z.of_nat (length (gs_groups s)) /\
     (has_type_mapping = true -> gs_type_id s' = gs_type_id s) /\ (has_type_mapping = false -> gs_val s' = gs_val s) /\
     (forall t, 0 <= t < gs_size s' -> index !! t = Some t)).
Proof.
  cbn zeta. split; [|now apply load_take_groups]. destruct (snap_validate s) as [[]|e] eqn:V.
  2: { unfold initializeFromSnapshot. rewrite V. simpl. split; [discriminate|now intros [? _]]. }
  destruct (load_groups s p d Sh B V) as (n & q & r & E & W & T & (F1 & F2 & F3) & R & L). rewrite E. simpl. rewrite R. split.
  - intros En. split; [reflexivity|]. intros j m Hj. apply (F2 j m); [rewrite En; eapply lookup_lt_Some; exact Hj|assumption].
  - intros [_ A]. destruct (decide (n < length (gs_groups s))%nat) as [[m Hm]%lookup_lt_is_Some_2|]; [|lia].
    exfalso. now apply (F3 m Hm), A.
Qed.

(** Two constraints between three particles. *)
Definition two_constraints : group_snapshot := mkGroupSnapshot [] [1%Q; (3 # 2)%Q] [[0; 1]; [1; 2]] [] 2.

Lemma group_snapshot_roundtrip_witness :
  exists s' index, takeSnapshot (Group := Constraint) (mkGroupSnapshot [] [] [] [] 0)
    (initializeFromSnapshot (Group := Constraint) two_constraints loaded3 (new_gdata (Group := Constraint) 0)).1 = Ok (s', index) /\
    gs_groups s' = [[0; 1]; [1; 2]].
Proof.
  destruct (group_snapshot_roundtrip (Group := Constraint) two_constraints (mkGroupSnapshot [] [] [] [] 0) loaded3
    (new_gdata (Group := Constraint) 0)) as [_ R].
  - repeat constructor.
  - simpl. lia.
  - destruct R as (s' & index & E & G & _); [vm_compute; reflexivity|]. exists s', index. split; [exact E|exact G].
Defined.
