(* ===== verification/BondedGroupTable.v ===== *)
(** The table of groups by particle index: the two passes of [rebuildGPUTable]
    against a reference, and the lazy rebuild under changes of the particle data.

    The reference is the list of [events] in the order of the loops: for every
    group and every member the index of that member, the entry that belongs in
    its column, and its position in the group. The column of a particle is the
    list of its events. *)

From Stdlib Require Import ZArith Lia QArith String Sorted.
From stdpp Require Import base list list_numbers sorting gmap strings.
From S2P Require Import Prelude HOOMDMath Index1D BoxDim ParticleData ParticleDataProps ParticleDataSpec ParticleGroupSpec BondedGroupData BondedGroupDataProps BondedGroupDataSpec.
Local Open Scope Z_scope.
Local Open Scope hoomd_scope.

(** * Counting *)

(** The number of occurrences. *)
Definition tally (x : Z) (l : list Z) : Z := Z.of_nat (length (filter (fun y => y = x) l)).

Lemma tally_cons x y l : tally x (y :: l) = (if decide (y = x) then 1 else 0) + tally x l.
Proof. unfold tally. rewrite filter_cons. case_decide; simpl; lia. Qed.

Lemma tally_app x l k : tally x (l ++ k) = tally x l + tally x k.
Proof. unfold tally. rewrite filter_app, length_app. lia. Qed.

Lemma tally_nonneg x l : 0 <= tally x l.
Proof. unfold tally. lia. Qed.

(** [n] counts the elements of [l] below [N]. *)
Definition counts (N : Z) (l n : list Z) : Prop :=
  length n = Z.to_nat N /\ forall i, 0 <= i < N -> n !! Z.to_nat i = Some (tally i l).

Lemma counts_zero N : counts N [] (replicate (Z.to_nat N) 0).
Proof. split; [apply length_replicate|]. intros i H. apply lookup_replicate. split; [reflexivity|lia]. Qed.

Lemma counts_snoc N l n i : counts N l n -> 0 <= i < N -> tally i l < 2 ^ 32 - 1 ->
  n !! Z.to_nat i = Some (tally i l) /\ counts N (l ++ [i]) (zset n i (u32 (tally i l + 1))).
Proof.
  intros [L C] Hi Hb. split; [auto|]. pose proof (tally_nonneg i l). rewrite u32_small by (unfold is_u32; lia).
  split; [now rewrite length_zset|]. intros j Hj. rewrite tally_app, tally_cons. change (tally j []) with 0. destruct (decide (i = j)) as [->|D].
  - rewrite lookup_zset_eq by lia. f_equal; lia.
  - rewrite lookup_zset_ne by lia. rewrite C by assumption. f_equal; lia.
Qed.

Lemma max_element_spec l : l <> [] -> exists m, max_element l = Ret m /\ m ∈ l /\ forall x, x ∈ l -> x <= m.
Proof.
  destruct l as [|x l]; [congruence|]. intros _. simpl. revert x. induction l as [|y l IH]; intros x; simpl.
  - exists x. split; [reflexivity|]. split; [left|]. intros y ->%list_elem_of_singleton. lia.
  - destruct (IH (if x <? y then y else x)) as (m & E & I & U). exists m. split; [assumption|].
    assert (B : (if x <? y then y else x) <= m) by (apply U; left). split.
    + apply elem_of_cons in I as [->|I]; [destruct (x <? y); set_solver|set_solver].
    + intros z [->|[->|H]%elem_of_cons]%elem_of_cons; [destruct (Z.ltb_spec x y); lia|destruct (Z.ltb_spec x y); lia|apply U; now right].
Qed.

Section table.
Context {Group : Type} {GT : GroupType Group}.
Variables (rtag : list Z) (N : Z).
Implicit Types (g tags n : list Z) (groups : list (list Z)) (typeval : list typeval_t).

Definition index_of (t : Z) : Z := zget 0 rtag t.

(** The member is a particle that the arrays hold. *)
Definition present (t : Z) : Prop := rtag !! Z.to_nat t = Some (index_of t) /\ 0 <= index_of t < N /\ index_of t <> NOT_LOCAL.

Definition last_of (typeval : list typeval_t) (c : Z) : Z :=
  if has_type_mapping then tv_get_type (zget (tv_type 0) typeval c) else c.

(** ** The events *)

Definition event : Type := Z * (list Z * Z).

Fixpoint member_events (g : list Z) (last : Z) (tags : list Z) (i : nat) : list event :=
  match tags with
  | [] => []
  | t :: tags => (index_of t, ((index_of <$> delete i g) ++ [last], Z.of_nat i)) :: member_events g last tags (S i)
  end.

Fixpoint group_events (typeval : list typeval_t) (groups : list (list Z)) (c : Z) : list event :=
  match groups with
  | [] => []
  | g :: groups => member_events g (last_of typeval c) g 0 ++ group_events typeval groups (c + 1)
  end.

Definition column (i : Z) (E : list event) : list (list Z * Z) := snd <$> filter (fun e : event => e.1 = i) E.

Lemma column_snoc i E e : column i (E ++ [e]) = column i E ++ (if decide (e.1 = i) then [e.2] else []).
Proof. unfold column. rewrite filter_app, fmap_app, filter_cons. case_decide; reflexivity. Qed.

Lemma length_column i E : Z.of_nat (length (column i E)) = tally i E.*1.
Proof.
  unfold column. rewrite length_fmap. induction E as [|e E IH]; [reflexivity|]. rewrite filter_cons, fmap_cons, tally_cons, <- IH.
  case_decide; simpl; lia.
Qed.

Lemma member_events_fst g last tags : forall i, (member_events g last tags i).*1 = index_of <$> tags.
Proof. induction tags as [|t tags IH]; intros i; simpl; [reflexivity|]. now rewrite IH. Qed.

Lemma group_events_fst typeval groups : forall c, (group_events typeval groups c).*1 = index_of <$> concat groups.
Proof.
  induction groups as [|g groups IH]; intros c; simpl; [reflexivity|]. now rewrite !fmap_app, member_events_fst, IH.
Qed.

(** ** The first pass *)

Lemma count_members_app tags tags' : forall n,
  count_members rtag (tags ++ tags') n =
  match count_members rtag tags n with (n, Ret _) => count_members rtag tags' n | failed => failed end.
Proof.
  induction tags as [|t tags IH]; intros n; simpl; [reflexivity|]. destruct (rtag !! Z.to_nat t) as [i|]; [|reflexivity].
  destruct (i =? NOT_LOCAL); [reflexivity|]. now destruct (n !! Z.to_nat i).
Qed.

Lemma count_groups_concat groups : forall n, count_groups rtag groups n = count_members rtag (concat groups) n.
Proof.
  induction groups as [|g groups IH]; intros n; simpl; [reflexivity|]. rewrite count_members_app.
  destruct (count_members rtag g n) as [n' [u| |]]; auto.
Qed.

Lemma count_members_ok tags : forall done n, counts N done n -> Forall present tags ->
  (forall i, 0 <= i < N -> tally i (done ++ (index_of <$> tags)) < 2 ^ 32) ->
  exists n', count_members rtag tags n = (n', Ret tt) /\ counts N (done ++ (index_of <$> tags)) n'.
Proof.
  induction tags as [|t tags IH]; intros done n C P B; cbn [count_members].
  { exists n. simpl. rewrite app_nil_r. auto. }
  apply Forall_cons in P as [(E & Hi & NL) P]. rewrite E.
  destruct (Z.eqb_spec (index_of t) NOT_LOCAL); [contradiction|].
  assert (Hb : tally (index_of t) done < 2 ^ 32 - 1).
  { specialize (B _ Hi). rewrite fmap_cons, tally_app, tally_cons in B. rewrite decide_True in B by reflexivity.
    pose proof (tally_nonneg (index_of t) (index_of <$> tags)). lia. }
  destruct (counts_snoc _ _ _ _ C Hi Hb) as [L C']. rewrite L.
  assert (Eq : done ++ (index_of <$> t :: tags) = (done ++ [index_of t]) ++ (index_of <$> tags)) by (now rewrite <- app_assoc).
  rewrite Eq in *. now apply IH.
Qed.

(** A member that is not local stops the first pass with an exception. *)
Lemma count_members_incomplete tags : forall n, length n = Z.to_nat N ->
  (forall t, t ∈ tags -> exists i, rtag !! Z.to_nat t = Some i /\ (i = NOT_LOCAL \/ 0 <= i < N)) ->
  (exists t, t ∈ tags /\ rtag !! Z.to_nat t = Some NOT_LOCAL) ->
  exists n' e, count_members rtag tags n = (n', Raise e).
Proof.
  induction tags as [|t tags IH]; intros n L A [s [Hs X]]; [now apply elem_of_nil in Hs|]. cbn [count_members].
  destruct (A t) as (i & E & D); [left|]. rewrite E. destruct (Z.eqb_spec i NOT_LOCAL) as [->|NL]; [eauto|].
  destruct D as [?|Hi]; [contradiction|]. destruct (lookup_lt_is_Some_2 n (Z.to_nat i)) as [c Ec]; [lia|]. rewrite Ec.
  apply IH; [now rewrite length_zset|intros; apply A; now right|]. apply elem_of_cons in Hs as [->|Hs]; [congruence|eauto].
Qed.

(** ** The second pass *)

(** Appending an event to its column. *)
Definition push (x : Index2D.t) (e : event) (n : list Z) (table : list (list Z)) (pos : list Z) : run (list Z * list (list Z) * list Z) :=
  bind! num := read n e.1 in
  bind! n := write n e.1 (u32 (num + 1)) in
  bind! table := write table (Index2D.index x e.1 num) e.2.1 in
  bind! pos := write pos (Index2D.index x e.1 num) e.2.2 in
  Ret (n, table, pos).

Fixpoint pushes (x : Index2D.t) (E : list event) (n : list Z) (table : list (list Z)) (pos : list Z) : run (list Z * list (list Z) * list Z) :=
  match E with
  | [] => Ret (n, table, pos)
  | e :: E => bind! (n, table, pos) := push x e n table pos in pushes x E n table pos
  end.

Lemma pushes_app x E F : forall n table pos,
  pushes x (E ++ F) n table pos = bind! (n, table, pos) := pushes x E n table pos in pushes x F n table pos.
Proof.
  induction E as [|e E IH]; intros n table pos; simpl; [reflexivity|].
  destruct (push x e n table pos) as [[[n' table'] pos']| |]; simpl; auto.
Qed.

Lemma read_all_present tags : Forall present tags -> read_all rtag tags = Ret (index_of <$> tags).
Proof.
  induction 1 as [|t tags (E & _) _ IH]; simpl; [reflexivity|]. rewrite (read_Some _ _ _ E). simpl. now rewrite IH.
Qed.

Lemma fill_members_events x g last tags : Forall present g -> forall i n table pos, Forall present tags ->
  fill_members rtag g last x tags i n table pos = pushes x (member_events g last tags i) n table pos.
Proof.
  intros G. induction tags as [|t tags IH]; intros i n table pos P; simpl; [reflexivity|].
  apply Forall_cons in P as [(E & _) P]. rewrite (read_Some _ _ _ E). simpl. unfold push. simpl.
  rewrite read_all_present by now apply Forall_delete.
  destruct (read n (index_of t)) as [num| |]; simpl; [|reflexivity..]. destruct (write n _ _) as [n'| |]; simpl; [|reflexivity..].
  destruct (write table _ _) as [table'| |]; simpl; [|reflexivity..]. destruct (write pos _ _) as [pos'| |]; simpl; [|reflexivity..].
  now apply IH.
Qed.

Lemma last_element_ok typeval c : 0 <= c < Z.of_nat (length typeval) -> last_element typeval c = Ret (last_of typeval c).
Proof.
  intros H. unfold last_element, last_of. destruct has_type_mapping; [|reflexivity].
  rewrite (read_Some _ _ _ (lookup_zget (tv_type 0) typeval c ltac:(lia))). reflexivity.
Qed.

Lemma fill_groups_events x typeval groups : forall c n table pos, 0 <= c -> c + Z.of_nat (length groups) <= Z.of_nat (length typeval) ->
  Forall (Forall present) groups ->
  fill_groups rtag typeval x groups c n table pos = pushes x (group_events typeval groups c) n table pos.
Proof.
  induction groups as [|g groups IH]; intros c n table pos Hc L P; simpl; [reflexivity|]. simpl in L.
  apply Forall_cons in P as [Pg P]. rewrite last_element_ok by lia. simpl. rewrite fill_members_events by assumption.
  rewrite pushes_app. destruct (pushes x _ n table pos) as [[[n' table'] pos']| |]; simpl; auto. apply IH; [lia|lia|assumption].
Qed.

(** The columns hold the events [E]. *)
Definition filled (x : Index2D.t) (E : list event) (n : list Z) (table : list (list Z)) (pos : list Z) : Prop :=
  counts N E.*1 n /\
  forall i k y, 0 <= i < N -> column i E !! k = Some y ->
    table !! Z.to_nat (Index2D.index x i (Z.of_nat k)) = Some y.1 /\ pos !! Z.to_nat (Index2D.index x i (Z.of_nat k)) = Some y.2.

Section columns.
Variables (x : Index2D.t) (h : Z).
Hypothesis X : x = Index2D.make N h.
Hypothesis F : Index2D.fits x.

Lemma index_inj i j k l : 0 <= i < N -> 0 <= j < N -> 0 <= k < h -> 0 <= l < h ->
  Z.to_nat (Index2D.index x i k) = Z.to_nat (Index2D.index x j l) -> i = j /\ k = l.
Proof.
  intros. destruct (index2d_getPair x i k F) as [B1 P1]; [subst x; split; assumption|].
  destruct (index2d_getPair x j l F) as [B2 P2]; [subst x; split; assumption|].
  assert (E : Index2D.index x i k = Index2D.index x j l) by lia. rewrite E in P1. rewrite P1 in P2. now injection P2.
Qed.

Lemma push_ok E e n table pos : filled x E n table pos -> 0 <= e.1 < N -> tally e.1 E.*1 < h -> (forall i, 0 <= i < N -> tally i E.*1 <= h) ->
  Index2D.getNumElements x <= Z.of_nat (length table) -> Index2D.getNumElements x <= Z.of_nat (length pos) ->
  exists n' table' pos', push x e n table pos = Ret (n', table', pos') /\ filled x (E ++ [e]) n' table' pos' /\
    length table' = length table /\ length pos' = length pos.
Proof.
  intros [C T] He Hh Hall Lt Lp. pose proof (tally_nonneg e.1 E.*1) as O0.
  assert (Hb : h < 2 ^ 32) by (subst x; destruct F as (? & ? & ?); simpl in *; nia).
  destruct (counts_snoc _ _ _ _ C He) as [R C']; [lia|].
  destruct (index2d_getPair x e.1 (tally e.1 E.*1) F) as [B _]; [subst x; split; simpl; lia|].
  unfold push. rewrite (read_Some _ _ _ R). simpl. rewrite write_in by (rewrite (proj1 C); lia). simpl.
  rewrite !write_in by lia. simpl. do 3 eexists. split; [reflexivity|]. rewrite !length_zset. split; [|auto].
  split; [now rewrite fmap_app|]. intros i k y Hi Hk. rewrite column_snoc in Hk.
  apply lookup_app_Some in Hk as [Hk|[Hk Hk']].
  - pose proof (lookup_lt_Some _ _ _ Hk) as Lk. pose proof (length_column i E) as Lc. pose proof (Hall i Hi).
    destruct (T i k y Hi Hk) as [T1 T2].
    assert (D : Z.to_nat (Index2D.index x e.1 (tally e.1 E.*1)) <> Z.to_nat (Index2D.index x i (Z.of_nat k))).
    { intros Eq. destruct (index_inj e.1 i (tally e.1 E.*1) (Z.of_nat k)) as [-> Ek]; auto; lia. }
    now rewrite !lookup_zset_ne by exact D.
  - destruct (decide (e.1 = i)) as [<-|]; [|discriminate]. apply list_lookup_singleton_Some in Hk' as [Ek <-].
    replace (Z.of_nat k) with (tally e.1 E.*1) by (rewrite <- length_column; lia). rewrite !lookup_zset_eq by lia. auto.
Qed.

Lemma pushes_ok G : forall E n table pos, filled x E n table pos -> Forall (fun e => 0 <= e.1 < N) G ->
  (forall i, 0 <= i < N -> tally i (E ++ G).*1 <= h) ->
  Index2D.getNumElements x <= Z.of_nat (length table) -> Index2D.getNumElements x <= Z.of_nat (length pos) ->
  exists n' table' pos', pushes x G n table pos = Ret (n', table', pos') /\ filled x (E ++ G) n' table' pos'.
Proof.
  induction G as [|e G IH]; intros E n table pos Fi B Hh Lt Lp; simpl; [rewrite app_nil_r; eauto 6|].
  apply Forall_cons in B as [He B].
  assert (Hs : forall i, 0 <= i < N -> tally i E.*1 + (if decide (e.1 = i) then 1 else 0) <= h).
  { intros i Hi. specialize (Hh i Hi). rewrite fmap_app, fmap_cons, tally_app, tally_cons in Hh. pose proof (tally_nonneg i G.*1). lia. }
  destruct (push_ok E e n table pos Fi He) as (n' & table' & pos' & -> & Fi' & L1 & L2); auto.
  - specialize (Hs _ He). rewrite decide_True in Hs by reflexivity. lia.
  - intros i Hi. specialize (Hs i Hi). destruct (decide _); lia.
  - simpl. assert (Eq : E ++ e :: G = (E ++ [e]) ++ G) by (now rewrite <- app_assoc). rewrite Eq in *.
    apply IH; auto; now rewrite ?L1, ?L2.
Qed.

End columns.

End table.

(** What a column lists: for each group, in order, and each position of the
    particle in it, the indices of the other members, the type or the number of
    the group, and the position. *)
Lemma elem_of_member_events rtag g last e tags : forall i,
  e ∈ member_events rtag g last tags i <->
  exists j t, tags !! j = Some t /\ e = (index_of rtag t, ((index_of rtag <$> delete (i + j)%nat g) ++ [last], Z.of_nat (i + j))).
Proof.
  induction tags as [|t tags IH]; intros i; simpl.
  { split; [intros H; now apply elem_of_nil in H|intros (j & t & H & _); discriminate H]. }
  rewrite elem_of_cons, IH. split.
  - intros [->|(j & s & A & ->)]; [exists 0%nat, t; now rewrite Nat.add_0_r|]. exists (S j), s. now rewrite Nat.add_succ_r.
  - intros ([|j] & s & A & ->); simpl in A; [injection A as ->; rewrite Nat.add_0_r; auto|]. right. exists j, s. now rewrite Nat.add_succ_r.
Qed.

Lemma elem_of_group_events {Group} {GT : GroupType Group} rtag typeval e groups : forall c,
  e ∈ group_events rtag typeval groups c <->
  exists k g j t, groups !! k = Some g /\ g !! j = Some t /\
    e = (index_of rtag t, ((index_of rtag <$> delete j g) ++ [last_of typeval (c + Z.of_nat k)], Z.of_nat j)).
Proof.
  induction groups as [|g groups IH]; intros c; simpl.
  { split; [intros H; now apply elem_of_nil in H|intros (k & g & j & t & H & _); discriminate H]. }
  rewrite elem_of_app, elem_of_member_events, IH. split.
  - intros [(j & t & A & ->)|(k & g' & j & t & A & B & ->)]; [exists 0%nat, g, j, t; now rewrite Z.add_0_r|].
    exists (S k), g', j, t. split; [assumption|]. split; [assumption|]. now replace (c + Z.of_nat (S k)) with (c + 1 + Z.of_nat k) by lia.
  - intros ([|k] & g' & j & t & A & B & ->); simpl in A.
    + injection A as ->. left. exists j, t. now rewrite Z.add_0_r.
    + right. exists k, g', j, t. split; [assumption|]. split; [assumption|]. now replace (c + Z.of_nat (S k)) with (c + 1 + Z.of_nat k) by lia.
Qed.

Lemma elem_of_column i y E : y ∈ column i E <-> (i, y) ∈ E.
Proof.
  unfold column. rewrite list_elem_of_fmap. split.
  - intros ([j z] & -> & [Ei H]%list_elem_of_filter). simpl in *. now subst j.
  - intros H. exists (i, y). split; [reflexivity|]. now apply list_elem_of_filter.
Qed.

(** * The table of an object *)

Section rebuild.
Context {Group : Type} {GT : GroupType Group}.
Implicit Types (p : pdata) (d q : gdata).

Definition events (p : pdata) (d : gdata) : list event := group_events (m_rtag p) (m_group_typeval d) (m_groups d) 0.

Definition members_local (p : pdata) (d : gdata) : Prop :=
  Forall (Forall (present (m_rtag p) (ParticleData.getN p))) (m_groups d).

(** The table, the positions and the counts of every particle are those of the
    reference. *)
Definition table_for (p : pdata) (d : gdata) : Prop :=
  let x := m_gpu_table_indexer d in
  Index2D.fits x /\ ParticleData.getN p <= Index2D.m_w x /\ members_local p d /\
  forall i, 0 <= i < ParticleData.getN p ->
    let c := column i (events p d) in
    m_gpu_n_groups d !! Z.to_nat i = Some (Z.of_nat (length c)) /\ Z.of_nat (length c) <= Index2D.m_h x /\
    forall k y, c !! k = Some y ->
      m_gpu_table d !! Z.to_nat (Index2D.index x i (Z.of_nat k)) = Some y.1 /\
      m_gpu_pos_table d !! Z.to_nat (Index2D.index x i (Z.of_nat k)) = Some y.2.

Lemma present_mono rtag n m t : n <= m -> present rtag n t -> present rtag m t.
Proof. intros H (A & B & C). split; [assumption|]. split; [lia|assumption]. Qed.

Lemma storage_resize_length {A} (z : A) n l : n <= Z.of_nat (length (storage_resize z n l)).
Proof. unfold storage_resize. rewrite length_app, length_replicate. lia. Qed.

Section rebuilding.
Variables (p : pdata) (d : gdata).
Hypothesis W : gwf d.
Let N := ParticleData.getN p + m_nghosts p.
Hypothesis Ng : 0 <= ParticleData.getN p /\ 0 <= m_nghosts p /\ N < 2 ^ 32.

Lemma rebuild_groups : take (Z.to_nat (u32 (m_n_groups d + m_n_ghost d))) (m_groups d) = m_groups d /\ u32 N = N.
Proof.
  pose proof (group_counts d W). pose proof (group_count_bound d W). pose proof (gw_bound d W).
  rewrite (gw_ghost d W), !u32_small by (unfold is_u32; lia). split; [|reflexivity]. rewrite take_ge; [reflexivity|]. rewrite (gw_n d W). lia.
Qed.

Lemma rebuild_unfold : rebuildGPUTable p d =
  let '(n, counted) := count_members (m_rtag p) (concat (m_groups d)) (replicate (Z.to_nat N) 0) in
  let d := set_table (m_gpu_table d) (m_gpu_pos_table d) (m_gpu_table_indexer d) n d in
  match run_bind counted (fun _ => max_element n) with
  | Raise e => (d, Raise e)
  | OutOfBounds => (d, OutOfBounds)
  | Ret h =>
      let x := Index2D.make N h in
      match fill_groups (m_rtag p) (m_group_typeval d) x (m_groups d) 0 (replicate (Z.to_nat N) 0)
              (storage_resize [] (Index2D.getNumElements x) (m_gpu_table d)) (storage_resize 0 (Index2D.getNumElements x) (m_gpu_pos_table d)) with
      | Ret (n, table, pos) => (set_table table pos x n d, Ret tt)
      | Raise e => (d, Raise e)
      | OutOfBounds => (d, OutOfBounds)
      end
  end.
Proof. unfold rebuildGPUTable. destruct rebuild_groups as [-> E]. fold N. rewrite E, count_groups_concat. reflexivity. Qed.

(** The table fits when every column, in every row, has an [unsigned] index. *)
Definition table_fits : Prop := forall i, 0 <= i < N -> N * Z.of_nat (length (column i (events p d))) < 2 ^ 32.

Lemma rebuild_ok : 0 < N -> members_local p d -> table_fits -> exists q, rebuildGPUTable p d = (q, Ret tt) /\ table_for p q.
Proof.
  intros HN M Fit. rewrite rebuild_unfold.
  assert (P : Forall (Forall (present (m_rtag p) N)) (m_groups d)).
  { eapply Forall_impl; [exact M|]. intros g Hg. eapply Forall_impl; [exact Hg|]. intros t. apply present_mono. unfold N. lia. }
  assert (Oc : forall i, tally i (index_of (m_rtag p) <$> concat (m_groups d)) = Z.of_nat (length (column i (events p d)))).
  { intros i. rewrite length_column. unfold events. now rewrite group_events_fst. }
  destruct (count_members_ok (m_rtag p) N (concat (m_groups d)) [] _ (counts_zero N)) as (n & -> & C); [now apply Forall_concat| |].
  { intros i Hi. simpl. rewrite Oc. specialize (Fit i Hi). nia. }
  simpl in C. destruct (max_element_spec n) as (h & -> & Ih & Uh); [intros ->; destruct C as [C _]; simpl in C; lia|]. simpl.
  destruct C as [Cl C].
  assert (Hm : forall i, 0 <= i < N -> Z.of_nat (length (column i (events p d))) <= h).
  { intros i Hi. apply Uh. rewrite <- Oc. eapply list_elem_of_lookup_2. now apply C. }
  assert (Fx : Index2D.fits (Index2D.make N h)).
  { apply list_elem_of_lookup_1 in Ih as [k Hk]. pose proof (lookup_lt_Some _ _ _ Hk). specialize (C (Z.of_nat k) ltac:(lia)).
    rewrite Nat2Z.id, Hk in C. injection C as ->. rewrite Oc. specialize (Fit (Z.of_nat k) ltac:(lia)). unfold Index2D.fits. simpl. lia. }
  rewrite (fill_groups_events (m_rtag p) N) by (rewrite ?(gw_typevals d W); auto; lia).
  destruct (pushes_ok N (Index2D.make N h) h eq_refl Fx (events p d) [] (replicate (Z.to_nat N) 0)
    (storage_resize [] (Index2D.getNumElements (Index2D.make N h)) (m_gpu_table d))
    (storage_resize 0 (Index2D.getNumElements (Index2D.make N h)) (m_gpu_pos_table d))) as (n' & table' & pos' & E & Fi & T).
  - split; [apply counts_zero|]. intros i k y _ H. discriminate H.
  - apply Forall_forall. intros e He. apply elem_of_group_events in He as (k & g & j & t & A & B & ->). simpl.
    pose proof (Forall_lookup_1 _ _ _ _ P A) as Pg. now apply (Forall_lookup_1 _ _ _ _ Pg B).
  - intros i Hi. simpl. rewrite <- length_column. auto.
  - apply storage_resize_length.
  - apply storage_resize_length.
  - fold (events p d). rewrite E. eexists. split; [reflexivity|]. split; [exact Fx|]. split; [simpl; unfold N; lia|]. split; [exact M|].
    intros i Hi. assert (Hi' : 0 <= i < N) by (unfold N; lia). simpl in *. change (events p (set_table _ _ _ _ _)) with (events p d) in *.
    split; [rewrite length_column; now apply Fi|]. split; [auto|]. intros k y. now apply T.
Qed.

Lemma rebuild_incomplete :
  (forall g t, g ∈ m_groups d -> t ∈ g -> exists i, m_rtag p !! Z.to_nat t = Some i /\ (i = NOT_LOCAL \/ 0 <= i < N)) ->
  (exists g t, g ∈ m_groups d /\ t ∈ g /\ m_rtag p !! Z.to_nat t = Some NOT_LOCAL) ->
  exists q e, rebuildGPUTable p d = (q, Raise e).
Proof.
  intros A (g & t & Hg & Ht & X). rewrite rebuild_unfold.
  assert (Cc : forall s, s ∈ concat (m_groups d) <-> exists g, g ∈ m_groups d /\ s ∈ g).
  { intros s. rewrite list_elem_of_In, in_concat. split; intros (u & ? & ?); exists u; rewrite ?list_elem_of_In in *; auto; split; now apply list_elem_of_In. }
  destruct (count_members_incomplete (m_rtag p) N (concat (m_groups d)) (replicate (Z.to_nat N) 0)) as (n & e & ->).
  - apply length_replicate.
  - intros s (u & Hu & Hs)%Cc. eauto.
  - exists t. split; [apply Cc; eauto|assumption].
  - simpl. eauto.
Qed.

(** Without particles the maximum of the counts is read past their end. *)
Lemma rebuild_empty : N = 0 -> m_groups d = [] -> exists q, rebuildGPUTable p d = (q, OutOfBounds).
Proof. intros E G. rewrite rebuild_unfold, G, E. simpl. eauto. Qed.

End rebuilding.

End rebuild.

(** * Properties *)

Section properties.
Context {Group : Type} {GT : GroupType Group}.
Implicit Types (p : pdata) (d q : gdata).

Lemma local_present p t : wf p -> t ∈ local_tags p -> present (m_rtag p) (ParticleData.getN p) t.
Proof.
  intros W H. destruct (wf_getRTag p W t H) as (B & _). change (index_of (m_rtag p) t) with (getRTag t p). split.
  - apply lookup_zget. apply (wf_rtag_length p W), (wf_local_bounds p W t H).
  - split; [exact B|]. pose proof (wf_N_nglobal p W). pose proof (wf_nglobal_high p W). pose proof (wf_high p W). 
    change (index_of (m_rtag p) t) with (getRTag t p). unfold NOT_LOCAL. lia.
Qed.

Lemma present_local p t : wf p -> 0 <= t < high_water p -> present (m_rtag p) (ParticleData.getN p) t -> t ∈ local_tags p.
Proof.
  intros W H (_ & _ & N). destruct (decide (t ∈ local_tags p)) as [|D]; [assumption|]. exfalso. apply N.
  now apply (wf_getRTag_absent p W).
Qed.

Definition all_local (p : pdata) (d : gdata) : Prop := forall g t, g ∈ m_groups d -> t ∈ g -> t ∈ local_tags p.

Lemma all_local_members p d : wf p -> all_local p d -> members_local p d.
Proof. intros W A. apply Forall_forall. intros g Hg. apply Forall_forall. intros t Ht. apply local_present; eauto. Qed.

(** The members are tags that were handed out, and the table has fewer than
    [2^32] cells. *)
Record table_call_ok (p : pdata) (d : gdata) : Prop := {
  tc_known : forall g t, g ∈ m_groups d -> t ∈ g -> 0 <= t < high_water p;
  tc_ghosts : 0 <= m_nghosts p;
  tc_size : ParticleData.getN p + m_nghosts p < 2 ^ 32;
  tc_fits : table_fits p d
}.

Lemma rebuild_cases p d : wf p -> gwf d -> table_call_ok p d ->
  (all_local p d /\ 0 < ParticleData.getN p + m_nghosts p /\ exists q, rebuildGPUTable p d = (q, Ret tt) /\ table_for p q) \/
  (all_local p d /\ ParticleData.getN p + m_nghosts p = 0 /\ exists q, rebuildGPUTable p d = (q, OutOfBounds)) \/
  (~ all_local p d /\ exists q e, rebuildGPUTable p d = (q, Raise e)).
Proof.
  intros W Wd [K G S F]. pose proof (wf_N p (wf_memory p W)) as HN. unfold ParticleData.getN in *.
  destruct (decide (Forall (Forall (fun t => t ∈ local_tags p)) (m_groups d))) as [A|A].
  - assert (A' : all_local p d). { rewrite Forall_forall in A. intros g t Hg Ht. specialize (A g Hg). rewrite Forall_forall in A. auto. }
    destruct (decide (0 < m_nparticles p + m_nghosts p)) as [P|P].
    + left. split; [assumption|]. split; [assumption|]. apply rebuild_ok; auto; [unfold ParticleData.getN; lia|now apply all_local_members].
    + right. left. split; [assumption|]. split; [lia|]. apply rebuild_empty; auto; [unfold ParticleData.getN; lia..|].
      destruct (m_groups d) as [|g gs] eqn:E; [reflexivity|]. exfalso.
      assert (Lg : length g = group_size) by (pose proof (gw_members d Wd) as M; rewrite E in M; now inversion M as [|? ? [? _] _]).
      pose proof group_size_pos. destruct g as [|t g]; [simpl in Lg; lia|].
      assert (Ht : t ∈ local_tags p) by (apply (A' (t :: g)); [rewrite E; left|left]).
      apply list_elem_of_lookup_1 in Ht as [k Hk]. apply lookup_lt_Some in Hk. rewrite (length_local_tags p (wf_memory p W)) in Hk. lia.
  - right. right. split.
    + intros A'. apply A, Forall_forall. intros g Hg. apply Forall_forall. eauto.
    + apply rebuild_incomplete; auto; [unfold ParticleData.getN; lia| |].
      * intros g t Hg Ht. destruct (decide (t ∈ local_tags p)) as [L|L].
        -- destruct (local_present p t W L) as (E & B & _). eexists. split; [exact E|]. right. unfold ParticleData.getN in *. lia.
        -- exists NOT_LOCAL. split; [|auto]. eapply rtag_ok_absent; [apply (wf_rtag p W)|eauto|assumption].
      * apply not_Forall_Exists in A; [|apply _]. apply Exists_exists in A as (g & Hg & A).
        apply not_Forall_Exists in A; [|apply _]. apply Exists_exists in A as (t & Ht & A).
        exists g, t. split_and!; auto. eapply rtag_ok_absent; [apply (wf_rtag p W)|eauto|assumption].
Qed.

(** C7. The table of groups by particle index equals its reference. On an object
    reached from the constructor by any calls, if every member is a particle of
    this rank, [rebuildGPUTable] lists in the column of each particle exactly the
    groups it belongs to, in order: the indices of the other members, the type
    (or the number of the group), the position of the particle in the group, and
    their number. It throws exactly when a member is not there, and never writes
    outside the tables; only on a rank without particles it reads past the end of
    an empty array. *)
Theorem group_table_correct (n : Z) (tr : list (group_call * group_reply)) (p : pdata) (d : gdata)
  (Tr : group_trace (new_gdata n) tr d) (W : wf p) (Ok : table_call_ok p d) :
  let q := (rebuildGPUTable p d).1 in let r := (rebuildGPUTable p d).2 in
  (r = Ret tt <-> all_local p d /\ 0 < ParticleData.getN p + m_nghosts p) /\
  (r = Ret tt -> table_for p q) /\
  ((exists e, r = Raise e) <-> ~ all_local p d).
Proof.
  destruct (new_gdata_gwf n) as [W0 _]. destruct (trace_simulates _ _ _ Tr W0) as [Wd _]. cbn zeta.
  destruct (rebuild_cases p d W Wd Ok) as [(A & P & q & -> & T)|[(A & P & q & ->)|(A & q & e & ->)]]; simpl.
  - split_and!; auto; [tauto|]. split; [intros [? ?]; discriminate|tauto].
  - split_and!; [|discriminate|].
    + split; [discriminate|lia].
    + split; [intros [? ?]; discriminate|tauto].
  - split_and!; [|discriminate|].
    + split; [discriminate|tauto].
    + split; [auto|eauto].
Qed.

(** ** Laziness *)

(** The particle data and the groups that observe it. A change of the particle
    data that emits the sort signal sets the dirty flag; a call sees the particle
    data of its time. The groups are loaded after the particles, when the flag is
    set ([SystemDefinition::initializeFromSnapshot]). *)
Definition call_at (p : pdata) (d : gdata) (c : @group_call Group) : Prop :=
  match c with
  | CallAdd _ p' | CallGet _ p' => p' = p
  | CallLoad _ p' => p' = p /\ m_groups_dirty d = true
  | CallTable p' => p' = p /\ table_call_ok p d
  | _ => True
  end.

Inductive table_world (R : pdata -> pdata -> Prop) : pdata * gdata -> pdata * gdata -> Prop :=
| tw_particles p (q : pdata) s d : R p q -> m_signals q = m_signals p ++ s ->
    table_world R (p, d) (q, if bool_decide (sort_signal ∈ s) then setDirty d else d)
| tw_call p d c : call_ok c d -> call_at p d c -> table_world R (p, d) (p, (group_exec c d).1).

Definition table_inv (p : pdata) (d : gdata) : Prop := m_groups_dirty d = false -> table_for p d /\ all_local p d.

(** What the table depends on. *)
Lemma table_for_ext p d q : m_groups q = m_groups d -> m_group_typeval q = m_group_typeval d -> m_gpu_table q = m_gpu_table d ->
  m_gpu_pos_table q = m_gpu_pos_table d -> m_gpu_table_indexer q = m_gpu_table_indexer d -> m_gpu_n_groups q = m_gpu_n_groups d ->
  table_for p d -> table_for p q.
Proof. intros E1 E2 E3 E4 E5 E6. unfold table_for, members_local, events. now rewrite E1, E2, E3, E4, E5, E6. Qed.

Lemma member_events_ext r r' g last tags : (forall t, t ∈ g -> index_of r t = index_of r' t) -> forall i,
  (forall t, t ∈ tags -> index_of r t = index_of r' t) -> member_events r g last tags i = member_events r' g last tags i.
Proof.
  intros G. induction tags as [|t tags IH]; intros i H; simpl; [reflexivity|]. rewrite (H t) by left. rewrite IH by (intros; apply H; now right).
  do 4 f_equal. apply list_fmap_ext. intros j s Hs. apply G. apply list_elem_of_lookup_2 in Hs.
  eapply sublist_subseteq; [apply sublist_delete|exact Hs].
Qed.

Lemma group_events_ext r r' typeval groups : forall c, (forall g t, g ∈ groups -> t ∈ g -> index_of r t = index_of r' t) ->
  group_events r typeval groups c = group_events r' typeval groups c.
Proof.
  induction groups as [|g groups IH]; intros c H; simpl; [reflexivity|].
  rewrite IH by (intros; eapply H; [right|]; eassumption). f_equal. apply member_events_ext; intros t Ht; (eapply H; [left|exact Ht]).
Qed.

(** A change that keeps the order of the particles keeps the table. *)
Lemma table_for_same_tags p (q : pdata) d : wf p -> wf q -> local_tags q = local_tags p -> all_local p d -> table_for p d -> table_for q d.
Proof.
  intros Wp Wq E A T.
  assert (X : forall g t, g ∈ m_groups d -> t ∈ g -> index_of (m_rtag p) t = index_of (m_rtag q) t).
  { intros g t Hg Ht. destruct (wf_getRTag p Wp t (A g t Hg Ht)) as (B & L & _). change (index_of (m_rtag p) t) with (getRTag t p).
    symmetry. apply zget_lookup. rewrite <- E in L. apply (wf_rtag q Wq) in L. now rewrite Z2Nat.id in L by lia. }
  assert (N : ParticleData.getN q = ParticleData.getN p).
  { pose proof (length_local_tags p (wf_memory p Wp)). pose proof (length_local_tags q (wf_memory q Wq)). rewrite E in *.
    pose proof (wf_N p (wf_memory p Wp)). pose proof (wf_N q (wf_memory q Wq)). unfold ParticleData.getN. lia. }
  assert (M : members_local q d) by (apply all_local_members; [assumption|intros g t Hg Ht; rewrite E; eauto]).
  destruct T as (T1 & T2 & T3 & T4). unfold table_for. rewrite N. split_and!; auto. unfold events in *.
  now rewrite <- (group_events_ext (m_rtag p) (m_rtag q) (m_group_typeval d) (m_groups d) 0 X).
Qed.

Lemma add_keeps_dirty g p d : m_groups_dirty d = true -> m_groups_dirty (addBondedGroup g p d).1 = true.
Proof.
  intros H. unfold addBondedGroup. cbn zeta. repeat (destruct (existsb _ _); [exact H|]). destruct (repeated_member _); [exact H|].
  destruct (_ && _); [exact H|]. now destruct (m_recycled_tags _).
Qed.

Lemma load_keeps_dirty sn p d : m_groups_dirty d = true -> m_groups_dirty (initializeFromSnapshot sn p d).1 = true.
Proof.
  unfold initializeFromSnapshot. destruct (snap_validate sn) as [u|]; [|auto]. intros H.
  change (m_groups_dirty (set_types (gs_type_mapping sn) (gd_initialize d)) = true) in H. revert H. generalize 0%nat as k.
  generalize (set_types (gs_type_mapping sn) (gd_initialize d)) as e.
  induction (gs_groups sn) as [|m groups IH]; intros e k H; simpl; [assumption|].
  pose proof (add_keeps_dirty (make_group (snap_typeval sn k) m) p e H) as A.
  destruct (addBondedGroup _ p e) as [e' [t|]]; [now apply IH|exact A].
Qed.

Lemma rebuild_dirty p d : m_groups_dirty (rebuildGPUTable p d).1 = m_groups_dirty d.
Proof.
  unfold rebuildGPUTable. destruct (count_groups _ _ _) as [m c].
  destruct (run_bind c _) as [h| |]; [|reflexivity..]. destruct (fill_groups _ _ _ _ _ _ _ _) as [[[? ?] ?]| |]; reflexivity.
Qed.

Lemma call_table_inv p d c : wf p -> gwf d -> call_ok c d -> call_at p d c -> table_inv p d -> table_inv p (group_exec c d).1.
Proof.
  intros W Wd Ok At T. destruct c as [g p'|t|k|type name|t p'|sn p'|sn|p'|]; simpl in *.
  - subst p'. destruct (addBondedGroup_cases g p d Wd) as [[_ E]|[_ [e E]]]; rewrite E; simpl; [|exact T].
    unfold table_inv, group_added. destruct (m_recycled_tags d); discriminate.
  - destruct (removeBondedGroup_cases t d Wd Ok) as [[_ E]|[_ [e E]]]; rewrite E; simpl; [|exact T]. discriminate.
  - assert (E : forall c b, table_inv p (set_cache c b d)) by exact (fun _ _ => T).
    unfold getNthTag. destruct (_ >=? _); [exact T|]. unfold maybe_rebuild_tag_cache. destruct (negb _); [exact T|apply E].
  - unfold setTypeName. destruct (_ >=? _); exact T.
  - exact T.
  - destruct At as [-> Dy]. pose proof (load_keeps_dirty sn p d Dy) as L. destruct (initializeFromSnapshot sn p d) as [q r]. simpl in *.
    unfold table_inv. congruence.
  - exact T.
  - destruct At as [-> Tc]. unfold updateGPUTable. destruct (m_groups_dirty d) eqn:Dy; [|exact T].
    pose proof (rebuild_same p d) as S.
    destruct (rebuild_cases p d W Wd Tc) as [(A & _ & q & E & F)|[(_ & _ & q & E)|(_ & q & e & E)]].
    + rewrite E in *. simpl in *. intros _. split; [exact F|]. destruct S as (_ & _ & _ & Eg & _). unfold all_local. simpl. rewrite Eg. exact A.
    + pose proof (rebuild_dirty p d) as Rd. rewrite E in *. simpl in *. unfold table_inv. congruence.
    + pose proof (rebuild_dirty p d) as Rd. rewrite E in *. simpl in *. unfold table_inv. congruence.
  - discriminate.
Qed.

Context {R : pdata -> pdata -> Prop} {I : pdata -> Prop} {O : Observable R I}.

Lemma world_table_inv x y : table_world R x y -> I x.1 -> gwf x.2 -> table_inv x.1 x.2 -> I y.1 /\ gwf y.2 /\ table_inv y.1 y.2.
Proof.
  intros S. destruct S as [p q s d Step Es|p d c Ok At]; simpl; intros Hi Wd T.
  - destruct (obs_announced p q Hi Step) as [s' An]. pose proof (an_signals _ _ _ An) as Es'. rewrite Es in Es'. apply app_inv_head in Es' as <-.
    pose proof (obs_step p q Hi Step) as Hq. split; [assumption|]. destruct (bool_decide_reflect (sort_signal ∈ s)) as [Hs|Hs].
    + split; [destruct Wd; now split|discriminate].
    + split; [assumption|]. intros Cl. destruct (T Cl) as [F A]. pose proof (an_tags _ _ _ An Hs) as E. split.
      * now apply (table_for_same_tags p); try apply (obs_wf (R := R)).
      * unfold all_local. now rewrite E.
  - split; [assumption|]. destruct (exec_simulates c d Wd Ok) as [W' _]. split; [assumption|].
    apply call_table_inv; auto. now apply (obs_wf (R := R)).
Qed.

Lemma worlds_table_inv x y : rtc (table_world R) x y -> I x.1 -> gwf x.2 -> table_inv x.1 x.2 -> I y.1 /\ gwf y.2 /\ table_inv y.1 y.2.
Proof.
  induction 1 as [x|x y z S _ IH]; intros Hi W T; [auto|]. destruct (world_table_inv x y S Hi W T) as (A & B & C). auto.
Qed.


End properties.

(** ** Witnesses *)

Lemma all_members (P : Z -> Prop) (groups : list (list Z)) : Forall (Forall P) groups -> forall g t, g ∈ groups -> t ∈ g -> P t.
Proof. rewrite Forall_forall. intros A g t Hg Ht. specialize (A g Hg). rewrite Forall_forall in A. auto. Qed.

Lemma bonds_groups : m_groups bonds = [[1; 2]; [2; 0]].
Proof. reflexivity. Qed.

Lemma setDirty_groups d : m_groups (setDirty d) = m_groups d.
Proof. reflexivity. Qed.

Lemma bonds_known p d : m_groups d = [[1; 2]; [2; 0]] -> high_water p = 3 -> m_nghosts p = 0 -> 0 <= ParticleData.getN p <= 3 ->
  table_call_ok (Group := Bond) p d.
Proof.
  intros E H3 G N3. split; [|lia|lia|].
  - rewrite H3, E. apply all_members. repeat (apply Forall_cons; split); try apply Forall_nil; lia || auto.
  - intros i Hi. rewrite G, Z.add_0_r in *.
    assert (L : Z.of_nat (length (column i (events (Group := Bond) p d))) <= 4); [|nia].
    unfold column. rewrite length_fmap. transitivity (Z.of_nat (length (events (Group := Bond) p d))); [apply inj_le, length_filter|].
    assert (Le : length (events (Group := Bond) p d).*1 = 4%nat) by (unfold events; now rewrite group_events_fst, E).
    rewrite length_fmap in Le. unfold event in *. lia.
Qed.

Lemma bonds_local : all_local loaded3 bonds.
Proof.
  unfold all_local. rewrite bonds_groups. apply all_members.
  assert (L : local_tags loaded3 = [0; 1; 2]) by reflexivity. rewrite L.
  repeat (apply Forall_cons; split); try apply Forall_nil; set_solver.
Qed.

Lemma group_table_correct_witness :
  let q := (rebuildGPUTable (Group := Bond) loaded3 bonds).1 in
  table_for (Group := Bond) loaded3 q /\ m_gpu_n_groups q = [1; 1; 2] /\ m_gpu_table q = [[2; 0]; [2; 0]; [1; 0]; []; []; [0; 0]].
Proof.
  split; [|split; vm_compute; reflexivity].
  destruct (group_table_correct (Group := Bond) 1 _ loaded3 bonds (run_calls_trace _ _ bond_calls_ok) (proj1 loaded3_ok)
    (bonds_known loaded3 bonds bonds_groups eq_refl eq_refl ltac:(vm_compute; split; discriminate)))
    as (_ & H & _). apply H. vm_compute. reflexivity.
Defined.

Lemma calls_world {Group} {GT : GroupType Group} (R : pdata -> pdata -> Prop) p cs : forall d, calls_ok cs d -> 
  Forall (fun c => match c with CallLoad _ _ | CallTable _ => False | CallAdd _ p' | CallGet _ p' => p' = p | _ => True end) cs ->
  rtc (table_world R) (p, d) (p, (run_calls cs d).1).
Proof.
  induction cs as [|c cs IH]; intros d O F; simpl; [constructor|]. destruct O as [O1 O2]. apply Forall_cons in F as [F1 F].
  eapply rtc_l; [apply (tw_call R p d c O1)|]; [destruct c; simpl in *; tauto|].
  specialize (IH _ O2 F). now destruct (run_calls cs (group_exec c d).1).
Qed.

(** Two bonds; then a particle of one of them is removed. *)
Lemma bonds_world : rtc (table_world (Group := Bond) step) (loaded3, new_gdata (Group := Bond) 1) (removed3, setDirty bonds).
Proof.
  transitivity (loaded3, bonds).
  - unfold bonds. apply (calls_world step loaded3 bond_calls _ bond_calls_ok). repeat constructor.
  - apply rtc_once. pose proof (tw_particles (Group := Bond) step loaded3 removed3 removal_signals bonds) as H.
    rewrite bool_decide_eq_true_2 in H by (right; right; left). apply H; [apply step_remove; lia|vm_compute; reflexivity].
Qed.


(** Loading a snapshot without groups clears the table but not the dirty flag:
    on an object whose table is up to date it leaves counts for no particle, and
    the getters do not rebuild them. *)
Lemma empty_reload_stale :
  let built := (updateGPUTable (Group := Bond) loaded3 bonds).1 in
  let q := (initializeFromSnapshot (Group := Bond) (mkGroupSnapshot [] [] [] [] 0) loaded3 built).1 in
  (updateGPUTable (Group := Bond) loaded3 q).2 = Ret tt /\
  getNGroupsArray (updateGPUTable (Group := Bond) loaded3 q).1 = [] /\ ParticleData.getN loaded3 = 3.
Proof. vm_compute. repeat split. Qed.

(** With no particle the largest tag is [UINT_MAX], and a group of any tags is
    accepted; the table cannot be built then. *)
Lemma no_particle_accepts :
  let p := (ParticleData.initializeFromSnapshot (mkSnapshot [] ["A"]%string false) false fresh).1 in
  let d := (addBondedGroup (mkBond 0 1000 2000) p (new_gdata (Group := Bond) 1)).1 in
  (addBondedGroup (mkBond 0 1000 2000) p (new_gdata (Group := Bond) 1)).2 = Ok 0 /\ (updateGPUTable (Group := Bond) p d).2 = OutOfBounds.
Proof. vm_compute. split; reflexivity. Qed.
