(* ===== verification/CellList.v ===== *)
(** The cell list ([hoomd/CellList.h], [hoomd/CellList.cc]) and the base class
    that decides when a compute is due ([hoomd/Compute.h], [hoomd/Compute.cc]).

    The model is the host code without a domain decomposition, so that the width
    of the ghost layer is zero; ghost particles are still binned. Positions are
    exact, so the test for NaN does not apply and the second condition stays zero.
    The fields are grouped: what the user sets ([params]) and what the list
    computes ([store]). An operation that throws after it has changed the object
    returns the object beside the exception, whose text is shortened. Messages are
    not modelled; the signals of a changed width are counted. *)

From Stdlib Require Import ZArith Lia QArith Qround String Sorted.
From stdpp Require Import base list list_numbers sorting strings.
From S2P Require Import Prelude HOOMDMath Index1D BoxDim ParticleData.
Local Open Scope Z_scope.
Local Open Scope hoomd_scope.

(** * When to compute *)

Module Compute.

Record t := mk { m_force_compute : bool; m_last_computed : Z; m_first_compute : bool }.

Definition make : t := mk false 0 true.

Definition shouldCompute (timestep : Z) (c : t) : t * bool :=
  if m_first_compute c then (mk (m_force_compute c) timestep false, true)
  else if m_force_compute c then (mk false (m_last_computed c) (m_first_compute c), true)
  else if negb (m_last_computed c =? timestep) then (mk (m_force_compute c) timestep (m_first_compute c), true)
  else (c, false).

Definition peekCompute (timestep : Z) (c : t) : bool :=
  m_first_compute c || m_force_compute c || negb (m_last_computed c =? timestep).

(** [forceCompute] sets the flag and calls [compute]. *)
Definition force (c : t) : t := mk true (m_last_computed c) (m_first_compute c).

End Compute.

(** * The data *)

Record uint3 := make_uint3 { ux : Z; uy : Z; uz : Z }.

(** The fourth element of [xyzf]. *)
Inductive cell_flag : Type :=
| flag_charge (charge : Scalar)
| flag_type (type : Z)
| flag_index (idx : Z).

Record params := mkParams {
  m_nominal_width : Scalar;
  m_radius : Z;
  m_compute_xyzf : bool;
  m_compute_type_body : bool;
  m_compute_orientation : bool;
  m_compute_idx : bool;
  m_flag_charge : bool;
  m_flag_type : bool;
  m_multiple : Z;
  m_sort_cell_list : bool;
  m_compute_adj_list : bool
}.

Record store := mkStore {
  m_dim : uint3;
  m_cell_indexer : Index3D.t;
  m_cell_list_indexer : Index2D.t;
  m_cell_adj_indexer : Index2D.t;
  m_Nmax : Z;
  m_actual_width : Scalar3;
  m_cell_size : list Z;
  m_cell_adj : list Z;
  m_xyzf : list (Scalar3 * cell_flag);
  m_type_body : list (Z * Z);
  m_orientation : list Scalar4;
  m_idx : list Z;
  m_conditions : uint3;
  m_width_changes : Z
}.

Record cell_list := mkCells {
  cl_params : params;
  cl_store : store;
  m_params_changed : bool;
  m_particles_sorted : bool;
  m_box_changed : bool;
  cl_compute : Compute.t
}.

(** The constructor. *)
Definition new_cell_list : cell_list :=
  mkCells (mkParams 1 1 true false false false false false 1 false true)
    (mkStore (make_uint3 0 0 0) (Index3D.make 0 0 0) (Index2D.make 0 0) (Index2D.make 0 0) 0 BoxDim.zero3 [] [] [] [] [] [] (make_uint3 0 0 0) 0)
    true false false Compute.make.

(** * Parameters *)

Definition with_params (f : params -> params) (c : cell_list) : cell_list :=
  mkCells (f (cl_params c)) (cl_store c) true (m_particles_sorted c) (m_box_changed c) (cl_compute c).

Definition setNominalWidth (width : Scalar) : cell_list -> cell_list := with_params (fun q =>
  mkParams width (m_radius q) (m_compute_xyzf q) (m_compute_type_body q) (m_compute_orientation q) (m_compute_idx q) (m_flag_charge q) (m_flag_type q)
    (m_multiple q) (m_sort_cell_list q) (m_compute_adj_list q)).
Definition setRadius (radius : Z) : cell_list -> cell_list := with_params (fun q =>
  mkParams (m_nominal_width q) radius (m_compute_xyzf q) (m_compute_type_body q) (m_compute_orientation q) (m_compute_idx q) (m_flag_charge q) (m_flag_type q)
    (m_multiple q) (m_sort_cell_list q) (m_compute_adj_list q)).
Definition setComputeXYZF (b : bool) : cell_list -> cell_list := with_params (fun q =>
  mkParams (m_nominal_width q) (m_radius q) b (m_compute_type_body q) (m_compute_orientation q) (m_compute_idx q) (m_flag_charge q) (m_flag_type q)
    (m_multiple q) (m_sort_cell_list q) (m_compute_adj_list q)).
Definition setComputeTypeBody (b : bool) : cell_list -> cell_list := with_params (fun q =>
  mkParams (m_nominal_width q) (m_radius q) (m_compute_xyzf q) b (m_compute_orientation q) (m_compute_idx q) (m_flag_charge q) (m_flag_type q)
    (m_multiple q) (m_sort_cell_list q) (m_compute_adj_list q)).
Definition setComputeOrientation (b : bool) : cell_list -> cell_list := with_params (fun q =>
  mkParams (m_nominal_width q) (m_radius q) (m_compute_xyzf q) (m_compute_type_body q) b (m_compute_idx q) (m_flag_charge q) (m_flag_type q)
    (m_multiple q) (m_sort_cell_list q) (m_compute_adj_list q)).
Definition setComputeIdx (b : bool) : cell_list -> cell_list := with_params (fun q =>
  mkParams (m_nominal_width q) (m_radius q) (m_compute_xyzf q) (m_compute_type_body q) (m_compute_orientation q) b (m_flag_charge q) (m_flag_type q)
    (m_multiple q) (m_sort_cell_list q) (m_compute_adj_list q)).

Definition set_flags (charge type : bool) : cell_list -> cell_list := with_params (fun q =>
  mkParams (m_nominal_width q) (m_radius q) (m_compute_xyzf q) (m_compute_type_body q) (m_compute_orientation q) (m_compute_idx q) charge type
    (m_multiple q) (m_sort_cell_list q) (m_compute_adj_list q)).
Definition setFlagCharge : cell_list -> cell_list := set_flags true false.
Definition setFlagType : cell_list -> cell_list := set_flags false true.
Definition setFlagIndex : cell_list -> cell_list := set_flags false false.

Definition setSortCellList (b : bool) : cell_list -> cell_list := with_params (fun q =>
  mkParams (m_nominal_width q) (m_radius q) (m_compute_xyzf q) (m_compute_type_body q) (m_compute_orientation q) (m_compute_idx q) (m_flag_charge q) (m_flag_type q)
    (m_multiple q) b (m_compute_adj_list q)).
Definition setComputeAdjList (b : bool) : cell_list -> cell_list := with_params (fun q =>
  mkParams (m_nominal_width q) (m_radius q) (m_compute_xyzf q) (m_compute_type_body q) (m_compute_orientation q) (m_compute_idx q) (m_flag_charge q) (m_flag_type q)
    (m_multiple q) (m_sort_cell_list q) b).

(** [setMultiple] does not mark the parameters as changed. *)
Definition setMultiple (multiple : Z) (c : cell_list) : cell_list :=
  let q := cl_params c in
  mkCells (mkParams (m_nominal_width q) (m_radius q) (m_compute_xyzf q) (m_compute_type_body q) (m_compute_orientation q) (m_compute_idx q) (m_flag_charge q) (m_flag_type q)
             (if negb (multiple =? 0) then multiple else 1) (m_sort_cell_list q) (m_compute_adj_list q))
    (cl_store c) (m_params_changed c) (m_particles_sorted c) (m_box_changed c) (cl_compute c).

(** The slots of the signals of the particle data. *)
Definition slotParticlesSorted (c : cell_list) : cell_list :=
  mkCells (cl_params c) (cl_store c) (m_params_changed c) true (m_box_changed c) (cl_compute c).
Definition slotBoxChanged (c : cell_list) : cell_list :=
  mkCells (cl_params c) (cl_store c) (m_params_changed c) (m_particles_sorted c) true (cl_compute c).

Definition deliver_cells (s : list signal) (c : cell_list) : cell_list :=
  fold_left (fun c x => match x with sort_signal => slotParticlesSorted c | boxchange_signal => slotBoxChanged c | _ => c end) s c.

Definition getCellAdjArray (c : cell_list) : result (list Z) :=
  if negb (m_compute_adj_list (cl_params c)) then Throw (runtime_error "Cell adjacency list not available") else Ok (m_cell_adj (cl_store c)).

(** * Dimensions and memory *)

Definition roundDown (v m : Z) : Z := v / m * m.

Definition at_least_one (d : Z) : Z := if d =? 0 then 1 else d.

Section compute.
Variable rsqrt : Scalar -> Scalar.
Variable dimensions : Z.

Definition computeDimensions (box : BoxDim.t) (q : params) : run uint3 :=
  let L := BoxDim.getNearestPlaneDistance rsqrt box in
  bind! x := to_uint (s3x L / m_nominal_width q)%Q in
  bind! y := to_uint (s3y L / m_nominal_width q)%Q in
  bind! z := if dimensions =? 3 then to_uint (s3z L / m_nominal_width q)%Q else Ret 1 in
  Ret (make_uint3 (at_least_one (roundDown x (m_multiple q))) (at_least_one (roundDown y (m_multiple q)))
         (if dimensions =? 3 then at_least_one (roundDown z (m_multiple q)) else 1)).

Definition set_width (dim : uint3) (width : Scalar3) (s : store) : store :=
  mkStore dim (m_cell_indexer s) (m_cell_list_indexer s) (m_cell_adj_indexer s) (m_Nmax s) width (m_cell_size s) (m_cell_adj s) (m_xyzf s)
    (m_type_body s) (m_orientation s) (m_idx s) (m_conditions s) (m_width_changes s + 1).

Definition initializeWidth (box : BoxDim.t) (q : params) (s : store) : run store :=
  bind! dim := computeDimensions box q in
  let L := BoxDim.getNearestPlaneDistance rsqrt box in
  Ret (set_width dim (make_scalar3 (s3x L / inject_Z (ux dim)) (s3y L / inject_Z (uy dim)) (s3z L / inject_Z (uz dim)))%Q s).

Definition set_Nmax (n : Z) (s : store) : store :=
  mkStore (m_dim s) (m_cell_indexer s) (m_cell_list_indexer s) (m_cell_adj_indexer s) n (m_actual_width s) (m_cell_size s) (m_cell_adj s) (m_xyzf s)
    (m_type_body s) (m_orientation s) (m_idx s) (m_conditions s) (m_width_changes s).

(** The first estimate of the occupancy; a division by zero cells is converted
    from infinity. *)
Definition estimate_Nmax (p : pdata) (s : store) : run Z :=
  if m_Nmax s =? 0 then
    let cells := u32 (u32 (ux (m_dim s) * uy (m_dim s)) * uz (m_dim s)) in
    if cells =? 0 then OutOfBounds
    else
      bind! n := to_uint (inject_Z (Qceiling (inject_Z (u32 (getN p + m_nghosts p)) / inject_Z cells))) in
      Ret (at_least_one n)
  else Ret (m_Nmax s).

Definition unique_neighbors (radius dim : Z) : Z := if dim >? u32 (u32 (radius * 2) + 1) then u32 (u32 (radius * 2) + 1) else dim.

Definition n_adj (q : params) (dim : uint3) : Z :=
  let x := unique_neighbors (m_radius q) (ux dim) in
  let y := unique_neighbors (m_radius q) (uy dim) in
  let z := unique_neighbors (m_radius q) (uz dim) in
  if dimensions =? 2 then u32 (x * y) else u32 (u32 (x * y) * z).

(** ** The adjacency list *)

(** [n % m], shifted to the range of the cells. *)
Definition wrap_cell (n m : Z) : Z := let w := Z.rem n m in if w <? 0 then w + m else w.

(** [for (int n = c - r; n <= c + r; n++)]; the radius and the dimensions are small
    enough for the sums to be exact. *)
Definition around (c r : Z) : list Z := seqZ (c - r) (2 * r + 1).

Definition neighbors (q : params) (ci : Index3D.t) (dim : uint3) (i j k : Z) : list Z :=
  let r := m_radius q in
  let rk := if dimensions =? 2 then 0 else r in
  flat_map (fun nk => flat_map (fun nj => (fun ni =>
    Index3D.index ci (wrap_cell ni (ux dim)) (wrap_cell nj (uy dim)) (wrap_cell nk (uz dim))) <$> around i r) (around j r)) (around k rk).

(** [std::unique] on a range: the first of each run of equal elements. *)
Fixpoint unique (l : list Z) : list Z :=
  match l with
  | x :: (y :: _) as t => if x =? y then unique t else x :: unique t
  | _ => l
  end.

Definition adjacent_cells (q : params) (ci : Index3D.t) (dim : uint3) (i j k : Z) : list Z := unique (merge_sort Z.le (neighbors q ci dim i j k)).

(** [std::copy] to the elements from [start] on. *)
Fixpoint copy_to (start : Z) (l : list Z) (a : list Z) : run (list Z) :=
  match l with
  | [] => Ret a
  | x :: l => bind! a := write a start x in copy_to (start + 1) l a
  end.

(** The cells in the order of the three loops. *)
Definition all_cells (dim : uint3) : list (Z * Z * Z) :=
  flat_map (fun k => flat_map (fun j => (fun i => (i, j, k)) <$> seqZ 0 (ux dim)) (seqZ 0 (uy dim))) (seqZ 0 (uz dim)).

Fixpoint fill_adj (q : params) (ci : Index3D.t) (adj : Index2D.t) (dim : uint3) (cells : list (Z * Z * Z)) (a : list Z) : run (list Z) :=
  match cells with
  | [] => Ret a
  | (i, j, k) :: cells =>
      bind! a := copy_to (Index2D.index adj 0 (Index3D.index ci i j k)) (adjacent_cells q ci dim i j k) a in
      fill_adj q ci adj dim cells a
  end.

Definition initializeCellAdj (q : params) (ci : Index3D.t) (adj : Index2D.t) (dim : uint3) (a : list Z) : run (list Z) :=
  fill_adj q ci adj dim (all_cells dim) a.

(** ** Memory *)

(** A fresh array of zeros, or none. *)
Definition alloc {A} (needed : bool) (n : Z) (zero : A) : list A := if needed then replicate (Z.to_nat n) zero else [].

Definition initializeMemory (p : pdata) (q : params) (s : store) : run store :=
  bind! Nmax := estimate_Nmax p s in
  let dim := m_dim s in
  let ci := Index3D.make (ux dim) (uy dim) (uz dim) in
  let cells := Index3D.getNumElements ci in
  let cli := Index2D.make Nmax cells in
  let n := Index2D.getNumElements cli in
  let adj := if m_compute_adj_list q then Index2D.make (n_adj q dim) cells else Index2D.make 0 0 in
  bind! cell_adj := if m_compute_adj_list q then initializeCellAdj q ci adj dim (alloc true (Index2D.getNumElements adj) 0) else Ret [] in
  Ret (mkStore dim ci cli adj Nmax (m_actual_width s) (alloc true cells 0) cell_adj
         (alloc (m_compute_xyzf q) n (BoxDim.zero3, flag_index 0)) (alloc (m_compute_type_body q) n (0, 0))
         (alloc (m_compute_orientation q) n zero4) (alloc (m_compute_idx q || m_sort_cell_list q) n 0) (m_conditions s) (m_width_changes s)).

Definition initializeAll (p : pdata) (q : params) (s : store) : run store :=
  bind! s := initializeWidth (m_global_box p) q s in initializeMemory p q s.

(** * Filling the cells *)

Definition set_cells (size : list Z) (xyzf : list (Scalar3 * cell_flag)) (type_body : list (Z * Z)) (orientation : list Scalar4) (idx : list Z)
  (conditions : uint3) (s : store) : store :=
  mkStore (m_dim s) (m_cell_indexer s) (m_cell_list_indexer s) (m_cell_adj_indexer s) (m_Nmax s) (m_actual_width s) size (m_cell_adj s) xyzf
    type_body orientation idx conditions (m_width_changes s).

Definition set_conditions (c : uint3) (s : store) : store :=
  set_cells (m_cell_size s) (m_xyzf s) (m_type_body s) (m_orientation s) (m_idx s) c s.

Definition out_of_range (f : Scalar) : bool := lt_b f (-(1 # 100000)) || ge_b f (100001 # 100000).

(** The cell of a particle, or none when it is outside the box. *)
Definition find_cell (box : BoxDim.t) (dim : uint3) (e : pdata_element) : run (option (Z * Z * Z)) :=
  let f := BoxDim.makeFraction rsqrt box (pos e) BoxDim.zero3 in
  match to_int (s3x f * inject_Z (ux dim))%Q, to_int (s3y f * inject_Z (uy dim))%Q, to_int (s3z f * inject_Z (uz dim))%Q with
  | Some ib, Some jb, Some kb =>
      if out_of_range (s3x f) || out_of_range (s3y f) || out_of_range (s3z f) then Ret None
      else
        let ib := if (ib =? ux dim) && BoxDim.u3x (BoxDim.m_periodic box) then 0 else ib in
        let jb := if (jb =? uy dim) && BoxDim.u3y (BoxDim.m_periodic box) then 0 else jb in
        let kb := if (kb =? uz dim) && BoxDim.u3z (BoxDim.m_periodic box) then 0 else kb in
        if (ib <? 0) || (ib >=? ux dim) || (jb <? 0) || (jb >=? uy dim) || (kb <? 0) || (kb >=? uz dim) then Ret None
        else Ret (Some (ib, jb, kb))
  | _, _, _ => OutOfBounds
  end.

Definition flag_of (q : params) (n : Z) (e : pdata_element) : cell_flag :=
  if m_flag_charge q then flag_charge (charge e) else if m_flag_type q then flag_type (typ e) else flag_index n.

(** [if (compute) h.data[i] = x] *)
Definition write_if {A} (compute : bool) (l : list A) (i : Z) (x : A) : run (list A) := if compute then write l i x else Ret l.

(** The writes of particle [n] into slot [offset] of the cell [bin]. *)
Definition store_entry (q : params) (n : Z) (e : pdata_element) (offset bin : Z) (s : store) : run store :=
  let i := Index2D.index (m_cell_list_indexer s) offset bin in
  bind! xyzf := write_if (m_compute_xyzf q) (m_xyzf s) i (pos e, flag_of q n e) in
  bind! type_body := write_if (m_compute_type_body q) (m_type_body s) i (typ e, body e) in
  bind! orientation := write_if (m_compute_orientation q) (m_orientation s) i (orientation e) in
  bind! idx := write_if (m_compute_idx q) (m_idx s) i n in
  Ret (set_cells (m_cell_size s) xyzf type_body orientation idx (m_conditions s) s).

Definition bin_particle (p : pdata) (q : params) (n : Z) (s : store) : run store :=
  bind! e := read (m_ptl p) n in
  bind! cell := find_cell (m_global_box p) (m_dim s) e in
  let c := m_conditions s in
  match cell with
  | None => Ret (if n <? getN p then set_conditions (make_uint3 (ux c) (uy c) (u32 (n + 1))) s else s)
  | Some (ib, jb, kb) =>
      let bin := Index3D.index (m_cell_indexer s) ib jb kb in
      bind! offset := read (m_cell_size s) bin in
      bind! s := if offset <? m_Nmax s then store_entry q n e offset bin s
                 else Ret (set_conditions (make_uint3 (Z.max (ux c) (u32 (offset + 1))) (uy c) (uz c)) s) in
      bind! size := write (m_cell_size s) bin (u32 (offset + 1)) in
      Ret (set_cells size (m_xyzf s) (m_type_body s) (m_orientation s) (m_idx s) (m_conditions s) s)
  end.

Fixpoint bin_loop (p : pdata) (q : params) (count : nat) (n : Z) (s : store) : run store :=
  match count with
  | O => Ret s
  | S count => bind! s := bin_particle p q n s in bin_loop p q count (n + 1) s
  end.

(** The sizes are cleared, the conditions collected from zero. *)
Definition computeCellList (p : pdata) (q : params) (s : store) : run store :=
  let size := replicate (Z.to_nat (Index3D.getNumElements (m_cell_indexer s))) 0 in
  let s := set_cells size (m_xyzf s) (m_type_body s) (m_orientation s) (m_idx s) (make_uint3 0 0 0) s in
  bin_loop p q (Z.to_nat (u32 (getN p + m_nghosts p))) 0 s.

(** The larger size is recorded before an exception leaves. *)
Definition checkConditions (s : store) : store * result bool :=
  let c := m_conditions s in
  let '(s, r) := if ux c >? m_Nmax s then (set_Nmax (ux c) s, true) else (s, false) in
  if negb (uz c =? 0) then (s, Throw (runtime_error "Particle is no longer in the simulation box.")) else (s, Ok r).

(** The loop that repeats after an overflow. *)
Fixpoint overflow_loop (fuel : nat) (p : pdata) (q : params) (s : store) : run (store * result unit) :=
  match fuel with
  | O => OutOfBounds
  | S fuel =>
      bind! s := computeCellList p q s in
      match checkConditions s with
      | (s, Throw e) => Ret (s, Throw e)
      | (s, Ok false) => Ret (s, Ok tt)
      | (s, Ok true) =>
          bind! s := initializeAll p q s in
          overflow_loop fuel p q (set_conditions (make_uint3 0 0 0) s)
      end
  end.

(** ** [compute] *)

Definition same_dim (a b : uint3) : bool := (ux a =? ux b) && (uy a =? uy b) && (uz a =? uz b).

(** The changes of the parameters, then of the box; the result says whether the
    computation is forced. *)
Definition reinitialize_params (p : pdata) (c : cell_list) : run (cell_list * bool) :=
  if m_params_changed c then
    bind! s := initializeAll p (cl_params c) (cl_store c) in
    Ret (mkCells (cl_params c) s false (m_particles_sorted c) (m_box_changed c) (cl_compute c), true)
  else Ret (c, false).

Definition reinitialize_box (p : pdata) (c : cell_list) (forced : bool) : run (cell_list * bool) :=
  if m_box_changed c then
    bind! new_dim := computeDimensions (m_global_box p) (cl_params c) in
    bind! s := if same_dim new_dim (m_dim (cl_store c)) then initializeWidth (m_global_box p) (cl_params c) (cl_store c)
               else initializeAll p (cl_params c) (cl_store c) in
    Ret (mkCells (cl_params c) s (m_params_changed c) (m_particles_sorted c) false (cl_compute c), true)
  else Ret (c, forced).

(** Three passes are enough: the second has the final dimensions, the third the
    final size. *)
Definition compute (timestep : Z) (p : pdata) (c : cell_list) : run (cell_list * result unit) :=
  if Qeq_bool (m_nominal_width (cl_params c)) 0 then Ret (c, Throw (runtime_error "Cell: cell width must be non-zero"))
  else
    bind! (c, forced) := reinitialize_params p c in
    bind! (c, forced) := reinitialize_box p c forced in
    let forced := forced || m_particles_sorted c in
    let '(k, due) := Compute.shouldCompute timestep (cl_compute c) in
    let c := mkCells (cl_params c) (cl_store c) (m_params_changed c) false (m_box_changed c) k in
    if due || forced then
      bind! (s, r) := overflow_loop 3 p (cl_params c) (cl_store c) in
      Ret (mkCells (cl_params c) s (m_params_changed c) (m_particles_sorted c) (m_box_changed c) (cl_compute c), r)
    else Ret (c, Ok tt).

Definition forceCompute (timestep : Z) (p : pdata) (c : cell_list) : run (cell_list * result unit) :=
  compute timestep p (mkCells (cl_params c) (cl_store c) (m_params_changed c) (m_particles_sorted c) (m_box_changed c) (Compute.force (cl_compute c))).

End compute.
