(* ===== verification/CellListAdj.v ===== *)
(** The adjacency list of the cell list: the row of a cell lists exactly the cells
    within the radius along every axis of the periodic grid, each of them once, and
    fills the space reserved for it. *)

From Stdlib Require Import ZArith Lia QArith String Sorted.
From stdpp Require Import base list list_numbers sorting strings.
From S2P Require Import Prelude HOOMDMath Index1D BoxDim ParticleData CellList.
Local Open Scope Z_scope.
Local Open Scope hoomd_scope.

(** * Sorting without duplicates *)

Lemma unique_spec l : StronglySorted Z.le l -> StronglySorted Z.lt (unique l) /\ forall x, x ∈ unique l <-> x ∈ l.
Proof.
  induction l as [|a [|b l] IH]; intros S; [split; [constructor|reflexivity]|split; [repeat constructor|reflexivity]|].
  apply StronglySorted_inv in S as [S F]. destruct (IH S) as [IS IM]. cbn [unique].
  destruct (Z.eqb_spec a b) as [->|Ne].
  - split; [exact IS|]. intros x. rewrite (IM x). rewrite !elem_of_cons. tauto.
  - split; [|intros x; rewrite !(elem_of_cons _ x a), (IM x); reflexivity].
    constructor; [exact IS|]. apply Forall_forall. intros x Hx. apply IM in Hx. rewrite Forall_forall in F. pose proof (F x Hx).
    apply StronglySorted_inv in S as [_ Fb]. rewrite Forall_forall in Fb. apply elem_of_cons in Hx as [->|Hx]; [lia|].
    pose proof (F b ltac:(left)). specialize (Fb x Hx). lia.
Qed.

Lemma sorted_lt_NoDup l : StronglySorted Z.lt l -> NoDup l.
Proof.
  induction 1 as [|a l S IH F]; constructor; [|assumption]. intros H. rewrite Forall_forall in F. specialize (F a H). lia.
Qed.

#[global] Instance Zle_total : Total Z.le.
Proof. intros x y. lia. Qed.

(** A list without duplicates that has the same elements. *)
Lemma unique_sort_permutation l k : NoDup k -> (forall x, x ∈ l <-> x ∈ k) -> unique (merge_sort Z.le l) ≡ₚ k.
Proof.
  intros ND E. destruct (unique_spec _ (StronglySorted_merge_sort Z.le l)) as [S M]. apply NoDup_Permutation; [now apply sorted_lt_NoDup|assumption|].
  intros x. rewrite M, merge_sort_Permutation. apply E.
Qed.

(** * Residues *)

Lemma wrap_cell_mod n m : 0 < m -> wrap_cell n m = n mod m.
Proof.
  intros Hm. unfold wrap_cell. pose proof (Z.rem_bound_abs n m ltac:(lia)). pose proof (Z.quot_rem' n m) as E.
  destruct (Z.ltb_spec (Z.rem n m) 0).
  - apply (Z.mod_unique_pos _ _ (Z.quot n m - 1)); lia.
  - apply (Z.mod_unique_pos _ _ (Z.quot n m)); lia.
Qed.

(** The residues of the numbers around [c], each once. *)
Definition residues (c r m : Z) : list Z := if 2 * r + 1 <? m then (fun n => n mod m) <$> around c r else seqZ 0 m.

Lemma elem_of_around n c r : 0 <= r -> n ∈ around c r <-> c - r <= n <= c + r.
Proof. intros H. unfold around. rewrite elem_of_seqZ. lia. Qed.

Lemma elem_of_residues x c r m : 0 <= r -> 0 < m -> x ∈ residues c r m <-> exists n, n ∈ around c r /\ x = n mod m.
Proof.
  intros Hr Hm. unfold residues. destruct (Z.ltb_spec (2 * r + 1) m) as [L|L].
  - rewrite list_elem_of_fmap. firstorder.
  - rewrite elem_of_seqZ. split.
    + intros Hx. exists (c - r + (x - (c - r)) mod m). pose proof (Z.mod_pos_bound (x - (c - r)) m Hm). rewrite elem_of_around by assumption.
      split; [lia|]. rewrite Zplus_mod_idemp_r. replace (c - r + (x - (c - r))) with x by ring. symmetry. apply Z.mod_small. lia.
    + intros (n & _ & ->). pose proof (Z.mod_pos_bound n m Hm). lia.
Qed.

Lemma NoDup_residues c r m : 0 <= r -> 0 < m -> NoDup (residues c r m).
Proof.
  intros Hr Hm. unfold residues. destruct (Z.ltb_spec (2 * r + 1) m); [|apply NoDup_seqZ].
  apply NoDup_fmap_2_strong; [|apply NoDup_seqZ]. intros a b Ha Hb E. apply elem_of_around in Ha, Hb; [|assumption..].
  cbn beta in E. pose proof (Z.div_mod a m ltac:(lia)). pose proof (Z.div_mod b m ltac:(lia)). assert (a / m = b / m) by nia. nia.
Qed.

Lemma length_residues c r m : 0 <= r -> 0 < m -> Z.of_nat (length (residues c r m)) = Z.min m (2 * r + 1).
Proof.
  intros Hr Hm. unfold residues, around. destruct (Z.ltb_spec (2 * r + 1) m); rewrite ?length_fmap, length_seqZ; lia.
Qed.

Lemma unique_neighbors_min r m : 0 <= r -> 2 * r + 1 < 2 ^ 32 -> unique_neighbors r m = Z.min m (2 * r + 1).
Proof.
  intros Hr B. unfold unique_neighbors. rewrite (u32_small (r * 2)), u32_small by (unfold is_u32; lia).
  rewrite Z.gtb_ltb. destruct (Z.ltb_spec (r * 2 + 1) m); lia.
Qed.

(** * The row of a cell *)

Lemma NoDup_flat_map {A B} (f : A -> list B) (l : list A) : NoDup l -> (forall x, x ∈ l -> NoDup (f x)) ->
  (forall x y z, x ∈ l -> y ∈ l -> z ∈ f x -> z ∈ f y -> x = y) -> NoDup (flat_map f l).
Proof.
  induction 1 as [|a l Na ND IH]; intros F D; simpl; [constructor|]. apply NoDup_app. split_and!.
  - apply F. left.
  - intros z Hz Hl. apply list_elem_of_In, in_flat_map in Hl as (y & Hy & Hzy). apply list_elem_of_In in Hy, Hzy.
    apply Na. rewrite (D a y z); [assumption|left|now right|assumption|assumption].
  - apply IH; [intros; apply F; now right|]. intros x y z Hx Hy. apply D; now right.
Qed.

Lemma length_flat_map_const {A B} (f : A -> list B) (b : nat) (l : list A) : (forall x, length (f x) = b) -> length (flat_map f l) = (length l * b)%nat.
Proof. intros Hb. induction l; simpl; [reflexivity|]. rewrite length_app, Hb. lia. Qed.

Lemma elem_of_flat_map {A B} (f : A -> list B) (l : list A) y : y ∈ flat_map f l <-> exists x, x ∈ l /\ y ∈ f x.
Proof. rewrite list_elem_of_In, in_flat_map. setoid_rewrite list_elem_of_In. reflexivity. Qed.

Section row.
Variable dimensions : Z.
Variable q : params.
Variable dim : uint3.
Hypothesis Dims : 0 < ux dim /\ 0 < uy dim /\ 0 < uz dim.
Hypothesis Cells : ux dim * uy dim * uz dim < 2 ^ 32.
Hypothesis Radius : 0 <= m_radius q /\ 2 * m_radius q + 1 < 2 ^ 32.
Hypothesis Flat : dimensions = 2 -> uz dim = 1.

Let ci := Index3D.make (ux dim) (uy dim) (uz dim).

Definition in_grid (i j k : Z) : Prop := 0 <= i < ux dim /\ 0 <= j < uy dim /\ 0 <= k < uz dim.

Lemma ci_fits : Index3D.fits ci.
Proof. unfold Index3D.fits, ci. simpl. destruct Dims as (? & ? & ?). split_and!; nia. Qed.

Lemma ci_index i j k : in_grid i j k -> Index3D.index ci i j k = (k * uy dim + j) * ux dim + i /\ 0 <= Index3D.index ci i j k < ux dim * uy dim * uz dim.
Proof. intros H. destruct (index3d_flat ci i j k ci_fits H) as [-> B]. auto. Qed.

Lemma ci_inj i j k i' j' k' : in_grid i j k -> in_grid i' j' k' -> Index3D.index ci i j k = Index3D.index ci i' j' k' -> i = i' /\ j = j' /\ k = k'.
Proof.
  intros H H' E. apply (f_equal (Index3D.getTriple ci)) in E. 
  rewrite (proj2 (index3d_getTriple ci _ _ _ ci_fits H)), (proj2 (index3d_getTriple ci _ _ _ ci_fits H')) in E.
  injection E as -> -> ->. auto.
Qed.

(** The radius along the third axis. *)
Definition rz : Z := if dimensions =? 2 then 0 else m_radius q.

(** The neighbours of a cell, by residues. *)
Definition neighbor_cells (i j k : Z) : list Z :=
  flat_map (fun c => flat_map (fun b => (fun a => Index3D.index ci a b c) <$> residues i (m_radius q) (ux dim)) (residues j (m_radius q) (uy dim)))
    (residues k rz (uz dim)).

Lemma residues_range c r m x : 0 <= r -> 0 < m -> x ∈ residues c r m -> 0 <= x < m.
Proof. intros Hr Hm (n & _ & ->)%elem_of_residues; [apply Z.mod_pos_bound; lia|assumption..]. Qed.

Lemma rz_nonneg : 0 <= rz.
Proof. unfold rz. destruct (_ =? _); lia. Qed.

Lemma NoDup_neighbor_cells i j k : NoDup (neighbor_cells i j k).
Proof.
  destruct Dims as (Dx & Dy & Dz), Radius as [R _]. pose proof rz_nonneg as Rz.
  assert (G : forall a b c, a ∈ residues i (m_radius q) (ux dim) -> b ∈ residues j (m_radius q) (uy dim) -> c ∈ residues k rz (uz dim) -> in_grid a b c)
    by (intros a b c Ha Hb Hc; exact (conj (residues_range _ _ _ _ R Dx Ha) (conj (residues_range _ _ _ _ R Dy Hb) (residues_range _ _ _ _ Rz Dz Hc)))).
  unfold neighbor_cells. apply NoDup_flat_map; [now apply NoDup_residues|intros c Hc|].
  - apply NoDup_flat_map; [now apply NoDup_residues|intros b Hb|].
    + apply NoDup_fmap_2_strong; [|now apply NoDup_residues]. intros a a' Ha Ha' E. now apply (ci_inj a b c a' b c); auto.
    + intros b b' z Hb Hb' (a & -> & Ha)%list_elem_of_fmap (a' & E & Ha')%list_elem_of_fmap. now apply (ci_inj a b c a' b' c); auto.
  - intros c c' z Hc Hc' (b & Hb & (a & -> & Ha)%list_elem_of_fmap)%elem_of_flat_map (b' & Hb' & (a' & E & Ha')%list_elem_of_fmap)%elem_of_flat_map.
    now apply (ci_inj a b c a' b' c'); auto.
Qed.

Lemma neighbors_residues i j k x : x ∈ neighbors dimensions q ci dim i j k <-> x ∈ neighbor_cells i j k.
Proof.
  destruct Dims as (Dx & Dy & Dz), Radius as [R _]. pose proof rz_nonneg as Rz. unfold neighbors, neighbor_cells. fold rz. rewrite !elem_of_flat_map. split.
  - intros (nk & Hk & (nj & Hj & (ni & -> & Hi)%list_elem_of_fmap)%elem_of_flat_map). rewrite !wrap_cell_mod by assumption.
    exists (nk mod uz dim). split; [apply elem_of_residues; eauto|]. apply elem_of_flat_map. exists (nj mod uy dim).
    split; [apply elem_of_residues; eauto|]. apply list_elem_of_fmap. exists (ni mod ux dim). split; [reflexivity|]. apply elem_of_residues; eauto.
  - intros (c & (nk & Hk & ->)%elem_of_residues & (b & (nj & Hj & ->)%elem_of_residues & (a & -> & (ni & Hi & ->)%elem_of_residues)%list_elem_of_fmap)%elem_of_flat_map);
      try assumption. exists nk. split; [assumption|]. apply elem_of_flat_map. exists nj. split; [assumption|]. apply list_elem_of_fmap. exists ni.
    rewrite !wrap_cell_mod by assumption. auto.
Qed.

Lemma adjacent_cells_permutation i j k : adjacent_cells dimensions q ci dim i j k ≡ₚ neighbor_cells i j k.
Proof. apply unique_sort_permutation; [apply NoDup_neighbor_cells|]. intros x. apply neighbors_residues. Qed.

(** The row has the length that was reserved. *)
Lemma length_adjacent_cells i j k : Z.of_nat (length (adjacent_cells dimensions q ci dim i j k)) = n_adj dimensions q dim.
Proof.
  destruct Dims as (Dx & Dy & Dz), Radius as [R B]. pose proof rz_nonneg as Rz. rewrite adjacent_cells_permutation. unfold neighbor_cells.
  rewrite (length_flat_map_const _ (length (residues j (m_radius q) (uy dim)) * length (residues i (m_radius q) (ux dim)))).
  2: { intros c. rewrite (length_flat_map_const _ (length (residues i (m_radius q) (ux dim)))); [reflexivity|]. intros b. apply length_fmap. }
  rewrite !Nat2Z.inj_mul, !length_residues by assumption. unfold n_adj. rewrite !unique_neighbors_min by assumption.
  set (x := Z.min (ux dim) _). set (y := Z.min (uy dim) _). assert (Hx : 0 < x <= ux dim) by (unfold x; lia). assert (Hy : 0 < y <= uy dim) by (unfold y; lia).
  unfold rz in *. destruct (Z.eqb_spec dimensions 2) as [E|E].
  - rewrite (Flat E) in *. rewrite u32_small by (unfold is_u32; nia). lia.
  - set (z := Z.min (uz dim) _). assert (Hz : 0 < z <= uz dim) by (unfold z; lia).
    assert (x * y <= ux dim * uy dim) by nia. assert (x * y * z <= ux dim * uy dim * uz dim) by nia.
    rewrite (u32_small (x * y)), u32_small by (unfold is_u32; nia). ring.
Qed.

(** * All rows *)

Lemma copy_row_spec l : forall start a, 0 <= start -> start + Z.of_nat (length l) <= Z.of_nat (length a) ->
  exists a', copy_to start l a = Ret a' /\ length a' = length a /\
    (forall x, (x < length l)%nat -> a' !! Z.to_nat (start + Z.of_nat x) = l !! x) /\
    (forall y, (y < Z.to_nat start \/ Z.to_nat start + length l <= y)%nat -> a' !! y = a !! y).
Proof.
  induction l as [|e l IH]; intros start a Hs Hl; simpl in *; [exists a; split_and!; auto; lia|].
  rewrite write_in by lia. simpl. destruct (IH (start + 1) (zset a start e)) as (a' & E & L & In & Out); [lia|rewrite length_zset; lia|].
  exists a'. split_and!; [exact E|now rewrite L, length_zset|..].
  - intros [|x] Hx; [rewrite Z.add_0_r, Out by lia; apply lookup_zset_eq; lia|].
    replace (start + Z.of_nat (S x)) with (start + 1 + Z.of_nat x) by lia. apply In. lia.
  - intros y Hy. rewrite Out by lia. apply lookup_zset_ne. lia.
Qed.

Let w := n_adj dimensions q dim.
Let ncells := ux dim * uy dim * uz dim.
Let adj := Index2D.make w (Index3D.getNumElements ci).
Hypothesis Room : w * ncells < 2 ^ 32.

(** The row of a cell in the array. *)
Definition has_row (a : list Z) (i j k : Z) : Prop := forall x, (x < Z.to_nat w)%nat ->
  a !! Z.to_nat (Index3D.index ci i j k * w + Z.of_nat x) = adjacent_cells dimensions q ci dim i j k !! x.

Lemma w_pos : 0 < w.
Proof.
  unfold w. rewrite <- (length_adjacent_cells 0 0 0). destruct (adjacent_cells dimensions q ci dim 0 0 0) as [|x l] eqn:E; [exfalso|simpl; lia].
  destruct Dims as (Dx & Dy & Dz), Radius as [R B]. pose proof rz_nonneg as Rz.
  assert (In : Index3D.index ci 0 0 0 ∈ neighbor_cells 0 0 0).
  { unfold neighbor_cells. apply elem_of_flat_map. exists 0. split; [apply elem_of_residues; auto; exists 0; rewrite elem_of_around by assumption; split; [lia|now rewrite Z.mod_0_l by lia]|].
    apply elem_of_flat_map. exists 0. split; [apply elem_of_residues; auto; exists 0; rewrite elem_of_around by assumption; split; [lia|now rewrite Z.mod_0_l by lia]|].
    apply list_elem_of_fmap. exists 0. split; [reflexivity|]. apply elem_of_residues; auto. exists 0. rewrite elem_of_around by assumption. split; [lia|now rewrite Z.mod_0_l by lia]. }
  rewrite <- adjacent_cells_permutation, E in In. now apply elem_of_nil in In.
Qed.

Lemma row_start_index i j k : in_grid i j k -> Index2D.index adj 0 (Index3D.index ci i j k) = Index3D.index ci i j k * w.
Proof.
  intros H. destruct (ci_index _ _ _ H) as [_ B]. unfold Index2D.index, adj. simpl. pose proof w_pos. fold ncells in B.
  assert (0 <= Index3D.index ci i j k * w < 2 ^ 32) by nia. rewrite Z.add_0_r, !u32_small; unfold is_u32; rewrite ?u32_small; unfold is_u32; lia.
Qed.

Lemma fill_adj_spec cells : forall a, Forall (fun c : Z * Z * Z => in_grid c.1.1 c.1.2 c.2) cells -> Z.of_nat (length a) = w * ncells ->
  exists a', fill_adj dimensions q ci adj dim cells a = Ret a' /\ length a' = length a /\
    (forall i j k, (i, j, k) ∈ cells -> has_row a' i j k) /\
    (forall i j k, in_grid i j k -> has_row a i j k -> has_row a' i j k).
Proof.
  induction cells as [|[[i j] k] cells IH]; intros a F La; simpl.
  { exists a. split_and!; auto. intros i j k H. now apply elem_of_nil in H. }
  inversion F as [|? ? G F']; subst. simpl in G. rewrite row_start_index by assumption. destruct (ci_index _ _ _ G) as [_ B]. fold ncells in B. pose proof w_pos as Wp.
  pose proof (length_adjacent_cells i j k) as Lr. fold w in Lr.
  destruct (copy_row_spec (adjacent_cells dimensions q ci dim i j k) (Index3D.index ci i j k * w) a) as (a1 & E1 & L1 & In1 & Out1); [nia|nia|].
  assert (R1 : has_row a1 i j k). { intros x Hx. apply In1. lia. }
  assert (K1 : forall i' j' k', in_grid i' j' k' -> has_row a i' j' k' -> has_row a1 i' j' k').
  { intros i' j' k' G' R x Hx. destruct (ci_index _ _ _ G') as [_ B']. fold ncells in B'.
    destruct (decide (Index3D.index ci i' j' k' = Index3D.index ci i j k)) as [E|Ne].
    - destruct (ci_inj _ _ _ _ _ _ G' G E) as (-> & -> & ->). now apply R1.
    - rewrite Out1 by nia. now apply R. }
  destruct (IH a1) as (a' & E' & L' & In' & K'); [assumption|lia|]. exists a'. split_and!.
  - rewrite E1. exact E'.
  - lia.
  - intros i' j' k' [[= -> -> ->]|H]%elem_of_cons; [now apply K'|now apply In'].
  - intros i' j' k' G' R. apply K'; [assumption|]. now apply K1.
Qed.

Lemma elem_of_all_cells i j k : (i, j, k) ∈ all_cells dim <-> in_grid i j k.
Proof.
  unfold all_cells. rewrite elem_of_flat_map. split.
  - intros (c & Hc & (b & Hb & (a & [= -> -> ->] & Ha)%list_elem_of_fmap)%elem_of_flat_map).
    apply elem_of_seqZ in Ha, Hb, Hc. unfold in_grid. lia.
  - intros (Hi & Hj & Hk). exists k. split; [apply elem_of_seqZ; lia|]. apply elem_of_flat_map. exists j. split; [apply elem_of_seqZ; lia|].
    apply list_elem_of_fmap. exists i. split; [reflexivity|]. apply elem_of_seqZ. lia.
Qed.

Lemma initializeCellAdj_spec : let n := Index2D.getNumElements adj in
  exists a, initializeCellAdj dimensions q ci adj dim (replicate (Z.to_nat n) 0) = Ret a /\ Z.of_nat (length a) = w * ncells /\
    forall i j k, in_grid i j k -> has_row a i j k.
Proof.
  cbn zeta. assert (N : Index2D.getNumElements adj = w * ncells).
  { unfold Index2D.getNumElements, adj. simpl. rewrite (index3d_num ci ci_fits). apply u32_small. unfold is_u32. pose proof w_pos.
    change (0 <= w * ncells < 2 ^ 32). destruct Dims as (? & ? & ?). assert (0 < ncells) by (unfold ncells; nia). nia. }
  rewrite N. destruct (fill_adj_spec (all_cells dim) (replicate (Z.to_nat (w * ncells)) 0)) as (a & E & L & In & _).
  - apply Forall_forall. intros [[i j] k] H. now apply elem_of_all_cells in H.
  - rewrite length_replicate. pose proof w_pos. destruct Dims as (? & ? & ?). assert (0 < ncells) by (unfold ncells; nia). nia.
  - exists a. split_and!; [exact E|rewrite L, length_replicate; pose proof w_pos; destruct Dims as (? & ? & ?); assert (0 < ncells) by (unfold ncells; nia); nia|].
    intros i j k H. now apply In, elem_of_all_cells.
Qed.

End row.
