(* ===== verification/CellListProps.v ===== *)
(** The loop that fills the cells, and the loop around it that enlarges them. *)

From Stdlib Require Import ZArith Lia QArith Qround String Sorted.
From stdpp Require Import base list list_numbers sorting strings.
From S2P Require Import Prelude HOOMDMath Index1D BoxDim ParticleData CellList CellListAdj.
Local Open Scope Z_scope.
Local Open Scope hoomd_scope.

Definition ncells (dim : uint3) : Z := ux dim * uy dim * uz dim.

(** The memory agrees with the dimensions, the size of the cells and the
    parameters. *)
Record layout (dimensions : Z) (q : params) (s : store) : Prop := {
  ly_dim : 0 < ux (m_dim s) /\ 0 < uy (m_dim s) /\ 0 < uz (m_dim s);
  ly_flat : dimensions = 2 -> uz (m_dim s) = 1;
  ly_cells : ncells (m_dim s) < 2 ^ 31;
  ly_ci : m_cell_indexer s = Index3D.make (ux (m_dim s)) (uy (m_dim s)) (uz (m_dim s));
  ly_cli : m_cell_list_indexer s = Index2D.make (m_Nmax s) (ncells (m_dim s));
  ly_nmax : 0 < m_Nmax s;
  ly_room : m_Nmax s * ncells (m_dim s) < 2 ^ 32;
  ly_xyzf : m_compute_xyzf q = true -> Z.of_nat (length (m_xyzf s)) = m_Nmax s * ncells (m_dim s);
  ly_type_body : m_compute_type_body q = true -> Z.of_nat (length (m_type_body s)) = m_Nmax s * ncells (m_dim s);
  ly_orientation : m_compute_orientation q = true -> Z.of_nat (length (m_orientation s)) = m_Nmax s * ncells (m_dim s);
  ly_idx : m_compute_idx q = true -> Z.of_nat (length (m_idx s)) = m_Nmax s * ncells (m_dim s);
  ly_adji : m_compute_adj_list q = true -> m_cell_adj_indexer s = Index2D.make (n_adj dimensions q (m_dim s)) (ncells (m_dim s));
  ly_adj : m_compute_adj_list q = true -> forall i j k, in_grid (m_dim s) i j k -> has_row dimensions q (m_dim s) (m_cell_adj s) i j k
}.

Section fill.
Variable rsqrt : Scalar -> Scalar.
Variable dimensions : Z.
Variable p : pdata.
Variable q : params.
Variable s0 : store.
Hypothesis L : layout dimensions q s0.

Let dim := m_dim s0.
Let Nmax := m_Nmax s0.
Let ci := Index3D.make (ux dim) (uy dim) (uz dim).
Let total := Z.to_nat (u32 (getN p + m_nghosts p)).

(** The cell of particle [n], as an index. *)
Definition cell_at (dim : uint3) (n : nat) : option Z :=
  match find_cell rsqrt (m_global_box p) dim (element (Z.of_nat n) p) with
  | Ret (Some (i, j, k)) => Some (Index3D.index (Index3D.make (ux dim) (uy dim) (uz dim)) i j k)
  | _ => None
  end.

(** Every particle can be read, and its cell computed. *)
Definition locatable (dim : uint3) : Prop := forall n, (n < total)%nat ->
  m_ptl p !! n = Some (element (Z.of_nat n) p) /\ exists c, find_cell rsqrt (m_global_box p) dim (element (Z.of_nat n) p) = Ret c.

(** The first [n] particles that are in the cell [c], in order. *)
Definition members (dim : uint3) (c : Z) (n : nat) : list nat := filter (fun m => cell_at dim m = Some c) (seq 0 n).

Lemma members_S d c n : members d c (S n) = if decide (cell_at d n = Some c) then members d c n ++ [n] else members d c n.
Proof.
  unfold members. rewrite seq_S, filter_app, filter_cons. simpl. case_decide; [reflexivity|]. now rewrite app_nil_r.
Qed.

Lemma length_members d c n : (length (members d c n) <= n)%nat.
Proof. unfold members. etransitivity; [apply length_filter|]. now rewrite length_seq. Qed.

Lemma find_cell_in_grid d e i j k : find_cell rsqrt (m_global_box p) d e = Ret (Some (i, j, k)) -> in_grid d i j k.
Proof.
  unfold find_cell. destruct (to_int _); [|discriminate]. destruct (to_int _); [|discriminate]. destruct (to_int _); [|discriminate].
  destruct (_ || _ || _); [discriminate|]. destruct (_ || _ || _ || _ || _ || _) eqn:E; [discriminate|]. intros [= <- <- <-].
  zbool. unfold in_grid. lia.
Qed.

Lemma cell_at_range n c : cell_at dim n = Some c -> 0 <= c < ncells dim.
Proof.
  unfold cell_at. destruct (find_cell _ _ _ _) as [[[[i j] k]|]| |] eqn:E; try discriminate. intros [= <-].
  apply find_cell_in_grid in E. pose proof (ly_cells _ _ _ L) as C. fold dim in C. unfold ncells in *. apply ci_index; [apply (ly_dim _ _ _ L)|lia|exact E].
Qed.

(** The slots of the filled cells hold the values of their members. *)
Definition entries {A} (arr : list A) (val : nat -> A) (n : nat) : Prop :=
  forall c x m, members dim c n !! x = Some m -> 0 <= c < ncells dim -> Z.of_nat x < Nmax -> arr !! Z.to_nat (c * Nmax + Z.of_nat x) = Some (val m).

Lemma slot_index x c : 0 <= x < Nmax -> 0 <= c < ncells dim -> Index2D.index (m_cell_list_indexer s0) x c = c * Nmax + x /\ 0 <= c * Nmax + x < Nmax * ncells dim.
Proof.
  intros Hx Hc. rewrite (ly_cli _ _ _ L). unfold Index2D.index. simpl. fold Nmax. pose proof (ly_room _ _ _ L) as R. fold Nmax dim in R.
  assert (0 <= c * Nmax + x < Nmax * ncells dim) by nia. split; [|assumption]. rewrite (u32_small (c * Nmax)) by (unfold is_u32; nia).
  apply u32_small. unfold is_u32. lia.
Qed.

(** Slots of different cells, or different slots, are different. *)
Lemma slot_inj x c x' c' : 0 <= x < Nmax -> 0 <= x' < Nmax -> c * Nmax + x = c' * Nmax + x' -> x = x' /\ c = c'.
Proof. intros. assert (c = c') by nia. lia. Qed.

(** Nothing changes for a particle outside of every cell. *)
Lemma entries_skip {A} (arr : list A) val n : cell_at dim n = None -> entries arr val n -> entries arr val (S n).
Proof. intros N E c x m. rewrite members_S, decide_False by congruence. apply E. Qed.

(** A particle that does not fit is not stored. *)
Lemma entries_full {A} (arr : list A) val n b : cell_at dim n = Some b -> Nmax <= Z.of_nat (length (members dim b n)) -> entries arr val n -> entries arr val (S n).
Proof.
  intros N Full E c x m. rewrite members_S. case_decide as D; [|apply E]. assert (c = b) as -> by congruence.
  intros Hm Hc Hx. rewrite lookup_app_l in Hm by lia. now apply E.
Qed.

Lemma entries_write {A} (arr : list A) (val : nat -> A) n b : Z.of_nat (length arr) = Nmax * ncells dim -> cell_at dim n = Some b ->
  Z.of_nat (length (members dim b n)) < Nmax -> entries arr val n ->
  let i := Index2D.index (m_cell_list_indexer s0) (Z.of_nat (length (members dim b n))) b in
  exists arr', write arr i (val n) = Ret arr' /\ length arr' = length arr /\ entries arr' val (S n).
Proof.
  intros La N Fit E. cbn zeta. pose proof (cell_at_range n b N) as Hb.
  destruct (slot_index (Z.of_nat (length (members dim b n))) b) as [-> B]; [lia|assumption|]. set (o := length (members dim b n)) in *.
  rewrite write_in by lia. eexists. split; [reflexivity|]. split; [apply length_zset|].
  intros c x m Hm Hc Hx. rewrite members_S in Hm. case_decide as D.
  - assert (c = b) as -> by congruence. apply lookup_app_Some in Hm as [Hm|[Ho Hm]].
    + rewrite lookup_zset_ne; [now apply E|]. pose proof (lookup_lt_Some _ _ _ Hm). fold o in H. nia.
    + fold o in Ho, Hm. apply list_lookup_singleton_Some in Hm as [Hm <-]. assert (x = o) as -> by lia. apply lookup_zset_eq. lia.
  - rewrite lookup_zset_ne; [now apply E|]. intros Eq. apply D. rewrite N. f_equal.
    assert (b * Nmax + Z.of_nat o = c * Nmax + Z.of_nat x) as Eq' by nia. now apply slot_inj in Eq' as [_ ->]; [|lia..].
Qed.

(** ** The invariant of the loop *)

Record filled (n : nat) (s : store) : Prop := {
  fi_shape : exists size xyzf type_body orientation idx cond, s = set_cells size xyzf type_body orientation idx cond s0;
  fi_size : Z.of_nat (length (m_cell_size s)) = ncells dim;
  fi_count : forall c, 0 <= c < ncells dim -> m_cell_size s !! Z.to_nat c = Some (Z.of_nat (length (members dim c n)));
  fi_xyzf : m_compute_xyzf q = true -> Z.of_nat (length (m_xyzf s)) = Nmax * ncells dim /\
    entries (m_xyzf s) (fun m => (pos (element (Z.of_nat m) p), flag_of q (Z.of_nat m) (element (Z.of_nat m) p))) n;
  fi_type_body : m_compute_type_body q = true -> Z.of_nat (length (m_type_body s)) = Nmax * ncells dim /\
    entries (m_type_body s) (fun m => (typ (element (Z.of_nat m) p), body (element (Z.of_nat m) p))) n;
  fi_orientation : m_compute_orientation q = true -> Z.of_nat (length (m_orientation s)) = Nmax * ncells dim /\
    entries (m_orientation s) (fun m => orientation (element (Z.of_nat m) p)) n;
  fi_idx : m_compute_idx q = true -> Z.of_nat (length (m_idx s)) = Nmax * ncells dim /\ entries (m_idx s) Z.of_nat n;
  fi_over : (forall c, 0 <= c < ncells dim -> Nmax < Z.of_nat (length (members dim c n)) -> Z.of_nat (length (members dim c n)) <= ux (m_conditions s)) /\
    (ux (m_conditions s) = 0 \/ Nmax < ux (m_conditions s)) /\
    (ux (m_conditions s) <> 0 -> exists c, 0 <= c < ncells dim /\ ux (m_conditions s) <= Z.of_nat (length (members dim c n)));
  fi_out : uz (m_conditions s) <> 0 <-> exists m, (m < n)%nat /\ Z.of_nat m < getN p /\ cell_at dim m = None
}.

Lemma write_if_spec {A} (b : bool) (arr : list A) val n c : (b = true -> Z.of_nat (length arr) = Nmax * ncells dim /\ entries arr val n) ->
  cell_at dim n = Some c -> Z.of_nat (length (members dim c n)) < Nmax ->
  exists arr', write_if b arr (Index2D.index (m_cell_list_indexer s0) (Z.of_nat (length (members dim c n))) c) (val n) = Ret arr' /\
    (b = true -> Z.of_nat (length arr') = Nmax * ncells dim /\ entries arr' val (S n)).
Proof.
  intros H N Fit. unfold write_if. destruct b; [|exists arr; now split]. destruct (H eq_refl) as [La E].
  destruct (entries_write arr val n c La N Fit E) as (arr' & W & L' & E'). exists arr'. split; [exact W|]. intros _. split; [lia|exact E'].
Qed.

Hypothesis Loc : locatable dim.

Lemma total_bound n : (n < total)%nat -> Z.of_nat n + 1 < 2 ^ 32.
Proof. unfold total. pose proof (u32_range (getN p + m_nghosts p)) as [? ?]. lia. Qed.

(** A particle without a cell. *)
Lemma filled_skip n s : filled n s -> cell_at dim n = None -> (n < total)%nat ->
  filled (S n) (if Z.of_nat n <? getN p then set_conditions (make_uint3 (ux (m_conditions s)) (uy (m_conditions s)) (u32 (Z.of_nat n + 1))) s else s).
Proof.
  intros [(size & xyzf & tb & o & idx & cond & E) F1 F2 F3 F4 F5 F6 F7 F8] N Hn. pose proof (total_bound n Hn).
  assert (M : forall c, members dim c (S n) = members dim c n) by (intros c; rewrite members_S, decide_False by congruence; reflexivity).
  assert (Z1 : forall A (arr : list A) val (b : bool), (b = true -> Z.of_nat (length arr) = Nmax * ncells dim /\ entries arr val n) ->
    b = true -> Z.of_nat (length arr) = Nmax * ncells dim /\ entries arr val (S n)).
  { intros A arr val b Hb Eb. destruct (Hb Eb). split; [assumption|]. now apply entries_skip. }
  destruct (Z.ltb_spec (Z.of_nat n) (getN p)) as [Lt|Ge].
  - constructor; cbn [set_conditions set_cells m_cell_size m_xyzf m_type_body m_orientation m_idx m_conditions ux uy uz]; try (apply Z1; assumption); try assumption.
    + rewrite E. eexists _, _, _, _, _, _. reflexivity.
    + intros c Hc. rewrite M. auto.
    + setoid_rewrite M. exact F7.
    + rewrite u32_small by (unfold is_u32; lia). split; [intros _; exists n; split_and!; auto; lia|lia].
  - constructor; try (apply Z1; assumption); try assumption.
    + rewrite E. eexists _, _, _, _, _, _. reflexivity.
    + intros c Hc. rewrite M. auto.
    + setoid_rewrite M. exact F7.
    + rewrite F8. split; intros (m & Hm & Lm & Nm); exists m; (split; [|now split]); [lia|]. destruct (decide (m = n)) as [->|]; lia.
Qed.

(** A particle in the cell [b]. *)
Lemma filled_count n s b : filled n s -> cell_at dim n = Some b -> (n < total)%nat ->
  let size := zset (m_cell_size s) b (Z.of_nat (length (members dim b n)) + 1) in
  Z.of_nat (length size) = ncells dim /\ forall c, 0 <= c < ncells dim -> size !! Z.to_nat c = Some (Z.of_nat (length (members dim c (S n)))).
Proof.
  intros F N Hn. cbn zeta. rewrite length_zset. split; [apply (fi_size n s F)|]. intros c Hc. pose proof (cell_at_range n b N).
  pose proof (fi_size n s F). rewrite members_S. case_decide as D.
  - assert (c = b) as -> by congruence. rewrite lookup_zset_eq by lia. rewrite length_app. simpl. f_equal. lia.
  - rewrite lookup_zset_ne; [now apply (fi_count n s F)|]. intros E. apply D. rewrite N. f_equal. lia.
Qed.

Lemma filled_out n s b : filled n s -> cell_at dim n = Some b ->
  uz (m_conditions s) <> 0 <-> exists m, (m < S n)%nat /\ Z.of_nat m < getN p /\ cell_at dim m = None.
Proof.
  intros F N. rewrite (fi_out n s F). split; intros (m & Hm & Lm & Nm); exists m; (split; [|now split]); [lia|].
  destruct (decide (m = n)) as [->|]; [congruence|lia].
Qed.

Lemma members_grow d c n : (length (members d c n) <= length (members d c (S n)))%nat.
Proof. rewrite members_S. case_decide; [rewrite length_app|]; lia. Qed.

Lemma filled_store n s b : filled n s -> cell_at dim n = Some b -> (n < total)%nat -> Z.of_nat (length (members dim b n)) < Nmax ->
  exists s', store_entry q (Z.of_nat n) (element (Z.of_nat n) p) (Z.of_nat (length (members dim b n))) b s = Ret s' /\
    m_cell_size s' = m_cell_size s /\ forall size, Z.of_nat (length size) = ncells dim ->
    (forall c, 0 <= c < ncells dim -> size !! Z.to_nat c = Some (Z.of_nat (length (members dim c (S n))))) ->
    filled (S n) (set_cells size (m_xyzf s') (m_type_body s') (m_orientation s') (m_idx s') (m_conditions s') s').
Proof.
  intros F N Hn Fit. pose proof (filled_out n s b F N) as Out. destruct F as [(size0 & xyzf0 & tb0 & o0 & idx0 & cond0 & E) F1 F2 F3 F4 F5 F6 (O1 & O2 & O3) F8].
  unfold store_entry. assert (Ecli : m_cell_list_indexer s = m_cell_list_indexer s0) by now rewrite E. rewrite Ecli.
  destruct (write_if_spec _ _ _ n b F3 N Fit) as (xyzf & -> & G3). destruct (write_if_spec _ _ _ n b F4 N Fit) as (tb & -> & G4).
  destruct (write_if_spec _ _ _ n b F5 N Fit) as (o & -> & G5). destruct (write_if_spec _ _ _ n b F6 N Fit) as (idx & -> & G6).
  simpl. eexists. split; [reflexivity|]. split; [reflexivity|]. intros size Ls Hs.
  constructor; cbn [set_cells m_cell_size m_xyzf m_type_body m_orientation m_idx m_conditions]; try assumption.
  - rewrite E. eexists _, _, _, _, _, _. reflexivity.
  - split_and!; [|exact O2|].
    + intros c Hc. rewrite members_S. case_decide as D; [|now apply O1]. assert (c = b) as -> by congruence. rewrite length_app. simpl. lia.
    + intros Nz. destruct (O3 Nz) as (c & Hc & Le). exists c. split; [assumption|]. pose proof (members_grow dim c n). lia.
Qed.

Lemma filled_overflow n s b size : filled n s -> cell_at dim n = Some b -> (n < total)%nat -> Nmax <= Z.of_nat (length (members dim b n)) ->
  Z.of_nat (length size) = ncells dim -> (forall c, 0 <= c < ncells dim -> size !! Z.to_nat c = Some (Z.of_nat (length (members dim c (S n))))) ->
  let cond := make_uint3 (Z.max (ux (m_conditions s)) (Z.of_nat (length (members dim b n)) + 1)) (uy (m_conditions s)) (uz (m_conditions s)) in
  filled (S n) (set_cells size (m_xyzf s) (m_type_body s) (m_orientation s) (m_idx s) cond s).
Proof.
  intros F N Hn Full Ls Hs. cbn zeta. pose proof (filled_out n s b F N) as Out. pose proof (cell_at_range n b N) as Hb.
  destruct F as [(size0 & xyzf0 & tb0 & o0 & idx0 & cond0 & E) F1 F2 F3 F4 F5 F6 (O1 & O2 & O3) F8].
  assert (Z1 : forall A (arr : list A) val (d : bool), (d = true -> Z.of_nat (length arr) = Nmax * ncells dim /\ entries arr val n) ->
    d = true -> Z.of_nat (length arr) = Nmax * ncells dim /\ entries arr val (S n)).
  { intros A arr val d Hd Ed. destruct (Hd Ed). split; [assumption|]. now apply (entries_full arr val n b). }
  assert (Mb : Z.of_nat (length (members dim b (S n))) = Z.of_nat (length (members dim b n)) + 1).
  { rewrite members_S, decide_True by assumption. rewrite length_app. simpl. lia. }
  constructor; cbn [set_cells m_cell_size m_xyzf m_type_body m_orientation m_idx m_conditions ux uy uz]; try (apply Z1; assumption); try assumption.
  - rewrite E. eexists _, _, _, _, _, _. reflexivity.
  - split_and!.
    + intros c Hc Hm. destruct (decide (c = b)) as [->|Ne]; [lia|].
      rewrite members_S, decide_False in * by congruence. specialize (O1 c Hc Hm). lia.
    + right. lia.
    + intros _. destruct (Z.max_spec (ux (m_conditions s)) (Z.of_nat (length (members dim b n)) + 1)) as [[_ ->]|[Le ->]].
      * exists b. split; [assumption|lia].
      * destruct O3 as (c & Hc & Lc); [lia|]. exists c. split; [assumption|]. pose proof (members_grow dim c n). lia.
Qed.

Lemma bin_particle_spec n s : filled n s -> (n < total)%nat -> exists s', bin_particle rsqrt p q (Z.of_nat n) s = Ret s' /\ filled (S n) s'.
Proof.
  intros F Hn. destruct (Loc n Hn) as [Hr [c Hc]]. unfold bin_particle. rewrite (read_Some _ _ _ ltac:(rewrite Nat2Z.id; exact Hr)). simpl.
  assert (Sh : m_dim s = dim /\ m_cell_indexer s = ci /\ m_Nmax s = Nmax).
  { destruct (fi_shape n s F) as (size0 & xyzf0 & tb0 & o0 & idx0 & cond0 & ->). split_and!; try reflexivity. apply (ly_ci _ _ _ L). }
  destruct Sh as (Ed & Ei & En). rewrite Ed, Ei, En, Hc. simpl. destruct c as [[[i j] k]|].
  2: { eexists. split; [reflexivity|]. apply filled_skip; [assumption| |assumption]. unfold cell_at. now rewrite Hc. }
  assert (N : cell_at dim n = Some (Index3D.index ci i j k)) by (unfold cell_at; now rewrite Hc). set (b := Index3D.index ci i j k) in *.
  pose proof (cell_at_range n b N) as Hb. rewrite (read_Some _ _ _ (fi_count n s F b Hb)). simpl.
  pose proof (length_members dim b n). pose proof (total_bound n Hn). rewrite (u32_small (Z.of_nat (length (members dim b n)) + 1)) by (unfold is_u32; lia).
  destruct (filled_count n s b F N Hn) as [Ls Hs]. pose proof (fi_size n s F) as Lz.
  destruct (Z.ltb_spec (Z.of_nat (length (members dim b n))) Nmax) as [Fit|Full].
  - destruct (filled_store n s b F N Hn Fit) as (s1 & -> & Es & Fs). simpl. rewrite Es, write_in by lia. simpl. eexists. split; [reflexivity|]. now apply Fs.
  - simpl. rewrite write_in by lia. simpl. eexists. split; [reflexivity|].
    exact (filled_overflow n s b _ F N Hn Full Ls Hs).
Qed.

Lemma bin_loop_spec count : forall n s, filled n s -> (n + count)%nat = total -> exists s', bin_loop rsqrt p q count (Z.of_nat n) s = Ret s' /\ filled total s'.
Proof.
  induction count as [|count IH]; intros n s F E; simpl; [exists s; split; [reflexivity|]; now replace total with n by lia|].
  destruct (bin_particle_spec n s F) as (s1 & -> & F1); [lia|]. simpl. rewrite Z.add_1_r, <- Nat2Z.inj_succ. apply IH; [assumption|lia].
Qed.

Lemma computeCellList_spec : exists s, computeCellList rsqrt p q s0 = Ret s /\ filled total s.
Proof.
  unfold computeCellList. rewrite (ly_ci _ _ _ L). fold dim ci. pose proof (ly_dim _ _ _ L) as D. fold dim in D. pose proof (ly_cells _ _ _ L) as C. fold dim in C.
  assert (En : Index3D.getNumElements ci = ncells dim). { rewrite index3d_num; [reflexivity|]. apply ci_fits; [assumption|unfold ncells in C; lia]. }
  rewrite En. fold total. apply (bin_loop_spec total 0); [|reflexivity]. assert (0 < ncells dim) by (unfold ncells; nia).
  assert (En0 : forall A (arr : list A) val, entries arr val 0) by (intros A arr val c x m Hm; discriminate).
  constructor; cbn [set_cells m_cell_size m_xyzf m_type_body m_orientation m_idx m_conditions ux uy uz].
  - eexists _, _, _, _, _, _. reflexivity.
  - rewrite length_replicate. lia.
  - intros c Hc. rewrite lookup_replicate_2 by lia. reflexivity.
  - intros Hb. split; [now apply (ly_xyzf _ _ _ L)|apply En0].
  - intros Hb. split; [now apply (ly_type_body _ _ _ L)|apply En0].
  - intros Hb. split; [now apply (ly_orientation _ _ _ L)|apply En0].
  - intros Hb. split; [now apply (ly_idx _ _ _ L)|apply En0].
  - pose proof (ly_nmax _ _ _ L) as Np. fold Nmax in Np. split_and!; [|now left|lia]. intros c Hc Hm. simpl in Hm. lia.
  - split; [lia|]. intros (m & Hm & _). lia.
Qed.

End fill.

(** * Allocation *)

(** What the dimensions of the grid must satisfy for the 32-bit indices. *)
Record grid_ok (dimensions : Z) (q : params) (d : uint3) : Prop := {
  go_cells : ncells d < 2 ^ 31;
  go_radius : 0 <= m_radius q /\ 2 * m_radius q + 1 < 2 ^ 32;
  go_adj : m_compute_adj_list q = true -> n_adj dimensions q d * ncells d < 2 ^ 32
}.

Section allocation.
Variable rsqrt : Scalar -> Scalar.
Variable dimensions : Z.
Variable p : pdata.
Variable q : params.
Hypothesis Multiple : 0 < m_multiple q.

Lemma to_uint_range x z : to_uint x = Ret z -> 0 <= z < 2 ^ 32.
Proof. unfold to_uint. destruct (_ && _) eqn:E; [|discriminate]. intros [= <-]. zbool. lia. Qed.

Lemma at_least_one_pos x : 0 <= x -> 0 < at_least_one (roundDown x (m_multiple q)).
Proof.
  intros H. unfold at_least_one, roundDown. pose proof (Z.div_pos x (m_multiple q) H Multiple).
  destruct (Z.eqb_spec (x / m_multiple q * m_multiple q) 0); [lia|nia].
Qed.

Lemma computeDimensions_pos box d : computeDimensions rsqrt dimensions box q = Ret d ->
  (0 < ux d /\ 0 < uy d /\ 0 < uz d) /\ (dimensions = 2 -> uz d = 1).
Proof.
  unfold computeDimensions. intros (x & Hx & (y & Hy & (z & Hz & [= <-])%bind_ret)%bind_ret)%bind_ret. cbn [ux uy uz].
  apply to_uint_range in Hx, Hy. destruct (Z.eqb_spec dimensions 3) as [->|].
  - apply to_uint_range in Hz. split; [|lia]. split_and!; apply at_least_one_pos; lia.
  - split; [|auto]. split_and!; [apply at_least_one_pos; lia|apply at_least_one_pos; lia|lia].
Qed.

Lemma length_alloc {A} (n : Z) (zero : A) : 0 <= n -> Z.of_nat (length (alloc true n zero)) = n.
Proof. intros H. unfold alloc. rewrite length_replicate. lia. Qed.

(** Memory for cells of the recorded size, or of the estimated one. *)
Lemma initializeMemory_spec s n : let d := m_dim s in 0 < ux d /\ 0 < uy d /\ 0 < uz d -> (dimensions = 2 -> uz d = 1) -> grid_ok dimensions q d ->
  estimate_Nmax p s = Ret n -> 0 < n -> n * ncells d < 2 ^ 32 ->
  exists s', initializeMemory dimensions p q s = Ret s' /\ layout dimensions q s' /\ m_dim s' = d /\ m_Nmax s' = n /\ m_actual_width s' = m_actual_width s.
Proof.
  cbn zeta. intros D Flat [C R A] E Hn Room. unfold initializeMemory. rewrite E. cbn [run_bind]. cbn zeta. set (d := m_dim s) in *. set (ci := Index3D.make (ux d) (uy d) (uz d)).
  assert (P : 0 < ncells d) by (unfold ncells; nia).
  assert (En : Index3D.getNumElements ci = ncells d). { rewrite index3d_num; [reflexivity|]. apply ci_fits; [assumption|unfold ncells in C; lia]. }
  rewrite En. assert (Em : Index2D.getNumElements (Index2D.make n (ncells d)) = n * ncells d).
  { unfold Index2D.getNumElements. simpl. apply u32_small. unfold is_u32. nia. }
  rewrite Em.
  assert (X : exists a, (if m_compute_adj_list q
    then initializeCellAdj dimensions q ci (if m_compute_adj_list q then Index2D.make (n_adj dimensions q d) (ncells d) else Index2D.make 0 0) d
           (alloc true (Index2D.getNumElements (if m_compute_adj_list q then Index2D.make (n_adj dimensions q d) (ncells d) else Index2D.make 0 0)) 0)
    else Ret []) = Ret a /\ (m_compute_adj_list q = true -> forall i j k, in_grid d i j k -> has_row dimensions q d a i j k)).
  { destruct (m_compute_adj_list q); [|exists []; split; [reflexivity|discriminate]].
    destruct (initializeCellAdj_spec dimensions q d D ltac:(unfold ncells in C; lia) R Flat (A eq_refl)) as (a & Ea & _ & Ha).
    fold ci in Ea. rewrite En in Ea. exists a. split; [exact Ea|]. auto. }
  destruct X as (a & -> & Ha). cbn [run_bind]. eexists. split; [reflexivity|]. split_and!; [|reflexivity..].
  constructor; cbn [m_dim m_cell_indexer m_cell_list_indexer m_Nmax m_xyzf m_type_body m_orientation m_idx m_cell_adj m_cell_adj_indexer]; auto;
    intros Hb; rewrite ?Hb; [apply length_alloc; nia..|reflexivity].
Qed.

Lemma initializeAll_spec s d n : computeDimensions rsqrt dimensions (m_global_box p) q = Ret d -> grid_ok dimensions q d ->
  (forall w, estimate_Nmax p (set_width d w s) = Ret n) -> 0 < n -> n * ncells d < 2 ^ 32 ->
  exists s', initializeAll rsqrt dimensions p q s = Ret s' /\ layout dimensions q s' /\ m_dim s' = d /\ m_Nmax s' = n.
Proof.
  intros Ed G En Hn Room. destruct (computeDimensions_pos _ _ Ed) as [D Flat]. unfold initializeAll, initializeWidth. rewrite Ed. simpl.
  edestruct (initializeMemory_spec (set_width d (make_scalar3
    (s3x (BoxDim.getNearestPlaneDistance rsqrt (m_global_box p)) / inject_Z (ux d)) (s3y (BoxDim.getNearestPlaneDistance rsqrt (m_global_box p)) / inject_Z (uy d))
    (s3z (BoxDim.getNearestPlaneDistance rsqrt (m_global_box p)) / inject_Z (uz d)))%Q s) n D Flat G (En _) Hn Room) as (s' & E & Ly & Dm & Nm & _).
  exists s'. auto.
Qed.

End allocation.

(** * The loop around the overflow *)

(** The cells hold every particle with a cell, once, in order of the indices. *)
Record cells_correct (rsqrt : Scalar -> Scalar) (p : pdata) (q : params) (s : store) : Prop := {
  cc_count : forall c, 0 <= c < ncells (m_dim s) ->
    m_cell_size s !! Z.to_nat c = Some (Z.of_nat (length (members rsqrt p (m_dim s) c (Z.to_nat (u32 (getN p + m_nghosts p)))))) /\
    Z.of_nat (length (members rsqrt p (m_dim s) c (Z.to_nat (u32 (getN p + m_nghosts p))))) <= m_Nmax s;
  cc_entries : forall c x m, 0 <= c < ncells (m_dim s) -> members rsqrt p (m_dim s) c (Z.to_nat (u32 (getN p + m_nghosts p))) !! x = Some m ->
    let e := element (Z.of_nat m) p in let i := Z.to_nat (Index2D.index (m_cell_list_indexer s) (Z.of_nat x) c) in
    (m_compute_xyzf q = true -> m_xyzf s !! i = Some (pos e, flag_of q (Z.of_nat m) e)) /\
    (m_compute_type_body q = true -> m_type_body s !! i = Some (typ e, body e)) /\
    (m_compute_orientation q = true -> m_orientation s !! i = Some (orientation e)) /\
    (m_compute_idx q = true -> m_idx s !! i = Some (Z.of_nat m))
}.

(** Every local particle has a cell. *)
Definition all_inside (rsqrt : Scalar -> Scalar) (p : pdata) (d : uint3) : Prop :=
  forall m, (m < Z.to_nat (u32 (getN p + m_nghosts p)))%nat -> Z.of_nat m < getN p -> cell_at rsqrt p d m <> None.

Section overflow.
Variable rsqrt : Scalar -> Scalar.
Variable dimensions : Z.
Variable p : pdata.
Variable q : params.
Let total := Z.to_nat (u32 (getN p + m_nghosts p)).
Let occ (d : uint3) (c : Z) : Z := Z.of_nat (length (members rsqrt p d c total)).

(** One pass: an exception, an overflow with the size that is needed, or a
    finished list. *)
Lemma one_pass s : layout dimensions q s -> locatable rsqrt p (m_dim s) ->
  exists s1, computeCellList rsqrt p q s = Ret s1 /\ m_dim s1 = m_dim s /\
  ((exists s2 e, checkConditions s1 = (s2, Throw e) /\ m_dim s2 = m_dim s /\ ~ all_inside rsqrt p (m_dim s)) \/
   (all_inside rsqrt p (m_dim s) /\ exists n, checkConditions s1 = (set_Nmax n s1, Ok true) /\ m_Nmax s < n /\
      (forall c, 0 <= c < ncells (m_dim s) -> occ (m_dim s) c <= n) /\ exists c, 0 <= c < ncells (m_dim s) /\ n <= occ (m_dim s) c) \/
   (all_inside rsqrt p (m_dim s) /\ checkConditions s1 = (s1, Ok false) /\ layout dimensions q s1 /\ cells_correct rsqrt p q s1 /\ m_Nmax s1 = m_Nmax s)).
Proof.
  intros L Loc. destruct (computeCellList_spec rsqrt dimensions p q s L Loc) as (s1 & E & F). fold total in F. exists s1. split; [exact E|].
  pose proof F as [(size & xyzf & tb & o & idx & cond & Es) F1 F2 F3 F4 F5 F6 (O1 & O2 & O3) F8].
  assert (Sh : m_dim s1 = m_dim s /\ m_Nmax s1 = m_Nmax s /\ m_cell_list_indexer s1 = m_cell_list_indexer s) by (rewrite Es; auto). destruct Sh as (Ed & En & Ecli).
  split; [exact Ed|]. unfold checkConditions. rewrite En, Z.gtb_ltb.
  assert (In : uz (m_conditions s1) = 0 <-> all_inside rsqrt p (m_dim s)).
  { split.
    - intros H m Hm Lm N. apply (proj2 F8); [|exact H]. eauto.
    - intros H. destruct (decide (uz (m_conditions s1) = 0)) as [|Nz]; [assumption|]. apply F8 in Nz as (m & Hm & Lm & N). exfalso. now apply (H m). }
  destruct (Z.eqb_spec (uz (m_conditions s1)) 0) as [Z0|Z0]; simpl.
  2: { left. destruct (_ <? _); simpl; eexists _, _; (split; [reflexivity|]); (split; [exact Ed|]); rewrite <- In; assumption. }
  right. apply In in Z0. destruct (Z.ltb_spec (m_Nmax s) (ux (m_conditions s1))) as [Ov|Ok1].
  - left. split; [exact Z0|]. exists (ux (m_conditions s1)). simpl. split_and!; [reflexivity|exact Ov| |].
    + intros c Hc. destruct (Z.le_gt_cases (occ (m_dim s) c) (m_Nmax s)) as [Le|Gt]; [lia|]. apply (O1 c Hc). exact Gt.
    + apply O3. pose proof (ly_nmax _ _ _ L). lia.
  - right. pose proof (ly_nmax _ _ _ L) as Np. assert (X0 : ux (m_conditions s1) = 0) by lia.
    assert (Occ : forall c, 0 <= c < ncells (m_dim s) -> occ (m_dim s) c <= m_Nmax s).
    { intros c Hc. destruct (Z.le_gt_cases (occ (m_dim s) c) (m_Nmax s)) as [|Gt]; [assumption|]. specialize (O1 c Hc Gt). unfold occ in *. lia. }
    split_and!; [exact Z0|reflexivity| | |reflexivity].
    + destruct L. rewrite Es. constructor; cbn [set_cells m_dim m_cell_indexer m_cell_list_indexer m_Nmax m_xyzf m_type_body m_orientation m_idx m_cell_adj]; auto;
        intros Hb; rewrite Es in F3, F4, F5, F6; simpl in *; [now apply F3|now apply F4|now apply F5|now apply F6].
    + constructor; rewrite Ed, ?En.
      * intros c Hc. split; [now apply F2|]. now apply Occ.
      * intros c x m Hc Hm. cbn zeta. rewrite Ecli. fold total in Hm. pose proof (lookup_lt_Some _ _ _ Hm) as Lx. specialize (Occ c Hc). unfold occ in Occ.
        destruct (slot_index dimensions p q s L (Z.of_nat x) c) as [-> _]; [lia|assumption|].
        split_and!; intros Hb; [apply (F3 Hb)|apply (F4 Hb)|apply (F5 Hb)|apply (F6 Hb)]; auto; lia.
Qed.

Hypothesis Multiple : 0 < m_multiple q.
Variable d : uint3.
Hypothesis Dim : computeDimensions rsqrt dimensions (m_global_box p) q = Ret d.
Hypothesis Grid : grid_ok dimensions q d.
Hypothesis Loc : locatable rsqrt p d.

(** What the loop leaves behind. *)
Definition finished (s' : store) (r : result unit) : Prop :=
  (r = Ok tt <-> all_inside rsqrt p (m_dim s')) /\ (r = Ok tt -> layout dimensions q s' /\ cells_correct rsqrt p q s').

(** Enlarging the cells. *)
Lemma enlarge s n : 0 < n -> n * ncells d < 2 ^ 32 -> exists s', initializeAll rsqrt dimensions p q (set_Nmax n s) = Ret s' /\ layout dimensions q s' /\ m_dim s' = d /\ m_Nmax s' = n.
Proof.
  intros Hn Room. apply initializeAll_spec; auto. intros w. unfold estimate_Nmax. simpl. destruct (Z.eqb_spec n 0); [lia|reflexivity].
Qed.

Lemma layout_conditions s c : layout dimensions q s -> layout dimensions q (set_conditions c s).
Proof. intros []. constructor; auto. Qed.

(** A pass that does not overflow, or ends in an exception, is the last one; after
    an overflow the loop goes on with larger cells of the final grid. *)
Lemma loop_step fuel s : layout dimensions q s -> locatable rsqrt p (m_dim s) ->
  (exists s' r, overflow_loop rsqrt dimensions (S fuel) p q s = Ret (s', r) /\ m_dim s' = m_dim s /\ finished s' r) \/
  (exists n, m_Nmax s < n /\ (forall c, 0 <= c < ncells (m_dim s) -> occ (m_dim s) c <= n) /\ (exists c, 0 <= c < ncells (m_dim s) /\ n <= occ (m_dim s) c) /\
     (n * ncells d < 2 ^ 32 -> exists s1, layout dimensions q s1 /\ m_dim s1 = d /\ m_Nmax s1 = n /\
        overflow_loop rsqrt dimensions (S fuel) p q s = overflow_loop rsqrt dimensions fuel p q s1)).
Proof.
  intros L Lo. destruct (one_pass s L Lo) as (s1 & E & Ed & [(s2 & e & C & Ed2 & N)|[(I & n & C & Hn & Up & Ex)|(I & C & Ly & Cc & _)]]);
    cbn [overflow_loop]; rewrite E; cbn [run_bind]; rewrite C.
  - left. exists s2, (Throw e). split_and!; [reflexivity|exact Ed2|]. split; [|discriminate]. rewrite Ed2. split; [discriminate|contradiction].
  - right. exists n. split_and!; auto. intros Room. pose proof (ly_nmax _ _ _ L). destruct (enlarge s1 n) as (s3 & Ei & Ly & Dm & Nm); [lia|assumption|].
    rewrite Ei. cbn [run_bind]. exists (set_conditions (make_uint3 0 0 0) s3). split_and!; [now apply layout_conditions|exact Dm|exact Nm|reflexivity].
  - left. exists s1, (Ok tt). split_and!; [reflexivity|exact Ed|]. rewrite <- Ed in I. split; [|auto]. split; auto.
Qed.

Variable M : Z.
Hypothesis Room : M * ncells d < 2 ^ 32.
Hypothesis Fullest : forall c, 0 <= c < ncells d -> occ d c <= M.

Lemma Fullest_room n (c : Z) dd : n <= occ dd c -> occ dd c <= M -> 0 < ncells d -> n * ncells d < 2 ^ 32.
Proof. intros. nia. Qed.

Lemma d_pos : 0 < ncells d.
Proof. destruct (computeDimensions_pos _ _ _ Multiple _ _ Dim) as [(? & ? & ?) _]. unfold ncells. nia. Qed.

(** Cells as large as the fullest one: one pass. *)
Lemma loop_last fuel s : layout dimensions q s -> m_dim s = d -> (forall c, 0 <= c < ncells d -> occ d c <= m_Nmax s) ->
  exists s' r, overflow_loop rsqrt dimensions (S fuel) p q s = Ret (s', r) /\ m_dim s' = d /\ finished s' r.
Proof.
  intros L Ed Occ. destruct (loop_step fuel s L) as [(s' & r & E & Dm & F)|(n & Hn & _ & (c & Hc & Le) & _)]; [now rewrite Ed|exists s', r; now rewrite <- Ed|].
  rewrite Ed in *. specialize (Occ c Hc). lia.
Qed.

(** A layout of the final grid: two passes. *)
Lemma loop_final fuel s : layout dimensions q s -> m_dim s = d ->
  exists s' r, overflow_loop rsqrt dimensions (S (S fuel)) p q s = Ret (s', r) /\ m_dim s' = d /\ finished s' r.
Proof.
  intros L Ed. destruct (loop_step (S fuel) s L) as [(s' & r & E & Dm & F)|(n & Hn & Up & (c & Hc & Le) & Go)]; [now rewrite Ed|exists s', r; now rewrite <- Ed|].
  rewrite Ed in *. destruct Go as (s1 & L1 & D1 & N1 & ->); [eapply Fullest_room; [exact Le|now apply Fullest|apply d_pos]|].
  apply loop_last; auto. intros c' Hc'. rewrite N1. now apply Up.
Qed.

(** Any layout: three passes. *)
Lemma loop_any s : layout dimensions q s -> locatable rsqrt p (m_dim s) -> (forall c, 0 <= c < ncells (m_dim s) -> occ (m_dim s) c <= M) ->
  exists s' r, overflow_loop rsqrt dimensions 3 p q s = Ret (s', r) /\ (m_dim s' = m_dim s \/ m_dim s' = d) /\ finished s' r.
Proof.
  intros L Lo Occ. destruct (loop_step 2 s L Lo) as [(s' & r & E & Dm & F)|(n & Hn & Up & (c & Hc & Le) & Go)]; [exists s', r; auto|].
  destruct Go as (s1 & L1 & D1 & N1 & ->); [eapply Fullest_room; [exact Le|now apply Occ|apply d_pos]|].
  destruct (loop_final 0 s1 L1 D1) as (s' & r & E & Dm & F). exists s', r. auto.
Qed.

End overflow.
