(* ===== verification/CellListSpec.v ===== *)
(** What the cell list promises: after a computation without an exception every
    particle is in the cell of its position, and the particles close to it are in
    the cells that the adjacency list names. *)

From Stdlib Require Import ZArith Lia QArith Qround Qabs Lqa String Sorted.
From stdpp Require Import base list list_numbers sorting strings.
From S2P Require Import Prelude HOOMDMath Index1D BoxDim ParticleData ParticleDataProps ParticleDataSpec CellList CellListAdj CellListProps.
Local Open Scope Z_scope.
Local Open Scope hoomd_scope.

(** * When to compute *)

(** [peekCompute] predicts [shouldCompute], which answers once per time step. *)
Lemma shouldCompute_spec timestep c : let '(c', due) := Compute.shouldCompute timestep c in
  due = Compute.peekCompute timestep c /\ (Compute.m_force_compute c = false -> Compute.peekCompute timestep c' = false).
Proof.
  destruct c as [force last first]. unfold Compute.shouldCompute, Compute.peekCompute. simpl.
  destruct first; simpl; [split; [reflexivity|intros ->; now rewrite Z.eqb_refl]|].
  destruct force; simpl; [split; [reflexivity|discriminate]|]. destruct (Z.eqb_spec last timestep) as [->|]; simpl; rewrite ?Z.eqb_refl; auto.
Qed.

(** * Reinitialization *)

Section reinitialize.
Variable rsqrt : Scalar -> Scalar.
Variable dimensions : Z.
Variable p : pdata.
Let total := u32 (getN p + m_nghosts p).

Lemma ceiling_bound t n M : 0 <= t -> 0 < n -> t <= M * n -> 0 <= Qceiling (inject_Z t / inject_Z n) <= M.
Proof.
  intros Ht Hn Hm. assert (N : (0 < inject_Z n)%Q) by (change 0%Q with (inject_Z 0); rewrite <- Zlt_Qlt; lia).
  assert (T : (0 <= inject_Z t)%Q) by (change 0%Q with (inject_Z 0); rewrite <- Zle_Qle; lia).
  assert (Mn : (inject_Z t <= inject_Z M * inject_Z n)%Q) by (rewrite <- inject_Z_mult, <- Zle_Qle; lia).
  split; [change 0 with (Qceiling (inject_Z 0))|rewrite <- (Qceiling_Z M)]; apply Qceiling_resp_le.
  - apply Qle_shift_div_l; [exact N|]. change (inject_Z 0) with 0%Q. lra.
  - apply Qle_shift_div_r; [exact N|]. exact Mn.
Qed.

Lemma to_uint_Z z : 0 <= z < 2 ^ 32 -> to_uint (inject_Z z) = Ret z.
Proof.
  intros H. unfold to_uint, Qtrunc. assert (Qle_bool 0 (inject_Z z) = true) as -> by (apply Qle_bool_iff; change 0%Q with (inject_Z 0); rewrite <- Zle_Qle; lia).
  rewrite Qfloor_Z. destruct (Z.leb_spec 0 z); [|lia]. destruct (Z.ltb_spec z (2 ^ 32)); [reflexivity|lia].
Qed.

(** The estimate is at most what the particles need on average. *)
Lemma estimate_spec s d w M : 0 < ux d /\ 0 < uy d /\ 0 < uz d -> ncells d < 2 ^ 31 -> 0 < M -> M * ncells d < 2 ^ 32 -> total <= M * ncells d ->
  0 <= m_Nmax s <= M -> exists n, 0 < n <= M /\ estimate_Nmax p (set_width d w s) = Ret n.
Proof.
  intros D C HM Room T Nm. unfold estimate_Nmax. simpl. destruct (Z.eqb_spec (m_Nmax s) 0); [|exists (m_Nmax s); split; [lia|reflexivity]].
  assert (P : 0 < ncells d) by (unfold ncells; nia). unfold ncells in *.
  rewrite (u32_small (ux d * uy d)), (u32_small (ux d * uy d * uz d)) by (unfold is_u32; nia). destruct (Z.eqb_spec (ux d * uy d * uz d) 0); [lia|].
  fold total. destruct (ceiling_bound total _ M (proj1 (u32_range _)) P T) as [B1 B2]. rewrite to_uint_Z by nia. simpl.
  eexists. split; [|reflexivity]. unfold at_least_one. destruct (Z.eqb_spec (Qceiling (inject_Z total / inject_Z (ux d * uy d * uz d))) 0); lia.
Qed.

Lemma layout_width q s d w : layout dimensions q s -> m_dim s = d -> layout dimensions q (set_width d w s).
Proof. intros [] <-. constructor; auto. Qed.

Lemma same_dim_eq a b : same_dim a b = true -> a = b.
Proof. unfold same_dim. destruct a, b. simpl. intros H. zbool. congruence. Qed.

End reinitialize.

(** * The computation *)

(** What the particles and the box must satisfy: the dimensions of the grid can be
    computed, the cell of every particle too, and a cell of [M] places is large
    enough for the fullest cell, the average one and the present ones, within the
    32-bit indices. *)
Record computable (rsqrt : Scalar -> Scalar) (dimensions : Z) (p : pdata) (c : cell_list) (d : uint3) (M : Z) : Prop := {
  co_width : Qeq_bool (m_nominal_width (cl_params c)) 0 = false;
  co_multiple : 0 < m_multiple (cl_params c);
  co_dim : computeDimensions rsqrt dimensions (m_global_box p) (cl_params c) = Ret d;
  co_grid : grid_ok dimensions (cl_params c) d;
  co_locatable : locatable rsqrt p d;
  co_room : 0 < M /\ M * ncells d < 2 ^ 32 /\ u32 (getN p + m_nghosts p) <= M * ncells d /\ 0 <= m_Nmax (cl_store c) <= M;
  co_full : forall b, 0 <= b < ncells d -> Z.of_nat (length (members rsqrt p d b (Z.to_nat (u32 (getN p + m_nghosts p))))) <= M;
  co_ready : m_params_changed c = true \/ layout dimensions (cl_params c) (cl_store c);
  co_present : m_params_changed c = false -> m_box_changed c = false -> let d0 := m_dim (cl_store c) in locatable rsqrt p d0 /\
    forall b, 0 <= b < ncells d0 -> Z.of_nat (length (members rsqrt p d0 b (Z.to_nat (u32 (getN p + m_nghosts p))))) <= M
}.

Section computation.
Variable rsqrt : Scalar -> Scalar.
Variable dimensions : Z.
Variable p : pdata.
Variable c : cell_list.
Variables (d : uint3) (M : Z).
Hypothesis K : computable rsqrt dimensions p c d M.

Let q := cl_params c.

Lemma initialize_any s : 0 <= m_Nmax s <= M ->
  exists s', initializeAll rsqrt dimensions p q s = Ret s' /\ layout dimensions q s' /\ m_dim s' = d /\ m_Nmax s' <= M.
Proof.
  intros Nm. destruct K as [_ Mu Dm G _ (HM & Room & T & _) _ _ _]. fold q in Mu, Dm, G. destruct (computeDimensions_pos _ _ _ Mu _ _ Dm) as [D Flat].
  destruct (estimate_spec p s d BoxDim.zero3 M D (go_cells _ _ _ G) HM Room T Nm) as (n & Hn & E).
  destruct (initializeAll_spec rsqrt dimensions p q Mu s d n Dm G) as (s' & Ei & Ly & Ed & En); [intros w; exact E|lia|nia|]. exists s'. split_and!; auto. lia.
Qed.

(** The two reinitializations leave a store to fill: of the final grid, or
    untouched. *)
Lemma reinitialize_spec : exists s forced, (bind! (c, forced) := reinitialize_params rsqrt dimensions p c in reinitialize_box rsqrt dimensions p c forced) =
    Ret (mkCells q s false (m_particles_sorted c) false (cl_compute c), forced) /\ layout dimensions q s /\ forced = m_params_changed c || m_box_changed c /\
    (forced = true /\ m_dim s = d \/ m_params_changed c = false /\ m_box_changed c = false /\ s = cl_store c).
Proof.
  pose proof K as [_ Mu Dm G _ (HM & Room & T & Nm) _ Rdy _]. fold q in Mu, Dm, G, Rdy.
  assert (B : forall s ps, layout dimensions q s -> m_Nmax s <= M -> exists s', reinitialize_box rsqrt dimensions p (mkCells q s false ps true (cl_compute c)) true =
    Ret (mkCells q s' false ps false (cl_compute c), true) /\ layout dimensions q s' /\ m_dim s' = d).
  { intros s ps Ly Ns. unfold reinitialize_box. simpl. rewrite Dm. simpl. destruct (same_dim d (m_dim s)) eqn:Sd.
    - apply same_dim_eq in Sd. unfold initializeWidth. rewrite Dm. simpl. eexists. split; [reflexivity|]. split; [now apply layout_width|reflexivity].
    - pose proof (ly_nmax _ _ _ Ly). destruct (initialize_any s) as (s' & -> & Ly' & Ed & _); [lia|]. simpl. eauto. }
  unfold reinitialize_params. fold q. destruct (m_params_changed c) eqn:Pc.
  - destruct (initialize_any (cl_store c) Nm) as (s1 & -> & Ly1 & Ed1 & Nm1). simpl. destruct (m_box_changed c) eqn:Bc.
    + destruct (B s1 (m_particles_sorted c) Ly1 Nm1) as (s2 & E2 & Ly2 & Ed2). exists s2, true. split_and!; auto.
    + exists s1, true. split_and!; auto.
  - destruct Rdy as [|Ly]; [discriminate|]. simpl. destruct (m_box_changed c) eqn:Bc.
    + destruct (B (cl_store c) (m_particles_sorted c) Ly (proj2 Nm)) as (s2 & E2 & Ly2 & Ed2). exists s2, true. split_and!; auto.
      rewrite <- E2. unfold reinitialize_box. fold q. now rewrite Bc, Pc.
    + exists (cl_store c), false. unfold reinitialize_box. rewrite Bc. split_and!; auto. destruct c. simpl in *. subst. reflexivity.
Qed.

End computation.

Local Arguments overflow_loop : simpl never.

(** The same with the grid and the record of the last computation. *)
Lemma compute_cells_spec (rsqrt : Scalar -> Scalar) (dimensions timestep : Z) (p : pdata) (c : cell_list) (d : uint3) (M : Z)
  (K : computable rsqrt dimensions p c d M) :
  exists c' r, compute rsqrt dimensions timestep p c = Ret (c', r) /\ cl_params c' = cl_params c /\ cl_compute c' = (Compute.shouldCompute timestep (cl_compute c)).1 /\
    m_params_changed c' = false /\ m_particles_sorted c' = false /\ m_box_changed c' = false /\
    if m_params_changed c || m_box_changed c || m_particles_sorted c || Compute.peekCompute timestep (cl_compute c) then
      (m_params_changed c = true \/ m_box_changed c = true \/ m_dim (cl_store c) = d -> m_dim (cl_store c') = d) /\
      (r = Ok tt <-> all_inside rsqrt p (m_dim (cl_store c'))) /\
      (r = Ok tt -> layout dimensions (cl_params c) (cl_store c') /\ cells_correct rsqrt p (cl_params c) (cl_store c'))
    else r = Ok tt /\ cl_store c' = cl_store c.
Proof.
  destruct (reinitialize_spec rsqrt dimensions p c d M K) as (s & forced & E & Ly & Ef & Dm). pose proof K as [Wd Mu Cd G Lo (HM & Room & T & Nm) Full _ Pr].
  unfold compute. rewrite Wd. destruct (reinitialize_params rsqrt dimensions p c) as [[c1 f1]| |]; [simpl in E|discriminate..]. simpl. rewrite E. simpl.
  pose proof (shouldCompute_spec timestep (cl_compute c)) as Sc. destruct (Compute.shouldCompute timestep (cl_compute c)) as [k due]. destruct Sc as [-> _].
  replace (forced || m_particles_sorted c) with (m_params_changed c || m_box_changed c || m_particles_sorted c) by now rewrite Ef.
  rewrite (orb_comm (Compute.peekCompute _ _)). destruct (_ || _ || _ || _) eqn:Due.
  - assert (X : exists s' r, overflow_loop rsqrt dimensions 3 p (cl_params c) s = Ret (s', r) /\ (m_dim s' = m_dim s \/ m_dim s' = d) /\ finished rsqrt dimensions p (cl_params c) s' r).
    { destruct Dm as [[_ Ed]|(Pc & Bc & ->)].
      - apply (loop_any rsqrt dimensions p (cl_params c) Mu d Cd G Lo M Room Full); rewrite ?Ed; auto.
      - destruct (Pr Pc Bc) as [L0 F0]. now apply (loop_any rsqrt dimensions p (cl_params c) Mu d Cd G Lo M Room Full). }
    destruct X as (s' & r & -> & Ds & F). simpl. eexists _, r. split; [reflexivity|]. split_and!; try reflexivity; [|apply F..]. cbn [cl_store]. intros G0.
    destruct Ds as [->|]; [|assumption]. destruct Dm as [[_ Ed]|(Pc & Bc & ->)]; [assumption|]. rewrite Pc, Bc in G0. destruct G0 as [|[|]]; [discriminate..|assumption].
  - eexists _, (Ok tt). split; [reflexivity|]. split_and!; try reflexivity. simpl.
    apply orb_false_iff in Due as [Due _]. apply orb_false_iff in Due as [Due _]. apply orb_false_iff in Due as [Pc Bc].
    destruct Dm as [[Ft _]|(_ & _ & ->)]; [rewrite Ef, Pc, Bc in Ft; discriminate|reflexivity].
Qed.

(** C10. The cell list: a call of [compute] ends, after at most three passes over
    the particles. When it is due or forced, it reports an exception exactly when
    a local particle has left the box; otherwise every cell holds exactly the
    particles in it, in index order, with their data in every array that was
    requested, and no cell is over its capacity. When it is not due it changes
    nothing. *)
Theorem cell_list_compute (rsqrt : Scalar -> Scalar) (dimensions timestep : Z) (p : pdata) (c : cell_list) (d : uint3) (M : Z)
  (K : computable rsqrt dimensions p c d M) :
  exists c' r, compute rsqrt dimensions timestep p c = Ret (c', r) /\ cl_params c' = cl_params c /\
    m_params_changed c' = false /\ m_particles_sorted c' = false /\ m_box_changed c' = false /\
    if m_params_changed c || m_box_changed c || m_particles_sorted c || Compute.peekCompute timestep (cl_compute c) then
      (r = Ok tt <-> all_inside rsqrt p (m_dim (cl_store c'))) /\
      (r = Ok tt -> layout dimensions (cl_params c) (cl_store c') /\ cells_correct rsqrt p (cl_params c) (cl_store c'))
    else r = Ok tt /\ cl_store c' = cl_store c.
Proof.
  destruct (compute_cells_spec rsqrt dimensions timestep p c d M K) as (c' & r & E & Q & _ & F1 & F2 & F3 & F). exists c', r. split_and!; try assumption.
  destruct (_ || _ || _ || _); [apply F|exact F].
Qed.

(** * Neighbours *)

(** [b] is at most [r] cells from [a] on a periodic axis of [m] cells. *)
Definition near_cell (r m a b : Z) : Prop := exists n, Z.abs (n - a) <= r /\ b = n mod m.

(** Two fractional coordinates differ by at most [r] cells of [m], up to periods. *)
Definition close (r m : Z) (f g : Scalar) : Prop := exists k, (Qabs ((f - g - inject_Z k) * inject_Z m) <= inject_Z r)%Q.

Definition fraction (rsqrt : Scalar -> Scalar) (p : pdata) (n : nat) : Scalar3 :=
  BoxDim.makeFraction rsqrt (m_global_box p) (pos (element (Z.of_nat n) p)) BoxDim.zero3.

Lemma floor_close x y r : (Qabs (x - y) <= inject_Z r)%Q -> Z.abs (Qfloor x - Qfloor y) <= r.
Proof.
  intros H. apply Qabs_Qle_condition in H as [H1 H2]. pose proof (Qfloor_le x) as X1. pose proof (Qlt_floor x) as X2. pose proof (Qfloor_le y) as Y1. pose proof (Qlt_floor y) as Y2.
  assert (inject_Z (Qfloor x) < inject_Z (Qfloor y + 1 + r))%Q as A by (rewrite inject_Z_plus; lra).
  assert (inject_Z (Qfloor y) < inject_Z (Qfloor x + 1 + r))%Q as B by (rewrite inject_Z_plus; lra).
  rewrite <- Zlt_Qlt in A, B. lia.
Qed.

Lemma floor_shift x k : Qfloor (x + inject_Z k) = Qfloor x + k.
Proof.
  pose proof (Qfloor_le x) as X1. pose proof (Qlt_floor x) as X2. pose proof (Qfloor_le (x + inject_Z k)) as Y1. pose proof (Qlt_floor (x + inject_Z k)) as Y2.
  rewrite inject_Z_plus in X2, Y2.
  assert (inject_Z (Qfloor x + k) < inject_Z (Qfloor (x + inject_Z k) + 1))%Q as A by (rewrite !inject_Z_plus; lra).
  assert (inject_Z (Qfloor (x + inject_Z k)) < inject_Z (Qfloor x + k + 1))%Q as B by (rewrite !inject_Z_plus; lra).
  rewrite <- Zlt_Qlt in A, B. lia.
Qed.

(** The cell along one axis. *)
Lemma axis_cell f m ib (per : bool) : (0 <= f)%Q -> 0 < m -> to_int (f * inject_Z m) = Some ib ->
  let c := if (ib =? m) && per then 0 else ib in 0 <= c < m -> c = Qfloor (f * inject_Z m) mod m.
Proof.
  intros Hf Hm. assert (M : (0 < inject_Z m)%Q) by (change 0%Q with (inject_Z 0); now rewrite <- Zlt_Qlt).
  unfold to_int, Qtrunc. assert (Qle_bool 0 (f * inject_Z m) = true) as -> by (apply Qle_bool_iff, Qmult_le_0_compat; lra).
  generalize (Qfloor (f * inject_Z m)). intros z. destruct (_ && _); [|discriminate]. intros [= <-]. cbn zeta.
  destruct (Z.eqb_spec z m) as [->|]; destruct per; cbn [andb]; intros H; symmetry; [apply Z_mod_same_full|lia|now apply Z.mod_small..].
Qed.

Lemma close_near r m f g : 0 < m -> close r m f g -> near_cell r m (Qfloor (f * inject_Z m) mod m) (Qfloor (g * inject_Z m) mod m).
Proof.
  intros Hm [k H]. set (x := (f * inject_Z m)%Q). set (y := (g * inject_Z m)%Q).
  assert (D : Z.abs (Qfloor x - (Qfloor y + k * m)) <= r).
  { rewrite <- floor_shift. apply floor_close. rewrite inject_Z_mult. unfold x, y.
    assert ((f * inject_Z m - (g * inject_Z m + inject_Z k * inject_Z m) == (f - g - inject_Z k) * inject_Z m)%Q) as -> by ring. exact H. }
  exists (Qfloor y + (k - Qfloor x / m) * m). split; [|symmetry; apply Z_mod_plus_full]. pose proof (Z.div_mod (Qfloor x) m ltac:(lia)). lia.
Qed.

Lemma find_cell_floor rsqrt box d e i j k : 0 < ux d /\ 0 < uy d /\ 0 < uz d -> find_cell rsqrt box d e = Ret (Some (i, j, k)) ->
  let f := BoxDim.makeFraction rsqrt box (pos e) BoxDim.zero3 in (0 <= s3x f)%Q -> (0 <= s3y f)%Q -> (0 <= s3z f)%Q ->
  i = Qfloor (s3x f * inject_Z (ux d)) mod ux d /\ j = Qfloor (s3y f * inject_Z (uy d)) mod uy d /\ k = Qfloor (s3z f * inject_Z (uz d)) mod uz d.
Proof.
  intros (Dx & Dy & Dz) H f Hx Hy Hz. unfold find_cell in H. fold f in H. destruct (to_int (s3x f * _)) as [ib|] eqn:Ex; [|discriminate].
  destruct (to_int (s3y f * _)) as [jb|] eqn:Ey; [|discriminate]. destruct (to_int (s3z f * _)) as [kb|] eqn:Ez; [|discriminate].
  destruct (_ || _ || _); [discriminate|]. destruct (_ || _ || _ || _ || _ || _) eqn:E; [discriminate|]. injection H as <- <- <-.
  zbool. split_and!; [apply (axis_cell _ _ _ _ Hx Dx Ex)|apply (axis_cell _ _ _ _ Hy Dy Ey)|apply (axis_cell _ _ _ _ Hz Dz Ez)]; lia.
Qed.

Section adjacency.
Variable dimensions : Z.
Variable q : params.
Variable s : store.
Hypothesis L : layout dimensions q s.
Hypothesis Radius : 0 <= m_radius q /\ 2 * m_radius q + 1 < 2 ^ 32.

Let d := m_dim s.
Let ci := Index3D.make (ux d) (uy d) (uz d).

Lemma near_residue r m a b : 0 <= r -> 0 < m -> b ∈ residues a r m <-> near_cell r m a b.
Proof.
  intros Hr Hm. rewrite elem_of_residues by assumption. unfold near_cell. split; intros (n & Hn & E); exists n; (split; [|exact E]);
    [apply elem_of_around in Hn; lia|apply elem_of_around; lia].
Qed.

(** A cell is in the row of another exactly when it is near along each axis. *)
Lemma elem_of_adjacent i j k a b c : in_grid d a b c ->
  Index3D.index ci a b c ∈ adjacent_cells dimensions q ci d i j k <->
  near_cell (m_radius q) (ux d) i a /\ near_cell (m_radius q) (uy d) j b /\ near_cell (rz dimensions q) (uz d) k c.
Proof.
  intros G. destruct (ly_dim _ _ _ L) as (Dx & Dy & Dz). fold d in Dx, Dy, Dz. pose proof (ly_cells _ _ _ L) as C. fold d in C. unfold ncells in C.
  destruct Radius as [R _]. pose proof (rz_nonneg dimensions q Radius) as Rz. unfold ci.
  rewrite (adjacent_cells_permutation dimensions q d (conj Dx (conj Dy Dz)) ltac:(lia) Radius i j k), <- !near_residue by assumption. unfold neighbor_cells. rewrite elem_of_flat_map. split.
  - intros (c' & Hc & (b' & Hb & (a' & E & Ha)%list_elem_of_fmap)%elem_of_flat_map).
    assert (G' : in_grid d a' b' c') by exact (conj (residues_range _ _ _ _ R Dx Ha) (conj (residues_range _ _ _ _ R Dy Hb) (residues_range _ _ _ _ Rz Dz Hc))).
    destruct (ci_inj d (conj Dx (conj Dy Dz)) ltac:(lia) _ _ _ _ _ _ G G' E) as (-> & -> & ->). auto.
  - intros (Ha & Hb & Hc). exists c. split; [assumption|]. apply elem_of_flat_map. exists b. split; [assumption|]. apply list_elem_of_fmap. now exists a.
Qed.

(** The entries of a row are at their places in the array. *)
Lemma row_at i j k y x : m_compute_adj_list q = true -> in_grid d i j k -> n_adj dimensions q d * ncells d < 2 ^ 32 ->
  adjacent_cells dimensions q ci d i j k !! y = Some x ->
  Z.of_nat y < n_adj dimensions q d /\ m_cell_adj s !! Z.to_nat (Index2D.index (m_cell_adj_indexer s) (Z.of_nat y) (Index3D.index ci i j k)) = Some x.
Proof.
  intros Ha G Room Hy. pose proof (lookup_lt_Some _ _ _ Hy) as Ly. pose proof (ly_dim _ _ _ L) as D. fold d in D. pose proof (ly_cells _ _ _ L) as C. fold d in C.
  pose proof (length_adjacent_cells dimensions q d D ltac:(unfold ncells in C; lia) Radius (ly_flat _ _ _ L) i j k) as Lr. fold ci in Lr.
  destruct (ci_index d D ltac:(unfold ncells in C; lia) _ _ _ G) as [_ B]. fold ci in B. split; [lia|].
  rewrite (ly_adji _ _ _ L Ha). fold d. unfold Index2D.index. simpl. unfold ncells in *.
  rewrite (u32_small (Index3D.index ci i j k * n_adj dimensions q d)), u32_small by (unfold is_u32; nia).
  rewrite (ly_adj _ _ _ L Ha i j k G) by (fold d; lia). exact Hy.
Qed.

Lemma row_lookup i j k x : m_compute_adj_list q = true -> in_grid d i j k -> n_adj dimensions q d * ncells d < 2 ^ 32 ->
  x ∈ adjacent_cells dimensions q ci d i j k ->
  exists y, 0 <= y < n_adj dimensions q d /\ m_cell_adj s !! Z.to_nat (Index2D.index (m_cell_adj_indexer s) y (Index3D.index ci i j k)) = Some x.
Proof. intros Ha G Room (y & Hy)%list_elem_of_lookup. destruct (row_at i j k y x Ha G Room Hy). exists (Z.of_nat y). split; [lia|assumption]. Qed.

End adjacency.

(** C12. The rows of the adjacency list: after the memory was initialized, the row
    of a cell is strictly increasing, has exactly the length that was reserved, and
    names exactly the cells within the radius along every axis of the periodic
    grid (only along the first two axes in two dimensions). *)
Theorem cell_adjacency (dimensions : Z) (p : pdata) (q : params) (s : store) (i j k : Z) (Adj : m_compute_adj_list q = true) (N : 0 < m_Nmax s)
  (D : 0 < ux (m_dim s) /\ 0 < uy (m_dim s) /\ 0 < uz (m_dim s)) (Flat : dimensions = 2 -> uz (m_dim s) = 1) (G : grid_ok dimensions q (m_dim s))
  (Room : m_Nmax s * ncells (m_dim s) < 2 ^ 32) (In : in_grid (m_dim s) i j k) :
  exists s' row, initializeMemory dimensions p q s = Ret s' /\ m_dim s' = m_dim s /\
    (forall y, (y < length row)%nat ->
       m_cell_adj s' !! Z.to_nat (Index2D.index (m_cell_adj_indexer s') (Z.of_nat y) (Index3D.index (m_cell_indexer s') i j k)) = row !! y) /\
    Z.of_nat (length row) = n_adj dimensions q (m_dim s) /\ StronglySorted Z.lt row /\
    forall a b c, in_grid (m_dim s) a b c -> Index3D.index (m_cell_indexer s') a b c ∈ row <->
      near_cell (m_radius q) (ux (m_dim s)) i a /\ near_cell (m_radius q) (uy (m_dim s)) j b /\
      near_cell (if dimensions =? 2 then 0 else m_radius q) (uz (m_dim s)) k c.
Proof.
  destruct (initializeMemory_spec dimensions p q s (m_Nmax s) D Flat G) as (s' & E & L & Ed & _); [|lia|assumption|].
  { unfold estimate_Nmax. destruct (Z.eqb_spec (m_Nmax s) 0); [lia|reflexivity]. }
  pose proof (go_radius _ _ _ G) as R. pose proof (ly_ci _ _ _ L) as Ci. rewrite Ed in Ci. pose proof (go_cells _ _ _ G) as C. unfold ncells in C.
  pose proof (length_adjacent_cells dimensions q (m_dim s) D ltac:(lia) R Flat i j k) as Lr.
  exists s', (adjacent_cells dimensions q (m_cell_indexer s') (m_dim s) i j k). rewrite Ci. split_and!; [exact E|exact Ed| |exact Lr| |].
  - intros y Hy. destruct (ci_index (m_dim s) D ltac:(lia) _ _ _ In) as [_ B]. pose proof (go_adj _ _ _ G Adj) as Ra.
    rewrite (ly_adji _ _ _ L Adj), Ed. unfold Index2D.index. simpl. unfold ncells in *. rewrite (u32_small (_ * _)), u32_small by (unfold is_u32; nia).
    pose proof (ly_adj _ _ _ L Adj i j k) as H. rewrite Ed in H. apply (H In). lia.
  - exact (proj1 (unique_spec _ (StronglySorted_merge_sort Z.le _))).
  - intros a b c Ga. pose proof (elem_of_adjacent dimensions q s' L R i j k a b c) as H. rewrite Ed in H. now apply H.
Qed.

(** C11. The cells find the neighbours: of two particles in cells whose fractional
    coordinates are not negative and differ, up to a period, by at most [m_radius]
    cells along every axis, the cell of the second is in the row of the cell of the
    first in the adjacency list. *)
Theorem cell_list_neighbors (rsqrt : Scalar -> Scalar) (dimensions : Z) (p : pdata) (q : params) (s : store) (m n : nat) (c c' : Z)
  (L : layout dimensions q s) (G : grid_ok dimensions q (m_dim s)) (Adj : m_compute_adj_list q = true)
  (Cm : cell_at rsqrt p (m_dim s) m = Some c) (Cn : cell_at rsqrt p (m_dim s) n = Some c') :
  let f := fraction rsqrt p m in let g := fraction rsqrt p n in
  (0 <= s3x f)%Q /\ (0 <= s3y f)%Q /\ (0 <= s3z f)%Q -> (0 <= s3x g)%Q /\ (0 <= s3y g)%Q /\ (0 <= s3z g)%Q ->
  close (m_radius q) (ux (m_dim s)) (s3x f) (s3x g) -> close (m_radius q) (uy (m_dim s)) (s3y f) (s3y g) ->
  (dimensions <> 2 -> close (m_radius q) (uz (m_dim s)) (s3z f) (s3z g)) ->
  exists y, 0 <= y < n_adj dimensions q (m_dim s) /\ m_cell_adj s !! Z.to_nat (Index2D.index (m_cell_adj_indexer s) y c) = Some c'.
Proof.
  intros f g (Fx & Fy & Fz) (Gx & Gy & Gz) Kx Ky Kz. pose proof (ly_dim _ _ _ L) as D. pose proof (go_radius _ _ _ G) as R. unfold cell_at in Cm, Cn.
  destruct (find_cell rsqrt _ _ (element (Z.of_nat m) p)) as [[[[i j] k]|]| |] eqn:Em; try discriminate.
  destruct (find_cell rsqrt _ _ (element (Z.of_nat n) p)) as [[[[i' j'] k']|]| |] eqn:En; try discriminate. injection Cm as <-. injection Cn as <-.
  pose proof (find_cell_in_grid rsqrt p s _ _ _ _ _ Em) as Gm. pose proof (find_cell_in_grid rsqrt p s _ _ _ _ _ En) as Gn.
  apply (row_lookup dimensions q s L R); [assumption..|now apply (go_adj _ _ _ G)|]. apply (elem_of_adjacent dimensions q s L R); [assumption|].
  destruct (find_cell_floor _ _ _ _ _ _ _ D Em Fx Fy Fz) as (-> & -> & Ek). destruct (find_cell_floor _ _ _ _ _ _ _ D En Gx Gy Gz) as (-> & -> & Ek').
  split_and!; [apply close_near; [lia|assumption]..|]. unfold rz. destruct (Z.eqb_spec dimensions 2) as [Two|Three].
  - exists k. rewrite (ly_flat _ _ _ L Two) in *. destruct Gm as (_ & _ & ?), Gn as (_ & _ & ?). rewrite (ly_flat _ _ _ L Two) in *. split; [lia|]. rewrite Z.mod_1_r. lia.
  - rewrite Ek, Ek'. apply close_near; [lia|auto].
Qed.

(** * Examples *)

(** The inverse square root, where the examples need it. *)
Definition rsqrt_of_one (x : Scalar) : Scalar := if Qeq_bool x 1 then 1%Q else 0%Q.

(** Three particles in an orthorhombic box; the first two share a cell. *)
Definition ortho3 : pdata := (initializeFromSnapshot three false
  (mkPD 0 0 0 0 [] [] [] [] 0 [] [] [] true [] false BoxDim.zero3 zero_i3 (BoxDim.make_array 10 8 6 0 0 0) true 0 [])).1.

Definition cells3 : cell_list := setNominalWidth 2 new_cell_list.

Lemma ortho3_locatable : locatable rsqrt_of_one ortho3 (make_uint3 5 4 3).
Proof.
  assert (T : Z.to_nat (u32 (getN ortho3 + m_nghosts ortho3)) = 3%nat) by (vm_compute; reflexivity).
  intros n. rewrite T. intros H. destruct n as [|[|[|n]]]; [split; [vm_compute; reflexivity|eexists; vm_compute; reflexivity]..|lia].
Qed.

Lemma ortho3_grid : grid_ok 3 (cl_params cells3) (make_uint3 5 4 3).
Proof. constructor; vm_compute; repeat split; congruence. Qed.

Lemma ortho3_computable : computable rsqrt_of_one 3 ortho3 cells3 (make_uint3 5 4 3) 3.
Proof.
  constructor; [reflexivity|reflexivity|vm_compute; reflexivity|exact ortho3_grid|exact ortho3_locatable| | |now left|discriminate].
  - split_and!; vm_compute; congruence.
  - intros b _. pose proof (length_members rsqrt_of_one ortho3 (make_uint3 5 4 3) b (Z.to_nat (u32 (getN ortho3 + m_nghosts ortho3)))) as H.
    apply Nat2Z.inj_le in H. etransitivity; [exact H|]. vm_compute. discriminate.
Qed.

Lemma cell_list_compute_witness : exists c, compute rsqrt_of_one 3 0 ortho3 cells3 = Ret (c, Ok tt) /\ cells_correct rsqrt_of_one ortho3 (cl_params cells3) (cl_store c).
Proof.
  destruct (cell_list_compute rsqrt_of_one 3 0 ortho3 cells3 _ _ ortho3_computable) as (c & r & E & _ & _ & _ & _ & _ & F).
  exists c. assert (R : r = Ok tt).
  { assert (X : exists c', compute rsqrt_of_one 3 0 ortho3 cells3 = Ret (c', Ok tt)) by (eexists; vm_compute; reflexivity).
    destruct X as [c' X]. rewrite X in E. now injection E. }
  subst r. split; [exact E|]. now apply F.
Defined.


Lemma cell_adjacency_witness : let s := set_width (make_uint3 5 4 3) BoxDim.zero3 (set_Nmax 1 (cl_store cells3)) in
  exists s', initializeMemory 3 ortho3 (cl_params cells3) s = Ret s' /\ m_dim s' = m_dim s.
Proof.
  intros s. destruct (cell_adjacency 3 ortho3 (cl_params cells3) s 0 0 0) as (s' & row & E & Ed & _);
    [reflexivity|reflexivity|now vm_compute|discriminate|exact ortho3_grid|now vm_compute|vm_compute; repeat split; congruence|exact (ex_intro _ s' (conj E Ed))].
Defined.

Lemma cell_list_neighbors_witness : exists s, initializeAll rsqrt_of_one 3 ortho3 (cl_params cells3) (cl_store cells3) = Ret s /\
  exists y, 0 <= y < 27 /\ m_cell_adj s !! Z.to_nat (Index2D.index (m_cell_adj_indexer s) y 33) = Some 34.
Proof.
  destruct (initialize_any rsqrt_of_one 3 ortho3 cells3 _ _ ortho3_computable (cl_store cells3)) as (s & E & Ly & Ed & _); [split; discriminate|].
  exists s. split; [exact E|]. change 27 with (n_adj 3 (cl_params cells3) (make_uint3 5 4 3)). rewrite <- Ed.
  apply (cell_list_neighbors rsqrt_of_one 3 ortho3 (cl_params cells3) s 1 2 33 34 Ly); rewrite ?Ed;
    [exact ortho3_grid|reflexivity|vm_compute; reflexivity|vm_compute; reflexivity|vm_compute; repeat split; discriminate|vm_compute; repeat split; discriminate|..];
    try intros _; exists 0; vm_compute; discriminate.
Defined.

(** * Consequences *)

(** A new multiple is not used by the next computation: a grid of 5 x 4 x 3 cells
    stays as it is with the multiple 2. *)
Lemma setMultiple_has_no_effect : (bind! (c, _) := compute rsqrt_of_one 3 0 ortho3 cells3 in
  bind! (c, _) := compute rsqrt_of_one 3 1 ortho3 (setMultiple 2 c) in Ret (m_multiple (cl_params c), m_dim (cl_store c))) = Ret (2, make_uint3 5 4 3).
Proof. vm_compute. reflexivity. Qed.

(** After an exception for a particle outside of the box the recorded size of the
    cells can be larger than the allocated one: once the particle is back, the
    computation succeeds with the second entry of cell 33 overwritten by the first
    of cell 34. *)
Definition outside3 : pdata := update_local 2 (e_pos (make_scalar3 30 0 0) zero_i3) ortho3.

Lemma exception_leaves_wrong_size :
  match compute rsqrt_of_one 3 0 outside3 (setFlagIndex cells3) with
  | Ret (c, Throw _) =>
      match compute rsqrt_of_one 3 1 ortho3 c with
      | Ret (c', Ok _) => let s := cl_store c' in
          Some (m_Nmax s, Index2D.m_w (m_cell_list_indexer s), m_cell_size s !! 33%nat, Index2D.index (m_cell_list_indexer s) 1 33,
                snd <$> m_xyzf s !! 34%nat, members rsqrt_of_one ortho3 (m_dim s) 33 3)
      | _ => None
      end
  | _ => None
  end = Some (2, 1, Some 2, 34, Some (flag_index 2), [0; 1]%nat).
Proof. vm_compute. reflexivity. Qed.

(** The exception is reported once per time step. *)
Lemma exception_reported_once :
  match compute rsqrt_of_one 3 0 outside3 cells3 with
  | Ret (c, Throw _) => match compute rsqrt_of_one 3 0 outside3 c with Ret (_, Ok _) => true | _ => false end
  | _ => false
  end = true.
Proof. vm_compute. reflexivity. Qed.
