(* ===== verification/SystemDefinition.v ===== *)
(** The system as a whole ([hoomd/SystemDefinition.cc],
    [hoomd/SnapshotSystemData.h], [.cc], and [SnapshotParticleData] of
    [hoomd/ParticleData.cc]): particles and bonded groups together, loading and
    taking snapshots of all of them, replicating and wrapping a snapshot.

    The model is a build without MPCD and without a domain decomposition. The
    bonded groups are connected to the sort signal of the particle data. [rsqrt]
    stands for the reciprocal square root that [makeFraction] calls. A conversion
    of a scalar outside the range of [int] is undefined, like an access outside
    an array, and has the same outcome. An exception in [replicate] leaves the
    snapshot half replicated; the model does not describe that snapshot. *)

From Stdlib Require Import ZArith Lia QArith Qround String.
From stdpp Require Import base list list_numbers sorting gmap strings.
From S2P Require Import Prelude HOOMDMath Index1D BoxDim ParticleData BondedGroupData.
Local Open Scope Z_scope.
Local Open Scope hoomd_scope.

(** * Snapshots of the particles *)

(** The defaults of [SnapshotParticleData::resize]. *)
Definition default_snap : snap_ptl :=
  mkSnap BoxDim.zero3 BoxDim.zero3 BoxDim.zero3 0 1 0 1 zero_i3 NO_BODY (make_scalar4 1 0 0 0) zero4 BoxDim.zero3.

Definition resize_particles (n : Z) (sn : snapshot) : snapshot :=
  mkSnapshot (array_resize default_snap n (sn_ptl sn)) (sn_type_mapping sn) false.

(** The copies [(l, m, n)] in the order of the three loops. *)
Definition copies (nx ny nz : Z) : list (Z * Z * Z) :=
  flat_map (fun l => flat_map (fun m => (fun n => (l, m, n)) <$> seqZ 0 nz) (seqZ 0 ny)) (seqZ 0 nx).

(** The fractional coordinates of a copy in the new box. *)
Definition copy_fraction (nx ny nz : Z) (f : Scalar3) (c : Z * Z * Z) : Scalar3 :=
  let '(l, m, n) := c in
  (make_scalar3 (s3x f / inject_Z nx + inject_Z l / inject_Z nx)
                (s3y f / inject_Z ny + inject_Z m / inject_Z ny)
                (s3z f / inject_Z nz + inject_Z n / inject_Z nz))%Q.

Definition copy_body (j old_size body : Z) : Z :=
  if negb (body =? NO_BODY) then u32 (u32 (j * old_size) + body) else NO_BODY.

(** The properties of [s] in a copy that is placed at [pos] and [img]. *)
Definition copy_ptl (s : snap_ptl) (pos : Scalar3) (img : int3) (body : Z) : snap_ptl :=
  mkSnap pos (s_vel s) (s_accel s) (s_type s) (s_mass s) (s_charge s) (s_diameter s) img body (s_orientation s) (s_angmom s) (s_inertia s).

Section replicate.
Variable rsqrt : Scalar -> Scalar.
Variable new_box : BoxDim.t.

(** The new position and image of a copy with coordinates [q]. *)
Definition place_copy (q : Scalar3) : run (Scalar3 * int3) :=
  match BoxDim.getImage rsqrt new_box q with
  | None => OutOfBounds
  | Some img => Ret (BoxDim.wrap new_box (BoxDim.shift new_box q (i3_opp img)) img BoxDim.no_flags)
  end.

(** The copies [js] of the particle [i], from number [j] on. *)
Fixpoint replicate_copies (nx ny nz old_size i : Z) (f : Scalar3) (js : list (Z * Z * Z)) (j : Z) (a : list snap_ptl) : run (list snap_ptl) :=
  match js with
  | [] => Ret a
  | c :: js =>
      let k := u32 (u32 (j * old_size) + i) in
      bind! (q, img) := place_copy (BoxDim.makeCoordinates new_box (copy_fraction nx ny nz f c)) in
      let s := zget default_snap a i in
      let body := copy_body j old_size (s_body s) in
      bind! a := write a k (copy_ptl s q img body) in
      if (s_body (zget default_snap a i) <? MIN_FLOPPY) && (body >=? MIN_FLOPPY)
      then Raise (runtime_error "Replication would create more distinct rigid bodies than HOOMD supports!")
      else replicate_copies nx ny nz old_size i f js (j + 1) a
  end.

(** The loop over the particles from [i] on. *)
Fixpoint replicate_loop (nx ny nz old_size : Z) (old_box : BoxDim.t) (count : nat) (i : Z) (a : list snap_ptl) : run (list snap_ptl) :=
  match count with
  | O => Ret a
  | S count =>
      let s := zget default_snap a i in
      let p := BoxDim.shift old_box (s_pos s) (s_image s) in
      let f := BoxDim.makeFraction rsqrt old_box p BoxDim.zero3 in
      bind! a := replicate_copies nx ny nz old_size i f (copies nx ny nz) 0 a in
      replicate_loop nx ny nz old_size old_box count (i + 1) a
  end.

(** [SnapshotParticleData::replicate] *)
Definition replicate_particles (nx ny nz : Z) (old_box : BoxDim.t) (sn : snapshot) : run snapshot :=
  let old_size := Z.of_nat (length (sn_ptl sn)) in
  let sn := resize_particles (u32 (u32 (u32 (old_size * nx) * ny) * nz)) sn in
  bind! a := replicate_loop nx ny nz old_size old_box (Z.to_nat old_size) 0 (sn_ptl sn) in
  Ret (mkSnapshot a (sn_type_mapping sn) (sn_is_accel_set sn)).

End replicate.

(** * Snapshots of the system *)

Record system_snapshot := mkSystemSnapshot {
  ss_dimensions : Z;
  ss_global_box : BoxDim.t;
  ss_particle_data : snapshot;
  ss_bond_data : group_snapshot;
  ss_angle_data : group_snapshot;
  ss_dihedral_data : group_snapshot;
  ss_improper_data : group_snapshot;
  ss_constraint_data : group_snapshot;
  ss_pair_data : group_snapshot
}.

(** [SnapshotSystemData::replicate] *)
Definition scaled_box (nx ny nz : Z) (b : BoxDim.t) : BoxDim.t :=
  let L := BoxDim.m_L b in
  BoxDim.setL (make_scalar3 (s3x L * inject_Z nx) (s3y L * inject_Z ny) (s3z L * inject_Z nz)) b.

Definition system_replicate (rsqrt : Scalar -> Scalar) (nx ny nz : Z) (s : system_snapshot) : run system_snapshot :=
  let old_box := ss_global_box s in
  let new_box := scaled_box nx ny nz old_box in
  let old_n := Z.of_nat (length (sn_ptl (ss_particle_data s))) in
  let n := u32 (u32 (nx * ny) * nz) in
  bind! particles := replicate_particles rsqrt new_box nx ny nz old_box (ss_particle_data s) in
  Ret (mkSystemSnapshot (ss_dimensions s) new_box particles
         (snap_replicate (Group := Bond) n old_n (ss_bond_data s)) (snap_replicate (Group := Angle) n old_n (ss_angle_data s))
         (snap_replicate (Group := Dihedral) n old_n (ss_dihedral_data s)) (snap_replicate (Group := Dihedral) n old_n (ss_improper_data s))
         (snap_replicate (Group := Constraint) n old_n (ss_constraint_data s)) (snap_replicate (Group := Bond) n old_n (ss_pair_data s))).

(** [std::fmod(x, 1)] and the positive modulus of [SnapshotSystemData::wrap]. *)
Definition fmod1 (x : Scalar) : Scalar := (x - inject_Z (Qtrunc x))%Q.
Definition modulus_positive (x : Scalar) : Scalar := fmod1 (fmod1 x + 1)%Q.

(** [static_cast<int>(std::floor(x))] *)
Definition floor_int (x : Scalar) : option Z := to_int (inject_Z (Qfloor x)).

Definition wrap_particle (rsqrt : Scalar -> Scalar) (box : BoxDim.t) (s : snap_ptl) : run snap_ptl :=
  let frac := BoxDim.makeFraction rsqrt box (s_pos s) BoxDim.zero3 in
  let wrapped := make_scalar3 (modulus_positive (s3x frac)) (modulus_positive (s3y frac)) (modulus_positive (s3z frac)) in
  match floor_int (s3x frac), floor_int (s3y frac), floor_int (s3z frac) with
  | Some ix, Some iy, Some iz =>
      Ret (copy_ptl s (BoxDim.makeCoordinates box wrapped) (i3_add (s_image s) (make_int3 ix iy iz)) (s_body s))
  | _, _, _ => OutOfBounds
  end.

Fixpoint wrap_particles (rsqrt : Scalar -> Scalar) (box : BoxDim.t) (l : list snap_ptl) : run (list snap_ptl) :=
  match l with
  | [] => Ret []
  | s :: l => bind! s := wrap_particle rsqrt box s in bind! l := wrap_particles rsqrt box l in Ret (s :: l)
  end.

Definition system_wrap (rsqrt : Scalar -> Scalar) (s : system_snapshot) : run system_snapshot :=
  let sn := ss_particle_data s in
  bind! l := wrap_particles rsqrt (ss_global_box s) (sn_ptl sn) in
  Ret (mkSystemSnapshot (ss_dimensions s) (ss_global_box s) (mkSnapshot l (sn_type_mapping sn) (sn_is_accel_set sn))
         (ss_bond_data s) (ss_angle_data s) (ss_dihedral_data s) (ss_improper_data s) (ss_constraint_data s) (ss_pair_data s)).

(** * The system *)

Record system := mkSystem {
  m_n_dimensions : Z;
  m_particle_data : pdata;
  m_bond_data : gdata;
  m_angle_data : gdata;
  m_dihedral_data : gdata;
  m_improper_data : gdata;
  m_constraint_data : gdata;
  m_pair_data : gdata
}.

Definition setNDimensions (n : Z) (y : system) : result system :=
  if negb ((n =? 2) || (n =? 3)) then Throw (runtime_error "Error setting dimensions")
  else Ok (mkSystem n (m_particle_data y) (m_bond_data y) (m_angle_data y) (m_dihedral_data y) (m_improper_data y)
             (m_constraint_data y) (m_pair_data y)).

(** A change of the particle data, with its signals delivered to the groups. *)
Definition update_particles (p : pdata) (y : system) : system :=
  let s := drop (length (m_signals (m_particle_data y))) (m_signals p) in
  let slot := fun d => if existsb (fun x => match x with sort_signal => true | _ => false end) s then setDirty d else d in
  mkSystem (m_n_dimensions y) p (slot (m_bond_data y)) (slot (m_angle_data y)) (slot (m_dihedral_data y)) (slot (m_improper_data y))
    (slot (m_constraint_data y)) (slot (m_pair_data y)).

Definition set_dimensions (n : Z) (y : system) : system :=
  mkSystem n (m_particle_data y) (m_bond_data y) (m_angle_data y) (m_dihedral_data y) (m_improper_data y) (m_constraint_data y) (m_pair_data y).
Definition set_bond (d : gdata) (y : system) : system :=
  mkSystem (m_n_dimensions y) (m_particle_data y) d (m_angle_data y) (m_dihedral_data y) (m_improper_data y) (m_constraint_data y) (m_pair_data y).
Definition set_angle (d : gdata) (y : system) : system :=
  mkSystem (m_n_dimensions y) (m_particle_data y) (m_bond_data y) d (m_dihedral_data y) (m_improper_data y) (m_constraint_data y) (m_pair_data y).
Definition set_dihedral (d : gdata) (y : system) : system :=
  mkSystem (m_n_dimensions y) (m_particle_data y) (m_bond_data y) (m_angle_data y) d (m_improper_data y) (m_constraint_data y) (m_pair_data y).
Definition set_improper (d : gdata) (y : system) : system :=
  mkSystem (m_n_dimensions y) (m_particle_data y) (m_bond_data y) (m_angle_data y) (m_dihedral_data y) d (m_constraint_data y) (m_pair_data y).
Definition set_constraint (d : gdata) (y : system) : system :=
  mkSystem (m_n_dimensions y) (m_particle_data y) (m_bond_data y) (m_angle_data y) (m_dihedral_data y) (m_improper_data y) d (m_pair_data y).
Definition set_pair (d : gdata) (y : system) : system :=
  mkSystem (m_n_dimensions y) (m_particle_data y) (m_bond_data y) (m_angle_data y) (m_dihedral_data y) (m_improper_data y) (m_constraint_data y) d.

(** [a; b] where [a] may throw. *)
Definition and_then (s : system * result unit) (f : system -> system * result unit) : system * result unit :=
  match s.2 with Ok _ => f s.1 | Throw _ => s end.

Definition load_particles (sn : system_snapshot) (y : system) : system * result unit :=
  let p := setGlobalBox (ss_global_box sn) (m_particle_data y) in
  let '(p, r) := ParticleData.initializeFromSnapshot (ss_particle_data sn) false p in
  (update_particles p y, r).

Definition load_group {Group} `{GroupType Group} (sn : group_snapshot) (get : system -> gdata) (set : gdata -> system -> system) (y : system)
  : system * result unit :=
  let '(d, r) := BondedGroupData.initializeFromSnapshot sn (m_particle_data y) (get y) in (set d y, r).

(** [SystemDefinition::initializeFromSnapshot]: the number of dimensions is not
    checked. *)
Definition system_load (sn : system_snapshot) (y : system) : system * result unit :=
  let s := load_particles sn (set_dimensions (ss_dimensions sn) y) in
  let s := and_then s (load_group (Group := Bond) (ss_bond_data sn) m_bond_data set_bond) in
  let s := and_then s (load_group (Group := Angle) (ss_angle_data sn) m_angle_data set_angle) in
  let s := and_then s (load_group (Group := Dihedral) (ss_dihedral_data sn) m_dihedral_data set_dihedral) in
  let s := and_then s (load_group (Group := Dihedral) (ss_improper_data sn) m_improper_data set_improper) in
  let s := and_then s (load_group (Group := Constraint) (ss_constraint_data sn) m_constraint_data set_constraint) in
  and_then s (load_group (Group := Bond) (ss_pair_data sn) m_pair_data set_pair).

Definition empty_groups : group_snapshot := mkGroupSnapshot [] [] [] [] 0.

Definition take_group {Group} `{GroupType Group} (d : gdata) : run group_snapshot :=
  match takeSnapshot empty_groups d with Ok (s, _) => Ret s | Throw e => Raise e end.

(** [SystemDefinition::takeSnapshot] *)
Definition system_take (y : system) : run system_snapshot :=
  bind! particles := match ParticleData.takeSnapshot (m_particle_data y) with Some s => Ret s | None => OutOfBounds end in
  bind! bond := take_group (Group := Bond) (m_bond_data y) in
  bind! angle := take_group (Group := Angle) (m_angle_data y) in
  bind! dihedral := take_group (Group := Dihedral) (m_dihedral_data y) in
  bind! improper := take_group (Group := Dihedral) (m_improper_data y) in
  bind! constraint := take_group (Group := Constraint) (m_constraint_data y) in
  bind! pairs := take_group (Group := Bond) (m_pair_data y) in
  Ret (mkSystemSnapshot (m_n_dimensions y) (m_global_box (m_particle_data y)) particles bond angle dihedral improper constraint pairs).
