(* ===== verification/SystemDefinitionSpec.v ===== *)
(** What the operations on whole snapshots guarantee: replication tiles the
    larger box with translated copies of the system, bonds included; wrapping
    keeps the unwrapped positions; a snapshot that is loaded can be taken
    again. *)

From Stdlib Require Import ZArith Lia QArith Qround Qabs Qfield Lqa String.
From stdpp Require Import base list list_numbers sorting gmap strings.
From S2P Require Import Prelude HOOMDMath Index1D BoxDim ParticleData ParticleDataProps ParticleDataSpec BondedGroupData BondedGroupDataProps BondedGroupDataSpec BondedGroupTable SystemDefinition.
Local Open Scope Z_scope.
Local Open Scope hoomd_scope.

(** * The copies *)

Lemma lookup_flat_map {A B} (f : A -> list B) (b : nat) (l : list A) (k y : nat) (z : A) :
  (forall x, length (f x) = b) -> l !! k = Some z -> (y < b)%nat -> flat_map f l !! (k * b + y)%nat = f z !! y.
Proof.
  intros Hb. revert k. induction l as [|a l IH]; intros k Hk Hy; [discriminate|]. destruct k as [|k]; simpl in *.
  - injection Hk as ->. now rewrite lookup_app_l by (rewrite Hb; lia).
  - rewrite lookup_app_r by (rewrite Hb; lia). rewrite Hb. replace (b + k * b + y - b)%nat with (k * b + y)%nat by lia. auto.
Qed.

Lemma length_flat_map {A B} (f : A -> list B) (b : nat) (l : list A) : (forall x, length (f x) = b) -> length (flat_map f l) = (length l * b)%nat.
Proof. intros Hb. induction l; simpl; [reflexivity|]. rewrite length_app, Hb. lia. Qed.

Section copies.
Variables nx ny nz : Z.
Hypothesis Px : 0 < nx.
Hypothesis Py : 0 < ny.
Hypothesis Pz : 0 < nz.

Definition copy_index (c : Z * Z * Z) : Z := let '(l, m, n) := c in (l * ny + m) * nz + n.
Definition is_copy (c : Z * Z * Z) : Prop := let '(l, m, n) := c in 0 <= l < nx /\ 0 <= m < ny /\ 0 <= n < nz.

Let row (l m : Z) := (fun n : Z => (l, m, n)) <$> seqZ 0 nz.
Let plane (l : Z) := flat_map (row l) (seqZ 0 ny).

Lemma length_row l m : length (row l m) = Z.to_nat nz.
Proof. unfold row. now rewrite length_fmap, length_seqZ. Qed.

Lemma length_plane l : length (plane l) = (Z.to_nat ny * Z.to_nat nz)%nat.
Proof. unfold plane. rewrite (length_flat_map _ (Z.to_nat nz)) by apply length_row. now rewrite length_seqZ. Qed.

Lemma length_copies : Z.of_nat (length (copies nx ny nz)) = nx * ny * nz.
Proof. unfold copies. rewrite (length_flat_map _ _ _ length_plane), length_seqZ. nia. Qed.

(** The copies are numbered in row-major order. *)
Lemma copies_lookup c : is_copy c -> copies nx ny nz !! Z.to_nat (copy_index c) = Some c.
Proof.
  destruct c as [[l m] n]. intros (Hl & Hm & Hn). unfold copies, copy_index.
  replace (Z.to_nat ((l * ny + m) * nz + n)) with (Z.to_nat l * (Z.to_nat ny * Z.to_nat nz) + (Z.to_nat m * Z.to_nat nz + Z.to_nat n))%nat by nia.
  rewrite (lookup_flat_map _ _ _ _ _ l length_plane); [|rewrite lookup_seqZ_lt by lia; f_equal; lia|nia].
  unfold plane. rewrite (lookup_flat_map _ _ _ _ _ m (length_row l)); [|rewrite lookup_seqZ_lt by lia; f_equal; lia|lia].
  unfold row. rewrite list_lookup_fmap, lookup_seqZ_lt by lia. simpl. do 2 f_equal. lia.
Qed.

Lemma copies_are_copies c : c ∈ copies nx ny nz -> is_copy c.
Proof.
  unfold copies. intros H. apply list_elem_of_In, in_flat_map in H as (l & Hl & H). apply in_flat_map in H as (m & Hm & H).
  apply list_elem_of_In, elem_of_seqZ in Hl. apply list_elem_of_In, elem_of_seqZ in Hm.
  apply list_elem_of_In, list_elem_of_fmap in H as (n & -> & Hn). apply elem_of_seqZ in Hn. simpl. lia.
Qed.

End copies.

(** * Where a copy is placed *)

(** The displacement of a copy: whole lattice vectors of the old box, and half
    of the growth back, because both boxes are centred on the origin. *)
Definition copy_translation (nx ny nz : Z) (b : BoxDim.t) (c : Z * Z * Z) : Scalar3 :=
  let '(l, m, n) := c in
  let along a k i := s3_scale (inject_Z k - (inject_Z a - 1) / 2)%Q (BoxDim.getLatticeVector b i) in
  s3_add (along nx l 0) (s3_add (along ny m 1) (along nz n 2)).

(** Few enough images away for the conversion to [int]. *)
Definition few_images (rsqrt : Scalar -> Scalar) (b : BoxDim.t) (v : Scalar3) : Prop :=
  let f := BoxDim.makeFraction rsqrt b v BoxDim.zero3 in
  (Qabs (s3x f) < inject_Z (2 ^ 29) /\ Qabs (s3y f) < inject_Z (2 ^ 29) /\ Qabs (s3z f) < inject_Z (2 ^ 29))%Q.

Section placement.
Variable rsqrt : Scalar -> Scalar.
Variables nx ny nz : Z.
Variable b : BoxDim.t.
Hypothesis Px : 0 < nx.
Hypothesis Py : 0 < ny.
Hypothesis Pz : 0 < nz.
Hypothesis W : BoxDim.wf b.
Hypothesis C : BoxDim.centred b.

Let new_box := scaled_box nx ny nz b.

Lemma inject_pos n : 0 < n -> (0 < inject_Z n)%Q.
Proof. intros H. change 0%Q with (inject_Z 0). now rewrite <- Zlt_Qlt. Qed.

Lemma scaled_L : BoxDim.m_L new_box =
  make_scalar3 (s3x (BoxDim.m_L b) * inject_Z nx) (s3y (BoxDim.m_L b) * inject_Z ny) (s3z (BoxDim.m_L b) * inject_Z nz).
Proof. reflexivity. Qed.

Lemma scaled_wf : BoxDim.wf new_box /\ BoxDim.centred new_box.
Proof.
  destruct W as (_ & (Lx & Ly & Lz) & _).
  pose proof (inject_pos nx Px). pose proof (inject_pos ny Py). pose proof (inject_pos nz Pz).
  assert (Qx : (0 < s3x (BoxDim.m_L b) * inject_Z nx)%Q) by now apply Qmult_lt_0_compat.
  assert (Qy : (0 < s3y (BoxDim.m_L b) * inject_Z ny)%Q) by now apply Qmult_lt_0_compat.
  assert (Qz : (0 < s3z (BoxDim.m_L b) * inject_Z nz)%Q) by now apply Qmult_lt_0_compat.
  split; [|repeat split; cbn; reflexivity]. unfold new_box, scaled_box, BoxDim.setL. cbn zeta.
  destruct (Qeq_bool _ 0) eqn:E; [apply Qeq_bool_iff in E; cbn in E; lra|].
  split_and!; [split_and!|..]; cbn; try assumption; try field; try apply inv_mult; lra.
Qed.

(** A fraction of a fraction stays small. *)
Lemma copy_axis (f : Scalar) (a k : Z) : 0 <= k < a -> (Qabs f < inject_Z (2 ^ 29))%Q ->
  (Qabs (f / inject_Z a + inject_Z k / inject_Z a - (1 # 2)) < inject_Z (2 ^ 30))%Q.
Proof.
  intros Hk Hf. assert (A : (0 < inject_Z a)%Q) by (apply inject_pos; lia).
  assert (A1 : (1 <= inject_Z a)%Q) by (change 1%Q with (inject_Z 1); rewrite <- Zle_Qle; lia).
  assert (K0 : (0 <= inject_Z k)%Q) by (change 0%Q with (inject_Z 0); rewrite <- Zle_Qle; lia).
  assert (K1 : (inject_Z k < inject_Z a)%Q) by (rewrite <- Zlt_Qlt; lia).
  apply Qabs_Qlt_condition in Hf. change (inject_Z (2 ^ 29)) with (536870912 # 1) in Hf. change (inject_Z (2 ^ 30)) with (1073741824 # 1).
  assert (E : (f / inject_Z a + inject_Z k / inject_Z a == (f + inject_Z k) / inject_Z a)%Q) by (field; lra).
  rewrite E. set (q := ((f + inject_Z k) / inject_Z a)%Q).
  assert (Q : (q * inject_Z a == f + inject_Z k)%Q) by (unfold q; field; lra).
  apply Qabs_Qlt_condition. split; nra.
Qed.

(** The coordinates of a copy before they are wrapped. *)
Lemma copy_coordinates p c : BoxDim.makeCoordinates new_box (copy_fraction nx ny nz (BoxDim.makeFraction rsqrt b p BoxDim.zero3) c)
  =3= s3_add p (copy_translation nx ny nz b c).
Proof.
  destruct c as [[l m] n]. rewrite makeCoordinates_components. pose proof (makeCoordinates_makeFraction rsqrt b W p) as E.
  rewrite makeCoordinates_components in E. set (f := BoxDim.makeFraction rsqrt b p BoxDim.zero3) in *.
  destruct (hi_half b W C) as (Hx & Hy & Hz). destruct C as (Cx & Cy & Cz). cbn in Cx, Cy, Cz.
  destruct E as (Ex & Ey & Ez). unfold new_box, s3_eq, copy_translation, copy_fraction, BoxDim.getLatticeVector, BoxDim.zero3, s3_add, s3_scale.
  cbn [scaled_box BoxDim.setL BoxDim.m_lo BoxDim.m_L BoxDim.m_xy BoxDim.m_xz BoxDim.m_yz s3_opp s3_div_scalar s3x s3y s3z Z.eqb Pos.eqb] in *.
  pose proof (inject_pos nx Px). pose proof (inject_pos ny Py). pose proof (inject_pos nz Pz).
  split_and!; [rewrite <- Ex|rewrite <- Ey|rewrite <- Ez]; rewrite ?Cx, ?Cy, ?Cz, ?Hx, ?Hy, ?Hz; field; lra.
Qed.

Lemma place_copy_spec p c : few_images rsqrt b p -> is_copy nx ny nz c -> exists q img,
  place_copy rsqrt new_box (BoxDim.makeCoordinates new_box (copy_fraction nx ny nz (BoxDim.makeFraction rsqrt b p BoxDim.zero3) c)) = Ret (q, img) /\
  BoxDim.shift new_box q img =3= s3_add p (copy_translation nx ny nz b c) /\ BoxDim.inside new_box q.
Proof.
  intros (Fx & Fy & Fz) Hc. pose proof (copy_coordinates p c) as E.
  set (f := BoxDim.makeFraction rsqrt b p BoxDim.zero3) in *. destruct scaled_wf as [W' C']. set (v := BoxDim.makeCoordinates _ _) in *.
  destruct c as [[l m] n]. destruct Hc as (Hl & Hm & Hn).
  pose proof (makeFraction_makeCoordinates rsqrt new_box W' (copy_fraction nx ny nz f (l, m, n))) as (Gx & Gy & Gz). fold v in Gx, Gy, Gz.
  destruct (getImage_spec rsqrt new_box W' v) as (img & I & _ & Ux & Uy & Uz); [rewrite Gx|rewrite Gy|rewrite Gz|]; try now apply copy_axis.
  unfold place_copy. rewrite I. destruct (BoxDim.wrap _ _ _ _) as [q img'] eqn:Ew. exists q, img'. split; [reflexivity|].
  pose proof (wrap_shift new_box (BoxDim.shift new_box v (i3_opp img)) img BoxDim.no_flags) as S. rewrite Ew in S. cbn [fst snd] in S. split.
  - rewrite S, (shift_shift new_box), <- E. destruct img as [ix iy iz]. unfold i3_add, i3_opp. cbn [i3x i3y i3z]. rewrite !Z.add_opp_diag_l.
    destruct (shift_components new_box v (make_int3 0 0 0)) as (Sx & Sy & Sz). cbn [i3x i3y i3z s3x s3y s3z] in *.
    split_and!; [rewrite Sx|rewrite Sy|rewrite Sz]; change (inject_Z 0) with 0%Q; ring.
  - replace q with (BoxDim.wrap new_box (BoxDim.shift new_box v (i3_opp img)) img BoxDim.no_flags).1 by now rewrite Ew.
    apply (wrap_inside new_box W'). now apply (fraction_within rsqrt new_box W').
Qed.

End placement.

(** * The loops of [replicate] *)

(** The two entries agree on everything that a copy takes over. *)
Definition same_properties (s s' : snap_ptl) : Prop := forall q img body, copy_ptl s' q img body = copy_ptl s q img body.

(** The body tags of the copies stay on their side of [MIN_FLOPPY]. *)
Definition body_fits (n old_size body : Z) : Prop :=
  body = NO_BODY \/ 0 <= body /\ (n - 1) * old_size + body < MIN_FLOPPY \/ MIN_FLOPPY <= body /\ (n - 1) * old_size + body < NO_BODY.

Lemma copy_body_fits n j old_size body : body_fits n old_size body -> 0 <= j < n -> 0 <= old_size -> n * old_size < 2 ^ 32 ->
  copy_body j old_size body = (if decide (body = NO_BODY) then NO_BODY else j * old_size + body) /\
  (body <? MIN_FLOPPY) && (copy_body j old_size body >=? MIN_FLOPPY) = false.
Proof.
  unfold body_fits, copy_body, NO_BODY, MIN_FLOPPY. intros F Hj Hs Hn. assert (j * old_size <= (n - 1) * old_size) by nia.
  assert (U : u32 (j * old_size) = j * old_size) by (apply u32_small; unfold is_u32; nia). rewrite U.
  assert (0 <= j * old_size) by nia.
  case_decide; subst; [split; reflexivity|]. destruct (Z.eqb_spec body 4294967295); [contradiction|]. simpl.
  rewrite u32_small by (unfold is_u32; lia). split; [reflexivity|]. apply andb_false_iff. rewrite Z.ltb_ge, Z.geb_leb, Z.leb_gt. lia.
Qed.

Lemma copy_row old_size k i k' i' : 0 < old_size -> 0 <= i < old_size -> 0 <= i' < old_size -> 0 <= k -> 0 <= k' ->
  Z.to_nat (k * old_size + i) = Z.to_nat (k' * old_size + i') -> i = i'.
Proof.
  intros Old Hi Hi' Hk Hk' E. assert (M : i + k * old_size = i' + k' * old_size) by nia.
  apply (f_equal (fun z => z mod old_size)) in M. now rewrite !Z.mod_add, !Z.mod_small in M by lia.
Qed.

Section loops.
Variable rsqrt : Scalar -> Scalar.
Variable new_box : BoxDim.t.
Variables nx ny nz old_size : Z.
Hypothesis Size : 0 < old_size.

Let place (f : Scalar3) (c : Z * Z * Z) : run (Scalar3 * int3) :=
  place_copy rsqrt new_box (BoxDim.makeCoordinates new_box (copy_fraction nx ny nz f c)).

(** What the entry for the copy number [j], made from [s], must be. *)
Definition copied (f : Scalar3) (s : snap_ptl) (c : Z * Z * Z) (j : Z) (out : option snap_ptl) : Prop :=
  exists q img, place f c = Ret (q, img) /\
    out = Some (copy_ptl s q img (if decide (s_body s = NO_BODY) then NO_BODY else j * old_size + s_body s)).

Lemma replicate_copies_spec i f s n : 0 <= i < old_size -> body_fits n old_size (s_body s) -> n * old_size < 2 ^ 32 ->
  forall js j a, 0 <= j -> j + Z.of_nat (length js) <= n -> n * old_size <= Z.of_nat (length a) ->
  (forall c, c ∈ js -> exists q img, place f c = Ret (q, img)) ->
  (exists s0, a !! Z.to_nat i = Some s0 /\ same_properties s s0 /\ s_body s0 = s_body s) ->
  exists a', replicate_copies rsqrt new_box nx ny nz old_size i f js j a = Ret a' /\ length a' = length a /\
    (forall k c, js !! k = Some c -> copied f s c (j + Z.of_nat k) (a' !! Z.to_nat ((j + Z.of_nat k) * old_size + i))) /\
    (forall x, (forall k, (k < length js)%nat -> x <> Z.to_nat ((j + Z.of_nat k) * old_size + i)) -> a' !! x = a !! x).
Proof.
  intros Hi Hb Hn. induction js as [|c js IH]; intros j a Hj Hl Ha Hp (s0 & H0 & Sp & Sb); simpl in *.
  { exists a. split_and!; auto. intros k c Hk. discriminate. }
  destruct (Hp c) as (q & img & Ep); [now left|]. unfold place in Ep. rewrite Ep. simpl.
  rewrite (zget_lookup _ _ _ s0) by assumption. rewrite Sb, Sp.
  assert (j * old_size + i < n * old_size) by nia. assert (0 <= j * old_size) by nia.
  rewrite (u32_small (j * old_size)), (u32_small (j * old_size + i)) by (unfold is_u32; lia).
  set (e := copy_ptl s q img _). rewrite write_in by lia. simpl. set (a1 := zset _ _ e).
  destruct (copy_body_fits n j old_size (s_body s) Hb) as [Eb Ec]; [lia..|].
  assert (Keep : exists s1, a1 !! Z.to_nat i = Some s1 /\ same_properties s s1 /\ s_body s1 = s_body s).
  { destruct (decide (j = 0)) as [->|Nj].
    - exists e. replace (0 * old_size + i) with i in a1 by lia. unfold a1. rewrite lookup_zset_eq by lia.
      split_and!; [reflexivity|intros ???; reflexivity|]. unfold e. cbn. rewrite Eb. case_decide; lia.
    - exists s0. unfold a1. rewrite lookup_zset_ne by nia. auto. }
  destruct Keep as (s1 & L1 & Sp1 & Sb1). rewrite (zget_lookup _ _ _ s1) by assumption. rewrite Sb1, Ec.
  destruct (IH (j + 1) a1) as (a' & Er & La & Hc & Hx); [lia|lia|unfold a1; rewrite length_zset; lia|intros; apply Hp; now right|eauto|].
  exists a'. split_and!; [exact Er|rewrite La; apply length_zset|..].
  - intros k c' Hk. destruct k as [|k]; simpl in Hk.
    + injection Hk as <-. exists q, img. split; [exact Ep|]. rewrite Z.add_0_r.
      rewrite Hx by (intros; nia). unfold a1. rewrite lookup_zset_eq by lia. unfold e. now rewrite Eb.
    + replace (j + Z.of_nat (S k)) with (j + 1 + Z.of_nat k) by lia. now apply Hc.
  - intros x Hk. rewrite Hx.
    + unfold a1. apply lookup_zset_ne. specialize (Hk 0%nat). rewrite Z.add_0_r in Hk. intros E. now apply Hk; [lia|].
    + intros k Lk. replace (j + 1 + Z.of_nat k) with (j + Z.of_nat (S k)) by lia. apply Hk. lia.
Qed.

Variable old_box : BoxDim.t.
Variable l0 : list snap_ptl.
Hypothesis Len : Z.of_nat (length l0) = old_size.

(** The fractional coordinates of the unwrapped position. *)
Definition unwrapped_fraction (s : snap_ptl) : Scalar3 :=
  BoxDim.makeFraction rsqrt old_box (BoxDim.shift old_box (s_pos s) (s_image s)) BoxDim.zero3.

Let n := Z.of_nat (length (copies nx ny nz)).
Hypothesis Room : n * old_size < 2 ^ 32.
Hypothesis Placed : forall s c, s ∈ l0 -> c ∈ copies nx ny nz -> exists q img, place (unwrapped_fraction s) c = Ret (q, img).
Hypothesis Bodies : forall s, s ∈ l0 -> body_fits n old_size (s_body s).

Lemma replicate_loop_spec : forall count i a, 0 <= i -> i + Z.of_nat count = old_size -> n * old_size <= Z.of_nat (length a) ->
  (forall x, i <= Z.of_nat x < old_size -> a !! x = l0 !! x) ->
  exists a', replicate_loop rsqrt new_box nx ny nz old_size old_box count i a = Ret a' /\ length a' = length a /\
    (forall i' s k c, i <= i' < old_size -> l0 !! Z.to_nat i' = Some s -> copies nx ny nz !! k = Some c ->
       copied (unwrapped_fraction s) s c (Z.of_nat k) (a' !! Z.to_nat (Z.of_nat k * old_size + i'))) /\
    (forall k i', 0 <= k -> 0 <= i' < i -> a' !! Z.to_nat (k * old_size + i') = a !! Z.to_nat (k * old_size + i')).
Proof.
  induction count as [|count IH]; intros i a Hi Hc Ha Hx; simpl.
  { exists a. split_and!; auto. intros i' s k c Hi'. lia. }
  destruct (lookup_lt_is_Some_2 l0 (Z.to_nat i)) as [s Hs]; [lia|]. pose proof (list_elem_of_lookup_2 _ _ _ Hs) as Is.
  assert (As : a !! Z.to_nat i = Some s) by (rewrite Hx by lia; assumption).
  rewrite (zget_lookup _ _ _ s) by assumption. fold (unwrapped_fraction s).
  destruct (replicate_copies_spec i (unwrapped_fraction s) s n) with (js := copies nx ny nz) (j := 0) (a := a)
    as (a1 & Er & La & Hk & Ho); [lia|now apply Bodies|assumption|lia|unfold n; lia|assumption|intros; now apply Placed|
    exists s; split_and!; [assumption|intros ???; reflexivity|reflexivity]|].
  rewrite Er. simpl.
  assert (Other : forall k i', 0 <= k -> 0 <= i' < old_size -> i' <> i -> a1 !! Z.to_nat (k * old_size + i') = a !! Z.to_nat (k * old_size + i')).
  { intros k i' K I' Ne. apply Ho. intros k' _ E. apply Ne. eapply (copy_row old_size k i' (0 + Z.of_nat k')); [..|exact E]; lia. }
  destruct (IH (i + 1) a1) as (a' & Er' & La' & Hk' & Ho'); [lia|lia|lia|..].
  { intros x Rx. specialize (Other 0 (Z.of_nat x)). rewrite Z.add_0_l, Nat2Z.id in Other. rewrite Other by lia. apply Hx. lia. }
  exists a'. split_and!; [exact Er'|lia|..].
  - intros i' s' k c Ri Hs' Hc'. destruct (decide (i' = i)) as [->|Ne]; [|apply Hk'; auto; lia].
    rewrite Ho' by lia. rewrite Hs in Hs'. injection Hs' as <-. apply (Hk k c Hc').
  - intros k i' K Ri. rewrite Ho' by lia. apply Other; lia.
Qed.

End loops.

(** * Replicated groups *)

Section groups.
Context {Group : Type} {GT : GroupType Group}.

(** The group at a position of a snapshot. *)
Definition snap_entry (s : group_snapshot) (x : nat) : option (typeval_t * list Z) :=
  match gs_groups s !! x, (if has_type_mapping then tv_type <$> gs_type_id s !! x else tv_val <$> gs_val s !! x) with
  | Some m, Some t => Some (t, m)
  | _, _ => None
  end.

(** Arrays of [n] groups. *)
Definition snap_sized (s : group_snapshot) (n : nat) : Prop :=
  length (gs_groups s) = n /\ (if has_type_mapping then length (gs_type_id s) = n else length (gs_val s) = n).

Lemma snap_entry_some s n x : snap_sized s n -> (x < n)%nat -> exists e, snap_entry s x = Some e.
Proof.
  intros [Lg Lt] Hx. unfold snap_entry. destruct (lookup_lt_is_Some_2 (gs_groups s) x) as [m ->]; [lia|]. destruct has_type_mapping.
  - destruct (lookup_lt_is_Some_2 (gs_type_id s) x) as [t ->]; [lia|]. simpl. eauto.
  - destruct (lookup_lt_is_Some_2 (gs_val s) x) as [t ->]; [lia|]. simpl. eauto.
Qed.

Lemma write_snap_entry s n k m t x : snap_sized s n -> 0 <= k < Z.of_nat n -> is_type t = has_type_mapping ->
  snap_sized (write_snap k m t s) n /\ snap_entry (write_snap k m t s) x = (if decide (x = Z.to_nat k) then Some (t, m) else snap_entry s x).
Proof.
  intros [Lg Lt] Hk Ht. unfold snap_sized, snap_entry, write_snap. cbn [gs_groups gs_type_id gs_val].
  destruct has_type_mapping, t; try discriminate; rewrite !length_zset; split; auto; case_decide as E; subst;
    rewrite ?lookup_zset_eq by lia; simpl; rewrite ?lookup_zset_ne by congruence; reflexivity.
Qed.

Variables old_n old_size n : Z.
Hypothesis Old : 0 < old_size.
Hypothesis RoomG : n * old_size < 2 ^ 32.
Hypothesis RoomP : n * old_n < 2 ^ 32.
Hypothesis Particles : 0 <= old_n.

Definition moved_members (j : Z) (g : list Z) : list Z := (fun t => t + old_n * j) <$> g.

Lemma moved_u32 j g : 0 <= j < n -> Forall (fun t => 0 <= t < old_n) g -> ((fun t => u32 (t + u32 (old_n * j))) <$> g) = moved_members j g.
Proof.
  intros Hj F. apply Forall_fmap_ext_1. eapply Forall_impl; [exact F|]. intros t Ht. simpl in *.
  assert (old_n * j + old_n <= n * old_n) by nia. assert (0 <= old_n * j) by nia. rewrite (u32_small (old_n * j)) by (unfold is_u32; lia).
  apply u32_small. unfold is_u32. lia.
Qed.

Lemma moved_zero g : moved_members 0 g = g.
Proof. unfold moved_members. rewrite <- (list_fmap_id g) at 2. apply list_fmap_ext. intros _ t _. simpl. lia. Qed.

Lemma read_entry s i t g : snap_entry s (Z.to_nat i) = Some (t, g) ->
  zget [] (gs_groups s) i = g /\ (if has_type_mapping then tv_type (zget 0 (gs_type_id s) i) else tv_val (zget 0%Q (gs_val s) i)) = t /\
  is_type t = has_type_mapping.
Proof.
  unfold snap_entry. destruct (gs_groups s !! _) as [m|] eqn:Eg; [|discriminate].
  destruct has_type_mapping.
  - destruct (gs_type_id s !! _) as [y|] eqn:Et; [|discriminate]. intros [= <- <-]. now rewrite (zget_lookup _ _ _ m), (zget_lookup _ _ _ y) by assumption.
  - destruct (gs_val s !! _) as [y|] eqn:Et; [|discriminate]. intros [= <- <-]. now rewrite (zget_lookup _ _ _ m), (zget_lookup _ _ _ y) by assumption.
Qed.

Lemma replicate_writes i t g N : 0 <= i < old_size -> Forall (fun t => 0 <= t < old_n) g -> n * old_size <= Z.of_nat N ->
  forall m j s, 0 <= j -> j + Z.of_nat m <= n -> snap_sized s N -> snap_entry s (Z.to_nat i) = Some (t, g) ->
  let s' := fold_left (replicate_write old_n old_size i g) (seqZ j (Z.of_nat m)) s in
  snap_sized s' N /\ gs_type_mapping s' = gs_type_mapping s /\ gs_size s' = gs_size s /\
  (forall k, j <= k < j + Z.of_nat m -> snap_entry s' (Z.to_nat (k * old_size + i)) = Some (t, moved_members k g)) /\
  (forall x, (forall k, j <= k < j + Z.of_nat m -> x <> Z.to_nat (k * old_size + i)) -> snap_entry s' x = snap_entry s x).
Proof.
  intros Hi Hg HN. induction m as [|m IH]; intros j s Hj Hm Sz E; cbn zeta.
  { simpl. split_and!; auto. intros k Hk. lia. }
  rewrite seqZ_cons by lia. replace (Z.pred (Z.of_nat (S m))) with (Z.of_nat m) by lia. rewrite <- Z.add_1_r. simpl.
  destruct (read_entry s i t g E) as (_ & Et & It). assert (j * old_size + i < n * old_size) by nia. assert (0 <= j * old_size) by nia.
  assert (Ew : replicate_write old_n old_size i g s j = write_snap (j * old_size + i) (moved_members j g) t s).
  { unfold replicate_write. rewrite Et, moved_u32 by (auto; lia). rewrite (u32_small (old_size * j)) by (unfold is_u32; lia).
    replace (old_size * j + i) with (j * old_size + i) by lia. now rewrite (u32_small (j * old_size + i)) by (unfold is_u32; lia). }
  rewrite Ew. set (s1 := write_snap _ _ t s). pose proof (fun x => write_snap_entry s N (j * old_size + i) (moved_members j g) t x Sz) as Wr.
  destruct (Wr 0%nat) as [Sz1 _]; [lia|assumption|]. fold s1 in Sz1.
  destruct (IH (j + 1) s1) as (Sz' & Tm & Gs & In & Out); [lia|lia|assumption|..].
  { unfold s1. destruct (Wr (Z.to_nat i)) as [_ ->]; [lia|assumption|]. case_decide as D; [|assumption].
    assert (j = 0) as -> by nia. now rewrite moved_zero. }
  split_and!; [assumption|assumption|assumption|..].
  - intros k Hk. destruct (decide (k = j)) as [->|Ne]; [|apply In; lia].
    rewrite Out by (intros; nia). unfold s1. destruct (Wr (Z.to_nat (j * old_size + i))) as [_ ->]; [lia|assumption|]. now rewrite decide_True.
  - intros x Hx. rewrite Out by (intros; apply Hx; lia). unfold s1. destruct (Wr x) as [_ ->]; [lia|assumption|].
    rewrite decide_False; [reflexivity|]. apply Hx. lia.
Qed.

Variable s0 : group_snapshot.
Hypothesis Members : forall x t g, snap_entry s0 x = Some (t, g) -> Forall (fun t => 0 <= t < old_n) g.
Hypothesis Copies : 0 <= n.

Lemma replicate_groups_loop N : n * old_size <= Z.of_nat N -> snap_sized s0 (Z.to_nat old_size) ->
  forall count i s, 0 <= i -> i + Z.of_nat count = old_size -> snap_sized s N ->
  (forall x, i <= Z.of_nat x < old_size -> snap_entry s x = snap_entry s0 x) ->
  let s' := fold_left (replicate_group n old_n old_size) (seqZ i (Z.of_nat count)) s in
  snap_sized s' N /\ gs_type_mapping s' = gs_type_mapping s /\ gs_size s' = gs_size s /\
  (forall i' k t g, i <= i' < old_size -> 0 <= k < n -> snap_entry s0 (Z.to_nat i') = Some (t, g) ->
     snap_entry s' (Z.to_nat (k * old_size + i')) = Some (t, moved_members k g)) /\
  (forall i' k, 0 <= i' < i -> 0 <= k -> snap_entry s' (Z.to_nat (k * old_size + i')) = snap_entry s (Z.to_nat (k * old_size + i'))).
Proof.
  intros HN Sz0. induction count as [|count IH]; intros i s Hi Hc Sz Hx; cbn zeta.
  { simpl. split_and!; auto. intros i' k t g Hi'. lia. }
  rewrite seqZ_cons by lia. replace (Z.pred (Z.of_nat (S count))) with (Z.of_nat count) by lia. rewrite <- Z.add_1_r. simpl.
  destruct (snap_entry_some s0 _ (Z.to_nat i) Sz0) as [[t g] E0]; [lia|].
  assert (Ei : snap_entry s (Z.to_nat i) = Some (t, g)) by (rewrite Hx by lia; assumption).
  destruct (read_entry s i t g Ei) as (Eg & _ & _).
  destruct (replicate_writes i t g N) with (m := Z.to_nat n) (j := 0) (s := s) as (Sz1 & Tm1 & Gs1 & In1 & Out1);
    [lia|eapply Members; exact E0|lia..|assumption|assumption|].
  rewrite Z2Nat.id in * by lia. unfold replicate_group at 2 4 6 8 10. rewrite Eg. set (s1 := fold_left (replicate_write _ _ _ _) _ _) in *.
  assert (Other : forall i' k, 0 <= k -> 0 <= i' < old_size -> i' <> i ->
    snap_entry s1 (Z.to_nat (k * old_size + i')) = snap_entry s (Z.to_nat (k * old_size + i'))).
  { intros i' k Hk Hi' Ne. apply Out1. intros k' Hk' E. apply Ne. eapply (copy_row old_size k i' k' i); [..|exact E]; lia. }
  destruct (IH (i + 1) s1) as (Sz' & Tm & Gs & In & Out); [lia|lia|assumption|..].
  { intros x Rx. specialize (Other (Z.of_nat x) 0). rewrite Z.add_0_l, Nat2Z.id in Other. rewrite Other by lia. apply Hx. lia. }
  split_and!; [assumption|congruence|congruence|..].
  - intros i' k t' g' Ri Hk E. destruct (decide (i' = i)) as [->|Ne]; [|apply In; auto; lia].
    rewrite Out by lia. rewrite E0 in E. injection E as <- <-. apply In1. lia.
  - intros i' k Ri Hk. rewrite Out by lia. apply Other; lia.
Qed.

End groups.

(** The members of every group are particles below [old_n]. *)
Definition members_below {Group} {GT : GroupType Group} (old_n : Z) (s : group_snapshot) : Prop :=
  forall x t g, snap_entry s x = Some (t, g) -> Forall (fun t => 0 <= t < old_n) g.

Lemma snap_resize_entry {Group} {GT : GroupType Group} s n : snap_sized s (Z.to_nat (gs_size s)) -> gs_size s <= n ->
  snap_sized (snap_resize n s) (Z.to_nat n) /\ forall x, (x < Z.to_nat (gs_size s))%nat -> snap_entry (snap_resize n s) x = snap_entry s x.
Proof.
  intros [Lg Lt] Hn. unfold snap_sized, snap_entry, snap_resize. cbn [gs_groups gs_type_id gs_val].
  destruct has_type_mapping; rewrite !length_array_resize; (split; [auto|]); intros x Hx;
    rewrite !array_resize_grow by lia; rewrite !lookup_app_l by lia; reflexivity.
Qed.

(** Group [i] of copy [k] joins the particles of copy [k]. *)
Lemma snap_replicate_spec {Group} {GT : GroupType Group} (n old_n : Z) (s : group_snapshot) :
  0 <= gs_size s -> snap_sized s (Z.to_nat (gs_size s)) -> members_below old_n s -> 0 < n -> 0 <= old_n ->
  n * gs_size s < 2 ^ 32 -> n * old_n < 2 ^ 32 ->
  let s' := snap_replicate n old_n s in
  snap_sized s' (Z.to_nat (n * gs_size s)) /\ gs_size s' = n * gs_size s /\ gs_type_mapping s' = gs_type_mapping s /\
  forall i k t g, 0 <= i < gs_size s -> 0 <= k < n -> snap_entry s (Z.to_nat i) = Some (t, g) ->
    snap_entry s' (Z.to_nat (k * gs_size s + i)) = Some (t, moved_members old_n k g).
Proof.
  intros Hs Sz Mem Hn Ho Rg Rp. cbn zeta. unfold snap_replicate. rewrite (u32_small (n * gs_size s)) by (unfold is_u32; nia).
  destruct (snap_resize_entry s (n * gs_size s) Sz) as [Szr Er]; [nia|]. destruct (decide (gs_size s = 0)) as [E|Ne].
  - rewrite E in *. simpl. rewrite Z.mul_0_r in *. split_and!; auto. intros; lia.
  - destruct (replicate_groups_loop old_n (gs_size s) n) with (s0 := s) (N := Z.to_nat (n * gs_size s)) (count := Z.to_nat (gs_size s)) (i := 0)
      (s := snap_resize (n * gs_size s) s) as (Sz' & Tm & Gs & In & _); auto; try lia; [intros; apply Er; lia|].
    rewrite Z2Nat.id in * by lia. split_and!; auto.
Qed.

(** * Replication of a system *)

(** The six kinds of groups, in a snapshot and in the system. *)
Definition all_kinds (P : forall Group, GroupType Group -> (system_snapshot -> group_snapshot) -> (system -> gdata) -> Prop) : Prop :=
  P Bond Bond_group ss_bond_data m_bond_data /\ P Angle Angle_group ss_angle_data m_angle_data /\
  P Dihedral Dihedral_group ss_dihedral_data m_dihedral_data /\ P Dihedral Dihedral_group ss_improper_data m_improper_data /\
  P Constraint Constraint_group ss_constraint_data m_constraint_data /\ P Bond Bond_group ss_pair_data m_pair_data.

Definition all_groups (P : forall Group, GroupType Group -> (system_snapshot -> group_snapshot) -> Prop) : Prop :=
  all_kinds (fun Group GT get _ => P Group GT get).

(** Particles few images away, with body tags and sizes that fit 32 bits. *)
Record replicable (rsqrt : Scalar -> Scalar) (nx ny nz : Z) (s : system_snapshot) : Prop := {
  rp_copies : 0 < nx /\ 0 < ny /\ 0 < nz;
  rp_box : BoxDim.wf (ss_global_box s) /\ BoxDim.centred (ss_global_box s);
  rp_size : nx * ny * nz * Z.of_nat (length (sn_ptl (ss_particle_data s))) < 2 ^ 32 /\ nx * ny * nz < 2 ^ 32;
  rp_few : forall p, p ∈ sn_ptl (ss_particle_data s) ->
    few_images rsqrt (ss_global_box s) (BoxDim.shift (ss_global_box s) (s_pos p) (s_image p));
  rp_body : forall p, p ∈ sn_ptl (ss_particle_data s) ->
    body_fits (nx * ny * nz) (Z.of_nat (length (sn_ptl (ss_particle_data s)))) (s_body p)
}.

(** The groups of the snapshot are consistent and fit 32 bits. *)
Definition replicable_groups (n : Z) (s : system_snapshot) : Prop :=
  all_groups (fun Group _ get => 0 <= gs_size (get s) /\ snap_sized (get s) (Z.to_nat (gs_size (get s))) /\
    members_below (Z.of_nat (length (sn_ptl (ss_particle_data s)))) (get s) /\ n * gs_size (get s) < 2 ^ 32).

(** The product of the sizes does not wrap, nor does any of its factors. *)
Lemma replicated_size N nx ny nz : 0 <= N -> 0 < nx -> 0 < ny -> 0 < nz -> nx * ny * nz * N < 2 ^ 32 ->
  u32 (u32 (u32 (N * nx) * ny) * nz) = nx * ny * nz * N.
Proof.
  intros. assert (P1 : 0 <= N * nx) by nia. assert (P2 : 0 <= N * nx * ny) by nia.
  assert (Q1 : N * nx <= N * nx * ny) by nia. assert (Q2 : N * nx * ny <= N * nx * ny * nz) by nia.
  assert (E : nx * ny * nz * N = N * nx * ny * nz) by ring. rewrite E in *.
  rewrite (u32_small (N * nx)), (u32_small (N * nx * ny)), u32_small by (unfold is_u32; lia). reflexivity.
Qed.

Lemma placed_copies rsqrt nx ny nz s p c : replicable rsqrt nx ny nz s -> p ∈ sn_ptl (ss_particle_data s) -> is_copy nx ny nz c ->
  let b := ss_global_box s in let b' := scaled_box nx ny nz b in exists q img,
  place_copy rsqrt b' (BoxDim.makeCoordinates b' (copy_fraction nx ny nz (unwrapped_fraction rsqrt b p) c)) = Ret (q, img) /\
  BoxDim.shift b' q img =3= s3_add (BoxDim.shift b (s_pos p) (s_image p)) (copy_translation nx ny nz b c) /\ BoxDim.inside b' q.
Proof. intros [(Px & Py & Pz) (W & C) _ Few _] Hp Hc. now apply place_copy_spec; [..|apply Few|]. Qed.

Lemma replicate_particles_spec rsqrt nx ny nz s : replicable rsqrt nx ny nz s ->
  let b := ss_global_box s in let b' := scaled_box nx ny nz b in
  let l := sn_ptl (ss_particle_data s) in let N := Z.of_nat (length l) in
  exists l', replicate_particles rsqrt b' nx ny nz b (ss_particle_data s) = Ret (mkSnapshot l' (sn_type_mapping (ss_particle_data s)) false) /\
    Z.of_nat (length l') = nx * ny * nz * N /\
    forall i c p, l !! i = Some p -> is_copy nx ny nz c -> exists p',
      l' !! Z.to_nat (copy_index ny nz c * N + Z.of_nat i) = Some p' /\
      BoxDim.shift b' (s_pos p') (s_image p') =3= s3_add (BoxDim.shift b (s_pos p) (s_image p)) (copy_translation nx ny nz b c) /\
      BoxDim.inside b' (s_pos p') /\ same_properties p p' /\
      s_body p' = (if decide (s_body p = NO_BODY) then NO_BODY else copy_index ny nz c * N + s_body p).
Proof.
  intros Rp. pose proof Rp as [(Px & Py & Pz) _ (R1 & R2) _ Body]. cbn zeta. set (l := sn_ptl _) in *. set (N := Z.of_nat (length l)) in *.
  set (b := ss_global_box s). set (b' := scaled_box nx ny nz b). unfold replicate_particles. fold l N. cbn zeta.
  rewrite replicated_size by (assumption || lia). unfold resize_particles. cbn [sn_ptl sn_type_mapping sn_is_accel_set]. fold l.
  assert (P2 : 0 < nx * ny * nz) by (apply Z.mul_pos_pos; nia).
  pose proof (length_array_resize default_snap (nx * ny * nz * N) l) as Lr. rewrite array_resize_grow in * by (unfold N; nia).
  set (a := l ++ _) in *. pose proof (length_copies nx ny nz Px Py Pz) as Lc. pose proof (fun p c => placed_copies rsqrt nx ny nz s p c Rp) as Placed.
  destruct (decide (N = 0)) as [E0|Ne].
  { exists a. rewrite E0 in *. simpl. split_and!; [reflexivity|lia|]. intros i c p Hi. apply lookup_lt_Some in Hi. lia. }
  destruct (replicate_loop_spec rsqrt b' nx ny nz N) with (old_box := b) (l0 := l) (count := Z.to_nat N) (i := 0) (a := a)
    as (l' & Er & Ll & Hk & _); [lia|reflexivity|rewrite Lc; lia| | |lia|lia|rewrite Lc; lia| |].
  { intros p c Hp Hc. apply copies_are_copies in Hc; [|assumption..]. destruct (Placed p c Hp Hc) as (q & img & E & _). eauto. }
  { intros p Hp. rewrite Lc. now apply Body. }
  { intros x Hx. unfold a. apply lookup_app_l. lia. }
  rewrite Er. exists l'. split_and!; [reflexivity|lia|]. intros i c p Hi Hc. pose proof (copies_lookup nx ny nz Px Py Pz c Hc) as Lk.
  assert (I0 : 0 <= copy_index ny nz c) by (destruct c as [[? ?] ?]; simpl in *; nia). pose proof (lookup_lt_Some _ _ _ Hi) as Hlt.
  destruct (Hk (Z.of_nat i) p (Z.to_nat (copy_index ny nz c)) c) as (q & img & Ep & El); [lia|now rewrite Nat2Z.id|assumption|].
  rewrite Z2Nat.id in El by assumption.
  destruct (Placed p c (list_elem_of_lookup_2 _ _ _ Hi) Hc) as (q' & img' & Ep' & Sh & In).
  assert (E : Ret (q, img) = Ret (q', img')) by (rewrite <- Ep; exact Ep'). injection E as <- <-.
  eexists. split; [exact El|]. split_and!; [exact Sh|exact In|intros ???; reflexivity|reflexivity].
Qed.

(** C27. Replicating a system gives the larger box, filled with translated copies:
    the copy [(l, m, n)] of particle [i] stands at position
    [((l * ny + m) * nz + n) * N + i] of the new snapshot, inside the new box,
    its unwrapped position is the old one displaced by a vector that depends only
    on the copy, and it keeps every other property; its body tag is moved to the
    copy. Each copy of a bonded group joins the same copy of its particles, with
    the same type or value. No access leaves an array. *)
Theorem replicate_tiles (rsqrt : Scalar -> Scalar) (nx ny nz : Z) (s : system_snapshot)
  (R : replicable rsqrt nx ny nz s) (G : replicable_groups (nx * ny * nz) s) :
  let b := ss_global_box s in let l := sn_ptl (ss_particle_data s) in let N := Z.of_nat (length l) in let n := nx * ny * nz in
  exists s', system_replicate rsqrt nx ny nz s = Ret s' /\ let b' := ss_global_box s' in let l' := sn_ptl (ss_particle_data s') in
    BoxDim.wf b' /\ (BoxDim.getVolume b' false == inject_Z n * BoxDim.getVolume b false)%Q /\ Z.of_nat (length l') = n * N /\
    (forall i c p, l !! i = Some p -> is_copy nx ny nz c -> exists p',
      l' !! Z.to_nat (copy_index ny nz c * N + Z.of_nat i) = Some p' /\
      BoxDim.shift b' (s_pos p') (s_image p') =3= s3_add (BoxDim.shift b (s_pos p) (s_image p)) (copy_translation nx ny nz b c) /\
      BoxDim.inside b' (s_pos p') /\ same_properties p p' /\
      s_body p' = (if decide (s_body p = NO_BODY) then NO_BODY else copy_index ny nz c * N + s_body p)) /\
    all_groups (fun _ _ get => gs_size (get s') = n * gs_size (get s) /\ gs_type_mapping (get s') = gs_type_mapping (get s) /\
      forall i k t g, 0 <= i < gs_size (get s) -> 0 <= k < n -> snap_entry (get s) (Z.to_nat i) = Some (t, g) ->
        snap_entry (get s') (Z.to_nat (k * gs_size (get s) + i)) = Some (t, (fun x => k * N + x) <$> g)).
Proof.
  cbn zeta. destruct (replicate_particles_spec rsqrt nx ny nz s R) as (l' & E & Ll & Hl). pose proof R as [(Px & Py & Pz) (W & C) (R1 & R2) _ _].
  assert (P1 : 0 < nx * ny) by nia. assert (P2 : 0 < nx * ny * nz) by nia.
  assert (U : u32 (u32 (nx * ny) * nz) = nx * ny * nz) by (rewrite (u32_small (nx * ny)), u32_small by (unfold is_u32; nia); reflexivity).
  unfold system_replicate. cbn zeta in *. rewrite E. eexists. split; [reflexivity|]. rewrite U.
  assert (Gs : forall Group (GT : GroupType Group) get, (0 <= gs_size (get s) /\ snap_sized (get s) (Z.to_nat (gs_size (get s))) /\
    members_below (Z.of_nat (length (sn_ptl (ss_particle_data s)))) (get s) /\ nx * ny * nz * gs_size (get s) < 2 ^ 32) ->
    let q := snap_replicate (nx * ny * nz) (Z.of_nat (length (sn_ptl (ss_particle_data s)))) (get s) in
    gs_size q = nx * ny * nz * gs_size (get s) /\ gs_type_mapping q = gs_type_mapping (get s) /\
      forall i k t g, 0 <= i < gs_size (get s) -> 0 <= k < nx * ny * nz -> snap_entry (get s) (Z.to_nat i) = Some (t, g) ->
        snap_entry q (Z.to_nat (k * gs_size (get s) + i)) = Some (t, (fun x => k * Z.of_nat (length (sn_ptl (ss_particle_data s))) + x) <$> g)).
  { intros Group GT get (H1 & H2 & H3 & H4). cbn zeta. destruct (snap_replicate_spec (nx * ny * nz) _ (get s) H1 H2 H3) as (_ & Sz & Tm & En); [lia..|].
    split_and!; [exact Sz|exact Tm|]. intros i k t g Hi Hk He. rewrite (En i k t g Hi Hk He). do 2 f_equal.
    unfold moved_members. apply list_fmap_ext. intros _ x _. lia. }
  destruct G as (G1 & G2 & G3 & G4 & G5 & G6). split_and!.
  - now apply scaled_wf.
  - unfold BoxDim.getVolume. cbn. rewrite !inject_Z_mult. ring.
  - exact Ll.
  - exact Hl.
  - split_and!; now apply Gs.
Qed.

(** Two bonded particles, one of them across the boundary, in a tilted box. *)
Definition dimer : system_snapshot :=
  mkSystemSnapshot 3 example_box
    (mkSnapshot [mkSnap (make_scalar3 1 2 (-1)) BoxDim.zero3 BoxDim.zero3 0 1 0 1 (make_int3 0 0 0) NO_BODY zero4 zero4 BoxDim.zero3;
                 mkSnap (make_scalar3 (-2) 3 1) BoxDim.zero3 BoxDim.zero3 1 2 0 1 (make_int3 1 0 (-1)) 0 zero4 zero4 BoxDim.zero3]
       ["A"; "B"]%string false)
    (mkGroupSnapshot [0] [] [[0; 1]] ["bond"]%string 1) (mkGroupSnapshot [] [] [] [] 0) (mkGroupSnapshot [] [] [] [] 0)
    (mkGroupSnapshot [] [] [] [] 0) (mkGroupSnapshot [] [] [] [] 0) (mkGroupSnapshot [] [] [] [] 0).

Lemma dimer_replicable : replicable (fun x => x) 2 1 3 dimer.
Proof.
  constructor; [lia|split; [now apply make_array_wf|repeat split]|vm_compute; split; reflexivity|..];
    intros p Hp; repeat (apply elem_of_cons in Hp as [->|Hp]; [|]); try now apply elem_of_nil in Hp.
  1, 2: vm_compute; repeat split; reflexivity.
  - now left.
  - right. left. vm_compute. split; [discriminate|reflexivity].
Qed.

Lemma dimer_groups : replicable_groups 6 dimer.
Proof.
  unfold replicable_groups, all_groups, all_kinds. split_and!; simpl; try lia; try (now repeat split); intros x t g; unfold snap_entry; simpl;
    repeat (destruct x as [|x]; simpl; try discriminate).
  intros [= <- <-]. repeat constructor; lia.
Qed.

Lemma replicate_tiles_witness : exists s', system_replicate (fun x => x) 2 1 3 dimer = Ret s' /\
  snap_entry (Group := Bond) (ss_bond_data s') 4 = Some (tv_type 0, [8; 9]).
Proof.
  destruct (replicate_tiles (fun x => x) 2 1 3 dimer dimer_replicable dimer_groups) as (s' & E & _ & _ & _ & _ & (_ & _ & B) & _).
  exists s'. split; [exact E|]. exact (B 0 4 (tv_type 0) [0; 1] ltac:(simpl; lia) ltac:(lia) eq_refl).
Defined.

(** * Wrapping a snapshot *)

Lemma floor_plus (q : Scalar) (z : Z) : Qfloor (q + inject_Z z) = Qfloor q + z.
Proof.
  pose proof (Qfloor_le q). pose proof (Qlt_floor q). pose proof (Qfloor_le (q + inject_Z z)). pose proof (Qlt_floor (q + inject_Z z)).
  rewrite inject_Z_plus in *. change (inject_Z 1) with 1%Q in *.
  assert (inject_Z (Qfloor (q + inject_Z z)) < inject_Z (Qfloor q + z + 1))%Q by (rewrite !inject_Z_plus; change (inject_Z 1) with 1%Q; lra).
  assert (inject_Z (Qfloor q + z) < inject_Z (Qfloor (q + inject_Z z) + 1))%Q by (rewrite !inject_Z_plus; change (inject_Z 1) with 1%Q; lra).
  rewrite <- Zlt_Qlt in *. lia.
Qed.

Lemma floor_part q : (0 <= q - inject_Z (Qfloor q) < 1)%Q.
Proof. pose proof (Qfloor_le q). pose proof (Qlt_floor q) as F. rewrite inject_Z_plus in F. change (inject_Z 1) with 1%Q in F. lra. Qed.

(** [fmod] truncates towards zero; the second one sees a positive number. *)
Lemma modulus_positive_floor x : (modulus_positive x == x - inject_Z (Qfloor x))%Q.
Proof.
  unfold modulus_positive. assert (P : (0 <= fmod1 x + 1)%Q).
  { unfold fmod1, Qtrunc. destruct (Qle_bool 0 x).
    - pose proof (Qfloor_le x). lra.
    - pose proof (Qlt_floor (- x)) as F. rewrite inject_Z_plus in F. change (inject_Z 1) with 1%Q in F. rewrite inject_Z_opp. lra. }
  unfold fmod1 at 1. unfold Qtrunc. apply Qle_bool_iff in P. rewrite P.
  assert (E : (fmod1 x + 1 == x + inject_Z (1 - Qtrunc x))%Q).
  { unfold fmod1, Z.sub. rewrite inject_Z_plus, inject_Z_opp. change (inject_Z 1) with 1%Q. ring. }
  rewrite E at 2. rewrite floor_plus. unfold fmod1, Z.sub. rewrite !inject_Z_plus, inject_Z_opp. change (inject_Z 1) with 1%Q. ring.
Qed.

Lemma floor_int_some x : (Qabs x < inject_Z (2 ^ 29))%Q -> floor_int x = Some (Qfloor x).
Proof.
  intros H. apply Qabs_Qlt_condition in H as [H1 H2]. pose proof (Qfloor_le x). pose proof (Qlt_floor x) as F.
  rewrite inject_Z_plus in F. change (inject_Z 1) with 1%Q in F. change (inject_Z (2 ^ 29)) with (536870912 # 1) in *.
  assert (A : - 2 ^ 31 <= Qfloor x < 2 ^ 31).
  { split; [apply Z.lt_le_incl|]; rewrite Zlt_Qlt; change (inject_Z (2 ^ 31)) with (2147483648 # 1); change (inject_Z (- 2 ^ 31)) with (-2147483648 # 1); lra. }
  unfold floor_int, to_int. assert (Qtrunc (inject_Z (Qfloor x)) = Qfloor x) as ->.
  { unfold Qtrunc. destruct (Qle_bool _ _); rewrite <- ?inject_Z_opp, Qfloor_Z; lia. }
  destruct (Z.leb_spec (- 2 ^ 31) (Qfloor x)); [|lia]. destruct (Z.ltb_spec (Qfloor x) (2 ^ 31)); [reflexivity|lia].
Qed.

(** The wrapped particle [p'] is [p], seen from the primary cell. *)
Definition wrapped_to (b : BoxDim.t) (p p' : snap_ptl) : Prop :=
  BoxDim.shift b (s_pos p') (s_image p') =3= BoxDim.shift b (s_pos p) (s_image p) /\ BoxDim.inside b (s_pos p') /\
  same_properties p p' /\ s_body p' = s_body p.

Section wrap_snapshot.
Variable rsqrt : Scalar -> Scalar.
Variable b : BoxDim.t.
Hypothesis W : BoxDim.wf b.
Hypothesis C : BoxDim.centred b.

Lemma wrap_particle_spec p : few_images rsqrt b (s_pos p) -> exists p', wrap_particle rsqrt b p = Ret p' /\ wrapped_to b p p'.
Proof.
  intros (Fx & Fy & Fz). unfold wrap_particle. pose proof (makeCoordinates_makeFraction rsqrt b W (s_pos p)) as E.
  rewrite makeCoordinates_components in E. set (f := BoxDim.makeFraction rsqrt b (s_pos p) BoxDim.zero3) in *.
  rewrite !floor_int_some by assumption. eexists. split; [reflexivity|]. set (w := make_scalar3 _ _ _).
  pose proof (modulus_positive_floor (s3x f) : (s3x w == _)%Q) as Wx. pose proof (modulus_positive_floor (s3y f) : (s3y w == _)%Q) as Wy.
  pose proof (modulus_positive_floor (s3z f) : (s3z w == _)%Q) as Wz. clearbody w f.
  pose proof (makeFraction_makeCoordinates rsqrt b W w) as (Gx & Gy & Gz). rewrite Wx in Gx. rewrite Wy in Gy. rewrite Wz in Gz. unfold wrapped_to. cbn [s_pos s_image s_body copy_ptl].
  split_and!; [|apply (fraction_inside rsqrt b W); [assumption|..]; intros _|intros ???; reflexivity|reflexivity].
  - destruct E as (Ex & Ey & Ez).
    destruct (makeCoordinates_components b w) as (Cx & Cy & Cz).
    destruct (shift_components b (BoxDim.makeCoordinates b w) (i3_add (s_image p) (make_int3 (Qfloor (s3x f)) (Qfloor (s3y f)) (Qfloor (s3z f))))) as (Sx & Sy & Sz).
    destruct (shift_components b (s_pos p) (s_image p)) as (Tx & Ty & Tz). cbn [i3_add i3x i3y i3z s3x s3y s3z] in *.
    rewrite !inject_Z_plus in *.
    split_and!; [rewrite Sx, Tx, Cx, <- Ex|rewrite Sy, Ty, Cy, <- Ey|rewrite Sz, Tz, Cz, <- Ez]; rewrite ?Wx, ?Wy, ?Wz; ring.
  - rewrite Gx. apply floor_part.
  - rewrite Gy. apply floor_part.
  - rewrite Gz. apply floor_part.
Qed.

Lemma wrap_particles_spec l : (forall p, p ∈ l -> few_images rsqrt b (s_pos p)) ->
  exists l', wrap_particles rsqrt b l = Ret l' /\ Forall2 (wrapped_to b) l l'.
Proof.
  induction l as [|p l IH]; intros F; simpl; [now exists []|].
  destruct (wrap_particle_spec p) as (p' & -> & Hp); [apply F; now left|]. destruct IH as (l' & -> & Hl); [intros; apply F; now right|].
  exists (p' :: l'). split; [reflexivity|now constructor].
Qed.

End wrap_snapshot.

(** Wrapping a snapshot moves every particle into the box, from any number of
    images away, and adjusts its image flags so that the unwrapped position stays
    the same; nothing else changes. *)
Theorem wrap_keeps_unwrapped (rsqrt : Scalar -> Scalar) (s : system_snapshot)
  (W : BoxDim.wf (ss_global_box s)) (C : BoxDim.centred (ss_global_box s))
  (F : forall p, p ∈ sn_ptl (ss_particle_data s) -> few_images rsqrt (ss_global_box s) (s_pos p)) :
  exists l, let sn := ss_particle_data s in
    system_wrap rsqrt s = Ret (mkSystemSnapshot (ss_dimensions s) (ss_global_box s)
      (mkSnapshot l (sn_type_mapping sn) (sn_is_accel_set sn)) (ss_bond_data s) (ss_angle_data s) (ss_dihedral_data s)
      (ss_improper_data s) (ss_constraint_data s) (ss_pair_data s)) /\
    Forall2 (wrapped_to (ss_global_box s)) (sn_ptl sn) l.
Proof.
  destruct (wrap_particles_spec rsqrt _ W C _ F) as (l & E & H). exists l. cbn zeta. unfold system_wrap. cbn zeta. rewrite E. auto.
Qed.

Lemma wrap_keeps_unwrapped_witness : exists s', system_wrap (fun x => x) dimer = Ret s'.
Proof.
  destruct (wrap_keeps_unwrapped (fun x => x) dimer) as (l & E & _).
  - now apply make_array_wf.
  - repeat split.
  - intros p Hp. repeat (apply elem_of_cons in Hp as [->|Hp]; [vm_compute; repeat split; reflexivity|]). now apply elem_of_nil in Hp.
  - eexists. exact E.
Defined.

(** * Loading a system *)

Lemma pd_resize_signals n p : exists s, m_signals (pd_resize n p) = m_signals p ++ s.
Proof.
  unfold pd_resize. destruct (n =? 0); cbn zeta.
  - destruct (negb _); [exists [max_particle_num_signal]; reflexivity|exists []; now rewrite app_nil_r].
  - set (p1 := if negb _ then _ else _). assert (exists s, m_signals p1 = m_signals p ++ s) as [s E].
    { unfold p1. destruct (negb _); [exists [max_particle_num_signal]; reflexivity|exists []; now rewrite app_nil_r]. }
    clearbody p1. destruct (_ >? _); [|exists s; exact E]. exists (s ++ [max_particle_num_signal]). rewrite app_assoc, <- E.
    unfold pd_reallocate. destruct (negb _); reflexivity.
Qed.

(** The particle data reports a reordering at the end of every load. *)
Lemma load_signals sn ib p : exists s, m_signals (ParticleData.initializeFromSnapshot sn ib p).1 = m_signals p ++ s ++ [sort_signal].
Proof.
  destruct (load_unfold sn ib p) as [-> _]. set (p1 := pd_resize _ _). generalize (load_loop ib (sn_ptl sn) (m_ptl p1) (m_rtag p1) 0 0). intros r.
  assert (exists s, m_signals p1 = m_signals p ++ s) as [s E].
  { unfold p1. edestruct pd_resize_signals as [s ->]. exists ([ghost_particles_removed_signal] ++ s). rewrite app_assoc. reflexivity. }
  clearbody p1. exists (s ++ [global_particle_num_signal]). transitivity ((m_signals p1 ++ [global_particle_num_signal]) ++ [sort_signal]); [reflexivity|].
  rewrite E. now rewrite !app_assoc.
Qed.

Lemma existsb_sort s : existsb (fun x => match x with sort_signal => true | _ => false end) (s ++ [sort_signal]) = true.
Proof. rewrite existsb_app. simpl. apply orb_true_r. Qed.

Lemma and_then_ok s f : (and_then s f).2 = Ok tt -> s.2 = Ok tt /\ and_then s f = f s.1.
Proof. unfold and_then. destruct s.2 as [[]|] eqn:E; [auto|]. rewrite E. discriminate. Qed.

Lemma load_group_eq {Group} {GT : GroupType Group} sn get set y :
  load_group sn get set y = (set (BondedGroupData.initializeFromSnapshot sn (m_particle_data y) (get y)).1 y,
    (BondedGroupData.initializeFromSnapshot sn (m_particle_data y) (get y)).2).
Proof. unfold load_group. now destruct (BondedGroupData.initializeFromSnapshot _ _ _). Qed.

Lemma load_particles_eq sn y :
  let p := ParticleData.initializeFromSnapshot (ss_particle_data sn) false (setGlobalBox (ss_global_box sn) (m_particle_data y)) in
  load_particles sn y = (mkSystem (m_n_dimensions y) p.1 (setDirty (m_bond_data y)) (setDirty (m_angle_data y)) (setDirty (m_dihedral_data y))
    (setDirty (m_improper_data y)) (setDirty (m_constraint_data y)) (setDirty (m_pair_data y)), p.2).
Proof.
  cbn zeta. unfold load_particles. set (p0 := setGlobalBox _ _). destruct (load_signals (ss_particle_data sn) false p0) as [s E].
  destruct (ParticleData.initializeFromSnapshot _ _ _) as [p r]. cbn [fst snd] in *. unfold update_particles. rewrite E.
  assert (D : drop (length (m_signals (m_particle_data y))) (m_signals p0 ++ s ++ [sort_signal]) = ([boxchange_signal] ++ s) ++ [sort_signal]).
  { unfold p0. cbn. rewrite <- app_assoc, drop_app_length. reflexivity. }
  rewrite D, existsb_sort. reflexivity.
Qed.

(** What a load that does not throw did: the particles first, which makes every
    lookup table stale, then each kind of group against the new particles. *)
Lemma system_load_ok sn y : (system_load sn y).2 = Ok tt ->
  let z := (system_load sn y).1 in
  let p := ParticleData.initializeFromSnapshot (ss_particle_data sn) false (setGlobalBox (ss_global_box sn) (m_particle_data y)) in
  p.2 = Ok tt /\ m_n_dimensions z = ss_dimensions sn /\ m_particle_data z = p.1 /\
  all_kinds (fun Group GT get data => exists d, m_groups_dirty d = true /\ data z = (BondedGroupData.initializeFromSnapshot (get sn) p.1 d).1 /\
    (BondedGroupData.initializeFromSnapshot (get sn) p.1 d).2 = Ok tt).
Proof.
  unfold system_load. intros H. cbn zeta.
  apply and_then_ok in H as H6. destruct H6 as [H5 E6]. apply and_then_ok in H5 as H5'. destruct H5' as [H4 E5].
  apply and_then_ok in H4 as H4'. destruct H4' as [H3 E4]. apply and_then_ok in H3 as H3'. destruct H3' as [H2 E3].
  apply and_then_ok in H2 as H2'. destruct H2' as [H1 E2]. apply and_then_ok in H1 as H1'. destruct H1' as [H0 E1].
  rewrite E6 in *. rewrite E5 in *. rewrite E4 in *. rewrite E3 in *. rewrite E2 in *. rewrite E1 in *. clear E1 E2 E3 E4 E5 E6.
  rewrite !load_group_eq, !load_particles_eq in *.
  cbn [fst snd set_bond set_angle set_dihedral set_improper set_constraint set_pair set_dimensions m_n_dimensions m_particle_data
    m_bond_data m_angle_data m_dihedral_data m_improper_data m_constraint_data m_pair_data] in *.
  split_and!; [exact H0|reflexivity|reflexivity|]. split_and!; eexists; (split; [|split; [reflexivity|eassumption]]); reflexivity.
Qed.

(** What a taken snapshot of groups has in common with the loaded one. *)
Definition same_groups_as {Group} {GT : GroupType Group} (s s' : group_snapshot) : Prop :=
  gs_groups s' = gs_groups s /\ gs_type_mapping s' = gs_type_mapping s /\ gs_size s' = Z.of_nat (length (gs_groups s)) /\
  (has_type_mapping = true -> gs_type_id s' = gs_type_id s) /\ (has_type_mapping = false -> gs_val s' = gs_val s).

Lemma take_loaded_group {Group} {GT : GroupType Group} s p d : snap_shaped s -> Z.of_nat (length (gs_groups s)) <= 2 ^ 31 ->
  (BondedGroupData.initializeFromSnapshot s p d).2 = Ok tt -> exists s',
  take_group (BondedGroupData.initializeFromSnapshot s p d).1 = Ret s' /\ same_groups_as s s'.
Proof.
  intros Sh B R. destruct (load_take_groups s empty_groups p d Sh B R) as (s' & index & E & H). exists s'. unfold take_group. rewrite E.
  split; [reflexivity|]. unfold same_groups_as. tauto.
Qed.

Lemma setGlobalBox_mem b p : wf_mem p -> wf_mem (setGlobalBox b p).
Proof. now intros []. Qed.

(** C28. Round trip of the whole system: when a system snapshot whose particles lie
    in its box is loaded without an exception, a snapshot taken afterwards has the
    same dimensionality, box, particles and groups of every kind, and every lookup
    table of the groups is rebuilt before it is used again, since the load marks
    all of them stale, also those of the kinds that have no groups. *)
Theorem system_snapshot_roundtrip (sn : system_snapshot) (y : system)
  (M : wf_mem (m_particle_data y)) (Rank : m_rank (m_particle_data y) = 0)
  (Size : Z.of_nat (length (sn_ptl (ss_particle_data sn))) <= 2 ^ 31)
  (Box : forall s, s ∈ sn_ptl (ss_particle_data sn) -> BoxDim.inside (ss_global_box sn) (s_pos s))
  (G : all_groups (fun _ _ get => snap_shaped (get sn) /\ Z.of_nat (length (gs_groups (get sn))) <= 2 ^ 31))
  (Loaded : (system_load sn y).2 = Ok tt) :
  let z := (system_load sn y).1 in
  exists out, system_take z = Ret out /\ ss_dimensions out = ss_dimensions sn /\ ss_global_box out = ss_global_box sn /\
    Forall2 snap_eq (sn_ptl (ss_particle_data out)) (sn_ptl (ss_particle_data sn)) /\
    sn_type_mapping (ss_particle_data out) = sn_type_mapping (ss_particle_data sn) /\
    all_kinds (fun _ _ get data => same_groups_as (get sn) (get out) /\ m_groups_dirty (data z) = true).
Proof.
  cbn zeta. destruct (system_load_ok sn y Loaded) as (_ & En & Ep & K). set (z := (system_load sn y).1) in *. cbn zeta in *.
  set (p0 := setGlobalBox (ss_global_box sn) (m_particle_data y)) in *.
  destruct (load_take (ss_particle_data sn) false p0 (setGlobalBox_mem _ _ M) Rank Size Box) as [(out & Et & Hp) _].
  pose proof (load_box (ss_particle_data sn) false p0) as Eb.
  set (p := (ParticleData.initializeFromSnapshot (ss_particle_data sn) false p0).1) in *. rewrite <- Ep in Et, Eb.
  assert (T : all_kinds (fun Group GT get data => exists s', take_group (data z) = Ret s' /\ same_groups_as (get sn) s' /\ m_groups_dirty (data z) = true)).
  { destruct K as (K1 & K2 & K3 & K4 & K5 & K6), G as (G1 & G2 & G3 & G4 & G5 & G6).
    assert (A : forall Group (GT : GroupType Group) s data, (snap_shaped s /\ Z.of_nat (length (gs_groups s)) <= 2 ^ 31) ->
      (exists d, m_groups_dirty d = true /\ data z = (BondedGroupData.initializeFromSnapshot s p d).1 /\ (BondedGroupData.initializeFromSnapshot s p d).2 = Ok tt) ->
      exists s', take_group (data z) = Ret s' /\ same_groups_as s s' /\ m_groups_dirty (data z) = true).
    { intros Group GT s data [Sh B] (d & Dy & -> & R). destruct (take_loaded_group s p d Sh B R) as (s' & E & Hs).
      exists s'. split_and!; auto. now apply load_keeps_dirty. }
    split_and!; now apply A. }
  destruct T as ((s1 & T1 & S1 & D1) & (s2 & T2 & S2 & D2) & (s3 & T3 & S3 & D3) & (s4 & T4 & S4 & D4) & (s5 & T5 & S5 & D5) & (s6 & T6 & S6 & D6)).
  unfold system_take. rewrite Et. simpl. rewrite T1. simpl. rewrite T2. simpl. rewrite T3. simpl. rewrite T4. simpl. rewrite T5. simpl. rewrite T6. simpl.
  eexists. split; [reflexivity|]. cbn. rewrite loaded_all in Hp. split_and!; auto. split_and!; auto.
Qed.

(** A system with nothing in it but allocated memory. *)
Definition empty_system : system :=
  mkSystem 2 fresh (new_gdata (Group := Bond) 0) (new_gdata (Group := Angle) 0) (new_gdata (Group := Dihedral) 0) (new_gdata (Group := Dihedral) 0)
    (new_gdata (Group := Constraint) 0) (new_gdata (Group := Bond) 0).

Lemma system_snapshot_roundtrip_witness : exists out, system_take (system_load dimer empty_system).1 = Ret out /\
  gs_groups (ss_bond_data out) = [[0; 1]].
Proof.
  destruct (system_snapshot_roundtrip dimer empty_system) as (out & E & _ & _ & _ & _ & (((B & _) & _) & _)).
  - exact fresh_mem.
  - reflexivity.
  - vm_compute. discriminate.
  - intros s Hs. repeat (apply elem_of_cons in Hs as [->|Hs]; [repeat split; vm_compute; intros; discriminate|]). now apply elem_of_nil in Hs.
  - split_and!; try (simpl; lia); repeat constructor.
  - vm_compute. reflexivity.
  - exists out. split; [exact E|exact B].
Defined.

(** * What the checks do not catch *)

(** The body tag of a floppy body near the end of the range wraps around to a
    rigid body, and the check does not apply to floppy bodies. *)
Lemma floppy_body_wraps : MIN_FLOPPY <= 4294967290 < NO_BODY /\ copy_body 1 10 4294967290 = 4 /\
  (4294967290 <? MIN_FLOPPY) && (copy_body 1 10 4294967290 >=? MIN_FLOPPY) = false.
Proof. vm_compute. repeat split; discriminate. Qed.

(** A snapshot sets a number of dimensions that [setNDimensions] refuses. *)
Lemma load_any_dimensions : let s := mkSystemSnapshot 7 example_box (mkSnapshot [] [] false) empty_groups empty_groups empty_groups empty_groups empty_groups empty_groups in
  (system_load s empty_system).2 = Ok tt /\ m_n_dimensions (system_load s empty_system).1 = 7 /\
  setNDimensions 7 empty_system = Throw (runtime_error "Error setting dimensions").
Proof. vm_compute. repeat split. Qed.
