(* ===== verification/SFCPackTuner.v ===== *)
(** Sorting of the particles along a space-filling curve
    ([hoomd/SFCPackTuner.h], [hoomd/SFCPackTuner.cc]).

    The model is the host code without a domain decomposition. Reads and writes
    through unchecked indices are in the monad [run]; so are the conversions to
    [unsigned int] of a scalar that does not fit, and the remainder by zero. The
    vectors that the recursion on the Hilbert curve appends to are passed along;
    the recursion has fuel, one unit per halving of the width. [std::sort] on
    pairs is a sort for their lexicographic order. *)

From Stdlib Require Import ZArith Lia QArith Sorted String.
From stdpp Require Import base list list_numbers sorting.
From S2P Require Import Prelude HOOMDMath BoxDim ParticleData.
Local Open Scope Z_scope.
Local Open Scope hoomd_scope.

(** * The Hilbert curve *)

Definition istep : list Z := [0; 0; 0; 0; 1; 1; 1; 1].
Definition jstep : list Z := [0; 0; 1; 1; 1; 1; 0; 0].
Definition kstep : list Z := [0; 1; 1; 0; 0; 1; 1; 0].

(** The array whose elements are those of [inp] at the given places. *)
Definition select (places inp : list Z) : list Z := (fun x => zget 0 inp x) <$> places.

Definition permute1 : list Z -> list Z := select [0; 3; 4; 7; 6; 5; 2; 1].
Definition permute2 : list Z -> list Z := select [0; 7; 6; 1; 2; 5; 4; 3].
Definition permute3 : list Z -> list Z := permute2.
Definition permute4 : list Z -> list Z := select [2; 3; 0; 1; 6; 7; 4; 5].
Definition permute5 : list Z -> list Z := permute4.
Definition permute6 : list Z -> list Z := select [4; 3; 2; 5; 6; 1; 0; 7].
Definition permute7 : list Z -> list Z := permute6.
Definition permute8 : list Z -> list Z := select [6; 5; 2; 1; 0; 3; 4; 7].

Definition permute (p : nat) (inp : list Z) : list Z :=
  match p with
  | 0 => permute1 inp
  | 1 => permute2 inp
  | 2 => permute3 inp
  | 3 => permute4 inp
  | 4 => permute5 inp
  | 5 => permute6 inp
  | 6 => permute7 inp
  | _ => permute8 inp
  end%nat.

(** The recursion; [None] is the recursion that does not end, for a width that is
    not a power of two. *)
Fixpoint generateTraversalOrder (fuel : nat) (i j k w Mx : Z) (cell_order : list Z) (traversal_order : list Z) : option (list Z) :=
  match fuel with
  | O => None
  | S fuel =>
      if w =? 1 then Some (traversal_order ++ [u32 (i * Mx * Mx + j * Mx + k)])
      else
        let w := w / 2 in
        fold_left (fun acc m =>
          match acc with
          | None => None
          | Some traversal_order =>
              let cur_cell := zget 0 cell_order (Z.of_nat m) in
              let ic := i + w * zget 0 istep cur_cell in
              let jc := j + w * zget 0 jstep cur_cell in
              let kc := k + w * zget 0 kstep cur_cell in
              generateTraversalOrder fuel ic jc kc w Mx (permute m cell_order) traversal_order
          end) (seq 0 8) (Some traversal_order)
  end.

(** * The sorter *)

Record sorter := mkSorter {
  m_grid : Z;
  m_last_grid : Z;
  m_last_dim : Z;
  m_traversal_order : list Z;
  m_sort_order : list Z;
  m_particle_bins : list (Z * Z)
}.

Definition set_sort_order (l : list Z) (s : sorter) : sorter :=
  mkSorter (m_grid s) (m_last_grid s) (m_last_dim s) (m_traversal_order s) l (m_particle_bins s).
Definition set_bins (l : list (Z * Z)) (s : sorter) : sorter :=
  mkSorter (m_grid s) (m_last_grid s) (m_last_dim s) (m_traversal_order s) (m_sort_order s) l.
Definition set_traversal (grid dim : Z) (l : list Z) (s : sorter) : sorter :=
  mkSorter (m_grid s) grid dim l (m_sort_order s) (m_particle_bins s).

Definition new_sorter (dimensions : Z) (p : pdata) : sorter :=
  let n := m_max_nparticles p in
  mkSorter (if dimensions =? 2 then 4096 else 256) 0 0 [] (array_resize 0 n []) (array_resize (0, 0) n []).

(** The slot of the maximum particle number signal. *)
Definition reallocate (p : pdata) (s : sorter) : sorter :=
  let n := m_max_nparticles p in
  set_bins (array_resize (0, 0) n (m_particle_bins s)) (set_sort_order (array_resize 0 n (m_sort_order s)) s).

(** [setGrid]: rounded up to a power of two, in exact arithmetic; [log(0)] is
    minus infinity, and its power zero. *)
Definition setGrid (grid : Z) (s : sorter) : sorter :=
  mkSorter (if grid =? 0 then 0 else 2 ^ Z.log2_up grid) (m_last_grid s) (m_last_dim s) (m_traversal_order s) (m_sort_order s) (m_particle_bins s).

(** A coordinate of the bin: the remainder, and the two corrections. *)
Definition bin_coordinate (grid : Z) (f : Scalar) : run Z :=
  bind! z := to_uint (f * inject_Z grid)%Q in
  if grid =? 0 then OutOfBounds
  else
    let ib := z mod grid in
    let ib := if ib <? 0 then 0 else ib in
    Ret (if ib >=? grid then grid - 1 else ib).

Section binning.
Variable rsqrt : Scalar -> Scalar.

Definition bin_2d (grid : Z) (box : BoxDim.t) (e : pdata_element) : run Z :=
  let f := BoxDim.makeFraction rsqrt box (pos e) BoxDim.zero3 in
  bind! ib := bin_coordinate grid (s3x f) in
  bind! jb := bin_coordinate grid (s3y f) in
  Ret (u32 (ib * grid + jb)).

Definition bin_3d (grid : Z) (box : BoxDim.t) (e : pdata_element) : run Z :=
  let f := BoxDim.makeFraction rsqrt box (pos e) BoxDim.zero3 in
  bind! ib := bin_coordinate grid (s3x f) in
  bind! jb := bin_coordinate grid (s3y f) in
  bind! kb := bin_coordinate grid (s3z f) in
  Ret (u32 (ib * u32 (grid * grid) + jb * grid + kb)).

(** The loop that records the bin of each particle from [n] on. *)
Fixpoint bin_particles (bin : pdata_element -> run Z) (p : pdata) (count : nat) (n : Z) (bins : list (Z * Z)) : run (list (Z * Z)) :=
  match count with
  | O => Ret bins
  | S count =>
      bind! e := read (m_ptl p) n in
      bind! b := bin e in
      bind! bins := write bins n (b, n) in
      bin_particles bin p count (n + 1) bins
  end.

(** The order of [std::pair]. *)
Definition bin_le (x y : Z * Z) : Prop := x.1 < y.1 \/ x.1 = y.1 /\ x.2 <= y.2.
#[global] Instance bin_le_dec x y : Decision (bin_le x y).
Proof. unfold bin_le. apply _. Defined.

(** [sort(begin, begin + N)] *)
Definition sort_bins (N : nat) (bins : list (Z * Z)) : list (Z * Z) := merge_sort bin_le (take N bins) ++ drop N bins.

(** [m_sort_order[j] = m_particle_bins[j].second] from [j] on. *)
Fixpoint translate_order (count : nat) (j : Z) (bins : list (Z * Z)) (order : list Z) : run (list Z) :=
  match count with
  | O => Ret order
  | S count =>
      bind! b := read bins j in
      bind! order := write order j b.2 in
      translate_order count (j + 1) bins order
  end.

(** Binning, sorting and translating, common to both dimensions. *)
Definition sort_order (bin : pdata_element -> run Z) (p : pdata) (s : sorter) : run sorter :=
  let N := Z.to_nat (getN p) in
  bind! bins := bin_particles bin p N 0 (m_particle_bins s) in
  let bins := sort_bins N bins in
  bind! order := translate_order N 0 bins (m_sort_order s) in
  Ret (set_sort_order order (set_bins bins s)).

Definition getSortedOrder2D (p : pdata) (s : sorter) : run sorter := sort_order (bin_2d (m_grid s) (m_global_box p)) p s.

(** [h_traversal_order.data[reverse_order[i]] = i] from [i] on. *)
Fixpoint invert_order (count : nat) (i : Z) (reverse_order order : list Z) : run (list Z) :=
  match count with
  | O => Ret order
  | S count =>
      bind! c := read reverse_order i in
      bind! order := write order c i in
      invert_order count (i + 1) reverse_order order
  end.

(** The fuel is more than the number of halvings of a 32-bit width. *)
Definition regenerate (dimensions : Z) (s : sorter) : run sorter :=
  let grid := m_grid s in
  if negb (m_last_grid s =? grid) || negb (m_last_dim s =? 3) then
    let n := u32 (u32 (grid * grid) * grid) in
    match generateTraversalOrder 33 0 0 0 grid grid (seqZ 0 8) [] with
    | None => OutOfBounds
    | Some reverse_order =>
        bind! order := invert_order (Z.to_nat n) 0 reverse_order (replicate (Z.to_nat n) 0) in
        Ret (set_traversal grid dimensions order s)
    end
  else Ret s.

Definition getSortedOrder3D (dimensions : Z) (p : pdata) (s : sorter) : run sorter :=
  bind! s := regenerate dimensions s in
  sort_order (fun e => bind! bin := bin_3d (m_grid s) (m_global_box p) e in read (m_traversal_order s) bin) p s.

(** [tmp[i] = data[m_sort_order[i]]] from [i] on. *)
Fixpoint gather {A} (count : nat) (i : Z) (order : list Z) (data : list A) : run (list A) :=
  match count with
  | O => Ret []
  | S count =>
      bind! x := read order i in
      bind! e := read data x in
      bind! tmp := gather count (i + 1) order data in
      Ret (e :: tmp)
  end.

(** Every array of the particle data is reordered in the same way; the arrays are
    the fields of the elements. *)
Definition applySortOrder (s : sorter) (p : pdata) : run pdata :=
  let N := Z.to_nat (getN p) in
  bind! tmp := gather N 0 (m_sort_order s) (m_ptl p) in
  let p := set_ptl (tmp ++ drop N (m_ptl p)) p in
  Ret (set_rtag (recompute_rtags N p (m_rtag p)) (m_rtag_size p) p).

Definition update (dimensions : Z) (p : pdata) (s : sorter) : run (pdata * sorter) :=
  bind! s := if dimensions =? 2 then getSortedOrder2D p s else getSortedOrder3D dimensions p s in
  bind! p := applySortOrder s p in
  Ret (notifyParticleSort p, s).

End binning.
