(* ===== verification/HilbertCurve.v ===== *)
(** The curve that [SFCPackTuner::generateTraversalOrder] builds is a Hilbert
    curve: it visits every cell of the grid once, and each step goes to a cell
    that shares a face with the one before.

    The permutation rules take the seed order through twelve cell orders; what the
    induction needs of an order is checked on each of them by computation. *)

From Stdlib Require Import ZArith Lia QArith Sorted String.
From stdpp Require Import base list list_numbers sorting.
From S2P Require Import Prelude HOOMDMath BoxDim ParticleData SFCPackTuner.
Local Open Scope Z_scope.
Local Open Scope hoomd_scope.

(** * Cells and paths *)

Abbreviation cell := (Z * Z * Z)%type.

(** The corner [c] of a cube at [(i, j, k)] whose far corners are [h] away. *)
Definition corner (i j k h c : Z) : cell := (i + h * zget 0 istep c, j + h * zget 0 jstep c, k + h * zget 0 kstep c).

Definition adjacent (a b : cell) : Prop :=
  let '(ai, aj, ak) := a in let '(bi, bj, bk) := b in Z.abs (bi - ai) + Z.abs (bj - aj) + Z.abs (bk - ak) = 1.

Fixpoint linked (l : list cell) : Prop :=
  match l with
  | a :: (b :: _) as t => adjacent a b /\ linked t
  | _ => True
  end.

Lemma linked_app l1 l2 a b : linked l1 -> linked l2 -> last l1 = Some a -> head l2 = Some b -> adjacent a b -> linked (l1 ++ l2).
Proof.
  intros L1 L2 La Hb Ad. induction l1 as [|x [|y l1] IH]; [discriminate| |].
  - destruct l2 as [|z l2]; [discriminate|]. injection La as ->. injection Hb as ->. now split.
  - destruct L1 as [A1 L1]. split; [exact A1|]. now apply IH.
Qed.

Lemma linked_lookup l m a b : linked l -> l !! m = Some a -> l !! S m = Some b -> adjacent a b.
Proof.
  revert m. induction l as [|x [|y l] IH]; intros m L Ha Hb; [discriminate|now destruct m|].
  destruct L as [A L]. destruct m as [|m]; [simpl in *; congruence|]. now apply (IH m).
Qed.

(** A path made of pieces. *)
Lemma linked_pieces (f : nat -> list cell) (h t : nat -> cell) n : forall s,
  (forall m, (s <= m < s + S n)%nat -> head (f m) = Some (h m) /\ last (f m) = Some (t m) /\ linked (f m)) ->
  (forall m, (s <= m < s + n)%nat -> adjacent (t m) (h (S m))) ->
  head (flat_map f (seq s (S n))) = Some (h s) /\ last (flat_map f (seq s (S n))) = Some (t (s + n)%nat) /\ linked (flat_map f (seq s (S n))).
Proof.
  induction n as [|n IH]; intros s P A.
  - simpl. rewrite app_nil_r, Nat.add_0_r. apply P. lia.
  - destruct (P s) as (Hh & Ht & Hl); [lia|]. destruct (IH (S s)) as (Jh & Jt & Jl); [intros; apply P; lia|intros; apply A; lia|].
    change (flat_map f (seq s (S (S n)))) with (f s ++ flat_map f (seq (S s) (S n))). split_and!.
    + destruct (f s); [discriminate|exact Hh].
    + rewrite last_app, Jt. f_equal. f_equal. lia.
    + eapply linked_app; [exact Hl|exact Jl|exact Ht|exact Jh|]. apply A. lia.
Qed.

(** * The cell orders *)

Definition next_orders (l : list (list Z)) : list (list Z) := remove_dups (l ++ flat_map (fun o => (fun m => permute m o) <$> seq 0 8) l).

(** Everything the rules make from the seed order. *)
Definition orders : list (list Z) := Eval vm_compute in Nat.iter 2 next_orders [seqZ 0 8].

Abbreviation at_ := (zget 0).

(** Along one axis: from the corner [e] of the subcube [c] to the corner [s] of
    the subcube [c'], one step over the common face, or none. *)
Definition moves (st : list Z) (c c' e s : Z) : bool := (Z.abs (at_ st c' - at_ st c) =? 1) && (at_ st s - at_ st e =? at_ st c - at_ st c').
Definition still (st : list Z) (c c' e s : Z) : bool := (at_ st c' =? at_ st c) && (at_ st s =? at_ st e).

Definition link (c c' e s : Z) : bool :=
  (moves istep c c' e s && still jstep c c' e s && still kstep c c' e s)
  || (still istep c c' e s && moves jstep c c' e s && still kstep c c' e s)
  || (still istep c c' e s && still jstep c c' e s && moves kstep c c' e s).

Definition good_order (o : list Z) : bool :=
  (length o =? 8)%nat && forallb (fun c => bool_decide (c ∈ o)) (seqZ 0 8)
  && forallb (fun m => bool_decide (permute m o ∈ orders)) (seq 0 8)
  && forallb (fun m => link (at_ o (Z.of_nat m)) (at_ o (Z.of_nat (S m))) (at_ (permute m o) 7) (at_ (permute (S m) o) 0)) (seq 0 7)
  && (at_ (permute 0 o) 0 =? at_ o 0) && (at_ (permute 7 o) 7 =? at_ o 7).

Lemma orders_good : forallb good_order orders = true.
Proof. vm_compute. reflexivity. Qed.

Record order_facts (o : list Z) : Prop := {
  of_length : length o = 8%nat;
  of_all : forall c, 0 <= c < 8 -> c ∈ o;
  of_next : forall m, (m < 8)%nat -> permute m o ∈ orders;
  of_link : forall m, (m < 7)%nat -> link (at_ o (Z.of_nat m)) (at_ o (Z.of_nat (S m))) (at_ (permute m o) 7) (at_ (permute (S m) o) 0) = true;
  of_first : at_ (permute 0 o) 0 = at_ o 0;
  of_last : at_ (permute 7 o) 7 = at_ o 7
}.

Lemma order_ok o : o ∈ orders -> order_facts o.
Proof.
  intros H. pose proof orders_good as G. rewrite forallb_forall in G. specialize (G o (proj1 (list_elem_of_In _ _) H)).
  unfold good_order in G. apply andb_true_iff in G as [G G6]. apply andb_true_iff in G as [G G5]. apply andb_true_iff in G as [G G4].
  apply andb_true_iff in G as [G G3]. apply andb_true_iff in G as [G1 G2]. rewrite forallb_forall in G2, G3, G4.
  constructor; [now apply Nat.eqb_eq|..|now apply Z.eqb_eq|now apply Z.eqb_eq].
  - intros c Hc. eapply bool_decide_eq_true_1, G2, list_elem_of_In, elem_of_seqZ. lia.
  - intros m Hm. eapply bool_decide_eq_true_1, G3, in_seq. lia.
  - intros m Hm. apply G4, in_seq. lia.
Qed.

Lemma seed_order : seqZ 0 8 ∈ orders.
Proof. eapply bool_decide_eq_true_1. vm_compute. reflexivity. Qed.

(** * The curve as a path *)

Fixpoint hilbert (n : nat) (i j k : Z) (o : list Z) : list cell :=
  match n with
  | O => [(i, j, k)]
  | S n => flat_map (fun m => let '(ic, jc, kc) := corner i j k (2 ^ Z.of_nat n) (at_ o (Z.of_nat m)) in hilbert n ic jc kc (permute m o)) (seq 0 8)
  end.

(** The index of a cell in a grid of width [Mx]. *)
Definition cell_index (Mx : Z) (c : cell) : Z := let '(i, j, k) := c in u32 (i * Mx * Mx + j * Mx + k).

Lemma pow_half n : 2 ^ Z.of_nat (S n) / 2 = 2 ^ Z.of_nat n.
Proof. rewrite Nat2Z.inj_succ, Z.pow_succ_r by lia. rewrite Z.mul_comm. apply Z.div_mul. lia. Qed.

(** The code appends the indices of the path, if the fuel covers the halvings. *)
Lemma generate_hilbert n : forall fuel i j k Mx o acc, (n < fuel)%nat ->
  generateTraversalOrder fuel i j k (2 ^ Z.of_nat n) Mx o acc = Some (acc ++ (cell_index Mx <$> hilbert n i j k o)).
Proof.
  induction n as [|n IH]; intros fuel i j k Mx o acc Hf; (destruct fuel as [|fuel]; [lia|]); [reflexivity|].
  cbn [generateTraversalOrder hilbert]. destruct (Z.eqb_spec (2 ^ Z.of_nat (S n)) 1) as [E|_].
  { rewrite Nat2Z.inj_succ, Z.pow_succ_r in E by lia. pose proof (Z.pow_pos_nonneg 2 (Z.of_nat n)). lia. }
  rewrite pow_half. generalize (seq 0 8) as ms. intros ms. revert acc.
  induction ms as [|m ms IHms]; intros acc; simpl; [now rewrite app_nil_r|].
  rewrite IH by lia. rewrite IHms. rewrite fmap_app, app_assoc. reflexivity.
Qed.

(** Which cube a path fills. *)
Definition in_cube (i j k w : Z) (c : cell) : Prop := let '(x, y, z) := c in i <= x < i + w /\ j <= y < j + w /\ k <= z < k + w.

Lemma step_bit c : (0 <= at_ istep c <= 1) /\ (0 <= at_ jstep c <= 1) /\ (0 <= at_ kstep c <= 1).
Proof. unfold zget. generalize (Z.to_nat c) as m. intros m. do 8 (destruct m as [|m]; [simpl; lia|]). destruct m; simpl; lia. Qed.

Lemma corner_exists (bi bj bk : bool) : exists c, 0 <= c < 8 /\ at_ istep c = Z.b2z bi /\ at_ jstep c = Z.b2z bj /\ at_ kstep c = Z.b2z bk.
Proof.
  destruct bi, bj, bk;
    [exists 5|exists 4|exists 6|exists 7|exists 2|exists 3|exists 1|exists 0]; (split; [lia|]); repeat split.
Qed.

Lemma hilbert_in_cube n : forall i j k o c, c ∈ hilbert n i j k o -> in_cube i j k (2 ^ Z.of_nat n) c.
Proof.
  induction n as [|n IH]; intros i j k o c H; simpl in H.
  - apply list_elem_of_singleton in H as ->. simpl. lia.
  - change (c ∈ flat_map (fun m => let '(ic, jc, kc) := corner i j k (2 ^ Z.of_nat n) (at_ o (Z.of_nat m)) in hilbert n ic jc kc (permute m o)) (seq 0 8)) in H.
    apply list_elem_of_In, in_flat_map in H as (m & _ & H). unfold corner in H. apply list_elem_of_In, IH in H. destruct c as [[x y] z].
    destruct (step_bit (at_ o (Z.of_nat m))) as (Bi & Bj & Bk). unfold in_cube in *. rewrite Nat2Z.inj_succ, Z.pow_succ_r by lia.
    pose proof (Z.pow_pos_nonneg 2 (Z.of_nat n)). nia.
Qed.

Lemma hilbert_covers n : forall i j k o c, o ∈ orders -> in_cube i j k (2 ^ Z.of_nat n) c -> c ∈ hilbert n i j k o.
Proof.
  induction n as [|n IH]; intros i j k o [[x y] z] Ho H.
  - simpl in *. apply list_elem_of_singleton. f_equal; [f_equal|]; lia.
  - unfold in_cube in H. rewrite Nat2Z.inj_succ, Z.pow_succ_r in H by lia. cbn [hilbert]. set (h := 2 ^ Z.of_nat n) in *.
    destruct (corner_exists (i + h <=? x) (j + h <=? y) (k + h <=? z)) as (c & Hc & Ei & Ej & Ek). pose proof (order_ok o Ho) as F.
    destruct (list_elem_of_lookup_1 _ _ (of_all o F c Hc)) as [m Hm]. pose proof (lookup_lt_Some _ _ _ Hm) as Lm. rewrite (of_length o F) in Lm.
    apply list_elem_of_In, in_flat_map. exists m. split; [apply in_seq; lia|]. rewrite (zget_lookup 0 o _ c) by now rewrite Nat2Z.id.
    unfold corner. rewrite Ei, Ej, Ek. apply list_elem_of_In, IH; [now apply (of_next o F)|]. fold h. unfold in_cube.
    destruct (Z.leb_spec (i + h) x), (Z.leb_spec (j + h) y), (Z.leb_spec (k + h) z); simpl; lia.
Qed.

Lemma length_hilbert n : forall i j k o, length (hilbert n i j k o) = (8 ^ n)%nat.
Proof.
  induction n as [|n IH]; intros i j k o; [reflexivity|]. cbn [hilbert]. unfold corner. cbn [seq flat_map].
  rewrite !length_app, !IH. simpl. lia.
Qed.

(** The step between two subcubes. *)
Lemma link_adjacent i j k h c c' e s : 1 <= h -> link c c' e s = true ->
  adjacent (let '(ic, jc, kc) := corner i j k h c in corner ic jc kc (h - 1) e) (let '(ic, jc, kc) := corner i j k h c' in corner ic jc kc (h - 1) s).
Proof.
  intros Hh L. unfold link, moves, still in L. unfold adjacent, corner.
  repeat (apply orb_true_iff in L as [L|L]); repeat (apply andb_true_iff in L as [L ?]); repeat match goal with
    H : (_ && _)%bool = true |- _ => apply andb_true_iff in H as [? ?] end; zbool; nia.
Qed.

(** The path enters the cube at its first corner and leaves it at its last. *)
Lemma hilbert_path n : forall i j k o, o ∈ orders -> let l := hilbert n i j k o in let h := 2 ^ Z.of_nat n - 1 in
  head l = Some (corner i j k h (at_ o 0)) /\ last l = Some (corner i j k h (at_ o 7)) /\ linked l.
Proof.
  induction n as [|n IH]; intros i j k o Ho; cbn zeta.
  - simpl. unfold corner. rewrite !Z.add_0_r. auto.
  - pose proof (order_ok o Ho) as F. cbn [hilbert]. set (h := 2 ^ Z.of_nat n) in *. assert (Hh : 1 <= h) by (pose proof (Z.pow_pos_nonneg 2 (Z.of_nat n)); lia).
    set (f := fun m : nat => let '(ic, jc, kc) := corner i j k h (at_ o (Z.of_nat m)) in hilbert n ic jc kc (permute m o)).
    destruct (linked_pieces f (fun m => let '(ic, jc, kc) := corner i j k h (at_ o (Z.of_nat m)) in corner ic jc kc (h - 1) (at_ (permute m o) 0))
      (fun m => let '(ic, jc, kc) := corner i j k h (at_ o (Z.of_nat m)) in corner ic jc kc (h - 1) (at_ (permute m o) 7)) 7 0) as (Eh & Et & El).
    + intros m Hm. unfold f, corner at 1 3 5 7. apply (IH _ _ _ (permute m o)). apply (of_next o F). lia.
    + intros m Hm. apply link_adjacent; [exact Hh|]. apply (of_link o F). lia.
    + rewrite Eh, Et. replace (2 ^ Z.of_nat (S n) - 1) with (h + (h - 1)) by (unfold h; rewrite Nat2Z.inj_succ, Z.pow_succ_r by lia; lia).
      cbn [Nat.add]. change (Z.of_nat 0) with 0. change (Z.of_nat 7) with 7. rewrite (of_first o F), (of_last o F).
      unfold corner. split_and!; [| |exact El]; do 2 f_equal; [f_equal|..|f_equal|]; lia.
Qed.

(** * The traversal order *)

(** The cell of an index. *)
Definition cell_of (Mx a : Z) : cell := (a / (Mx * Mx), a / Mx mod Mx, a mod Mx).

Lemma cell_of_index Mx c : 0 < Mx <= 1024 -> in_cube 0 0 0 Mx c -> cell_of Mx (cell_index Mx c) = c /\ 0 <= cell_index Mx c < Mx * Mx * Mx.
Proof.
  destruct c as [[x y] z]. intros HM (Hx & Hy & Hz). unfold cell_index.
  assert (B : 0 <= x * Mx * Mx + y * Mx + z < Mx * Mx * Mx) by nia. assert (Mx * Mx * Mx < 2 ^ 32) by nia.
  rewrite u32_small by (unfold is_u32; lia). split; [|exact B]. unfold cell_of.
  assert (E1 : (x * Mx * Mx + y * Mx + z) / Mx = x * Mx + y) by (apply (div_between _ Mx); nia).
  rewrite E1. f_equal; [f_equal|].
  - apply (div_between _ (Mx * Mx)); nia.
  - rewrite Z.add_comm, Z.mod_add by lia. apply Z.mod_small. lia.
  - replace (x * Mx * Mx + y * Mx + z) with (z + (x * Mx + y) * Mx) by ring. rewrite Z.mod_add by lia. apply Z.mod_small. lia.
Qed.

Lemma cell_of_range Mx a : 0 < Mx -> 0 <= a < Mx * Mx * Mx -> in_cube 0 0 0 Mx (cell_of Mx a).
Proof.
  intros HM Ha. unfold cell_of, in_cube. pose proof (Z.mod_pos_bound a Mx HM). pose proof (Z.mod_pos_bound (a / Mx) Mx HM).
  split; [|lia]. split; [apply Z.div_pos; nia|apply Z.div_lt_upper_bound; nia].
Qed.

Lemma index_cell_of Mx a : 0 < Mx <= 1024 -> 0 <= a < Mx * Mx * Mx -> cell_index Mx (cell_of Mx a) = a.
Proof.
  intros HM Ha. unfold cell_index, cell_of. rewrite <- (Z.div_div a Mx Mx) by lia.
  pose proof (Z.div_mod a Mx ltac:(lia)) as E1. pose proof (Z.div_mod (a / Mx) Mx ltac:(lia)) as E2.
  replace (a / Mx / Mx * Mx * Mx + (a / Mx) mod Mx * Mx + a mod Mx) with a by nia. apply u32_small. unfold is_u32. nia.
Qed.

Lemma pow8 n : Z.of_nat (8 ^ n) = 2 ^ Z.of_nat n * 2 ^ Z.of_nat n * 2 ^ Z.of_nat n.
Proof. rewrite Nat2Z.inj_pow. change (Z.of_nat 8) with (2 * 2 * 2). now rewrite !Z.pow_mul_l. Qed.

Section grid.
Variable n : nat.
Hypothesis Hn : (n <= 10)%nat.
Let Mx := 2 ^ Z.of_nat n.
Let l := cell_index Mx <$> hilbert n 0 0 0 (seqZ 0 8).

Lemma grid_width : 0 < Mx <= 1024.
Proof. unfold Mx. change 1024 with (2 ^ 10). split; [apply Z.pow_pos_nonneg; lia|apply Z.pow_le_mono_r; lia]. Qed.

Lemma traversal_permutation : l ≡ₚ seqZ 0 (Mx * Mx * Mx).
Proof.
  pose proof grid_width as G. symmetry. apply submseteq_length_Permutation.
  - apply NoDup_submseteq; [apply NoDup_seqZ|]. intros a Ha. apply elem_of_seqZ in Ha. unfold l.
    apply list_elem_of_fmap. exists (cell_of Mx a). split; [symmetry; apply index_cell_of; lia|].
    apply hilbert_covers; [apply seed_order|]. apply cell_of_range; lia.
  - unfold l. rewrite length_fmap, length_hilbert, length_seqZ. pose proof (pow8 n). fold Mx in H. lia.
Qed.

Lemma traversal_linked m a b : l !! m = Some a -> l !! S m = Some b -> adjacent (cell_of Mx a) (cell_of Mx b).
Proof.
  pose proof grid_width as G. unfold l. rewrite !list_lookup_fmap. intros (c & Hc & ->)%fmap_Some (c' & Hc' & ->)%fmap_Some.
  assert (I : forall x c, hilbert n 0 0 0 (seqZ 0 8) !! x = Some c -> in_cube 0 0 0 Mx c).
  { intros x d Hd. eapply hilbert_in_cube, list_elem_of_lookup_2, Hd. }
  rewrite (proj1 (cell_of_index Mx c G (I _ _ Hc))), (proj1 (cell_of_index Mx c' G (I _ _ Hc'))).
  destruct (hilbert_path n 0 0 0 (seqZ 0 8) seed_order) as (_ & _ & L). eapply linked_lookup; eassumption.
Qed.

End grid.

(** C9. For every grid width up to 1024 that is a power of two the recursion ends,
    and the traversal order it builds is a Hilbert curve: it lists every cell of
    the grid exactly once, and consecutive cells share a face. *)
Theorem hilbert_curve (n : nat) (Hn : (n <= 10)%nat) : let grid := 2 ^ Z.of_nat n in
  exists l, generateTraversalOrder 33 0 0 0 grid grid (seqZ 0 8) [] = Some l /\ l ≡ₚ seqZ 0 (grid * grid * grid) /\
    forall m a b, l !! m = Some a -> l !! S m = Some b -> adjacent (cell_of grid a) (cell_of grid b).
Proof.
  cbn zeta. eexists. rewrite generate_hilbert by lia. split; [reflexivity|]. split; [now apply traversal_permutation|].
  intros m a b. now apply traversal_linked.
Qed.

Lemma hilbert_curve_witness : exists l, generateTraversalOrder 33 0 0 0 4 4 (seqZ 0 8) [] = Some l /\ l ≡ₚ seqZ 0 64.
Proof. destruct (hilbert_curve 2 ltac:(lia)) as (l & E & P & _). exists l. split; [exact E|exact P]. Defined.
