(* ===== verification/SFCPackTunerSpec.v ===== *)
(** The sort of the particles is a reordering: every particle keeps its tag and
    its properties, the reverse lookup follows, and the new order runs along the
    curve. It announces itself, so that it is an instance of [Observable]. *)

From Stdlib Require Import ZArith Lia QArith Qabs Lqa Sorted String.
From stdpp Require Import base list list_numbers sorting gmap strings.
From S2P Require Import Prelude HOOMDMath BoxDim ParticleData ParticleDataProps ParticleDataSpec ParticleFilter ParticleGroup ParticleGroupSpec SFCPackTuner HilbertCurve.
Local Open Scope Z_scope.
Local Open Scope hoomd_scope.

(** * Loops that fill an array from the front *)

(** Writing the element after a filled front. *)
Lemma zset_front {A} (front : list A) (l : list A) (x : A) : (length front < length l)%nat ->
  zset (front ++ drop (length front) l) (Z.of_nat (length front)) x = (front ++ [x]) ++ drop (S (length front)) l.
Proof.
  intros H. unfold zset. rewrite Nat2Z.id, insert_app_r_alt by lia. rewrite Nat.sub_diag.
  destruct (drop (length front) l) as [|y t] eqn:E; [apply (f_equal length) in E; rewrite length_drop in E; simpl in E; lia|].
  simpl. rewrite <- app_assoc. simpl. do 2 f_equal. rewrite <- (Nat.add_1_r (length front)), <- drop_drop, E. reflexivity.
Qed.

Section filling.
Context {A B : Type}.
Variable value : nat -> run A.

(** The loop [array[n] = value(n)]. *)
Fixpoint fill_array (count n : nat) (l : list A) : run (list A) :=
  match count with
  | O => Ret l
  | S count => bind! x := value n in bind! l := write l (Z.of_nat n) x in fill_array count (S n) l
  end.

Lemma fill_array_ret count : forall front l l', (length front <= length l)%nat ->
  fill_array count (length front) (front ++ drop (length front) l) = Ret l' <->
  (length front + count <= length l)%nat /\
  exists xs, Forall2 (fun n x => value n = Ret x) (seq (length front) count) xs /\ l' = (front ++ xs) ++ drop (length front + count) l.
Proof.
  induction count as [|count IH]; intros front l l' Hl; simpl.
  - rewrite Nat.add_0_r. split.
    + intros [= <-]. split; [assumption|]. exists []. split; [constructor|]. now rewrite app_nil_r.
    + intros (_ & xs & F & ->). inversion F. now rewrite app_nil_r.
  - split.
    + intros (x & Ex & (l1 & W & R)%bind_ret)%bind_ret. apply write_ret in W as [Hw ->].
      rewrite length_app, length_drop in Hw. rewrite zset_front in R by lia.
      specialize (IH (front ++ [x]) l l'). rewrite length_app in IH. simpl in IH. rewrite Nat.add_1_r in IH.
      apply IH in R as (Hc & xs & F & ->); [|lia]. split; [lia|]. exists (x :: xs). split; [now constructor|].
      replace (length front + S count)%nat with (S (length front) + count)%nat by lia. now rewrite <- !app_assoc.
    + intros (Hc & xs & F & ->). inversion F as [|? x ? xs' Hx F']; subst. rewrite Hx. simpl.
      rewrite write_in by (rewrite length_app, length_drop; lia). simpl. rewrite zset_front by lia.
      specialize (IH (front ++ [x]) l). rewrite length_app in IH. simpl in IH. rewrite Nat.add_1_r in IH.
      apply IH; [lia|]. split; [lia|]. exists xs'. split; [assumption|]. replace (length front + S count)%nat with (S (length front) + count)%nat by lia. now rewrite <- !app_assoc.
Qed.

(** From the start of the array. *)
Lemma fill_array_start count l l' : fill_array count 0 l = Ret l' <->
  (count <= length l)%nat /\ exists xs, Forall2 (fun n x => value n = Ret x) (seq 0 count) xs /\ l' = xs ++ drop count l.
Proof. apply (fill_array_ret count [] l l'). simpl. lia. Qed.

End filling.

(** * The sort order *)

Lemma bin_particles_fill bin p count : forall n bins, bin_particles bin p count (Z.of_nat n) bins =
  fill_array (fun n => bind! e := read (m_ptl p) (Z.of_nat n) in bind! b := bin e in Ret (b, Z.of_nat n)) count n bins.
Proof.
  induction count as [|count IH]; intros n bins; simpl; [reflexivity|]. destruct (read _ _) as [e| |]; [simpl|reflexivity..].
  destruct (bin e) as [b| |]; [simpl|reflexivity..]. destruct (write _ _ _) as [l| |]; [simpl|reflexivity..].
  rewrite Z.add_1_r, <- Nat2Z.inj_succ. apply IH.
Qed.

Lemma translate_order_fill bins count : forall n order, translate_order count (Z.of_nat n) bins order =
  fill_array (fun j => bind! b := read bins (Z.of_nat j) in Ret b.2) count n order.
Proof.
  induction count as [|count IH]; intros n order; simpl; [reflexivity|]. destruct (read _ _) as [e| |]; [simpl|reflexivity..].
  destruct (write _ _ _) as [l| |]; [simpl|reflexivity..]. rewrite Z.add_1_r, <- Nat2Z.inj_succ. apply IH.
Qed.

#[global] Instance bin_le_total : Total bin_le.
Proof. intros x y. unfold bin_le. lia. Qed.
#[global] Instance bin_le_trans : Transitive bin_le.
Proof. intros x y z. unfold bin_le. lia. Qed.

(** The pairs of bin and index of the particles. *)
Definition binned (bin : pdata_element -> run Z) (p : pdata) (n : nat) (x : Z * Z) : Prop :=
  exists e, m_ptl p !! n = Some e /\ bin e = Ret x.1 /\ x.2 = Z.of_nat n.

Lemma binned_value bin p n x : (bind! e := read (m_ptl p) (Z.of_nat n) in bind! b := bin e in Ret (b, Z.of_nat n)) = Ret x <-> binned bin p n x.
Proof.
  unfold read. rewrite Nat2Z.id. unfold binned. destruct (m_ptl p !! n) as [e|]; simpl.
  - destruct (bin e) as [b| |] eqn:Eb; simpl; split.
    + intros [= <-]. eauto.
    + intros (e' & [= <-] & E & E2). rewrite Eb in E. injection E as ->. destruct x. simpl in *. congruence.
    + discriminate.
    + intros (e' & [= <-] & E & _). congruence.
    + discriminate.
    + intros (e' & [= <-] & E & _). congruence.
  - split; [discriminate|]. intros (e' & [=] & _).
Qed.

(** Reading the front of an array back. *)
Lemma read_front {A B} (f : A -> B) (xs l : list A) (ys : list B) :
  Forall2 (fun j y => (bind! b := read (xs ++ l) (Z.of_nat j) in Ret (f b)) = Ret y) (seq 0 (length xs)) ys <-> ys = f <$> xs.
Proof.
  rewrite Forall2_same_length_lookup, length_seq. split.
  - intros [L H]. apply list_eq. intros j. rewrite list_lookup_fmap. destruct (decide (j < length xs)%nat) as [Hj|Hj].
    + destruct (lookup_lt_is_Some_2 ys j) as [y Hy]; [lia|]. destruct (lookup_lt_is_Some_2 xs j Hj) as [x Hx].
      specialize (H j j y ltac:(apply lookup_seq; lia) Hy). unfold read in H. rewrite Nat2Z.id, lookup_app_l, Hx in H by assumption.
      simpl in H. injection H as <-. rewrite Hx. exact Hy.
    + rewrite (lookup_ge_None_2 ys), (lookup_ge_None_2 xs) by lia. reflexivity.
  - intros ->. split; [now rewrite length_fmap|]. intros j j' y Hj Hy. apply lookup_seq in Hj as [-> Hj]. simpl in *.
    rewrite list_lookup_fmap in Hy. destruct (xs !! j) as [x|] eqn:Hx; [|discriminate]. injection Hy as <-.
    unfold read. rewrite Nat2Z.id, lookup_app_l, Hx by assumption. reflexivity.
Qed.

(** The sort order is made of the second components of the sorted pairs. *)
Lemma sort_order_ret bin p s s' : let N := Z.to_nat (getN p) in
  sort_order bin p s = Ret s' <->
  (N <= length (m_particle_bins s))%nat /\ (N <= length (m_sort_order s))%nat /\ exists xs, Forall2 (binned bin p) (seq 0 N) xs /\
    s' = set_sort_order ((snd <$> merge_sort bin_le xs) ++ drop N (m_sort_order s)) (set_bins (merge_sort bin_le xs ++ drop N (m_particle_bins s)) s).
Proof.
  cbn zeta. set (N := Z.to_nat (getN p)). unfold sort_order. fold N.
  assert (Sb : forall xs, length xs = N -> sort_bins N (xs ++ drop N (m_particle_bins s)) = merge_sort bin_le xs ++ drop N (m_particle_bins s)).
  { intros xs L. unfold sort_bins. rewrite take_app_le, take_ge by lia. rewrite drop_app_ge by lia. now rewrite L, Nat.sub_diag. }
  assert (Tr : forall xs order, length xs = N -> translate_order N 0 (merge_sort bin_le xs ++ drop N (m_particle_bins s)) (m_sort_order s) = Ret order <->
    (N <= length (m_sort_order s))%nat /\ order = (snd <$> merge_sort bin_le xs) ++ drop N (m_sort_order s)).
  { intros xs order L. change 0 with (Z.of_nat 0). rewrite translate_order_fill, fill_array_start.
    assert (Lm : length (merge_sort bin_le xs) = N) by (rewrite (Permutation_length (merge_sort_Permutation bin_le xs)); assumption).
    split.
    - intros (Hl & ys & F & ->). rewrite <- Lm in F. apply read_front in F as ->. auto.
    - intros (Hl & ->). split; [assumption|]. eexists. split; [|reflexivity]. rewrite <- Lm. now apply read_front. }
  change 0 with (Z.of_nat 0) at 1. rewrite bin_particles_fill. split.
  - intros (bins & (Hb & xs & F & ->)%fill_array_start & (order & T & [= <-])%bind_ret)%bind_ret.
    assert (L : length xs = N) by (apply Forall2_length in F; now rewrite length_seq in F).
    rewrite Sb in * by assumption. apply Tr in T as [Ho ->]; [|assumption]. split_and!; auto. exists xs. split; [|reflexivity].
    eapply Forall2_impl; [exact F|]. intros n x. apply binned_value.
  - intros (Hb & Ho & xs & F & ->). assert (L : length xs = N) by (apply Forall2_length in F; now rewrite length_seq in F).
    rewrite (proj2 (fill_array_start _ N (m_particle_bins s) (xs ++ drop N (m_particle_bins s)))).
    2: { split; [assumption|]. exists xs. split; [|reflexivity]. eapply Forall2_impl; [exact F|]. intros n x. apply binned_value. }
    simpl. rewrite Sb by assumption. rewrite (proj2 (Tr xs _ L) (conj Ho eq_refl)). reflexivity.
Qed.

(** * Applying the order *)

Lemma gather_ret {A} (data : list A) (order rest : list Z) : forall tmp,
  gather (length order) 0 (order ++ rest) data = Ret tmp <-> Forall2 (fun x e => data !! Z.to_nat x = Some e) order tmp.
Proof.
  enough (H : forall k l tmp, order = take k order ++ l -> (k + length l = length order)%nat ->
    gather (length l) (Z.of_nat k) (order ++ rest) data = Ret tmp <-> Forall2 (fun x e => data !! Z.to_nat x = Some e) l tmp)
    by (intros tmp; apply (H 0%nat order tmp); [reflexivity|lia]).
  intros k l. revert k. induction l as [|x l IH]; intros k tmp E L; simpl in *.
  - split; [intros [= <-]; constructor|]. intros F. inversion F. reflexivity.
  - assert (Hx : read (order ++ rest) (Z.of_nat k) = Ret x).
    { apply read_Some. rewrite Nat2Z.id, E, lookup_app_l by (rewrite length_app; simpl; rewrite length_take; lia).
      rewrite lookup_app_r by (rewrite length_take; lia). rewrite length_take. now replace (k - k `min` length order)%nat with 0%nat by lia. }
    rewrite Hx. simpl. assert (E' : order = take (S k) order ++ l).
    { rewrite (take_S_r _ _ x); [rewrite <- app_assoc; exact E|]. rewrite E, lookup_app_r by (rewrite length_take; lia).
      rewrite length_take. now replace (k - k `min` length order)%nat with 0%nat by lia. }
    rewrite Z.add_1_r, <- Nat2Z.inj_succ. split.
    + intros (e & Hr & (t & G & [= <-])%bind_ret)%bind_ret. apply read_ret in Hr. apply IH in G; [|assumption|lia]. now constructor.
    + intros F. inversion F as [|? e ? t He Ft]; subst. rewrite (read_Some _ _ e) by assumption. simpl.
      rewrite (proj2 (IH (S k) t E' ltac:(lia)) Ft). reflexivity.
Qed.

(** The sorted pairs name every local particle once. *)
Lemma binned_indices bin p N xs : Forall2 (binned bin p) (seq 0 N) xs -> snd <$> xs = Z.of_nat <$> seq 0 N.
Proof.
  intros F. apply list_eq. intros j. rewrite !list_lookup_fmap. rewrite Forall2_same_length_lookup, length_seq in F. destruct F as [L F].
  destruct (decide (j < N)%nat) as [Hj|Hj].
  - destruct (lookup_lt_is_Some_2 xs j) as [x Hx]; [lia|]. destruct (F j j x) as (e & _ & _ & E); [apply lookup_seq; lia|assumption|].
    rewrite Hx, lookup_seq_lt by lia. simpl. now rewrite E.
  - rewrite (lookup_ge_None_2 xs), lookup_seq_ge by lia. reflexivity.
Qed.

Section apply_order.
Variables (bin : pdata_element -> run Z) (p : pdata).
Hypothesis W : wf p.
Let N := Z.to_nat (getN p).
Variable xs : list (Z * Z).
Hypothesis F : Forall2 (binned bin p) (seq 0 N) xs.

Let sorted := merge_sort bin_le xs.

(** The particles in the new order. *)
Definition sorted_particles : list pdata_element := (fun x : Z * Z => element x.2 p) <$> merge_sort bin_le xs.

Lemma sorted_entry x : x ∈ sorted -> exists n, (n < N)%nat /\ x.2 = Z.of_nat n /\ m_ptl p !! n = Some (element x.2 p) /\ bin (element x.2 p) = Ret x.1.
Proof.
  unfold sorted. rewrite merge_sort_Permutation. intros [j Hx]%list_elem_of_lookup_1.
  rewrite Forall2_same_length_lookup, length_seq in F. destruct F as [L F']. pose proof (lookup_lt_Some _ _ _ Hx).
  destruct (F' j j x) as (e & He & Hb & E); [apply lookup_seq; lia|assumption|]. exists j. rewrite E.
  assert (Ee : element (Z.of_nat j) p = e) by (unfold element; apply zget_lookup; now rewrite Nat2Z.id). rewrite Ee. split_and!; auto; lia.
Qed.

Lemma sorted_particles_permutation : sorted_particles ≡ₚ particles p.
Proof.
  unfold sorted_particles. rewrite merge_sort_Permutation, (particles_seq p (wf_memory p W)).
  pose proof (binned_indices bin p N xs F) as E. apply (f_equal (fmap (fun x => element x p))) in E. rewrite <- !list_fmap_compose in E.
  unfold compose in E. rewrite E. reflexivity.
Qed.

Lemma length_sorted : length sorted = N.
Proof. unfold sorted. rewrite merge_sort_Permutation. apply Forall2_length in F. now rewrite length_seq in F. Qed.

(** The particle data after the sort. *)
Definition resorted : pdata :=
  let q := set_ptl (sorted_particles ++ drop N (m_ptl p)) p in
  notifyParticleSort (set_rtag (recompute_rtags N q (m_rtag p)) (m_rtag_size p) q).

Lemma apply_sorted s rest : m_sort_order s = (snd <$> sorted) ++ rest -> applySortOrder s p =
  Ret (set_rtag (recompute_rtags N (set_ptl (sorted_particles ++ drop N (m_ptl p)) p) (m_rtag p)) (m_rtag_size p)
    (set_ptl (sorted_particles ++ drop N (m_ptl p)) p)).
Proof.
  intros Es. unfold applySortOrder. fold N. rewrite Es. assert (G : gather N 0 ((snd <$> sorted) ++ rest) (m_ptl p) = Ret sorted_particles).
  { replace N with (length (snd <$> sorted)) at 1 by (rewrite length_fmap; apply length_sorted). apply gather_ret.
    unfold sorted_particles. apply Forall2_fmap_2, Forall_Forall2_diag. fold sorted. apply Forall_forall. intros x Hx.
    destruct (sorted_entry x Hx) as (n & Hn & E & He & _). rewrite E at 1. now rewrite Nat2Z.id. }
  rewrite G. reflexivity.
Qed.

Lemma particles_resorted : particles resorted = sorted_particles.
Proof.
  unfold particles, resorted. simpl. fold (getN p). fold N. rewrite take_app_le, take_ge; [reflexivity|..];
    unfold sorted_particles; rewrite length_fmap; fold sorted; rewrite length_sorted; lia.
Qed.

Lemma local_tags_resorted : local_tags resorted ≡ₚ local_tags p.
Proof.
  change (tag <$> particles resorted ≡ₚ tag <$> particles p). rewrite particles_resorted. apply fmap_Permutation, sorted_particles_permutation.
Qed.

Lemma resorted_wf : wf resorted.
Proof.
  pose proof (wf_memory p W) as M. pose proof (wf_N p M) as HN. pose proof (wf_ptl p M) as Lp.
  set (q := set_ptl (sorted_particles ++ drop N (m_ptl p)) p).
  assert (Mq : wf_mem q).
  { destruct M. constructor; simpl; auto. rewrite length_app, length_drop. unfold sorted_particles. rewrite length_fmap. fold sorted.
    rewrite length_sorted. unfold N, getN. lia. }
  assert (Lq : local_tags q = local_tags resorted) by reflexivity. pose proof local_tags_resorted as P.
  apply (rebuild_wf p); try reflexivity; [assumption|destruct Mq; constructor; assumption|..].
  - intros t Ht. rewrite P in Ht. now apply (wf_active p W).
  - change (rtag_ok (high_water p) (local_tags q) (recompute_rtags (Z.to_nat (m_nparticles q)) q (m_rtag p))).
    apply recompute_rtags_ok; [assumption|rewrite Lq, P; apply (wf_local_nodup p W)|..].
    + intros t Ht. rewrite Lq, P in Ht. now apply (wf_tag_bounds p W), (wf_active p W).
    + apply (wf_high_length p W).
    + intros t Ht Hn. rewrite Lq, P in Hn. now apply (rtag_ok_absent _ _ _ t (wf_rtag p W)).
Qed.

(** Found by its tag, every particle is what it was. *)
Lemma resorted_particle t : t ∈ local_tags p -> particle t resorted = particle t p.
Proof.
  intros [j Hj]%list_elem_of_lookup_1. unfold particle. rewrite (getRTag_at p j t W Hj).
  pose proof Hj as Hp. change (local_tags p) with (tag <$> particles p) in Hp. rewrite list_lookup_fmap in Hp.
  destruct (particles p !! j) as [e|] eqn:Ej; [|discriminate]. injection Hp as Et.
  assert (Ee : element (Z.of_nat j) p = e).
  { unfold element. apply zget_lookup. rewrite Nat2Z.id. unfold particles in Ej. apply lookup_take_Some in Ej as [Ej _]. exact Ej. }
  rewrite Ee. pose proof (list_elem_of_lookup_2 _ _ _ Ej) as He. rewrite <- sorted_particles_permutation, <- particles_resorted in He.
  apply list_elem_of_lookup_1 in He as [i Hi].
  assert (Li : local_tags resorted !! i = Some t).
  { change (local_tags resorted) with (tag <$> particles resorted). rewrite list_lookup_fmap, Hi. simpl. now rewrite Et. }
  rewrite (getRTag_at resorted i t resorted_wf Li). unfold element. apply zget_lookup. rewrite Nat2Z.id.
  unfold particles in Hi. apply lookup_take_Some in Hi as [Hi _]. exact Hi.
Qed.

(** The particles are in the order of their bins. *)
Lemma resorted_order i j e e' b b' : (i < j)%nat -> particles resorted !! i = Some e -> particles resorted !! j = Some e' ->
  bin e = Ret b -> bin e' = Ret b' -> b <= b'.
Proof.
  rewrite particles_resorted. unfold sorted_particles. rewrite !list_lookup_fmap. fold sorted. intros Hij.
  intros (x & Hx & ->)%fmap_Some (y & Hy & ->)%fmap_Some Eb Eb'.
  destruct (sorted_entry x) as (? & _ & _ & _ & Bx); [eapply list_elem_of_lookup_2, Hx|].
  destruct (sorted_entry y) as (? & _ & _ & _ & By); [eapply list_elem_of_lookup_2, Hy|].
  assert (x.1 = b /\ y.1 = b') as [<- <-] by (split; congruence).
  pose proof (StronglySorted_merge_sort bin_le xs) as S. fold sorted in S.
  assert (L : bin_le x y); [|unfold bin_le in L; lia].
  rewrite <- (take_drop j sorted) in S. apply (StronglySorted_app_1_elem_of _ _ _ x y S).
  - apply (list_elem_of_lookup_2 _ i). now rewrite lookup_take_lt.
  - apply (list_elem_of_lookup_2 _ 0). now rewrite lookup_drop, Nat.add_0_r.
Qed.

End apply_order.

(** * The sort as a change of the particle data *)

(** Which pairs an update that returns has sorted. *)
Lemma update_ret rsqrt dimensions p s q s' : wf p -> update rsqrt dimensions p s = Ret (q, s') ->
  exists bin xs, Forall2 (binned bin p) (seq 0 (Z.to_nat (getN p))) xs /\ q = resorted p xs.
Proof.
  intros W (s1 & Hs & (q1 & Ha & [= <- <-])%bind_ret)%bind_ret.
  assert (O : exists bin s0, sort_order bin p s0 = Ret s1).
  { destruct (dimensions =? 2); [eexists _, _; exact Hs|]. apply bind_ret in Hs as (s0 & _ & Hs). eexists _, _. exact Hs. }
  destruct O as (bin & s0 & (_ & _ & xs & F & ->)%sort_order_ret). exists bin, xs. split; [exact F|].
  erewrite (apply_sorted bin p xs F) in Ha by reflexivity. injection Ha as <-. reflexivity.
Qed.

(** A sort, by any sorter in any state. *)
Inductive sorting : pdata -> pdata -> Prop :=
| sort_particles rsqrt dimensions p s q s' : update rsqrt dimensions p s = Ret (q, s') -> sorting p q.

Lemma announced_resorted p xs : exists s, announced p (resorted p xs) s.
Proof. now apply (announced_sort p p). Qed.

#[global] Instance sorting_observable : Observable sorting wf.
Proof.
  split; [auto|..]; intros p q W S; revert W; destruct S as [rsqrt dimensions p s q s' U]; intros W; destruct (update_ret _ _ _ _ _ _ W U) as (bin & xs & F & ->).
  - now apply (resorted_wf bin).
  - apply announced_resorted.
Qed.

(** Without a domain decomposition sorts and the operations of the particle data
    interleave. *)
Lemma sorting_ok p q : ok p -> sorting p q -> ok q.
Proof.
  intros O S. revert O. destruct S as [rsqrt dimensions p s q s' U]. intros [W [R S]]. destruct (update_ret _ _ _ _ _ _ W U) as (bin & xs & F & ->).
  split; [now apply (resorted_wf bin)|]. split; [exact R|]. intros t Ht. rewrite (local_tags_resorted bin p W xs F). now apply S.
Qed.

Definition step_or_sort (p q : pdata) : Prop := step p q \/ sorting p q.

#[global] Instance step_or_sort_observable : Observable step_or_sort ok.
Proof.
  split; [now intros p [W _]|..]; intros p q O [S|S].
  - now apply (obs_step p q O S).
  - now apply (sorting_ok p).
  - now apply (obs_announced p q O S).
  - destruct O as [W _]. now apply (obs_announced (R := sorting) (I := wf) p q W S).
Qed.

(** * The traversal order *)

Lemma invert_order_spec reverse count : forall i order, NoDup reverse -> (i + count <= length reverse)%nat ->
  (forall x c, reverse !! x = Some c -> 0 <= c < Z.of_nat (length order)) ->
  exists order', invert_order count (Z.of_nat i) reverse order = Ret order' /\ length order' = length order /\
    (forall x c, reverse !! x = Some c -> order' !! Z.to_nat c = if decide (i <= x < i + count)%nat then Some (Z.of_nat x) else order !! Z.to_nat c).
Proof.
  induction count as [|count IH]; intros i order ND L B; simpl.
  { exists order. split_and!; auto. intros x c _. rewrite decide_False by lia. reflexivity. }
  destruct (lookup_lt_is_Some_2 reverse i) as [c Hc]; [lia|]. rewrite (read_Some _ _ c) by now rewrite Nat2Z.id. simpl.
  pose proof (B i c Hc) as Bc. rewrite write_in by assumption. simpl. rewrite Z.add_1_r, <- Nat2Z.inj_succ.
  destruct (IH (S i) (zset order c (Z.of_nat i))) as (order' & E & Le & H); [assumption|lia|intros x d Hd; rewrite length_zset; eauto|].
  exists order'. split_and!; [exact E|now rewrite Le, length_zset|]. intros x d Hd. rewrite (H x d Hd).
  destruct (decide (x = i)) as [->|Ne].
  - assert (d = c) as -> by congruence. rewrite decide_False, decide_True by lia. apply lookup_zset_eq. lia.
  - assert (D : d <> c) by (intros ->; apply Ne; eapply NoDup_lookup; eassumption). pose proof (B x d Hd).
    destruct (decide (S i <= x < S i + count)%nat); [rewrite decide_True by lia; reflexivity|].
    rewrite decide_False by lia. apply lookup_zset_ne. lia.
Qed.

(** The stored order is the inverse of the curve. *)
Definition traversal_for (grid : Z) (order : list Z) : Prop :=
  exists l, generateTraversalOrder 33 0 0 0 grid grid (seqZ 0 8) [] = Some l /\ l ≡ₚ seqZ 0 (grid * grid * grid) /\
    forall i c, l !! i = Some c -> order !! Z.to_nat c = Some (Z.of_nat i).

Definition power_grid (grid : Z) : Prop := exists n : nat, (n <= 10)%nat /\ grid = 2 ^ Z.of_nat n.

Lemma power_grid_width grid : power_grid grid -> 0 < grid <= 1024.
Proof. intros (n & Hn & ->). now apply grid_width. Qed.

(** The vectors have the size of the arrays of the particle data, and the order
    is up to date when the sorter believes so. *)
Record sorter_ok (p : pdata) (s : sorter) : Prop := {
  so_bins : length (m_particle_bins s) = Z.to_nat (m_max_nparticles p);
  so_order : length (m_sort_order s) = Z.to_nat (m_max_nparticles p);
  so_current : m_last_dim s = 3 -> traversal_for (m_last_grid s) (m_traversal_order s)
}.

Lemma regenerate_spec dimensions p s : sorter_ok p s -> power_grid (m_grid s) ->
  exists s', regenerate dimensions s = Ret s' /\ sorter_ok p s' /\ m_grid s' = m_grid s /\ traversal_for (m_grid s) (m_traversal_order s').
Proof.
  intros [B O C] G. pose proof (power_grid_width _ G) as Hg. unfold regenerate. destruct (negb _ || negb _) eqn:E.
  2: { zbool. exists s. split_and!; auto; [now constructor|]. replace (m_grid s) with (m_last_grid s) by assumption. now apply C. }
  destruct G as (n & Hn & Eg). rewrite Eg in *. rewrite generate_hilbert by lia. simpl ([] ++ _).
  pose proof (traversal_permutation n Hn) as P. set (l := cell_index _ <$> _) in *. set (g := 2 ^ Z.of_nat n) in *. rewrite (u32_small (g * g)), u32_small by (unfold is_u32; nia).
  assert (Ll : length l = Z.to_nat (g * g * g)) by (rewrite P; apply length_seqZ).
  destruct (invert_order_spec l (length l) 0 (replicate (Z.to_nat (g * g * g)) 0)) as (order & Eo & Lo & H).
  { rewrite P. apply NoDup_seqZ. }
  { lia. }
  { intros x c Hc. apply list_elem_of_lookup_2 in Hc. rewrite P in Hc. apply elem_of_seqZ in Hc. rewrite length_replicate. lia. }
  rewrite Ll in Eo. change (Z.of_nat 0) with 0 in Eo. rewrite Eo. simpl. eexists. split; [reflexivity|].
  assert (T : traversal_for g order).
  { exists l. split_and!; [unfold g; rewrite generate_hilbert by lia; reflexivity|exact P|].
    intros i c Hi. rewrite (H i c Hi). rewrite decide_True; [reflexivity|]. pose proof (lookup_lt_Some _ _ _ Hi). lia. }
  split_and!; [|assumption|assumption]. now constructor.
Qed.

(** The sorter is in this state from its construction on. *)
Lemma new_sorter_ok dimensions p : sorter_ok p (new_sorter dimensions p).
Proof. constructor; unfold new_sorter; cbn [m_particle_bins m_sort_order m_last_dim]; [apply length_array_resize..|discriminate]. Qed.

Lemma reallocate_orders_ok p q s : sorter_ok p s -> sorter_ok q (reallocate q s).
Proof. intros [_ _ C]. constructor; simpl; rewrite ?length_array_resize; auto. Qed.

Lemma setGrid_ok grid p s : sorter_ok p s -> 1 <= grid <= 1024 -> sorter_ok p (setGrid grid s) /\ power_grid (m_grid (setGrid grid s)) /\ grid <= m_grid (setGrid grid s).
Proof.
  intros [B O C] H. split; [now constructor|]. simpl. destruct (Z.eqb_spec grid 0); [lia|]. pose proof (Z.log2_up_nonneg grid). split.
  - exists (Z.to_nat (Z.log2_up grid)). rewrite Z2Nat.id by lia. split; [|reflexivity].
    assert (Z.log2_up grid <= 10) by (change 10 with (Z.log2_up 1024); apply Z.log2_up_le_mono; lia). lia.
  - destruct (decide (grid = 1)) as [->|]; [simpl; lia|]. apply Z.log2_up_spec. lia.
Qed.

(** * Bins *)

(** The two corrections never apply, because of the remainder before them. *)
Lemma bin_corrections_dead grid f : 0 < grid -> bin_coordinate grid f = (bind! z := to_uint (f * inject_Z grid)%Q in Ret (z mod grid)).
Proof.
  intros Hg. unfold bin_coordinate. destruct (to_uint _) as [z| |]; [simpl|reflexivity..]. destruct (Z.eqb_spec grid 0); [lia|].
  pose proof (Z.mod_pos_bound z grid Hg). destruct (Z.ltb_spec (z mod grid) 0); [lia|]. rewrite Z.geb_leb.
  destruct (Z.leb_spec grid (z mod grid)); [lia|]. reflexivity.
Qed.

(** The cell that holds the coordinate; the upper face belongs to the first one. *)
Lemma bin_coordinate_spec grid f : 0 < grid < 2 ^ 31 -> (0 <= f <= 1)%Q -> exists c, bin_coordinate grid f = Ret c /\ 0 <= c < grid /\
  (f < 1 -> inject_Z c <= f * inject_Z grid < inject_Z c + 1)%Q.
Proof.
  intros Hg [H0 H1]. rewrite bin_corrections_dead by lia.
  assert (G : (0 < inject_Z grid)%Q) by (change 0%Q with (inject_Z 0); rewrite <- Zlt_Qlt; lia).
  assert (P : (0 <= f * inject_Z grid)%Q) by nra. pose proof (Qtrunc_nonneg _ P) as [T1 T2]. set (z := Qtrunc (f * inject_Z grid)) in *.
  assert (Z0 : 0 <= z). { apply Zlt_succ_le. rewrite Zlt_Qlt. unfold Z.succ. rewrite inject_Z_plus. change (inject_Z 0) with 0%Q. change (inject_Z 1) with 1%Q. lra. }
  assert (Z1 : z <= grid) by (rewrite Zle_Qle; nra).
  unfold to_uint. fold z. destruct (Z.leb_spec 0 z); [|lia]. destruct (Z.ltb_spec z (2 ^ 32)); [|lia]. simpl. exists (z mod grid).
  split; [reflexivity|]. split; [apply Z.mod_pos_bound; lia|]. intros F. rewrite Z.mod_small; [auto|]. split; [exact Z0|]. rewrite Zlt_Qlt. nra.
Qed.

(** The fractional coordinates of the particle are in the unit cube. *)
Definition in_unit_cube (rsqrt : Scalar -> Scalar) (box : BoxDim.t) (e : pdata_element) : Prop :=
  let f := BoxDim.makeFraction rsqrt box (pos e) BoxDim.zero3 in (0 <= s3x f <= 1 /\ 0 <= s3y f <= 1 /\ 0 <= s3z f <= 1)%Q.

Lemma bin_3d_spec rsqrt grid box e : 0 < grid <= 1024 -> in_unit_cube rsqrt box e ->
  exists c, bin_3d rsqrt grid box e = Ret (cell_index grid c) /\ in_cube 0 0 0 grid c.
Proof.
  intros Hg (Fx & Fy & Fz). unfold bin_3d.
  destruct (bin_coordinate_spec grid _ ltac:(lia) Fx) as (i & -> & Hi & _). destruct (bin_coordinate_spec grid _ ltac:(lia) Fy) as (j & -> & Hj & _).
  destruct (bin_coordinate_spec grid _ ltac:(lia) Fz) as (k & -> & Hk & _). simpl. exists (i, j, k). split; [|simpl; lia].
  unfold cell_index. rewrite (u32_small (grid * grid)) by (unfold is_u32; nia). do 2 f_equal. ring.
Qed.

(** Sorting succeeds when every particle has a bin. *)
Lemma sort_order_total bin p s : wf p -> sorter_ok p s -> (forall e, e ∈ particles p -> exists b, bin e = Ret b) ->
  exists xs s', Forall2 (binned bin p) (seq 0 (Z.to_nat (getN p))) xs /\ sort_order bin p s = Ret s' /\ sorter_ok p s' /\
    m_grid s' = m_grid s /\ m_traversal_order s' = m_traversal_order s /\ applySortOrder s' p = Ret (set_signals (m_signals p) (resorted p xs)).
Proof.
  intros W [B O C] D. pose proof (wf_memory p W) as M. pose proof (wf_N p M) as HN. set (N := Z.to_nat (getN p)).
  assert (X : exists xs, Forall2 (binned bin p) (seq 0 N) xs).
  { assert (forall n, (n <= N)%nat -> exists xs, Forall2 (binned bin p) (seq 0 n) xs) as X; [|apply X; lia].
    induction n as [|n IH]; intros Hn; [exists []; constructor|]. destruct IH as [xs Hxs]; [lia|].
    destruct (lookup_lt_is_Some_2 (m_ptl p) n) as [e He]; [rewrite (wf_ptl p M); unfold N, getN in *; lia|].
    destruct (D e) as [b Hb]; [apply (list_elem_of_lookup_2 _ n); unfold particles; rewrite lookup_take_lt by (unfold N, getN in *; lia); assumption|].
    exists (xs ++ [(b, Z.of_nat n)]). rewrite seq_S. apply Forall2_app; [assumption|]. constructor; [|constructor]. now exists e. }
  destruct X as [xs F]. assert (L : length (merge_sort bin_le xs) = N) by (apply (length_sorted bin p xs F)).
  eexists xs, _. split; [exact F|]. split; [apply sort_order_ret; split_and!; [| |exists xs; split; [exact F|reflexivity]]; unfold getN; lia|].
  split_and!; [|reflexivity|reflexivity|].
  - fold N. constructor; simpl; auto; rewrite length_app, length_drop, ?length_fmap, L; unfold N, getN; lia.
  - erewrite (apply_sorted bin p xs F) by reflexivity. reflexivity.
Qed.

(** C8. Sorting a three-dimensional system whose particles lie in the box succeeds
    and reorders the particles along the Hilbert curve: the particle data stays
    consistent, holds the same particles, finds every particle by its tag with
    unchanged properties, and lists them in the order in which the curve visits
    their cells. The sort announces itself, and the sorter can be used again. *)
Theorem sort_along_curve (rsqrt : Scalar -> Scalar) (dimensions : Z) (p : pdata) (s : sorter) (W : wf p) (S : sorter_ok p s)
  (D : dimensions <> 2) (G : power_grid (m_grid s)) (In : forall e, e ∈ particles p -> in_unit_cube rsqrt (m_global_box p) e) :
  exists q s' l, update rsqrt dimensions p s = Ret (q, s') /\ wf q /\ sorter_ok q s' /\ m_grid s' = m_grid s /\
    m_signals q = m_signals p ++ [sort_signal] /\ particles q ≡ₚ particles p /\
    (forall t, t ∈ local_tags p -> t ∈ local_tags q /\ particle t q = particle t p) /\
    generateTraversalOrder 33 0 0 0 (m_grid s) (m_grid s) (seqZ 0 8) [] = Some l /\
    (forall e, e ∈ particles q -> exists c, bin_3d rsqrt (m_grid s) (m_global_box p) e = Ret c /\ c ∈ l) /\
    (forall i j e e' a b c c', (i < j)%nat -> particles q !! i = Some e -> particles q !! j = Some e' ->
       bin_3d rsqrt (m_grid s) (m_global_box p) e = Ret c -> bin_3d rsqrt (m_grid s) (m_global_box p) e' = Ret c' ->
       l !! a = Some c -> l !! b = Some c' -> (a <= b)%nat).
Proof.
  destruct (regenerate_spec dimensions p s S G) as (s1 & R & S1 & Eg & (l & Gl & Pl & Inv)). pose proof (power_grid_width _ G) as Hg.
  set (bin := fun e => bind! bin := bin_3d rsqrt (m_grid s) (m_global_box p) e in read (m_traversal_order s1) bin).
  assert (Cells : forall e, e ∈ particles p -> exists c, bin_3d rsqrt (m_grid s) (m_global_box p) e = Ret c /\ c ∈ l).
  { intros e He. destruct (bin_3d_spec rsqrt (m_grid s) (m_global_box p) e Hg (In e He)) as (c & E & Hc). eexists. split; [exact E|].
    rewrite Pl. apply elem_of_seqZ. destruct (cell_of_index _ c Hg Hc). lia. }
  assert (Key : forall e c a, bin_3d rsqrt (m_grid s) (m_global_box p) e = Ret c -> l !! a = Some c -> bin e = Ret (Z.of_nat a)).
  { intros e c a E Ha. unfold bin. rewrite E. simpl. apply read_Some. now apply Inv. }
  destruct (sort_order_total bin p s1 W S1) as (xs & s2 & F & O & S2 & Eg2 & _ & A).
  { intros e He. destruct (Cells e He) as (c & E & [a Ha]%list_elem_of_lookup_1). eauto. }
  exists (resorted p xs), s2, l. split.
  { unfold update. destruct (Z.eqb_spec dimensions 2); [contradiction|]. unfold getSortedOrder3D. rewrite R. simpl. rewrite Eg. fold bin. rewrite O. simpl. now rewrite A. }
  assert (Pp : particles (resorted p xs) ≡ₚ particles p) by (rewrite (particles_resorted bin p xs F); now apply (sorted_particles_permutation bin)).
  split_and!; [now apply (resorted_wf bin)|destruct S2; now constructor|congruence|reflexivity|exact Pp| |exact Gl| |].
  - intros t Ht. split; [now rewrite (local_tags_resorted bin p W xs F)|now apply (resorted_particle bin)].
  - intros e He. rewrite Pp in He. now apply Cells.
  - intros i j e e' a b c c' Hij He He' E E' Ha Hb. pose proof (Key e c a E Ha). pose proof (Key e' c' b E' Hb).
    enough (Z.of_nat a <= Z.of_nat b) by lia. eapply (resorted_order bin p xs F i j); eassumption.
Qed.

Lemma sort_along_curve_witness : exists q s', update (fun x => x) 3 loaded3 (new_sorter 3 loaded3) = Ret (q, s') /\ particles q ≡ₚ particles loaded3.
Proof.
  destruct (sort_along_curve (fun x => x) 3 loaded3 (new_sorter 3 loaded3)) as (q & s' & l & E & _ & _ & _ & _ & P & _).
  - apply loaded3_ok.
  - apply new_sorter_ok.
  - discriminate.
  - exists 8%nat. split; [lia|reflexivity].
  - intros e He. repeat (apply elem_of_cons in He as [->|He]; [vm_compute; repeat split; discriminate|]). now apply elem_of_nil in He.
  - exists q, s'. split; [exact E|exact P].
Defined.

(** In two dimensions the particles are sorted by rows of cells. *)
Lemma sort_rows rsqrt p s : wf p -> sorter_ok p s -> 0 < m_grid s <= 4096 ->
  (forall e, e ∈ particles p -> let f := BoxDim.makeFraction rsqrt (m_global_box p) (pos e) BoxDim.zero3 in (0 <= s3x f <= 1 /\ 0 <= s3y f <= 1)%Q) ->
  exists q s', update rsqrt 2 p s = Ret (q, s') /\ wf q /\ sorter_ok q s' /\ particles q ≡ₚ particles p /\
    (forall t, t ∈ local_tags p -> particle t q = particle t p) /\
    forall i j e e' c c', (i < j)%nat -> particles q !! i = Some e -> particles q !! j = Some e' ->
      bin_2d rsqrt (m_grid s) (m_global_box p) e = Ret c -> bin_2d rsqrt (m_grid s) (m_global_box p) e' = Ret c' -> c <= c'.
Proof.
  intros W S Hg In. set (bin := bin_2d rsqrt (m_grid s) (m_global_box p)). destruct (sort_order_total bin p s W S) as (xs & s2 & F & O & S2 & Eg2 & _ & A).
  { intros e He. destruct (In e He) as [Fx Fy]. unfold bin, bin_2d.
    destruct (bin_coordinate_spec (m_grid s) _ ltac:(lia) Fx) as (i & -> & _). destruct (bin_coordinate_spec (m_grid s) _ ltac:(lia) Fy) as (j & -> & _).
    simpl. eauto. }
  exists (resorted p xs), s2. split; [unfold update, getSortedOrder2D; simpl; fold bin; rewrite O; simpl; now rewrite A|].
  split_and!; [now apply (resorted_wf bin)|destruct S2; now constructor| | |].
  - rewrite (particles_resorted bin p xs F). now apply (sorted_particles_permutation bin).
  - intros t Ht. now apply (resorted_particle bin).
  - intros. eapply (resorted_order bin p xs F i j); eassumption.
Qed.

(** A particle on the upper face is put into the first cell, not moved back into
    the last one. *)
Lemma upper_face_bin : bin_coordinate 256 1 = Ret 0.
Proof. reflexivity. Qed.

(** The number of cells of a grid of width 2048 wraps around to zero: the stored
    order is empty, and the first particle reads outside of it. *)
Lemma wide_grid_empty dimensions s s' : m_grid s = 2048 -> m_last_grid s <> 2048 -> regenerate dimensions s = Ret s' -> m_traversal_order s' = [].
Proof.
  intros E Ne. unfold regenerate. rewrite E. destruct (Z.eqb_spec (m_last_grid s) 2048); [contradiction|]. cbn [negb orb].
  change (Z.to_nat (u32 (u32 (2048 * 2048) * 2048))) with 0%nat. destruct (generateTraversalOrder _ _ _ _ _ _ _ _); [|discriminate].
  simpl. now intros [= <-].
Qed.
