(* ===== verification/PairEvaluators.v ===== *)
(** The pair potential evaluators ([hoomd/md/EvaluatorPair*.h]).

    The definitions of a class carry its name: its parameter type, the constructor
    from the dictionary of the user ([_make], where it computes anything) and
    [evalForceAndEnergy] ([_eval]). The output arguments are the result: [None] when
    the method returns false, otherwise the force divided by the distance and the
    energy. Parameters that a class keeps only to print them are left out. The scalar type is the class of
    operations of [VectorMath], extended by literals and the functions of
    [hoomd/HOOMDMath.h] that the evaluators call; rounding is not modelled. The
    long-range corrections that return zero, names and device code are left out. *)

From Stdlib Require Import ZArith QArith List Reals.
From S2P Require Import Prelude VectorMath.
Import ListNotations.

(** * Literals and functions *)

Class RealFun (R : Type) := {
  lit : Q -> R;
  rexp : R -> R;        (* fast::exp *)
  rlog : R -> R;        (* slow::log *)
  rpow : R -> R -> R;   (* fast::pow *)
  rpi : R               (* M_PI *)
}.
Arguments lit {R _} q%_Q.

(** The real numbers; [Rpower] is the power of a positive number. *)
#[export] Instance R_fun : RealFun R := {|
  lit := fun q => (IZR (Qnum q) / IZR (Zpos (Qden q)))%R;
  rexp := exp; rlog := ln; rpow := Rpower; rpi := PI |}.

(** * The interface *)

(** A class that [PotentialPair] accepts: parameters, whether [setCharge] is
    called, the evaluation for the charges, the squared distance, the squared
    cutoff and the request to shift the energy, and the long-range integrals for
    the squared cutoff. *)
Record evaluator (R : Type) := mkEvaluator {
  param_type : Type;
  needsCharge : bool;
  evalForceAndEnergy : param_type -> R -> R -> R -> R -> bool -> option (R * R);
  evalPressureLRCIntegral : param_type -> R -> R;
  evalEnergyLRCIntegral : param_type -> R -> R
}.
Arguments mkEvaluator {R} param_type needsCharge evalForceAndEnergy evalPressureLRCIntegral evalEnergyLRCIntegral.
Arguments param_type {R} e.
Arguments needsCharge {R} e.
Arguments evalForceAndEnergy {R} e p qi qj rsq rcutsq energy_shift.
Arguments evalPressureLRCIntegral {R} e p rcutsq.
Arguments evalEnergyLRCIntegral {R} e p rcutsq.

Section evaluators.
Context {R : Type} `{RealOps R} `{RealFun R}.
Local Open Scope real_scope.
Local Notation "a < b" := (rltb a b) : real_scope.

(** [a != 0] *)
Definition nonzero (a : R) : bool := negb (reqb a r0).

(** [if (energy_shift) pair_eng -= cut;] *)
Definition shifted (energy_shift : bool) (pair_eng cut : R) : R := if energy_shift then pair_eng - cut else pair_eng.

(** The evaluators other than LJ have no long-range correction: both integrals
    return 0. *)
Definition truncated (param_type : Type) (needsCharge : bool) (eval : param_type -> R -> R -> R -> R -> bool -> option (R * R)) : evaluator R :=
  mkEvaluator param_type needsCharge eval (fun _ _ => r0) (fun _ _ => r0).

(** * Lennard-Jones and its relatives *)

Record LJ_params := mkLJ { sigma_6 : R; epsilon_x_4 : R }.

Definition LJ_make (sigma epsilon : R) : LJ_params := mkLJ (sigma * sigma * sigma * sigma * sigma * sigma) (lit 4 * epsilon).

Definition LJ_eval (p : LJ_params) (rsq rcutsq : R) (energy_shift : bool) : option (R * R) :=
  let lj1 := epsilon_x_4 p * sigma_6 p * sigma_6 p in
  let lj2 := epsilon_x_4 p * sigma_6 p in
  if (rsq < rcutsq) && nonzero lj1 then
    let r2inv := lit 1 / rsq in
    let r6inv := r2inv * r2inv * r2inv in
    let force_divr := r2inv * r6inv * lit 6 * (lit 2 * lj1 * r6inv - lj2) in
    let pair_eng := r6inv * (lj1 * r6inv - lj2) in
    let rcut2inv := lit 1 / rcutsq in
    let rcut6inv := rcut2inv * rcut2inv * rcut2inv in
    Some (force_divr, shifted energy_shift pair_eng (rcut6inv * (lj1 * rcut6inv - lj2)))
  else None.

(** [evalPressureLRCIntegral] and [evalEnergyLRCIntegral] *)
Definition LJ_pressure_lrc (p : LJ_params) (rcutsq : R) : R :=
  if reqb rcutsq r0 then lit 0
  else
    let lj1 := epsilon_x_4 p * sigma_6 p * sigma_6 p in
    let lj2 := epsilon_x_4 p * sigma_6 p in
    let rcut3inv := lit 1 / rpow rcutsq (lit 1.5) in
    let rcut9inv := rcut3inv * rcut3inv * rcut3inv in
    lj1 * lit 4 / lit 3 * rcut9inv - lj2 * lit 2 * rcut3inv.

Definition LJ_energy_lrc (p : LJ_params) (rcutsq : R) : R :=
  if reqb rcutsq r0 then lit 0
  else
    let lj1 := epsilon_x_4 p * sigma_6 p * sigma_6 p in
    let lj2 := epsilon_x_4 p * sigma_6 p in
    let rcut3inv := lit 1 / rpow rcutsq (lit 1.5) in
    let rcut9inv := rcut3inv * rcut3inv * rcut3inv in
    lj1 / lit 9 * rcut9inv - lj2 / lit 3 * rcut3inv.

Definition LJ : evaluator R := mkEvaluator LJ_params false (fun p _ _ => LJ_eval p) LJ_pressure_lrc LJ_energy_lrc.

(** The parameter type of LJ is shared. *)
Definition ForceShiftedLJ_eval (p : LJ_params) (rsq rcutsq : R) (energy_shift : bool) : option (R * R) :=
  let lj1 := epsilon_x_4 p * sigma_6 p * sigma_6 p in
  let lj2 := epsilon_x_4 p * sigma_6 p in
  if (rsq < rcutsq) && nonzero lj1 then
    let r2inv := lit 1 / rsq in
    let r6inv := r2inv * r2inv * r2inv in
    let force_divr := r2inv * r6inv * (lit 12 * lj1 * r6inv - lit 6 * lj2) in
    let pair_eng := r6inv * (lj1 * r6inv - lj2) in
    let rcut2inv := lit 1 / rcutsq in
    let rcut6inv := rcut2inv * rcut2inv * rcut2inv in
    let pair_eng := shifted energy_shift pair_eng (rcut6inv * (lj1 * rcut6inv - lj2)) in
    let rcut_r_inv := rinv_sqrt (rsq * rcutsq) in
    let force_rcut_at_rcut := rcut6inv * (lit 12 * lj1 * rcut6inv - lit 6 * lj2) in
    Some (force_divr - rcut_r_inv * force_rcut_at_rcut, pair_eng + (rsq * rcut_r_inv - lit 1) * force_rcut_at_rcut)
  else None.

Definition ForceShiftedLJ : evaluator R := truncated LJ_params false (fun p _ _ => ForceShiftedLJ_eval p).

Record LJ4_params := mkLJ4 { sigma_4 : R; epsilon_x_4' : R }.

Definition LJ4_make (sigma epsilon : R) : LJ4_params := mkLJ4 (sigma * sigma * sigma * sigma) (lit 4 * epsilon).

Definition LJ0804_eval (p : LJ4_params) (rsq rcutsq : R) (energy_shift : bool) : option (R * R) :=
  let lj1 := epsilon_x_4' p * sigma_4 p * sigma_4 p in
  let lj2 := epsilon_x_4' p * sigma_4 p in
  if (rsq < rcutsq) && nonzero lj1 then
    let r2inv := lit 1 / rsq in
    let r4inv := r2inv * r2inv in
    let force_divr := r2inv * r4inv * (lit 8 * lj1 * r4inv - lit 4 * lj2) in
    let pair_eng := r4inv * (lj1 * r4inv - lj2) in
    let rcut2inv := lit 1 / rcutsq in
    let rcut4inv := rcut2inv * rcut2inv in
    Some (force_divr, shifted energy_shift pair_eng (rcut4inv * (lj1 * rcut4inv - lj2)))
  else None.

Definition LJ0804 : evaluator R := truncated LJ4_params false (fun p _ _ => LJ0804_eval p).

Definition LJ1208_eval (p : LJ4_params) (rsq rcutsq : R) (energy_shift : bool) : option (R * R) :=
  let lj1 := epsilon_x_4' p * sigma_4 p * sigma_4 p * sigma_4 p in
  let lj2 := epsilon_x_4' p * sigma_4 p * sigma_4 p in
  if (rsq < rcutsq) && nonzero lj1 then
    let r2inv := lit 1 / rsq in
    let r4inv := r2inv * r2inv in
    let r8inv := r4inv * r4inv in
    let force_divr := r2inv * r8inv * (lit 12 * lj1 * r4inv - lit 8 * lj2) in
    let pair_eng := r8inv * (lj1 * r4inv - lj2) in
    let rcut2inv := lit 1 / rcutsq in
    let rcut4inv := rcut2inv * rcut2inv in
    let rcut8inv := rcut4inv * rcut4inv in
    Some (force_divr, shifted energy_shift pair_eng (rcut8inv * (lj1 * rcut4inv - lj2)))
  else None.

Definition LJ1208 : evaluator R := truncated LJ4_params false (fun p _ _ => LJ1208_eval p).

Record ExpandedLJ_params := mkExpandedLJ { x_sigma_6 : R; x_epsilon_x_4 : R; x_delta : R }.

Definition ExpandedLJ_make (sigma epsilon delta : R) : ExpandedLJ_params :=
  let sigma_3 := sigma * sigma * sigma in
  mkExpandedLJ (sigma_3 * sigma_3) (lit 4 * epsilon) delta.

Definition ExpandedLJ_eval (p : ExpandedLJ_params) (rsq rcutsq : R) (energy_shift : bool) : option (R * R) :=
  let lj1 := x_epsilon_x_4 p * x_sigma_6 p * x_sigma_6 p in
  let lj2 := x_epsilon_x_4 p * x_sigma_6 p in
  let delta := x_delta p in
  let rinv := rinv_sqrt rsq in
  let r := lit 1 / rinv in
  if (rsq < rcutsq) && nonzero lj1 then
    let rmd := r - delta in
    let rmdinv := lit 1 / rmd in
    let rmd2inv := rmdinv * rmdinv in
    let rmd6inv := rmd2inv * rmd2inv * rmd2inv in
    let force_divr := rinv * rmdinv * rmd6inv * (lit 12 * lj1 * rmd6inv - lit 6 * lj2) in
    let pair_eng := rmd6inv * (lj1 * rmd6inv - lj2) in
    let r_cut := rsqrt rcutsq in
    let r_cut_shifted := r_cut - delta in
    let r_cut_shifted_inv := lit 1 / r_cut_shifted in
    let r_cut2_inv := r_cut_shifted_inv * r_cut_shifted_inv in
    let r_cut6_inv := r_cut2_inv * r_cut2_inv * r_cut2_inv in
    Some (force_divr, shifted energy_shift pair_eng (r_cut6_inv * (lj1 * r_cut6_inv - lj2)))
  else None.

Definition ExpandedLJ : evaluator R := truncated ExpandedLJ_params false (fun p _ _ => ExpandedLJ_eval p).

(** * Exponentials *)

Record Gauss_params := mkGauss { g_epsilon : R; g_sigma : R }.

Definition Gauss_eval (p : Gauss_params) (rsq rcutsq : R) (energy_shift : bool) : option (R * R) :=
  let epsilon := g_epsilon p in
  if rsq < rcutsq then
    let sigma_sq := g_sigma p * g_sigma p in
    let r_over_sigma_sq := rsq / sigma_sq in
    let exp_val := rexp (- lit 1 / lit 2 * r_over_sigma_sq) in
    let force_divr := epsilon / sigma_sq * exp_val in
    let pair_eng := epsilon * exp_val in
    Some (force_divr, shifted energy_shift pair_eng (epsilon * rexp (- lit 1 / lit 2 * rcutsq / sigma_sq)))
  else None.

Definition Gauss : evaluator R := truncated Gauss_params false (fun p _ _ => Gauss_eval p).

Record ExpandedGaussian_params := mkXG { xg_epsilon : R; xg_sigma : R; xg_delta : R }.

Definition ExpandedGaussian_eval (p : ExpandedGaussian_params) (rsq rcutsq : R) (energy_shift : bool) : option (R * R) :=
  let epsilon := xg_epsilon p in
  let delta := xg_delta p in
  let r := rsqrt rsq in
  let rcut := rsqrt rcutsq in
  let rinv := lit 1 / r in
  if rsq < rcutsq then
    let rmd := r - delta in
    let rmd_sq := (r - delta) * (r - delta) in
    let sigma_sq := xg_sigma p * xg_sigma p in
    let rmd_over_sigma_sq := rmd_sq / sigma_sq in
    let exp_val := rexp (- lit 1 / lit 2 * rmd_over_sigma_sq) in
    let force_divr := epsilon / sigma_sq * exp_val * rmd * rinv in
    let pair_eng := epsilon * exp_val in
    let rcutmd_sq := (rcut - delta) * (rcut - delta) in
    let rcutmd_over_sigma_sq := rcutmd_sq / sigma_sq in
    Some (force_divr, shifted energy_shift pair_eng (epsilon * rexp (- lit 1 / lit 2 * rcutmd_over_sigma_sq)))
  else None.

Definition ExpandedGaussian : evaluator R := truncated ExpandedGaussian_params false (fun p _ _ => ExpandedGaussian_eval p).

Record Yukawa_params := mkYukawa { y_epsilon : R; y_kappa : R }.

Definition Yukawa_eval (p : Yukawa_params) (rsq rcutsq : R) (energy_shift : bool) : option (R * R) :=
  let epsilon := y_epsilon p in
  let kappa := y_kappa p in
  if (rsq < rcutsq) && nonzero epsilon then
    let rinv := rinv_sqrt rsq in
    let r := lit 1 / rinv in
    let r2inv := lit 1 / rsq in
    let exp_val := rexp (- kappa * r) in
    let force_divr := epsilon * exp_val * r2inv * (rinv + kappa) in
    let pair_eng := epsilon * exp_val * rinv in
    let rcutinv := rinv_sqrt rcutsq in
    let rcut := lit 1 / rcutinv in
    Some (force_divr, shifted energy_shift pair_eng (epsilon * rexp (- kappa * rcut) * rcutinv))
  else None.

Definition Yukawa : evaluator R := truncated Yukawa_params false (fun p _ _ => Yukawa_eval p).

Record Morse_params := mkMorse { D0 : R; m_alpha : R; m_r0 : R }.

Definition Morse_eval (p : Morse_params) (rsq rcutsq : R) (energy_shift : bool) : option (R * R) :=
  let alpha := m_alpha p in
  if rsq < rcutsq then
    let r := rsqrt rsq in
    let Exp_factor := rexp (- alpha * (r - m_r0 p)) in
    let pair_eng := D0 p * Exp_factor * (Exp_factor - lit 2) in
    let force_divr := lit 2 * D0 p * alpha * Exp_factor * (Exp_factor - lit 1) / r in
    let rcut := rsqrt rcutsq in
    let Exp_factor_cut := rexp (- alpha * (rcut - m_r0 p)) in
    Some (force_divr, shifted energy_shift pair_eng (D0 p * Exp_factor_cut * (Exp_factor_cut - lit 2)))
  else None.

Definition Morse : evaluator R := truncated Morse_params false (fun p _ _ => Morse_eval p).

Record Buckingham_params := mkBuckingham { b_A : R; b_rho : R; b_C : R }.

Definition Buckingham_eval (p : Buckingham_params) (rsq rcutsq : R) (energy_shift : bool) : option (R * R) :=
  let A := b_A p in
  let rho := b_rho p in
  let C := b_C p in
  if (rsq < rcutsq) && (lit 0 < rho) then
    let r := rsqrt rsq in
    let Exp_factor := A * rexp (- r / rho) in
    let r2inv := lit 1 / rsq in
    let r6inv := r2inv * r2inv * r2inv in
    let force_divr := (Exp_factor / (rho * r)) - (r2inv * r6inv * lit 6 * C) in
    let pair_eng := Exp_factor - r6inv * C in
    let rcut := rsqrt rcutsq in
    let Exp_factor_cut := A * rexp (- rcut / rho) in
    let rcut2inv := lit 1 / rcutsq in
    let rcut6inv := rcut2inv * rcut2inv * rcut2inv in
    Some (force_divr, shifted energy_shift pair_eng (Exp_factor_cut - rcut6inv * C))
  else None.

Definition Buckingham : evaluator R := truncated Buckingham_params false (fun p _ _ => Buckingham_eval p).

Record Screened_params := mkScreened { s_qi : R; s_qj : R; aF : R }.

Definition Moliere_eval (p : Screened_params) (rsq rcutsq : R) (energy_shift : bool) : option (R * R) :=
  let Zsq := s_qi p * s_qj p in
  let aF := aF p in
  if (rsq < rcutsq) && nonzero Zsq && nonzero aF then
    let r2inv := lit 1 / rsq in
    let rinv := rinv_sqrt rsq in
    let exp1 := lit 0.35 * rexp (lit (-0.3) / aF / rinv) in
    let exp2 := lit 0.55 * rexp (lit (-1.2) / aF / rinv) in
    let exp3 := lit 0.1 * rexp (lit (-6) / aF / rinv) in
    let force_divr := rinv * (exp1 + exp2 + exp3) in
    let force_divr := force_divr + lit 1 / aF * (lit 0.3 * exp1 + lit 1.2 * exp2 + lit 6 * exp3) in
    let force_divr := force_divr * (Zsq * r2inv) in
    let pair_eng := Zsq * rinv * (exp1 + exp2 + exp3) in
    let rcutinv := rinv_sqrt rcutsq in
    let expcut1 := lit 0.35 * rexp (lit (-0.3) / aF / rcutinv) in
    let expcut2 := lit 0.55 * rexp (lit (-1.2) / aF / rcutinv) in
    let expcut3 := lit 0.1 * rexp (lit (-6) / aF / rcutinv) in
    Some (force_divr, shifted energy_shift pair_eng (Zsq * rcutinv * (expcut1 + expcut2 + expcut3)))
  else None.

Definition Moliere : evaluator R := truncated Screened_params false (fun p _ _ => Moliere_eval p).

(** The energy is not shifted. *)
Definition ZBL_eval (p : Screened_params) (rsq rcutsq : R) (energy_shift : bool) : option (R * R) :=
  let Zsq := s_qi p * s_qj p in
  let aF := aF p in
  if (rsq < rcutsq) && nonzero Zsq && nonzero aF then
    let r2inv := lit 1 / rsq in
    let rinv := rinv_sqrt rsq in
    let exp1 := lit 0.1818 * rexp (lit (-3.2) / aF / rinv) in
    let exp2 := lit 0.5099 * rexp (lit (-0.9423) / aF / rinv) in
    let exp3 := lit 0.2802 * rexp (lit (-0.4029) / aF / rinv) in
    let exp4 := lit 0.02817 * rexp (lit (-0.2016) / aF / rinv) in
    let force_divr := rinv * (exp1 + exp2 + exp3 + exp4) in
    let force_divr := force_divr + lit 1 / aF * (lit 3.2 * exp1 + lit 0.9423 * exp2 + lit 0.4029 * exp3 + lit 0.2016 * exp4) in
    let force_divr := force_divr * (Zsq * r2inv) in
    Some (force_divr, Zsq * rinv * (exp1 + exp2 + exp3 + exp4))
  else None.

Definition ZBL : evaluator R := truncated Screened_params false (fun p _ _ => ZBL_eval p).

(** [EvaluatorPairDPDThermoDPD::evalForceAndEnergy]: the conservative part. *)
Record DPD_params := mkDPD { d_A : R; d_gamma : R }.

Definition DPD_eval (p : DPD_params) (rsq rcutsq : R) (energy_shift : bool) : option (R * R) :=
  let a := d_A p in
  if rsq < rcutsq then
    let rinv := rinv_sqrt rsq in
    let r := lit 1 / rinv in
    let rcutinv := rinv_sqrt rcutsq in
    let rcut := lit 1 / rcutinv in
    let force_divr := a * (rinv - rcutinv) in
    Some (force_divr, a * (rcut - r) - lit 0.5 * a * rcutinv * (rcutsq - rsq))
  else None.

Definition DPD : evaluator R := truncated DPD_params false (fun p _ _ => DPD_eval p).

(** * Powers *)

Record Mie_params := mkMie { m1 : R; m2 : R; m3 : R; m4 : R }.

Definition Mie_make (epsilon sigma n m : R) : Mie_params :=
  let outFront := (n / (n - m)) * rpow (n / m) (m / (n - m)) in
  mkMie (outFront * epsilon * rpow sigma n) (outFront * epsilon * rpow sigma m) n m.

Definition Mie_eval (p : Mie_params) (rsq rcutsq : R) (energy_shift : bool) : option (R * R) :=
  let mie1 := m1 p in let mie2 := m2 p in let mie3 := m3 p in let mie4 := m4 p in
  if (rsq < rcutsq) && nonzero mie1 then
    let r2inv := lit 1 / rsq in
    let rninv := rpow r2inv (mie3 / lit 2) in
    let rminv := rpow r2inv (mie4 / lit 2) in
    let force_divr := r2inv * (mie3 * mie1 * rninv - mie4 * mie2 * rminv) in
    let pair_eng := mie1 * rninv - mie2 * rminv in
    let rcutninv := rpow rcutsq (- mie3 / lit 2) in
    let rcutminv := rpow rcutsq (- mie4 / lit 2) in
    Some (force_divr, shifted energy_shift pair_eng (mie1 * rcutninv - mie2 * rcutminv))
  else None.

Definition Mie : evaluator R := truncated Mie_params false (fun p _ _ => Mie_eval p).

Record ExpandedMie_params := mkXMie { repulsive : R; attractive : R; n_pow : R; m_pow : R; xm_delta : R }.

Definition ExpandedMie_make (epsilon sigma n m delta : R) : ExpandedMie_params :=
  let prefactor := (n / (n - m)) * rpow (n / m) (m / (n - m)) in
  mkXMie (prefactor * epsilon * rpow sigma n) (prefactor * epsilon * rpow sigma m) n m delta.

Definition ExpandedMie_eval (p : ExpandedMie_params) (rsq rcutsq : R) (energy_shift : bool) : option (R * R) :=
  let rinv := rinv_sqrt rsq in
  let r := lit 1 / rinv in
  if (rsq < rcutsq) && nonzero (repulsive p) then
    let rmd := r - xm_delta p in
    let rmdinv := lit 1 / rmd in
    let rmd2inv := rmdinv * rmdinv in
    let rmdninv := rpow rmd2inv (n_pow p / lit 2) in
    let rmdminv := rpow rmd2inv (m_pow p / lit 2) in
    let force_divr := rinv * rmdinv * (n_pow p * repulsive p * rmdninv - m_pow p * attractive p * rmdminv) in
    let pair_eng := repulsive p * rmdninv - attractive p * rmdminv in
    let r_cut := rsqrt rcutsq in
    let r_cut_shifted := r_cut - xm_delta p in
    let r_cut_n_inv := rpow r_cut_shifted (- n_pow p) in
    let r_cut_m_inv := rpow r_cut_shifted (- m_pow p) in
    Some (force_divr, shifted energy_shift pair_eng (repulsive p * r_cut_n_inv - attractive p * r_cut_m_inv))
  else None.

Definition ExpandedMie : evaluator R := truncated ExpandedMie_params false (fun p _ _ => ExpandedMie_eval p).

Record OPP_params := mkOPP { C1 : R; C2 : R; eta1 : R; eta2 : R; o_k : R; o_phi : R }.

Definition OPP_eval (p : OPP_params) (rsq rcutsq : R) (energy_shift : bool) : option (R * R) :=
  if rsq < rcutsq then
    let r := rsqrt rsq in
    let eval_sin := rsin (o_k p * r - o_phi p) in
    let eval_cos := rcos (o_k p * r - o_phi p) in
    let r_eta1_arg := C1 p * rpow r (- eta1 p) in
    let r_to_eta2 := rpow r (- eta2 p) in
    let r_eta2_arg := C2 p * r_to_eta2 * eval_cos in
    let pair_eng := r_eta1_arg + r_eta2_arg in
    let force_divr := ((r_eta1_arg * eta1 p + r_eta2_arg * eta2 p) / r + (C2 p * o_k p * r_to_eta2 * eval_sin)) / r in
    let r_cut := rsqrt rcutsq in
    let r_cut_eta1_arg := C1 p * rpow r_cut (- eta1 p) in
    let r_cut_eta2_arg := C2 p * rpow r_cut (- eta2 p) * rcos (o_k p * r_cut - o_phi p) in
    Some (force_divr, shifted energy_shift pair_eng (r_cut_eta1_arg + r_cut_eta2_arg))
  else None.

Definition OPP : evaluator R := truncated OPP_params false (fun p _ _ => OPP_eval p).

(** * Others *)

Record ReactionField_params := mkRF { eps : R; eps_rf : R; use_charge : bool }.

Definition ReactionField_eval (p : ReactionField_params) (qi qj rsq rcutsq : R) (energy_shift : bool) : option (R * R) :=
  let epsilon := eps p in
  let epsrf := eps_rf p in
  let qiqj := if use_charge p then qi * qj else lit 1 in
  if (rsq < rcutsq) && nonzero epsilon && nonzero qiqj then
    let rcut3inv := rinv_sqrt rcutsq / rcutsq in
    let rinv := rinv_sqrt rsq in
    let r := lit 1 / rinv in
    let r2inv := lit 1 / rsq in
    let eps_fac := (epsrf - lit 1) / (lit 2 * epsrf + lit 1) * rcut3inv in
    let eps_fac := if reqb epsrf (lit 0) then lit 0.5 * rcut3inv else eps_fac in
    let force_divr := qiqj * epsilon * (r2inv * rinv - lit 2 * eps_fac) in
    let pair_eng := qiqj * epsilon * (rinv + eps_fac * r * r) in
    let rcutinv := rinv_sqrt rcutsq in
    let rcut := lit 1 / rcutinv in
    Some (force_divr, shifted energy_shift pair_eng (qiqj * epsilon * (rcutinv + eps_fac * rcut * rcut)))
  else None.

Definition ReactionField : evaluator R := truncated ReactionField_params true ReactionField_eval.

Record DLVO_params := mkDLVO { v_kappa : R; v_Z : R; v_A : R; a1 : R; a2 : R }.

Definition DLVO_eval (p : DLVO_params) (rsq rcutsq : R) (energy_shift : bool) : option (R * R) :=
  let kappa := v_kappa p in let Z := v_Z p in let A := v_A p in
  let radsum := a1 p + a2 p in
  let radsub := a1 p - a2 p in
  let radprod := a1 p * a2 p in
  let radsumsq := a1 p * a1 p + a2 p * a2 p in
  let radsubsq := a1 p * a1 p - a2 p * a2 p in
  let rinv := rinv_sqrt rsq in
  let r := lit 1 / rinv in
  let rcutinv := rinv_sqrt rcutsq in
  let rcut := lit 1 / rcutinv in
  if (r < rcut) && nonzero kappa then
    let rmds := r - radsum in
    let rmdsqs := r * r - radsum * radsum in
    let rmdsqm := r * r - radsub * radsub in
    let radsuminv := lit 1 / radsum in
    let rmdsqsinv := lit 1 / rmdsqs in
    let rmdsqminv := lit 1 / rmdsqm in
    let exp_val := rexp (- kappa * rmds) in
    let forcerep_divr := kappa * radprod * radsuminv * Z * exp_val / r in
    let fatrterm1 := r * r * r * r + radsubsq * radsubsq - lit 2 * r * r * radsumsq in
    let fatrterm1inv := lit 1 / fatrterm1 * lit 1 / fatrterm1 in
    let forceatr_divr := - lit 32 * A / lit 3 * radprod * radprod * radprod * fatrterm1inv in
    let force_divr := forcerep_divr + forceatr_divr in
    let engt1 := radprod * rmdsqsinv * A / lit 3 in
    let engt2 := radprod * rmdsqminv * A / lit 3 in
    let engt3 := rlog (rmdsqs * rmdsqminv) * A / lit 6 in
    let pair_eng := r * forcerep_divr / kappa - engt1 - engt2 - engt3 in
    let rmdscut := rcut - radsum in
    let rmdsqscut := rcut * rcut - radsum * radsum in
    let rmdsqmcut := rcut * rcut - radsub * radsub in
    let rmdsqsinvcut := lit 1 / rmdsqscut in
    let rmdsqminvcut := lit 1 / rmdsqmcut in
    let engt1cut := radprod * rmdsqsinvcut * A / lit 3 in
    let engt2cut := radprod * rmdsqminvcut * A / lit 3 in
    let engt3cut := rlog (rmdsqscut * rmdsqminvcut) * A / lit 6 in
    let exp_valcut := rexp (- kappa * rmdscut) in
    let forcerepcut_divr := kappa * radprod * radsuminv * Z * exp_valcut / rcut in
    Some (force_divr, shifted energy_shift pair_eng (rcut * forcerepcut_divr / kappa - engt1cut - engt2cut - engt3cut))
  else None.

Definition DLVO : evaluator R := truncated DLVO_params false (fun p _ _ => DLVO_eval p).

Record TWF_params := mkTWF { t_sigma : R; t_alpha : R; prefactor : R }.

Definition TWF_make (epsilon sigma alpha : R) : TWF_params := mkTWF sigma alpha (lit 4 * epsilon / (alpha * alpha)).

(** At or below [sigma] the outputs are infinite: no value. *)
Definition TWF_eval (infinity : R) (p : TWF_params) (rsq rcutsq : R) (energy_shift : bool) : option (R * R) :=
  if rsq < rcutsq then
    let sigma2 := t_sigma p * t_sigma p in
    if negb (sigma2 < rsq) then Some (infinity, infinity)
    else
      let common_term := lit 1 / (rsq / sigma2 - lit 1) in
      let common_term3 := common_term * common_term * common_term in
      let common_term6 := common_term3 * common_term3 in
      let pair_eng := prefactor p * (common_term6 - t_alpha p * common_term3) in
      let force_term := lit 6 * common_term / sigma2 in
      let force_divr := prefactor p * force_term * (lit 2 * common_term6 - t_alpha p * common_term3) in
      let common_term_shift := lit 1 / (rcutsq / sigma2 - lit 1) in
      let common_term3_shift := common_term_shift * common_term_shift * common_term_shift in
      let common_term6_shift := common_term3_shift * common_term3_shift in
      Some (force_divr, shifted energy_shift pair_eng (prefactor p * (common_term6_shift - t_alpha p * common_term3_shift)))
  else None.

Definition TWF (infinity : R) : evaluator R := truncated TWF_params false (fun p _ _ => TWF_eval infinity p).

Record LJGauss_params := mkLJG { l_epsilon : R; l_sigma : R; l_r0 : R }.

Definition LJGauss_eval (p : LJGauss_params) (rsq rcutsq : R) (energy_shift : bool) : option (R * R) :=
  let epsilon := l_epsilon p in
  if negb (rsq < rcutsq) then None
  else
    let r := rsqrt rsq in
    let sigma2 := l_sigma p * l_sigma p in
    let rdiff := r - l_r0 p in
    let rdiff_sigma2 := rdiff / sigma2 in
    let exp_val := rexp (- lit 0.5 * rdiff_sigma2 * rdiff) in
    let r2inv := lit 1 / rsq in
    let r6inv := r2inv * r2inv * r2inv in
    let force_divr := (r2inv * r6inv * lit 12 * (r6inv - lit 1)) - (exp_val * epsilon * rdiff_sigma2 / r) in
    let pair_eng := r6inv * (r6inv - lit 2) - exp_val * epsilon in
    let rcut2inv := lit 1 / rcutsq in
    let rcut6inv := rcut2inv * rcut2inv * rcut2inv in
    let r_cut_minus_r0 := rsqrt rcutsq - l_r0 p in
    Some (force_divr, shifted energy_shift pair_eng
      (rcut6inv * (rcut6inv - lit 2) - (epsilon * rexp (- lit 0.5 * r_cut_minus_r0 * r_cut_minus_r0 / sigma2)))).

Definition LJGauss : evaluator R := truncated LJGauss_params false (fun p _ _ => LJGauss_eval p).

(** [updateAlchemyParams] and [evalAlchemyDerivatives] *)
Definition updateAlchemyParams (p : LJGauss_params) (alpha0 alpha1 alpha2 : R) : LJGauss_params :=
  mkLJG (l_epsilon p * alpha0) (l_sigma p * alpha1) (l_r0 p * alpha2).

Definition evalAlchemyDerivatives (p : LJGauss_params) (rsq alpha0 alpha1 alpha2 : R) : R * R * R :=
  let epsilon := l_epsilon p in
  let r := rsqrt rsq in
  let sigma2 := l_sigma p * l_sigma p in
  let inva1 := lit 1 / alpha1 in
  let invsiga1sq := inva1 * inva1 * (lit 1 / sigma2) in
  let rdiff := r - alpha2 * l_r0 p in
  let rdiffsq := rdiff * rdiff in
  let exp_term := rexp (- lit 0.5 * rdiffsq * invsiga1sq) in
  let c := - alpha0 * epsilon * exp_term * invsiga1sq in
  (- epsilon * exp_term, c * rdiffsq * inva1, c * l_r0 p * rdiff).

(** The three coefficients of each kind are those of [i] = 2, 3, 4. *)
Record Fourier_params := mkFourier { fa : R * R * R; fb : R * R * R }.

(** The loop [for (int i = 2; i < 5; i++)] with the coefficients of [i]. *)
Definition fourier_loop {S : Type} (p : Fourier_params) (body : Q -> R -> R -> S -> S) (s : S) : S :=
  let '(a2, a3, a4) := fa p in
  let '(b2, b3, b4) := fb p in
  body 4%Q a4 b4 (body 3%Q a3 b3 (body 2%Q a2 b2 s)).

Definition pow_neg1 (i : Q) : R := if Z.odd (Qnum i) then lit (-1) else lit 1.

(** The energy is not shifted. *)
Definition Fourier_eval (p : Fourier_params) (rsq rcutsq : R) (energy_shift : bool) : option (R * R) :=
  if rsq < rcutsq then
    let half_period := rsqrt rcutsq in
    let period_scale := rpi / half_period in
    let r := rsqrt rsq in
    let x := r * period_scale in
    let r1inv := lit 1 / r in
    let r2inv := lit 1 / rsq in
    let r3inv := r1inv * r2inv in
    let r12inv := r3inv * r3inv * r3inv * r3inv in
    let '(a1, b1) := fourier_loop p (fun i a b '(a1, b1) => (a1 + pow_neg1 i * a, b1 + lit i * pow_neg1 i * b)) (lit 0, lit 0) in
    let s := rsin x in
    let c := rcos x in
    let '(fourier_part, force_divr) := fourier_loop p (fun i a b '(fourier_part, force_divr) =>
      let theta := lit i * x in
      let s := rsin theta in
      let c := rcos theta in
      (fourier_part + (a * c + b * s), force_divr + (a * lit i * s - b * lit i * c)))
      (a1 * c + b1 * s, a1 * s - b1 * c) in
    let force_divr := r1inv * (r1inv * r12inv * lit 12 + r2inv * period_scale * force_divr + lit 2 * r3inv * fourier_part) in
    Some (force_divr, r12inv + r2inv * fourier_part)
  else None.

Definition Fourier : evaluator R := truncated Fourier_params false (fun p _ _ => Fourier_eval p).

End evaluators.
Arguments LJ_params : clear implicits.
Arguments LJ4_params : clear implicits.
Arguments ExpandedLJ_params : clear implicits.
