(* ===== verification/PairEvaluatorsProps.v ===== *)
(** The contract of the pair potential evaluators ([Conservative]) and its instances:
    the energy is the documented function, shifted to zero at the cutoff on request,
    and the force is its negative derivative. Derivatives are those of the real
    numbers of the Standard Library. *)

From Stdlib Require Import ZArith QArith Reals Lra Field List Psatz Lia.
From S2P Require Import Prelude VectorMath PairEvaluators.
Import ListNotations.
Local Open Scope R_scope.

(** * Derivatives *)

Section derivatives.
Variables (f g : R -> R) (x a b : R).
Hypothesis F : derivable_pt_lim f x a.

Lemma D_const (c : R) : derivable_pt_lim (fun _ => c) x 0.
Proof. apply derivable_pt_lim_const. Qed.

Lemma D_id : derivable_pt_lim (fun r => r) x 1.
Proof. apply derivable_pt_lim_id. Qed.

Lemma D_opp : derivable_pt_lim (fun r => - f r) x (- a).
Proof. exact (derivable_pt_lim_opp f x a F). Qed.

Lemma D_exp : derivable_pt_lim (fun r => exp (f r)) x (exp (f x) * a).
Proof. exact (derivable_pt_lim_comp f exp x a _ F (derivable_pt_lim_exp (f x))). Qed.

Lemma D_sin : derivable_pt_lim (fun r => sin (f r)) x (cos (f x) * a).
Proof. exact (derivable_pt_lim_comp f sin x a _ F (derivable_pt_lim_sin (f x))). Qed.

Lemma D_cos : derivable_pt_lim (fun r => cos (f r)) x (- sin (f x) * a).
Proof. exact (derivable_pt_lim_comp f cos x a _ F (derivable_pt_lim_cos (f x))). Qed.

Lemma D_ln : 0 < f x -> derivable_pt_lim (fun r => ln (f r)) x (/ f x * a).
Proof. intros P. exact (derivable_pt_lim_comp f ln x a _ F (derivable_pt_lim_ln (f x) P)). Qed.

Lemma D_power (y : R) : 0 < f x -> derivable_pt_lim (fun r => Rpower (f r) y) x (y * Rpower (f x) (y - 1) * a).
Proof. intros P. exact (derivable_pt_lim_comp f (fun t => Rpower t y) x a _ F (derivable_pt_lim_power (f x) y P)). Qed.

Lemma D_pow (n : nat) : derivable_pt_lim (fun r => f r ^ n) x (INR n * f x ^ pred n * a).
Proof. exact (derivable_pt_lim_comp f (fun t => t ^ n) x a _ F (derivable_pt_lim_pow (f x) n)). Qed.

Hypothesis G : derivable_pt_lim g x b.

Lemma D_plus : derivable_pt_lim (fun r => f r + g r) x (a + b).
Proof. exact (derivable_pt_lim_plus f g x a b F G). Qed.

Lemma D_minus : derivable_pt_lim (fun r => f r - g r) x (a - b).
Proof. exact (derivable_pt_lim_minus f g x a b F G). Qed.

Lemma D_mult : derivable_pt_lim (fun r => f r * g r) x (a * g x + f x * b).
Proof. exact (derivable_pt_lim_mult f g x a b F G). Qed.

Lemma D_div : g x <> 0 -> derivable_pt_lim (fun r => f r / g r) x ((a * g x - b * f x) / Rsqr (g x)).
Proof. intros N. exact (derivable_pt_lim_div f g x a b F G N). Qed.

Lemma D_eq (l : R) : a = l -> derivable_pt_lim f x l.
Proof. now intros <-. Qed.

End derivatives.

(** A potential that vanishes everywhere. *)
Lemma D_zero (f : R -> R) (x : R) : (forall t, f t = 0) -> derivable_pt_lim f x (- (0 * x)).
Proof. intros Z eps He. exists (mkposreal eps He). intros h Hh _. rewrite !Z. replace ((0 - 0) / h - - (0 * x)) with 0 by (field; exact Hh). rewrite Rabs_R0. exact He. Qed.

(** Differentiates a closed expression, leaving the conditions on its arguments. *)
Ltac deriv :=
  lazymatch goal with
  | |- derivable_pt_lim (fun _ => ?c) _ _ => apply D_const
  | |- derivable_pt_lim (fun r => r) _ _ => apply D_id
  | |- derivable_pt_lim (fun r => @?f r + @?g r) _ _ => eapply (D_plus f g); deriv
  | |- derivable_pt_lim (fun r => @?f r - @?g r) _ _ => eapply (D_minus f g); deriv
  | |- derivable_pt_lim (fun r => @?f r * @?g r) _ _ => eapply (D_mult f g); deriv
  | |- derivable_pt_lim (fun r => @?f r / @?g r) _ _ => eapply (D_div f g); [deriv|deriv|]
  | |- derivable_pt_lim (fun r => - @?f r) _ _ => eapply (D_opp f); deriv
  | |- derivable_pt_lim (fun r => exp (@?f r)) _ _ => eapply (D_exp f); deriv
  | |- derivable_pt_lim (fun r => sin (@?f r)) _ _ => eapply (D_sin f); deriv
  | |- derivable_pt_lim (fun r => cos (@?f r)) _ _ => eapply (D_cos f); deriv
  | |- derivable_pt_lim (fun r => ln (@?f r)) _ _ => eapply (D_ln f); [deriv|]
  | |- derivable_pt_lim (fun r => Rpower (@?f r) _) _ _ => eapply (D_power f); [deriv|]
  | |- derivable_pt_lim (fun r => @?f r ^ _) _ _ => eapply (D_pow f); deriv
  end.

(** * The contract *)

(** A documented potential with the evaluator that implements it: the parameters
    of the user and their conversion, the energy as a function of the charges, the
    cutoff and the distance, the range of parameters and distances, and whether
    the evaluator honours the request for a shift. *)
Record documented := mkDoc {
  user : Type;
  code : evaluator R;
  make : user -> param_type code;
  V : user -> R -> R -> R -> R -> R;
  dom : user -> R -> R -> Prop;
  shifts : bool
}.

(** What [PotentialPair] uses of an evaluation that returned false. *)
Definition outcome (o : option (R * R)) : R * R := match o with Some p => p | None => (0, 0) end.

Definition evaluate (d : documented) (u : user d) (qi qj rcut r : R) (shift : bool) : option (R * R) :=
  evalForceAndEnergy (code d) (make d u) qi qj (r * r) (rcut * rcut) shift.

Class Conservative (d : documented) : Prop := conservative : forall u qi qj rcut r shift, 0 < r -> 0 < rcut ->
  (r < rcut -> dom d u rcut r -> let '(f, e) := outcome (evaluate d u qi qj rcut r shift) in
     e = V d u qi qj rcut r - (if shift && shifts d then V d u qi qj rcut rcut else 0) /\
     derivable_pt_lim (V d u qi qj rcut) r (- (f * r))) /\
  (rcut <= r -> evaluate d u qi qj rcut r shift = None).

(** * Evaluation *)

Lemma below_cutoff r rcut : 0 < r -> r < rcut -> rltb (r * r) (rcut * rcut) = true.
Proof. intros. cbn. destruct (Rlt_dec _ _) as [|N]; [reflexivity|]. exfalso. apply N. nra. Qed.

Lemma beyond_cutoff r rcut : 0 < rcut -> rcut <= r -> rltb (r * r) (rcut * rcut) = false.
Proof. intros. cbn. destruct (Rlt_dec _ _) as [L|]; [nra|reflexivity]. Qed.

Lemma rinv_sqrt_sq r : 0 < r -> rinv_sqrt (r * r) = / r.
Proof. intros. cbn. rewrite sqrt_square; [reflexivity|lra]. Qed.

Lemma rsqrt_sq r : 0 < r -> rsqrt (r * r) = r.
Proof. intros. cbn. apply sqrt_square. lra. Qed.

Lemma nonzero_spec (a : R) : nonzero a = true <-> a <> 0.
Proof. unfold nonzero. cbn. destruct (Req_dec_T a 0); simpl; split; congruence. Qed.

Lemma nonzero_false (a : R) : nonzero a = false <-> a = 0.
Proof. unfold nonzero. cbn. destruct (Req_dec_T a 0); simpl; split; congruence. Qed.

(** The real numbers in place of the operations. *)
Ltac reals := cbn -[rinv_sqrt rsqrt nonzero rltb reqb Rpower exp ln sin cos PI pow].

Ltac beyond ev := intros; unfold evaluate; reals; unfold ev; rewrite beyond_cutoff by assumption; reflexivity.

(** Below the cutoff, with the roots of squares taken. *)
Ltac below ev :=
  unfold evaluate; reals; unfold ev; rewrite ?rinv_sqrt_sq, ?rsqrt_sq by assumption; rewrite below_cutoff by assumption; cbn [andb].

(** * Instances *)

(** Different forms of the same argument of a function. *)
Ltac same_arguments side :=
  repeat match goal with
  | |- context [exp ?a] => match goal with |- context [exp ?b] => lazymatch a with b => fail | _ => replace (exp b) with (exp a) by (f_equal; field; side) end end
  | |- context [ln ?a] => match goal with |- context [ln ?b] => lazymatch a with b => fail | _ => replace (ln b) with (ln a) by (f_equal; field; side) end end
  | |- context [sin ?a] => match goal with |- context [sin ?b] => lazymatch a with b => fail | _ => replace (sin b) with (sin a) by (f_equal; field; side) end end
  | |- context [cos ?a] => match goal with |- context [cos ?b] => lazymatch a with b => fail | _ => replace (cos b) with (cos a) by (f_equal; field; side) end end
  end.

(** The energy and the force of an evaluation, by [field] after differentiation
    with the given proof of the side conditions. *)
Ltac energy_and_force_by norm side :=
  cbn [outcome]; unfold shifted; rewrite ?Bool.andb_false_r, ?Bool.andb_true_r; split; [match goal with |- context [if ?b then _ else _] => destruct b | _ => idtac end; reals; norm; same_arguments side; field; side|];
  eapply D_eq; [deriv; side|]; reals; unfold Rsqr; norm; same_arguments side; field; side.
Ltac energy_and_force side := energy_and_force_by idtac side.

(** The evaluation that a zero coefficient skips. *)
Ltac vanishing shift Z := cbn [outcome]; split; [rewrite !Z; destruct shift; simpl; ring|apply D_zero, Z].

Definition LJ_doc : documented := mkDoc (R * R) LJ (fun '(sigma, epsilon) => LJ_make sigma epsilon)
  (fun '(sigma, epsilon) _ _ _ r => 4 * epsilon * ((sigma / r) ^ 12 - (sigma / r) ^ 6)) (fun _ _ _ => True) true.

Lemma lj_zero sigma epsilon n m r : (0 < n)%nat -> (0 < m)%nat -> epsilon = 0 \/ sigma = 0 -> 4 * epsilon * ((sigma / r) ^ n - (sigma / r) ^ m) = 0.
Proof.
  intros Hn Hm [->| ->]; [ring|]. unfold Rdiv. rewrite Rmult_0_l, !pow_i by assumption. ring.
Qed.

(** The coefficient that is tested is zero only with one of the two parameters. *)
Lemma lj_coefficient sigma epsilon n : 4 * epsilon * sigma ^ n = 0 -> epsilon = 0 \/ sigma = 0.
Proof.
  intros E. apply Rmult_integral in E as [E|E]; [left; lra|]. right. destruct (Req_dec sigma 0) as [|N]; [assumption|]. now apply pow_nonzero with (n := n) in N.
Qed.

(** The evaluation that a zero coefficient skips. *)
Ltac lj_vanishing sigma epsilon shift n N :=
  apply nonzero_false in N; assert (Z : epsilon = 0 \/ sigma = 0) by (apply (lj_coefficient _ _ n); rewrite <- N; reals; field);
  cbn [outcome]; split; [rewrite !lj_zero by (assumption || lia); destruct shift; simpl; ring|];
  apply D_zero; intros t; apply lj_zero; (assumption || lia).

#[export] Instance LJ_conservative : Conservative LJ_doc.
Proof.
  intros [sigma epsilon] qi qj rcut r shift Hr Hc. split; [|beyond @LJ_eval]. intros L _. below @LJ_eval. destruct (nonzero _) eqn:N.
  - energy_and_force ltac:(lra).
  - lj_vanishing sigma epsilon shift 12%nat N.
Qed.

Definition LJ0804_doc : documented := mkDoc (R * R) LJ0804 (fun '(sigma, epsilon) => LJ4_make sigma epsilon)
  (fun '(sigma, epsilon) _ _ _ r => 4 * epsilon * ((sigma / r) ^ 8 - (sigma / r) ^ 4)) (fun _ _ _ => True) true.

#[export] Instance LJ0804_conservative : Conservative LJ0804_doc.
Proof.
  intros [sigma epsilon] qi qj rcut r shift Hr Hc. split; [|beyond @LJ0804_eval]. intros L _. below @LJ0804_eval. destruct (nonzero _) eqn:N.
  - energy_and_force ltac:(lra).
  - lj_vanishing sigma epsilon shift 8%nat N.
Qed.

Definition LJ1208_doc : documented := mkDoc (R * R) LJ1208 (fun '(sigma, epsilon) => LJ4_make sigma epsilon)
  (fun '(sigma, epsilon) _ _ _ r => 4 * epsilon * ((sigma / r) ^ 12 - (sigma / r) ^ 8)) (fun _ _ _ => True) true.

#[export] Instance LJ1208_conservative : Conservative LJ1208_doc.
Proof.
  intros [sigma epsilon] qi qj rcut r shift Hr Hc. split; [|beyond @LJ1208_eval]. intros L _. below @LJ1208_eval. destruct (nonzero _) eqn:N.
  - energy_and_force ltac:(lra).
  - lj_vanishing sigma epsilon shift 12%nat N.
Qed.

(** The derivative of LJ at the cutoff is subtracted. *)
Definition LJ_slope (sigma epsilon r : R) : R := 4 * epsilon * (6 * sigma ^ 6 / r ^ 7 - 12 * sigma ^ 12 / r ^ 13).

Definition ForceShiftedLJ_doc : documented := mkDoc (R * R) ForceShiftedLJ (fun '(sigma, epsilon) => LJ_make sigma epsilon)
  (fun '(sigma, epsilon) _ _ rcut r => 4 * epsilon * ((sigma / r) ^ 12 - (sigma / r) ^ 6) - (r - rcut) * LJ_slope sigma epsilon rcut)
  (fun _ _ _ => True) true.

Lemma rinv_sqrt_prod r s : 0 < r -> 0 < s -> rinv_sqrt (r * r * (s * s)) = / (r * s).
Proof. intros. replace (r * r * (s * s)) with ((r * s) * (r * s)) by ring. apply rinv_sqrt_sq. nra. Qed.

#[export] Instance ForceShiftedLJ_conservative : Conservative ForceShiftedLJ_doc.
Proof.
  intros [sigma epsilon] qi qj rcut r shift Hr Hc. split; [|beyond @ForceShiftedLJ_eval]. intros L _. below @ForceShiftedLJ_eval.
  destruct (nonzero _) eqn:N; unfold LJ_slope.
  - rewrite rinv_sqrt_prod by assumption. energy_and_force ltac:(lra).
  - apply nonzero_false in N. assert (Z : epsilon = 0 \/ sigma = 0) by (apply (lj_coefficient _ _ 12); rewrite <- N; reals; field).
    assert (V0 : forall t, 4 * epsilon * ((sigma / t) ^ 12 - (sigma / t) ^ 6) - (t - rcut) * (4 * epsilon * (6 * sigma ^ 6 / rcut ^ 7 - 12 * sigma ^ 12 / rcut ^ 13)) = 0)
      by (intros t; rewrite lj_zero by (assumption || lia); destruct Z; subst; field; lra).
    vanishing shift V0.
Qed.

Definition ExpandedLJ_doc : documented := mkDoc (R * R * R) ExpandedLJ (fun '(sigma, epsilon, delta) => ExpandedLJ_make sigma epsilon delta)
  (fun '(sigma, epsilon, delta) _ _ _ r => 4 * epsilon * ((sigma / (r - delta)) ^ 12 - (sigma / (r - delta)) ^ 6))
  (fun '(_, _, delta) rcut r => r <> delta /\ rcut <> delta) true.

#[export] Instance ExpandedLJ_conservative : Conservative ExpandedLJ_doc.
Proof.
  intros [[sigma epsilon] delta] qi qj rcut r shift Hr Hc. split; [|beyond @ExpandedLJ_eval]. cbn [dom ExpandedLJ_doc]. intros L [D1 D2]. below @ExpandedLJ_eval. destruct (nonzero _) eqn:N.
  - energy_and_force ltac:(repeat split; lra).
  - lj_vanishing sigma epsilon shift 12%nat N.
Qed.

Definition Gauss_doc : documented := mkDoc (R * R) Gauss (fun '(epsilon, sigma) => mkGauss epsilon sigma)
  (fun '(epsilon, sigma) _ _ _ r => epsilon * exp (- (1 / 2) * (r / sigma) ^ 2)) (fun '(_, sigma) _ _ => sigma <> 0) true.

#[export] Instance Gauss_conservative : Conservative Gauss_doc.
Proof.
  intros [epsilon sigma] qi qj rcut r shift Hr Hc. split; [|beyond @Gauss_eval]. cbn [dom Gauss_doc]. intros L D. below @Gauss_eval.
  energy_and_force ltac:(lra).
Qed.

Definition ExpandedGaussian_doc : documented := mkDoc (R * R * R) ExpandedGaussian (fun '(epsilon, sigma, delta) => mkXG epsilon sigma delta)
  (fun '(epsilon, sigma, delta) _ _ _ r => epsilon * exp (- (1 / 2) * ((r - delta) / sigma) ^ 2)) (fun '(_, sigma, _) _ _ => sigma <> 0) true.

#[export] Instance ExpandedGaussian_conservative : Conservative ExpandedGaussian_doc.
Proof.
  intros [[epsilon sigma] delta] qi qj rcut r shift Hr Hc. split; [|beyond @ExpandedGaussian_eval]. cbn [dom ExpandedGaussian_doc]. intros L D.
  below @ExpandedGaussian_eval. energy_and_force ltac:(repeat split; lra).
Qed.

Definition Yukawa_doc : documented := mkDoc (R * R) Yukawa (fun '(epsilon, kappa) => mkYukawa epsilon kappa)
  (fun '(epsilon, kappa) _ _ _ r => epsilon * (exp (- kappa * r) / r)) (fun _ _ _ => True) true.

#[export] Instance Yukawa_conservative : Conservative Yukawa_doc.
Proof.
  intros [epsilon kappa] qi qj rcut r shift Hr Hc. split; [|beyond @Yukawa_eval]. intros L _. below @Yukawa_eval. destruct (nonzero _) eqn:N.
  - energy_and_force ltac:(lra).
  - apply nonzero_false in N. simpl in N. assert (Z : forall t, epsilon * (exp (- kappa * t) / t) = 0) by (intros t; rewrite N; ring). vanishing shift Z.
Qed.

Definition Morse_doc : documented := mkDoc (R * R * R) Morse (fun '(D0, alpha, r0) => mkMorse D0 alpha r0)
  (fun '(D0, alpha, r0) _ _ _ r => D0 * (exp (- 2 * alpha * (r - r0)) - 2 * exp (- alpha * (r - r0)))) (fun _ _ _ => True) true.

#[export] Instance Morse_conservative : Conservative Morse_doc.
Proof.
  intros [[D0 alpha] r0] qi qj rcut r shift Hr Hc. split; [|beyond @Morse_eval]. intros L _. below @Morse_eval.
  assert (E : forall t, exp (- 2 * alpha * (t - r0)) = exp (- alpha * (t - r0)) * exp (- alpha * (t - r0))) by (intros t; rewrite <- exp_plus; f_equal; ring).
  energy_and_force_by ltac:(rewrite ?E) ltac:(lra).
Qed.

Definition Buckingham_doc : documented := mkDoc (R * R * R) Buckingham (fun '(A, rho, C) => mkBuckingham A rho C)
  (fun '(A, rho, C) _ _ _ r => A * exp (- r / rho) - C / r ^ 6) (fun '(_, rho, _) _ _ => 0 < rho) true.

#[export] Instance Buckingham_conservative : Conservative Buckingham_doc.
Proof.
  intros [[A rho] C] qi qj rcut r shift Hr Hc. split; [|beyond @Buckingham_eval]. cbn [dom Buckingham_doc]. intros L D. below @Buckingham_eval. cbn [b_A b_rho b_C].
  assert (rltb (lit 0) rho = true) as -> by (cbn; destruct (Rlt_dec _ _) as [|N]; [reflexivity|lra]).
  assert (P : r ^ 6 <> 0) by (apply pow_nonzero; lra). energy_and_force ltac:(repeat split; lra).
Qed.

(** The screening functions of the Coulomb interaction. *)
Definition moliere_screening (x : R) : R := 35 / 100 * exp (- (3 / 10) * x) + 55 / 100 * exp (- (12 / 10) * x) + 1 / 10 * exp (- 6 * x).
Definition zbl_screening (x : R) : R := 1818 / 10000 * exp (- (32 / 10) * x) + 5099 / 10000 * exp (- (9423 / 10000) * x) +
  2802 / 10000 * exp (- (4029 / 10000) * x) + 2817 / 100000 * exp (- (2016 / 10000) * x).

Definition Moliere_doc : documented := mkDoc (R * R * R) Moliere (fun '(qi, qj, aF) => mkScreened qi qj aF)
  (fun '(qi, qj, aF) _ _ _ r => qi * qj / r * moliere_screening (r / aF)) (fun '(_, _, aF) _ _ => aF <> 0) true.

Definition ZBL_doc : documented := mkDoc (R * R * R) ZBL (fun '(qi, qj, aF) => mkScreened qi qj aF)
  (fun '(qi, qj, aF) _ _ _ r => qi * qj / r * zbl_screening (r / aF)) (fun '(_, _, aF) _ _ => aF <> 0) false.

#[export] Instance Moliere_conservative : Conservative Moliere_doc.
Proof.
  intros [[zi zj] aF] qi qj rcut r shift Hr Hc. split; [|beyond @Moliere_eval]. cbn [dom Moliere_doc]. intros L D. below @Moliere_eval. cbn [s_qi s_qj PairEvaluators.aF].
  assert (nonzero aF = true) as -> by now apply nonzero_spec. rewrite Bool.andb_true_r. destruct (nonzero _) eqn:N.
  - unfold moliere_screening. energy_and_force ltac:(lra).
  - apply nonzero_false in N. simpl in N. assert (Z : forall t, zi * zj / t * moliere_screening (t / aF) = 0) by (intros t; rewrite N; unfold Rdiv; ring). vanishing shift Z.
Qed.

#[export] Instance ZBL_conservative : Conservative ZBL_doc.
Proof.
  intros [[zi zj] aF] qi qj rcut r shift Hr Hc. split; [|beyond @ZBL_eval]. cbn [dom ZBL_doc]. intros L D. below @ZBL_eval. cbn [s_qi s_qj PairEvaluators.aF].
  assert (nonzero aF = true) as -> by now apply nonzero_spec. rewrite Bool.andb_true_r. destruct (nonzero _) eqn:N.
  - unfold zbl_screening. energy_and_force ltac:(lra).
  - apply nonzero_false in N. simpl in N. assert (Z : forall t, zi * zj / t * zbl_screening (t / aF) = 0) by (intros t; rewrite N; unfold Rdiv; ring). vanishing shift Z.
Qed.

Definition DPD_doc : documented := mkDoc (R * R) DPD (fun '(A, gamma) => mkDPD A gamma)
  (fun '(A, _) _ _ rcut r => A * (rcut - r) - 1 / 2 * (A / rcut) * (rcut ^ 2 - r ^ 2)) (fun _ _ _ => True) true.

#[export] Instance DPD_conservative : Conservative DPD_doc.
Proof.
  intros [A gamma] qi qj rcut r shift Hr Hc. split; [|beyond @DPD_eval]. intros L _. below @DPD_eval. energy_and_force ltac:(lra).
Qed.

(** ** Powers *)

Lemma Rpower_pos x y : 0 < Rpower x y.
Proof. apply exp_pos. Qed.

Lemma Rpower_pred x y : 0 < x -> Rpower x (y - 1) = Rpower x y / x.
Proof. intros H. unfold Rminus. rewrite Rpower_plus, Rpower_Ropp, Rpower_1 by assumption. reflexivity. Qed.

Lemma Rpower_quotient s x y : 0 < s -> 0 < x -> Rpower (s / x) y = Rpower s y * Rpower x (- y).
Proof.
  intros Hs Hx. unfold Rdiv. rewrite <- (Rpower_mult_distr s (/ x) y Hs (Rinv_0_lt_compat x Hx)). f_equal.
  unfold Rpower. rewrite ln_Rinv by assumption. f_equal. ring.
Qed.

(** The powers of the inverse square of the distance, by those of the documentation. *)
Lemma Rpower_inverse_square s x y : 0 < s -> 0 < x -> Rpower (1 / (x * x)) (y / 2) = Rpower (s / x) y / Rpower s y.
Proof.
  intros Hs Hx. pose proof (Rpower_pos s y). rewrite (Rpower_quotient s x y Hs Hx). replace (Rpower s y * Rpower x (- y) / Rpower s y) with (Rpower x (- y)) by (field; lra).
  unfold Rpower. f_equal. unfold Rdiv. rewrite Rmult_1_l, ln_Rinv, ln_mult by nra. field.
Qed.

Lemma Rpower_square s x y : 0 < s -> 0 < x -> Rpower (x * x) (- y / 2) = Rpower (s / x) y / Rpower s y.
Proof.
  intros Hs Hx. pose proof (Rpower_pos s y). rewrite (Rpower_quotient s x y Hs Hx). replace (Rpower s y * Rpower x (- y) / Rpower s y) with (Rpower x (- y)) by (field; lra).
  unfold Rpower. f_equal. rewrite ln_mult by assumption. field.
Qed.

(** The prefactor of the Mie potentials. *)
Definition mie_prefactor (n m : R) : R := n / (n - m) * Rpower (n / m) (m / (n - m)).

Definition Mie_doc : documented := mkDoc (R * R * R * R) Mie (fun '(epsilon, sigma, n, m) => Mie_make epsilon sigma n m)
  (fun '(epsilon, sigma, n, m) _ _ _ r => mie_prefactor n m * epsilon * (Rpower (sigma / r) n - Rpower (sigma / r) m))
  (fun '(_, sigma, _, _) _ _ => 0 < sigma) true.

Lemma mie_zero K epsilon P : K * epsilon * P = 0 -> 0 < P -> K * epsilon = 0.
Proof. intros H HP. apply Rmult_integral in H as [|]; [assumption|lra]. Qed.

#[export] Instance Mie_conservative : Conservative Mie_doc.
Proof.
  intros [[[epsilon sigma] n] m] qi qj rcut r shift Hr Hc. split; [|beyond @Mie_eval]. cbn [dom Mie_doc]. intros L S. below @Mie_eval.
  change (m1 _) with (mie_prefactor n m * epsilon * Rpower sigma n). change (m2 _) with (mie_prefactor n m * epsilon * Rpower sigma m).
  change (m3 _) with n. change (m4 _) with m. set (K := mie_prefactor n m). pose proof (Rpower_pos sigma n). pose proof (Rpower_pos sigma m).
  destruct (nonzero _) eqn:N.
  - assert (Q : 0 < sigma / r) by now apply Rdiv_lt_0_compat.
    energy_and_force_by ltac:(replace (1 / 1 / (r * r)) with (1 / (r * r)) by (field; lra); replace (2 / 1) with 2 by field;
      rewrite ?(Rpower_inverse_square sigma), ?(Rpower_square sigma), ?Rpower_pred by assumption) ltac:(repeat split; lra).
  - apply nonzero_false, mie_zero in N; [|assumption].
    assert (Z : forall t, K * epsilon * (Rpower (sigma / t) n - Rpower (sigma / t) m) = 0) by (intros t; rewrite N; ring). vanishing shift Z.
Qed.

Definition ExpandedMie_doc : documented := mkDoc (R * R * R * R * R) ExpandedMie (fun '(epsilon, sigma, n, m, delta) => ExpandedMie_make epsilon sigma n m delta)
  (fun '(epsilon, sigma, n, m, delta) _ _ _ r => mie_prefactor n m * epsilon * (Rpower (sigma / (r - delta)) n - Rpower (sigma / (r - delta)) m))
  (fun '(_, sigma, _, _, delta) rcut r => 0 < sigma /\ delta < r /\ delta < rcut) true.

#[export] Instance ExpandedMie_conservative : Conservative ExpandedMie_doc.
Proof.
  intros [[[[epsilon sigma] n] m] delta] qi qj rcut r shift Hr Hc. split; [|beyond @ExpandedMie_eval]. cbn [dom ExpandedMie_doc]. intros L (S & D1 & D2). below @ExpandedMie_eval.
  change (repulsive _) with (mie_prefactor n m * epsilon * Rpower sigma n). change (attractive _) with (mie_prefactor n m * epsilon * Rpower sigma m).
  change (n_pow _) with n. change (m_pow _) with m. change (xm_delta _) with delta. set (K := mie_prefactor n m).
  pose proof (Rpower_pos sigma n). pose proof (Rpower_pos sigma m). assert (X : 0 < r - delta) by lra. assert (Y : 0 < rcut - delta) by lra.
  destruct (nonzero _) eqn:N.
  - assert (Q : 0 < sigma / (r - delta)) by now apply Rdiv_lt_0_compat.
    energy_and_force_by ltac:(replace (1 / 1 / (1 / 1 / / r - delta) * (1 / 1 / (1 / 1 / / r - delta))) with (1 / ((r - delta) * (r - delta))) by (field; repeat split; lra);
      replace (2 / 1) with 2 by field; rewrite ?(Rpower_inverse_square sigma), ?(Rpower_quotient sigma (rcut - delta)), ?Rpower_pred by assumption) ltac:(repeat split; lra).
  - apply nonzero_false, mie_zero in N; [|assumption].
    assert (Z : forall t, K * epsilon * (Rpower (sigma / (t - delta)) n - Rpower (sigma / (t - delta)) m) = 0) by (intros t; rewrite N; ring). vanishing shift Z.
Qed.

Definition OPP_doc : documented := mkDoc (R * R * R * R * R * R) OPP (fun '(C1, C2, eta1, eta2, k, phi) => mkOPP C1 C2 eta1 eta2 k phi)
  (fun '(C1, C2, eta1, eta2, k, phi) _ _ _ r => C1 * Rpower r (- eta1) + C2 * Rpower r (- eta2) * cos (k * r - phi)) (fun _ _ _ => True) true.

#[export] Instance OPP_conservative : Conservative OPP_doc.
Proof.
  intros [[[[[C1 C2] eta1] eta2] k] phi] qi qj rcut r shift Hr Hc. split; [|beyond @OPP_eval]. intros L _. below @OPP_eval.
  energy_and_force_by ltac:(rewrite ?Rpower_pred by assumption) ltac:(lra).
Qed.

(** ** Others *)

(** The factor of the reaction field; a dielectric constant of zero stands for
    infinity. *)
Definition reaction_factor (eps_rf : R) : R := if Req_dec_T eps_rf 0 then 1 / 2 else (eps_rf - 1) / (2 * eps_rf + 1).

Definition ReactionField_doc : documented := mkDoc (R * R * bool) ReactionField (fun '(eps, eps_rf, use_charge) => mkRF eps eps_rf use_charge)
  (fun '(eps, eps_rf, use_charge) qi qj rcut r => (if use_charge : bool then qi * qj else 1) * eps * (1 / r + reaction_factor eps_rf * r ^ 2 / rcut ^ 3))
  (fun '(_, eps_rf, _) _ _ => 2 * eps_rf + 1 <> 0) true.

#[export] Instance ReactionField_conservative : Conservative ReactionField_doc.
Proof.
  intros [[eps eps_rf] uc] qi qj rcut r shift Hr Hc. split; [|beyond @ReactionField_eval]. cbn [dom ReactionField_doc]. intros L D. below @ReactionField_eval.
  cbn [PairEvaluators.eps PairEvaluators.eps_rf use_charge]. set (qq := if uc then qi * qj else 1). replace (if uc then (qi * qj)%real else lit 1) with qq by (unfold qq; destruct uc; reals; [reflexivity|field]).
  set (fac := if reqb eps_rf (lit 0) then _ else _).
  assert (Ef : fac = (reaction_factor eps_rf / rcut ^ 3)%R).
  { unfold fac, reaction_factor. cbn. destruct (Req_dec_T eps_rf (0 / 1)) as [E|E], (Req_dec_T eps_rf 0) as [E'|E']; try (exfalso; apply E + apply E'; lra); field; repeat split; lra. }
  clearbody fac. subst fac. destruct (nonzero eps && nonzero qq)%bool eqn:N.
  - assert (P : rcut ^ 3 <> 0) by (apply pow_nonzero; lra). energy_and_force ltac:(repeat split; first [assumption|lra]).
  - assert (Z0 : qq * eps = 0) by (apply Bool.andb_false_iff in N as [N|N]; apply nonzero_false in N; rewrite N; ring).
    assert (Z : forall t, qq * eps * (1 / t + reaction_factor eps_rf * t ^ 2 / rcut ^ 3) = 0) by (intros t; rewrite Z0; ring). vanishing shift Z.
Qed.

Definition TWF_doc (infinity : R) : documented := mkDoc (R * R * R) (TWF infinity) (fun '(epsilon, sigma, alpha) => TWF_make epsilon sigma alpha)
  (fun '(epsilon, sigma, alpha) _ _ _ r => 4 * epsilon / alpha ^ 2 * ((1 / ((r / sigma) ^ 2 - 1)) ^ 6 - alpha * (1 / ((r / sigma) ^ 2 - 1)) ^ 3))
  (fun '(_, sigma, alpha) _ r => 0 < sigma < r /\ alpha <> 0) true.

#[export] Instance TWF_conservative infinity : Conservative (TWF_doc infinity).
Proof.
  intros [[epsilon sigma] alpha] qi qj rcut r shift Hr Hc. split; [|beyond @TWF_eval]. cbn [dom TWF_doc]. intros L [[S1 S2] A]. below @TWF_eval.
  cbn [t_sigma t_alpha TWF_make]. change (sigma * sigma)%real with (sigma * sigma). rewrite below_cutoff by assumption. cbn [negb].
  assert (B1 : (r / sigma) ^ 2 - 1 <> 0) by (replace ((r / sigma) ^ 2 - 1) with ((r * r - sigma * sigma) / (sigma * sigma)) by (field; lra); apply Rmult_integral_contrapositive; split; [nra|apply Rinv_neq_0_compat; nra]).
  energy_and_force ltac:(repeat split; (assumption || nra)).
Qed.

Definition LJGauss_doc : documented := mkDoc (R * R * R) LJGauss (fun '(epsilon, sigma, r0) => mkLJG epsilon sigma r0)
  (fun '(epsilon, sigma, r0) _ _ _ r => 1 / r ^ 12 - 2 / r ^ 6 - epsilon * exp (- ((r - r0) ^ 2 / (2 * sigma ^ 2)))) (fun '(_, sigma, _) _ _ => sigma <> 0) true.

#[export] Instance LJGauss_conservative : Conservative LJGauss_doc.
Proof.
  intros [[epsilon sigma] r0] qi qj rcut r shift Hr Hc. split; [|beyond @LJGauss_eval]. cbn [dom LJGauss_doc]. intros L D. below @LJGauss_eval. cbn [negb].
  assert (P : forall n, r ^ n <> 0) by (intros n; apply pow_nonzero; lra). assert (S2 : 2 * sigma ^ 2 <> 0) by (apply Rmult_integral_contrapositive; split; [lra|now apply pow_nonzero]).
  energy_and_force ltac:(repeat split; first [apply P|assumption|lra]).
Qed.

Definition DLVO_doc : documented := mkDoc (R * R * R * R * R) DLVO (fun '(kappa, Z, A, a1, a2) => mkDLVO kappa Z A a1 a2)
  (fun '(kappa, Z, A, a1, a2) _ _ _ r =>
     - (A / 6) * (2 * a1 * a2 / (r ^ 2 - (a1 + a2) ^ 2) + 2 * a1 * a2 / (r ^ 2 - (a1 - a2) ^ 2) + ln ((r ^ 2 - (a1 + a2) ^ 2) / (r ^ 2 - (a1 - a2) ^ 2))) +
     a1 * a2 / (a1 + a2) * Z * exp (- kappa * (r - (a1 + a2))))
  (fun '(kappa, _, _, a1, a2) _ r => kappa <> 0 /\ 0 < a1 /\ 0 < a2 /\ a1 + a2 < r) true.

Lemma dlvo_gaps a1 a2 r : 0 < a1 -> 0 < a2 -> a1 + a2 < r -> 0 < r ^ 2 - (a1 + a2) ^ 2 /\ 0 < r ^ 2 - (a1 - a2) ^ 2.
Proof. intros. split; nra. Qed.

#[export] Instance DLVO_conservative : Conservative DLVO_doc.
Proof.
  intros [[[[kappa Z] A] a1] a2] qi qj rcut r shift Hr Hc. unfold evaluate. reals. unfold DLVO_eval. rewrite !rinv_sqrt_sq by assumption.
  assert (I : forall t, 0 < t -> (lit 1 / / t)%real = t) by (intros t Ht; reals; field; lra). rewrite !I by assumption. split.
  2: { intros G. cbn [rltb R_ops]. destruct (Rlt_dec r rcut); [lra|reflexivity]. }
  intros L (K & A1 & A2 & G). cbn [v_kappa v_Z v_A PairEvaluators.a1 PairEvaluators.a2].
  assert (rltb r rcut = true) as -> by (cbn; destruct (Rlt_dec r rcut); [reflexivity|lra]).
  assert (nonzero kappa = true) as -> by now apply nonzero_spec. cbn [andb].
  destruct (dlvo_gaps a1 a2 r A1 A2 G) as [G1 G2]. destruct (dlvo_gaps a1 a2 rcut A1 A2 ltac:(lra)) as [G3 G4].
  assert (G5 : 0 < (r ^ 2 - (a1 + a2) ^ 2) / (r ^ 2 - (a1 - a2) ^ 2)) by now apply Rdiv_lt_0_compat.
  assert (FX : 0 < r * r * r * r + (a1 * a1 - a2 * a2) * (a1 * a1 - a2 * a2) - 2 * r * r * (a1 * a1 + a2 * a2))
    by (replace (r * r * r * r + _ - _) with ((r ^ 2 - (a1 + a2) ^ 2) * (r ^ 2 - (a1 - a2) ^ 2)) by ring; now apply Rmult_lt_0_compat).
  energy_and_force ltac:(repeat split; first [assumption|lra]).
Qed.

(** The first coefficients are determined by the others. *)
Definition fourier_series (a b : R * R * R) (x : R) : R :=
  let '(a2, a3, a4) := a in let '(b2, b3, b4) := b in
  (a2 - a3 + a4) * cos x + (2 * b2 - 3 * b3 + 4 * b4) * sin x + (a2 * cos (2 * x) + b2 * sin (2 * x)) +
  (a3 * cos (3 * x) + b3 * sin (3 * x)) + (a4 * cos (4 * x) + b4 * sin (4 * x)).

Definition Fourier_doc : documented := mkDoc ((R * R * R) * (R * R * R)) Fourier (fun '(a, b) => mkFourier a b)
  (fun '(a, b) _ _ rcut r => 1 / r ^ 12 + 1 / r ^ 2 * fourier_series a b (PI * r / rcut)) (fun _ _ _ => True) false.

#[export] Instance Fourier_conservative : Conservative Fourier_doc.
Proof.
  intros [[[a2 a3] a4] [[b2 b3] b4]] qi qj rcut r shift Hr Hc. split; [|beyond @Fourier_eval]. intros L _. below @Fourier_eval.
  unfold fourier_loop, fourier_series. cbn [fa fb].
  assert (P : forall n, r ^ n <> 0) by (intros n; apply pow_nonzero; lra).
  energy_and_force ltac:(repeat split; first [apply P|assumption|lra]).
Qed.
