(* ===== verification/PairEvaluatorsSpec.v ===== *)
(** What the pair potential evaluators compute: the theorem about all of them, the
    alchemical derivatives and the long-range corrections, with the points where
    the documentation and the code differ. *)

From Stdlib Require Import ZArith QArith Reals Lra Field List Psatz Lia.
From S2P Require Import Prelude VectorMath PairEvaluators PairEvaluatorsProps.
Import ListNotations.
Local Open Scope R_scope.

(** * Properties *)

Definition pair_potentials (infinity : R) : list documented :=
  [LJ_doc; ForceShiftedLJ_doc; LJ0804_doc; LJ1208_doc; ExpandedLJ_doc; Gauss_doc; ExpandedGaussian_doc; Yukawa_doc; Morse_doc; Buckingham_doc;
   Moliere_doc; ZBL_doc; DPD_doc; Mie_doc; ExpandedMie_doc; OPP_doc; ReactionField_doc; TWF_doc infinity; LJGauss_doc; DLVO_doc; Fourier_doc].


(** The alchemical derivatives of the Lennard-Jones-Gauss potential are the
    derivatives of the energy by the three alchemical factors, at all distances
    below the cutoff. *)
Theorem alchemy_derivatives (p : LJGauss_params) (rsq rcutsq al0 al1 al2 : R) (S : l_sigma p <> 0) (A : al1 <> 0) (C : rsq < rcutsq) :
  let energy x y z := snd (outcome (LJGauss_eval (updateAlchemyParams p x y z) rsq rcutsq false)) in
  let '(d0, d1, d2) := evalAlchemyDerivatives p rsq al0 al1 al2 in
  derivable_pt_lim (fun x => energy x al1 al2) al0 d0 /\ derivable_pt_lim (fun y => energy al0 y al2) al1 d1 /\
  derivable_pt_lim (fun z => energy al0 al1 z) al2 d2.
Proof.
  destruct p as [epsilon sigma r0]. simpl in S. unfold LJGauss_eval, evalAlchemyDerivatives. assert (rltb rsq rcutsq = true) as -> by (cbn; destruct (Rlt_dec _ _); [reflexivity|contradiction]).
  cbn [negb outcome snd updateAlchemyParams l_epsilon l_sigma l_r0 shifted]. generalize (rsqrt rsq : R). intros r.
  assert (N : sigma * al1 <> 0) by (now apply Rmult_integral_contrapositive).
  assert (N2 : sigma * al1 * (sigma * al1) <> 0) by (now apply Rmult_integral_contrapositive).
  cbn -[exp sqrt]. generalize (1 / 1 / rsq). intros c.
  split; [|split]; (eapply D_eq; [deriv; assumption|]); unfold Rsqr; same_arguments ltac:(repeat split; assumption); field; repeat split; assumption.
Qed.

Lemma alchemy_derivatives_witness : derivable_pt_lim (fun x => snd (outcome (LJGauss_eval (updateAlchemyParams (mkLJG 1 1 1) x 1 1) 1 4 false))) 2
  (let '(d0, _, _) := evalAlchemyDerivatives (mkLJG 1 1 1) 1 2 1 1 in d0).
Proof. exact (proj1 (alchemy_derivatives (mkLJG 1 1 1) 1 4 2 1 1 ltac:(simpl; lra) ltac:(lra) ltac:(lra))). Defined.

Lemma lj_derive sigma epsilon r : 0 < r -> derivable_pt_lim (fun t => 4 * epsilon * ((sigma / t) ^ 12 - (sigma / t) ^ 6)) r (LJ_slope sigma epsilon r).
Proof. intros H. eapply D_eq; [deriv; lra|]. unfold LJ_slope, Rsqr. reals. field. lra. Qed.

(** The cube of the cutoff, from its square. *)
Lemma Rpower_three_halves r : 0 < r -> Rpower (r * r) (15 / 10) = r ^ 3.
Proof.
  intros H. rewrite <- Rpower_pow by assumption. unfold Rpower. f_equal. rewrite ln_mult by assumption. simpl. lra.
Qed.

(** The long-range corrections of the Lennard-Jones potential, as functions of
    the cutoff: the derivative of the energy integral is minus the integrand
    [V(r) r^2], that of the pressure integral is minus its integrand, [F(r) r^3]
    with the force [F] of the evaluator. *)
Theorem LJ_long_range_corrections (sigma epsilon r rcut : R) (Hr : 0 < r) (Hc : r < rcut) :
  let p := LJ_make sigma epsilon in let '(f, e) := outcome (LJ_eval p (r * r) (rcut * rcut) false) in
  derivable_pt_lim (fun c => LJ_energy_lrc p (c * c)) r (- (e * r ^ 2)) /\
  derivable_pt_lim (fun c => LJ_pressure_lrc p (c * c)) r (- (f * r * r ^ 3)).
Proof.
  intros p. destruct (conservative (d := LJ_doc) (sigma, epsilon) 0 0 rcut r false Hr ltac:(lra)) as [H _]. specialize (H Hc I). unfold evaluate in H.
  cbn [evalForceAndEnergy code LJ_doc make LJ] in H. fold p in H. destruct (outcome _) as [f e]. destruct H as [-> D]. cbn [V LJ_doc shifts andb] in *.
  assert (D' := uniqueness_limite _ _ _ _ D (lj_derive sigma epsilon r Hr)).
  assert (Nz : forall c, 0 < c -> c < rcut -> reqb (c * c) r0 = false) by (intros c Hp _; cbn; destruct (Req_dec_T (c * c) 0); [nra|reflexivity]).
  set (A := 4 * epsilon * sigma ^ 12). set (B := 4 * epsilon * sigma ^ 6). split.
  - apply (derivable_pt_lim_locally_ext (fun c => A / 9 / c ^ 9 - B / 3 / c ^ 3) _ _ 0 rcut); [lra| |].
    + intros c [C1 C2]. unfold LJ_energy_lrc. rewrite Nz by assumption. cbn -[pow Rpower]. rewrite (Rpower_three_halves c C1). unfold A, B. field. lra.
    + eapply D_eq; [deriv; apply pow_nonzero; lra|]. unfold Rsqr, A, B. reals. field. lra.
  - apply (derivable_pt_lim_locally_ext (fun c => A * 4 / 3 / c ^ 9 - B * 2 / c ^ 3) _ _ 0 rcut); [lra| |].
    + intros c [C1 C2]. unfold LJ_pressure_lrc. rewrite Nz by assumption. cbn -[pow Rpower]. rewrite (Rpower_three_halves c C1). unfold A, B. field. lra.
    + eapply D_eq; [deriv; apply pow_nonzero; lra|]. replace (- (f * r * r ^ 3)) with (- (f * r) * r ^ 3) by ring. rewrite D'. unfold Rsqr, LJ_slope, A, B. reals. field. lra.
Qed.

Lemma LJ_long_range_corrections_witness : let '(f, e) := outcome (LJ_eval (LJ_make 1 1) (1 * 1) (2 * 2) false) in
  derivable_pt_lim (fun c => LJ_energy_lrc (LJ_make 1 1) (c * c)) 1 (- (e * 1 ^ 2)) /\
  derivable_pt_lim (fun c => LJ_pressure_lrc (LJ_make 1 1) (c * c)) 1 (- (f * 1 * 1 ^ 3)).
Proof. exact (LJ_long_range_corrections 1 1 1 2 ltac:(lra) ltac:(lra)). Defined.

(** * Documentation *)

(** The coefficients do not bring the Fourier potential to zero at the cutoff: the
    repulsive term is left. *)
Lemma fourier_at_cutoff a b qi qj rcut : 0 < rcut -> V Fourier_doc (a, b) qi qj rcut rcut = 1 / rcut ^ 12.
Proof.
  intros H. destruct a as [[a2 a3] a4], b as [[b2 b3] b4]. simpl V. unfold fourier_series. replace (PI * rcut / rcut) with PI by (field; lra).
  assert (T : (cos (3 * PI) = -1 /\ sin (3 * PI) = 0) /\ cos (4 * PI) = 1 /\ sin (4 * PI) = 0).
  { replace (3 * PI) with (PI + 2 * PI) by ring. replace (4 * PI) with (2 * PI + 2 * PI) by ring.
    rewrite !sin_plus, !cos_plus, !sin_2PI, !cos_2PI, sin_PI, cos_PI. lra. }
  destruct T as ((C3 & S3) & C4 & S4). rewrite C3, S3, C4, S4, sin_2PI, cos_2PI, sin_PI, cos_PI. field. lra.
Qed.

(** The formula in the user documentation of the TWF potential. *)
Definition twf_user_formula (epsilon sigma alpha r : R) : R :=
  4 * epsilon / alpha ^ 2 * (1 / (sigma ^ 2 / r ^ 2 - 1) ^ 6 - alpha * (1 / (sigma ^ 2 / r ^ 2 - 1) ^ 3)).

(** It has the ratio of distance and size upside down: at twice the size it is not
    the energy that the evaluator computes. *)
Lemma twf_documentation infinity : V (TWF_doc infinity) (1, 1, 1) 0 0 3 2 < 0 /\ 0 < twf_user_formula 1 1 1 2.
Proof. unfold twf_user_formula. simpl V. split; lra. Qed.
