(* ===== verification/PotentialPair.v ===== *)
(** The pair force compute ([hoomd/md/PotentialPair.h]).

    The template parameter is an [evaluator]; the treatment of the cutoff is
    generic in the scalar type, so that it can be studied over the real numbers,
    the loops over the particles use the exact scalars of the particle data. The
    neighbour list appears as the arrays that the loops read, after its [compute].
    The force, energy and virial of a particle are one record ([facc]) in place of
    the columns of two arrays. Communication and device code are left out. *)

From Stdlib Require Import ZArith Lia QArith String Bool.
From stdpp Require Import base list list_numbers strings.
From S2P Require Import Prelude HOOMDMath VectorMath Index1D BoxDim ParticleData PairEvaluators.
Local Open Scope Z_scope.
Local Open Scope hoomd_scope.

(** * The cutoff *)

Inductive energyShiftMode := no_shift | shift | xplor.

Definition setShiftModePython (mode : string) : result energyShiftMode :=
  if String.eqb mode "none" then Ok no_shift
  else if String.eqb mode "shift" then Ok shift
  else if String.eqb mode "xplor" then Ok xplor
  else Throw (runtime_error "Invalid energy shift mode.").

Definition getShiftMode (mode : energyShiftMode) : string :=
  match mode with no_shift => "none" | shift => "shift" | xplor => "xplor" end.

Section cutoff.
Context {R : Type} `{RealOps R} `{RealFun R}.
Local Open Scope real_scope.

(** Energies are shifted in the mode [shift], and in the mode [xplor] when the
    smoothing would start beyond the cutoff. *)
Definition energy_shift_of (mode : energyShiftMode) (ronsq rcutsq : R) : bool :=
  match mode with no_shift => false | shift => true | xplor => rltb rcutsq ronsq end.

(** The XPLOR smoothing of a force and an energy. *)
Definition smooth (mode : energyShiftMode) (rsq ronsq rcutsq : R) (fe : R * R) : R * R :=
  let '(force_divr, pair_eng) := fe in
  match mode with
  | xplor =>
      if negb (rltb rsq ronsq) && rltb rsq rcutsq then
        let xplor_denom_inv := lit 1 / ((rcutsq - ronsq) * (rcutsq - ronsq) * (rcutsq - ronsq)) in
        let rsq_minus_r_cut_sq := rsq - rcutsq in
        let s := rsq_minus_r_cut_sq * rsq_minus_r_cut_sq * (rcutsq + lit 2 * rsq - lit 3 * ronsq) * xplor_denom_inv in
        let ds_dr_divr := lit 12 * (rsq - ronsq) * rsq_minus_r_cut_sq * xplor_denom_inv in
        (s * force_divr - ds_dr_divr * pair_eng, pair_eng * s)
      else fe
  | _ => fe
  end.

(** The evaluation of a pair in the body of the loops. *)
Definition evaluate_pair (E : evaluator R) (mode : energyShiftMode) (param : param_type E) (qi qj rsq rcutsq ronsq : R) : option (R * R) :=
  match evalForceAndEnergy E param qi qj rsq rcutsq (energy_shift_of mode ronsq rcutsq) with
  | Some fe => Some (smooth mode rsq ronsq rcutsq fe)
  | None => None
  end.

End cutoff.

(** * The data *)

(** The columns of a particle in [m_force] and [m_virial]. *)
Record facc := mkF {
  f_x : Scalar; f_y : Scalar; f_z : Scalar; f_w : Scalar;
  v_xx : Scalar; v_xy : Scalar; v_xz : Scalar; v_yy : Scalar; v_yz : Scalar; v_zz : Scalar
}.

Definition f_zero : facc := mkF 0 0 0 0 0 0 0 0 0 0.

Definition f_add (a b : facc) : facc :=
  mkF (f_x a + f_x b) (f_y a + f_y b) (f_z a + f_z b) (f_w a + f_w b) (v_xx a + v_xx b) (v_xy a + v_xy b) (v_xz a + v_xz b)
    (v_yy a + v_yy b) (v_yz a + v_yz b) (v_zz a + v_zz b).

(** What the loops read of the neighbour list. *)
Record neighbor_arrays := mkNeighbors { nl_half : bool; h_n_neigh : list Z; h_head_list : list Z; h_nlist : list Z }.

Section potential.
Context `{RealOps Q} `{RealFun Q}.
Variable E : evaluator Q.

Record potential := mkPotential {
  m_shift_mode : energyShiftMode;
  m_typpair_idx : Index2D.t;
  m_rcutsq : list Scalar;
  m_ronsq : list Scalar;
  m_params : list (param_type E);
  m_r_cut_nlist : list Scalar;
  m_tail_correction_enabled : bool;
  m_num_particles_by_type : list Z;
  m_external_energy : Scalar;
  m_external_virial : list Scalar
}.

(** ** Construction and parameters *)

Fixpoint count_types (count : nat) (i : Z) (p : pdata) (n : list Z) : run (list Z) :=
  match count with
  | O => Ret n
  | S count =>
      bind! e := read (m_ptl p) i in
      bind! k := read n (typ e) in
      bind! n := write n (typ e) (u32 (k + 1)) in
      count_types count (i + 1) p n
  end.

Definition new_potential (p : pdata) (param : param_type E) : run potential :=
  let idx := Index2D.make_square (getNTypes p) in
  let n := Z.to_nat (Index2D.getNumElements idx) in
  bind! counts := count_types (Z.to_nat (getN p)) 0 p (replicate (length (m_type_mapping p)) 0) in
  Ret (mkPotential no_shift idx (replicate n 0%Q) (replicate n 0%Q) (replicate n param) (replicate n 0%Q) false counts 0 (replicate 6 0%Q)).

Definition validateTypes (p : pdata) (typ1 typ2 : Z) : result unit :=
  if (typ1 >=? getNTypes p) || (typ2 >=? getNTypes p) then Throw (runtime_error "Error in for pair potential. Invalid type") else Ok tt.

(** The two writes of a symmetric entry. *)
Definition set_pair {A} (idx : Index2D.t) (typ1 typ2 : Z) (x : A) (l : list A) : run (list A) :=
  bind! l := write l (Index2D.index idx typ1 typ2) x in write l (Index2D.index idx typ2 typ1) x.

Definition setParams (p : pdata) (typ1 typ2 : Z) (param : param_type E) (f : potential) : run (potential * result unit) :=
  match validateTypes p typ1 typ2 with
  | Throw e => Ret (f, Throw e)
  | Ok _ =>
      bind! l := set_pair (m_typpair_idx f) typ1 typ2 param (m_params f) in
      Ret (mkPotential (m_shift_mode f) (m_typpair_idx f) (m_rcutsq f) (m_ronsq f) l (m_r_cut_nlist f) (m_tail_correction_enabled f)
             (m_num_particles_by_type f) (m_external_energy f) (m_external_virial f), Ok tt)
  end.

(** The neighbour list is notified of the new [m_r_cut_nlist] by the caller. *)
Definition setRcut (p : pdata) (typ1 typ2 : Z) (rcut : Scalar) (f : potential) : run (potential * result unit) :=
  match validateTypes p typ1 typ2 with
  | Throw e => Ret (f, Throw e)
  | Ok _ =>
      bind! l := set_pair (m_typpair_idx f) typ1 typ2 (rcut * rcut)%Q (m_rcutsq f) in
      bind! n := set_pair (m_typpair_idx f) typ1 typ2 rcut (m_r_cut_nlist f) in
      Ret (mkPotential (m_shift_mode f) (m_typpair_idx f) l (m_ronsq f) (m_params f) n (m_tail_correction_enabled f)
             (m_num_particles_by_type f) (m_external_energy f) (m_external_virial f), Ok tt)
  end.

Definition setRon (p : pdata) (typ1 typ2 : Z) (ron : Scalar) (f : potential) : run (potential * result unit) :=
  match validateTypes p typ1 typ2 with
  | Throw e => Ret (f, Throw e)
  | Ok _ =>
      bind! l := set_pair (m_typpair_idx f) typ1 typ2 (ron * ron)%Q (m_ronsq f) in
      Ret (mkPotential (m_shift_mode f) (m_typpair_idx f) (m_rcutsq f) l (m_params f) (m_r_cut_nlist f) (m_tail_correction_enabled f)
             (m_num_particles_by_type f) (m_external_energy f) (m_external_virial f), Ok tt)
  end.

(** ** A pair *)

(** The separation and the evaluation of the particles [i] and [j]. *)
Definition pair_of (p : pdata) (f : potential) (i j : Z) : run (Scalar3 * option (Scalar * Scalar)) :=
  bind! ei := read (m_ptl p) i in
  bind! ej := read (m_ptl p) j in
  let qi := if needsCharge E then charge ei else 0%Q in
  let qj := if needsCharge E then charge ej else 0%Q in
  match BoxDim.minImage (m_global_box p) (s3_sub (pos ei) (pos ej)) with
  | None => OutOfBounds
  | Some dx =>
      let rsq := (s3x dx * s3x dx + s3y dx * s3y dx + s3z dx * s3z dx)%Q in
      let typpair_idx := Index2D.index (m_typpair_idx f) (typ ei) (typ ej) in
      bind! param := read (m_params f) typpair_idx in
      bind! rcutsq := read (m_rcutsq f) typpair_idx in
      bind! ronsq := match m_shift_mode f with xplor => read (m_ronsq f) typpair_idx | _ => Ret 0%Q end in
      Ret (dx, evaluate_pair E (m_shift_mode f) param qi qj rsq rcutsq ronsq)
  end.

(** What an evaluated pair adds to its first particle. *)
Definition first_share (compute_virial : bool) (dx : Scalar3) (fe : Scalar * Scalar) : facc :=
  let '(force_divr, pair_eng) := fe in
  let force_div2r := (force_divr * (1 # 2))%Q in
  let v a b := (if compute_virial then force_div2r * a * b else 0)%Q in
  mkF (s3x dx * force_divr) (s3y dx * force_divr) (s3z dx * force_divr) (pair_eng * (1 # 2))
    (v (s3x dx) (s3x dx)) (v (s3x dx) (s3y dx)) (v (s3x dx) (s3z dx)) (v (s3y dx) (s3y dx)) (v (s3y dx) (s3z dx)) (v (s3z dx) (s3z dx)).

(** What it adds to the second one under the third law. *)
Definition second_share (compute_virial : bool) (dx : Scalar3) (fe : Scalar * Scalar) : facc :=
  let c := first_share compute_virial dx fe in
  mkF (- f_x c) (- f_y c) (- f_z c) (f_w c) (v_xx c) (v_xy c) (v_xz c) (v_yy c) (v_yz c) (v_zz c).

(** ** [computeForces] *)

(** The loop over the neighbours of [i] from position [k] on: [fi] collects the
    share of [i]. *)
Fixpoint neighbor_loop (compute_virial : bool) (p : pdata) (f : potential) (nl : neighbor_arrays) (i : Z) (count : nat) (k : Z) (fi : facc) (force : list facc) :
    run (facc * list facc) :=
  match count with
  | O => Ret (fi, force)
  | S count =>
      bind! j := read (h_nlist nl) k in
      bind! (dx, o) := pair_of p f i j in
      match o with
      | None => neighbor_loop compute_virial p f nl i count (k + 1) fi force
      | Some fe =>
          bind! force := if nl_half nl && (j <? getN p) then
                           bind! fj := read force j in write force j (f_add fj (second_share compute_virial dx fe))
                         else Ret force in
          neighbor_loop compute_virial p f nl i count (k + 1) (f_add fi (first_share compute_virial dx fe)) force
      end
  end.

Fixpoint particle_loop (compute_virial : bool) (p : pdata) (f : potential) (nl : neighbor_arrays) (count : nat) (i : Z) (force : list facc) : run (list facc) :=
  match count with
  | O => Ret force
  | S count =>
      bind! head := read (h_head_list nl) i in
      bind! size := read (h_n_neigh nl) i in
      bind! (fi, force) := neighbor_loop compute_virial p f nl i (Z.to_nat size) head f_zero force in
      bind! fi0 := read force i in
      bind! force := write force i (f_add fi0 fi) in
      particle_loop compute_virial p f nl count (i + 1) force
  end.

(** ** [computeTailCorrection] *)

(** [for (...) s += g(k);] *)
Fixpoint add_up (l : list Z) (g : Z -> run Scalar) (s : Scalar) : run Scalar :=
  match l with
  | [] => Ret s
  | k :: l => bind! x := g k in add_up l g (s + x)%Q
  end.

(** A sum over the pairs of types. *)
Fixpoint sum_types (l types : list Z) (g : Z -> Z -> run Scalar) (s : Scalar) : run Scalar :=
  match l with
  | [] => Ret s
  | i :: l => bind! s := add_up types (g i) s in sum_types l types g s
  end.

(** One of the long-range integrals for a pair of types. *)
Definition lrc_of (lrc : param_type E -> Scalar -> Scalar) (f : potential) (i j : Z) : run Scalar :=
  let k := Index2D.index (m_typpair_idx f) i j in
  bind! param := read (m_params f) k in
  bind! rcutsq := read (m_rcutsq f) k in
  Ret (lrc param rcutsq).

Definition energy_correction (volume : Scalar) (f : potential) (type_i type_j : Z) : run Scalar :=
  bind! n_j := read (m_num_particles_by_type f) type_j in
  let rho_j := (inject_Z n_j / volume)%Q in
  bind! n_i := read (m_num_particles_by_type f) type_i in
  bind! lrc := lrc_of (evalEnergyLRCIntegral E) f type_i type_j in
  Ret (2 * inject_Z n_i * rpi * rho_j * lrc)%Q.

Definition virial_correction (dimension : Z) (volume : Scalar) (f : potential) (type_i type_j : Z) : run Scalar :=
  bind! n_i := read (m_num_particles_by_type f) type_i in
  let rho_i := (inject_Z n_i / volume)%Q in
  bind! n_j := read (m_num_particles_by_type f) type_j in
  let rho_j := (inject_Z n_j / volume)%Q in
  bind! lrc := lrc_of (evalPressureLRCIntegral E) f type_i type_j in
  let delta_pressure := (4 / 6 * rho_i * rho_j * rpi * lrc)%Q in
  Ret (inject_Z dimension * volume * delta_pressure / 3)%Q.

Definition computeTailCorrection (compute_virial : bool) (dimension : Z) (p : pdata) (f : potential) : run (potential * result unit) :=
  if negb (m_tail_correction_enabled f) then Ret (f, Ok tt)
  else match m_shift_mode f with
  | no_shift =>
      let volume := BoxDim.getVolume (m_global_box p) (dimension =? 2) in
      let types := seqZ 0 (getNTypes p) in
      bind! energy := sum_types types types (energy_correction volume f) 0%Q in
      bind! virial :=
        if compute_virial then
          bind! v := sum_types types types (virial_correction dimension volume f) 0%Q in Ret [v; 0; 0; v; 0; v]%Q
        else Ret (m_external_virial f) in
      Ret (mkPotential (m_shift_mode f) (m_typpair_idx f) (m_rcutsq f) (m_ronsq f) (m_params f) (m_r_cut_nlist f) (m_tail_correction_enabled f)
             (m_num_particles_by_type f) energy virial, Ok tt)
  | _ => Ret (f, Throw (runtime_error "Pair potential shift mode must be none to apply tail corrections."))
  end.

(** ** The computation *)

(** The part after the neighbour list was computed; [elements] is the size of the
    force array. *)
Definition computeForces (compute_virial : bool) (dimension : Z) (p : pdata) (f : potential) (nl : neighbor_arrays) (elements : nat) :
    run (list facc * (potential * result unit)) :=
  bind! force := particle_loop compute_virial p f nl (Z.to_nat (getN p)) 0 (replicate elements f_zero) in
  bind! f := computeTailCorrection compute_virial dimension p f in
  Ret (force, f).

(** ** [computeEnergyBetweenSets] *)

Fixpoint energy_with (p : pdata) (f : potential) (i : Z) (tags : list Z) (energy : Scalar) : run Scalar :=
  match tags with
  | [] => Ret energy
  | t :: tags =>
      bind! j := read (m_rtag p) t in
      if j >=? u32 (getN p + m_nghosts p) then energy_with p f i tags energy
      else
        bind! (_, o) := pair_of p f i j in
        energy_with p f i tags (match o with Some (_, pair_eng) => energy + pair_eng | None => energy end)%Q
  end.

Fixpoint energy_between (p : pdata) (f : potential) (tags1 tags2 : list Z) (energy : Scalar) : run Scalar :=
  match tags1 with
  | [] => Ret energy
  | t :: tags1 =>
      bind! i := read (m_rtag p) t in
      if i >=? getN p then energy_between p f tags1 tags2 energy
      else
        bind! energy := energy_with p f i tags2 energy in
        energy_between p f tags1 tags2 energy
  end.

(** [energy] is left unchanged when one of the sets is empty. *)
Definition computeEnergyBetweenSets (p : pdata) (f : potential) (tags1 tags2 : list Z) (energy : Scalar) : run Scalar :=
  match tags1, tags2 with
  | [], _ | _, [] => Ret energy
  | _, _ => energy_between p f tags1 tags2 0%Q
  end.

End potential.
