(* ===== verification/PotentialPairTables.v ===== *)
(** The tables by pair of types of the pair force compute: their shape and symmetry
    as an invariant, the setters as updates of a map from unordered pairs of types,
    and the tail correction computed from them. *)

From Stdlib Require Import ZArith Lia QArith Lqa String Bool.
From stdpp Require Import base list list_numbers strings.
From S2P Require Import Prelude HOOMDMath VectorMath Index1D BoxDim ParticleData PairEvaluators PotentialPair.
Local Open Scope Z_scope.
Local Open Scope hoomd_scope.

(** * A table by pair of types *)

Section tables.
Variable n : Z.
Hypothesis N : 0 < n < 2 ^ 16.

Definition type_index (i j : Z) : Z := Index2D.index (Index2D.make_square n) i j.

Lemma square_fits : Index2D.fits (Index2D.make_square n).
Proof. unfold Index2D.fits, Index2D.make_square. simpl. nia. Qed.

Lemma type_index_eq i j : 0 <= i < n -> 0 <= j < n -> type_index i j = j * n + i.
Proof. intros. unfold type_index. rewrite index2d_flat; [reflexivity|apply square_fits|split; simpl; lia]. Qed.

Lemma type_index_range i j : 0 <= i < n -> 0 <= j < n -> 0 <= type_index i j < n * n.
Proof. intros. rewrite type_index_eq by assumption. nia. Qed.

Lemma type_index_inj i j a b : 0 <= i < n -> 0 <= j < n -> 0 <= a < n -> 0 <= b < n ->
  type_index i j = type_index a b -> i = a /\ j = b.
Proof. intros ? ? ? ?. rewrite !type_index_eq by assumption. intros E. assert (j = b) by nia. subst. lia. Qed.

(** The entry of an ordered pair. *)
Definition entry {A} (l : list A) (i j : Z) : option A := l !! Z.to_nat (type_index i j).

Definition sized {A} (l : list A) : Prop := Z.of_nat (length l) = n * n.

Definition symmetric {A} (l : list A) : Prop := forall i j, 0 <= i < n -> 0 <= j < n -> entry l i j = entry l j i.

Definition same_pair (t1 t2 i j : Z) : bool := ((i =? t1) && (j =? t2)) || ((i =? t2) && (j =? t1)).

Lemma entry_Some {A} (l : list A) i j : sized l -> 0 <= i < n -> 0 <= j < n -> is_Some (entry l i j).
Proof. intros S Hi Hj. apply lookup_lt_is_Some. pose proof (type_index_range i j Hi Hj). unfold sized in S. lia. Qed.

Lemma entry_zset {A} (l : list A) t1 t2 x i j : sized l -> 0 <= t1 < n -> 0 <= t2 < n -> 0 <= i < n -> 0 <= j < n ->
  entry (zset l (type_index t1 t2) x) i j = if (i =? t1) && (j =? t2) then Some x else entry l i j.
Proof.
  intros S H1 H2 Hi Hj. unfold entry. pose proof (type_index_range t1 t2 H1 H2). pose proof (type_index_range i j Hi Hj). unfold sized in S.
  destruct ((i =? t1) && (j =? t2)) eqn:E.
  - apply andb_true_iff in E as [->%Z.eqb_eq ->%Z.eqb_eq]. apply lookup_zset_eq. lia.
  - apply lookup_zset_ne. intros D. apply Z2Nat.inj in D; [|lia..]. apply type_index_inj in D as [-> ->]; try assumption. now rewrite !Z.eqb_refl in E.
Qed.

Lemma set_pair_spec {A} (l : list A) t1 t2 x : sized l -> 0 <= t1 < n -> 0 <= t2 < n ->
  exists l', set_pair (Index2D.make_square n) t1 t2 x l = Ret l' /\ sized l' /\
    forall i j, 0 <= i < n -> 0 <= j < n -> entry l' i j = if same_pair t1 t2 i j then Some x else entry l i j.
Proof.
  intros S H1 H2. pose proof (type_index_range t1 t2 H1 H2). pose proof (type_index_range t2 t1 H2 H1). unfold sized in *. eexists. unfold set_pair.
  rewrite write_in by (rewrite S; assumption). simpl. rewrite write_in by (rewrite length_zset, S; assumption). split; [reflexivity|].
  split; [now rewrite !length_zset|]. intros i j Hi Hj. fold (type_index t1 t2) (type_index t2 t1).
  rewrite !entry_zset; unfold sized; rewrite ?length_zset; try assumption. unfold same_pair.
  destruct ((i =? t1) && (j =? t2)), ((i =? t2) && (j =? t1)); reflexivity.
Qed.

Lemma same_pair_sym t1 t2 i j : same_pair t1 t2 j i = same_pair t1 t2 i j.
Proof. unfold same_pair. rewrite orb_comm. f_equal; apply andb_comm. Qed.

Lemma set_pair_symmetric {A} (l l' : list A) t1 t2 x : symmetric l ->
  (forall i j, 0 <= i < n -> 0 <= j < n -> entry l' i j = if same_pair t1 t2 i j then Some x else entry l i j) -> symmetric l'.
Proof. intros S H i j Hi Hj. rewrite (H i j), (H j i), (same_pair_sym t1 t2 i j) by assumption. destruct (same_pair t1 t2 i j); [reflexivity|now apply S]. Qed.

Lemma sized_replicate {A} (x : A) : sized (replicate (Z.to_nat (n * n)) x).
Proof. unfold sized. rewrite length_replicate. nia. Qed.

Lemma entry_replicate {A} (x : A) i j : 0 <= i < n -> 0 <= j < n -> entry (replicate (Z.to_nat (n * n)) x) i j = Some x.
Proof. intros Hi Hj. pose proof (type_index_range i j Hi Hj). apply lookup_replicate_2. lia. Qed.

End tables.

(** * The potential *)

Section potential.
Context `{RealOps Q} `{RealFun Q}.
Variable E : evaluator Q.

(** The number of types fits 16 bits (so that the table size fits 32), the four
    tables have an entry per pair and are symmetric, and there is a count by type. *)
Record tables_ok (p : pdata) (f : potential E) : Prop := {
  to_types : 0 < getNTypes p < 2 ^ 16;
  to_index : m_typpair_idx E f = Index2D.make_square (getNTypes p);
  to_params : sized (getNTypes p) (m_params E f) /\ symmetric (getNTypes p) (m_params E f);
  to_rcutsq : sized (getNTypes p) (m_rcutsq E f) /\ symmetric (getNTypes p) (m_rcutsq E f);
  to_ronsq : sized (getNTypes p) (m_ronsq E f) /\ symmetric (getNTypes p) (m_ronsq E f);
  to_nlist : sized (getNTypes p) (m_r_cut_nlist E f) /\ symmetric (getNTypes p) (m_r_cut_nlist E f);
  to_counts : Z.of_nat (length (m_num_particles_by_type E f)) = getNTypes p
}.

(** A call of one of the three setters. *)
Inductive setting :=
| SetParams (typ1 typ2 : Z) (param : param_type E)
| SetRcut (typ1 typ2 : Z) (rcut : Scalar)
| SetRon (typ1 typ2 : Z) (ron : Scalar).

Definition perform (p : pdata) (s : setting) (f : potential E) : run (potential E * result unit) :=
  match s with
  | SetParams t1 t2 x => setParams E p t1 t2 x f
  | SetRcut t1 t2 x => setRcut E p t1 t2 x f
  | SetRon t1 t2 x => setRon E p t1 t2 x f
  end.

(** The types of a call, which are unsigned integers. *)
Definition types_of (s : setting) : Z * Z := match s with SetParams t1 t2 _ | SetRcut t1 t2 _ | SetRon t1 t2 _ => (t1, t2) end.

(** What the compute knows of a pair of types: the parameters, the squared cutoff,
    the squared onset of the smoothing and the cutoff of the neighbour list. *)
Definition pair_view : Type := option (param_type E) * option Scalar * option Scalar * option Scalar.

Definition view (p : pdata) (f : potential E) (i j : Z) : pair_view :=
  (entry (getNTypes p) (m_params E f) i j, entry (getNTypes p) (m_rcutsq E f) i j, entry (getNTypes p) (m_ronsq E f) i j,
   entry (getNTypes p) (m_r_cut_nlist E f) i j).

(** The call as an update of the map from unordered pairs. *)
Definition update_view (s : setting) (v : pair_view) (i j : Z) : pair_view :=
  let '(a, b, c, d) := v in
  let '(t1, t2) := types_of s in
  if same_pair t1 t2 i j then
    match s with
    | SetParams _ _ x => (Some x, b, c, d)
    | SetRcut _ _ x => (a, Some (x * x)%Q, c, Some x)
    | SetRon _ _ x => (a, b, Some (x * x)%Q, d)
    end
  else v.

Definition valid_types (p : pdata) (s : setting) : bool := ((types_of s).1 <? getNTypes p) && ((types_of s).2 <? getNTypes p).

Lemma validateTypes_spec p t1 t2 : match validateTypes p t1 t2 with Ok _ => t1 < getNTypes p /\ t2 < getNTypes p | Throw _ => ~ (t1 < getNTypes p /\ t2 < getNTypes p) end.
Proof. unfold validateTypes. rewrite !Z.geb_leb. destruct (Z.leb_spec (getNTypes p) t1), (Z.leb_spec (getNTypes p) t2); simpl; lia. Qed.

Lemma perform_valid p s f : tables_ok p f -> 0 <= (types_of s).1 < getNTypes p -> 0 <= (types_of s).2 < getNTypes p ->
  exists f', perform p s f = Ret (f', Ok tt) /\ tables_ok p f' /\
    forall i j, 0 <= i < getNTypes p -> 0 <= j < getNTypes p -> view p f' i j = update_view s (view p f i j) i j.
Proof.
  intros [T I [P1 P2] [C1 C2] [O1 O2] [L1 L2] K] H1 H2.
  destruct s as [t1 t2 x|t1 t2 x|t1 t2 x]; simpl in H1, H2 |- *; unfold setParams, setRcut, setRon;
    (pose proof (validateTypes_spec p t1 t2) as V; destruct (validateTypes p t1 t2); [|exfalso; apply V; lia]); rewrite I.
  - destruct (set_pair_spec (getNTypes p) T (m_params E f) t1 t2 x P1 H1 H2) as (l & El & S & Vl). rewrite El. eexists. split; [reflexivity|].
    split; [constructor; simpl; try assumption; eauto using set_pair_symmetric; auto|].
    intros i j Hi Hj. unfold view, update_view. simpl. rewrite Vl by assumption. now destruct (same_pair t1 t2 i j).
  - destruct (set_pair_spec (getNTypes p) T (m_rcutsq E f) t1 t2 (x * x)%Q C1 H1 H2) as (l & El & S & Vl). rewrite El. simpl.
    destruct (set_pair_spec (getNTypes p) T (m_r_cut_nlist E f) t1 t2 x L1 H1 H2) as (m & Em & S' & Vm). rewrite Em. eexists. split; [reflexivity|].
    split; [constructor; simpl; try assumption; eauto using set_pair_symmetric; auto|].
    intros i j Hi Hj. unfold view, update_view. simpl. rewrite Vl, Vm by assumption. now destruct (same_pair t1 t2 i j).
  - destruct (set_pair_spec (getNTypes p) T (m_ronsq E f) t1 t2 (x * x)%Q O1 H1 H2) as (l & El & S & Vl). rewrite El. eexists. split; [reflexivity|].
    split; [constructor; simpl; try assumption; eauto using set_pair_symmetric; auto|].
    intros i j Hi Hj. unfold view, update_view. simpl. rewrite Vl by assumption. now destruct (same_pair t1 t2 i j).
Qed.

Lemma perform_invalid p s f : valid_types p s = false -> exists e, perform p s f = Ret (f, Throw e).
Proof.
  unfold valid_types. intros B. destruct s as [t1 t2 x|t1 t2 x|t1 t2 x]; simpl in B |- *; unfold setParams, setRcut, setRon;
    (pose proof (validateTypes_spec p t1 t2) as V; destruct (validateTypes p t1 t2); [exfalso|eauto]);
    apply andb_false_iff in B as [B|B]; zbool; lia.
Qed.

(** A sequence of calls; a call that throws leaves the rest to run. *)
Fixpoint configure (p : pdata) (l : list setting) (f : potential E) : run (potential E) :=
  match l with
  | [] => Ret f
  | s :: l => bind! (f, _) := perform p s f in configure p l f
  end.

(** The calls with types out of range do nothing. *)
Definition configured (p : pdata) (l : list setting) (v : pair_view) (i j : Z) : pair_view :=
  fold_left (fun v s => if valid_types p s then update_view s v i j else v) l v.

Lemma configure_spec p l : Forall (fun s => 0 <= (types_of s).1 /\ 0 <= (types_of s).2) l -> forall f, tables_ok p f ->
  exists f', configure p l f = Ret f' /\ tables_ok p f' /\
    forall i j, 0 <= i < getNTypes p -> 0 <= j < getNTypes p -> view p f' i j = configured p l (view p f i j) i j.
Proof.
  induction 1 as [|s l [H1 H2] _ IH]; intros f K; simpl; [eauto|]. destruct (valid_types p s) eqn:V.
  - assert (B := V). apply andb_true_iff in B as [B1%Z.ltb_lt B2%Z.ltb_lt].
    destruct (perform_valid p s f K) as (f' & -> & K' & Vf); [lia..|]. simpl. destruct (IH f' K') as (g & Eg & Kg & Vg). exists g.
    split; [exact Eg|]. split; [exact Kg|]. intros i j Hi Hj. rewrite Vg, Vf by assumption. reflexivity.
  - destruct (perform_invalid p s f V) as (e & ->). simpl. apply IH, K.
Qed.

(** ** Construction *)

(** The types of the local particles are known. *)
Definition particles_typed (p : pdata) : Prop := forall i, 0 <= i < getN p -> exists e, m_ptl p !! Z.to_nat i = Some e /\ 0 <= typ e < getNTypes p.

Definition has_type (p : pdata) (t i : Z) : bool := match m_ptl p !! Z.to_nat i with Some e => typ e =? t | None => false end.

Definition number_of_type (p : pdata) (t : Z) : Z := Z.of_nat (length (List.filter (has_type p t) (seqZ 0 (getN p)))).

Lemma count_types_spec p : particles_typed p -> forall count i n, 0 <= i -> i + Z.of_nat count = getN p -> Z.of_nat (length n) = getNTypes p ->
  getN p < 2 ^ 32 -> (forall t k, n !! t = Some k -> 0 <= k <= i) ->
  exists n', count_types count i p n = Ret n' /\ Z.of_nat (length n') = getNTypes p /\
    forall t k, 0 <= t -> n !! Z.to_nat t = Some k -> n' !! Z.to_nat t = Some (k + Z.of_nat (length (List.filter (has_type p t) (seqZ i (Z.of_nat count))))).
Proof.
  intros T count. induction count as [|count IH]; intros i n Hi Hc L B K; simpl.
  { exists n. split; [reflexivity|]. split; [exact L|]. intros t k _ ->. f_equal. simpl. lia. }
  destruct (T i ltac:(lia)) as (e & He & Ht). rewrite (read_Some _ _ _ He). simpl.
  destruct (lookup_lt_is_Some_2 n (Z.to_nat (typ e)) ltac:(lia)) as [k0 Hk]. rewrite (read_Some _ _ _ Hk). simpl. pose proof (K _ _ Hk) as K0.
  rewrite write_in by lia. simpl. replace (u32 (k0 + 1)) with (k0 + 1) by (unfold u32; rewrite Z.mod_small; lia).
  destruct (IH (i + 1) (zset n (typ e) (k0 + 1))) as (n' & En & Ln & F); [lia|lia|now rewrite length_zset|assumption| |].
  { intros t k Hl. destruct (decide (Z.to_nat (typ e) = t)) as [<-|D].
    - rewrite lookup_zset_eq in Hl by lia. injection Hl as <-. lia.
    - rewrite lookup_zset_ne in Hl by assumption. pose proof (K _ _ Hl). lia. }
  exists n'. split; [exact En|]. split; [exact Ln|]. intros t k H1 Hl. rewrite seqZ_cons by lia. replace (Z.pred (Z.of_nat (S count))) with (Z.of_nat count) by lia.
  change (Z.succ i) with (i + 1). simpl. unfold has_type at 1. rewrite He. destruct (Z.eqb_spec (typ e) t) as [<-|D].
  - rewrite Hk in Hl. injection Hl as ->. erewrite F; [|exact H1|apply lookup_zset_eq; lia]. simpl. f_equal. lia.
  - apply F; [exact H1|]. rewrite lookup_zset_ne; [exact Hl|]. lia.
Qed.

Lemma new_potential_spec p param : particles_typed p -> 0 < getNTypes p < 2 ^ 16 -> 0 <= getN p < 2 ^ 32 ->
  exists f, new_potential E p param = Ret f /\ tables_ok p f /\
    (forall i j, 0 <= i < getNTypes p -> 0 <= j < getNTypes p -> view p f i j = (Some param, Some 0, Some 0, Some 0)%Q) /\
    forall t, 0 <= t < getNTypes p -> m_num_particles_by_type E f !! Z.to_nat t = Some (number_of_type p t).
Proof.
  intros T N B. unfold new_potential. rewrite index2d_num by (apply square_fits, N). simpl Index2D.m_w. simpl Index2D.m_h.
  destruct (count_types_spec p T (Z.to_nat (getN p)) 0 (replicate (length (m_type_mapping p)) 0)) as (n & -> & L & F);
    [lia|lia|rewrite length_replicate; reflexivity|lia| |].
  { intros t k Hk. apply lookup_replicate in Hk as [-> _]. lia. }
  simpl. eexists. split; [reflexivity|]. assert (S : forall A (x : A), sized (getNTypes p) (replicate (Z.to_nat (getNTypes p * getNTypes p)) x) /\
    symmetric (getNTypes p) (replicate (Z.to_nat (getNTypes p * getNTypes p)) x)).
  { intros A x. split; [now apply sized_replicate|]. intros i j Hi Hj. now rewrite !entry_replicate. }
  split; [constructor; simpl; auto|]. split.
  - intros i j Hi Hj. unfold view. simpl. now rewrite !entry_replicate.
  - intros t Ht. simpl. rewrite (F t 0); [|lia|]. { unfold number_of_type. now rewrite Z2Nat.id by lia. }
    apply lookup_replicate_2. unfold getNTypes in Ht. lia.
Qed.

(** ** The tail correction *)

Lemma add_up_spec l g h s : (forall k, k ∈ l -> exists x, g k = Ret x /\ (x == h k)%Q) ->
  exists y, add_up l g s = Ret y /\ (y == s + foldr (fun k s => h k + s) 0 l)%Q.
Proof.
  revert s. induction l as [|k l IH]; intros s G; simpl; [eexists; split; [reflexivity|ring]|].
  destruct (G k) as (x & -> & X); [left|]. simpl. destruct (IH (s + x)%Q) as (y & Ey & Y); [intros; apply G; now right|].
  exists y. split; [exact Ey|]. rewrite Y, X. ring.
Qed.

Lemma sum_types_spec l types g h s : (forall i j, i ∈ l -> j ∈ types -> exists x, g i j = Ret x /\ (x == h i j)%Q) ->
  exists y, sum_types l types g s = Ret y /\ (y == s + foldr (fun i s => foldr (fun j s => h i j + s) 0 types + s) 0 l)%Q.
Proof.
  revert s. induction l as [|i l IH]; intros s G; simpl; [eexists; split; [reflexivity|ring]|].
  destruct (add_up_spec types (g i) (h i) s) as (x & -> & X); [intros; apply G; [left|assumption]|]. simpl.
  destruct (IH x) as (y & Ey & Y); [intros; apply G; [now right|assumption]|]. exists y. split; [exact Ey|]. rewrite Y, X. ring.
Qed.

(** The value of a long-range integral for a pair of types, and the sum over the
    ordered pairs of types. *)
Definition lrc_value (lrc : param_type E -> Scalar -> Scalar) (p : pdata) (f : potential E) (i j : Z) : Scalar :=
  match entry (getNTypes p) (m_params E f) i j, entry (getNTypes p) (m_rcutsq E f) i j with Some x, Some c => lrc x c | _, _ => 0%Q end.

Definition over_types (p : pdata) (h : Z -> Z -> Q) : Q :=
  let types := seqZ 0 (getNTypes p) in foldr (fun i s => foldr (fun j s => h i j + s) 0 types + s)%Q 0%Q types.

Definition counted (f : potential E) (t : Z) : Q := inject_Z (zget 0 (m_num_particles_by_type E f) t).

Lemma lrc_of_spec p f lrc i j : tables_ok p f -> 0 <= i < getNTypes p -> 0 <= j < getNTypes p -> lrc_of E lrc f i j = Ret (lrc_value lrc p f i j).
Proof.
  intros K Hi Hj. destruct (entry_Some (getNTypes p) (to_types p f K) (m_params E f) i j) as [x X]; [apply K|assumption..|].
  destruct (entry_Some (getNTypes p) (to_types p f K) (m_rcutsq E f) i j) as [c C]; [apply K|assumption..|].
  unfold lrc_of, lrc_value. rewrite X, C, (to_index p f K). fold (type_index (getNTypes p) i j).
  rewrite (read_Some _ _ _ X). simpl. now rewrite (read_Some _ _ _ C).
Qed.

Lemma counted_spec p f t : tables_ok p f -> 0 <= t < getNTypes p -> read (m_num_particles_by_type E f) t = Ret (zget 0 (m_num_particles_by_type E f) t).
Proof. intros K Ht. apply read_Some, lookup_zget. pose proof (to_counts p f K). lia. Qed.

(** The documented corrections for a pair of types: of the energy, and of the
    diagonal of the virial through that of the pressure. *)
Definition energy_lrc (V : Q) (p : pdata) (f : potential E) (i j : Z) : Q :=
  (2 * counted f i * rpi * (counted f j / V) * lrc_value (evalEnergyLRCIntegral E) p f i j)%Q.
Definition virial_lrc (dimension : Z) (V : Q) (p : pdata) (f : potential E) (i j : Z) : Q :=
  (inject_Z dimension * V * (4 / 6 * (counted f i / V) * (counted f j / V) * rpi * lrc_value (evalPressureLRCIntegral E) p f i j) / 3)%Q.

Lemma corrections_spec dimension V p f i j : tables_ok p f -> 0 <= i < getNTypes p -> 0 <= j < getNTypes p ->
  energy_correction E V f i j = Ret (energy_lrc V p f i j) /\ virial_correction E dimension V f i j = Ret (virial_lrc dimension V p f i j).
Proof.
  intros K Hi Hj. unfold energy_correction, virial_correction. rewrite (counted_spec p f j K Hj), (counted_spec p f i K Hi). simpl.
  rewrite !(lrc_of_spec p f _ i j K Hi Hj). split; reflexivity.
Qed.

Lemma sum_over_types p g h : (forall i j, 0 <= i < getNTypes p -> 0 <= j < getNTypes p -> g i j = Ret (h i j)) ->
  exists y, sum_types (seqZ 0 (getNTypes p)) (seqZ 0 (getNTypes p)) g 0%Q = Ret y /\ (y == over_types p h)%Q.
Proof.
  intros G. destruct (sum_types_spec (seqZ 0 (getNTypes p)) (seqZ 0 (getNTypes p)) g h 0%Q) as (y & Ey & Y).
  - intros i j Hi%elem_of_seqZ Hj%elem_of_seqZ. exists (h i j). split; [apply G; lia|reflexivity].
  - exists y. split; [exact Ey|]. rewrite Y. unfold over_types. ring.
Qed.

(** The outcome of the tail correction. *)
Definition tail_outcome (compute_virial : bool) (dimension : Z) (p : pdata) (f f' : potential E) (r : result unit) : Prop :=
  let V := BoxDim.getVolume (m_global_box p) (dimension =? 2) in
  if negb (m_tail_correction_enabled E f) then f' = f /\ r = Ok tt
  else match m_shift_mode E f with
  | no_shift => r = Ok tt /\ (m_external_energy E f' == over_types p (energy_lrc V p f))%Q /\
      (if compute_virial then exists w, m_external_virial E f' = [w; 0; 0; w; 0; w]%Q /\ (w == over_types p (virial_lrc dimension V p f))%Q
       else m_external_virial E f' = m_external_virial E f) /\
      forall i j, view p f' i j = view p f i j
  | _ => f' = f /\ exists e, r = Throw e
  end.

Lemma computeTailCorrection_spec compute_virial dimension p f : tables_ok p f ->
  exists f' r, computeTailCorrection E compute_virial dimension p f = Ret (f', r) /\ tables_ok p f' /\ tail_outcome compute_virial dimension p f f' r.
Proof.
  intros K. unfold computeTailCorrection, tail_outcome. destruct (m_tail_correction_enabled E f); simpl; [|eauto 10].
  destruct (m_shift_mode E f); [|eauto 10..]. cbn zeta. set (V := BoxDim.getVolume _ _).
  destruct (sum_over_types p (energy_correction E V f) (energy_lrc V p f)) as (y & -> & Y); [intros; now apply (corrections_spec dimension)|]. simpl.
  destruct compute_virial; simpl.
  - destruct (sum_over_types p (virial_correction E dimension V f) (virial_lrc dimension V p f)) as (w & -> & Wy); [intros; now apply corrections_spec|].
    simpl. eexists _, _. split; [reflexivity|]. split; [destruct K; now constructor|]. simpl. eauto 10.
  - eexists _, _. split; [reflexivity|]. split; [destruct K; now constructor|]. simpl. eauto 10.
Qed.

End potential.
