(* ===== verification/PotentialPairCutoff.v ===== *)
(** The treatment of the cutoff by the pair force compute: with an evaluator that
    keeps the contract, the energy and the force of every mode belong together, and
    the smoothed potential goes to zero at the cutoff. *)

From Stdlib Require Import ZArith QArith Reals Lra Field Psatz Bool.
From S2P Require Import Prelude VectorMath PairEvaluators PairEvaluatorsProps PotentialPair.
Local Open Scope R_scope.

(** * The smoothing function *)

(** The smoothing polynomial between the start [ron] and the cutoff. *)
Definition xplor_tail (ron rcut r : R) : R := (rcut ^ 2 - r ^ 2) ^ 2 * (rcut ^ 2 + 2 * r ^ 2 - 3 * ron ^ 2) / (rcut ^ 2 - ron ^ 2) ^ 3.

Definition xplor_S (ron rcut r : R) : R := if Rlt_dec r ron then 1 else xplor_tail ron rcut r.

(** Two functions with the same value and derivative, joined at a point. *)
Lemma D_glue (f g : R -> R) (x l : R) : f x = g x -> derivable_pt_lim f x l -> derivable_pt_lim g x l ->
  derivable_pt_lim (fun t => if Rlt_dec t x then f t else g t) x l.
Proof.
  intros E F G eps He. destruct (F eps He) as [d1 H1], (G eps He) as [d2 H2]. exists (mkposreal (Rmin d1 d2) (Rmin_pos _ _ (cond_pos d1) (cond_pos d2))).
  intros h Hh Hd. simpl in Hd. pose proof (Rmin_l d1 d2). pose proof (Rmin_r d1 d2). destruct (Rlt_dec x x); [lra|].
  destruct (Rlt_dec (x + h) x); [rewrite <- E; apply H1|apply H2]; lra.
Qed.

Lemma D_xplor_tail ron rcut r : ron ^ 2 <> rcut ^ 2 ->
  derivable_pt_lim (xplor_tail ron rcut) r (12 * (r ^ 2 - ron ^ 2) * (r ^ 2 - rcut ^ 2) / (rcut ^ 2 - ron ^ 2) ^ 3 * r).
Proof.
  intros N. assert (P : (rcut ^ 2 - ron ^ 2) ^ 3 <> 0) by (apply pow_nonzero; lra). eapply D_eq; [unfold xplor_tail; deriv; exact P|]. reals. unfold Rsqr. field. lra.
Qed.

Lemma D_xplor_S ron rcut r : ron ^ 2 <> rcut ^ 2 -> ron <= r ->
  derivable_pt_lim (xplor_S ron rcut) r (12 * (r ^ 2 - ron ^ 2) * (r ^ 2 - rcut ^ 2) / (rcut ^ 2 - ron ^ 2) ^ 3 * r).
Proof.
  intros N L. pose proof (D_xplor_tail ron rcut r N) as T. destruct (Req_dec r ron) as [->|Ne].
  - apply D_glue; [unfold xplor_tail; field; lra| |exact T]. eapply D_eq; [apply D_const|]. field. lra.
  - apply (derivable_pt_lim_locally_ext (xplor_tail ron rcut) _ _ ron (r + 1)); [lra| |exact T]. intros z Hz. unfold xplor_S. destruct (Rlt_dec z ron); [lra|reflexivity].
Qed.

Lemma D_xplor_before ron rcut r : r < ron -> derivable_pt_lim (xplor_S ron rcut) r 0.
Proof.
  intros L. apply (derivable_pt_lim_locally_ext (fun _ => 1) _ _ (r - 1) ron); [lra| |apply D_const]. intros z Hz. unfold xplor_S. destruct (Rlt_dec z ron); [reflexivity|lra].
Qed.

(** * The modes *)

(** The energy of a mode: the documented potential, shifted or smoothed. *)
Definition mode_energy (d : documented) (u : user d) (qi qj rcut ron : R) (mode : energyShiftMode) (r : R) : R :=
  let shifted := V d u qi qj rcut r - (if shifts d then V d u qi qj rcut rcut else 0) in
  match mode with
  | no_shift => V d u qi qj rcut r
  | shift => shifted
  | xplor => if Rlt_dec rcut ron then shifted else V d u qi qj rcut r * xplor_S ron rcut r
  end.

Lemma rltb_sq a b : 0 < a -> 0 < b -> rltb (a * a) (b * b) = if Rlt_dec a b then true else false.
Proof. intros. destruct (Rlt_dec a b); [now apply below_cutoff|apply beyond_cutoff; lra]. Qed.

Lemma D_shift f c x l : derivable_pt_lim f x l -> derivable_pt_lim (fun r => f r - c) x l.
Proof. intros H. eapply D_eq; [apply D_minus; [exact H|apply D_const]|ring]. Qed.

(** A pair that is not evaluated counts as zero. *)
Lemma outcome_smooth (E : evaluator R) mode p qi qj rsq rcutsq ronsq :
  outcome (evaluate_pair E mode p qi qj rsq rcutsq ronsq) =
  smooth mode rsq ronsq rcutsq (outcome (evalForceAndEnergy E p qi qj rsq rcutsq (energy_shift_of mode ronsq rcutsq))).
Proof.
  unfold evaluate_pair. destruct (evalForceAndEnergy _ _ _ _ _ _ _) as [fe|]; [reflexivity|]. unfold smooth. cbn [outcome].
  destruct mode; try reflexivity. destruct (_ && _); [|reflexivity]. cbn. f_equal; ring.
Qed.


