(* ===== verification/PotentialPairSpec.v ===== *)
(** What the loops of the pair force compute add up: the forces, energies and
    virials of a reference sum over the entries of the neighbour list, and with it
    the conservation of momentum. *)

From Stdlib Require Import ZArith Lia QArith Lqa String Bool.
From stdpp Require Import base list list_numbers strings.
From S2P Require Import Prelude HOOMDMath VectorMath Index1D BoxDim ParticleData ParticleDataProps ParticleDataSpec PairEvaluators PotentialPair PotentialPairTables.
Local Open Scope Z_scope.
Local Open Scope hoomd_scope.

(** * Sums *)

Definition sumQ {A} (g : A -> Q) (l : list A) : Q := foldr (fun x s => g x + s)%Q 0%Q l.

Lemma sumQ_app {A} (g : A -> Q) l k : (sumQ g (l ++ k) == sumQ g l + sumQ g k)%Q.
Proof. induction l as [|x l IH]; simpl; [ring|]. rewrite IH. ring. Qed.

Lemma sumQ_ext {A} (g h : A -> Q) l : (forall x, x ∈ l -> (g x == h x)%Q) -> (sumQ g l == sumQ h l)%Q.
Proof. induction l as [|x l IH]; intros E; simpl; [reflexivity|]. rewrite (E x), IH; [reflexivity| |left]. intros y Hy. apply E. now right. Qed.

Lemma sumQ_plus {A} (g h : A -> Q) l : (sumQ (fun x => g x + h x) l == sumQ g l + sumQ h l)%Q.
Proof. induction l as [|x l IH]; simpl; [ring|]. rewrite IH. ring. Qed.

Lemma sumQ_zero {A} (l : list A) : (sumQ (fun _ => 0) l == 0)%Q.
Proof. induction l as [|x l IH]; simpl; [reflexivity|]. rewrite IH. ring. Qed.

Lemma sumQ_flat_map {A B} (g : B -> Q) (h : A -> list B) l : (sumQ g (flat_map h l) == sumQ (fun x => sumQ g (h x)) l)%Q.
Proof. induction l as [|x l IH]; simpl; [reflexivity|]. rewrite sumQ_app, IH. reflexivity. Qed.

Lemma sumQ_fmap {A B} (g : B -> Q) (h : A -> B) l : sumQ g (h <$> l) = sumQ (fun x => g (h x)) l.
Proof. induction l as [|x l IH]; simpl; [reflexivity|]. now rewrite <- IH. Qed.

Lemma sumQ_swap {A B} (g : A -> B -> Q) l k : (sumQ (fun x => sumQ (g x) k) l == sumQ (fun y => sumQ (fun x => g x y) l) k)%Q.
Proof. induction l as [|x l IH]; simpl; [now rewrite sumQ_zero|]. rewrite IH. rewrite <- sumQ_plus. reflexivity. Qed.

(** A sum with one term. *)
Lemma sumQ_single (c : Q) (n j : Z) : 0 <= j < n -> (sumQ (fun a => if a =? j then c else 0) (seqZ 0 n) == c)%Q.
Proof.
  intros H. assert (G : forall m s, 0 <= m -> (sumQ (fun a => if (a =? j)%Z then c else 0) (seqZ s m) == if (s <=? j)%Z && (j <? s + m)%Z then c else 0)%Q).
  { intros m s Hm. revert s. pattern m. apply natlike_ind; [|clear m Hm; intros m Hm IH s|assumption].
    - intros s. rewrite seqZ_nil by lia. destruct (Z.leb_spec s j), (Z.ltb_spec j (s + 0)); simpl; try lia; reflexivity.
    - rewrite seqZ_cons by lia. simpl. replace (Z.pred (Z.succ m)) with m by lia. rewrite IH.
      destruct (Z.eqb_spec s j), (Z.leb_spec (Z.succ s) j), (Z.ltb_spec j (Z.succ s + m)), (Z.leb_spec s j), (Z.ltb_spec j (s + Z.succ m)); simpl; try lia; ring. }
  rewrite G by lia. destruct (Z.leb_spec 0 j), (Z.ltb_spec j (0 + n)); simpl; try lia. reflexivity.
Qed.

(** * Components *)

(** A column of the forces and virials. *)
Record column (c : facc -> Q) : Prop := { col_add : forall a b, (c (f_add a b) == c a + c b)%Q; col_zero : (c f_zero == 0)%Q }.

Lemma columns : Forall column [f_x; f_y; f_z; f_w; v_xx; v_xy; v_xz; v_yy; v_yz; v_zz].
Proof. repeat constructor; reflexivity. Qed.

Section sums.
Context `{RealOps Q} `{RealFun Q}.
Variable E : evaluator Q.
Variable virial : bool.
Variable p : pdata.
Variable f : potential E.
Variable nl : neighbor_arrays.

(** ** The entries of the neighbour list *)

Definition neighbors_of (i : Z) : list Z := take (Z.to_nat (zget 0 (h_n_neigh nl) i)) (drop (Z.to_nat (zget 0 (h_head_list nl) i)) (h_nlist nl)).

Definition entries : list (Z * Z) := flat_map (fun i => (fun j => (i, j)) <$> neighbors_of i) (seqZ 0 (getN p)).

Definition pair_result (i j : Z) : Scalar3 * option (Scalar * Scalar) := match pair_of E p f i j with Ret r => r | _ => (BoxDim.zero3, None) end.

(** The share of the first and of the second particle of an entry. *)
Definition share1 (e : Z * Z) : facc := match pair_result e.1 e.2 with (dx, Some fe) => first_share virial dx fe | _ => f_zero end.
Definition share2 (e : Z * Z) : facc :=
  match pair_result e.1 e.2 with (dx, Some fe) => if nl_half nl && (e.2 <? getN p) then second_share virial dx fe else f_zero | _ => f_zero end.

(** The reference: what the entries give to particle [a]. *)
Definition reference (c : facc -> Q) (a : Z) : Q := sumQ (fun e : Z * Z => (if (a =? e.1)%Z then c (share1 e) else 0) + (if (a =? e.2)%Z then c (share2 e) else 0))%Q entries.

(** The arrays describe a list of every particle, and every pair in them can be
    evaluated. *)
Record nlist_ok (elements : nat) : Prop := {
  no_size : 0 <= getN p <= Z.of_nat elements;
  no_head : forall i, 0 <= i < getN p -> exists h n, h_head_list nl !! Z.to_nat i = Some h /\ h_n_neigh nl !! Z.to_nat i = Some n /\
    0 <= h /\ 0 <= n /\ h + n <= Z.of_nat (length (h_nlist nl));
  no_pairs : forall i j, 0 <= i < getN p -> j ∈ neighbors_of i -> 0 <= j /\ exists r, pair_of E p f i j = Ret r
}.

Variable elements : nat.
Hypothesis Ok : nlist_ok elements.

Definition at_index (force : list facc) (a : Z) : facc := default f_zero (force !! Z.to_nat a).

Lemma write_add force j x : 0 <= j < Z.of_nat (length force) ->
  exists force', (bind! fj := read force j in write force j (f_add fj x)) = Ret force' /\ length force' = length force /\
    forall c a, column c -> 0 <= a -> (c (at_index force' a) == c (at_index force a) + (if (a =? j)%Z then c x else 0))%Q.
Proof.
  intros Hj. destruct (lookup_lt_is_Some_2 force (Z.to_nat j)) as [y Hy]; [lia|]. rewrite (read_Some _ _ _ Hy). simpl. rewrite write_in by lia.
  eexists. split; [reflexivity|]. split; [apply length_zset|]. intros c a C Ha. unfold at_index, zset. destruct (Z.eqb_spec a j) as [->|Ne].
  - rewrite list_lookup_insert_eq by lia. rewrite Hy. simpl. apply (col_add c C).
  - rewrite list_lookup_insert_ne by lia. ring.
Qed.

(** ** The loops *)

Lemma share1_eq i j dx o : pair_of E p f i j = Ret (dx, o) -> share1 (i, j) = match o with Some fe => first_share virial dx fe | None => f_zero end.
Proof. intros Er. unfold share1, pair_result. simpl. now rewrite Er. Qed.

Lemma share2_eq i j dx o : pair_of E p f i j = Ret (dx, o) ->
  share2 (i, j) = match o with Some fe => if nl_half nl && (j <? getN p) then second_share virial dx fe else f_zero | None => f_zero end.
Proof. intros Er. unfold share2, pair_result. simpl. now rewrite Er. Qed.

Lemma neighbor_loop_sums i js : forall k fi force, 0 <= k -> take (length js) (drop (Z.to_nat k) (h_nlist nl)) = js ->
  (forall j, j ∈ js -> 0 <= j /\ exists r, pair_of E p f i j = Ret r) -> getN p <= Z.of_nat (length force) ->
  exists fi' force', neighbor_loop E virial p f nl i (length js) k fi force = Ret (fi', force') /\ length force' = length force /\
    forall c, column c -> (c fi' == c fi + sumQ (fun j => c (share1 (i, j))) js)%Q /\
      forall a, 0 <= a -> (c (at_index force' a) == c (at_index force a) + sumQ (fun j => if (a =? j)%Z then c (share2 (i, j)) else 0) js)%Q.
Proof.
  induction js as [|j js IH]; intros k fi force Hk Hl Hp HN.
  { exists fi, force. split; [reflexivity|]. split; [reflexivity|]. intros c C. simpl. split; intros; ring. }
  destruct (Hp j ltac:(left)) as [Hj [[dx o] Hr]]. cbn [length neighbor_loop].
  assert (Hd : drop (Z.to_nat k) (h_nlist nl) !! 0%nat = Some j) by (rewrite <- (lookup_take_lt _ (length (j :: js))) by (simpl; lia); now rewrite Hl).
  rewrite lookup_drop, Nat.add_0_r in Hd. rewrite (read_Some _ _ _ Hd). cbn [run_bind]. rewrite Hr. cbn [run_bind].
  assert (Hl' : take (length js) (drop (Z.to_nat (k + 1)) (h_nlist nl)) = js).
  { replace (Z.to_nat (k + 1)) with (Z.to_nat k + 1)%nat by lia. rewrite <- drop_drop. destruct (drop (Z.to_nat k) (h_nlist nl)) as [|y t]; [discriminate|]. simpl in *. now injection Hl. }
  assert (Hp' : forall j', j' ∈ js -> 0 <= j' /\ exists r, pair_of E p f i j' = Ret r) by (intros j' Hj'; apply Hp; now right).
  pose proof (share1_eq i j dx o Hr) as S1. pose proof (share2_eq i j dx o Hr) as S2. destruct o as [fe|].
  - assert (Step : exists force1, (if nl_half nl && (j <? getN p) then bind! fj := read force j in write force j (f_add fj (second_share virial dx fe)) else Ret force) = Ret force1 /\
      length force1 = length force /\ forall c a, column c -> 0 <= a -> (c (at_index force1 a) == c (at_index force a) + (if (a =? j)%Z then c (share2 (i, j)) else 0))%Q).
    { rewrite S2. destruct (nl_half nl && (j <? getN p)) eqn:Hb; [apply write_add; zbool; lia|]. exists force. split; [reflexivity|]. split; [reflexivity|].
      intros c a C _. destruct (_ =? _); rewrite ?(col_zero c C); ring. }
    destruct Step as (force1 & -> & L1 & F1). cbn [run_bind]. destruct (IH (k + 1) (f_add fi (first_share virial dx fe)) force1 ltac:(lia) Hl' Hp' ltac:(lia)) as (fi' & force' & -> & L' & F').
    exists fi', force'. split; [reflexivity|]. split; [congruence|]. intros c C. destruct (F' c C) as [Fi Fa]. split.
    + rewrite Fi, (col_add c C), <- S1. simpl. ring.
    + intros a Ha. rewrite Fa, F1 by assumption. simpl. ring.
  - destruct (IH (k + 1) fi force ltac:(lia) Hl' Hp' HN) as (fi' & force' & -> & L' & F'). exists fi', force'. split; [reflexivity|]. split; [assumption|].
    intros c C. destruct (F' c C) as [Fi Fa]. split.
    + rewrite Fi. simpl. rewrite S1, (col_zero c C). ring.
    + intros a Ha. rewrite Fa by assumption. simpl. rewrite S2. destruct (_ =? _); rewrite ?(col_zero c C); ring.
Qed.

(** What the neighbours of [i] give to particle [a]. *)
Definition from_particle (c : facc -> Q) (a i : Z) : Q :=
  ((if (a =? i)%Z then sumQ (fun j => c (share1 (i, j))) (neighbors_of i) else 0) + sumQ (fun j => if (a =? j)%Z then c (share2 (i, j)) else 0) (neighbors_of i))%Q.

Lemma length_neighbors_of i h n : h_head_list nl !! Z.to_nat i = Some h -> h_n_neigh nl !! Z.to_nat i = Some n -> 0 <= h -> 0 <= n ->
  h + n <= Z.of_nat (length (h_nlist nl)) -> neighbors_of i = take (Z.to_nat n) (drop (Z.to_nat h) (h_nlist nl)) /\ length (neighbors_of i) = Z.to_nat n.
Proof.
  intros Eh En H1 H2 H3. assert (X : neighbors_of i = take (Z.to_nat n) (drop (Z.to_nat h) (h_nlist nl))).
  { unfold neighbors_of. apply nth_lookup_Some with (d := 0) in Eh, En. unfold zget. now rewrite Eh, En. }
  split; [exact X|]. rewrite X, length_take, length_drop. lia.
Qed.

Lemma particle_loop_sums count : forall i force, 0 <= i -> i + Z.of_nat count <= getN p -> getN p <= Z.of_nat (length force) ->
  exists force', particle_loop E virial p f nl count i force = Ret force' /\ length force' = length force /\
    forall c a, column c -> 0 <= a -> (c (at_index force' a) == c (at_index force a) + sumQ (from_particle c a) (seqZ i (Z.of_nat count)))%Q.
Proof.
  induction count as [|count IH]; intros i force Hi Hc HN.
  { exists force. split; [reflexivity|]. split; [reflexivity|]. intros c a C Ha. simpl. ring. }
  destruct (no_head _ Ok i ltac:(lia)) as (h & n & Eh & En & H1 & H2 & H3). destruct (length_neighbors_of i h n Eh En H1 H2 H3) as [X L].
  cbn [particle_loop]. rewrite (read_Some _ _ _ Eh), (read_Some _ _ _ En). cbn [run_bind]. rewrite <- L.
  destruct (neighbor_loop_sums i (neighbors_of i) h f_zero force H1) as (fi & force1 & -> & L1 & F1).
  { rewrite L. now rewrite X. }
  { intros j Hj. apply (no_pairs _ Ok); [lia|assumption]. }
  { assumption. }
  cbn [run_bind]. destruct (write_add force1 i fi ltac:(lia)) as (force2 & W & L2 & F2). destruct (read force1 i) as [fi0| |]; [|discriminate..]. cbn [run_bind] in *. rewrite W. cbn [run_bind].
  destruct (IH (i + 1) force2 ltac:(lia) ltac:(lia) ltac:(lia)) as (force' & -> & L' & F'). exists force'. split; [reflexivity|]. split; [congruence|].
  intros c a C Ha. rewrite F', F2 by assumption. destruct (F1 c C) as [Fi Fa]. rewrite Fa by assumption. rewrite (seqZ_cons i) by lia. cbn [sumQ foldr].
  replace (Z.succ i) with (i + 1) by lia. replace (Z.pred (Z.of_nat (S count))) with (Z.of_nat count) by lia. fold (sumQ (from_particle c a) (seqZ (i + 1) (Z.of_nat count))).
  unfold from_particle at 2. destruct (a =? i); [rewrite Fi, (col_zero c C)|]; ring.
Qed.

Lemma reference_particles c a : (reference c a == sumQ (from_particle c a) (seqZ 0 (getN p)))%Q.
Proof.
  unfold reference, entries. rewrite sumQ_flat_map. apply sumQ_ext. intros i _. rewrite sumQ_fmap, sumQ_plus. unfold from_particle. simpl.
  destruct (a =? i); [reflexivity|]. rewrite sumQ_zero. reflexivity.
Qed.

Lemma particle_loop_total : exists force, particle_loop E virial p f nl (Z.to_nat (getN p)) 0 (replicate elements f_zero) = Ret force /\ length force = elements /\
  forall c a, column c -> 0 <= a -> (c (at_index force a) == reference c a)%Q.
Proof.
  pose proof (no_size _ Ok) as [N1 N2]. destruct (particle_loop_sums (Z.to_nat (getN p)) 0 (replicate elements f_zero)) as (force & Ef & L & F); [lia|lia|rewrite length_replicate; lia|].
  exists force. split; [exact Ef|]. split; [now rewrite L, length_replicate|]. intros c a C Ha. rewrite F by assumption. rewrite Z2Nat.id by lia. rewrite reference_particles.
  assert (Z0 : (c (at_index (replicate elements f_zero) a) == 0)%Q).
  { unfold at_index. destruct (replicate elements f_zero !! Z.to_nat a) as [y|] eqn:Hy; [apply lookup_replicate in Hy as [-> _]|]; apply (col_zero c C). }
  rewrite Z0. ring.
Qed.

(** The sum over all particles of what the entries give. *)
Lemma reference_total c : (forall e, e ∈ entries -> 0 <= e.2 < getN p) -> column c ->
  (sumQ (reference c) (seqZ 0 (getN p)) == sumQ (fun e => c (share1 e) + c (share2 e)) entries)%Q.
Proof.
  intros Loc C. unfold reference. rewrite sumQ_swap. apply sumQ_ext. intros e He. rewrite sumQ_plus. pose proof (Loc e He) as L2.
  assert (L1 : 0 <= e.1 < getN p).
  { unfold entries in He. apply list_elem_of_In, in_flat_map in He as (i & Hi & Hj). apply list_elem_of_In, elem_of_seqZ in Hi. apply list_elem_of_In, list_elem_of_fmap in Hj as (j & -> & _). simpl. lia. }
  rewrite !sumQ_single by assumption. reflexivity.
Qed.

(** The two parts of the computation. *)
Lemma computeForces_parts dimension : tables_ok E p f -> exists force f' r, computeForces E virial dimension p f nl elements = Ret (force, (f', r)) /\
  length force = elements /\ (forall c a, column c -> 0 <= a -> (c (at_index force a) == reference c a)%Q) /\
  tables_ok E p f' /\ tail_outcome E virial dimension p f f' r.
Proof.
  intros T. destruct particle_loop_total as (force & Ef & L & F). destruct (computeTailCorrection_spec E virial dimension p f T) as (f' & r & Et & Tt).
  exists force, f', r. unfold computeForces. rewrite Ef. simpl. rewrite Et. auto.
Qed.

End sums.

(** C24. The pair forces: when every particle has a list within the arrays and every
    listed pair can be evaluated, the computation succeeds, and the force, the
    energy and the six virial components of every particle are the sums of the
    shares of the listed pairs in which it is first and, with a half list, of those
    in which it is second and local. The tail correction follows: it does nothing
    when disabled, throws in a shifted mode, and otherwise sets the external energy
    and virial to the documented sums over the pairs of types. *)
Theorem pair_forces_reference `{RealOps Q} `{RealFun Q} (E : evaluator Q) (virial : bool) (p : pdata) (f : potential E) (nl : neighbor_arrays) (elements : nat)
  (dimension : Z) (K : nlist_ok E p f nl elements) (T : tables_ok E p f) :
  exists force f' r, computeForces E virial dimension p f nl elements = Ret (force, (f', r)) /\ length force = elements /\
    tables_ok E p f' /\ tail_outcome E virial dimension p f f' r /\
    Forall (fun c : facc -> Q => forall a, 0 <= a -> (c (at_index force a) == reference E virial p f nl c a)%Q)
      [f_x; f_y; f_z; f_w; v_xx; v_xy; v_xz; v_yy; v_yz; v_zz].
Proof.
  destruct (computeForces_parts E virial p f nl elements K dimension T) as (force & f' & r & Ef & L & F & T' & O). exists force, f', r.
  split; [exact Ef|]. split; [exact L|]. split; [exact T'|]. split; [exact O|]. eapply Forall_impl; [exact columns|]. intros c C a Ha. now apply F.
Qed.

(** The energy of an entry. *)
Definition entry_energy `{RealOps Q} `{RealFun Q} (E : evaluator Q) (p : pdata) (f : potential E) (e : Z * Z) : Q :=
  match pair_result E p f e.1 e.2 with (_, Some (_, pair_eng)) => pair_eng | _ => 0%Q end.

(** C25. The third law: with a half list of local particles, the forces on all
    particles add up to zero in every direction, and their energies to the energies
    of the listed pairs. *)
Theorem pair_forces_momentum `{RealOps Q} `{RealFun Q} (E : evaluator Q) (virial : bool) (p : pdata) (f : potential E) (nl : neighbor_arrays) (elements : nat)
  (dimension : Z) (K : nlist_ok E p f nl elements) (T : tables_ok E p f) (Half : nl_half nl = true) (Local : forall e, e ∈ entries p nl -> 0 <= e.2 < getN p) :
  exists force t, computeForces E virial dimension p f nl elements = Ret (force, t) /\
    let total c := sumQ (fun a => c (at_index force a)) (seqZ 0 (getN p)) in
    (total f_x == 0)%Q /\ (total f_y == 0)%Q /\ (total f_z == 0)%Q /\ (total f_w == sumQ (entry_energy E p f) (entries p nl))%Q.
Proof.
  destruct (computeForces_parts E virial p f nl elements K dimension T) as (force & f' & r & Ef & _ & F & _). exists force, (f', r). split; [exact Ef|]. cbn zeta.
  assert (Tot : forall c, column c -> (sumQ (fun a => c (at_index force a)) (seqZ 0 (getN p)) == sumQ (fun e => c (share1 E virial p f e) + c (share2 E virial p f nl e)) (entries p nl))%Q).
  { intros c C. rewrite <- reference_total by assumption. apply sumQ_ext. intros a Ha. apply F; [assumption|]. apply elem_of_seqZ in Ha. lia. }
  assert (S : forall e, e ∈ entries p nl -> match pair_result E p f e.1 e.2 with
    | (dx, Some fe) => share1 E virial p f e = first_share virial dx fe /\ share2 E virial p f nl e = second_share virial dx fe
    | _ => share1 E virial p f e = f_zero /\ share2 E virial p f nl e = f_zero end).
  { intros e He. pose proof (Local e He). unfold share1, share2. rewrite Half. destruct (pair_result E p f e.1 e.2) as [dx [fe|]]; [|auto].
    destruct (Z.ltb_spec e.2 (getN p)); [auto|lia]. }
  split_and!; (rewrite Tot by (split; reflexivity)); [rewrite <- (sumQ_zero (entries p nl))..|]; apply sumQ_ext; intros e He; pose proof (S e He) as Se;
    unfold entry_energy; destruct (pair_result E p f e.1 e.2) as [dx [[fd en]|]]; destruct Se as [-> ->]; simpl; ring.
Qed.

(** * Examples *)

(** The rational numbers; the example does not use the roots and functions. *)
Definition Q_example_ops : RealOps Q := {|
  r0 := 0%Q; r1 := 1%Q; radd := Qplus; rsub := Qminus; rmul := Qmult; ropp := Qopp; rdiv := Qdiv; reqb := Qeq_bool; rltb := lt_b;
  VectorMath.rsqrt := fun x => x; rinv_sqrt := fun x => x; rcos := fun x => x; rsin := fun x => x |}.
Definition Q_example_fun : RealFun Q := {| lit := fun q => q; rexp := fun x => x; rlog := fun x => x; rpow := fun x _ => x; rpi := 3%Q |}.

(** Three particles in a line, all pairs listed once. *)
Definition lj3 : potential (@LJ Q Q_example_ops Q_example_fun) :=
  mkPotential (@LJ Q Q_example_ops Q_example_fun) no_shift (Index2D.make_square 2) [9; 9; 9; 9]%Q [0; 0; 0; 0]%Q
    (replicate 4 (@LJ_make Q Q_example_ops Q_example_fun 1%Q 1%Q)) [3; 3; 3; 3]%Q false [2; 1] 0 (replicate 6 0%Q).
Definition half3 : neighbor_arrays := mkNeighbors true [2; 1; 0] [0; 2; 3] [1; 2; 2].

Lemma half3_ok : @nlist_ok Q_example_ops Q_example_fun (@LJ Q Q_example_ops Q_example_fun) loaded3 lj3 half3 3.
Proof.
  assert (N : getN loaded3 = 3) by reflexivity. constructor; rewrite N; [lia| |].
  - intros i Hi. assert (i = 0 \/ i = 1 \/ i = 2) as [->|[->| ->]] by lia; eexists _, _; (split; [reflexivity|]); (split; [reflexivity|]); simpl; lia.
  - intros i j Hi Hj. assert (i = 0 \/ i = 1 \/ i = 2) as [->|[->| ->]] by lia; vm_compute in Hj;
      repeat (apply elem_of_cons in Hj as [->|Hj]; [split; [lia|eexists; vm_compute; reflexivity]|]); now apply elem_of_nil in Hj.
Qed.

Lemma lj3_tables : @tables_ok (@LJ Q Q_example_ops Q_example_fun) loaded3 lj3.
Proof.
  assert (N : getNTypes loaded3 = 2) by reflexivity. constructor; rewrite N; try (split; [reflexivity|]); try reflexivity; try lia;
    intros i j Hi Hj; assert (i = 0 \/ i = 1) as [->| ->] by lia; assert (j = 0 \/ j = 1) as [->| ->] by lia; reflexivity.
Qed.

Lemma pair_forces_reference_witness : exists force t, @computeForces Q_example_ops Q_example_fun _ true 3 loaded3 lj3 half3 3 = Ret (force, t) /\
  (f_x (at_index force 0) == @reference Q_example_ops Q_example_fun _ true loaded3 lj3 half3 f_x 0)%Q.
Proof.
  destruct (@pair_forces_reference Q_example_ops Q_example_fun _ true loaded3 lj3 half3 3 3 half3_ok lj3_tables) as (force & f' & r & E & _ & _ & _ & F).
  exists force, (f', r). split; [exact E|]. inversion F as [|? ? Fx _]. apply Fx. lia.
Defined.

Lemma pair_forces_momentum_witness : exists force t, @computeForces Q_example_ops Q_example_fun _ true 3 loaded3 lj3 half3 3 = Ret (force, t) /\
  (sumQ (fun a => f_x (at_index force a)) (seqZ 0 3) == 0)%Q.
Proof.
  destruct (@pair_forces_momentum Q_example_ops Q_example_fun _ true loaded3 lj3 half3 3 3 half3_ok lj3_tables eq_refl) as (force & t & E & Fx & _);
    [|exists force, t; split; [exact E|exact Fx]].
  intros e He. vm_compute in He. repeat (apply elem_of_cons in He as [->|He]; [vm_compute; split; congruence|]). now apply elem_of_nil in He.
Defined.

(** C26. The tables by pair of types refine a map from unordered pairs: after the
    construction every pair has the default parameters and zero radii and the
    particles are counted by type; a sequence of setter calls then leaves for every
    pair, in both orders, the last values set for it, a call with a type out of
    range has no effect, and no access leaves the tables. *)
Theorem pair_tables_refine `{RealOps Q} `{RealFun Q} (E : evaluator Q) (p : pdata) (param : param_type E) (l : list (setting E))
  (Typed : particles_typed p) (N : 0 < getNTypes p < 2 ^ 16) (B : 0 <= getN p < 2 ^ 32)
  (U : Forall (fun s => 0 <= (types_of E s).1 /\ 0 <= (types_of E s).2) l) :
  exists f f', new_potential E p param = Ret f /\ configure E p l f = Ret f' /\ tables_ok E p f' /\
    (forall t, 0 <= t < getNTypes p -> m_num_particles_by_type E f !! Z.to_nat t = Some (number_of_type p t)) /\
    forall i j, 0 <= i < getNTypes p -> 0 <= j < getNTypes p ->
      view E p f' i j = configured E p l (Some param, Some 0, Some 0, Some 0)%Q i j /\ view E p f' j i = view E p f' i j.
Proof.
  destruct (new_potential_spec E p param Typed N B) as (f & Ef & T & V & C). destruct (configure_spec E p l U f T) as (f' & Ef' & T' & V').
  exists f, f'. do 4 (split; [assumption|]). intros i j Hi Hj. split; [now rewrite V', V by assumption|].
  unfold view. now rewrite (proj2 (to_params E p f' T') j i), (proj2 (to_rcutsq E p f' T') j i), (proj2 (to_ronsq E p f' T') j i), (proj2 (to_nlist E p f' T') j i).
Qed.

Lemma pair_tables_refine_witness : let LJ := @LJ Q Q_example_ops Q_example_fun in
  exists f f', @new_potential LJ loaded3 (@LJ_make Q Q_example_ops Q_example_fun 1%Q 1%Q) = Ret f /\
    configure LJ loaded3 [SetRcut LJ 0 1 3%Q; SetRcut LJ 1 0 2%Q; SetRon LJ 5 0 7%Q] f = Ret f' /\ entry 2 (m_rcutsq LJ f') 0 1 = Some 4%Q.
Proof.
  intros LJ. destruct (@pair_tables_refine Q_example_ops Q_example_fun LJ loaded3 (@LJ_make Q Q_example_ops Q_example_fun 1%Q 1%Q)
    [SetRcut LJ 0 1 3%Q; SetRcut LJ 1 0 2%Q; SetRon LJ 5 0 7%Q]) as (f & f' & Ef & Ef' & _ & _ & V).
  - intros i Hi. change (getN loaded3) with 3 in Hi. assert (i = 0 \/ i = 1 \/ i = 2) as [->|[->| ->]] by lia; (eexists; split; [reflexivity|vm_compute; split; congruence]).
  - vm_compute. auto.
  - vm_compute. split; congruence.
  - repeat constructor; simpl; lia.
  - exists f, f'. split; [exact Ef|]. split; [exact Ef'|].
    destruct (V 0 1) as [W _]; [vm_compute; split; congruence..|]. pose proof (f_equal (fun x => x.1.1.2) W) as W1. exact W1.
Defined.

Example lj3_force : match @computeForces Q_example_ops Q_example_fun _ false 3 loaded3 lj3 half3 3 with
  | Ret (force, _) => Qeq_bool (f_x (at_index force 0)) (- f_x (at_index force 1) - f_x (at_index force 2)) && negb (Qeq_bool (f_x (at_index force 0)) 0)
  | _ => false end = true.
Proof. vm_compute. reflexivity. Qed.

(** * Consequences *)

(** The tail correction does not look at the particles: it uses the numbers by type
    from the construction, also after particles were added or removed. *)
Lemma tail_correction_counts `{RealOps Q} `{RealFun Q} (E : evaluator Q) b dim p p' (f : potential E) : m_global_box p' = m_global_box p -> m_type_mapping p' = m_type_mapping p ->
  computeTailCorrection E b dim p' f = computeTailCorrection E b dim p f.
Proof. intros B T. unfold computeTailCorrection, getNTypes. now rewrite B, T. Qed.
