(* ===== verification/System.v ===== *)
(** The run loop ([hoomd/System.h], [hoomd/System.cc]).

    The tuners, updaters, analyzers, the integrator and the computes are objects
    with virtual methods: each is a record of what the loop calls, acting on the
    world [W] of the simulation (the particle data and everything else they own). A
    method can throw; the exception leaves the loop with the state reached so far.
    Triggers are the shared objects of [Trigger], with their caches. The answers of
    [PyErr_CheckSignals] are an oracle of the time step. Wall-clock times and
    communication are left out. *)

From Stdlib Require Import ZArith Lia QArith String.
From stdpp Require Import base list list_numbers gmap strings.
From S2P Require Import Prelude HOOMDMath Trigger.
Local Open Scope Z_scope.
Local Open Scope hoomd_scope.

Section system.
Context {W : Type}.

(** * Parts *)

(** A tuner, an updater or an analyzer: the trigger, [update] or [analyze],
    [getRequestedPDataFlags], [mayChangeDegreesOfFreedom] and [resetStats]. *)
Record operation := mkOperation {
  getTrigger : addr;
  act : Z -> W -> W * result unit;
  getRequestedPDataFlags : Z;
  mayChangeDegreesOfFreedom : Z -> bool;
  op_resetStats : W -> W
}.

(** The integrator; [group_dof] are the degrees of freedom it gives to a group. *)
Record integrator := mkIntegrator {
  prepRun : Z -> W -> W * result unit;
  int_update : Z -> W -> W * result unit;
  int_flags : Z;
  group_dof : W -> nat -> Scalar * Scalar;
  int_resetStats : W -> W
}.

Record parts := mkParts {
  m_tuners : list operation;
  m_updaters : list operation;
  m_analyzers : list operation;
  m_integrator : option integrator;
  m_computes : list (W -> W);
  m_default_flags : Z;
  check_signals : Z -> bool
}.

(** What a run changes: the time steps, the degrees of freedom of the groups in the
    cache with their flag, the particle data flags, the triggers and the world. *)
Record system := mkSystem {
  m_start_tstep : Z;
  m_end_tstep : Z;
  m_cur_tstep : Z;
  m_update_group_dof_next_step : bool;
  m_group_cache : list (Scalar * Scalar);
  m_flags : Z;
  triggers : tstore;
  world : W
}.

Definition new_system (initial_tstep : Z) (ts : tstore) (w : W) : system := mkSystem initial_tstep 0 initial_tstep false [] 0 ts w.

Definition updateGroupDOFOnNextStep (s : system) : system :=
  mkSystem (m_start_tstep s) (m_end_tstep s) (m_cur_tstep s) true (m_group_cache s) (m_flags s) (triggers s) (world s).

Definition set_world (w : W) (s : system) : system :=
  mkSystem (m_start_tstep s) (m_end_tstep s) (m_cur_tstep s) (m_update_group_dof_next_step s) (m_group_cache s) (m_flags s) (triggers s) w.
Definition set_triggers (ts : tstore) (s : system) : system :=
  mkSystem (m_start_tstep s) (m_end_tstep s) (m_cur_tstep s) (m_update_group_dof_next_step s) (m_group_cache s) (m_flags s) ts (world s).
Definition set_flags (f : Z) (s : system) : system :=
  mkSystem (m_start_tstep s) (m_end_tstep s) (m_cur_tstep s) (m_update_group_dof_next_step s) (m_group_cache s) f (triggers s) (world s).
Definition set_dof (b : bool) (g : list (Scalar * Scalar)) (s : system) : system :=
  mkSystem (m_start_tstep s) (m_end_tstep s) (m_cur_tstep s) b g (m_flags s) (triggers s) (world s).

(** * Sequencing *)

Definition action := system -> run (system * result unit).

Definition skip : action := fun s => Ret (s, Ok tt).

(** The second action runs unless the first one throws. *)
Definition seq (a b : action) : action := fun s =>
  bind! (s, r) := a s in match r with Ok _ => b s | Throw e => Ret (s, Throw e) end.

(** A method call on the world. *)
Definition on_world (f : W -> W * result unit) : action := fun s => let '(w, r) := f (world s) in Ret (set_world w s, r).

(** The call of a trigger. *)
Definition fires (t : Z) (p : addr) (s : system) : run (system * bool) :=
  match call (S p) t p (triggers s) with
  | Some (b, ts) => Ret (set_triggers ts s, b)
  | None => OutOfBounds
  end.

(** The loop over operations that runs the body of those whose trigger fires. *)
Fixpoint for_each (ops : list operation) (t : Z) (body : operation -> action) : action :=
  match ops with
  | [] => skip
  | op :: ops => seq (fun s => bind! (s, b) := fires t (getTrigger op) s in if b : bool then body op s else skip s) (for_each ops t body)
  end.

(** * The methods *)

Variable P : parts.

Definition resetStats (s : system) : system :=
  let w := match m_integrator P with Some i => int_resetStats i (world s) | None => world s end in
  let w := fold_left (fun w o => op_resetStats o w) (m_analyzers P) w in
  let w := fold_left (fun w o => op_resetStats o w) (m_updaters P) w in
  set_world (fold_left (fun w c => c w) (m_computes P) w) s.

(** The flags of the operations of a list that are due at [t]. *)
Fixpoint or_flags (ops : list operation) (t : Z) (flags : Z) (s : system) : run (system * Z) :=
  match ops with
  | [] => Ret (s, flags)
  | op :: ops =>
      bind! (s, b) := fires t (getTrigger op) s in
      or_flags ops t (if b : bool then Z.lor flags (getRequestedPDataFlags op) else flags) s
  end.

Definition determineFlags (t : Z) (s : system) : run (system * Z) :=
  let flags := m_default_flags P in
  let flags := match m_integrator P with Some i => Z.lor flags (int_flags i) | None => flags end in
  bind! (s, flags) := or_flags (m_analyzers P) t flags s in
  bind! (s, flags) := or_flags (m_updaters P) t flags s in
  or_flags (m_tuners P) t flags s.

Definition setFlags_for (t : Z) : action := fun s => bind! (s, f) := determineFlags t s in Ret (set_flags f s, Ok tt).

(** Degrees of freedom for the groups in the cache. *)
Definition updateGroupDOF (s : system) : system :=
  set_dof (m_update_group_dof_next_step s)
    (imap (fun g _ => match m_integrator P with Some i => group_dof i (world s) g | None => (0, 0)%Q end) (m_group_cache s)) s.

Definition update_dof_if_needed : action := fun s =>
  if m_update_group_dof_next_step s then
    let s := updateGroupDOF s in Ret (set_dof false (m_group_cache s) s, Ok tt)
  else Ret (s, Ok tt).

Definition run_tuner (t : Z) (op : operation) : action := on_world (act op t).

Definition run_updater (t : Z) (op : operation) : action :=
  seq (on_world (act op t)) (fun s => Ret (set_dof (m_update_group_dof_next_step s || mayChangeDegreesOfFreedom op t) (m_group_cache s) s, Ok tt)).

Definition run_analyzer (t : Z) (op : operation) : action := on_world (act op t).

Definition with_integrator (f : integrator -> Z -> W -> W * result unit) (t : Z) : action :=
  match m_integrator P with Some i => on_world (f i t) | None => skip end.

Definition increment : action := fun s =>
  Ret (mkSystem (m_start_tstep s) (m_end_tstep s) (u64 (m_cur_tstep s + 1)) (m_update_group_dof_next_step s) (m_group_cache s) (m_flags s) (triggers s) (world s), Ok tt).

Definition signals : action := fun s =>
  if check_signals P (m_cur_tstep s) then Ret (s, Throw (runtime_error "error_already_set")) else Ret (s, Ok tt).

(** The current time step is read from the object each time. *)
Definition now (a : Z -> action) : action := fun s => a (m_cur_tstep s) s.

(** The body of the loop. *)
Definition step : action :=
  seq (now (fun t => for_each (m_tuners P) t (run_tuner t)))
  (seq (now (fun t => for_each (m_updaters P) t (run_updater t)))
  (seq update_dof_if_needed
  (seq (now (fun t => setFlags_for (u64 (t + 1))))
  (seq (now (with_integrator int_update))
  (seq increment
  (seq (now (fun t => for_each (m_analyzers P) t (run_analyzer t)))
  signals)))))).

Fixpoint steps (count : nat) : action :=
  match count with
  | O => skip
  | S count => seq step (steps count)
  end.

Definition begin_run (nsteps : Z) (s : system) : system :=
  mkSystem (m_cur_tstep s) (u64 (m_cur_tstep s + nsteps)) (m_cur_tstep s) (m_update_group_dof_next_step s) (m_group_cache s) (m_flags s) (triggers s) (world s).

Definition run_system (nsteps : Z) (write_at_start : bool) : action := fun s =>
  seq update_dof_if_needed
  (seq (now (with_integrator prepRun))
  (seq (now setFlags_for)
  (seq (if write_at_start then now (fun t => for_each (m_analyzers P) t (run_analyzer t)) else skip)
  (steps (Z.to_nat nsteps))))) (resetStats (begin_run nsteps s)).

End system.
Arguments operation : clear implicits.
Arguments integrator : clear implicits.
Arguments parts : clear implicits.
Arguments system : clear implicits.

(** [setPressureFlag] and [getPressureFlag]: bit [pdata_flag::pressure_tensor]. *)
Definition pressure_tensor : Z := 0.
Definition setPressureFlag (flag : bool) (default_flags : Z) : Z := if flag then Z.setbit default_flags pressure_tensor else Z.clearbit default_flags pressure_tensor.
Definition getPressureFlag (default_flags : Z) : bool := Z.testbit default_flags pressure_tensor.
