(* ===== verification/SystemSpec.v ===== *)
(** The run loop executes a schedule: which operations run at which time step, in
    which order, is given by the meaning of their triggers alone, whatever the
    caches of the triggers hold and how often they are asked. *)

From Stdlib Require Import ZArith Lia QArith String.
From stdpp Require Import base list list_numbers gmap strings.
From S2P Require Import Prelude HOOMDMath Trigger System.
Local Open Scope Z_scope.
Local Open Scope hoomd_scope.

Section schedule.
Context {W : Type}.
Variable P : parts W.

(** * The schedule *)

Inductive event : Type :=
| EvTune (t : Z) (op : operation W)
| EvUpdate (t : Z) (op : operation W)
| EvDOF
| EvFlags (flags : Z)
| EvPrepare (t : Z)
| EvIntegrate (t : Z)
| EvTick
| EvAnalyze (t : Z) (op : operation W)
| EvSignals.

(** What an event does; no trigger is involved. *)
Definition exec (e : event) : action (W := W) :=
  match e with
  | EvTune t op => run_tuner t op
  | EvUpdate t op => run_updater t op
  | EvDOF => update_dof_if_needed P
  | EvFlags f => fun s => Ret (set_flags f s, Ok tt)
  | EvPrepare t => with_integrator P prepRun t
  | EvIntegrate t => with_integrator P int_update t
  | EvTick => increment
  | EvAnalyze t op => run_analyzer t op
  | EvSignals => signals P
  end.

(** The events in order, until one throws. *)
Definition exec_all (l : list event) : action := foldr (fun e a => seq (exec e) a) skip l.

Variable ks : gmap addr trigger_kind.

Definition due (t : Z) (ops : list (operation W)) : list (operation W) := List.filter (fun op => meaning ks t (getTrigger op)) ops.

(** The particle data flags for the time step [t]. *)
Definition flags_at (t : Z) : Z :=
  let base := match m_integrator P with Some i => Z.lor (m_default_flags P) (int_flags i) | None => m_default_flags P end in
  fold_left (fun f op => Z.lor f (getRequestedPDataFlags op)) (due t (m_analyzers P) ++ due t (m_updaters P) ++ due t (m_tuners P)) base.

Definition step_schedule (t : Z) : list event :=
  (EvTune t <$> due t (m_tuners P)) ++ (EvUpdate t <$> due t (m_updaters P)) ++ [EvDOF; EvFlags (flags_at (t + 1)); EvIntegrate t; EvTick] ++
  (EvAnalyze (t + 1) <$> due (t + 1) (m_analyzers P)) ++ [EvSignals].

Definition run_schedule (t nsteps : Z) (write_at_start : bool) : list event :=
  [EvDOF; EvPrepare t; EvFlags (flags_at t)] ++ (if write_at_start then EvAnalyze t <$> due t (m_analyzers P) else []) ++ flat_map step_schedule (seqZ t nsteps).

(** * The loop follows it *)

(** The triggers of the parts exist, and their caches are right. *)
Definition triggers_ok (s : system W) : Prop := kinds (triggers s) = ks /\ cache_ok (triggers s).

Definition erase (s : system W) : system W := set_triggers ∅ s.

(** From the time step [t] the action does what the events do and, unless it
    throws, ends at [t']. *)
Definition follows (t t' : Z) (a : action (W := W)) (l : list event) : Prop := forall s, triggers_ok s -> m_cur_tstep s = t ->
  exists s' r, a s = Ret (s', r) /\ triggers_ok s' /\ (r = Ok tt -> m_cur_tstep s' = t') /\ exec_all l (erase s) = Ret (erase s', r).

Hypothesis Wf : wf_kinds ks.

Definition known (ops : list (operation W)) : Prop := Forall (fun op => is_Some (ks !! getTrigger op)) ops.

Lemma exec_all_app l1 l2 s : exec_all (l1 ++ l2) s = seq (exec_all l1) (exec_all l2) s.
Proof.
  revert s. induction l1 as [|e l1 IH]; intros s; [reflexivity|]. simpl. unfold seq at 1 2. destruct (exec e s) as [[s1 [[]|x]]| |] eqn:E; simpl;
    unfold seq; rewrite ?E; simpl; try reflexivity. apply IH.
Qed.

Lemma follows_seq t t1 t2 a b l1 l2 : follows t t1 a l1 -> follows t1 t2 b l2 -> follows t t2 (seq a b) (l1 ++ l2).
Proof.
  intros A B s Hs Ht. destruct (A s Hs Ht) as (s1 & r1 & E1 & H1 & T1 & X1). rewrite exec_all_app. unfold seq. rewrite E1, X1. simpl. destruct r1 as [[]|e].
  - apply B; auto.
  - exists s1, (Throw e). split; [reflexivity|]. split; [assumption|]. split; [discriminate|reflexivity].
Qed.

Lemma follows_skip t : follows t t skip [].
Proof. intros s Hs Ht. exists s, (Ok tt). split; [reflexivity|]. auto. Qed.

Lemma follows_now t t' a l : follows t t' (a t) l -> follows t t' (now a) l.
Proof. intros H s Hs Ht. unfold now. rewrite Ht. now apply H. Qed.

(** An event without effect on the time. *)
Lemma follows_exec t t' e : (forall s, m_cur_tstep s = t -> exists s' r, exec e s = Ret (s', r) /\ triggers s' = triggers s /\ (r = Ok tt -> m_cur_tstep s' = t') /\
    exec e (erase s) = Ret (erase s', r)) -> follows t t' (exec e) [e].
Proof.
  intros H s [K C] Ht. destruct (H s Ht) as (s' & r & E & T & C' & X). exists s', r. split; [exact E|]. split; [split; rewrite T; assumption|]. split; [exact C'|].
  simpl. unfold seq. rewrite X. simpl. destruct r as [[]|]; reflexivity.
Qed.

Lemma world_event (f : W -> W * result unit) s : exists s' r, on_world f s = Ret (s', r) /\ triggers s' = triggers s /\ m_cur_tstep s' = m_cur_tstep s /\ on_world f (erase s) = Ret (erase s', r).
Proof. unfold on_world. simpl. destruct (f (world s)) as [w r]. eexists _, r. repeat split. Qed.

Lemma follows_world t e f : exec e = on_world f -> follows t t (exec e) [e].
Proof. intros E. apply follows_exec. intros s Ht. rewrite E. destruct (world_event f s) as (s' & r & H1 & H2 & H3 & H4). exists s', r. split_and!; auto. intros _. congruence. Qed.

Lemma follows_updater t op : follows t t (run_updater t op) [EvUpdate t op].
Proof.
  apply (follows_exec t t (EvUpdate t op)). intros s Ht. simpl. unfold run_updater, seq. destruct (world_event (act op t) s) as (s' & r & -> & H2 & H3 & ->). simpl.
  destruct r as [[]|x]; eexists _, _; repeat split; simpl; auto; congruence.
Qed.

Lemma follows_dof t : follows t t (update_dof_if_needed P) [EvDOF].
Proof. apply (follows_exec t t EvDOF). intros s Ht. simpl. unfold update_dof_if_needed. simpl. destruct (m_update_group_dof_next_step s); eexists _, _; repeat split; auto. Qed.

Lemma follows_integrator t f e : exec e = with_integrator P f t -> follows t t (with_integrator P f t) [e].
Proof.
  intros E. rewrite <- E. unfold with_integrator in E. destruct (m_integrator P) as [i|]; [now apply (follows_world t e (f i t))|].
  apply follows_exec. intros s Ht. rewrite E. eexists _, _. repeat split; auto.
Qed.

Lemma follows_tick t : 0 <= t -> t + 1 < 2 ^ 64 -> follows t (t + 1) increment [EvTick].
Proof. intros H1 H2. apply (follows_exec t (t + 1) EvTick). intros s Ht. eexists _, _. repeat split. intros _. simpl. rewrite Ht. apply u64_small. unfold is_u64. lia. Qed.

Lemma follows_signals t : follows t t (signals P) [EvSignals].
Proof. apply (follows_exec t t EvSignals). intros s Ht. simpl. unfold signals. simpl. destruct (check_signals P (m_cur_tstep s)); eexists _, _; repeat split; auto; discriminate. Qed.

(** A query of a trigger answers with its meaning. *)
Lemma fires_spec t p s : triggers_ok s -> t <> UINT64_MAX -> is_Some (ks !! p) ->
  exists s', fires t p s = Ret (s', meaning ks t p) /\ triggers_ok s' /\ erase s' = erase s /\ m_cur_tstep s' = m_cur_tstep s.
Proof.
  intros [K C] Ht Hp. unfold fires. destruct (call_ok ks t Wf Ht p (S p) (triggers s)) as (ts & E & K' & O & F); [lia|assumption|assumption|intros q x _; apply C|].
  rewrite E. eexists. split; [reflexivity|]. split; [|auto]. split; simpl; [congruence|]. intros q x Hx. destruct (decide (q < S p)%nat) as [|N]; [eauto|].
  rewrite F in Hx by lia. rewrite K'. apply C. assumption.
Qed.

Lemma follows_for_each t t' ops body e : known ops -> t <> UINT64_MAX -> (forall op, follows t' t' (body op) [e op]) ->
  follows t' t' (for_each ops t body) (e <$> due t ops).
Proof.
  intros Kn Ht B. induction Kn as [|op ops Hop Kn IH]; [apply follows_skip|]. cbn [for_each]. unfold due in *. cbn [List.filter].
  assert (X : follows t' t' (fun s => bind! (s, b) := fires t (getTrigger op) s in if b : bool then body op s else skip s) (if meaning ks t (getTrigger op) then [e op] else [])).
  { intros s Hs Hc. destruct (fires_spec t (getTrigger op) s Hs Ht Hop) as (s1 & -> & H1 & E1 & C1). simpl. rewrite <- E1. destruct (meaning _ _ _); [apply B|apply follows_skip]; auto; congruence. }
  pose proof (follows_seq _ _ _ _ _ _ _ X IH) as Y. destruct (meaning ks t (getTrigger op)); exact Y.
Qed.

Lemma or_flags_spec ops t f s : known ops -> t <> UINT64_MAX -> triggers_ok s ->
  exists s', or_flags ops t f s = Ret (s', fold_left (fun f op => Z.lor f (getRequestedPDataFlags op)) (due t ops) f) /\ triggers_ok s' /\ erase s' = erase s /\ m_cur_tstep s' = m_cur_tstep s.
Proof.
  intros Kn Ht. revert f s. induction Kn as [|op ops Hop Kn IH]; intros f s Hs; [exists s; auto|]. cbn [or_flags].
  destruct (fires_spec t (getTrigger op) s Hs Ht Hop) as (s1 & -> & H1 & E1 & C1). simpl. unfold due. cbn [List.filter].
  destruct (IH (if meaning ks t (getTrigger op) then Z.lor f (getRequestedPDataFlags op) else f) s1 H1) as (s2 & -> & H2 & E2 & C2). exists s2.
  split; [destruct (meaning _ _ _); reflexivity|]. split; [assumption|]. split; congruence.
Qed.
Hypothesis Known : known (m_tuners P) /\ known (m_updaters P) /\ known (m_analyzers P).

Lemma follows_flags t t' : t <> UINT64_MAX -> follows t' t' (setFlags_for P t) [EvFlags (flags_at t)].
Proof.
  destruct Known as (Kt & Ku & Ka). intros Ht s Hs Hc. unfold setFlags_for, determineFlags. cbn zeta.
  destruct (or_flags_spec (m_analyzers P) t (match m_integrator P with Some i => Z.lor (m_default_flags P) (int_flags i) | None => m_default_flags P end) s Ka Ht Hs) as (s1 & -> & H1 & E1 & C1). simpl.
  destruct (or_flags_spec (m_updaters P) t (fold_left (fun f op => Z.lor f (getRequestedPDataFlags op)) (due t (m_analyzers P))
    (match m_integrator P with Some i => Z.lor (m_default_flags P) (int_flags i) | None => m_default_flags P end)) s1 Ku Ht H1) as (s2 & -> & H2 & E2 & C2). simpl.
  destruct (or_flags_spec (m_tuners P) t (fold_left (fun f op => Z.lor f (getRequestedPDataFlags op)) (due t (m_updaters P))
    (fold_left (fun f op => Z.lor f (getRequestedPDataFlags op)) (due t (m_analyzers P))
    (match m_integrator P with Some i => Z.lor (m_default_flags P) (int_flags i) | None => m_default_flags P end))) s2 Kt Ht H2) as (s3 & -> & H3 & E3 & C3). simpl.
  unfold flags_at. rewrite !fold_left_app. eexists _, _. split; [reflexivity|]. split; [exact H3|]. split; [intros _; simpl; congruence|].
  unfold seq. simpl. rewrite <- E1, <- E2, <- E3. reflexivity.
Qed.

Lemma follows_step t : 0 <= t -> t + 1 < UINT64_MAX -> follows t (t + 1) (step P) (step_schedule t).
Proof.
  destruct Known as (Kt & Ku & Ka). intros H1 H2. unfold step, step_schedule. unfold UINT64_MAX in *.
  apply (follows_seq t t); [apply follows_now, (follows_for_each t t _ _ (EvTune t)); [assumption|unfold UINT64_MAX; lia|intros op; now apply (follows_world t (EvTune t op) (act op t))]|].
  apply (follows_seq t t); [apply follows_now, (follows_for_each t t _ _ (EvUpdate t)); [assumption|unfold UINT64_MAX; lia|intros op; apply follows_updater]|].
  apply (follows_seq t t _ _ _ [EvDOF]); [apply follows_dof|].
  apply (follows_seq t t _ _ _ [EvFlags (flags_at (t + 1))]); [apply follows_now; rewrite u64_small by (unfold is_u64; lia); apply follows_flags; unfold UINT64_MAX; lia|].
  apply (follows_seq t t _ _ _ [EvIntegrate t]); [apply follows_now, follows_integrator; reflexivity|].
  apply (follows_seq t (t + 1) _ _ _ [EvTick]); [apply follows_tick; lia|].
  apply (follows_seq _ (t + 1)); [|apply follows_signals].
  apply follows_now, (follows_for_each (t + 1) (t + 1) _ _ (EvAnalyze (t + 1))); [assumption|unfold UINT64_MAX; lia|].
  intros op. now apply (follows_world (t + 1) (EvAnalyze (t + 1) op) (act op (t + 1))).
Qed.

Lemma follows_steps count : forall t, 0 <= t -> t + Z.of_nat count < UINT64_MAX -> follows t (t + Z.of_nat count) (steps P count) (flat_map step_schedule (seqZ t (Z.of_nat count))).
Proof.
  induction count as [|count IH]; intros t H1 H2; [rewrite Z.add_0_r; apply follows_skip|]. rewrite seqZ_cons by lia. cbn [steps flat_map].
  apply (follows_seq t (t + 1)); [apply follows_step; lia|]. replace (t + Z.of_nat (S count)) with (t + 1 + Z.of_nat count) by lia.
  replace (Z.succ t) with (t + 1) by lia. replace (Z.pred (Z.of_nat (S count))) with (Z.of_nat count) by lia. apply IH; lia.
Qed.

Lemma follows_run t nsteps was : 0 <= t -> 0 <= nsteps -> t + nsteps < UINT64_MAX -> forall s, triggers_ok s -> m_cur_tstep s = t ->
  exists s' r, run_system P nsteps was s = Ret (s', r) /\ triggers_ok s' /\ (r = Ok tt -> m_cur_tstep s' = t + nsteps) /\
    exec_all (run_schedule t nsteps was) (erase (resetStats P (begin_run nsteps s))) = Ret (erase s', r).
Proof.
  destruct Known as (Kt & Ku & Ka). intros H1 H2 H3 s Hs Hc. unfold run_system, run_schedule.
  eapply (follows_seq t t _ _ _ [EvDOF]); [apply follows_dof| |exact Hs|exact Hc].
  apply (follows_seq t t _ _ _ [EvPrepare t]); [apply follows_now, follows_integrator; reflexivity|].
  apply (follows_seq t t _ _ _ [EvFlags (flags_at t)]); [apply follows_now, follows_flags; unfold UINT64_MAX in *; lia|].
  apply (follows_seq t t).
  - destruct was; [|apply follows_skip]. apply follows_now, (follows_for_each t t _ _ (EvAnalyze t)); [assumption|unfold UINT64_MAX in *; lia|].
    intros op. now apply (follows_world t (EvAnalyze t op) (act op t)).
  - rewrite <- (Z2Nat.id nsteps) at 1 3 by assumption. apply follows_steps; lia.
Qed.

End schedule.

(** C21. The run loop: a run of [nsteps] steps executes exactly its schedule, up to
    the first exception. The schedule is computed from the meanings of the triggers
    alone: at every step the due tuners, the due updaters, the degrees of freedom
    of the groups when an updater changed them, the flags that the operations of
    the next step need, the integrator, the increment of the time step, the due
    analyzers of the new step and the signals. A run that does not throw ends at
    the requested step. *)
Theorem run_follows_schedule {W : Type} (P : parts W) (s : system W) (nsteps : Z) (write_at_start : bool)
  (Wf : wf_kinds (kinds (triggers s))) (C : cache_ok (triggers s))
  (Known : known (kinds (triggers s)) (m_tuners P) /\ known (kinds (triggers s)) (m_updaters P) /\ known (kinds (triggers s)) (m_analyzers P))
  (T : 0 <= m_cur_tstep s) (N : 0 <= nsteps) (Range : m_cur_tstep s + nsteps < UINT64_MAX) :
  exists s' r, run_system P nsteps write_at_start s = Ret (s', r) /\
    exec_all P (run_schedule P (kinds (triggers s)) (m_cur_tstep s) nsteps write_at_start) (erase (resetStats P (begin_run nsteps s))) = Ret (erase s', r) /\
    kinds (triggers s') = kinds (triggers s) /\ cache_ok (triggers s') /\ (r = Ok tt -> m_cur_tstep s' = m_cur_tstep s + nsteps).
Proof.
  destruct (follows_run P (kinds (triggers s)) Wf Known (m_cur_tstep s) nsteps write_at_start T N Range s (conj eq_refl C) eq_refl) as (s' & r & E & [K' C'] & T' & X).
  exists s', r. auto.
Qed.


(** * Examples *)

(** A world that records what happens. *)
Definition logging (name : string) (p : addr) : operation (list (string * Z)) :=
  mkOperation p (fun t w => (w ++ [(name, t)], Ok tt)) 0 (fun _ => false) (fun w => w).

Definition logged : parts (list (string * Z)) :=
  mkParts [logging "tune" 0%nat] [logging "update" 0%nat] [logging "analyze" 0%nat]
    (Some (mkIntegrator (fun t w => (w ++ [("prepare"%string, t)], Ok tt)) (fun t w => (w ++ [("integrate"%string, t)], Ok tt)) 0 (fun _ _ => (3, 0)%Q) (fun w => w)))
    [] 0 (fun _ => false).

Lemma run_follows_schedule_witness : exists s' r, run_system logged 3 true (new_system 4 example_store []) = Ret (s', r) /\
  exec_all logged (run_schedule logged (kinds example_store) 4 3 true) (erase (resetStats logged (begin_run 3 (new_system 4 example_store [])))) = Ret (erase s', r).
Proof.
  destruct (run_follows_schedule logged (new_system 4 example_store []) 3 true (proj1 example_store_wf) (proj2 example_store_wf)) as (s' & r & E & X & _).
  - repeat split; constructor; try constructor; vm_compute; eauto.
  - vm_compute. discriminate.
  - vm_compute. discriminate.
  - reflexivity.
  - exists s', r. exact (conj E X).
Defined.

(** One step: the analyzer runs last, at the new time step. *)
Example one_step_order : exists s', run_system logged 1 false (new_system 0 {[0%nat := new_trigger (PeriodicTrigger 1 0)]} []) = Ret (s', Ok tt) /\
  world s' = [("prepare", 0); ("tune", 0); ("update", 0); ("integrate", 0); ("analyze", 1)]%string.
Proof. eexists. split; [vm_compute; reflexivity|reflexivity]. Qed.

(** The particle data flags are set after [prepRun], so that what [prepRun] set is
    lost. *)
Lemma flags_after_prepare {W} (P : parts W) ks t n b : exists rest, run_schedule P ks t n b = EvDOF :: EvPrepare t :: EvFlags (flags_at P ks t) :: rest.
Proof. eexists. reflexivity. Qed.
