(* ===== verification/NeighborList.v ===== *)
(** The neighbour list ([hoomd/md/NeighborList.h], [hoomd/md/NeighborList.cc]).

    The host class without a domain decomposition. The fields are grouped by the
    part of the code that maintains them: the cutoffs by pair of types, the
    exclusions by tag and by index, the flat list with its heads and capacities,
    and the decision when to rebuild. The two indexers of the exclusion arrays
    always hold the pitch and the height of their arrays and are folded into them.
    The cutoff matrices of the consumers are shared with them: the model holds
    their current contents. [buildNlist] is virtual; it is an argument of
    [compute]. Notices, device code and the Python accessors are left out; the
    text of exceptions is shortened. *)

From Stdlib Require Import ZArith Lia QArith Qminmax String Bool.
From stdpp Require Import base list list_numbers strings.
From S2P Require Import Prelude HOOMDMath Index1D BoxDim GPUArray GPUVector ParticleData CellList.
Local Open Scope Z_scope.
Local Open Scope hoomd_scope.

(** * The data *)

Inductive storageMode := half | full.

(** The cutoffs by pair of types. *)
Record cutoffs := mkCutoffs {
  m_typpair_idx : Index2D.t;
  m_r_cut : list Scalar;
  m_r_listsq : list Scalar;
  m_rcut_max : list Scalar;
  m_rcut_base : list Scalar;
  m_consumer_r_cut : list (list Scalar);
  m_rcut_max_max : Scalar;
  m_rcut_min : Scalar;
  m_r_buff : Scalar;
  m_rcut_changed : bool
}.

(** A two-dimensional array of indices. *)
Record rows := mkRows { r_pitch : Z; r_height : Z; r_data : list Z }.

(** The exclusions: numbers and partners by tag, and translated to indices. *)
Record exclusions := mkExclusions {
  m_n_ex_tag : list Z;
  m_ex_list_tag : rows;
  m_n_ex_idx : list Z;
  m_ex_list_idx : rows;
  m_exclusions_set : bool
}.

(** The flat list. *)
Record lists := mkLists {
  m_nlist : list Z;
  m_n_neigh : list Z;
  m_head_list : list Z;
  m_Nmax : list Z;
  m_conditions : list Z
}.

(** When to rebuild. *)
Record timing := mkTiming {
  m_force_update : bool;
  m_dist_check : bool;
  m_has_been_updated_once : bool;
  m_last_updated_tstep : Z;
  m_last_checked_tstep : Z;
  m_last_check_result : bool;
  m_rebuild_check_delay : Z;
  m_updates : Z;
  m_forced_updates : Z;
  m_dangerous_updates : Z;
  m_update_periods : list Z
}.

Record nlist := mkNlist {
  nl_cut : cutoffs;
  nl_ex : exclusions;
  nl_lists : lists;
  nl_time : timing;
  m_filter_body : bool;
  m_storage_mode : storageMode;
  m_last_pos : list Scalar3;
  m_last_L : Scalar3;
  m_n_particles_changed : bool;
  m_topology_changed : bool;
  m_exclusions : list string;
  nl_compute : Compute.t
}.

(** ** Updates of a part *)

Definition set_cut (c : cutoffs) (n : nlist) : nlist :=
  mkNlist c (nl_ex n) (nl_lists n) (nl_time n) (m_filter_body n) (m_storage_mode n) (m_last_pos n) (m_last_L n) (m_n_particles_changed n) (m_topology_changed n)
    (m_exclusions n) (nl_compute n).
Definition set_ex (e : exclusions) (n : nlist) : nlist :=
  mkNlist (nl_cut n) e (nl_lists n) (nl_time n) (m_filter_body n) (m_storage_mode n) (m_last_pos n) (m_last_L n) (m_n_particles_changed n) (m_topology_changed n)
    (m_exclusions n) (nl_compute n).
Definition set_lists (l : lists) (n : nlist) : nlist :=
  mkNlist (nl_cut n) (nl_ex n) l (nl_time n) (m_filter_body n) (m_storage_mode n) (m_last_pos n) (m_last_L n) (m_n_particles_changed n) (m_topology_changed n)
    (m_exclusions n) (nl_compute n).
Definition set_time (t : timing) (n : nlist) : nlist :=
  mkNlist (nl_cut n) (nl_ex n) (nl_lists n) t (m_filter_body n) (m_storage_mode n) (m_last_pos n) (m_last_L n) (m_n_particles_changed n) (m_topology_changed n)
    (m_exclusions n) (nl_compute n).
Definition set_filter (f : bool) (m : storageMode) (n : nlist) : nlist :=
  mkNlist (nl_cut n) (nl_ex n) (nl_lists n) (nl_time n) f m (m_last_pos n) (m_last_L n) (m_n_particles_changed n) (m_topology_changed n)
    (m_exclusions n) (nl_compute n).
Definition set_last (pos : list Scalar3) (L : Scalar3) (n : nlist) : nlist :=
  mkNlist (nl_cut n) (nl_ex n) (nl_lists n) (nl_time n) (m_filter_body n) (m_storage_mode n) pos L (m_n_particles_changed n) (m_topology_changed n)
    (m_exclusions n) (nl_compute n).
Definition set_changed (particles topology : bool) (n : nlist) : nlist :=
  mkNlist (nl_cut n) (nl_ex n) (nl_lists n) (nl_time n) (m_filter_body n) (m_storage_mode n) (m_last_pos n) (m_last_L n) particles topology
    (m_exclusions n) (nl_compute n).
Definition set_exclusions (l : list string) (n : nlist) : nlist :=
  mkNlist (nl_cut n) (nl_ex n) (nl_lists n) (nl_time n) (m_filter_body n) (m_storage_mode n) (m_last_pos n) (m_last_L n) (m_n_particles_changed n) (m_topology_changed n)
    l (nl_compute n).
Definition set_compute (c : Compute.t) (n : nlist) : nlist :=
  mkNlist (nl_cut n) (nl_ex n) (nl_lists n) (nl_time n) (m_filter_body n) (m_storage_mode n) (m_last_pos n) (m_last_L n) (m_n_particles_changed n) (m_topology_changed n)
    (m_exclusions n) c.

Definition set_force (b : bool) (t : timing) : timing :=
  mkTiming b (m_dist_check t) (m_has_been_updated_once t) (m_last_updated_tstep t) (m_last_checked_tstep t) (m_last_check_result t) (m_rebuild_check_delay t)
    (m_updates t) (m_forced_updates t) (m_dangerous_updates t) (m_update_periods t).

Definition forceUpdate (n : nlist) : nlist := set_time (set_force true (nl_time n)) n.

(** ** Two-dimensional arrays *)

(** [GlobalArray(width, height)], [resize(width, height)] and the element of column
    [i] in row [j]; new memory is zero. *)
Definition make_rows (width height : Z) : rows := mkRows (pitch_of width) height (replicate (Z.to_nat (u64 (pitch_of width * height))) 0).

Definition resize_rows (width height : Z) (r : rows) : rows :=
  mkRows (pitch_of width) height
    (default 0 <$> resized_2d 0 (r_pitch r) (pitch_of width) (r_height r) height (Some <$> r_data r)).

Definition at_row (r : rows) (i j : Z) : Z := Index2D.index (Index2D.make (r_pitch r) (r_height r)) i j.
Definition read_row (r : rows) (i j : Z) : run Z := read (r_data r) (at_row r i j).
Definition write_row (r : rows) (i j x : Z) : run rows := bind! d := write (r_data r) (at_row r i j) x in Ret (mkRows (r_pitch r) (r_height r) d).

(** * The cutoffs *)

Definition with_cut (f : cutoffs -> cutoffs) (n : nlist) : nlist := set_cut (f (nl_cut n)) n.

Definition slotRCutChange : nlist -> nlist := with_cut (fun c =>
  mkCutoffs (m_typpair_idx c) (m_r_cut c) (m_r_listsq c) (m_rcut_max c) (m_rcut_base c) (m_consumer_r_cut c) (m_rcut_max_max c) (m_rcut_min c) (m_r_buff c) true).

(** The signal is connected to [slotRCutChange]. *)
Definition notifyRCutMatrixChange (n : nlist) : nlist := forceUpdate (slotRCutChange n).

Definition set_consumers (l : list (list Scalar)) : nlist -> nlist := with_cut (fun c =>
  mkCutoffs (m_typpair_idx c) (m_r_cut c) (m_r_listsq c) (m_rcut_max c) (m_rcut_base c) l (m_rcut_max_max c) (m_rcut_min c) (m_r_buff c) (m_rcut_changed c)).

Definition addRCutMatrix (r_cut_matrix : list Scalar) (n : nlist) : nlist * result unit :=
  if negb (Nat.eqb (length r_cut_matrix) (length (m_r_cut (nl_cut n)))) then (n, Throw (invalid_argument "given r_cut_matrix is not the right size"))
  else (forceUpdate (notifyRCutMatrixChange (set_consumers (m_consumer_r_cut (nl_cut n) ++ [r_cut_matrix]) n)), Ok tt).

(** The matrix in position [k] is the one to remove. *)
Definition removeRCutMatrix (k : nat) (n : nlist) : nlist * result unit :=
  if Nat.leb (length (m_consumer_r_cut (nl_cut n))) k then (n, Throw (invalid_argument "r_cut_matrix not found in neighbor list"))
  else (set_consumers (delete k (m_consumer_r_cut (nl_cut n))) n, Ok tt).

(** The radius is stored before it is tested. *)
Definition setRBuff (r_buff : Scalar) (n : nlist) : nlist * result unit :=
  let n := with_cut (fun c =>
    mkCutoffs (m_typpair_idx c) (m_r_cut c) (m_r_listsq c) (m_rcut_max c) (m_rcut_base c) (m_consumer_r_cut c) (m_rcut_max_max c) (m_rcut_min c) r_buff (m_rcut_changed c)) n in
  if lt_b r_buff 0 then (n, Throw (runtime_error "Requested buffer radius is less than zero."))
  else (forceUpdate (notifyRCutMatrixChange n), Ok tt).

Definition validateTypes (p : pdata) (typ1 typ2 : Z) : result unit :=
  if (typ1 >=? getNTypes p) || (typ2 >=? getNTypes p) then Throw (runtime_error "Invalid type") else Ok tt.

Definition setRcut (p : pdata) (typ1 typ2 : Z) (rcut : Scalar) (n : nlist) : run (nlist * result unit) :=
  match validateTypes p typ1 typ2 with
  | Throw e => Ret (n, Throw e)
  | Ok _ =>
      let c := nl_cut n in
      bind! b := write (m_rcut_base c) (Index2D.index (m_typpair_idx c) typ1 typ2) rcut in
      bind! b := write b (Index2D.index (m_typpair_idx c) typ2 typ1) rcut in
      Ret (notifyRCutMatrixChange (set_cut (mkCutoffs (m_typpair_idx c) (m_r_cut c) (m_r_listsq c) (m_rcut_max c) b (m_consumer_r_cut c) (m_rcut_max_max c)
             (m_rcut_min c) (m_r_buff c) (m_rcut_changed c)) n), Ok tt)
  end.

(** ** [updateRList] *)

Definition max_b (a b : Scalar) : Scalar := if lt_b a b then b else a.

(** The maximum with the matrix of a consumer. *)
Definition max_matrix (ntypes : Z) (idx : Index2D.t) (consumer r_cut : list Scalar) : run (list Scalar) :=
  for_run (Z.to_nat ntypes) 0 (fun i => for_run (Z.to_nat ntypes) 0 (fun j r_cut =>
    let k := Index2D.index idx i j in
    bind! a := read r_cut k in
    bind! b := read consumer k in
    write r_cut k (max_b a b))) r_cut.

Fixpoint max_consumers (ntypes : Z) (idx : Index2D.t) (consumers : list (list Scalar)) (r_cut : list Scalar) : run (list Scalar * result unit) :=
  match consumers with
  | [] => Ret (r_cut, Ok tt)
  | m :: consumers =>
      if negb (Nat.eqb (length m) (length r_cut)) then Ret (r_cut, Throw (invalid_argument "given r_cut_matrix is not the right size"))
      else bind! r_cut := max_matrix ntypes idx m r_cut in max_consumers ntypes idx consumers r_cut
  end.

(** The row of a type: its largest cutoff and the squared list radii. *)
Definition list_row (ntypes : Z) (idx : Index2D.t) (r_buff : Scalar) (r_cut : list Scalar) (i : Z) (r_listsq : list Scalar) : run (Scalar * list Scalar) :=
  for_run (Z.to_nat ntypes) 0 (fun j '(r_cut_max_i, r_listsq) =>
    let k := Index2D.index idx i j in
    bind! r_cut_ij := read r_cut k in
    let r_list := if lt_b 0 r_cut_ij then (r_cut_ij + r_buff)%Q else 0%Q in
    bind! r_listsq := write r_listsq k (r_list * r_list)%Q in
    Ret (if lt_b r_cut_max_i r_cut_ij then r_cut_ij else r_cut_max_i, r_listsq)) (0%Q, r_listsq).

Definition list_rows (ntypes : Z) (idx : Index2D.t) (r_buff : Scalar) (r_cut r_listsq rcut_max : list Scalar) : run (Scalar * list Scalar * list Scalar) :=
  for_run (Z.to_nat ntypes) 0 (fun i '(r_cut_max, r_listsq, rcut_max) =>
    bind! (r_cut_max_i, r_listsq) := list_row ntypes idx r_buff r_cut i r_listsq in
    bind! rcut_max := write rcut_max i r_cut_max_i in
    Ret (if lt_b r_cut_max r_cut_max_i then r_cut_max_i else r_cut_max, r_listsq, rcut_max)) (0%Q, r_listsq, rcut_max).

Definition smallest_cutoff (start : Scalar) (r_cut : list Scalar) : Scalar :=
  fold_left (fun m r => if lt_b 0 r && lt_b r m then r else m) r_cut start.

(** An exception leaves the cutoffs of the consumers read so far. *)
Definition updateRList (p : pdata) (n : nlist) : run (nlist * result unit) :=
  let c := nl_cut n in
  bind! (r_cut, r) := max_consumers (getNTypes p) (m_typpair_idx c) (m_consumer_r_cut c) (m_rcut_base c) in
  match r with
  | Throw e =>
      Ret (set_cut (mkCutoffs (m_typpair_idx c) r_cut (m_r_listsq c) (m_rcut_max c) (m_rcut_base c) (m_consumer_r_cut c) (m_rcut_max_max c) (m_rcut_min c)
             (m_r_buff c) (m_rcut_changed c)) n, Throw e)
  | Ok _ =>
      bind! (r_cut_max, r_listsq, rcut_max) := list_rows (getNTypes p) (m_typpair_idx c) (m_r_buff c) r_cut (m_r_listsq c) (m_rcut_max c) in
      Ret (set_cut (mkCutoffs (m_typpair_idx c) r_cut r_listsq rcut_max (m_rcut_base c) (m_consumer_r_cut c) r_cut_max (smallest_cutoff r_cut_max r_cut)
             (m_r_buff c) false) n, Ok tt)
  end.

(** * The exclusions *)

(** [resizeAndClearExclusions]: the arrays by tag follow the number of tags; the
    numbers are cleared. *)
Definition resizeAndClearExclusions (p : pdata) (n : nlist) : nlist :=
  let e := nl_ex n in
  let size := m_rtag_size p in
  let n_ex_tag := if m_n_particles_changed n then
                    if size >? Z.of_nat (length (m_n_ex_tag e)) then array_resize 0 (new_capacity size (Z.of_nat (length (m_n_ex_tag e)))) (m_n_ex_tag e)
                    else m_n_ex_tag e
                  else m_n_ex_tag e in
  let elements := Z.of_nat (length n_ex_tag) in
  let list_tag := if m_n_particles_changed n && negb (r_pitch (m_ex_list_tag e) =? elements)
                  then resize_rows elements (r_height (m_ex_list_tag e)) (m_ex_list_tag e) else m_ex_list_tag e in
  forceUpdate (set_ex (mkExclusions (replicate (length n_ex_tag) 0) list_tag (replicate (length (m_n_ex_idx e)) 0) (m_ex_list_idx e) false) n).

(** The scan of the exclusions of a tag. *)
Fixpoint scan_row (r : rows) (tag1 : Z) (count : nat) (i : Z) (tag2 : Z) : run bool :=
  match count with
  | O => Ret false
  | S count => bind! x := read_row r tag1 i in if x =? tag2 then Ret true else scan_row r tag1 count (i + 1) tag2
  end.

Definition isExcluded (tag1 tag2 : Z) (e : exclusions) : run bool :=
  bind! n_ex := read (m_n_ex_tag e) tag1 in scan_row (m_ex_list_tag e) tag1 (Z.to_nat n_ex) 0 tag2.

Definition growExclusionList (p : pdata) (e : exclusions) : exclusions :=
  let new_height := r_height (m_ex_list_idx e) + 1 in
  mkExclusions (m_n_ex_tag e) (resize_rows (m_rtag_size p) new_height (m_ex_list_tag e)) (m_n_ex_idx e)
    (resize_rows (m_max_nparticles p) new_height (m_ex_list_idx e)) (m_exclusions_set e).

(** Append a partner to the list of a tag. *)
Definition push_exclusion (tag partner : Z) (e : exclusions) : run exclusions :=
  bind! pos := read (m_n_ex_tag e) tag in
  bind! l := write_row (m_ex_list_tag e) tag pos partner in
  bind! c := write (m_n_ex_tag e) tag (u32 (pos + 1)) in
  Ret (mkExclusions c l (m_n_ex_idx e) (m_ex_list_idx e) (m_exclusions_set e)).

Definition addExclusion (p : pdata) (tag1 tag2 : Z) (n : nlist) : run nlist :=
  let e := nl_ex n in
  let e := mkExclusions (m_n_ex_tag e) (m_ex_list_tag e) (m_n_ex_idx e) (m_ex_list_idx e) true in
  bind! excluded := isExcluded tag1 tag2 e in
  if excluded then Ret (set_ex e n)
  else
    bind! n1 := read (m_n_ex_tag e) tag1 in
    bind! n2 := read (m_n_ex_tag e) tag2 in
    let e := if (n1 =? r_height (m_ex_list_idx e)) || (n2 =? r_height (m_ex_list_idx e)) then growExclusionList p e else e in
    bind! e := push_exclusion tag1 tag2 e in
    bind! e := push_exclusion tag2 tag1 e in
    Ret (forceUpdate (set_ex e n)).

(** ** Exclusions from the topology *)

(** The groups that [takeSnapshot] returns, and the bonds by tag. *)
Record topology := mkTopology {
  bonds : list (list Z);
  meshbonds : option (list (list Z));
  angles : list (list Z);
  dihedrals : list (list Z);
  constraints : list (list Z);
  special_pairs : list (list Z);
  bonds_NGlobal : Z;
  bond_by_tag : Z -> result (Z * Z)
}.

(** An exclusion of the members [i] and [j] of every group. *)
Fixpoint exclude_groups (p : pdata) (i j : nat) (groups : list (list Z)) (n : nlist) : run nlist :=
  match groups with
  | [] => Ret n
  | g :: groups => bind! n := addExclusion p (nth i g 0) (nth j g 0) n in exclude_groups p i j groups n
  end.

Definition MAXNBONDS : Z := 8.

(** The bond partners of every tag; entry 0 of a row is their number. *)
Fixpoint bond_lists (t : topology) (count : nat) (i : Z) (l : list Z) : run (result (list Z)) :=
  match count with
  | O => Ret (Ok l)
  | S count =>
      match bond_by_tag t i with
      | Throw e => Ret (Throw e)
      | Ok (tagA, tagB) =>
          bind! a := read l (u32 (tagA * MAXNBONDS)) in
          bind! l := write l (u32 (tagA * MAXNBONDS)) (u32 (a + 1)) in
          bind! b := read l (u32 (tagB * MAXNBONDS)) in
          bind! l := write l (u32 (tagB * MAXNBONDS)) (u32 (b + 1)) in
          if (u32 (a + 1) >=? MAXNBONDS) || (u32 (b + 1) >=? MAXNBONDS) then Ret (Throw (runtime_error "Too many bonds to process exclusions."))
          else
            bind! l := write l (u32 (u32 (tagA * MAXNBONDS) + u32 (a + 1))) tagB in
            bind! l := write l (u32 (u32 (tagB * MAXNBONDS) + u32 (b + 1))) tagA in
            bond_lists t count (i + 1) l
      end
  end.

(** [for (j = 1; j < n; j++) for (k = j + 1; k <= n; k++) addExclusion(l[j], l[k])] *)
Definition exclude_pairs_of (p : pdata) (l : list Z) (iAtom nBonds : Z) (n : nlist) : run nlist :=
  for_run (Z.to_nat (nBonds - 1)) 1 (fun j => for_run (Z.to_nat (nBonds - j)) (j + 1) (fun k n =>
    bind! a := read l (u32 (iAtom + j)) in
    bind! b := read l (u32 (iAtom + k)) in
    addExclusion p a b n)) n.

Definition addOneThreeExclusionsFromTopology (p : pdata) (t : topology) (n : nlist) : run (nlist * result unit) :=
  let myNAtoms := m_rtag_size p in
  if bonds_NGlobal t =? 0 then Ret (n, Ok tt)
  else
    bind! r := bond_lists t (Z.to_nat (bonds_NGlobal t)) 0 (replicate (Z.to_nat (u32 (MAXNBONDS * myNAtoms))) 0) in
    match r with
    | Throw e => Ret (n, Throw e)
    | Ok l =>
        bind! n := for_run (Z.to_nat myNAtoms) 0 (fun i n =>
          let iAtom := u32 (i * MAXNBONDS) in
          bind! nBonds := read l iAtom in
          if nBonds >? 1 then exclude_pairs_of p l iAtom nBonds n else Ret n) n in
        Ret (n, Ok tt)
    end.

(** The partners of the two ends of a bond. *)
Definition exclude_ends (p : pdata) (l : list Z) (tagA tagB : Z) (n : nlist) : run nlist :=
  bind! nBondsA := read l (u32 (tagA * MAXNBONDS)) in
  bind! nBondsB := read l (u32 (tagB * MAXNBONDS)) in
  for_run (Z.to_nat nBondsA) 1 (fun j n =>
    bind! tagJ := read l (u32 (u32 (tagA * MAXNBONDS) + j)) in
    if tagJ =? tagB then Ret n
    else for_run (Z.to_nat nBondsB) 1 (fun k n =>
      bind! tagK := read l (u32 (u32 (tagB * MAXNBONDS) + k)) in
      if tagK =? tagA then Ret n else addExclusion p tagJ tagK n) n) n.

Fixpoint exclude_around (p : pdata) (t : topology) (l : list Z) (count : nat) (i : Z) (n : nlist) : run (nlist * result unit) :=
  match count with
  | O => Ret (n, Ok tt)
  | S count =>
      match bond_by_tag t i with
      | Throw e => Ret (n, Throw e)
      | Ok (tagA, tagB) => bind! n := exclude_ends p l tagA tagB n in exclude_around p t l count (i + 1) n
      end
  end.

Definition addOneFourExclusionsFromTopology (p : pdata) (t : topology) (n : nlist) : run (nlist * result unit) :=
  if bonds_NGlobal t =? 0 then Ret (n, Ok tt)
  else
    bind! r := bond_lists t (Z.to_nat (bonds_NGlobal t)) 0 (replicate (Z.to_nat (u32 (MAXNBONDS * m_rtag_size p))) 0) in
    match r with
    | Throw e => Ret (n, Throw e)
    | Ok l => exclude_around p t l (Z.to_nat (bonds_NGlobal t)) 0 n
    end.

(** ** By name *)

Definition hasBodies (p : pdata) : bool := existsb (fun e => negb (body e =? NO_BODY)) (take (Z.to_nat (getN p)) (m_ptl p)).

Definition setFilterBody (p : pdata) (filter_body : bool) (n : nlist) : nlist :=
  forceUpdate (if hasBodies p || negb filter_body then set_filter filter_body (m_storage_mode n) n else n).

(** The insertion into a [std::set] of strings, which is kept in order. *)
Fixpoint insert_name (s : string) (l : list string) : list string :=
  match l with
  | [] => [s]
  | x :: l => match String.compare s x with Lt => s :: x :: l | Eq => x :: l | Gt => x :: insert_name s l end
  end.

Definition named (s : string) (n : nlist) : nlist := set_exclusions (insert_name s (m_exclusions n)) n.

(** The exclusions of a kind, then its name; an exception keeps the name out. *)
Definition then_named (s : string) (r : run (nlist * result unit)) : run (nlist * result unit) :=
  bind! (n, r) := r in
  match r with Ok _ => Ret (named s n, Ok tt) | Throw e => Ret (n, Throw e) end.

Definition ok_run (r : run nlist) : run (nlist * result unit) := bind! n := r in Ret (n, Ok tt).

(** An unknown name, or a mesh without mesh data, is ignored. *)
Definition setSingleExclusion (p : pdata) (t : topology) (exclusion : string) (n : nlist) : run (nlist * result unit) :=
  let kind s := String.eqb exclusion s in
  if kind "bond"%string then then_named "bond" (ok_run (exclude_groups p 0 1 (bonds t) n))
  else match kind "meshbond"%string, meshbonds t with
  | true, Some m => then_named "meshbond" (ok_run (exclude_groups p 0 1 m n))
  | _, _ =>
    if kind "special_pair"%string then then_named "special_pair" (ok_run (exclude_groups p 0 1 (special_pairs t) n))
    else if kind "constraint"%string then then_named "constraint" (ok_run (exclude_groups p 0 1 (constraints t) n))
    else if kind "angle"%string then then_named "angle" (ok_run (exclude_groups p 0 2 (angles t) n))
    else if kind "dihedral"%string then then_named "dihedral" (ok_run (exclude_groups p 0 3 (dihedrals t) n))
    else if kind "body"%string then Ret (named "body" (setFilterBody p true n), Ok tt)
    else if kind "1-3"%string then then_named "1-3" (addOneThreeExclusionsFromTopology p t n)
    else if kind "1-4"%string then then_named "1-4" (addOneFourExclusionsFromTopology p t n)
    else Ret (n, Ok tt)
  end.

Fixpoint set_each (p : pdata) (t : topology) (l : list string) (n : nlist) : run (nlist * result unit) :=
  match l with
  | [] => Ret (n, Ok tt)
  | s :: l =>
      bind! (n, r) := setSingleExclusion p t s n in
      match r with Ok _ => set_each p t l n | Throw e => Ret (n, Throw e) end
  end.

Definition setExclusions (p : pdata) (t : topology) (l : list string) (n : nlist) : run (nlist * result unit) :=
  set_each p t l (set_exclusions [] (setFilterBody p false (resizeAndClearExclusions p n))).

(** ** By index *)

(** The exclusions of the particle [idx]. *)
Definition translate_row (p : pdata) (idx : Z) (e : exclusions) : run exclusions :=
  bind! el := read (m_ptl p) idx in
  bind! n := read (m_n_ex_tag e) (tag el) in
  bind! c := write (m_n_ex_idx e) idx n in
  bind! l := for_run (Z.to_nat n) 0 (fun offset l =>
    bind! ex_tag := read_row (m_ex_list_tag e) (tag el) offset in
    bind! ex_idx := read (m_rtag p) ex_tag in
    write_row l idx offset ex_idx) (m_ex_list_idx e) in
  Ret (mkExclusions (m_n_ex_tag e) (m_ex_list_tag e) c l (m_exclusions_set e)).

Definition updateExListIdx (p : pdata) (n : nlist) : run nlist :=
  bind! e := for_run (Z.to_nat (getN p)) 0 (translate_row p) (nl_ex n) in Ret (set_ex e n).

(** One neighbour: kept at the front of the row unless it is excluded. *)
Definition filter_entry (e : exclusions) (idx myHead n_ex : Z) (cur_neigh_idx : Z) (s : Z * list Z) : run (Z * list Z) :=
  let '(new_n_neigh, l) := s in
  bind! cur_neigh := read l (myHead + cur_neigh_idx) in
  bind! excluded := scan_row (m_ex_list_idx e) idx (Z.to_nat n_ex) 0 cur_neigh in
  if excluded then Ret (new_n_neigh, l)
  else bind! l := write l (myHead + new_n_neigh) cur_neigh in Ret (u32 (new_n_neigh + 1), l).

Definition filter_row (e : exclusions) (idx : Z) (s : lists) : run lists :=
  bind! myHead := read (m_head_list s) idx in
  bind! n_neigh := read (m_n_neigh s) idx in
  bind! n_ex := read (m_n_ex_idx e) idx in
  bind! (new_n_neigh, l) := for_run (Z.to_nat n_neigh) 0 (filter_entry e idx myHead n_ex) (0, m_nlist s) in
  bind! c := write (m_n_neigh s) idx new_n_neigh in
  Ret (mkLists l c (m_head_list s) (m_Nmax s) (m_conditions s)).

Definition filterNlist (p : pdata) (n : nlist) : run nlist :=
  bind! l := for_run (Z.to_nat (getN p)) 0 (filter_row (nl_ex n)) (nl_lists n) in Ret (set_lists l n).

(** * Memory *)

(** [(n > 4) ? (n + 3) & ~3 : 4] at 32 and at 64 bits. *)
Definition round_up4 (n : Z) : Z := if n >? 4 then Z.land (u32 (n + 3)) (2 ^ 32 - 4) else 4.
Definition round_up4_64 (n : Z) : Z := if n >? 4 then Z.land (u64 (n + 3)) (2 ^ 64 - 4) else 4.

(** The growth loop of [resizeNlist] is that of the particle arrays, with its
    rounding to single precision. *)
Definition resizeNlist (size : Z) (l : list Z) : list Z :=
  if size >? Z.of_nat (length l) then
    array_resize 0 (round_up4_64 (grown size (if Z.of_nat (length l) =? 0 then 1 else Z.of_nat (length l)))) l
  else l.

Definition buildHeadList (p : pdata) (s : lists) : run lists :=
  bind! (headAddress, heads) := for_run (Z.to_nat (getN p)) 0 (fun i '(headAddress, heads) =>
    bind! heads := write heads i headAddress in
    bind! e := read (m_ptl p) i in
    bind! m := read (m_Nmax s) (typ e) in
    Ret (u64 (headAddress + m), heads)) (0, m_head_list s) in
  Ret (mkLists (resizeNlist headAddress (m_nlist s)) (m_n_neigh s) heads (m_Nmax s) (m_conditions s)).

Definition checkConditions (p : pdata) (s : lists) : run (lists * bool) :=
  bind! (result, nmax) := for_run (Z.to_nat (getNTypes p)) 0 (fun i '(result, nmax) =>
    bind! c := read (m_conditions s) i in
    bind! m := read nmax i in
    if c >? m then bind! nmax := write nmax i (round_up4 c) in Ret (true, nmax) else Ret (result, nmax)) (false, m_Nmax s) in
  Ret (mkLists (m_nlist s) (m_n_neigh s) (m_head_list s) nmax (m_conditions s), result).

Definition resetConditions (p : pdata) (s : lists) : lists :=
  mkLists (m_nlist s) (m_n_neigh s) (m_head_list s) (m_Nmax s) (replicate (Z.to_nat (getNTypes p)) 0 ++ drop (Z.to_nat (getNTypes p)) (m_conditions s)).

(** The maximum number of particles changed. *)
Definition reallocate (p : pdata) (n : nlist) : nlist :=
  let e := nl_ex n in
  let s := nl_lists n in
  let m := m_max_nparticles p in
  forceUpdate (set_last (array_resize BoxDim.zero3 m (m_last_pos n)) (m_last_L n)
    (set_lists (mkLists (m_nlist s) (array_resize 0 m (m_n_neigh s)) (array_resize 0 m (m_head_list s)) (m_Nmax s) (m_conditions s))
      (set_ex (mkExclusions (m_n_ex_tag e) (m_ex_list_tag e) (array_resize 0 m (m_n_ex_idx e)) (resize_rows m (r_height (m_ex_list_idx e)) (m_ex_list_idx e))
                 (m_exclusions_set e)) n))).

(** * When to rebuild *)

Definition setRebuildCheckDelay (every : Z) (n : nlist) : nlist :=
  let t := nl_time n in
  forceUpdate (set_time (mkTiming (m_force_update t) (m_dist_check t) (m_has_been_updated_once t) (m_last_updated_tstep t) (m_last_checked_tstep t)
    (m_last_check_result t) every (m_updates t) (m_forced_updates t) (m_dangerous_updates t) (m_update_periods t)) n).

Definition setDistCheck (dist_check : bool) (n : nlist) : nlist :=
  let t := nl_time n in
  set_time (mkTiming (m_force_update t) dist_check (m_has_been_updated_once t) (m_last_updated_tstep t) (m_last_checked_tstep t)
    (m_last_check_result t) (m_rebuild_check_delay t) (m_updates t) (m_forced_updates t) (m_dangerous_updates t) (m_update_periods t)) n.

Definition setStorageMode (mode : storageMode) (n : nlist) : nlist := forceUpdate (set_filter (m_filter_body n) mode n).

(** The slots of the signals of the particle and group data. *)
Definition slotGlobalParticleNumberChange (n : nlist) : nlist := set_changed true (m_topology_changed n) n.
Definition slotGlobalTopologyNumberChange (n : nlist) : nlist := set_changed (m_n_particles_changed n) true n.

Definition resetStats (n : nlist) : nlist :=
  let t := nl_time n in
  set_time (mkTiming (m_force_update t) (m_dist_check t) (m_has_been_updated_once t) (m_last_updated_tstep t) (m_last_checked_tstep t)
    (m_last_check_result t) (m_rebuild_check_delay t) 0 0 0 (replicate (length (m_update_periods t)) 0)) n.

Definition getNumUpdates (n : nlist) : Z := u64 (m_updates (nl_time n) + m_forced_updates (nl_time n)).

(** The first period with a rebuild, or the number of periods. *)
Fixpoint smallest_period (l : list Z) (i : Z) : Z :=
  match l with
  | [] => i
  | x :: l => if negb (x =? 0) then i else smallest_period l (i + 1)
  end.

Definition getSmallestRebuild (n : nlist) : Z := smallest_period (m_update_periods (nl_time n)) 0.

Definition hasBeenUpdated (timestep : Z) (n : nlist) : bool :=
  (m_last_updated_tstep (nl_time n) =? timestep) && m_has_been_updated_once (nl_time n).

Section check.
Variable rsqrt : Scalar -> Scalar.
Variable dimensions : Z.

(** The particle [i] has moved too far from its place at the last build, scaled
    with the box. *)
Definition moved_too_far (p : pdata) (n : nlist) (lambda : Scalar3) (lambda_min : Scalar) (i : Z) : run bool :=
  bind! e := read (m_ptl p) i in
  bind! old_rmin := read (m_rcut_max (nl_cut n)) (typ e) in
  let rmax := (old_rmin + m_r_buff (nl_cut n))%Q in
  let delta_max := (rmax * lambda_min - old_rmin)%Q in
  let maxsq := if lt_b 0 delta_max then (delta_max * delta_max / 4)%Q else 0%Q in
  bind! last := read (m_last_pos n) i in
  match BoxDim.minImage (m_global_box p) (s3_sub (pos e) (s3_mul lambda last)) with
  | None => OutOfBounds
  | Some dx => Ret (ge_b (s3x dx * s3x dx + s3y dx * s3y dx + s3z dx * s3z dx)%Q maxsq)
  end.

Fixpoint any_moved (p : pdata) (n : nlist) (lambda : Scalar3) (lambda_min : Scalar) (count : nat) (i : Z) : run bool :=
  match count with
  | O => Ret false
  | S count => bind! b := moved_too_far p n lambda lambda_min i in if b then Ret true else any_moved p n lambda lambda_min count (i + 1)
  end.

Definition min_b (a b : Scalar) : Scalar := if lt_b a b then a else b.

Definition distanceCheck (p : pdata) (n : nlist) : run bool :=
  let lambda := s3_div (BoxDim.getNearestPlaneDistance rsqrt (m_global_box p)) (m_last_L n) in
  let lambda_min := min_b (min_b (s3x lambda) (s3y lambda)) (s3z lambda) in
  any_moved p n lambda lambda_min (Z.to_nat (getN p)) 0.

Definition setLastUpdatedPos (p : pdata) (n : nlist) : run nlist :=
  bind! l := for_run (Z.to_nat (getN p)) 0 (fun i l => bind! e := read (m_ptl p) i in write l i (pos e)) (m_last_pos n) in
  Ret (set_last l (BoxDim.getNearestPlaneDistance rsqrt (m_global_box p)) n).

Definition shouldCheckDistance (timestep : Z) (t : timing) : bool :=
  negb (m_force_update t) && negb (timestep <? u64 (m_last_updated_tstep t + m_rebuild_check_delay t)).

(** The check of a time step before the particles are looked at: the rebuild is
    due without a distance check. *)
Definition due_without_check (timestep : Z) (r_buff : Scalar) (t : timing) : bool :=
  lt_b r_buff (1 # 1000000) ||
  (negb (m_dist_check t) && ((m_rebuild_check_delay t =? 0) ||
     ((m_rebuild_check_delay t >? 1) && (timestep =? u64 (m_last_updated_tstep t + m_rebuild_check_delay t))))).

Definition record_period (timestep : Z) (t : timing) : list Z :=
  let l := m_update_periods t in
  if timestep >? m_last_updated_tstep t then
    let period := u64 (timestep - m_last_updated_tstep t) in
    let period := if period >=? Z.of_nat (length l) then Z.of_nat (length l) - 1 else period in
    zset l period (u64 (zget 0 l period + 1))
  else l.

Definition needsUpdating (timestep : Z) (p : pdata) (n : nlist) : run (nlist * bool) :=
  let t := nl_time n in
  if m_last_checked_tstep t =? timestep then
    if m_force_update t then Ret (set_time (set_force false t) n, true) else Ret (n, m_last_check_result t)
  else
    let with_result force updated result updates forced dangerous periods :=
      set_time (mkTiming force (m_dist_check t) (m_has_been_updated_once t) updated timestep result (m_rebuild_check_delay t) updates forced dangerous periods) n in
    if negb (m_force_update t) && negb (shouldCheckDistance timestep t) then
      Ret (with_result (m_force_update t) (m_last_updated_tstep t) false (m_updates t) (m_forced_updates t) (m_dangerous_updates t) (m_update_periods t), false)
    else if m_force_update t then
      Ret (with_result false timestep true (m_updates t) (u64 (m_forced_updates t + 1)) (m_dangerous_updates t) (m_update_periods t), true)
    else
      let dangerous := m_dist_check t && ((m_rebuild_check_delay t >? 1) && (timestep =? u64 (m_last_updated_tstep t + m_rebuild_check_delay t))) in
      bind! result := if due_without_check timestep (m_r_buff (nl_cut n)) t then Ret true else distanceCheck p n in
      if result then
        Ret (with_result false timestep true (u64 (m_updates t + 1)) (m_forced_updates t)
               (if dangerous then u64 (m_dangerous_updates t + 1) else m_dangerous_updates t) (record_period timestep t), true)
      else Ret (with_result false (m_last_updated_tstep t) false (m_updates t) (m_forced_updates t) (m_dangerous_updates t) (m_update_periods t), false).

Definition checkBoxSize (p : pdata) (n : nlist) : result unit :=
  let box := m_global_box p in
  let L := BoxDim.getNearestPlaneDistance rsqrt box in
  let rmax := (m_rcut_max_max (nl_cut n) + m_r_buff (nl_cut n))%Q in
  let periodic := BoxDim.m_periodic box in
  if (BoxDim.u3x periodic && Qle_bool (s3x L) (rmax * 2)) || (BoxDim.u3y periodic && Qle_bool (s3y L) (rmax * 2)) ||
     ((dimensions =? 3) && BoxDim.u3z periodic && Qle_bool (s3z L) (rmax * 2))
  then Throw (runtime_error "nlist: Simulation box is too small, the neighbor list is searching beyond the minimum image") else Ok tt.

(** * [compute] *)

(** The state [B] and the method [buildNlist] of a derived class; both can throw. *)
Variable B : Type.
Variable buildNlist : Z -> pdata -> B * nlist -> run (B * nlist * result unit).

(** The loop that repeats after an overflow; two passes are enough. *)
Fixpoint build_loop (fuel : nat) (timestep : Z) (p : pdata) (s : B * nlist) : run (B * nlist * result unit) :=
  match fuel with
  | O => OutOfBounds
  | S fuel =>
      bind! (b, n, r) := buildNlist timestep p s in
      match r with
      | Throw e => Ret (b, n, Throw e)
      | Ok _ =>
          bind! (l, overflowed) := checkConditions p (nl_lists n) in
          if overflowed then
            bind! l := buildHeadList p l in
            build_loop fuel timestep p (b, set_lists (resetConditions p l) n)
          else Ret (b, set_lists l n, Ok tt)
      end
  end.

(** The steps of [compute] up to the test of the list. *)
Definition refresh_exclusions (p : pdata) (t : topology) (n : nlist) : run (nlist * result unit) :=
  if m_n_particles_changed n || m_topology_changed n then
    let n := set_changed false false (resizeAndClearExclusions p n) in set_each p t (m_exclusions n) n
  else Ret (n, Ok tt).

Definition refresh_forced (p : pdata) (n : nlist) : run nlist :=
  if m_force_update (nl_time n) then
    bind! l := buildHeadList p (nl_lists n) in
    let n := set_lists l n in
    if m_exclusions_set (nl_ex n) then updateExListIdx p n else Ret n
  else Ret n.

Definition mark_updated (n : nlist) : nlist :=
  let t := nl_time n in
  set_time (mkTiming (m_force_update t) (m_dist_check t) true (m_last_updated_tstep t) (m_last_checked_tstep t)
    (m_last_check_result t) (m_rebuild_check_delay t) (m_updates t) (m_forced_updates t) (m_dangerous_updates t) (m_update_periods t)) n.

Definition rebuild (timestep : Z) (p : pdata) (s : B * nlist) : run (B * nlist * result unit) :=
  let '(b, n) := s in
  match checkBoxSize p n with
  | Throw e => Ret (b, n, Throw e)
  | Ok _ =>
      bind! (b, n, r) := build_loop 2 timestep p (b, n) in
      match r with
      | Throw e => Ret (b, n, Throw e)
      | Ok _ =>
          bind! n := if m_exclusions_set (nl_ex n) then filterNlist p n else Ret n in
          bind! n := setLastUpdatedPos p n in
          Ret (b, mark_updated n, Ok tt)
      end
  end.

Definition update_if_needed (timestep : Z) (p : pdata) (s : B * nlist) : run (B * nlist * result unit) :=
  let '(b, n) := s in
  bind! (n, needed) := needsUpdating timestep p n in
  if needed then rebuild timestep p (b, n) else Ret (b, n, Ok tt).

Definition refresh_cutoffs (p : pdata) (n : nlist) : run (nlist * result unit) :=
  if m_rcut_changed (nl_cut n) then updateRList p n else Ret (n, Ok tt).

Definition compute (timestep : Z) (p : pdata) (t : topology) (s : B * nlist) : run (B * nlist * result unit) :=
  let '(b, n) := s in
  bind! (n, r) := refresh_cutoffs p n in
  match r with
  | Throw e => Ret (b, n, Throw e)
  | Ok _ =>
      let '(k, due) := Compute.shouldCompute timestep (nl_compute n) in
      let n := set_compute k n in
      if negb due && negb (m_force_update (nl_time n)) then Ret (b, n, Ok tt)
      else
        bind! (n, r) := refresh_exclusions p t n in
        match r with
        | Throw e => Ret (b, n, Throw e)
        | Ok _ => bind! n := refresh_forced p n in update_if_needed timestep p (b, n)
        end
  end.

End check.

(** * Construction *)

Definition new_nlist (rsqrt : Scalar -> Scalar) (p : pdata) (r_buff : Scalar) : result nlist :=
  if lt_b r_buff 0 then Throw (runtime_error "Requested buffer radius is less than zero.")
  else
    let idx := Index2D.make_square (getNTypes p) in
    let table := replicate (Z.to_nat (Index2D.getNumElements idx)) 0%Q in
    let ntypes := Z.to_nat (getNTypes p) in
    let tags := m_rtag_size p in
    let maxn := m_max_nparticles p in
    Ok (mkNlist (mkCutoffs idx table table (replicate ntypes 0%Q) table [] 0 0 r_buff true)
      (mkExclusions (replicate (Z.to_nat tags) 0) (make_rows tags 1) (replicate (Z.to_nat maxn) 0) (make_rows maxn 1) false)
      (mkLists (replicate (Z.to_nat (u64 (4 * maxn))) 0) (replicate (Z.to_nat maxn) 0) (replicate (Z.to_nat maxn) 0) (replicate ntypes 4) (replicate ntypes 0))
      (mkTiming true true false 0 0 false 0 0 0 0 (replicate 100 0))
      false half (replicate (Z.to_nat maxn) BoxDim.zero3) (BoxDim.getNearestPlaneDistance rsqrt (m_global_box p)) false false [] Compute.make).
