(* ===== verification/NeighborListBinned.v ===== *)
(** The neighbour list built from cells ([hoomd/md/NeighborListBinned.h],
    [hoomd/md/NeighborListBinned.cc]). The local box is the global box, and the
    ghost layer of the cell list has no width. *)

From Stdlib Require Import ZArith Lia QArith String Bool.
From stdpp Require Import base list list_numbers strings.
From S2P Require Import Prelude HOOMDMath Index1D BoxDim ParticleData CellList NeighborList.
Local Open Scope Z_scope.
Local Open Scope hoomd_scope.

Record binned := mkBinned { m_cl : cell_list; m_update_cell_size : bool }.

Definition new_binned : binned :=
  mkBinned (setFlagIndex (setComputeTypeBody false (setComputeXYZF true (setRadius 1 new_cell_list)))) true.

(** The override of [notifyRCutMatrixChange]. *)
Definition notifyRCutMatrixChange_binned (s : binned * nlist) : binned * nlist :=
  (mkBinned (m_cl s.1) true, NeighborList.notifyRCutMatrixChange s.2).

Section build.
Variable rsqrt : Scalar -> Scalar.
Variable dimensions : Z.

(** What the loop over the neighbours of a particle changes: the number of
    neighbours, the list and the conditions. *)
Record progress := mkProgress { cur_n_neigh : Z; pr_nlist : list Z; pr_conditions : list Z }.

(** Add the neighbour, or record the size that is needed. *)
Definition store_neighbor (type_i Nmax_i head_idx_i cur_neigh : Z) (s : progress) : run progress :=
  if cur_n_neigh s <? Nmax_i then
    bind! l := write (pr_nlist s) (head_idx_i + cur_n_neigh s) cur_neigh in
    Ret (mkProgress (u32 (cur_n_neigh s + 1)) l (pr_conditions s))
  else
    bind! c := read (pr_conditions s) type_i in
    bind! c := write (pr_conditions s) type_i (Z.max c (u32 (cur_n_neigh s + 1))) in
    Ret (mkProgress (u32 (cur_n_neigh s + 1)) (pr_nlist s) c).

(** The particle [cur_neigh] is a neighbour of [i]. *)
Definition is_neighbor (p : pdata) (n : nlist) (i : Z) (e : pdata_element) (neigh_pos : Scalar3) (cur_neigh : Z) : run bool :=
  bind! e' := read (m_ptl p) cur_neigh in
  let k := Index2D.index (m_typpair_idx (nl_cut n)) (typ e) (typ e') in
  bind! r_cut := read (m_r_cut (nl_cut n)) k in
  if (i =? cur_neigh) || Qle_bool r_cut 0 then Ret false
  else if m_filter_body n && negb (body e =? NO_BODY) && (body e =? body e') then Ret false
  else
    match BoxDim.minImage (m_global_box p) (s3_sub (pos e) neigh_pos) with
    | None => OutOfBounds
    | Some dx =>
        let dr_sq := (s3x dx * s3x dx + s3y dx * s3y dx + s3z dx * s3z dx)%Q in
        bind! r_listsq := read (m_r_listsq (nl_cut n)) k in
        Ret (Qle_bool dr_sq r_listsq && match m_storage_mode n with full => true | half => i <? cur_neigh end)
    end.

(** The body of the innermost loop; the flag of an entry is its index. *)
Definition visit_entry (p : pdata) (n : nlist) (i : Z) (e : pdata_element) (Nmax_i head_idx_i : Z) (x : Scalar3 * cell_flag) (s : progress) : run progress :=
  match x.2 with
  | flag_index cur_neigh =>
      bind! b := is_neighbor p n i e x.1 cur_neigh in
      if b then store_neighbor (typ e) Nmax_i head_idx_i cur_neigh s else Ret s
  | _ => OutOfBounds
  end.

Definition visit_cell (p : pdata) (n : nlist) (c : store) (i : Z) (e : pdata_element) (Nmax_i head_idx_i : Z) (neigh_cell : Z) (s : progress) : run progress :=
  bind! size := read (m_cell_size c) neigh_cell in
  for_run (Z.to_nat size) 0 (fun cur_offset s =>
    bind! x := read (m_xyzf c) (Index2D.index (m_cell_list_indexer c) cur_offset neigh_cell) in
    visit_entry p n i e Nmax_i head_idx_i x s) s.

(** The cell of a particle as the build computes it. *)
Definition bin_of (box : BoxDim.t) (c : store) (e : pdata_element) : run Z :=
  let f := BoxDim.makeFraction rsqrt box (pos e) BoxDim.zero3 in
  let periodic := BoxDim.m_periodic box in
  let wrap_bin b d (per : bool) := if (b =? d) && per then 0 else b in
  bind! ib := to_uint (s3x f * inject_Z (ux (m_dim c))) in
  bind! jb := to_uint (s3y f * inject_Z (uy (m_dim c))) in
  bind! kb := to_uint (s3z f * inject_Z (uz (m_dim c))) in
  Ret (Index3D.index (m_cell_indexer c) (wrap_bin ib (ux (m_dim c)) (BoxDim.u3x periodic)) (wrap_bin jb (uy (m_dim c)) (BoxDim.u3y periodic))
         (wrap_bin kb (uz (m_dim c)) (BoxDim.u3z periodic))).

Definition build_particle (p : pdata) (n : nlist) (c : store) (adj : list Z) (i : Z) (s : lists) : run lists :=
  bind! e := read (m_ptl p) i in
  bind! Nmax_i := read (NeighborList.m_Nmax s) (typ e) in
  bind! head_idx_i := read (m_head_list s) i in
  bind! my_cell := bin_of (m_global_box p) c e in
  bind! r := for_run (Z.to_nat (Index2D.m_w (m_cell_adj_indexer c))) 0 (fun cur_adj r =>
    bind! neigh_cell := read adj (Index2D.index (m_cell_adj_indexer c) cur_adj my_cell) in
    visit_cell p n c i e Nmax_i head_idx_i neigh_cell r) (mkProgress 0 (NeighborList.m_nlist s) (NeighborList.m_conditions s)) in
  bind! c := write (m_n_neigh s) i (cur_n_neigh r) in
  Ret (mkLists (pr_nlist r) c (m_head_list s) (NeighborList.m_Nmax s) (pr_conditions r)).

(** [getMaxRCut] does not need [updateRList] here: [compute] has called it. *)
Definition buildNlist (timestep : Z) (p : pdata) (s : binned * nlist) : run (binned * nlist * result unit) :=
  let '(b, n) := s in
  let b := if m_update_cell_size b then mkBinned (setNominalWidth (m_rcut_max_max (nl_cut n) + m_r_buff (nl_cut n)) (m_cl b)) false else b in
  bind! (cl, r) := CellList.compute rsqrt dimensions timestep p (m_cl b) in
  let b := mkBinned cl (m_update_cell_size b) in
  match r with
  | Throw e => Ret (b, n, Throw e)
  | Ok _ =>
      match getCellAdjArray cl with
      | Throw e => Ret (b, n, Throw e)
      | Ok adj =>
          bind! l := for_run (Z.to_nat (getN p)) 0 (build_particle p n (cl_store cl) adj) (nl_lists n) in
          Ret (b, set_lists l n, Ok tt)
      end
  end.

End build.
