(* ===== verification/NeighborListProps.v ===== *)
(** The memory of the neighbour list: heads, capacities and overflow, what a build
    must leave there, and the filter of the excluded pairs. *)

From Stdlib Require Import ZArith Lia QArith String Bool.
From stdpp Require Import base list list_numbers strings.
From S2P Require Import Prelude HOOMDMath Index1D BoxDim ParticleData ParticleDataProps PotentialPairTables NeighborList.
Local Open Scope Z_scope.
Local Open Scope hoomd_scope.

(** * Rounding *)

Lemma land_minus4 n bits : 2 <= bits -> 0 <= n < 2 ^ bits -> Z.land n (2 ^ bits - 4) = 4 * (n / 4).
Proof.
  intros Hb H. replace (2 ^ bits - 4) with (Z.shiftl (Z.ones (bits - 2)) 2).
  2:{ rewrite Z.shiftl_mul_pow2, Z.ones_equiv by lia. replace (2 ^ bits) with (2 ^ (bits - 2) * 2 ^ 2) by (rewrite <- Z.pow_add_r by lia; f_equal; lia). lia. }
  replace (4 * (n / 4)) with (Z.shiftl (Z.shiftr n 2) 2) by (rewrite Z.shiftl_mul_pow2, Z.shiftr_div_pow2 by lia; change (2 ^ 2) with 4; lia).
  apply Z.bits_inj'. intros k Hk. rewrite Z.land_spec. destruct (Z.ltb_spec k 2).
  - rewrite !Z.shiftl_spec_low by lia. apply andb_false_r.
  - rewrite !Z.shiftl_spec, Z.shiftr_spec by lia. replace (k - 2 + 2) with k by lia. destruct (Z.ltb_spec k bits).
    + rewrite Z.ones_spec_low by lia. apply andb_true_r.
    + rewrite Z.ones_spec_high by lia. rewrite andb_false_r. symmetry. destruct (Z.eq_dec n 0) as [->|]; [apply Z.bits_0|].
      apply Z.bits_above_log2; [lia|]. apply Z.log2_lt_pow2; [lia|]. apply (Z.lt_le_trans _ (2 ^ bits)); [lia|]. apply Z.pow_le_mono_r; lia.
Qed.

Lemma round_up4_ge n : 0 <= n < 2 ^ 32 - 4 -> n <= round_up4 n < 2 ^ 32 /\ 4 <= round_up4 n < n + 5.
Proof.
  intros H. unfold round_up4. destruct (Z.gtb_spec n 4); [|lia]. rewrite u32_small by (unfold is_u32; lia). rewrite (land_minus4 _ 32) by lia.
  pose proof (Z.div_mod (n + 3) 4 ltac:(lia)). pose proof (Z.mod_pos_bound (n + 3) 4 ltac:(lia)). lia.
Qed.

Lemma round_up4_64_ge n : 0 <= n < 2 ^ 64 - 4 -> n <= round_up4_64 n.
Proof.
  intros H. unfold round_up4_64. destruct (Z.gtb_spec n 4); [|lia]. rewrite u64_small by (unfold is_u64; lia). rewrite (land_minus4 _ 64) by lia.
  pose proof (Z.div_mod (n + 3) 4 ltac:(lia)). pose proof (Z.mod_pos_bound (n + 3) 4 ltac:(lia)). lia.
Qed.

Lemma grow_nparticles_double n : 0 <= n -> grow_nparticles n <= 2 * n + 1.
Proof.
  intros Hn. unfold grow_nparticles. pose proof (round24_error n Hn) as [_ U1]. assert (0 <= round24 n) by (pose proof (round24_error n Hn); lia).
  pose proof (round24_error (9 * round24 n) ltac:(lia)) as [_ U2].
  assert (round24 (9 * round24 n) / 8 <= 2 * n); [|lia]. apply Z.div_le_upper_bound; lia.
Qed.

Lemma grow_loop_double fuel need n : 0 <= n -> grow_loop fuel need n <= Z.max n (2 * need).
Proof.
  revert n. induction fuel as [|fuel IH]; intros n Hn; simpl; [lia|]. destruct (Z.gtb_spec need n); [|lia].
  pose proof (grow_nparticles_gt n Hn). pose proof (grow_nparticles_double n Hn). specialize (IH (grow_nparticles n) ltac:(lia)). lia.
Qed.

(** The list grows to at least the requested size. *)
Lemma length_resizeNlist size l : 0 <= size < 2 ^ 62 -> size <= Z.of_nat (length (resizeNlist size l)) /\ Z.of_nat (length l) <= Z.of_nat (length (resizeNlist size l)).
Proof.
  intros H. unfold resizeNlist. destruct (Z.gtb_spec size (Z.of_nat (length l))); [|lia]. rewrite length_array_resize.
  set (c := if _ =? 0 then 1 else _). assert (C : 0 < c <= Z.max 1 size) by (unfold c; destruct (Z.eqb_spec (Z.of_nat (length l)) 0); lia).
  pose proof (grown_ge size c ltac:(lia)) as [G _]. pose proof (grow_loop_double (Z.to_nat size) size c ltac:(lia)) as D. fold (grown size c) in D.
  pose proof (round_up4_64_ge (grown size c) ltac:(lia)). lia.
Qed.

(** * Heads and capacities *)

Section memory.
Variable p : pdata.
Hypothesis Typed : particles_typed p.
Hypothesis N : 0 <= getN p.

(** The capacity of a particle and the offset of its row. *)
Definition cap (nmax : list Z) (i : Z) : Z := zget 0 nmax (typ (element i p)).
Definition offset (nmax : list Z) (k : Z) : Z := foldr (fun i s => cap nmax i + s) 0 (seqZ 0 k).

Lemma offset_0 nmax : offset nmax 0 = 0.
Proof. reflexivity. Qed.

Lemma offset_S nmax k : 0 <= k -> offset nmax (k + 1) = offset nmax k + cap nmax k.
Proof.
  intros Hk. assert (F : forall l a, foldr (fun i s => cap nmax i + s) a l = foldr (fun i s => cap nmax i + s) 0 l + a).
  { intros l a. induction l as [|x l IH]; simpl; [lia|]. rewrite IH. lia. }
  unfold offset. rewrite (seqZ_app 0 k 1) by lia. replace (seqZ (0 + k) 1) with [k] by (unfold seqZ; simpl; f_equal; lia). rewrite foldr_app, F. simpl. lia.
Qed.

(** The capacities are positive and below [C]. *)
Definition capacities (C : Z) (nmax : list Z) : Prop :=
  Z.of_nat (length nmax) = getNTypes p /\ Forall (fun m => 0 < m <= C) nmax.

Lemma typed_element i : 0 <= i < getN p -> m_ptl p !! Z.to_nat i = Some (element i p) /\ 0 <= typ (element i p) < getNTypes p.
Proof. intros Hi. destruct (Typed i Hi) as (e & He & T). unfold element. rewrite (zget_lookup _ _ _ _ He). auto. Qed.

Lemma cap_lookup C nmax i : capacities C nmax -> 0 <= i < getN p -> nmax !! Z.to_nat (typ (element i p)) = Some (cap nmax i) /\ 0 < cap nmax i <= C.
Proof.
  intros [L F] Hi. destruct (typed_element i Hi) as [_ T]. assert (E : nmax !! Z.to_nat (typ (element i p)) = Some (cap nmax i)) by (apply lookup_zget; lia).
  split; [exact E|]. rewrite Forall_forall in F. apply F. now apply list_elem_of_lookup_2 in E.
Qed.

Lemma offset_bounds C nmax k : capacities C nmax -> 0 <= k <= getN p -> 0 <= offset nmax k <= k * C.
Proof.
  intros K [Hk Hn]. revert Hn. pattern k. apply natlike_ind; [|clear k Hk|exact Hk]; [rewrite offset_0; lia|].
  intros k Hk IH Hn. replace (Z.succ k) with (k + 1) by lia. rewrite offset_S by lia. destruct (cap_lookup C nmax k K) as [_ B]; [lia|]. specialize (IH ltac:(lia)). lia.
Qed.

Lemma offset_mono C nmax j k : capacities C nmax -> 0 <= j <= k -> k <= getN p -> offset nmax j <= offset nmax k.
Proof.
  intros K [Hj Hk]. pattern k. apply Zlt_lower_bound_ind with (z := j); [|exact Hk]. clear k Hk. intros k IH Hk Hn.
  destruct (Z.eq_dec j k) as [->|]; [lia|]. replace k with (k - 1 + 1) by lia. rewrite offset_S by lia. specialize (IH (k - 1) ltac:(lia) ltac:(lia)).
  destruct (cap_lookup C nmax (k - 1) K) as [_ B]; [lia|]. lia.
Qed.

(** The rows do not overlap. *)
Lemma offset_next C nmax i j : capacities C nmax -> 0 <= i < j -> j <= getN p -> offset nmax i + cap nmax i <= offset nmax j.
Proof. intros K Hi Hj. rewrite <- offset_S by lia. apply (offset_mono C); [assumption|lia|lia]. Qed.

(** ** The state between builds *)

Record lists_ok (C : Z) (s : lists) : Prop := {
  lo_nmax : capacities C (m_Nmax s);
  lo_conditions : Z.of_nat (length (m_conditions s)) = getNTypes p;
  lo_n_neigh : getN p <= Z.of_nat (length (m_n_neigh s));
  lo_heads_len : getN p <= Z.of_nat (length (m_head_list s));
  lo_heads : forall i, 0 <= i < getN p -> m_head_list s !! Z.to_nat i = Some (offset (m_Nmax s) i);
  lo_room : offset (m_Nmax s) (getN p) <= Z.of_nat (length (m_nlist s))
}.

(** No capacity is requested that is not there. *)
Definition satisfied (s : lists) : Prop := forall t c m, m_conditions s !! t = Some c -> m_Nmax s !! t = Some m -> 0 <= c <= m.

Lemma buildHeadList_spec C s : capacities C (m_Nmax s) -> 0 <= C -> getN p * C < 2 ^ 62 -> Z.of_nat (length (m_conditions s)) = getNTypes p ->
  getN p <= Z.of_nat (length (m_n_neigh s)) -> getN p <= Z.of_nat (length (m_head_list s)) ->
  exists s', buildHeadList p s = Ret s' /\ lists_ok C s' /\ m_Nmax s' = m_Nmax s /\ m_conditions s' = m_conditions s /\ m_n_neigh s' = m_n_neigh s.
Proof.
  intros K HC Big Lc Ln Lh. unfold buildHeadList.
  match goal with |- context [for_run _ _ ?f _] => set (body := f) end.
  destruct (for_run_inv (fun i '(a, h) => a = offset (m_Nmax s) i /\ length h = length (m_head_list s) /\
    forall j, 0 <= j < i -> h !! Z.to_nat j = Some (offset (m_Nmax s) j)) (Z.to_nat (getN p)) 0 body (0, m_head_list s)) as ([a h] & E & -> & Lh' & Hh).
  { split; [reflexivity|]. split; [reflexivity|]. lia. }
  { intros i [a h] Hi (-> & Lh' & Hh). unfold body. rewrite write_in by lia. simpl. destruct (typed_element i ltac:(lia)) as [He _]. rewrite (read_Some _ _ _ He). simpl.
    destruct (cap_lookup C _ i K ltac:(lia)) as [Hc Bc]. rewrite (read_Some _ _ _ Hc). simpl. eexists. split; [reflexivity|].
    pose proof (offset_bounds C _ (i + 1) K ltac:(lia)) as B. rewrite offset_S in B by lia. rewrite u64_small by (unfold is_u64; nia).
    split; [now rewrite offset_S by lia|]. split; [now rewrite length_zset|]. intros j Hj. destruct (Z.eq_dec j i) as [->|].
    - apply lookup_zset_eq. lia.
    - rewrite lookup_zset_ne by lia. apply Hh. lia. }
  rewrite E. simpl. eexists. split; [reflexivity|]. rewrite Z2Nat.id in * by lia. pose proof (offset_bounds C _ (getN p) K ltac:(lia)) as B.
  destruct (length_resizeNlist (offset (m_Nmax s) (getN p)) (m_nlist s)) as [R _]; [nia|]. repeat split; simpl; try assumption; try apply K; lia.
Qed.

(** ** Builds *)

(** What a build leaves: the counts and, as far as the capacities reach, the rows;
    the needed size of a type that overflowed. *)
Record built (cand : Z -> list Z) (s s' : lists) : Prop := {
  bt_heads : m_head_list s' = m_head_list s;
  bt_nmax : m_Nmax s' = m_Nmax s;
  bt_len_nlist : length (m_nlist s') = length (m_nlist s);
  bt_len_neigh : length (m_n_neigh s') = length (m_n_neigh s);
  bt_len_cond : length (m_conditions s') = length (m_conditions s);
  bt_count : forall i, 0 <= i < getN p -> m_n_neigh s' !! Z.to_nat i = Some (Z.of_nat (length (cand i)));
  bt_row : forall i k x, 0 <= i < getN p -> cand i !! k = Some x -> Z.of_nat k < cap (m_Nmax s) i -> m_nlist s' !! (Z.to_nat (offset (m_Nmax s) i) + k)%nat = Some x;
  bt_cond : forall t c', m_conditions s' !! t = Some c' -> m_conditions s !! t = Some c' \/
    exists i, 0 <= i < getN p /\ t = Z.to_nat (typ (element i p)) /\ c' = Z.of_nat (length (cand i)) /\ cap (m_Nmax s) i < c';
  bt_over : forall i, 0 <= i < getN p -> cap (m_Nmax s) i < Z.of_nat (length (cand i)) ->
    exists c', m_conditions s' !! Z.to_nat (typ (element i p)) = Some c' /\ Z.of_nat (length (cand i)) <= c'
}.

(** The rows hold the candidates. *)
Record holds (cand : Z -> list Z) (s : lists) : Prop := {
  hd_count : forall i, 0 <= i < getN p -> m_n_neigh s !! Z.to_nat i = Some (Z.of_nat (length (cand i)));
  hd_fits : forall i, 0 <= i < getN p -> Z.of_nat (length (cand i)) <= cap (m_Nmax s) i;
  hd_row : forall i k x, 0 <= i < getN p -> cand i !! k = Some x -> m_nlist s !! (Z.to_nat (offset (m_Nmax s) i) + k)%nat = Some x
}.

Lemma built_ok C cand s s' : built cand s s' -> lists_ok C s -> lists_ok C s'.
Proof. intros [] []. constructor; rewrite ?bt_heads0, ?bt_nmax0, ?bt_len_nlist0, ?bt_len_neigh0, ?bt_len_cond0; assumption. Qed.

Lemma built_holds C cand s s' : built cand s s' -> lists_ok C s' -> satisfied s' -> holds cand s'.
Proof.
  intros K O Sat. assert (F : forall i, 0 <= i < getN p -> Z.of_nat (length (cand i)) <= cap (m_Nmax s') i).
  { intros i Hi. rewrite (bt_nmax _ _ _ K). destruct (Z.le_gt_cases (Z.of_nat (length (cand i))) (cap (m_Nmax s) i)) as [|G]; [assumption|exfalso].
    destruct (bt_over _ _ _ K i Hi G) as (c & Hc & Lc). destruct (cap_lookup C _ i (lo_nmax _ _ O) Hi) as [Hm _]. pose proof (Sat _ _ _ Hc Hm) as S.
    rewrite (bt_nmax _ _ _ K) in S. lia. }
  constructor; [apply (bt_count _ _ _ K)|exact F|]. intros i k x Hi Hx. rewrite (bt_nmax _ _ _ K). apply (bt_row _ _ _ K); [assumption..|].
  pose proof (F i Hi) as Fi. rewrite (bt_nmax _ _ _ K) in Fi. apply lookup_lt_Some in Hx. lia.
Qed.

(** The capacity after the conditions were checked. *)
Definition new_cap (c m : Z) : Z := if c >? m then round_up4 c else m.

Lemma checkConditions_spec s : Z.of_nat (length (m_conditions s)) = getNTypes p -> Z.of_nat (length (m_Nmax s)) = getNTypes p ->
  exists nmax r, checkConditions p s = Ret (mkLists (m_nlist s) (m_n_neigh s) (m_head_list s) nmax (m_conditions s), r) /\
    length nmax = length (m_Nmax s) /\ (forall t c m, m_conditions s !! t = Some c -> m_Nmax s !! t = Some m -> nmax !! t = Some (new_cap c m)) /\
    (r = false -> nmax = m_Nmax s /\ forall t c m, m_conditions s !! t = Some c -> m_Nmax s !! t = Some m -> c <= m) /\
    (r = true -> exists t c m, m_conditions s !! t = Some c /\ m_Nmax s !! t = Some m /\ m < c).
Proof.
  intros Lc Lm. unfold checkConditions. match goal with |- context [for_run _ _ ?f _] => set (body := f) end.
  destruct (for_run_inv (fun i '(r, nmax) => length nmax = length (m_Nmax s) /\
    (forall t c m, m_conditions s !! t = Some c -> m_Nmax s !! t = Some m -> nmax !! t = Some (if Z.of_nat t <? i then new_cap c m else m)) /\
    (r = false -> nmax = m_Nmax s /\ forall t c m, Z.of_nat t < i -> m_conditions s !! t = Some c -> m_Nmax s !! t = Some m -> c <= m) /\
    (r = true -> exists t c m, m_conditions s !! t = Some c /\ m_Nmax s !! t = Some m /\ m < c))
    (Z.to_nat (getNTypes p)) 0 body (false, m_Nmax s)) as ([r nmax] & E & Ln & V & R & Rt).
  - split; [reflexivity|]. split; [|split; [split; [reflexivity|lia]|discriminate]]. intros t c m _ Hm. destruct (Z.ltb_spec (Z.of_nat t) 0); [lia|exact Hm].
  - intros i [r nmax] Hi (Ln & V & R & Rt). unfold body.
    destruct (lookup_lt_is_Some_2 (m_conditions s) (Z.to_nat i) ltac:(lia)) as [c Hc]. destruct (lookup_lt_is_Some_2 (m_Nmax s) (Z.to_nat i) ltac:(lia)) as [m Hm].
    rewrite (read_Some _ _ _ Hc). simpl. pose proof (V _ _ _ Hc Hm) as Vi. destruct (Z.ltb_spec (Z.of_nat (Z.to_nat i)) i) as [|_]; [lia|]. rewrite (read_Some _ _ _ Vi). simpl.
    assert (New : forall nmax', length nmax' = length (m_Nmax s) -> nmax' !! Z.to_nat i = Some (new_cap c m) -> (forall t, t <> Z.to_nat i -> nmax' !! t = nmax !! t) ->
      forall t c m, m_conditions s !! t = Some c -> m_Nmax s !! t = Some m -> nmax' !! t = Some (if Z.of_nat t <? i + 1 then new_cap c m else m)).
    { intros nmax' _ Ni Nj t c' m' Hc' Hm'. destruct (decide (t = Z.to_nat i)) as [->|D].
      - rewrite Hc in Hc'. rewrite Hm in Hm'. simplify_eq. destruct (Z.ltb_spec (Z.of_nat (Z.to_nat i)) (i + 1)); [exact Ni|lia].
      - rewrite Nj by assumption. rewrite (V t c' m' Hc' Hm'). destruct (Z.ltb_spec (Z.of_nat t) i), (Z.ltb_spec (Z.of_nat t) (i + 1)); try reflexivity; lia. }
    destruct (Z.gtb_spec c m) as [G|G].
    + rewrite write_in by lia. simpl. eexists. split; [reflexivity|]. split; [now rewrite length_zset|]. split; [|split; [discriminate|intros _; exists (Z.to_nat i), c, m; auto]].
      apply New; [now rewrite length_zset| |]. { rewrite lookup_zset_eq by lia. unfold new_cap. destruct (Z.gtb_spec c m); [reflexivity|lia]. }
      intros t D. apply lookup_zset_ne. congruence.
    + eexists. split; [reflexivity|]. split; [exact Ln|]. split.
      * apply New; [exact Ln| |reflexivity]. rewrite Vi. unfold new_cap. destruct (Z.gtb_spec c m); [lia|reflexivity].
      * split; [|exact Rt]. intros Hr. destruct (R Hr) as [-> R']. split; [reflexivity|]. intros t c' m' Ht Hc' Hm'. destruct (decide (t = Z.to_nat i)) as [->|]; [|apply (R' t); [lia|assumption..]].
        rewrite Hc in Hc'. rewrite Hm in Hm'. simplify_eq. lia.
  - rewrite E. simpl. exists nmax, r. split; [reflexivity|]. split; [exact Ln|]. split.
    + intros t c m Hc Hm. rewrite (V t c m Hc Hm). destruct (Z.ltb_spec (Z.of_nat t) (0 + Z.of_nat (Z.to_nat (getNTypes p)))); [reflexivity|]. apply lookup_lt_Some in Hc. lia.
    + split; [|exact Rt]. intros Hr. destruct (R Hr) as [-> R']. split; [reflexivity|]. intros t c m Hc. apply R'; [|assumption]. apply lookup_lt_Some in Hc. lia.
Qed.

End memory.

(** * The interface of a derived class *)

(** A [buildNlist] that at the time step [t], whenever the state of the derived
    class is [ready], puts the candidates of every particle into the rows. *)
Class Builder {B : Type} (build : Z -> pdata -> B * nlist -> run (B * nlist * result unit)) (p : pdata) (t C : Z)
  (ready : B -> nlist -> Prop) (cand : nlist -> Z -> list Z) : Prop := {
  bd_frame : forall b n l, ready b n -> ready b (set_lists l n);
  bd_cand : forall n l i, cand (set_lists l n) i = cand n i;
  bd_small : forall b n i, ready b n -> 0 <= i < getN p -> Z.of_nat (length (cand n i)) + 4 <= C;
  bd_build : forall b n, ready b n -> lists_ok p C (nl_lists n) ->
    exists b' s, build t p (b, n) = Ret (b', set_lists s n, Ok tt) /\ ready b' n /\ built p (cand n) (nl_lists n) s
}.

Section loop.
Variable p : pdata.
Hypothesis Typed : particles_typed p.
Hypothesis N : 0 <= getN p.
Context {B : Type} (build : Z -> pdata -> B * nlist -> run (B * nlist * result unit)) (timestep C : Z) (ready : B -> nlist -> Prop) (cand : nlist -> Z -> list Z).
Context `{Bd : !Builder build p timestep C ready cand}.
Hypothesis HC : 0 < C < 2 ^ 32 - 4.
Hypothesis Big : getN p * C < 2 ^ 62.

Lemma set_lists_id n : set_lists (nl_lists n) n = n.
Proof. now destruct n. Qed.

Lemma enlarged_capacities b n s nmax : ready b n -> built p (cand n) (nl_lists n) s -> lists_ok p C (nl_lists n) -> satisfied (nl_lists n) ->
  length nmax = length (m_Nmax s) -> (forall t c m, m_conditions s !! t = Some c -> m_Nmax s !! t = Some m -> nmax !! t = Some (new_cap c m)) ->
  capacities p C nmax /\ forall i, 0 <= i < getN p -> Z.of_nat (length (cand n i)) <= cap p nmax i.
Proof.
  intros R K O Sat Ln V. pose proof (built_ok p C _ _ _ K O) as O'. destruct (lo_nmax _ _ _ O') as [Lm Fm]. pose proof (lo_conditions _ _ _ O') as Lc.
  assert (Cond : forall t c, m_conditions s !! t = Some c -> 0 <= c /\ forall m, m_Nmax s !! t = Some m -> m < c -> c + 4 <= C).
  { intros t c Hc. destruct (bt_cond _ _ _ _ K t c Hc) as [Hc0|(i & Hi & -> & -> & G)].
    - destruct (lookup_lt_is_Some_2 (m_Nmax (nl_lists n)) t) as [m Hm]; [rewrite <- (bt_nmax _ _ _ _ K); apply lookup_lt_Some in Hc; lia|].
      pose proof (Sat _ _ _ Hc0 Hm). split; [lia|]. intros m' Hm'. rewrite (bt_nmax _ _ _ _ K) in Hm'. simplify_eq. lia.
    - split; [lia|]. intros m Hm Hl. apply (bd_small b n i R Hi). }
  split.
  - split; [lia|]. apply Forall_lookup_2. intros t x Hx. destruct (lookup_lt_is_Some_2 (m_conditions s) t) as [c Hc]; [apply lookup_lt_Some in Hx; lia|].
    destruct (lookup_lt_is_Some_2 (m_Nmax s) t) as [m Hm]; [apply lookup_lt_Some in Hx; lia|]. rewrite (V _ _ _ Hc Hm) in Hx. injection Hx as <-.
    destruct (Cond t c Hc) as [C0 C1]. rewrite Forall_lookup in Fm. pose proof (Fm _ _ Hm). unfold new_cap. destruct (Z.gtb_spec c m); [|lia].
    specialize (C1 m Hm ltac:(lia)). pose proof (round_up4_ge c ltac:(lia)). lia.
  - intros i Hi. destruct (cap_lookup p Typed C _ i (lo_nmax _ _ _ O') Hi) as [Hm Bm]. destruct (typed_element p Typed i Hi) as [_ T].
    destruct (lookup_lt_is_Some_2 (m_conditions s) (Z.to_nat (typ (element i p)))) as [c Hc]; [lia|]. pose proof (V _ _ _ Hc Hm) as Hx.
    unfold cap. rewrite (zget_lookup _ _ _ _ Hx). unfold new_cap. destruct (Cond _ c Hc) as [C0 C1]. rewrite (bt_nmax _ _ _ _ K) in *.
    destruct (Z.le_gt_cases (Z.of_nat (length (cand n i))) (cap p (m_Nmax (nl_lists n)) i)) as [F|F].
    + destruct (Z.gtb_spec c (cap p (m_Nmax (nl_lists n)) i)); [|exact F]. specialize (C1 _ Hm ltac:(lia)). pose proof (round_up4_ge c ltac:(lia)). lia.
    + destruct (bt_over _ _ _ _ K i Hi F) as (c' & Hc' & Lc'). rewrite Hc in Hc'. injection Hc' as <-. destruct (Z.gtb_spec c (cap p (m_Nmax (nl_lists n)) i)); [|lia].
      specialize (C1 _ Hm ltac:(lia)). pose proof (round_up4_ge c ltac:(lia)). lia.
Qed.

(** The rows of the second pass are long enough. *)
Lemma last_pass fuel b n : ready b n -> lists_ok p C (nl_lists n) -> satisfied (nl_lists n) ->
  (forall i, 0 <= i < getN p -> Z.of_nat (length (cand n i)) <= cap p (m_Nmax (nl_lists n)) i) ->
  exists b' s, build_loop B build (S fuel) timestep p (b, n) = Ret (b', set_lists s n, Ok tt) /\ ready b' n /\ lists_ok p C s /\ satisfied s /\ holds p (cand n) s.
Proof.
  intros R O Sat F. destruct (bd_build b n R O) as (b' & s & E & R' & K). cbn [build_loop]. rewrite E. simpl. pose proof (built_ok p C _ _ _ K O) as O'.
  assert (Sat' : satisfied s).
  { intros x c m Hc Hm. rewrite (bt_nmax _ _ _ _ K) in Hm. destruct (bt_cond _ _ _ _ K x c Hc) as [H|(i & Hi & -> & -> & G)]; [now apply (Sat x)|]. specialize (F i Hi). lia. }
  destruct (checkConditions_spec p s) as (nmax & r & Ec & Ln & V & Z0 & Z1); [apply O'|apply O'|]. rewrite Ec. simpl. destruct r.
  - exfalso. destruct (Z1 eq_refl) as (x & c & m & Hc & Hm & G). pose proof (Sat' _ _ _ Hc Hm). lia.
  - destruct (Z0 eq_refl) as [-> _]. exists b', s. split; [now destruct s|]. split; [exact R'|]. split; [exact O'|]. split; [exact Sat'|]. now apply (built_holds p Typed C _ (nl_lists n)).
Qed.

(** Two passes are enough. *)
Lemma build_loop_spec b n : ready b n -> lists_ok p C (nl_lists n) -> satisfied (nl_lists n) ->
  exists b' s, build_loop B build 2 timestep p (b, n) = Ret (b', set_lists s n, Ok tt) /\ ready b' n /\ lists_ok p C s /\ satisfied s /\ holds p (cand n) s.
Proof.
  intros R O Sat. destruct (bd_build b n R O) as (b' & s & E & R' & K). pose proof (built_ok p C _ _ _ K O) as O'.
  destruct (checkConditions_spec p s) as (nmax & r & Ec & Ln & V & Z0 & _); [apply O'|apply O'|].
  remember 1%nat as one. cbn [build_loop]. rewrite E. cbn [run_bind]. change (nl_lists (set_lists s n)) with s. rewrite Ec. cbn [run_bind]. destruct r.
  - destruct (enlarged_capacities b n s nmax R K O Sat Ln V) as [Cn Fn]. set (s1 := mkLists _ _ _ nmax _).
    destruct (buildHeadList_spec p Typed N C s1 Cn ltac:(lia) Big) as (s2 & E2 & O2 & N2 & C2 & L2); [apply O'|apply O'|apply O'|]. rewrite E2. cbn [run_bind].
    set (s3 := resetConditions p s2). change (set_lists s3 (set_lists s n)) with (set_lists s3 n). pose proof (lo_conditions _ _ _ O2) as Lc2.
    assert (D : drop (Z.to_nat (getNTypes p)) (m_conditions s2) = []) by (apply drop_ge; lia).
    assert (O3 : lists_ok p C s3) by (destruct O2; constructor; simpl; try assumption; rewrite D, app_nil_r, length_replicate; lia).
    assert (S3 : satisfied s3).
    { intros x c m Hc Hm. simpl in Hc. rewrite D, app_nil_r in Hc. apply lookup_replicate in Hc as [-> _]. destruct (lo_nmax _ _ _ O3) as [_ F]. rewrite Forall_lookup in F. specialize (F _ _ Hm). lia. }
    subst one. destruct (last_pass 0 b' (set_lists s3 n)) as (b2 & s4 & E4 & R4 & O4 & S4 & H4).
    + now apply bd_frame.
    + exact O3.
    + exact S3.
    + intros i Hi. rewrite bd_cand. change (m_Nmax (nl_lists (set_lists s3 n))) with (m_Nmax s2). rewrite N2. now apply Fn.
    + exists b2, s4. split; [exact E4|]. split; [|split; [exact O4|split; [exact S4|]]].
      * apply (bd_frame _ _ (nl_lists n)) in R4. change (set_lists (nl_lists n) (set_lists s3 n)) with (set_lists (nl_lists n) n) in R4. now rewrite set_lists_id in R4.
      * destruct H4 as [H1 H2 H3]. constructor; intros i; intros; [rewrite H1 by assumption|pose proof (H2 i)|]; rewrite ?bd_cand in *; auto. apply (H3 i k x); [assumption|]. now rewrite bd_cand.
  - destruct (Z0 eq_refl) as [-> Le]. exists b', s. split; [now destruct s|]. split; [exact R'|]. split; [exact O'|].
    assert (Sat' : satisfied s).
    { intros x c m Hc Hm. split; [|now apply (Le x)]. destruct (bt_cond _ _ _ _ K x c Hc) as [H|(i & Hi & -> & -> & G)]; [|lia]. rewrite (bt_nmax _ _ _ _ K) in Hm. now apply (Sat x c m). }
    split; [exact Sat'|]. now apply (built_holds p Typed C _ (nl_lists n)).
Qed.

End loop.
