(* ===== verification/NeighborListCutoffs.v ===== *)
(** The cutoffs of the neighbour list: [updateRList] computes from the cutoffs of
    the consumers the radii that the build and the distance check rely on. *)

From Stdlib Require Import ZArith Lia QArith Lqa String Bool.
From stdpp Require Import base list list_numbers strings.
From S2P Require Import Prelude HOOMDMath Index1D BoxDim ParticleData PotentialPairTables NeighborList.
Local Open Scope Z_scope.
Local Open Scope hoomd_scope.

(** * Comparisons *)

Lemma lt_b_cases (a b : Scalar) : BoolSpec (a < b)%Q (b <= a)%Q (lt_b a b).
Proof.
  unfold lt_b. destruct (Qle_bool b a) eqn:E; simpl; constructor; [now apply Qle_bool_iff|].
  apply Qnot_le_lt. intros L. apply Qle_bool_iff in L. congruence.
Qed.

Lemma max_b_spec a b : (a <= max_b a b)%Q /\ (b <= max_b a b)%Q /\ (max_b a b = a \/ max_b a b = b).
Proof. unfold max_b. destruct (lt_b_cases a b); repeat split; auto; lra. Qed.

(** The largest value of a nonempty list of cutoffs, as the loops compute it. *)
Fixpoint max_of (x : Scalar) (l : list Scalar) : Scalar := match l with [] => x | y :: l => max_of (max_b x y) l end.

Lemma max_of_ge l : forall x, (x <= max_of x l)%Q /\ Forall (fun y => (y <= max_of x l)%Q) l.
Proof.
  induction l as [|y l IH]; intros x; simpl; [split; [lra|constructor]|]. destruct (IH (max_b x y)) as [I1 I2]. destruct (max_b_spec x y) as (M1 & M2 & _).
  split; [lra|]. constructor; [lra|exact I2].
Qed.

Lemma max_of_In l : forall x, max_of x l = x \/ max_of x l ∈ l.
Proof.
  induction l as [|y l IH]; intros x; simpl; [auto|]. destruct (IH (max_b x y)) as [->|I]; [|right; now right].
  destruct (max_b_spec x y) as (_ & _ & [->| ->]); [auto|right; left].
Qed.

Section cutoffs.
Variable p : pdata.
Definition n_types : Z := getNTypes p.
Hypothesis N : 0 < n_types < 2 ^ 16.

Abbreviation at_pair := (entry n_types).

(** The value of a table at a pair of types. *)
Definition value (l : list Scalar) (i j : Z) : Scalar := zget 0%Q l (type_index n_types i j).

Lemma value_lookup (l : list Scalar) i j : sized n_types l -> 0 <= i < n_types -> 0 <= j < n_types -> l !! Z.to_nat (type_index n_types i j) = Some (value l i j).
Proof. intros S Hi Hj. pose proof (type_index_range n_types N i j Hi Hj). unfold sized in S. apply lookup_zget. lia. Qed.

Lemma value_zset (l : list Scalar) i j x a b : sized n_types l -> 0 <= i < n_types -> 0 <= j < n_types -> 0 <= a < n_types -> 0 <= b < n_types ->
  value (zset l (type_index n_types i j) x) a b = if (a =? i) && (b =? j) then x else value l a b.
Proof.
  intros S Hi Hj Ha Hb. pose proof (entry_zset n_types N l i j x a b S Hi Hj Ha Hb) as E. unfold entry in E.
  assert (S' : sized n_types (zset l (type_index n_types i j) x)) by (unfold sized; now rewrite length_zset).
  rewrite (value_lookup _ a b S' Ha Hb), (value_lookup l a b S Ha Hb) in E. destruct (_ && _); congruence.
Qed.

Lemma read_value (l : list Scalar) i j : sized n_types l -> 0 <= i < n_types -> 0 <= j < n_types -> read l (Index2D.index (Index2D.make_square n_types) i j) = Ret (value l i j).
Proof. intros S Hi Hj. apply read_Some. now apply value_lookup. Qed.

Lemma write_value (l : list Scalar) i j x : sized n_types l -> 0 <= i < n_types -> 0 <= j < n_types ->
  write l (Index2D.index (Index2D.make_square n_types) i j) x = Ret (zset l (type_index n_types i j) x) /\ sized n_types (zset l (type_index n_types i j) x).
Proof. intros S Hi Hj. pose proof (type_index_range n_types N i j Hi Hj) as R. split; [apply write_in; unfold sized in S; fold (type_index n_types i j); lia|unfold sized; now rewrite length_zset]. Qed.

(** ** The maximum with a consumer *)

Lemma max_matrix_spec (m r : list Scalar) : sized n_types m -> sized n_types r -> exists r', max_matrix n_types (Index2D.make_square n_types) m r = Ret r' /\ sized n_types r' /\
  forall a b, 0 <= a < n_types -> 0 <= b < n_types -> value r' a b = max_b (value r a b) (value m a b).
Proof.
  intros Sm Sr. unfold max_matrix. match goal with |- context [for_run _ _ ?f _] => set (body := f) end.
  destruct (for_run_inv (fun i r' => sized n_types r' /\ forall a b, 0 <= a < n_types -> 0 <= b < n_types -> value r' a b = if a <? i then max_b (value r a b) (value m a b) else value r a b)
    (Z.to_nat n_types) 0 body r) as (r' & -> & S' & V').
  - split; [exact Sr|]. intros a b Ha _. destruct (Z.ltb_spec a 0); [lia|reflexivity].
  - intros i r1 Hi [S1 V1].
    unfold body. match goal with |- context [for_run _ _ ?f _] => set (row := f) end.
    destruct (for_run_inv (fun j r' => sized n_types r' /\ forall a b, 0 <= a < n_types -> 0 <= b < n_types ->
      value r' a b = if (a <? i) || ((a =? i) && (b <? j)) then max_b (value r a b) (value m a b) else value r a b) (Z.to_nat n_types) 0 row r1) as (r2 & E2 & S2 & V2).
    + split; [exact S1|]. intros a b Ha Hb. rewrite V1 by assumption. destruct (Z.ltb_spec b 0); [lia|]. now rewrite andb_false_r, orb_false_r.
    + intros j r2 Hj [S2 V2]. unfold row. rewrite (read_value r2 i j), (read_value m i j) by (assumption || lia). cbn [run_bind].
      destruct (write_value r2 i j (max_b (value r2 i j) (value m i j)) S2) as [-> S3]; [lia..|]. eexists. split; [reflexivity|]. split; [exact S3|].
      intros a b Ha Hb. rewrite value_zset by (assumption || lia). rewrite !V2 by (assumption || lia). destruct (Z.eqb_spec a i) as [->|], (Z.eqb_spec b j) as [->|]; simpl;
        rewrite ?Z.eqb_refl; simpl; try (destruct (Z.ltb_spec i i); [lia|]); simpl; rewrite ?orb_false_r; try reflexivity.
      * destruct (Z.ltb_spec j j); [lia|]. simpl. destruct (Z.ltb_spec j (j + 1)); [reflexivity|lia].
      * destruct (Z.ltb_spec b j), (Z.ltb_spec b (j + 1)); try reflexivity; lia.
    + exists r2. split; [exact E2|]. split; [exact S2|]. intros a b Ha Hb. rewrite V2 by assumption. rewrite Z2Nat.id by lia.
      destruct (Z.ltb_spec b (0 + n_types)); [|lia]. rewrite andb_true_r. destruct (Z.ltb_spec a i), (Z.eqb_spec a i), (Z.ltb_spec a (i + 1)); simpl; try reflexivity; lia.
  - exists r'. split; [reflexivity|]. split; [exact S'|]. intros a b Ha Hb. rewrite V' by assumption. rewrite Z2Nat.id by lia. destruct (Z.ltb_spec a (0 + n_types)); [reflexivity|lia].
Qed.

Lemma max_consumers_spec (ms : list (list Scalar)) (r : list Scalar) : Forall (sized n_types) ms -> sized n_types r ->
  exists r', max_consumers n_types (Index2D.make_square n_types) ms r = Ret (r', Ok tt) /\ sized n_types r' /\
  forall a b, 0 <= a < n_types -> 0 <= b < n_types -> value r' a b = max_of (value r a b) ((fun m => value m a b) <$> ms).
Proof.
  intros F. revert r. induction F as [|m ms Sm F IH]; intros r Sr; simpl; [eauto|].
  assert (L : Nat.eqb (length m) (length r) = true) by (apply Nat.eqb_eq; unfold sized in *; lia). rewrite L. simpl.
  destruct (max_matrix_spec m r Sm Sr) as (r1 & -> & S1 & V1). simpl. destruct (IH r1 S1) as (r2 & E2 & S2 & V2). exists r2. split; [exact E2|]. split; [exact S2|].
  intros a b Ha Hb. now rewrite V2, V1 by assumption.
Qed.

(** ** The radii *)

Definition list_radius (r_buff r_cut : Scalar) : Scalar := if lt_b 0 r_cut then (r_cut + r_buff)%Q else 0%Q.

(** The row of cutoffs of a type. *)
Definition cut_row (r_cut : list Scalar) (i : Z) : list Scalar := value r_cut i <$> seqZ 0 n_types.

Lemma max_of_snoc l x y : max_of x (l ++ [y]) = max_b (max_of x l) y.
Proof. revert x. induction l as [|z l IH]; intros x; simpl; [reflexivity|apply IH]. Qed.

Lemma seqZ_snoc k : 0 <= k -> seqZ 0 (k + 1) = seqZ 0 k ++ [k].
Proof. intros H. rewrite (seqZ_app 0 k 1) by lia. f_equal. Qed.

Lemma list_row_spec r_buff (r l : list Scalar) i : sized n_types r -> sized n_types l -> 0 <= i < n_types ->
  exists l', list_row n_types (Index2D.make_square n_types) r_buff r i l = Ret (max_of 0%Q (cut_row r i), l') /\ sized n_types l' /\
    forall a b, 0 <= a < n_types -> 0 <= b < n_types ->
      value l' a b = if a =? i then (list_radius r_buff (value r a b) * list_radius r_buff (value r a b))%Q else value l a b.
Proof.
  intros Sr Sl Hi. unfold list_row. match goal with |- context [for_run _ _ ?f _] => set (body := f) end.
  destruct (for_run_inv (fun j '(m, l') => m = max_of 0%Q (value r i <$> seqZ 0 j) /\ sized n_types l' /\ forall a b, 0 <= a < n_types -> 0 <= b < n_types ->
      value l' a b = if (a =? i) && (b <? j) then (list_radius r_buff (value r a b) * list_radius r_buff (value r a b))%Q else value l a b)
    (Z.to_nat n_types) 0 body (0%Q, l)) as ([m l'] & -> & -> & S' & V').
  - split; [reflexivity|]. split; [exact Sl|]. intros a b _ Hb. destruct (Z.ltb_spec b 0); [lia|]. now rewrite andb_false_r.
  - intros j [m l'] Hj (-> & S' & V'). unfold body. rewrite (read_value r i j) by (assumption || lia). cbn [run_bind].
    destruct (write_value l' i j (list_radius r_buff (value r i j) * list_radius r_buff (value r i j))%Q S') as [E S2]; [lia..|]. unfold list_radius in E at 1 2. rewrite E. cbn [run_bind].
    eexists. split; [reflexivity|]. split; [rewrite seqZ_snoc by lia; rewrite fmap_app; simpl; rewrite max_of_snoc; unfold max_b; now destruct (lt_b _ _)|]. split; [exact S2|].
    intros a b Ha Hb. rewrite value_zset by (assumption || lia). rewrite V' by assumption. destruct (Z.eqb_spec a i) as [->|]; simpl; [|reflexivity].
    destruct (Z.eqb_spec b j) as [->|]; [destruct (Z.ltb_spec j (j + 1)); [reflexivity|lia]|]. destruct (Z.ltb_spec b j), (Z.ltb_spec b (j + 1)); try reflexivity; lia.
  - rewrite Z.add_0_l, Z2Nat.id in * by lia. exists l'. split; [reflexivity|]. split; [exact S'|]. intros a b Ha Hb. rewrite V' by assumption.
    destruct (Z.ltb_spec b n_types); [now rewrite andb_true_r|lia].
Qed.

Lemma list_rows_spec r_buff (r l mx : list Scalar) : sized n_types r -> sized n_types l -> Z.of_nat (length mx) = n_types ->
  exists l' mx', list_rows n_types (Index2D.make_square n_types) r_buff r l mx =
      Ret (max_of 0%Q ((fun i => max_of 0%Q (cut_row r i)) <$> seqZ 0 n_types), l', mx') /\ sized n_types l' /\ Z.of_nat (length mx') = n_types /\
    (forall a b, 0 <= a < n_types -> 0 <= b < n_types -> value l' a b = (list_radius r_buff (value r a b) * list_radius r_buff (value r a b))%Q) /\
    forall a, 0 <= a < n_types -> zget 0%Q mx' a = max_of 0%Q (cut_row r a).
Proof.
  intros Sr Sl Lm. unfold list_rows. match goal with |- context [for_run _ _ ?f _] => set (body := f) end.
  destruct (for_run_inv (fun i '(m, l', mx') => m = max_of 0%Q ((fun i => max_of 0%Q (cut_row r i)) <$> seqZ 0 i) /\ sized n_types l' /\ length mx' = length mx /\
      (forall a b, 0 <= a < n_types -> 0 <= b < n_types -> value l' a b = if a <? i then (list_radius r_buff (value r a b) * list_radius r_buff (value r a b))%Q else value l a b) /\
      forall a, 0 <= a < i -> zget 0%Q mx' a = max_of 0%Q (cut_row r a))
    (Z.to_nat n_types) 0 body (0%Q, l, mx)) as ([[m l'] mx'] & -> & -> & S' & L' & V' & M').
  - split; [reflexivity|]. split; [exact Sl|]. split; [reflexivity|]. split; [|lia]. intros a b Ha _. destruct (Z.ltb_spec a 0); [lia|reflexivity].
  - intros i [[m l'] mx'] Hi (-> & S' & L' & V' & M'). unfold body. destruct (list_row_spec r_buff r l' i Sr S' ltac:(lia)) as (l2 & -> & S2 & V2). cbn [run_bind].
    rewrite write_in by lia. cbn [run_bind]. eexists. split; [reflexivity|]. split; [|split; [exact S2|split; [now rewrite length_zset|split]]].
    + rewrite seqZ_snoc by lia. rewrite fmap_app. simpl. rewrite max_of_snoc. unfold max_b. now destruct (lt_b _ _).
    + intros a b Ha Hb. rewrite V2, V' by assumption. destruct (Z.eqb_spec a i) as [->|]; [destruct (Z.ltb_spec i (i + 1)); [reflexivity|lia]|].
      destruct (Z.ltb_spec a i), (Z.ltb_spec a (i + 1)); try reflexivity; lia.
    + intros a Ha. destruct (Z.eq_dec a i) as [->|]; [apply zget_lookup, lookup_zset_eq; lia|]. unfold zget. rewrite nth_lookup, lookup_zset_ne, <- nth_lookup by lia. apply M'. lia.
  - rewrite Z.add_0_l, Z2Nat.id in * by lia. exists l', mx'. split; [reflexivity|]. split; [exact S'|]. split; [lia|]. split; [|exact M'].
    intros a b Ha Hb. rewrite V' by assumption. destruct (Z.ltb_spec a n_types); [reflexivity|lia].
Qed.

(** * The result *)

(** The tables have their sizes. *)
Record cut_sized (c : cutoffs) : Prop := {
  cs_idx : m_typpair_idx c = Index2D.make_square n_types;
  cs_base : sized n_types (m_rcut_base c);
  cs_cut : sized n_types (m_r_cut c);
  cs_list : sized n_types (m_r_listsq c);
  cs_max : Z.of_nat (length (m_rcut_max c)) = n_types;
  cs_consumers : Forall (sized n_types) (m_consumer_r_cut c)
}.

(** What the list relies on: the cutoff of a pair is the largest that was asked
    for, the list radius adds the buffer, and the maxima bound the cutoffs. *)
Record cut_ok (c : cutoffs) : Prop := {
  co_sized : cut_sized c;
  co_cut : forall i j, 0 <= i < n_types -> 0 <= j < n_types ->
    value (m_r_cut c) i j = max_of (value (m_rcut_base c) i j) ((fun m => value m i j) <$> m_consumer_r_cut c);
  co_list : forall i j, 0 <= i < n_types -> 0 <= j < n_types ->
    value (m_r_listsq c) i j = (list_radius (m_r_buff c) (value (m_r_cut c) i j) * list_radius (m_r_buff c) (value (m_r_cut c) i j))%Q;
  co_max : forall i j, 0 <= i < n_types -> 0 <= j < n_types -> (value (m_r_cut c) i j <= zget 0 (m_rcut_max c) i)%Q /\ (0 <= zget 0 (m_rcut_max c) i)%Q;
  co_max_max : forall i j, 0 <= i < n_types -> 0 <= j < n_types -> (value (m_r_cut c) i j <= m_rcut_max_max c)%Q
}.

Lemma updateRList_spec n : cut_sized (nl_cut n) ->
  exists c, updateRList p n = Ret (set_cut c n, Ok tt) /\ cut_ok c /\ m_rcut_changed c = false /\ m_r_buff c = m_r_buff (nl_cut n) /\
    m_rcut_base c = m_rcut_base (nl_cut n) /\ m_consumer_r_cut c = m_consumer_r_cut (nl_cut n).
Proof.
  intros [Ix Sb Sc Sl Sm Sk]. unfold updateRList. fold n_types. rewrite Ix.
  destruct (max_consumers_spec (m_consumer_r_cut (nl_cut n)) (m_rcut_base (nl_cut n)) Sk Sb) as (r & -> & Sr & Vr). cbn [run_bind].
  destruct (list_rows_spec (m_r_buff (nl_cut n)) r (m_r_listsq (nl_cut n)) (m_rcut_max (nl_cut n)) Sr Sl Sm) as (l & mx & -> & Sl' & Lm & Vl & Vm). cbn [run_bind].
  eexists. split; [reflexivity|]. split; [|auto]. assert (Row : forall i j, 0 <= i < n_types -> 0 <= j < n_types -> value r i j ∈ cut_row r i).
  { intros i j _ Hj. apply list_elem_of_fmap. exists j. split; [reflexivity|]. apply elem_of_seqZ. lia. }
  constructor; simpl; [constructor; simpl; (reflexivity || assumption)|assumption|assumption| |].
  - intros i j Hi Hj. rewrite Vm by assumption. destruct (max_of_ge (cut_row r i) 0%Q) as [G0 G]. rewrite Forall_forall in G. split; [now apply G, Row|exact G0].
  - intros i j Hi Hj. destruct (max_of_ge ((fun i => max_of 0%Q (cut_row r i)) <$> seqZ 0 n_types) 0%Q) as [_ G]. rewrite Forall_forall in G.
    eapply Qle_trans; [|apply (G (max_of 0%Q (cut_row r i)))].
    + destruct (max_of_ge (cut_row r i) 0%Q) as [_ G']. rewrite Forall_forall in G'. now apply G', Row.
    + apply list_elem_of_fmap. exists i. split; [reflexivity|]. apply elem_of_seqZ. lia.
Qed.

End cutoffs.
