(* ===== verification/NeighborListExclusions.v ===== *)
(** The exclusions of the neighbour list: the arrays by tag refine a symmetric
    relation on tags, and the filter removes exactly the related pairs. *)

From Stdlib Require Import ZArith Lia QArith String Bool.
From stdpp Require Import base list list_numbers strings.
From S2P Require Import Prelude HOOMDMath Index1D BoxDim GPUArray GPUArrayCoherence GPUVector ParticleData PotentialPairTables NeighborList NeighborListProps.
Local Open Scope Z_scope.
Local Open Scope hoomd_scope.

(** * Two-dimensional arrays *)

Lemma pitch_bounds w : 0 <= w -> w + 16 < 2 ^ 64 -> w < pitch_of w <= w + 16.
Proof.
  intros H B. unfold pitch_of. change 15 with (Z.ones 4). rewrite Z.land_ones by lia. change (2 ^ 4) with 16.
  pose proof (Z.mod_pos_bound w 16 ltac:(lia)). rewrite u64_small by (unfold is_u64; lia). lia.
Qed.

(** The array has columns for [w] and is small enough for 32 bit indices. *)
Record rows_ok (w : Z) (r : rows) : Prop := {
  ro_width : 0 <= w <= r_pitch r /\ 0 < r_pitch r;
  ro_height : 0 < r_height r;
  ro_small : r_pitch r * r_height r < 2 ^ 32;
  ro_length : length (r_data r) = Z.to_nat (r_pitch r * r_height r)
}.

(** The element of column [i] in row [j]. *)
Definition cell (r : rows) (i j : Z) : Z := zget 0 (r_data r) (j * r_pitch r + i).

Lemma flat_inj P i j a b : 0 <= i < P -> 0 <= a < P -> j * P + i = b * P + a -> i = a /\ j = b.
Proof. intros Hi Ha E. assert (j = b) by nia. subst. lia. Qed.

Lemma zget_zset {A} (d : A) l t x s : 0 <= t < Z.of_nat (length l) -> 0 <= s -> zget d (zset l t x) s = if s =? t then x else zget d l s.
Proof.
  intros Ht Hs. destruct (Z.eqb_spec s t) as [->|D]; [apply zget_lookup, lookup_zset_eq; lia|].
  unfold zget. rewrite !nth_lookup, lookup_zset_ne by lia. reflexivity.
Qed.

Section rows.
Variable w : Z.

Lemma at_row_eq r i j : rows_ok w r -> 0 <= i < w -> 0 <= j < r_height r -> at_row r i j = j * r_pitch r + i /\ 0 <= at_row r i j < r_pitch r * r_height r.
Proof.
  intros K Hi Hj. pose proof (ro_width _ _ K). pose proof (ro_small _ _ K). unfold at_row. rewrite index2d_flat.
  - simpl. split; [reflexivity|nia].
  - unfold Index2D.fits. simpl. nia.
  - split; simpl; nia.
Qed.

Lemma read_row_cell r i j : rows_ok w r -> 0 <= i < w -> 0 <= j < r_height r -> read_row r i j = Ret (cell r i j).
Proof.
  intros K Hi Hj. destruct (at_row_eq r i j K Hi Hj) as [E B]. unfold read_row, cell. rewrite E in *. apply read_Some, lookup_zget.
  rewrite (ro_length _ _ K). lia.
Qed.

Lemma write_row_cell r i j x : rows_ok w r -> 0 <= i < w -> 0 <= j < r_height r ->
  exists r', write_row r i j x = Ret r' /\ rows_ok w r' /\ r_height r' = r_height r /\ r_pitch r' = r_pitch r /\
    forall a b, 0 <= a < w -> 0 <= b < r_height r -> cell r' a b = if (a =? i) && (b =? j) then x else cell r a b.
Proof.
  intros K Hi Hj. destruct (at_row_eq r i j K Hi Hj) as [E B]. pose proof (ro_length _ _ K) as L. pose proof (ro_width _ _ K). unfold write_row.
  rewrite write_in by lia. simpl. eexists. split; [reflexivity|]. split_and!; try reflexivity.
  - destruct K. constructor; simpl; try assumption. now rewrite length_zset.
  - intros a b Ha Hb. unfold cell. simpl. rewrite E in B |- *. destruct ((a =? i) && (b =? j)) eqn:D; zbool.
    + subst. apply zget_lookup, lookup_zset_eq. lia.
    + unfold zget. apply nth_lookup_Some. destruct (at_row_eq r a b K Ha Hb) as [E' B']. rewrite E' in B'. rewrite lookup_zset_ne; [apply lookup_zget; lia|].
      intros X. apply Z2Nat.inj in X; [|nia..]. destruct (flat_inj (r_pitch r) i j a b) as [-> ->]; [lia..|]. now rewrite !Z.eqb_refl in D.
Qed.

Lemma resize_rows_cell width h r : rows_ok w r -> 0 <= w <= width -> r_height r <= h -> (width + 16) * h < 2 ^ 32 ->
  rows_ok w (resize_rows width h r) /\ r_height (resize_rows width h r) = h /\
  forall a b, 0 <= a < w -> 0 <= b < r_height r -> cell (resize_rows width h r) a b = cell r a b.
Proof.
  intros K Hw Hh Small. pose proof (ro_width _ _ K) as [W1 W2]. pose proof (ro_height _ _ K) as Hp. pose proof (ro_length _ _ K) as L.
  pose proof (pitch_bounds width ltac:(lia) ltac:(nia)) as P. unfold resize_rows.
  assert (Len : length (Some <$> r_data r) = Z.to_nat (r_pitch r * r_height r)) by now rewrite length_fmap.
  split_and!; simpl; [|reflexivity|].
  - constructor; simpl; [lia|lia|nia|]. rewrite length_fmap. now rewrite resized_2d_length by (assumption || lia).
  - intros a b Ha Hb. unfold cell. simpl. apply zget_lookup. rewrite list_lookup_fmap, resized_2d_lookup by (assumption || lia).
    rewrite decide_True by lia. rewrite list_lookup_fmap, (lookup_zget 0) by (rewrite L; nia). reflexivity.
Qed.

Lemma resize_rows_shape width h r : rows_ok w r -> 0 <= width -> 0 < h -> (width + 16) * h < 2 ^ 32 ->
  rows_ok width (resize_rows width h r) /\ r_height (resize_rows width h r) = h.
Proof.
  intros K Hw Hh Small. pose proof (ro_width _ _ K) as [W1 W2]. pose proof (ro_height _ _ K) as Hp. pose proof (ro_length _ _ K) as L.
  pose proof (pitch_bounds width ltac:(lia) ltac:(nia)) as P. unfold resize_rows. split; [|reflexivity]. constructor; simpl; [lia|lia|nia|].
  rewrite length_fmap. rewrite resized_2d_length by (try rewrite length_fmap; assumption || lia). reflexivity.
Qed.

Lemma make_rows_ok h : 0 <= w -> 0 < h -> (w + 16) * h < 2 ^ 32 -> rows_ok w (make_rows w h).
Proof.
  intros Hw Hh Small. pose proof (pitch_bounds w Hw ltac:(nia)) as P. unfold make_rows. constructor; simpl; [lia|lia|nia|].
  rewrite length_replicate, u64_small by (unfold is_u64; nia). reflexivity.
Qed.

(** The first [n] elements of a column. *)
Definition column_of (r : rows) (i n : Z) : list Z := (fun j => cell r i j) <$> seqZ 0 n.

Lemma length_column_of r i n : 0 <= n -> Z.of_nat (length (column_of r i n)) = n.
Proof. intros H. unfold column_of. rewrite length_fmap, length_seqZ. lia. Qed.

Lemma column_of_S r i n : 0 <= n -> column_of r i (n + 1) = column_of r i n ++ [cell r i n].
Proof. intros H. unfold column_of. rewrite (seqZ_app 0 n 1) by lia. rewrite fmap_app. f_equal. Qed.

Lemma column_of_ext r r' i i' n : (forall j, 0 <= j < n -> cell r i j = cell r' i' j) -> column_of r i n = column_of r' i' n.
Proof. intros H. unfold column_of. apply list_fmap_ext. intros k x Hx%lookup_seqZ. apply H. lia. Qed.

Lemma scan_row_from r i x count : forall s, rows_ok w r -> 0 <= i < w -> 0 <= s -> s + Z.of_nat count <= r_height r ->
  scan_row r i count s x = Ret (bool_decide (x ∈ (fun j => cell r i j) <$> seqZ s (Z.of_nat count))).
Proof.
  induction count as [|count IH]; intros s K Hi Hs Hc; simpl scan_row.
  { reflexivity. }
  rewrite read_row_cell by (assumption || lia). simpl. rewrite seqZ_cons by lia. replace (Z.pred (Z.of_nat (S count))) with (Z.of_nat count) by lia. simpl.
  destruct (Z.eqb_spec (cell r i s) x) as [->|D].
  - f_equal. symmetry. apply bool_decide_eq_true. left.
  - rewrite IH by (assumption || lia). f_equal. apply bool_decide_ext. rewrite elem_of_cons. unfold Z.succ. split; [auto|]. intros [->|]; [congruence|assumption].
Qed.

Lemma scan_row_spec r i n x : rows_ok w r -> 0 <= i < w -> 0 <= n <= r_height r ->
  scan_row r i (Z.to_nat n) 0 x = Ret (bool_decide (x ∈ column_of r i n)).
Proof. intros K Hi Hn. rewrite scan_row_from by (assumption || lia). unfold column_of. rewrite Z2Nat.id by lia. reflexivity. Qed.

End rows.

(** * Exclusions by tag *)

Section tags.
Variable p : pdata.

Definition ntags : Z := m_rtag_size p.

(** The arrays fit the particle data, with [H] rows allowed. *)
Record ex_ok (H : Z) (e : exclusions) : Prop := {
  eo_tag : rows_ok ntags (m_ex_list_tag e);
  eo_idx : rows_ok (m_max_nparticles p) (m_ex_list_idx e);
  eo_height : r_height (m_ex_list_tag e) = r_height (m_ex_list_idx e) /\ r_height (m_ex_list_idx e) <= H;
  eo_room : (ntags + 16) * H < 2 ^ 32 /\ (m_max_nparticles p + 16) * H < 2 ^ 32;
  eo_len : ntags <= Z.of_nat (length (m_n_ex_tag e));
  eo_count : forall t c, 0 <= t < ntags -> m_n_ex_tag e !! Z.to_nat t = Some c -> 0 <= c <= r_height (m_ex_list_tag e)
}.

(** The partners of a tag, in the order of their addition. *)
Definition partners (e : exclusions) (t : Z) : list Z := column_of (m_ex_list_tag e) t (zget 0 (m_n_ex_tag e) t).

Lemma count_lookup H e t : ex_ok H e -> 0 <= t < ntags ->
  m_n_ex_tag e !! Z.to_nat t = Some (zget 0 (m_n_ex_tag e) t) /\ 0 <= zget 0 (m_n_ex_tag e) t <= r_height (m_ex_list_tag e).
Proof. intros K Ht. assert (L : m_n_ex_tag e !! Z.to_nat t = Some (zget 0 (m_n_ex_tag e) t)) by (apply lookup_zget; pose proof (eo_len _ _ K); lia). split; [exact L|]. now apply (eo_count _ _ K t). Qed.

Lemma length_partners H e t : ex_ok H e -> 0 <= t < ntags -> Z.of_nat (length (partners e t)) = zget 0 (m_n_ex_tag e) t.
Proof. intros K Ht. destruct (count_lookup H e t K Ht). apply length_column_of. lia. Qed.

Lemma isExcluded_spec H e t1 t2 : ex_ok H e -> 0 <= t1 < ntags -> isExcluded t1 t2 e = Ret (bool_decide (t2 ∈ partners e t1)).
Proof.
  intros K Ht. destruct (count_lookup H e t1 K Ht) as [L B]. unfold isExcluded. rewrite (read_Some _ _ _ L). simpl.
  apply (scan_row_spec ntags); [apply K|assumption|assumption].
Qed.

Lemma growExclusionList_spec H e : ex_ok H e -> r_height (m_ex_list_idx e) < H -> 0 <= m_max_nparticles p ->
  ex_ok H (growExclusionList p e) /\ r_height (m_ex_list_tag (growExclusionList p e)) = r_height (m_ex_list_tag e) + 1 /\
  m_n_ex_tag (growExclusionList p e) = m_n_ex_tag e /\ forall t, 0 <= t < ntags -> partners (growExclusionList p e) t = partners e t.
Proof.
  intros K L M. destruct (eo_height _ _ K) as [Eh Lh]. destruct (eo_room _ _ K) as [R1 R2]. unfold growExclusionList. set (h := r_height (m_ex_list_idx e) + 1).
  pose proof (ro_height _ _ (eo_idx _ _ K)) as Hp.
  destruct (resize_rows_cell ntags ntags h (m_ex_list_tag e) (eo_tag _ _ K)) as (K1 & H1 & C1); [pose proof (ro_width _ _ (eo_tag _ _ K)); lia|lia|unfold ntags in *; nia|].
  destruct (resize_rows_cell (m_max_nparticles p) (m_max_nparticles p) h (m_ex_list_idx e) (eo_idx _ _ K)) as (K2 & H2 & _); [lia|lia|nia|].
  fold ntags. split_and!; simpl.
  - constructor; simpl; try assumption; [unfold h; lia|auto|apply K|]. intros t c Ht Hc. pose proof (eo_count _ _ K t c Ht Hc). lia.
  - lia.
  - reflexivity.
  - intros t Ht. destruct (count_lookup H e t K Ht) as [_ B]. apply column_of_ext. intros j Hj. apply C1; lia.
Qed.

Lemma push_exclusion_spec H e t x : ex_ok H e -> 0 <= t < ntags -> zget 0 (m_n_ex_tag e) t < r_height (m_ex_list_tag e) ->
  exists e', push_exclusion t x e = Ret e' /\ ex_ok H e' /\ m_exclusions_set e' = m_exclusions_set e /\ r_height (m_ex_list_tag e') = r_height (m_ex_list_tag e) /\
    (forall s, 0 <= s -> zget 0 (m_n_ex_tag e') s = if s =? t then zget 0 (m_n_ex_tag e) t + 1 else zget 0 (m_n_ex_tag e) s) /\
    forall s, 0 <= s < ntags -> partners e' s = if s =? t then partners e t ++ [x] else partners e s.
Proof.
  intros K Ht Room. destruct (count_lookup H e t K Ht) as [L B]. unfold push_exclusion. rewrite (read_Some _ _ _ L). simpl.
  destruct (write_row_cell ntags (m_ex_list_tag e) t (zget 0 (m_n_ex_tag e) t) x (eo_tag _ _ K) Ht ltac:(lia)) as (r' & -> & K' & Hh & Hp & C). simpl.
  pose proof (eo_len _ _ K) as Ln. rewrite write_in by lia. simpl. pose proof (ro_small _ _ (eo_tag _ _ K)) as Sm. destruct (ro_width _ _ (eo_tag _ _ K)) as [_ Pp].
  rewrite u32_small by (unfold is_u32; nia). set (c := zget 0 (m_n_ex_tag e) t) in *. eexists. split; [reflexivity|].
  split_and!; simpl.
  - constructor; simpl; try assumption; [apply K|rewrite Hh; apply K|apply K|now rewrite length_zset|].
    intros s k Hs Hk. rewrite Hh. destruct (Z.eq_dec s t) as [->|D]; [rewrite lookup_zset_eq in Hk by lia; injection Hk as <-; lia|].
    rewrite lookup_zset_ne in Hk by lia. now apply (eo_count _ _ K s).
  - reflexivity.
  - exact Hh.
  - intros s Hs. apply zget_zset; lia.
  - intros s Hs. unfold partners. simpl. rewrite zget_zset by lia. destruct (count_lookup H e s K Hs) as [_ Bs]. destruct (Z.eqb_spec s t) as [->|D].
    + fold c. rewrite column_of_S by lia. f_equal; [|rewrite C, !Z.eqb_refl by lia; reflexivity].
      apply column_of_ext. intros j Hj. rewrite C by lia. destruct (Z.eqb_spec j c); [lia|]. now rewrite andb_false_r.
    + apply column_of_ext. intros j Hj. rewrite C by lia. destruct (Z.eqb_spec s t); [congruence|reflexivity].
Qed.

(** An addition appends each tag to the partners of the other, unless they are
    partners already. *)
Lemma addExclusion_spec H n t1 t2 : ex_ok H (nl_ex n) -> 0 <= m_max_nparticles p -> 0 <= t1 < ntags -> 0 <= t2 < ntags -> t1 <> t2 ->
  Z.of_nat (length (partners (nl_ex n) t1)) < H -> Z.of_nat (length (partners (nl_ex n) t2)) < H ->
  exists e f, addExclusion p t1 t2 n = Ret (f (set_ex e n)) /\ (f = forceUpdate \/ f = id) /\ ex_ok H e /\ m_exclusions_set e = true /\
    forall s, 0 <= s < ntags -> partners e s =
      if bool_decide (t2 ∈ partners (nl_ex n) t1) then partners (nl_ex n) s
      else if s =? t1 then partners (nl_ex n) t1 ++ [t2] else if s =? t2 then partners (nl_ex n) t2 ++ [t1] else partners (nl_ex n) s.
Proof.
  intros K M H1 H2 D R1 R2. unfold addExclusion. set (e0 := mkExclusions _ _ _ _ true).
  assert (K0 : ex_ok H e0) by (destruct K; constructor; assumption). assert (P0 : forall s, partners e0 s = partners (nl_ex n) s) by reflexivity.
  assert (S0 : m_exclusions_set e0 = true) by reflexivity. clearbody e0. rewrite (isExcluded_spec H e0 t1 t2 K0 H1). cbn [run_bind]. rewrite <- (P0 t1), <- (P0 t2) in *. destruct (bool_decide (t2 ∈ partners e0 t1)).
  { exists e0, id. split; [reflexivity|]. split; [auto|]. split; [exact K0|]. split; [exact S0|]. intros s _. apply P0. }
  destruct (count_lookup H e0 t1 K0 H1) as [L1 B1]. destruct (count_lookup H e0 t2 K0 H2) as [L2 B2]. rewrite (read_Some _ _ _ L1), (read_Some _ _ _ L2). cbn [run_bind].
  rewrite (length_partners H) in R1, R2 by assumption. destruct (eo_height _ _ K0) as [Eh Lh]. set (full := _ || _).
  assert (G : exists e1, (if full then growExclusionList p e0 else e0) = e1 /\ ex_ok H e1 /\ m_n_ex_tag e1 = m_n_ex_tag e0 /\ m_exclusions_set e1 = true /\
    zget 0 (m_n_ex_tag e0) t1 < r_height (m_ex_list_tag e1) /\ zget 0 (m_n_ex_tag e0) t2 < r_height (m_ex_list_tag e1) /\ forall s, 0 <= s < ntags -> partners e1 s = partners e0 s).
  { eexists. split; [reflexivity|]. destruct full eqn:F; subst full.
    - apply orb_true_iff in F. assert (r_height (m_ex_list_idx e0) < H) by (destruct F as [F|F]; zbool; lia).
      destruct (growExclusionList_spec H e0 K0) as (Kg & Hg & Ng & Pg); [assumption|assumption|]. split_and!; try assumption; lia.
    - zbool. split_and!; try assumption; try reflexivity; lia. }
  destruct G as (e1 & -> & K1 & N1 & S1 & Q1 & Q2 & P1).
  destruct (push_exclusion_spec H e1 t1 t2 K1 H1) as (e2 & -> & K2 & S2 & Hh2 & N2 & P2); [now rewrite N1|]. cbn [run_bind].
  destruct (push_exclusion_spec H e2 t2 t1 K2 H2) as (e3 & -> & K3 & S3 & Hh3 & N3 & P3).
  { rewrite N2 by lia. destruct (Z.eqb_spec t2 t1); [congruence|]. now rewrite N1, Hh2. }
  exists e3, forceUpdate. split; [reflexivity|]. split; [auto|]. split; [exact K3|]. split; [congruence|].
  intros s Hs. rewrite <- (P0 s), P3, !P2 by assumption. destruct (Z.eqb_spec t2 t1); [congruence|]. destruct (Z.eqb_spec s t2) as [->|]; [destruct (Z.eqb_spec t2 t1); [congruence|]|].
  - now rewrite P1.
  - destruct (Z.eqb_spec s t1); now rewrite P1.
Qed.

(** ** Sequences of additions *)

Fixpoint add_all (l : list (Z * Z)) (n : nlist) : run nlist :=
  match l with
  | [] => Ret n
  | (t1, t2) :: l => bind! n := addExclusion p t1 t2 n in add_all l n
  end.

(** The partners are those of the pairs [done]; a tag has at most one for each. *)
Definition partners_are (e : exclusions) (done : list (Z * Z)) : Prop := forall a, 0 <= a < ntags ->
  Z.of_nat (length (partners e a)) <= Z.of_nat (length done) /\ forall b, b ∈ partners e a <-> (a, b) ∈ done \/ (b, a) ∈ done.

Definition addable (l : list (Z * Z)) : Prop := Forall (fun x => 0 <= x.1 < ntags /\ 0 <= x.2 < ntags /\ x.1 <> x.2) l.

Lemma add_one H n t1 t2 done : ex_ok H (nl_ex n) -> 0 <= m_max_nparticles p -> 0 <= t1 < ntags -> 0 <= t2 < ntags -> t1 <> t2 -> partners_are (nl_ex n) done ->
  Z.of_nat (length done) < H -> exists e f, addExclusion p t1 t2 n = Ret (f (set_ex e n)) /\ (f = forceUpdate \/ f = id) /\ ex_ok H e /\ m_exclusions_set e = true /\
    partners_are e (done ++ [(t1, t2)]).
Proof.
  intros K M H1 H2 D Pa Room. destruct (addExclusion_spec H n t1 t2 K M H1 H2 D) as (e & f & E & F & Ke & Se & Pe); [pose proof (proj1 (Pa t1 H1)); lia|pose proof (proj1 (Pa t2 H2)); lia|].
  exists e, f. do 4 (split; [assumption|]). intros a Ha. rewrite (Pe a Ha), length_app. simpl. destruct (Pa a Ha) as [La Ia].
  assert (X : forall b, (a, b) ∈ done ++ [(t1, t2)] \/ (b, a) ∈ done ++ [(t1, t2)] <-> b ∈ partners (nl_ex n) a \/ (a = t1 /\ b = t2) \/ (a = t2 /\ b = t1)).
  { intros b. rewrite Ia, !elem_of_app, !list_elem_of_singleton. split; [intros [[|Q]|[|Q]]|intros [[|]|[[-> ->]|[-> ->]]]]; try injection Q as -> ->; auto 10. }
  case_bool_decide as Old.
  - split; [lia|]. intros b. rewrite X. split; [auto|]. intros [|[[-> ->]|[-> ->]]]; [assumption|assumption|]. apply Pa; [assumption|]. apply (Pa t1 H1) in Old. tauto.
  - destruct (Z.eqb_spec a t1) as [->|N1]; [|destruct (Z.eqb_spec a t2) as [->|N2]].
    + split; [rewrite length_app; simpl; lia|]. intros b. rewrite X, elem_of_app, list_elem_of_singleton. split; [intros [|]; auto|intros [|[[_ ->]|[-> _]]]; auto; congruence].
    + split; [rewrite length_app; simpl; lia|]. intros b. rewrite X, elem_of_app, list_elem_of_singleton. split; [intros [|]; auto|intros [|[[-> _]|[_ ->]]]; auto; congruence].
    + split; [lia|]. intros b. rewrite X. split; [auto|]. intros [|[[-> _]|[-> _]]]; [assumption|congruence..].
Qed.

Lemma add_all_spec H l : addable l -> 0 <= m_max_nparticles p -> forall n done, ex_ok H (nl_ex n) -> partners_are (nl_ex n) done ->
  Z.of_nat (length done + length l) <= H -> exists n', add_all l n = Ret n' /\ ex_ok H (nl_ex n') /\ partners_are (nl_ex n') (done ++ l) /\
    (l <> [] -> m_exclusions_set (nl_ex n') = true) /\ nl_lists n' = nl_lists n /\ nl_cut n' = nl_cut n.
Proof.
  intros A M. induction A as [|[t1 t2] l (H1 & H2 & D) A IH]; intros n done K Pa Room; simpl.
  { exists n. rewrite app_nil_r. do 3 (split; [assumption || reflexivity|]). split; [congruence|auto]. }
  destruct (add_one H n t1 t2 done K M H1 H2 D Pa) as (e & f & -> & F & Ke & Se & Pe); [simpl in Room; lia|]. simpl.
  assert (Fe : nl_ex (f (set_ex e n)) = e /\ nl_lists (f (set_ex e n)) = nl_lists n /\ nl_cut (f (set_ex e n)) = nl_cut n) by (destruct F as [-> | ->]; auto). destruct Fe as (Fe & Fl & Fc).
  destruct (IH (f (set_ex e n)) (done ++ [(t1, t2)])) as (n' & E & K' & P' & S' & L' & C'); [now rewrite Fe|now rewrite Fe|rewrite length_app; simpl in *; lia|].
  exists n'. rewrite <- app_assoc in P'. do 3 (split; [assumption|]). split; [|split; congruence]. intros _. destruct l as [|x l']; [|apply S'; discriminate].
  simpl in E. injection E as <-. now rewrite Fe.
Qed.

(** ** Clearing *)

Lemma cleared_partners e : (forall t, 0 <= t < ntags -> zget 0 (m_n_ex_tag e) t = 0) -> partners_are e [].
Proof. intros Z0 a Ha. unfold partners. rewrite (Z0 a Ha). simpl. split; [lia|]. intros b. unfold column_of. simpl. rewrite !elem_of_nil. tauto. Qed.

Lemma zget_replicate (k : nat) t : zget 0 (replicate k 0) t = 0.
Proof. unfold zget. rewrite nth_lookup. destruct (replicate k 0 !! Z.to_nat t) eqn:E; [apply lookup_replicate in E as [-> _]|]; reflexivity. Qed.

(** The exclusions are cleared; after the number of particles has changed, the
    arrays by tag have room for all tags. [C] bounds the capacity of the numbers. *)
Lemma resizeAndClearExclusions_spec H C w n : 0 <= ntags -> rows_ok w (m_ex_list_tag (nl_ex n)) -> rows_ok (m_max_nparticles p) (m_ex_list_idx (nl_ex n)) ->
  r_height (m_ex_list_tag (nl_ex n)) = r_height (m_ex_list_idx (nl_ex n)) -> r_height (m_ex_list_idx (nl_ex n)) <= H ->
  Z.of_nat (length (m_n_ex_tag (nl_ex n))) <= C -> new_capacity ntags (Z.of_nat (length (m_n_ex_tag (nl_ex n)))) <= C -> (C + 16) * H < 2 ^ 32 ->
  (m_max_nparticles p + 16) * H < 2 ^ 32 ->
  (m_n_particles_changed n = false -> ntags <= w /\ ntags <= Z.of_nat (length (m_n_ex_tag (nl_ex n)))) ->
  let n' := resizeAndClearExclusions p n in
  ex_ok H (nl_ex n') /\ partners_are (nl_ex n') [] /\ m_exclusions_set (nl_ex n') = false /\ m_force_update (nl_time n') = true /\
  nl_lists n' = nl_lists n /\ nl_cut n' = nl_cut n.
Proof.
  intros Nt K1 K2 Hh Lh C1 C2 R1 R2 Same n'. unfold n', resizeAndClearExclusions. fold ntags. set (e := nl_ex n) in *. set (l := if m_n_particles_changed n then _ else _).
  pose proof (ro_height _ _ K1) as Hp.
  assert (Ll : ntags <= Z.of_nat (length l) <= C).
  { unfold l. destruct (m_n_particles_changed n); [|split; [now apply Same|assumption]]. destruct (Z.gtb_spec ntags (Z.of_nat (length (m_n_ex_tag e)))); [|lia].
    rewrite length_array_resize. unfold new_capacity in *. pose proof (grow_ge (Z.to_nat ntags) ntags (if Z.of_nat (length (m_n_ex_tag e)) =? 0 then 1 else Z.of_nat (length (m_n_ex_tag e)))) as G.
    destruct (Z.of_nat (length (m_n_ex_tag e)) =? 0); lia. }
  set (r := if _ && _ then _ else _). assert (Kr : rows_ok ntags r /\ r_height r = r_height (m_ex_list_tag e)).
  { unfold r. destruct (m_n_particles_changed n); simpl.
    - destruct (Z.eqb_spec (r_pitch (m_ex_list_tag e)) (Z.of_nat (length l))) as [Ep|_]; simpl.
      + split; [|reflexivity]. destruct K1 as [W]. constructor; try assumption. lia.
      + destruct (resize_rows_shape w (Z.of_nat (length l)) (r_height (m_ex_list_tag e)) _ K1) as [Kr Hr]; [lia|lia|nia|]. split; [|exact Hr].
        destruct Kr as [W]. constructor; try assumption. lia.
    - destruct (Same eq_refl) as [Sw _]. split; [|reflexivity]. destruct K1 as [W]. constructor; try assumption. lia. }
  destruct Kr as [Kr Hr]. split_and!; try reflexivity; simpl.
  - constructor; simpl; try assumption; [split; [congruence|assumption]|split; [nia|assumption]|rewrite length_replicate; lia|].
    intros t c _ Hc. apply lookup_replicate in Hc as [-> _]. lia.
  - apply cleared_partners. intros t _. apply zget_replicate.
Qed.

End tags.

(** * Exclusions by index *)

(** The excluded indices of a particle. *)
Definition idx_partners (e : exclusions) (i : Z) : list Z := column_of (m_ex_list_idx e) i (zget 0 (m_n_ex_idx e) i).

Section indices.
Variable p : pdata.
Variable H : Z.
Hypothesis Tags : forall i, 0 <= i < getN p -> m_ptl p !! Z.to_nat i = Some (element i p) /\ 0 <= tag (element i p) < ntags p.
Hypothesis MaxN : 0 <= getN p <= m_max_nparticles p.
Hypothesis Rtag : ntags p <= Z.of_nat (length (m_rtag p)).

(** The excluded indices of the particle [i] as they should be. *)
Definition translated (e : exclusions) (i : Z) : list Z := (fun t => zget 0 (m_rtag p) t) <$> partners e (tag (element i p)).

(** The translation of the particles below [i]. *)
Record translating (e : exclusions) (i : Z) (e' : exclusions) : Prop := {
  tr_tag : m_n_ex_tag e' = m_n_ex_tag e /\ m_ex_list_tag e' = m_ex_list_tag e /\ m_exclusions_set e' = m_exclusions_set e;
  tr_rows : rows_ok (m_max_nparticles p) (m_ex_list_idx e') /\ r_height (m_ex_list_idx e') = r_height (m_ex_list_idx e);
  tr_len : length (m_n_ex_idx e') = length (m_n_ex_idx e);
  tr_count : forall j, 0 <= j < i -> zget 0 (m_n_ex_idx e') j = Z.of_nat (length (translated e j));
  tr_col : forall j, 0 <= j < i -> idx_partners e' j = translated e j
}.

Lemma translate_row_spec e i e' : ex_ok p H e -> m_max_nparticles p <= Z.of_nat (length (m_n_ex_idx e)) ->
  (forall t x, 0 <= t < ntags p -> x ∈ partners e t -> 0 <= x < ntags p) -> 0 <= i < getN p -> translating e i e' ->
  exists e'', translate_row p i e' = Ret e'' /\ translating e (i + 1) e''.
Proof.
  intros K Ln Cl Hi [(T1 & T2 & T3) [R1 R2] Tl Tc Tp]. destruct (Tags i Hi) as [Hp Ht]. unfold translate_row. rewrite (read_Some _ _ _ Hp). cbn [run_bind].
  set (t := tag (element i p)) in *. destruct (count_lookup p H e t K Ht) as [Lc Bc]. pose proof (length_partners p H e t K Ht) as Lp.
  rewrite T1, (read_Some _ _ _ Lc). cbn [run_bind]. rewrite write_in by lia. cbn [run_bind]. set (c := zget 0 (m_n_ex_tag e) t) in *. destruct (eo_height _ _ _ K) as [Eh _].
  match goal with |- context [for_run _ _ ?f _] => set (body := f) end.
  destruct (for_run_inv (fun k l => rows_ok (m_max_nparticles p) l /\ r_height l = r_height (m_ex_list_idx e) /\
    forall a b, 0 <= a < m_max_nparticles p -> 0 <= b < r_height (m_ex_list_idx e) ->
      cell l a b = if (a =? i) && (b <? k) then zget 0 (m_rtag p) (cell (m_ex_list_tag e) t b) else cell (m_ex_list_idx e') a b)
    (Z.to_nat c) 0 body (m_ex_list_idx e')) as (l & -> & Kl & Hl & Cl').
  { split; [exact R1|]. split; [exact R2|]. intros a b _ Hb. destruct (Z.ltb_spec b 0); [lia|]. now rewrite andb_false_r. }
  { intros k l Hk (Kl & Hl & Cl'). unfold body. rewrite T2, (read_row_cell (ntags p)) by (apply K || lia). cbn [run_bind].
    assert (X : 0 <= cell (m_ex_list_tag e) t k < ntags p).
    { apply (Cl t); [exact Ht|]. unfold partners, column_of. apply list_elem_of_fmap. exists k. split; [reflexivity|]. apply elem_of_seqZ. fold c. lia. }
    erewrite read_Some by (apply lookup_zget; lia). cbn [run_bind].
    destruct (write_row_cell (m_max_nparticles p) l i k (zget 0 (m_rtag p) (cell (m_ex_list_tag e) t k)) Kl) as (l' & -> & Kl2 & Hl2 & _ & Cl2); [lia|lia|].
    exists l'. split; [reflexivity|]. split; [exact Kl2|]. split; [congruence|]. intros a b Ha Hb. rewrite Cl2 by (rewrite ?Hl; assumption). rewrite (Cl' a b Ha Hb).
    destruct (Z.eqb_spec a i) as [->|]; simpl; [|reflexivity]. destruct (Z.eqb_spec b k) as [->|]; [destruct (Z.ltb_spec k (k + 1)); [reflexivity|lia]|].
    destruct (Z.ltb_spec b k), (Z.ltb_spec b (k + 1)); try reflexivity; lia. }
  cbn [run_bind]. eexists. split; [reflexivity|]. rewrite Z2Nat.id in Cl' by lia. constructor; simpl; [auto|auto|now rewrite length_zset| |].
  - intros j Hj. rewrite zget_zset by lia. unfold translated. rewrite length_fmap. destruct (Z.eqb_spec j i) as [->|]; [fold t; lia|]. rewrite Tc by lia. unfold translated. now rewrite length_fmap.
  - intros j Hj. unfold idx_partners. simpl. rewrite zget_zset by lia. destruct (Z.eqb_spec j i) as [->|D].
    + unfold translated. fold t. unfold partners. fold c. unfold column_of. rewrite <- list_fmap_compose. apply list_fmap_ext. intros k x Hx%lookup_seqZ. simpl.
      rewrite Cl' by lia. rewrite Z.eqb_refl. destruct (Z.ltb_spec x (0 + c)); [reflexivity|lia].
    + rewrite <- Tp by lia. unfold idx_partners. apply column_of_ext. intros b Hb. rewrite Tc in Hb by lia. unfold translated in Hb. rewrite length_fmap in Hb.
      destruct (Tags j ltac:(lia)) as [_ Htj]. rewrite (length_partners p H e _ K Htj) in Hb. destruct (count_lookup p H e _ K Htj) as [_ Bj].
      rewrite Cl' by lia. destruct (Z.eqb_spec j i); [congruence|reflexivity].
Qed.

Lemma updateExListIdx_spec n : ex_ok p H (nl_ex n) -> m_max_nparticles p <= Z.of_nat (length (m_n_ex_idx (nl_ex n))) ->
  (forall t x, 0 <= t < ntags p -> x ∈ partners (nl_ex n) t -> 0 <= x < ntags p) ->
  exists e, updateExListIdx p n = Ret (set_ex e n) /\ translating (nl_ex n) (getN p) e.
Proof.
  intros K Ln Cl. unfold updateExListIdx. destruct (for_run_inv (translating (nl_ex n)) (Z.to_nat (getN p)) 0 (translate_row p) (nl_ex n)) as (e & -> & T).
  - constructor; [auto|split; [apply K|reflexivity]|reflexivity|lia|lia].
  - intros i e' Hi T. apply translate_row_spec; [assumption..|lia|assumption].
  - exists e. split; [reflexivity|]. now rewrite Z2Nat.id in T by lia.
Qed.

Lemma translating_ok e e' : ex_ok p H e -> translating e (getN p) e' -> ex_ok p H e' /\ forall t, partners e' t = partners e t.
Proof.
  intros K [(T1 & T2 & T3) [R1 R2] Tl Tc Tp]. split; [|intros t; unfold partners; now rewrite T1, T2].
  destruct K. constructor; rewrite ?T1, ?T2, ?R2; assumption.
Qed.

End indices.

(** * The filter *)

Section filter.
Variable p : pdata.
Hypothesis Typed : particles_typed p.
Hypothesis N : 0 <= getN p.
Variable C : Z.
Hypothesis HC : 0 < C < 2 ^ 32.
Variable w : Z.
Hypothesis Nw : getN p <= w.
Variable e : exclusions.
Hypothesis Rows : rows_ok w (m_ex_list_idx e).
Hypothesis Counts : forall i, 0 <= i < getN p -> m_n_ex_idx e !! Z.to_nat i = Some (zget 0 (m_n_ex_idx e) i) /\ 0 <= zget 0 (m_n_ex_idx e) i <= r_height (m_ex_list_idx e).

(** The neighbours of [i] that are not excluded. *)
Definition kept (cand : Z -> list Z) (i : Z) : list Z := filter (fun x => x ∉ idx_partners e i) (cand i).

Definition kept_to (l : list Z) (i : Z) (k : nat) : list Z := filter (fun x => x ∉ idx_partners e i) (take k l).

Lemma kept_to_S l i k x : l !! k = Some x -> kept_to l i (S k) = kept_to l i k ++ (if bool_decide (x ∈ idx_partners e i) then [] else [x]).
Proof.
  intros Hx. unfold kept_to. rewrite (take_S_r _ _ _ Hx), filter_app. f_equal. rewrite filter_cons, filter_nil. case_bool_decide; [now rewrite decide_False by tauto|now rewrite decide_True].
Qed.

Lemma length_kept_to l i k : (length (kept_to l i k) <= k)%nat.
Proof. unfold kept_to. etransitivity; [apply length_filter|]. rewrite length_take. lia. Qed.

(** One row: the kept neighbours move to its front, nothing else changes. *)
Lemma filter_row_loop i h l0 row : 0 <= i < getN p -> 0 <= h -> h + Z.of_nat (length row) <= Z.of_nat (length l0) -> Z.of_nat (length row) <= C ->
  (forall k x, row !! k = Some x -> l0 !! (Z.to_nat h + k)%nat = Some x) ->
  exists l, for_run (length row) 0 (filter_entry e i h (zget 0 (m_n_ex_idx e) i)) (0, l0) = Ret (Z.of_nat (length (kept_to row i (length row))), l) /\
    length l = length l0 /\ (forall k x, kept_to row i (length row) !! k = Some x -> l !! (Z.to_nat h + k)%nat = Some x) /\
    forall a, (a < Z.to_nat h)%nat \/ (Z.to_nat h + length row <= a)%nat -> l !! a = l0 !! a.
Proof.
  intros Hi Hh Room Lc Hr.
  destruct (for_run_inv (fun k '(m, l) => m = Z.of_nat (length (kept_to row i (Z.to_nat k))) /\ length l = length l0 /\
    (forall j x, kept_to row i (Z.to_nat k) !! j = Some x -> l !! (Z.to_nat h + j)%nat = Some x) /\
    forall a, (a < Z.to_nat h)%nat \/ (Z.to_nat h + Z.to_nat k <= a)%nat -> l !! a = l0 !! a)
    (length row) 0 (filter_entry e i h (zget 0 (m_n_ex_idx e) i)) (0, l0)) as ([m l] & -> & Em & Ll & Kl & Fl).
  - unfold kept_to. rewrite take_0. split_and!; [reflexivity|reflexivity|intros j x Hx; discriminate Hx|reflexivity].
  - intros k [m l] Hk (-> & Ll & Kl & Fl). unfold filter_entry. destruct (lookup_lt_is_Some_2 row (Z.to_nat k) ltac:(lia)) as [x Hx].
    assert (Rx : l !! Z.to_nat (h + k) = Some x) by (rewrite Z2Nat.inj_add, Fl by lia; now apply Hr). rewrite (read_Some _ _ _ Rx). cbn [run_bind].
    destruct (Counts i Hi) as [_ Bn]. rewrite (scan_row_spec w) by (assumption || lia). cbn [run_bind]. fold (idx_partners e i).
    replace (Z.to_nat (k + 1)) with (S (Z.to_nat k)) by lia. rewrite (kept_to_S _ _ _ _ Hx). pose proof (length_kept_to row i (Z.to_nat k)) as Lk. case_bool_decide as X.
    + rewrite app_nil_r. eexists. split; [reflexivity|]. split_and!; [reflexivity|exact Ll|exact Kl|]. intros a Ha. apply Fl. lia.
    + rewrite write_in by lia. cbn [run_bind]. eexists. split; [reflexivity|]. rewrite length_app. simpl. split_and!.
      * rewrite u32_small by (unfold is_u32; lia). lia.
      * now rewrite length_zset.
      * intros j y Hy. replace (Z.to_nat h + j)%nat with (Z.to_nat (h + Z.of_nat j)) by lia. apply lookup_app_Some in Hy as [Hy|[Lj Hy]].
        { pose proof (lookup_lt_Some _ _ _ Hy). rewrite lookup_zset_ne by lia. rewrite Z2Nat.inj_add, Nat2Z.id by lia. now apply Kl. }
        { apply list_lookup_singleton_Some in Hy as [Ej <-]. replace j with (length (kept_to row i (Z.to_nat k))) by lia. apply lookup_zset_eq. lia. }
      * intros a Ha. rewrite lookup_zset_ne by lia. apply Fl. lia.
  - rewrite Z.add_0_l, Nat2Z.id in *. subst m. exists l. auto.
Qed.

(** The state after the rows below [i]. *)
Definition progress_of (cand : Z -> list Z) (i : Z) (j : Z) : list Z := if j <? i then kept cand j else cand j.

Lemma filter_row_spec cand s i : lists_ok p C s -> holds p (progress_of cand i) s -> 0 <= i < getN p ->
  exists s', filter_row e i s = Ret s' /\ lists_ok p C s' /\ holds p (progress_of cand (i + 1)) s' /\ m_Nmax s' = m_Nmax s /\ m_conditions s' = m_conditions s.
Proof.
  intros O [Hc Hf Hr] Hi. unfold filter_row. rewrite (read_Some _ _ _ (lo_heads _ _ _ O i Hi)). cbn [run_bind].
  assert (Pi : progress_of cand i i = cand i) by (unfold progress_of; destruct (Z.ltb_spec i i); [lia|reflexivity]).
  rewrite (read_Some _ _ _ (Hc i Hi)). cbn [run_bind]. rewrite Pi. destruct (Counts i Hi) as [Ce Be]. rewrite (read_Some _ _ _ Ce). cbn [run_bind].
  pose proof (lo_nmax _ _ _ O) as Cp. destruct (cap_lookup p Typed C _ i Cp Hi) as [_ Bc]. pose proof (Hf i Hi) as Fi. rewrite Pi in Fi.
  pose proof (offset_next p Typed C _ i (getN p) Cp ltac:(lia) ltac:(lia)) as On. pose proof (lo_room _ _ _ O) as Ro. pose proof (offset_bounds p Typed C _ i Cp ltac:(lia)) as Ob.
  set (h := offset p (m_Nmax s) i) in *.
  destruct (filter_row_loop i h (m_nlist s) (cand i) Hi ltac:(lia) ltac:(lia) ltac:(lia)) as (l & El & Ll & Kl & Fl); [intros k x Hx; apply Hr; [assumption|now rewrite Pi]|].
  rewrite Nat2Z.id, El. cbn [run_bind]. pose proof (lo_n_neigh _ _ _ O) as Ln. rewrite write_in by lia. cbn [run_bind].
  assert (Ek : kept_to (cand i) i (length (cand i)) = kept cand i) by (unfold kept_to, kept; now rewrite firstn_all). rewrite Ek in *.
  assert (Lk : (length (kept cand i) <= length (cand i))%nat) by (unfold kept; apply length_filter).
  eexists. split; [reflexivity|]. split; [|split; [|split; reflexivity]].
  - destruct O. constructor; simpl; try assumption; [now rewrite length_zset|lia].
  - assert (New : forall j, 0 <= j < getN p -> progress_of cand (i + 1) j = if j =? i then kept cand i else progress_of cand i j).
    { intros j Hj. unfold progress_of. destruct (Z.eqb_spec j i) as [->|]; [destruct (Z.ltb_spec i (i + 1)); [reflexivity|lia]|].
      destruct (Z.ltb_spec j (i + 1)), (Z.ltb_spec j i); try reflexivity; lia. }
    constructor; simpl.
    + intros j Hj. rewrite (New j Hj). destruct (Z.eqb_spec j i) as [->|]; [apply lookup_zset_eq; lia|]. rewrite lookup_zset_ne by lia. now apply Hc.
    + intros j Hj. rewrite (New j Hj). destruct (Z.eqb_spec j i) as [->|]; [lia|]. now apply Hf.
    + intros j k x Hj. rewrite (New j Hj). destruct (Z.eqb_spec j i) as [->|D]; intros Hx; [now apply Kl|]. rewrite Fl; [now apply Hr|].
      pose proof (lookup_lt_Some _ _ _ Hx) as Lx. pose proof (Hf j Hj) as Fj. pose proof (offset_bounds p Typed C _ j Cp ltac:(lia)) as Oj.
      destruct (Z.lt_ge_cases j i); [pose proof (offset_next p Typed C _ j i Cp ltac:(lia) ltac:(lia))|pose proof (offset_next p Typed C _ i j Cp ltac:(lia) ltac:(lia))]; unfold h; lia.
Qed.

Lemma filterNlist_spec cand n : nl_ex n = e -> lists_ok p C (nl_lists n) -> holds p cand (nl_lists n) ->
  exists s, filterNlist p n = Ret (set_lists s n) /\ lists_ok p C s /\ holds p (kept cand) s /\ m_Nmax s = m_Nmax (nl_lists n) /\ m_conditions s = m_conditions (nl_lists n).
Proof.
  intros Ee O Hd. unfold filterNlist. rewrite Ee.
  destruct (for_run_inv (fun i s => lists_ok p C s /\ holds p (progress_of cand i) s /\ m_Nmax s = m_Nmax (nl_lists n) /\ m_conditions s = m_conditions (nl_lists n))
    (Z.to_nat (getN p)) 0 (filter_row e) (nl_lists n)) as (s & -> & O' & H' & M' & C').
  - split; [exact O|]. split; [|auto]. assert (P0 : forall j, 0 <= j < getN p -> progress_of cand 0 j = cand j) by (intros j Hj; unfold progress_of; destruct (Z.ltb_spec j 0); [lia|reflexivity]).
    destruct Hd as [h1 h2 h3]. constructor; intros j; intros; rewrite ?P0 in * by assumption; auto.
  - intros i s Hi (O' & H' & M' & C'). destruct (filter_row_spec cand s i O' H' ltac:(lia)) as (s' & Es & O2 & H2 & M2 & C2). exists s'. split; [exact Es|]. split_and!; [assumption..|congruence|congruence].
  - exists s. split; [reflexivity|]. split; [exact O'|]. split; [|auto]. rewrite Z.add_0_l, Z2Nat.id in H' by lia.
    assert (PN : forall j, 0 <= j < getN p -> progress_of cand (getN p) j = kept cand j) by (intros j Hj; unfold progress_of; destruct (Z.ltb_spec j (getN p)); [reflexivity|lia]).
    destruct H' as [h1 h2 h3]. constructor; intros j; intros; rewrite <- ?PN in * by assumption; auto.
Qed.

End filter.
