(* ===== verification/NeighborListVerlet.v ===== *)
(** Why the neighbour list may be kept between rebuilds: the distance check of an
    unchanged box lets no pair come within its cutoff that was not within the list
    radius at the last build. *)

From Stdlib Require Import ZArith Lia QArith Qabs Lqa String Bool.
From stdpp Require Import base list list_numbers strings.
From S2P Require Import Prelude HOOMDMath Index1D BoxDim ParticleData PotentialPairTables CellList NeighborList NeighborListProps.
Local Open Scope Z_scope.
Local Open Scope hoomd_scope.

(** * Lengths *)

Local Open Scope Q_scope.

Definition norm2 (v : Scalar3) : Q := s3x v * s3x v + s3y v * s3y v + s3z v * s3z v.

#[export] Instance norm2_proper : Proper (s3_eq ==> Qeq) norm2.
Proof. intros v w (X & Y & Z). unfold norm2. now rewrite X, Y, Z. Qed.

Lemma sq_nonneg (x : Q) : 0 <= x * x.
Proof. nra. Qed.

Lemma sq_le (x y : Q) : 0 <= y -> x * x <= y * y -> x <= y.
Proof. intros Hy H. apply Qnot_lt_le. intros L. nra. Qed.

Lemma Qabs_sq (x : Q) : Qabs x * Qabs x == x * x.
Proof. apply Qabs_case; intros _; ring. Qed.

Lemma Qabs_le_sq (x y : Q) : 0 <= y -> x * x <= y * y -> Qabs x <= y.
Proof. intros Hy H. apply sq_le; [exact Hy|]. now rewrite Qabs_sq. Qed.

(** Cauchy-Schwarz and the triangle inequality without roots. *)
Lemma dot_le a b A B : 0 <= A -> 0 <= B -> norm2 a <= A * A -> norm2 b <= B * B -> s3x a * s3x b + s3y a * s3y b + s3z a * s3z b <= A * B.
Proof.
  intros HA HB Ha Hb. apply sq_le; [nra|]. unfold norm2 in *. set (a1 := s3x a) in *. set (a2 := s3y a) in *. set (a3 := s3z a) in *.
  set (b1 := s3x b) in *. set (b2 := s3y b) in *. set (b3 := s3z b) in *.
  assert (CS : (a1 * b1 + a2 * b2 + a3 * b3) * (a1 * b1 + a2 * b2 + a3 * b3) <= (a1 * a1 + a2 * a2 + a3 * a3) * (b1 * b1 + b2 * b2 + b3 * b3)).
  { pose proof (sq_nonneg (a1 * b2 - a2 * b1)) as S1. pose proof (sq_nonneg (a1 * b3 - a3 * b1)) as S2. pose proof (sq_nonneg (a2 * b3 - a3 * b2)) as S3.
    assert (E : (a1 * a1 + a2 * a2 + a3 * a3) * (b1 * b1 + b2 * b2 + b3 * b3) - (a1 * b1 + a2 * b2 + a3 * b3) * (a1 * b1 + a2 * b2 + a3 * b3) ==
      (a1 * b2 - a2 * b1) * (a1 * b2 - a2 * b1) + (a1 * b3 - a3 * b1) * (a1 * b3 - a3 * b1) + (a2 * b3 - a3 * b2) * (a2 * b3 - a3 * b2)) by ring. lra. }
  assert (P : (a1 * a1 + a2 * a2 + a3 * a3) * (b1 * b1 + b2 * b2 + b3 * b3) <= (A * A) * (B * B)).
  { apply Qmult_le_compat_nonneg; split; nra. }
  lra.
Qed.

Lemma norm2_add a b A B : 0 <= A -> 0 <= B -> norm2 a <= A * A -> norm2 b <= B * B -> norm2 (s3_add a b) <= (A + B) * (A + B).
Proof.
  intros HA HB Ha Hb. pose proof (dot_le a b A B HA HB Ha Hb) as D. unfold norm2, s3_add in *. cbn [s3x s3y s3z].
  set (a1 := s3x a) in *. set (a2 := s3y a) in *. set (a3 := s3z a) in *. set (b1 := s3x b) in *. set (b2 := s3y b) in *. set (b3 := s3z b) in *. nra.
Qed.

Lemma norm2_opp a : norm2 (s3_opp a) == norm2 a.
Proof. unfold norm2, s3_opp. cbn [s3x s3y s3z]. ring. Qed.

Lemma norm2_component a A : 0 <= A -> norm2 a <= A * A -> Qabs (s3x a) <= A /\ Qabs (s3y a) <= A /\ Qabs (s3z a) <= A.
Proof. intros HA H. unfold norm2 in H. repeat split; apply Qabs_le_sq; try exact HA; nra. Qed.

(** * Short vectors *)

(** The reciprocal root never exceeds the exact one. *)
Class RSqrt (rsqrt : Scalar -> Scalar) : Prop := {
  rsqrt_pos : forall x, 1 <= x -> 0 < rsqrt x;
  rsqrt_below : forall x, 1 <= x -> rsqrt x * rsqrt x * x <= 1
}.

Section short.
Context (rsqrt : Scalar -> Scalar) `{RS : !RSqrt rsqrt}.
Variable b : BoxDim.t.
Hypothesis W : BoxDim.wf b.
Hypothesis Cen : BoxDim.centred b.

Lemma rsqrt_le_1 x : 1 <= x -> rsqrt x <= 1.
Proof. intros Hx. pose proof (rsqrt_pos x Hx). pose proof (rsqrt_below x Hx). apply Qnot_lt_le. intros L. nra. Qed.

Lemma one_le_sq_x : 1 <= 1 + BoxDim.m_xy b * BoxDim.m_xy b + (BoxDim.m_xy b * BoxDim.m_yz b - BoxDim.m_xz b) * (BoxDim.m_xy b * BoxDim.m_yz b - BoxDim.m_xz b).
Proof. pose proof (sq_nonneg (BoxDim.m_xy b)). pose proof (sq_nonneg (BoxDim.m_xy b * BoxDim.m_yz b - BoxDim.m_xz b)). lra. Qed.

Lemma one_le_sq_y : 1 <= 1 + BoxDim.m_yz b * BoxDim.m_yz b.
Proof. pose proof (sq_nonneg (BoxDim.m_yz b)). lra. Qed.

Definition planes : Scalar3 := BoxDim.getNearestPlaneDistance rsqrt b.

Lemma planes_le_L : (0 < s3x planes <= s3x (BoxDim.m_L b)) /\ (0 < s3y planes <= s3y (BoxDim.m_L b)) /\ (0 < s3z planes <= s3z (BoxDim.m_L b)).
Proof.
  destruct W as (_ & (Px & Py & Pz) & _). unfold planes, BoxDim.getNearestPlaneDistance. cbn [s3x s3y s3z].
  pose proof (rsqrt_pos _ one_le_sq_x) as X1. pose proof (rsqrt_le_1 _ one_le_sq_x) as X2. pose proof (rsqrt_pos _ one_le_sq_y) as Y1. pose proof (rsqrt_le_1 _ one_le_sq_y) as Y2.
  set (rx := rsqrt (1 + _ * _ + _)) in *. set (ry := rsqrt (1 + _ * _)) in *.
  destruct (Qeq_bool (s3z (BoxDim.m_L b)) 0) eqn:E; [apply Qeq_bool_eq in E; lra|]. repeat split; nra.
Qed.

(** The radius is below half of the plane distances along the periodic axes. *)
Definition fits_box (r : Q) : Prop :=
  (BoxDim.u3x (BoxDim.m_periodic b) = true -> r * 2 < s3x planes) /\ (BoxDim.u3y (BoxDim.m_periodic b) = true -> r * 2 < s3y planes) /\
  (BoxDim.u3z (BoxDim.m_periodic b) = true -> r * 2 < s3z planes).

Lemma short_minimal v r : 0 <= r -> fits_box r -> norm2 v <= r * r -> BoxDim.strictly_minimal b v.
Proof.
  intros Hr (Fx & Fy & Fz) Hv. destruct (norm2_component v r Hr Hv) as (X & Y & Z). destruct planes_le_L as ([_ Lx] & [_ Ly] & [_ Lz]).
  repeat split; intros P; [specialize (Fx P)|specialize (Fy P)|specialize (Fz P)]; lra.
Qed.

(** The images of a short vector fold back to it. *)
Lemma minImage_short v w n r : BoxDim.foldable b v -> 0 <= r -> fits_box r -> norm2 w <= r * r -> w =3= BoxDim.shift b v n -> BoxDim.periodic_image b n ->
  exists w', BoxDim.minImage b v = Some w' /\ w' =3= w.
Proof.
  intros F Hr Fb Hw E P. destruct (minImage_spec b W Cen v F) as (w' & n' & M & E' & Mn & P'). exists w'. split; [exact M|]. symmetry.
  apply (minimal_unique b W v w w' n n'); try assumption. now apply (short_minimal w r).
Qed.

(** ** Images add up *)

Lemma shift_sub v u n m : s3_sub (BoxDim.shift b v n) (BoxDim.shift b u m) =3= BoxDim.shift b (s3_sub v u) (make_int3 (i3x n - i3x m) (i3y n - i3y m) (i3z n - i3z m)).
Proof.
  pose proof (shift_components b v n) as A. pose proof (shift_components b u m) as B.
  pose proof (shift_components b (s3_sub v u) (make_int3 (i3x n - i3x m) (i3y n - i3y m) (i3z n - i3z m))) as C.
  destruct A as (A1 & A2 & A3), B as (B1 & B2 & B3), C as (C1 & C2 & C3). cbn [s3x s3y s3z i3x i3y i3z s3_sub] in *. unfold Z.sub in *.
  rewrite ?inject_Z_plus, ?inject_Z_opp in *. unfold s3_sub. repeat split; cbn [s3x s3y s3z]; [rewrite A1, B1, C1|rewrite A2, B2, C2|rewrite A3, B3, C3]; ring.
Qed.

Lemma periodic_sub n m : BoxDim.periodic_image b n -> BoxDim.periodic_image b m -> BoxDim.periodic_image b (make_int3 (i3x n - i3x m) (i3y n - i3y m) (i3z n - i3z m)).
Proof. intros (A1 & A2 & A3) (B1 & B2 & B3). repeat split; intros P; cbn [i3x i3y i3z]; [rewrite A1, B1|rewrite A2, B2|rewrite A3, B3]; auto. Qed.

(** The separation at the build from the separation now and the two displacements. *)
Lemma separation_before xi xj yi yj ui uj d ni nj nd : ui =3= BoxDim.shift b (s3_sub yi xi) ni -> uj =3= BoxDim.shift b (s3_sub yj xj) nj ->
  d =3= BoxDim.shift b (s3_sub yi yj) nd -> BoxDim.periodic_image b ni -> BoxDim.periodic_image b nj -> BoxDim.periodic_image b nd ->
  exists n, BoxDim.periodic_image b n /\ s3_add d (s3_sub uj ui) =3= BoxDim.shift b (s3_sub xi xj) n.
Proof.
  intros Ei Ej Ed Pi Pj Pd. set (dif := fun n m : int3 => make_int3 (i3x n - i3x m) (i3y n - i3y m) (i3z n - i3z m)).
  exists (dif nd (dif ni nj)). split; [now repeat apply periodic_sub|].
  pose proof (shift_sub (s3_sub yi xi) (s3_sub yj xj) ni nj) as S1.
  pose proof (shift_sub (s3_sub yi yj) (s3_sub (s3_sub yi xi) (s3_sub yj xj)) nd (dif ni nj)) as S2.
  assert (A : s3_add d (s3_sub uj ui) =3= s3_sub (BoxDim.shift b (s3_sub yi yj) nd) (BoxDim.shift b (s3_sub (s3_sub yi xi) (s3_sub yj xj)) (dif ni nj))).
  { destruct Ei as (Ei1 & Ei2 & Ei3), Ej as (Ej1 & Ej2 & Ej3), Ed as (Ed1 & Ed2 & Ed3), S1 as (S11 & S12 & S13). fold (dif ni nj) in *.
    unfold s3_add, s3_sub in *. cbn [s3x s3y s3z] in *. repeat split; cbn [s3x s3y s3z]; [rewrite Ed1, Ei1, Ej1, <- S11|rewrite Ed2, Ei2, Ej2, <- S12|rewrite Ed3, Ei3, Ej3, <- S13]; ring. }
  rewrite A, S2. apply shift_proper; [|reflexivity]. unfold s3_sub. repeat split; cbn [s3x s3y s3z]; ring.
Qed.

(** The core of the argument: displacements below half of the buffer keep every
    pair within the cutoff inside of the list radius of the build. *)
Lemma still_listed xi xj yi yj vi vj r_cut r_buff : vi =3= s3_sub yi xi -> vj =3= s3_sub yj xj -> 0 <= r_cut -> 0 <= r_buff -> fits_box (r_cut + r_buff) ->
  BoxDim.foldable b (s3_sub xi xj) -> BoxDim.foldable b (s3_sub yi yj) -> BoxDim.foldable b vi -> BoxDim.foldable b vj ->
  (forall u, BoxDim.minImage b vi = Some u -> norm2 u <= r_buff * r_buff / 4) ->
  (forall u, BoxDim.minImage b vj = Some u -> norm2 u <= r_buff * r_buff / 4) ->
  (forall d, BoxDim.minImage b (s3_sub yi yj) = Some d -> norm2 d <= r_cut * r_cut) ->
  exists d, BoxDim.minImage b (s3_sub xi xj) = Some d /\ norm2 d <= (r_cut + r_buff) * (r_cut + r_buff).
Proof.
  intros Vi Vj Hc Hb Fb F0 F1 Fi Fj Ui Uj D1.
  destruct (minImage_spec b W Cen _ Fi) as (ui & ni & Mi & Ei & _ & Pi). destruct (minImage_spec b W Cen _ Fj) as (uj & nj & Mj & Ej & _ & Pj).
  assert (Sh : forall u v w k, u =3= BoxDim.shift b v k -> v =3= w -> u =3= BoxDim.shift b w k) by (intros u v w k E1 E2; rewrite E1; now apply shift_proper).
  pose proof (Sh _ _ _ _ Ei Vi) as Ei'. pose proof (Sh _ _ _ _ Ej Vj) as Ej'. destruct (minImage_spec b W Cen _ F1) as (d & nd & Md & Ed & _ & Pd). specialize (Ui _ Mi). specialize (Uj _ Mj). specialize (D1 _ Md).
  destruct (separation_before xi xj yi yj ui uj d ni nj nd Ei' Ej' Ed Pi Pj Pd) as (n & Pn & En).
  assert (Half : forall u, norm2 u <= r_buff * r_buff / 4 -> norm2 u <= r_buff * (1 # 2) * (r_buff * (1 # 2))).
  { intros u Hu. assert (E : r_buff * (1 # 2) * (r_buff * (1 # 2)) == r_buff * r_buff / 4) by field. now rewrite E. }
  assert (Nu : norm2 (s3_sub uj ui) <= r_buff * r_buff).
  { assert (E : s3_sub uj ui =3= s3_add uj (s3_opp ui)) by (unfold s3_sub, s3_add, s3_opp; repeat split; cbn [s3x s3y s3z]; ring). rewrite E.
    eapply Qle_trans; [apply (norm2_add uj (s3_opp ui) (r_buff * (1 # 2)) (r_buff * (1 # 2))); [lra|lra|now apply Half|rewrite norm2_opp; now apply Half]|]. lra. }
  assert (Nd : norm2 (s3_add d (s3_sub uj ui)) <= (r_cut + r_buff) * (r_cut + r_buff)) by (now apply norm2_add).
  destruct (minImage_short (s3_sub xi xj) (s3_add d (s3_sub uj ui)) n (r_cut + r_buff) F0 ltac:(lra) Fb Nd En Pn) as (d0 & M0 & E0).
  exists d0. split; [exact M0|]. now rewrite E0.
Qed.

End short.
