(* ===== verification/NeighborListBuild.v ===== *)
(** The neighbour list built from cells: [buildNlist] of [NeighborListBinned] puts
    into the rows the particles of the adjacent cells that are neighbours. *)

From Stdlib Require Import ZArith Lia QArith String Bool.
From stdpp Require Import base list list_numbers sorting strings.
From S2P Require Import Prelude HOOMDMath Index1D BoxDim ParticleData PotentialPairTables CellList CellListAdj CellListProps CellListSpec.
From S2P Require Import NeighborList NeighborListBinned NeighborListProps.
Local Open Scope Z_scope.
Local Open Scope hoomd_scope.

(** * Loops over a list *)

Fixpoint each {A S} (g : A -> S -> run S) (l : list A) (s : S) : run S :=
  match l with
  | [] => Ret s
  | x :: l => bind! s := g x s in each g l s
  end.

Lemma for_run_each {A S} (g : A -> S -> run S) body l : forall k, (forall idx x s, l !! idx = Some x -> body (k + Z.of_nat idx) s = g x s) ->
  forall s, for_run (length l) k body s = each g l s.
Proof.
  induction l as [|x l IH]; intros k H s; simpl; [reflexivity|]. pose proof (H 0%nat x s eq_refl) as H0. rewrite Z.add_0_r in H0. rewrite H0.
  destruct (g x s) as [s'| |]; simpl; [|reflexivity..]. apply IH. intros idx y s1 Hy. rewrite <- (H (Datatypes.S idx) y s1 Hy). f_equal. lia.
Qed.

Lemma each_ext {A S} (g h : A -> S -> run S) l : (forall x s, x ∈ l -> g x s = h x s) -> forall s, each g l s = each h l s.
Proof.
  induction l as [|x l IH]; intros H s; simpl; [reflexivity|]. rewrite H by left. destruct (h x s); simpl; [|reflexivity..]. apply IH. intros. apply H. now right.
Qed.

Lemma each_app {A S} (g : A -> S -> run S) l k s : each g (l ++ k) s = run_bind (each g l s) (each g k).
Proof. revert s. induction l as [|x l IH]; intros s; simpl; [reflexivity|]. destruct (g x s); simpl; [apply IH|reflexivity..]. Qed.

Lemma each_flat_map {A B S} (g : B -> S -> run S) (f : A -> list B) l : forall s, each (fun x => each g (f x)) l s = each g (flat_map f l) s.
Proof. induction l as [|x l IH]; intros s; simpl; [reflexivity|]. rewrite each_app. destruct (each g (f x) s); simpl; [apply IH|reflexivity..]. Qed.

(** A step that does nothing for some elements. *)
Lemma each_filter {A S} (P : A -> Prop) `{forall x, Decision (P x)} (g : A -> S -> run S) l : (forall x s, x ∈ l -> ~ P x -> g x s = Ret s) ->
  forall s, each g l s = each g (filter P l) s.
Proof.
  induction l as [|x l IH]; intros N s; [reflexivity|]. rewrite filter_cons. assert (N' : forall y s, y ∈ l -> ~ P y -> g y s = Ret s) by (intros; apply N; [now right|assumption]).
  simpl. case_decide; simpl; [destruct (g x s); simpl; auto|]. rewrite N by (assumption || left). simpl. auto.
Qed.

(** * One particle *)

(** The counts and rows after a list of neighbours, and the size that is needed. *)
Lemma store_all_spec ty Nm h l : 0 <= h -> 0 <= Nm -> 0 <= ty -> forall k nl cond c, 0 <= k -> k + Z.of_nat (length l) < 2 ^ 32 -> h + Nm <= Z.of_nat (length nl) -> cond !! Z.to_nat ty = Some c ->
  exists nl' cond', each (store_neighbor ty Nm h) l (mkProgress k nl cond) = Ret (mkProgress (k + Z.of_nat (length l)) nl' cond') /\
    length nl' = length nl /\ length cond' = length cond /\
    (forall idx x, l !! idx = Some x -> k + Z.of_nat idx < Nm -> nl' !! Z.to_nat (h + k + Z.of_nat idx) = Some x) /\
    (forall a, Z.of_nat a < h + k \/ h + Nm <= Z.of_nat a -> nl' !! a = nl !! a) /\
    cond' !! Z.to_nat ty = Some (if (Nm <? k + Z.of_nat (length l)) && negb (Nat.eqb (length l) 0) then Z.max c (k + Z.of_nat (length l)) else c) /\
    forall a, a <> Z.to_nat ty -> cond' !! a = cond !! a.
Proof.
  intros Hh HN Hty. induction l as [|x l IH]; intros k nl cond c Hk Hl Room Hc; simpl length in *.
  { exists nl, cond. simpl. rewrite Z.add_0_r, andb_false_r. split_and!; auto. intros idx x E. discriminate. }
  cbn [each]. unfold store_neighbor at 1. cbn [cur_n_neigh pr_nlist pr_conditions]. rewrite (u32_small (k + 1)) by (unfold is_u32; lia). destruct (Z.ltb_spec k Nm) as [Lt|Ge].
  - rewrite write_in by lia. cbn [run_bind]. destruct (IH (k + 1) (zset nl (h + k) x) cond c) as (nl' & cond' & E & L1 & L2 & R & O & Ct & Co); [lia|lia|rewrite length_zset; lia|exact Hc|].
    exists nl', cond'. split_and!.
    + rewrite E. do 2 f_equal. lia.
    + now rewrite L1, length_zset.
    + exact L2.
    + intros [|idx] y Hy Hi; simpl in Hy.
      * injection Hy as <-. rewrite O by lia. replace (h + k + Z.of_nat 0) with (h + k) by lia. apply lookup_zset_eq. lia.
      * replace (h + k + Z.of_nat (S idx)) with (h + (k + 1) + Z.of_nat idx) by lia. apply R; [exact Hy|lia].
    + intros a Ha. rewrite O by lia. apply lookup_zset_ne. lia.
    + rewrite Ct. replace (k + 1 + Z.of_nat (length l)) with (k + Z.of_nat (S (length l))) by lia. destruct l; cbn [length Nat.eqb negb]; [|reflexivity].
      rewrite andb_false_r, andb_true_r. destruct (Z.ltb_spec Nm (k + Z.of_nat 1)); [lia|reflexivity].
    + exact Co.
  - rewrite (read_Some _ _ _ Hc). cbn [run_bind]. pose proof (lookup_lt_Some _ _ _ Hc) as Lc. rewrite write_in by lia. cbn [run_bind].
    destruct (IH (k + 1) nl (zset cond ty (Z.max c (k + 1))) (Z.max c (k + 1))) as (nl' & cond' & E & L1 & L2 & R & O & Ct & Co); [lia|lia|lia|apply lookup_zset_eq; lia|].
    exists nl', cond'. split_and!.
    + rewrite E. do 2 f_equal. lia.
    + exact L1.
    + now rewrite L2, length_zset.
    + intros idx y _ Hi. lia.
    + intros a Ha. apply O. lia.
    + rewrite Ct. f_equal. replace (k + Z.of_nat (S (length l))) with (k + 1 + Z.of_nat (length l)) by lia. destruct (Z.ltb_spec Nm (k + 1 + Z.of_nat (length l))); [|lia].
      destruct l; simpl; lia.
    + intros a Ha. rewrite Co by exact Ha. apply lookup_zset_ne. lia.
Qed.

(** The decision for a pair; [is_neighbor] never fails in the states below. *)
Definition neighbor (p : pdata) (n : nlist) (i j : Z) : bool :=
  match is_neighbor p n i (element i p) (pos (element j p)) j with Ret b => b | _ => false end.

Section cells.
Variable rsqrt : Scalar -> Scalar.
Variable dimensions : Z.
Variable p : pdata.
Hypothesis Ghosts : m_nghosts p = 0.
Hypothesis Np : 0 <= getN p < 2 ^ 32 - 1.
Hypothesis Typed : particles_typed p.

Lemma total_eq : u32 (getN p + m_nghosts p) = getN p.
Proof. rewrite Ghosts, Z.add_0_r. apply u32_small. unfold is_u32. lia. Qed.

(** The particles of the cells around a particle. *)
Definition in_cell (d : uint3) (c : Z) : list Z := Z.of_nat <$> members rsqrt p d c (Z.to_nat (getN p)).

Definition around_particle (q : params) (d : uint3) (i : Z) : list Z :=
  match find_cell rsqrt (m_global_box p) d (element i p) with
  | Ret (Some (a, b, c)) => flat_map (in_cell d) (adjacent_cells dimensions q (Index3D.make (ux d) (uy d) (uz d)) d a b c)
  | _ => []
  end.

Definition candidates (q : params) (d : uint3) (n : nlist) (i : Z) : list Z := filter (fun j => neighbor p n i j = true) (around_particle q d i).

Lemma in_cell_range d cc j : j ∈ in_cell d cc -> 0 <= j < getN p.
Proof. intros (m & -> & Hm)%list_elem_of_fmap. unfold members in Hm. apply list_elem_of_filter in Hm as [_ Hm%elem_of_seq]. lia. Qed.

Lemma NoDup_in_cell d cc : NoDup (in_cell d cc).
Proof. unfold in_cell, members. apply NoDup_fmap_2; [intros x y; lia|]. apply NoDup_filter, NoDup_seq. Qed.

(** Every particle is around at most once. *)
Lemma NoDup_around q d i : NoDup (around_particle q d i).
Proof.
  unfold around_particle. destruct (find_cell _ _ _ _) as [[[[a b] cc]|]| |]; try constructor. apply NoDup_flat_map.
  - apply sorted_lt_NoDup. exact (proj1 (unique_spec _ (StronglySorted_merge_sort Z.le _))).
  - intros x _. apply NoDup_in_cell.
  - intros x y z _ _ (m & -> & Hm)%list_elem_of_fmap (m' & E & Hm')%list_elem_of_fmap. assert (m = m') as <- by lia.
    apply list_elem_of_filter in Hm as [Hm _], Hm' as [Hm' _]. congruence.
Qed.

Lemma around_range q d i j : j ∈ around_particle q d i -> 0 <= j < getN p.
Proof.
  unfold around_particle. destruct (find_cell _ _ _ _) as [[[[a b] cc]|]| |]; try (intros H; now apply elem_of_nil in H).
  rewrite elem_of_flat_map. intros (x & _ & Hx). now apply (in_cell_range d x).
Qed.

Lemma length_candidates q d n i : Z.of_nat (length (candidates q d n i)) <= getN p.
Proof.
  assert (Sub : candidates q d n i ⊆+ seqZ 0 (getN p)).
  { apply NoDup_submseteq; [apply NoDup_filter, NoDup_around|]. intros j Hj. apply list_elem_of_filter in Hj as [_ Hj]. apply around_range in Hj. apply elem_of_seqZ. lia. }
  apply submseteq_length in Sub. rewrite length_seqZ in Sub. lia.
Qed.

Lemma adjacent_range q d a b c x : 0 < ux d /\ 0 < uy d /\ 0 < uz d -> ux d * uy d * uz d < 2 ^ 32 -> 0 <= m_radius q /\ 2 * m_radius q + 1 < 2 ^ 32 ->
  x ∈ adjacent_cells dimensions q (Index3D.make (ux d) (uy d) (uz d)) d a b c -> 0 <= x < ncells d.
Proof.
  intros D Cl R. rewrite (adjacent_cells_permutation dimensions q d D Cl R). unfold neighbor_cells. rewrite elem_of_flat_map.
  intros (k & Hk & (j & Hj & (i & -> & Hi)%list_elem_of_fmap)%elem_of_flat_map). destruct D as (Dx & Dy & Dz). apply (ci_index d (conj Dx (conj Dy Dz)) Cl).
  exact (conj (residues_range _ _ _ _ (proj1 R) Dx Hi) (conj (residues_range _ _ _ _ (proj1 R) Dy Hj) (residues_range _ _ _ _ (rz_nonneg dimensions q R) Dz Hk))).
Qed.

(** ** Reading the cells *)

Section reading.
Variable q : params.
Variable c : store.
Let d := m_dim c.
Hypothesis L : layout dimensions q c.
Hypothesis G : grid_ok dimensions q d.
Hypothesis CC : cells_correct rsqrt p q c.
Hypothesis Inside : all_inside rsqrt p d.
Hypothesis Xyzf : m_compute_xyzf q = true /\ m_flag_charge q = false /\ m_flag_type q = false.
Hypothesis Adj : m_compute_adj_list q = true.
Variable n : nlist.
Hypothesis Total : forall i j, 0 <= i < getN p -> 0 <= j < getN p -> exists b, is_neighbor p n i (element i p) (pos (element j p)) j = Ret b.

Abbreviation visit i Nm h := (fun j => visit_entry p n i (element i p) Nm h (pos (element j p), flag_index j)).

Lemma visit_cell_each i Nm h cc s : 0 <= cc < ncells d -> visit_cell p n c i (element i p) Nm h cc s = each (visit i Nm h) (in_cell d cc) s.
Proof.
  intros Hc. unfold visit_cell. destruct (cc_count _ _ _ _ CC cc Hc) as [Sz Fit]. fold d in Sz, Fit. rewrite total_eq in Sz, Fit. rewrite (read_Some _ _ _ Sz). cbn [run_bind].
  rewrite Nat2Z.id. replace (length (members rsqrt p d cc (Z.to_nat (getN p)))) with (length (in_cell d cc)) by apply length_fmap.
  apply for_run_each. intros idx x s1 Hx. rewrite Z.add_0_l. unfold in_cell in Hx. apply list_lookup_fmap_Some in Hx as (m & -> & Hm).
  pose proof (cc_entries _ _ _ _ CC cc idx m Hc) as E. fold d in E. rewrite total_eq in E. specialize (E Hm). cbn zeta in E. destruct E as [E _]. specialize (E (proj1 Xyzf)).
  rewrite (read_Some _ _ _ E). cbn [run_bind]. unfold flag_of. now rewrite (proj1 (proj2 Xyzf)), (proj2 (proj2 Xyzf)).
Qed.

Lemma to_int_uint x z : to_int x = Some z -> 0 <= z -> to_uint x = Ret z.
Proof.
  unfold to_int, to_uint. destruct (_ && _) eqn:E; [|discriminate]. intros [= <-] Hz. zbool. destruct (Z.leb_spec 0 (Qtrunc x)); [|lia]. destruct (Z.ltb_spec (Qtrunc x) (2 ^ 32)); [reflexivity|lia].
Qed.

(** The build finds the cell that the cell list used. *)
Lemma bin_of_cell e i j k : find_cell rsqrt (m_global_box p) d e = Ret (Some (i, j, k)) ->
  bin_of rsqrt (m_global_box p) c e = Ret (Index3D.index (Index3D.make (ux d) (uy d) (uz d)) i j k).
Proof.
  unfold find_cell, bin_of. fold d. rewrite (ly_ci _ _ _ L). fold d. destruct (ly_dim _ _ _ L) as (Dx & Dy & Dz). fold d in Dx, Dy, Dz. set (f := BoxDim.makeFraction _ _ _ _).
  destruct (to_int (s3x f * _)) as [ib|] eqn:Ex; [|discriminate]. destruct (to_int (s3y f * _)) as [jb|] eqn:Ey; [|discriminate].
  destruct (to_int (s3z f * _)) as [kb|] eqn:Ez; [|discriminate]. destruct (_ || _ || _); [discriminate|]. destruct (_ || _ || _ || _ || _ || _) eqn:B; [discriminate|].
  intros [= <- <- <-]. zbool. assert (Nn : forall z m (per : bool), 0 < m -> 0 <= (if (z =? m) && per then 0 else z) -> 0 <= z).
  { intros z m per Hm Hz. destruct (Z.eqb_spec z m) as [->|]; [lia|exact Hz]. }
  rewrite (to_int_uint _ _ Ex), (to_int_uint _ _ Ey), (to_int_uint _ _ Ez) by (eapply Nn; [|eassumption]; assumption). reflexivity.
Qed.

Lemma particle_cell i : 0 <= i < getN p -> exists a b cc, find_cell rsqrt (m_global_box p) d (element i p) = Ret (Some (a, b, cc)) /\ in_grid d a b cc.
Proof.
  intros Hi. specialize (Inside (Z.to_nat i)). rewrite total_eq in Inside. specialize (Inside ltac:(lia) ltac:(lia)). unfold cell_at in Inside. rewrite Z2Nat.id in Inside by lia.
  destruct (find_cell _ _ _ _) as [[[[a b] cc]|]| |] eqn:E; [|contradiction..]. exists a, b, cc. split; [reflexivity|]. now apply (find_cell_in_grid rsqrt p c _ _ _ _ _ E).
Qed.

(** The two inner loops go over the particles around. *)
Lemma visit_around i Nm h s : 0 <= i < getN p -> exists my_cell, bin_of rsqrt (m_global_box p) c (element i p) = Ret my_cell /\
  for_run (Z.to_nat (Index2D.m_w (m_cell_adj_indexer c))) 0 (fun cur_adj r =>
    bind! neigh_cell := read (m_cell_adj c) (Index2D.index (m_cell_adj_indexer c) cur_adj my_cell) in
    visit_cell p n c i (element i p) Nm h neigh_cell r) s = each (visit i Nm h) (around_particle q d i) s.
Proof.
  intros Hi. destruct (particle_cell i Hi) as (a & b & cc & E & Gr). rewrite (bin_of_cell _ _ _ _ E). eexists. split; [reflexivity|]. unfold around_particle. rewrite E.
  set (ci := Index3D.make _ _ _). rewrite <- each_flat_map. pose proof (ly_dim _ _ _ L) as D. fold d in D. pose proof (ly_cells _ _ _ L) as Cl. fold d in Cl. unfold ncells in Cl.
  pose proof (length_adjacent_cells dimensions q d D ltac:(lia) (go_radius _ _ _ G) (ly_flat _ _ _ L) a b cc) as Lr. fold ci in Lr.
  assert (Ew : Index2D.m_w (m_cell_adj_indexer c) = n_adj dimensions q d) by now rewrite (ly_adji _ _ _ L Adj). rewrite Ew, <- Lr, Nat2Z.id. apply for_run_each.
  intros idx x s1 Hx. rewrite Z.add_0_l. destruct (row_at dimensions q c L (go_radius _ _ _ G) a b cc idx x Adj Gr (go_adj _ _ _ G Adj) Hx) as [_ R].
  fold d in R. fold ci in R. rewrite (read_Some _ _ _ R). cbn [run_bind]. apply visit_cell_each.
  apply list_elem_of_lookup_2 in Hx. apply (adjacent_range q d a b cc x D ltac:(lia) (go_radius _ _ _ G) Hx).
Qed.

(** ** Building the rows *)

Abbreviation cand := (candidates q d n).

(** The rows of the particles below [k] are built. *)
Record built_to (k : Z) (s s' : lists) : Prop := {
  bo_heads : m_head_list s' = m_head_list s;
  bo_nmax : NeighborList.m_Nmax s' = NeighborList.m_Nmax s;
  bo_len_nlist : length (NeighborList.m_nlist s') = length (NeighborList.m_nlist s);
  bo_len_neigh : length (m_n_neigh s') = length (m_n_neigh s);
  bo_len_cond : length (NeighborList.m_conditions s') = length (NeighborList.m_conditions s);
  bo_count : forall i, 0 <= i < k -> m_n_neigh s' !! Z.to_nat i = Some (Z.of_nat (length (cand i)));
  bo_row : forall i idx x, 0 <= i < k -> cand i !! idx = Some x -> Z.of_nat idx < cap p (NeighborList.m_Nmax s) i ->
    NeighborList.m_nlist s' !! (Z.to_nat (offset p (NeighborList.m_Nmax s) i) + idx)%nat = Some x;
  bo_cond : forall a c', NeighborList.m_conditions s' !! a = Some c' -> NeighborList.m_conditions s !! a = Some c' \/
    exists i, 0 <= i < k /\ a = Z.to_nat (typ (element i p)) /\ c' = Z.of_nat (length (cand i)) /\ cap p (NeighborList.m_Nmax s) i < c';
  bo_over : forall i, 0 <= i < k -> cap p (NeighborList.m_Nmax s) i < Z.of_nat (length (cand i)) ->
    exists c', NeighborList.m_conditions s' !! Z.to_nat (typ (element i p)) = Some c' /\ Z.of_nat (length (cand i)) <= c'
}.

Variable C : Z.

Lemma visit_stored i Nm h pr : 0 <= i < getN p -> each (visit i Nm h) (around_particle q d i) pr = each (store_neighbor (typ (element i p)) Nm h) (cand i) pr.
Proof.
  intros Hi. assert (V : forall j s, j ∈ around_particle q d i -> visit i Nm h j s = if neighbor p n i j then store_neighbor (typ (element i p)) Nm h j s else Ret s).
  { intros j s Hj. unfold visit_entry, neighbor. cbn [fst snd]. destruct (Total i j Hi (around_range q d i j Hj)) as [b ->]. reflexivity. }
  rewrite (each_filter (fun j => neighbor p n i j = true)).
  - apply each_ext. intros j s Hj. apply list_elem_of_filter in Hj as [Hb Hj]. rewrite V by assumption. now rewrite Hb.
  - intros j s Hj Hb. rewrite V by assumption. now destruct (neighbor p n i j).
Qed.

Lemma build_particle_spec s0 s i : lists_ok p C s0 -> built_to i s0 s -> 0 <= i < getN p ->
  exists s', build_particle rsqrt p n c (m_cell_adj c) i s = Ret s' /\ built_to (i + 1) s0 s'.
Proof.
  intros O [B1 B2 B3 B4 B5 B6 B7 B8 B9] Hi. pose proof (lo_nmax _ _ _ O) as Cp. destruct (typed_element p Typed i Hi) as [He Ht].
  destruct (cap_lookup p Typed C _ i Cp Hi) as [Hm Bm]. pose proof (offset_next p Typed C _ i (getN p) Cp ltac:(lia) ltac:(lia)) as Off.
  pose proof (offset_bounds p Typed C _ i Cp ltac:(lia)) as [Ob _]. pose proof (lo_room _ _ _ O) as Room. pose proof (lo_n_neigh _ _ _ O) as Ln. pose proof (lo_conditions _ _ _ O) as Lc.
  unfold build_particle. rewrite (read_Some _ _ _ He). cbn [run_bind]. rewrite B2, (read_Some _ _ _ Hm). cbn [run_bind]. rewrite B1, (read_Some _ _ _ (lo_heads _ _ _ O i Hi)). cbn [run_bind].
  set (Nm := cap p _ i) in *. set (h := offset p _ i) in *. set (pr := mkProgress 0 _ _). destruct (visit_around i Nm h pr Hi) as (my_cell & -> & Ev). cbn [run_bind]. rewrite Ev, visit_stored by exact Hi.
  destruct (lookup_lt_is_Some_2 (NeighborList.m_conditions s) (Z.to_nat (typ (element i p)))) as [c0 Hc0]; [lia|]. pose proof (length_candidates q d n i) as Lcand.
  destruct (store_all_spec (typ (element i p)) Nm h (cand i) Ob ltac:(lia) ltac:(lia) 0 (NeighborList.m_nlist s) (NeighborList.m_conditions s) c0 ltac:(lia) ltac:(lia) ltac:(lia) Hc0)
    as (nl & cond & E & L1 & L2 & R & Out & Ct & Co). fold pr in E. rewrite E. cbn [run_bind cur_n_neigh pr_nlist pr_conditions]. rewrite Z.add_0_l, write_in by lia. cbn [run_bind].
  eexists. split; [reflexivity|]. set (len := Z.of_nat (length (cand i))) in *.
  assert (Mono : exists c1, cond !! Z.to_nat (typ (element i p)) = Some c1 /\ c0 <= c1 /\ (Nm < len -> len <= c1) /\ (c1 = c0 \/ c1 = len /\ Nm < c1)).
  { rewrite Ct. eexists. split; [reflexivity|]. rewrite Z.add_0_l. destruct (Z.ltb_spec Nm len) as [Lt|]; simpl; [|split_and!; auto; lia].
    destruct (Nat.eqb_spec (length (cand i)) 0); simpl; [lia|]. split_and!; lia. }
  destruct Mono as (c1 & Hc1 & Up & Over & Src). constructor; cbn [m_head_list NeighborList.m_Nmax NeighborList.m_nlist m_n_neigh NeighborList.m_conditions]; try assumption; try congruence.
  - now rewrite length_zset.
  - intros j Hj. destruct (Z.eq_dec j i) as [->|]; [apply lookup_zset_eq; lia|]. rewrite lookup_zset_ne by lia. apply B6. lia.
  - intros j idx x Hj Hx Hl. destruct (Z.eq_dec j i) as [->|].
    + specialize (R idx x Hx ltac:(lia)). fold h. rewrite <- R. f_equal. lia.
    + pose proof (offset_next p Typed C _ j i Cp ltac:(lia) ltac:(lia)) as Oj. fold h in Oj. pose proof (offset_bounds p Typed C _ j Cp ltac:(lia)).
      rewrite Out by lia. apply B7; [lia|assumption..].
  - intros a c' Ha. destruct (decide (a = Z.to_nat (typ (element i p)))) as [->|Da].
    + rewrite Hc1 in Ha. injection Ha as <-. destruct Src as [->|[-> Lt]].
      * destruct (B8 _ _ Hc0) as [?|(j & Hj & Rest)]; [now left|right; exists j; split; [lia|exact Rest]].
      * right. exists i. split; [lia|auto].
    + rewrite Co in Ha by exact Da. destruct (B8 _ _ Ha) as [?|(j & Hj & Rest)]; [now left|right; exists j; split; [lia|exact Rest]].
  - intros j Hj Hl. destruct (Z.eq_dec j i) as [->|]; [exists c1; split; [exact Hc1|now apply Over]|]. destruct (B9 j ltac:(lia) Hl) as (c' & Hc' & Lc').
    destruct (decide (Z.to_nat (typ (element j p)) = Z.to_nat (typ (element i p)))) as [Et|Dt]; [|exists c'; split; [now rewrite Co|exact Lc']].
    rewrite Et in *. rewrite Hc0 in Hc'. injection Hc' as <-. exists c1. split; [exact Hc1|lia].
Qed.

Lemma build_all_spec s0 : lists_ok p C s0 -> exists s, for_run (Z.to_nat (getN p)) 0 (build_particle rsqrt p n c (m_cell_adj c)) s0 = Ret s /\ built p cand s0 s.
Proof.
  intros O. destruct (for_run_inv (fun i s => built_to i s0 s) (Z.to_nat (getN p)) 0 (build_particle rsqrt p n c (m_cell_adj c)) s0) as (s & E & B).
  - constructor; try reflexivity; try lia. auto.
  - intros i s Hi B. apply build_particle_spec; [assumption..|lia].
  - exists s. split; [exact E|]. rewrite Z.add_0_l, Z2Nat.id in B by lia. destruct B. constructor; assumption.
Qed.

End reading.

(** ** The interface *)

Variable timestep : Z.
Variable d : uint3.
Variable M : Z.

(** The cell list that the build uses. *)
Definition cells_of (b : binned) (n : nlist) : cell_list :=
  if m_update_cell_size b then setNominalWidth (m_rcut_max_max (nl_cut n) + m_r_buff (nl_cut n)) (m_cl b) else m_cl b.

(** The settings of the constructor; the width is set later. *)
Definition list_params (q : params) : Prop :=
  m_radius q = 1 /\ m_compute_xyzf q = true /\ m_flag_charge q = false /\ m_flag_type q = false /\ m_compute_adj_list q = true.

Definition due (cl : cell_list) : bool := m_params_changed cl || m_box_changed cl || m_particles_sorted cl || Compute.peekCompute timestep (cl_compute cl).

(** The cells will be computed at this time step, or they are up to date. *)
Definition cells_ready (cl : cell_list) : Prop :=
  due cl = true /\ computable rsqrt dimensions p cl d M /\ (m_params_changed cl = true \/ m_box_changed cl = true \/ m_dim (cl_store cl) = d) \/
  due cl = false /\ m_dim (cl_store cl) = d /\ layout dimensions (cl_params cl) (cl_store cl) /\ cells_correct rsqrt p (cl_params cl) (cl_store cl).

Record ready (b : binned) (n : nlist) : Prop := {
  rd_params : list_params (cl_params (cells_of b n)) /\ Qeq_bool (m_nominal_width (cl_params (cells_of b n))) 0 = false;
  rd_grid : grid_ok dimensions (cl_params (cells_of b n)) d;
  rd_inside : all_inside rsqrt p d;
  rd_cells : cells_ready (cells_of b n);
  rd_force : Compute.m_force_compute (cl_compute (cells_of b n)) = false;
  rd_total : forall i j, 0 <= i < getN p -> 0 <= j < getN p -> exists x, is_neighbor p n i (element i p) (pos (element j p)) j = Ret x
}.

Abbreviation neighbors_of := (candidates (cl_params (m_cl new_binned)) d).

Lemma candidates_radius q n i : list_params q -> candidates q d n i = neighbors_of n i.
Proof. intros (R & _). unfold candidates, around_particle, adjacent_cells, neighbors. rewrite R. reflexivity. Qed.

Lemma compute_not_due cl : Qeq_bool (m_nominal_width (cl_params cl)) 0 = false -> due cl = false -> CellList.compute rsqrt dimensions timestep p cl = Ret (cl, Ok tt).
Proof.
  intros Wd D. unfold due in D. apply orb_false_iff in D as [D Pk]. apply orb_false_iff in D as [D Ps]. apply orb_false_iff in D as [Pc Bc].
  unfold CellList.compute, reinitialize_params, reinitialize_box. rewrite Wd, Pc. cbn [run_bind]. rewrite Bc. cbn [run_bind]. rewrite Ps.
  pose proof (shouldCompute_spec timestep (cl_compute cl)) as S. assert (Id : (Compute.shouldCompute timestep (cl_compute cl)).1 = cl_compute cl).
  { unfold Compute.peekCompute in Pk. apply orb_false_iff in Pk as [Pk Pl]. apply orb_false_iff in Pk as [Pf Po]. unfold Compute.shouldCompute. now rewrite Pf, Po, Pl. }
  destruct (Compute.shouldCompute _ _) as [k x]. destruct S as [-> _]. simpl in Id. subst k. rewrite Pk. cbn [orb]. do 2 f_equal. destruct cl. simpl in *. congruence.
Qed.

Lemma cells_computed cl : list_params (cl_params cl) -> Qeq_bool (m_nominal_width (cl_params cl)) 0 = false -> all_inside rsqrt p d -> cells_ready cl ->
  Compute.m_force_compute (cl_compute cl) = false ->
  exists cl', CellList.compute rsqrt dimensions timestep p cl = Ret (cl', Ok tt) /\ cl_params cl' = cl_params cl /\ due cl' = false /\ m_dim (cl_store cl') = d /\
    layout dimensions (cl_params cl) (cl_store cl') /\ cells_correct rsqrt p (cl_params cl) (cl_store cl') /\ Compute.m_force_compute (cl_compute cl') = false.
Proof.
  intros Pa Wd Ins [(D & K & Dm)|(D & Dm & Ly & CC)] F; [|exists cl; split_and!; auto; now apply compute_not_due].
  destruct (compute_cells_spec rsqrt dimensions timestep p cl d M K) as (cl' & r & E & Q & Ek & F1 & F2 & F3 & R). unfold due in D. rewrite D in R. destruct R as (Rd & Ro & Rc).
  specialize (Rd Dm). rewrite Rd in Ro. assert (Ok' : r = Ok tt) by now apply Ro. subst r. destruct (Rc eq_refl) as [Ly CC]. exists cl'. split_and!; auto.
  - unfold due. rewrite F1, F2, F3, Ek. cbn [orb]. pose proof (shouldCompute_spec timestep (cl_compute cl)) as S. destruct (Compute.shouldCompute _ _) as [k x]. now apply S.
  - rewrite Ek. unfold Compute.shouldCompute. destruct (Compute.m_first_compute _); [exact F|]. rewrite F. now destruct (negb _).
Qed.

#[export] Instance binned_builder C : getN p + 4 <= C -> Builder (buildNlist rsqrt dimensions) p timestep C ready neighbors_of.
Proof.
  intros HC. constructor.
  - intros b n l [R1 R2 R3 R4 R5 R6]. constructor; assumption.
  - reflexivity.
  - intros b n i _ _. pose proof (length_candidates (cl_params (m_cl new_binned)) d n i). lia.
  - intros b n [[R1 Wd] R2 R3 R4 R5 R6] O. destruct (cells_computed (cells_of b n) R1 Wd R3 R4 R5) as (cl & E & Q & Nd & Dm & Ly & CC & Fc).
    unfold buildNlist. fold (cells_of b n). assert (Eb : m_cl (if m_update_cell_size b then mkBinned (setNominalWidth (m_rcut_max_max (nl_cut n) + m_r_buff (nl_cut n)) (m_cl b)) false else b) = cells_of b n)
      by (unfold cells_of; now destruct (m_update_cell_size b)).
    rewrite Eb, E. cbn [run_bind]. unfold getCellAdjArray. rewrite Q. pose proof R1 as (Rad & Xy & Fc1 & Fc2 & Adj). rewrite Adj. cbn [negb].
    destruct (build_all_spec (cl_params (cells_of b n)) (cl_store cl)) with (n := n) (C := C) (s0 := nl_lists n) as (s & Es & Bs); try assumption; try (rewrite Dm; assumption); [auto|].
    rewrite Es. cbn [run_bind]. eexists _, s. split; [reflexivity|]. split.
    + assert (Ec : cells_of (mkBinned cl (m_update_cell_size (if m_update_cell_size b then mkBinned (setNominalWidth (m_rcut_max_max (nl_cut n) + m_r_buff (nl_cut n)) (m_cl b)) false else b))) n = cl)
        by (unfold cells_of at 1; destruct (m_update_cell_size b) eqn:U; simpl; rewrite ?U; reflexivity).
      constructor; rewrite ?Ec, ?Q; auto. right. rewrite Q. auto.
    + destruct Bs as [X1 X2 X3 X4 X5 X6 X7 X8 X9]. rewrite Dm in *. constructor; try assumption; intros; rewrite <- ?(candidates_radius _ n _ R1) in *; eauto.
      destruct (X8 _ _ H) as [|(i & Hi)]; [now left|right; exists i; now rewrite <- (candidates_radius _ n _ R1)].
Qed.

End cells.
