(* ===== verification/NeighborListNear.v ===== *)
(** Why the cells are wide enough: two particles within the width of a cell are in
    adjacent cells, so the build from cells finds every neighbour. *)

From Stdlib Require Import ZArith Lia QArith Qabs Qround Lqa String Bool.
From stdpp Require Import base list list_numbers sorting strings.
From S2P Require Import Prelude HOOMDMath Index1D BoxDim ParticleData PotentialPairTables CellList CellListAdj CellListProps CellListSpec.
From S2P Require Import NeighborList NeighborListBinned NeighborListProps NeighborListVerlet NeighborListBuild.
Local Open Scope Z_scope.
Local Open Scope hoomd_scope.

Local Open Scope Q_scope.

(** * The number of cells along an axis *)

Lemma dim_bound x (z mult : Z) : to_uint x = Ret z -> (0 < mult)%Z ->
  at_least_one (roundDown z mult) = 1%Z \/ inject_Z (at_least_one (roundDown z mult)) <= x.
Proof.
  unfold to_uint. destruct (_ && _) eqn:E; [|discriminate]. intros [= <-] Hm. zbool. unfold at_least_one, roundDown. set (t := Qtrunc x) in *.
  pose proof (Z.mul_div_le t mult Hm). destruct (Z.eqb_spec (t / mult * mult) 0) as [|D]; [now left|right].
  assert (T : (0 < t)%Z) by (destruct (Z.eq_dec t 0%Z) as [T0|]; [rewrite T0, Z.div_0_l in D by lia; lia|lia]). assert (Tx : inject_Z t <= x).
  { unfold t, Qtrunc in *. destruct (Qle_bool 0 x) eqn:Q; [apply Qfloor_le|]. exfalso. apply not_true_iff_false in Q. rewrite Qle_bool_iff in Q. apply Qnot_le_lt in Q.
    assert (0 <= Qfloor (- x))%Z; [|lia]. change 0%Z with (Qfloor 0). apply Qfloor_resp_le. lra. }
  apply (Qle_trans _ (inject_Z t)); [|exact Tx]. rewrite <- Zle_Qle, Z.mul_comm. lia.
Qed.

(** * Fractions of near particles *)

(** A vector against the normal of a face, bounded by the distance of the faces. *)
Lemma normal_bound a v r s N : 0 <= r -> 0 < s -> s * s * N <= 1 -> norm2 a <= N -> norm2 v <= r * r ->
  Qabs (s3x a * s3x v + s3y a * s3y v + s3z a * s3z v) * s <= r.
Proof.
  intros Hr Hs Hn Ha Hv. set (x := s3x a * s3x v + s3y a * s3y v + s3z a * s3z v).
  assert (E : Qabs x * s == Qabs (x * s)) by (rewrite Qabs_Qmult; rewrite (Qabs_pos s) by lra; reflexivity). rewrite E. apply Qabs_le_sq; [exact Hr|].
  assert (CS : x * x <= norm2 a * norm2 v).
  { unfold x, norm2. set (a1 := s3x a). set (a2 := s3y a). set (a3 := s3z a). set (b1 := s3x v). set (b2 := s3y v). set (b3 := s3z v).
    pose proof (sq_nonneg (a1 * b2 - a2 * b1)). pose proof (sq_nonneg (a1 * b3 - a3 * b1)). pose proof (sq_nonneg (a2 * b3 - a3 * b2)). lra. }
  assert (N0 : 0 <= norm2 a /\ 0 <= norm2 v).
  { unfold norm2. pose proof (sq_nonneg (s3x a)). pose proof (sq_nonneg (s3y a)). pose proof (sq_nonneg (s3z a)). pose proof (sq_nonneg (s3x v)). pose proof (sq_nonneg (s3y v)).
    pose proof (sq_nonneg (s3z v)). lra. }
  assert (P1 : norm2 a * norm2 v <= N * (r * r)) by (apply Qmult_le_compat_nonneg; split; lra).
  assert (P2 : x * x * (s * s) <= N * (r * r) * (s * s)) by (apply Qmult_le_compat_r; nra).
  assert (P3 : N * (r * r) * (s * s) <= r * r) by nra. nra.
Qed.

(** Fractions that differ by at most the width of a cell. *)
Lemma axis_close f g l k (m : Z) width plane : (0 < m)%Z -> 0 < width -> f - g == l - inject_Z k -> Qabs l * plane <= width -> 0 < plane ->
  m = 1%Z \/ inject_Z m <= plane / width -> near_cell 1 m (Qfloor (f * inject_Z m) mod m) (Qfloor (g * inject_Z m) mod m).
Proof.
  intros Hm Hw E Hl Hp [->|Hd].
  - exists (Qfloor (f * inject_Z 1) mod 1)%Z. rewrite !Z.mod_1_r. split; [simpl; lia|reflexivity].
  - apply close_near; [exact Hm|]. exists (- k)%Z. rewrite inject_Z_opp. assert (D : f - g - - inject_Z k == l) by (rewrite E; ring). rewrite D.
    assert (M0 : 0 < inject_Z m) by (change 0 with (inject_Z 0); rewrite <- Zlt_Qlt; lia). rewrite Qabs_Qmult, (Qabs_pos (inject_Z m)) by lra.
    change (inject_Z 1) with 1. assert (Hd' : inject_Z m * width <= plane).
    { apply (Qmult_le_compat_r _ _ width) in Hd; [|lra]. assert (X : plane / width * width == plane) by (field; lra). lra. }
    pose proof (Qabs_nonneg l). apply (Qmult_le_r _ _ width); [exact Hw|]. nra.
Qed.

Section near.
Context (rsqrt : Scalar -> Scalar) `{RS : !RSqrt rsqrt}.
Variable b : BoxDim.t.
Hypothesis W : BoxDim.wf b.

Abbreviation xy := (BoxDim.m_xy b).
Abbreviation xz := (BoxDim.m_xz b).
Abbreviation yz := (BoxDim.m_yz b).
Abbreviation frac v := (BoxDim.makeFraction rsqrt b v BoxDim.zero3).

(** The normals of the faces, scaled. *)
Definition normal_x : Scalar3 := make_scalar3 1 (- xy) (xy * yz - xz).
Definition normal_y : Scalar3 := make_scalar3 0 1 (- yz).
Definition normal_z : Scalar3 := make_scalar3 0 0 1.

Definition along (a v : Scalar3) : Q := s3x a * s3x v + s3y a * s3y v + s3z a * s3z v.

Lemma fraction_difference x y v k : v =3= BoxDim.shift b (s3_sub x y) k ->
  s3x (frac x) - s3x (frac y) == along normal_x v * s3x (BoxDim.m_Linv b) - inject_Z (i3x k) /\
  s3y (frac x) - s3y (frac y) == along normal_y v * s3y (BoxDim.m_Linv b) - inject_Z (i3y k) /\
  s3z (frac x) - s3z (frac y) == along normal_z v * s3z (BoxDim.m_Linv b) - inject_Z (i3z k).
Proof.
  intros E. destruct (makeFraction_components rsqrt b x) as (X1 & X2 & X3). destruct (makeFraction_components rsqrt b y) as (Y1 & Y2 & Y3).
  pose proof (shift_components b (s3_sub x y) k) as S. destruct E as (V1 & V2 & V3), S as (S1 & S2 & S3). destruct W as (_ & _ & Ix & Iy & Iz).
  unfold along, normal_x, normal_y, normal_z, s3_sub in *. cbn [s3x s3y s3z] in *. rewrite X1, X2, X3, Y1, Y2, Y3, V1, V2, V3, S1, S2, S3.
  set (lx := s3x (BoxDim.m_Linv b)) in *. set (ly := s3y (BoxDim.m_Linv b)) in *. set (lz := s3z (BoxDim.m_Linv b)) in *.
  split_and!.
  - transitivity ((s3x x - s3x y - (xz - yz * xy) * (s3z x - s3z y) - xy * (s3y x - s3y y)) * lx + inject_Z (i3x k) * (lx * s3x (BoxDim.m_L b) - 1)); [rewrite Ix; ring|ring].
  - transitivity ((s3y x - s3y y - yz * (s3z x - s3z y)) * ly + inject_Z (i3y k) * (ly * s3y (BoxDim.m_L b) - 1)); [rewrite Iy; ring|ring].
  - transitivity ((s3z x - s3z y) * lz + inject_Z (i3z k) * (lz * s3z (BoxDim.m_L b) - 1)); [rewrite Iz; ring|ring].
Qed.

(** One axis: the normal, the length and its inverse, the reciprocal root. *)
Lemma axis_near f g a v k (m : Z) L Li s width : (0 < m)%Z -> 0 < width -> 0 < L -> Li * L == 1 -> 0 < s -> s * s * norm2 a <= 1 -> norm2 v <= width * width ->
  f - g == along a v * Li - inject_Z k -> m = 1%Z \/ inject_Z m <= L * s / width ->
  near_cell 1 m (Qfloor (f * inject_Z m) mod m) (Qfloor (g * inject_Z m) mod m).
Proof.
  intros Hm Hw HL Hi Hs Hn Hv E Hd. apply (axis_close f g (along a v * Li) k m width (L * s)); try assumption; [|nra].
  assert (Lp : 0 <= Li) by (apply Qnot_lt_le; intros Lt; nra). rewrite Qabs_Qmult, (Qabs_pos Li) by exact Lp.
  pose proof (normal_bound a v width s (norm2 a) ltac:(lra) Hs Hn ltac:(lra) Hv) as B. fold (along a v) in B.
  assert (X : Qabs (along a v) * Li * (L * s) == Qabs (along a v) * s * (Li * L)) by ring. rewrite X, Hi. lra.
Qed.

Variables (dimensions : Z) (q : params) (d : uint3).
Hypothesis Mult : (0 < m_multiple q)%Z.
Hypothesis Width : 0 < m_nominal_width q.
Hypothesis Dim : computeDimensions rsqrt dimensions b q = Ret d.

(** Particles within the width of a cell have near cells. *)
Lemma near_cells x y v k : v =3= BoxDim.shift b (s3_sub x y) k -> norm2 v <= m_nominal_width q * m_nominal_width q ->
  let f := frac x in let g := frac y in
  near_cell 1 (ux d) (Qfloor (s3x f * inject_Z (ux d)) mod ux d) (Qfloor (s3x g * inject_Z (ux d)) mod ux d) /\
  near_cell 1 (uy d) (Qfloor (s3y f * inject_Z (uy d)) mod uy d) (Qfloor (s3y g * inject_Z (uy d)) mod uy d) /\
  (dimensions = 3%Z -> near_cell 1 (uz d) (Qfloor (s3z f * inject_Z (uz d)) mod uz d) (Qfloor (s3z g * inject_Z (uz d)) mod uz d)).
Proof.
  intros E Hv f g. destruct (fraction_difference x y v k E) as (Fx & Fy & Fz). fold f g in Fx, Fy, Fz. destruct (computeDimensions_pos _ _ _ Mult _ _ Dim) as [(Px & Py & Pz) _].
  destruct W as (_ & (Lx & Ly & Lz) & (Ix & Iy & Iz)). pose proof Dim as D. unfold computeDimensions, BoxDim.getNearestPlaneDistance in D.
  apply bind_ret in D as (mx & Dx & D). apply bind_ret in D as (my & Dy & D). apply bind_ret in D as (mz & Dz & [= Ed]). cbn [s3x s3y s3z] in *.
  pose proof (rsqrt_pos _ (one_le_sq_x b)) as Sx. pose proof (rsqrt_below _ (one_le_sq_x b)) as Bx. pose proof (rsqrt_pos _ (one_le_sq_y b)) as Sy. pose proof (rsqrt_below _ (one_le_sq_y b)) as By.
  split_and!.
  - eapply (axis_near _ _ normal_x v _ _ (s3x (BoxDim.m_L b)) _ (rsqrt (1 + xy * xy + (xy * yz - xz) * (xy * yz - xz))) (m_nominal_width q)); try eassumption.
    + unfold normal_x, norm2. cbn [s3x s3y s3z]. assert (X : 1 * 1 + - xy * - xy + (xy * yz - xz) * (xy * yz - xz) == 1 + xy * xy + (xy * yz - xz) * (xy * yz - xz)) by ring. now rewrite X.
    + rewrite <- Ed. cbn [ux]. now apply dim_bound.
  - eapply (axis_near _ _ normal_y v _ _ (s3y (BoxDim.m_L b)) _ (rsqrt (1 + yz * yz)) (m_nominal_width q)); try eassumption.
    + unfold normal_y, norm2. cbn [s3x s3y s3z]. assert (X : 0 * 0 + 1 * 1 + - yz * - yz == 1 + yz * yz) by ring. now rewrite X.
    + rewrite <- Ed. cbn [uy]. now apply dim_bound.
  - intros ->. cbn [Z.eqb Pos.eqb] in *. eapply (axis_near _ _ normal_z v _ _ (s3z (BoxDim.m_L b)) _ 1 (m_nominal_width q)); try eassumption; [lra|unfold normal_z, norm2; cbn [s3x s3y s3z]; lra|].
    rewrite <- Ed. cbn [uz]. destruct (dim_bound _ _ _ Dz Mult) as [|Hz]; [now left|right]. destruct (Qeq_bool (s3z (BoxDim.m_L b)) 0) eqn:Q; [apply Qeq_bool_eq in Q; lra|].
    now rewrite Qmult_1_r.
Qed.

End near.

(** * The build misses no neighbour *)

Local Open Scope Z_scope.

Lemma adjacent_complete dimensions q d i j k a b c : 0 < ux d /\ 0 < uy d /\ 0 < uz d -> ux d * uy d * uz d < 2 ^ 32 -> 0 <= m_radius q /\ 2 * m_radius q + 1 < 2 ^ 32 ->
  near_cell (m_radius q) (ux d) i a -> near_cell (m_radius q) (uy d) j b -> near_cell (rz dimensions q) (uz d) k c ->
  Index3D.index (Index3D.make (ux d) (uy d) (uz d)) a b c ∈ adjacent_cells dimensions q (Index3D.make (ux d) (uy d) (uz d)) d i j k.
Proof.
  intros D Cl R Na Nb Nc. pose proof D as (Dx & Dy & Dz). pose proof (rz_nonneg dimensions q R) as Rz. rewrite (adjacent_cells_permutation dimensions q d D Cl R). unfold neighbor_cells.
  apply elem_of_flat_map. exists c. split; [now apply near_residue|]. apply elem_of_flat_map. exists b. split; [apply near_residue; tauto|].
  apply list_elem_of_fmap. exists a. split; [reflexivity|]. apply near_residue; tauto.
Qed.

(** The particle [j] is around [i] when it is within the width of a cell. *)
Lemma around_complete (rsqrt : Scalar -> Scalar) {RS : RSqrt rsqrt} (dimensions : Z) (p : pdata) (q : params) (d : uint3) (i j : Z) (v : Scalar3) (k : int3) :
  BoxDim.wf (m_global_box p) -> dimensions = 2 \/ dimensions = 3 -> 0 < m_multiple q -> m_radius q = 1 -> (0 < m_nominal_width q)%Q ->
  computeDimensions rsqrt dimensions (m_global_box p) q = Ret d -> ncells d < 2 ^ 31 ->
  0 <= i < getN p -> 0 <= j < getN p -> cell_at rsqrt p d (Z.to_nat i) <> None -> cell_at rsqrt p d (Z.to_nat j) <> None ->
  (forall m, m = i \/ m = j -> let f := fraction rsqrt p (Z.to_nat m) in 0 <= s3x f /\ 0 <= s3y f /\ 0 <= s3z f)%Q ->
  v =3= BoxDim.shift (m_global_box p) (s3_sub (pos (element i p)) (pos (element j p))) k -> (norm2 v <= m_nominal_width q * m_nominal_width q)%Q ->
  j ∈ around_particle rsqrt dimensions p q d i.
Proof.
  intros W Dims Mu Rad Wd Cd Cl Hi Hj Ci Cj Fr E Nv. destruct (computeDimensions_pos _ _ _ Mu _ _ Cd) as [D Flat]. pose proof D as (Dx & Dy & Dz).
  destruct (near_cells rsqrt (m_global_box p) W dimensions q d Mu Wd Cd _ _ v k E Nv) as (Nx & Ny & Nz).
  pose proof (Fr i (or_introl eq_refl)) as (Fix & Fiy & Fiz). pose proof (Fr j (or_intror eq_refl)) as (Fjx & Fjy & Fjz). unfold fraction in *. rewrite Z2Nat.id in * by lia.
  unfold around_particle. unfold cell_at in Ci, Cj. rewrite Z2Nat.id in Ci, Cj by lia.
  destruct (find_cell rsqrt _ _ (element i p)) as [[[[a b] c]|]| |] eqn:Ei; [|contradiction..]. destruct (find_cell rsqrt _ _ (element j p)) as [[[[a' b'] c']|]| |] eqn:Ej; [|contradiction..].
  destruct (find_cell_floor _ _ _ _ _ _ _ D Ei Fix Fiy Fiz) as (Ea & Eb & Ec). destruct (find_cell_floor _ _ _ _ _ _ _ D Ej Fjx Fjy Fjz) as (Ea' & Eb' & Ec').
  apply elem_of_flat_map. exists (Index3D.index (Index3D.make (ux d) (uy d) (uz d)) a' b' c'). split.
  - apply adjacent_complete; rewrite ?Rad; [exact D|unfold ncells in Cl; lia|lia|now rewrite Ea, Ea'|now rewrite Eb, Eb'|]. unfold rz. rewrite Rad. destruct Dims as [->| ->]; cbn [Z.eqb Pos.eqb].
    + rewrite Ec, Ec', (Flat eq_refl), !Z.mod_1_r. exists 0. split; [simpl; lia|reflexivity].
    + rewrite Ec, Ec'. now apply Nz.
  - unfold in_cell, members. apply list_elem_of_fmap. exists (Z.to_nat j). split; [lia|]. apply list_elem_of_filter. split; [|apply elem_of_seq; lia].
    unfold cell_at. rewrite Z2Nat.id by lia. now rewrite Ej.
Qed.
