(* ===== verification/NeighborListSpec.v ===== *)
(** What the exclusions and the distance check of the neighbour list promise. *)

From Stdlib Require Import ZArith Lia QArith Lqa String Bool.
From stdpp Require Import base list list_numbers strings.
From S2P Require Import Prelude HOOMDMath Index1D BoxDim GPUVector ParticleData ParticleDataSpec PotentialPairTables CellList CellListSpec NeighborList NeighborListBinned NeighborListProps NeighborListCutoffs NeighborListExclusions.
From S2P Require Import NeighborListVerlet.
Local Open Scope Z_scope.
Local Open Scope hoomd_scope.

(** * Exclusions by name *)

(** The pairs that a name excludes; "1-3" and "1-4" search the graph of the bonds
    and are not described here. *)
Definition members (i j : nat) (groups : list (list Z)) : list (Z * Z) := (fun g => (nth i g 0, nth j g 0)) <$> groups.

Definition pairs_of (t : topology) (s : string) : list (Z * Z) :=
  if String.eqb s "bond" then members 0 1 (bonds t)
  else if String.eqb s "meshbond" then members 0 1 (default [] (meshbonds t))
  else if String.eqb s "special_pair" then members 0 1 (special_pairs t)
  else if String.eqb s "constraint" then members 0 1 (constraints t)
  else if String.eqb s "angle" then members 0 2 (angles t)
  else if String.eqb s "dihedral" then members 0 3 (dihedrals t)
  else [].

Definition by_group (s : string) : Prop := s <> "1-3"%string /\ s <> "1-4"%string.

Lemma exclude_groups_add_all p i j groups : forall n, exclude_groups p i j groups n = add_all p (members i j groups) n.
Proof. induction groups as [|g groups IH]; intros n; simpl; [reflexivity|]. destruct (addExclusion _ _ _ n); simpl; auto. Qed.

(** The numbers by index are not touched before the translation. *)
Abbreviation n_ex_idx n := (m_n_ex_idx (nl_ex n)).

Lemma push_exclusion_idx a b e e' : push_exclusion a b e = Ret e' -> m_n_ex_idx e' = m_n_ex_idx e.
Proof.
  intros (c & _ & E)%bind_ret. apply bind_ret in E as (l & _ & E). apply bind_ret in E as (d & _ & [= <-]). reflexivity.
Qed.

Lemma addExclusion_idx p a b n n' : addExclusion p a b n = Ret n' -> n_ex_idx n' = n_ex_idx n.
Proof.
  intros (x & _ & E)%bind_ret. destruct x; [now injection E as <-|]. apply bind_ret in E as (n1 & _ & E). apply bind_ret in E as (n2 & _ & E).
  apply bind_ret in E as (e1 & E1 & E). apply bind_ret in E as (e2 & E2 & [= <-]). change (n_ex_idx (forceUpdate (set_ex e2 n))) with (m_n_ex_idx e2).
  rewrite (push_exclusion_idx _ _ _ _ E2), (push_exclusion_idx _ _ _ _ E1). now destruct (_ || _).
Qed.

Lemma add_all_idx p l : forall n n', add_all p l n = Ret n' -> n_ex_idx n' = n_ex_idx n.
Proof.
  induction l as [|[a b] l IH]; intros n n' E; simpl in E; [congruence|].
  apply bind_ret in E as (n1 & E1 & E). rewrite (IH _ _ E). now apply (addExclusion_idx p a b).
Qed.

(** The arrays have the sizes that the constructor gives them or that later
    particle numbers left: [w] columns by tag, [H] rows at most. *)
Record ex_sized (p : pdata) (H C w : Z) (n : nlist) : Prop := {
  ez_ntags : 0 <= ntags p <= Z.of_nat (length (m_rtag p));
  ez_tag : rows_ok w (m_ex_list_tag (nl_ex n));
  ez_idx : rows_ok (m_max_nparticles p) (m_ex_list_idx (nl_ex n));
  ez_height : r_height (m_ex_list_tag (nl_ex n)) = r_height (m_ex_list_idx (nl_ex n)) /\ r_height (m_ex_list_idx (nl_ex n)) <= H;
  ez_capacity : Z.of_nat (length (m_n_ex_tag (nl_ex n))) <= C /\ new_capacity (ntags p) (Z.of_nat (length (m_n_ex_tag (nl_ex n)))) <= C;
  ez_small : (C + 16) * H < 2 ^ 32 /\ (m_max_nparticles p + 16) * H < 2 ^ 32 /\ 0 <= m_max_nparticles p;
  ez_same : m_n_particles_changed n = false -> ntags p <= w /\ ntags p <= Z.of_nat (length (m_n_ex_tag (nl_ex n)))
}.

Section named.
Variable p : pdata.
Variable t : topology.
Variable H : Z.
Hypothesis M : 0 <= m_max_nparticles p.

Lemma then_named_added s done l n : addable p l -> ex_ok p H (nl_ex n) -> partners_are p (nl_ex n) done -> Z.of_nat (length done + length l) <= H ->
  exists n', then_named s (ok_run (add_all p l n)) = Ret (n', Ok tt) /\ ex_ok p H (nl_ex n') /\ partners_are p (nl_ex n') (done ++ l) /\ n_ex_idx n' = n_ex_idx n.
Proof.
  intros A K Pa Room. destruct (add_all_spec p H l A M n done K Pa Room) as (n' & E & K' & P' & _). rewrite E. exists (named s n').
  split; [reflexivity|]. split; [exact K'|]. split; [exact P'|]. exact (add_all_idx p l n n' E).
Qed.

Lemma setSingleExclusion_spec s done n : by_group s -> addable p (pairs_of t s) -> ex_ok p H (nl_ex n) -> partners_are p (nl_ex n) done ->
  Z.of_nat (length done + length (pairs_of t s)) <= H ->
  exists n', setSingleExclusion p t s n = Ret (n', Ok tt) /\ ex_ok p H (nl_ex n') /\ partners_are p (nl_ex n') (done ++ pairs_of t s) /\ n_ex_idx n' = n_ex_idx n.
Proof.
  intros [D3 D4] A K Pa Room. unfold setSingleExclusion, pairs_of in *. cbv beta zeta. rewrite !exclude_groups_add_all.
  destruct (String.eqb_spec s "bond") as [->|_]; [now apply then_named_added|].
  destruct (String.eqb_spec s "meshbond") as [->|_].
  { simpl. destruct (meshbonds t) as [m|]; simpl in *; [rewrite exclude_groups_add_all; now apply then_named_added|]. exists n. rewrite app_nil_r. auto. }
  destruct (String.eqb s "special_pair"); [now apply then_named_added|]. destruct (String.eqb s "constraint"); [now apply then_named_added|].
  destruct (String.eqb s "angle"); [now apply then_named_added|]. destruct (String.eqb s "dihedral"); [now apply then_named_added|]. rewrite app_nil_r.
  destruct (String.eqb s "body").
  { eexists. split; [reflexivity|]. unfold named, setFilterBody. now destruct (_ || _). }
  rewrite (proj2 (String.eqb_neq s "1-3") D3), (proj2 (String.eqb_neq s "1-4") D4). eauto.
Qed.

Definition all_pairs (names : list string) : list (Z * Z) := concat (pairs_of t <$> names).

Lemma set_each_spec names : Forall by_group names -> forall done n, addable p (all_pairs names) -> ex_ok p H (nl_ex n) -> partners_are p (nl_ex n) done ->
  Z.of_nat (length done + length (all_pairs names)) <= H ->
  exists n', set_each p t names n = Ret (n', Ok tt) /\ ex_ok p H (nl_ex n') /\ partners_are p (nl_ex n') (done ++ all_pairs names) /\ n_ex_idx n' = n_ex_idx n.
Proof.
  intros F. induction F as [|s names B F IH]; intros done n A K Pa Room; cbn [set_each].
  { exists n. unfold all_pairs. simpl. rewrite app_nil_r. auto. }
  unfold all_pairs in A, Room |- *. cbn [fmap list_fmap concat] in A, Room |- *. fold (all_pairs names) in A, Room |- *. rewrite length_app in Room. apply Forall_app in A as [A1 A2].
  destruct (setSingleExclusion_spec s done n B A1 K Pa) as (n1 & -> & K1 & P1 & I1); [lia|]. cbn [run_bind].
  destruct (IH (done ++ pairs_of t s) n1 A2 K1 P1) as (n2 & -> & K2 & P2 & I2); [rewrite length_app; lia|]. exists n2. rewrite app_assoc, I2. auto.
Qed.

End named.

(** C16. Setting exclusions by the names of groups succeeds without an access out
    of bounds, whatever was excluded before, and afterwards two tags are excluded
    exactly if they are the named members of one of these groups, in either
    order; the translation to indices then gives every particle the indices of
    exactly these partners. *)
Theorem exclusions_refine (p : pdata) (t : topology) (names : list string) (n : nlist) (H C w : Z) :
  ex_sized p H C w n -> Forall by_group names -> addable p (all_pairs t names) -> Z.of_nat (length (all_pairs t names)) <= H ->
  (forall i, 0 <= i < getN p -> m_ptl p !! Z.to_nat i = Some (element i p) /\ 0 <= tag (element i p) < ntags p) ->
  0 <= getN p <= m_max_nparticles p -> m_max_nparticles p <= Z.of_nat (length (m_n_ex_idx (nl_ex n))) ->
  exists n', setExclusions p t names n = Ret (n', Ok tt) /\
    (forall a b, 0 <= a < ntags p -> isExcluded a b (nl_ex n') = Ret (bool_decide ((a, b) ∈ all_pairs t names \/ (b, a) ∈ all_pairs t names))) /\
    exists e, updateExListIdx p n' = Ret (set_ex e n') /\
      forall i j, 0 <= i < getN p -> j ∈ idx_partners e i <->
        exists b, j = zget 0 (m_rtag p) b /\ ((tag (element i p), b) ∈ all_pairs t names \/ (b, tag (element i p)) ∈ all_pairs t names).
Proof.
  intros [Nt T I [Hh Lh] [C1 C2] (S1 & S2 & M) Same] F A Room Tags N1 N2.
  destruct (resizeAndClearExclusions_spec p H C w n (proj1 Nt) T I Hh Lh C1 C2 S1 S2 Same) as (K0 & P0 & _). unfold setExclusions.
  set (n0 := resizeAndClearExclusions p n) in *. set (n1 := set_exclusions [] (setFilterBody p false n0)).
  assert (E1 : nl_ex n1 = nl_ex n0) by (unfold n1, setFilterBody; now destruct (_ || _)).
  destruct (set_each_spec p t H M names F [] n1 A) as (n' & E & K' & P' & I'); [now rewrite E1|now rewrite E1|exact Room|]. exists n'. split; [exact E|]. simpl in P'.
  assert (In : forall a b, 0 <= a < ntags p -> b ∈ partners (nl_ex n') a <-> (a, b) ∈ all_pairs t names \/ (b, a) ∈ all_pairs t names) by (intros a b Ha; apply (P' a Ha)).
  split.
  - intros a b Ha. rewrite (isExcluded_spec p H _ a b K' Ha). f_equal. apply bool_decide_ext. now apply In.
  - destruct (updateExListIdx_spec p H Tags ltac:(lia) (proj2 Nt) n' K') as (e & E2 & Tr).
    + rewrite I', E1. simpl. rewrite length_replicate. exact N2.
    + intros a b Ha Hb%(In a b Ha). unfold addable in A. rewrite Forall_forall in A. destruct Hb as [Hb|Hb]; apply A in Hb; simpl in Hb; tauto.
    + exists e. split; [exact E2|]. intros i j Hi. rewrite (tr_col _ _ _ _ Tr i Hi). unfold translated. rewrite list_elem_of_fmap. apply exist_proper. intros b.
      rewrite In by apply Tags, Hi. tauto.
Qed.

(** * The distance check *)

Lemma foldable_ext b v w : v =3= w -> BoxDim.foldable b v -> BoxDim.foldable b w.
Proof. intros (X & Y & Z) F. unfold BoxDim.foldable in *. now rewrite <- X, <- Y, <- Z. Qed.

(** The differences of the positions are within the reach of [minImage]. *)
Definition all_foldable (b : BoxDim.t) (l : list Scalar3) : Prop := forall x y, x ∈ l -> y ∈ l -> BoxDim.foldable b (s3_sub x y).

Definition all_pairs_of (l : list Scalar3) (P : Scalar3 -> Scalar3 -> Prop) : Prop := Forall (fun x => Forall (P x) l) l.

Lemma all_foldable_Forall b l : all_pairs_of l (fun x y => BoxDim.foldable b (s3_sub x y)) -> all_foldable b l.
Proof. intros F x y Hx Hy. unfold all_pairs_of in F. rewrite Forall_forall in F. specialize (F x Hx). rewrite Forall_forall in F. now apply F. Qed.

Lemma any_moved_false p n l m count : forall i, any_moved p n l m count i = Ret false -> forall j, i <= j < i + Z.of_nat count -> moved_too_far p n l m j = Ret false.
Proof.
  induction count as [|count IH]; intros i E j Hj; [lia|]. simpl in E. apply bind_ret in E as (r & E1 & E2). destruct r; [discriminate|].
  destruct (Z.eq_dec i j) as [<-|]; [exact E1|]. apply (IH (i + 1) E2). lia.
Qed.

Section verlet.
Context (rsqrt : Scalar -> Scalar) `{RS : !RSqrt rsqrt}.
Variables p0 p : pdata.
Variable n : nlist.
Let box := m_global_box p.
Hypothesis W : BoxDim.wf box.
Hypothesis Cen : BoxDim.centred box.
Hypothesis Same : m_last_L n = BoxDim.getNearestPlaneDistance rsqrt box.

(** The scale of an unchanged box. *)
Lemma same_scale : let lambda := s3_div (BoxDim.getNearestPlaneDistance rsqrt box) (m_last_L n) in s3x lambda == 1 /\ s3y lambda == 1 /\ s3z lambda == 1.
Proof.
  destruct (planes_le_L rsqrt box W) as ([X _] & [Y _] & [Z _]). unfold planes in *. rewrite Same. unfold s3_div. cbn [s3x s3y s3z]. repeat split; field; lra.
Qed.

Lemma min_b_proper_1 a b : a == 1 -> b == 1 -> min_b a b == 1.
Proof. unfold min_b. now destruct (lt_b a b). Qed.

(** Without a rebuild, the displacement of every particle is below half of the buffer. *)
Lemma small_displacement i x : distanceCheck rsqrt p n = Ret false -> 0 <= i < getN p -> (0 <= m_r_buff (nl_cut n))%Q -> m_last_pos n !! Z.to_nat i = Some x ->
  exists v, v =3= s3_sub (pos (element i p)) x /\
    forall u, BoxDim.minImage box v = Some u -> (norm2 u <= m_r_buff (nl_cut n) * m_r_buff (nl_cut n) / 4)%Q.
Proof.
  intros E Hi Hb Hx. unfold distanceCheck in E. fold box in E. pose proof same_scale as Sc. cbn zeta in Sc. set (l := s3_div _ _) in *. destruct Sc as (L1 & L2 & L3).
  set (m := min_b (min_b _ _) _) in E. assert (Lm : m == 1) by (now repeat apply min_b_proper_1).
  apply any_moved_false with (j := i) in E; [|lia]. unfold moved_too_far in E. apply bind_ret in E as (e & Ee & E). apply bind_ret in E as (r & _ & E).
  rewrite (read_Some _ _ _ Hx) in E. cbn [run_bind] in E. fold box in E. apply read_ret in Ee. unfold element. rewrite (zget_lookup _ _ _ _ Ee).
  exists (s3_sub (pos e) (s3_mul l x)). split.
  { unfold s3_sub, s3_mul. repeat split; cbn [s3x s3y s3z]; [rewrite L1|rewrite L2|rewrite L3]; ring. }
  intros u Hu. rewrite Hu in E. injection E as E. unfold ge_b in E. set (b := m_r_buff (nl_cut n)) in *.
  apply not_true_iff_false in E. rewrite Qle_bool_iff in E. apply Qnot_le_lt, Qlt_le_weak in E. fold (norm2 u) in E. eapply Qle_trans; [exact E|].
  assert (D : ((r + b) * m - r == b)%Q) by (rewrite Lm; ring). destruct (lt_b 0 _); [|apply Qle_shift_div_l; nra]. rewrite D. lra.
Qed.

End verlet.

(** A check of every step that asks for no rebuild has looked at the distances. *)
Lemma not_needed_checked rsqrt t p n n' : needsUpdating rsqrt t p n = Ret (n', false) -> m_last_checked_tstep (nl_time n) <> t ->
  m_dist_check (nl_time n) = true -> m_rebuild_check_delay (nl_time n) = 0 -> is_u64 (m_last_updated_tstep (nl_time n)) -> m_last_updated_tstep (nl_time n) <= t ->
  distanceCheck rsqrt p n = Ret false.
Proof.
  intros E Dt Dc D0 U Le. unfold needsUpdating, shouldCheckDistance, due_without_check in E. rewrite (proj2 (Z.eqb_neq _ _) Dt), Dc, D0, Z.add_0_r, u64_small in E by exact U.
  destruct (Z.ltb_spec t (m_last_updated_tstep (nl_time n))); [lia|]. destruct (m_force_update (nl_time n)); simpl in E; [discriminate|].
  rewrite orb_false_r in E. destruct (lt_b _ _); simpl in E; [discriminate|]. apply bind_ret in E as (r & E1 & E2). now destruct r.
Qed.

(** The places recorded by a build. *)
Lemma setLastUpdatedPos_spec rsqrt p n : particles_typed p -> 0 <= getN p <= Z.of_nat (length (m_last_pos n)) ->
  exists l, setLastUpdatedPos rsqrt p n = Ret (set_last l (BoxDim.getNearestPlaneDistance rsqrt (m_global_box p)) n) /\ length l = length (m_last_pos n) /\
    forall i, 0 <= i < getN p -> l !! Z.to_nat i = Some (pos (element i p)).
Proof.
  intros Ty Hn. unfold setLastUpdatedPos. match goal with |- context [for_run _ _ ?f _] => set (body := f) end.
  destruct (for_run_inv (fun i l => length l = length (m_last_pos n) /\ forall j, 0 <= j < i -> l !! Z.to_nat j = Some (pos (element j p)))
    (Z.to_nat (getN p)) 0 body (m_last_pos n)) as (l & -> & Ll & Hl).
  - split; [reflexivity|lia].
  - intros i l Hi [Ll Hl]. unfold body. destruct (typed_element p Ty i ltac:(lia)) as [He _]. rewrite (read_Some _ _ _ He). cbn [run_bind]. rewrite write_in by lia.
    eexists. split; [reflexivity|]. split; [now rewrite length_zset|]. intros j Hj. destruct (Z.eq_dec j i) as [->|]; [apply lookup_zset_eq; lia|].
    rewrite lookup_zset_ne by lia. apply Hl. lia.
  - rewrite Z.add_0_l, Z2Nat.id in Hl by lia. exists l. auto.
Qed.

(** The state [n] after a build of the full list for the particles [p0]. *)
Record just_built (rsqrt : Scalar -> Scalar) (p0 : pdata) (n0 n : nlist) : Prop := {
  jb_box : BoxDim.wf (m_global_box p0) /\ BoxDim.centred (m_global_box p0);
  jb_particles : particles_typed p0 /\ 0 < getNTypes p0 < 2 ^ 16 /\ 0 <= getN p0 <= Z.of_nat (length (m_last_pos n0));
  jb_cutoffs : cut_ok p0 (nl_cut n0) /\ (0 <= m_r_buff (nl_cut n0))%Q;
  jb_fits : checkBoxSize rsqrt 3 p0 n0 = Ok tt;
  jb_recorded : setLastUpdatedPos rsqrt p0 n0 = Ret n;
  jb_full : m_storage_mode n = full /\ m_filter_body n = false
}.

(** The same particles in the same box at a later step that has not been checked;
    the check is made at every step. *)
Record later (p0 p : pdata) (n : nlist) (timestep : Z) : Prop := {
  lt_box : m_global_box p = m_global_box p0;
  lt_particles : getN p = getN p0 /\ forall i, 0 <= i < getN p -> typ (element i p) = typ (element i p0);
  lt_foldable : all_foldable (m_global_box p0) (((fun i => pos (element i p0)) <$> seqZ 0 (getN p0)) ++ ((fun i => pos (element i p)) <$> seqZ 0 (getN p)));
  lt_unchecked : m_last_checked_tstep (nl_time n) <> timestep;
  lt_settings : m_dist_check (nl_time n) = true /\ m_rebuild_check_delay (nl_time n) = 0;
  lt_after : 0 <= m_last_updated_tstep (nl_time n) <= timestep /\ timestep < 2 ^ 64
}.

Lemma checkBoxSize_fits rsqrt p n r : checkBoxSize rsqrt 3 p n = Ok tt -> (r <= m_rcut_max_max (nl_cut n) + m_r_buff (nl_cut n))%Q -> fits_box rsqrt (m_global_box p) r.
Proof.
  unfold checkBoxSize. intros E Hr. destruct (_ || _) eqn:X; [discriminate|]. apply orb_false_iff in X as [X X3]. apply orb_false_iff in X as [X1 X2].
  assert (B : forall (per : bool) (L m : Q), per && Qle_bool L (m * 2) = false -> (r <= m)%Q -> per = true -> (r * 2 < L)%Q).
  { intros per L m Hx Hm ->. simpl in Hx. apply not_true_iff_false in Hx. rewrite Qle_bool_iff in Hx. apply Qnot_le_lt in Hx. lra. }
  repeat split; eapply B; eassumption.
Qed.

(** A pair with a positive cutoff within the list radius is a neighbour of the full list. *)
Lemma is_neighbor_listed p n i j d : 0 < getNTypes p < 2 ^ 16 -> particles_typed p -> cut_ok p (nl_cut n) -> m_storage_mode n = full -> m_filter_body n = false ->
  0 <= i < getN p -> 0 <= j < getN p -> i <> j -> (0 < value p (m_r_cut (nl_cut n)) (typ (element i p)) (typ (element j p)))%Q ->
  BoxDim.minImage (m_global_box p) (s3_sub (pos (element i p)) (pos (element j p))) = Some d ->
  (norm2 d <= (value p (m_r_cut (nl_cut n)) (typ (element i p)) (typ (element j p)) + m_r_buff (nl_cut n)) *
              (value p (m_r_cut (nl_cut n)) (typ (element i p)) (typ (element j p)) + m_r_buff (nl_cut n)))%Q ->
  is_neighbor p n i (element i p) (pos (element j p)) j = Ret true.
Proof.
  intros Nt Ty Co Full Nof Hi Hj Dij Pos M Nd. destruct (typed_element p Ty i Hi) as [Pi Ti]. destruct (typed_element p Ty j Hj) as [Pj Tj].
  unfold is_neighbor. rewrite (read_Some _ _ _ Pj). cbn [run_bind]. pose proof (co_sized _ _ Co) as Cs. rewrite (cs_idx _ _ Cs).
  change (getNTypes p) with (n_types p) in *. rewrite (read_value p Nt) by (assumption || apply Cs). cbn [run_bind].
  set (r := value p (m_r_cut (nl_cut n)) _ _) in *. rewrite (proj2 (Z.eqb_neq _ _) Dij). assert (Lr : Qle_bool r 0 = false).
  { apply not_true_iff_false. rewrite Qle_bool_iff. lra. }
  rewrite Lr, Nof, M. cbn [orb andb]. rewrite (read_value p Nt) by (assumption || apply Cs). cbn [run_bind]. rewrite Full, andb_true_r. f_equal. apply Qle_bool_iff.
  rewrite (co_list _ _ Co _ _ Ti Tj). fold r. unfold list_radius. destruct (lt_b_cases 0 r); [exact Nd|lra].
Qed.


(** * Examples *)

(** The reciprocal is a lower bound of the reciprocal root. *)
#[export] Instance Qinv_RSqrt : RSqrt Qinv.
Proof.
  split; intros x Hx.
  - apply Qinv_lt_0_compat. lra.
  - assert (E : (/ x * / x * x == / x)%Q) by (field; lra). rewrite E. apply (Qmult_le_r _ _ x); [lra|]. rewrite Qmult_comm, Qmult_inv_r by lra. lra.
Qed.

Definition value_of (r : run (nlist * result unit)) (n : nlist) : nlist := match r with Ret (n', Ok _) => n' | _ => n end.

(** A list for three particles in a row, with a buffer and two cutoffs. *)
Definition no_list : nlist := mkNlist (mkCutoffs (Index2D.make 0 0) [] [] [] [] [] 0 0 0 false) (mkExclusions [] (mkRows 0 0 []) [] (mkRows 0 0 []) false)
  (mkLists [] [] [] [] []) (mkTiming false false false 0 0 false 0 0 0 0 []) false half [] BoxDim.zero3 false false [] Compute.make.
Definition fresh_list : nlist := match new_nlist Qinv ortho3 (1 # 2) with Ok n => n | Throw _ => no_list end.
Definition cut_list : nlist := let n := value_of (setRcut ortho3 0 1 (3 # 2) fresh_list) fresh_list in setStorageMode full (value_of (setRcut ortho3 0 0 2 n) n).
Definition chain3 : topology := mkTopology [[0; 1]; [1; 2]] None [[0; 1; 2]] [] [] [] 0 (fun _ => Throw (runtime_error "none")).

Lemma below3 i : 0 <= i < 3 -> i = 0 \/ i = 1 \/ i = 2.
Proof. lia. Qed.

Lemma ortho3_tags i : 0 <= i < getN ortho3 -> m_ptl ortho3 !! Z.to_nat i = Some (element i ortho3) /\ 0 <= tag (element i ortho3) < ntags ortho3.
Proof. change (getN ortho3) with 3. intros [->|[->| ->]]%below3; vm_compute; repeat split; congruence. Qed.

Lemma fresh_list_sized : ex_sized ortho3 10 100 3 fresh_list.
Proof. constructor; try constructor; vm_compute; repeat split; congruence. Qed.

Lemma exclusions_refine_witness : exists n', setExclusions ortho3 chain3 ["bond"; "body"; "angle"]%string fresh_list = Ret (n', Ok tt) /\
  isExcluded 2 0 (nl_ex n') = Ret true /\ isExcluded 1 1 (nl_ex n') = Ret false.
Proof.
  destruct (exclusions_refine ortho3 chain3 ["bond"; "body"; "angle"]%string fresh_list 10 100 3 fresh_list_sized) as (n' & E & I & _).
  - repeat constructor; discriminate.
  - repeat constructor; vm_compute; congruence.
  - vm_compute. congruence.
  - exact ortho3_tags.
  - vm_compute. split; congruence.
  - vm_compute. congruence.
  - exists n'. split; [exact E|]. split; [apply (I 2 0); vm_compute; split; congruence|apply (I 1 1); vm_compute; split; congruence].
Defined.

(** The cutoffs are computed, the positions recorded, and the first particle has
    moved by a fifth of the buffer. *)
Definition ready_list : nlist := let n := value_of (updateRList ortho3 cut_list) cut_list in set_time (set_force false (nl_time n)) n.
Definition recorded_list : nlist := match setLastUpdatedPos Qinv ortho3 ready_list with Ret n => n | _ => ready_list end.
Definition moved3 : pdata := update_local 0 (e_pos (make_scalar3 (11 # 10) 0 0) zero_i3) ortho3.

Lemma cut_list_sized : cut_sized ortho3 (nl_cut cut_list).
Proof. constructor; vm_compute; try reflexivity. constructor. Qed.

Lemma ready_list_ok : cut_ok ortho3 (nl_cut ready_list).
Proof.
  destruct (updateRList_spec ortho3 ltac:(vm_compute; split; reflexivity) cut_list cut_list_sized) as (c & E & K & _). unfold ready_list. rewrite E. exact K.
Qed.

Lemma ortho3_typed : particles_typed ortho3.
Proof. intros i. change (getN ortho3) with 3. intros [->|[->| ->]]%below3; eexists; vm_compute; repeat split; congruence. Qed.

Lemma ortho3_box : BoxDim.wf (m_global_box ortho3) /\ BoxDim.centred (m_global_box ortho3).
Proof. vm_compute. repeat split; reflexivity. Qed.

Lemma recorded_list_built : just_built Qinv ortho3 ready_list recorded_list.
Proof.
  constructor; [exact ortho3_box|split; [exact ortho3_typed|vm_compute; repeat split; congruence]|split; [exact ready_list_ok|vm_compute; discriminate]|vm_compute; reflexivity|vm_compute; reflexivity|].
  split; vm_compute; reflexivity.
Qed.

Lemma moved3_later : later ortho3 moved3 recorded_list 1.
Proof.
  constructor; [vm_compute; reflexivity| | |vm_compute; discriminate|vm_compute; auto|vm_compute; repeat split; congruence].
  - assert (N3 : getN moved3 = 3) by (vm_compute; reflexivity). rewrite N3. split; [vm_compute; reflexivity|]. intros i [->|[->| ->]]%below3; vm_compute; reflexivity.
  - apply all_foldable_Forall. match goal with |- context [all_pairs_of ?l] => let k := eval vm_compute in l in change l with k end.
    unfold all_pairs_of. repeat (apply Forall_cons; split; [|]); try apply Forall_nil; vm_compute; repeat split; congruence.
Qed.

