(* ===== verification/NeighborListCompute.v ===== *)
(** What a forced update of the neighbour list produces: [compute] against the
    interface of a builder, and with the build from cells. *)

From Stdlib Require Import ZArith Lia QArith Lqa String Bool.
From stdpp Require Import base list list_numbers sorting strings.
From S2P Require Import Prelude HOOMDMath Index1D BoxDim GPUVector ParticleData ParticleDataSpec PotentialPairTables CellList CellListAdj CellListProps CellListSpec.
From S2P Require Import NeighborList NeighborListBinned NeighborListProps NeighborListCutoffs NeighborListExclusions NeighborListVerlet NeighborListBuild NeighborListNear NeighborListSpec.
Local Open Scope Z_scope.
Local Open Scope hoomd_scope.

(** * The rows *)

(** The neighbours that a client reads for a particle. *)
Definition row_of (s : lists) (i : Z) : list Z :=
  (fun k => zget 0 (NeighborList.m_nlist s) (zget 0 (m_head_list s) i + k)) <$> seqZ 0 (zget 0 (m_n_neigh s) i).

Lemma holds_row p C cand s i : particles_typed p -> lists_ok p C s -> holds p cand s -> 0 <= i < getN p -> row_of s i = cand i.
Proof.
  intros Ty O [Hc Hf Hr] Hi. unfold row_of. rewrite (zget_lookup _ _ _ _ (lo_heads _ _ _ O i Hi)), (zget_lookup _ _ _ _ (Hc i Hi)).
  pose proof (offset_bounds p Ty C _ i (lo_nmax _ _ _ O) ltac:(lia)) as [Ob _].
  apply list_eq. intros k. destruct (decide (k < length (cand i))%nat) as [Lt|Ge].
  - rewrite list_lookup_fmap, lookup_seqZ_lt by lia. simpl. destruct (lookup_lt_is_Some_2 _ _ Lt) as [x Hx]. rewrite Hx. f_equal. apply zget_lookup.
    rewrite <- (Hr i k x Hi Hx). f_equal. lia.
  - rewrite (lookup_ge_None_2 (cand i)) by lia. apply lookup_ge_None_2. rewrite length_fmap, length_seqZ. lia.
Qed.

(** The rows are within the array. *)
Definition rows_within (p : pdata) (s : lists) : Prop := forall i, 0 <= i < getN p -> exists h k, m_head_list s !! Z.to_nat i = Some h /\ m_n_neigh s !! Z.to_nat i = Some k /\
  0 <= h /\ 0 <= k /\ h + k <= Z.of_nat (length (NeighborList.m_nlist s)).

Lemma holds_within p C cand s : particles_typed p -> lists_ok p C s -> holds p cand s -> rows_within p s.
Proof.
  intros Ty O [Hc Hf Hr] i Hi. exists (offset p (NeighborList.m_Nmax s) i), (Z.of_nat (length (cand i))). pose proof (offset_bounds p Ty C _ i (lo_nmax _ _ _ O) ltac:(lia)) as [Ob _].
  pose proof (offset_next p Ty C _ i (getN p) (lo_nmax _ _ _ O) ltac:(lia) ltac:(lia)). pose proof (lo_room _ _ _ O). pose proof (Hf i Hi).
  split; [now apply (lo_heads _ _ _ O)|]. split; [now apply Hc|]. lia.
Qed.

(** * A forced update *)

(** The state before: the sizes that the constructor and [reallocate] keep. *)
Record forced_state (p : pdata) (C H : Z) (n : nlist) : Prop := {
  fs_cut : cut_sized p (nl_cut n) /\ (m_rcut_changed (nl_cut n) = true \/ cut_ok p (nl_cut n));
  fs_same : m_n_particles_changed n = false /\ m_topology_changed n = false;
  fs_force : m_force_update (nl_time n) = true;
  fs_nmax : capacities p C (NeighborList.m_Nmax (nl_lists n)) /\ satisfied (nl_lists n);
  fs_sizes : Z.of_nat (length (NeighborList.m_conditions (nl_lists n))) = getNTypes p /\ getN p <= Z.of_nat (length (m_n_neigh (nl_lists n))) /\
    getN p <= Z.of_nat (length (m_head_list (nl_lists n))) /\ getN p <= Z.of_nat (length (m_last_pos n));
  fs_ex : ex_ok p H (nl_ex n) /\ m_max_nparticles p <= Z.of_nat (length (m_n_ex_idx (nl_ex n))) /\
    forall t x, 0 <= t < ntags p -> x ∈ partners (nl_ex n) t -> 0 <= x < ntags p
}.

(** The particles: types and tags in range, and the reverse lookup long enough. *)
Record particles_ok (p : pdata) : Prop := {
  po_typed : particles_typed p;
  po_tags : forall i, 0 <= i < getN p -> 0 <= tag (element i p) < ntags p;
  po_number : 0 <= getN p <= m_max_nparticles p;
  po_rtag : ntags p <= Z.of_nat (length (m_rtag p));
  po_index : forall i, 0 <= i < getN p -> zget 0 (m_rtag p) (tag (element i p)) = i;
  po_named : forall t, 0 <= t < ntags p -> 0 <= zget 0 (m_rtag p) t < getN p -> tag (element (zget 0 (m_rtag p) t) p) = t;
  po_types : 0 < getNTypes p < 2 ^ 16
}.

Lemma needs_forced rsqrt t p n : m_force_update (nl_time n) = true -> exists t', needsUpdating rsqrt t p n = Ret (set_time t' n, true).
Proof.
  intros F. unfold needsUpdating. rewrite F. destruct (_ =? _); [eauto|]. cbn [negb andb]. eauto.
Qed.

Section forced.
Variable rsqrt : Scalar -> Scalar.
Variables (dimensions timestep : Z).
Variable p : pdata.
Hypothesis P : particles_ok p.
Variables (C H : Z).
Hypothesis HC : 0 < C < 2 ^ 32 - 4.
Hypothesis Big : getN p * C < 2 ^ 62.

Lemma tags_at i : 0 <= i < getN p -> m_ptl p !! Z.to_nat i = Some (element i p) /\ 0 <= tag (element i p) < ntags p.
Proof. intros Hi. split; [apply (typed_element p (po_typed p P) i Hi)|now apply (po_tags p P)]. Qed.

(** The heads are computed and the exclusions translated. *)
Lemma refresh_forced_spec n : forced_state p C H n -> exists e s, refresh_forced p n = Ret (set_ex e (set_lists s n)) /\
  lists_ok p C s /\ satisfied s /\ m_exclusions_set e = m_exclusions_set (nl_ex n) /\
  (m_exclusions_set e = true -> translating p (nl_ex n) (getN p) e).
Proof.
  intros [_ _ F [Cp Sat] (Lc & Ln & Lh & _) (K & Li & Cl)]. unfold refresh_forced. rewrite F.
  destruct (buildHeadList_spec p (po_typed p P) (proj1 (po_number p P)) C (nl_lists n) Cp ltac:(lia) Big Lc Ln Lh) as (s & -> & O & Es & Ec & _). cbn [run_bind].
  assert (Sat' : satisfied s) by (unfold satisfied; rewrite Es, Ec; exact Sat). change (nl_ex (set_lists s n)) with (nl_ex n). destruct (m_exclusions_set (nl_ex n)) eqn:Set_.
  - destruct (updateExListIdx_spec p H tags_at (po_number p P) (po_rtag p P) (set_lists s n) K Li Cl) as (e & -> & T). exists e, s. split_and!; auto.
    destruct (tr_tag _ _ _ _ T) as (_ & _ & T3). rewrite T3. exact Set_.
  - exists (nl_ex n), s. split_and!; auto. congruence.
Qed.

(** The neighbours that remain. *)
Definition remaining (e : exclusions) (cand : Z -> list Z) : Z -> list Z := if m_exclusions_set e then kept e cand else cand.

Context {B : Type} (build : Z -> pdata -> B * nlist -> run (B * nlist * result unit)) (ready : B -> nlist -> Prop) (cand : nlist -> Z -> list Z).
Context `{Bd : !Builder build p timestep C ready cand}.

Lemma rebuild_spec b n : checkBoxSize rsqrt dimensions p n = Ok tt -> ready b n -> lists_ok p C (nl_lists n) -> satisfied (nl_lists n) -> getN p <= Z.of_nat (length (m_last_pos n)) ->
  (m_exclusions_set (nl_ex n) = true -> rows_ok (m_max_nparticles p) (m_ex_list_idx (nl_ex n)) /\
    forall i, 0 <= i < getN p -> m_n_ex_idx (nl_ex n) !! Z.to_nat i = Some (zget 0 (m_n_ex_idx (nl_ex n)) i) /\ 0 <= zget 0 (m_n_ex_idx (nl_ex n)) i <= r_height (m_ex_list_idx (nl_ex n))) ->
  exists b' s l, rebuild rsqrt dimensions B build timestep p (b, n) =
      Ret (b', mark_updated (set_last l (BoxDim.getNearestPlaneDistance rsqrt (m_global_box p)) (set_lists s n)), Ok tt) /\
    lists_ok p C s /\ holds p (remaining (nl_ex n) (cand n)) s /\ forall i, 0 <= i < getN p -> l !! Z.to_nat i = Some (pos (element i p)).
Proof.
  intros Box R O Sat Ll Ex. pose proof (po_typed p P) as Ty. pose proof (po_number p P) as Np. unfold rebuild. rewrite Box.
  destruct (build_loop_spec p Ty (proj1 Np) build timestep C ready cand HC Big b n R O Sat) as (b' & s & -> & _ & O' & _ & Hd). cbn [run_bind].
  change (nl_ex (set_lists s n)) with (nl_ex n). unfold remaining.
  assert (F : exists s', (if m_exclusions_set (nl_ex n) then filterNlist p (set_lists s n) else Ret (set_lists s n)) = Ret (set_lists s' n) /\ lists_ok p C s' /\
    holds p (if m_exclusions_set (nl_ex n) then kept (nl_ex n) (cand n) else cand n) s').
  { destruct (m_exclusions_set (nl_ex n)); [|exists s; auto]. destruct (Ex eq_refl) as [Rk Ck].
    destruct (filterNlist_spec p Ty (proj1 Np) C ltac:(lia) (m_max_nparticles p) (proj2 Np) (nl_ex n) Rk Ck (cand n) (set_lists s n) eq_refl O' Hd) as (s' & -> & Os & Hs & _).
    exists s'. auto. }
  destruct F as (s' & -> & Os & Hs). cbn [run_bind].
  destruct (setLastUpdatedPos_spec rsqrt p (set_lists s' n) Ty) as (l & -> & _ & Hl); [simpl; lia|]. cbn [run_bind]. exists b', s', l. auto.
Qed.

Lemma refresh_cutoffs_spec n : cut_sized p (nl_cut n) /\ (m_rcut_changed (nl_cut n) = true \/ cut_ok p (nl_cut n)) ->
  exists c, refresh_cutoffs p n = Ret (set_cut c n, Ok tt) /\ cut_ok p c /\ m_r_buff c = m_r_buff (nl_cut n).
Proof.
  intros [Cs Co]. unfold refresh_cutoffs. destruct (m_rcut_changed (nl_cut n)).
  - destruct (updateRList_spec p (po_types p P) n Cs) as (c & -> & K & _ & Eb & _). eauto.
  - destruct Co as [|K]; [discriminate|]. exists (nl_cut n). split; [now destruct n|auto].
Qed.

(** An index is excluded exactly if its tag is. *)
Lemma excluded_by_tag n e i j : ex_ok p H (nl_ex n) -> (forall t x, 0 <= t < ntags p -> x ∈ partners (nl_ex n) t -> 0 <= x < ntags p) -> translating p (nl_ex n) (getN p) e ->
  0 <= i < getN p -> 0 <= j < getN p -> j ∈ idx_partners e i <-> tag (element j p) ∈ partners (nl_ex n) (tag (element i p)).
Proof.
  intros K Cl T Hi Hj. rewrite (tr_col _ _ _ _ T i Hi). unfold translated. rewrite list_elem_of_fmap. split.
  - intros (t & E & Ht). pose proof (Cl _ _ (po_tags p P i Hi) Ht) as Rt. now rewrite E, (po_named p P t Rt) by (rewrite <- E; exact Hj).
  - intros Ht. exists (tag (element j p)). split; [symmetry; now apply (po_index p P)|exact Ht].
Qed.

Lemma translated_counts n e : ex_ok p H (nl_ex n) -> m_max_nparticles p <= Z.of_nat (length (m_n_ex_idx (nl_ex n))) -> translating p (nl_ex n) (getN p) e ->
  rows_ok (m_max_nparticles p) (m_ex_list_idx e) /\
  forall i, 0 <= i < getN p -> m_n_ex_idx e !! Z.to_nat i = Some (zget 0 (m_n_ex_idx e) i) /\ 0 <= zget 0 (m_n_ex_idx e) i <= r_height (m_ex_list_idx e).
Proof.
  intros K Li T. destruct (tr_rows _ _ _ _ T) as [Rk Rh]. split; [exact Rk|]. intros i Hi. pose proof (po_number p P). pose proof (tr_len _ _ _ _ T) as Tl.
  split; [apply lookup_zget; lia|]. rewrite (tr_count _ _ _ _ T i Hi), Rh. unfold translated. rewrite length_fmap. pose proof (po_tags p P i Hi) as Ht.
  rewrite (length_partners p H _ _ K Ht). destruct (count_lookup p H _ _ K Ht). destruct (eo_height _ _ _ K). lia.
Qed.

(** The tags of the two particles are excluded. *)
Definition excluded_pair (n : nlist) (i j : Z) : Prop :=
  m_exclusions_set (nl_ex n) = true /\ tag (element j p) ∈ partners (nl_ex n) (tag (element i p)).

Lemma forced_compute_spec tp b n : forced_state p C H n ->
  (forall c, refresh_cutoffs p n = Ret (set_cut c n, Ok tt) -> cut_ok p c -> checkBoxSize rsqrt dimensions p (set_cut c n) = Ok tt /\
    forall n1, nl_cut n1 = c -> m_filter_body n1 = m_filter_body n -> m_storage_mode n1 = m_storage_mode n -> ready b n1) ->
  exists b' n' n1, compute rsqrt dimensions B build timestep p tp (b, n) = Ret (b', n', Ok tt) /\ cut_ok p (nl_cut n1) /\ ready b n1 /\
    nl_cut n' = nl_cut n1 /\ m_r_buff (nl_cut n1) = m_r_buff (nl_cut n) /\ m_filter_body n1 = m_filter_body n /\ m_storage_mode n1 = m_storage_mode n /\
    refresh_cutoffs p n = Ret (set_cut (nl_cut n1) n, Ok tt) /\ m_storage_mode n' = m_storage_mode n /\ rows_within p (nl_lists n') /\
    (forall i j, 0 <= i < getN p -> 0 <= j < getN p -> j ∈ row_of (nl_lists n') i <-> j ∈ cand n1 i /\ ~ excluded_pair n i j) /\
    (forall i, 0 <= i < getN p -> sublist (row_of (nl_lists n') i) (cand n1 i)) /\
    (forall i, 0 <= i < getN p -> m_last_pos n' !! Z.to_nat i = Some (pos (element i p))).
Proof.
  intros Fs Rdy. pose proof Fs as [Cut [Pc Tc] F Nm (Lc & Ln & Lh & Ll) (K & Li & Cl)]. destruct (refresh_cutoffs_spec n Cut) as (c & E & Co & Eb).
  destruct (Rdy c E Co) as [Box Rd]. unfold compute. rewrite E. cbn [run_bind]. destruct (Compute.shouldCompute timestep (nl_compute (set_cut c n))) as [k due_now].
  set (n2 := set_compute k (set_cut c n)). assert (F2 : m_force_update (nl_time n2) = true) by exact F. rewrite F2. cbn [negb]. rewrite andb_false_r.
  unfold refresh_exclusions. change (m_n_particles_changed n2) with (m_n_particles_changed n). change (m_topology_changed n2) with (m_topology_changed n). rewrite Pc, Tc. cbn [orb run_bind].
  assert (Fs2 : forced_state p C H n2) by (constructor; [split; [apply Co|now right]|now split|exact F|exact Nm|now split_and!|now split_and!]).
  destruct (refresh_forced_spec n2 Fs2) as (e & s & -> & O & Sat & Es & Tr). cbn [run_bind]. unfold update_if_needed.
  destruct (needs_forced rsqrt timestep p (set_ex e (set_lists s n2)) F) as (t' & ->). cbn [run_bind]. set (n1 := set_time t' (set_ex e (set_lists s n2))).
  assert (R1 : ready b n1) by now apply Rd.
  destruct (rebuild_spec b n1 Box R1 O Sat Ll) as (b' & s' & l & Er & O' & Hd & Hl); [intros Set_; now apply (translated_counts n2); [..|apply Tr]|].
  rewrite Er. eexists b', _, n1. split; [reflexivity|]. split_and!; try assumption; try reflexivity.
  - now apply (holds_within p C _ s' (po_typed p P) O' Hd).
  - intros i j Hi Hj. change (nl_lists _) with s'. rewrite (holds_row p C _ s' i (po_typed p P) O' Hd Hi). change (nl_ex n1) with e. unfold remaining, excluded_pair.
    change (nl_ex n2) with (nl_ex n) in *. rewrite <- Es. destruct (m_exclusions_set e); [|split; [intros X; split; [exact X|intros [? _]; discriminate]|tauto]].
    unfold kept. rewrite list_elem_of_filter. rewrite (excluded_by_tag n e i j K Cl (Tr eq_refl) Hi Hj). tauto.
  - intros i Hi. change (nl_lists _) with s'. rewrite (holds_row p C _ s' i (po_typed p P) O' Hd Hi). unfold remaining. destruct (m_exclusions_set _); [|reflexivity]. apply sublist_filter.
Qed.

End forced.

(** * The build from cells *)

(** The particles within the list radius of their pair of types, as the mode and
    the filter of bodies select them. *)
Definition in_reach (p : pdata) (n : nlist) (i j : Z) : Prop :=
  let r_cut := value p (m_r_cut (nl_cut n)) (typ (element i p)) (typ (element j p)) in
  i <> j /\ (0 < r_cut)%Q /\ ~ (m_filter_body n = true /\ body (element i p) <> NO_BODY /\ body (element i p) = body (element j p)) /\
  (exists v, BoxDim.minImage (m_global_box p) (s3_sub (pos (element i p)) (pos (element j p))) = Some v /\
     (norm2 v <= (r_cut + m_r_buff (nl_cut n)) * (r_cut + m_r_buff (nl_cut n)))%Q) /\
  (m_storage_mode n = half -> i < j).

Definition positions (p : pdata) : list Scalar3 := (fun i => pos (element i p)) <$> seqZ 0 (getN p).

Lemma position_in p i : 0 <= i < getN p -> pos (element i p) ∈ positions p.
Proof. intros Hi. apply list_elem_of_fmap. exists i. split; [reflexivity|]. apply elem_of_seqZ. lia. Qed.

Lemma Qle_bool_spec a b : BoolSpec (a <= b)%Q (b < a)%Q (Qle_bool a b).
Proof.
  destruct (Qle_bool a b) eqn:E; constructor; [now apply Qle_bool_iff|]. apply Qnot_le_lt. intros L. apply Qle_bool_iff in L. congruence.
Qed.

Section reach.
Variable p : pdata.
Hypothesis P : particles_ok p.
Hypothesis W : BoxDim.wf (m_global_box p) /\ BoxDim.centred (m_global_box p).
Hypothesis Fold : all_foldable (m_global_box p) (positions p).

Lemma is_neighbor_spec n i j : cut_ok p (nl_cut n) -> 0 <= i < getN p -> 0 <= j < getN p ->
  exists b, is_neighbor p n i (element i p) (pos (element j p)) j = Ret b /\ (b = true <-> in_reach p n i j).
Proof.
  intros Co Hi Hj. pose proof (po_types p P) as Nt. destruct (typed_element p (po_typed p P) i Hi) as [_ Ti]. destruct (typed_element p (po_typed p P) j Hj) as [Pj Tj].
  pose proof (co_sized _ _ Co) as Cs. unfold is_neighbor. rewrite (read_Some _ _ _ Pj). cbn [run_bind]. rewrite (cs_idx _ _ Cs).
  change (getNTypes p) with (n_types p) in *. rewrite (read_value p Nt) by (assumption || apply Cs). cbn [run_bind]. unfold in_reach. cbn zeta.
  set (r := value p (m_r_cut (nl_cut n)) _ _) in *.
  destruct (Z.eqb_spec i j) as [->|Dij]; [eexists; split; [reflexivity|]; split; [discriminate|tauto]|].
  destruct (Qle_bool_spec r 0) as [Lr|Lr]; cbn [orb]; [eexists; split; [reflexivity|]; split; [discriminate|intros (_ & X & _); lra]|].
  destruct (m_filter_body n && negb (body (element i p) =? NO_BODY) && (body (element i p) =? body (element j p))) eqn:Fb.
  { eexists. split; [reflexivity|]. split; [discriminate|]. intros (_ & _ & X & _). exfalso. apply X. zbool. auto. }
  destruct (minImage_spec (m_global_box p) (proj1 W) (proj2 W) (s3_sub (pos (element i p)) (pos (element j p)))) as (v & k & M & _); [apply Fold; now apply position_in|].
  rewrite M. rewrite (read_value p Nt) by (assumption || apply Cs). cbn [run_bind]. fold (norm2 v). eexists. split; [reflexivity|].
  rewrite (co_list _ _ Co _ _ Ti Tj). fold r. unfold list_radius. destruct (lt_b_cases 0 r) as [_|]; [|lra].
  assert (B : ~ (m_filter_body n = true /\ body (element i p) <> NO_BODY /\ body (element i p) = body (element j p))).
  { intros (B1 & B2 & B3). rewrite B1, (proj2 (Z.eqb_neq _ _) B2), (proj2 (Z.eqb_eq _ _) B3) in Fb. discriminate. }
  rewrite andb_true_iff. split.
  - intros [Hd Hm]. split_and!; auto; [exists v; split; [reflexivity|now apply Qle_bool_iff]|]. intros Eh. rewrite Eh in Hm. now apply Z.ltb_lt.
  - intros (_ & _ & _ & (v' & Ev & Hv) & Hm). injection Ev as <-. split; [now apply Qle_bool_iff|]. destruct (m_storage_mode n); [apply Z.ltb_lt; auto|reflexivity].
Qed.

Lemma neighbor_iff n i j : cut_ok p (nl_cut n) -> 0 <= i < getN p -> 0 <= j < getN p -> neighbor p n i j = true <-> in_reach p n i j.
Proof. intros Co Hi Hj. destruct (is_neighbor_spec n i j Co Hi Hj) as (b & E & I). unfold neighbor. now rewrite E. Qed.

End reach.

(** The particles are in the box, without ghosts, and few enough for the indices. *)
Record box_ok (rsqrt : Scalar -> Scalar) (p : pdata) : Prop := {
  bx_wf : BoxDim.wf (m_global_box p) /\ BoxDim.centred (m_global_box p);
  bx_foldable : all_foldable (m_global_box p) (positions p);
  bx_fraction : forall i, 0 <= i < getN p -> let f := fraction rsqrt p (Z.to_nat i) in (0 <= s3x f /\ 0 <= s3y f /\ 0 <= s3z f)%Q;
  bx_ghosts : m_nghosts p = 0
}.

(** The cell list of the build is due, its width is the largest list radius, and
    every particle has a cell of the grid [d]. *)
Record cells_state (rsqrt : Scalar -> Scalar) (dimensions timestep : Z) (p : pdata) (b : binned) (n : nlist) (d : uint3) (M : Z) : Prop := {
  ce_params : list_params (cl_params (cells_of b n));
  ce_width : m_nominal_width (cl_params (cells_of b n)) = (m_rcut_max_max (nl_cut n) + m_r_buff (nl_cut n))%Q /\ (0 < m_rcut_max_max (nl_cut n) + m_r_buff (nl_cut n))%Q;
  ce_computable : computable rsqrt dimensions p (cells_of b n) d M;
  ce_due : due timestep (cells_of b n) = true;
  ce_grid : m_params_changed (cells_of b n) = true \/ m_box_changed (cells_of b n) = true \/ m_dim (cl_store (cells_of b n)) = d;
  ce_force : Compute.m_force_compute (cl_compute (cells_of b n)) = false;
  ce_inside : all_inside rsqrt p d
}.

(** What the build reads of the neighbour list. *)
Lemma cells_of_ext b n n' : nl_cut n' = nl_cut n -> cells_of b n' = cells_of b n.
Proof. intros E. unfold cells_of. now rewrite E. Qed.

Lemma in_reach_ext p n n' i j : nl_cut n' = nl_cut n -> m_filter_body n' = m_filter_body n -> m_storage_mode n' = m_storage_mode n -> in_reach p n' i j <-> in_reach p n i j.
Proof. intros E1 E2 E3. unfold in_reach. now rewrite E1, E2, E3. Qed.

Section cells_build.
Context (rsqrt : Scalar -> Scalar) `{RS : !RSqrt rsqrt}.
Variables (dimensions timestep : Z).
Hypothesis Dims : dimensions = 2 \/ dimensions = 3.
Variable p : pdata.
Hypothesis P : particles_ok p.
Hypothesis Bx : box_ok rsqrt p.
Variable d : uint3.
Variable M : Z.

Lemma cells_state_ready b n : cut_ok p (nl_cut n) -> cells_state rsqrt dimensions timestep p b n d M -> ready rsqrt dimensions p timestep d M b n.
Proof.
  intros Co [Pa [Ew Wp] K Du Gr Fo In]. constructor; auto.
  - split; [exact Pa|apply K].
  - apply K.
  - now left.
  - intros i j Hi Hj. destruct (is_neighbor_spec p P (bx_wf _ _ Bx) (bx_foldable _ _ Bx) n i j Co Hi Hj) as (x & E & _). eauto.
Qed.

(** The candidates are the particles in reach. *)
Lemma candidates_reach b n i j : getN p < 2 ^ 32 - 1 -> cut_ok p (nl_cut n) -> (0 <= m_r_buff (nl_cut n))%Q -> cells_state rsqrt dimensions timestep p b n d M ->
  0 <= i < getN p -> 0 <= j < getN p -> j ∈ candidates rsqrt dimensions p (cl_params (m_cl new_binned)) d n i <-> in_reach p n i j.
Proof.
  intros Np Co Hb [Pa [Ew Wp] K Du Gr Fo In] Hi Hj. rewrite <- (candidates_radius rsqrt dimensions p d _ n i Pa). unfold candidates. rewrite list_elem_of_filter.
  rewrite (neighbor_iff p P (bx_wf _ _ Bx) (bx_foldable _ _ Bx) n i j Co Hi Hj). split; [tauto|]. intros R. split; [exact R|].
  destruct R as (Dij & Rp & _ & (v & Ev & Nv) & _). destruct (typed_element p (po_typed p P) i Hi) as [_ Ti]. destruct (typed_element p (po_typed p P) j Hj) as [_ Tj].
  pose proof (co_max_max _ _ Co _ _ Ti Tj) as Le. set (r := value p _ _ _) in *.
  destruct (minImage_spec (m_global_box p) (proj1 (bx_wf _ _ Bx)) (proj2 (bx_wf _ _ Bx)) (s3_sub (pos (element i p)) (pos (element j p)))) as (v' & k & M' & Sh & _).
  { apply (bx_foldable _ _ Bx); now apply position_in. }
  rewrite Ev in M'. injection M' as <-. assert (Tot : u32 (getN p + m_nghosts p) = getN p) by (apply total_eq; [apply Bx|lia]).
  apply (around_complete rsqrt dimensions p (cl_params (cells_of b n)) d i j v k); auto; try apply K; try apply Pa; try (rewrite Ew; exact Wp).
  - apply (bx_wf _ _ Bx).
  - apply In; rewrite ?Tot; lia.
  - apply In; rewrite ?Tot; lia.
  - intros m [-> | ->]; now apply (bx_fraction _ _ Bx).
  - rewrite Ew. nra.
Qed.

End cells_build.

Lemma compute_rows_spec (rsqrt : Scalar -> Scalar) (RS : RSqrt rsqrt) (dimensions timestep : Z) (p : pdata) (t : topology) (b : binned) (n : nlist) (c : cutoffs)
  (C H M : Z) (d : uint3) :
  dimensions = 2 \/ dimensions = 3 -> particles_ok p -> box_ok rsqrt p -> getN p + 4 <= C < 2 ^ 32 - 4 -> getN p * C < 2 ^ 62 ->
  forced_state p C H n -> (0 <= m_r_buff (nl_cut n))%Q -> refresh_cutoffs p n = Ret (set_cut c n, Ok tt) ->
  checkBoxSize rsqrt dimensions p (set_cut c n) = Ok tt -> cells_state rsqrt dimensions timestep p b (set_cut c n) d M ->
  exists b' n', compute rsqrt dimensions binned (buildNlist rsqrt dimensions) timestep p t (b, n) = Ret (b', n', Ok tt) /\ cut_ok p c /\ nl_cut n' = c /\ m_storage_mode n' = m_storage_mode n /\ rows_within p (nl_lists n') /\
    forall i, 0 <= i < getN p ->
      NoDup (row_of (nl_lists n') i) /\ m_last_pos n' !! Z.to_nat i = Some (pos (element i p)) /\
      forall j, j ∈ row_of (nl_lists n') i <-> 0 <= j < getN p /\ in_reach p (set_cut c n) i j /\ ~ excluded_pair p n i j.
Proof.
  intros Dims P Bx HC Big Fs Hb Er Box Cs. pose proof (po_number p P) as Np.
  pose proof (binned_builder rsqrt dimensions p (bx_ghosts _ _ Bx) ltac:(lia) (po_typed p P) timestep d M C (proj1 HC)) as Bd.
  destruct (forced_compute_spec rsqrt dimensions timestep p P C H ltac:(lia) Big _ _ _ t b n Fs) as (b' & n' & n1 & E & Co & Rd & Ec & Eb & Ef & Es & Er1 & Mode & Wi & Row & Sub & Last).
  { intros c' Er' Co'. rewrite Er in Er'. injection Er' as ->. split; [exact Box|]. intros n1 E1 E2 E3. apply cells_state_ready; auto.
    - now rewrite E1.
    - destruct Cs as [C1 C2 C3 C4 C5 C6 C7]. rewrite <- (cells_of_ext b (set_cut c' n) n1 E1) in *. constructor; rewrite ?E1; auto. }
  rewrite Er in Er1. injection Er1 as Ec1. exists b', n'. split; [exact E|]. split; [rewrite Ec1; exact Co|]. split; [congruence|].
  split; [exact Mode|]. split; [exact Wi|]. intros i Hi.
  assert (Cs1 : cells_state rsqrt dimensions timestep p b n1 d M).
  { destruct Cs as [C1 C2 C3 C4 C5 C6 C7]. assert (E1 : nl_cut n1 = nl_cut (set_cut c n)) by (symmetry; exact Ec1). rewrite <- (cells_of_ext b (set_cut c n) n1 E1) in *.
    constructor; rewrite ?E1; auto. }
  assert (ND : NoDup (candidates rsqrt dimensions p (cl_params (m_cl new_binned)) d n1 i)) by (apply NoDup_filter; apply NoDup_around).
  split; [exact (sublist_NoDup _ _ ND (Sub i Hi))|]. split; [now apply Last|]. intros j.
  assert (Rng : j ∈ row_of (nl_lists n') i -> 0 <= j < getN p).
  { intros Hj. pose proof (sublist_submseteq _ _ (Sub i Hi)) as Sm. eapply elem_of_submseteq in Hj; [|exact Sm]. apply list_elem_of_filter in Hj as [_ Hj]. now apply around_range in Hj. }
  assert (Iff : 0 <= j < getN p -> j ∈ row_of (nl_lists n') i <-> in_reach p (set_cut c n) i j /\ ~ excluded_pair p n i j).
  { intros Hj. rewrite (Row i j Hi Hj). rewrite (candidates_reach rsqrt dimensions timestep Dims p P Bx d M b n1 i j ltac:(lia) Co) by (try rewrite Eb; assumption).
    rewrite (in_reach_ext p (set_cut c n) n1 i j) by (assumption || (symmetry; exact Ec1)). reflexivity. }
  tauto.
Qed.


(** * Examples *)

Definition bond01 : topology := mkTopology [[0; 1]] None [] [] [] [] 0 (fun _ => Throw (runtime_error "none")).
Definition consumer_r_cut : list Scalar := [2; 3 # 2; 3 # 2; 0]%Q.
Definition bonded_list : nlist := let n := (addRCutMatrix consumer_r_cut cut_list).1 in value_of (setExclusions ortho3 bond01 ["bond"%string] n) n.
Definition bonded_cut : cutoffs := nl_cut (value_of (updateRList ortho3 bonded_list) bonded_list).

Ltac three_cases N := rewrite N; intros [->|[->| ->]]%below3.

Lemma ortho3_N : getN ortho3 = 3.
Proof. vm_compute. reflexivity. Qed.

Lemma ortho3_ntags : ntags ortho3 = 3.
Proof. vm_compute. reflexivity. Qed.

Lemma ortho3_particles : particles_ok ortho3.
Proof.
  constructor; [exact ortho3_typed|apply ortho3_tags|vm_compute; split; congruence|vm_compute; congruence| | |vm_compute; split; congruence].
  - intros i. three_cases ortho3_N; vm_compute; reflexivity.
  - intros t. rewrite ortho3_ntags. intros [->|[->| ->]]%below3 _; vm_compute; reflexivity.
Qed.

Lemma ortho3_boxed : box_ok Qinv ortho3.
Proof.
  constructor; [exact ortho3_box| | |vm_compute; reflexivity].
  - apply all_foldable_Forall. match goal with |- context [all_pairs_of ?l] => let k := eval vm_compute in l in change l with k end.
    unfold all_pairs_of. repeat (apply Forall_cons; split; [|]); try apply Forall_nil; vm_compute; repeat split; congruence.
  - intros i. three_cases ortho3_N; vm_compute; repeat split; congruence.
Qed.

Lemma bonded_list_forced : forced_state ortho3 100 10 bonded_list.
Proof.
  constructor; [split; [constructor; vm_compute; try reflexivity; repeat constructor|left; vm_compute; reflexivity]|vm_compute; auto|vm_compute; reflexivity| | |].
  - split; [split; [vm_compute; reflexivity|]|].
    + assert (E : NeighborList.m_Nmax (nl_lists bonded_list) = [4; 4]) by (vm_compute; reflexivity). rewrite E. repeat constructor; lia.
    + intros t c m. assert (E : NeighborList.m_Nmax (nl_lists bonded_list) = [4; 4]) by (vm_compute; reflexivity). rewrite E.
      assert (E' : NeighborList.m_conditions (nl_lists bonded_list) = [0; 0]) by (vm_compute; reflexivity). rewrite E'. destruct t as [|[|t]]; simpl; intros; simplify_eq; lia.
  - vm_compute. repeat split; congruence.
  - assert (Cn : m_n_ex_tag (nl_ex bonded_list) = [1; 1; 0]) by (vm_compute; reflexivity). split_and!.
    + constructor; [constructor; vm_compute; repeat split; congruence|constructor; vm_compute; repeat split; congruence|vm_compute; split; congruence|vm_compute; split; congruence|vm_compute; congruence|].
      intros t c. rewrite ortho3_ntags, Cn. assert (Eh : r_height (m_ex_list_tag (nl_ex bonded_list)) = 1) by (vm_compute; reflexivity). rewrite Eh.
      intros [->|[->| ->]]%below3; simpl; intros; simplify_eq; lia.
    + vm_compute. congruence.
    + intros t x. rewrite ortho3_ntags. assert (P0 : partners (nl_ex bonded_list) 0 = [1]) by (vm_compute; reflexivity). assert (P1 : partners (nl_ex bonded_list) 1 = [0]) by (vm_compute; reflexivity).
      assert (P2 : partners (nl_ex bonded_list) 2 = []) by (vm_compute; reflexivity). intros [->|[->| ->]]%below3; rewrite ?P0, ?P1, ?P2; rewrite ?elem_of_cons, elem_of_nil; lia.
Qed.

Lemma bonded_cells : cells_state Qinv 3 0 ortho3 new_binned (set_cut bonded_cut bonded_list) (make_uint3 4 3 2) 3.
Proof.
  constructor; [vm_compute; auto|vm_compute; split; reflexivity| |vm_compute; reflexivity|left; vm_compute; reflexivity|vm_compute; reflexivity|].
  - constructor; [vm_compute; reflexivity|vm_compute; reflexivity|vm_compute; reflexivity|constructor; vm_compute; repeat split; congruence| | | |left; vm_compute; reflexivity|].
    + assert (T : Z.to_nat (u32 (getN ortho3 + m_nghosts ortho3)) = 3%nat) by (vm_compute; reflexivity).
      intros m. rewrite T. intros Hm. destruct m as [|[|[|m]]]; [split; [vm_compute; reflexivity|eexists; vm_compute; reflexivity]..|lia].
    + split_and!; vm_compute; congruence.
    + intros x _. pose proof (length_members Qinv ortho3 (make_uint3 4 3 2) x (Z.to_nat (u32 (getN ortho3 + m_nghosts ortho3)))) as L.
      apply Nat2Z.inj_le in L. etransitivity; [exact L|]. vm_compute. discriminate.
    + assert (E : m_params_changed (cells_of new_binned (set_cut bonded_cut bonded_list)) = true) by (vm_compute; reflexivity). rewrite E. discriminate.
  - intros m. assert (T : Z.to_nat (u32 (getN ortho3 + m_nghosts ortho3)) = 3%nat) by (vm_compute; reflexivity). rewrite T. intros Hm _.
    destruct m as [|[|[|m]]]; [vm_compute; discriminate..|lia].
Qed.


(** * Consequences *)

(** An exclusion of a particle from itself, which the search for "1-3" neighbours
    asks for after a bond was added twice, writes past the list of exclusions. *)
Definition double_bond : topology :=
  mkTopology [[0; 1]; [0; 1]] None [] [] [] [] 2 (fun i => if i <? 2 then Ok (0, 1) else Throw (runtime_error "none")).

Lemma self_exclusion_out_of_bounds : addExclusion ortho3 1 1 fresh_list = OutOfBounds /\ setExclusions ortho3 double_bond ["1-3"%string] fresh_list = OutOfBounds.
Proof. vm_compute. split; reflexivity. Qed.

(** The distance check of a box that has grown by a tenth misses a pair of types
    whose cutoff is smaller than the largest one of the two types: not a neighbour at
    the build, within the cutoff now, and no rebuild. *)
Definition grown_list : nlist :=
  let set a b r n := value_of (setRcut ortho3 a b r n) n in
  let n := match new_nlist Qinv ortho3 (2 # 5) with Ok n => n | Throw _ => no_list end in
  let n := set 0 1 1%Q (set 0 0 3%Q (set 1 1 3%Q n)) in
  setStorageMode full (value_of (updateRList ortho3 n) n).

Definition two_at (L x y : Scalar) : pdata :=
  update_local 2 (e_pos (make_scalar3 (- (7 # 1)) 0 0) zero_i3) (update_local 1 (e_pos (make_scalar3 y 0 0) zero_i3) (update_local 0 (e_pos (make_scalar3 x 0 0) zero_i3)
    (set_global_box (BoxDim.make_array L L L 0 0 0) ortho3))).

Definition grown_now : pdata := update_local 2 (e_pos (make_scalar3 (- (77 # 10)) 0 0) zero_i3) (two_at 22 (36 # 100) (1191 # 1000)).

Lemma expanding_box_misses_pair :
  match setLastUpdatedPos Qinv (two_at 20 0 (141 # 100)) grown_list with
  | Ret n =>
      is_neighbor (two_at 20 0 (141 # 100)) n 0 (element 0 (two_at 20 0 (141 # 100))) (pos (element 1 (two_at 20 0 (141 # 100)))) 1 = Ret false /\
      distanceCheck Qinv grown_now n = Ret false /\
      exists d, BoxDim.minImage (m_global_box grown_now) (s3_sub (pos (element 0 grown_now)) (pos (element 1 grown_now))) = Some d /\ (norm2 d < 1)%Q
  | _ => False
  end.
Proof. vm_compute. split; [reflexivity|]. split; [reflexivity|]. eexists. split; reflexivity. Qed.

(** The exception for a box that is too small is reported once: the next call in
    the same time step returns without a list. *)
Lemma small_box_reported_once :
  match compute Qinv 3 binned (buildNlist Qinv 3) 0 (two_at 4 0 1) bond01 (new_binned, cut_list) with
  | Ret (b, n, Throw _) =>
      match compute Qinv 3 binned (buildNlist Qinv 3) 0 (two_at 4 0 1) bond01 (b, n) with
      | Ret (_, n', Ok _) => m_has_been_updated_once (nl_time n') = false
      | _ => False
      end
  | _ => False
  end.
Proof. vm_compute. reflexivity. Qed.

(** A negative buffer is refused and kept. *)
Lemma negative_buffer_kept : match setRBuff (- (1)) cut_list with (n, Throw _) => m_r_buff (nl_cut n) = (- (1))%Q | _ => False end.
Proof. vm_compute. reflexivity. Qed.
