(* ===== verification/PairForces.v ===== *)
(** The neighbour list and the pair force together: the forces that the loops over
    a freshly computed full list produce are the sums over all other particles. *)

From Stdlib Require Import ZArith Lia QArith Lqa String Bool.
From stdpp Require Import base list list_numbers sorting strings.
From S2P Require Import Prelude HOOMDMath VectorMath Index1D BoxDim ParticleData ParticleDataSpec PairEvaluators PotentialPair PotentialPairTables PotentialPairSpec CellList CellListSpec.
From S2P Require Import NeighborList NeighborListBinned NeighborListProps NeighborListCutoffs NeighborListExclusions NeighborListVerlet NeighborListBuild NeighborListSpec NeighborListCompute.
Local Open Scope Z_scope.
Local Open Scope hoomd_scope.

(** * What the force reads of the list *)

Definition arrays_of (n : nlist) : neighbor_arrays :=
  mkNeighbors (match m_storage_mode n with half => true | full => false end) (m_n_neigh (nl_lists n)) (m_head_list (nl_lists n)) (NeighborList.m_nlist (nl_lists n)).

Lemma neighbors_of_row p n i : rows_within p (nl_lists n) -> 0 <= i < getN p -> neighbors_of (arrays_of n) i = row_of (nl_lists n) i.
Proof.
  intros Wi Hi. destruct (Wi i Hi) as (h & k & Eh & Ek & Hh & Hk & Le). unfold neighbors_of, row_of. simpl. rewrite (zget_lookup _ _ _ _ Eh), (zget_lookup _ _ _ _ Ek).
  set (l := NeighborList.m_nlist (nl_lists n)) in *. apply list_eq. intros x. destruct (decide (x < Z.to_nat k)%nat) as [Lt|Ge].
  - rewrite lookup_take_lt, lookup_drop by exact Lt. rewrite list_lookup_fmap, lookup_seqZ_lt by lia. simpl.
    replace (Z.to_nat h + x)%nat with (Z.to_nat (h + (0 + Z.of_nat x))) by lia. apply lookup_zget. lia.
  - rewrite !lookup_ge_None_2; [reflexivity|rewrite length_fmap, length_seqZ; lia|rewrite length_take; lia].
Qed.

(** * Evaluators with a cutoff *)

(** The evaluator returns nothing at or beyond the cutoff; DLVO, which compares
    distances in place of their squares, is the only one without an instance. *)
Class Truncated {R : Type} `{RealOps R} (E : evaluator R) : Prop :=
  truncated_none : forall param qi qj rsq rcutsq shift, rltb rsq rcutsq = false -> evalForceAndEnergy E param qi qj rsq rcutsq shift = None.

Ltac truncated_by ev := intros param qi qj rsq rcutsq shift L; simpl; unfold ev; cbv zeta; rewrite L; reflexivity.

Section instances.
Context {R : Type} `{RealOps R} `{RealFun R}.
#[export] Instance LJ_truncated : Truncated LJ. Proof. truncated_by @LJ_eval. Qed.
#[export] Instance ForceShiftedLJ_truncated : Truncated ForceShiftedLJ. Proof. truncated_by @ForceShiftedLJ_eval. Qed.
#[export] Instance LJ0804_truncated : Truncated LJ0804. Proof. truncated_by @LJ0804_eval. Qed.
#[export] Instance LJ1208_truncated : Truncated LJ1208. Proof. truncated_by @LJ1208_eval. Qed.
#[export] Instance ExpandedLJ_truncated : Truncated ExpandedLJ. Proof. truncated_by @ExpandedLJ_eval. Qed.
#[export] Instance Gauss_truncated : Truncated Gauss. Proof. truncated_by @Gauss_eval. Qed.
#[export] Instance ExpandedGaussian_truncated : Truncated ExpandedGaussian. Proof. truncated_by @ExpandedGaussian_eval. Qed.
#[export] Instance Yukawa_truncated : Truncated Yukawa. Proof. truncated_by @Yukawa_eval. Qed.
#[export] Instance Morse_truncated : Truncated Morse. Proof. truncated_by @Morse_eval. Qed.
#[export] Instance Buckingham_truncated : Truncated Buckingham. Proof. truncated_by @Buckingham_eval. Qed.
#[export] Instance Moliere_truncated : Truncated Moliere. Proof. truncated_by @Moliere_eval. Qed.
#[export] Instance ZBL_truncated : Truncated ZBL. Proof. truncated_by @ZBL_eval. Qed.
#[export] Instance DPD_truncated : Truncated DPD. Proof. truncated_by @DPD_eval. Qed.
#[export] Instance Mie_truncated : Truncated Mie. Proof. truncated_by @Mie_eval. Qed.
#[export] Instance ExpandedMie_truncated : Truncated ExpandedMie. Proof. truncated_by @ExpandedMie_eval. Qed.
#[export] Instance OPP_truncated : Truncated OPP. Proof. truncated_by @OPP_eval. Qed.
#[export] Instance ReactionField_truncated : Truncated ReactionField. Proof. truncated_by @ReactionField_eval. Qed.
#[export] Instance TWF_truncated infinity : Truncated (TWF infinity). Proof. truncated_by @TWF_eval. Qed.
#[export] Instance LJGauss_truncated : Truncated LJGauss. Proof. truncated_by @LJGauss_eval. Qed.
#[export] Instance Fourier_truncated : Truncated Fourier. Proof. truncated_by @Fourier_eval. Qed.
End instances.

(** * Sums over the particles *)

Lemma sumQ_perm {A} (g : A -> Q) l k : l ≡ₚ k -> (sumQ g l == sumQ g k)%Q.
Proof. induction 1 as [|x l k _ IH|x y l|l k m _ IH1 _ IH2]; simpl; [reflexivity|now rewrite IH|ring|now rewrite IH1]. Qed.

Lemma sumQ_filter {A} (P : A -> Prop) `{forall x, Decision (P x)} (g : A -> Q) l : (forall x, x ∈ l -> ~ P x -> (g x == 0)%Q) -> (sumQ g (filter P l) == sumQ g l)%Q.
Proof.
  induction l as [|x l IH]; intros Z0; [reflexivity|]. rewrite filter_cons. assert (IH' : (sumQ g (filter P l) == sumQ g l)%Q) by (apply IH; intros; apply Z0; [now right|assumption]).
  case_decide as Px; simpl; rewrite IH'; [reflexivity|]. rewrite (Z0 x) by (assumption || left). ring.
Qed.

(** The sum over a list without duplicates whose other elements give nothing. *)
Lemma sumQ_sub {A} `{EqDecision A} (g : A -> Q) l k : NoDup l -> NoDup k -> (forall x, x ∈ l -> x ∈ k) -> (forall x, x ∈ k -> x ∉ l -> (g x == 0)%Q) -> (sumQ g l == sumQ g k)%Q.
Proof.
  intros Nl Nk Sub Z0. rewrite <- (sumQ_filter (fun x => x ∈ l) g k Z0). apply sumQ_perm, NoDup_Permutation; [assumption|now apply NoDup_filter|].
  intros x. rewrite list_elem_of_filter. firstorder.
Qed.

#[export] Instance excluded_pair_dec p n i j : Decision (excluded_pair p n i j).
Proof. unfold excluded_pair. apply _. Defined.

(** The other particles that are not excluded. *)
Definition others (p : pdata) (n : nlist) (a : Z) : list Z := filter (fun j => j <> a /\ ~ excluded_pair p n a j) (seqZ 0 (getN p)).

(** * The forces *)

Section forces.
Context `{RealOps Q} `{RealFun Q}.
Hypothesis Order : forall a b : Q, (b <= a)%Q -> rltb a b = false.
Variable E : evaluator Q.
Hypothesis Trunc : Truncated E.
Variable p : pdata.
Hypothesis P : particles_ok p.
Hypothesis W : BoxDim.wf (m_global_box p) /\ BoxDim.centred (m_global_box p).
Hypothesis Fold : all_foldable (m_global_box p) (positions p).
Variable f : potential E.
Hypothesis T : tables_ok E p f.
Variable virial : bool.

(** The squared cutoffs of the force are those it asks the list for. *)
Definition cutoffs_agree : Prop := forall i j, 0 <= i < getNTypes p -> 0 <= j < getNTypes p ->
  (0 <= value p (m_r_cut_nlist E f) i j)%Q /\ value p (m_rcutsq E f) i j = (value p (m_r_cut_nlist E f) i j * value p (m_r_cut_nlist E f) i j)%Q.

Lemma read_table {A} (l : list A) i j : sized (getNTypes p) l -> 0 <= i < getNTypes p -> 0 <= j < getNTypes p -> exists x, read l (Index2D.index (PotentialPair.m_typpair_idx E f) i j) = Ret x.
Proof.
  intros S Hi Hj. rewrite (to_index _ _ _ T). pose proof (type_index_range (getNTypes p) (to_types _ _ _ T) i j Hi Hj) as R. unfold type_index in R. unfold sized in S.
  destruct (lookup_lt_is_Some_2 l (Z.to_nat (Index2D.index (Index2D.make_square (getNTypes p)) i j))) as [x Hx]; [lia|]. exists x. now apply read_Some.
Qed.

(** Every pair can be evaluated, and gives nothing at or beyond the cutoff. *)
Lemma pair_evaluated i j : 0 <= i < getN p -> 0 <= j < getN p -> exists dx o, pair_of E p f i j = Ret (dx, o) /\
  BoxDim.minImage (m_global_box p) (s3_sub (pos (element i p)) (pos (element j p))) = Some dx /\
  ((value p (m_rcutsq E f) (typ (element i p)) (typ (element j p)) <= norm2 dx)%Q -> o = None).
Proof.
  intros Hi Hj. destruct (typed_element p (po_typed p P) i Hi) as [Pi Ti]. destruct (typed_element p (po_typed p P) j Hj) as [Pj Tj].
  destruct (minImage_spec (m_global_box p) (proj1 W) (proj2 W) (s3_sub (pos (element i p)) (pos (element j p)))) as (dx & k & M & _); [apply Fold; now apply position_in|].
  unfold pair_of. rewrite (read_Some _ _ _ Pi), (read_Some _ _ _ Pj). cbn [run_bind]. rewrite M.
  destruct (read_table (m_params E f) _ _ (proj1 (to_params _ _ _ T)) Ti Tj) as [param ->]. cbn [run_bind]. rewrite (to_index _ _ _ T).
  change (getNTypes p) with (n_types p) in *. rewrite (read_value p (to_types _ _ _ T) (m_rcutsq E f) _ _ (proj1 (to_rcutsq _ _ _ T)) Ti Tj). cbn [run_bind].
  assert (X : exists r, match m_shift_mode E f with xplor => read (m_ronsq E f) (Index2D.index (Index2D.make_square (n_types p)) (typ (element i p)) (typ (element j p))) | _ => Ret 0%Q end = Ret r).
  { destruct (m_shift_mode E f); try (eexists; reflexivity). eexists. apply (read_value p (to_types _ _ _ T) (m_ronsq E f) _ _ (proj1 (to_ronsq _ _ _ T)) Ti Tj). }
  destruct X as [ron ->]. cbn [run_bind]. eexists dx, _. split; [reflexivity|]. split; [reflexivity|]. intros Far. unfold evaluate_pair. fold (norm2 dx).
  rewrite Trunc by (apply Order; exact Far). reflexivity.
Qed.

Lemma norm2_nonneg v : (0 <= norm2 v)%Q.
Proof. unfold norm2. pose proof (sq_nonneg (s3x v)). pose proof (sq_nonneg (s3y v)). pose proof (sq_nonneg (s3z v)). lra. Qed.

(** A pair that the list leaves out for its distance gives nothing. *)
Lemma far_share n a j : cut_ok p (nl_cut n) -> (0 <= m_r_buff (nl_cut n))%Q -> m_r_cut_nlist E f ∈ m_consumer_r_cut (nl_cut n) -> cutoffs_agree ->
  m_storage_mode n = full -> m_filter_body n = false -> 0 <= a < getN p -> 0 <= j < getN p -> j <> a -> ~ in_reach p n a j -> share1 E virial p f (a, j) = f_zero.
Proof.
  intros Co Hb Con Agree Full Nof Ha Hj Dj Far. destruct (pair_evaluated a j Ha Hj) as (dx & o & Ep & M & Cut). unfold share1, pair_result. simpl. rewrite Ep.
  destruct (typed_element p (po_typed p P) a Ha) as [_ Ta]. destruct (typed_element p (po_typed p P) j Hj) as [_ Tj]. destruct (Agree _ _ Ta Tj) as [R0 R2].
  pose proof (co_cut _ _ Co _ _ Ta Tj) as Rc. destruct (max_of_ge ((fun m => value p m (typ (element a p)) (typ (element j p))) <$> m_consumer_r_cut (nl_cut n))
    (value p (m_rcut_base (nl_cut n)) (typ (element a p)) (typ (element j p)))) as [_ Ge]. rewrite <- Rc in Ge. rewrite Forall_forall in Ge.
  assert (Le : (value p (m_r_cut_nlist E f) (typ (element a p)) (typ (element j p)) <= value p (m_r_cut (nl_cut n)) (typ (element a p)) (typ (element j p)))%Q).
  { apply Ge, list_elem_of_fmap. eexists. split; [reflexivity|exact Con]. }
  rewrite R2 in Cut. unfold in_reach in Far. set (rn := value p (m_r_cut_nlist E f) _ _) in *. set (r := value p (m_r_cut (nl_cut n)) _ _) in *.
  assert (N : (rn * rn <= norm2 dx)%Q).
  { destruct (Qlt_le_dec 0 r) as [Pos|Neg].
    - assert (D : ~ (norm2 dx <= (r + m_r_buff (nl_cut n)) * (r + m_r_buff (nl_cut n)))%Q).
      { intros Near. apply Far. split_and!; [congruence|exact Pos|rewrite Nof; intros [? _]; discriminate|exists dx; auto|rewrite Full; discriminate]. }
      apply Qnot_le_lt in D. nra.
    - pose proof (norm2_nonneg dx). nra. }
  now rewrite (Cut N).
Qed.

(** The list of a computation gives the force all pairs. *)
Lemma forces_spec n n' a (c : facc -> Q) : cut_ok p (nl_cut n) -> (0 <= m_r_buff (nl_cut n))%Q -> m_r_cut_nlist E f ∈ m_consumer_r_cut (nl_cut n) -> cutoffs_agree ->
  m_storage_mode n = full -> m_filter_body n = false -> m_storage_mode n' = full -> rows_within p (nl_lists n') -> column c ->
  (forall i, 0 <= i < getN p -> NoDup (row_of (nl_lists n') i) /\
     forall j, j ∈ row_of (nl_lists n') i <-> 0 <= j < getN p /\ in_reach p n i j /\ ~ excluded_pair p n i j) ->
  0 <= a < getN p -> (reference E virial p f (arrays_of n') c a == sumQ (fun j => c (share1 E virial p f (a, j))) (others p n a))%Q.
Proof.
  intros Co Hb Con Agree Full Nof Full' Wi Cc Rows Ha. destruct (Rows a Ha) as [Nd In]. rewrite reference_particles.
  assert (Half : nl_half (arrays_of n') = false) by (simpl; now rewrite Full').
  assert (S2 : forall e, share2 E virial p f (arrays_of n') e = f_zero) by (intros e; unfold share2; rewrite Half; simpl; destruct (pair_result E p f e.1 e.2) as [? [?|]]; reflexivity).
  assert (Fp : forall i, (from_particle E virial p f (arrays_of n') c a i == if (i =? a)%Z then sumQ (fun j => c (share1 E virial p f (a, j))) (neighbors_of (arrays_of n') a) else 0)%Q).
  { intros i. unfold from_particle. rewrite (sumQ_ext (fun j => if (a =? j)%Z then _ else _) (fun _ => 0%Q)) by (intros j _; rewrite S2; destruct (a =? j); [apply (col_zero c Cc)|reflexivity]).
    rewrite sumQ_zero, Z.eqb_sym. destruct (Z.eqb_spec i a) as [->|]; ring. }
  rewrite (sumQ_ext _ _ _ (fun i _ => Fp i)), sumQ_single by exact Ha. rewrite (neighbors_of_row p n' a Wi Ha). apply sumQ_sub.
  - exact Nd.
  - apply NoDup_filter, NoDup_seqZ.
  - intros j (Hj & R & X)%In. unfold others. apply list_elem_of_filter. split; [split; [destruct R; congruence|exact X]|]. apply elem_of_seqZ. lia.
  - intros j Hj Out. unfold others in Hj. apply list_elem_of_filter in Hj as [[Dj Ex] Hj%elem_of_seqZ]. rewrite (far_share n a j Co Hb Con Agree Full Nof Ha ltac:(lia) Dj); [apply (col_zero c Cc)|].
    intros R. apply Out, In. split; [lia|auto].
Qed.

End forces.

(** C14. The pair forces of a simulation step: after a forced [compute] of a full
    neighbour list built from cells, for which the potential has registered its
    cutoffs, the loops of the pair force succeed, and the force, the energy and the
    virial of every particle are the sums of the shares of all pairs with the other
    particles that are not excluded: neither the cells nor the buffer nor the list
    change the result of the sum over all pairs. *)
Theorem pair_forces_all_pairs `{RealOps Q} `{RealFun Q} (Order : forall a b : Q, (b <= a)%Q -> rltb a b = false) (E : evaluator Q) (Trunc : Truncated E)
  (rsqrt : Scalar -> Scalar) (RS : RSqrt rsqrt) (dimensions timestep : Z) (p : pdata) (t : topology) (b : binned) (n : nlist) (c : cutoffs) (C Rows M : Z) (d : uint3)
  (f : potential E) (virial : bool) (elements : nat) :
  dimensions = 2 \/ dimensions = 3 -> particles_ok p -> box_ok rsqrt p -> getN p + 4 <= C < 2 ^ 32 - 4 -> getN p * C < 2 ^ 62 ->
  forced_state p C Rows n -> (0 <= m_r_buff (nl_cut n))%Q -> refresh_cutoffs p n = Ret (set_cut c n, Ok tt) ->
  checkBoxSize rsqrt dimensions p (set_cut c n) = Ok tt -> cells_state rsqrt dimensions timestep p b (set_cut c n) d M ->
  m_storage_mode n = full -> m_filter_body n = false ->
  tables_ok E p f -> cutoffs_agree E p f -> m_r_cut_nlist E f ∈ m_consumer_r_cut c -> getN p <= Z.of_nat elements ->
  exists b' n' force r, NeighborList.compute rsqrt dimensions binned (buildNlist rsqrt dimensions) timestep p t (b, n) = Ret (b', n', Ok tt) /\
    computeForces E virial dimensions p f (arrays_of n') elements = Ret (force, r) /\
    forall a, 0 <= a < getN p -> Forall (fun x : facc -> Q => (x (at_index force a) == sumQ (fun j => x (share1 E virial p f (a, j))) (others p n a))%Q)
      [f_x; f_y; f_z; f_w; v_xx; v_xy; v_xz; v_yy; v_yz; v_zz].
Proof.
  intros Dims P Bx HC Big Fs Hb Er Box Cs Full Nof T Agree Con El. pose proof (po_number p P) as Np.
  destruct (compute_rows_spec rsqrt RS dimensions timestep p t b n c C Rows M d Dims P Bx HC Big Fs Hb Er Box Cs) as (b' & n' & Ec & Co & Nc & Mode & Wi & Rw).
  assert (Hb' : (0 <= m_r_buff c)%Q).
  { destruct (refresh_cutoffs_spec p P n (fs_cut _ _ _ _ Fs)) as (c' & Er' & _ & Eb). rewrite Er in Er'. injection Er' as ->. now rewrite Eb. }
  assert (Ok' : nlist_ok E p f (arrays_of n') elements).
  { constructor; [lia|exact Wi|]. intros i j Hi Hj. rewrite (neighbors_of_row p n' i Wi Hi) in Hj. destruct (Rw i Hi) as (_ & _ & In). apply In in Hj as [Hj _]. split; [lia|].
    destruct (pair_evaluated Order E Trunc p P (bx_wf _ _ Bx) (bx_foldable _ _ Bx) f T i j Hi Hj) as (dx & o & Ep & _). eauto. }
  destruct (computeForces_parts E virial p f (arrays_of n') elements Ok' dimensions T) as (force & f' & r & Ef & _ & F & _).
  exists b', n', force, (f', r). split; [exact Ec|]. split; [exact Ef|]. intros a Ha. eapply Forall_impl; [exact columns|]. intros x Cx. rewrite (F x a Cx ltac:(lia)).
  apply (forces_spec Order E Trunc p P (bx_wf _ _ Bx) (bx_foldable _ _ Bx) f T virial (set_cut c n) n' a x); auto; [congruence|].
  intros i Hi. destruct (Rw i Hi) as (Nd & _ & In). auto.
Qed.

(** * Example *)

(** The three particles with a Lennard-Jones potential. *)
Definition lj_cut : potential (@LJ Q Q_example_ops Q_example_fun) :=
  mkPotential (@LJ Q Q_example_ops Q_example_fun) no_shift (Index2D.make_square 2) [2 * 2; (3 # 2) * (3 # 2); (3 # 2) * (3 # 2); 0 * 0]%Q [0; 0; 0; 0]%Q
    (replicate 4 (@mkLJ Q 1%Q 4%Q)) consumer_r_cut false [2; 1] 0%Q (replicate 6 0%Q).

Lemma Q_example_order (a b : Q) : (b <= a)%Q -> @rltb Q Q_example_ops a b = false.
Proof. intros L. simpl. destruct (lt_b_cases a b); [lra|reflexivity]. Qed.

Lemma below2 i : 0 <= i < 2 -> i = 0 \/ i = 1.
Proof. lia. Qed.

Lemma ortho3_types : getNTypes ortho3 = 2.
Proof. vm_compute. reflexivity. Qed.

Lemma lj_cut_tables : @tables_ok (@LJ Q Q_example_ops Q_example_fun) ortho3 lj_cut.
Proof.
  constructor; rewrite ortho3_types; try (split; [reflexivity|]); try reflexivity; try lia;
    intros i j Hi Hj; apply below2 in Hi, Hj; destruct Hi as [->| ->], Hj as [->| ->]; reflexivity.
Qed.

Lemma lj_cut_agree : cutoffs_agree (@LJ Q Q_example_ops Q_example_fun) ortho3 lj_cut.
Proof.
  intros i j. rewrite ortho3_types. intros [->| ->]%below2 [->| ->]%below2; (split; [vm_compute; discriminate|vm_compute; reflexivity]).
Qed.

Lemma pair_forces_all_pairs_witness : exists b' n' force r,
  NeighborList.compute Qinv 3 binned (buildNlist Qinv 3) 0 ortho3 bond01 (new_binned, bonded_list) = Ret (b', n', Ok tt) /\
  @computeForces Q_example_ops Q_example_fun _ true 3 ortho3 lj_cut (arrays_of n') 3 = Ret (force, r) /\
  (f_x (at_index force 1) == sumQ (fun j => f_x (@share1 Q_example_ops Q_example_fun _ true ortho3 lj_cut (1%Z, j))) (others ortho3 bonded_list 1))%Q.
Proof.
  destruct (@pair_forces_all_pairs Q_example_ops Q_example_fun Q_example_order (@LJ Q Q_example_ops Q_example_fun) LJ_truncated Qinv Qinv_RSqrt 3 0 ortho3 bond01 new_binned bonded_list bonded_cut
    100 10 3 (make_uint3 4 3 2) lj_cut true 3) as (b' & n' & force & r & Ec & Ef & F).
  - now right.
  - exact ortho3_particles.
  - exact ortho3_boxed.
  - vm_compute. split; congruence.
  - vm_compute. reflexivity.
  - exact bonded_list_forced.
  - vm_compute. discriminate.
  - vm_compute. reflexivity.
  - vm_compute. reflexivity.
  - exact bonded_cells.
  - vm_compute. reflexivity.
  - vm_compute. reflexivity.
  - exact lj_cut_tables.
  - exact lj_cut_agree.
  - assert (X : m_consumer_r_cut bonded_cut = [consumer_r_cut]) by (vm_compute; reflexivity). rewrite X. apply list_elem_of_singleton. reflexivity.
  - vm_compute. discriminate.
  - exists b', n', force, r. split; [exact Ec|]. split; [exact Ef|]. specialize (F 1). rewrite ortho3_N in F. specialize (F ltac:(lia)). now inversion F.
Defined.
