(* ===== verification/RandomNumbers.v ===== *)
(** Random numbers ([hoomd/RandomNumbers.h], [hoomd/RNGIdentifiers.h]).

    A generator is a key and a counter of 32-bit words. The function that maps them
    to random bits, Philox, is a library and appears as the argument [philox]. The
    distributions are generic in the scalar type, with the functions they call as
    type classes. A rejection loop has fuel: [None] when it draws more often.
    Rounding of the conversions to floating point is not modelled. *)

From Stdlib Require Import ZArith Lia QArith Reals Lra Bool String.
From stdpp Require Import base list list_numbers.
From S2P Require Import Prelude HOOMDMath VectorMath PairEvaluators.
Local Open Scope Z_scope.

(** * Keys and counters *)

(** [r123::Philox4x32::key_type] and [ctr_type]. *)
Record key_type := mkKey { key0 : Z; key1 : Z }.
Record ctr_type := mkCtr { ctr0 : Z; ctr1 : Z; ctr2 : Z; ctr3 : Z }.

(** [Seed(id, timestep, seed)] with 8, 64 and 16 bits. *)
Definition Seed (id timestep seed : Z) : key_type :=
  mkKey (Z.lor (Z.lor (Z.shiftl id 24) (Z.shiftl seed 8)) (Z.shiftr (Z.land timestep (Z.shiftl 255 32)) 32))
        (Z.land timestep (2 ^ 32 - 1)).

(** [Counter(a, b, c, d)]; [d] has 16 bits. *)
Definition Counter (a b c d : Z) : ctr_type := mkCtr (Z.shiftl d 16) c b a.

Record RandomGenerator := mkGenerator { m_key : key_type; m_ctr : ctr_type }.

Definition new_generator (seed : key_type) (counter : ctr_type) : RandomGenerator := mkGenerator seed counter.

(** The identifiers of the classes that draw random numbers. *)
Inductive RNGIdentifier :=
| id_ComputeFreeVolume | id_HPMCMonoShuffle | id_HPMCMonoTrialMove | id_HPMCMonoShift | id_HPMCDepletants
| id_HPMCDepletantNum | id_HPMCMonoAccept | id_UpdaterBoxMC | id_UpdaterClusters | id_UpdaterClustersPairwise
| id_UpdaterExternalFieldWall | id_UpdaterMuVT | id_UpdaterMuVTDepletants1 | id_UpdaterMuVTDepletants2
| id_UpdaterMuVTDepletants3 | id_UpdaterMuVTDepletants4 | id_UpdaterMuVTDepletants5
| id_UpdaterMuVTDepletants6 | id_UpdaterMuVTPoisson | id_UpdaterMuVTBox1 | id_UpdaterMuVTBox2
| id_ActiveForceCompute | id_EvaluatorPairDPDThermo | id_IntegrationMethodTwoStep | id_TwoStepBD
| id_TwoStepLangevin | id_TwoStepLangevinAngular | id_TwoStepConstantPressureThermalizeBarostat
| id_MTTKThermostat | id_ATCollisionMethod | id_CollisionMethod | id_SRDCollisionMethod
| id_VirtualParticleFiller | id_UpdaterQuickCompress | id_ParticleGroupThermalize | id_HPMCDepletantsAccept
| id_HPMCDepletantsClusters | id_HPMCDepletantNumClusters | id_HPMCMonoPatch | id_UpdaterClusters2
| id_HPMCMonoChainMove | id_UpdaterShapeUpdate | id_UpdaterShapeConstruct | id_HPMCShapeMoveUpdateOrder
| id_BussiThermostat | id_ConstantPressure | id_MPCDCellList.

Definition id_value (i : RNGIdentifier) : Z :=
  match i with
  | id_ComputeFreeVolume => 0 | id_HPMCMonoShuffle => 1 | id_HPMCMonoTrialMove => 2 | id_HPMCMonoShift => 3
  | id_HPMCDepletants => 4 | id_HPMCDepletantNum => 5 | id_HPMCMonoAccept => 6 | id_UpdaterBoxMC => 7
  | id_UpdaterClusters => 8 | id_UpdaterClustersPairwise => 9 | id_UpdaterExternalFieldWall => 10
  | id_UpdaterMuVT => 11 | id_UpdaterMuVTDepletants1 => 12 | id_UpdaterMuVTDepletants2 => 13
  | id_UpdaterMuVTDepletants3 => 14 | id_UpdaterMuVTDepletants4 => 15 | id_UpdaterMuVTDepletants5 => 16
  | id_UpdaterMuVTDepletants6 => 17 | id_UpdaterMuVTPoisson => 18 | id_UpdaterMuVTBox1 => 19 | id_UpdaterMuVTBox2 => 20
  | id_ActiveForceCompute => 21 | id_EvaluatorPairDPDThermo => 22 | id_IntegrationMethodTwoStep => 23
  | id_TwoStepBD => 24 | id_TwoStepLangevin => 25 | id_TwoStepLangevinAngular => 26
  | id_TwoStepConstantPressureThermalizeBarostat => 27 | id_MTTKThermostat => 28 | id_ATCollisionMethod => 29
  | id_CollisionMethod => 30 | id_SRDCollisionMethod => 31 | id_VirtualParticleFiller => 32
  | id_UpdaterQuickCompress => 34 | id_ParticleGroupThermalize => 35 | id_HPMCDepletantsAccept => 36
  | id_HPMCDepletantsClusters => 37 | id_HPMCDepletantNumClusters => 38 | id_HPMCMonoPatch => 39
  | id_UpdaterClusters2 => 40 | id_HPMCMonoChainMove => 41 | id_UpdaterShapeUpdate => 42
  | id_UpdaterShapeConstruct => 43 | id_HPMCShapeMoveUpdateOrder => 44 | id_BussiThermostat => 45
  | id_ConstantPressure => 46 | id_MPCDCellList => 47
  end.

(** * Random bits *)

Section generator.
Variable philox : ctr_type -> key_type -> ctr_type.

(** [RandomGenerator::operator()]: the random bits and the advanced generator. *)
Definition next (g : RandomGenerator) : ctr_type * RandomGenerator :=
  (philox (m_ctr g) (m_key g),
   mkGenerator (m_key g) (mkCtr (u32 (ctr0 (m_ctr g) + 1)) (ctr1 (m_ctr g)) (ctr2 (m_ctr g)) (ctr3 (m_ctr g)))).

Definition generate_u32 (g : RandomGenerator) : Z * RandomGenerator := let '(u, g) := next g in (ctr0 u, g).

Definition generate_u64 (g : RandomGenerator) : Z * RandomGenerator :=
  let '(u, g) := next g in (Z.lor (Z.shiftl (ctr0 u) 32) (ctr1 u), g).

Definition generate_2u64 (g : RandomGenerator) : Z * Z * RandomGenerator :=
  let '(u, g) := next g in (Z.lor (Z.shiftl (ctr0 u) 32) (ctr1 u), Z.lor (Z.shiftl (ctr2 u) 32) (ctr3 u), g).

(** The generator after [n] draws. *)
Fixpoint advance (n : nat) (g : RandomGenerator) : RandomGenerator :=
  match n with O => g | S n => advance n (next g).2 end.

(** ** Integers *)

(** The bits below the highest bit of [m], set. *)
Definition smear (m : Z) : Z :=
  let n := u32 (u32 (m + 1) - 1) in
  let n := Z.lor n (Z.shiftr n 1) in
  let n := Z.lor n (Z.shiftr n 2) in
  let n := Z.lor n (Z.shiftr n 4) in
  let n := Z.lor n (Z.shiftr n 8) in
  Z.lor n (Z.shiftr n 16).

Fixpoint uniform_int_loop (fuel : nat) (m n : Z) (g : RandomGenerator) : option (Z * RandomGenerator) :=
  match fuel with
  | O => None
  | S fuel => let '(u, g) := generate_u32 g in let result := Z.land u n in if result >? m then uniform_int_loop fuel m n g else Some (result, g)
  end.

(** [UniformIntDistribution(m)(rng)] *)
Definition UniformInt (fuel : nat) (m : Z) (g : RandomGenerator) : option (Z * RandomGenerator) :=
  if m =? 0 then Some (0, g) else uniform_int_loop fuel m (smear m) g.

(** ** Scalars *)

Section scalars.
Context {R : Type} `{RealOps R} `{RealFun R}.
Local Open Scope real_scope.
Local Notation "a < b" := (rltb a b) : real_scope.

(** [r123::u01] and [r123::uneg11] of a 64-bit integer. *)
Definition u01 (u : Z) : R := lit (inject_Z u) * lit (1 # 2 ^ 64) + lit (1 # 2) * lit (1 # 2 ^ 64).
Definition int64_of (u : Z) : Z := if Z.ltb u (2 ^ 63) then u else (u - 2 ^ 64)%Z.
Definition uneg11 (u : Z) : R := lit (inject_Z (int64_of u)) * lit (1 # 2 ^ 63) + lit (1 # 2) * lit (1 # 2 ^ 63).

Definition generate_canonical (g : RandomGenerator) : R * RandomGenerator := let '(u, g) := generate_u64 g in (u01 u, g).

(** [UniformDistribution(a, b)(rng)] *)
Definition Uniform (a b : R) (g : RandomGenerator) : R * RandomGenerator :=
  let width := b - a in let '(u, g) := generate_canonical g in (a + width * u, g).

(** [NormalDistribution(sigma, mu)(rng)]: one value, and two values. *)
Definition sincospi (x : R) : R * R := (rsin (rpi * x), rcos (rpi * x)).

Definition Normal (sigma mu : R) (g : RandomGenerator) : R * RandomGenerator :=
  let '(u0, u1, g) := generate_2u64 g in
  let '(x, _) := sincospi (uneg11 u0) in
  let r := rsqrt (lit (- 2) * rlog (u01 u1)) in
  let x := x * r in
  (x * sigma + mu, g).

Definition Normal2 (sigma mu : R) (g : RandomGenerator) : R * R * RandomGenerator :=
  let '(u0, u1, g) := generate_2u64 g in
  let '(x, y) := sincospi (uneg11 u0) in
  let r := rsqrt (lit (- 2) * rlog (u01 u1)) in
  let r := r * sigma in
  (x * r + mu, y * r + mu, g).

Fixpoint sphere_loop (fuel : nat) (g : RandomGenerator) : option (R * R * RandomGenerator) :=
  match fuel with
  | O => None
  | S fuel =>
      let '(u, g) := Uniform (lit (- 1)) (lit 1) g in
      let one_minus_u2 := lit 1 - u * u in
      if one_minus_u2 < lit 0 then sphere_loop fuel g else Some (u, one_minus_u2, g)
  end.

(** [SpherePointGenerator()(rng, point)] *)
Definition SpherePoint (fuel : nat) (g : RandomGenerator) : option (VectorMath.vec3 R * RandomGenerator) :=
  let '(theta, g) := Uniform (lit 0) (lit 2 * rpi) g in
  match sphere_loop fuel g with
  | None => None
  | Some (u, one_minus_u2, g) => let sqrtu := rsqrt one_minus_u2 in Some (VectorMath.mk3 (rcos theta * sqrtu) (rsin theta * sqrtu) u, g)
  end.

(** [GammaDistribution(alpha, b)(rng)] *)
Fixpoint marsaglia_loop (fuel : nat) (c : R) (g : RandomGenerator) : option (R * R * RandomGenerator) :=
  match fuel with
  | O => None
  | S fuel =>
      let '(x, g) := Normal (lit 1) (lit 0) g in
      let v := lit 1 + c * x in
      if lit 0 < v then Some (x, v, g) else marsaglia_loop fuel c g
  end.

Fixpoint gamma_loop (fuel : nat) (d c : R) (g : RandomGenerator) : option (R * RandomGenerator) :=
  match fuel with
  | O => None
  | S fuel =>
      match marsaglia_loop fuel c g with
      | None => None
      | Some (x, v, g) =>
          let v := v * v * v in
          let x2 := x * x in
          let '(u, g) := generate_canonical g in
          if u < lit 1 - lit (331 # 10000) * x2 * x2 then Some (v, g)
          else if rlog u < lit (1 # 2) * x2 + d * (lit 1 - v + rlog v) then Some (v, g)
          else gamma_loop fuel d c g
      end
  end.

Definition Gamma (fuel : nat) (m_alpha m_b : R) (g : RandomGenerator) : option (result (R * RandomGenerator)) :=
  if negb (lit 0 < m_alpha) then Some (Throw (domain_error "alpha must be positive."))
  else
    let alpha := if m_alpha < lit 1 then m_alpha + lit 1 else m_alpha in
    let d := alpha - lit (1 # 3) in
    let c := rinv_sqrt d / lit 3 in
    match gamma_loop fuel d c g with
    | None => None
    | Some (v, g) =>
        let v := v * (d * m_b) in
        if m_alpha < lit 1 then let '(u, g) := generate_canonical g in Some (Ok (v * rpow u (lit 1 / m_alpha), g)) else Some (Ok (v, g))
    end.

(** [PoissonDistribution(mean)(rng)] with a mean below 13; [result] counts in [int]. *)
Fixpoint poisson_loop (fuel : nat) (L p : R) (result : Z) (g : RandomGenerator) : option (Z * RandomGenerator) :=
  match fuel with
  | O => None
  | S fuel =>
      let result := (result + 1)%Z in
      let '(u, g) := generate_canonical g in
      let p := p * u in
      if L < p then poisson_loop fuel L p result g else Some (result, g)
  end.

Definition poissrnd_small (fuel : nat) (mean : R) (g : RandomGenerator) : option (Z * RandomGenerator) :=
  let L := rexp (ropp mean) in
  match poisson_loop fuel L (lit 1) 0 g with None => None | Some (result, g) => Some ((result - 1)%Z, g) end.

End scalars.
End generator.

(** * Streams *)

(** Concatenation of bits is addition. *)
Lemma lor_shiftl a b k : 0 <= k -> 0 <= b < 2 ^ k -> Z.lor (Z.shiftl a k) b = a * 2 ^ k + b.
Proof.
  intros Hk Hb. rewrite <- Z.shiftl_mul_pow2 by lia.
  assert (D : Z.land (Z.shiftl a k) b = 0).
  { apply Z.bits_inj'. intros i Hi. rewrite Z.land_spec, Z.bits_0. destruct (Z.ltb_spec i k).
    - now rewrite Z.shiftl_spec_low by lia.
    - destruct (Z.eq_dec b 0) as [->|]; [rewrite Z.bits_0; apply andb_false_r|]. rewrite (Z.bits_above_log2 b); [apply andb_false_r|lia|].
      apply Z.log2_lt_pow2; [lia|]. apply (Z.lt_le_trans _ (2 ^ k)); [lia|]. apply Z.pow_le_mono_r; lia. }
  now rewrite Z.add_nocarry_lxor, Z.lxor_lor.
Qed.

Lemma Seed_words id t s : 0 <= s < 2 ^ 16 ->
  Seed id t s = mkKey ((id * 2 ^ 16 + s) * 2 ^ 8 + t / 2 ^ 32 mod 2 ^ 8) (t mod 2 ^ 32).
Proof.
  intros Hs. unfold Seed. f_equal; [|apply (Z.land_ones t 32); lia].
  rewrite Z.shiftr_land. change (Z.shiftr (Z.shiftl 255 32) 32) with (Z.ones 8). rewrite Z.land_ones, Z.shiftr_div_pow2 by lia.
  replace (Z.shiftl id 24) with (Z.shiftl (Z.shiftl id 16) 8) by (rewrite Z.shiftl_shiftl by lia; reflexivity).
  rewrite <- Z.shiftl_lor, !lor_shiftl by (try apply Z.mod_pos_bound; lia). reflexivity.
Qed.

Section streams.
Variable philox : ctr_type -> key_type -> ctr_type.

Lemma advance_spec n : forall g, 0 <= ctr0 (m_ctr g) < 2 ^ 32 ->
  advance philox n g = mkGenerator (m_key g) (mkCtr (u32 (ctr0 (m_ctr g) + Z.of_nat n)) (ctr1 (m_ctr g)) (ctr2 (m_ctr g)) (ctr3 (m_ctr g))).
Proof.
  induction n as [|n IH]; intros [k [c0 c1 c2 c3]] Hc; simpl in *.
  - rewrite u32_small by (unfold is_u32; lia). do 2 f_equal. lia.
  - rewrite IH by (simpl; apply u32_range). simpl. do 2 f_equal. unfold u32. rewrite Z.add_mod_idemp_l by lia. f_equal. lia.
Qed.

End streams.

Lemma id_value_inj i j : id_value i = id_value j -> i = j.
Proof. destruct i; destruct j; vm_compute; congruence. Qed.

(** C39. Random streams never meet. The identifiers of the classes are distinct, and two
    generators made from an identifier, a time step, a seed and four counters pass
    through the same state only if all of these agree (of the time step, the lower
    40 bits) and the same number of values was drawn: up to 65536 values when the
    fourth counter is used, up to 2^32 when it is zero. *)
Theorem random_streams (philox : ctr_type -> key_type -> ctr_type) (i i' : RNGIdentifier) (t t' s s' a a' b b' c c' d d' : Z) (n n' : nat)
    (Seeds : 0 <= t /\ 0 <= t' /\ 0 <= s < 2 ^ 16 /\ 0 <= s' < 2 ^ 16) (Fourth : 0 <= d < 2 ^ 16 /\ 0 <= d' < 2 ^ 16)
    (Short : Z.max (Z.of_nat n) (Z.of_nat n') < (if (d =? 0) && (d' =? 0) then 2 ^ 32 else 2 ^ 16))
    (Meet : advance philox n (new_generator (Seed (id_value i) t s) (Counter a b c d)) =
            advance philox n' (new_generator (Seed (id_value i') t' s') (Counter a' b' c' d'))) :
  i = i' /\ t mod 2 ^ 40 = t' mod 2 ^ 40 /\ s = s' /\ (a, b, c, d) = (a', b', c', d') /\ n = n'.
Proof.
  destruct Seeds as (Ht & Ht' & Hs & Hs'). destruct Fourth as (Hd & Hd').
  assert (D : forall x, 0 <= x < 2 ^ 16 -> 0 <= Z.shiftl x 16 < 2 ^ 32) by (intros x Hx; rewrite Z.shiftl_mul_pow2 by lia; lia).
  rewrite !advance_spec in Meet by (simpl; apply D; lia). unfold new_generator, Counter in Meet. simpl in Meet.
  rewrite !Seed_words, !Z.shiftl_mul_pow2 in Meet by lia. injection Meet as K0 K1 C0 C1 C2 C3.
  pose proof (Z.mod_pos_bound (t / 2 ^ 32) (2 ^ 8) ltac:(lia)). pose proof (Z.mod_pos_bound (t' / 2 ^ 32) (2 ^ 8) ltac:(lia)).
  assert (Ei : id_value i = id_value i') by lia. split; [now apply id_value_inj|].
  assert (M : forall x, x mod 2 ^ 40 = x mod 2 ^ 32 + 2 ^ 32 * (x / 2 ^ 32 mod 2 ^ 8)).
  { intros x. change (2 ^ 40) with (2 ^ 32 * 2 ^ 8). apply Z.rem_mul_r; lia. }
  split; [rewrite !M; lia|]. split; [lia|].
  assert (E : d = d' /\ n = n').
  { destruct (Z.eqb_spec d 0); destruct (Z.eqb_spec d' 0); simpl in Short; rewrite !u32_small in C0 by (unfold is_u32; lia); lia. }
  destruct E; subst. auto.
Qed.

Lemma random_streams_witness :
  id_HPMCMonoTrialMove = id_HPMCMonoTrialMove /\ 5 mod 2 ^ 40 = (5 + 2 ^ 40) mod 2 ^ 40 /\ 7 = 7 /\ (1, 0, 3, 0) = (1, 0, 3, 0) /\ 2%nat = 2%nat.
Proof.
  exact (random_streams (fun c _ => c) id_HPMCMonoTrialMove id_HPMCMonoTrialMove 5 (5 + 2 ^ 40) 7 7 1 1 0 0 3 3 0 0 2 2
    ltac:(lia) ltac:(lia) ltac:(simpl; lia) eq_refl).
Defined.

(** * Ranges *)

Section integers.

(** The [w] bits from bit [L] downwards are set, and none above. *)
Definition filled (L w n : Z) : Prop :=
  forall i, 0 <= i -> (L < i -> Z.testbit n i = false) /\ (L - w < i <= L -> Z.testbit n i = true).

Lemma filled_step L w n : 0 < w -> filled L w n -> filled L (2 * w) (Z.lor n (Z.shiftr n w)).
Proof.
  intros Hw F i Hi. rewrite Z.lor_spec, Z.shiftr_spec by lia. split; intros H.
  - rewrite (proj1 (F i Hi) ltac:(lia)), (proj1 (F (i + w) ltac:(lia)) ltac:(lia)). reflexivity.
  - destruct (Z_lt_dec (L - w) i).
    + now rewrite (proj2 (F i Hi) ltac:(lia)).
    + rewrite (proj2 (F (i + w) ltac:(lia)) ltac:(lia)). apply orb_true_r.
Qed.

(** The bits of [m] and all below its highest. *)
Lemma smear_spec m : 0 < m < 2 ^ 32 -> smear m = 2 ^ (Z.log2 m + 1) - 1 /\ m <= smear m < 2 * m /\ 2 ^ (Z.log2 m + 1) <= 2 ^ 32.
Proof.
  intros Hm. pose proof (Z.log2_spec m ltac:(lia)) as [L U]. pose proof (Z.log2_nonneg m).
  assert (L32 : Z.log2 m < 32) by (apply Z.log2_lt_pow2; lia).
  assert (E : u32 (u32 (m + 1) - 1) = m) by (unfold u32; rewrite Zminus_mod_idemp_l; rewrite Z.mod_small; lia).
  assert (F : filled (Z.log2 m) 32 (smear m)).
  { unfold smear. rewrite E. apply (filled_step _ 16); [lia|]. apply (filled_step _ 8); [lia|].
    apply (filled_step _ 4); [lia|]. apply (filled_step _ 2); [lia|]. apply (filled_step _ 1); [lia|]. intros i Hi. split; intros H'.
    - apply Z.bits_above_log2; lia.
    - replace i with (Z.log2 m) by lia. apply Z.bit_log2. lia. }
  assert (V : smear m = Z.ones (Z.log2 m + 1)).
  { apply Z.bits_inj'. intros i Hi. destruct (Z.ltb_spec i (Z.log2 m + 1)).
    - rewrite Z.ones_spec_low by lia. apply F; lia.
    - rewrite Z.ones_spec_high by lia. apply F; lia. }
  rewrite V, Z.ones_equiv. rewrite Z.pow_add_r in * by lia. pose proof (Z.pow_le_mono_r 2 (Z.log2 m) 31 ltac:(lia) ltac:(lia)).
  change (2 ^ 1) with 2 in *. rewrite Z.pow_succ_r in U by lia. lia.
Qed.

Lemma uniform_int_loop_range philox fuel m n : forall g v g', 0 <= m -> (forall c k, 0 <= ctr0 (philox c k)) -> 0 <= n ->
  uniform_int_loop philox fuel m n g = Some (v, g') -> 0 <= v <= m.
Proof.
  induction fuel as [|fuel IH]; intros g v g' Hm Hp Hn; simpl; [discriminate|].
  destruct (Z.gtb_spec (Z.land (ctr0 (philox (m_ctr g) (m_key g))) n) m); [now apply IH|].
  intros [= <- <-]. split; [|lia]. apply Z.land_nonneg. auto.
Qed.

End integers.

Section reals.
Local Open Scope R_scope.

Lemma lit_u01 (u : Z) : (0 <= u < 2 ^ 64)%Z -> 0 < u01 u < 1.
Proof.
  intros H. unfold u01. cbn -[Z.pow IZR Pos.pow]. change (IZR (Z.pos (2 ^ 64))) with (IZR (2 ^ 64)).
  assert (0 <= IZR u) by (apply IZR_le; lia). assert (IZR u <= IZR (2 ^ 64) - 1) by (rewrite <- minus_IZR; apply IZR_le; lia).
  assert (P : 1 < IZR (2 ^ 64)) by (apply IZR_lt; lia).
  set (w := IZR (2 ^ 64)) in *. assert (I : 0 < / w) by (apply Rinv_0_lt_compat; lra). assert (w * / w = 1) by (field; lra).
  replace (IZR u / 1 * (1 / w) + 1 / 2 * (1 / w)) with ((IZR u + / 2) * / w) by (field; lra). nra.
Qed.

Lemma u64_of_words a b : (0 <= a < 2 ^ 32)%Z -> (0 <= b < 2 ^ 32)%Z -> (0 <= Z.lor (Z.shiftl a 32) b < 2 ^ 64)%Z.
Proof. intros Ha Hb. rewrite lor_shiftl by lia. lia. Qed.

End reals.

(** Each value below the power of two has the same number of preimages. *)
Lemma smear_preimages m v u : 0 < m < 2 ^ 32 -> 0 <= v <= m -> 0 <= u < 2 ^ 32 ->
  Z.land u (smear m) = v <-> exists h, 0 <= h < 2 ^ (32 - (Z.log2 m + 1)) /\ u = h * 2 ^ (Z.log2 m + 1) + v.
Proof.
  intros Hm Hv Hu. destruct (smear_spec m Hm) as (E & B & P). pose proof (Z.log2_nonneg m). set (k := Z.log2 m + 1) in *.
  assert (K : 0 < k <= 32) by (unfold k; pose proof (proj1 (Z.log2_lt_pow2 m 32 ltac:(lia)) ltac:(lia)); lia).
  assert (W : 2 ^ 32 = 2 ^ (32 - k) * 2 ^ k) by (rewrite <- Z.pow_add_r by lia; f_equal; lia).
  assert (Pk : 0 < 2 ^ k) by (apply Z.pow_pos_nonneg; lia).
  replace (smear m) with (Z.ones k) by (rewrite Z.ones_equiv; lia). rewrite Z.land_ones by lia. split.
  - intros <-. exists (u / 2 ^ k). pose proof (Z.div_mod u (2 ^ k) ltac:(lia)). split; [|lia]. split; [apply Z.div_pos; lia|].
    apply Z.div_lt_upper_bound; lia.
  - intros (h & Hh & ->). rewrite Z.add_comm, Z.mod_add by lia. apply Z.mod_small. lia.
Qed.

Lemma uniform_int_loop_returns philox fuel m n k : forall g, (k < fuel)%nat ->
  Z.land (generate_u32 philox (advance philox k g)).1 n <= m -> exists v g', uniform_int_loop philox fuel m n g = Some (v, g').
Proof.
  revert k. induction fuel as [|fuel IH]; intros k g Hk A; [lia|]. simpl.
  destruct (Z.gtb_spec (Z.land (ctr0 (philox (m_ctr g) (m_key g))) n) m); [|eauto].
  destruct k as [|k]; [simpl in A; lia|]. apply (IH k); [lia|exact A].
Qed.


(** Some words for the example. *)
Definition example_philox (c : ctr_type) (k : key_type) : ctr_type := mkCtr (u32 (ctr0 c * 5 + 7)) (u32 (key1 k)) 0 0.

Lemma example_philox_words c k : let u := example_philox c k in is_u32 (ctr0 u) /\ is_u32 (ctr1 u) /\ is_u32 (ctr2 u) /\ is_u32 (ctr3 u).
Proof. repeat split; try apply u32_range; simpl; lia. Qed.

