(* ===== verification/XenoCollide.v ===== *)
(** The overlap test of convex shapes ([hoomd/hpmc/XenoCollide3D.h],
    [hoomd/hpmc/MinkowskiMath.h]) and the shapes that use it
    ([hoomd/hpmc/ShapeConvexPolyhedron.h], [hoomd/hpmc/ShapeSpheropolyhedron.h]).

    The functions are generic in the scalar type. The support function of a
    polyhedron is the serial code; the arrays of coordinates, which are padded with
    zeros to a multiple of eight, are one list of padded vertices. The convex hull
    and the oriented bounding box of the parameters, which the overlap test does not
    use, are left out. *)

From Stdlib Require Import ZArith Lia QArith Reals Lra Field Psatz Bool String List.
From S2P Require Import Prelude HOOMDMath VectorMath PairEvaluators.
Import ListNotations.
Import VectorMath.

Section template.
Context {R : Type} `{RealOps R} `{RealFun R}.
Local Open Scope real_scope.
Local Notation "a < b" := (rltb a b) : real_scope.

Definition rabs (a : R) : R := if a < 0 then - a else a.

(** * The algorithm *)

Definition XENOCOLLIDE_3D_MAX_ITERATIONS : nat := 1024.

(** [CompositeSupportFunc3D]: the support of the Minkowski difference. *)
Definition composite (sa sb : vec3 R -> vec3 R) (ab_t : vec3 R) (M : rotmat3 R) (n : vec3 R) : vec3 R :=
  let SB_n := add3 (mulm3 M (sb (mulm3 (transpose3 M) n))) ab_t in
  let SA_n := sa (opp3 n) in
  sub3 SB_n SA_n.

(** The answer and the error counter, or the portal to refine. *)
Inductive portal := Answer (overlap : bool) (err_count : Z) | Portal (v1 v2 v3 : vec3 R).

Section collide.
Variable S : vec3 R -> vec3 R.
Variable v0 : vec3 R.

(** Phase 1, with [remaining] iterations before the limit. *)
Fixpoint discover (remaining : nat) (v1 v2 n : vec3 R) (err_count : Z) : portal :=
  match remaining with
  | O => Answer true (u32 (err_count + 1))
  | Datatypes.S remaining =>
      let v3 := S n in
      if negb (0 < dot3 v3 n) then Answer false err_count
      else if dot3 (cross v1 v3) v0 < 0 then
        let v2 := v3 in discover remaining v1 v2 (cross (sub3 v1 v0) (sub3 v2 v0)) err_count
      else if dot3 (cross v3 v2) v0 < 0 then
        let v1 := v3 in discover remaining v1 v2 (cross (sub3 v1 v0) (sub3 v2 v0)) err_count
      else Portal v1 v2 v3
  end.

Definition precision_tol : R := lit (1 # 10000000).
Definition tol_multiplier : R := lit 10000.

(** The vertices of the next portal. *)
Definition next_portal (v1 v2 v3 v4 : vec3 R) : vec3 R * vec3 R * vec3 R :=
  let x := cross v4 v0 in
  if 0 < dot3 v1 x then
    if 0 < dot3 v2 x then (v4, v2, v3) else (v1, v2, v4)
  else
    if 0 < dot3 v3 x then (v1, v4, v3) else (v4, v2, v3).

(** Phase 2, with [remaining] further iterations before the limit. *)
Fixpoint refine (remaining : nat) (r : R) (v1 v2 v3 : vec3 R) (err_count : Z) : bool * Z :=
  let n := cross (sub3 v2 v1) (sub3 v3 v1) in
  if negb (dot3 v1 n < 0) then (true, err_count)
  else
    let v4 := S n in
    if dot3 v4 n < 0 then (false, err_count)
    else
      let d := dot3 (scale3 tol_multiplier (sub3 v4 v1)) n in
      let tol := precision_tol * tol_multiplier * r * r * rsqrt (dot3 n n) in
      if rabs d < tol then (false, err_count)
      else
        let d := dot3 (scale3 tol_multiplier v1) n in
        if rabs d < tol then (true, err_count)
        else
          match remaining with
          | O => (true, u32 (err_count + 1))
          | Datatypes.S remaining => let '(v1, v2, v3) := next_portal v1 v2 v3 v4 in refine remaining r v1 v2 v3 err_count
          end.

End collide.

(** [xenocollide_3d]: the answer and the new value of the error counter. *)
Definition xenocollide_3d (sa sb : vec3 R -> vec3 R) (ab_t : vec3 R) (q : quat R) (r : R) (err_count : Z) : bool * Z :=
  let S := composite sa sb ab_t (rotmat3_of_quat q) in
  let root_tol := lit (3 # 10000) * r in
  if (rabs (x ab_t) < root_tol) && (rabs (y ab_t) < root_tol) && (rabs (z ab_t) < root_tol) then (true, err_count)
  else
    let v0 := ab_t in
    let v1 := S (opp3 v0) in
    if 0 < dot3 v1 v0 then (false, err_count)
    else
      let n := cross v1 v0 in
      if (rabs (x n) < precision_tol * r * r) && (rabs (y n) < precision_tol * r * r) && (rabs (z n) < precision_tol * r * r)
      then (true, err_count)
      else
        let v2 := S n in
        if dot3 v2 n < 0 then (false, err_count)
        else
          let n := cross (sub3 v1 v0) (sub3 v2 v0) in
          let '(v1, v2, n) := if 0 < dot3 n v0 then (v2, v1, opp3 n) else (v1, v2, n) in
          match discover S v0 (XENOCOLLIDE_3D_MAX_ITERATIONS - 1) v1 v2 n err_count with
          | Answer overlap err_count => (overlap, err_count)
          | Portal v1 v2 v3 => refine S v0 (XENOCOLLIDE_3D_MAX_ITERATIONS - 1) r v1 v2 v3 err_count
          end.

(** * Polyhedra *)

Definition MAX_VERTS : Z := 4096.

Record PolyhedronVertices := mkPolyhedron {
  verts : list (vec3 R);
  n_verts : Z;
  diameter : R;
  sweep_radius : R;
  ignore : bool
}.

(** [((N + 7) / 8) * 8] zeros, overwritten by the vertices. *)
Definition pad (l : list (vec3 R)) : list (vec3 R) := l ++ repeat vec3_zero (((length l + 7) / 8) * 8 - length l).

Definition radius_sq (l : list (vec3 R)) : R := fold_left (fun r v => let d := dot3 v v in if r < d then d else r) l 0.

(** [PolyhedronVertices(verts, sweep_radius, ignore)] with [setVerts]. *)
Definition new_polyhedron (l : list (vec3 R)) (sweep : R) (ign : bool) : result PolyhedronVertices :=
  if Z.gtb (Z.of_nat (length l)) MAX_VERTS then Throw (domain_error "Too many vertices in polyhedron.")
  else Ok (mkPolyhedron (pad l) (Z.of_nat (length l)) (lit 2 * (rsqrt (radius_sq l) + sweep)) sweep ign).

(** One of the four channels of the loop: the largest product among the vertices
    [i], [i + 4], ..., with [count] of them left. *)
Fixpoint channel (l : list (vec3 R)) (n : vec3 R) (i : nat) (count : nat) (max_dot : R) (max_idx : nat) : R * nat :=
  match count with
  | O => (max_dot, max_idx)
  | Datatypes.S count =>
      let d := dot3 n (nth i l vec3_zero) in
      if max_dot < d then channel l n (i + 4) count d i else channel l n (i + 4) count max_dot max_idx
  end.

Definition start_channel (l : list (vec3 R)) (n : vec3 R) (N k : nat) : R * nat :=
  channel l n (4 + k) ((N - 4 + 3) / 4) (dot3 n (nth k l vec3_zero)) k.

Definition larger (a b : R * nat) : R * nat := if fst a < fst b then b else a.

(** [SupportFuncConvexPolyhedron(verts, sweep_radius)] *)
Definition support (p : PolyhedronVertices) (sweep : R) (n : vec3 R) : vec3 R :=
  let out := scale3 (sweep * rinv_sqrt (dot3 n n)) n in
  if Z.gtb (n_verts p) 0 then
    let c := start_channel (verts p) n (Z.to_nat (n_verts p)) in
    let '(_, max_idx) := larger (larger (larger (c 0%nat) (c 1%nat)) (c 2%nat)) (c 3%nat) in
    let v := nth max_idx (verts p) vec3_zero in
    if negb (reqb sweep 0) then add3 v out else v
  else if negb (reqb sweep 0) then out else vec3_zero.

(** [test_overlap] of two shapes at orientations, [b] at [r_ab] from [a]. *)
Definition overlap_convex (r_ab : vec3 R) (qa : quat R) (a : PolyhedronVertices) (qb : quat R) (b : PolyhedronVertices) (err : Z) : bool * Z :=
  let DaDb := diameter a + diameter b in
  xenocollide_3d (support a 0) (support b 0) (rotate (conj qa) r_ab) (mulq (conj qa) qb) (DaDb / lit 2) err.

Definition overlap_sphero (r_ab : vec3 R) (qa : quat R) (a : PolyhedronVertices) (qb : quat R) (b : PolyhedronVertices) (err : Z) : bool * Z :=
  let DaDb := diameter a + diameter b in
  xenocollide_3d (support a (sweep_radius a)) (support b (sweep_radius b)) (rotate (conj qa) r_ab) (mulq (conj qa) qb) (DaDb / lit 2) err.

End template.

Arguments PolyhedronVertices R : clear implicits.
Arguments portal R : clear implicits.

(** * Soundness over the real numbers *)

(** Comparisons of the algorithm as propositions. *)
Ltac rcases :=
  repeat match goal with
  | H : negb _ = true |- _ => apply negb_true_iff in H
  | H : negb _ = false |- _ => apply negb_false_iff in H
  | H : rltb _ _ = true |- _ => apply rltb_true in H
  | H : rltb _ _ = false |- _ => apply rltb_false in H
  end; change (@r0 R R_ops) with 0%R in * |-.

Section soundness.
Local Open Scope R_scope.
Implicit Types (n u v w : vec3 R).

Lemma rabs_R (a : R) : rabs a = Rabs a.
Proof. unfold rabs, Rabs. cbn. destruct (Rlt_dec a 0); destruct (Rcase_abs a); lra. Qed.

Lemma lit_R (p : Z) (d : positive) : lit (p # d) = IZR p / IZR (Z.pos d).
Proof. reflexivity. Qed.

Lemma dot3_nonzero n u : dot3 n u <> 0 -> n <> vec3_zero.
Proof. intros H ->. apply H. unfold dot3. simpl. lra. Qed.

Lemma dot3_comm n u : dot3 n u = dot3 u n.
Proof. unfold dot3. simpl. ring. Qed.

Lemma dot3_pos n : n <> vec3_zero -> 0 < dot3 n n.
Proof.
  intros N. destruct (Rle_lt_dec (dot3 n n) 0) as [L|]; [|assumption]. exfalso. apply N. destruct n as [a b c]. unfold dot3 in L. simpl in L.
  assert (a = 0) by nra. assert (b = 0) by nra. assert (c = 0) by nra. subst. reflexivity.
Qed.

Lemma cauchy_schwarz n u : dot3 n u * dot3 n u <= dot3 n n * dot3 u u.
Proof.
  destruct n as [a b c], u as [d e f]. unfold dot3. simpl.
  pose proof (Rle_0_sqr (a * e - b * d)). pose proof (Rle_0_sqr (a * f - c * d)). pose proof (Rle_0_sqr (b * f - c * e)). unfold Rsqr in *. nra.
Qed.

(** The Minkowski difference as the points that [S] supports. *)
Variable S : vec3 R -> vec3 R.
Variable M : vec3 R -> Prop.
Hypothesis Supp : forall n u, M u -> dot3 n u <= dot3 n (S n).

(** No point of the difference is further than [eps] beyond the origin along [n]. *)
Definition separates (eps : R) (n : vec3 R) : Prop := n <> vec3_zero /\ forall u, M u -> dot3 n u <= eps * sqrt (dot3 n n).

Lemma separates_now eps n : 0 <= eps -> n <> vec3_zero -> dot3 n (S n) <= 0 -> separates eps n.
Proof.
  intros E N L. split; [exact N|]. intros u Hu. specialize (Supp n u Hu). pose proof (sqrt_pos (dot3 n n)). nra.
Qed.

Lemma discover_sound eps v0 remaining : forall v1 v2 n err err', 0 <= eps -> (n <> vec3_zero \/ exists n0, separates eps n0) ->
  discover S v0 remaining v1 v2 n err = Answer false err' -> exists n0, separates eps n0.
Proof.
  induction remaining as [|remaining IH]; intros v1 v2 n err err' He Hn; cbn [discover]; [discriminate|].
  assert (K : forall a b, dot3 (cross a b) v0 < 0 -> cross (sub3 a v0) (sub3 b v0) <> vec3_zero).
  { intros a b L. apply (dot3_nonzero _ v0). replace (dot3 (cross (sub3 a v0) (sub3 b v0)) v0) with (dot3 (cross a b) v0); [lra|].
    unfold dot3, cross, sub3. simpl. ring. }
  destruct (rltb r0 (dot3 (S n) n)) eqn:E; cbn [negb].
  - destruct (rltb (dot3 (cross v1 (S n)) v0) r0) eqn:E1; [rcases; apply IH; auto|].
    destruct (rltb (dot3 (cross (S n) v2) v0) r0) eqn:E2; [rcases; apply IH; auto|]. discriminate.
  - intros _. rcases. destruct Hn as [Hn|]; [|assumption]. exists n. apply separates_now; [assumption..|]. rewrite dot3_comm. exact E.
Qed.

Lemma refine_sound v0 r remaining : forall v1 v2 v3 err err',
  refine S v0 remaining r v1 v2 v3 err = (false, err') -> exists n0, separates (1 / 10000000 * r * r) n0.
Proof.
  induction remaining as [|remaining IH]; intros v1 v2 v3 err err'; cbn [refine];
    set (n := cross (sub3 v2 v1) (sub3 v3 v1));
    (destruct (rltb (dot3 v1 n) r0) eqn:E1; cbn [negb]; [|discriminate]); rcases;
    assert (N : n <> vec3_zero) by (apply (dot3_nonzero _ v1); rewrite dot3_comm; lra);
    (destruct (rltb (dot3 (S n) n) r0) eqn:E2; [intros _; exists n; rcases; apply separates_now; [nra|exact N|rewrite dot3_comm; lra]|]);
    (destruct (rltb (rabs (dot3 (scale3 tol_multiplier (sub3 (S n) v1)) n)) _) eqn:E3; [intros _; exists n; split; [exact N|]|]).
  1,3: intros u Hu; specialize (Supp n u Hu); rcases; rewrite rabs_R in E3; apply Rabs_def2 in E3; destruct E3 as [E3 _];
       unfold tol_multiplier, precision_tol in E3; rewrite !lit_R in E3; cbn [rmul radd rsub rdiv ropp rsqrt R_ops] in *;
       replace (dot3 (scale3 (10000 / 1) (sub3 (S n) v1)) n) with (10000 * (dot3 n (S n) - dot3 v1 n)) in E3
         by (unfold dot3, scale3, sub3; simpl; field); lra.
  - destruct (rltb (rabs (dot3 (scale3 tol_multiplier v1) n)) _); discriminate.
  - destruct (rltb (rabs (dot3 (scale3 tol_multiplier v1) n)) _); [discriminate|]. destruct (next_portal v0 v1 v2 v3 (S n)) as [[w1 w2] w3]. apply IH.
Qed.

End soundness.

Section bodies.
Local Open Scope R_scope.
Implicit Types (n u v w : vec3 R).

(** ** The algorithm *)

Definition supports (A : vec3 R -> Prop) (sa : vec3 R -> vec3 R) : Prop := forall n u, A u -> dot3 n u <= dot3 n (sa n).

(** Points of the difference [B - A], with [B] rotated and moved. *)
Definition difference (A B : vec3 R -> Prop) (ab_t : vec3 R) (M : rotmat3 R) (u : vec3 R) : Prop :=
  exists a b, A a /\ B b /\ u = sub3 (add3 (mulm3 M b) ab_t) a.

Lemma composite_supports A B sa sb ab_t M : supports A sa -> supports B sb ->
  forall n u, difference A B ab_t M u -> dot3 n u <= dot3 n (composite sa sb ab_t M n).
Proof.
  intros SA SB n u (a & b & Ha & Hb & ->). specialize (SA (opp3 n) a Ha). specialize (SB (mulm3 (transpose3 M) n) b Hb).
  unfold composite. set (p := sa (opp3 n)) in *. set (q := sb (mulm3 (transpose3 M) n)) in *.
  assert (E : forall t, dot3 (mulm3 (transpose3 M) n) t = dot3 n (mulm3 M t)) by (intros t; unfold dot3, mulm3, transpose3, dot3; simpl; ring).
  rewrite !E in SB. unfold dot3, opp3, sub3, add3 in *. simpl in *. lra.
Qed.

(** The steps before the portal is refined keep a separating direction for the
    case that the next normal vanishes. *)
Lemma xenocollide_separates A B sa sb ab_t q r err err' : supports A sa -> supports B sb -> 0 < r ->
  xenocollide_3d sa sb ab_t q r err = (false, err') -> exists n, separates (difference A B ab_t (rotmat3_of_quat q)) (1 / 10000000 * r * r) n.
Proof.
  intros SA SB Hr. unfold xenocollide_3d. pose proof (composite_supports A B sa sb ab_t (rotmat3_of_quat q) SA SB) as Supp.
  set (S := composite sa sb ab_t (rotmat3_of_quat q)) in *. set (D := difference A B ab_t (rotmat3_of_quat q)) in *.
  assert (He : 0 <= 1 / 10000000 * r * r) by nra.
  destruct (_ && _ && _); [discriminate|].
  destruct (rltb r0 (dot3 (S (opp3 ab_t)) ab_t)) eqn:E1.
  { intros _. rcases. exists (opp3 ab_t). apply (separates_now S D Supp); [exact He| |].
    - apply (dot3_nonzero _ (S (opp3 ab_t))). unfold dot3, opp3 in *. simpl in *. lra.
    - set (s := S (opp3 ab_t)) in *. unfold dot3, opp3 in *. simpl in *. lra. }
  set (v1 := S (opp3 ab_t)) in *. set (n0 := cross v1 ab_t) in *.
  destruct (_ && _ && _) eqn:E2; [discriminate|].
  assert (N0 : n0 <> vec3_zero).
  { intros Z. rewrite Z in E2. unfold precision_tol in E2. rewrite lit_R in E2. cbn in E2.
    destruct (Rlt_dec (rabs (IZR 0)) _) as [|F] in E2; [discriminate|]. apply F. rewrite rabs_R, Rabs_R0. nra. }
  destruct (rltb (dot3 (S n0) n0) r0) eqn:E3.
  { intros _. rcases. exists n0. apply (separates_now S D Supp); [exact He|exact N0|]. rewrite dot3_comm. lra. }
  set (v2 := S n0) in *. set (n := cross (sub3 v1 ab_t) (sub3 v2 ab_t)).
  assert (I : n <> vec3_zero \/ exists n', separates D (1 / 10000000 * r * r) n').
  { destruct (Req_dec_T (dot3 n ab_t) 0) as [Z|Z]; [right|left; now apply (dot3_nonzero _ ab_t)].
    exists n0. apply (separates_now S D Supp); [exact He|exact N0|]. fold v2. apply Req_le.
    replace (dot3 n0 v2) with (- dot3 n ab_t) by (unfold n, n0, dot3, cross, sub3; simpl; ring). lra. }
  destruct (if rltb r0 (dot3 n ab_t) then (v2, v1, opp3 n) else (v1, v2, n)) as [[w1 w2] m] eqn:Sw.
  assert (J : m <> vec3_zero \/ exists n', separates D (1 / 10000000 * r * r) n').
  { destruct I as [I|I]; [left|now right]. destruct (rltb r0 (dot3 n ab_t)); injection Sw as <- <- <-; [|exact I].
    intros O. apply I. destruct n as [a b c]. injection O as ? ? ?. unfold vec3_zero. f_equal; simpl in *; lra. }
  destruct (discover S ab_t (XENOCOLLIDE_3D_MAX_ITERATIONS - 1) w1 w2 m err) as [b e|u1 u2 u3] eqn:Di.
  - intros [= -> ->]. exact (discover_sound S D Supp _ _ _ _ _ _ _ _ He J Di).
  - exact (refine_sound S D Supp _ _ _ _ _ _ _ _).
Qed.

(** ** Polyhedra *)

(** The convex hull of the vertices, and its sweep by a sphere. *)
Inductive hull (l : list (vec3 R)) : vec3 R -> Prop :=
| hull_vertex v : In v l -> hull l v
| hull_mix u v t : hull l u -> hull l v -> 0 <= t <= 1 -> hull l (add3 (scale3 (1 - t) u) (scale3 t v)).

(** A shape without vertices is a sphere around the origin. *)
Definition corners (l : list (vec3 R)) : list (vec3 R) := match l with [] => [vec3_zero] | _ => l end.

Definition swept (l : list (vec3 R)) (sweep : R) (p : vec3 R) : Prop :=
  exists u e, hull (corners l) u /\ dot3 e e <= sweep * sweep /\ p = add3 u e.

Lemma hull_below l n c : (forall v, In v l -> dot3 n v <= c) -> forall u, hull l u -> dot3 n u <= c.
Proof.
  intros V u H. induction H as [v Hv|u v t _ IHu _ IHv Ht]; [auto|].
  replace (dot3 n (add3 (scale3 (1 - t) u) (scale3 t v))) with ((1 - t) * dot3 n u + t * dot3 n v) by (unfold dot3, add3, scale3; simpl; ring). nra.
Qed.

Lemma channel_spec l n count : forall i d k, d = dot3 n (nth k l vec3_zero) ->
  let '(d', k') := channel l n i count d k in
  d' = dot3 n (nth k' l vec3_zero) /\ d <= d' /\ forall j, (j < count)%nat -> dot3 n (nth (i + 4 * j) l vec3_zero) <= d'.
Proof.
  induction count as [|count IH]; intros i d k E; cbn [channel]; [split; [exact E|]; split; [lra|]; intros; lia|].
  assert (K : forall d0 k0, d <= d0 -> dot3 n (nth i l vec3_zero) <= d0 -> d0 = dot3 n (nth k0 l vec3_zero) ->
    let '(d', k') := channel l n (i + 4) count d0 k0 in
    d' = dot3 n (nth k' l vec3_zero) /\ d <= d' /\ forall j, (j < Datatypes.S count)%nat -> dot3 n (nth (i + 4 * j) l vec3_zero) <= d').
  { intros d0 k0 L1 L2 E0. specialize (IH (i + 4)%nat d0 k0 E0). destruct (channel l n (i + 4) count d0 k0) as [d' k']. destruct IH as (A & B & C).
    split; [exact A|]. split; [lra|]. intros [|j] Hj; [rewrite Nat.mul_0_r, Nat.add_0_r; lra|].
    replace (i + 4 * Datatypes.S j)%nat with (i + 4 + 4 * j)%nat by lia. apply C. lia. }
  destruct (rltb d (dot3 n (nth i l vec3_zero))) eqn:E1; rcases; apply K; try assumption; try reflexivity; lra.
Qed.

Lemma start_channel_spec l n N k m : (m < N)%nat -> (m mod 4 = k)%nat -> (k < 4)%nat ->
  let '(d, i) := start_channel l n N k in d = dot3 n (nth i l vec3_zero) /\ dot3 n (nth m l vec3_zero) <= d.
Proof.
  intros Hm Hk Hk4. unfold start_channel. pose proof (channel_spec l n ((N - 4 + 3) / 4) (4 + k) _ k eq_refl) as C.
  destruct (channel _ _ _ _ _ _) as [d i]. destruct C as (A & B & C). split; [exact A|].
  pose proof (Nat.div_mod_eq m 4) as D. destruct (m / 4)%nat as [|j] eqn:Ej.
  - replace m with k by lia. exact B.
  - replace m with (4 + k + 4 * j)%nat by lia. apply C. apply Nat.div_le_lower_bound; lia.
Qed.

Lemma channels_exact l n N k : let '(d, i) := start_channel l n N k in d = dot3 n (nth i l vec3_zero).
Proof.
  unfold start_channel. pose proof (channel_spec l n ((N - 4 + 3) / 4) (4 + k) _ k eq_refl) as C.
  destruct (channel _ _ _ _ _ _) as [d i]. tauto.
Qed.

Lemma larger_spec (a b : R * nat) : fst a <= fst (larger a b) /\ fst b <= fst (larger a b) /\ (larger a b = a \/ larger a b = b).
Proof. unfold larger. destruct (rltb (fst a) (fst b)) eqn:E; rcases; repeat split; auto; lra. Qed.

(** The vertex that the four channels agree on. *)
Lemma support_vertex l n N (c := start_channel l n N) (best := larger (larger (larger (c 0%nat) (c 1%nat)) (c 2%nat)) (c 3%nat)) m : (m < N)%nat ->
  dot3 n (nth m l vec3_zero) <= dot3 n (nth (snd best) l vec3_zero).
Proof.
  intros Hm. assert (Hk : (m mod 4 < 4)%nat) by (apply Nat.mod_upper_bound; lia).
  pose proof (start_channel_spec l n N (m mod 4) m Hm eq_refl Hk) as Sp.
  assert (F : forall k, fst (c k) = dot3 n (nth (snd (c k)) l vec3_zero)) by (intros k; pose proof (channels_exact l n N k); unfold c; destruct (start_channel l n N k); assumption).
  assert (G : dot3 n (nth m l vec3_zero) <= fst (c (m mod 4)%nat)) by (unfold c; destruct (start_channel l n N (m mod 4)); apply Sp).
  unfold best in *. destruct (larger_spec (c 0%nat) (c 1%nat)) as (A1 & A2 & A3). destruct (larger_spec (larger (c 0%nat) (c 1%nat)) (c 2%nat)) as (B1 & B2 & B3).
  destruct (larger_spec (larger (larger (c 0%nat) (c 1%nat)) (c 2%nat)) (c 3%nat)) as (C1 & C2 & C3).
  assert (X : fst best = dot3 n (nth (snd best) l vec3_zero)).
  { unfold best. destruct C3 as [-> | ->]; [|apply F]. destruct B3 as [-> | ->]; [|apply F]. destruct A3 as [-> | ->]; apply F. }
  unfold best in X. rewrite <- X. destruct (m mod 4)%nat as [|[|[|[|?]]]]; try lia; lra.
Qed.

Lemma ball_below n e sweep : 0 <= sweep -> dot3 e e <= sweep * sweep -> dot3 n e <= sweep * sqrt (dot3 n n).
Proof.
  intros Hs He. pose proof (cauchy_schwarz n e) as C. pose proof (sqrt_pos (dot3 n n)) as P.
  assert (Nn : 0 <= dot3 n n) by (unfold dot3; simpl; nra). pose proof (sqrt_sqrt _ Nn) as Q.
  apply Rsqr_incr_0_var; [|nra]. unfold Rsqr. replace (sweep * sqrt (dot3 n n) * (sweep * sqrt (dot3 n n))) with (sweep * sweep * dot3 n n) by (rewrite <- Q at 1; ring). nra.
Qed.

Lemma sphere_reach n sweep : dot3 n (scale3 (sweep * rinv_sqrt (dot3 n n)) n) = sweep * sqrt (dot3 n n).
Proof.
  replace (dot3 n (scale3 (sweep * rinv_sqrt (dot3 n n)) n)) with (sweep * (/ sqrt (dot3 n n) * dot3 n n)) by (unfold dot3, scale3; simpl; ring).
  destruct (Req_dec_T (dot3 n n) 0) as [Z|Z]; [rewrite Z, sqrt_0; ring|].
  assert (0 < dot3 n n) by (assert (0 <= dot3 n n) by (unfold dot3; simpl; nra); lra).
  pose proof (sqrt_lt_R0 _ H). rewrite <- (sqrt_sqrt (dot3 n n)) at 2 by lra. field. lra.
Qed.

Lemma polyhedron_supports l s0 ign p sweep : new_polyhedron l s0 ign = Ok p -> 0 <= sweep -> supports (swept l sweep) (support p sweep).
Proof.
  intros P Hs n _ (u & e & Hu & He & ->). unfold new_polyhedron in P. destruct (Z.gtb _ _); [discriminate|]. injection P as <-.
  replace (dot3 n (add3 u e)) with (dot3 n u + dot3 n e) by (unfold dot3, add3; simpl; ring).
  pose proof (ball_below n e sweep Hs He) as Be. unfold support. cbn [n_verts verts].
  assert (Re : forall v, dot3 n u <= dot3 n v -> dot3 n u + dot3 n e <= dot3 n (if negb (reqb sweep r0) then add3 v (scale3 (rmul sweep (rinv_sqrt (dot3 n n))) n) else v)).
  { intros v L. pose proof (sphere_reach n sweep) as Sp. destruct (reqb sweep r0) eqn:Q; cbn [negb].
    - cbn in Q. destruct (Req_dec_T sweep 0); [|discriminate]. nra.
    - replace (dot3 n (add3 v (scale3 (rmul sweep (rinv_sqrt (dot3 n n))) n))) with (dot3 n v + dot3 n (scale3 (sweep * rinv_sqrt (dot3 n n)) n)) by (unfold dot3, add3; simpl; ring). lra. }
  destruct (Z.gtb_spec (Z.of_nat (length l)) 0) as [G|G].
  - pose proof (support_vertex (pad l) n (Z.to_nat (Z.of_nat (length l)))) as V. cbv zeta in V.
    destruct (larger _ _) as [d i] eqn:Eb. cbn [snd] in V. apply Re. apply (hull_below (corners l) n); [|exact Hu].
    intros v Hv. replace (corners l) with l in Hv by (destruct l; [simpl in G; lia|reflexivity]).
    apply (In_nth _ _ vec3_zero) in Hv as (m & Hm & <-). specialize (V m ltac:(lia)). unfold pad in V. rewrite app_nth1 in V by exact Hm. exact V.
  - replace (corners l) with [@vec3_zero R _] in Hu by (destruct l; [reflexivity|simpl in G; lia]).
    assert (U : dot3 n u <= dot3 n vec3_zero) by (apply (hull_below [vec3_zero] n); [intros v [<-|[]]; lra|exact Hu]).
    specialize (Re vec3_zero U). destruct (negb (reqb sweep r0)); [|exact Re]. eapply Rle_trans; [exact Re|]. apply Req_le. unfold dot3, add3. simpl. ring.
Qed.

(** ** The bodies in space *)

(** A shape at an orientation. *)
Definition body (l : list (vec3 R)) (sweep : R) (q : quat R) (p : vec3 R) : Prop := exists u, swept l sweep u /\ p = rotate q u.

(** No point of [B], moved by [r_ab], is deeper than [eps] in [A] along some direction. *)
Definition apart (A B : vec3 R -> Prop) (r_ab : vec3 R) (eps : R) : Prop :=
  exists n, n <> vec3_zero /\ forall a b, A a -> B b -> dot3 n (sub3 (add3 b r_ab) a) <= eps * sqrt (dot3 n n).

Lemma rotate_adjoint (q : quat R) n u : dot3 (rotate q n) u = dot3 n (rotate (conj q) u).
Proof. unfold dot3, rotate, conj, add3, scale3, cross, opp3, dot3. simpl. ring. Qed.

Lemma rotate_conj_unit (q : quat R) u : norm2 q = 1 -> rotate (conj q) (rotate q u) = u.
Proof.
  intros U. rewrite <- rotate_mulq, conj_mulq_self, U. destruct u as [a b c]. unfold rotate, add3, scale3, cross, dot3. simpl. f_equal; ring.
Qed.

Lemma rotate_sum (q : quat R) u v w : rotate q (sub3 (add3 u v) w) = sub3 (add3 (rotate q u) (rotate q v)) (rotate q w).
Proof. unfold rotate, sub3, add3, scale3, cross, dot3. simpl. f_equal; ring. Qed.

Lemma xenocollide_apart la sa qa lb sb qb r_ab r pa pb err err' : supports (swept la sa) pa -> supports (swept lb sb) pb -> 0 < r -> norm2 qa = 1 ->
  xenocollide_3d pa pb (rotate (conj qa) r_ab) (mulq (conj qa) qb) r err = (false, err') -> apart (body la sa qa) (body lb sb qb) r_ab (1 / 10000000 * r * r).
Proof.
  intros SA SB Hr U X. destruct (xenocollide_separates _ _ _ _ _ _ _ _ _ SA SB Hr X) as (n & N & Se).
  exists (rotate qa n). assert (D : dot3 (rotate qa n) (rotate qa n) = dot3 n n) by (rewrite rotate_adjoint, rotate_conj_unit by exact U; reflexivity).
  split; [apply (dot3_nonzero _ (rotate qa n)); rewrite D; pose proof (dot3_pos n N); lra|].
  intros a b (u & Hu & ->) (w & Hw & ->). rewrite D, rotate_adjoint, rotate_sum, (rotate_conj_unit qa u U). apply Se.
  exists u, w. split; [exact Hu|]. split; [exact Hw|]. rewrite rotmat3_rotate, rotate_mulq. reflexivity.
Qed.

End bodies.


(** Two unit spheres at distance 3. *)
Definition unit_sphere : PolyhedronVertices R := mkPolyhedron [] 0 (2 * (sqrt 0 + 1))%R 1%R false.

Lemma unit_sphere_made : new_polyhedron (R := R) [] 1%R false = Ok unit_sphere.
Proof. unfold new_polyhedron, unit_sphere. rewrite lit_R. cbn -[IZR]. replace (2 / 1)%R with 2%R by field. reflexivity. Qed.

Lemma unit_spheres_disjoint : overlap_sphero (mk3 3 0 0)%R quat_one unit_sphere quat_one unit_sphere 0 = (false, 0%Z).
Proof.
  assert (Rot : rotate (conj quat_one) (mk3 3 0 0)%R = (mk3 3 0 0)%R) by (unfold rotate, add3, scale3, cross, dot3; simpl; f_equal; ring).
  unfold overlap_sphero. rewrite Rot. unfold xenocollide_3d.
  destruct (_ && _ && _) eqn:E1.
  { apply andb_true_iff in E1 as [E1 _]. apply andb_true_iff in E1 as [E1 _]. rcases. rewrite rabs_R, lit_R in E1. unfold unit_sphere in E1.
    cbn -[IZR] in E1. rewrite sqrt_0, (Rabs_pos_eq 3) in E1 by lra. lra. }
  assert (Sp : forall n : vec3 R, support unit_sphere (sweep_radius unit_sphere) n = scale3 (/ sqrt (dot3 n n))%R n).
  { intros n. unfold support. cbn [n_verts unit_sphere Z.gtb Z.compare sweep_radius reqb R_ops]. change (@r0 R R_ops) with 0%R.
    destruct (Req_dec_T 1 0); [lra|]. cbn [negb rmul rinv_sqrt R_ops]. f_equal. ring. }
  assert (V : composite (support unit_sphere (sweep_radius unit_sphere)) (support unit_sphere (sweep_radius unit_sphere)) (mk3 3 0 0)%R
                (rotmat3_of_quat (mulq (conj quat_one) quat_one)) (opp3 (mk3 3 0 0)%R) = mk3 1%R 0%R 0%R).
  { unfold composite. rewrite !Sp.
    assert (M : forall u : vec3 R, mulm3 (rotmat3_of_quat (mulq (conj quat_one) quat_one)) u = u)
      by (intros [a b c]; unfold mulm3, dot3; cbn; f_equal; ring).
    assert (M' : forall u : vec3 R, mulm3 (transpose3 (rotmat3_of_quat (mulq (conj quat_one) quat_one))) u = u)
      by (intros [a b c]; unfold mulm3, dot3; cbn; f_equal; ring).
    rewrite M, M'. replace (dot3 (opp3 (mk3 3 0 0)%R) (opp3 (mk3 3 0 0)%R)) with (3 * 3)%R by (unfold dot3; simpl; ring).
    replace (dot3 (opp3 (opp3 (mk3 3 0 0)%R)) (opp3 (opp3 (mk3 3 0 0)%R))) with (3 * 3)%R by (unfold dot3; simpl; ring).
    rewrite sqrt_square by lra. unfold sub3, add3, scale3, opp3. cbn. f_equal; field. }
  rewrite V. destruct (rltb _ (dot3 (mk3 1 0 0)%R _)) eqn:E2; [reflexivity|]. rcases. unfold dot3 in E2. cbn in E2. lra.
Qed.

