(* ===== verification/HPMC.v ===== *)
(** The parts that hard-particle Monte Carlo integrators share
    ([hoomd/hpmc/HPMCCounters.h], [hoomd/hpmc/Moves.h],
    [hoomd/hpmc/ShapeSphere.h], [hoomd/hpmc/PairPotential.h],
    [hoomd/hpmc/IntegratorHPMC.h], [hoomd/hpmc/IntegratorHPMC.cc]).

    A shape class is a type class: its parameters and the methods that the
    integrator calls; [test_overlap] returns the answer and the new value of the
    error counter. Energies are finite. Rejection loops have fuel. *)

From Stdlib Require Import ZArith Lia QArith Qminmax String Bool.
From stdpp Require Import base list list_numbers strings.
From S2P Require Import Prelude HOOMDMath VectorMath Index1D BoxDim AABBTree ParticleData PairEvaluators RandomNumbers.
Local Open Scope Z_scope.
Local Open Scope hoomd_scope.

(** * Counters *)

Record hpmc_counters_t := mkCounters {
  translate_accept_count : Z;
  translate_reject_count : Z;
  rotate_accept_count : Z;
  rotate_reject_count : Z;
  overlap_checks : Z;
  overlap_err_count : Z
}.

Definition zero_counters : hpmc_counters_t := mkCounters 0 0 0 0 0 0.

Definition getTranslateCounts (c : hpmc_counters_t) : Z * Z := (translate_accept_count c, translate_reject_count c).
Definition getRotateCounts (c : hpmc_counters_t) : Z * Z := (rotate_accept_count c, rotate_reject_count c).

Definition getNMoves (c : hpmc_counters_t) : Z :=
  u64 (u64 (u64 (translate_accept_count c + translate_reject_count c) + rotate_accept_count c) + rotate_reject_count c).

Definition counters_sub (a b : hpmc_counters_t) : hpmc_counters_t :=
  mkCounters (u64 (translate_accept_count a - translate_accept_count b)) (u64 (translate_reject_count a - translate_reject_count b))
             (u64 (rotate_accept_count a - rotate_accept_count b)) (u64 (rotate_reject_count a - rotate_reject_count b))
             (u64 (overlap_checks a - overlap_checks b)) (u32 (overlap_err_count a - overlap_err_count b)).

Definition counters_add (a b : hpmc_counters_t) : hpmc_counters_t :=
  mkCounters (u64 (translate_accept_count a + translate_accept_count b)) (u64 (translate_reject_count a + translate_reject_count b))
             (u64 (rotate_accept_count a + rotate_accept_count b)) (u64 (rotate_reject_count a + rotate_reject_count b))
             (u64 (overlap_checks a + overlap_checks b)) (u32 (overlap_err_count a + overlap_err_count b)).

(** [counters.overlap_checks++], and the error counter that a test returns. *)
Definition count_check (c : hpmc_counters_t) : hpmc_counters_t :=
  mkCounters (translate_accept_count c) (translate_reject_count c) (rotate_accept_count c) (rotate_reject_count c)
             (u64 (overlap_checks c + 1)) (overlap_err_count c).
Definition set_err (err : Z) (c : hpmc_counters_t) : hpmc_counters_t :=
  mkCounters (translate_accept_count c) (translate_reject_count c) (rotate_accept_count c) (rotate_reject_count c) (overlap_checks c) err.

(** The counter of the kind and the fate of a move, incremented. *)
Definition count_move (translate accept : bool) (c : hpmc_counters_t) : hpmc_counters_t :=
  match translate, accept with
  | true, true => mkCounters (u64 (translate_accept_count c + 1)) (translate_reject_count c) (rotate_accept_count c) (rotate_reject_count c) (overlap_checks c) (overlap_err_count c)
  | true, false => mkCounters (translate_accept_count c) (u64 (translate_reject_count c + 1)) (rotate_accept_count c) (rotate_reject_count c) (overlap_checks c) (overlap_err_count c)
  | false, true => mkCounters (translate_accept_count c) (translate_reject_count c) (u64 (rotate_accept_count c + 1)) (rotate_reject_count c) (overlap_checks c) (overlap_err_count c)
  | false, false => mkCounters (translate_accept_count c) (translate_reject_count c) (rotate_accept_count c) (u64 (rotate_reject_count c + 1)) (overlap_checks c) (overlap_err_count c)
  end.

(** * Vectors and orientations *)

Definition s3_dot (a b : Scalar3) : Scalar := (s3x a * s3x b + s3y a * s3y b + s3z a * s3z b)%Q.

Definition quat_of (o : Scalar4) : VectorMath.quat Q := VectorMath.mkq (s4x o) (VectorMath.mk3 (s4y o) (s4z o) (s4w o)).
Definition quat_to_scalar4 (q : VectorMath.quat Q) : Scalar4 :=
  make_scalar4 (VectorMath.s q) (VectorMath.x (VectorMath.v q)) (VectorMath.y (VectorMath.v q)) (VectorMath.z (VectorMath.v q)).

Section moves.
Context `{RealOps Q} `{RealFun Q}.
Variable philox : ctr_type -> key_type -> ctr_type.

(** * Trial moves *)

(** The loop that draws a vector in the sphere of radius [d]. *)
Fixpoint translate_loop (fuel : nat) (d : Scalar) (dim : Z) (g : RandomGenerator) : run (Scalar3 * RandomGenerator) :=
  match fuel with
  | O => OutOfBounds
  | S fuel =>
      let '(dx, g) := Uniform philox (- d)%Q d g in
      let '(dy, g) := Uniform philox (- d)%Q d g in
      let '(dz, g) := if negb (dim =? 2) then Uniform philox (- d)%Q d g else (0%Q, g) in
      let dr := make_scalar3 dx dy dz in
      if lt_b (d * d) (s3_dot dr dr) then translate_loop fuel d dim g else Ret (dr, g)
  end.

Definition move_translate (fuel : nat) (v : Scalar3) (g : RandomGenerator) (d : Scalar) (dim : Z) : run (Scalar3 * RandomGenerator) :=
  bind! (dr, g) := translate_loop fuel d dim g in Ret (s3_add v dr, g).

(** Two uniform values with a sum of squares below one (and not zero). *)
Fixpoint pair_loop (fuel : nat) (nonzero : bool) (g : RandomGenerator) : run (Scalar * Scalar * Scalar * RandomGenerator) :=
  match fuel with
  | O => OutOfBounds
  | S fuel =>
      let '(a, g) := Uniform philox (- (1))%Q 1%Q g in
      let '(b, g) := Uniform philox (- (1))%Q 1%Q g in
      let s := (a * a + b * b)%Q in
      if ge_b s 1 || (nonzero && Qeq_bool s 0) then pair_loop fuel nonzero g else Ret (a, b, s, g)
  end.

Definition normalizeq (q : VectorMath.quat Q) : VectorMath.quat Q := VectorMath.scaleq (rinv_sqrt (VectorMath.norm2 q)) q.

Definition move_rotate (fuel : nat) (dim : Z) (orientation : VectorMath.quat Q) (g : RandomGenerator) (a : Scalar)
  : run (VectorMath.quat Q * RandomGenerator) :=
  if dim =? 2 then
    let a := (a / 2)%Q in
    let '(alpha, g) := Uniform philox (- a)%Q a g in
    let q := VectorMath.mkq (rcos alpha) (VectorMath.scale3 (rsin alpha) (VectorMath.mk3 0 0 1)%Q) in
    Ret (normalizeq (VectorMath.mulq orientation q), g)
  else
    bind! (qs, qx, s1, g) := pair_loop fuel false g in
    bind! (qy, qz, s2, g) := pair_loop fuel true g in
    let s3 := rsqrt ((1 - s1) / s2)%Q in
    let q := VectorMath.mkq qs (VectorMath.mk3 qx (qy * s3) (qz * s3))%Q in
    Ret (normalizeq (VectorMath.add_assignq orientation (VectorMath.scaleq a q)), g).

(** * The order of the updates *)

Definition order_resize (N : Z) : list Z := seqZ 0 N.

Definition order_shuffle (timestep seed rank select : Z) (order : list Z) : run (list Z) :=
  let g := new_generator (Seed (id_value id_HPMCMonoShuffle) timestep seed) (Counter rank select 0 0) in
  let N := Z.of_nat (length order) in
  match UniformInt philox 1 1 g with
  | None => OutOfBounds
  | Some (r, _) => Ret (if negb (r =? 0) then (fun i => u32 (u32 (N - i) - 1)) <$> seqZ 0 N else seqZ 0 N)
  end.

End moves.

(** * Shapes *)

Class Shape := {
  param_type : Type;
  hasOrientation : param_type -> bool;
  ignoreStatistics : param_type -> bool;
  getCircumsphereDiameter : param_type -> Scalar;
  getAABB : VectorMath.quat Q -> param_type -> Scalar3 -> AABB;
  test_overlap : Scalar3 -> VectorMath.quat Q -> param_type -> VectorMath.quat Q -> param_type -> Z -> bool * Z
}.

Definition check_circumsphere_overlap `{Shape} (r_ab : Scalar3) (a b : param_type) : bool :=
  let diameter_sum := (getCircumsphereDiameter a + getCircumsphereDiameter b)%Q in
  Qle_bool (s3_dot r_ab r_ab * 4)%Q (diameter_sum * diameter_sum)%Q.

(** ** Spheres *)

Record SphereParams := mkSphere { radius : Scalar; ignore : bool; isOriented : bool }.

(** [SphereParams(v)] of a dictionary and [asDict]. *)
Definition sphere_of_dict (diameter : Scalar) (ignore_statistics orientable : bool) : SphereParams :=
  mkSphere (diameter / 2)%Q ignore_statistics orientable.
Definition sphere_dict (p : SphereParams) : Scalar * bool * bool := ((radius p * 2)%Q, isOriented p, ignore p).

Definition sphere_overlap (r_ab : Scalar3) (a b : SphereParams) : bool :=
  let rsq := s3_dot r_ab r_ab in
  let RaRb := (radius a + radius b)%Q in
  lt_b rsq (RaRb * RaRb)%Q.

#[export] Instance ShapeSphere : Shape := {|
  param_type := SphereParams;
  hasOrientation := isOriented;
  ignoreStatistics := ignore;
  getCircumsphereDiameter := fun p => (radius p * 2)%Q;
  getAABB := fun _ p pos => aabb_sphere pos (radius p);
  test_overlap := fun r_ab _ a _ b err => (sphere_overlap r_ab a b, err)
|}.

(** * Pair potentials *)

(** The arguments of [PairPotential::energy]. *)
Record pair_args := mkPair {
  pa_r_squared : Scalar; pa_r_ij : Scalar3;
  pa_type_i : Z; pa_q_i : VectorMath.quat Q; pa_d_i : Scalar; pa_charge_i : Scalar;
  pa_type_j : Z; pa_q_j : VectorMath.quat Q; pa_d_j : Scalar; pa_charge_j : Scalar
}.

(** A potential: the virtual methods and the cached cutoffs. *)
Record PairPotential := mkPotential {
  energy : pair_args -> Scalar;
  computeRCutNonAdditive : Z -> Z -> Scalar;
  computeRCutAdditive : Z -> Scalar;
  m_type_param_index : Index2D.t;
  m_r_cut_non_additive : list Scalar;
  m_r_cut_additive : list Scalar;
  m_r_cut_squared_total : list Scalar;
  m_max_r_cut_non_additive : Scalar
}.

Definition new_potential (e : pair_args -> Scalar) (non_additive : Z -> Z -> Scalar) (additive : Z -> Scalar) (ntypes : Z) : PairPotential :=
  let idx := Index2D.make_square ntypes in
  let n := Z.to_nat (Index2D.getNumElements idx) in
  mkPotential e non_additive additive idx (replicate n 0%Q) (replicate (Z.to_nat ntypes) 0%Q) (replicate n 0%Q) 0%Q.

Definition getRCutAdditive (f : PairPotential) (type : Z) : run Scalar := read (m_r_cut_additive f) type.
Definition getRCutSquaredTotal (f : PairPotential) (i j : Z) : run Scalar := read (m_r_cut_squared_total f) (Index2D.index (m_type_param_index f) i j).
Definition getRCutNonAdditive (f : PairPotential) (i j : Z) : run Scalar := read (m_r_cut_non_additive f) (Index2D.index (m_type_param_index f) i j).

(** The iteration of [updateRCutCache] at the pair of types. *)
Definition cache_pair (f : PairPotential) (additive : list Scalar) (type_i type_j : Z) (s : Scalar * list Scalar * list Scalar)
  : run (Scalar * list Scalar * list Scalar) :=
  let '(mx, non_additive, total) := s in
  let r_cut_ij := computeRCutNonAdditive f type_i type_j in
  let mx := std_max mx r_cut_ij in
  let k1 := Index2D.index (m_type_param_index f) type_i type_j in
  let k2 := Index2D.index (m_type_param_index f) type_j type_i in
  bind! non_additive := write non_additive k1 r_cut_ij in
  bind! non_additive := write non_additive k2 r_cut_ij in
  bind! n := read non_additive k1 in
  bind! ai := read additive type_i in
  bind! aj := read additive type_j in
  let r_cut := (n + (1 # 2) * (ai + aj))%Q in
  bind! total := write total k1 (r_cut * r_cut)%Q in
  bind! total := write total k2 (r_cut * r_cut)%Q in
  Ret (mx, non_additive, total).

Definition updateRCutCache (ntypes : Z) (f : PairPotential) : run PairPotential :=
  bind! additive := for_run (Z.to_nat ntypes) 0 (fun type l => write l type (computeRCutAdditive f type)) (m_r_cut_additive f) in
  bind! (mx, non_additive, total) := for_run (Z.to_nat ntypes) 0 (fun type_i s =>
    for_run (Z.to_nat (ntypes - type_i)) type_i (fun type_j s => cache_pair f additive type_i type_j s) s)
    (0%Q, m_r_cut_non_additive f, m_r_cut_squared_total f) in
  Ret (mkPotential (energy f) (computeRCutNonAdditive f) (computeRCutAdditive f) (m_type_param_index f) non_additive additive total mx).

(** [PatchEnergy]: the older interface. *)
Record PatchEnergy := mkPatch { getRCut : Scalar; getAdditiveCutoff : Z -> Scalar; patch_energy : pair_args -> Scalar }.

(** [ExternalPotential::particleEnergyImplementation]: type, position without the
    translation of the system, orientation, charge, and whether it is a trial. *)
Definition external_potential : Type := Z -> Scalar3 -> VectorMath.quat Q -> Scalar -> bool -> Scalar.

(** The position relative to the origin, in the box. *)
Definition particleEnergy (f : external_potential) (p : pdata) (type_i : Z) (r_i : Scalar3) (q_i : VectorMath.quat Q) (charge_i : Scalar) (trial : bool) : Scalar :=
  let shifted_r := BoxDim.wrap (m_global_box p) (s3_sub r_i (m_origin p)) zero_i3 BoxDim.no_flags in
  f type_i shifted_r.1 q_i charge_i trial.

Definition totalEnergy (f : external_potential) (p : pdata) (trial : bool) : run Scalar :=
  for_run (Z.to_nat (getN p)) 0 (fun i e =>
    bind! a := read (m_ptl p) i in
    Ret (e + particleEnergy f p (typ a) (pos a) (quat_of (orientation a)) (charge a) trial)%Q) 0%Q.

Record interactions := mkInteractions {
  m_patch : option PatchEnergy;
  m_pair_potentials : list PairPotential;
  m_external_potentials : list external_potential
}.

Definition hasPairInteractions (w : interactions) : bool :=
  match m_patch w with Some _ => true | None => (Z.of_nat (length (m_pair_potentials w)) >? 0)%Z end.

Definition getMaxPairEnergyRCutNonAdditive (w : interactions) : Scalar :=
  let r_cut := match m_patch w with Some patch => getRCut patch | None => 0%Q end in
  fold_left (fun r f => std_max r (m_max_r_cut_non_additive f)) (m_pair_potentials w) r_cut.

Fixpoint max_additive (l : list PairPotential) (type : Z) (r_cut : Scalar) : run Scalar :=
  match l with
  | [] => Ret r_cut
  | f :: l => bind! c := getRCutAdditive f type in max_additive l type (std_max r_cut c)
  end.

Definition getMaxPairInteractionAdditiveRCut (w : interactions) (type : Z) : run Scalar :=
  max_additive (m_pair_potentials w) type (match m_patch w with Some patch => getAdditiveCutoff patch type | None => 0%Q end).

Fixpoint sum_pairs (l : list PairPotential) (a : pair_args) (e : Scalar) : run Scalar :=
  match l with
  | [] => Ret e
  | f :: l =>
      bind! c := getRCutSquaredTotal f (pa_type_i a) (pa_type_j a) in
      sum_pairs l a (if lt_b (pa_r_squared a) c then (e + energy f a)%Q else e)
  end.

Definition computeOnePairEnergy (w : interactions) (a : pair_args) : run Scalar :=
  let e := match m_patch w with
           | Some patch =>
               let r_cut := (getRCut patch + (1 # 2) * (getAdditiveCutoff patch (pa_type_i a) + getAdditiveCutoff patch (pa_type_j a)))%Q in
               if lt_b (pa_r_squared a) (r_cut * r_cut)%Q then patch_energy patch a else 0%Q
           | None => 0%Q
           end in
  sum_pairs (m_pair_potentials w) a e.

Definition computeOneExternalEnergy (w : interactions) (p : pdata) (type_i : Z) (r_i : Scalar3) (q_i : VectorMath.quat Q) (charge_i : Scalar) (trial : bool) : Scalar :=
  fold_left (fun e f => (e + particleEnergy f p type_i r_i q_i charge_i trial)%Q) (m_external_potentials w) 0%Q.

Fixpoint sum_external (l : list external_potential) (p : pdata) (trial : bool) (e : Scalar) : run Scalar :=
  match l with
  | [] => Ret e
  | f :: l => bind! t := totalEnergy f p trial in sum_external l p trial (e + t)%Q
  end.

Definition computeTotalExternalEnergy (w : interactions) (p : pdata) (trial : bool) : run Scalar := sum_external (m_external_potentials w) p trial 0%Q.

Definition getPairEnergySearchRadius (w : interactions) (ntypes : Z) : run (list Scalar) :=
  let mx := getMaxPairEnergyRCutNonAdditive w in
  for_run (Z.to_nat ntypes) 0 (fun type l => bind! c := getMaxPairInteractionAdditiveRCut w type in Ret (l ++ [(mx + (1 # 2) * c)%Q])) [].
