(* ===== verification/HPMCMono.v ===== *)
(** Hard-particle Monte Carlo for one class of shapes
    ([hoomd/hpmc/IntegratorHPMCMono.h]).

    The host code of one rank. The class of shapes is the type class [Shape]; the
    random bits, the exponential of the Metropolis test, the reciprocal root of the
    box and the test against depletants, which can only turn an accepted move into a
    rejected one, are arguments of the section. The array [m_aabbs] lives only
    during the build of the tree. Depletant counters, timing and notices are left
    out. The loops over the nodes of the tree are one function, [search]. *)

From Stdlib Require Import ZArith Lia QArith Qminmax String Bool.
From stdpp Require Import base list list_numbers strings.
From S2P Require Import Prelude HOOMDMath VectorMath Index1D BoxDim AABBTree ParticleData PairEvaluators RandomNumbers XenoCollide HPMC.
Local Open Scope Z_scope.
Local Open Scope hoomd_scope.

Section integrator.
Context `{Sh : Shape} `{RealOps Q} `{RealFun Q}.
Variable philox : ctr_type -> key_type -> ctr_type.
Variable rsqrt : Scalar -> Scalar.        (* fast::rsqrt of BoxDim *)
Variable slow_exp : Scalar -> Scalar.     (* slow::exp *)

(** * The state *)

Record images := mkImages {
  m_image_list_valid : bool;
  m_image_list : list Scalar3;
  m_image_hkl : list int3;
  m_image_list_rebuilds : Z;
  m_hkl_max_warning_issued : bool;
  m_extra_image_width : Scalar
}.

Record bvh := mkBVH {
  m_aabb_tree : AABBTree;
  m_aabbs_capacity : Z;
  m_aabb_tree_invalid : bool
}.

Record mono := mkMono {
  m_params : list param_type;
  m_overlaps : list Z;
  m_overlap_idx : Index2D.t;
  m_d : list Scalar;
  m_a : list Scalar;
  m_translation_move_probability : Z;
  m_nselect : Z;
  m_update_order : list Z;
  m_count_total : hpmc_counters_t;
  m_count_run_start : hpmc_counters_t;
  m_count_step_start : hpmc_counters_t;
  m_images : images;
  m_bvh : bvh;
  m_max_pair_additive_cutoff : list Scalar;
  m_shape_circumsphere_radius : list Scalar;
  m_fugacity : list Scalar;
  m_nominal_width : Scalar;
  m_extra_ghost_width : Scalar;
  m_past_first_run : bool;
  m_interactions : interactions
}.

(** [m_external]: the energy difference of a legacy external field. *)
Variable m_external : option (Z -> Z -> Scalar3 -> VectorMath.quat Q -> Scalar3 -> VectorMath.quat Q -> Scalar).

(** [checkDepletantOverlap]: the answer and the counters. *)
Variable checkDepletantOverlap : mono -> pdata -> Z -> Scalar3 -> VectorMath.quat Q -> hpmc_counters_t -> bool * hpmc_counters_t.

(** [__int_as_scalar] *)
Variable int_as_scalar : Z -> Scalar.

Definition set_order (o : list Z) (m : mono) : mono :=
  mkMono (m_params m) (m_overlaps m) (m_overlap_idx m) (m_d m) (m_a m) (m_translation_move_probability m) (m_nselect m) o (m_count_total m) (m_count_run_start m) (m_count_step_start m) (m_images m) (m_bvh m) (m_max_pair_additive_cutoff m) (m_shape_circumsphere_radius m) (m_fugacity m) (m_nominal_width m) (m_extra_ghost_width m) (m_past_first_run m) (m_interactions m).
Definition set_count (c step : hpmc_counters_t) (m : mono) : mono :=
  mkMono (m_params m) (m_overlaps m) (m_overlap_idx m) (m_d m) (m_a m) (m_translation_move_probability m) (m_nselect m) (m_update_order m) c (m_count_run_start m) step (m_images m) (m_bvh m) (m_max_pair_additive_cutoff m) (m_shape_circumsphere_radius m) (m_fugacity m) (m_nominal_width m) (m_extra_ghost_width m) (m_past_first_run m) (m_interactions m).
Definition set_images (i : images) (m : mono) : mono :=
  mkMono (m_params m) (m_overlaps m) (m_overlap_idx m) (m_d m) (m_a m) (m_translation_move_probability m) (m_nselect m) (m_update_order m) (m_count_total m) (m_count_run_start m) (m_count_step_start m) i (m_bvh m) (m_max_pair_additive_cutoff m) (m_shape_circumsphere_radius m) (m_fugacity m) (m_nominal_width m) (m_extra_ghost_width m) (m_past_first_run m) (m_interactions m).
Definition set_bvh (b : bvh) (m : mono) : mono :=
  mkMono (m_params m) (m_overlaps m) (m_overlap_idx m) (m_d m) (m_a m) (m_translation_move_probability m) (m_nselect m) (m_update_order m) (m_count_total m) (m_count_run_start m) (m_count_step_start m) (m_images m) b (m_max_pair_additive_cutoff m) (m_shape_circumsphere_radius m) (m_fugacity m) (m_nominal_width m) (m_extra_ghost_width m) (m_past_first_run m) (m_interactions m).
Definition set_cached (additive radii : list Scalar) (m : mono) : mono :=
  mkMono (m_params m) (m_overlaps m) (m_overlap_idx m) (m_d m) (m_a m) (m_translation_move_probability m) (m_nselect m) (m_update_order m) (m_count_total m) (m_count_run_start m) (m_count_step_start m) (m_images m) (m_bvh m) additive radii (m_fugacity m) (m_nominal_width m) (m_extra_ghost_width m) (m_past_first_run m) (m_interactions m).
Definition set_d (d : list Scalar) (m : mono) : mono :=
  mkMono (m_params m) (m_overlaps m) (m_overlap_idx m) d (m_a m) (m_translation_move_probability m) (m_nselect m) (m_update_order m) (m_count_total m) (m_count_run_start m) (m_count_step_start m) (m_images m) (m_bvh m) (m_max_pair_additive_cutoff m) (m_shape_circumsphere_radius m) (m_fugacity m) (m_nominal_width m) (m_extra_ghost_width m) (m_past_first_run m) (m_interactions m).
Definition set_params (l : list param_type) (m : mono) : mono :=
  mkMono l (m_overlaps m) (m_overlap_idx m) (m_d m) (m_a m) (m_translation_move_probability m) (m_nselect m) (m_update_order m) (m_count_total m) (m_count_run_start m) (m_count_step_start m) (m_images m) (m_bvh m) (m_max_pair_additive_cutoff m) (m_shape_circumsphere_radius m) (m_fugacity m) (m_nominal_width m) (m_extra_ghost_width m) (m_past_first_run m) (m_interactions m).
Definition set_overlaps (l : list Z) (m : mono) : mono :=
  mkMono (m_params m) l (m_overlap_idx m) (m_d m) (m_a m) (m_translation_move_probability m) (m_nselect m) (m_update_order m) (m_count_total m) (m_count_run_start m) (m_count_step_start m) (m_images m) (m_bvh m) (m_max_pair_additive_cutoff m) (m_shape_circumsphere_radius m) (m_fugacity m) (m_nominal_width m) (m_extra_ghost_width m) (m_past_first_run m) (m_interactions m).
Definition set_nominal (w : Scalar) (m : mono) : mono :=
  mkMono (m_params m) (m_overlaps m) (m_overlap_idx m) (m_d m) (m_a m) (m_translation_move_probability m) (m_nselect m) (m_update_order m) (m_count_total m) (m_count_run_start m) (m_count_step_start m) (m_images m) (m_bvh m) (m_max_pair_additive_cutoff m) (m_shape_circumsphere_radius m) (m_fugacity m) w (m_extra_ghost_width m) (m_past_first_run m) (m_interactions m).

Definition invalidate_images (m : mono) : mono :=
  let i := m_images m in
  set_images (mkImages false (m_image_list i) (m_image_hkl i) (m_image_list_rebuilds i) (m_hkl_max_warning_issued i) (m_extra_image_width i)) m.
Definition invalidateAABBTree (m : mono) : mono :=
  set_bvh (mkBVH (m_aabb_tree (m_bvh m)) (m_aabbs_capacity (m_bvh m)) true) m.

(** The constructor; the counters and the move sizes are those of [IntegratorHPMC]. *)
Definition new_mono (param : param_type) (p : pdata) : mono :=
  let n := Z.to_nat (getNTypes p) in
  let idx := Index2D.make_square (getNTypes p) in
  mkMono (replicate n param) (replicate (Z.to_nat (Index2D.getNumElements idx)) 1) idx (replicate n (1 # 10)%Q) (replicate n (1 # 10)%Q) 32768 4
    (order_resize (getN p)) zero_counters zero_counters zero_counters (mkImages false [] [] 0 false 0%Q) (mkBVH empty_tree 0 true) [] [] (replicate n 0%Q)
    1%Q 0%Q false (mkInteractions None [] []).

(** Slots of the signals of the particle data. *)
Definition slotBoxChanged (m : mono) : mono := invalidateAABBTree (invalidate_images m).
Definition slotSorted (m : mono) : mono := invalidateAABBTree m.

(** * Searching the tree *)

(** A loop body over the particles of a leaf; [true] leaves the loops. *)
Fixpoint visit_particles {S : Type} (l : list Z) (body : Z -> S -> run (S * bool)) (s : S) : run (S * bool) :=
  match l with
  | [] => Ret (s, false)
  | j :: l => bind! (s, stop) := body j s in if stop then Ret (s, true) else visit_particles l body s
  end.

(** The stackless search for the leaves whose box overlaps [q]. *)
Fixpoint search {S : Type} (fuel : nat) (q : AABB) (t : AABBTree) (cur_node_idx : Z) (body : Z -> S -> run (S * bool)) (s : S) : run (S * bool) :=
  match fuel with
  | O => OutOfBounds
  | Datatypes.S fuel =>
      if cur_node_idx <? m_num_nodes t then
        let n := node t cur_node_idx in
        if overlaps q (aabb n) then
          bind! (s, stop) := if isNodeLeaf t cur_node_idx then visit_particles (take (Z.to_nat (num_particles n)) (particles n)) body s else Ret (s, false) in
          if stop then Ret (s, true) else search fuel q t (u32 (cur_node_idx + 1)) body s
        else search fuel q t (u32 (u32 (cur_node_idx + skip n) + 1)) body s
      else Ret (s, false)
  end.

(** All image boxes, starting with the primary. *)
Fixpoint each_image {S : Type} (t : AABBTree) (local : AABB) (pos_i : Scalar3) (cur_image : Z) (l : list Scalar3)
    (body : Z -> Scalar3 -> Z -> S -> run (S * bool)) (s : S) : run (S * bool) :=
  match l with
  | [] => Ret (s, false)
  | R :: l =>
      let pos_i_image := s3_add pos_i R in
      bind! (s, stop) := search (Datatypes.S (length (m_nodes t))) (translate pos_i_image local) t 0 (body cur_image pos_i_image) s in
      if stop then Ret (s, true) else each_image t local pos_i (cur_image + 1) l body s
  end.

(** * Cached quantities *)

(** The radii by type that several methods compute. *)
Definition cache_types (p : pdata) (m : mono) : run mono :=
  bind! (additive, radii) := for_run (Z.to_nat (getNTypes p)) 0 (fun type '(additive, radii) =>
    bind! s := read (m_params m) type in
    bind! c := getMaxPairInteractionAdditiveRCut (m_interactions m) type in
    Ret (additive ++ [c], radii ++ [((1 # 2) * getCircumsphereDiameter s)%Q])) ([], []) in
  Ret (set_cached additive radii m).

Definition getMaxCoreDiameter (p : pdata) (m : mono) : run Scalar :=
  for_run (Z.to_nat (getNTypes p)) 0 (fun typ_i => for_run (Z.to_nat (getNTypes p)) 0 (fun typ_j max_d =>
    bind! a := read (m_params m) typ_i in
    bind! b := read (m_params m) typ_j in
    bind! o := read (m_overlaps m) (Index2D.index (m_overlap_idx m) typ_i typ_j) in
    Ret (if negb (o =? 0) then std_max ((1 # 2) * (getCircumsphereDiameter a + getCircumsphereDiameter b))%Q max_d else max_d))) 0%Q.

Definition getMinCoreDiameter (p : pdata) (m : mono) : run Scalar :=
  bind! minD := for_run (Z.to_nat (getNTypes p)) 0 (fun typ minD =>
    bind! a := read (m_params m) typ in Ret (std_min minD (getCircumsphereDiameter a))) 0%Q in
  if hasPairInteractions (m_interactions m) then
    bind! max_extent := for_run (Z.to_nat (getNTypes p)) 0 (fun typ e =>
      bind! c := getMaxPairInteractionAdditiveRCut (m_interactions m) typ in Ret (std_max e c)) 0%Q in
    Ret (std_max 0 (minD - max_extent)%Q)
  else Ret minD.

Definition updateCellWidth (p : pdata) (m : mono) : run mono :=
  bind! w := getMaxCoreDiameter p m in
  bind! max_d := for_run (Z.to_nat (getNTypes p)) 0 (fun typ d =>
    bind! f := read (m_fugacity m) typ in
    if negb (Qeq_bool f 0) then bind! a := read (m_params m) typ in Ret (std_max d (getCircumsphereDiameter a)) else Ret d) 0%Q in
  let w := (w + max_d)%Q in
  bind! w :=
    if hasPairInteractions (m_interactions m) then
      bind! max_extent := for_run (Z.to_nat (getNTypes p)) 0 (fun typ e =>
        bind! c := getMaxPairInteractionAdditiveRCut (m_interactions m) typ in Ret (std_max e c)) 0%Q in
      Ret (std_max w (getMaxPairEnergyRCutNonAdditive (m_interactions m) + max_extent)%Q)
    else Ret w in
  let i := m_images m in
  let m := set_nominal w (set_images (mkImages false (m_image_list i) (m_image_hkl i) (m_image_list_rebuilds i) (m_hkl_max_warning_issued i) max_d) m) in
  Ret (invalidateAABBTree m).

Definition setParam (typ : Z) (param : param_type) (p : pdata) (m : mono) : run mono :=
  if typ >=? getNTypes p then Raise (runtime_error "Invalid particle type.")
  else bind! l := write (m_params m) typ param in updateCellWidth p (set_params l m).

Definition setInteractionMatrix (typi typj : Z) (check_overlaps : bool) (m : mono) : run mono :=
  let c := if check_overlaps then 1 else 0 in
  bind! l := write (m_overlaps m) (Index2D.index (m_overlap_idx m) typi typj) c in
  bind! l := write l (Index2D.index (m_overlap_idx m) typj typi) c in
  Ret (invalidate_images (set_overlaps l m)).

Definition getInteractionMatrix (typi typj : Z) (m : mono) : run bool :=
  bind! o := read (m_overlaps m) (Index2D.index (m_overlap_idx m) typi typj) in Ret (negb (o =? 0)).

(** * The bounding volume hierarchy *)

(** The box of a particle in the tree. *)
Definition box_in_tree (m : mono) (q : VectorMath.quat Q) (s : param_type) (typ_i : Z) (r : Scalar3) : run AABB :=
  if negb (hasPairInteractions (m_interactions m)) then Ret (getAABB q s r)
  else
    bind! radius := read (m_shape_circumsphere_radius m) typ_i in
    bind! c := read (m_max_pair_additive_cutoff m) typ_i in
    Ret (aabb_sphere r (std_max radius ((1 # 2) * c)%Q)).

Definition growAABBList (N : Z) (capacity : Z) : Z := if N >? capacity then N else capacity.

Definition buildAABBTree (p : pdata) (m : mono) : run mono :=
  if m_aabb_tree_invalid (m_bvh m) then
    bind! m := cache_types p m in
    let n_aabb := u32 (getN p + m_nghosts p) in
    bind! b :=
      if n_aabb >? 0 then
        bind! aabbs := for_run (Z.to_nat n_aabb) 0 (fun i l =>
          bind! e := read (m_ptl p) i in
          bind! s := read (m_params m) (typ e) in
          bind! b := box_in_tree m (quat_of (orientation e)) s (typ e) (pos e) in
          Ret (l ++ [b])) [] in
        match buildTree aabbs (m_aabb_tree (m_bvh m)) with
        | None => OutOfBounds
        | Some (t, _) => Ret (mkBVH t (growAABBList n_aabb (m_aabbs_capacity (m_bvh m))) false)
        end
      else Ret (mkBVH (m_aabb_tree (m_bvh m)) (m_aabbs_capacity (m_bvh m)) false) in
    Ret (set_bvh b m)
  else Ret m.

(** * Move sizes *)

Definition limitMoveDistances (dim : Z) (p : pdata) (m : mono) : run mono :=
  let npd_global := BoxDim.getNearestPlaneDistance rsqrt (m_global_box p) in
  let min_npd := std_min (s3x npd_global) (s3y npd_global) in
  let min_npd := if dim =? 3 then std_min min_npd (s3z npd_global) else min_npd in
  bind! (d, invalid) := for_run (Z.to_nat (getNTypes p)) 0 (fun typ '(d, invalid) =>
    bind! x := read d typ in
    let big := lt_b min_npd (inject_Z (m_nselect m) * x)%Q in
    let x := if big then (min_npd / inject_Z (m_nselect m))%Q else x in
    let x := if lt_b x 0 then 0%Q else x in
    bind! d := write d typ x in
    Ret (d, invalid || big)) (m_d m, false) in
  let m := set_d d m in
  Ret (if invalid then invalidate_images m else m).

(** * Periodic images *)

(** The largest distance at which two particles of the given type interact. *)
Definition image_range (p : pdata) (m : mono) : run Scalar :=
  let w := m_interactions m in
  bind! range := for_run (Z.to_nat (getNTypes p)) 0 (fun typ_i range =>
    bind! a := read (m_params m) typ_i in
    bind! ci := getMaxPairInteractionAdditiveRCut w typ_i in
    let r_cut_patch_i := if hasPairInteractions w then (getMaxPairEnergyRCutNonAdditive w + (1 # 2) * ci)%Q else 0%Q in
    bind! range_i := for_run (Z.to_nat (getNTypes p)) 0 (fun typ_j range_i =>
      bind! cj := getMaxPairInteractionAdditiveRCut w typ_j in
      let r_cut_patch_ij := if hasPairInteractions w then (r_cut_patch_i + (1 # 2) * cj)%Q else 0%Q in
      bind! b := read (m_params m) typ_j in
      bind! o := read (m_overlaps m) (Index2D.index (m_overlap_idx m) typ_i typ_j) in
      let r_cut_shape := if negb (o =? 0) then ((1 # 2) * (getCircumsphereDiameter a + getCircumsphereDiameter b))%Q else 0%Q in
      let range_ij := std_max r_cut_shape r_cut_patch_ij in
      Ret (std_max range_i range_ij)) 0%Q in
    bind! d := read (m_d m) typ_i in
    Ret (std_max range (range_i + inject_Z (m_nselect m) * d)%Q)) 0%Q in
  Ret (range + m_extra_image_width (m_images m))%Q.

Definition vec_of (v : Scalar3) : VectorMath.vec3 Q := VectorMath.mk3 (s3x v) (s3y v) (s3z v).

(** The corners of the box. *)
Definition box_verts (ndim : Z) (e1 e2 e3 : Scalar3) : list (VectorMath.vec3 Q) :=
  let corner a b c := vec_of (s3_scale (1 # 2) (s3_add (s3_add a b) c)) in
  let corner2 a b := vec_of (s3_scale (1 # 2) (s3_add a b)) in
  if ndim =? 3 then
    [corner (s3_opp e1) (s3_opp e2) (s3_opp e3); corner (s3_opp e1) e2 (s3_opp e3); corner e1 e2 (s3_opp e3); corner e1 (s3_opp e2) (s3_opp e3);
     corner (s3_opp e1) (s3_opp e2) e3; corner (s3_opp e1) e2 e3; corner e1 e2 e3; corner e1 (s3_opp e2) e3]
  else [corner2 (s3_opp e1) (s3_opp e2); corner2 (s3_opp e1) e2; corner2 e1 e2; corner2 e1 (s3_opp e2)].

(** The offsets on the surface of the cube of half width [hkl_max]. *)
Definition shell (ndim hkl_max : Z) : list int3 :=
  let range k := seqZ (- k) (2 * k + 1) in
  h ← range hkl_max; k ← range hkl_max; l ← range (if ndim =? 3 then hkl_max else 0);
  if (Z.abs h =? hkl_max) || (Z.abs k =? hkl_max) || (Z.abs l =? hkl_max) then [make_int3 h k l] else [].

Definition image_vector (e1 e2 e3 : Scalar3) (n : int3) : Scalar3 :=
  s3_add (s3_add (s3_scale (inject_Z (i3x n)) e1) (s3_scale (inject_Z (i3y n)) e2)) (s3_scale (inject_Z (i3z n)) e3).

(** The [while] loop that adds shells; [crazybig] is 30. *)
Fixpoint image_loop (fuel : nat) (ndim : Z) (test : Scalar3 -> bool) (e1 e2 e3 : Scalar3) (hkl_max : Z) (warned : bool) (list_ : list Scalar3) (hkl : list int3)
  : run (list Scalar3 * list int3 * bool) :=
  match fuel with
  | O => OutOfBounds
  | Datatypes.S fuel =>
      let added := List.filter (fun n => test (image_vector e1 e2 e3 n)) (shell ndim hkl_max) in
      let list_ := list_ ++ (image_vector e1 e2 e3 <$> added) in
      let hkl := hkl ++ added in
      if negb warned && (hkl_max >? 30) then Ret (list_, hkl, true)
      else if (Z.of_nat (length added) >? 0) then image_loop fuel ndim test e1 e2 e3 (hkl_max + 1) warned list_ hkl
      else Ret (list_, hkl, warned)
  end.

Definition updateImageList (fuel : nat) (ndim : Z) (p : pdata) (m : mono) : run mono :=
  if m_image_list_valid (m_images m) then Ret m
  else
    let box := m_global_box p in
    let e1 := BoxDim.getLatticeVector box 0 in
    let e2 := BoxDim.getLatticeVector box 1 in
    let e3 := if ndim =? 3 then BoxDim.getLatticeVector box 2 else BoxDim.zero3 in
    bind! range := image_range p m in
    bind! central_box := lift (new_polyhedron (box_verts ndim e1 e2 e3) range false) in
    bind! image_box := lift (new_polyhedron (box_verts ndim e1 e2 e3) 0%Q false) in
    let test r_image := fst (overlap_sphero (vec_of r_image) VectorMath.quat_one central_box VectorMath.quat_one image_box 0) in
    let i := m_images m in
    bind! (l, hkl, warned) := image_loop fuel ndim test e1 e2 e3 0 (m_hkl_max_warning_issued i) [] [] in
    Ret (set_images (mkImages true l hkl (u32 (m_image_list_rebuilds i + 1)) warned (m_extra_image_width i)) m).

(** * One trial move *)

(** A particle as the loops see it: index, type, parameters and element. *)
Record trial := mkTrial {
  t_i : Z; t_typ : Z; t_param : param_type; t_elem : pdata_element;
  t_pos : Scalar3; t_orientation : VectorMath.quat Q
}.

Definition pair_of (t : trial) (r_ij : Scalar3) (typ_j : Z) (q_j : VectorMath.quat Q) (ej : pdata_element) : pair_args :=
  mkPair (s3_dot r_ij r_ij) r_ij (t_typ t) (t_orientation t) (ParticleData.diameter (t_elem t)) (charge (t_elem t)) typ_j q_j (ParticleData.diameter ej) (charge ej).

(** The position, type and orientation of particle [j], which is the moved
    particle itself in an image. *)
Definition other (t : trial) (j : Z) (ej : pdata_element) : Scalar3 * Z * VectorMath.quat Q :=
  if negb (j =? t_i t) then (pos ej, typ ej, quat_of (orientation ej)) else (t_pos t, t_typ t, t_orientation t).

(** Particle [j] against the trial configuration: [true] is an overlap. *)
Definition check_new (p : pdata) (m : mono) (t : trial) (cur_image : Z) (pos_i_image : Scalar3) (j : Z) (s : hpmc_counters_t * Scalar)
  : run (hpmc_counters_t * Scalar * bool) :=
  let '(c, u) := s in
  if (j =? t_i t) && (cur_image =? 0) then Ret (s, false)
  else
    bind! ej := read (m_ptl p) j in
    let '(pos_j, typ_j, q_j) := other t j ej in
    let r_ij := s3_sub pos_j pos_i_image in
    bind! b := read (m_params m) typ_j in
    bind! Ri := read (m_shape_circumsphere_radius m) (t_typ t) in
    bind! Rj := read (m_shape_circumsphere_radius m) typ_j in
    let max_overlap_distance := (Ri + Rj)%Q in
    let c := count_check c in
    bind! o := read (m_overlaps m) (Index2D.index (m_overlap_idx m) (t_typ t) typ_j) in
    let '(hit, err) :=
      if negb (o =? 0) && lt_b (s3_dot r_ij r_ij) (max_overlap_distance * max_overlap_distance)%Q
      then test_overlap r_ij (t_orientation t) (t_param t) q_j b (overlap_err_count c) else (false, overlap_err_count c) in
    let c := set_err err c in
    if hit then Ret (c, u, true)
    else bind! e := computeOnePairEnergy (m_interactions m) (pair_of t r_ij typ_j q_j ej) in Ret (c, (u - e)%Q, false).

(** Particle [j] in the old configuration. *)
Definition add_old (p : pdata) (m : mono) (t : trial) (cur_image : Z) (pos_i_image : Scalar3) (j : Z) (u : Scalar) : run (Scalar * bool) :=
  if (j =? t_i t) && (cur_image =? 0) then Ret (u, false)
  else
    bind! ej := read (m_ptl p) j in
    let '(pos_j, typ_j, q_j) := other t j ej in
    let r_ij := s3_sub pos_j pos_i_image in
    bind! e := computeOnePairEnergy (m_interactions m) (pair_of t r_ij typ_j q_j ej) in
    Ret ((u + e)%Q, false).

Definition query_radius (p : pdata) (m : mono) (search_radius : list Scalar) (min_core_radius : Scalar) (typ_i : Z) : run Scalar :=
  bind! R := read (m_shape_circumsphere_radius m) typ_i in
  if hasPairInteractions (m_interactions m) then bind! s := read search_radius typ_i in Ret (std_max R (s - min_core_radius)%Q) else Ret R.

(** The difference of the energies of the old and the new configuration, or an
    overlap in the new one. *)
Definition energy_difference (timestep : Z) (p : pdata) (m : mono) (R_query : Scalar) (old new : trial) (c : hpmc_counters_t)
  : run (hpmc_counters_t * Scalar * bool) :=
  let tree := m_aabb_tree (m_bvh m) in
  let local := aabb_sphere BoxDim.zero3 R_query in
  let l := m_image_list (m_images m) in
  bind! (c, u, overlap) := each_image tree local (t_pos new) 0 l (check_new p m new) (c, 0%Q) in
  bind! u :=
    if hasPairInteractions (m_interactions m) && negb overlap then
      bind! (u, _) := each_image tree local (t_pos old) 0 l (add_old p m old) u in Ret u
    else Ret u in
  let u :=
    if negb overlap then
      let u := match m_external with Some f => (u - f timestep (t_i new) (t_pos old) (t_orientation old) (t_pos new) (t_orientation new))%Q | None => u end in
      (u + (computeOneExternalEnergy (m_interactions m) p (t_typ new) (t_pos old) (t_orientation old) (charge (t_elem new)) false
            - computeOneExternalEnergy (m_interactions m) p (t_typ new) (t_pos new) (t_orientation new) (charge (t_elem new)) true))%Q
    else u in
  Ret (c, u, overlap).

(** The particle after an accepted move, and the tree. *)
Definition accept_move (p : pdata) (m : mono) (new : trial) (has_depletants : bool) (seed_i_new : Z) : run (pdata * mono) :=
  bind! b := box_in_tree m (t_orientation new) (t_param new) (t_typ new) (t_pos new) in
  match AABBTree.update (t_i new) b (m_aabb_tree (m_bvh m)) with
  | None => OutOfBounds
  | Some tree =>
      let m := set_bvh (mkBVH tree (m_aabbs_capacity (m_bvh m)) (m_aabb_tree_invalid (m_bvh m))) m in
      let e := e_pos (t_pos new) (image (t_elem new)) (t_elem new) in
      let e := if hasOrientation (t_param new) then e_orientation (quat_to_scalar4 (t_orientation new)) e else e in
      let e := if has_depletants then e_vel (make_scalar3 (int_as_scalar seed_i_new) (s3y (vel e)) (s3z (vel e))) e else e in
      bind! l := write (m_ptl p) (t_i new) e in
      Ret (set_ptl l p, m)
  end.

(** The state of the loops over the particles. *)
Record sweep := mkSweep { sw_pdata : pdata; sw_mono : mono; sw_counters : hpmc_counters_t }.

Definition trial_move (fuel : nat) (timestep seed ndim : Z) (has_depletants : bool) (search_radius : list Scalar) (min_core_radius : Scalar) (i_nselect i : Z) (s : sweep)
  : run sweep :=
  let p := sw_pdata s in
  let m := sw_mono s in
  let c := sw_counters s in
  bind! e := read (m_ptl p) i in
  let g := new_generator (Seed (id_value id_HPMCMonoTrialMove) timestep seed) (Counter i (m_rank p) i_nselect 0) in
  let typ_i := typ e in
  bind! s_i := read (m_params m) typ_i in
  match UniformInt philox 1 65535 g with
  | None => OutOfBounds
  | Some (move_type_select, g) =>
      let move_type_translate := negb (hasOrientation s_i) || (move_type_select <? m_translation_move_probability m) in
      let old := mkTrial i typ_i s_i e (pos e) (quat_of (orientation e)) in
      let skip_move := Ret (mkSweep p m (if negb (ignoreStatistics s_i) then count_move move_type_translate true c else c)) in
      bind! d := read (m_d m) typ_i in
      bind! a := read (m_a m) typ_i in
      if Qeq_bool (if move_type_translate then d else a) 0 then skip_move
      else
        bind! (pos_i, q_i, g) :=
          if move_type_translate then bind! (v, g) := move_translate philox fuel (pos e) g d ndim in Ret (v, quat_of (orientation e), g)
          else bind! (q, g) := move_rotate philox fuel ndim (quat_of (orientation e)) g a in Ret (pos e, q, g) in
        let new := mkTrial i typ_i s_i e pos_i q_i in
        bind! R_query := query_radius p m search_radius min_core_radius typ_i in
        bind! (c, u, overlap) := energy_difference timestep p m R_query old new c in
        let '(accept, g) := if negb overlap then let '(x, g) := generate_canonical philox g in (lt_b x (slow_exp u), g) else (false, g) in
        let '(seed_i_new, g) := generate_u32 philox g in
        let '(accept, c) := if has_depletants && accept then checkDepletantOverlap m p i pos_i q_i c else (accept, c) in
        let c := if negb (ignoreStatistics s_i) then count_move move_type_translate accept c else c in
        if accept then bind! (p, m) := accept_move p m new has_depletants seed_i_new in Ret (mkSweep p m c)
        else Ret (mkSweep p m c)
  end.

(** * One step *)

(** The statements of [update] before the loops. *)
Definition prepare (image_fuel : nat) (timestep seed ndim : Z) (p : pdata) (m : mono) : run mono :=
  let m := set_count (m_count_total m) (m_count_total m) m in
  bind! order := order_shuffle philox timestep seed (m_rank p) 0 (order_resize (getN p)) in
  let m := set_order order m in
  bind! m := buildAABBTree p m in
  bind! m := limitMoveDistances ndim p m in
  updateImageList image_fuel ndim p m.

Definition wrap_particles (p : pdata) : run pdata :=
  bind! l := for_run (Z.to_nat (getN p)) 0 (fun i l =>
    bind! e := read l i in
    let w := BoxDim.wrap (m_global_box p) (pos e) (image e) BoxDim.no_flags in
    write l i (e_pos w.1 w.2 e)) (m_ptl p) in
  Ret (set_ptl l p).

Definition update (image_fuel fuel : nat) (timestep seed ndim : Z) (p : pdata) (m : mono) : run (pdata * mono) :=
  bind! m := prepare image_fuel timestep seed ndim p m in
  let has_depletants := existsb (fun f => negb (Qeq_bool f 0)) (m_fugacity m) in
  bind! min_core := getMinCoreDiameter p m in
  let min_core_radius := (min_core * (1 # 2))%Q in
  bind! search_radius := getPairEnergySearchRadius (m_interactions m) (getNTypes p) in
  bind! m := cache_types p m in
  bind! s := for_run (Z.to_nat (m_nselect m)) 0 (fun i_nselect =>
    for_run (Z.to_nat (getN p)) 0 (fun cur_particle s =>
      bind! i := read (m_update_order (sw_mono s)) cur_particle in
      trial_move fuel timestep seed ndim has_depletants search_radius min_core_radius i_nselect i s)) (mkSweep p m (m_count_total m)) in
  let m := set_count (sw_counters s) (m_count_step_start (sw_mono s)) (sw_mono s) in
  bind! p := wrap_particles (sw_pdata s) in
  Ret (p, invalidateAABBTree m).

(** * Overlaps and energies of a configuration *)

(** Particle [j] against particle [i] in [countOverlaps] and [mapOverlaps]:
    an overlap of a pair that is counted once. *)
Definition counted (p : pdata) (m : mono) (matrix : bool) (i : Z) (e : pdata_element) (s_i : param_type) (cur_image : Z) (pos_i_image : Scalar3) (j err : Z)
  : run (bool * Z * Z) :=
  if (cur_image =? 0) && (i =? j) then Ret (false, err, 0)
  else
    bind! ej := read (m_ptl p) j in
    let r_ij := s3_sub (pos ej) pos_i_image in
    bind! b := read (m_params m) (typ ej) in
    bind! o := if matrix then read (m_overlaps m) (Index2D.index (m_overlap_idx m) (typ e) (typ ej)) else Ret 1 in
    if (tag e <=? tag ej) && negb (o =? 0) && check_circumsphere_overlap r_ij s_i b then
      let '(h1, err) := test_overlap r_ij (quat_of (orientation e)) s_i (quat_of (orientation ej)) b err in
      if h1 then
        let '(h2, err) := test_overlap (s3_opp r_ij) (quat_of (orientation ej)) b (quat_of (orientation e)) s_i err in Ret (h2, err, tag ej)
      else Ret (false, err, tag ej)
    else Ret (false, err, tag ej).

(** The loop over the particles of [countOverlaps], left at an overlap if asked to. *)
Fixpoint count_loop (p : pdata) (m : mono) (early_exit : bool) (count : nat) (i : Z) (s : Z * Z) : run (Z * Z) :=
  match count with
  | O => Ret s
  | Datatypes.S count =>
      bind! e := read (m_ptl p) i in
      bind! s_i := read (m_params m) (typ e) in
      let local := getAABB (quat_of (orientation e)) s_i BoxDim.zero3 in
      bind! (s, stop) := each_image (m_aabb_tree (m_bvh m)) local (pos e) 0 (m_image_list (m_images m)) (fun cur_image pos_i_image j '(n, err) =>
        bind! (hit, err, _) := counted p m true i e s_i cur_image pos_i_image j err in
        let n := if hit then u32 (n + 1) else n in
        Ret (n, err, hit && early_exit)) s in
      if negb (fst s =? 0) && early_exit then Ret s else count_loop p m early_exit count (i + 1) s
  end.

(** The calls of [buildAABBTree] and [updateImageList] at the start of an analysis. *)
Definition refresh (image_fuel : nat) (ndim : Z) (p : pdata) (m : mono) : run mono :=
  bind! m := buildAABBTree p m in updateImageList image_fuel ndim p m.

Definition countOverlaps (image_fuel : nat) (ndim : Z) (early_exit : bool) (p : pdata) (m : mono) : run (Z * mono) :=
  bind! m := refresh image_fuel ndim p m in
  bind! (n, _) := count_loop p m early_exit (Z.to_nat (getN p)) 0 (0, 0) in
  Ret (n, m).

Definition mapOverlaps (image_fuel : nat) (ndim : Z) (p : pdata) (m : mono) : run (list (Z * Z) * mono) :=
  bind! m := refresh image_fuel ndim p m in
  bind! (l, _) := for_run (Z.to_nat (getN p)) 0 (fun i s =>
    bind! e := read (m_ptl p) i in
    bind! s_i := read (m_params m) (typ e) in
    let local := getAABB (quat_of (orientation e)) s_i BoxDim.zero3 in
    bind! (s, _) := each_image (m_aabb_tree (m_bvh m)) local (pos e) 0 (m_image_list (m_images m)) (fun cur_image pos_i_image j '(l, err) =>
      bind! (hit, err, t) := counted p m false i e s_i cur_image pos_i_image j err in
      Ret (if hit then l ++ [(tag e, t)] else l, err, false)) s in
    Ret s) ([], 0) in
  Ret (l, m).

(** [attemptBoxResize]: the particles and the origin scaled to the new box, and the
    count of overlaps; the boolean is the result of the move. *)
Definition scale_to (new_box : BoxDim.t) (p : pdata) : run pdata :=
  let curBox := m_global_box p in
  bind! l := for_run (Z.to_nat (getN p)) 0 (fun i l =>
    bind! e := read l i in
    let f := BoxDim.makeFraction rsqrt curBox (pos e) BoxDim.zero3 in
    write l i (e_pos (BoxDim.makeCoordinates new_box f) (image e) e)) (m_ptl p) in
  let p := setGlobalBox new_box (set_ptl l p) in
  let old_origin := m_origin p in
  let new_origin := BoxDim.makeCoordinates new_box (BoxDim.makeFraction rsqrt curBox old_origin BoxDim.zero3) in
  Ret (translateOrigin (s3_sub new_origin old_origin) p).

Definition IntegratorHPMC_attemptBoxResize (image_fuel : nat) (ndim : Z) (new_box : BoxDim.t) (p : pdata) (m : mono) : run (bool * pdata * mono) :=
  bind! p := scale_to new_box p in
  bind! (n, m) := countOverlaps image_fuel ndim true p (slotBoxChanged m) in
  Ret (n =? 0, p, m).

Definition attemptBoxResize (image_fuel : nat) (ndim : Z) (new_box : BoxDim.t) (p : pdata) (m : mono) : run (bool * pdata * mono) :=
  bind! (result, p, m) := IntegratorHPMC_attemptBoxResize image_fuel ndim new_box p m in
  if result then
    bind! _ := for_run (Z.to_nat (getNTypes p)) 0 (fun ptype u =>
      bind! f := read (m_fugacity m) ptype in
      if negb (Qeq_bool f 0) then Raise (runtime_error "Implicit depletants not supported with NPT ensemble") else Ret u) tt in
    Ret (result, p, m)
  else Ret (result, p, m).

(** The energy of the pairs; [selected] is one of the potentials, or none for all. *)
Definition pair_energy_term (m : mono) (selected : option PairPotential) (a : pair_args) : run Scalar :=
  match selected with
  | Some f =>
      bind! c := getRCutSquaredTotal f (pa_type_i a) (pa_type_j a) in
      if lt_b (pa_r_squared a) c then Ret (energy f a) else computeOnePairEnergy (m_interactions m) a
  | None => computeOnePairEnergy (m_interactions m) a
  end.

Definition computePairEnergy (image_fuel : nat) (ndim : Z) (selected : option PairPotential) (p : pdata) (m : mono) : run (Scalar * mono) :=
  if negb (hasPairInteractions (m_interactions m)) then Ret (0%Q, m)
  else if negb (m_past_first_run m) then Raise (runtime_error "Call simulation.run(0) before evaluating HPMC pair energies.")
  else
    bind! m := refresh image_fuel ndim p m in
    bind! min_core := getMinCoreDiameter p m in
    let min_core_radius := (min_core * (1 # 2))%Q in
    bind! search_radius := getPairEnergySearchRadius (m_interactions m) (getNTypes p) in
    bind! e := for_run (Z.to_nat (getN p)) 0 (fun i energy =>
      bind! e := read (m_ptl p) i in
      bind! s := read search_radius (typ e) in
      let local := aabb_sphere BoxDim.zero3 (s - min_core_radius)%Q in
      bind! (energy, _) := each_image (m_aabb_tree (m_bvh m)) local (pos e) 0 (m_image_list (m_images m)) (fun cur_image pos_i_image j energy =>
        if (cur_image =? 0) && (i =? j) then Ret (energy, false)
        else
          bind! ej := read (m_ptl p) j in
          let r_ij := s3_sub (pos ej) pos_i_image in
          if tag e <=? tag ej then
            bind! t := pair_energy_term m selected
              (mkPair (s3_dot r_ij r_ij) r_ij (typ e) (quat_of (orientation e)) (ParticleData.diameter e) (charge e) (typ ej) (quat_of (orientation ej)) (ParticleData.diameter ej) (charge ej)) in
            Ret ((energy + t)%Q, false)
          else Ret (energy, false)) energy in
      Ret energy) 0%Q in
    Ret (e, m).

(** * Statistics *)

(** [getCounters(mode)] without a domain decomposition, and [resetStats]. *)
Definition getCounters (mode : Z) (m : mono) : hpmc_counters_t :=
  if mode =? 0 then m_count_total m
  else if mode =? 1 then counters_sub (m_count_total m) (m_count_run_start m)
  else counters_sub (m_count_total m) (m_count_step_start m).

Definition checkParticleOrientations (p : pdata) : run bool :=
  for_run (Z.to_nat (getN p)) 0 (fun i result =>
    bind! e := read (m_ptl p) i in
    let n := (1 - VectorMath.norm2 (quat_of (orientation e)))%Q in
    Ret (if lt_b (1 # 1000) (if lt_b n 0 then - n else n)%Q then false else result)) true.

Definition getMaxTransMoveSize (p : pdata) (m : mono) : run Scalar :=
  for_run (Z.to_nat (getNTypes p)) 0 (fun typ maxD => bind! x := read (m_d m) typ in Ret (std_max maxD x)) 0%Q.

Definition getMinTransMoveSize (p : pdata) (m : mono) : run Scalar :=
  bind! minD := read (m_d m) 0 in
  for_run (Z.to_nat (getNTypes p - 1)) 1 (fun typ minD => bind! x := read (m_d m) typ in Ret (std_max minD x)) minD.

End integrator.
