(* ===== verification/HPMCMonoProps.v ===== *)
(** The steps of a hard-particle Monte Carlo update: what a search of the tree
    visits, what a trial move tests, and the invariant that accepted moves keep. *)

From Stdlib Require Import ZArith Lia QArith Lqa Qabs String Bool.
From stdpp Require Import base list list_numbers strings.
From S2P Require Import Prelude HOOMDMath VectorMath Index1D BoxDim AABBTree AABBTreeProps AABBTreeBuild ParticleData PairEvaluators.
From S2P Require Import NeighborListVerlet RandomNumbers XenoCollide HPMC HPMCMono.
Local Open Scope Z_scope.
Local Open Scope hoomd_scope.

(** * Searching the tree *)

Section search.
Context {S : Type}.
Implicit Types (body : Z -> S -> run (S * bool)) (l h : list Z) (s : S).

Lemma visit_particles_app l h body s :
  visit_particles (l ++ h) body s = (bind! (s, stop) := visit_particles l body s in if stop then Ret (s, true) else visit_particles h body s).
Proof.
  revert s. induction l as [|j l IH]; intros s; simpl; [reflexivity|].
  destruct (body j s) as [[s1 stop]| |]; simpl; try reflexivity. destruct stop; [reflexivity|apply IH].
Qed.

(** A search is a loop over the particles that a query of the tree reports. *)
Lemma search_query q t fuel : forall cur hits cnt r c, query_loop fuel q t cur hits cnt = Some (r, c) ->
  exists h, r = hits ++ h /\ forall body s, search fuel q t cur body s = visit_particles h body s.
Proof.
  induction fuel as [|fuel IH]; intros cur hits cnt r c; cbn [query_loop search]; [discriminate|].
  destruct (cur <? m_num_nodes t); [|intros [= <- <-]; exists []; split; [now rewrite app_nil_r|reflexivity]].
  destruct (overlaps q (aabb (node t cur))); [|apply IH].
  unfold isNodeLeaf. destruct (left (node t cur) =? INVALID_NODE); intros Q; apply IH in Q as (h & -> & E).
  - exists (take (Z.to_nat (num_particles (node t cur))) (particles (node t cur)) ++ h). split; [now rewrite app_assoc|].
    intros body s. rewrite visit_particles_app. destruct (visit_particles _ body s) as [[s1 stop]| |]; simpl; try reflexivity. destruct stop; [reflexivity|apply E].
  - exists h. split; [reflexivity|]. intros body s. simpl. apply E.
Qed.

Lemma search_spec N box q t : tree_ok N box t -> exists h, NoDup h /\ (forall j, j ∈ h -> 0 <= j < N) /\
  (forall j, 0 <= j < N -> overlaps q (box j) = true -> j ∈ h) /\
  forall body s, search (Datatypes.S (length (m_nodes t))) q t 0 body s = visit_particles h body s.
Proof.
  intros T. destruct (query_ok N box q t [] T) as (h & c & Q & _ & ND & In & Co). apply search_query in Q as (h' & E & V). simpl in E. subst h'.
  exists h. split; [exact ND|]. split; [intros j Hj; now apply In|]. split; [exact Co|]. exact V.
Qed.

(** The rule of the loop over particles: the loop is left with [E], or the
    invariant [I] is kept and every visited particle passed. *)
Lemma visit_rule (I E : S -> Prop) (P : Z -> Prop) body l : forall s, I s ->
  (forall j s, j ∈ l -> I s -> exists s' stop, body j s = Ret (s', stop) /\ if stop : bool then E s' else I s' /\ P j) ->
  exists s' stop, visit_particles l body s = Ret (s', stop) /\ if stop : bool then E s' else I s' /\ forall j, j ∈ l -> P j.
Proof.
  induction l as [|j l IH]; intros s Hs B; simpl.
  - exists s, false. split; [reflexivity|]. split; [exact Hs|]. intros j Hj. now apply elem_of_nil in Hj.
  - destruct (B j s) as (s1 & stop & -> & B1); [apply elem_of_cons; auto|exact Hs|]. simpl. destruct stop.
    + exists s1, true. now split.
    + destruct B1 as [I1 P1]. destruct (IH s1 I1) as (s2 & stop & -> & B2); [intros; apply B; [apply elem_of_cons; auto|assumption]|].
      exists s2, stop. split; [reflexivity|]. destruct stop; [exact B2|]. destruct B2 as [I2 P2]. split; [exact I2|]. intros k [->|Hk]%elem_of_cons; auto.
Qed.

(** The rule of the loop over the images. *)
Lemma image_rule N box t local x (I E : S -> Prop) (P : Z -> Scalar3 -> Z -> Prop) (body : Z -> Scalar3 -> Z -> S -> run (S * bool)) (l : list Scalar3) : tree_ok N box t ->
  forall k s, I s ->
  (forall idx R j s, l !! idx = Some R -> 0 <= j < N -> I s ->
     exists s' stop, body (k + Z.of_nat idx) (s3_add x R) j s = Ret (s', stop) /\ if stop : bool then E s' else I s' /\ P (k + Z.of_nat idx) R j) ->
  exists s' stop, each_image t local x k l body s = Ret (s', stop) /\
    if stop : bool then E s'
    else I s' /\ forall idx R j, l !! idx = Some R -> 0 <= j < N -> overlaps (translate (s3_add x R) local) (box j) = true -> P (k + Z.of_nat idx) R j.
Proof.
  intros T. induction l as [|R l IH]; intros k s Hs B; cbn [each_image].
  - exists s, false. split; [reflexivity|]. split; [exact Hs|]. intros idx R j H. discriminate.
  - destruct (search_spec N box (translate (s3_add x R) local) t T) as (h & _ & Rg & Co & V). rewrite V.
    destruct (visit_rule I E (fun j => P k R j) (body k (s3_add x R)) h s Hs) as (s1 & stop & -> & B1).
    { intros j s0 Hj H0. destruct (B 0%nat R j s0 eq_refl (Rg j Hj) H0) as (s' & stop & E' & B'). rewrite Z.add_0_r in *. eauto. }
    simpl. destruct stop.
    + exists s1, true. now split.
    + destruct B1 as [I1 P1]. destruct (IH (k + 1) s1 I1) as (s2 & stop & -> & B2).
      { intros idx R' j s0 HR Hj H0. destruct (B (Datatypes.S idx) R' j s0 HR Hj H0) as (s' & stop & E' & B').
        replace (k + Z.of_nat (Datatypes.S idx)) with (k + 1 + Z.of_nat idx) in * by lia. eauto. }
      exists s2, stop. split; [reflexivity|]. destruct stop; [exact B2|]. destruct B2 as [I2 P2]. split; [exact I2|]. intros [|idx] R' j HR Hj O.
      * injection HR as <-. rewrite Z.add_0_r. auto.
      * replace (k + Z.of_nat (Datatypes.S idx)) with (k + 1 + Z.of_nat idx) by lia. now apply P2.
Qed.

End search.

(** * What a class of shapes promises *)

(** [disjoint r qa a qb b]: the interiors of [a], at the origin, and of [b], at
    [r], do not meet. *)
Class ShapeLaws `{Shape} := {
  good : param_type -> Prop;
  disjoint : Scalar3 -> VectorMath.quat Q -> param_type -> VectorMath.quat Q -> param_type -> Prop;
  disjoint_proper r r' qa a qb b : r =3= r' -> disjoint r qa a qb b -> disjoint r' qa a qb b;
  disjoint_sym r qa a qb b : disjoint r qa a qb b -> disjoint (s3_opp r) qb b qa a;
  circumsphere_nonneg a : good a -> (0 <= getCircumsphereDiameter a)%Q;
  test_sound r qa a qb b err : good a -> good b -> fst (test_overlap r qa a qb b err) = false -> disjoint r qa a qb b;
  far_disjoint r qa a qb b : good a -> good b ->
    (((1 # 2) * getCircumsphereDiameter a + (1 # 2) * getCircumsphereDiameter b) * ((1 # 2) * getCircumsphereDiameter a + (1 # 2) * getCircumsphereDiameter b) <= s3_dot r r)%Q ->
    disjoint r qa a qb b;
  box_sound x y qa a qb b : good a -> good b ->
    overlaps (translate x (aabb_sphere BoxDim.zero3 ((1 # 2) * getCircumsphereDiameter a))) (getAABB qb b y) = false -> disjoint (s3_sub y x) qa a qb b;
  boxes_sound x y qa a qb b : good a -> good b ->
    overlaps (translate x (getAABB qa a BoxDim.zero3)) (getAABB qb b y) = false -> disjoint (s3_sub y x) qa a qb b;
  box_sphere_sound x y qa a qb b r : good a -> good b -> ((1 # 2) * getCircumsphereDiameter b <= r)%Q ->
    overlaps (translate x (getAABB qa a BoxDim.zero3)) (aabb_sphere y r) = false -> disjoint (s3_sub y x) qa a qb b
}.

(** Spheres that do not meet in their bounding cubes are far apart. *)
Lemma cubes_apart x y A B : (0 <= A)%Q -> (0 <= B)%Q -> overlaps (translate x (aabb_sphere BoxDim.zero3 A)) (aabb_sphere y B) = false ->
  ((A + B) * (A + B) <= s3_dot (s3_sub y x) (s3_sub y x))%Q.
Proof.
  intros HA HB O. unfold overlaps, translate, aabb_sphere, s3_add, BoxDim.zero3, s3_dot, s3_sub in *. cbn [s3x s3y s3z lower upper] in *.
  apply negb_false_iff in O. rewrite !orb_true_iff, !lt_b_spec in O.
  assert (Sq : forall u, (A + B < u \/ u < - (A + B))%Q -> ((A + B) * (A + B) <= u * u)%Q) by (intros u [L|L]; nra).
  pose proof (sq_nonneg (s3x y - s3x x)). pose proof (sq_nonneg (s3y y - s3y x)). pose proof (sq_nonneg (s3z y - s3z x)).
  destruct O as [[[[[O|O]|O]|O]|O]|O].
  - pose proof (Sq (s3x y - s3x x)%Q ltac:(right; lra)). lra.
  - pose proof (Sq (s3x y - s3x x)%Q ltac:(left; lra)). lra.
  - pose proof (Sq (s3y y - s3y x)%Q ltac:(right; lra)). lra.
  - pose proof (Sq (s3y y - s3y x)%Q ltac:(left; lra)). lra.
  - pose proof (Sq (s3z y - s3z x)%Q ltac:(right; lra)). lra.
  - pose proof (Sq (s3z y - s3z x)%Q ltac:(left; lra)). lra.
Qed.

Lemma overlaps_grow x A B b : (A <= B)%Q -> overlaps (translate x (aabb_sphere BoxDim.zero3 A)) b = true -> overlaps (translate x (aabb_sphere BoxDim.zero3 B)) b = true.
Proof. rewrite !overlaps_spec. unfold translate, aabb_sphere, s3_add, BoxDim.zero3. cbn [lower upper s3x s3y s3z]. intros HA K. repeat split; lra. Qed.

#[export] Instance s3_dot_proper : Proper (s3_eq ==> s3_eq ==> Qeq) s3_dot.
Proof. intros a b (A1 & A2 & A3) c d (C1 & C2 & C3). unfold s3_dot. now rewrite A1, A2, A3, C1, C2, C3. Qed.

(** Spheres: the centres are at least the sum of the radii apart. *)
#[export] Program Instance SphereLaws : @ShapeLaws ShapeSphere := {|
  good := fun p : SphereParams => (0 <= radius p)%Q;
  disjoint := fun r _ (a : SphereParams) _ (b : SphereParams) => ((radius a + radius b) * (radius a + radius b) <= s3_dot r r)%Q
|}.
Next Obligation. intros r r' qa a qb b E L. simpl in *. now rewrite <- E. Qed.
Next Obligation. intros r qa a qb b L. simpl in *. unfold s3_dot, s3_opp in *. cbn [s3x s3y s3z]. lra. Qed.
Next Obligation. intros a G. simpl in *. lra. Qed.
Next Obligation. intros r qa a qb b err _ _ T. simpl in *. unfold sphere_overlap in T. now apply lt_b_false in T. Qed.
Next Obligation. intros r qa a qb b _ _ L. simpl in *. lra. Qed.
Next Obligation. intros x y qa a qb b Ga Gb O. simpl in *. apply cubes_apart in O; lra. Qed.
Next Obligation. intros x y qa a qb b Ga Gb O. simpl in *. apply cubes_apart in O; lra. Qed.
Next Obligation. intros x y qa a qb b r Ga Gb Hr O. simpl in *. apply cubes_apart in O; [nra|lra..]. Qed.

(** * Tables by type *)

Section tables.
Context `{L : ShapeLaws}.

(** What the integrator stores for the types: parameters, the interaction matrix,
    the move sizes; [cut] is the additive cutoff of the potentials. *)
Record tables (nt : Z) (par : Z -> param_type) (mat : Z -> Z -> bool) (cut : Z -> Scalar) (m : mono) : Prop := {
  tb_par : forall t, 0 <= t < nt -> m_params m !! Z.to_nat t = Some (par t) /\ good (par t);
  tb_mat : forall s t, 0 <= s < nt -> 0 <= t < nt ->
    exists o, m_overlaps m !! Z.to_nat (Index2D.index (m_overlap_idx m) s t) = Some o /\ negb (o =? 0) = mat s t;
  tb_sym : forall s t, mat s t = mat t s;
  tb_d : length (m_d m) = Z.to_nat nt;
  tb_a : length (m_a m) = Z.to_nat nt;
  tb_cut : forall t, 0 <= t < nt -> getMaxPairInteractionAdditiveRCut (m_interactions m) t = Ret (cut t);
  tb_energy : forall a, 0 <= pa_type_i a < nt -> 0 <= pa_type_j a < nt -> exists e, computeOnePairEnergy (m_interactions m) a = Ret e
}.

(** The radii that are computed from them. *)
Record cached (nt : Z) (par : Z -> param_type) (cut : Z -> Scalar) (m : mono) : Prop := {
  ca_radius : forall t, 0 <= t < nt -> m_shape_circumsphere_radius m !! Z.to_nat t = Some ((1 # 2) * getCircumsphereDiameter (par t))%Q;
  ca_cut : forall t, 0 <= t < nt -> m_max_pair_additive_cutoff m !! Z.to_nat t = Some (cut t)
}.

(** The box of a particle in the tree, as a function. *)
Definition tree_box (par : Z -> param_type) (cut : Z -> Scalar) (m : mono) (q : VectorMath.quat Q) (t : Z) (x : Scalar3) : AABB :=
  if negb (hasPairInteractions (m_interactions m)) then getAABB q (par t) x
  else aabb_sphere x (std_max ((1 # 2) * getCircumsphereDiameter (par t)) ((1 # 2) * cut t))%Q.

Context (nt : Z) (par : Z -> param_type) (mat : Z -> Z -> bool) (cut : Z -> Scalar).
Implicit Types (m : mono) (p : pdata).

Lemma box_in_tree_spec m q t x : cached nt par cut m -> 0 <= t < nt -> box_in_tree m q (par t) t x = Ret (tree_box par cut m q t x).
Proof.
  intros C Ht. unfold box_in_tree, tree_box. destruct (negb _); [reflexivity|].
  rewrite (read_Some _ _ _ (ca_radius _ _ _ _ C t Ht)). simpl. now rewrite (read_Some _ _ _ (ca_cut _ _ _ _ C t Ht)).
Qed.

(** Outside of the box in the tree a shape is disjoint from everything inside of
    the query sphere. *)
Lemma outside_disjoint m x y qa qb s t R : tables nt par mat cut m -> 0 <= s < nt -> 0 <= t < nt -> ((1 # 2) * getCircumsphereDiameter (par s) <= R)%Q ->
  overlaps (translate x (aabb_sphere BoxDim.zero3 R)) (tree_box par cut m qb t y) = false -> disjoint (s3_sub y x) qa (par s) qb (par t).
Proof.
  intros T Hs Ht HR O. destruct (tb_par _ _ _ _ _ T s Hs) as [_ Gs]. destruct (tb_par _ _ _ _ _ T t Ht) as [_ Gt].
  pose proof (circumsphere_nonneg _ Gs) as Ps. pose proof (circumsphere_nonneg _ Gt) as Pt. unfold tree_box in O. destruct (negb _).
  - apply box_sound; [assumption..|]. apply not_true_is_false. intros K. apply not_true_iff_false in O. apply O. revert K. apply overlaps_grow. exact HR.
  - apply far_disjoint; [assumption..|]. destruct (std_max_spec ((1 # 2) * getCircumsphereDiameter (par t)) ((1 # 2) * cut t)) as [M _].
    apply cubes_apart in O; [|lra..]. nra.
Qed.

(** * The tests of a trial move *)

(** The particles of the first [N] entries, of known types. *)
Record particles_ok (N : Z) (p : pdata) : Prop := {
  po_length : N <= Z.of_nat (length (m_ptl p));
  po_type : forall j, 0 <= j < N -> 0 <= typ (element j p) < nt
}.

Lemma read_element N p j : particles_ok N p -> 0 <= j < N -> read (m_ptl p) j = Ret (element j p).
Proof.
  intros P Hj. pose proof (po_length _ _ P). destruct (lookup_lt_is_Some_2 (m_ptl p) (Z.to_nat j)) as [e E]; [lia|].
  unfold element. rewrite (zget_lookup _ _ _ _ E). now apply read_Some.
Qed.

Definition quat_at (j : Z) (p : pdata) : VectorMath.quat Q := quat_of (orientation (element j p)).

(** Shapes at [x] and at the place of particle [j]. *)
Definition apart (p : pdata) (t : Z) (q : VectorMath.quat Q) (x : Scalar3) (j : Z) : Prop :=
  mat t (typ (element j p)) = true -> disjoint (s3_sub (pos (element j p)) x) q (par t) (quat_at j p) (par (typ (element j p))).

(** A trial of a particle with the parameters of its type. *)
Definition trial_ok (N : Z) (t : trial) : Prop := 0 <= t_i t < N /\ 0 <= t_typ t < nt /\ t_param t = par (t_typ t).

Lemma other_type N p t j : particles_ok N p -> trial_ok N t -> 0 <= j < N -> 0 <= (other t j (element j p)).1.2 < nt.
Proof. intros P (_ & T & _) Hj. unfold other. destruct (negb _); [now apply (po_type _ _ P)|exact T]. Qed.

Lemma check_new_spec N m p t k x j s : tables nt par mat cut m -> cached nt par cut m -> particles_ok N p -> trial_ok N t -> 0 <= j < N ->
  exists s' stop, check_new p m t k x j s = Ret (s', stop) /\ (stop = false -> j <> t_i t -> apart p (t_typ t) (t_orientation t) x j).
Proof.
  intros T C P Tr Hj. pose proof (other_type _ _ _ _ P Tr Hj) as Ht. destruct Tr as (Hi & Hti & Ep). unfold check_new. destruct s as [c u].
  destruct ((j =? t_i t) && (k =? 0)) eqn:Ej; [exists (c, u), false; split; [reflexivity|zbool; contradiction]|].
  rewrite (read_element N p j P Hj). simpl run_bind.
  destruct (other t j (element j p)) as [[xj tj] qj] eqn:Eo. simpl in Ht.
  destruct (tb_par _ _ _ _ _ T tj Ht) as [-> % (read_Some _ _ _) Gj]. destruct (tb_par _ _ _ _ _ T _ Hti) as [_ Gi]. simpl run_bind.
  rewrite (read_Some _ _ _ (ca_radius _ _ _ _ C _ Hti)), (read_Some _ _ _ (ca_radius _ _ _ _ C _ Ht)). simpl run_bind.
  destruct (tb_mat _ _ _ _ _ T _ _ Hti Ht) as (o & -> % (read_Some _ _ _) & Eq). simpl run_bind. rewrite Eq.
  match goal with |- context [match ?X with (_, _) => _ end] => set (tst := X) end.
  assert (D : tst.1 = false -> mat (t_typ t) tj = true -> disjoint (s3_sub xj x) (t_orientation t) (par (t_typ t)) qj (par tj)).
  { unfold tst. intros E M. rewrite M in E. simpl in E. destruct (lt_b _ _) eqn:F; [rewrite Ep in E; now apply test_sound in E|].
    apply lt_b_false in F. now apply far_disjoint. }
  destruct tst as [hit err]. destruct hit; [eexists _, _; split; [reflexivity|discriminate]|].
  destruct (tb_energy _ _ _ _ _ T (pair_of t (s3_sub xj x) tj qj (element j p)) Hti Ht) as [e ->]. eexists _, _. split; [reflexivity|]. intros _ Ne M.
  unfold other in Eo. rewrite (proj2 (Z.eqb_neq _ _) Ne) in Eo. simpl in Eo. injection Eo as <- <- <-. now apply D.
Qed.

Lemma add_old_spec N m p t k x j u : tables nt par mat cut m -> particles_ok N p -> trial_ok N t -> 0 <= j < N ->
  exists u', add_old p m t k x j u = Ret (u', false).
Proof.
  intros T P Tr Hj. pose proof (other_type _ _ _ _ P Tr Hj) as Ht. destruct Tr as (Hi & Hti & Ep). unfold add_old.
  destruct (_ && _); [eauto|]. rewrite (read_element N p j P Hj). simpl. destruct (other t j (element j p)) as [[xj tj] qj] eqn:Eo. simpl in Ht.
  destruct (tb_energy _ _ _ _ _ T (pair_of t (s3_sub xj x) tj qj (element j p)) Hti Ht) as [e ->]. simpl. eauto.
Qed.

(** The tree of a configuration. *)
Definition tree_of (N : Z) (m : mono) (p : pdata) : Prop :=
  exists bx, tree_ok N bx (m_aabb_tree (m_bvh m)) /\
    forall j, 0 <= j < N -> bx j = tree_box par cut m (quat_at j p) (typ (element j p)) (pos (element j p)).

Lemma energy_difference_spec ext timestep N m p R old new c : tables nt par mat cut m -> cached nt par cut m -> particles_ok N p -> tree_of N m p ->
  trial_ok N old -> trial_ok N new -> ((1 # 2) * getCircumsphereDiameter (par (t_typ new)) <= R)%Q ->
  exists c' u overlap, energy_difference ext timestep p m R old new c = Ret (c', u, overlap) /\
    (overlap = false -> forall v j, v ∈ m_image_list (m_images m) -> 0 <= j < N -> j <> t_i new -> apart p (t_typ new) (t_orientation new) (s3_add (t_pos new) v) j).
Proof.
  intros T C P (bx & Tr & Bx) To Tn HR. unfold energy_difference.
  destruct (image_rule N bx _ (aabb_sphere BoxDim.zero3 R) (t_pos new) (fun _ => True) (fun _ => True)
    (fun _ v j => j <> t_i new -> apart p (t_typ new) (t_orientation new) (s3_add (t_pos new) v) j) (check_new p m new) (m_image_list (m_images m)) Tr 0 (c, 0%Q) I) as ([c1 u1] & overlap & -> & A).
  { intros idx v j s _ Hj _. destruct (check_new_spec N m p new (0 + Z.of_nat idx) (s3_add (t_pos new) v) j s T C P Tn Hj) as (s' & stop & E & D). exists s', stop. split; [exact E|]. destruct stop; auto. }
  simpl run_bind.
  assert (Old : exists u2, (if hasPairInteractions (m_interactions m) && negb overlap
    then bind! (u, _) := each_image (m_aabb_tree (m_bvh m)) (aabb_sphere BoxDim.zero3 R) (t_pos old) 0 (m_image_list (m_images m)) (add_old p m old) u1 in Ret u else Ret u1) = Ret u2).
  { destruct (_ && _); [|eauto].
    destruct (image_rule N bx _ (aabb_sphere BoxDim.zero3 R) (t_pos old) (fun _ => True) (fun _ => True) (fun _ _ _ => True) (add_old p m old) (m_image_list (m_images m)) Tr 0 u1 I) as (u2 & st & -> & _); [|simpl; eauto].
    intros idx v j s _ Hj _. destruct (add_old_spec N m p old (0 + Z.of_nat idx) (s3_add (t_pos old) v) j s T P To Hj) as [u' E]. exists u', false. auto. }
  destruct Old as [u2 ->]. simpl run_bind. eexists _, _, overlap. split; [reflexivity|]. intros Ov v j [idx Hv]%list_elem_of_lookup_1 Hj Ne.
  destruct (overlaps (translate (s3_add (t_pos new) v) (aabb_sphere BoxDim.zero3 R)) (bx j)) eqn:O; [rewrite Ov in A; now apply (proj2 A idx v j)|].
  intros _. rewrite Bx in O by exact Hj. destruct Tn as (_ & Hn & _). now apply (outside_disjoint m _ _ _ _ _ _ R T Hn (po_type _ _ P j Hj) HR).
Qed.

End tables.
