(* ===== verification/HPMCMonoSweep.v ===== *)
(** One sweep of trial moves of a hard-particle Monte Carlo integrator: the
    accepted moves keep the configuration free of overlaps. *)

From Stdlib Require Import ZArith Lia QArith Lqa Qabs String Bool.
From stdpp Require Import base list list_numbers strings.
From S2P Require Import Prelude HOOMDMath VectorMath Index1D BoxDim AABBTree AABBTreeProps AABBTreeBuild ParticleData PairEvaluators.
From S2P Require Import NeighborListVerlet RandomNumbers XenoCollide HPMC HPMCMono HPMCMonoProps.
Local Open Scope Z_scope.
Local Open Scope hoomd_scope.

(** * Random draws *)

Lemma masked_draw philox k g : 0 < k -> smear (2 ^ k - 1) = 2 ^ k - 1 -> exists r g', UniformInt philox 1 (2 ^ k - 1) g = Some (r, g') /\ 0 <= r <= 2 ^ k - 1.
Proof.
  intros Hk Sm. unfold UniformInt. destruct (Z.eqb_spec (2 ^ k - 1) 0); [exists 0, g; split; [reflexivity|lia]|]. rewrite Sm. cbn [uniform_int_loop]. destruct (generate_u32 philox g) as [u g1].
  replace (2 ^ k - 1) with (Z.ones k) by (rewrite Z.ones_equiv; lia). rewrite Z.land_ones by lia.
  pose proof (Z.mod_pos_bound u (2 ^ k) ltac:(apply Z.pow_pos_nonneg; lia)) as B. rewrite Z.ones_equiv.
  destruct (Z.gtb_spec (u mod 2 ^ k) (Z.pred (2 ^ k))); [lia|]. eexists _, _. split; [reflexivity|lia].
Qed.

Section draws.
Context `{RealOps Q} `{RealFun Q}.

Lemma translate_loop_bound philox fuel d dim : forall g v g', translate_loop philox fuel d dim g = Ret (v, g') -> (s3_dot v v <= d * d)%Q.
Proof.
  induction fuel as [|fuel IH]; intros g v g'; cbn [translate_loop]; [discriminate|].
  destruct (Uniform philox (- d)%Q d g) as [dx g1]. destruct (Uniform philox (- d)%Q d g1) as [dy g2].
  destruct (if negb (dim =? 2) then _ else _) as [dz g3]. destruct (lt_b _ _) eqn:E; [apply IH|]. intros [= <- <-]. now apply lt_b_false in E.
Qed.

(** The order of the updates: every particle once. *)
Lemma order_shuffle_spec philox timestep seed rank select N order : 0 <= N < 2 ^ 31 ->
  order_shuffle philox timestep seed rank select (order_resize N) = Ret order ->
  exists f, (forall c, 0 <= c < N -> order !! Z.to_nat c = Some (f c) /\ 0 <= f c < N) /\ (forall a b, 0 <= a < N -> 0 <= b < N -> f a = f b -> a = b).
Proof.
  intros HN. unfold order_shuffle, order_resize. destruct (masked_draw philox 1 (new_generator (Seed (id_value id_HPMCMonoShuffle) timestep seed) (Counter rank select 0 0)) ltac:(lia) eq_refl) as (r & g & E & _).
  change (2 ^ 1 - 1) with 1 in E. rewrite E. rewrite length_seqZ, Z2Nat.id by lia. intros [= <-].
  destruct (negb (r =? 0)).
  - exists (fun c => N - 1 - c). split; [|intros; lia]. intros c Hc. rewrite list_lookup_fmap. split; [|lia].
    rewrite lookup_seqZ_lt by lia. simpl. f_equal. rewrite Z.add_0_l, Z2Nat.id by lia. wrap32. lia.
  - exists (fun c => c). split; [|intros; lia]. intros c Hc. split; [|lia]. rewrite lookup_seqZ_lt by lia. f_equal. lia.
Qed.

End draws.

#[export] Instance int3_eq_dec : EqDecision int3.
Proof. solve_decision. Defined.

(** * Configurations without overlaps *)

Section overlap_free.
Context `{L : ShapeLaws}.
Context (nt : Z) (par : Z -> param_type) (mat : Z -> Z -> bool).
Hypothesis mat_sym : forall s t, mat s t = mat t s.
Context (b : BoxDim.t) (N : Z).

(** No two particles and no two periodic images meet. *)
Definition overlap_free (p : pdata) : Prop := forall i j n, 0 <= i < N -> 0 <= j < N -> i <> j \/ n <> zero_i3 ->
  apart par mat p (typ (element i p)) (quat_at i p) (BoxDim.shift b (pos (element i p)) n) j.

(** The box is larger than the particles: no particle reaches its own images. *)
Definition roomy : Prop := forall t n, 0 <= t < nt -> n <> zero_i3 -> mat t t = true ->
  (getCircumsphereDiameter (par t) * getCircumsphereDiameter (par t) <= norm2 (BoxDim.shift b BoxDim.zero3 n))%Q.

Lemma shift_opp x y n : s3_sub x (BoxDim.shift b y n) =3= s3_opp (s3_sub y (BoxDim.shift b x (i3_opp n))).
Proof.
  destruct (shift_components b y n) as (A1 & A2 & A3), (shift_components b x (i3_opp n)) as (B1 & B2 & B3). unfold s3_sub, s3_opp, i3_opp in *. cbn [s3x s3y s3z i3x i3y i3z] in *.
  rewrite !inject_Z_opp in *. repeat split; cbn [s3x s3y s3z]; [rewrite A1, B1|rewrite A2, B2|rewrite A3, B3]; ring.
Qed.

Lemma shift_self x n : s3_sub x (BoxDim.shift b x n) =3= s3_opp (BoxDim.shift b BoxDim.zero3 n).
Proof.
  destruct (shift_components b x n) as (A1 & A2 & A3), (shift_components b BoxDim.zero3 n) as (B1 & B2 & B3). unfold s3_sub, s3_opp, BoxDim.zero3 in *. cbn [s3x s3y s3z] in *.
  repeat split; cbn [s3x s3y s3z]; [rewrite A1, B1|rewrite A2, B2|rewrite A3, B3]; ring.
Qed.

(** A move of one particle that meets no other one. *)
Lemma move_overlap_free p p' i : 0 <= i < N -> overlap_free p -> (forall t, 0 <= t < nt -> good (par t)) -> roomy ->
  (forall j, 0 <= j < N -> 0 <= typ (element j p') < nt) ->
  (forall j, 0 <= j < N -> j <> i -> element j p' = element j p) ->
  (forall j n, 0 <= j < N -> j <> i -> apart par mat p (typ (element i p')) (quat_at i p') (BoxDim.shift b (pos (element i p')) n) j) ->
  overlap_free p'.
Proof.
  intros Hi F G Ro Ty Same New a c n Ha Hc Ne. unfold apart, quat_at in *. destruct (decide (a = i)) as [->|Na]; destruct (decide (c = i)) as [->|Nc].
  - intros M. destruct Ne as [Ne|Ne]; [contradiction|]. apply far_disjoint; [auto..|]. rewrite shift_self. pose proof (Ro _ n (Ty i Hi) Ne M).
    unfold s3_dot, s3_opp, norm2 in *. cbn [s3x s3y s3z]. lra.
  - rewrite (Same c Hc Nc). now apply New.
  - rewrite (Same a Ha Na). intros M. rewrite mat_sym in M. apply (disjoint_proper _ _ _ _ _ _ (symmetry (shift_opp _ _ _))). apply disjoint_sym. now apply New.
  - rewrite (Same a Ha Na), (Same c Hc Nc). now apply F.
Qed.

(** Every particle moved to one of its periodic images. *)
Lemma images_overlap_free p p' : overlap_free p -> (forall j, 0 <= j < N -> typ (element j p') = typ (element j p) /\ quat_at j p' = quat_at j p) ->
  (forall j, 0 <= j < N -> exists n, pos (element j p') =3= BoxDim.shift b (pos (element j p)) n) -> overlap_free p'.
Proof.
  intros F Same Im i j n Hi Hj Ne. unfold apart. destruct (Same i Hi) as [-> ->], (Same j Hj) as [-> ->]. intros M.
  destruct (decide (i = j)) as [->|Nij].
  { destruct Ne as [Ne|Ne]; [contradiction|]. eapply disjoint_proper; [|apply (F j j n); auto]. rewrite !shift_self. reflexivity. }
  destruct (Im i Hi) as [ni Ei], (Im j Hj) as [nj Ej].
  set (k := make_int3 (i3x n + i3x ni - i3x nj) (i3y n + i3y ni - i3y nj) (i3z n + i3z ni - i3z nj)).
  assert (E : s3_sub (pos (element j p)) (BoxDim.shift b (pos (element i p)) k) =3= s3_sub (pos (element j p')) (BoxDim.shift b (pos (element i p')) n)).
  { destruct (shift_components b (pos (element i p)) k) as (A1 & A2 & A3), (shift_components b (pos (element i p')) n) as (B1 & B2 & B3).
    destruct (shift_components b (pos (element i p)) ni) as (C1 & C2 & C3), (shift_components b (pos (element j p)) nj) as (D1 & D2 & D3).
    destruct Ei as (I1 & I2 & I3), Ej as (J1 & J2 & J3). unfold s3_sub, k in *. cbn [s3x s3y s3z i3x i3y i3z] in *. unfold Z.sub in *. rewrite !inject_Z_plus, !inject_Z_opp in *.
    repeat split; cbn [s3x s3y s3z]; [rewrite A1, B1, I1, J1, C1, D1|rewrite A2, B2, I2, J2, C2, D2|rewrite A3, B3, I3, J3, C3, D3]; ring. }
  apply (disjoint_proper _ _ _ _ _ _ E). apply F; auto.
Qed.

End overlap_free.

(** * The moves of one step *)

(** The list of images is enough for moves up to [D] from inside of the box: an
    image that is not listed is at least [R] away. *)
Definition images_cover (b : BoxDim.t) (hkl : list int3) (R D : Q) : Prop := forall n x y x0 y0, n ∉ hkl -> BoxDim.inside b x0 -> BoxDim.inside b y0 ->
  (norm2 (s3_sub x x0) <= D * D)%Q -> (norm2 (s3_sub y y0) <= D * D)%Q -> (R * R <= norm2 (s3_sub y (BoxDim.shift b x n)))%Q.

(** The vectors of the list belong to the offsets of the list, and the primary
    image comes first. *)
Definition images_of (b : BoxDim.t) (i : images) : Prop :=
  m_image_list i = image_vector (BoxDim.getLatticeVector b 0) (BoxDim.getLatticeVector b 1) (BoxDim.getLatticeVector b 2) <$> m_image_hkl i /\
  forall n, m_image_hkl i !! 0%nat = Some n -> n = zero_i3.

#[export] Instance s3_sub_proper : Proper (s3_eq ==> s3_eq ==> s3_eq) s3_sub.
Proof. intros a a' (A1 & A2 & A3) c c' (C1 & C2 & C3). repeat split; cbn [s3_sub s3x s3y s3z]; [now rewrite A1, C1|now rewrite A2, C2|now rewrite A3, C3]. Qed.

Lemma image_shift b x n : s3_add x (image_vector (BoxDim.getLatticeVector b 0) (BoxDim.getLatticeVector b 1) (BoxDim.getLatticeVector b 2) n) =3= BoxDim.shift b x n.
Proof. unfold image_vector, BoxDim.shift, s3_add. repeat split; cbn [s3x s3y s3z]; ring. Qed.

Section sweep.
Context `{L : ShapeLaws} `{RealOps Q} `{RealFun Q}.
Context (philox : ctr_type -> key_type -> ctr_type) (slow_exp : Scalar -> Scalar).
Context (ext : option (Z -> Z -> Scalar3 -> VectorMath.quat Q -> Scalar3 -> VectorMath.quat Q -> Scalar)).
Context (dep : mono -> pdata -> Z -> Scalar3 -> VectorMath.quat Q -> hpmc_counters_t -> bool * hpmc_counters_t) (int_as_scalar : Z -> Scalar).
Context (nt : Z) (par : Z -> param_type) (mat : Z -> Z -> bool) (cut dd : Z -> Scalar) (N : Z) (p0 : pdata) (m1 : mono) (R D : Q) (fuel : nat).
Notation b := (m_global_box p0).

Record setting : Prop := {
  st_tables : tables nt par mat cut m1;
  st_cached : cached nt par cut m1;
  st_particles : particles_ok nt N p0;
  st_images : images_of b (m_images m1);
  st_cover : images_cover b (m_image_hkl (m_images m1)) R D;
  st_reach : forall s t, 0 <= s < nt -> 0 <= t < nt -> mat s t = true -> ((1 # 2) * getCircumsphereDiameter (par s) + (1 # 2) * getCircumsphereDiameter (par t) <= R)%Q;
  st_d : forall t, 0 <= t < nt -> m_d m1 !! Z.to_nat t = Some (dd t) /\ (0 <= dd t)%Q /\ (inject_Z (m_nselect m1) * dd t <= D)%Q;
  st_inside : forall j, 0 <= j < N -> BoxDim.inside b (pos (element j p0));
  st_roomy : roomy nt par mat b
}.

(** The rejection loops end within the fuel. *)
Definition draws_end : Prop :=
  (forall t g, 0 <= t < nt -> exists r, translate_loop philox fuel (dd t) 3 g = Ret r) /\ (forall nonzero g, exists r, pair_loop philox fuel nonzero g = Ret r).

(** The state of the loops; particle [j] was tried [cnt j] times. *)
Record sweep_ok (cnt : Z -> Z) (s : sweep) : Prop := {
  so_frame : exists l, sw_pdata s = set_ptl l p0 /\ length l = length (m_ptl p0);
  so_mono : exists bv, sw_mono s = set_bvh bv m1;
  so_type : forall j, 0 <= j < N -> typ (element j (sw_pdata s)) = typ (element j p0);
  so_moved : forall j, 0 <= j < N -> (norm2 (s3_sub (pos (element j (sw_pdata s))) (pos (element j p0))) <=
    (inject_Z (cnt j) * dd (typ (element j p0))) * (inject_Z (cnt j) * dd (typ (element j p0))))%Q;
  so_tree : tree_of par cut N (sw_mono s) (sw_pdata s);
  so_free : overlap_free par mat b N (sw_pdata s)
}.

Lemma sweep_particles cnt s : setting -> sweep_ok cnt s -> particles_ok nt N (sw_pdata s).
Proof.
  intros St S. destruct (st_particles St) as [Ln Ty]. split.
  - destruct (so_frame _ _ S) as (l & -> & E). simpl. now rewrite E.
  - intros j Hj. rewrite (so_type _ _ S j Hj). auto.
Qed.

Lemma tables_bvh bv m : tables nt par mat cut m -> tables nt par mat cut (set_bvh bv m).
Proof. intros []. now split. Qed.

Lemma cached_bvh bv m : cached nt par cut m -> cached nt par cut (set_bvh bv m).
Proof. intros []. now split. Qed.

(** More tries allow larger displacements. *)
Lemma sweep_weaken cnt cnt' s : setting -> (forall j, 0 <= j < N -> 0 <= cnt j <= cnt' j) -> sweep_ok cnt s -> sweep_ok cnt' s.
Proof.
  intros St Le S. pose proof (st_particles St) as P. destruct S as [F M T V Tr Fr]. split; try assumption. intros j Hj. eapply Qle_trans; [apply V; exact Hj|].
  destruct (st_d St _ (po_type _ _ _ P j Hj)) as (_ & D0 & _). destruct (Le j Hj) as [C0 C1]. rewrite Zle_Qle in C0, C1. change (inject_Z 0) with 0%Q in C0.
  apply Qmult_le_compat_nonneg; split; nra.
Qed.

(** A displacement of at most [cnt] moves stays within [D]. *)
Lemma moved_within cnt t v : setting -> 0 <= t < nt -> 0 <= cnt <= m_nselect m1 -> (norm2 v <= (inject_Z cnt * dd t) * (inject_Z cnt * dd t))%Q -> (norm2 v <= D * D)%Q.
Proof.
  intros St Ht [C0 C1] Hv. destruct (st_d St t Ht) as (_ & D0 & D1). rewrite Zle_Qle in C0, C1. change (inject_Z 0) with 0%Q in C0.
  eapply Qle_trans; [exact Hv|]. apply Qmult_le_compat_nonneg; split; nra.
Qed.

(** A trial place of particle [i] that passed the tests of the listed images
    passes those of all images. *)
Lemma all_images cnt s i q x : setting -> sweep_ok cnt s -> 0 <= i < N -> (forall j, 0 <= j < N -> 0 <= cnt j <= m_nselect m1) ->
  (norm2 (s3_sub x (pos (element i p0))) <= D * D)%Q ->
  (forall v j, v ∈ m_image_list (m_images m1) -> 0 <= j < N -> j <> i -> apart par mat (sw_pdata s) (typ (element i p0)) q (s3_add x v) j) ->
  forall j n, 0 <= j < N -> j <> i -> apart par mat (sw_pdata s) (typ (element i p0)) q (BoxDim.shift b x n) j.
Proof.
  intros St S Hi Cn Hx A j n Hj Ne. pose proof (st_particles St) as P. destruct (decide (n ∈ m_image_hkl (m_images m1))) as [In|Out].
  - intros M. assert (Iv : image_vector (BoxDim.getLatticeVector b 0) (BoxDim.getLatticeVector b 1) (BoxDim.getLatticeVector b 2) n ∈ m_image_list (m_images m1)).
    { rewrite (proj1 (st_images St)). apply list_elem_of_fmap. eauto. }
    eapply disjoint_proper; [|apply (A _ j Iv Hj Ne M)]. apply s3_sub_proper; [reflexivity|]. apply image_shift.
  - unfold apart. rewrite (so_type _ _ S j Hj). intros M.
    pose proof (po_type _ _ _ P i Hi) as Ti. pose proof (po_type _ _ _ P j Hj) as Tj. destruct (tb_par _ _ _ _ _ (st_tables St) _ Ti) as [_ Gi]. destruct (tb_par _ _ _ _ _ (st_tables St) _ Tj) as [_ Gj].
    apply far_disjoint; [assumption..|]. pose proof (st_reach St _ _ Ti Tj M) as Re.
    pose proof (circumsphere_nonneg _ Gi). pose proof (circumsphere_nonneg _ Gj).
    pose proof (moved_within _ _ _ St Tj (Cn j Hj) (so_moved _ _ S j Hj)) as Hy.
    pose proof (st_cover St n _ _ _ _ Out (st_inside St i Hi) (st_inside St j Hj) Hx Hy) as Far. unfold norm2 in Far. unfold s3_dot. nra.
Qed.

(** One more try of particle [i]. *)
Definition tried (cnt : Z -> Z) (i : Z) : Z -> Z := fun j => if j =? i then cnt j + 1 else cnt j.

Lemma element_write p i e j : 0 <= i < Z.of_nat (length (m_ptl p)) -> 0 <= j -> element j (set_ptl (zset (m_ptl p) i e) p) = if j =? i then e else element j p.
Proof.
  intros Hi Hj. unfold element. simpl. destruct (Z.eqb_spec j i) as [->|Ne]; [apply zget_lookup, lookup_zset_eq; lia|].
  unfold zget. rewrite !nth_lookup. now rewrite lookup_zset_ne by lia.
Qed.

Lemma quat_of_to q : quat_of (quat_to_scalar4 q) = q.
Proof. now destruct q as [s [x y z]]. Qed.

Lemma accept_move_spec cnt s new has_depletants seed_new : setting -> sweep_ok cnt s -> 0 <= t_i new < N -> (forall j, 0 <= j < N -> 0 <= cnt j <= m_nselect m1) ->
  t_elem new = element (t_i new) (sw_pdata s) -> t_typ new = typ (element (t_i new) p0) -> t_param new = par (t_typ new) ->
  (hasOrientation (t_param new) = false -> t_orientation new = quat_at (t_i new) (sw_pdata s)) ->
  (norm2 (s3_sub (t_pos new) (pos (element (t_i new) p0))) <= (inject_Z (cnt (t_i new) + 1) * dd (t_typ new)) * (inject_Z (cnt (t_i new) + 1) * dd (t_typ new)))%Q ->
  (forall j n, 0 <= j < N -> j <> t_i new -> apart par mat (sw_pdata s) (t_typ new) (t_orientation new) (BoxDim.shift b (t_pos new) n) j) ->
  exists p' m', accept_move int_as_scalar (sw_pdata s) (sw_mono s) new has_depletants seed_new = Ret (p', m') /\
    forall c, sweep_ok (tried cnt (t_i new)) (mkSweep p' m' c).
Proof.
  intros St S Hi Cn Ee Et Ep Or Mv Ap. pose proof (sweep_particles _ _ St S) as P. pose proof (po_length _ _ _ P) as Ln.
  assert (Ht : 0 <= t_typ new < nt) by (rewrite Et; apply (po_type _ _ _ (st_particles St)); exact Hi).
  destruct S as [(l & Ep0 & Ll) (bv & Em) T V (bx & Tr & Bx) Fr]. unfold accept_move. rewrite Em, Ep.
  rewrite (box_in_tree_spec nt _ _ _ _ _ _ (cached_bvh bv m1 (st_cached St)) Ht). simpl run_bind.
  rewrite Em in Tr. change (m_aabb_tree (m_bvh (set_bvh bv m1))) with (m_aabb_tree bv) in Tr. destruct (update_ok N bx _ (t_i new) (tree_box par cut (set_bvh bv m1) (t_orientation new) (t_typ new) (t_pos new)) Tr Hi) as (t' & -> & Tr' & _).
  match goal with |- context [write _ _ ?E] => set (e := E) end.
  assert (Pe : pos e = t_pos new /\ typ e = t_typ new /\ quat_of (orientation e) = t_orientation new).
  { assert (Ty : typ (t_elem new) = t_typ new) by (rewrite Ee, Et; now apply T). rewrite Ep in Or. unfold quat_at in Or. rewrite <- Ee in Or.
    unfold e. destruct has_depletants, (hasOrientation (par (t_typ new))); cbn [pos typ orientation e_pos e_vel e_orientation]; repeat split; auto using quat_of_to; symmetry; auto. }
  destruct Pe as (Pe & Te & Oe). rewrite write_in by lia. simpl run_bind. eexists _, _. split; [reflexivity|]. intros c.
  assert (El : forall j, 0 <= j < N -> element j (set_ptl (zset (m_ptl (sw_pdata s)) (t_i new) e) (sw_pdata s)) = if j =? t_i new then e else element j (sw_pdata s)) by (intros; apply element_write; lia).
  split; cbn [sw_pdata sw_mono].
  - rewrite Ep0. simpl. eexists. split; [reflexivity|]. now rewrite length_zset.
  - eexists. reflexivity.
  - intros j Hj. rewrite El by exact Hj. destruct (Z.eqb_spec j (t_i new)) as [->|Ne]; [congruence|now apply T].
  - intros j Hj. rewrite El by exact Hj. unfold tried. destruct (Z.eqb_spec j (t_i new)) as [->|Ne]; [rewrite Pe, <- Et; exact Mv|now apply V].
  - eexists. split; [exact Tr'|]. intros j Hj. unfold upd, quat_at. rewrite El by exact Hj. destruct (j =? t_i new); [now rewrite Pe, Te, Oe|]. rewrite Bx by exact Hj. now rewrite Em.
  - apply (move_overlap_free nt par mat (tb_sym _ _ _ _ _ (st_tables St)) b N (sw_pdata s) _ (t_i new) Hi Fr).
    + intros t H2. now apply (tb_par _ _ _ _ _ (st_tables St)).
    + apply (st_roomy St).
    + intros j Hj. rewrite El by exact Hj. destruct (j =? t_i new); [now rewrite Te|now apply (po_type _ _ _ P)].
    + intros j Hj Ne. rewrite El by exact Hj. now rewrite (proj2 (Z.eqb_neq _ _) Ne).
    + intros j n Hj Ne. unfold quat_at. rewrite El by exact Hi. rewrite Z.eqb_refl, Pe, Te, Oe. now apply Ap.
Qed.

Lemma query_radius_spec p m search_radius core t : cached nt par cut m -> 0 <= t < nt -> (forall t, 0 <= t < nt -> exists r, search_radius !! Z.to_nat t = Some r) ->
  exists Rq, query_radius p m search_radius core t = Ret Rq /\ ((1 # 2) * getCircumsphereDiameter (par t) <= Rq)%Q.
Proof.
  intros C Ht Se. unfold query_radius. rewrite (read_Some _ _ _ (ca_radius _ _ _ _ C t Ht)). simpl. destruct (hasPairInteractions _); [|eexists; split; [reflexivity|apply Qle_refl]].
  destruct (Se t Ht) as [r E]. rewrite (read_Some _ _ _ E). simpl. eexists. split; [reflexivity|]. apply std_max_spec.
Qed.

(** The displacement grows by at most one move size. *)
Lemma step_bound x x0 v n d : (0 <= d)%Q -> 0 <= n -> (norm2 (s3_sub x x0) <= (inject_Z n * d) * (inject_Z n * d))%Q -> (s3_dot v v <= d * d)%Q ->
  (norm2 (s3_sub (s3_add x v) x0) <= (inject_Z (n + 1) * d) * (inject_Z (n + 1) * d))%Q.
Proof.
  intros Hd Hn Hx Hv. rewrite Zle_Qle in Hn. change (inject_Z 0) with 0%Q in Hn.
  assert (E : s3_sub (s3_add x v) x0 =3= s3_add (s3_sub x x0) v) by (unfold s3_sub, s3_add; repeat split; cbn [s3x s3y s3z]; ring). rewrite E.
  pose proof (norm2_add (s3_sub x x0) v (inject_Z n * d) d ltac:(nra) Hd Hx Hv) as B. rewrite inject_Z_plus. change (inject_Z 1) with 1%Q.
  eapply Qle_trans; [exact B|]. apply Qle_lteq. right. ring.
Qed.

(** The trial place and orientation. *)
Lemma proposal_spec cnt s i translate g : setting -> draws_end -> sweep_ok cnt s -> 0 <= i < N -> 0 <= cnt i -> let e := element i (sw_pdata s) in let t := typ (element i p0) in
  exists x q g', (if translate : bool then bind! (v, g) := move_translate philox fuel (pos e) g (dd t) 3 in Ret (v, quat_of (orientation e), g)
    else bind! (q, g) := move_rotate philox fuel 3 (quat_of (orientation e)) g (zget 0%Q (m_a m1) t) in Ret (pos e, q, g)) = Ret (x, q, g') /\
    (norm2 (s3_sub x (pos (element i p0))) <= (inject_Z (cnt i + 1) * dd t) * (inject_Z (cnt i + 1) * dd t))%Q /\
    (translate = true -> q = quat_at i (sw_pdata s)).
Proof.
  intros St (Dt & Dr) S Hi C0 e t. pose proof (po_type _ _ _ (st_particles St) i Hi) as Ht. destruct (st_d St t Ht) as (_ & D0 & _). pose proof (so_moved _ _ S i Hi) as V. fold e t in V.
  destruct translate.
  - destruct (Dt t g Ht) as [[v g1] E]. unfold move_translate. rewrite E. simpl. eexists _, _, _. split; [reflexivity|]. split; [|reflexivity].
    apply step_bound; try assumption. now apply (translate_loop_bound philox fuel (dd t) 3 g v g1).
  - unfold move_rotate. simpl Z.eqb. cbv iota. destruct (Dr false g) as [[[[a1 a2] a3] g1] ->]. cbn [run_bind]. destruct (Dr true g1) as [[[[c1 c2] c3] g2] ->]. cbn [run_bind].
    eexists _, _, _. split; [reflexivity|]. split; [|discriminate]. eapply Qle_trans; [exact V|]. rewrite Zle_Qle in C0. rewrite inject_Z_plus.
    change (inject_Z 0) with 0%Q in C0. change (inject_Z 1) with 1%Q. fold t in D0. apply Qmult_le_compat_nonneg; split; nra.
Qed.

Lemma trial_move_spec cnt s i timestep seed has_depletants search_radius core i_nselect : setting -> draws_end -> sweep_ok cnt s -> 0 <= i < N ->
  (forall j, 0 <= j < N -> 0 <= cnt j <= m_nselect m1) -> cnt i < m_nselect m1 -> (forall t, 0 <= t < nt -> exists r, search_radius !! Z.to_nat t = Some r) ->
  exists s', trial_move philox slow_exp ext dep int_as_scalar fuel timestep seed 3 has_depletants search_radius core i_nselect i s = Ret s' /\ sweep_ok (tried cnt i) s'.
Proof.
  intros St Dr S Hi Cn Ci Se. pose proof (sweep_particles _ _ St S) as P. pose proof (po_type _ _ _ (st_particles St) i Hi) as Ht.
  assert (Same : forall c, sweep_ok (tried cnt i) (mkSweep (sw_pdata s) (sw_mono s) c)).
  { intros c. assert (S' : sweep_ok cnt (mkSweep (sw_pdata s) (sw_mono s) c)) by (destruct S; now split).
    apply (sweep_weaken cnt); [assumption| |exact S']. intros j Hj. unfold tried. destruct (j =? i); specialize (Cn j Hj); lia. }
  destruct (so_mono _ _ S) as [bv Em]. pose proof (tables_bvh bv m1 (st_tables St)) as T. pose proof (cached_bvh bv m1 (st_cached St)) as C. rewrite <- Em in T, C.
  pose proof (so_type _ _ S i Hi) as Te. unfold trial_move. rewrite (read_element nt N _ i P Hi). cbn [run_bind]. rewrite Te.
  destruct (tb_par _ _ _ _ _ T _ Ht) as [-> % (read_Some _ _ _) _]. cbn [run_bind].
  match goal with |- context [UniformInt philox 1 65535 ?g] => destruct (masked_draw philox 16 g ltac:(lia) eq_refl) as (r & g1 & E & _) end.
  change (2 ^ 16 - 1) with 65535 in E. rewrite E. destruct (st_d St _ Ht) as (Ed & _ & _).
  assert (Ed' : read (m_d (sw_mono s)) (typ (element i p0)) = Ret (dd (typ (element i p0)))) by (rewrite Em; now apply read_Some). rewrite Ed'. cbn [run_bind].
  assert (Ea : read (m_a (sw_mono s)) (typ (element i p0)) = Ret (zget 0%Q (m_a m1) (typ (element i p0)))).
  { rewrite Em. apply read_Some, lookup_zget. change (m_a (set_bvh bv m1)) with (m_a m1). rewrite (tb_a _ _ _ _ _ (st_tables St)). lia. }
  rewrite Ea. cbn [run_bind]. set (tr := negb (hasOrientation (par (typ (element i p0)))) || (r <? m_translation_move_probability (sw_mono s))).
  destruct (Qeq_bool _ 0); [eexists; split; [reflexivity|apply Same]|].
  destruct (proposal_spec cnt s i tr g1 St Dr S Hi ltac:(specialize (Cn i Hi); lia)) as (x & q & g2 & -> & Mv & Eq). cbn [run_bind].
  destruct (query_radius_spec (sw_pdata s) (sw_mono s) search_radius core _ C Ht Se) as (Rq & -> & HR). cbn [run_bind].
  set (old := mkTrial i _ _ _ (pos _) _). set (new := mkTrial i _ _ _ x q).
  destruct (energy_difference_spec nt par mat cut ext timestep N (sw_mono s) (sw_pdata s) Rq old new (sw_counters s) T C P (so_tree _ _ S)) as (c' & u & overlap & -> & Ap); [now split|now split|exact HR|].
  cbn [run_bind]. destruct (if negb overlap then _ else _) as [accept g3] eqn:Ac. destruct (generate_u32 philox g3) as [sd g4].
  destruct (if has_depletants && accept then _ else _) as [accept' c2] eqn:De.
  destruct accept'; [|eexists; split; [reflexivity|apply Same]].
  assert (Ov : overlap = false).
  { destruct overlap; [|reflexivity]. cbn [negb] in Ac. injection Ac as <- <-. rewrite andb_false_r in De. discriminate. }
  assert (Lst : m_image_list (m_images (sw_mono s)) = m_image_list (m_images m1)) by now rewrite Em. rewrite Lst in Ap. specialize (Ap Ov).
  destruct (accept_move_spec cnt s new has_depletants sd St S Hi Cn eq_refl eq_refl eq_refl) as (p' & m' & -> & S').
  - intros Or. apply Eq. unfold tr. cbn [t_param new] in Or. now rewrite Or.
  - exact Mv.
  - apply (all_images cnt s i q x St S Hi Cn); [|exact Ap]. apply (moved_within (cnt i + 1) _ _ St Ht); [specialize (Cn i Hi); lia|exact Mv].
  - cbn [run_bind]. eexists. split; [reflexivity|apply S'].
Qed.

End sweep.
