(* ===== verification/HPMCMonoSpec.v ===== *)
(** A step of hard-particle Monte Carlo keeps a configuration free of overlaps:
    what the statements before the loops establish, the loops over the particles,
    and the wrap into the box at the end. *)

From Stdlib Require Import ZArith Lia QArith Lqa Qabs String Bool.
From stdpp Require Import base list list_numbers strings.
From S2P Require Import Prelude HOOMDMath VectorMath Index1D BoxDim AABBTree AABBTreeProps AABBTreeBuild ParticleData PairEvaluators.
From S2P Require Import NeighborListVerlet RandomNumbers XenoCollide HPMC HPMCMono HPMCMonoProps HPMCMonoSweep.
Local Open Scope Z_scope.
Local Open Scope hoomd_scope.

Section preparation.
Context `{L : ShapeLaws}.
Context (nt : Z) (par : Z -> param_type) (mat : Z -> Z -> bool) (cut : Z -> Scalar).
Hypothesis Hnt : 0 <= nt.
Implicit Types (m : mono) (p : pdata).

(** * The members that a step keeps *)

Record frame (m m' : mono) : Prop := {
  fr_params : m_params m' = m_params m;
  fr_overlaps : m_overlaps m' = m_overlaps m;
  fr_idx : m_overlap_idx m' = m_overlap_idx m;
  fr_a : m_a m' = m_a m;
  fr_d : length (m_d m') = length (m_d m);
  fr_nselect : m_nselect m' = m_nselect m;
  fr_fugacity : m_fugacity m' = m_fugacity m;
  fr_interactions : m_interactions m' = m_interactions m
}.

#[export] Instance frame_refl : Reflexive frame.
Proof. now split. Qed.

#[export] Instance frame_trans : Transitive frame.
Proof. intros m1 m2 m3 [] []. split; congruence. Qed.

Lemma tables_frame m m' : frame m m' -> tables nt par mat cut m -> tables nt par mat cut m'.
Proof. intros [Fp Fo Fi Fa Fd _ _ Fw] []. split; rewrite ?Fp, ?Fo, ?Fi, ?Fa, ?Fd, ?Fw; assumption. Qed.

Lemma tree_frame N m m' p : frame m m' -> m_aabb_tree (m_bvh m') = m_aabb_tree (m_bvh m) -> tree_of par cut N m p -> tree_of par cut N m' p.
Proof. intros F E (bx & T & B). exists bx. rewrite E. split; [exact T|]. intros j Hj. rewrite (B j Hj). unfold tree_box. now rewrite (fr_interactions _ _ F). Qed.

(** * Cached radii *)

Lemma lookup_fmap_seqZ {A} (f : Z -> A) n t : 0 <= t < n -> (f <$> seqZ 0 n) !! Z.to_nat t = Some (f t).
Proof. intros Ht. rewrite list_lookup_fmap, lookup_seqZ_lt by lia. simpl. do 2 f_equal. lia. Qed.

Lemma fmap_seqZ_snoc {A} (f : Z -> A) n : 0 <= n -> f <$> seqZ 0 (n + 1) = (f <$> seqZ 0 n) ++ [f n].
Proof. intros Hn. rewrite seqZ_app by lia. now rewrite fmap_app. Qed.

Lemma cache_types_spec p m : tables nt par mat cut m -> getNTypes p = nt ->
  exists a r, cache_types p m = Ret (set_cached a r m) /\ cached nt par cut (set_cached a r m).
Proof.
  intros T En. unfold cache_types. rewrite En.
  destruct (for_run_inv (fun t '(a, r) => a = cut <$> seqZ 0 t /\ r = (fun t => (1 # 2) * getCircumsphereDiameter (par t))%Q <$> seqZ 0 t) (Z.to_nat nt) 0
    (fun type '(additive, radii) => bind! s := read (m_params m) type in bind! c := getMaxPairInteractionAdditiveRCut (m_interactions m) type in
       Ret (additive ++ [c], radii ++ [((1 # 2) * getCircumsphereDiameter s)%Q])) ([], [])) as ([a r] & -> & -> & ->).
  - split; reflexivity.
  - intros t [a r] Ht [-> ->]. destruct (tb_par _ _ _ _ _ T t ltac:(lia)) as [-> % (read_Some _ _ _) _]. simpl. rewrite (tb_cut _ _ _ _ _ T t) by lia. simpl.
    eexists. split; [reflexivity|]. now rewrite !fmap_seqZ_snoc by lia.
  - simpl. eexists _, _. split; [reflexivity|]. rewrite Z2Nat.id by lia. split; intros t Ht; [exact (lookup_fmap_seqZ (fun t => (1 # 2) * getCircumsphereDiameter (par t))%Q nt t Ht)|exact (lookup_fmap_seqZ cut nt t Ht)].
Qed.

(** * The tree *)

(** The tree of the state, unless it will be built again. *)
Definition tree_fresh (N : Z) (p : pdata) (m : mono) : Prop :=
  (m_aabb_tree_invalid (m_bvh m) = false -> tree_of par cut N m p) /\ 0 <= m_node_capacity (m_aabb_tree (m_bvh m)) <= 2 ^ 31.

Lemma buildAABBTree_spec N p m : tables nt par mat cut m -> particles_ok nt N p -> getNTypes p = nt -> 0 < N <= 2 ^ 29 -> getN p = N -> m_nghosts p = 0 -> tree_fresh N p m ->
  exists m', buildAABBTree p m = Ret m' /\ frame m m' /\ tree_of par cut N m' p /\ m_images m' = m_images m /\ m_d m' = m_d m /\ m_update_order m' = m_update_order m.
Proof.
  intros T P En HN EN Gh [Fr Cap]. unfold buildAABBTree. destruct (m_aabb_tree_invalid _) eqn:Inv.
  2:{ exists m. split; [reflexivity|]. split; [reflexivity|]. split; [now apply Fr|]. auto. }
  destruct (cache_types_spec p m T En) as (a & r & -> & C). cbn [run_bind]. rewrite EN, Gh, Z.add_0_r, (u32_small N) by (unfold is_u32; lia).
  destruct (Z.gtb_spec N 0); [|lia].
  set (bx := fun j => tree_box par cut (set_cached a r m) (quat_at j p) (typ (element j p)) (pos (element j p))).
  match goal with |- context [for_run _ _ ?B _] => destruct (for_run_inv (fun i l => l = bx <$> seqZ 0 i) (Z.to_nat N) 0 B []) as (l & -> & El) end.
  { reflexivity. }
  { intros i l Hi ->. rewrite (read_element nt N p i P) by lia. cbn [run_bind]. pose proof (po_type _ _ _ P i ltac:(lia)) as Ht.
    destruct (tb_par _ _ _ _ _ T _ Ht) as [E _]. change (m_params (set_cached a r m)) with (m_params m). rewrite (read_Some _ _ _ E). cbn [run_bind].
    rewrite (box_in_tree_spec nt _ _ _ _ _ _ C Ht). cbn [run_bind]. eexists. split; [reflexivity|]. now rewrite fmap_seqZ_snoc by lia. }
  rewrite Z.add_0_l, Z2Nat.id in El by lia. subst l. cbn [run_bind].
  assert (Ln : Z.of_nat (length (bx <$> seqZ 0 N)) = N) by (rewrite length_fmap, length_seqZ; lia).
  destruct (buildTree_ok (bx <$> seqZ 0 N) (m_aabb_tree (m_bvh (set_cached a r m)))) as (t & l & -> & _ & Tr & _); [lia|lia|exact Cap|].
  eexists. split; [reflexivity|]. split; [now split|]. split; [|auto]. exists (box_of (bx <$> seqZ 0 N)). rewrite Ln in Tr. split; [exact Tr|].
  intros j Hj. unfold box_of. rewrite (zget_lookup _ _ _ _ (lookup_fmap_seqZ bx N j Hj)). reflexivity.
Qed.

(** * Move sizes *)

Definition min_plane (rsqrt : Scalar -> Scalar) (b : BoxDim.t) : Q :=
  std_min (std_min (s3x (planes rsqrt b)) (s3y (planes rsqrt b))) (s3z (planes rsqrt b)).

(** The list of images belongs to the box, unless it will be built again. *)
Definition images_ok (b : BoxDim.t) (m : mono) : Prop := m_image_list_valid (m_images m) = true -> images_of b (m_images m).

Lemma limitMoveDistances_spec rsqrt p m : tables nt par mat cut m -> getNTypes p = nt -> 0 < m_nselect m -> (0 <= min_plane rsqrt (m_global_box p))%Q -> images_ok (m_global_box p) m ->
  exists m', limitMoveDistances rsqrt 3 p m = Ret m' /\ frame m m' /\ m_bvh m' = m_bvh m /\ m_update_order m' = m_update_order m /\ images_ok (m_global_box p) m' /\
    forall t, 0 <= t < nt -> exists x, m_d m' !! Z.to_nat t = Some x /\ (0 <= x)%Q /\ (inject_Z (m_nselect m) * x <= min_plane rsqrt (m_global_box p))%Q.
Proof.
  intros T En Ns Mp Io. unfold limitMoveDistances. rewrite En. fold (planes rsqrt (m_global_box p)). change (if 3 =? 3 then _ else _) with (min_plane rsqrt (m_global_box p)).
  set (mp := min_plane rsqrt (m_global_box p)) in *. assert (Nq : (0 < inject_Z (m_nselect m))%Q) by (change 0%Q with (inject_Z 0); now rewrite <- Zlt_Qlt).
  match goal with |- context [for_run _ _ ?B _] => destruct (for_run_inv (fun i '(d, inv) => length d = Z.to_nat nt /\
    forall t, 0 <= t < i -> exists x, d !! Z.to_nat t = Some x /\ (0 <= x)%Q /\ (inject_Z (m_nselect m) * x <= mp)%Q) (Z.to_nat nt) 0 B (m_d m, false)) as ([d inv] & -> & Ld & Hd) end.
  - split; [apply (tb_d _ _ _ _ _ T)|intros; lia].
  - intros i [d inv] Hi [Ld Hd]. rewrite (read_Some _ _ _ (lookup_zget 0%Q d i ltac:(lia))). cbn [run_bind]. rewrite write_in by lia. cbn [run_bind]. eexists. split; [reflexivity|].
    split; [now rewrite length_zset|]. intros t Ht. destruct (decide (t = i)) as [->|Ne]; [|rewrite lookup_zset_ne by lia; apply Hd; lia].
    rewrite lookup_zset_eq by lia. eexists. split; [reflexivity|].
    match goal with |- context [lt_b ?y 0] => set (y0 := y) end.
    assert (Y : (inject_Z (m_nselect m) * y0 <= mp)%Q).
    { unfold y0. destruct (lt_b mp _) eqn:E; [|now apply lt_b_false in E]. apply Qle_lteq. right. field. lra. }
    destruct (lt_b y0 0) eqn:E; [split; [apply Qle_refl|nra]|]. apply lt_b_false in E. now split.
  - cbn [run_bind]. eexists. split; [reflexivity|]. rewrite Z2Nat.id in Hd by lia. destruct inv.
    + split; [split; try reflexivity; simpl; rewrite Ld; symmetry; apply (tb_d _ _ _ _ _ T)|]. do 2 (split; [reflexivity|]). split; [discriminate|exact Hd].
    + split; [split; try reflexivity; simpl; rewrite Ld; symmetry; apply (tb_d _ _ _ _ _ T)|]. do 2 (split; [reflexivity|]). split; [exact Io|exact Hd].
Qed.

(** * The list of images *)

Lemma image_loop_vectors fuel ndim test e1 e2 e3 : forall k w l hkl l' hkl' w', l = image_vector e1 e2 e3 <$> hkl ->
  image_loop fuel ndim test e1 e2 e3 k w l hkl = Ret (l', hkl', w') -> l' = image_vector e1 e2 e3 <$> hkl'.
Proof.
  induction fuel as [|fuel IH]; intros k w l hkl l' hkl' w' E; cbn [image_loop]; [discriminate|].
  set (added := List.filter _ _). assert (E' : l ++ (image_vector e1 e2 e3 <$> added) = image_vector e1 e2 e3 <$> (hkl ++ added)) by now rewrite fmap_app, E.
  destruct (_ && _); [intros [= <- <- <-]; exact E'|]. destruct (_ >? 0); [now apply IH|]. intros [= <- <- <-]. exact E'.
Qed.

Lemma image_loop_head fuel ndim test e1 e2 e3 : forall k w l hkl l' hkl' w', hkl !! 0%nat = Some zero_i3 ->
  image_loop fuel ndim test e1 e2 e3 k w l hkl = Ret (l', hkl', w') -> hkl' !! 0%nat = Some zero_i3.
Proof.
  induction fuel as [|fuel IH]; intros k w l hkl l' hkl' w' E; cbn [image_loop]; [discriminate|].
  set (added := List.filter _ _). assert (E' : (hkl ++ added) !! 0%nat = Some zero_i3) by now apply lookup_app_l_Some.
  destruct (_ && _); [intros [= <- <- <-]; exact E'|]. destruct (_ >? 0); [now apply IH|]. intros [= <- <- <-]. exact E'.
Qed.

(** The first image is the primary one. *)
Lemma image_loop_primary fuel test e1 e2 e3 w l' hkl' w' n : image_loop fuel 3 test e1 e2 e3 0 w [] [] = Ret (l', hkl', w') -> hkl' !! 0%nat = Some n -> n = zero_i3.
Proof.
  destruct fuel as [|fuel]; cbn [image_loop]; [discriminate|]. change (shell 3 0) with [zero_i3]. cbn [List.filter]. destruct (test _); cbn [app]; rewrite andb_false_r.
  - intros E. apply image_loop_head in E; [|reflexivity]. rewrite E. congruence.
  - intros [= <- <- <-]. discriminate.
Qed.

Lemma updateImageList_spec `{RealOps Q} `{RealFun Q} fuel p m m' : images_ok (m_global_box p) m -> updateImageList fuel 3 p m = Ret m' ->
  frame m m' /\ m_bvh m' = m_bvh m /\ m_update_order m' = m_update_order m /\ m_d m' = m_d m /\ images_of (m_global_box p) (m_images m').
Proof.
  intros Io. unfold updateImageList. destruct (m_image_list_valid _) eqn:V; [intros [= <-]; split; [reflexivity|auto]|].
  intros (rg & _ & K)%bind_ret. apply bind_ret in K as (cb & _ & K). apply bind_ret in K as (ib & _ & K). apply bind_ret in K as ([[l hkl] w] & E & [= <-]).
  split; [now split|]. repeat split; [now apply image_loop_vectors in E|]. intros n. now apply (image_loop_primary _ _ _ _ _ _ _ _ _ _ E).
Qed.

(** * The statements before the loops *)

Lemma prepare_spec `{RealOps Q} `{RealFun Q} philox rsqrt image_fuel timestep seed N p m m1 : tables nt par mat cut m -> particles_ok nt N p -> getNTypes p = nt -> 0 < N <= 2 ^ 29 -> getN p = N ->
  m_nghosts p = 0 -> tree_fresh N p m -> 0 < m_nselect m -> (0 <= min_plane rsqrt (m_global_box p))%Q -> images_ok (m_global_box p) m ->
  prepare philox rsqrt image_fuel timestep seed 3 p m = Ret m1 ->
  frame m m1 /\ tree_of par cut N m1 p /\ images_of (m_global_box p) (m_images m1) /\
  (forall t, 0 <= t < nt -> exists x, m_d m1 !! Z.to_nat t = Some x /\ (0 <= x)%Q /\ (inject_Z (m_nselect m) * x <= min_plane rsqrt (m_global_box p))%Q) /\
  exists f, (forall c, 0 <= c < N -> m_update_order m1 !! Z.to_nat c = Some (f c) /\ 0 <= f c < N) /\ (forall a b, 0 <= a < N -> 0 <= b < N -> f a = f b -> a = b).
Proof.
  intros T P En HN EN Gh Fr Ns Mp Io. unfold prepare. intros (order & Eo & K)%bind_ret. rewrite EN in Eo. apply order_shuffle_spec in Eo; [|lia].
  set (m0 := set_order order (set_count (m_count_total m) (m_count_total m) m)) in K. assert (F0 : frame m m0) by now split.
  destruct (buildAABBTree_spec N p m0 (tables_frame _ _ F0 T) P En HN EN Gh) as (m2 & E2 & F2 & Tr2 & I2 & D2 & O2).
  { destruct Fr as [Fr Cap]. split; [|exact Cap]. intros Inv. apply (tree_frame N m); [exact F0|reflexivity|now apply Fr]. }
  rewrite E2 in K. cbn [run_bind] in K. pose proof (frame_trans _ _ _ F0 F2) as F02.
  destruct (limitMoveDistances_spec rsqrt p m2 (tables_frame _ _ F02 T) En) as (m3 & E3 & F3 & B3 & O3 & I3 & D3).
  { now rewrite (fr_nselect _ _ F02). } { exact Mp. } { unfold images_ok. rewrite I2. exact Io. }
  rewrite E3 in K. cbn [run_bind] in K. destruct (updateImageList_spec _ _ _ _ I3 K) as (F4 & B4 & O4 & D4 & I4).
  assert (F34 : frame m2 m1) by now apply (frame_trans _ m3). split; [now apply (frame_trans _ m2)|]. split.
  { apply (tree_frame N m2 m1 p F34); [now rewrite B4, B3|exact Tr2]. }
  split; [exact I4|]. rewrite D4, O4, O3, O2. rewrite (fr_nselect _ _ F02) in D3. split; [exact D3|exact Eo].
Qed.

End preparation.

(** * Wrapping into the box *)

Section wrapping.
Context (rsqrt : Scalar -> Scalar) `{RS : !RSqrt rsqrt}.
Variable b : BoxDim.t.
Hypothesis W : BoxDim.wf b.
Local Open Scope Q_scope.

Lemma dot_sq (a1 a2 a3 c1 c2 c3 : Q) : (a1 * c1 + a2 * c2 + a3 * c3) * (a1 * c1 + a2 * c2 + a3 * c3) <= (a1 * a1 + a2 * a2 + a3 * a3) * (c1 * c1 + c2 * c2 + c3 * c3).
Proof.
  pose proof (sq_nonneg (a1 * c2 - a2 * c1)). pose proof (sq_nonneg (a1 * c3 - a3 * c1)). pose proof (sq_nonneg (a2 * c3 - a3 * c2)). lra.
Qed.

(** A vector no longer than a plane distance changes the offset along the axis by
    at most the length of the box. *)
Lemma offset_bound q s len n u r : u * u <= q * n -> n <= r * r -> 0 <= r -> r <= len * s -> 0 < s -> s * s * q <= 1 -> 0 <= q -> 0 < len -> - len <= u <= len.
Proof.
  intros Hu Hn Hr Hl Hs Hq Q0 L0. apply Qabs_Qle_condition. apply Qabs_le_sq; [lra|].
  assert (A : q * n <= q * (len * s * (len * s))) by (rewrite !(Qmult_comm q); apply Qmult_le_compat_r; [nra|exact Q0]).
  assert (B : q * (len * s * (len * s)) == len * len * (s * s * q)) by ring. assert (C : len * len * (s * s * q) <= len * len * 1) by (rewrite !(Qmult_comm (len * len)); apply Qmult_le_compat_r; nra). lra.
Qed.

Lemma min_plane_le : min_plane rsqrt b <= s3x (planes rsqrt b) /\ min_plane rsqrt b <= s3y (planes rsqrt b) /\ min_plane rsqrt b <= s3z (planes rsqrt b).
Proof.
  unfold min_plane. destruct (std_min_spec (std_min (s3x (planes rsqrt b)) (s3y (planes rsqrt b))) (s3z (planes rsqrt b))) as [A B].
  destruct (std_min_spec (s3x (planes rsqrt b)) (s3y (planes rsqrt b))) as [C D]. repeat split; lra.
Qed.

Lemma min_plane_pos : 0 < min_plane rsqrt b.
Proof.
  destruct (planes_le_L rsqrt b W) as ((X & _) & (Y & _) & (Z & _)). unfold min_plane, std_min. case_all; assumption.
Qed.

Lemma moved_wraps x x0 r : BoxDim.inside b x0 -> 0 <= r -> r <= min_plane rsqrt b -> norm2 (s3_sub x x0) <= r * r -> BoxDim.within_one_image b x.
Proof.
  intros (Ix & Iy & Iz) Hr Hm Hn. destruct min_plane_le as (Mx & My & Mz). destruct W as (_ & (Px & Py & Pz) & _).
  unfold planes, BoxDim.getNearestPlaneDistance in *. cbn [s3x s3y s3z] in *. unfold norm2, s3_sub in Hn. cbn [s3x s3y s3z] in Hn.
  destruct (Qeq_bool (s3z (BoxDim.m_L b)) 0) eqn:E0; [apply Qeq_bool_eq in E0; lra|].
  unfold BoxDim.inside, BoxDim.within_one_image, BoxDim.tilt_x, BoxDim.tilt_y in *.
  set (xy := BoxDim.m_xy b) in *. set (xz := BoxDim.m_xz b) in *. set (yz := BoxDim.m_yz b) in *. set (dx := s3x x - s3x x0) in *. set (dy := s3y x - s3y x0) in *. set (dz := s3z x - s3z x0) in *.
  pose proof (dot_sq 1 (- xy) (xy * yz - xz) dx dy dz) as Cx. pose proof (dot_sq 0 1 (- yz) dx dy dz) as Cy. pose proof (dot_sq 0 0 1 dx dy dz) as Cz.
  pose proof (one_le_sq_x b) as Ox. pose proof (one_le_sq_y b) as Oy. fold xy yz xz in Ox, Oy.
  split; [intros Q; specialize (Ix Q)|split; intros Q; [specialize (Iy Q)|specialize (Iz Q)]].
  - assert (B := offset_bound _ _ _ _ (1 * dx + - xy * dy + (xy * yz - xz) * dz) r ltac:(eapply Qle_trans; [exact Cx|]; apply Qle_lteq; right; reflexivity) Hn Hr (Qle_trans _ _ _ Hm Mx)).
    assert (Eq : 1 * 1 + - xy * - xy + (xy * yz - xz) * (xy * yz - xz) == 1 + xy * xy + (xy * yz - xz) * (xy * yz - xz)) by ring.
    destruct B as [B1 B2]; [now apply rsqrt_pos|rewrite Eq; now apply rsqrt_below|lra|exact Px|]. unfold dx, dy, dz in *. lra.
  - assert (B := offset_bound _ _ _ _ (0 * dx + 1 * dy + - yz * dz) r Cy Hn Hr (Qle_trans _ _ _ Hm My)).
    assert (Eq : 0 * 0 + 1 * 1 + - yz * - yz == 1 + yz * yz) by ring.
    destruct B as [B1 B2]; [now apply rsqrt_pos|rewrite Eq; now apply rsqrt_below|lra|exact Py|]. unfold dx, dy, dz in *. lra.
  - assert (B := offset_bound _ 1 (s3z (BoxDim.m_L b)) _ (0 * dx + 0 * dy + 1 * dz) r Cz Hn Hr ltac:(lra) ltac:(lra)). destruct B as [B1 B2]; [lra|lra|exact Pz|]. unfold dz in *. lra.
Qed.

End wrapping.

(** A loop that replaces the first [N] entries of a list. *)
Lemma for_each_write {A} (d : A) (h : Z -> A -> A) body l0 N : 0 <= N <= Z.of_nat (length l0) ->
  (forall i l, 0 <= i < N -> length l = length l0 -> body i l = write l i (h i (zget d l i))) ->
  exists l, for_run (Z.to_nat N) 0 body l0 = Ret l /\ length l = length l0 /\ forall j, 0 <= j < N -> zget d l j = h j (zget d l0 j).
Proof.
  intros HN Hb. destruct (for_run_inv (fun i l => length l = length l0 /\ forall j, 0 <= j < N -> zget d l j = if j <? i then h j (zget d l0 j) else zget d l0 j) (Z.to_nat N) 0 body l0) as (l & -> & Ll & El).
  - split; [reflexivity|]. intros j Hj. now destruct (Z.ltb_spec j 0); [lia|].
  - intros i l Hi [Ll El]. rewrite Hb by lia. rewrite (El i) by lia. rewrite Z.ltb_irrefl, write_in by lia.
    eexists. split; [reflexivity|]. split; [now rewrite length_zset|]. intros j Hj. destruct (decide (j = i)) as [->|Ne].
    + rewrite (zget_lookup _ _ _ _ (lookup_zset_eq l i _ ltac:(lia))). now destruct (Z.ltb_spec i (i + 1)); [|lia].
    + unfold zget. rewrite nth_lookup, lookup_zset_ne by lia. rewrite <- nth_lookup. fold (zget d l j). rewrite El by lia. destruct (Z.ltb_spec j i), (Z.ltb_spec j (i + 1)); try lia; reflexivity.
  - exists l. split; [reflexivity|]. split; [exact Ll|]. intros j Hj. rewrite El, Z2Nat.id, Z.add_0_l by lia. now destruct (Z.ltb_spec j N); [|lia].
Qed.

(** A loop that replaces the entry of every particle. *)
Lemma for_each_element (g : pdata_element -> pdata_element) l0 N : 0 <= N <= Z.of_nat (length l0) ->
  exists l, for_run (Z.to_nat N) 0 (fun i l => bind! e := read l i in write l i (g e)) l0 = Ret l /\ length l = length l0 /\
    forall j, 0 <= j < N -> zget zero_element l j = g (zget zero_element l0 j).
Proof.
  intros HN. apply (for_each_write zero_element (fun _ => g)); [exact HN|]. intros i l Hi Ll. now rewrite (read_Some _ _ _ (lookup_zget zero_element l i ltac:(lia))).
Qed.

Lemma hpmc_wrap_spec nt N p : particles_ok nt N p -> getN p = N -> 0 <= N ->
  exists l, wrap_particles p = Ret (set_ptl l p) /\ length l = length (m_ptl p) /\
    forall j, 0 <= j < N -> let w := BoxDim.wrap (m_global_box p) (pos (element j p)) (image (element j p)) BoxDim.no_flags in element j (set_ptl l p) = e_pos w.1 w.2 (element j p).
Proof.
  intros P EN HN. unfold wrap_particles. rewrite EN. pose proof (po_length _ _ _ P) as Ln.
  destruct (for_each_element (fun e => let w := BoxDim.wrap (m_global_box p) (pos e) (image e) BoxDim.no_flags in e_pos w.1 w.2 e) (m_ptl p) N ltac:(lia)) as (l & E & Ll & El).
  cbv zeta in E |- *. rewrite E. exists l. split; [reflexivity|]. split; [exact Ll|]. intros j Hj. exact (El j Hj).
Qed.

Lemma shift_moved b v u n k : BoxDim.shift b v n =3= BoxDim.shift b u k -> v =3= BoxDim.shift b u (make_int3 (i3x k - i3x n) (i3y k - i3y n) (i3z k - i3z n)).
Proof.
  destruct (shift_components b v n) as (A1 & A2 & A3), (shift_components b u k) as (B1 & B2 & B3), (shift_components b u (make_int3 (i3x k - i3x n) (i3y k - i3y n) (i3z k - i3z n))) as (C1 & C2 & C3).
  intros (E1 & E2 & E3). rewrite A1, B1 in E1. rewrite A2, B2 in E2. rewrite A3, B3 in E3. cbn [s3x s3y s3z i3x i3y i3z] in *. unfold Z.sub in *. rewrite !inject_Z_plus, !inject_Z_opp in *.
  repeat split; [rewrite C1|rewrite C2|rewrite C3]; lra.
Qed.

(** * One step *)

Section step.
Context `{L : ShapeLaws} `{RealOps Q} `{RealFun Q}.
Context (philox : ctr_type -> key_type -> ctr_type) (slow_exp : Scalar -> Scalar).
Context (ext : option (Z -> Z -> Scalar3 -> VectorMath.quat Q -> Scalar3 -> VectorMath.quat Q -> Scalar)).
Context (dep : mono -> pdata -> Z -> Scalar3 -> VectorMath.quat Q -> hpmc_counters_t -> bool * hpmc_counters_t) (int_as_scalar : Z -> Scalar).
Context (nt : Z) (par : Z -> param_type) (mat : Z -> Z -> bool) (cut : Z -> Scalar) (N : Z).
Implicit Types (m : mono) (p : pdata).

Lemma getMinCoreDiameter_returns p m : tables nt par mat cut m -> getNTypes p = nt -> 0 <= nt -> exists x, getMinCoreDiameter p m = Ret x.
Proof.
  intros T En Hnt. unfold getMinCoreDiameter. rewrite En.
  match goal with |- context [for_run _ _ ?B _] => destruct (for_run_inv (fun _ _ => True) (Z.to_nat nt) 0 B 0%Q I) as (x & -> & _) end.
  { intros t s Ht _. destruct (tb_par _ _ _ _ _ T t ltac:(lia)) as [-> % (read_Some _ _ _) _]. simpl. eauto. }
  cbn [run_bind]. destruct (hasPairInteractions _); [|eauto].
  match goal with |- context [for_run _ _ ?B _] => destruct (for_run_inv (fun _ _ => True) (Z.to_nat nt) 0 B 0%Q I) as (y & -> & _) end; [|simpl; eauto].
  intros t s Ht _. rewrite (tb_cut _ _ _ _ _ T t) by lia. simpl. eauto.
Qed.

Lemma getPairEnergySearchRadius_spec m : tables nt par mat cut m -> 0 <= nt ->
  exists l, getPairEnergySearchRadius (m_interactions m) nt = Ret l /\ forall t, 0 <= t < nt -> exists r, l !! Z.to_nat t = Some r.
Proof.
  intros T Hnt. unfold getPairEnergySearchRadius.
  match goal with |- context [for_run _ _ ?B _] => destruct (for_run_inv (fun i l => length l = Z.to_nat i) (Z.to_nat nt) 0 B [] eq_refl) as (l & -> & Ll) end.
  { intros t l Ht Ll. rewrite (tb_cut _ _ _ _ _ T t) by lia. simpl. eexists. split; [reflexivity|]. rewrite length_app. simpl. lia. }
  exists l. split; [reflexivity|]. intros t Ht. apply lookup_lt_is_Some_2. lia.
Qed.

(** The particles that a sweep has visited after [c] iterations. *)
Definition visited (f : Z -> Z) (k c : Z) : Z -> Z := fun j => if bool_decide (j ∈ f <$> seqZ 0 c) then k + 1 else k.

Lemma visited_fresh f k c : 0 <= c < N -> (forall a b, 0 <= a < N -> 0 <= b < N -> f a = f b -> a = b) -> visited f k c (f c) = k.
Proof.
  intros Hc Inj. unfold visited. case_bool_decide as E; [|reflexivity].
  apply list_elem_of_fmap in E as (c' & E & Hc'%elem_of_seqZ). apply Inj in E; lia.
Qed.

(** The loops over the sweeps and the particles. *)
Lemma moves_spec dd p0 m1 R D fuel f timestep seed has_depletants search_radius core c0 : setting nt par mat cut dd N p0 m1 R D -> draws_end philox nt dd fuel -> 0 <= N -> 0 <= m_nselect m1 ->
  tree_of par cut N m1 p0 -> overlap_free par mat (m_global_box p0) N p0 -> (forall t, 0 <= t < nt -> exists r, search_radius !! Z.to_nat t = Some r) ->
  (forall c, 0 <= c < N -> m_update_order m1 !! Z.to_nat c = Some (f c) /\ 0 <= f c < N) -> (forall a b, 0 <= a < N -> 0 <= b < N -> f a = f b -> a = b) ->
  exists s, for_run (Z.to_nat (m_nselect m1)) 0 (fun i_nselect => for_run (Z.to_nat N) 0 (fun cur_particle s =>
      bind! i := read (m_update_order (sw_mono s)) cur_particle in
      trial_move philox slow_exp ext dep int_as_scalar fuel timestep seed 3 has_depletants search_radius core i_nselect i s)) (mkSweep p0 m1 c0) = Ret s /\
    sweep_ok par mat cut dd N p0 m1 (fun _ => m_nselect m1) s.
Proof.
  intros St Dr HN Hn Tr Fr Se Or Inj.
  match goal with |- context [for_run (Z.to_nat (m_nselect m1)) 0 ?B _] => destruct (for_run_inv (fun k s => sweep_ok par mat cut dd N p0 m1 (fun _ => k) s) (Z.to_nat (m_nselect m1)) 0 B (mkSweep p0 m1 c0)) as (s & E & S) end.
  - split; cbn [sw_pdata sw_mono]; [exists (m_ptl p0); split; [now destruct p0|reflexivity]|exists (m_bvh m1); now destruct m1|reflexivity| |exact Tr|exact Fr].
    intros j Hj. unfold norm2, s3_sub. cbn [s3x s3y s3z]. change (inject_Z 0) with 0%Q. apply Qle_lteq. right. ring.
  - intros k s Hk S.
    match goal with |- context [for_run (Z.to_nat N) 0 ?B _] => destruct (for_run_inv (fun c s => sweep_ok par mat cut dd N p0 m1 (visited f k c) s) (Z.to_nat N) 0 B s) as (s' & E & S') end.
    + apply (sweep_weaken nt par mat cut dd N p0 m1 R D (fun _ => k)); [exact St|intros j _|exact S]. unfold visited. case_bool_decide; lia.
    + intros c s1 Hc S1. destruct (so_mono _ _ _ _ _ _ _ _ _ S1) as [bv Em]. destruct (Or c ltac:(lia)) as [Eo Hf].
      assert (Er : read (m_update_order (sw_mono s1)) c = Ret (f c)) by (rewrite Em; now apply read_Some). rewrite Er. cbn [run_bind].
      destruct (trial_move_spec philox slow_exp ext dep int_as_scalar nt par mat cut dd N p0 m1 R D fuel (visited f k c) s1 (f c) timestep seed has_depletants search_radius core k St Dr S1 Hf) as (s2 & -> & S2).
      { intros j Hj. unfold visited. case_bool_decide; lia. } { rewrite visited_fresh by (auto; lia). lia. } { exact Se. }
      exists s2. split; [reflexivity|]. apply (sweep_weaken nt par mat cut dd N p0 m1 R D (tried (visited f k c) (f c))); [exact St| |exact S2].
      intros j Hj. unfold tried. destruct (Z.eqb_spec j (f c)) as [->|Ne].
      * rewrite visited_fresh by (auto; lia). unfold visited. rewrite bool_decide_eq_true_2; [lia|]. rewrite fmap_seqZ_snoc by lia. apply elem_of_app. right. now apply list_elem_of_singleton.
      * unfold visited. rewrite fmap_seqZ_snoc by lia. repeat case_bool_decide; try lia. match goal with K : _ ∉ _ |- _ => destruct K; apply elem_of_app; now left end.
    + exists s'. split; [exact E|]. apply (sweep_weaken nt par mat cut dd N p0 m1 R D (visited f k (0 + Z.of_nat (Z.to_nat N)))); [exact St| |exact S'].
      intros j _. unfold visited. case_bool_decide; lia.
  - exists s. split; [exact E|]. now rewrite Z.add_0_l, Z2Nat.id in S by lia.
Qed.

(** ** The state between steps *)

(** Particles of known types inside of the box, without overlaps. *)
Record configuration (p : pdata) : Prop := {
  cf_particles : particles_ok nt N p;
  cf_types : getNTypes p = nt;
  cf_N : getN p = N;
  cf_ghosts : m_nghosts p = 0;
  cf_inside : forall j, 0 <= j < N -> BoxDim.inside (m_global_box p) (pos (element j p));
  cf_free : overlap_free par mat (m_global_box p) N p
}.

(** Tables of the right size; the tree and the list of images are those of the
    configuration or marked as invalid. *)
Record integrator_ok (p : pdata) (m : mono) : Prop := {
  io_tables : tables nt par mat cut m;
  io_tree : m_aabb_tree_invalid (m_bvh m) = false -> tree_of par cut N m p;
  io_images : images_ok (m_global_box p) m;
  io_nselect : 0 < m_nselect m
}.

(** The setting of the loops, from the statements before them. *)
Lemma setting_of rsqrt p m m1 R D a r : configuration p -> integrator_ok p m -> frame m m1 -> images_of (m_global_box p) (m_images m1) ->
  (forall t, 0 <= t < nt -> exists x, m_d m1 !! Z.to_nat t = Some x /\ (0 <= x)%Q /\ (inject_Z (m_nselect m) * x <= min_plane rsqrt (m_global_box p))%Q) ->
  images_cover (m_global_box p) (m_image_hkl (m_images m1)) R D ->
  (forall s t, 0 <= s < nt -> 0 <= t < nt -> mat s t = true -> ((1 # 2) * getCircumsphereDiameter (par s) + (1 # 2) * getCircumsphereDiameter (par t) <= R)%Q) ->
  (forall t, 0 <= t < nt -> (inject_Z (m_nselect m) * zget 0%Q (m_d m1) t <= D)%Q) ->
  roomy nt par mat (m_global_box p) -> cached nt par cut (set_cached a r m1) -> setting nt par mat cut (zget 0%Q (m_d m1)) N p (set_cached a r m1) R D.
Proof.
  intros C O F Im Dm Co Re Dd Ro Ca. split; try assumption.
  - apply (tables_frame nt par mat cut m); [|apply (io_tables _ _ O)]. apply (frame_trans _ m1); [exact F|now split].
  - apply (cf_particles _ C).
  - intros t Ht. destruct (Dm t Ht) as (x & E & X0 & _). change (m_d (set_cached a r m1)) with (m_d m1). change (m_nselect (set_cached a r m1)) with (m_nselect m1).
    specialize (Dd t Ht). rewrite (zget_lookup _ _ _ _ E) in Dd |- *. rewrite (fr_nselect _ _ F). auto.
  - apply (cf_inside _ C).
Qed.

(** The wrap at the end of the step. *)
Lemma wrap_configuration rsqrt `{!RSqrt rsqrt} p s m1 R D : BoxDim.wf (m_global_box p) -> configuration p -> setting nt par mat cut (zget 0%Q (m_d m1)) N p m1 R D -> 0 < N -> 0 <= m_nselect m1 ->
  (forall t, 0 <= t < nt -> (inject_Z (m_nselect m1) * zget 0%Q (m_d m1) t <= min_plane rsqrt (m_global_box p))%Q) ->
  sweep_ok par mat cut (zget 0%Q (m_d m1)) N p m1 (fun _ => m_nselect m1) s ->
  exists p', wrap_particles (sw_pdata s) = Ret p' /\ configuration p' /\ m_global_box p' = m_global_box p /\ forall j, 0 <= j < N -> typ (element j p') = typ (element j p).
Proof.
  intros W C St HN Hn Dm S. pose proof (sweep_particles _ _ _ _ _ _ _ _ _ _ _ _ St S) as P. destruct (so_frame _ _ _ _ _ _ _ _ _ S) as (l0 & Ef & Ll0).
  destruct (hpmc_wrap_spec nt N (sw_pdata s) P) as (l & -> & Ll & El); [rewrite Ef; apply (cf_N _ C)|lia|]. exists (set_ptl l (sw_pdata s)). split; [reflexivity|].
  assert (Eb : m_global_box (sw_pdata s) = m_global_box p) by now rewrite Ef. rewrite Eb in El. cbv zeta in El.
  assert (Ty : forall j, 0 <= j < N -> typ (element j (set_ptl l (sw_pdata s))) = typ (element j p)) by (intros j Hj; rewrite El by exact Hj; simpl; now apply (so_type _ _ _ _ _ _ _ _ _ S)).
  split; [|split; [exact Eb|exact Ty]]. split.
  - split; [simpl; rewrite Ll; apply (po_length _ _ _ P)|]. intros j Hj. rewrite Ty by exact Hj. now apply (po_type _ _ _ (cf_particles _ C)).
  - rewrite Ef. apply (cf_types _ C).
  - rewrite Ef. apply (cf_N _ C).
  - rewrite Ef. apply (cf_ghosts _ C).
  - intros j Hj. change (m_global_box (set_ptl l (sw_pdata s))) with (m_global_box (sw_pdata s)). rewrite Eb, El by exact Hj. apply (wrap_inside _ W).
    pose proof (po_type _ _ _ (cf_particles _ C) j Hj) as Ht. destruct (st_d _ _ _ _ _ _ _ _ _ _ St _ Ht) as (_ & D0 & _). rewrite Zle_Qle in Hn. change (inject_Z 0) with 0%Q in Hn.
    apply (moved_wraps rsqrt _ W _ (pos (element j p)) (inject_Z (m_nselect m1) * zget 0%Q (m_d m1) (typ (element j p)))); [now apply (cf_inside _ C)|nra|now apply Dm|].
    apply (so_moved _ _ _ _ _ _ _ _ _ S j Hj).
  - change (m_global_box (set_ptl l (sw_pdata s))) with (m_global_box (sw_pdata s)). rewrite Eb. apply (images_overlap_free par mat _ N (sw_pdata s)); [apply (so_free _ _ _ _ _ _ _ _ _ S)| |].
    + intros j Hj. unfold quat_at. rewrite El by exact Hj. now split.
    + intros j Hj. rewrite El by exact Hj. set (w := BoxDim.wrap _ _ _ _). pose proof (wrap_shift (m_global_box p) (pos (element j (sw_pdata s))) (image (element j (sw_pdata s))) BoxDim.no_flags) as Sh. fold w in Sh.
      eexists (make_int3 (i3x (image (element j (sw_pdata s))) - i3x w.2) (i3y (image (element j (sw_pdata s))) - i3y w.2) (i3z (image (element j (sw_pdata s))) - i3z w.2)). cbn [pos e_pos].
      now apply shift_moved.
Qed.

End step.

