(* ===== verification/HPMCMonoExamples.v ===== *)
(** Spheres in small boxes: an instance of the theorem about a step, and a run in
    which the list of images is too short for the moves of two particles. *)

From Stdlib Require Import ZArith Lia QArith Qabs Qreduction Lqa String Bool.
From stdpp Require Import base list list_numbers strings.
From S2P Require Import Prelude HOOMDMath VectorMath Index1D BoxDim AABBTree AABBTreeProps AABBTreeBuild ParticleData PairEvaluators.
From S2P Require Import NeighborListVerlet NeighborListSpec RandomNumbers XenoCollide HPMC HPMCMono HPMCMonoProps HPMCMonoSweep HPMCMonoSpec.
Local Open Scope Z_scope.
Local Open Scope hoomd_scope.

(** * Boxes without tilt *)

(** The images next to the box are enough when it is longer than the distance at
    which shapes meet and the moves of two particles. *)
Lemma cube_cover (b : BoxDim.t) (hkl : list int3) (R D : Q) : (0 <= R)%Q -> (0 <= D)%Q -> BoxDim.wf b -> BoxDim.m_periodic b = BoxDim.make_uchar3 true true true ->
  (BoxDim.m_xy b == 0 /\ BoxDim.m_xz b == 0 /\ BoxDim.m_yz b == 0)%Q ->
  (R + 2 * D <= s3x (BoxDim.m_L b) /\ R + 2 * D <= s3y (BoxDim.m_L b) /\ R + 2 * D <= s3z (BoxDim.m_L b))%Q ->
  (forall n, Z.abs (i3x n) <= 1 -> Z.abs (i3y n) <= 1 -> Z.abs (i3z n) <= 1 -> n ∈ hkl) -> images_cover b hkl R D.
Proof.
  intros HR HD W Pe (Txy & Txz & Tyz) (Lx & Ly & Lz) Near n x y x0 y0 Out Ix Iy Hx Hy. destruct W as ((Wx & Wy & Wz) & (Px & Py & Pz) & _).
  unfold BoxDim.inside, BoxDim.tilt_x, BoxDim.tilt_y in *. rewrite Pe in *. cbn [BoxDim.u3x BoxDim.u3y BoxDim.u3z s3_sub s3x s3y s3z] in *.
  destruct Ix as (Xx & Xy & Xz), Iy as (Yx & Yy & Yz). specialize (Xx eq_refl). specialize (Xy eq_refl). specialize (Xz eq_refl). specialize (Yx eq_refl). specialize (Yy eq_refl). specialize (Yz eq_refl).
  rewrite Txy, Txz, Tyz in *. destruct (norm2_component _ D HD Hx) as (Ax & Ay & Az). destruct (norm2_component _ D HD Hy) as (Bx & By & Bz).
  apply Qabs_Qle_condition in Ax, Ay, Az, Bx, By, Bz. cbn [s3_sub s3x s3y s3z] in *.
  pose proof (shift_components b x n) as Sh. assert (E : s3_sub y (BoxDim.shift b x n) =3= make_scalar3 (s3x y - s3x x - inject_Z (i3x n) * s3x (BoxDim.m_L b)) (s3y y - s3y x - inject_Z (i3y n) * s3y (BoxDim.m_L b)) (s3z y - s3z x - inject_Z (i3z n) * s3z (BoxDim.m_L b))).
  { destruct Sh as (S1 & S2 & S3). repeat split; cbn [s3_sub s3x s3y s3z] in *; [rewrite S1, Txy, Txz|rewrite S2, Tyz|rewrite S3]; ring. }
  rewrite E. clear E Sh. unfold norm2. cbn [s3x s3y s3z].
  assert (K : forall (u len : Q) k, ~ Z.abs k <= 1 -> (R + 2 * D <= len -> - (len + 2 * D) <= u <= len + 2 * D -> R * R <= (u - inject_Z k * len) * (u - inject_Z k * len))%Q).
  { intros u len k Hk Hl Hu. assert (C : k <= -2 \/ 2 <= k) by lia. destruct C as [C|C]; rewrite Zle_Qle in C.
    - change (inject_Z (-2)) with (-(2))%Q in C. assert (U : (R <= u - inject_Z k * len)%Q) by nra. nra.
    - change (inject_Z 2) with 2%Q in C. assert (U : (R <= inject_Z k * len - u)%Q) by nra. nra. }
  set (ux := (s3x y - s3x x)%Q) in *. set (uy := (s3y y - s3y x)%Q) in *. set (uz := (s3z y - s3z x)%Q) in *.
  pose proof (sq_nonneg (ux - inject_Z (i3x n) * s3x (BoxDim.m_L b))). pose proof (sq_nonneg (uy - inject_Z (i3y n) * s3y (BoxDim.m_L b))). pose proof (sq_nonneg (uz - inject_Z (i3z n) * s3z (BoxDim.m_L b))).
  destruct (decide (Z.abs (i3x n) <= 1)) as [Cx|Cx]; [|pose proof (K ux _ _ Cx Lx ltac:(unfold ux; lra)); lra].
  destruct (decide (Z.abs (i3y n) <= 1)) as [Cy|Cy]; [|pose proof (K uy _ _ Cy Ly ltac:(unfold uy; lra)); lra].
  destruct (decide (Z.abs (i3z n) <= 1)) as [Cz|Cz]; [|pose proof (K uz _ _ Cz Lz ltac:(unfold uz; lra)); lra].
  now destruct Out; apply Near.
Qed.

(** * Two spheres *)

(** Rational arithmetic in lowest terms, with roots to eight bits. *)
Definition root8 (x : Q) : Q := Qred (Qmake (Z.sqrt (Qnum x * 2 ^ 16 / Zpos (Qden x))) (2 ^ 8)).

#[local] Instance reduced_ops : RealOps Q := {|
  r0 := 0%Q; r1 := 1%Q; radd := Qplus'; rsub := Qminus'; rmul := Qmult'; ropp := Qopp; rdiv := fun a b => Qred (a / b)%Q; reqb := Qeq_bool; rltb := lt_b;
  VectorMath.rsqrt := root8; rinv_sqrt := fun x => Qred (/ root8 x)%Q; rcos := fun _ => 1%Q; rsin := fun _ => 0%Q
|}.
#[local] Instance reduced_fun : RealFun Q := {| lit := fun q => q; rexp := fun x => x; rlog := fun x => x; rpow := fun x _ => x; rpi := 3%Q |}.

Definition sphere_at (x : Scalar3) (t : Z) : pdata_element :=
  mkElement x 0 BoxDim.zero3 1%Q BoxDim.zero3 0%Q 1%Q zero_i3 NO_BODY (make_scalar4 1 0 0 0) (make_scalar4 0 0 0 0) BoxDim.zero3 t (make_scalar4 0 0 0 0) (make_scalar4 0 0 0 0) [].

Definition two_spheres (len : Scalar) (x y : Scalar3) : pdata :=
  mkPD 2 0 2 2 [sphere_at x 0; sphere_at y 1] [] [] [0; 1] 2 [0; 1] [] [] true ["A"%string] false BoxDim.zero3 zero_i3 (BoxDim.make_array len len len 0 0 0) true 0 [].

(** One type with moves of size 1/2, one sweep per step. *)
Definition spheres (radius : Q) : mono :=
  mkMono [mkSphere radius false false] [1] (Index2D.make_square 1) [(1 # 2)%Q] [(1 # 2)%Q] 32768 1 [] zero_counters zero_counters zero_counters
    (mkImages false [] [] 0 false 0%Q) (mkBVH empty_tree 0 true) [] [] [0%Q] 1%Q 0%Q false (mkInteractions None [] []).

Definition no_depletants (m : mono) (p : pdata) (i : Z) (x : Scalar3) (q : VectorMath.quat Q) (c : hpmc_counters_t) : bool * hpmc_counters_t := (true, c).

(** Random words that do not depend on the generator. *)
Definition halves (c : ctr_type) (k : key_type) : ctr_type := mkCtr (2 ^ 31) 0 0 0.

Definition far_apart : pdata := two_spheres 4 (make_scalar3 (- (1)) 0 0) (make_scalar3 1 0 0).

Definition prepared (m : mono) (r : run mono) : mono := match r with Ret m => m | _ => m end.

Definition far_prepared : mono := Eval vm_compute in prepared (spheres (1 # 2)) (prepare halves Qinv 4 0 0 3 far_apart (spheres (1 # 2))).

(** Random words that move the first sphere by about (0.45, 0.15, 0) and the second
    one by about (-0.4, -0.25, 0). *)
Definition toward (c : ctr_type) (k : key_type) : ctr_type :=
  let word := match ctr3 c, ctr0 c with
              | 0, 1 => 95 | 0, 2 => 65 | 0, 3 => 50
              | 1, 1 => 10 | 1, 2 => 25 | 1, 3 => 50
              | _, _ => 0
              end in
  mkCtr (word * 2 ^ 32 / 100) 0 0 0.

Definition close : pdata := two_spheres 1 (make_scalar3 (45 # 100) 0 0) (make_scalar3 (- (45 # 100)) (40 # 100) 0).
(** ** Their tables *)

Definition one_type (radius : Q) (t : Z) : SphereParams := mkSphere radius false false.
Definition all_interact (s t : Z) : bool := true.
Definition no_cutoff (t : Z) : Scalar := 0%Q.

Lemma spheres_tables r : (0 <= r)%Q -> tables 1 (one_type r) all_interact no_cutoff (spheres r).
Proof.
  intros Hr. split; try reflexivity.
  - intros t Ht. assert (t = 0) as -> by lia. now split.
  - intros s t Hs Ht. assert (s = 0) as -> by lia. assert (t = 0) as -> by lia. exists 1. now split.
  - intros a _ _. exists 0%Q. reflexivity.
Qed.

Lemma spheres_ok r p : (0 <= r)%Q -> integrator_ok 1 (one_type r) all_interact no_cutoff 2 p (spheres r).
Proof. intros Hr. split; [now apply spheres_tables|discriminate|discriminate|reflexivity]. Qed.

(** Squares of whole numbers are zero or at least one. *)
Lemma whole_sq n : n <> 0 -> (1 <= inject_Z n * inject_Z n)%Q.
Proof. intros H. rewrite <- inject_Z_mult. change 1%Q with (inject_Z 1). rewrite <- Zle_Qle. nia. Qed.

Lemma roomy_spheres r len : (0 <= r)%Q -> (r * 2 <= len)%Q -> roomy 1 (one_type r) all_interact (BoxDim.make_array len len len 0 0 0).
Proof.
  intros Hr Hl t n _ Ne _. simpl getCircumsphereDiameter. destruct (shift_components (BoxDim.make_array len len len 0 0 0) BoxDim.zero3 n) as (X & Y & Z). cbn in X, Y, Z. unfold norm2. rewrite X, Y, Z.
  assert (S : (1 <= inject_Z (i3x n) * inject_Z (i3x n) + inject_Z (i3y n) * inject_Z (i3y n) + inject_Z (i3z n) * inject_Z (i3z n))%Q).
  { pose proof (sq_nonneg (inject_Z (i3x n))). pose proof (sq_nonneg (inject_Z (i3y n))). pose proof (sq_nonneg (inject_Z (i3z n))).
    destruct (decide (i3x n = 0)) as [Ex|Ex]; [|pose proof (whole_sq _ Ex); lra]. destruct (decide (i3y n = 0)) as [Ey|Ey]; [|pose proof (whole_sq _ Ey); lra].
    destruct (decide (i3z n = 0)) as [Ez|Ez]; [|pose proof (whole_sq _ Ez); lra]. destruct Ne. destruct n. simpl in *. now subst. }
  set (q := (inject_Z (i3x n) * inject_Z (i3x n) + inject_Z (i3y n) * inject_Z (i3y n) + inject_Z (i3z n) * inject_Z (i3z n))%Q) in *.
  assert (E : (r * 2 * (r * 2) <= len * len * q)%Q) by (assert (len * len * 1 <= len * len * q)%Q by (rewrite !(Qmult_comm (len * len)); apply Qmult_le_compat_r; nra); nra).
  unfold q in E. lra.
Qed.

Lemma two_configuration r len x y : (0 <= r)%Q -> (r * 2 <= len)%Q -> BoxDim.inside (BoxDim.make_array len len len 0 0 0) x -> BoxDim.inside (BoxDim.make_array len len len 0 0 0) y ->
  (forall n, ((r + r) * (r + r) <= norm2 (s3_sub y (BoxDim.shift (BoxDim.make_array len len len 0 0 0) x n)))%Q) -> configuration 1 (one_type r) all_interact 2 (two_spheres len x y).
Proof.
  intros Hr Hl Ix Iy Far. assert (Cases : forall j, 0 <= j < 2 -> j = 0 \/ j = 1) by lia. split; try reflexivity.
  - split; [simpl; lia|]. intros j Hj. destruct (Cases j Hj) as [->| ->]; vm_compute; now split.
  - intros j Hj. destruct (Cases j Hj) as [->| ->]; assumption.
  - intros i j n Hi Hj Ne. pose proof (roomy_spheres r len Hr Hl 0 n ltac:(lia)) as Ro. unfold apart. intros _. simpl in *.
    destruct (Cases i Hi) as [->| ->], (Cases j Hj) as [->| ->].
    + destruct Ne as [Ne|Ne]; [contradiction|]. specialize (Ro Ne eq_refl). rewrite shift_self. unfold norm2, s3_dot, s3_opp in *. cbn [s3x s3y s3z]. lra.
    + apply Far.
    + rewrite shift_opp. specialize (Far (i3_opp n)). unfold norm2, s3_dot, s3_opp in *. cbn [s3x s3y s3z]. simpl in *. lra.
    + destruct Ne as [Ne|Ne]; [contradiction|]. specialize (Ro Ne eq_refl). rewrite shift_self. unfold norm2, s3_dot, s3_opp in *. cbn [s3x s3y s3z]. lra.
Qed.

(** * A step that keeps the spheres apart *)

Lemma far_configuration : configuration 1 (one_type (1 # 2)) all_interact 2 far_apart.
Proof.
  apply two_configuration; [lra|lra|vm_compute; repeat split; discriminate..|].
  intros n. destruct (shift_components (BoxDim.make_array 4 4 4 0 0 0) (make_scalar3 (- (1)) 0 0) n) as (X & Y & Z). cbn in X, Y, Z. unfold norm2, s3_sub. cbn [s3x s3y s3z].
  rewrite X, Y, Z. pose proof (whole_sq (1 - 2 * i3x n) ltac:(lia)) as S. unfold Z.sub in S. rewrite inject_Z_plus, inject_Z_opp, inject_Z_mult in S. change (inject_Z 1) with 1%Q in S. change (inject_Z 2) with 2%Q in S.
  set (u := inject_Z (i3x n)) in *. set (v := inject_Z (i3y n)) in *. set (w := inject_Z (i3z n)) in *. pose proof (sq_nonneg v). pose proof (sq_nonneg w). lra.
Qed.

(** A list that holds the box and its neighbours. *)
Lemma near_images (hkl : list int3) : forallb (fun n => bool_decide (n ∈ hkl)) (shell 3 0 ++ shell 3 1) = true ->
  forall n, Z.abs (i3x n) <= 1 -> Z.abs (i3y n) <= 1 -> Z.abs (i3z n) <= 1 -> n ∈ hkl.
Proof.
  intros F [a b c]. cbn [i3x i3y i3z]. intros Ha Hb Hc. rewrite forallb_forall in F. eapply bool_decide_eq_true_1, F.
  assert (C : forall k, Z.abs k <= 1 -> k = -1 \/ k = 0 \/ k = 1) by lia.
  destruct (C a Ha) as [->|[->| ->]], (C b Hb) as [->|[->| ->]], (C c Hc) as [->|[->| ->]]; vm_compute; tauto.
Qed.

(** Its cover of the moves in a cube. *)
Lemma cubic_cover len (hkl : list int3) R D : (0 <= R)%Q -> (0 <= D)%Q -> (0 < len)%Q -> (R + 2 * D <= len)%Q -> forallb (fun n => bool_decide (n ∈ hkl)) (shell 3 0 ++ shell 3 1) = true ->
  images_cover (BoxDim.make_array len len len 0 0 0) hkl R D.
Proof.
  intros HR HD Hl Hd F. apply cube_cover; [exact HR|exact HD|now apply make_array_wf|reflexivity|repeat split; reflexivity| |now apply near_images].
  cbn. repeat split; lra.
Qed.

Lemma halves_uniform a b g : exists g', Uniform halves a b g = ((Uniform halves a b (new_generator (mkKey 0 0) (mkCtr 0 0 0 0))).1, g').
Proof. eexists. reflexivity. Qed.

Lemma halves_end : draws_end halves 1 (zget 0%Q (m_d far_prepared)) 4.
Proof.
  split.
  - intros t g Ht. assert (t = 0) as -> by lia. change (zget 0%Q (m_d far_prepared) 0) with (1 # 2)%Q. cbn [translate_loop].
    destruct (halves_uniform (- (1 # 2)) (1 # 2) g) as [g1 ->]. destruct (halves_uniform (- (1 # 2)) (1 # 2) g1) as [g2 ->]. change (negb (3 =? 2)) with true. cbv iota. destruct (halves_uniform (- (1 # 2)) (1 # 2) g2) as [g3 ->].
    destruct (lt_b _ _) eqn:E; [vm_compute in E; discriminate|]. eauto.
  - intros nonzero g. cbn [pair_loop]. destruct (halves_uniform (- (1)) 1 g) as [g1 ->]. destruct (halves_uniform (- (1)) 1 g1) as [g2 ->].
    destruct (ge_b _ 1 || _) eqn:E; [destruct nonzero; vm_compute in E; discriminate|]. eauto.
Qed.


(** * A list of images that is too short *)

Lemma close_configuration : configuration 1 (one_type (15 # 100)) all_interact 2 close.
Proof.
  apply two_configuration; [lra|lra|vm_compute; repeat split; discriminate..|].
  intros n. destruct (shift_components (BoxDim.make_array 1 1 1 0 0 0) (make_scalar3 (45 # 100) 0 0) n) as (X & Y & Z). cbn in X, Y, Z. unfold norm2, s3_sub. cbn [s3x s3y s3z].
  rewrite X, Y, Z. assert (S : (16 <= (4 - 10 * inject_Z (i3y n)) * (4 - 10 * inject_Z (i3y n)))%Q).
  { change 4%Q with (inject_Z 4). change 10%Q with (inject_Z 10). change 16%Q with (inject_Z 16). unfold Qminus. rewrite <- inject_Z_mult, <- inject_Z_opp, <- inject_Z_plus, <- inject_Z_mult, <- Zle_Qle. assert (C : i3y n <= 0 \/ 1 <= i3y n) by lia. destruct C; nia. }
  set (u := inject_Z (i3x n)) in *. set (v := inject_Z (i3y n)) in *. set (w := inject_Z (i3z n)) in *.
  pose proof (sq_nonneg (- (45 # 100) - ((45 # 100) + u * 1 + v * 0 + w * 0))). pose proof (sq_nonneg w). nra.
Qed.

(** The list of images covers the moves of one particle of a pair. Two spheres in
    a box that is larger than both and their moves: every move is within the limit
    of [limitMoveDistances], the configuration is free of overlaps, both moves are
    accepted, and the spheres overlap after the step: they meet in an image that
    is not on the list. *)
Theorem images_too_short : configuration 1 (one_type (15 # 100)) all_interact 2 close /\
  exists p' m', update toward Qinv (fun _ => 1%Q) None no_depletants inject_Z 4 4 0 0 3 close (spheres (15 # 100)) = Ret (p', m') /\
    getTranslateCounts (m_count_total m') = (2, 0) /\ ~ configuration 1 (one_type (15 # 100)) all_interact 2 p'.
Proof.
  split; [exact close_configuration|].
  assert (V : match update toward Qinv (fun _ => 1%Q) None no_depletants inject_Z 4 4 0 0 3 close (spheres (15 # 100)) with Ret (p, m) => (getTranslateCounts (m_count_total m), lt_b (s3_dot (s3_sub (pos (element 1 p)) (pos (element 0 p))) (s3_sub (pos (element 1 p)) (pos (element 0 p)))) (9 # 100)) | _ => (0, 0, false) end = (2, 0, true))
    by (vm_compute; reflexivity).
  destruct (update toward Qinv _ _ _ _ _ _ _ _ _ _ _) as [[p' m']| |]; [|discriminate..]. injection V as V1 V2 V3. exists p', m'. split; [reflexivity|]. split; [unfold getTranslateCounts; congruence|].
  intros C. apply lt_b_spec in V3. pose proof (cf_free _ _ _ _ _ C 0 1 zero_i3 ltac:(lia) ltac:(lia) ltac:(left; lia) eq_refl) as F. simpl in F.
  destruct (shift_components (m_global_box p') (pos (element 0 p')) zero_i3) as (X & Y & Z). cbn [i3x i3y i3z zero_i3] in X, Y, Z. change (inject_Z 0) with 0%Q in X, Y, Z.
  unfold s3_dot, s3_sub in *. cbn [s3x s3y s3z] in *. rewrite X, Y, Z in F. cbn [s3x s3y s3z] in F. lra.
Qed.
