(* ===== verification/HPMCMonoCount.v ===== *)
(** Counting overlaps and attempts at a new box: a configuration in which
    [countOverlaps] finds nothing is free of overlaps, in every pair of images, and
    an allowed change of the box leads to such a configuration. *)

From Stdlib Require Import ZArith Lia QArith Lqa Qabs String Bool.
From stdpp Require Import base list list_numbers strings.
From S2P Require Import Prelude HOOMDMath VectorMath Index1D BoxDim AABBTree AABBTreeProps AABBTreeBuild ParticleData PairEvaluators.
From S2P Require Import NeighborListVerlet NeighborListSpec RandomNumbers XenoCollide HPMC HPMCMono HPMCMonoProps HPMCMonoSweep HPMCMonoSpec HPMCMonoExamples.
Local Open Scope Z_scope.
Local Open Scope hoomd_scope.

Section counting.
Context `{L : ShapeLaws}.
Context (nt : Z) (par : Z -> param_type) (mat : Z -> Z -> bool) (cut : Z -> Scalar) (N : Z).
Implicit Types (m : mono) (p : pdata).

(** The query box of [countOverlaps] against the boxes of the tree. *)
Lemma outside_box m x y qa qb s t : tables nt par mat cut m -> 0 <= s < nt -> 0 <= t < nt ->
  overlaps (translate x (getAABB qa (par s) BoxDim.zero3)) (tree_box par cut m qb t y) = false -> disjoint (s3_sub y x) qa (par s) qb (par t).
Proof.
  intros T Hs Ht O. destruct (tb_par _ _ _ _ _ T s Hs) as [_ Gs]. destruct (tb_par _ _ _ _ _ T t Ht) as [_ Gt]. unfold tree_box in O.
  destruct (negb _); [now apply boxes_sound|]. eapply box_sphere_sound; [exact Gs|exact Gt| |exact O]. apply std_max_spec.
Qed.

(** The overlap test of particle [i], displaced by [v], and particle [j] says yes. *)
Definition hits (p : pdata) (i j : Z) (v : Scalar3) : Prop := mat (typ (element i p)) (typ (element j p)) = true /\
  exists err, fst (test_overlap (s3_sub (pos (element j p)) (s3_add (pos (element i p)) v)) (quat_at i p) (par (typ (element i p))) (quat_at j p) (par (typ (element j p))) err) = true.

(** What a pass over the particles [j] in the image [v] with index [k] shows. *)
Definition passes (p : pdata) (i k : Z) (v : Scalar3) (j : Z) : Prop :=
  k = 0 /\ i = j \/ tag (element j p) < tag (element i p) \/ apart par mat p (typ (element i p)) (quat_at i p) (s3_add (pos (element i p)) v) j.

Lemma counted_pair m p i k v j err : tables nt par mat cut m -> particles_ok nt N p -> 0 <= i < N -> 0 <= j < N ->
  exists hit err' t, counted p m true i (element i p) (par (typ (element i p))) k (s3_add (pos (element i p)) v) j err = Ret (hit, err', t) /\
    if hit : bool then hits p i j v else passes p i k v j.
Proof.
  intros T P Hi Hj. unfold counted, passes, hits. destruct ((k =? 0) && (i =? j)) eqn:Ek.
  { eexists _, _, _. split; [reflexivity|]. zbool. auto. }
  pose proof (po_type _ _ _ P i Hi) as Ti. pose proof (po_type _ _ _ P j Hj) as Tj.
  rewrite (read_element nt N p j P Hj). cbn [run_bind]. destruct (tb_par _ _ _ _ _ T _ Ti) as [_ Gi]. destruct (tb_par _ _ _ _ _ T _ Tj) as [-> % (read_Some _ _ _) Gj]. cbn [run_bind].
  destruct (tb_mat _ _ _ _ _ T _ _ Ti Tj) as (o & -> % (read_Some _ _ _) & Eo). cbn [run_bind]. rewrite Eo.
  set (r := s3_sub (pos (element j p)) (s3_add (pos (element i p)) v)). fold (quat_at i p) (quat_at j p). unfold apart. fold r.
  destruct (Z.leb_spec (tag (element i p)) (tag (element j p))); cbn [andb]; [|eexists _, _, _; split; [reflexivity|right; left; lia]].
  destruct (mat (typ (element i p)) (typ (element j p))) eqn:M; cbn [andb]; [|eexists _, _, _; split; [reflexivity|]; right; right; discriminate].
  destruct (check_circumsphere_overlap _ _ _) eqn:Ci.
  - destruct (test_overlap r _ _ _ _ err) as [h1 e1] eqn:T1. destruct h1.
    + destruct (test_overlap (s3_opp r) _ _ _ _ e1) as [h2 e2] eqn:T2. eexists _, _, _. split; [reflexivity|]. destruct h2.
      * split; [reflexivity|]. exists err. now rewrite T1.
      * right. right. intros _. assert (D : disjoint (s3_opp r) (quat_at j p) (par (typ (element j p))) (quat_at i p) (par (typ (element i p)))) by (apply (test_sound _ _ _ _ _ e1); [assumption..|now rewrite T2]).
        apply disjoint_sym in D. eapply disjoint_proper; [|exact D]. unfold s3_opp. repeat split; cbn [s3x s3y s3z]; ring.
    + eexists _, _, _. split; [reflexivity|]. right. right. intros _. apply (test_sound _ _ _ _ _ err); [assumption..|now rewrite T1].
  - eexists _, _, _. split; [reflexivity|]. right. right. intros _. apply far_disjoint; [assumption..|]. unfold check_circumsphere_overlap in Ci.
    apply not_true_iff_false in Ci. rewrite Qle_bool_iff in Ci. apply Qnot_le_lt in Ci. fold r in Ci. lra.
Qed.

(** All images and particles against particle [i]. *)
Definition passed (p : pdata) (m : mono) (i : Z) : Prop := forall idx v j, m_image_list (m_images m) !! idx = Some v -> 0 <= j < N -> passes p i (Z.of_nat idx) v j.

Definition some_hit (p : pdata) (m : mono) : Prop := exists i j v, 0 <= i < N /\ 0 <= j < N /\ v ∈ m_image_list (m_images m) /\ hits p i j v.

Lemma count_loop_spec m p count : tables nt par mat cut m -> particles_ok nt N p -> tree_of par cut N m p -> forall i err, 0 <= i -> i + Z.of_nat count = N ->
  exists n err', count_loop p m true count i (0, err) = Ret (n, err') /\ (n = 0 /\ (forall i', i <= i' < N -> passed p m i') \/ n = 1 /\ some_hit p m).
Proof.
  intros T P (bx & Tr & Bx). induction count as [|count IH]; intros i err Hi HN; cbn [count_loop].
  { eexists _, _. split; [reflexivity|]. left. split; [reflexivity|lia]. }
  rewrite (read_element nt N p i P) by lia. cbn [run_bind]. pose proof (po_type _ _ _ P i ltac:(lia)) as Ti. destruct (tb_par _ _ _ _ _ T _ Ti) as [-> % (read_Some _ _ _) Gi]. cbn [run_bind].
  match goal with |- context [each_image _ ?lc ?x 0 ?l ?B _] => destruct (image_rule N bx _ lc x (fun s : Z * Z => s.1 = 0) (fun s => s.1 = 1 /\ some_hit p m) (passes p i) B l Tr 0 (0, err) eq_refl) as ([n err'] & stop & -> & Rl) end.
  { intros idx v j [n e] Hv Hj Hn. simpl in Hn. subst n. destruct (counted_pair m p i (0 + Z.of_nat idx) v j e T P ltac:(lia) Hj) as (hit & e' & t & -> & C). cbn [run_bind].
    eexists _, _. split; [reflexivity|]. destruct hit; cbn [andb].
    - split; [reflexivity|]. exists i, j, v. split_and!; try lia; [now apply list_elem_of_lookup_2 in Hv|exact C].
    - now split. }
  cbn [run_bind fst]. cbn [fst] in Rl. destruct stop.
  { destruct Rl as [-> Hit]. eexists _, _. split; [reflexivity|]. auto. }
  destruct Rl as [-> Ps]. simpl negb. cbv iota. destruct (IH (i + 1) err' ltac:(lia) ltac:(lia)) as (n & e & -> & C). eexists _, _. split; [reflexivity|].
  destruct C as [[-> C]|C]; [left|right; exact C]. split; [reflexivity|]. intros i' Hi'. destruct (decide (i' = i)) as [->|Ne]; [|apply C; lia].
  intros idx v j Hv Hj. destruct (overlaps (translate (s3_add (pos (element i p)) v) (getAABB (quat_of (orientation (element i p))) (par (typ (element i p))) BoxDim.zero3)) (bx j)) eqn:O; [now apply (Ps idx v j)|].
  right. right. intros M. rewrite Bx in O by exact Hj. now apply (outside_box m _ _ _ _ _ _ T Ti (po_type _ _ _ P j Hj)).
Qed.

Lemma refresh_spec `{RealOps Q} `{RealFun Q} image_fuel p m m1 : 0 <= nt -> tables nt par mat cut m -> particles_ok nt N p -> getNTypes p = nt -> 0 < N <= 2 ^ 29 -> getN p = N -> m_nghosts p = 0 ->
  tree_fresh par cut N p m -> images_ok (m_global_box p) m -> refresh image_fuel 3 p m = Ret m1 ->
  frame m m1 /\ tree_of par cut N m1 p /\ images_of (m_global_box p) (m_images m1).
Proof.
  intros Hnt T P En HN EN Gh Fr Io. unfold refresh. destruct (buildAABBTree_spec nt par mat cut Hnt N p m T P En HN EN Gh Fr) as (m2 & -> & F & Tr & Im & _). cbn [run_bind]. intros E.
  destruct (updateImageList_spec image_fuel p m2 m1) as (F' & B & _ & _ & I'); [unfold images_ok; rewrite Im; exact Io|exact E|].
  split; [now apply (frame_trans _ m2)|]. split; [|exact I']. apply (tree_frame par cut N m2); [exact F'|now rewrite B|exact Tr].
Qed.

(** Pairs that pass in the listed images are apart in all images. *)
Lemma passed_free p m R : tables nt par mat cut m -> particles_ok nt N p -> images_of (m_global_box p) (m_images m) ->
  images_cover (m_global_box p) (m_image_hkl (m_images m)) R 0 -> (forall j, 0 <= j < N -> BoxDim.inside (m_global_box p) (pos (element j p))) ->
  (forall s t, 0 <= s < nt -> 0 <= t < nt -> mat s t = true -> ((1 # 2) * getCircumsphereDiameter (par s) + (1 # 2) * getCircumsphereDiameter (par t) <= R)%Q) ->
  (forall i, 0 <= i < N -> passed p m i) -> overlap_free par mat (m_global_box p) N p.
Proof.
  intros T P [Iv I0] Co Ins Re Ps. set (b := m_global_box p) in *.
  assert (Far : forall i j n, 0 <= i < N -> 0 <= j < N -> n ∉ m_image_hkl (m_images m) -> apart par mat p (typ (element i p)) (quat_at i p) (BoxDim.shift b (pos (element i p)) n) j).
  { intros i j n Hi Hj Out M. pose proof (po_type _ _ _ P i Hi) as Ti. pose proof (po_type _ _ _ P j Hj) as Tj. destruct (tb_par _ _ _ _ _ T _ Ti) as [_ Gi]. destruct (tb_par _ _ _ _ _ T _ Tj) as [_ Gj].
    assert (Z0 : forall x, (norm2 (s3_sub x x) <= 0 * 0)%Q) by (intros x; unfold norm2, s3_sub; cbn [s3x s3y s3z]; lra).
    pose proof (Co n _ _ _ _ Out (Ins i Hi) (Ins j Hj) (Z0 _) (Z0 _)) as C. pose proof (Re _ _ Ti Tj M). pose proof (circumsphere_nonneg _ Gi). pose proof (circumsphere_nonneg _ Gj).
    apply far_disjoint; [assumption..|]. unfold norm2 in C. unfold s3_dot. nra. }
  assert (Near : forall i j n, 0 <= i < N -> 0 <= j < N -> i <> j \/ n <> zero_i3 -> tag (element i p) <= tag (element j p) -> apart par mat p (typ (element i p)) (quat_at i p) (BoxDim.shift b (pos (element i p)) n) j).
  { intros i j n Hi Hj Ne Tg. destruct (decide (n ∈ m_image_hkl (m_images m))) as [[idx Hn]%list_elem_of_lookup_1|Out]; [|now apply Far].
    assert (Hv : m_image_list (m_images m) !! idx = Some (image_vector (BoxDim.getLatticeVector b 0) (BoxDim.getLatticeVector b 1) (BoxDim.getLatticeVector b 2) n)) by (rewrite Iv, list_lookup_fmap, Hn; reflexivity).
    destruct (Ps i Hi idx _ j Hv Hj) as [[E0 Eij]|[Lt|A]]; [|lia|].
    - assert (idx = 0%nat) as -> by lia. apply I0 in Hn. destruct Ne; contradiction.
    - intros M. eapply disjoint_proper; [|apply (A M)]. apply s3_sub_proper; [reflexivity|apply image_shift]. }
  intros i j n Hi Hj Ne. destruct (Z.le_gt_cases (tag (element i p)) (tag (element j p))) as [Le|Gt]; [now apply Near|].
  intros M. rewrite (tb_sym _ _ _ _ _ T) in M. apply (disjoint_proper _ _ _ _ _ _ (symmetry (shift_opp _ _ _ _))). apply disjoint_sym. apply Near; try assumption; [|lia].
  destruct Ne as [Ne|Ne]; [auto|]. right. intros E. apply Ne. destruct n as [nx ny nz]. unfold i3_opp in E. cbn [i3x i3y i3z] in E. injection E as E1 E2 E3. unfold zero_i3. f_equal; lia.
Qed.

(** [countOverlaps(true)] finds an overlap or shows that there is none. *)
Lemma countOverlaps_spec `{RealOps Q} `{RealFun Q} image_fuel p m m1 R : 0 <= nt -> tables nt par mat cut m -> particles_ok nt N p -> getNTypes p = nt -> 0 < N <= 2 ^ 29 -> getN p = N -> m_nghosts p = 0 ->
  tree_fresh par cut N p m -> images_ok (m_global_box p) m -> refresh image_fuel 3 p m = Ret m1 ->
  images_cover (m_global_box p) (m_image_hkl (m_images m1)) R 0 -> (forall j, 0 <= j < N -> BoxDim.inside (m_global_box p) (pos (element j p))) ->
  (forall s t, 0 <= s < nt -> 0 <= t < nt -> mat s t = true -> ((1 # 2) * getCircumsphereDiameter (par s) + (1 # 2) * getCircumsphereDiameter (par t) <= R)%Q) ->
  exists n, countOverlaps image_fuel 3 true p m = Ret (n, m1) /\ (n = 0 /\ configuration nt par mat N p \/ n = 1 /\ some_hit p m1).
Proof.
  intros Hnt T P En HN EN Gh Fr Io E Co Ins Re. destruct (refresh_spec image_fuel p m m1 Hnt T P En HN EN Gh Fr Io E) as (F & Tr & Im). unfold countOverlaps. rewrite E. cbn [run_bind]. rewrite EN.
  pose proof (tables_frame _ _ _ _ _ _ F T) as T1. destruct (count_loop_spec m1 p (Z.to_nat N) T1 P Tr 0 0 ltac:(lia) ltac:(lia)) as (n & err & -> & C). exists n. split; [reflexivity|].
  destruct C as [[-> C]|C]; [left|right; exact C]. split; [reflexivity|]. split; try assumption. apply (passed_free p m1 R); assumption.
Qed.

End counting.

(** * Scaling to a new box *)

(** The members of the particle data that scaling keeps. *)
Record scaled (rsqrt : Scalar -> Scalar) (new_box : BoxDim.t) (N : Z) (p p' : pdata) : Prop := {
  sc_box : m_global_box p' = new_box;
  sc_length : length (m_ptl p') = length (m_ptl p);
  sc_N : getN p' = getN p;
  sc_types : getNTypes p' = getNTypes p;
  sc_ghosts : m_nghosts p' = m_nghosts p;
  sc_origin : (m_origin p', m_o_image p') =
    BoxDim.wrap new_box (s3_add (m_origin p) (s3_sub (BoxDim.makeCoordinates new_box (BoxDim.makeFraction rsqrt (m_global_box p) (m_origin p) BoxDim.zero3)) (m_origin p))) (m_o_image p) BoxDim.no_flags;
  sc_element : forall j, 0 <= j < N ->
    element j p' = e_pos (BoxDim.makeCoordinates new_box (BoxDim.makeFraction rsqrt (m_global_box p) (pos (element j p)) BoxDim.zero3)) (image (element j p)) (element j p)
}.

Lemma scale_to_spec rsqrt new_box nt N p : particles_ok nt N p -> getN p = N -> 0 <= N -> exists p', scale_to rsqrt new_box p = Ret p' /\ scaled rsqrt new_box N p p'.
Proof.
  intros P EN HN. unfold scale_to. rewrite EN.
  destruct (for_each_element (fun e => e_pos (BoxDim.makeCoordinates new_box (BoxDim.makeFraction rsqrt (m_global_box p) (pos e) BoxDim.zero3)) (image e) e) (m_ptl p) N) as (l & E & Ll & El).
  { pose proof (po_length _ _ _ P). lia. }
  rewrite E. cbn [run_bind]. eexists. split; [reflexivity|]. unfold translateOrigin. cbn [m_global_box m_origin m_o_image setGlobalBox set_global_box set_ptl emit].
  destruct (BoxDim.wrap _ _ _ _) as [o oi] eqn:Eo. split; try reflexivity; [exact Ll|symmetry; exact Eo|]. intros j Hj. exact (El j Hj).
Qed.

(** A point inside of the box goes to a point inside of the new box. *)
Lemma scaled_inside rsqrt old_box new_box x : BoxDim.wf old_box -> BoxDim.centred old_box -> BoxDim.wf new_box -> BoxDim.centred new_box -> BoxDim.m_periodic new_box = BoxDim.m_periodic old_box ->
  BoxDim.inside old_box x -> BoxDim.inside new_box (BoxDim.makeCoordinates new_box (BoxDim.makeFraction rsqrt old_box x BoxDim.zero3)).
Proof.
  intros W C W' C' Pe (Ix & Iy & Iz). destruct (fraction_offsets rsqrt old_box W x C) as (Ex & Ey & Ez). set (f := BoxDim.makeFraction rsqrt old_box x BoxDim.zero3) in *.
  destruct W as ((Lx & Ly & Lz) & (Px & Py & Pz) & _). cbn [s3_sub s3x s3y s3z] in Lx, Ly, Lz. destruct (makeFraction_makeCoordinates rsqrt new_box W' f) as (Fx & Fy & Fz).
  apply (fraction_inside rsqrt new_box W' _ C'); rewrite Pe; intros Q; [specialize (Ix Q)|specialize (Iy Q)|specialize (Iz Q)]; [rewrite Fx|rewrite Fy|rewrite Fz]; split; nra.
Qed.


Definition far_counted : mono := Eval vm_compute in prepared (spheres (1 # 2)) (@refresh _ reduced_ops reduced_fun 4 3 far_apart (spheres (1 # 2))).


Lemma no_depletants_pass `{Shape} nt m : (forall t, 0 <= t < nt -> exists f, m_fugacity m !! Z.to_nat t = Some f /\ (f == 0)%Q) ->
  for_run (Z.to_nat nt) 0 (fun ptype u => bind! f := read (m_fugacity m) ptype in
    if negb (Qeq_bool f 0) then Raise (runtime_error "Implicit depletants not supported with NPT ensemble") else Ret u) tt = Ret tt.
Proof.
  intros Nd. match goal with |- for_run _ _ ?B _ = _ => destruct (for_run_inv (fun _ _ => True) (Z.to_nat nt) 0 B tt I) as ([] & E & _) end; [|exact E].
  intros t [] Ht _. destruct (Nd t ltac:(lia)) as (f & -> % (read_Some _ _ _) & F). cbn [run_bind]. apply Qeq_bool_iff in F. rewrite F. exists tt. now split.
Qed.

(** [attemptBoxResize] from a configuration to a well-formed box centred on the
    origin, without depletants: every particle keeps its fractional coordinates, and
    an allowed move leads to a configuration. *)
Lemma attempt_spec `{L : ShapeLaws} `{RealOps Q} `{RealFun Q} (rsqrt : Scalar -> Scalar) (nt : Z) (par : Z -> param_type) (mat : Z -> Z -> bool) (cut : Z -> Scalar) (N : Z) (image_fuel : nat)
    (new_box : BoxDim.t) (p p2 : pdata) (m m3 : mono) (R : Q) (HN : 0 < N <= 2 ^ 29) (C : configuration nt par mat N p) (O : integrator_ok nt par mat cut N p m)
    (Cap : 0 <= m_node_capacity (m_aabb_tree (m_bvh m)) <= 2 ^ 31)
    (W : BoxDim.wf (m_global_box p)) (Cen : BoxDim.centred (m_global_box p)) (W' : BoxDim.wf new_box) (Cen' : BoxDim.centred new_box) (Pe : BoxDim.m_periodic new_box = BoxDim.m_periodic (m_global_box p))
    (Sc : scale_to rsqrt new_box p = Ret p2) (Pre : refresh image_fuel 3 p2 (slotBoxChanged m) = Ret m3) (Cover : images_cover new_box (m_image_hkl (m_images m3)) R 0)
    (Reach : forall s t, 0 <= s < nt -> 0 <= t < nt -> mat s t = true -> ((1 # 2) * getCircumsphereDiameter (par s) + (1 # 2) * getCircumsphereDiameter (par t) <= R)%Q)
    (NoDepletants : forall t, 0 <= t < nt -> exists f, m_fugacity m !! Z.to_nat t = Some f /\ (f == 0)%Q) :
  exists ok, attemptBoxResize rsqrt image_fuel 3 new_box p m = Ret (ok, p2, m3) /\ m_global_box p2 = new_box /\ frame m m3 /\ particles_ok nt N p2 /\ getN p2 = N /\
    (forall j, 0 <= j < N -> BoxDim.makeFraction rsqrt new_box (pos (element j p2)) BoxDim.zero3 =3= BoxDim.makeFraction rsqrt (m_global_box p) (pos (element j p)) BoxDim.zero3 /\
       BoxDim.inside new_box (pos (element j p2))) /\
    if ok then configuration nt par mat N p2 /\ integrator_ok nt par mat cut N p2 m3 else some_hit par mat N p2 m3.
Proof.
  assert (Hnt : 0 <= nt) by (rewrite <- (cf_types _ _ _ _ _ C); unfold getNTypes; lia).
  destruct (scale_to_spec rsqrt new_box nt N p (cf_particles _ _ _ _ _ C) (cf_N _ _ _ _ _ C) ltac:(lia)) as (p2' & E & [Sb Sl SN St Sg _ Se]). rewrite E in Sc. injection Sc as ->.
  assert (Ins : forall j, 0 <= j < N -> BoxDim.inside new_box (pos (element j p2))) by (intros j Hj; rewrite Se by exact Hj; apply scaled_inside; try assumption; now apply (cf_inside _ _ _ _ _ C)).
  assert (P2 : particles_ok nt N p2).
  { split; [rewrite Sl; apply (po_length _ _ _ (cf_particles _ _ _ _ _ C))|]. intros j Hj. rewrite Se by exact Hj. now apply (po_type _ _ _ (cf_particles _ _ _ _ _ C)). }
  assert (F : frame m (slotBoxChanged m)) by now split. pose proof (tables_frame _ _ _ _ _ _ F (io_tables _ _ _ _ _ _ _ O)) as T.
  rewrite (cf_types _ _ _ _ _ C) in St. rewrite (cf_N _ _ _ _ _ C) in SN. rewrite (cf_ghosts _ _ _ _ _ C) in Sg.
  assert (Tf : tree_fresh par cut N p2 (slotBoxChanged m)) by (split; [discriminate|exact Cap]). assert (Io : images_ok (m_global_box p2) (slotBoxChanged m)) by discriminate.
  rewrite <- Sb in Cover, Ins. destruct (refresh_spec nt par mat cut N image_fuel p2 _ m3 Hnt T P2 St HN SN Sg Tf Io Pre) as (F3 & Tr3 & Im3).
  destruct (countOverlaps_spec nt par mat cut N image_fuel p2 (slotBoxChanged m) m3 R Hnt T P2 St HN SN Sg Tf Io Pre Cover Ins Reach) as (n & Ec & Cn).
  exists (n =? 0). unfold attemptBoxResize, IntegratorHPMC_attemptBoxResize. rewrite E. cbn [run_bind]. rewrite Ec. cbn [run_bind]. rewrite St.
  rewrite <- (fr_fugacity _ _ F), <- (fr_fugacity _ _ F3) in NoDepletants. rewrite (no_depletants_pass nt m3 NoDepletants). split; [now destruct (n =? 0)|]. split; [exact Sb|].
  split; [now apply (frame_trans _ (slotBoxChanged m))|]. split; [exact P2|]. split; [exact SN|]. rewrite Sb in Ins. split.
  - intros j Hj. split; [|now apply Ins]. rewrite Se by exact Hj. apply (makeFraction_makeCoordinates rsqrt new_box W').
  - destruct Cn as [[-> C2]|[-> Hit]]; [|exact Hit]. split; [exact C2|]. split; [exact (tables_frame _ _ _ _ _ _ F3 T)|intros _; exact Tr3|intros _; exact Im3|].
    rewrite (fr_nselect _ _ F3). apply (io_nselect _ _ _ _ _ _ _ O).
Qed.
