(* ===== verification/UpdaterBoxMC.v ===== *)
(** Monte Carlo moves of the box ([hoomd/hpmc/UpdaterBoxMC.h],
    [hoomd/hpmc/UpdaterBoxMC.cc] and the counters in
    [hoomd/hpmc/HPMCCounters.h]).

    The updater drives one integrator. Every change of the global box emits the
    signal that invalidates the list of images and the tree of the integrator. The
    pressure is a function of the timestep; the energy difference of a legacy
    external field is an argument. Notices and warnings are left out. The loop that
    removes shear has fuel. *)

From Stdlib Require Import ZArith Lia QArith Qabs String Bool.
From stdpp Require Import base list list_numbers strings.
From S2P Require Import Prelude HOOMDMath VectorMath Index1D BoxDim AABBTree ParticleData PairEvaluators RandomNumbers HPMC HPMCMono.
Local Open Scope Z_scope.
Local Open Scope hoomd_scope.

(** * Counters *)

Record hpmc_boxmc_counters_t := mkBoxCounters {
  volume_accept_count : Z;
  volume_reject_count : Z;
  ln_volume_accept_count : Z;
  ln_volume_reject_count : Z;
  shear_accept_count : Z;
  shear_reject_count : Z;
  aspect_accept_count : Z;
  aspect_reject_count : Z
}.

Definition zero_box_counters : hpmc_boxmc_counters_t := mkBoxCounters 0 0 0 0 0 0 0 0.

(** The fraction of accepted moves, or zero without moves. *)
Definition acceptance (accept reject : Z) : Q :=
  if u64 (reject + accept) =? 0 then 0%Q else (inject_Z accept / inject_Z (u64 (reject + accept)))%Q.

Definition getVolumeAcceptance (c : hpmc_boxmc_counters_t) : Q := acceptance (volume_accept_count c) (volume_reject_count c).
Definition getLogVolumeAcceptance (c : hpmc_boxmc_counters_t) : Q := acceptance (ln_volume_accept_count c) (ln_volume_reject_count c).
Definition getShearAcceptance (c : hpmc_boxmc_counters_t) : Q := acceptance (shear_accept_count c) (shear_reject_count c).
Definition getAspectAcceptance (c : hpmc_boxmc_counters_t) : Q := acceptance (aspect_accept_count c) (aspect_reject_count c).

Definition box_NMoves (c : hpmc_boxmc_counters_t) : Z :=
  u64 (ln_volume_accept_count c + ln_volume_reject_count c + volume_accept_count c + volume_reject_count c
       + shear_accept_count c + shear_reject_count c + aspect_accept_count c + aspect_reject_count c).

Definition box_counters_sub (a b : hpmc_boxmc_counters_t) : hpmc_boxmc_counters_t :=
  mkBoxCounters (u64 (volume_accept_count a - volume_accept_count b)) (u64 (volume_reject_count a - volume_reject_count b))
                (u64 (ln_volume_accept_count a - ln_volume_accept_count b)) (u64 (ln_volume_reject_count a - ln_volume_reject_count b))
                (u64 (shear_accept_count a - shear_accept_count b)) (u64 (shear_reject_count a - shear_reject_count b))
                (u64 (aspect_accept_count a - aspect_accept_count b)) (u64 (aspect_reject_count a - aspect_reject_count b)).

(** The counters that a move increments. *)
Inductive box_move := move_volume | move_ln_volume | move_shear | move_aspect.

Definition count_box_move (k : box_move) (accept : bool) (c : hpmc_boxmc_counters_t) : hpmc_boxmc_counters_t :=
  let a := if accept then 1 else 0 in
  let r := 1 - a in
  match k with
  | move_volume => mkBoxCounters (u64 (volume_accept_count c + a)) (u64 (volume_reject_count c + r)) (ln_volume_accept_count c) (ln_volume_reject_count c) (shear_accept_count c) (shear_reject_count c) (aspect_accept_count c) (aspect_reject_count c)
  | move_ln_volume => mkBoxCounters (volume_accept_count c) (volume_reject_count c) (u64 (ln_volume_accept_count c + a)) (u64 (ln_volume_reject_count c + r)) (shear_accept_count c) (shear_reject_count c) (aspect_accept_count c) (aspect_reject_count c)
  | move_shear => mkBoxCounters (volume_accept_count c) (volume_reject_count c) (ln_volume_accept_count c) (ln_volume_reject_count c) (u64 (shear_accept_count c + a)) (u64 (shear_reject_count c + r)) (aspect_accept_count c) (aspect_reject_count c)
  | move_aspect => mkBoxCounters (volume_accept_count c) (volume_reject_count c) (ln_volume_accept_count c) (ln_volume_reject_count c) (shear_accept_count c) (shear_reject_count c) (u64 (aspect_accept_count c + a)) (u64 (aspect_reject_count c + r))
  end.

(** * The updater *)

Record boxmc := mkBoxMC {
  m_beta_P : Z -> Scalar;
  m_instance : Z;
  m_volume_delta : Scalar;
  m_volume_weight : Scalar;
  m_ln_volume_delta : Scalar;
  m_ln_volume_weight : Scalar;
  m_volume_mode : string;
  m_volume_A1 : Scalar;
  m_volume_A2 : Scalar;
  m_length_delta : Scalar3;
  m_length_weight : Scalar;
  m_shear_delta : Scalar3;
  m_shear_weight : Scalar;
  m_shear_reduce : Scalar;
  m_aspect_delta : Scalar;
  m_aspect_weight : Scalar;
  m_pos_backup : list (Scalar3 * Z);
  mc_count_total : hpmc_boxmc_counters_t;
  mc_count_run_start : hpmc_boxmc_counters_t;
  mc_count_step_start : hpmc_boxmc_counters_t;
  m_weight_partial_sums : list Scalar
}.

Definition set_backup (l : list (Scalar3 * Z)) (u : boxmc) : boxmc :=
  mkBoxMC (m_beta_P u) (m_instance u) (m_volume_delta u) (m_volume_weight u) (m_ln_volume_delta u) (m_ln_volume_weight u) (m_volume_mode u) (m_volume_A1 u) (m_volume_A2 u) (m_length_delta u) (m_length_weight u) (m_shear_delta u) (m_shear_weight u) (m_shear_reduce u) (m_aspect_delta u) (m_aspect_weight u) l (mc_count_total u) (mc_count_run_start u) (mc_count_step_start u) (m_weight_partial_sums u).
Definition set_box_counts (total run_start step_start : hpmc_boxmc_counters_t) (u : boxmc) : boxmc :=
  mkBoxMC (m_beta_P u) (m_instance u) (m_volume_delta u) (m_volume_weight u) (m_ln_volume_delta u) (m_ln_volume_weight u) (m_volume_mode u) (m_volume_A1 u) (m_volume_A2 u) (m_length_delta u) (m_length_weight u) (m_shear_delta u) (m_shear_weight u) (m_shear_reduce u) (m_aspect_delta u) (m_aspect_weight u) (m_pos_backup u) total run_start step_start (m_weight_partial_sums u).
Definition set_partial_sums (l : list Scalar) (u : boxmc) : boxmc :=
  mkBoxMC (m_beta_P u) (m_instance u) (m_volume_delta u) (m_volume_weight u) (m_ln_volume_delta u) (m_ln_volume_weight u) (m_volume_mode u) (m_volume_A1 u) (m_volume_A2 u) (m_length_delta u) (m_length_weight u) (m_shear_delta u) (m_shear_weight u) (m_shear_reduce u) (m_aspect_delta u) (m_aspect_weight u) (m_pos_backup u) (mc_count_total u) (mc_count_run_start u) (mc_count_step_start u) l.
Definition set_volume (delta weight ln_delta ln_weight : Scalar) (mode : string) (u : boxmc) : boxmc :=
  mkBoxMC (m_beta_P u) (m_instance u) delta weight ln_delta ln_weight mode (m_volume_A1 u) (m_volume_A2 u) (m_length_delta u) (m_length_weight u) (m_shear_delta u) (m_shear_weight u) (m_shear_reduce u) (m_aspect_delta u) (m_aspect_weight u) (m_pos_backup u) (mc_count_total u) (mc_count_run_start u) (mc_count_step_start u) (m_weight_partial_sums u).
Definition set_aspect_ratios (A1 A2 : Scalar) (u : boxmc) : boxmc :=
  mkBoxMC (m_beta_P u) (m_instance u) (m_volume_delta u) (m_volume_weight u) (m_ln_volume_delta u) (m_ln_volume_weight u) (m_volume_mode u) A1 A2 (m_length_delta u) (m_length_weight u) (m_shear_delta u) (m_shear_weight u) (m_shear_reduce u) (m_aspect_delta u) (m_aspect_weight u) (m_pos_backup u) (mc_count_total u) (mc_count_run_start u) (mc_count_step_start u) (m_weight_partial_sums u).
Definition set_length (delta : Scalar3) (weight : Scalar) (u : boxmc) : boxmc :=
  mkBoxMC (m_beta_P u) (m_instance u) (m_volume_delta u) (m_volume_weight u) (m_ln_volume_delta u) (m_ln_volume_weight u) (m_volume_mode u) (m_volume_A1 u) (m_volume_A2 u) delta weight (m_shear_delta u) (m_shear_weight u) (m_shear_reduce u) (m_aspect_delta u) (m_aspect_weight u) (m_pos_backup u) (mc_count_total u) (mc_count_run_start u) (mc_count_step_start u) (m_weight_partial_sums u).
Definition set_shear (delta : Scalar3) (weight reduce : Scalar) (u : boxmc) : boxmc :=
  mkBoxMC (m_beta_P u) (m_instance u) (m_volume_delta u) (m_volume_weight u) (m_ln_volume_delta u) (m_ln_volume_weight u) (m_volume_mode u) (m_volume_A1 u) (m_volume_A2 u) (m_length_delta u) (m_length_weight u) delta weight reduce (m_aspect_delta u) (m_aspect_weight u) (m_pos_backup u) (mc_count_total u) (mc_count_run_start u) (mc_count_step_start u) (m_weight_partial_sums u).
Definition set_aspect (delta weight : Scalar) (u : boxmc) : boxmc :=
  mkBoxMC (m_beta_P u) (m_instance u) (m_volume_delta u) (m_volume_weight u) (m_ln_volume_delta u) (m_ln_volume_weight u) (m_volume_mode u) (m_volume_A1 u) (m_volume_A2 u) (m_length_delta u) (m_length_weight u) (m_shear_delta u) (m_shear_weight u) (m_shear_reduce u) delta weight (m_pos_backup u) (mc_count_total u) (mc_count_run_start u) (mc_count_step_start u) (m_weight_partial_sums u).
Definition setInstance (instance : Z) (u : boxmc) : boxmc :=
  mkBoxMC (m_beta_P u) instance (m_volume_delta u) (m_volume_weight u) (m_ln_volume_delta u) (m_ln_volume_weight u) (m_volume_mode u) (m_volume_A1 u) (m_volume_A2 u) (m_length_delta u) (m_length_weight u) (m_shear_delta u) (m_shear_weight u) (m_shear_reduce u) (m_aspect_delta u) (m_aspect_weight u) (m_pos_backup u) (mc_count_total u) (mc_count_run_start u) (mc_count_step_start u) (m_weight_partial_sums u).
Definition setBetaP (P : Z -> Scalar) (u : boxmc) : boxmc :=
  mkBoxMC P (m_instance u) (m_volume_delta u) (m_volume_weight u) (m_ln_volume_delta u) (m_ln_volume_weight u) (m_volume_mode u) (m_volume_A1 u) (m_volume_A2 u) (m_length_delta u) (m_length_weight u) (m_shear_delta u) (m_shear_weight u) (m_shear_reduce u) (m_aspect_delta u) (m_aspect_weight u) (m_pos_backup u) (mc_count_total u) (mc_count_run_start u) (mc_count_step_start u) (m_weight_partial_sums u).

(** [std::partial_sum] *)
Fixpoint partial_sums (acc : Scalar) (l : list Scalar) : list Scalar :=
  match l with [] => [] | w :: l => (acc + w)%Q :: partial_sums (acc + w)%Q l end.

Definition weights (u : boxmc) : list Scalar :=
  [m_volume_weight u; m_ln_volume_weight u; m_length_weight u; m_shear_weight u; m_aspect_weight u].

Definition updateChangedWeights (u : boxmc) : boxmc := set_partial_sums (partial_sums 0%Q (weights u)) u.

Definition resetStats (u : boxmc) : boxmc := set_box_counts (mc_count_total u) (mc_count_total u) (mc_count_step_start u) u.

Definition new_boxmc (P : Z -> Scalar) (p : pdata) : boxmc :=
  updateChangedWeights (resetStats
    (mkBoxMC P 0 0%Q 0%Q 0%Q 0%Q "standard" 0%Q 0%Q BoxDim.zero3 0%Q BoxDim.zero3 0%Q 0%Q 0%Q 0%Q (replicate (Z.to_nat (m_max_nparticles p)) (BoxDim.zero3, 0))
       zero_box_counters zero_box_counters zero_box_counters [])).

Definition slotMaxNChange (p : pdata) (u : boxmc) : boxmc := set_backup (array_resize (BoxDim.zero3, 0) (m_max_nparticles p) (m_pos_backup u)) u.

Definition computeAspectRatios (p : pdata) (u : boxmc) : boxmc :=
  let L := BoxDim.m_L (m_global_box p) in set_aspect_ratios (s3x L / s3y L)%Q (s3x L / s3z L)%Q u.

(** The mode is stored before it is checked. *)
Definition setVolumeParams (mode : string) (weight delta : Scalar) (p : pdata) (u : boxmc) : boxmc * result unit :=
  let u := set_volume (m_volume_delta u) (m_volume_weight u) (m_ln_volume_delta u) (m_ln_volume_weight u) mode u in
  if String.eqb mode "standard" then (updateChangedWeights (computeAspectRatios p (set_volume delta weight 0%Q 0%Q mode u)), Ok tt)
  else if String.eqb mode "ln" then (updateChangedWeights (computeAspectRatios p (set_volume 0%Q 0%Q delta weight mode u)), Ok tt)
  else (u, Throw (runtime_error "Unknown mode for volume moves")).

Definition getVolumeParams (u : boxmc) : string * Scalar * Scalar :=
  (m_volume_mode u, if String.eqb (m_volume_mode u) "standard" then m_volume_weight u else m_ln_volume_weight u,
   if String.eqb (m_volume_mode u) "standard" then m_volume_delta u else m_ln_volume_delta u).

Definition setLengthParams (weight : Scalar) (delta : Scalar3) (u : boxmc) : boxmc := updateChangedWeights (set_length delta weight u).
Definition getLengthParams (u : boxmc) : Scalar * Scalar3 := (m_length_weight u, m_length_delta u).
Definition setShearParams (weight : Scalar) (delta : Scalar3) (reduce : Scalar) (u : boxmc) : boxmc := updateChangedWeights (set_shear delta weight reduce u).
Definition getShearParams (u : boxmc) : Scalar * Scalar * Scalar3 := (m_shear_weight u, m_shear_reduce u, m_shear_delta u).
Definition setAspectParams (weight delta : Scalar) (u : boxmc) : boxmc := updateChangedWeights (set_aspect delta weight u).
Definition getAspectParams (u : boxmc) : Scalar * Scalar := (m_aspect_weight u, m_aspect_delta u).

Definition box_getCounters (mode : Z) (u : boxmc) : hpmc_boxmc_counters_t :=
  if mode =? 0 then mc_count_total u
  else if mode =? 1 then box_counters_sub (mc_count_total u) (mc_count_run_start u)
  else box_counters_sub (mc_count_total u) (mc_count_step_start u).

(** * Removing shear *)

Definition is_oversheared (b : BoxDim.t) (u : boxmc) : bool :=
  if Qle_bool (m_shear_reduce u) (1 # 2) then false
  else
    let x := BoxDim.getLatticeVector b 0 in
    let y := BoxDim.getLatticeVector b 1 in
    let z := BoxDim.getLatticeVector b 2 in
    let max_y_x := (s3x x * m_shear_reduce u)%Q in
    let max_z_x := (s3x x * m_shear_reduce u)%Q in
    let z_yy := s3_dot z y in
    let max_z_y_2 := (s3_dot y y * m_shear_reduce u)%Q in
    lt_b max_y_x (Qabs (s3x y)) || lt_b max_z_x (Qabs (s3x z)) || lt_b max_z_y_2 (Qabs z_yy).

(** The tilt factors after removing at most one lattice vector of each kind. *)
Definition reduced_tilts (b : BoxDim.t) : bool * (Scalar * Scalar * Scalar) :=
  let x := BoxDim.getLatticeVector b 0 in
  let y := BoxDim.getLatticeVector b 1 in
  let z := BoxDim.getLatticeVector b 2 in
  let MAX_SHEAR := (1 # 2)%Q in
  let y_x := s3x y in
  let max_y_x := (s3x x * MAX_SHEAR)%Q in
  let '(o, xy) := (false, BoxDim.m_xy b) in
  let '(o, xy) := if lt_b max_y_x y_x then (true, (xy - s3x x / s3y y)%Q) else (o, xy) in
  let '(o, xy) := if lt_b y_x (- max_y_x) then (true, (xy + s3x x / s3y y)%Q) else (o, xy) in
  let y := if o then make_scalar3 (xy * s3y y)%Q (s3y y) (s3z y) else y in
  let z_x := s3x z in
  let max_z_x := (s3x x * MAX_SHEAR)%Q in
  let '(oz, xz) := (false, BoxDim.m_xz b) in
  let '(oz, xz) := if lt_b max_z_x z_x then (true, (xz - s3x x / s3z z)%Q) else (oz, xz) in
  let '(oz, xz) := if lt_b z_x (- max_z_x) then (true, (xz + s3x x / s3z z)%Q) else (oz, xz) in
  let z := if oz then make_scalar3 (xz * s3z z)%Q (s3y z) (s3z z) else z in
  let z_yy := s3_dot z y in
  let max_z_y_2 := (s3_dot y y * MAX_SHEAR)%Q in
  let '(oy, xz, yz) := (false, xz, BoxDim.m_yz b) in
  let '(oy, xz, yz) := if lt_b max_z_y_2 z_yy then (true, (xz - s3x y / s3z z)%Q, (yz - s3y y / s3z z)%Q) else (oy, xz, yz) in
  let '(oy, xz, yz) := if lt_b z_yy (- max_z_y_2) then (true, (xz + s3x y / s3z z)%Q, (yz + s3y y / s3z z)%Q) else (oy, xz, yz) in
  (o || oz || oy, (xy, xz, yz)).

(** The box after one call of [remove_overshear], or nothing to do. *)
Definition reduced_box (b : BoxDim.t) : option BoxDim.t :=
  let '(overshear, (xy, xz, yz)) := reduced_tilts b in
  if overshear then Some (BoxDim.setTiltFactors xy xz yz b) else None.

Section updater.
Context `{Sh : Shape} `{RealOps Q} `{RealFun Q}.
Variable philox : ctr_type -> key_type -> ctr_type.
Variable rsqrt : Scalar -> Scalar.        (* fast::rsqrt of BoxDim *)

(** [ExternalField::calculateDeltaE] with the backup, the old box and the old origin. *)
Variable m_external_field : option (Z -> list (Scalar3 * Z) -> BoxDim.t -> Scalar3 -> pdata -> Scalar).

Definition remove_overshear (p : pdata) (m : mono) : run (bool * pdata * mono) :=
  match reduced_box (m_global_box p) with
  | None => Ret (false, p, m)
  | Some newBox =>
      let p := setGlobalBox newBox p in
      let m := slotBoxChanged m in
      bind! p := wrap_particles p in
      match takeSnapshot p with
      | None => OutOfBounds
      | Some snap =>
          let '(p, r) := initializeFromSnapshot snap false p in
          bind! _ := lift r in Ret (true, p, slotSorted m)
      end
  end.

Fixpoint overshear_loop (fuel : nat) (p : pdata) (m : mono) : run (pdata * mono) :=
  match fuel with
  | O => OutOfBounds
  | S fuel => bind! (more, p, m) := remove_overshear p m in if more then overshear_loop fuel p m else Ret (p, m)
  end.

(** * Trial changes of the box *)

(** [memcpy] of the positions and types, to the backup and from it. *)
Definition copy_positions (N : Z) (p : pdata) (u : boxmc) : run boxmc :=
  bind! l := for_run (Z.to_nat N) 0 (fun i l => bind! e := read (m_ptl p) i in write l i (pos e, typ e)) (m_pos_backup u) in
  Ret (set_backup l u).

Definition e_typ (t : Z) (e : pdata_element) : pdata_element :=
  mkElement (pos e) t (vel e) (mass e) (accel e) (charge e) (ParticleData.diameter e) (image e) (body e) (orientation e) (angmom e) (inertia e) (tag e) (net_force e) (net_torque e) (net_virial e).

Definition restore_positions (N : Z) (u : boxmc) (p : pdata) : run pdata :=
  bind! l := for_run (Z.to_nat N) 0 (fun i l =>
    bind! e := read l i in
    bind! b := read (m_pos_backup u) i in
    write l i (e_typ b.2 (e_pos b.1 (image e) e))) (m_ptl p) in
  Ret (set_ptl l p).

Definition box_resize_trial (image_fuel : nat) (ndim : Z) (L : Scalar3) (xy xz yz : Scalar) (timestep : Z) (delta_beta_H : Scalar) (rng : RandomGenerator) (p : pdata) (m : mono) (u : boxmc)
  : run (bool * RandomGenerator * pdata * mono * boxmc) :=
  let N_backup := getN p in
  bind! u := copy_positions N_backup p u in
  let curBox := m_global_box p in
  bind! (e_pair, m) := computePairEnergy image_fuel ndim None p m in
  bind! e_ext := computeTotalExternalEnergy (m_interactions m) p false in
  let delta_U_pair := (0 - e_pair)%Q in
  let delta_U_external := (0 - e_ext)%Q in
  let newBox := BoxDim.setTiltFactors xy xz yz (BoxDim.setL L (m_global_box p)) in
  let old_origin := m_origin p in
  bind! (allowed, p, m) := attemptBoxResize rsqrt image_fuel ndim newBox p m in
  let origin_shift := s3_sub (m_origin p) old_origin in
  bind! (delta_U_pair, delta_U_external, m) :=
    if allowed then
      bind! (e_pair, m) := computePairEnergy image_fuel ndim None p m in
      bind! e_ext := computeTotalExternalEnergy (m_interactions m) p true in
      Ret ((delta_U_pair + e_pair)%Q, (delta_U_external + e_ext)%Q, m)
    else Ret (delta_U_pair, delta_U_external, m) in
  let delta_U_external :=
    match m_external_field with
    | Some f => if allowed then (delta_U_external + f timestep (m_pos_backup u) curBox old_origin p)%Q else delta_U_external
    | None => delta_U_external
    end in
  let '(r, rng) := generate_canonical philox rng in
  if allowed && lt_b r (rexp (- delta_beta_H) * rexp (- delta_U_pair) * rexp (- delta_U_external))%Q then Ret (true, rng, p, m, u)
  else if negb (getN p =? N_backup) then Raise (runtime_error "Error resizing box")
  else
    bind! p := restore_positions (getN p) u p in
    let p := translateOrigin (s3_opp origin_shift) (setGlobalBox curBox p) in
    Ret (false, rng, p, slotBoxChanged m, u).

(** The lengths by index. *)
Definition s3_get (v : Scalar3) (i : Z) : Scalar := if i =? 0 then s3x v else if i =? 1 then s3y v else s3z v.
Definition s3_set (i : Z) (a : Scalar) (v : Scalar3) : Scalar3 :=
  if i =? 0 then make_scalar3 a (s3y v) (s3z v) else if i =? 1 then make_scalar3 (s3x v) a (s3z v) else make_scalar3 (s3x v) (s3y v) a.

Definition safe_box (newL : Scalar3) (Ndim : Z) : bool := forallb (fun j => negb (lt_b (s3_get newL j) 0)) (seqZ 0 Ndim).

Definition box_volume (L : Scalar3) (Ndim : Z) : Scalar := let V := (s3x L * s3y L)%Q in if Ndim =? 3 then (V * s3z L)%Q else V.

(** The counter of the move after a trial. *)
Definition finish_move (k : box_move) (r : bool * RandomGenerator * pdata * mono * boxmc) : pdata * mono * boxmc :=
  let '(accept, _, p, m, u) := r in
  (p, m, set_box_counts (count_box_move k accept (mc_count_total u)) (mc_count_run_start u) (mc_count_step_start u) u).
Definition skip_move (k : box_move) (accept : bool) (p : pdata) (m : mono) (u : boxmc) : pdata * mono * boxmc :=
  (p, m, set_box_counts (count_box_move k accept (mc_count_total u)) (mc_count_run_start u) (mc_count_step_start u) u).

(** The trial with the current tilt factors. *)
Definition trial_L (image_fuel : nat) (Ndim : Z) (newL : Scalar3) (timestep : Z) (delta_beta_H : Scalar) (rng : RandomGenerator) (p : pdata) (m : mono) (u : boxmc) :=
  let curBox := m_global_box p in
  box_resize_trial image_fuel Ndim newL (BoxDim.m_xy curBox) (BoxDim.m_xz curBox) (BoxDim.m_yz curBox) timestep delta_beta_H rng p m u.

(** The chosen one among the dimensions with a nonzero [m_length_delta]. *)
Definition nonzero_dims (u : boxmc) (Ndim : Z) : list Z := List.filter (fun i => negb (Qeq_bool (s3_get (m_length_delta u) i) 0)) (seqZ 0 Ndim).

Definition update_L (int_fuel image_fuel : nat) (Ndim timestep : Z) (rng : RandomGenerator) (p : pdata) (m : mono) (u : boxmc) : run (pdata * mono * boxmc) :=
  let P := m_beta_P u timestep in
  let curL := BoxDim.m_L (m_global_box p) in
  let dims := nonzero_dims u Ndim in
  let nonzero_dim := Z.of_nat (length dims) in
  if nonzero_dim =? 0 then Ret (skip_move move_volume true p m u)
  else
    match UniformInt philox int_fuel (u32 (nonzero_dim - 1)) rng with
    | None => OutOfBounds
    | Some (chosen, rng) =>
        let i := zget 0 dims chosen in
        let dL_max := s3_get (m_length_delta u) i in
        let '(dL, rng) := Uniform philox (- dL_max)%Q dL_max rng in
        let newL := s3_set i (s3_get curL i + dL)%Q curL in
        if negb (safe_box newL Ndim) then Ret (skip_move move_volume false p m u)
        else
          let Vold := box_volume curL Ndim in
          let Vnew := box_volume newL Ndim in
          let dV := (Vnew - Vold)%Q in
          let delta_beta_H := (P * dV - inject_Z (getNGlobal p) * rlog (Vnew / Vold))%Q in
          bind! r := trial_L image_fuel Ndim newL timestep delta_beta_H rng p m u in
          Ret (finish_move move_volume r)
    end.

(** The isotropic box of volume [V]. *)
Definition isotropic (Ndim : Z) (V : Scalar) (curL : Scalar3) (u : boxmc) : Scalar3 :=
  if Ndim =? 3 then
    let Lx := rpow (m_volume_A1 u * m_volume_A2 u * V)%Q (1 # 3)%Q in make_scalar3 Lx (Lx / m_volume_A1 u)%Q (Lx / m_volume_A2 u)%Q
  else
    let Lx := rpow (m_volume_A1 u * V)%Q (1 # 2)%Q in make_scalar3 Lx (Lx / m_volume_A1 u)%Q (s3z curL).

Definition update_lnV (image_fuel : nat) (Ndim timestep : Z) (rng : RandomGenerator) (p : pdata) (m : mono) (u : boxmc) : run (pdata * mono * boxmc) :=
  let P := m_beta_P u timestep in
  let curL := BoxDim.m_L (m_global_box p) in
  let V := box_volume curL Ndim in
  let '(dlnV, rng) := Uniform philox (- m_ln_volume_delta u)%Q (m_ln_volume_delta u) rng in
  let new_V := (V * rexp dlnV)%Q in
  let newL := isotropic Ndim new_V curL u in
  if negb (safe_box newL Ndim) then Ret (skip_move move_ln_volume false p m u)
  else
    let delta_beta_H := (P * (new_V - V) - inject_Z (u32 (getNGlobal p + 1)) * rlog (new_V / V))%Q in
    bind! r := trial_L image_fuel Ndim newL timestep delta_beta_H rng p m u in
    Ret (finish_move move_ln_volume r).

Definition update_V (image_fuel : nat) (Ndim timestep : Z) (rng : RandomGenerator) (p : pdata) (m : mono) (u : boxmc) : run (pdata * mono * boxmc) :=
  let P := m_beta_P u timestep in
  let curL := BoxDim.m_L (m_global_box p) in
  let V := box_volume curL Ndim in
  let '(dV, rng) := Uniform philox (- m_volume_delta u)%Q (m_volume_delta u) rng in
  let newL := isotropic Ndim (V + dV)%Q curL u in
  if negb (safe_box newL Ndim) then Ret (skip_move move_volume false p m u)
  else
    let Vnew := box_volume newL Ndim in
    let delta_beta_H := (P * dV - inject_Z (getNGlobal p) * rlog (Vnew / V))%Q in
    bind! r := trial_L image_fuel Ndim newL timestep delta_beta_H rng p m u in
    Ret (finish_move move_volume r).

Definition update_shear (int_fuel image_fuel : nat) (Ndim timestep : Z) (rng : RandomGenerator) (p : pdata) (m : mono) (u : boxmc) : run (pdata * mono * boxmc) :=
  let curBox := m_global_box p in
  match if Ndim =? 3 then UniformInt philox int_fuel 2 rng else Some (0, rng) with
  | None => OutOfBounds
  | Some (i, rng) =>
      let dA_max := s3_get (m_shear_delta u) i in
      let '(dA, rng) := Uniform philox (- dA_max)%Q dA_max rng in
      let shear := make_scalar3 (BoxDim.m_xy curBox) (BoxDim.m_xz curBox) (BoxDim.m_yz curBox) in
      let newShear := s3_set i (s3_get shear i + dA)%Q shear in
      bind! r := box_resize_trial image_fuel Ndim (BoxDim.m_L curBox) (s3x newShear) (s3y newShear) (s3z newShear) timestep 0%Q rng p m u in
      Ret (finish_move move_shear r)
  end.

(** The lengths after a change of the aspect ratio of dimension [i] by [dA]. *)
Definition aspect_lengths (Ndim i : Z) (dA : Scalar) (curL : Scalar3) : Scalar3 :=
  let newL := s3_set i (s3_get curL i * dA)%Q curL in
  let lambda := (s3_get curL i / s3_get newL i)%Q in
  let lambda := if Ndim =? 3 then VectorMath.rsqrt lambda else lambda in
  fold_left (fun newL j => if negb (i =? j) then s3_set j (lambda * s3_get curL j)%Q newL else newL) (seqZ 0 Ndim) newL.

Definition update_aspect (int_fuel image_fuel : nat) (Ndim timestep : Z) (rng : RandomGenerator) (p : pdata) (m : mono) (u : boxmc) : run (pdata * mono * boxmc) :=
  match UniformInt philox int_fuel (u32 (Ndim - 1)) rng with
  | None => OutOfBounds
  | Some (i, rng) =>
      let '(d, rng) := Uniform philox 0%Q (m_aspect_delta u) rng in
      let dA := (1 + d)%Q in
      match UniformInt philox int_fuel 1 rng with
      | None => OutOfBounds
      | Some (b, rng) =>
          let dA := if negb (b =? 0) then (1 / dA)%Q else dA in
          bind! r := trial_L image_fuel Ndim (aspect_lengths Ndim i dA (BoxDim.m_L (m_global_box p))) timestep 0%Q rng p m u in
          Ret (finish_move move_aspect r)
      end
  end.

(** [std::lower_bound] on the partial sums: the first one not below the value. *)
Fixpoint lower_bound (l : list Scalar) (v : Scalar) : Z :=
  match l with [] => 0 | s :: l => if lt_b s v then 1 + lower_bound l v else 0 end.

Definition box_update (int_fuel image_fuel shear_fuel : nat) (Ndim timestep seed : Z) (p : pdata) (m : mono) (u : boxmc) : run (pdata * mono * boxmc) :=
  let u := set_box_counts (mc_count_total u) (mc_count_run_start u) (mc_count_total u) u in
  let rng := new_generator (Seed (id_value id_UpdaterBoxMC) timestep seed) (Counter (m_instance u) 0 0 0) in
  let weight_total := List.last (m_weight_partial_sums u) 0%Q in
  if Qeq_bool weight_total 0 then Ret (p, m, u)
  else
    let '(r, rng) := generate_canonical philox rng in
    let selected := (r * weight_total)%Q in
    let move_type_select := lower_bound (m_weight_partial_sums u) selected in
    if 4 <? move_type_select then Ret (p, m, u)
    else
      bind! (p, m, u) :=
        if move_type_select =? 0 then update_V image_fuel Ndim timestep rng p m u
        else if move_type_select =? 1 then update_lnV image_fuel Ndim timestep rng p m u
        else if move_type_select =? 2 then update_L int_fuel image_fuel Ndim timestep rng p m u
        else if move_type_select =? 3 then update_shear int_fuel image_fuel Ndim timestep rng p m u
        else update_aspect int_fuel image_fuel Ndim timestep rng p m u in
      if is_oversheared (m_global_box p) u then bind! (p, m) := overshear_loop shear_fuel p m in Ret (p, m, u)
      else Ret (p, m, u).

End updater.
