(* ===== verification/UpdaterBoxMCSpec.v ===== *)
(** The lattice reduction of the box updater: the loop ends with a reduced box of
    the same lattice and with the same particles, wrapped into it and stored in the
    order of their tags. *)

From Stdlib Require Import ZArith Lia QArith Lqa Qabs Qfield String Bool.
From stdpp Require Import base list list_numbers strings.
From S2P Require Import Prelude HOOMDMath VectorMath Index1D BoxDim AABBTree AABBTreeProps ParticleData ParticleDataProps ParticleDataSpec PairEvaluators NeighborListVerlet NeighborListSpec RandomNumbers.
From S2P Require Import HPMC HPMCMono HPMCMonoProps HPMCMonoSweep HPMCMonoSpec HPMCMonoExamples HPMCMonoCount UpdaterBoxMC.
Local Open Scope Z_scope.
Local Open Scope hoomd_scope.

(** * Lattice reduction *)

(** The second and third lattice vectors, by their off-diagonal components. *)
Definition y_x (b : BoxDim.t) : Q := (s3y (BoxDim.m_L b) * BoxDim.m_xy b)%Q.
Definition z_x (b : BoxDim.t) : Q := (s3z (BoxDim.m_L b) * BoxDim.m_xz b)%Q.
Definition z_y (b : BoxDim.t) : Q := (s3z (BoxDim.m_L b) * BoxDim.m_yz b)%Q.

(** No lattice vector can be removed: the components and the projection on the
    second vector are at most one half. *)
Definition reduced (b : BoxDim.t) : Prop :=
  (Qabs (y_x b) <= s3x (BoxDim.m_L b) * (1 # 2) /\ Qabs (z_x b) <= s3x (BoxDim.m_L b) * (1 # 2) /\
   Qabs (z_x b * y_x b + z_y b * s3y (BoxDim.m_L b)) <= (y_x b * y_x b + s3y (BoxDim.m_L b) * s3y (BoxDim.m_L b)) * (1 # 2))%Q.

(** The vectors of [b'] are those of [b] with multiples of the earlier ones added. *)
Record sheared (b b' : BoxDim.t) (i j k : Z) : Prop := {
  sh_L : BoxDim.m_L b' = BoxDim.m_L b;
  sh_yx : (y_x b' == y_x b + inject_Z i * s3x (BoxDim.m_L b))%Q;
  sh_zx : (z_x b' == z_x b + inject_Z j * s3x (BoxDim.m_L b) + inject_Z k * y_x b')%Q;
  sh_zy : (z_y b' == z_y b + inject_Z k * s3y (BoxDim.m_L b))%Q
}.

(** The squared lengths that the reduction decreases. *)
Definition shear_norm (b : BoxDim.t) : Q := (y_x b * y_x b + z_x b * z_x b + z_y b * z_y b)%Q.

(** One of the three decisions of [remove_overshear]: one vector too many on
    either side, or nothing. *)
Definition decide_shift (v half : Q) : Z := if lt_b half v then -1 else if lt_b v (- half) then 1 else 0.

Lemma decide_shift_cases v half : (0 < half)%Q -> let i := decide_shift v half in
  (i = 0 /\ (Qabs v <= half)%Q) \/ (i = -1 /\ (half < v)%Q) \/ (i = 1 /\ (v < - half)%Q).
Proof.
  intros H. unfold decide_shift. destruct (lt_b half v) eqn:A; qbool; [auto|]. destruct (lt_b v (- half)) eqn:B; qbool; [auto|].
  left. split; [reflexivity|]. apply Qabs_Qle_condition. lra.
Qed.

Lemma decide_shift_eq v v' half half' : (v == v' -> half == half')%Q -> (v == v')%Q -> decide_shift v half = decide_shift v' half'.
Proof.
  intros H Ev. specialize (H Ev). unfold decide_shift, lt_b. assert (C : forall a a' c c' : Q, (a == a')%Q -> (c == c')%Q -> Qle_bool a c = Qle_bool a' c').
  { intros a a' c c' Ea Ec. apply eq_true_iff_eq. rewrite !Qle_bool_iff. now rewrite Ea, Ec. }
  rewrite (C v v' half half'), (C (- half) (- half') v v')%Q; try assumption; [reflexivity|now rewrite H].
Qed.

Section reduction.
Variable b : BoxDim.t.
Hypothesis W : BoxDim.wf b.
#[local] Abbreviation Lx := (s3x (BoxDim.m_L b)).
#[local] Abbreviation Ly := (s3y (BoxDim.m_L b)).
#[local] Abbreviation Lz := (s3z (BoxDim.m_L b)).

(** The integers of the step. *)
Definition step_i : Z := decide_shift (y_x b) (Lx * (1 # 2)).
Definition step_yx : Q := (y_x b + inject_Z step_i * Lx)%Q.
Definition step_j : Z := decide_shift (z_x b) (Lx * (1 # 2)).
Definition step_zx : Q := (z_x b + inject_Z step_j * Lx)%Q.
Definition step_k : Z := decide_shift (step_zx * step_yx + z_y b * Ly) ((step_yx * step_yx + Ly * Ly) * (1 # 2)).

(** The third decision, on the components after the first two. *)
Lemma third_decision (o oz : bool) yx zx xy xz : (yx == step_yx)%Q -> (zx == step_zx)%Q -> (Ly * xy == yx)%Q -> (Lz * xz == zx)%Q ->
  o = negb (step_i =? 0) -> oz = negb (step_j =? 0) ->
  match
    (let y := make_scalar3 yx Ly 0 in let z := make_scalar3 zx (z_y b) Lz in
     let z_yy := s3_dot z y in let max_z_y_2 := (s3_dot y y * (1 # 2))%Q in
     let '(oy, xz, yz) := (false, xz, BoxDim.m_yz b) in
     let '(oy, xz, yz) := if lt_b max_z_y_2 z_yy then (true, (xz - s3x y / s3z z)%Q, (yz - s3y y / s3z z)%Q) else (oy, xz, yz) in
     let '(oy, xz, yz) := if lt_b z_yy (- max_z_y_2) then (true, (xz + s3x y / s3z z)%Q, (yz + s3y y / s3z z)%Q) else (oy, xz, yz) in
     (o || oz || oy, (xy, xz, yz))) with
  | (o, (xy, xz, yz)) =>
      o = negb ((step_i =? 0) && (step_j =? 0) && (step_k =? 0)) /\
      (Ly * xy == step_yx /\ Lz * xz == step_zx + inject_Z step_k * step_yx /\ Lz * yz == z_y b + inject_Z step_k * Ly)%Q
  end.
Proof.
  intros Ey Ez Exy Exz -> ->. destruct W as (_ & (Px & Py & Pz) & _). cbn [s3x s3y s3z].
  set (h := (s3_dot _ _ * (1 # 2))%Q). set (v := s3_dot _ _).
  assert (Ek : step_k = decide_shift v h).
  { apply decide_shift_eq; [intros _|]; subst h v; unfold s3_dot; cbn [s3x s3y s3z]; rewrite Ey, ?Ez; ring. }
  assert (Hp : (0 < h)%Q) by (subst h; unfold s3_dot; cbn [s3x s3y s3z]; pose proof (sq_nonneg yx); nra).
  assert (Qx : forall k : Q, (Lz * (xz + k * (yx / Lz)) == step_zx + k * step_yx)%Q) by (intros k; rewrite <- Ez, <- Exz, <- Ey; field; lra).
  assert (Qy : forall k : Q, (Lz * (BoxDim.m_yz b + k * (Ly / Lz)) == z_y b + k * Ly)%Q) by (intros k; unfold z_y; field; lra).
  destruct (decide_shift_cases v h Hp) as [(E & Hv)|[(E & Hv)|(E & Hv)]]; rewrite <- Ek in E; rewrite E;
    [apply Qabs_Qle_condition in Hv| |]; destruct (lt_b h v) eqn:A; destruct (lt_b v (- h)) eqn:B; qbool; try lra;
    (split; [destruct (step_i =? 0), (step_j =? 0); reflexivity|split; [lra|split; [rewrite <- Qx|rewrite <- Qy]]]); simpl; try (field; lra); try ring.
Qed.

Lemma reduced_tilts_spec : match reduced_tilts b with
  | (o, (xy, xz, yz)) =>
      o = negb ((step_i =? 0) && (step_j =? 0) && (step_k =? 0)) /\
      (Ly * xy == step_yx /\ Lz * xz == step_zx + inject_Z step_k * step_yx /\ Lz * yz == z_y b + inject_Z step_k * Ly)%Q
  end.
Proof.
  destruct W as (_ & (Px & Py & Pz) & _). unfold reduced_tilts. change (BoxDim.getLatticeVector b 0) with (make_scalar3 Lx 0 0). change (BoxDim.getLatticeVector b 1) with (make_scalar3 (y_x b) Ly 0).
  change (BoxDim.getLatticeVector b 2) with (make_scalar3 (z_x b) (z_y b) Lz). cbn [s3x s3y s3z].
  assert (Hh : (0 < Lx * (1 # 2))%Q) by lra.
  destruct (decide_shift_cases (y_x b) _ Hh) as [(Ei & Hi)|[(Ei & Hi)|(Ei & Hi)]]; destruct (decide_shift_cases (z_x b) _ Hh) as [(Ej & Hj)|[(Ej & Hj)|(Ej & Hj)]];
  try apply Qabs_Qle_condition in Hi; try apply Qabs_Qle_condition in Hj;
  change (decide_shift (y_x b) (Lx * (1 # 2))) with step_i in Ei; change (decide_shift (z_x b) (Lx * (1 # 2))) with step_j in Ej;
  destruct (lt_b (Lx * (1 # 2)) (y_x b)) eqn:E1; destruct (lt_b (y_x b) (- (Lx * (1 # 2)))) eqn:E2; qbool; try lra;
  destruct (lt_b (Lx * (1 # 2)) (z_x b)) eqn:E3; destruct (lt_b (z_x b) (- (Lx * (1 # 2)))) eqn:E4; qbool; try lra;
  cbv beta iota zeta; apply third_decision; unfold step_yx, step_zx; rewrite ?Ei, ?Ej; try reflexivity; unfold y_x, z_x; simpl inject_Z; try ring; try (field; lra).
Qed.

(** Removing one vector makes the component smaller. *)
Lemma shift_smaller v half : (0 < half)%Q -> let i := decide_shift v half in let w := (v + inject_Z i * (half * 2))%Q in
  (i = 0 /\ (w * w == v * v)%Q) \/ (i <> 0 /\ (w * w < v * v)%Q).
Proof.
  intros H. cbv zeta. destruct (decide_shift_cases v half H) as [(-> & Hv)|[(-> & Hv)|(-> & Hv)]]; [left|right|right]; (split; [lia|]).
  - simpl inject_Z. ring.
  - pose proof (Qmult_lt_0_compat half (v - half) H ltac:(lra)). change (inject_Z (-1)) with (- (1))%Q. lra.
  - pose proof (Qmult_lt_0_compat half (- half - v) H ltac:(lra)). change (inject_Z 1) with 1%Q. lra.
Qed.

Lemma step_sizes : ((step_i = 0 /\ (step_yx * step_yx == y_x b * y_x b)%Q) \/ (step_i <> 0 /\ (step_yx * step_yx < y_x b * y_x b)%Q)) /\
  ((step_j = 0 /\ (step_zx * step_zx == z_x b * z_x b)%Q) \/ (step_j <> 0 /\ (step_zx * step_zx < z_x b * z_x b)%Q)).
Proof.
  destruct W as (_ & (Px & Py & Pz) & _). assert (Hh : (0 < Lx * (1 # 2))%Q) by lra. assert (E : (Lx * (1 # 2) * 2 == Lx)%Q) by ring.
  pose proof (shift_smaller (y_x b) _ Hh) as Sy. pose proof (shift_smaller (z_x b) _ Hh) as Sz. cbv zeta in Sy, Sz. rewrite E in Sy, Sz. split; [exact Sy|exact Sz].
Qed.

Lemma step_k_size : let zx := (step_zx + inject_Z step_k * step_yx)%Q in let zy := (z_y b + inject_Z step_k * Ly)%Q in
  (step_k = 0 /\ (zx * zx + zy * zy == step_zx * step_zx + z_y b * z_y b)%Q) \/ (step_k <> 0 /\ (zx * zx + zy * zy < step_zx * step_zx + z_y b * z_y b)%Q).
Proof.
  destruct W as (_ & (Px & Py & Pz) & _). cbv zeta.
  assert (Hh : (0 < (step_yx * step_yx + Ly * Ly) * (1 # 2))%Q) by (pose proof (sq_nonneg step_yx); nra).
  destruct (decide_shift_cases (step_zx * step_yx + z_y b * Ly) _ Hh) as [(E & Hv)|[(E & Hv)|(E & Hv)]]; fold step_k in E; rewrite E; [left|right|right]; (split; [lia|]);
    [simpl inject_Z; ring|change (inject_Z (-1)) with (- (1))%Q; lra|change (inject_Z 1) with 1%Q; lra].
Qed.

(** One call either finds a reduced box or shears it by at most one vector of each
    kind, and the vectors become shorter. *)
Lemma reduced_box_spec : match reduced_box b with
  | None => reduced b
  | Some b' => exists i j k, Z.abs i <= 1 /\ Z.abs j <= 1 /\ Z.abs k <= 1 /\ sheared b b' i j k /\ (shear_norm b' < shear_norm b)%Q /\
      exists xy xz yz, b' = BoxDim.setTiltFactors xy xz yz b
  end.
Proof.
  pose proof W as (_ & (Px & Py & Pz) & _). assert (Hh : (0 < Lx * (1 # 2))%Q) by lra. pose proof reduced_tilts_spec as R. unfold reduced_box.
  destruct (reduced_tilts b) as [o [[xy xz] yz]]. destruct R as (-> & Exy & Exz & Eyz). destruct step_sizes as [Sy Sz]. pose proof step_k_size as Sk. cbv zeta in Sk.
  destruct ((step_i =? 0) && (step_j =? 0) && (step_k =? 0)) eqn:Z0; cbn [negb].
  - apply andb_true_iff in Z0 as [[Ei Ej]%andb_true_iff Ek]. zbool. assert (Hk : (0 < (step_yx * step_yx + Ly * Ly) * (1 # 2))%Q) by (pose proof (sq_nonneg step_yx); nra).
    destruct (decide_shift_cases (y_x b) _ Hh) as [(_ & Hy)|[(E & _)|(E & _)]]; fold step_i in *; [|lia..].
    destruct (decide_shift_cases (z_x b) _ Hh) as [(_ & Hz)|[(E & _)|(E & _)]]; fold step_j in *; [|lia..].
    destruct (decide_shift_cases (step_zx * step_yx + z_y b * Ly) _ Hk) as [(_ & Hv)|[(E & _)|(E & _)]]; fold step_k in *; [|lia..].
    split; [exact Hy|split; [exact Hz|]]. assert (A : (step_yx == y_x b)%Q) by (unfold step_yx; rewrite Ei; simpl inject_Z; ring).
    assert (B : (step_zx == z_x b)%Q) by (unfold step_zx; rewrite Ej; simpl inject_Z; ring). now rewrite A, B in Hv.
  - exists step_i, step_j, step_k. assert (One : forall v h, Z.abs (decide_shift v h) <= 1) by (intros v h; unfold decide_shift; case_all; lia).
    split_and!; [apply One..| | |now exists xy, xz, yz].
    + split; unfold y_x, z_x, z_y; cbn [BoxDim.setTiltFactors BoxDim.m_L BoxDim.m_xy BoxDim.m_xz BoxDim.m_yz]; [reflexivity|exact Exy|rewrite Exz, Exy; reflexivity|exact Eyz].
    + unfold shear_norm. unfold y_x at 1 2, z_x at 1 2, z_y at 1 2. cbn [BoxDim.setTiltFactors BoxDim.m_L BoxDim.m_xy BoxDim.m_xz BoxDim.m_yz]. rewrite Exy, Exz, Eyz.
      apply andb_false_iff in Z0 as [[Z0|Z0]%andb_false_iff|Z0]; zbool; destruct Sy as [[? ?]|[? ?]], Sz as [[? ?]|[? ?]], Sk as [[? ?]|[? ?]]; first [congruence|lra].
Qed.

End reduction.

(** ** The lattice and the measure *)

(** Both boxes have the same lattice. *)
Definition same_lattice (b b' : BoxDim.t) (f : int3 -> int3) : Prop :=
  (forall v n, BoxDim.shift b' v n =3= BoxDim.shift b v (f n)) /\ forall n, n <> zero_i3 -> f n <> zero_i3.

Definition sheared_index (i j k : Z) (n : int3) : int3 :=
  make_int3 (i3x n + i * i3y n + (j + k * i) * i3z n) (i3y n + k * i3z n) (i3z n).

Lemma sheared_lattice b b' i j k : sheared b b' i j k -> same_lattice b b' (sheared_index i j k).
Proof.
  intros [El Ey Ezx Ezy]. split.
  - intros v n. destruct (shift_components b' v n) as (A1 & A2 & A3), (shift_components b v (sheared_index i j k n)) as (B1 & B2 & B3).
    unfold y_x, z_x, z_y in *. rewrite El in *. unfold sheared_index in *. cbn [s3x s3y s3z i3x i3y i3z] in *. rewrite !inject_Z_plus, !inject_Z_mult, !inject_Z_plus, !inject_Z_mult in *.
    repeat split; [rewrite A1, B1, Ezx, Ey|rewrite A2, B2, Ezy|rewrite A3, B3]; ring.
  - intros [nx ny nz] Ne E. apply Ne. unfold sheared_index in E. cbn [i3x i3y i3z] in E. injection E as E1 E2 ->. rewrite Z.mul_0_r, Z.add_0_r in *. subst ny. rewrite Z.mul_0_r, Z.add_0_r in E1. now subst.
Qed.

(** The components are multiples of [1 / K]. *)
Record on_grid (K : Z) (b : BoxDim.t) (a c d e f : Z) : Prop := {
  gr_x : (inject_Z K * s3x (BoxDim.m_L b) == inject_Z a)%Q;
  gr_y : (inject_Z K * s3y (BoxDim.m_L b) == inject_Z c)%Q;
  gr_yx : (inject_Z K * y_x b == inject_Z d)%Q;
  gr_zx : (inject_Z K * z_x b == inject_Z e)%Q;
  gr_zy : (inject_Z K * z_y b == inject_Z f)%Q
}.

Lemma over_den (q : Q) (k : Z) : (inject_Z (Zpos (Qden q) * k) * q == inject_Z (Qnum q * k))%Q.
Proof. destruct q as [n d]. unfold Qeq. simpl. lia. Qed.

Lemma grid_exists b : exists K a c d e f, 0 < K /\ on_grid K b a c d e f.
Proof.
  set (x := s3x (BoxDim.m_L b)). set (y := s3y (BoxDim.m_L b)). set (k := fun q => Zpos (Qden q)).
  exists (k x * k y * k (y_x b) * k (z_x b) * k (z_y b)), (Qnum x * (k y * k (y_x b) * k (z_x b) * k (z_y b))), (Qnum y * (k x * k (y_x b) * k (z_x b) * k (z_y b))),
    (Qnum (y_x b) * (k x * k y * k (z_x b) * k (z_y b))), (Qnum (z_x b) * (k x * k y * k (y_x b) * k (z_y b))), (Qnum (z_y b) * (k x * k y * k (y_x b) * k (z_x b))).
  split; [unfold k; lia|]. split; rewrite <- over_den; (apply Qmult_comp; [|reflexivity]); rewrite inject_Z_injective; unfold k; ring.
Qed.

Lemma sheared_grid K b b' i j k a c d e f : sheared b b' i j k -> on_grid K b a c d e f -> on_grid K b' a c (d + i * a) (e + j * a + k * (d + i * a)) (f + k * c).
Proof.
  intros [El Ey Ezx Ezy] [G1 G2 G3 G4 G5]. split; rewrite ?El; try assumption; rewrite ?inject_Z_plus, ?inject_Z_mult, ?inject_Z_plus, ?inject_Z_mult; rewrite <- ?G1, <- ?G2, <- ?G3, <- ?G4, <- ?G5; [rewrite Ey|rewrite Ezx, Ey|rewrite Ezy]; ring.
Qed.

Definition grid_norm (d e f : Z) : Z := d * d + e * e + f * f.

Lemma grid_shear_norm K b a c d e f : on_grid K b a c d e f -> (inject_Z K * inject_Z K * shear_norm b == inject_Z (grid_norm d e f))%Q.
Proof. intros [G1 G2 G3 G4 G5]. unfold grid_norm, shear_norm. rewrite !inject_Z_plus, !inject_Z_mult, <- G3, <- G4, <- G5. ring. Qed.

Lemma grid_decreases K b b' a c d e f a' c' d' e' f' : 0 < K -> on_grid K b a c d e f -> on_grid K b' a' c' d' e' f' -> (shear_norm b' < shear_norm b)%Q -> grid_norm d' e' f' < grid_norm d e f.
Proof.
  intros HK G G' Lt. rewrite Zlt_Qlt in HK |- *. change (inject_Z 0) with 0%Q in HK. rewrite <- (grid_shear_norm _ _ _ _ _ _ _ G), <- (grid_shear_norm _ _ _ _ _ _ _ G').
  apply Qmult_lt_l; [now apply Qmult_lt_0_compat|exact Lt].
Qed.

(** * Reloading the particles *)

Lemma load_ghosts sn ib p : m_nghosts (initializeFromSnapshot sn ib p).1 = 0.
Proof. destruct (load_unfold sn ib p) as [-> _]. simpl. unfold pd_resize, pd_reallocate, pd_allocate. cbn zeta. case_all; reflexivity. Qed.

Lemma ok_set_ptl p l : ok p -> length l = length (m_ptl p) -> (forall j, 0 <= j < getN p -> tag (zget zero_element l j) = tag (element j p)) -> ok (set_ptl l p).
Proof.
  intros [W [R L]] Ll Tl. pose proof (wf_memory p W) as Wm. pose proof (wf_N p Wm). pose proof (wf_ptl p Wm).
  assert (Lt : local_tags (set_ptl l p) = local_tags p).
  { unfold local_tags. simpl. apply list_eq. intros i. rewrite !list_lookup_fmap. destruct (decide (i < Z.to_nat (m_nparticles p))%nat) as [Li|G]; [|now rewrite !lookup_take_ge by lia].
    rewrite !lookup_take_lt by lia. specialize (Tl (Z.of_nat i) ltac:(unfold getN; lia)). unfold element in Tl.
    pose proof (lookup_zget zero_element l (Z.of_nat i) ltac:(lia)) as A. pose proof (lookup_zget zero_element (m_ptl p) (Z.of_nat i) ltac:(lia)) as B. rewrite Nat2Z.id in A, B. rewrite A, B. simpl. now f_equal. }
  split; [|split; [exact R|rewrite Lt; exact L]]. apply (rebuild_wf p); auto; [|rewrite Lt; apply (wf_active p W)|rewrite Lt; apply (wf_rtag p W)].
  destruct Wm. constructor; simpl; auto; congruence.
Qed.

Lemma foldl_max_bound (l : list snap_ptl) n : forall m, m < n -> (forall s, s ∈ l -> s_type s < n) -> foldl (fun m s => Z.max m (s_type s)) m l < n.
Proof. induction l as [|s l IH]; intros m Hm Hl; [exact Hm|]. simpl. apply IH; [|intros x Hx; apply Hl; now right]. specialize (Hl s ltac:(left)). lia. Qed.

(** Storing the particles in a snapshot and loading it permutes them. *)
Record permuted (N : Z) (p q : pdata) (g : Z -> Z) : Prop := {
  pm_range : forall j, 0 <= j < N -> 0 <= g j < N;
  pm_inj : forall i j, 0 <= i < N -> 0 <= j < N -> g i = g j -> i = j;
  pm_pos : forall j, 0 <= j < N -> pos (element j q) =3= pos (element (g j) p);
  pm_typ : forall j, 0 <= j < N -> typ (element j q) = typ (element (g j) p);
  pm_orientation : forall j, 0 <= j < N -> orientation (element j q) = orientation (element (g j) p)
}.

Lemma reload_spec N p : ok p -> 0 < N -> getN p = N -> m_origin p = BoxDim.zero3 -> m_o_image p = zero_i3 ->
  (forall j, 0 <= j < N -> BoxDim.inside (m_global_box p) (pos (element j p)) /\ 0 <= typ (element j p) < getNTypes p) ->
  exists sn q g, takeSnapshot p = Some sn /\ initializeFromSnapshot sn false p = (q, Ok tt) /\ ok q /\ m_origin q = BoxDim.zero3 /\ m_o_image q = zero_i3 /\
    m_global_box q = m_global_box p /\ getN q = N /\ getNTypes q = getNTypes p /\ m_nghosts q = 0 /\ permuted N p q g.
Proof.
  intros O HN EN Eo Ei Hin. pose proof O as [W S]. pose proof (wf_memory p W) as Wm. pose proof (serial_N p W S) as Es. pose proof (wf_nglobal p W) as Eg. unfold getN in EN.
  pose proof (wf_nglobal_high p W). pose proof (wf_high p W).
  set (l := (fun t => snap_of p (element (getRTag t p) p)) <$> m_tag_set p). set (sn := mkSnapshot l (m_type_mapping p) (m_accel_set p)).
  assert (Ll : Z.of_nat (length l) = N) by (unfold l; rewrite length_fmap; lia). assert (Sz : Z.of_nat (length (sn_ptl sn)) <= 2 ^ 31) by (simpl; lia).
  set (t := fun j => zget 0 (m_tag_set p) j). set (g := fun j => getRTag (t j) p).
  assert (Ht : forall j, 0 <= j < N -> m_tag_set p !! Z.to_nat j = Some (t j)) by (intros j Hj; apply lookup_zget; lia).
  assert (Hg : forall j, 0 <= j < N -> 0 <= g j < N /\ local_tags p !! Z.to_nat (g j) = Some (t j)).
  { intros j Hj. destruct (wf_getRTag p W (t j)) as (A & B & _); [apply S; eapply list_elem_of_lookup_2, Ht, Hj|]. fold (g j) in A, B. split; [lia|exact B]. }
  assert (Hs : forall j, 0 <= j < N -> l !! Z.to_nat j = Some (snap_of p (element (g j) p))) by (intros j Hj; unfold l; now rewrite list_lookup_fmap, (Ht j Hj)).
  assert (Hw : forall j, 0 <= j < N -> exists im, snap_of p (element (g j) p) = mkSnap (s3_sub (pos (element (g j) p)) BoxDim.zero3) (vel (element (g j) p)) (accel (element (g j) p)) (typ (element (g j) p)) (mass (element (g j) p)) (charge (element (g j) p)) (ParticleData.diameter (element (g j) p)) im (body (element (g j) p)) (orientation (element (g j) p)) (angmom (element (g j) p)) (inertia (element (g j) p))).
  { intros j Hj. destruct (Hg j Hj) as [Gj _]. unfold snap_of. rewrite Eo, Ei, wrap_id by (apply inside_sub_zero; now apply Hin). eauto. }
  exists sn, (initializeFromSnapshot sn false p).1, g. split; [apply (takeSnapshot_spec p W S)|].
  destruct (load_fields sn false p Wm (proj1 S) Sz) as (F1 & _ & _ & _ & _ & _ & _ & _ & _ & _ & _ & _ & _ & Fo & Fi & Ft & _). rewrite loaded_all in F1. simpl in F1.
  assert (El : forall j, 0 <= j < N -> exists st, element j (initializeFromSnapshot sn false p).1 = load_element (snap_of p (element (g j) p)) j st).
  { intros j Hj. destruct (load_lookup sn false p Wm (proj1 S) Sz (Z.to_nat j) (snap_of p (element (g j) p))) as [st E]; [rewrite loaded_all; now apply Hs|].
    exists st. unfold element. rewrite (zget_lookup _ _ _ _ E). now rewrite Z2Nat.id by lia. }
  split_and!; [|now apply ok_load|exact Fo|exact Fi|apply load_box|unfold getN; lia|unfold getNTypes; now rewrite Ft|apply load_ghosts|].
  - destruct (load_unfold sn false p) as [_ U]. destruct (load_result sn false p Wm Sz) as (_ & _ & _ & R & _). rewrite R, loaded_all in U.
    rewrite (surjective_pairing (initializeFromSnapshot sn false p)) at 1. f_equal. apply U. right. simpl. apply foldl_max_bound.
    + destruct (Hin 0 ltac:(lia)) as [_ T0]. unfold getNTypes in T0. lia.
    + intros s [j Hj]%list_elem_of_lookup_1. pose proof (lookup_lt_Some _ _ _ Hj). rewrite <- (Nat2Z.id j) in Hj. rewrite (Hs (Z.of_nat j)) in Hj by lia. injection Hj as <-.
      destruct (Hw (Z.of_nat j) ltac:(lia)) as [im ->]. simpl. apply Hin. apply Hg. lia.
  - split; intros j.
    + apply Hg.
    + intros j' Hj Hj' E. destruct (Hg j Hj) as [_ A], (Hg j' Hj') as [_ B]. rewrite E, B in A. injection A as A. pose proof (Ht j Hj) as C. pose proof (Ht j' Hj') as D. rewrite <- A in C.
      apply Z2Nat.inj; [lia..|]. eapply NoDup_lookup; [|exact C|exact D]. apply sorted_nodup, (wf_sorted p W).
    + intros Hj. destruct (El j Hj) as [st ->]. destruct (Hw j Hj) as [im ->]. apply sub_zero.
    + intros Hj. destruct (El j Hj) as [st ->]. now destruct (Hw j Hj) as [im ->].
    + intros Hj. destruct (El j Hj) as [st ->]. now destruct (Hw j Hj) as [im ->].
Qed.

(** * The particles in the reduced box *)

Definition all_periodic (b : BoxDim.t) : Prop := BoxDim.m_periodic b = BoxDim.make_uchar3 true true true.

Lemma centred_origin b : BoxDim.centred b -> (s3y (BoxDim.wrap_origin b) == 0 /\ s3z (BoxDim.wrap_origin b) == 0)%Q.
Proof. intros (Cx & Cy & Cz). cbn in Cx, Cy, Cz. unfold BoxDim.wrap_origin. case_all; cbn; rewrite ?Cy, ?Cz; split; field. Qed.

(** The offsets from the tilted axes after shearing the box. *)
Lemma sheared_offsets b xy xz yz i j k x u w : BoxDim.wf b -> BoxDim.centred b -> let b' := BoxDim.setTiltFactors xy xz yz b in sheared b b' i j k ->
  (s3y (BoxDim.m_L b) * u == s3y x - BoxDim.tilt_y b x)%Q -> (s3z (BoxDim.m_L b) * w == s3z x)%Q ->
  (s3x x - BoxDim.tilt_x b' x == s3x x - BoxDim.tilt_x b x - inject_Z i * (s3x (BoxDim.m_L b) * u) - inject_Z j * (s3x (BoxDim.m_L b) * w) /\
   s3y x - BoxDim.tilt_y b' x == s3y x - BoxDim.tilt_y b x - inject_Z k * (s3y (BoxDim.m_L b) * w))%Q.
Proof.
  cbv zeta. intros (_ & (Px & Py & Pz) & _) C [_ Ey Ezx Ezy] Eu Ew. destruct (centred_origin b C) as [Oy Oz].
  unfold y_x, z_x, z_y, BoxDim.tilt_x, BoxDim.tilt_y in *. change (BoxDim.wrap_origin (BoxDim.setTiltFactors xy xz yz b)) with (BoxDim.wrap_origin b).
  cbn [BoxDim.setTiltFactors BoxDim.m_L BoxDim.m_xy BoxDim.m_xz BoxDim.m_yz] in *. rewrite Oy, Oz in *.
  set (Lx := s3x (BoxDim.m_L b)) in *. set (Ly := s3y (BoxDim.m_L b)) in *. set (Lz := s3z (BoxDim.m_L b)) in *.
  assert (Y : (yz == BoxDim.m_yz b + inject_Z k * (Ly / Lz))%Q) by (apply (Qmult_inj_l _ _ Lz); [lra|]; rewrite Ezy; field; lra).
  assert (X : (xy == BoxDim.m_xy b + inject_Z i * (Lx / Ly))%Q) by (apply (Qmult_inj_l _ _ Ly); [lra|]; rewrite Ey; field; lra).
  assert (Z : (xz == BoxDim.m_xz b + inject_Z j * (Lx / Lz) + inject_Z k * (Ly / Lz) * xy)%Q) by (apply (Qmult_inj_l _ _ Lz); [lra|]; rewrite Ezx; field; lra).
  assert (U : (u == (s3y x - BoxDim.m_yz b * s3z x) / Ly)%Q) by (apply (Qmult_inj_l _ _ Ly); [lra|]; rewrite Eu; field; lra).
  assert (V : (w == s3z x / Lz)%Q) by (apply (Qmult_inj_l _ _ Lz); [lra|]; rewrite Ew; field; lra).
  rewrite Z, X, Y, U, V. split; field; lra.
Qed.

Lemma unit_product (i : Z) (len f : Q) : Z.abs i <= 1 -> (0 < len)%Q -> (- (len * (1 # 2)) <= len * f <= len * (1 # 2))%Q ->
  (- (len * (1 # 2)) <= inject_Z i * (len * f) <= len * (1 # 2))%Q.
Proof.
  intros Hi Hl Hf. assert (i = -1 \/ i = 0 \/ i = 1) as [->|[->| ->]] by lia; [change (inject_Z (-1)) with (- (1))%Q|change (inject_Z 0) with 0%Q|change (inject_Z 1) with 1%Q]; lra.
Qed.

Lemma inside_eq b v v' : v =3= v' -> BoxDim.inside b v' -> BoxDim.inside b v.
Proof.
  intros (E1 & E2 & E3) (Ix & Iy & Iz). unfold BoxDim.inside, BoxDim.tilt_x, BoxDim.tilt_y in *. cbn zeta in *. rewrite E1, E2, E3. auto.
Qed.

(** The image of a particle changes by at most one. *)
Lemma sheared_wraps b xy xz yz i j k x : BoxDim.wf b -> BoxDim.centred b -> all_periodic b -> let b' := BoxDim.setTiltFactors xy xz yz b in sheared b b' i j k ->
  Z.abs i <= 1 -> Z.abs j <= 1 -> Z.abs k <= 1 -> BoxDim.inside b x -> BoxDim.within_one_image b' x.
Proof.
  cbv zeta. intros W C Pe S Hi Hj Hk (Ix & Iy & Iz). pose proof W as ((Lx & Ly & Lz) & (Px & Py & Pz) & _). pose proof C as (Cx & Cy & Cz). cbn [s3_sub s3_opp s3x s3y s3z] in *.
  set (u := ((s3y x - BoxDim.tilt_y b x) / s3y (BoxDim.m_L b))%Q). set (w := (s3z x / s3z (BoxDim.m_L b))%Q).
  destruct (sheared_offsets b xy xz yz i j k x u w W C S) as [Ex Ey]; [unfold u; field; lra|unfold w; field; lra|].
  unfold all_periodic in Pe. rewrite Pe in Ix, Iy, Iz. cbn in Ix, Iy, Iz. specialize (Ix eq_refl). specialize (Iy eq_refl). specialize (Iz eq_refl).
  assert (Bu : (- (1 # 2) <= u <= 1 # 2)%Q) by (split; [apply Qle_shift_div_l|apply Qle_shift_div_r]; lra). assert (Bw : (- (1 # 2) <= w <= 1 # 2)%Q) by (split; [apply Qle_shift_div_l|apply Qle_shift_div_r]; lra).
  pose proof (unit_product i _ u Hi Px ltac:(split; nra)). pose proof (unit_product j _ w Hj Px ltac:(split; nra)). pose proof (unit_product k _ w Hk Py ltac:(split; nra)).
  split_and!; intros _; rewrite ?Ex, ?Ey; cbn [BoxDim.setTiltFactors BoxDim.m_L BoxDim.m_lo BoxDim.m_hi]; lra.
Qed.

Lemma tilted_wf b xy xz yz : BoxDim.wf b -> BoxDim.wf (BoxDim.setTiltFactors xy xz yz b).
Proof. intros W. exact W. Qed.

(** The particles of [q] are those of [p], each at one of its periodic images. *)
Record same_system (N : Z) (b : BoxDim.t) (p q : pdata) (g : Z -> Z) : Prop := {
  ss_range : forall j, 0 <= j < N -> 0 <= g j < N;
  ss_inj : forall i j, 0 <= i < N -> 0 <= j < N -> g i = g j -> i = j;
  ss_pos : forall j, 0 <= j < N -> exists n, pos (element j q) =3= BoxDim.shift b (pos (element (g j) p)) n;
  ss_typ : forall j, 0 <= j < N -> typ (element j q) = typ (element (g j) p);
  ss_orientation : forall j, 0 <= j < N -> orientation (element j q) = orientation (element (g j) p)
}.

Lemma shift_zero b v : BoxDim.shift b v zero_i3 =3= v.
Proof. destruct (shift_components b v zero_i3) as (A1 & A2 & A3). cbn [s3x s3y s3z i3x i3y i3z zero_i3] in *. repeat split; [rewrite A1|rewrite A2|rewrite A3]; change (inject_Z (i3x zero_i3)) with 0%Q; change (inject_Z (i3y zero_i3)) with 0%Q; change (inject_Z (i3z zero_i3)) with 0%Q; ring. Qed.

#[export] Instance shift_proper b : Proper (s3_eq ==> eq ==> s3_eq) (BoxDim.shift b).
Proof.
  intros v v' (E1 & E2 & E3) n ? <-. destruct (shift_components b v n) as (A1 & A2 & A3), (shift_components b v' n) as (B1 & B2 & B3). cbn [s3x s3y s3z] in *.
  repeat split; [rewrite A1, B1, E1|rewrite A2, B2, E2|rewrite A3, B3, E3]; reflexivity.
Qed.

Lemma same_system_refl N b p : same_system N b p p (fun j => j).
Proof. split; auto. intros j _. exists zero_i3. now rewrite shift_zero. Qed.

Lemma same_system_trans N b b' f p q r g g' : same_lattice b b' f -> same_system N b p q g -> same_system N b' q r g' -> same_system N b p r (fun j => g (g' j)).
Proof.
  intros [El _] [R1 I1 P1 T1 O1] [R2 I2 P2 T2 O2]. split; auto.
  - intros j Hj. destruct (P2 j Hj) as [n' E'], (P1 (g' j) (R2 j Hj)) as [n E]. exists (i3_add n (f n')).
    now rewrite E', El, E, shift_shift.
  - intros j Hj. rewrite T2, T1; auto.
  - intros j Hj. rewrite O2, O1; auto.
Qed.

Section overshear.
Context `{L : ShapeLaws}.
Context (nt : Z) (par : Z -> param_type) (mat : Z -> Z -> bool) (cut : Z -> Scalar) (N : Z).
Implicit Types (m : mono) (p q : pdata).

(** A configuration in a periodic box centred on the origin. *)
Record reducible p m : Prop := {
  rd_configuration : configuration nt par mat N p;
  rd_integrator : integrator_ok nt par mat cut N p m;
  rd_ok : ok p;
  rd_origin : m_origin p = BoxDim.zero3 /\ m_o_image p = zero_i3;
  rd_wf : BoxDim.wf (m_global_box p);
  rd_centred : BoxDim.centred (m_global_box p);
  rd_periodic : all_periodic (m_global_box p)
}.

Lemma lattice_free b b' f p : overlap_free par mat b N p -> same_lattice b b' f -> overlap_free par mat b' N p.
Proof.
  intros F [El En] i j n Hi Hj Ne M. eapply disjoint_proper; [|apply (F i j (f n) Hi Hj); [destruct Ne as [Ne|Ne]; [now left|right; now apply En]|exact M]].
  now rewrite El.
Qed.

Lemma permuted_free b p q g : overlap_free par mat b N p -> permuted N p q g -> overlap_free par mat b N q.
Proof.
  intros F [Ra In Po Ty Or] i j n Hi Hj Ne. unfold apart, quat_at. rewrite !Ty, !Or by assumption. intros M.
  eapply disjoint_proper; [|apply (F (g i) (g j) n); [now apply Ra|now apply Ra| |exact M]].
  - now rewrite !Po by assumption.
  - destruct Ne as [Ne|Ne]; [left|now right]. intros E. apply Ne. now apply In.
Qed.

(** The particles wrapped into the sheared box. *)
Lemma wrapped_spec p m b' i j k xy xz yz : 0 < N -> reducible p m -> b' = BoxDim.setTiltFactors xy xz yz (m_global_box p) -> sheared (m_global_box p) b' i j k -> Z.abs i <= 1 -> Z.abs j <= 1 -> Z.abs k <= 1 ->
  exists l, wrap_particles (setGlobalBox b' p) = Ret (set_ptl l (setGlobalBox b' p)) /\ length l = length (m_ptl p) /\
    configuration nt par mat N (set_ptl l (setGlobalBox b' p)) /\ ok (set_ptl l (setGlobalBox b' p)) /\ same_system N (m_global_box p) p (set_ptl l (setGlobalBox b' p)) (fun j => j).
Proof.
  intros HN [C O K [Oo Oi] W Ce Pe] Eb S Hi Hj Hk. set (p0 := setGlobalBox b' p).
  assert (P0 : particles_ok nt N p0) by (destruct (cf_particles _ _ _ _ _ C) as [A B]; split; [exact A|exact B]).
  destruct (hpmc_wrap_spec nt N p0 P0 (cf_N _ _ _ _ _ C) ltac:(lia)) as (l & E & Ll & El). exists l. split; [exact E|]. split; [exact Ll|].
  change (m_global_box p0) with b' in El. cbv zeta in El. change (fun j => element j p0) with (fun j => element j p) in El.
  assert (Sh : forall h, 0 <= h < N -> exists n, pos (element h (set_ptl l p0)) =3= BoxDim.shift b' (pos (element h p)) n).
  { intros h Hh. rewrite El by exact Hh. change (element h p0) with (element h p). set (w := BoxDim.wrap _ _ _ _). pose proof (wrap_shift b' (pos (element h p)) (image (element h p)) BoxDim.no_flags) as Sh. fold w in Sh.
    eexists. cbn [pos e_pos]. exact (shift_moved _ _ _ _ _ Sh). }
  assert (Same : forall h, 0 <= h < N -> typ (element h (set_ptl l p0)) = typ (element h p) /\ orientation (element h (set_ptl l p0)) = orientation (element h p)) by (intros h Hh; now rewrite El).
  pose proof (sheared_lattice _ _ _ _ _ S) as La.
  split; [split|split].
  - split; [simpl; rewrite Ll; apply (po_length _ _ _ P0)|]. intros h Hh. rewrite (proj1 (Same h Hh)). apply (po_type _ _ _ P0 h Hh).
  - apply (cf_types _ _ _ _ _ C).
  - apply (cf_N _ _ _ _ _ C).
  - apply (cf_ghosts _ _ _ _ _ C).
  - intros h Hh. change (m_global_box (set_ptl l p0)) with b'. rewrite El by exact Hh. cbn [pos e_pos]. change (element h p0) with (element h p). apply wrap_inside; [subst b'; exact W|].
    pose proof (cf_inside _ _ _ _ _ C h Hh) as In. rewrite Eb in S |- *. now apply (sheared_wraps _ _ _ _ i j k).
  - change (m_global_box (set_ptl l p0)) with b'. apply (images_overlap_free par mat b' N p); [apply (lattice_free _ _ _ _ (cf_free _ _ _ _ _ C) La)| |exact Sh].
    intros h Hh. unfold quat_at. destruct (Same h Hh) as [-> ->]. now split.
  - apply ok_set_ptl; [now apply (step_ok p); [constructor|]|exact Ll|]. intros h Hh. change (getN p0) with (getN p) in Hh. rewrite (cf_N _ _ _ _ _ C) in Hh. change (zget zero_element l h) with (element h (set_ptl l p0)). now rewrite El.
  - split; auto; try (intros h Hh; apply Same, Hh). intros h Hh. destruct (Sh h Hh) as [n E2]. exists (sheared_index i j k n). rewrite E2. apply La.
Qed.

Lemma remove_overshear_spec p m : 0 < N -> reducible p m -> match reduced_box (m_global_box p) with
  | None => remove_overshear p m = Ret (false, p, m)
  | Some b' => exists p' m' g, remove_overshear p m = Ret (true, p', m') /\ reducible p' m' /\ m_global_box p' = b' /\ same_system N (m_global_box p) p p' g
  end.
Proof.
  intros HN Rd. pose proof Rd as [C O K [Oo Oi] W Ce Pe]. pose proof (reduced_box_spec _ W) as Sp. unfold remove_overshear. destruct (reduced_box (m_global_box p)) as [b'|]; [|reflexivity].
  destruct Sp as (i & j & k & Hi & Hj & Hk & S & _ & xy & xz & yz & Eb).
  destruct (wrapped_spec p m b' i j k xy xz yz HN Rd Eb S Hi Hj Hk) as (l & E & Ll & C1 & K1 & S1). rewrite E. cbn [run_bind]. set (p1 := set_ptl l (setGlobalBox b' p)) in *.
  destruct (reload_spec N p1 K1 HN (cf_N _ _ _ _ _ C1) Oo Oi) as (sn & q & g & Et & Ei & Kq & Oq & Oiq & Bq & Nq & Tq & Gq & Pm).
  { intros h Hh. split; [now apply (cf_inside _ _ _ _ _ C1)|]. rewrite (cf_types _ _ _ _ _ C1). now apply (po_type _ _ _ (cf_particles _ _ _ _ _ C1)). }
  rewrite Et, Ei. cbn [lift run_bind]. exists q, (slotSorted (slotBoxChanged m)), g. split; [reflexivity|]. change (m_global_box p1) with b' in Bq.
  assert (Cq : configuration nt par mat N q).
  { split; try assumption; [|rewrite Tq; apply (cf_types _ _ _ _ _ C1)| |].
    - split; [destruct Kq as [Wq _]; pose proof (wf_memory _ Wq) as Mq; rewrite (wf_ptl _ Mq); pose proof (wf_N _ Mq); unfold getN in Nq; lia|].
      intros h Hh. rewrite (pm_typ _ _ _ _ Pm h Hh). apply (po_type _ _ _ (cf_particles _ _ _ _ _ C1)). now apply (pm_range _ _ _ _ Pm).
    - intros h Hh. rewrite Bq. pose proof (cf_inside _ _ _ _ _ C1 (g h) (pm_range _ _ _ _ Pm h Hh)) as In. change (m_global_box p1) with b' in In.
      pose proof (pm_pos _ _ _ _ Pm h Hh) as Ph. now apply (inside_eq _ _ _ Ph).
    - rewrite Bq. apply (permuted_free b' p1 q g (cf_free _ _ _ _ _ C1) Pm). }
  split; [|split; [exact Bq|]].
  - split; [exact Cq| |exact Kq|now split|rewrite Bq, Eb; exact W|rewrite Bq, Eb; exact Ce|rewrite Bq, Eb; exact Pe].
    destruct O as [T _ _ Ns]. assert (F : frame m (slotSorted (slotBoxChanged m))) by now split. split; [exact (tables_frame _ _ _ _ _ _ F T)|discriminate|discriminate|exact Ns].
  - apply (same_system_trans N _ _ _ p p1 q (fun j => j) g (sheared_lattice _ _ _ _ _ S) S1). destruct Pm as [Ra In Po Ty Or]. split; auto. intros h Hh. exists zero_i3. now rewrite shift_zero, Po.
Qed.

(** The loop ends: the squared lengths decrease on a grid. *)
Lemma overshear_loop_spec K : 0 < N -> 0 < K -> forall fuel p m a c d e f, reducible p m -> on_grid K (m_global_box p) a c d e f -> grid_norm d e f < Z.of_nat fuel ->
  exists p' m' g h, overshear_loop fuel p m = Ret (p', m') /\ reducible p' m' /\ reduced (m_global_box p') /\ BoxDim.m_L (m_global_box p') = BoxDim.m_L (m_global_box p) /\
    same_lattice (m_global_box p) (m_global_box p') h /\ same_system N (m_global_box p) p p' g.
Proof.
  intros HN HK. induction fuel as [|fuel IH]; intros p m a c d e f Rd G Lt; [unfold grid_norm in Lt; nia|]. simpl.
  pose proof (remove_overshear_spec p m HN Rd) as Sp. pose proof (reduced_box_spec _ (rd_wf _ _ Rd)) as Rb. destruct (reduced_box (m_global_box p)) as [b'|].
  - destruct Sp as (p1 & m1 & g & E & Rd1 & B1 & S1). destruct Rb as (i & j & k & _ & _ & _ & Sh & Dec & _). rewrite E. cbn [run_bind].
    pose proof (sheared_grid _ _ _ _ _ _ _ _ _ _ _ Sh G) as G1. pose proof (grid_decreases _ _ _ _ _ _ _ _ _ _ _ _ _ HK G G1 Dec) as D1. rewrite <- B1 in G1.
    destruct (IH p1 m1 _ _ _ _ _ Rd1 G1 ltac:(lia)) as (p' & m' & g' & h & E' & Rd' & Re' & L' & La' & S'). rewrite B1 in L', La', S'. pose proof (sheared_lattice _ _ _ _ _ Sh) as La.
    exists p', m', (fun j => g (g' j)), (fun n => sheared_index i j k (h n)). split; [exact E'|]. split; [exact Rd'|]. split; [exact Re'|]. split; [rewrite L'; apply (sh_L _ _ _ _ _ Sh)|]. split.
    + destruct La as [A1 A2], La' as [A3 A4]. split; [intros v n; now rewrite A3, A1|auto].
    + apply (same_system_trans N _ _ _ p p1 p' g g' La S1 S').
  - rewrite Sp. cbn [run_bind]. exists p, m, (fun j => j), (fun n => n). split; [reflexivity|]. split; [exact Rd|]. split; [exact Rb|]. split; [reflexivity|]. split; [split; [reflexivity|auto]|apply same_system_refl].
Qed.

End overshear.

(** C20. Lattice reduction. From a configuration in a periodic box centred on the
    origin, the loop that calls [remove_overshear] until it has nothing to do ends,
    with all sufficiently large fuel. The box of the result has the same lengths and
    the same lattice, and no component of its vectors exceeds half of the vector it
    could be reduced by. The particles are the particles of the start, each at one
    of its periodic images, with its type and orientation, and the state is again a
    valid configuration without overlaps. *)
Theorem lattice_reduction `{L : ShapeLaws} (nt : Z) (par : Z -> param_type) (mat : Z -> Z -> bool) (cut : Z -> Scalar) (N : Z) (p : pdata) (m : mono)
    (HN : 0 < N) (Rd : reducible nt par mat cut N p m) :
  exists n, forall fuel, (n <= fuel)%nat -> exists p' m' g h, overshear_loop fuel p m = Ret (p', m') /\
    reducible nt par mat cut N p' m' /\ reduced (m_global_box p') /\ BoxDim.m_L (m_global_box p') = BoxDim.m_L (m_global_box p) /\
    same_lattice (m_global_box p) (m_global_box p') h /\ same_system N (m_global_box p) p p' g.
Proof.
  destruct (grid_exists (m_global_box p)) as (K & a & c & d & e & f & HK & G). exists (S (Z.to_nat (grid_norm d e f))). intros fuel Hf.
  apply (overshear_loop_spec nt par mat cut N K HN HK fuel p m a c d e f Rd G). unfold grid_norm in *. nia.
Qed.

(** Two spheres in a cube whose second vector is tilted by the first one. *)
Definition tilted_box : BoxDim.t := BoxDim.make_array 4 4 4 1 0 0.
Definition tilted : pdata := (initializeFromSnapshot (mkSnapshot [snap_at (-1) 0 NO_BODY; snap_at 1 0 NO_BODY] ["A"%string] false) false (setGlobalBox tilted_box fresh)).1.

Lemma tilted_configuration : configuration 1 (one_type (1 # 2)) all_interact 2 tilted.
Proof.
  assert (Cases : forall j, 0 <= j < 2 -> j = 0 \/ j = 1) by lia. split; try reflexivity.
  - split; [vm_compute; discriminate|]. intros j Hj. destruct (Cases j Hj) as [->| ->]; vm_compute; now split.
  - intros j Hj. destruct (Cases j Hj) as [->| ->]; vm_compute; repeat split; discriminate.
  - assert (S : sheared (m_global_box far_apart) (m_global_box tilted) 1 0 0) by (split; vm_compute; reflexivity).
    assert (P : permuted 2 far_apart tilted (fun j => j)) by (split; auto; intros j Hj; destruct (Cases j Hj) as [->| ->]; vm_compute; repeat split; reflexivity).
    apply (lattice_free _ _ _ _ _ _ _ (permuted_free _ _ _ _ far_apart tilted (fun j => j) (cf_free _ _ _ _ _ far_configuration) P) (sheared_lattice _ _ _ _ _ S)).
Qed.

Lemma lattice_reduction_witness : exists n, forall fuel, (n <= fuel)%nat -> exists p' m' g h, overshear_loop fuel tilted (spheres (1 # 2)) = Ret (p', m') /\
  reducible 1 (one_type (1 # 2)) all_interact no_cutoff 2 p' m' /\ reduced (m_global_box p') /\ BoxDim.m_L (m_global_box p') = BoxDim.m_L tilted_box /\
  same_lattice tilted_box (m_global_box p') h /\ same_system 2 tilted_box tilted p' g.
Proof.
  apply (@lattice_reduction ShapeSphere SphereLaws 1 (one_type (1 # 2)) all_interact no_cutoff 2 tilted (spheres (1 # 2))).
  - lia.
  - split.
    + exact tilted_configuration.
    + apply spheres_ok. lra.
    + apply (load_wf (mkSnapshot [snap_at (-1) 0 NO_BODY; snap_at 1 0 NO_BODY] ["A"%string] false) false (setGlobalBox tilted_box fresh)); [constructor; simpl; auto; lia|reflexivity|vm_compute; discriminate].
    + now split.
    + now apply make_array_wf.
    + vm_compute. repeat split; reflexivity.
    + reflexivity.
Defined.
