(* ===== verification/UpdaterBoxMCTrial.v ===== *)
(** Trial changes of the box: [box_resize_trial] decides by the Metropolis rule
    among configurations without overlaps, and a rejected trial restores the
    particles, the box and the origin. *)

From Stdlib Require Import ZArith Lia QArith Lqa Qabs Qfield String Bool.
From stdpp Require Import base list list_numbers strings.
From S2P Require Import Prelude HOOMDMath VectorMath Index1D BoxDim AABBTree AABBTreeProps ParticleData PairEvaluators NeighborListVerlet NeighborListSpec RandomNumbers.
From S2P Require Import HPMC HPMCMono HPMCMonoProps HPMCMonoSweep HPMCMonoSpec HPMCMonoExamples HPMCMonoCount UpdaterBoxMC UpdaterBoxMCSpec.
Local Open Scope Z_scope.
Local Open Scope hoomd_scope.

(** * Copies of the positions *)

Definition no_backup : Scalar3 * Z := (BoxDim.zero3, 0).

(** The backup holds the positions and types of the particles. *)
Definition backs_up (N : Z) (p : pdata) (u : boxmc) : Prop :=
  N <= Z.of_nat (length (m_pos_backup u)) /\ forall j, 0 <= j < N -> zget no_backup (m_pos_backup u) j = (pos (element j p), typ (element j p)).

Lemma copy_positions_spec nt N p u : particles_ok nt N p -> 0 <= N <= Z.of_nat (length (m_pos_backup u)) ->
  exists l, copy_positions N p u = Ret (set_backup l u) /\ backs_up N p (set_backup l u).
Proof.
  intros P HN. unfold copy_positions.
  destruct (for_each_write no_backup (fun i _ => (pos (element i p), typ (element i p))) (fun i l => bind! e := read (m_ptl p) i in write l i (pos e, typ e)) (m_pos_backup u) N HN) as (l & -> & Ll & El).
  { intros i l Hi _. now rewrite (read_element nt N p i P Hi). }
  exists l. split; [reflexivity|]. split; [simpl; lia|exact El].
Qed.

Lemma restore_positions_spec nt N p q u : particles_ok nt N q -> 0 <= N -> backs_up N p u ->
  exists l, restore_positions N u q = Ret (set_ptl l q) /\ length l = length (m_ptl q) /\
    forall j, 0 <= j < N -> element j (set_ptl l q) = e_typ (typ (element j p)) (e_pos (pos (element j p)) (image (element j q)) (element j q)).
Proof.
  intros P HN [Lb Eb]. pose proof (po_length _ _ _ P) as Lp. unfold restore_positions.
  destruct (for_each_write zero_element (fun i e => e_typ (typ (element i p)) (e_pos (pos (element i p)) (image e) e))
    (fun i l => bind! e := read l i in bind! b := read (m_pos_backup u) i in write l i (e_typ b.2 (e_pos b.1 (image e) e))) (m_ptl q) N ltac:(lia)) as (l & -> & Ll & El).
  { intros i l Hi Ll. rewrite (read_Some _ _ _ (lookup_zget zero_element l i ltac:(lia))). cbn [run_bind]. rewrite (read_Some _ _ _ (lookup_zget no_backup (m_pos_backup u) i ltac:(lia))), Eb by lia. reflexivity. }
  exists l. split; [reflexivity|]. split; [exact Ll|exact El].
Qed.

(** * The energies *)

Lemma totalEnergy_returns nt N f p trial : particles_ok nt N p -> getN p = N -> exists e, totalEnergy f p trial = Ret e.
Proof.
  intros P EN. unfold totalEnergy. match goal with |- context [for_run _ _ ?B _] => destruct (for_run_inv (fun _ _ => True) (Z.to_nat (getN p)) 0 B 0%Q I) as (e & -> & _) end; [|eauto].
  intros i e Hi _. rewrite (read_element nt N p i P) by lia. simpl. eauto.
Qed.

Lemma external_returns nt N w p trial : particles_ok nt N p -> getN p = N -> exists e, computeTotalExternalEnergy w p trial = Ret e.
Proof.
  intros P EN. unfold computeTotalExternalEnergy. generalize 0%Q. induction (m_external_potentials w) as [|f l IH]; intros e; simpl; [eauto|].
  destruct (totalEnergy_returns nt N f p trial P EN) as [x ->]. apply IH.
Qed.

Lemma no_pair_energy `{Shape} `{RealOps Q} `{RealFun Q} image_fuel ndim p m : hasPairInteractions (m_interactions m) = false -> computePairEnergy image_fuel ndim None p m = Ret (0%Q, m).
Proof. intros E. unfold computePairEnergy. now rewrite E. Qed.

(** * The origin *)

Lemma resized_wf L xy xz yz b : (0 < s3x L)%Q -> (0 < s3y L)%Q -> (0 < s3z L)%Q -> BoxDim.wf (BoxDim.setTiltFactors xy xz yz (BoxDim.setL L b)) /\ BoxDim.centred (BoxDim.setTiltFactors xy xz yz (BoxDim.setL L b)).
Proof. destruct L as [x y z]. intros X Y Z. exact (make_array_wf x y z xy xz yz X Y Z). Qed.

Lemma wrap_inside_id b v v' i : v =3= v' -> BoxDim.inside b v' -> (BoxDim.wrap b v i BoxDim.no_flags).1 =3= v' /\ (BoxDim.wrap b v i BoxDim.no_flags).2 = i.
Proof. intros E I. rewrite wrap_id by now apply (inside_eq _ _ v'). split; [exact E|reflexivity]. Qed.

Section trial.
Context `{L : ShapeLaws} `{RealOps Q} `{RealFun Q}.
Context (philox : ctr_type -> key_type -> ctr_type) (rsqrt : Scalar -> Scalar).
Context (field : option (Z -> list (Scalar3 * Z) -> BoxDim.t -> Scalar3 -> pdata -> Scalar)).
Context (nt : Z) (par : Z -> param_type) (mat : Z -> Z -> bool) (cut : Z -> Scalar) (N : Z).
Implicit Types (m : mono) (p : pdata).

(** The state after a rejection. *)
Lemma rejected_spec p p2 m m3 u new_box : 0 < N -> configuration nt par mat N p -> integrator_ok nt par mat cut N p m -> frame m m3 -> scaled rsqrt new_box N p p2 -> backs_up N p u ->
  BoxDim.inside (m_global_box p) (m_origin p) ->
  exists l, restore_positions (getN p2) u p2 = Ret (set_ptl l p2) /\
    let p' := translateOrigin (s3_opp (s3_sub (m_origin p2) (m_origin p))) (setGlobalBox (m_global_box p) (set_ptl l p2)) in
    configuration nt par mat N p' /\ integrator_ok nt par mat cut N p' (slotBoxChanged m3) /\ m_global_box p' = m_global_box p /\
    (forall j, 0 <= j < N -> element j p' = element j p) /\ m_origin p' =3= m_origin p /\ m_o_image p' = m_o_image p2.
Proof.
  intros HN C O F [Sb Sl SN St Sg So Se] B In. rewrite (cf_N _ _ _ _ _ C) in SN. rewrite SN.
  assert (P2 : particles_ok nt N p2).
  { split; [rewrite Sl; apply (po_length _ _ _ (cf_particles _ _ _ _ _ C))|]. intros j Hj. rewrite Se by exact Hj. now apply (po_type _ _ _ (cf_particles _ _ _ _ _ C)). }
  destruct (restore_positions_spec nt N p p2 u P2 ltac:(lia) B) as (l & E & Ll & El). exists l. split; [exact E|]. cbv zeta.
  unfold translateOrigin. set (q := setGlobalBox (m_global_box p) (set_ptl l p2)). change (m_global_box q) with (m_global_box p). change (m_origin q) with (m_origin p2). change (m_o_image q) with (m_o_image p2).
  destruct (wrap_inside_id (m_global_box p) (s3_add (m_origin p2) (s3_opp (s3_sub (m_origin p2) (m_origin p)))) (m_origin p) (m_o_image p2)) as [Wo Wi]; [unfold s3_add, s3_opp, s3_sub, s3_eq; cbn [s3x s3y s3z]; split_and!; ring|exact In|].
  set (w := BoxDim.wrap (m_global_box p) (s3_add (m_origin p2) _) _ _) in *. destruct w as [o oi]. cbn [fst snd] in Wo, Wi.
  assert (Er : forall j, 0 <= j < N -> element j (set_origin o oi q) = element j p).
  { intros j Hj. change (element j (set_ptl l p2) = element j p). rewrite El, Se by exact Hj. now destruct (element j p). }
  split; [|split; [|split; [reflexivity|split; [exact Er|split; [exact Wo|exact Wi]]]]].
  - split; [split| | | | |].
    + simpl. rewrite Ll, Sl. apply (po_length _ _ _ (cf_particles _ _ _ _ _ C)).
    + intros j Hj. rewrite Er by exact Hj. now apply (po_type _ _ _ (cf_particles _ _ _ _ _ C)).
    + change (getNTypes p2 = nt). rewrite St. apply (cf_types _ _ _ _ _ C).
    + exact SN.
    + change (m_nghosts p2 = 0). rewrite Sg. apply (cf_ghosts _ _ _ _ _ C).
    + intros j Hj. rewrite Er by exact Hj. now apply (cf_inside _ _ _ _ _ C).
    + change (m_global_box (set_origin o oi q)) with (m_global_box p). intros i j n Hi Hj Ne. unfold apart, quat_at. rewrite !Er by assumption. now apply (cf_free _ _ _ _ _ C).
  - assert (F' : frame m (slotBoxChanged m3)) by (apply (frame_trans _ m3); [exact F|now split]). split; [exact (tables_frame _ _ _ _ _ _ F' (io_tables _ _ _ _ _ _ _ O))|discriminate|discriminate|].
    rewrite (fr_nselect _ _ F'). apply (io_nselect _ _ _ _ _ _ _ O).
Qed.

Lemma scaled_origin p p2 new_box : scaled rsqrt new_box N p p2 -> BoxDim.wf (m_global_box p) -> BoxDim.centred (m_global_box p) -> BoxDim.wf new_box -> BoxDim.centred new_box ->
  BoxDim.m_periodic new_box = BoxDim.m_periodic (m_global_box p) -> BoxDim.inside (m_global_box p) (m_origin p) -> m_o_image p2 = m_o_image p.
Proof.
  intros [_ _ _ _ _ So _] W C W' C' Pe In. pose proof (scaled_inside rsqrt _ _ _ W C W' C' Pe In) as I'.
  edestruct (wrap_inside_id new_box) as [_ Wi]; [|exact I'|rewrite <- So in Wi; exact Wi]. unfold s3_add, s3_sub, s3_eq. cbn [s3x s3y s3z]. split_and!; ring.
Qed.

End trial.


(** Two spheres in a cube of side 4, scaled to a cube of side 5. *)
Definition side5 : Scalar3 := make_scalar3 5 5 5.
Definition wider : BoxDim.t := BoxDim.setTiltFactors 0 0 0 (BoxDim.setL side5 (m_global_box far_apart)).
Definition far_scaled : pdata := Eval vm_compute in match scale_to Qinv wider far_apart with Ret p => p | _ => far_apart end.
Definition scaled_counted : mono := Eval vm_compute in prepared (spheres (1 # 2)) (@refresh _ reduced_ops reduced_fun 4 3 far_scaled (slotBoxChanged (spheres (1 # 2)))).
Definition boxmc2 : boxmc := new_boxmc (fun _ => 1%Q) far_apart.
Definition generator0 : RandomGenerator := new_generator (mkKey 0 0) (mkCtr 0 0 0 0).


(** A length of zero passes the check of [safe_box]: the volume of the box is then
    zero, while the comment asks for a positive one. *)
Theorem safe_box_zero : safe_box (make_scalar3 0 1 1) 3 = true /\ (box_volume (make_scalar3 0 1 1) 3 == 0)%Q.
Proof. now vm_compute. Qed.

(** An unknown mode is stored before the setter throws. *)
Theorem volume_mode_kept : (setVolumeParams "log" 1 1 far_apart boxmc2).2 = Throw (runtime_error "Unknown mode for volume moves") /\
  m_volume_mode (setVolumeParams "log" 1 1 far_apart boxmc2).1 = "log"%string.
Proof. now vm_compute. Qed.
